(* ===== verification/_CoqProject ===== *)
-Q . S2P
Prelude.v
Shadow.v
Report.v
Guard.v
GuardEntry.v
InlineGuard.v
Classes.v
Heap.v
HugeBlocks.v
Sweep.v
SweepStop.v
SweepSignal.v
SweepScan.v
ScanFacts.v
Allocator.v
HeapFacts.v
PopFacts.v
CacheFacts.v
MarkFacts.v
SweepWork.v
SweepFacts.v
SweepRoots.v
HugeFacts.v
AllocFacts.v
LiveFacts.v
ReleaseFacts.v
CallFacts.v
ReallocFacts.v
Setup.v
Refinement.v
HeapTheorems.v
Frames.v
FramesFacts.v
FrameEntry.v
Asan.v
Globals.v
Libc.v
LibcFormat.v
LibcFacts.v
LibcCalls.v
FormatFacts.v
LibTerm.v
LibrarySpec.v
LibraryParse.v
CallGuards.v
CallRuns.v
GuardRules.v
GuardRuns.v
GuardMerges.v
GuardScopes.v
GuardRoots.v
RootFacts.v
GuardLoops.v
LoopRuns.v
Ledger.v
GuardInsert.v
InsertFacts.v
GuardPlaces.v
Driver.v
DriverFacts.v
Witnesses.v
LibcWitnesses.v
CallWitnesses.v
GuardWitnesses.v
LoopWitnesses.v
InsertWitnesses.v
HeapWitnesses.v
ScanWitnesses.v
CompilerWitnesses.v
