(* ===== verification/Prelude.v ===== *)
(** * WeaveC: a verification library

    WeaveC compiles C so that memory errors stop the program: a pass puts
    guards before memory accesses ([src/lib/Frontend]), and a runtime
    ([src/runtime]) keeps one shadow byte per 16 bytes of address space, which
    the guards read, and the allocator and the frames of guarded functions
    write.  This library models both halves as Rocq functions translated from
    the C and C++ sources and proves that they do what they promise each other.

    ** The parts, and the files that model them

    Shared: [Prelude] has machine words, little-endian loads and stores, the
    hint database [weavec] and the tactics [bool_cases], [bool_hyps], [euclid].

    The runtime's shadow and guards:
    - [Shadow] ([runtime/weavec_rt.h], [weavec_alloc.c]): the encoding of a
      shadow byte, the eight-byte quick check, and the writers of the shadow.
      Its specification is [addressable]: what the shadow says of one byte.
    - [Report] ([weavec_report.c]): report lines, the table of sites already
      reported, whether a failure stops the program.
    - [Guard], [GuardEntry] ([weavec_guard.c]): the slow path of a guard and the
      runtime's entry points, in a state monad over shadow and reports.
    - [Asan] ([weavec_asan.c]): AddressSanitizer's interface over the shadow.
    - [Libc], [LibcFormat] ([weavec_libc.c]): the wrappers of the C library and
      the scan of a format; [LibcFacts], [LibcCalls], [FormatFacts] their
      theorems.

    The allocator ([weavec_alloc.c]):
    - [Classes]: size classes, the arena's reservation, the slot of an address,
      slot colors.
    - [Heap], [HugeBlocks]: the allocator's state, slots, free lists, quarantine
      queues, thread caches; the table of huge blocks.
    - [Allocator]: the program's calls, [__weavec_rt_alloc] and the rest;
      [Setup]: the start of the program.
    - [HeapFacts] to [ReallocFacts]: the invariant [alloc_inv], with the place
      of every slot, preserved by every step ([PopFacts], [CacheFacts],
      [HugeFacts], [AllocFacts], [LiveFacts], [ReleaseFacts], [CallFacts]).
    - [Refinement]: the specification of a heap, and that executions of the
      allocator are executions of it; [HeapTheorems]: what follows.

    The sweep ([weavec_sweep.c], and the allocator's side of it):
    - [Sweep]: marking, recycling, pacing and [weavecRtSweep]; [MarkFacts],
      [SweepFacts] their lemmas.  Its roots, and whether they are complete, are
      the system's answers; the next three files say where they come from.
    - [SweepStop]: the stop of the threads, a step relation of the sweeping
      thread and the handlers; [SweepSignal]: which signal, and the program's
      masks.
    - [SweepScan], [ScanFacts]: the runtime's own mappings, the stacks, and
      /proc/self/maps: the ranges that are marked.
    - [SweepWork]: the mark divided among workers, and that they make the marks
      of one thread; [SweepRoots]: from the text of the mappings to the marks.

    The pass ([lib/Frontend]):
    - [GuardInsert], [InsertFacts] ([GuardInsert.cpp], [GuardPass.cpp]): the
      accesses of an instruction and the markers put before it, the barriers
      the optimizer sees, the guards it never sees.
    - [CallGuards], [CallRuns] ([GuardLibrary.cpp]): the code around library
      calls, and what it does at run time.
    - [GuardLoops], [LoopRuns] ([GuardLoops.cpp]): versioned loops.
    - [GuardRules] ([GuardExpand.cpp], [GuardPass.cpp]): redundant guards, hulls,
      scopes and escapes; [GuardRuns] the tests of a guard and the runs of a
      function, and what removing guards does to them, [GuardMerges] what
      merging does, [GuardScopes] the scan of scopes.
    - [GuardRoots], [RootFacts], [GuardPlaces] ([GuardExpand.cpp]): the roots
      whose colors are checked, where their shadow is loaded, the order of
      expansion.
    - [InlineGuard] ([GuardPass.cpp]): the code a guard becomes in the program.
    - [Frames], [FramesFacts], [FrameEntry] ([GuardFrames.cpp],
      [GuardPass.cpp]): the layout of a guarded frame, the stores to its shadow
      on entry and at lifetime markers.
    - [Globals] ([GuardGlobals.cpp]): redzones after globals.
    - [Ledger] ([EnforcementLedger.cpp], [UnsafeRegions.cpp]): the rows of a
      unit's accesses, the unsafe regions.
    - [LibTerm], [LibrarySpec], [LibraryParse] ([lib/Core/LibrarySpec.cpp]): the
      C library table: its terms, its parser, its lookup.
    - [Driver], [DriverFacts] ([Driver.cpp]): command line, [-cc1] lines, link
      line.

    The theorems at concrete inputs are in the files named Witnesses, by part.

    ** How they interact

    The interfaces are type classes: [Pages] and [System] (what the operating
    system answers), [NextAllocator] (the C library's own allocator), [Thread]
    (the thread's stack), [Bytes] (the program's memory a string guard reads),
    [HeapView] (what the allocator tells a report of an address), [Toolchain]
    (what Clang and the file system tell the driver), [Values], [Evolution],
    [LoopEvolution], [Addresses], [Folder] and [Layout] (what LLVM answers of
    values, loops and types), [RangeTest] (the runtime's answers a versioned
    loop is entered on, of which [LoopRuns] gives the runtime's instance).

    Shadow values flow from [Frames], [Globals] and [Heap] to [Guard] through
    [Shadow.addressable]: a writer's theorem says which bytes are addressable,
    a guard's theorem that it fails exactly on the others.  Markers flow through
    the pass: [GuardInsert] puts one before each access, [GuardLoops] and
    [GuardRules] take away those that could not have stopped the program, and
    [InlineGuard] is what the rest become; the call of the slow path they make
    is [GuardEntry]'s.  The sweep's roots come from [SweepStop] (every thread
    waits) and [SweepScan] (every range is read), and [SweepWork] makes the
    marks [Sweep] recycles by.

    ** What the theorems show

    Safety of the heap: the refinement, that stale pointers stay denied, that
    what is referenced is kept and what is not is recycled, that a stop means
    every thread waits, that every root is read, that workers mark as one.
    Exactness of guards: the slow path, the inline code with its null and color
    tests, strings, the frames' scopes, globals, calls of the library (of rows
    that are not wide).  Correctness of the pass: every access gets its marker;
    a guard is a null test, a test of bytes and one of a color, and a function
    without the guards rule 6.2 removes runs as with every guard; merging keeps
    the null test and the bytes of every access, its color where no byte that
    may not be used lies between it and the start of the hull, and makes up no
    stop; a versioned loop runs as the loop with its guards; before the
    optimizer only guards of bytes inside an object in scope are taken away.
    What these need of a function, and what the code loses where it does not
    hold (constants of 2{^61} bytes and more, a null test behind a guard without
    one, colors over a redzone, ranges of static arrays), is in GuardWitnesses
    and LoopWitnesses.  Besides, the readers: the library table, the format, the
    terms, the markers, /proc/self/maps.

    ** Bounds and fuel

    Addresses and sizes are integers with their 64-bit wrap-around written out
    ([add64], [sub64]); slot words and indexes wrap at 32 bits ([wrap32]).
    Loops that are not structural run on a fuel: the scan of a shadow range has
    one unit per granule, the reader of terms four per character ([read_fuel]
    says that is enough), the walk of a class's regions one per region (160),
    the loop of [popClass] one per spare region and three more, the releases
    that waited twice their number and three, a format one per character and
    one, the rounds of rule 6.2 blocks times candidates and two ([rounds_end]),
    the scan of scopes one per block end and successor, the search of a root
    the code's own budget of 256, the lines of /proc/self/maps one per
    character, resident pages one per 512 of them and two, the chunks of a range
    one per four megabytes and one, the runs of a region one per slot and one.

    ** Not modelled

    - Input and output: writing reports, ledgers and statistics, running jobs,
      the resource directory and the entry point, which calls the driver.
    - The allocator's locks: a call of the runtime is one step, and so is the
      marking of one address; the consistency of [fork], and a thread key that
      cannot be made.
    - The condition variables that start workers, and the growing of the buffer
      /proc/self/maps is read into.
    - Darwin: malloc zones, its suspension of threads and walk of mappings, its
      variants of the C library's functions.
    - Of the library's calls, the code around those of wide rows, and the wrappers
      of [gets], [mmap] and the wide calls, are modelled, but the theorems on what
      calls demand leave them out.
    - The construction of LLVM IR and the walk of Clang's AST: the pass's models
      decide what is built, over records of what LLVM says; thunks of functions
      whose address is taken, and bounds checks dropped in unsafe regions,
      rewrite IR only. *)

From Stdlib Require Export ZArith Lia Bool.
From stdpp Require Export base numbers list option.

(** ** Scope and notations *)

Declare Scope weavec_scope.
Delimit Scope weavec_scope with W.
Local Open Scope Z_scope.

(** ** Machine words *)

(** [uintptr_t] and [uint64_t] arithmetic: 64 bits, wrapping. *)
Definition W64 : Z := 2 ^ 64.
Definition wrap64 (z : Z) : Z := z mod 2 ^ 64.
Definition add64 (a b : Z) : Z := wrap64 (a + b).
Definition sub64 (a b : Z) : Z := wrap64 (a - b).

(** ** Bytes of a little-endian load *)

(** [load_le m a n]: the little-endian value of the [n] bytes of [m] at [a]
    ([memcpy] into an unsigned integer on the targets the runtime reads the
    shadow a word at a time on). *)
Fixpoint load_le (m : Z -> Z) (a : Z) (n : nat) : Z :=
  match n with
  | O => 0
  | S n' => m a + 256 * load_le m (a + 1) n'
  end.

(** Byte [i] of a word. *)
Definition byte_at (z i : Z) : Z := (z / 2 ^ (8 * i)) mod 256.

(** The word with the top bit of each of its [n] low bytes set:
    [0x80...80]. *)
Fixpoint hi_bits (n : nat) : Z :=
  match n with
  | O => 0
  | S n' => 128 + 256 * hi_bits n'
  end.

(** Writing the [n] low bytes of [z] at [a], little-endian. *)
Definition store_le (m : Z -> Z) (a : Z) (n : nat) (z : Z) : Z -> Z :=
  fun x => if (a <=? x) && (x <? a + Z.of_nat n) then byte_at z (x - a) else m x.

(** A memory whose bytes are bytes. *)
Definition bytes_ok (m : Z -> Z) : Prop := forall a, 0 <= m a < 256.

(** [fill_bytes m lo n v]: [memset(lo, v, n)]. *)
Definition fill_bytes (m : Z -> Z) (lo n v : Z) : Z -> Z :=
  fun a => if (lo <=? a) && (a <? lo + n) then v else m a.

Lemma load_le_range m a n :
  bytes_ok m -> 0 <= load_le m a n < 256 ^ Z.of_nat n.
Proof.
  intros Hm. revert a. induction n as [|n IH]; intros a; [simpl; lia|].
  rewrite Nat2Z.inj_succ, Z.pow_succ_r by lia. cbn [load_le].
  specialize (Hm a). specialize (IH (a + 1)). lia.
Qed.

Lemma load_le_byte_at m a n i :
  bytes_ok m -> 0 <= i < Z.of_nat n -> byte_at (load_le m a n) i = m (a + i).
Proof.
  intros Hm. revert a i. induction n as [|n IH]; intros a i Hi; [lia|].
  cbn [load_le]. unfold byte_at. pose proof (Hm a) as Ha.
  destruct (decide (i = 0)) as [->|Hne].
  - change (2 ^ (8 * 0)) with 1. rewrite Z.div_1_r, Z.add_0_r.
    rewrite (Z.mul_comm 256), Z_mod_plus_full. apply Z.mod_small; lia.
  - replace (8 * i) with (8 + 8 * (i - 1)) by lia.
    rewrite Z.pow_add_r, <- Z.div_div by lia. change (2 ^ 8) with 256.
    rewrite (Z.mul_comm 256), Z_div_plus_full, (Z.div_small (m a)), Z.add_0_l by lia.
    specialize (IH (a + 1) (i - 1) ltac:(lia)). unfold byte_at in IH.
    rewrite IH. f_equal; lia.
Qed.

Lemma byte_at_testbit z i :
  0 <= i -> Z.testbit z (8 * i + 7) = (128 <=? byte_at z i).
Proof.
  intros Hi. unfold byte_at.
  rewrite Z.add_comm, <- Z.div_pow2_bits by lia.
  generalize (z / 2 ^ (8 * i)); clear z. intros z.
  rewrite <- (Z.mod_pow2_bits_low z 8 7) by lia. change (2 ^ 8) with 256.
  pose proof (Z.mod_pos_bound z 256 ltac:(lia)) as Hb.
  generalize dependent (z mod 256). clear z. intros z Hb.
  rewrite Z.testbit_eqb by lia. change (2 ^ 7) with 128.
  destruct (128 <=? z) eqn:E; Z.to_euclidean_division_equations; lia.
Qed.

Lemma testbit_add_256 x h k :
  0 <= x < 256 -> 0 <= k ->
  Z.testbit (x + 256 * h) k =
  if k <? 8 then Z.testbit x k else Z.testbit h (k - 8).
Proof.
  intros Hx Hk. change 256 with (2 ^ 8) in *. destruct (Z.ltb_spec k 8) as [Hlt|Hge].
  - rewrite <- (Z.mod_pow2_bits_low (x + _) 8 k) by lia.
    rewrite (Z.mul_comm (2 ^ 8)), Z_mod_plus_full, Z.mod_small by lia. done.
  - replace k with (k - 8 + 8) at 1 by lia.
    rewrite <- Z.div_pow2_bits by lia.
    rewrite (Z.mul_comm (2 ^ 8)), Z_div_plus_full, (Z.div_small x) by lia.
    f_equal; lia.
Qed.

Lemma testbit_128 k : 0 <= k -> Z.testbit 128 k = (k =? 7).
Proof.
  intros Hk. change 128 with (2 ^ 7). rewrite Z.pow2_bits_eqb by lia.
  apply Z.eqb_sym.
Qed.

Lemma hi_bits_testbit n k :
  0 <= k ->
  Z.testbit (hi_bits n) k = (k <? 8 * Z.of_nat n) && (k mod 8 =? 7).
Proof.
  revert k. induction n as [|n IH]; intros k Hk.
  - cbn [hi_bits]. rewrite Z.testbit_0_l. destruct (Z.ltb_spec k (8 * Z.of_nat 0)); [lia|done].
  - cbn [hi_bits]. rewrite testbit_add_256 by lia.
    destruct (Z.ltb_spec k 8) as [Hlt|Hge].
    + rewrite testbit_128 by lia. rewrite Z.mod_small by lia.
      destruct (Z.ltb_spec k (8 * Z.of_nat (S n))); [done|lia].
    + rewrite IH by lia.
      replace ((k - 8) mod 8) with (k mod 8).
      2:{ replace (k - 8) with (k + (-1) * 8) by lia. by rewrite Z_mod_plus_full. }
      f_equal. destruct (Z.ltb_spec k (8 * Z.of_nat (S n))), (Z.ltb_spec (k - 8) (8 * Z.of_nat n)); lia.
Qed.

(** The test [(z & 0x80...80) == 0]: every byte under the mask is below
    128. *)
Lemma land_hi_bits_zero z n :
  Z.land z (hi_bits n) = 0 <->
  forall i, 0 <= i < Z.of_nat n -> byte_at z i < 128.
Proof.
  split.
  - intros H i Hi.
    assert (Hb : Z.testbit (Z.land z (hi_bits n)) (8 * i + 7) = false)
      by (rewrite H; apply Z.testbit_0_l).
    rewrite Z.land_spec, hi_bits_testbit, byte_at_testbit in Hb by lia.
    replace ((8 * i + 7) mod 8) with 7 in Hb.
    2:{ rewrite Z.add_comm, Z.mul_comm, Z_mod_plus_full. done. }
    destruct (Z.ltb_spec (8 * i + 7) (8 * Z.of_nat n)); [|lia].
    destruct (Z.leb_spec 128 (byte_at z i)); [done|lia].
  - intros H. apply Z.bits_inj'. intros k Hk.
    rewrite Z.land_spec, Z.testbit_0_l, hi_bits_testbit by lia.
    destruct (Z.ltb_spec k (8 * Z.of_nat n)) as [Hlt|]; [|apply andb_false_r].
    destruct (Z.eqb_spec (k mod 8) 7) as [Heq|]; [|apply andb_false_r].
    rewrite !andb_true_r.
    replace k with (8 * (k / 8) + 7) by (Z.to_euclidean_division_equations; lia).
    assert (0 <= k / 8 < Z.of_nat n) as Hi by (Z.to_euclidean_division_equations; lia).
    rewrite byte_at_testbit by lia. specialize (H _ Hi).
    destruct (Z.leb_spec 128 (byte_at z (k / 8))); [lia|done].
Qed.

(** The eight-granule mask of a chunk check, cut to its [k] low bytes. *)
Lemma chunk_mask c k :
  0 <= k <= 8 ->
  Z.land (Z.land c (Z.shiftl 1 (8 * k) - 1)) 0x8080808080808080
  = Z.land c (hi_bits (Z.to_nat k)).
Proof.
  intros Hk. rewrite <- Z.land_assoc. f_equal.
  assert (k = 0 \/ k = 1 \/ k = 2 \/ k = 3 \/ k = 4 \/ k = 5 \/ k = 6 \/ k = 7
          \/ k = 8) as C by lia.
  repeat destruct C as [->|C]; [..|subst k]; reflexivity.
Qed.

(** The [k] low bytes of a word loaded at [a] are all below 128. *)
Lemma chunk_check m a k :
  bytes_ok m -> 0 <= k <= 8 ->
  Z.land (Z.land (load_le m a 8) (Z.shiftl 1 (8 * k) - 1)) 0x8080808080808080 = 0
  <-> forall i, 0 <= i < k -> m (a + i) < 128.
Proof.
  intros Hm Hk. rewrite chunk_mask by done. rewrite land_hi_bits_zero.
  split; intros H i Hi; specialize (H i ltac:(lia));
    rewrite load_le_byte_at in *; first [done|lia].
Qed.

(** The word mask itself: all eight bytes below 128. *)
Lemma chunk_check8 m a :
  bytes_ok m ->
  Z.land (load_le m a 8) 0x8080808080808080 = 0
  <-> forall i, 0 <= i < 8 -> m (a + i) < 128.
Proof.
  intros Hm. change 0x8080808080808080 with (hi_bits 8).
  rewrite land_hi_bits_zero.
  split; intros H i Hi; specialize (H i ltac:(lia));
    rewrite load_le_byte_at in *; first [done|lia].
Qed.

(** [(chunk >> 8k) & 0xFF], the [k]-th byte of the load. *)
Lemma chunk_byte m a k n :
  bytes_ok m -> 0 <= k < Z.of_nat n ->
  Z.shiftr (load_le m a n) (8 * k) mod 256 = m (a + k).
Proof.
  intros Hm Hk. rewrite Z.shiftr_div_pow2 by lia.
  by apply load_le_byte_at.
Qed.

Lemma fill_bytes_ok m a n v : bytes_ok m -> 0 <= v < 256 -> bytes_ok (fill_bytes m a n v).
Proof. intros Hm Hv x. unfold fill_bytes. destruct (_ && _); [done|apply Hm]. Qed.

Lemma byte_at_range z i : 0 <= byte_at z i < 256.
Proof. apply Z.mod_pos_bound. lia. Qed.

Lemma store_le_ok m a n z : bytes_ok m -> bytes_ok (store_le m a n z).
Proof.
  intros Hm x. unfold store_le. destruct (_ && _); [apply byte_at_range|apply Hm].
Qed.

Lemma land_15 x : Z.land x 15 = x mod 16.
Proof. apply (Z.land_ones x 4). lia. Qed.

Lemma shiftr_4 x : Z.shiftr x 4 = x / 16.
Proof. apply Z.shiftr_div_pow2. lia. Qed.

Lemma wrap64_small x : 0 <= x < 2 ^ 64 -> wrap64 x = x.
Proof. apply Z.mod_small. Qed.

(** [x & ~(2^k - 1)], rounding down to a multiple of [2^k]. *)
Lemma land_lnot_ones x k : 0 <= k -> Z.land x (Z.lnot (2 ^ k - 1)) = x / 2 ^ k * 2 ^ k.
Proof.
  intros Hk. replace (2 ^ k - 1) with (Z.ones k) by (rewrite Z.ones_equiv; lia).
  rewrite <- Z.ldiff_land, Z.ldiff_ones_r, Z.shiftl_mul_pow2, Z.shiftr_div_pow2 by lia.
  done.
Qed.

(** ** Automation *)

Create HintDb weavec discriminated.
#[export] Hint Resolve fill_bytes_ok store_le_ok byte_at_range : weavec.

(** Turns the boolean comparisons of the goal and of the hypotheses into
    propositions, splitting on the ones an [if] scrutinises. *)
Ltac bool_cases :=
  repeat match goal with
  | |- context [?x =? ?y] => destruct (Z.eqb_spec x y)
  | |- context [?x <=? ?y] => destruct (Z.leb_spec x y)
  | |- context [?x <? ?y] => destruct (Z.ltb_spec x y)
  end.

Ltac bool_hyps :=
  repeat match goal with
  | H : _ && _ = true |- _ => apply andb_true_iff in H as [? ?]
  | H : _ || _ = false |- _ => apply orb_false_iff in H as [? ?]
  | H : negb _ = true |- _ => apply negb_true_iff in H
  | H : negb _ = false |- _ => apply negb_false_iff in H
  | H : (_ <? _) = true |- _ => apply Z.ltb_lt in H
  | H : (_ <? _) = false |- _ => apply Z.ltb_ge in H
  | H : (_ <=? _) = true |- _ => apply Z.leb_le in H
  | H : (_ <=? _) = false |- _ => apply Z.leb_gt in H
  | H : (_ =? _) = true |- _ => apply Z.eqb_eq in H
  | H : (_ =? _) = false |- _ => apply Z.eqb_neq in H
  end.

Ltac euclid := Z.to_euclidean_division_equations; lia.
