(* ===== verification/Shadow.v ===== *)
(** * The shadow memory

    One shadow byte per 16-byte granule of a window of the address space
    ([runtime/weavec_rt.h], "The shadow", and the functions of
    [runtime/weavec_alloc.c] that write it).  The shadow is a record of the
    published descriptor and the bytes of the process memory it lies in;
    every function that writes it returns the new record.  The theorems say
    that the optimised writers ([fill], the page remapping of
    [weavecRtShadowClear]) write what a plain [memset] would, that the eight
    byte check [weavecRtQuickOk] only accepts addressable ranges, and that
    [weavecRtShadowObject] makes exactly an object's bytes addressable. *)

From S2P Require Import Prelude.
Local Open Scope Z_scope.

(** ** Shadow values *)

Definition WeavecRtShadowAddressable : Z := 0x00.
Definition WeavecRtShadowGranule : Z := 16.
Definition WeavecRtShadowPoisonFrom : Z := 0xF0.
Definition WeavecRtShadowStackLeft : Z := 0xF1.
Definition WeavecRtShadowStackMid : Z := 0xF2.
Definition WeavecRtShadowStackRight : Z := 0xF3.
Definition WeavecRtShadowStackDynamic : Z := 0xF4.
Definition WeavecRtShadowReturned : Z := 0xF5.
Definition WeavecRtShadowUser : Z := 0xF7.
Definition WeavecRtShadowStackScope : Z := 0xF8.
Definition WeavecRtShadowGlobal : Z := 0xF9.
Definition WeavecRtShadowHeapTail : Z := 0xFA.
Definition WeavecRtShadowHeapFreed : Z := 0xFD.
Definition WeavecRtShadowNull : Z := 0xFE.
Definition WeavecRtNullPage : Z := 65536.

Definition weavecRtShadowFull (v : Z) : bool := v <? 0x80.
Definition weavecRtShadowPoison (v : Z) : bool := WeavecRtShadowPoisonFrom <=? v.
Definition weavecRtShadowBytes (v : Z) : Z := Z.land v 15.

(** [(unsigned char)(0x80 | ((color & 7) << 4) | k)]. *)
Definition weavecRtShadowPartialOf (color k : Z) : Z :=
  Z.lor (Z.lor 0x80 (Z.shiftl (Z.land color 7) 4)) k mod 256.

Definition weavecRtShadowClass (v : Z) : Z :=
  if v <? 0x80 then Z.land v 7 else Z.land (Z.shiftr v 4) 7.

(** The [n]-th color. *)
Definition weavecRtColor (n : Z) : Z :=
  let m := n mod 111 + 1 in
  Z.lor (Z.shiftl (m / 7) 3) (m mod 7) mod 256.

(** ** The descriptor and the bytes *)

(** [struct __weavec_rt_shadow_t], and the process's bytes (only those of the
    shadow are read). *)
Record shadow := Shadow {
  s_base : Z;
  s_mask : Z;
  s_bits : Z;
  s_byte : Z -> Z
}.

Definition set_byte (s : shadow) (m : Z -> Z) : shadow :=
  Shadow (s_base s) (s_mask s) (s_bits s) m.

Definition weavecRtShadowReady (s : shadow) : bool := negb (s_mask s =? 0).

Definition weavecRtInWindow (s : shadow) (address : Z) : bool :=
  (64 <=? s_bits s) || (Z.shiftr address (s_bits s) =? 0).

Definition weavecRtShadowOf (s : shadow) (address : Z) : Z :=
  add64 (s_base s) (Z.land (Z.shiftr address 4) (s_mask s)).

(** The shadow byte of the granule that holds [address]. *)
Definition granule_value (s : shadow) (address : Z) : Z :=
  s_byte s (weavecRtShadowOf s address).

(** The constant [0x8080808080808080] of the eight-granule tests. *)
Definition hi8 : Z := 0x8080808080808080.

Definition weavecRtQuickOk (s : shadow) (address n : Z) : bool :=
  if n =? 0 then true
  else if (113 <? n) || negb (weavecRtShadowReady s)
            || negb (weavecRtInWindow s address) then false
  else
    let last := Z.land address 15 + n - 1 in
    let shift := Z.shiftr last 4 * 8 in
    let chunk := load_le (s_byte s) (weavecRtShadowOf s address) 8 in
    if negb (shift =? 0)
       && negb (Z.land (Z.land chunk (Z.shiftl 1 shift - 1)) hi8 =? 0) then false
    else
      let value := Z.shiftr chunk shift mod 256 in
      weavecRtShadowFull value
      || (negb (weavecRtShadowPoison value)
            && (Z.land last 15 <? weavecRtShadowBytes value)).

(** ** Writing the shadow *)

Definition pattern64 (value : Z) : Z := wrap64 (0x0101010101010101 * value).
Definition pattern32 (value : Z) : Z := (0x01010101 * value) mod 2 ^ 32.

(** [memset] of [n] bytes. *)
Definition memset (m : Z -> Z) (at_ value n : Z) : Z -> Z :=
  fill_bytes m at_ n value.

Definition store1 (m : Z -> Z) (a v : Z) : Z -> Z := store_le m a 1 v.

Definition fill (m : Z -> Z) (at_ value n : Z) : Z -> Z :=
  if 16 <? n then memset m at_ value n
  else if 8 <=? n then
    store_le (store_le m at_ 8 (pattern64 value)) (at_ + n - 8) 8 (pattern64 value)
  else if 4 <=? n then
    store_le (store_le m at_ 4 (pattern32 value)) (at_ + n - 4) 4 (pattern32 value)
  else if negb (n =? 0) then
    store1 (store1 (store1 m at_ value) (at_ + (n - 1)) value) (at_ + n / 2) value
  else m.

Definition weavecRtShadowSet (s : shadow) (base size value : Z) : shadow :=
  if negb (weavecRtShadowReady s) || (size =? 0) || negb (weavecRtInWindow s base)
  then s
  else set_byte s (fill (s_byte s) (weavecRtShadowOf s base) value
                        (Z.shiftr (add64 size 15) 4)).

(** What the shadow's writers ask of the system: the page size and whether
    [mmap] with [MAP_FIXED] maps a range afresh. *)
Class Pages := {
  pageBytes : Z;
  remaps : Z -> Z -> bool
}.

Section Writers.
Context {P : Pages}.

(** [(x + pageBytes - 1) & ~(pageBytes - 1)]. *)
Definition page_up (x : Z) : Z :=
  Z.land (sub64 (add64 x pageBytes) 1) (Z.lnot (pageBytes - 1)).
Definition page_down (x : Z) : Z := Z.land x (Z.lnot (pageBytes - 1)).

Definition weavecRtShadowClear (s : shadow) (low high : Z) : shadow :=
  if negb (weavecRtShadowReady s) || (high <=? low)
     || negb (weavecRtInWindow s low) || negb (weavecRtInWindow s (sub64 high 1))
  then s
  else
    let start := weavecRtShadowOf s low in
    let bytes := sub64 (Z.shiftr (add64 high 15) 4) (Z.shiftr low 4) in
    let first := page_up start in
    let last := page_down (add64 start bytes) in
    if (bytes <? 4 * pageBytes) || (last <=? first)
       || negb (remaps first (last - first))
    then set_byte s (memset (s_byte s) start WeavecRtShadowAddressable bytes)
    else
      (* fresh pages read zero *)
      let m := fill_bytes (s_byte s) first (last - first) 0 in
      let m := memset m start WeavecRtShadowAddressable (sub64 first start) in
      set_byte s (memset m last WeavecRtShadowAddressable (sub64 (add64 start bytes) last)).

Definition weavecRtShadowObject (s : shadow) (base size tail color : Z) : shadow :=
  let whole := Z.shiftr size 4 in
  let rest := Z.land size 15 in
  if negb (weavecRtShadowReady s) || negb (weavecRtInWindow s base) then s
  else
    let color' := if 4 * pageBytes <=? whole then 0 else color in
    let s' :=
      if 4 * pageBytes <=? whole then
        weavecRtShadowClear s base (add64 base (Z.shiftl whole 4))
      else if negb (whole =? 0) then
        set_byte s (fill (s_byte s) (weavecRtShadowOf s base) color' whole)
      else s in
    if negb (rest =? 0) then
      set_byte s' (store1 (s_byte s') (weavecRtShadowOf s' (add64 base (Z.shiftl whole 4)))
                          (weavecRtShadowPartialOf color' rest))
    else if size =? 0 then
      set_byte s' (store1 (s_byte s') (weavecRtShadowOf s' base) tail)
    else s'.
End Writers.

(** ** Reserving the shadow *)

(** The window's width: 42 on Darwin; on Linux the width of the stack's
    address, at least 39. *)
Definition windowBits (apple : bool) (stack : Z) : Z :=
  if apple then 42
  else
    let bits := 64 - (63 - Z.log2 stack) in
    if bits <? 39 then 39 else bits.

(** The descriptor before the reservation: [scratchShadow], mask 0. *)
Definition initial_shadow (scratch : Z) (m : Z -> Z) : shadow :=
  Shadow scratch 0 64 m.

(** [map] is what [mmap] answered: [None] for [MAP_FAILED] (a warning is
    printed and the descriptor stays). The fresh pages read zero. *)
Definition reserveShadow (s : shadow) (bits : Z) (map : option Z) : shadow :=
  let bytes := Z.shiftl 1 (bits - 4) in
  match map with
  | None => s
  | Some map =>
    let m := fill_bytes (s_byte s) map (bytes + 64) 0 in
    let m := memset m map WeavecRtShadowNull (Z.shiftr WeavecRtNullPage 4) in
    Shadow map (bytes - 1) bits m
  end.

(** ** The specification: what the shadow says of a byte *)

(** Whether a granule of shadow value [v] has its byte [off] addressable. *)
Definition byte_ok (v off : Z) : bool :=
  weavecRtShadowFull v
  || (negb (weavecRtShadowPoison v) && (off <? weavecRtShadowBytes v)).

Definition addressable (s : shadow) (address : Z) : bool :=
  byte_ok (granule_value s address) (address mod 16).

(** Every byte of [[address, address + n)] the window covers is addressable. *)
Definition range_ok (s : shadow) (address n : Z) : Prop :=
  forall a, address <= a < address + n -> weavecRtInWindow s a = true ->
            addressable s a = true.

(** The descriptor [reserveShadow] publishes, over bytes; the mapping lies in
    the low half of the address space, as user mappings do. *)
Record shadow_wf (s : shadow) : Prop := {
  wf_bits : 39 <= s_bits s < 64;
  wf_mask : s_mask s = 2 ^ (s_bits s - 4) - 1;
  wf_base : 0 < s_base s;
  wf_room : s_base s + 2 ^ (s_bits s - 4) + 64 <= 2 ^ 63;
  wf_bytes : bytes_ok (s_byte s)
}.

(** The shadow value of granule number [g]. *)
Definition gval (s : shadow) (g : Z) : Z := s_byte s (s_base s + g).

(** The page size is a power of two. *)
Definition pages_wf `{Pages} : Prop := exists k, 4 <= k <= 30 /\ pageBytes = 2 ^ k.

(** ** Lemmas *)

Section Wf.
Context (s : shadow) (Hwf : shadow_wf s).

Lemma window_room : 2 ^ 35 <= 2 ^ (s_bits s - 4) <= 2 ^ 59.
Proof. destruct Hwf. split; apply Z.pow_le_mono_r; lia. Qed.

Lemma window_split : 2 ^ s_bits s = 16 * 2 ^ (s_bits s - 4).
Proof.
  destruct Hwf. change 16 with (2 ^ 4). rewrite <- Z.pow_add_r by lia.
  f_equal; lia.
Qed.

Lemma ready_wf : weavecRtShadowReady s = true.
Proof.
  pose proof window_room. destruct Hwf. unfold weavecRtShadowReady.
  bool_cases; [lia|done].
Qed.

Lemma inWindow_iff a : 0 <= a -> weavecRtInWindow s a = true <-> a < 2 ^ s_bits s.
Proof.
  intros Ha. destruct Hwf. unfold weavecRtInWindow.
  replace (64 <=? s_bits s) with false by (symmetry; apply Z.leb_gt; lia).
  cbn [orb]. rewrite Z.eqb_eq, Z.shiftr_div_pow2 by lia.
  assert (0 < 2 ^ s_bits s) by lia. rewrite Z.div_small_iff by lia. lia.
Qed.

Lemma inWindow_true a : 0 <= a < 2 ^ s_bits s -> weavecRtInWindow s a = true.
Proof. intros Ha. apply inWindow_iff; lia. Qed.

Lemma shadowOf_eq a : 0 <= a < 2 ^ s_bits s -> weavecRtShadowOf s a = s_base s + a / 16.
Proof.
  intros Ha. pose proof window_room. pose proof window_split. destruct Hwf.
  unfold weavecRtShadowOf. rewrite wf_mask0, shiftr_4.
  replace (2 ^ (s_bits s - 4) - 1) with (Z.ones (s_bits s - 4))
    by (rewrite Z.ones_equiv; lia).
  rewrite Z.land_ones by lia.
  assert (0 <= a / 16 < 2 ^ (s_bits s - 4)) by euclid.
  rewrite Z.mod_small by lia. apply wrap64_small. lia.
Qed.

Lemma granule_value_gval a :
  0 <= a < 2 ^ s_bits s -> granule_value s a = gval s (a / 16).
Proof. intros Ha. unfold granule_value, gval. by rewrite shadowOf_eq. Qed.

Lemma addressable_gval a :
  0 <= a < 2 ^ s_bits s -> addressable s a = byte_ok (gval s (a / 16)) (a mod 16).
Proof. intros Ha. unfold addressable. by rewrite granule_value_gval. Qed.
End Wf.

Lemma full_byte_ok v off : weavecRtShadowFull v = true -> byte_ok v off = true.
Proof. unfold byte_ok. by intros ->. Qed.

(** A granule whose last byte is addressable is whole: a partial one has at
    most 15. *)
Lemma byte_ok_15 v : byte_ok v 15 = true <-> weavecRtShadowFull v = true.
Proof.
  split; [|apply full_byte_ok]. unfold byte_ok, weavecRtShadowBytes.
  rewrite land_15. pose proof (Z.mod_pos_bound v 16 ltac:(lia)).
  destruct (weavecRtShadowFull v); [done|].
  destruct (negb _); [|done]. cbn. bool_cases; [lia|done].
Qed.

Lemma byte_ok_mono v off off' : off' <= off -> byte_ok v off = true -> byte_ok v off' = true.
Proof.
  unfold byte_ok. intros Hle. destruct (weavecRtShadowFull v); [done|].
  destruct (negb _); [|done]. cbn. bool_cases; lia.
Qed.

Lemma poison_not_ok v off : weavecRtShadowPoison v = true -> byte_ok v off = false.
Proof.
  unfold byte_ok, weavecRtShadowPoison, weavecRtShadowFull, WeavecRtShadowPoisonFrom.
  intros H. bool_hyps. rewrite (proj2 (Z.leb_le 0xF0 v)), (proj2 (Z.ltb_ge v 0x80)) by lia.
  done.
Qed.

(** The granules of a checked range: every one but the last whole, the last
    holding the range's last byte. *)
Definition granules_ok (s : shadow) (address n : Z) : Prop :=
  (forall g, address / 16 <= g < (address + n - 1) / 16 ->
             weavecRtShadowFull (gval s g) = true)
  /\ byte_ok (gval s ((address + n - 1) / 16)) ((address + n - 1) mod 16) = true.

Lemma granules_range_ok s address n :
  shadow_wf s -> 0 <= address -> granules_ok s address n -> range_ok s address n.
Proof.
  intros Hwf Ha [Hfull Hlast] a Hr Hw.
  apply inWindow_iff in Hw; [|done|lia].
  rewrite addressable_gval by (done || lia).
  destruct (Z.eq_dec (a / 16) ((address + n - 1) / 16)) as [Heq|Hne].
  - rewrite Heq. eapply byte_ok_mono; [|exact Hlast]. euclid.
  - apply full_byte_ok, Hfull. euclid.
Qed.

Lemma range_ok_granules s address n :
  shadow_wf s -> 0 <= address -> 0 < n -> address + n <= 2 ^ s_bits s ->
  range_ok s address n <-> granules_ok s address n.
Proof.
  intros Hwf Ha Hn Hend. split; [|by apply granules_range_ok].
  intros H. split.
  - intros g Hg. apply byte_ok_15.
    specialize (H (16 * g + 15)). rewrite addressable_gval in H by (done || euclid).
    replace ((16 * g + 15) / 16) with g in H by euclid.
    replace ((16 * g + 15) mod 16) with 15 in H by euclid.
    apply H; [euclid|]. apply inWindow_iff; [done|euclid|euclid].
  - rewrite <- addressable_gval by (done || lia).
    apply H; [lia|]. apply inWindow_iff; [done|lia|lia].
Qed.

Lemma range_ok_nil s address n : n <= 0 -> range_ok s address n.
Proof. intros Hn a. lia. Qed.

Lemma range_ok_app s address n m :
  0 <= n -> 0 <= m ->
  range_ok s address (n + m) <-> range_ok s address n /\ range_ok s (address + n) m.
Proof.
  intros Hn Hm. split.
  - intros H. split; intros a Hr Hw; apply H; (lia || done).
  - intros [H1 H2] a Hr Hw. destruct (Z.lt_ge_cases a (address + n)).
    + apply H1; (lia || done).
    + apply H2; (lia || done).
Qed.

(** ** The quick check *)

Lemma quickOk_granules s address n :
  shadow_wf s -> 0 <= address < 2 ^ s_bits s -> 0 < n <= 113 ->
  weavecRtQuickOk s address n = true <-> granules_ok s address n.
Proof.
  intros Hwf Ha Hn. unfold weavecRtQuickOk, granules_ok.
  rewrite (proj2 (Z.eqb_neq n 0)), (proj2 (Z.ltb_ge 113 n)) by lia.
  rewrite ready_wf, inWindow_true by (done || lia).
  cbn [negb orb]. rewrite !land_15, !shiftr_4, shadowOf_eq by done.
  set (last := address mod 16 + n - 1).
  assert (Hk : 0 <= last / 16 <= 7) by (subst last; euclid).
  assert (Hg : (address + n - 1) / 16 = address / 16 + last / 16) by (subst last; euclid).
  assert (Hm : (address + n - 1) mod 16 = last mod 16) by (subst last; euclid).
  rewrite Hg, Hm, (Z.mul_comm (last / 16)).
  rewrite chunk_byte by (apply Hwf || lia).
  unfold gval. rewrite <- Z.add_assoc. fold (byte_ok (s_byte s (s_base s + (address / 16 + last / 16))) (last mod 16)).
  pose proof (chunk_check (s_byte s) (s_base s + address / 16) (last / 16) (wf_bytes s Hwf) ltac:(lia)) as Hc.
  change hi8 with 0x8080808080808080.
  assert (Hfull : (forall g, address / 16 <= g < address / 16 + last / 16 ->
                    weavecRtShadowFull (s_byte s (s_base s + g)) = true) <->
                  (forall i, 0 <= i < last / 16 -> s_byte s (s_base s + address / 16 + i) < 128)).
  { unfold weavecRtShadowFull. split; intros H i Hi.
    - apply Z.ltb_lt. rewrite <- Z.add_assoc. apply H. lia.
    - apply Z.ltb_lt. replace (s_base s + i) with (s_base s + address / 16 + (i - address / 16)) by lia.
      apply H. lia. }
  rewrite Hfull, <- Hc. clear Hc Hfull.
  destruct (Z.eqb_spec (8 * (last / 16)) 0) as [H0|H0]; cbn [negb andb].
  - assert (last / 16 = 0) as -> by lia. cbn [Z.mul Z.shiftl Z.sub].
    rewrite Z.land_0_r. unfold byte_ok. tauto.
  - destruct (Z.eqb_spec (Z.land (Z.land (load_le (s_byte s) (s_base s + address / 16) 8)
                    (Z.shiftl 1 (8 * (last / 16)) - 1)) 0x8080808080808080) 0); cbn [negb andb].
    + unfold byte_ok. tauto.
    + split; [done|]. intros [? _]. done.
Qed.

(** Whatever the quick check accepts is addressable. *)
Theorem quickOk_sound s address n :
  shadow_wf s -> 0 <= address -> 0 <= n ->
  weavecRtQuickOk s address n = true -> range_ok s address n.
Proof.
  intros Hwf Ha Hn Hq. destruct (Z.eq_dec n 0) as [->|Hne]; [by apply range_ok_nil|].
  pose proof Hq as Hq'. unfold weavecRtQuickOk in Hq'.
  rewrite (proj2 (Z.eqb_neq n 0)) in Hq' by lia.
  destruct (113 <? n) eqn:E1; [done|]. rewrite ready_wf in Hq' by done.
  destruct (weavecRtInWindow s address) eqn:E2; [|done].
  apply inWindow_iff in E2; [|done|lia]. bool_hyps.
  apply granules_range_ok; [done..|]. apply quickOk_granules; (done || lia).
Qed.

(** Inside the window and up to 113 bytes the quick check is exact. *)
Theorem quickOk_exact s address n :
  shadow_wf s -> 0 <= address -> 0 < n <= 113 -> address + n <= 2 ^ s_bits s ->
  weavecRtQuickOk s address n = true <-> range_ok s address n.
Proof.
  intros Hwf Ha Hn Hend. rewrite quickOk_granules by (done || lia).
  symmetry. apply range_ok_granules; (done || lia).
Qed.

(** ** The writers *)

(** A store of a repeated pattern writes the byte at each place. *)
Lemma store_le_repeat m a n z v x :
  (forall i, 0 <= i < Z.of_nat n -> byte_at z i = v) ->
  store_le m a n z x = fill_bytes m a (Z.of_nat n) v x.
Proof.
  intros H. unfold store_le, fill_bytes.
  destruct ((a <=? x) && (x <? a + Z.of_nat n)) eqn:E; [|done].
  bool_hyps. apply H. lia.
Qed.

Ltac each_byte i n :=
  match n with
  | O => exfalso; lia
  | S ?k => let z := eval vm_compute in (Z.of_nat k) in
            destruct (Z.eq_dec i z) as [->|]; [|each_byte i k]
  end.

Lemma pattern64_byte v i : 0 <= v < 256 -> 0 <= i < 8 -> byte_at (pattern64 v) i = v.
Proof.
  intros Hv Hi. unfold pattern64, byte_at. rewrite wrap64_small by lia.
  each_byte i 8%nat;
    match goal with |- context [2 ^ ?e] =>
      let r := eval vm_compute in (2 ^ e) in change (2 ^ e) with r end; euclid.
Qed.

Lemma pattern32_byte v i : 0 <= v < 256 -> 0 <= i < 4 -> byte_at (pattern32 v) i = v.
Proof.
  intros Hv Hi. unfold pattern32, byte_at. rewrite (Z.mod_small _ (2 ^ 32)) by lia.
  each_byte i 4%nat;
    match goal with |- context [2 ^ ?e] =>
      let r := eval vm_compute in (2 ^ e) in change (2 ^ e) with r end; euclid.
Qed.

Lemma byte_at_0 v i : 0 <= v < 256 -> 0 <= i < 1 -> byte_at v i = v.
Proof.
  intros Hv Hi. replace i with 0 by lia. unfold byte_at.
  rewrite Z.div_1_r. by apply Z.mod_small.
Qed.

Lemma fill_bytes_eq m a n v x :
  fill_bytes m a n v x = if decide (a <= x < a + n) then v else m x.
Proof. unfold fill_bytes. case_decide; bool_cases; (done || lia). Qed.

Lemma fill_spec m at_ value n x :
  0 <= value < 256 -> 0 <= n ->
  fill m at_ value n x = fill_bytes m at_ n value x.
Proof.
  intros Hv Hn. unfold fill, memset, store1.
  destruct (Z.ltb_spec 16 n); [done|].
  destruct (Z.leb_spec 8 n).
  { rewrite !(store_le_repeat _ _ 8 _ value) by (intros; by apply pattern64_byte).
    rewrite !fill_bytes_eq. rewrite (store_le_repeat _ _ 8 _ value) by (intros; by apply pattern64_byte).
    rewrite fill_bytes_eq. repeat case_decide; (done || lia). }
  destruct (Z.leb_spec 4 n).
  { rewrite !(store_le_repeat _ _ 4 _ value) by (intros; by apply pattern32_byte).
    rewrite !fill_bytes_eq. rewrite (store_le_repeat _ _ 4 _ value) by (intros; by apply pattern32_byte).
    rewrite fill_bytes_eq. repeat case_decide; (done || lia). }
  destruct (Z.eqb_spec n 0) as [->|Hne]; cbn [negb].
  { rewrite fill_bytes_eq. case_decide; [lia|done]. }
  do 3 (rewrite (store_le_repeat _ _ 1 _ value) by (intros; by apply byte_at_0);
        rewrite fill_bytes_eq).
  rewrite fill_bytes_eq.
  assert (n = 1 \/ n = 2 \/ n = 3) as C by lia.
  destruct C as [->|[->|C]]; [| |subst n];
    match goal with |- context [?a / 2] => let r := eval vm_compute in (a / 2) in
      change (a / 2) with r end;
    repeat case_decide; (done || lia).
Qed.

Lemma fill_ok m at_ value n : bytes_ok m -> 0 <= value < 256 -> bytes_ok (fill m at_ value n).
Proof.
  intros Hm Hv. unfold fill, memset, store1.
  repeat case_match; auto 7 with weavec.
Qed.

Lemma set_byte_wf s m : shadow_wf s -> bytes_ok m -> shadow_wf (set_byte s m).
Proof. intros [] Hm. by constructor. Qed.

#[export] Hint Resolve fill_ok set_byte_wf wf_bytes : weavec.

Lemma round_up_16 x : 0 <= x -> x + 15 < 2 ^ 64 -> Z.shiftr (add64 x 15) 4 = (x + 15) / 16.
Proof. intros. unfold add64. by rewrite wrap64_small, shiftr_4 by lia. Qed.

(** [fill] of [n] granules from that of an address in the window. *)
Lemma gval_fill s base value n g :
  shadow_wf s -> 0 <= base < 2 ^ s_bits s -> 0 <= value < 256 -> 0 <= n ->
  gval (set_byte s (fill (s_byte s) (weavecRtShadowOf s base) value n)) g
  = if decide (base / 16 <= g < base / 16 + n) then value else gval s g.
Proof.
  intros Hwf Hb Hv Hn. unfold gval, set_byte. cbn [s_byte s_base].
  rewrite fill_spec, fill_bytes_eq, shadowOf_eq by done.
  repeat case_decide; (done || lia).
Qed.

Lemma gval_memset s base value n g :
  shadow_wf s -> 0 <= base < 2 ^ s_bits s ->
  gval (set_byte s (memset (s_byte s) (weavecRtShadowOf s base) value n)) g
  = if decide (base / 16 <= g < base / 16 + n) then value else gval s g.
Proof.
  intros Hwf Hb. unfold gval, set_byte, memset. cbn [s_byte s_base].
  rewrite fill_bytes_eq, shadowOf_eq by done.
  repeat case_decide; (done || lia).
Qed.

Lemma shadowSet_wf s base size value :
  shadow_wf s -> 0 <= value < 256 -> shadow_wf (weavecRtShadowSet s base size value).
Proof.
  intros Hwf Hv. unfold weavecRtShadowSet. case_match; auto with weavec.
Qed.

Lemma shadowSet_gval s base size value g :
  shadow_wf s -> 0 <= base < 2 ^ s_bits s -> 0 < size -> size + 15 < 2 ^ 64 ->
  0 <= value < 256 ->
  gval (weavecRtShadowSet s base size value) g
  = if decide (base / 16 <= g < base / 16 + (size + 15) / 16) then value else gval s g.
Proof.
  intros Hwf Hb Hs Hs' Hv. unfold weavecRtShadowSet.
  rewrite ready_wf, (proj2 (Z.eqb_neq size 0)), inWindow_true by (done || lia).
  cbn [negb orb]. rewrite round_up_16 by lia. apply gval_fill; (done || euclid).
Qed.

Section WriterLemmas.
Context `{P : Pages} (HP : pages_wf).

Lemma page_up_spec x :
  0 <= x < 2 ^ 63 -> x <= page_up x /\ page_up x < x + pageBytes.
Proof.
  destruct HP as (k & Hk & Hp). intros Hx. unfold page_up, sub64, add64.
  assert (0 < 2 ^ k <= 2 ^ 30) by (split; [lia|apply Z.pow_le_mono_r; lia]).
  rewrite (wrap64_small (x + _)), wrap64_small by lia.
  rewrite Hp, land_lnot_ones by lia. euclid.
Qed.

Lemma page_down_spec x : page_down x <= x /\ x < page_down x + pageBytes.
Proof.
  destruct HP as (k & Hk & Hp). unfold page_down. rewrite Hp, land_lnot_ones by lia.
  assert (0 < 2 ^ k) by lia. euclid.
Qed.

(** Remapped or written, the cleared granules read 0 and no other byte
    changes. *)
Lemma shadowClear_gval s low high g :
  shadow_wf s -> 0 <= low < high -> high <= 2 ^ s_bits s ->
  gval (weavecRtShadowClear s low high) g
  = if decide (low / 16 <= g < (high + 15) / 16) then 0 else gval s g.
Proof.
  intros Hwf Hl Hh. pose proof (window_room s Hwf). pose proof (window_split s Hwf).
  pose proof (wf_base s Hwf). pose proof (wf_room s Hwf).
  unfold weavecRtShadowClear.
  rewrite ready_wf, (proj2 (Z.leb_gt high low)) by (done || lia).
  unfold sub64, add64. rewrite (wrap64_small (high - 1)), (wrap64_small (high + 15)) by lia.
  rewrite !inWindow_true by (done || lia). cbn [negb orb]. rewrite !shiftr_4.
  set (start := weavecRtShadowOf s low). set (bytes := wrap64 ((high + 15) / 16 - low / 16)).
  assert (Hs : start = s_base s + low / 16) by (apply shadowOf_eq; (done || lia)).
  assert (Hb : bytes = (high + 15) / 16 - low / 16) by (apply wrap64_small; euclid).
  assert (Hend : 0 <= start + bytes < 2 ^ 63) by euclid.
  assert (Hs0 : 0 <= start) by euclid. assert (Hb0 : 0 <= bytes) by euclid.
  rewrite (wrap64_small (start + bytes)) by lia.
  pose proof (page_up_spec start ltac:(euclid)) as [Hf1 Hf2].
  pose proof (page_down_spec (start + bytes)) as [Hl1 Hl2].
  set (first := page_up start) in *. set (last := page_down (start + bytes)) in *.
  clearbody start bytes first last. set (m := s_byte s).
  assert (Hgoal : forall m', (forall x, m' x = fill_bytes m start bytes 0 x) ->
            gval (set_byte s m') g
            = if decide (low / 16 <= g < (high + 15) / 16) then 0 else gval s g).
  { intros m' Hm'. unfold gval, set_byte. cbn. rewrite Hm', fill_bytes_eq. fold m.
    repeat case_decide; (done || lia). }
  destruct (bytes <? 4 * pageBytes); [by apply Hgoal|].
  destruct (Z.leb_spec last first); [by apply Hgoal|].
  destruct (remaps first (last - first)); cbn [negb orb]; [|by apply Hgoal].
  apply Hgoal. intros x. unfold memset, WeavecRtShadowAddressable.
  rewrite !wrap64_small, !fill_bytes_eq by lia.
  repeat case_decide; (done || lia).
Qed.
End WriterLemmas.

(** ** Colors and partial granules *)

Lemma land_7 x : Z.land x 7 = x mod 8.
Proof. apply (Z.land_ones x 3). lia. Qed.

(** Decides a fact about every integer of [[lo, lo + n)] by evaluation. *)
Fixpoint all_from (lo : Z) (n : nat) (p : Z -> bool) : bool :=
  match n with
  | O => true
  | S n' => p lo && all_from (lo + 1) n' p
  end.

Lemma all_from_spec lo n p x :
  all_from lo n p = true -> lo <= x < lo + Z.of_nat n -> p x = true.
Proof.
  revert lo. induction n as [|n IH]; intros lo H Hx; [lia|].
  cbn [all_from] in H. apply andb_true_iff in H as [H1 H2].
  destruct (Z.eq_dec x lo) as [->|]; [done|]. apply (IH (lo + 1)); (done || lia).
Qed.

Lemma all_from_false lo n p :
  all_from lo n p = false -> exists x, lo <= x < lo + Z.of_nat n /\ p x = false.
Proof.
  revert lo. induction n as [|n IH]; intros lo H; [done|].
  cbn [all_from] in H. apply andb_false_iff in H as [H|H].
  - exists lo. split; [lia|done].
  - destruct (IH _ H) as (x & Hx & Hp). exists x. split; [lia|done].
Qed.

(** The value of a partial granule: [1ccc kkkk]. *)
Lemma partialOf_value color k :
  1 <= k <= 15 -> weavecRtShadowPartialOf color k = 0x80 + 16 * (color mod 8) + k.
Proof.
  intros Hk. unfold weavecRtShadowPartialOf. rewrite land_7.
  pose proof (Z.mod_pos_bound color 8 ltac:(lia)) as Hc.
  generalize dependent (color mod 8). clear color. intros c Hc.
  apply Z.eqb_eq.
  refine (all_from_spec 1 15 (fun k => Z.lor (Z.lor 128 (Z.shiftl c 4)) k mod 256
                                         =? 128 + 16 * c + k) k _ ltac:(lia)).
  refine (all_from_spec 0 8 (fun c => all_from 1 15 (fun k =>
            Z.lor (Z.lor 128 (Z.shiftl c 4)) k mod 256 =? 128 + 16 * c + k)) c _ ltac:(lia)).
  vm_compute. done.
Qed.

(** A color's low three bits are never 7, so a partial granule is never a
    poison value. *)
Definition color_ok (c : Z) : Prop := 0 <= c < 128 /\ c mod 8 <> 7.

Lemma partialOf_range color k :
  1 <= k <= 15 -> color_ok color ->
  0x80 < weavecRtShadowPartialOf color k < WeavecRtShadowPoisonFrom.
Proof.
  intros Hk [Hc Hne]. rewrite partialOf_value by done.
  unfold WeavecRtShadowPoisonFrom. euclid.
Qed.

Lemma partialOf_byte_ok color k off :
  1 <= k <= 15 -> color_ok color ->
  byte_ok (weavecRtShadowPartialOf color k) off = (off <? k).
Proof.
  intros Hk Hc. pose proof (partialOf_range color k Hk Hc) as Hr.
  unfold byte_ok, weavecRtShadowFull, weavecRtShadowPoison, weavecRtShadowBytes.
  rewrite (proj2 (Z.ltb_ge _ _)), (proj2 (Z.leb_gt _ _)) by lia.
  cbn [negb orb andb]. rewrite land_15, partialOf_value by done.
  replace ((_ + k) mod 16) with k by euclid. done.
Qed.

Lemma partialOf_class color k :
  1 <= k <= 15 -> color_ok color ->
  weavecRtShadowClass (weavecRtShadowPartialOf color k) = weavecRtShadowClass color.
Proof.
  intros Hk Hc. pose proof (partialOf_range color k Hk Hc) as Hr. destruct Hc as [Hc Hne].
  unfold weavecRtShadowClass.
  rewrite (proj2 (Z.ltb_ge _ _)), (proj2 (Z.ltb_lt color _)) by lia.
  rewrite shiftr_4, !land_7, partialOf_value by done. euclid.
Qed.

Lemma weavecRtColor_mod n : weavecRtColor n = weavecRtColor (n mod 111).
Proof. unfold weavecRtColor. by rewrite Z.mod_mod by lia. Qed.

Lemma weavecRtColor_value n :
  weavecRtColor n = 8 * ((n mod 111 + 1) / 7) + (n mod 111 + 1) mod 7.
Proof.
  rewrite weavecRtColor_mod. pose proof (Z.mod_pos_bound n 111 ltac:(lia)) as Hb.
  generalize dependent (n mod 111). clear n. intros n Hb. apply Z.eqb_eq.
  refine (all_from_spec 0 111 (fun n => weavecRtColor n =? 8 * ((n + 1) / 7) + (n + 1) mod 7) n _ ltac:(lia)).
  vm_compute. done.
Qed.

(** A color is between 1 and 126, its low bits are never 7, and two
    numbers apart by less than 111 have different colors. *)
Theorem weavecRtColor_spec n :
  1 <= weavecRtColor n <= 126 /\ color_ok (weavecRtColor n)
  /\ forall m, 0 < Z.abs (n - m) < 111 -> weavecRtColor n <> weavecRtColor m.
Proof.
  unfold color_ok. rewrite weavecRtColor_value.
  repeat split; [euclid..|]. intros m Hm. rewrite weavecRtColor_value. euclid.
Qed.

(** ** An object's shadow *)

Section ObjectLemmas.
Context `{P : Pages} (HP : pages_wf).

Lemma shadowSet_bits s base size value : s_bits (weavecRtShadowSet s base size value) = s_bits s.
Proof. unfold weavecRtShadowSet. by case_match. Qed.

Lemma shadowClear_wf s low high : shadow_wf s -> shadow_wf (weavecRtShadowClear s low high).
Proof.
  intros Hwf. unfold weavecRtShadowClear, memset, WeavecRtShadowAddressable.
  repeat case_match; [done| |]; apply set_byte_wf; auto 9 with weavec lia.
Qed.

(** The color a run of [whole] granules is written in. *)
Definition object_color (whole color : Z) : Z :=
  if 4 * pageBytes <=? whole then 0 else color.

Lemma object_color_ok whole color : color_ok color -> color_ok (object_color whole color).
Proof. intros Hc. unfold object_color. case_match; [split; [lia|done]|done]. Qed.

(** The shadow value of each granule after [weavecRtShadowObject]. *)
Definition object_value (s : shadow) (base size tail color g : Z) : Z :=
  if decide (base / 16 <= g < base / 16 + size / 16) then object_color (size / 16) color
  else if decide (g = base / 16 + size / 16) then
    if decide (size mod 16 <> 0) then
      weavecRtShadowPartialOf (object_color (size / 16) color) (size mod 16)
    else if decide (size = 0) then tail else gval s g
  else gval s g.

Lemma store1_gval s a v g :
  shadow_wf s -> 0 <= a < 2 ^ s_bits s -> 0 <= v < 256 ->
  gval (set_byte s (store1 (s_byte s) (weavecRtShadowOf s a) v)) g
  = if decide (g = a / 16) then v else gval s g.
Proof.
  intros Hwf Ha Hv. unfold gval, set_byte, store1. cbn [s_byte s_base].
  rewrite (store_le_repeat _ _ 1 _ v) by (intros; by apply byte_at_0).
  rewrite fill_bytes_eq, shadowOf_eq by done. repeat case_decide; (done || lia).
Qed.

Lemma shadowObject_wf s base size tail color :
  shadow_wf s -> 0 <= color < 256 -> shadow_wf (weavecRtShadowObject s base size tail color).
Proof.
  intros Hwf Hc. unfold weavecRtShadowObject, store1.
  pose proof (shadowClear_wf s base (add64 base (Z.shiftl (Z.shiftr size 4) 4)) Hwf).
  repeat case_match; auto 9 with weavec lia.
Qed.

(** The whole granules of an object, remapped when they are many. *)
Definition write_whole (s : shadow) (base whole color : Z) : shadow :=
  if 4 * pageBytes <=? whole then weavecRtShadowClear s base (base + whole * 16)
  else if negb (whole =? 0) then
    set_byte s (fill (s_byte s) (weavecRtShadowOf s base) (object_color whole color) whole)
  else s.

Lemma write_whole_spec s base whole color :
  shadow_wf s -> 0 <= base -> base mod 16 = 0 -> 0 <= whole ->
  base < 2 ^ s_bits s -> base + whole * 16 <= 2 ^ s_bits s -> color_ok color ->
  shadow_wf (write_whole s base whole color)
  /\ s_bits (write_whole s base whole color) = s_bits s
  /\ forall g, gval (write_whole s base whole color) g
       = if decide (base / 16 <= g < base / 16 + whole)
         then object_color whole color else gval s g.
Proof.
  intros Hwf Hb Hal Hw Hlt Hend Hc.
  pose proof (object_color_ok whole color Hc) as [Hc' Hc''].
  unfold write_whole, object_color in *. destruct (Z.leb_spec (4 * pageBytes) whole).
  - assert (0 < whole).
    { destruct HP as (k & Hk & Hp). assert (0 < 2 ^ k) by lia. lia. }
    split; [by apply shadowClear_wf|]. split.
    { unfold weavecRtShadowClear. by repeat case_match. }
    intros g. rewrite shadowClear_gval by (done || euclid).
    repeat case_decide; (done || euclid).
  - destruct (Z.eqb_spec whole 0) as [->|Hz]; cbn [negb].
    + split; [done|]. split; [done|]. intros g. case_decide; [lia|done].
    + split; [auto with weavec lia|]. split; [done|].
      intros g. rewrite gval_fill by (done || euclid). done.
Qed.

Lemma shadowObject_gval s base size tail color g :
  shadow_wf s -> 0 <= base -> base mod 16 = 0 -> 0 <= size ->
  base + Z.max size 1 <= 2 ^ s_bits s -> color_ok color -> 0 <= tail < 256 ->
  gval (weavecRtShadowObject s base size tail color) g
  = object_value s base size tail color g.
Proof.
  intros Hwf Hb Hal Hs Hend Hc Ht. pose proof (window_room s Hwf). pose proof (window_split s Hwf).
  unfold weavecRtShadowObject, object_value.
  rewrite ready_wf, inWindow_true by (done || lia). cbn [negb orb].
  rewrite shiftr_4, land_15, Z.shiftl_mul_pow2 by lia. change (2 ^ 4) with 16.
  unfold add64. rewrite wrap64_small by euclid.
  fold (object_color (size / 16) color).
  fold (write_whole s base (size / 16) color).
  destruct (write_whole_spec s base (size / 16) color) as (Hwf' & Hbits & Hg');
    [done..|euclid|lia|euclid|done|].
  generalize dependent (write_whole s base (size / 16) color). intros s' Hwf' Hbits Hg'.
  destruct (Z.eqb_spec (size mod 16) 0) as [Hr|Hr]; cbn [negb].
  - destruct (Z.eqb_spec size 0) as [->|Hne].
    + rewrite store1_gval, Hg' by (rewrite ?Hbits; done || euclid).
      change (0 / 16) with 0. repeat case_decide; (done || lia).
    + rewrite Hg'. repeat case_decide; (done || lia).
  - pose proof (partialOf_range (object_color (size / 16) color) (size mod 16)
                  ltac:(euclid) (object_color_ok (size / 16) color Hc)) as Hp.
    unfold WeavecRtShadowPoisonFrom in Hp.
    rewrite store1_gval, Hg' by (rewrite ?Hbits; done || euclid).
    replace ((base + size / 16 * 16) / 16) with (base / 16 + size / 16) by euclid.
    repeat case_decide; (done || lia).
Qed.

Lemma shadowObject_bits s base size tail color :
  s_bits (weavecRtShadowObject s base size tail color) = s_bits s.
Proof.
  unfold weavecRtShadowObject, weavecRtShadowClear. by repeat case_match.
Qed.

Lemma store1_wf s a v : shadow_wf s -> shadow_wf (set_byte s (store1 (s_byte s) a v)).
Proof. intros Hwf. unfold store1. auto with weavec. Qed.

(** After [weavecRtShadowObject] a byte of the object's granules is
    addressable exactly when it is one of the object's, whatever the shadow
    said before; the granules of no other object change. *)
Theorem shadowObject_exact s base size tail color :
  shadow_wf s -> 0 <= base -> base mod 16 = 0 -> 0 <= size ->
  base + Z.max size 1 <= 2 ^ s_bits s -> color_ok color ->
  WeavecRtShadowPoisonFrom <= tail < 256 ->
  let s' := weavecRtShadowObject s base size tail color in
  (forall a, base <= a < base + 16 * Z.max 1 ((size + 15) / 16) -> a < 2 ^ s_bits s ->
     addressable s' a = (a <? base + size))
  /\ (forall a, 0 <= a < 2 ^ s_bits s ->
        ~ (base <= a < base + 16 * Z.max 1 ((size + 15) / 16)) ->
        granule_value s' a = granule_value s a).
Proof.
  intros Hwf Hb Hal Hs Hend Hc Ht s'.
  unfold WeavecRtShadowPoisonFrom in Ht.
  assert (Hwf' : shadow_wf s') by (apply shadowObject_wf; (done || destruct Hc; lia)).
  assert (Hbits : s_bits s' = s_bits s) by apply shadowObject_bits.
  pose proof (object_color_ok (size / 16) color Hc) as Hoc.
  split; intros a Ha.
  - intros Hw. rewrite addressable_gval by (rewrite ?Hbits; done || lia).
    subst s'. rewrite shadowObject_gval by (done || lia). unfold object_value.
    case_decide; [|case_decide; [case_decide; [|case_decide]|]].
    + rewrite full_byte_ok; [symmetry; apply Z.ltb_lt; euclid|].
      apply Z.ltb_lt. destruct Hoc. lia.
    + rewrite partialOf_byte_ok by (done || euclid).
      bool_cases; (done || euclid).
    + rewrite poison_not_ok; [symmetry; apply Z.ltb_ge; euclid|].
      apply Z.leb_le. unfold WeavecRtShadowPoisonFrom. lia.
    + euclid.
    + exfalso. euclid.
  - intros Hn. rewrite !granule_value_gval by (rewrite ?Hbits; done || lia).
    subst s'. rewrite shadowObject_gval by (done || lia). unfold object_value.
    repeat case_decide; (done || (exfalso; euclid)).
Qed.
End ObjectLemmas.

(** ** Reserving the shadow *)

Lemma reserveShadow_wf s bits map :
  bytes_ok (s_byte s) -> 39 <= bits < 64 -> 0 < map -> map + 2 ^ (bits - 4) + 64 <= 2 ^ 63 ->
  shadow_wf (reserveShadow s bits (Some map)).
Proof.
  intros Hb Hbits Hm Hroom. unfold reserveShadow, memset, WeavecRtShadowNull, WeavecRtNullPage.
  rewrite Z.shiftl_mul_pow2, Z.mul_1_l by lia. constructor; cbn; [lia..|].
  repeat apply fill_bytes_ok; (done || lia).
Qed.

(** What [reserveShadow] publishes is well formed, poisons exactly the
    lowest 64 KiB of the window and leaves the rest addressable. The
    hypotheses are [mmap]'s: a nonnull mapping in the low half of the address
    space. *)
Theorem reserveShadow_spec s apple stack map :
  bytes_ok (s_byte s) -> 0 < stack < 2 ^ 63 -> 0 < map ->
  map + 2 ^ (windowBits apple stack - 4) + 64 <= 2 ^ 63 ->
  let s' := reserveShadow s (windowBits apple stack) (Some map) in
  shadow_wf s'
  /\ forall a, 0 <= a < 2 ^ s_bits s' ->
       addressable s' a = (WeavecRtNullPage <=? a).
Proof.
  intros Hb Hst Hm Hroom s'.
  assert (Hbits : 39 <= windowBits apple stack < 64).
  { unfold windowBits. destruct apple; [lia|].
    assert (Z.log2 stack < 63) by (apply Z.log2_lt_pow2; lia). case_match; bool_hyps; lia. }
  assert (Hlen : Z.shiftl 1 (windowBits apple stack - 4) = 2 ^ (windowBits apple stack - 4))
    by (rewrite Z.shiftl_mul_pow2 by lia; lia).
  assert (Hwf : shadow_wf s') by (by apply reserveShadow_wf).
  split; [done|]. intros a Ha. rewrite addressable_gval by done.
  pose proof (window_split s' Hwf) as Hsp. unfold gval. subst s'. unfold reserveShadow in *.
  cbn [s_byte s_base s_bits] in *. unfold memset. rewrite !fill_bytes_eq, Hlen.
  unfold WeavecRtNullPage. change (Z.shiftr 65536 4) with 4096.
  repeat case_decide; [|rewrite full_byte_ok by done|exfalso; euclid].
  - rewrite poison_not_ok by done. symmetry. apply Z.leb_gt. euclid.
  - symmetry. apply Z.leb_le. euclid.
Qed.

(** A shadow for witnesses: the 42-bit window of Darwin. *)
Definition shadow_example : shadow :=
  reserveShadow (initial_shadow 4096 (fun _ => 0)) 42 (Some (2 ^ 40)).

#[local] Instance pages_example : Pages := {| pageBytes := 16384; remaps _ _ := true |}.

Lemma pages_example_wf : pages_wf.
Proof. exists 14. split; [lia|done]. Defined.

Lemma shadow_example_wf : shadow_wf shadow_example.
Proof.
  constructor; [vm_compute; intuition congruence..|].
  unfold shadow_example, reserveShadow, memset; cbn [s_byte initial_shadow].
  repeat apply fill_bytes_ok; first [intros ?; lia | vm_compute; intuition congruence].
Qed.

(** A 20-byte object of color 9 at [2^33], as a heap slot of 32 bytes holds. *)
Definition shadow_object_example : shadow :=
  weavecRtShadowObject shadow_example (2 ^ 33) 20 WeavecRtShadowHeapTail 9.

Lemma shadow_object_example_wf : shadow_wf shadow_object_example.
Proof. apply shadowObject_wf; [apply shadow_example_wf|lia]. Qed.

Lemma quickOk_sound_witness :
  weavecRtQuickOk shadow_object_example (2 ^ 33 + 3) 17 = true
  /\ range_ok shadow_object_example (2 ^ 33 + 3) 17.
Proof.
  assert (H : weavecRtQuickOk shadow_object_example (2 ^ 33 + 3) 17 = true) by (vm_compute; reflexivity).
  split; [exact H|].
  apply (quickOk_sound shadow_object_example (2 ^ 33 + 3) 17);
    [apply shadow_object_example_wf|lia|lia|exact H].
Defined.

Lemma quickOk_exact_witness :
  weavecRtQuickOk shadow_object_example (2 ^ 33 + 3) 18 = false
  /\ ~ range_ok shadow_object_example (2 ^ 33 + 3) 18.
Proof.
  assert (H : weavecRtQuickOk shadow_object_example (2 ^ 33 + 3) 18 = false) by (vm_compute; reflexivity).
  split; [exact H|]. intros Hr.
  apply (quickOk_exact shadow_object_example (2 ^ 33 + 3) 18) in Hr;
    [rewrite H in Hr; discriminate|apply shadow_object_example_wf|lia|lia|].
  change (s_bits shadow_object_example) with 42. lia.
Defined.

Lemma shadowObject_exact_witness :
  addressable shadow_object_example (2 ^ 33 + 19) = true
  /\ addressable shadow_object_example (2 ^ 33 + 20) = false
  /\ granule_value shadow_object_example (2 ^ 33 + 32) = granule_value shadow_example (2 ^ 33 + 32).
Proof.
  assert (Hc : color_ok 9) by (split; [lia|vm_compute; congruence]).
  destruct (shadowObject_exact pages_example_wf shadow_example (2 ^ 33) 20 WeavecRtShadowHeapTail 9
              shadow_example_wf ltac:(lia) eq_refl ltac:(lia)
              ltac:(change (s_bits shadow_example) with 42; lia) Hc
              ltac:(vm_compute; intuition congruence)) as [H1 H2].
  change (16 * Z.max 1 ((20 + 15) / 16)) with 32 in *.
  change (s_bits shadow_example) with 42 in *.
  split; [|split].
  - apply (H1 (2 ^ 33 + 19)); [lia|vm_compute; reflexivity].
  - apply (H1 (2 ^ 33 + 20)); [lia|vm_compute; reflexivity].
  - apply (H2 (2 ^ 33 + 32)); lia.
Defined.

Lemma reserveShadow_spec_witness :
  let s' := reserveShadow (initial_shadow 4096 (fun _ => 0)) (windowBits false (2 ^ 46)) (Some (2 ^ 44)) in
  s_bits s' = 47 /\ shadow_wf s' /\ addressable s' 65535 = false /\ addressable s' 65536 = true.
Proof.
  destruct (reserveShadow_spec (initial_shadow 4096 (fun _ => 0)) false (2 ^ 46) (2 ^ 44)) as [H1 H2].
  - intros a. cbn. lia.
  - lia.
  - lia.
  - vm_compute. congruence.
  - split; [reflexivity|]. split; [exact H1|].
    split; [apply (H2 65535)|apply (H2 65536)];
      (split; [lia|vm_compute; reflexivity]).
Defined.
