(* ===== verification/Report.v ===== *)
(** * Reports

    [runtime/weavec_report.c]: the line buffer and the runtime's own number
    formatting, the table of the sites already reported, and the failures a
    guard raises ([weavecRtFail], [weavecRtFailObject], [weavecRtFailJump],
    [__weavec_rt_fatal]).  A failure takes the state of the reports (the
    table, the settings read at start-up, the lines written so far) and
    returns the new state with whether the program stopped.  Writing a line
    to standard error or to the log is one entry of the output.  The table is
    the sequential one: the compare-and-exchange of a single thread succeeds.

    The allocator's answer about an address ([weavecRtHeapObjectAt]) comes
    through the class [HeapView], which the arena implements. *)

From Stdlib Require Import String Ascii.
From S2P Require Import Prelude.
Local Open Scope Z_scope.

(** ** Sites *)

Definition WeavecRtSiteWrite : Z := 1.
Definition WeavecRtSiteReport : Z := 2.
Definition WeavecRtSiteProven : Z := 4.
Definition WeavecRtSiteNullOk : Z := 8.

(** [struct __weavec_rt_site]; the file, an offset from the record in memory,
    is the name it leads to. *)
Record site := Site {
  site_file : option string;
  site_line : Z;
  site_column : Z;
  site_flags : Z
}.

Definition weavecRtSiteFile (s : option site) : option string :=
  match s with Some s => site_file s | None => None end.

Definition weavecRtSiteSet (file : option string) (line column flags : Z) : site :=
  Site file line (if 0xFFFF <? column then 0xFFFF else column) (flags mod 65536).

Definition siteFlags (s : option site) : Z :=
  match s with Some s => site_flags s | None => 0 end.

Definition has (flags bit : Z) : bool := negb (Z.land flags bit =? 0).

(** ** The allocator's answer *)

(** [struct weavecRtHeapObject]. *)
Record HeapObject := mkHeapObject {
  ho_found : bool;
  ho_live : bool;
  ho_base : Z;
  ho_size : Z
}.

Definition no_heap_object : HeapObject := mkHeapObject false false 0 0.

Class HeapView := { weavecRtHeapObjectAt : Z -> HeapObject }.

(** ** A line being written *)

(** [struct Line]: what was written and the room up to [end]. *)
Record Line := mkLine { l_text : string; l_room : Z }.

Definition putChar (line : Line) (c : ascii) : Line :=
  mkLine (l_text line ++ String c EmptyString) (l_room line - 1).

Fixpoint put (line : Line) (text : string) : Line :=
  match text with
  | EmptyString => line
  | String c text' =>
    if negb (Ascii.eqb c zero) && (0 <? l_room line)
    then put (putChar line c) text'
    else line
  end.

Definition digit_char (d : Z) : ascii :=
  match String.get (Z.to_nat d) "0123456789abcdef"%string with
  | Some c => c
  | None => zero
  end.

(** The [do .. while] over [digits]: the digits of [value], the least
    significant first; [digits] has room for 24. *)
Fixpoint digitsOf (fuel : nat) (value base : Z) : list ascii :=
  match fuel with
  | O => []
  | S fuel' =>
    digit_char (value mod base)
    :: (if negb (value / base =? 0) then digitsOf fuel' (value / base) base else [])
  end.

(** [while (count != 0 && line->at < line->end)]. *)
Fixpoint putDigits (line : Line) (digits : list ascii) : Line :=
  match digits with
  | [] => line
  | c :: rest =>
    if (0 <? l_room line) then putDigits (putChar line c) rest else line
  end.

Definition putUnsigned (line : Line) (value base : Z) : Line :=
  putDigits line (rev (digitsOf 24 value base)).

Definition putHex (line : Line) (value : Z) : Line :=
  putUnsigned (put line "0x") value 16.

(** The newline is written at [at] without asking for room: [end] leaves one
    byte for it. *)
Definition finish (line : Line) : string :=
  l_text line ++ String (Ascii.ascii_of_nat 10) EmptyString.

Definition newLine (room : Z) : Line := mkLine EmptyString (room - 1).

(** ** The reported sites *)

Definition SiteSlots : Z := 4096.

Definition fnv (hash byte : Z) : Z := wrap64 (Z.lxor hash byte * 1099511628211).

Fixpoint hashBytes (hash : Z) (text : string) : Z :=
  match text with
  | EmptyString => hash
  | String c text' =>
    if Ascii.eqb c zero then hash
    else hashBytes (fnv hash (Z.of_N (N_of_ascii c))) text'
  end.

Definition hashText (hash : Z) (text : option string) : Z :=
  fnv (hashBytes hash (match text with Some t => t | None => EmptyString end)) 0xff.

Definition siteHash (check : string) (file : option string) (line column : Z) : Z :=
  let hash := hashText 14695981039346656037 (Some check) in
  let hash := hashText hash file in
  let hash := fnv hash line in
  let hash := fnv hash column in
  if negb (hash =? 0) then hash else 1.

Definition sites := Z -> Z.

(** The probes [probe], [probe + 1], ... of [hash], [fuel] of them. *)
Fixpoint firstReportFrom (fuel : nat) (probe : Z) (table : sites) (hash : Z) : bool * sites :=
  match fuel with
  | O => (true, table)
  | S fuel' =>
    let slot := wrap64 (hash + probe) mod SiteSlots in
    let seen := table slot in
    if seen =? 0 then
      (true, fun s => if s =? slot then hash else table s)
    else if seen =? hash then (false, table)
    else firstReportFrom fuel' (probe + 1) table hash
  end.

Definition firstReport (table : sites) (hash : Z) : bool * sites :=
  firstReportFrom (Z.to_nat SiteSlots) 0 table hash.

(** ** Failures *)

Record reports := mkReports {
  r_sites : sites;
  r_abort : bool;                 (* WEAVEC_RT_ABORT=1 *)
  r_output : list string          (* the lines, the newest first *)
}.

Definition emit (r : reports) (text : string) : reports :=
  mkReports (r_sites r) (r_abort r) (text :: r_output r).

Definition shouldAbort (r : reports) : bool := r_abort r.

Definition signed64 (z : Z) : Z := if z <? 2 ^ 63 then z else z - 2 ^ 64.

(** Where the failure is: [at <file>:<line>:<column>]. *)
Definition reportPlace (out : Line) (s : option site) : Line :=
  let line := match s with Some s => site_line s | None => 0 end in
  let column := match s with Some s => site_column s | None => 0 end in
  match weavecRtSiteFile s with
  | Some file =>
    putUnsigned (put (putUnsigned (put (put out file) ":") line 10) ":") column 10
  | None => put out "<unknown>"
  end.

(** What was accessed. *)
Definition reportAccess (out : Line) (kind : string) (address width flags : Z) : Line :=
  if String.eqb kind "index-out-of-bounds" then
    let out := put out "index " in
    if signed64 address <? 0 then putUnsigned (put out "-") (sub64 0 address) 10
    else putUnsigned out address 10
  else if width =? 0 then putHex (put out "access at ") address
  else
    let out := put out (if has flags WeavecRtSiteWrite then "write" else "read") in
    putHex (put (putUnsigned (put out " of ") width 10) " bytes at ") address.

Definition reportText (kind : string) (address width : Z) (s : option site) : string :=
  let flags := siteFlags s in
  let out := put (newLine 1024) "weavec: " in
  let out := if has flags WeavecRtSiteProven then put out "weavec.proven: " else out in
  let out := reportPlace (put (put out kind) " at ") s in
  finish (reportAccess (put out ": ") kind address width flags).

(** The first line of a report; false when report mode already reported the
    site. *)
Definition reportLine (r : reports) (kind : string) (address width : Z)
    (s : option site) : bool * reports :=
  let file := weavecRtSiteFile s in
  let line := match s with Some s => site_line s | None => 0 end in
  let column := match s with Some s => site_column s | None => 0 end in
  let report := has (siteFlags s) WeavecRtSiteReport && negb (shouldAbort r) in
  let '(first, r) :=
    if report then
      let '(first, table) := firstReport (r_sites r) (siteHash kind file line column) in
      (first, mkReports table (r_abort r) (r_output r))
    else (true, r) in
  if report && negb first then (false, r)
  else (true, emit r (reportText kind address width s)).

Definition describeRange (address lo hi : Z) (noun : string) (room : Z) : string :=
  let line := putHex (put (newLine room) "weavec: ") address in
  let line :=
    if hi <=? address then
      put (putUnsigned (put line " is ") (sub64 address hi) 10) " bytes after the "
    else if address <? lo then
      put (putUnsigned (put line " is ") (sub64 lo address) 10) " bytes before the "
    else
      put (putUnsigned (put line " is ") (sub64 address lo) 10) " bytes inside the " in
  let line := put (putUnsigned line (sub64 hi lo) 10) "-byte " in
  finish (putHex (put (put line noun) " at ") lo).

(** Whether the failure at [s] stops the program ([stop]). *)
Definition stop (r : reports) (s : option site) : bool :=
  negb (has (siteFlags s) WeavecRtSiteReport && negb (shouldAbort r)).

Section Failures.
Context {H : HeapView}.

(** The second line of a heap failure; [None] when there is nothing to say. *)
Definition describeHeap (address room : Z) : option string :=
  let object := weavecRtHeapObjectAt address in
  if negb (ho_found object) then None
  else if negb (ho_live object) then
    Some (finish (putHex (put (putHex (put (newLine room) "weavec: ") address)
                              " is inside a released heap block at ") (ho_base object)))
  else if add64 (ho_base object) (ho_size object) <=? address then
    Some (describeRange address (ho_base object) (add64 (ho_base object) (ho_size object))
                        "heap object" room)
  else None.

Definition weavecRtFailObject (r : reports) (kind : string) (address width lo hi : Z)
    (s : option site) : bool * reports :=
  let '(said, r) := reportLine r kind address width s in
  if negb said then (false, r)
  else
    let r := emit r (describeRange address lo hi "destination" 256) in
    (stop r s, r).

Definition weavecRtFail (r : reports) (kind : string) (address width : Z)
    (s : option site) : bool * reports :=
  let '(said, r) := reportLine r kind address width s in
  if negb said then (false, r)
  else
    let r :=
      if String.prefix "heap-" kind then
        match describeHeap address 256 with
        | Some text => emit r text
        | None => r
        end
      else if String.eqb kind "stack-use-after-return" then
        emit r (finish (put (putHex (put (newLine 256) "weavec: ") address)
                            " is in a frame that returned"))
      else r in
    (stop r s, r).

Definition weavecRtFailJump (r : reports) (kind : string) (address width root : Z)
    (s : option site) : bool * reports :=
  let '(said, r) := reportLine r kind address width s in
  if negb said then (false, r)
  else
    let line := put (putHex (put (newLine 256) "weavec: ") address) " is " in
    let line := putUnsigned line (if root <=? address then sub64 address root
                                  else sub64 root address) 10 in
    let line := put line (if root <=? address then " bytes after its base "
                          else " bytes before its base ") in
    let r := emit r (finish (put (putHex line root) ", in another object")) in
    (stop r s, r).
End Failures.

(** Prints the reason and traps, always. *)
Definition __weavec_rt_fatal (r : reports) (what : string) (p : Z) (why : string) : reports :=
  emit r (finish (put (put (putHex (put (put (put (newLine 256) "weavec: ") what) " of ") p)
                           ": ") why)).

(** ** The buffers *)

(** The room of a line and what it holds never exceed its buffer. *)
Definition size (text : string) : Z := Z.of_nat (String.length text).

Definition fits (n : Z) (line : Line) : Prop :=
  0 <= l_room line /\ size (l_text line) + l_room line <= n.

Lemma size_append a b : size (a ++ b) = size a + size b.
Proof.
  unfold size. induction a as [|c a IH]; [done|]. cbn [String.length append]. lia.
Qed.

Lemma putChar_fits n line c : 0 < l_room line -> fits n line -> fits n (putChar line c).
Proof.
  unfold fits, putChar. cbn [l_text l_room]. rewrite size_append.
  change (size (String c "")) with 1. lia.
Qed.

Lemma put_fits n text line : fits n line -> fits n (put line text).
Proof.
  revert line. induction text as [|c text IH]; intros line Hf; [done|]. cbn.
  destruct (negb (Ascii.eqb c zero)); [|done].
  destruct (Z.ltb_spec 0 (l_room line)); cbn; [|done].
  apply IH. by apply putChar_fits.
Qed.

Lemma putUnsigned_fits n line value base : fits n line -> fits n (putUnsigned line value base).
Proof.
  unfold putUnsigned. generalize (rev (digitsOf 24 value base)) as ds.
  intros ds. revert line. induction ds as [|c ds IH]; intros line Hf; [done|]. cbn.
  destruct (Z.ltb_spec 0 (l_room line)); [|done].
  apply IH. by apply putChar_fits.
Qed.

Lemma putHex_fits n line value : fits n line -> fits n (putHex line value).
Proof. intros. by apply putUnsigned_fits, put_fits. Qed.

Lemma newLine_fits n : 0 < n -> fits (n - 1) (newLine n).
Proof. unfold fits, newLine, size. cbn. lia. Qed.

Lemma finish_size n line : fits (n - 1) line -> size (finish line) <= n.
Proof.
  unfold fits, finish. rewrite size_append.
  change (size (String (ascii_of_nat 10) "")) with 1. lia.
Qed.

#[export] Hint Resolve put_fits putUnsigned_fits putHex_fits newLine_fits : weavec.
#[export] Hint Extern 1 (0 < _) => lia : weavec.

(** Solves a buffer goal by the way the line was built. *)
Ltac line_fits :=
  apply finish_size; repeat case_match; auto 30 with weavec.

Lemma describeRange_size address lo hi noun room :
  0 < room -> size (describeRange address lo hi noun room) <= room.
Proof. intros Hr. unfold describeRange. line_fits. Qed.

Lemma reportPlace_fits n out s : fits n out -> fits n (reportPlace out s).
Proof. intros. unfold reportPlace. case_match; auto 20 with weavec. Qed.

Lemma reportAccess_fits n out kind address width flags :
  fits n out -> fits n (reportAccess out kind address width flags).
Proof. intros. unfold reportAccess. repeat case_match; auto 20 with weavec. Qed.

Lemma reportText_size kind address width s : size (reportText kind address width s) <= 1024.
Proof.
  apply finish_size. apply reportAccess_fits, put_fits, reportPlace_fits, put_fits, put_fits.
  case_match; auto with weavec.
Qed.

(** The one line [reportLine] adds. *)
Lemma reportLine_output r kind address width s r' :
  reportLine r kind address width s = (true, r') ->
  r_abort r' = r_abort r
  /\ exists line, r_output r' = line :: r_output r /\ size line <= 1024.
Proof.
  unfold reportLine. intros H.
  destruct (has (siteFlags s) WeavecRtSiteReport && negb (shouldAbort r)) eqn:E.
  - destruct (firstReport _ _) as [first table]. destruct first; cbn [negb andb] in H; [|done].
    injection H as <-. split; [done|]. eexists. split; [reflexivity|apply reportText_size].
  - cbn [andb] in H. injection H as <-. split; [done|].
    eexists. split; [reflexivity|apply reportText_size].
Qed.

(** ** Numbers *)

(** The value of digits, the least significant first. *)
Fixpoint digits_value (digits : list Z) (base : Z) : Z :=
  match digits with
  | [] => 0
  | d :: ds => d + base * digits_value ds base
  end.

Lemma digitsOf_value fuel value base :
  2 <= base <= 16 -> 0 <= value < base ^ Z.of_nat fuel ->
  exists ds, digitsOf fuel value base = map digit_char ds
             /\ digits_value ds base = value
             /\ Forall (fun d => 0 <= d < base) ds.
Proof.
  intros Hb. revert value. induction fuel as [|fuel IH]; intros value Hv.
  - cbn in Hv. exists []. cbn. split; [done|]. split; [lia|done].
  - rewrite Nat2Z.inj_succ, Z.pow_succ_r in Hv by lia. cbn [digitsOf].
    pose proof (Z.mod_pos_bound value base ltac:(lia)).
    pose proof (Z.div_mod value base ltac:(lia)).
    destruct (Z.eqb_spec (value / base) 0) as [Hd0|Hd0]; cbn [negb].
    + exists [value mod base]. cbn. split; [done|].
      split; [lia|by constructor].
    + destruct (IH (value / base)) as (ds & -> & Hd & Hf).
      { split; [apply Z.div_pos; lia|]. apply Z.div_lt_upper_bound; lia. }
      exists (value mod base :: ds). cbn. split; [done|]. split; [lia|by constructor].
Qed.

Lemma append_nil_r t : (t ++ "")%string = t.
Proof. induction t as [|c t IH]; [done|]. cbn. by rewrite IH. Qed.

Lemma append_char t c u : ((t ++ String c "") ++ u)%string = (t ++ String c u)%string.
Proof. induction t as [|d t IH]; [done|]. cbn. by rewrite IH. Qed.

Lemma putDigits_all line ds :
  Z.of_nat (List.length ds) <= l_room line ->
  l_text (putDigits line ds) = (l_text line ++ string_of_list_ascii ds)%string
  /\ l_room (putDigits line ds) = l_room line - Z.of_nat (List.length ds).
Proof.
  revert line. induction ds as [|c ds IH]; intros line Hr; cbn [List.length putDigits] in *.
  - split; [symmetry; apply append_nil_r|lia].
  - destruct (Z.ltb_spec 0 (l_room line)); [|lia].
    destruct (IH (putChar line c)) as [-> ->]; cbn [putChar l_text l_room]; [lia|].
    split; [apply append_char|lia].
Qed.

(** A number of 64 bits is written in full when 24 bytes are left, and
    the digits written are its digits. *)
Theorem putUnsigned_spec line value base :
  (base = 10 \/ base = 16) -> 0 <= value < 2 ^ 64 -> 24 <= l_room line ->
  exists ds,
    l_text (putUnsigned line value base)
      = (l_text line ++ string_of_list_ascii (rev (map digit_char ds)))%string
    /\ digits_value ds base = value
    /\ Forall (fun d => 0 <= d < base) ds.
Proof.
  intros Hb Hv Hr.
  destruct (digitsOf_value 24 value base) as (ds & Hds & Hval & Hf);
    [lia|split; [lia|]; destruct Hb as [-> | ->]; lia|].
  exists ds. split; [|done]. unfold putUnsigned. rewrite Hds.
  apply putDigits_all. rewrite length_rev, <- Hds.
  enough (List.length (digitsOf 24 value base) <= 24)%nat by lia. clear. generalize 24%nat as n. intros n. revert value.
  induction n as [|n IH]; intros value; [done|]. cbn.
  specialize (IH (value / base)). case_match; cbn; lia.
Qed.

(** ** Each site once *)

(** The table says [hash] was reported. *)
Definition reported (table : sites) (hash : Z) : Prop := fst (firstReport table hash) = false.

Lemma firstReportFrom_keeps fuel probe table other s :
  firstReportFrom fuel probe table other = s -> forall x, table x <> 0 -> snd s x = table x.
Proof.
  revert probe. induction fuel as [|fuel IH]; intros probe Hs x Hx; cbn in Hs; [by subst s|].
  destruct (Z.eqb_spec (table (wrap64 (other + probe) mod SiteSlots)) 0) as [H0|H0].
  - subst s. cbn. destruct (Z.eqb_spec x (wrap64 (other + probe) mod SiteSlots)); [by subst|done].
  - destruct (_ =? other); [by subst s|]. by eapply IH.
Qed.

Lemma firstReportFrom_stays fuel probe table table' hash :
  (forall x, table x <> 0 -> table' x = table x) ->
  fst (firstReportFrom fuel probe table hash) = false ->
  fst (firstReportFrom fuel probe table' hash) = false.
Proof.
  intros Hk. revert probe. induction fuel as [|fuel IH]; intros probe; cbn; [done|].
  set (slot := wrap64 (hash + probe) mod SiteSlots).
  destruct (Z.eqb_spec (table slot) 0) as [H0|H0]; [done|].
  rewrite (Hk slot H0). destruct (Z.eqb_spec (table slot) 0); [done|].
  destruct (table slot =? hash); [done|]. apply IH.
Qed.

(** A first report finds the site afterwards, unless it found no free slot. *)
Lemma firstReportFrom_records fuel probe table hash :
  hash <> 0 ->
  fst (firstReportFrom fuel probe table hash) = true ->
  (exists k, (k < fuel)%nat /\ table (wrap64 (hash + (probe + Z.of_nat k)) mod SiteSlots) = 0) ->
  fst (firstReportFrom fuel probe (snd (firstReportFrom fuel probe table hash)) hash) = false.
Proof.
  intros Hh. revert probe. induction fuel as [|fuel IH]; intros probe Hf (k & Hk & Hz); [lia|].
  cbn in *. set (slot := wrap64 (hash + probe) mod SiteSlots) in *.
  destruct (Z.eqb_spec (table slot) 0) as [H0|H0]; cbn.
  - rewrite Z.eqb_refl. rewrite (proj2 (Z.eqb_neq hash 0)) by done. by rewrite Z.eqb_refl.
  - destruct (Z.eqb_spec (table slot) hash) as [He|He]; [done|].
    assert (Hkeep : snd (firstReportFrom fuel (probe + 1) table hash) slot = table slot)
      by (by eapply firstReportFrom_keeps).
    rewrite Hkeep. rewrite (proj2 (Z.eqb_neq _ 0)), (proj2 (Z.eqb_neq _ hash)) by done.
    apply IH; [done|]. destruct k as [|k].
    + exfalso. apply H0. subst slot. by rewrite Z.add_0_r in Hz.
    + exists k. split; [lia|].
      replace (probe + 1 + Z.of_nat k) with (probe + Z.of_nat (S k)) by lia. done.
Qed.

Lemma firstReport_false_same table hash table' :
  firstReport table hash = (false, table') -> table' = table.
Proof.
  unfold firstReport. generalize (Z.to_nat SiteSlots) as fuel, 0 as probe.
  induction fuel as [|fuel IH]; intros probe; cbn; [done|].
  repeat case_match; [done| |]; [congruence|]. apply IH.
Qed.

(** Once a site is in the table, no later report takes it out: the site
    stays reported whatever other sites are reported after it. *)
Theorem reported_stays table hash other :
  reported table hash -> reported (snd (firstReport table other)) hash.
Proof.
  unfold reported, firstReport. intros Hr.
  eapply firstReportFrom_stays; [|exact Hr].
  intros x Hx. by eapply firstReportFrom_keeps.
Qed.

Lemma firstReport_records table hash :
  hash <> 0 -> fst (firstReport table hash) = true ->
  (exists slot, 0 <= slot < SiteSlots /\ table slot = 0) ->
  reported (snd (firstReport table hash)) hash.
Proof.
  intros Hh Hf (slot & Hslot & Hz). unfold SiteSlots in *.
  apply firstReportFrom_records; [done..|].
  exists (Z.to_nat ((slot - hash) mod 4096)).
  split; [unfold SiteSlots; euclid|]. transitivity (table slot); [|done]. f_equal.
  unfold wrap64, SiteSlots. rewrite Z2Nat.id by euclid.
  change (2 ^ 64) with (4096 * 2 ^ 52). rewrite Z.add_0_l. euclid.
Qed.

Lemma siteHash_nonzero check file line column : siteHash check file line column <> 0.
Proof.
  unfold siteHash. destruct (Z.eqb_spec (fnv (fnv (hashText (hashText 14695981039346656037
    (Some check)) file) line) column) 0); cbn; lia.
Qed.

(** In report mode, while the table has a free slot, a failure that
    printed its report prints no second one: the next failure of the same kind
    at the same site adds no line and does not stop the program. *)
Theorem report_once `{HeapView} r kind address width s address' width' :
  stop r s = false ->
  (exists slot, 0 <= slot < SiteSlots /\ r_sites r slot = 0) ->
  let r1 := snd (weavecRtFail r kind address width s) in
  weavecRtFail r1 kind address' width' s = (false, r1).
Proof.
  intros Hs Hfree r1.
  assert (Hrep : has (siteFlags s) WeavecRtSiteReport && negb (shouldAbort r) = true)
    by (unfold stop in Hs; by apply negb_false_iff).
  set (hash := siteHash kind (weavecRtSiteFile s)
                 (match s with Some s => site_line s | None => 0 end)
                 (match s with Some s => site_column s | None => 0 end)).
  assert (Hr1 : r_abort r1 = r_abort r /\ reported (r_sites r1) hash).
  { subst r1. unfold weavecRtFail, reportLine. rewrite Hrep. fold hash.
    destruct (firstReport (r_sites r) hash) as [first table] eqn:E.
    destruct first; cbn [negb andb].
    - assert (Ht : reported table hash).
      { change table with (snd (true, table)). rewrite <- E.
        apply firstReport_records; [apply siteHash_nonzero|by rewrite E|done]. }
      repeat case_match; cbn; done.
    - cbn. split; [done|]. unfold reported.
      replace table with (r_sites r); [by rewrite E|].
      symmetry. eapply firstReport_false_same. exact E. }
  clearbody r1. destruct Hr1 as [Ha Hr]. unfold weavecRtFail, reportLine.
  unfold shouldAbort in *. rewrite Ha, Hrep. fold hash. unfold reported in Hr.
  destruct (firstReport (r_sites r1) hash) as [first table] eqn:E. cbn in Hr. subst first.
  cbn. rewrite (firstReport_false_same _ _ _ E), <- Ha. by destruct r1.
Qed.

Lemma reportLine_traps r kind address width s :
  stop r s = true ->
  reportLine r kind address width s = (true, emit r (reportText kind address width s)).
Proof.
  unfold stop, reportLine. intros Hs. apply negb_true_iff in Hs.
  rewrite Hs. cbn. done.
Qed.

(** The three failures of a guard. *)
Inductive failure :=
  | Fails (kind : string) (address width : Z)
  | FailsObject (kind : string) (address width lo hi : Z)
  | FailsJump (kind : string) (address width root : Z).

Definition fail `{HeapView} (r : reports) (f : failure) (s : option site) : bool * reports :=
  match f with
  | Fails kind address width => weavecRtFail r kind address width s
  | FailsObject kind address width lo hi => weavecRtFailObject r kind address width lo hi s
  | FailsJump kind address width root => weavecRtFailJump r kind address width root s
  end.

(** The report's first line. *)
Definition failure_text (f : failure) (s : option site) : string :=
  match f with
  | Fails kind address width | FailsObject kind address width _ _
  | FailsJump kind address width _ => reportText kind address width s
  end.

Lemma describeRange_fits address lo hi noun :
  size (describeRange address lo hi noun 256) <= 1024.
Proof. transitivity 256; [by apply describeRange_size|lia]. Qed.

Lemma finish_fits line : fits (256 - 1) line -> size (finish line) <= 1024.
Proof. intros Hf. transitivity 256; [by apply finish_size|lia]. Qed.

Lemma describeHeap_fits `{HeapView} address text :
  describeHeap address 256 = Some text -> size text <= 1024.
Proof.
  unfold describeHeap. intros Et. repeat case_match; simplify_eq; [|apply describeRange_fits].
  apply finish_fits. auto 9 with weavec.
Qed.

Lemma stop_emit r text s : stop (emit r text) s = stop r s.
Proof. done. Qed.

(** What a failure that stops the program prints. *)
Lemma fail_stops `{HeapView} r f s :
  stop r s = true ->
  exists extra, fail r f s
    = (true, mkReports (r_sites r) (r_abort r) (extra ++ failure_text f s :: r_output r))
    /\ Forall (fun line => size line <= 1024) extra.
Proof.
  intros Hs. destruct f; cbn [fail failure_text];
    unfold weavecRtFail, weavecRtFailObject, weavecRtFailJump;
    rewrite reportLine_traps by done; cbn [negb].
  - destruct (String.prefix "heap-" kind); [|destruct (String.eqb kind "stack-use-after-return")].
    + destruct (describeHeap address 256) as [text|] eqn:Et.
      * rewrite !stop_emit, Hs.
        exists [text]. split; [done|]. repeat constructor. by eapply describeHeap_fits.
      * rewrite stop_emit, Hs. by exists [].
    + rewrite !stop_emit, Hs. eexists [_].
      split; [done|]. repeat constructor. apply finish_fits. auto 9 with weavec.
    + rewrite stop_emit, Hs. by exists [].
  - rewrite !stop_emit, Hs. eexists [_].
    split; [done|]. repeat constructor. apply describeRange_fits.
  - rewrite !stop_emit, Hs. eexists [_].
    split; [done|]. repeat constructor. apply finish_fits. auto 12 with weavec.
Qed.

(** Outside report mode (or with [WEAVEC_RT_ABORT=1]) every failure of a
    guard prints a report, its kind and place first, and stops the program,
    whatever was reported before; every line it prints fits its buffer with
    its newline. *)
Theorem failure_stops `{HeapView} r f s :
  stop r s = true ->
  fst (fail r f s) = true
  /\ exists extra, r_output (snd (fail r f s)) = (extra ++ failure_text f s :: r_output r)%list
                   /\ Forall (fun line => size line <= 1024) (extra ++ [failure_text f s]).
Proof.
  intros Hs. destruct (fail_stops r f s Hs) as (extra & -> & He). split; [done|].
  exists extra. split; [done|]. apply Forall_app. split; [done|]. repeat constructor.
  destruct f; apply reportText_size.
Qed.
