(* ===== verification/Guard.v ===== *)
(** * The runtime's guards

    [runtime/weavec_guard.c]: the exact decision a guard's slow path takes
    from the shadow ([firstUnaddressable], with the stale frames [settle]
    clears on the way), the kind of a failure, the color check of an access
    computed from another object, the range and string guards, the shadow of
    frames, dynamic stack objects and globals, and the handlers of declared
    array bounds.

    Every entry point is a computation of the state monad [G] over the shadow,
    the reports and the two statics of the file; it answers [None] when the
    failure it reported stopped the program.  The calling thread's stack (what
    [pthread] answers) and the processor's treatment of an address's top byte
    come through the class [Thread]; the frame address of the runtime's entry
    point is the argument [here]. *)

From Stdlib Require Import String.
From S2P Require Import Prelude Shadow Report.
Local Open Scope Z_scope.

(** ** The thread and the state *)

(** The calling thread's stack is [[stackLow, stackHigh)]; 0 and 0 when the
    system cannot say ([readStack]). *)
Class Thread := {
  stackLow : Z;
  stackHigh : Z;
  aarch64 : bool
}.

Record gstate := mkGState {
  gs_shadow : shadow;
  gs_reports : reports;
  gs_lostColors : bool;          (* stackLostColors *)
  gs_globalColors : Z;           (* globalColors *)
  gs_statsOn : bool;             (* weavecRtStatsOn *)
  gs_stats : Z -> Z              (* weavecRtStats *)
}.

Definition with_shadow (st : gstate) (s : shadow) : gstate :=
  mkGState s (gs_reports st) (gs_lostColors st) (gs_globalColors st) (gs_statsOn st) (gs_stats st).
Definition with_reports (st : gstate) (r : reports) : gstate :=
  mkGState (gs_shadow st) r (gs_lostColors st) (gs_globalColors st) (gs_statsOn st) (gs_stats st).
Definition with_lostColors (st : gstate) (b : bool) : gstate :=
  mkGState (gs_shadow st) (gs_reports st) b (gs_globalColors st) (gs_statsOn st) (gs_stats st).
Definition with_globalColors (st : gstate) (n : Z) : gstate :=
  mkGState (gs_shadow st) (gs_reports st) (gs_lostColors st) n (gs_statsOn st) (gs_stats st).
Definition with_stats (st : gstate) (f : Z -> Z) : gstate :=
  mkGState (gs_shadow st) (gs_reports st) (gs_lostColors st) (gs_globalColors st) (gs_statsOn st) f.

(** A computation of the runtime: its answer, [None] when the program stopped,
    and the state it leaves. *)
Definition G (A : Type) : Type := gstate -> option A * gstate.

#[export] Instance G_ret : MRet G := fun A a st => (Some a, st).
#[export] Instance G_bind : MBind G := fun A B f c st =>
  match c st with
  | (Some a, st') => f a st'
  | (None, st') => (None, st')
  end.

Definition get : G gstate := fun st => (Some st, st).
Definition modify (f : gstate -> gstate) : G unit := fun st => (Some tt, f st).
Definition put_shadow (s : shadow) : G unit := modify (fun st => with_shadow st s).
Definition on_shadow (f : shadow -> shadow) : G unit :=
  modify (fun st => with_shadow st (f (gs_shadow st))).

(** What the runtime counts ([WEAVEC_RT_STATS=1]). *)
Definition WeavecRtStatSlowGuards : Z := 4.
Definition WeavecRtStatRanges : Z := 5.
Definition WeavecRtStatStrings : Z := 6.
Definition WeavecRtStatStackUnpoisons : Z := 7.
Definition WeavecRtStatSweeps : Z := 8.

Definition weavecRtCount (stat : Z) : G unit :=
  modify (fun st =>
    if gs_statsOn st || (stat =? WeavecRtStatSweeps)
    then with_stats st (fun i => if i =? stat then add64 (gs_stats st i) 1 else gs_stats st i)
    else st).

(** ** Deciding *)

Definition isPoison (value : Z) : bool := weavecRtShadowPoison value.

(** The value of the first poisoned granule of the 63 that follow, else of the
    last one looked at. *)
Fixpoint kindLook (fuel : nat) (s : shadow) (look value granule : Z) : Z :=
  match fuel with
  | O => value
  | S fuel' =>
    let next := add64 granule (Z.shiftl look 4) in
    if negb (weavecRtInWindow s next) then value
    else
      let value := granule_value s next in
      if isPoison value then value else kindLook fuel' s (look + 1) value granule
  end.

Definition kindOf (s : shadow) (value granule : Z) : string :=
  let value := if isPoison value then value else kindLook 63 s 1 value granule in
  if negb (isPoison value) then "use-after-poison"
  else if value =? WeavecRtShadowHeapTail then "heap-buffer-overflow"
  else if value =? WeavecRtShadowHeapFreed then "heap-use-after-free"
  else if (value =? WeavecRtShadowStackLeft) || (value =? WeavecRtShadowStackMid)
          || (value =? WeavecRtShadowStackRight) then "stack-buffer-overflow"
  else if value =? WeavecRtShadowStackDynamic then "dynamic-stack-buffer-overflow"
  else if value =? WeavecRtShadowReturned then "stack-use-after-return"
  else if value =? WeavecRtShadowStackScope then "stack-use-after-scope"
  else if value =? WeavecRtShadowUser then "use-after-poison"
  else if value =? WeavecRtShadowGlobal then "global-buffer-overflow"
  else if value =? WeavecRtShadowNull then "null-dereference"
  else "invalid-access".

(** [0xFF << 56]. *)
Definition topByte : Z := Z.shiftl 0xFF 56.

(** [while (granule + 128 <= end && (granule & 127) == 0)]: eight granules at
    a time while they are all whole. *)
Fixpoint skipEight (fuel : nat) (s : shadow) (end_ granule : Z) : Z :=
  match fuel with
  | O => granule
  | S fuel' =>
    if (add64 granule 128 <=? end_) && (Z.land granule 127 =? 0) then
      let eight := load_le (s_byte s) (weavecRtShadowOf s granule) 8 in
      if negb (Z.land eight hi8 =? 0) then granule
      else skipEight fuel' s end_ (add64 granule 128)
    else granule
  end.

Section Deciding.
Context {T : Thread}.

(** A granule a returned frame left is the calling thread's returned frame, or
    stale: then it is cleared and decided as addressable. *)
Definition settle (s : shadow) (granule v here : Z) : shadow * Z :=
  if negb (v =? WeavecRtShadowReturned) then (s, v)
  else if (add64 granule 16 <=? here) && (stackLow <=? granule) && (here <? stackHigh)
  then (s, v)
  else (set_byte s (store1 (s_byte s) (weavecRtShadowOf s granule) WeavecRtShadowAddressable),
        WeavecRtShadowAddressable).

(** The address the hardware reaches. *)
Definition reachedAddress (s : shadow) (address : Z) : Z :=
  if aarch64 && negb (weavecRtInWindow s address)
     && weavecRtInWindow s (Z.ldiff address topByte)
  then Z.ldiff address topByte else address.

(** The end of the part of a range that is decided. *)
Definition decidedEnd (s : shadow) (address n : Z) : Z :=
  if (2 ^ 64 <=? address + n) || negb (weavecRtInWindow s (sub64 (address + n) 1)) then
    if 64 <=? s_bits s then 2 ^ 64 - 1 else Z.shiftl 1 (s_bits s)
  else address + n.

(** The scan from [granule]: the first unaddressable byte and its shadow
    value. *)
Fixpoint unaddressableFrom (fuel : nat) (s : shadow) (address end_ granule here : Z)
    : shadow * option (Z * Z) :=
  match fuel with
  | O => (s, None)
  | S fuel' =>
    let decide_ (s : shadow) (v granule : Z) :=
      let low := if address <? granule then granule else address in
      let high := if add64 granule 16 <? end_ then add64 granule 16 else end_ in
      if negb (isPoison v) then
        let k := weavecRtShadowBytes v in
        if high <=? granule + k then
          unaddressableFrom fuel' s address end_ (add64 granule 16) here
        else (s, Some (if granule + k <? low then low else granule + k, v))
      else (s, Some (low, v)) in
    if granule <? end_ then
      let '(s, v) := settle s granule (granule_value s granule) here in
      if weavecRtShadowFull v then
        let granule := skipEight fuel s end_ granule in
        if end_ <=? granule then (s, None)
        else
          let '(s, v) := settle s granule (granule_value s granule) here in
          if weavecRtShadowFull v then
            unaddressableFrom fuel' s address end_ (add64 granule 16) here
          else decide_ s v granule
      else decide_ s v granule
    else (s, None)
  end.

Definition firstUnaddressable (s : shadow) (address n here : Z) : shadow * option (Z * Z) :=
  let address := reachedAddress s address in
  if (n =? 0) || negb (weavecRtShadowReady s) || negb (weavecRtInWindow s address)
  then (s, None)
  else
    let end_ := decidedEnd s address n in
    let granule := Z.ldiff address 15 in
    unaddressableFrom (Z.to_nat ((end_ - granule) / 16 + 1)) s address end_ granule here.

Definition onStack (address here : Z) : bool := (here <=? address) && (address <? stackHigh).

(** Whether [[address, end)] overlaps the calling thread's own stack. *)
Definition onOwnStack (address end_ : Z) : bool :=
  negb (stackHigh =? 0) && (address <? stackHigh) && (stackLow <? end_).
End Deciding.

(** [for (; i + 8 < granules; i += 8)]: the index it stops at, or [None] when
    a granule is not whole. *)
Fixpoint wholeWords (fuel : nat) (s : shadow) (at_ granules i : Z) : option Z :=
  match fuel with
  | O => Some i
  | S fuel' =>
    if i + 8 <? granules then
      if negb (Z.land (load_le (s_byte s) (at_ + i) 8) hi8 =? 0) then None
      else wholeWords fuel' s at_ granules (i + 8)
    else Some i
  end.

(** [for (; i + 1 < granules; ++i)]. *)
Fixpoint wholeBytes (fuel : nat) (s : shadow) (at_ granules i : Z) : bool :=
  match fuel with
  | O => true
  | S fuel' =>
    if i + 1 <? granules then
      if negb (weavecRtShadowFull (s_byte s (at_ + i))) then false
      else wholeBytes fuel' s at_ granules (i + 1)
    else true
  end.

Definition allAddressable (s : shadow) (address n : Z) : bool :=
  let last := sub64 (add64 address n) 1 in
  if (n =? 0) || (Z.shiftl 1 30 <? n) || (last <? address)
     || negb (weavecRtShadowReady s) || negb (weavecRtInWindow s address)
     || negb (weavecRtInWindow s last)
  then false
  else
    let at_ := weavecRtShadowOf s address in
    let granules := Z.shiftr last 4 - Z.shiftr address 4 + 1 in
    match wholeWords (Z.to_nat (granules / 8 + 1)) s at_ granules 0 with
    | None => false
    | Some i =>
      if wholeBytes (Z.to_nat (granules - i)) s at_ granules i then
        let value := s_byte s (at_ + (granules - 1)) in
        weavecRtShadowFull value
        || (negb (isPoison value) && (Z.land last 15 <? weavecRtShadowBytes value))
      else false
    end.

(** ** The decision is exact *)

Section Exact.
Context {T : Thread}.

(** The granule [g] holds what a frame that returned left, and no longer
    names one: [settle] clears it. *)
Definition stale (s : shadow) (here g : Z) : bool :=
  (gval s g =? WeavecRtShadowReturned)
  && negb ((16 * g + 16 <=? here) && (stackLow <=? 16 * g) && (here <? stackHigh)).

(** The shadow value of a granule once settled. *)
Definition fresh (s : shadow) (here g : Z) : Z := if stale s here g then 0 else gval s g.

(** Whether the runtime lets a byte be accessed. *)
Definition usable (s : shadow) (here a : Z) : bool := byte_ok (fresh s here (a / 16)) (a mod 16).

(** What the scan may have done to the shadow: cleared stale granules. *)
Definition settles (s s' : shadow) (here : Z) : Prop :=
  shadow_wf s' /\ s_bits s' = s_bits s
  /\ forall g, gval s' g = gval s g \/ (stale s here g = true /\ gval s' g = 0).

Lemma settles_refl s here : shadow_wf s -> settles s s here.
Proof. intros Hwf. split; [done|]. split; [done|]. by left. Qed.

Lemma settles_fresh s s' here g : settles s s' here -> fresh s' here g = fresh s here g.
Proof.
  intros (_ & _ & Hg). unfold fresh, stale in *. destruct (Hg g) as [->|[Hs ->]]; [done|].
  rewrite Hs. done.
Qed.

Lemma settles_trans s s1 s2 here : settles s s1 here -> settles s1 s2 here -> settles s s2 here.
Proof.
  intros (Hw1 & Hb1 & Hg1) (Hw2 & Hb2 & Hg2). split; [done|]. split; [congruence|].
  intros g. destruct (Hg1 g) as [E1|[S1 E1]], (Hg2 g) as [E2|[S2 E2]]; rewrite ?E2, ?E1; auto.
  right. unfold stale in *. rewrite E1 in S2. done.
Qed.

Lemma settles_usable s s' here a : settles s s' here -> usable s' here a = usable s here a.
Proof. intros Hs. unfold usable. by rewrite (settles_fresh s s'). Qed.

Lemma full_fresh s here g :
  weavecRtShadowFull (gval s g) = true -> fresh s here g = gval s g.
Proof.
  unfold fresh, stale, weavecRtShadowFull, WeavecRtShadowReturned. intros H. bool_hyps.
  rewrite (proj2 (Z.eqb_neq (gval s g) 0xF5)) by lia. done.
Qed.

Lemma settle_spec s g here :
  shadow_wf s -> 0 <= g -> 16 * g < 2 ^ s_bits s ->
  exists s', settle s (16 * g) (granule_value s (16 * g)) here = (s', fresh s here g)
             /\ settles s s' here.
Proof.
  intros Hwf Hg Hw. pose proof (window_room s Hwf). pose proof (window_split s Hwf).
  rewrite granule_value_gval by (done || lia). replace (16 * g / 16) with g by euclid.
  unfold settle, fresh, stale, add64. rewrite wrap64_small by lia.
  destruct (Z.eqb_spec (gval s g) WeavecRtShadowReturned) as [Hr|Hr]; cbn [negb andb];
    [|exists s; split; [done|by apply settles_refl]].
  destruct ((16 * g + 16 <=? here) && (stackLow <=? 16 * g) && (here <? stackHigh)) eqn:E;
    cbn [negb]; [exists s; split; [done|by apply settles_refl]|].
  eexists. split; [reflexivity|]. split; [by apply store1_wf|]. split; [done|].
  intros g'. rewrite store1_gval by (done || lia || (unfold WeavecRtShadowAddressable; lia)).
  replace (16 * g / 16) with g by euclid. case_decide; [subst g'|by left].
  right. split; [|done]. unfold stale. by rewrite Hr, Z.eqb_refl, E.
Qed.

(** The eight-granule skip passes whole granules only. *)
Lemma skipEight_spec fuel s end_ g :
  shadow_wf s -> 0 <= g -> 16 * g <= 2 ^ s_bits s -> end_ <= 2 ^ s_bits s ->
  exists g', skipEight fuel s end_ (16 * g) = 16 * g' /\ g <= g'
    /\ 16 * g' <= Z.max (16 * g) end_
    /\ forall x, g <= x < g' -> weavecRtShadowFull (gval s x) = true.
Proof.
  intros Hwf Hg Hw Hend. pose proof (window_room s Hwf). pose proof (window_split s Hwf).
  revert g Hg Hw. induction fuel as [|fuel IH]; intros g Hg Hw;
    assert (Hstay : exists g', 16 * g = 16 * g' /\ g <= g' /\ 16 * g' <= Z.max (16 * g) end_
              /\ forall x, g <= x < g' -> weavecRtShadowFull (gval s x) = true)
      by (exists g; repeat split; [lia|lia|intros x; lia]); cbn [skipEight]; [done|].
  unfold add64. rewrite wrap64_small by lia.
  destruct (Z.leb_spec (16 * g + 128) end_); cbn [andb]; [|done].
  destruct (Z.land (16 * g) 127 =? 0); [|done].
  destruct (Z.eqb_spec (Z.land (load_le (s_byte s) (weavecRtShadowOf s (16 * g)) 8) hi8) 0) as [Hz|];
    cbn [negb]; [|done].
  rewrite shadowOf_eq in Hz by (done || lia).
  change hi8 with 0x8080808080808080 in Hz.
  rewrite chunk_check8 in Hz by (by apply wf_bytes).
  replace (16 * g + 128) with (16 * (g + 8)) by lia.
  destruct (IH (g + 8)) as (g' & -> & Hle & Hm & Hf); [lia..|].
  exists g'. repeat split; [lia|lia|]. intros x Hx.
  destruct (Z.lt_ge_cases x (g + 8)); [|apply Hf; lia].
  apply Z.ltb_lt. unfold gval. specialize (Hz (x - g) ltac:(lia)).
  replace (16 * g / 16) with g in Hz by euclid.
  replace (s_base s + x) with (s_base s + g + (x - g)) by lia. done.
Qed.

(** What the scan of [[address, end)] answers. *)
Definition scan_answer (s : shadow) (here address end_ : Z) (r : option (Z * Z)) : Prop :=
  match r with
  | None => forall a, address <= a < end_ -> usable s here a = true
  | Some (bad, v) =>
    address <= bad < end_ /\ usable s here bad = false
    /\ (forall a, address <= a < bad -> usable s here a = true)
    /\ v = fresh s here (bad / 16)
  end.

Lemma scan_answer_settles s s' here address end_ r :
  settles s s' here -> scan_answer s' here address end_ r -> scan_answer s here address end_ r.
Proof.
  intros Hs. unfold scan_answer. destruct r as [[bad v]|].
  - intros (Hr & Hu & Hb & Hv). rewrite <- (settles_fresh s s'), <- (settles_usable s s') by done.
    split; [done|]. split; [done|]. split; [|done].
    intros a Ha. rewrite <- (settles_usable s s') by done. auto.
  - intros Hu a Ha. rewrite <- (settles_usable s s') by done. auto.
Qed.

Lemma usable_full s here a :
  weavecRtShadowFull (gval s (a / 16)) = true -> usable s here a = true.
Proof. intros Hf. unfold usable. rewrite full_fresh by done. by apply full_byte_ok. Qed.

(** The granule [g] of the range decided, its value [v] not whole. *)
Lemma granule_decided s here address end_ g (v := fresh s here g) :
  weavecRtShadowFull v = false ->
  address < end_ -> address / 16 <= g -> 16 * g < end_ ->
  (forall a, address <= a < 16 * g -> usable s here a = true) ->
  let low := Z.max address (16 * g) in
  let high := Z.min (16 * g + 16) end_ in
  if negb (isPoison v) then
    let k := weavecRtShadowBytes v in
    if high <=? 16 * g + k
    then forall a, address <= a < 16 * g + 16 -> a < end_ -> usable s here a = true
    else scan_answer s here address end_ (Some (Z.max low (16 * g + k), v))
  else scan_answer s here address end_ (Some (low, v)).
Proof.
  intros Hfull Hae Hg Hge Hbefore low high.
  assert (Hin : forall a, 16 * g <= a < 16 * g + 16 -> usable s here a = byte_ok v (a - 16 * g)).
  { intros a Ha. unfold usable. replace (a / 16) with g by euclid. f_equal. euclid. }
  assert (Hlow : low / 16 = g) by (subst low; euclid).
  destruct (isPoison v) eqn:Ep; cbn [negb].
  - unfold scan_answer. rewrite Hlow. repeat split; [lia|lia| |].
    + rewrite Hin by euclid. by apply poison_not_ok.
    + intros a Ha. apply Hbefore. lia.
  - set (k := weavecRtShadowBytes v).
    assert (Hk : forall off, byte_ok v off = (off <? k)).
    { intros off. unfold byte_ok. rewrite Hfull. unfold isPoison in Ep. by rewrite Ep. }
    assert (Hkr : 0 <= k < 16).
    { subst k. unfold weavecRtShadowBytes. rewrite land_15. apply Z.mod_pos_bound. lia. }
    destruct (Z.leb_spec high (16 * g + k)).
    + intros a Ha Hlt. destruct (Z.lt_ge_cases a (16 * g)); [apply Hbefore; lia|].
      rewrite Hin, Hk by lia. apply Z.ltb_lt. lia.
    + set (bad := Z.max low (16 * g + k)).
      assert (Hb : bad / 16 = g) by (subst bad; euclid).
      unfold scan_answer. rewrite Hb. repeat split; [lia|euclid| |].
      * rewrite Hin, Hk by euclid. apply Z.ltb_ge. lia.
      * intros a Ha. destruct (Z.lt_ge_cases a (16 * g)); [apply Hbefore; lia|].
        rewrite Hin, Hk by euclid. apply Z.ltb_lt. lia.
Qed.
(** The continuation of the scan at a granule that is not whole; a
    rearrangement of the last part of [unaddressableFrom]. *)
Definition decideAt (fuel : nat) (s : shadow) (address end_ v granule here : Z)
    : shadow * option (Z * Z) :=
  let low := if address <? granule then granule else address in
  let high := if add64 granule 16 <? end_ then add64 granule 16 else end_ in
  if negb (isPoison v) then
    let k := weavecRtShadowBytes v in
    if high <=? granule + k then unaddressableFrom fuel s address end_ (add64 granule 16) here
    else (s, Some (if granule + k <? low then low else granule + k, v))
  else (s, Some (low, v)).

Lemma unaddressableFrom_S fuel s address end_ granule here :
  unaddressableFrom (S fuel) s address end_ granule here =
  if granule <? end_ then
    let '(s, v) := settle s granule (granule_value s granule) here in
    if weavecRtShadowFull v then
      let granule := skipEight (S fuel) s end_ granule in
      if end_ <=? granule then (s, None)
      else
        let '(s, v) := settle s granule (granule_value s granule) here in
        if weavecRtShadowFull v then unaddressableFrom fuel s address end_ (add64 granule 16) here
        else decideAt fuel s address end_ v granule here
    else decideAt fuel s address end_ v granule here
  else (s, None).
Proof. done. Qed.

(** The induction hypothesis of the scan, at [fuel]. *)
Definition scan_good (fuel : nat) (address end_ here : Z) : Prop :=
  forall s g, shadow_wf s -> end_ <= 2 ^ s_bits s -> address / 16 <= g ->
  end_ <= 16 * g + 16 * (Z.of_nat fuel - 1) + 15 ->
  (forall a, address <= a < 16 * g -> a < end_ -> usable s here a = true) ->
  let r := unaddressableFrom fuel s address end_ (16 * g) here in
  settles s (fst r) here /\ scan_answer s here address end_ (snd r).

Lemma decideAt_good fuel address end_ here s g :
  scan_good fuel address end_ here ->
  0 <= address < end_ -> shadow_wf s -> end_ <= 2 ^ s_bits s ->
  address / 16 <= g -> 16 * g < end_ ->
  end_ <= 16 * g + 16 * Z.of_nat fuel + 15 ->
  weavecRtShadowFull (fresh s here g) = false ->
  (forall a, address <= a < 16 * g -> a < end_ -> usable s here a = true) ->
  let r := decideAt fuel s address end_ (fresh s here g) (16 * g) here in
  settles s (fst r) here /\ scan_answer s here address end_ (snd r).
Proof.
  intros IH Ha Hwf Hend Hg Hge Hfuel Hfull Hbefore.
  pose proof (window_room s Hwf). pose proof (window_split s Hwf).
  assert (0 <= g) by euclid.
  pose proof (granule_decided s here address end_ g Hfull ltac:(lia) Hg Hge
                ltac:(intros a Hr; apply Hbefore; lia)) as Hd.
  unfold decideAt, add64. rewrite wrap64_small by lia.
  replace (if address <? 16 * g then 16 * g else address) with (Z.max address (16 * g))
    by (destruct (Z.ltb_spec address (16 * g)); lia).
  replace (if 16 * g + 16 <? end_ then 16 * g + 16 else end_) with (Z.min (16 * g + 16) end_)
    by (destruct (Z.ltb_spec (16 * g + 16) end_); lia).
  revert Hd. cbv zeta. destruct (negb (isPoison (fresh s here g))); [|intros Hd].
  - destruct (Z.leb_spec (Z.min (16 * g + 16) end_) (16 * g + weavecRtShadowBytes (fresh s here g))).
    + intros Hd. replace (16 * g + 16) with (16 * (g + 1)) by lia.
      apply IH; [done|done|lia|lia|]. intros a Hr Hlt. apply Hd; lia.
    + intros Hd. split; [by apply settles_refl|]. cbn [snd].
      set (low := Z.max address (16 * g)) in *. set (k := weavecRtShadowBytes _) in *.
      replace (if 16 * g + k <? low then low else 16 * g + k) with (Z.max low (16 * g + k))
        by (destruct (Z.ltb_spec (16 * g + k) low); lia). done.
  - split; [by apply settles_refl|done].
Qed.

(** A step over a whole granule. *)
Lemma scan_whole fuel address end_ here s g :
  scan_good fuel address end_ here ->
  0 <= address -> shadow_wf s -> end_ <= 2 ^ s_bits s ->
  address / 16 <= g -> 16 * g < end_ ->
  end_ <= 16 * g + 16 * Z.of_nat fuel + 15 ->
  weavecRtShadowFull (fresh s here g) = true ->
  (forall a, address <= a < 16 * g -> a < end_ -> usable s here a = true) ->
  let r := unaddressableFrom fuel s address end_ (add64 (16 * g) 16) here in
  settles s (fst r) here /\ scan_answer s here address end_ (snd r).
Proof.
  intros IH Ha Hwf Hend Hg Hge Hfuel Hfull Hbefore.
  pose proof (window_room s Hwf). pose proof (window_split s Hwf).
  assert (0 <= g) by euclid.
  unfold add64. rewrite wrap64_small by lia. replace (16 * g + 16) with (16 * (g + 1)) by lia.
  apply IH; [done|done|lia|lia|]. intros a Hr Hlt.
  destruct (Z.lt_ge_cases a (16 * g)); [apply Hbefore; lia|].
  unfold usable. replace (a / 16) with g by euclid. by apply full_byte_ok.
Qed.

Lemma scan_good_settles fuel address end_ here s s1 g :
  settles s s1 here ->
  (let r := unaddressableFrom fuel s1 address end_ g here in
   settles s1 (fst r) here /\ scan_answer s1 here address end_ (snd r)) ->
  let r := unaddressableFrom fuel s1 address end_ g here in
  settles s (fst r) here /\ scan_answer s here address end_ (snd r).
Proof.
  intros Hs [H1 H2]. split; [by eapply settles_trans|eapply scan_answer_settles; [exact Hs|exact H2]].
Qed.

Lemma decideAt_settles fuel address end_ here s s1 v g :
  settles s s1 here ->
  (let r := decideAt fuel s1 address end_ v g here in
   settles s1 (fst r) here /\ scan_answer s1 here address end_ (snd r)) ->
  let r := decideAt fuel s1 address end_ v g here in
  settles s (fst r) here /\ scan_answer s here address end_ (snd r).
Proof.
  intros Hs [H1 H2]. split; [by eapply settles_trans|eapply scan_answer_settles; [exact Hs|exact H2]].
Qed.

Lemma scan_correct fuel address end_ here :
  0 <= address < end_ -> scan_good fuel address end_ here.
Proof.
  intros Ha. induction fuel as [|fuel IH]; intros s g Hwf Hend Hg Hfuel Hbefore.
  { split; [by apply settles_refl|]. intros a Hr. apply Hbefore; lia. }
  rewrite unaddressableFrom_S.
  destruct (Z.ltb_spec (16 * g) end_) as [Hge|Hge].
  2:{ split; [by apply settles_refl|]. intros a Hr. apply Hbefore; lia. }
  pose proof (window_room s Hwf). pose proof (window_split s Hwf).
  assert (Hg0 : 0 <= g) by euclid.
  destruct (settle_spec s g here Hwf Hg0 ltac:(lia)) as (s1 & -> & Hs1).
  assert (Hwf1 : shadow_wf s1) by apply Hs1. assert (Hb1 : s_bits s1 = s_bits s) by apply Hs1.
  rewrite <- (settles_fresh s s1 here g Hs1).
  assert (Hbefore1 : forall a, address <= a < 16 * g -> a < end_ -> usable s1 here a = true).
  { intros a Hr Hlt. rewrite (settles_usable s s1) by done. auto. }
  destruct (weavecRtShadowFull (fresh s1 here g)) eqn:Hfull.
  2:{ apply decideAt_settles; [done|]. apply decideAt_good; (done || lia || (rewrite ?Hb1; lia)). }
  cbv zeta.
  destruct (skipEight_spec (S fuel) s1 end_ g Hwf1 Hg0) as (g' & -> & Hle & Hmax & Hsk);
    [rewrite ?Hb1; lia..|].
  assert (Hbefore2 : forall a, address <= a < 16 * g' -> a < end_ -> usable s1 here a = true).
  { intros a Hr Hlt. destruct (Z.lt_ge_cases a (16 * g)); [apply Hbefore1; lia|].
    apply usable_full, Hsk. euclid. }
  destruct (Z.leb_spec end_ (16 * g')) as [Hstop|Hgo].
  { split; [done|]. apply (scan_answer_settles s s1); [done|].
    intros a Hr. apply Hbefore2; lia. }
  destruct (settle_spec s1 g' here Hwf1) as (s2 & -> & Hs2); [lia|rewrite ?Hb1; lia|].
  assert (Hwf2 : shadow_wf s2) by apply Hs2. assert (Hb2 : s_bits s2 = s_bits s1) by apply Hs2.
  rewrite <- (settles_fresh s1 s2 here g' Hs2).
  assert (Hs12 : settles s s2 here) by (by eapply settles_trans).
  assert (Hbefore3 : forall a, address <= a < 16 * g' -> a < end_ -> usable s2 here a = true).
  { intros a Hr Hlt. rewrite (settles_usable s1 s2) by done. auto. }
  destruct (weavecRtShadowFull (fresh s2 here g')) eqn:Hfull2.
  - apply scan_good_settles; [done|]. apply scan_whole; (done || lia || (rewrite ?Hb2, ?Hb1; lia)).
  - apply decideAt_settles; [done|]. apply decideAt_good; (done || lia || (rewrite ?Hb2, ?Hb1; lia)).
Qed.

Lemma firstUnaddressable_scan s address n here :
  shadow_wf s -> 0 <= address < 2 ^ s_bits s -> 0 < n < 2 ^ 64 ->
  let r := firstUnaddressable s address n here in
  settles s (fst r) here
  /\ scan_answer s here address (Z.min (address + n) (2 ^ s_bits s)) (snd r).
Proof.
  intros Hwf Ha Hn r. subst r. pose proof (window_room s Hwf). pose proof (window_split s Hwf).
  assert (Hr : reachedAddress s address = address).
  { unfold reachedAddress. rewrite inWindow_true by done. cbn. by rewrite andb_false_r. }
  unfold firstUnaddressable. rewrite Hr, ready_wf, inWindow_true by done.
  rewrite (proj2 (Z.eqb_neq n 0)) by lia. cbn [negb orb].
  assert (He : decidedEnd s address n = Z.min (address + n) (2 ^ s_bits s)).
  { unfold decidedEnd. rewrite Z.shiftl_mul_pow2, Z.mul_1_l by (destruct Hwf; lia).
    rewrite (proj2 (Z.leb_gt 64 (s_bits s))) by (destruct Hwf; lia).
    destruct (Z.leb_spec (2 ^ 64) (address + n)); cbn [orb]; [lia|].
    unfold sub64. rewrite wrap64_small by lia.
    destruct (weavecRtInWindow s (address + n - 1)) eqn:E; cbn [negb].
    - apply inWindow_iff in E; [lia|done|lia].
    - assert (~ (address + n - 1 < 2 ^ s_bits s)); [|lia].
      intros Hlt. rewrite inWindow_true in E by (done || lia). done. }
  rewrite He. set (end_ := Z.min _ _).
  assert (Hl : Z.ldiff address 15 = 16 * (address / 16)).
  { rewrite Z.ldiff_land. change 15 with (2 ^ 4 - 1). rewrite land_lnot_ones by lia.
    change (2 ^ 4) with 16. lia. }
  rewrite Hl. apply scan_correct; [lia|done|lia|lia| |intros a; euclid].
  rewrite Z2Nat.id by euclid. euclid.
Qed.

(** The slow path's decision is exact. For an address in the window it
    clears nothing but stale granules of returned frames, and it answers a byte
    exactly when one of the range's bytes (up to the window's end) may not be
    accessed: the first such byte, with the shadow value that says why. *)
Theorem firstUnaddressable_exact s address n here :
  shadow_wf s -> 0 <= address < 2 ^ s_bits s -> 0 < n < 2 ^ 64 ->
  let r := firstUnaddressable s address n here in
  settles s (fst r) here
  /\ scan_answer s here address (Z.min (address + n) (2 ^ s_bits s)) (snd r).
Proof. apply firstUnaddressable_scan. Qed.
End Exact.

(** ** The word-at-a-time range check *)

Lemma wholeWords_spec fuel s at_ granules i :
  bytes_ok (s_byte s) -> i < granules -> granules - i < 8 * Z.of_nat fuel ->
  match wholeWords fuel s at_ granules i with
  | Some j => i <= j < granules /\ granules <= j + 8
              /\ forall x, i <= x < j -> weavecRtShadowFull (s_byte s (at_ + x)) = true
  | None => exists x, i <= x < granules - 1 /\ weavecRtShadowFull (s_byte s (at_ + x)) = false
  end.
Proof.
  intros Hb. revert i. induction fuel as [|fuel IH]; intros i Hi Hf; [lia|]. cbn [wholeWords].
  destruct (Z.ltb_spec (i + 8) granules) as [Hlt|Hge].
  2:{ repeat split; [lia..|]. intros x; lia. }
  change hi8 with 0x8080808080808080.
  pose proof (chunk_check8 (s_byte s) (at_ + i) Hb) as Hc.
  destruct (Z.eqb_spec (Z.land (load_le (s_byte s) (at_ + i) 8) 0x8080808080808080) 0) as [Hz|Hz];
    cbn [negb].
  - pose proof (proj1 Hc Hz) as Hfull8. specialize (IH (i + 8) ltac:(lia) ltac:(lia)).
    destruct (wholeWords fuel s at_ granules (i + 8)) as [j|].
    + destruct IH as (Hr & Hle & Hf'). repeat split; [lia..|]. intros x Hx.
      destruct (Z.lt_ge_cases x (i + 8)); [|apply Hf'; lia].
      apply Z.ltb_lt. replace (at_ + x) with (at_ + i + (x - i)) by lia. apply Hfull8. lia.
    + destruct IH as (x & Hx & Hn). exists x. split; [lia|done].
  - destruct (all_from 0 8 (fun k => weavecRtShadowFull (s_byte s (at_ + i + k)))) eqn:Ea.
    + exfalso. apply Hz, Hc. intros k Hk. apply Z.ltb_lt.
      exact (all_from_spec 0 8 _ k Ea ltac:(lia)).
    + apply all_from_false in Ea as (k & Hk & Hn). exists (i + k).
      split; [lia|]. by rewrite Z.add_assoc.
Qed.

Lemma wholeBytes_spec fuel s at_ granules i :
  granules - i <= Z.of_nat fuel ->
  wholeBytes fuel s at_ granules i = true <->
  forall x, i <= x < granules - 1 -> weavecRtShadowFull (s_byte s (at_ + x)) = true.
Proof.
  revert i. induction fuel as [|fuel IH]; intros i Hf; cbn [wholeBytes].
  - split; [|done]. intros _ x. lia.
  - destruct (Z.ltb_spec (i + 1) granules); [|split; [|done]; intros _ x; lia].
    destruct (weavecRtShadowFull (s_byte s (at_ + i))) eqn:E; cbn [negb].
    + rewrite IH by lia. split; intros Hx x Hr; [|apply Hx; lia].
      destruct (Z.eq_dec x i) as [->|]; [done|apply Hx; lia].
    + split; [done|]. intros Hx. rewrite Hx in E by lia. done.
Qed.

Lemma allAddressable_granules s address n :
  shadow_wf s -> 0 <= address -> 0 < n <= 2 ^ 30 -> address + n <= 2 ^ s_bits s ->
  allAddressable s address n = true <-> granules_ok s address n.
Proof.
  intros Hwf Ha Hn Hend. pose proof (window_room s Hwf). pose proof (window_split s Hwf).
  unfold allAddressable, granules_ok, sub64, add64.
  rewrite (wrap64_small (address + n)), wrap64_small by lia.
  set (last := address + n - 1). change (Z.shiftl 1 30) with (2 ^ 30).
  rewrite (proj2 (Z.eqb_neq n 0)), (proj2 (Z.ltb_ge (2 ^ 30) n)), (proj2 (Z.ltb_ge last address)),
    ready_wf, !inWindow_true by (done || lia).
  cbn [negb orb]. rewrite shadowOf_eq, !shiftr_4, land_15 by (done || lia).
  set (granules := last / 16 - address / 16 + 1).
  assert (Hgr : granules = last / 16 - address / 16 + 1) by done. clearbody granules.
  assert (Hlast : last = address + n - 1) by done. clearbody last.
  assert (Hg : 1 <= granules) by euclid.
  pose proof (wholeWords_spec (Z.to_nat (granules / 8 + 1)) s (s_base s + address / 16) granules 0
                (wf_bytes s Hwf) ltac:(lia) ltac:(rewrite Z2Nat.id; euclid)) as Hw.
  assert (Hshift : (forall g, address / 16 <= g < last / 16 -> weavecRtShadowFull (gval s g) = true)
            <-> (forall x, 0 <= x < granules - 1 ->
                   weavecRtShadowFull (s_byte s (s_base s + address / 16 + x)) = true)).
  { unfold gval. split; intros H' x Hx.
    - rewrite <- Z.add_assoc. apply H'. lia.
    - replace (s_base s + x) with (s_base s + address / 16 + (x - address / 16)) by lia.
      apply H'. lia. }
  rewrite Hshift. clear Hshift.
  destruct (wholeWords _ s _ granules 0) as [j|].
  - destruct Hw as (Hj & Hle & Hfull).
    pose proof (wholeBytes_spec (Z.to_nat (granules - j)) s (s_base s + address / 16) granules j
                  ltac:(lia)) as Hr.
    replace (s_base s + address / 16 + (granules - 1)) with (s_base s + last / 16) by lia.
    change (isPoison (s_byte s (s_base s + last / 16)))
      with (weavecRtShadowPoison (gval s (last / 16))).
    fold (gval s (last / 16)). fold (byte_ok (gval s (last / 16)) (last mod 16)).
    destruct (wholeBytes _ s _ granules j).
    + split; [|by intros [_ ?]]. intros Hok. split; [|done]. intros x Hx.
      destruct (Z.lt_ge_cases x j); [apply Hfull; lia|]. apply Hr; [done|lia].
    + split; [done|]. intros [Hall _]. apply Hr. intros x Hx. apply Hall. lia.
  - destruct Hw as (x & Hx & Hn'). split; [done|]. intros [Hall _]. rewrite Hall in Hn' by lia. done.
Qed.

(** For ranges of up to 1 GiB inside the window the word-at-a-time check
    is the specification. *)
Theorem allAddressable_exact s address n :
  shadow_wf s -> 0 <= address -> 0 < n <= 2 ^ 30 -> address + n <= 2 ^ s_bits s ->
  allAddressable s address n = true <-> range_ok s address n.
Proof.
  intros Hwf Ha Hn Hend. rewrite allAddressable_granules by done.
  symmetry. apply range_ok_granules; (done || lia).
Qed.
