(* ===== verification/GuardEntry.v ===== *)
(** * The guards' entry points

    [runtime/weavec_guard.c] from [failAt] on: the slow paths the emitted
    checks call, the range and string guards, the color decision of an access
    computed from another object, and what writes the shadow of frames,
    dynamic stack objects and globals.  [firstUnaddressable] and
    [allAddressable] are those of the file Guard.

    A string guard reads the program's memory through the class [Bytes]:
    [b_at] a byte, and [b_end] the end of what is mapped, past which a read
    faults (and the computation answers [None], as for a failure that stops
    the program). *)

From Stdlib Require Import String.
From S2P Require Import Prelude Shadow Report Guard.
Local Open Scope Z_scope.

Class Bytes := { b_at : Z -> Z; b_end : Z }.

(** [struct __weavec_rt_global]. *)
Record global := mkGlobal {
  gl_address : Z;
  gl_size : Z;
  gl_padded : Z
}.

Section Entry.
Context {T : Thread} {H : HeapView}.

(** ** Failing *)

(** A failure, reported; the computation ends when it stops the program. *)
Definition raise (f : failure) (s : option site) : G unit := fun st =>
  let '(stopped, r) := fail (gs_reports st) f s in
  (if stopped then None else Some tt, with_reports st r).

Definition failAt (bad value address width : Z) (s : option site) : G unit :=
  let value := if negb (isPoison value) && ho_found (weavecRtHeapObjectAt bad)
               then WeavecRtShadowHeapTail else value in
  st ← get;
  raise (Fails (kindOf (gs_shadow st) value (Z.ldiff bad 15)) address width) s.

(** [__builtin_trap]. *)
Definition trap : G unit := fun st => (None, st).

(** [firstUnaddressable], which may clear stale granules. *)
Definition scan (address n here : Z) : G (option (Z * Z)) := fun st =>
  let '(s, r) := firstUnaddressable (gs_shadow st) address n here in
  (Some r, with_shadow st s).

Definition guardSlow (address width : Z) (s : option site) (here : Z) : G unit :=
  weavecRtCount WeavecRtStatSlowGuards;;
  r ← scan address width here;
  match r with
  | Some (bad, value) => failAt bad value address width s
  | None => mret tt
  end.

Definition __weavec_rt_guard (address width : Z) (s : option site) (here : Z) : G unit :=
  guardSlow address width s here.

(** ** Colors *)

Definition jumpKind (st : gstate) (address root rootShadow here : Z) : option string :=
  let s := gs_shadow st in
  if negb (weavecRtShadowReady s) || negb (weavecRtInWindow s address) then None
  else
    let v := granule_value s address in
    if isPoison v || isPoison rootShadow then None
    else if (v =? rootShadow)
            || ((negb (weavecRtShadowFull v) || negb (weavecRtShadowFull rootShadow))
                && (weavecRtShadowClass v =? weavecRtShadowClass rootShadow)) then None
    else if rootShadow =? 0 then None
    else if (v =? 0) && gs_lostColors st && onStack address here then None
    else
      let target := weavecRtHeapObjectAt address in
      let from := weavecRtHeapObjectAt root in
      if ho_found from
         && ((ho_base target =? ho_base from) || negb (ho_base from =? root)) then None
      else if ho_found target then Some "heap-buffer-overflow"%string
      else if onStack address here then Some "stack-buffer-overflow"%string
      else Some "global-buffer-overflow"%string.

Definition jumpSlow (address width root rootShadow : Z) (s : option site) (here : Z) : G unit :=
  if width =? 0 then mret tt
  else
    st ← get;
    match jumpKind st address root rootShadow here with
    | Some kind => raise (FailsJump kind address width root) s
    | None => mret tt
    end.

Definition __weavec_rt_color_ok (root address here : Z) : G bool :=
  st ← get;
  if negb (weavecRtShadowReady (gs_shadow st)) || negb (weavecRtInWindow (gs_shadow st) root)
  then mret true
  else
    match jumpKind st address root (granule_value (gs_shadow st) root) here with
    | Some _ => mret false
    | None => mret true
    end.

Definition guardJumpSlow (address width root rootShadow : Z) (s : option site) (here : Z)
    : G unit :=
  guardSlow address width s here;;
  jumpSlow address width root rootShadow s here.

(** [(unsigned char)rootShadow] *)
Definition __weavec_rt_guard_jump (address width root rootShadow : Z) (s : option site) (here : Z)
    : G unit :=
  guardJumpSlow address width root (rootShadow mod 256) s here.

Definition __weavec_rt_jump (address width root rootShadow : Z) (s : option site) (here : Z)
    : G unit :=
  jumpSlow address width root (rootShadow mod 256) s here.

(** ** Failures the emitted code decided *)

Definition __weavec_rt_overlap (destination source n : Z) (s : option site) : G unit :=
  raise (Fails "overlapping-copy" destination n) s.

Definition __weavec_rt_null (address : Z) (s : option site) : G unit :=
  raise (Fails "null-dereference" address 0) s.

Definition __weavec_rt_limit_fail (address width limit : Z) (s : option site) : G unit :=
  raise (FailsObject "intra-object-overflow" address width address (add64 address limit)) s.

(** [struct weavecRtUbsanOutOfBounds], its location. *)
Definition __ubsan_handle_out_of_bounds (file : option string) (line column index : Z) : G unit :=
  raise (Fails "index-out-of-bounds" index 0)
        (Some (weavecRtSiteSet file line column WeavecRtSiteReport)).

(** [__builtin_trap] stops the program whatever the failure did. *)
Definition __ubsan_handle_out_of_bounds_abort (file : option string) (line column index : Z)
    : G unit :=
  raise (Fails "index-out-of-bounds" index 0) (Some (weavecRtSiteSet file line column 0));;
  trap.

(** ** Ranges *)

Definition quick (address n : Z) (s : shadow) : bool :=
  weavecRtQuickOk s address n || allAddressable s address n.

Definition __weavec_rt_range (address n : Z) (s : option site) (here : Z) : G unit :=
  st ← get;
  if quick address n (gs_shadow st) then mret tt
  else
    weavecRtCount WeavecRtStatRanges;;
    r ← scan address n here;
    match r with
    | Some (bad, value) => failAt bad value address n s
    | None => mret tt
    end.

Definition __weavec_rt_range_ok (address n here : Z) : G bool :=
  st ← get;
  if quick address n (gs_shadow st) then mret true
  else
    weavecRtCount WeavecRtStatRanges;;
    r ← scan address n here;
    mret (match r with Some _ => false | None => true end).

(** ** Strings *)

Section Strings.
Context {B : Bytes}.

(** The C library's [strnlen], a byte at a time from [s + i]; [None] when the
    scan reads past what is mapped. *)
Fixpoint strnlenFrom (fuel : nat) (s max i : Z) : option Z :=
  match fuel with
  | O => None
  | S fuel' =>
    if max <=? i then Some max
    else if b_end <=? s + i then None
    else if b_at (s + i) =? 0 then Some i
    else strnlenFrom fuel' s max (i + 1)
  end.

Definition strnlen (s max : Z) : option Z :=
  strnlenFrom (Z.to_nat (Z.min max (Z.max 0 (b_end - s)) + 1)) s max 0.

(** A computation whose answer is absent faults. *)
Definition or_fault {A} (a : option A) : G A := fun st => (a, st).

Definition stringLength (s max : Z) (si : option site) (here : Z) : G Z :=
  length ← or_fault (strnlen s max);
  let scanned := if length <? max then length + 1 else max in
  st ← get;
  if weavecRtQuickOk (gs_shadow st) s scanned then mret length
  else
    r ← scan s scanned here;
    match r with
    | Some (_, value) =>
      raise (Fails (if value =? WeavecRtShadowHeapFreed then "heap-use-after-free"%string
                    else "unterminated-string") s scanned) si;;
      mret length
    | None => mret length
    end.

Definition hasZeroByte (word : Z) : bool :=
  negb (Z.land (Z.land (sub64 word 0x0101010101010101) (Z.lxor word (2 ^ 64 - 1))) hi8 =? 0).

(** [at] moved to the first zero byte from [i], at most [fuel] bytes on. *)
Fixpoint zeroFrom (fuel : nat) (s i : Z) : Z :=
  match fuel with
  | O => i
  | S fuel' => if b_at (s + i) =? 0 then i else zeroFrom fuel' s (i + 1)
  end.

(** The first of the [n] words of [words], at index [i], that holds a zero
    byte. *)
Fixpoint wordsFrom (n : nat) (s i : Z) : option Z :=
  match n with
  | O => None
  | S n' =>
    if hasZeroByte (load_le b_at (s + 8 * i) 8) then Some (zeroFrom 8 s (8 * i))
    else wordsFrom n' s (i + 1)
  end.

(** What the scan of a string's first 32 bytes answers: a length, nothing, or
    a fault when they are not all mapped. *)
Inductive short := ShortLength (length : Z) | NotShort | ShortFault.

(** The 32 bytes scanned a word at a time: inside one page, in the window, and
    every granule they lie in whole. *)
Definition shortString (sh : shadow) (s max : Z) : short :=
  if (32 <=? max) && (Z.land s 4095 <=? 4096 - 32) && weavecRtShadowReady sh
     && weavecRtInWindow sh (add64 s 32) then
    let at_ := weavecRtShadowOf sh s in
    let third := if negb (Z.land s 15 =? 0) then s_byte sh (at_ + 2) else 0 in
    if Z.land (Z.lor (Z.lor (s_byte sh at_) (s_byte sh (at_ + 1))) third) 0x80 =? 0
    then
      if b_end <? s + 32 then ShortFault
      else match wordsFrom 4 s 0 with Some length => ShortLength length | None => NotShort end
    else NotShort
  else NotShort.

Definition __weavec_rt_strlen (s max : Z) (si : option site) (here : Z) : G Z :=
  weavecRtCount WeavecRtStatStrings;;
  if s =? 0 then
    (if match si with None => true | Some si => Z.land (site_flags si) WeavecRtSiteNullOk =? 0 end
     then raise (Fails "null-dereference" 0 1) si else mret tt);;
    mret 0
  else
    st ← get;
    match shortString (gs_shadow st) s max with
    | ShortLength length => mret length
    | NotShort => stringLength s max si here
    | ShortFault => or_fault None
    end.
End Strings.

(** ** Frames, dynamic stack objects and globals *)

Section Writing.
Context {P : Pages}.

Definition __weavec_rt_frame_shadow (address bytes value : Z) : G unit :=
  let end_ := if 2 ^ 64 <=? address + bytes then 2 ^ 64 - 1 else address + bytes in
  let write (address end_ : Z) : G unit :=
    if end_ <=? address then mret tt
    else if value =? WeavecRtShadowAddressable
    then on_shadow (fun s => weavecRtShadowClear s address end_)
    else on_shadow (fun s => weavecRtShadowSet s address (end_ - address) (value mod 256)) in
  if onOwnStack address end_ then
    write (if address <? stackLow then stackLow else address)
          (if stackHigh <? end_ then stackHigh else end_)
  else if Z.shiftl 1 30 <? sub64 end_ address then mret tt
  else write address end_.

Definition __weavec_rt_unpoison_stack (low : Z) : G unit :=
  weavecRtCount WeavecRtStatStackUnpoisons;;
  modify (fun st => with_lostColors st true);;
  if (low <? stackHigh) && (stackHigh - low <=? Z.shiftl 1 30)
  then on_shadow (fun s => weavecRtShadowClear s low stackHigh)
  else mret tt.

(** [(size + 15) & ~15] and [(size + 31) & ~31] of a 64-bit size. *)
Definition up16 (size : Z) : Z := Z.ldiff (add64 size 15) 15.
Definition up32 (size : Z) : Z := Z.ldiff (add64 size 31) 31.

Definition __weavec_rt_alloca_poison (address size : Z) : G unit :=
  let used := up16 size in
  let padded := add64 (up32 size) 32 in
  let end_ := address + padded in
  if negb (Z.land address 15 =? 0) || (padded <? size) || (2 ^ 64 <=? end_)
     || (if onOwnStack address end_
         then (stackHigh <? end_) || (address <? stackLow)
         else Z.shiftl 1 30 <? padded)
  then mret tt
  else
    on_shadow (fun s => weavecRtShadowObject s address size WeavecRtShadowStackDynamic 0);;
    on_shadow (fun s => weavecRtShadowSet s (add64 address used) (sub64 padded used)
                                          WeavecRtShadowStackDynamic).

Definition __weavec_rt_alloca_unpoison (low high : Z) : G unit :=
  if (low <? high) && (high - low <=? Z.shiftl 1 30)
  then on_shadow (fun s => weavecRtShadowClear s low high)
  else mret tt.

(** One record of [__weavec_rt_globals_register], the process's runtime
    initialized. *)
Definition registerGlobal (g : global) : G unit :=
  let used := up16 (gl_size g) in
  if negb (Z.land (gl_address g) 15 =? 0) || (gl_padded g <? used) then mret tt
  else
    st ← get;
    let n := gs_globalColors st in
    modify (fun st => with_globalColors st (add64 n 1));;
    on_shadow (fun s => weavecRtShadowObject s (gl_address g) (gl_size g) WeavecRtShadowGlobal
                                             (weavecRtColor n));;
    if used <? gl_padded g then
      on_shadow (fun s => weavecRtShadowSet s (add64 (gl_address g) used) (gl_padded g - used)
                                            WeavecRtShadowGlobal)
    else mret tt.

Fixpoint __weavec_rt_globals_register (globals : list global) : G unit :=
  match globals with
  | [] => mret tt
  | g :: rest => registerGlobal g;; __weavec_rt_globals_register rest
  end.

Fixpoint __weavec_rt_globals_unregister (globals : list global) : G unit :=
  match globals with
  | [] => mret tt
  | g :: rest =>
    on_shadow (fun s => weavecRtShadowClear s (gl_address g) (add64 (gl_address g) (gl_padded g)));;
    __weavec_rt_globals_unregister rest
  end.
End Writing.
End Entry.

(** ** The guards decide by the bytes *)

Section GuardsDecide.
Context {T : Thread} {H : HeapView}.

(** The bytes of [[address, address + n)] that the window covers. *)
Definition all_usable (s : shadow) (here address n : Z) : Prop :=
  forall a, address <= a < Z.min (address + n) (2 ^ s_bits s) -> usable s here a = true.

Lemma addressable_usable s here a :
  shadow_wf s -> 0 <= a < 2 ^ s_bits s -> addressable s a = true -> usable s here a = true.
Proof.
  intros Hwf Ha. rewrite addressable_gval by done. unfold usable, fresh, stale.
  destruct (Z.eqb_spec (gval s (a / 16)) WeavecRtShadowReturned) as [->|]; cbn [andb]; done.
Qed.

Lemma range_usable s here address n :
  shadow_wf s -> 0 <= address -> range_ok s address n -> all_usable s here address n.
Proof.
  intros Hwf Ha Hr a Hb. apply addressable_usable; [done|lia|].
  apply Hr; [lia|]. apply inWindow_true; (done || lia).
Qed.

(** The fast checks accept nothing the scan would reject. *)
Lemma quick_usable s here address n :
  shadow_wf s -> 0 <= address < 2 ^ s_bits s -> 0 < n < 2 ^ 64 ->
  quick address n s = true -> all_usable s here address n.
Proof.
  intros Hwf Ha Hn Hq. apply range_usable; [done|lia|].
  apply orb_true_iff in Hq as [Hq|Hq].
  - destruct (Z.le_gt_cases n 113).
    + apply granules_range_ok; [done|lia|]. exact (proj1 (quickOk_granules s address n Hwf Ha ltac:(lia)) Hq).
    + unfold weavecRtQuickOk in Hq. rewrite (proj2 (Z.eqb_neq n 0)), (proj2 (Z.ltb_lt 113 n)) in Hq
        by lia. done.
  - pose proof (window_room s Hwf). pose proof (window_split s Hwf).
    pose proof (wf_bits s Hwf). assert (2 ^ s_bits s <= 2 ^ 63) by (apply Z.pow_le_mono_r; lia).
    assert (Hn' : n <= 2 ^ 30 /\ address + n <= 2 ^ s_bits s).
    { unfold allAddressable in Hq. case_match; [done|]. bool_hyps.
      change (Z.shiftl 1 30) with (2 ^ 30) in *. split; [lia|].
      match goal with Hw : weavecRtInWindow s (sub64 _ _) = true |- _ =>
        revert Hw; unfold sub64, add64; rewrite (wrap64_small (address + n)), wrap64_small by lia end.
      rewrite inWindow_iff by (done || lia). lia. }
    apply granules_range_ok; [done|lia|]. apply allAddressable_granules; (done || lia).
Qed.

Lemma scan_run st address n here :
  shadow_wf (gs_shadow st) -> 0 <= address < 2 ^ s_bits (gs_shadow st) -> 0 < n < 2 ^ 64 ->
  exists s r, scan address n here st = (Some r, with_shadow st s)
    /\ settles (gs_shadow st) s here
    /\ scan_answer (gs_shadow st) here address
         (Z.min (address + n) (2 ^ s_bits (gs_shadow st))) r.
Proof.
  intros Hwf Ha Hn. pose proof (firstUnaddressable_scan (gs_shadow st) address n here Hwf Ha Hn) as Hx.
  unfold scan. destruct (firstUnaddressable (gs_shadow st) address n here) as [s r].
  exists s, r. done.
Qed.

(** The kind [failAt] reports for the byte [bad] of shadow value [v]. *)
Definition kindAt (s : shadow) (bad v : Z) : string :=
  kindOf s (if negb (isPoison v) && ho_found (weavecRtHeapObjectAt bad)
            then WeavecRtShadowHeapTail else v) (Z.ldiff bad 15).

(** The end of a guard: the scan's answer, reported. *)
Definition report_scan (address width : Z) (s : option site) (r : option (Z * Z)) : G unit :=
  match r with
  | Some (bad, value) => failAt bad value address width s
  | None => mret tt
  end.

Lemma report_scan_run st address width s r :
  stop (gs_reports st) s = true ->
  (fst (report_scan address width s r st) = Some tt <-> r = None)
  /\ gs_shadow (snd (report_scan address width s r st)) = gs_shadow st
  /\ forall bad v, r = Some (bad, v) ->
       In (reportText (kindAt (gs_shadow st) bad v) address width s)
          (r_output (gs_reports (snd (report_scan address width s r st)))).
Proof.
  intros Hs. destruct r as [[bad v]|]; cbn [report_scan].
  - unfold failAt, mbind, G_bind, get. fold (kindAt (gs_shadow st) bad v). unfold raise.
    destruct (fail_stops (gs_reports st) (Fails (kindAt (gs_shadow st) bad v) address width) s Hs)
      as (extra & -> & _).
    cbn. split; [done|]. split; [done|]. intros ? ? [= <- <-].
    apply in_or_app. right. by left.
  - cbn. done.
Qed.

(** A guard of [width] bytes at [address], from state [st]: what every slow
    path promises.  It clears only stale granules; it lets the program go on
    exactly when every byte of the range may be used; else the program stops,
    with a report whose kind is read from the first byte that may not. *)
Definition decides {A} (st : gstate) (address width : Z) (s : option site) (here : Z)
    (passes : A -> Prop) (r : option A * gstate) : Prop :=
  settles (gs_shadow st) (gs_shadow (snd r)) here
  /\ ((exists a, fst r = Some a /\ passes a) <-> all_usable (gs_shadow st) here address width)
  /\ (fst r = None ->
      exists bad v s',
        settles (gs_shadow st) s' here
        /\ scan_answer (gs_shadow st) here address
             (Z.min (address + width) (2 ^ s_bits (gs_shadow st))) (Some (bad, v))
        /\ In (reportText (kindAt s' bad v) address width s)
              (r_output (gs_reports (snd r)))).

Lemma scan_answer_usable s here address n r :
  scan_answer s here address (Z.min (address + n) (2 ^ s_bits s)) r ->
  r = None <-> all_usable s here address n.
Proof.
  intros Hr. destruct r as [[bad v]|]; [|done]. split; [done|]. intros Hu.
  destruct Hr as (Hb & Hf & _). rewrite Hu in Hf by done. done.
Qed.

Lemma scan_then_report st st0 address n s here :
  gs_shadow st0 = gs_shadow st -> gs_reports st0 = gs_reports st ->
  shadow_wf (gs_shadow st) -> 0 <= address < 2 ^ s_bits (gs_shadow st) -> 0 < n < 2 ^ 64 ->
  stop (gs_reports st) s = true ->
  decides st address n s here (fun _ : unit => True)
    ((r ← scan address n here; report_scan address n s r) st0).
Proof.
  intros Es Er Hwf Ha Hn Hs. unfold mbind, G_bind.
  destruct (scan_run st0 address n here) as (s1 & r & -> & Hset & Hans); [by rewrite Es..|done|].
  destruct (report_scan_run (with_shadow st0 s1) address n s r) as (Hp & Hsh & Hk);
    [by cbn; rewrite Er|].
  rewrite Es in Hset, Hans. unfold decides. rewrite Hsh. cbn [gs_shadow with_shadow] in *.
  split; [done|]. rewrite <- (scan_answer_usable _ _ _ _ _ Hans). split.
  - rewrite <- Hp. split; [by intros ([] & ? & _)|]. intros ->. by exists tt.
  - intros Hnone. destruct r as [[bad v]|]; [|by cbn in Hnone].
    exists bad, v, s1. split; [done|]. split; [done|]. by apply Hk.
Qed.

(** C3: the guard's slow path is exact: it clears only stale granules, lets
    the access happen exactly when every byte of it may be used, and else
    stops the program with a report that names the first byte's reason. *)
Theorem guard_decides st address width s here :
  shadow_wf (gs_shadow st) -> 0 <= address < 2 ^ s_bits (gs_shadow st) -> 0 < width < 2 ^ 64 ->
  stop (gs_reports st) s = true ->
  decides st address width s here (fun _ => True) (__weavec_rt_guard address width s here st).
Proof.
  intros Hwf Ha Hw Hs. unfold __weavec_rt_guard, guardSlow.
  apply (scan_then_report st (snd (weavecRtCount WeavecRtStatSlowGuards st))); try done;
    cbn; by case_match.
Qed.

(** The answer of a range check, which reports nothing. *)
Lemma range_ok_run st address n here :
  shadow_wf (gs_shadow st) -> 0 <= address < 2 ^ s_bits (gs_shadow st) -> 0 < n < 2 ^ 64 ->
  exists ok st', __weavec_rt_range_ok address n here st = (Some ok, st')
    /\ settles (gs_shadow st) (gs_shadow st') here
    /\ (ok = true <-> all_usable (gs_shadow st) here address n).
Proof.
  intros Hwf Ha Hn. unfold __weavec_rt_range_ok, get, mbind, G_bind.
  destruct (quick address n (gs_shadow st)) eqn:E.
  - exists true, st. split; [done|]. split; [by apply settles_refl|]. split; [|done]. intros _. by apply quick_usable.
  - cbn [weavecRtCount modify]. set (st0 := if gs_statsOn st || _ then _ else st).
    assert (Es : gs_shadow st0 = gs_shadow st) by (subst st0; by case_match). clearbody st0.
    destruct (scan_run st0 address n here) as (s1 & r & -> & Hset & Hans); [by rewrite Es..|done|].
    rewrite Es in Hset, Hans. eexists _, _. split; [reflexivity|]. split; [done|].
    rewrite <- (scan_answer_usable _ _ _ _ _ Hans). by destruct r.
Qed.

(** The range guard, through its three checks (eight granules at once,
    words of granules, the exact scan), decides as a guard of one access does:
    none of its short cuts changes the answer. *)
Theorem range_decides st address n s here :
  shadow_wf (gs_shadow st) -> 0 <= address < 2 ^ s_bits (gs_shadow st) -> 0 < n < 2 ^ 64 ->
  stop (gs_reports st) s = true ->
  decides st address n s here (fun _ => True) (__weavec_rt_range address n s here st)
  /\ decides st address n s here (fun ok => ok = true) (__weavec_rt_range_ok address n here st).
Proof.
  intros Hwf Ha Hn Hs.
  split; [|destruct (range_ok_run st address n here Hwf Ha Hn) as (ok & st' & -> & Hset & Hok);
           split; [done|]; split; [rewrite <- Hok; cbn|done]; split; [by intros (? & [= <-] & ?)|by exists ok]].
  unfold __weavec_rt_range, get, mbind, G_bind.
  destruct (quick address n (gs_shadow st)) eqn:E.
  - split; [by apply settles_refl|]. split; [|done]. split; [intros _; by apply quick_usable|by exists tt].
  - cbn [weavecRtCount modify]. set (st0 := if gs_statsOn st || _ then _ else st).
    assert (E0 : gs_shadow st0 = gs_shadow st /\ gs_reports st0 = gs_reports st)
      by (subst st0; by case_match).
    clearbody st0. destruct E0 as [Es Er]. by apply (scan_then_report st st0).
Qed.
End GuardsDecide.

(** ** Tagged addresses *)

Section Tagged.
Context {T : Thread}.

Lemma untag a tag : 0 <= a < 2 ^ 56 -> 0 <= tag < 256 -> Z.ldiff (a + tag * 2 ^ 56) topByte = a.
Proof.
  intros Ha Ht. unfold topByte. apply Z.bits_inj'. intros k Hk.
  rewrite Z.ldiff_spec, Z.shiftl_spec by lia.
  destruct (Z.lt_ge_cases k 56) as [Hlt|Hge].
  - rewrite (Z.testbit_neg_r _ (k - 56)), andb_true_r by lia.
    rewrite <- (Z.mod_pow2_bits_low (a + _) 56), Z_mod_plus_full, Z.mod_small by lia. done.
  - rewrite (Z.bits_above_log2 a k).
    2: lia.
    2:{ destruct (Z.eq_dec a 0) as [->|]; [cbn; lia|]. apply Z.log2_lt_pow2; [lia|].
        apply Z.lt_le_trans with (2 ^ 56); [lia|apply Z.pow_le_mono_r; lia]. }
    destruct (Z.lt_ge_cases k 64).
    + assert (Hb : Z.testbit 255 (k - 56) = true).
      { change 255 with (Z.ones 8). apply Z.ones_spec_low. lia. }
      rewrite Hb. by rewrite andb_false_r.
    + rewrite (Z.bits_above_log2 (a + tag * 2 ^ 56)); [done|lia|].
      destruct (Z.eq_dec (a + tag * 2 ^ 56) 0) as [->|]; [cbn; lia|].
      apply Z.log2_lt_pow2; [lia|]. apply Z.lt_le_trans with (2 ^ 64); [lia|].
      apply Z.pow_le_mono_r; lia.
Qed.

(** On AArch64 an address whose top byte holds a tag is decided as the
    address it reaches: the tag hides nothing from the guard. *)
Theorem tagged_decides s a tag n here :
  aarch64 = true -> shadow_wf s -> s_bits s <= 56 -> 0 <= a < 2 ^ s_bits s -> 0 <= tag < 256 ->
  firstUnaddressable s (a + tag * 2 ^ 56) n here = firstUnaddressable s a n here.
Proof.
  intros Harm Hwf Hbits Ha Ht.
  assert (Hp : 2 ^ s_bits s <= 2 ^ 56) by (apply Z.pow_le_mono_r; lia).
  assert (Hr : forall tag, 0 <= tag < 256 -> reachedAddress s (a + tag * 2 ^ 56) = a).
  { clear tag Ht. intros tag Ht. unfold reachedAddress. rewrite Harm, untag by lia.
    rewrite (inWindow_true s Hwf a Ha), andb_true_r. cbn [andb].
    destruct (weavecRtInWindow s (a + tag * 2 ^ 56)) eqn:E; [|done]. cbn [negb].
    apply inWindow_iff in E; [|done|lia]. lia. }
  unfold firstUnaddressable. rewrite Hr by done.
  pose proof (Hr 0 ltac:(lia)) as H0. rewrite Z.mul_0_l, Z.add_0_r in H0. by rewrite H0.
Qed.
End Tagged.

(** ** Colors *)

Section Colors.
Context {T : Thread} {H : HeapView} {P : Pages}.

(** The class of a granule inside an object is its color's. *)
Lemma object_granule s base size tail color a :
  pages_wf -> shadow_wf s -> 0 <= base -> base mod 16 = 0 -> 0 < size ->
  base + size <= 2 ^ s_bits s -> color_ok color -> 0 <= tail < 256 ->
  base <= a < base + size ->
  let v := granule_value (weavecRtShadowObject s base size tail color) a in
  v = object_color (size / 16) color
  \/ (weavecRtShadowFull v = false
      /\ weavecRtShadowClass v = weavecRtShadowClass (object_color (size / 16) color)).
Proof.
  intros HP Hwf Hb Hal Hs Hend Hc Ht Ha v. subst v.
  assert (Hwf' : shadow_wf (weavecRtShadowObject s base size tail color))
    by (apply shadowObject_wf; [done|destruct Hc; lia]).
  rewrite granule_value_gval by (rewrite ?shadowObject_bits; done || lia).
  rewrite shadowObject_gval by (done || lia). unfold object_value.
  pose proof (object_color_ok (size / 16) color Hc) as Hoc.
  case_decide; [by left|]. repeat case_decide; try (exfalso; euclid). right.
  pose proof (partialOf_range (object_color (size / 16) color) (size mod 16) ltac:(euclid) Hoc).
  split; [|by apply partialOf_class; [euclid|]].
  apply Z.ltb_ge. lia.
Qed.

(** An access that stays in the object its address was computed from is
    never a color failure, whatever the object's color, size and alignment in
    its slot. *)
Theorem jump_inside st s base size tail color address root here :
  pages_wf -> shadow_wf s -> 0 <= base -> base mod 16 = 0 -> 0 < size ->
  base + size <= 2 ^ s_bits s -> color_ok color -> 0 <= tail < 256 ->
  base <= address < base + size -> base <= root < base + size ->
  gs_shadow st = weavecRtShadowObject s base size tail color ->
  jumpKind st address root (granule_value (gs_shadow st) root) here = None.
Proof.
  intros HP Hwf Hb Hal Hs Hend Hc Ht Ha Hr Es. unfold jumpKind. rewrite Es.
  pose proof (object_granule s base size tail color address HP Hwf Hb Hal Hs Hend Hc Ht Ha) as Hva.
  pose proof (object_granule s base size tail color root HP Hwf Hb Hal Hs Hend Hc Ht Hr) as Hvr.
  cbv zeta in Hva, Hvr. case_match; [done|].
  set (v := granule_value _ address) in *. set (w := granule_value _ root) in *.
  destruct (isPoison v || isPoison w); [done|].
  destruct (Z.eqb_spec v w) as [|Hne]; cbn [orb]; [done|].
  assert (Hcl : weavecRtShadowClass v = weavecRtShadowClass w).
  { destruct Hva as [->|[_ ->]], Hvr as [->|[_ ->]]; done. }
  assert (Hf : negb (weavecRtShadowFull v) || negb (weavecRtShadowFull w) = true).
  { destruct Hva as [->|[-> _]], Hvr as [->|[-> _]]; try done. by rewrite orb_true_r. }
  by rewrite Hf, Hcl, Z.eqb_refl.
Qed.

(** An access computed from the start of a live heap object, to whole
    granules of a different color in another heap object, is a heap overflow,
    even though every byte of it is addressable. *)
Theorem jump_heap st address root here :
  let v := granule_value (gs_shadow st) address in
  let w := granule_value (gs_shadow st) root in
  weavecRtShadowReady (gs_shadow st) = true -> weavecRtInWindow (gs_shadow st) address = true ->
  weavecRtShadowFull v = true -> weavecRtShadowFull w = true -> v <> w -> w <> 0 ->
  onStack address here = false ->
  ho_found (weavecRtHeapObjectAt root) = true -> ho_base (weavecRtHeapObjectAt root) = root ->
  ho_found (weavecRtHeapObjectAt address) = true ->
  ho_base (weavecRtHeapObjectAt address) <> root ->
  jumpKind st address root w here = Some "heap-buffer-overflow"%string.
Proof.
  intros v w Hr Hw Hv Hw' Hne H0 Hst Hf Hb Hf' Hb'. unfold jumpKind. fold v. rewrite Hr, Hw, Hst.
  assert (Hp : forall x, weavecRtShadowFull x = true -> isPoison x = false).
  { intros x Hx. unfold isPoison, weavecRtShadowPoison, WeavecRtShadowPoisonFrom,
      weavecRtShadowFull in *. bool_hyps. apply Z.leb_gt. lia. }
  rewrite !Hp, Hv, Hw', Hf, Hf', Hb, Z.eqb_refl by done. cbn [negb orb andb].
  rewrite (proj2 (Z.eqb_neq v w)), (proj2 (Z.eqb_neq w 0)), (proj2 (Z.eqb_neq _ root)) by done.
  cbn. by rewrite andb_false_r.
Qed.
End Colors.

(** ** Strings *)

Lemma land_256 x h y k :
  0 <= x < 256 -> 0 <= y < 256 ->
  Z.land (x + 256 * h) (y + 256 * k) = Z.land x y + 256 * Z.land h k.
Proof.
  intros Hx Hy.
  assert (Hxy : 0 <= Z.land x y < 256).
  { split; [apply Z.land_nonneg; lia|]. change 256 with (2 ^ 8).
    destruct (Z.eq_dec (Z.land x y) 0) as [->|Hn]; [lia|].
    assert (0 <= Z.land x y) by (apply Z.land_nonneg; lia).
    apply Z.log2_lt_pow2; [lia|].
    pose proof (Z.log2_land x y ltac:(lia) ltac:(lia)).
    destruct (Z.eq_dec x 0) as [->|]; [by rewrite Z.land_0_l in Hn|].
    assert (Z.log2 x < 8) by (apply Z.log2_lt_pow2; lia). lia. }
  apply Z.bits_inj'. intros i Hi.
  rewrite Z.land_spec, !testbit_add_256, Z.land_spec by done.
  destruct (Z.ltb_spec i 8); [done|]. by rewrite Z.land_spec.
Qed.

(** [0x01...01]. *)
Fixpoint one_bytes (n : nat) : Z :=
  match n with O => 0 | S n' => 1 + 256 * one_bytes n' end.

Lemma zero_byte_word m a n :
  bytes_ok m ->
  Z.land (Z.land (load_le m a n - one_bytes n) (Z.lnot (load_le m a n))) (hi_bits n) <> 0
  <-> exists i, 0 <= i < Z.of_nat n /\ m (a + i) = 0.
Proof.
  intros Hm. revert a. induction n as [|n IH]; intros a.
  { cbn. split; [done|]. intros (i & Hi & _). lia. }
  cbn [load_le one_bytes hi_bits]. pose proof (Hm a) as Hb.
  set (W := load_le m (a + 1) n) in *. set (O := one_bytes n) in *.
  replace (Z.lnot (m a + 256 * W)) with ((255 - m a) + 256 * Z.lnot W)
    by (unfold Z.lnot; lia).
  destruct (Z.eq_dec (m a) 0) as [Hz|Hz].
  - replace (m a + 256 * W - (1 + 256 * O)) with (255 + 256 * (W - O - 1)) by lia.
    rewrite Hz, land_256 by lia. change (Z.land 255 (255 - 0)) with 255.
    rewrite land_256 by lia. change (Z.land 255 128) with 128.
    split; [|lia]. intros _. exists 0. rewrite Z.add_0_r. split; [lia|done].
  - replace (m a + 256 * W - (1 + 256 * O)) with ((m a - 1) + 256 * (W - O)) by lia.
    assert (Hr : (Z.land (m a - 1) (255 - m a) <? 128) = true
            /\ (0 <=? Z.land (m a - 1) (255 - m a)) = true).
    { apply andb_true_iff.
      refine (all_from_spec 1 255 (fun x => (Z.land (x - 1) (255 - x) <? 128)
                && (0 <=? Z.land (x - 1) (255 - x))) (m a) _ ltac:(lia)).
      vm_compute. done. }
    destruct Hr as [Hr1 Hr2]. bool_hyps.
    assert (H128 : Z.land (Z.land (m a - 1) (255 - m a)) 128 = 0).
    { apply Z.bits_inj'. intros i Hi. rewrite Z.land_spec, Z.testbit_0_l, testbit_128 by done.
      destruct (Z.eqb_spec i 7) as [->|]; [|by rewrite andb_false_r].
      rewrite andb_true_r. rewrite Z.testbit_eqb by lia. change (2 ^ 7) with 128.
      by rewrite Z.div_small by lia. }
    rewrite !land_256 by lia. rewrite H128.
    transitivity (Z.land (Z.land (W - O) (Z.lnot W)) (hi_bits n) <> 0); [lia|].
    specialize (IH (a + 1)). fold W in IH. rewrite IH. clear IH. split; intros (i & Hi & Hi0).
    + exists (i + 1). split; [lia|]. by replace (a + (i + 1)) with (a + 1 + i) by lia.
    + exists (i - 1). destruct (Z.eq_dec i 0) as [->|]; [by rewrite Z.add_0_r in Hi0|].
      split; [lia|]. by replace (a + 1 + (i - 1)) with (a + i) by lia.
Qed.

Lemma hasZeroByte_word m a :
  bytes_ok m ->
  hasZeroByte (load_le m a 8) = true <-> exists i, 0 <= i < 8 /\ m (a + i) = 0.
Proof.
  intros Hm. rewrite <- (zero_byte_word m a 8 Hm). unfold hasZeroByte.
  set (w := load_le m a 8).
  assert (E : Z.land (Z.land (sub64 w 72340172838076673) (Z.lxor w (2 ^ 64 - 1))) hi8
              = Z.land (Z.land (w - one_bytes 8) (Z.lnot w)) (hi_bits 8)).
  { change hi8 with (hi_bits 8). change 72340172838076673 with (one_bytes 8).
    apply Z.bits_inj'. intros i Hi. rewrite !Z.land_spec, hi_bits_testbit by lia.
    destruct (Z.ltb_spec i (8 * Z.of_nat 8)); [|by rewrite !andb_false_r].
    unfold sub64, wrap64. rewrite Z.mod_pow2_bits_low, Z.lxor_spec, Z.lnot_spec by lia.
    change (2 ^ 64 - 1) with (Z.ones 64). rewrite Z.ones_spec_low by lia.
    by rewrite xorb_true_r. }
  rewrite E. destruct (Z.eqb_spec (Z.land (Z.land (w - one_bytes 8) (Z.lnot w)) (hi_bits 8)) 0); done.
Qed.

(** The bit trick the word-at-a-time scan uses finds a zero byte exactly
    when one of the word's eight bytes is zero. *)
Theorem hasZeroByte_exact m a :
  bytes_ok m ->
  hasZeroByte (load_le m a 8) = true <-> exists i, 0 <= i < 8 /\ m (a + i) = 0.
Proof. apply hasZeroByte_word. Qed.

Section StringLength.
Context {T : Thread} {H : HeapView} {B : Bytes}.

(** A string of [len] bytes at [s]. *)
Definition string_at (s len : Z) : Prop :=
  0 <= len /\ (forall i, 0 <= i < len -> b_at (s + i) <> 0) /\ b_at (s + len) = 0.

(** The length of the string at [s], at most [max], is [n]. *)
Definition measured (s max n : Z) : Prop :=
  0 <= n <= max /\ (forall i, 0 <= i < n -> b_at (s + i) <> 0) /\ (n < max -> b_at (s + n) = 0).

(** The bytes the measuring reads: the terminator too when it is reached. *)
Definition scannedOf (max n : Z) : Z := if n <? max then n + 1 else max.

Lemma measured_string s max len : string_at s len -> len < max -> measured s max len.
Proof. intros (H0 & Hn & Hz) Hm. split; [lia|]. by split. Qed.

Lemma string_measured s max len : measured s max len -> len < max -> string_at s len.
Proof. intros (H0 & Hn & Hz) Hm. split; [lia|]. split; [done|by apply Hz]. Qed.

Lemma measured_unique s max n m : measured s max n -> measured s max m -> n = m.
Proof.
  intros (N0 & Nn & Nz) (M0 & Mn & Mz). destruct (Z.lt_trichotomy n m) as [Hlt|[->|Hlt]]; [|done|].
  - destruct (Mn n); [lia|]. apply Nz. lia.
  - destruct (Nn m); [lia|]. apply Mz. lia.
Qed.

Lemma strnlenFrom_spec fuel s max i :
  0 <= i <= max -> Z.min max (Z.max 0 (b_end - s)) < i + Z.of_nat fuel -> (forall j, 0 <= j < i -> b_at (s + j) <> 0) ->
  (i = 0 \/ s + i <= b_end) ->
  match strnlenFrom fuel s max i with
  | Some n => measured s max n /\ (scannedOf max n = 0 \/ s + scannedOf max n <= b_end)
  | None => forall n, measured s max n -> scannedOf max n <> 0 /\ b_end < s + scannedOf max n
  end.
Proof.
  revert i. induction fuel as [|fuel IH]; intros i Hi Hf Hn Hmap.
  { exfalso. lia. }
  cbn [strnlenFrom]. destruct (Z.leb_spec max i).
  { assert (i = max) as -> by lia. unfold scannedOf. rewrite (proj2 (Z.ltb_ge _ _)) by lia. split; [|lia].
    split; [lia|]. split; [done|lia]. }
  assert (Hlate : forall n, measured s max n -> i <= n).
  { intros n (N0 & Nn & Nz). destruct (Z.le_gt_cases i n); [done|]. destruct (Hn n); [lia|]. apply Nz. lia. }
  destruct (Z.leb_spec b_end (s + i)).
  { intros n Hm. specialize (Hlate n Hm). destruct Hm as [? _]. unfold scannedOf. destruct (Z.ltb_spec n max); lia. }
  destruct (Z.eqb_spec (b_at (s + i)) 0).
  - unfold scannedOf. rewrite (proj2 (Z.ltb_lt _ _)) by lia. split; [|lia]. split; [lia|]. by split.
  - apply IH; [lia|lia| |lia]. intros j Hj. destruct (Z.eq_dec j i) as [->|]; [done|]. apply Hn. lia.
Qed.

Lemma strnlen_run s max :
  0 <= max ->
  match strnlen s max with
  | Some n => measured s max n /\ (scannedOf max n = 0 \/ s + scannedOf max n <= b_end)
  | None => forall n, measured s max n -> scannedOf max n <> 0 /\ b_end < s + scannedOf max n
  end.
Proof. intros Hm. unfold strnlen. apply strnlenFrom_spec; [lia| |intros; lia|by left]. rewrite Z2Nat.id by lia. lia. Qed.

Lemma zeroFrom_spec fuel s len i :
  string_at s len -> 0 <= i <= len -> len < i + Z.of_nat fuel -> zeroFrom fuel s i = len.
Proof.
  intros (Hl & Hn & Hz). revert i. induction fuel as [|fuel IH]; intros i Hi Hf; [lia|].
  cbn [zeroFrom]. destruct (Z.eq_dec i len) as [->|Hne]; [by rewrite Hz|].
  rewrite (proj2 (Z.eqb_neq _ _)) by (apply Hn; lia). apply IH; lia.
Qed.

(** The word-at-a-time scan answers the string's length when it is inside the
    words scanned. *)
Lemma wordsFrom_spec n s len i :
  bytes_ok b_at -> string_at s len -> 0 <= i -> 8 * i <= len ->
  wordsFrom n s i = if len <? 8 * (i + Z.of_nat n) then Some len else None.
Proof.
  intros Hb Hs. assert (Hs' := Hs). destruct Hs' as (Hl & Hn & Hz).
  revert i. induction n as [|n IH]; intros i Hi Hle.
  { cbn. rewrite (proj2 (Z.ltb_ge _ _)) by lia. done. }
  cbn [wordsFrom]. destruct (hasZeroByte (load_le b_at (s + 8 * i) 8)) eqn:E.
  - apply (proj1 (hasZeroByte_word b_at (s + 8 * i) Hb)) in E as (j & Hj & Hzj).
    assert (len <= 8 * i + j).
    { destruct (Z.le_gt_cases len (8 * i + j)); [done|]. exfalso.
      apply (Hn (8 * i + j)); [lia|]. by rewrite Z.add_assoc. }
    rewrite (proj2 (Z.ltb_lt _ _)) by lia. f_equal. apply zeroFrom_spec; [done|lia|lia].
  - assert (8 * (i + 1) <= len).
    { destruct (Z.le_gt_cases (8 * (i + 1)) len); [done|]. exfalso.
      assert (Ht : hasZeroByte (load_le b_at (s + 8 * i) 8) = true).
      { apply (proj2 (hasZeroByte_word b_at (s + 8 * i) Hb)). exists (len - 8 * i).
        split; [lia|]. by replace (s + 8 * i + (len - 8 * i)) with (s + len) by lia. }
      by rewrite Ht in E. }
    rewrite IH by lia. by replace (i + 1 + Z.of_nat n) with (i + Z.of_nat (S n)) by lia.
Qed.

(** No zero byte in the words: they answer nothing. *)
Lemma wordsFrom_none n s i :
  bytes_ok b_at -> 0 <= i -> (forall j, 8 * i <= j < 8 * (i + Z.of_nat n) -> b_at (s + j) <> 0) -> wordsFrom n s i = None.
Proof.
  intros Hb. revert i. induction n as [|n IH]; intros i Hi Hn; [done|]. cbn [wordsFrom].
  destruct (hasZeroByte (load_le b_at (s + 8 * i) 8)) eqn:E.
  - apply (proj1 (hasZeroByte_word b_at (s + 8 * i) Hb)) in E as (j & Hj & Hz). exfalso.
    apply (Hn (8 * i + j)); [lia|]. by rewrite Z.add_assoc.
  - apply IH; [lia|]. intros j Hj. apply Hn. lia.
Qed.

Lemma lor3_top a b c :
  0 <= a < 256 -> 0 <= b < 256 -> 0 <= c < 256 ->
  Z.land (Z.lor (Z.lor a b) c) 0x80 = 0 -> a < 128 /\ b < 128 /\ c < 128.
Proof.
  intros Ha Hb Hc Hz.
  assert (Hbit : Z.testbit (Z.land (Z.lor (Z.lor a b) c) 0x80) 7 = false) by (rewrite Hz; done).
  rewrite Z.land_spec, !Z.lor_spec in Hbit. change (Z.testbit 0x80 7) with true in Hbit.
  rewrite andb_true_r in Hbit. apply orb_false_iff in Hbit as [Hbit Hc7].
  apply orb_false_iff in Hbit as [Ha7 Hb7].
  rewrite Z.testbit_eqb in * by lia. change (2 ^ 7) with 128 in *. bool_hyps. euclid.
Qed.

(** What the short scan finds it may read. *)
Lemma shortString_spec sh s max len here :
  shadow_wf sh -> bytes_ok b_at -> measured s max len -> 0 <= s -> s + scannedOf max len <= b_end ->
  s + scannedOf max len <= 2 ^ s_bits sh -> b_end mod 4096 = 0 ->
  match shortString sh s max with
  | ShortLength l => l = len /\ all_usable sh here s (scannedOf max len)
  | NotShort => True
  | ShortFault => False
  end.
Proof.
  intros Hwf Hb Hs H0 Hmap Hend Hpage. pose proof (window_room sh Hwf). pose proof (window_split sh Hwf).
  unfold shortString. destruct ((32 <=? max) && _ && _ && _) eqn:Ec; [|done]. cbv zeta. bool_hyps.
  assert (Hlen : 0 <= len <= max) by apply Hs.
  assert (Hpos : s < s + scannedOf max len) by (unfold scannedOf; destruct (Z.ltb_spec len max); lia).
  set (third := if negb (Z.land s 15 =? 0) then _ else _).
  destruct (Z.eqb_spec (Z.land (Z.lor (Z.lor (s_byte sh (weavecRtShadowOf sh s))
              (s_byte sh (weavecRtShadowOf sh s + 1))) third) 0x80) 0)
    as [Et|]; [|done].
  change (Z.land s 4095) with (Z.land s (Z.ones 12)) in *. rewrite Z.land_ones in * by lia.
  rewrite (proj2 (Z.ltb_ge b_end (s + 32))) by (change (2 ^ 12) with 4096 in *; euclid).
  destruct (Z.lt_ge_cases len 32) as [Hlt|Hge].
  2:{ rewrite wordsFrom_none; [done|done|lia|]. intros j Hj. apply Hs. lia. }
  assert (Hstr : string_at s len) by (apply (string_measured s max); [done|lia]).
  rewrite (wordsFrom_spec 4 s len 0), (proj2 (Z.ltb_lt _ _)) by (done || lia). split; [done|].
  unfold scannedOf. rewrite (proj2 (Z.ltb_lt _ _)) by lia.
  rewrite shadowOf_eq in Et by (done || lia).
  assert (Hwin : s + 32 < 2 ^ s_bits sh).
  { match goal with Hw : weavecRtInWindow sh (add64 s 32) = true |- _ =>
      revert Hw; unfold add64; rewrite wrap64_small by lia;
      rewrite inWindow_iff by (done || lia) end. done. }
  apply lor3_top in Et as (Ha & Hb' & Hc);
    [|apply Hwf|apply Hwf|subst third; case_match; [apply Hwf|lia]].
  assert (Hgr : forall g, s / 16 <= g < s / 16 + 2 -> weavecRtShadowFull (gval sh g) = true).
  { intros g Hg. apply Z.ltb_lt. unfold gval.
    assert (g = s / 16 \/ g = s / 16 + 1) as [->| ->] by lia; [done|]. by rewrite Z.add_assoc. }
  intros a Hr. apply usable_full.
  destruct (Z.lt_ge_cases (a / 16) (s / 16 + 2)); [apply Hgr; euclid|].
  assert (Hg2 : a / 16 = s / 16 + 2) by euclid.
  apply Z.ltb_lt. unfold gval. rewrite Hg2. subst third.
  rewrite land_15, (proj2 (Z.eqb_neq _ _)) in Hc by euclid. cbn [negb] in Hc.
  rewrite shadowOf_eq in Hc by (done || lia). by rewrite Z.add_assoc.
Qed.

Lemma measured_exists s max : 0 <= max -> exists n, measured s max n.
Proof.
  intros Hm. rewrite <- (Z2Nat.id max) by done. generalize (Z.to_nat max). clear max Hm. intros k.
  induction k as [|k (n & H0 & Hn & Hz)]; [exists 0; split; [lia|]; split; lia|].
  destruct (Z.lt_ge_cases n (Z.of_nat k)) as [Hlt|]; [exists n; split; [lia|]; split; [done|auto]|].
  assert (n = Z.of_nat k) as -> by lia. destruct (Z.eq_dec (b_at (s + Z.of_nat k)) 0).
  - exists (Z.of_nat k). split; [lia|]. by split.
  - exists (Z.of_nat (S k)). split; [lia|]. split; [|lia]. intros i Hi.
    destruct (Z.eq_dec i (Z.of_nat k)) as [->|]; [done|]. apply Hn. lia.
Qed.

(** A string that does not end in what is mapped is not found short. *)
Lemma shortString_open sh s max :
  bytes_ok b_at -> (forall n, measured s max n -> scannedOf max n <> 0 /\ b_end < s + scannedOf max n) ->
  shortString sh s max = NotShort \/ shortString sh s max = ShortFault.
Proof.
  intros Hb Hno. unfold shortString. destruct ((32 <=? max) && _ && _ && _) eqn:Ec; [|by left]. cbv zeta. bool_hyps.
  case_match; [|by left]. destruct (Z.ltb_spec b_end (s + 32)); [by right|]. left.
  destruct (measured_exists s 32) as (n & Hm); [lia|]. destruct (Z.lt_ge_cases n 32) as [Hlt|Hge].
  - exfalso. pose proof (string_measured s 32 n Hm Hlt) as Hs. destruct (Hno n) as [_ Hout].
    + apply measured_string; [done|lia].
    + unfold scannedOf in Hout. rewrite (proj2 (Z.ltb_lt _ _)) in Hout by lia. lia.
  - rewrite wordsFrom_none; [done|done|lia|]. intros j Hj. apply Hm. lia.
Qed.

Lemma strlen_measured st s max n si here :
  shadow_wf (gs_shadow st) -> bytes_ok b_at -> measured s max n -> s + scannedOf max n <= b_end \/ scannedOf max n = 0 ->
  b_end mod 4096 = 0 -> 0 < s -> s + scannedOf max n <= 2 ^ s_bits (gs_shadow st) \/ scannedOf max n = 0 ->
  stop (gs_reports st) si = true ->
  let r := __weavec_rt_strlen s max si here st in
  settles (gs_shadow st) (gs_shadow (snd r)) here
  /\ ((fst r = Some n /\ all_usable (gs_shadow st) here s (scannedOf max n) /\ gs_reports (snd r) = gs_reports st)
      \/ (fst r = None /\ ~ all_usable (gs_shadow st) here s (scannedOf max n))).
Proof.
  intros Hwf Hb Hs He Hpage H0 Hend Hstop. assert (Hlen : 0 <= n <= max) by apply Hs.
  assert (H63 : 2 ^ s_bits (gs_shadow st) <= 2 ^ 63) by (pose proof (wf_bits _ Hwf); apply Z.pow_le_mono_r; lia).
  unfold __weavec_rt_strlen, mbind, G_bind, weavecRtCount, modify. cbv zeta.
  set (st0 := if gs_statsOn st || _ then _ else st).
  assert (E0 : gs_shadow st0 = gs_shadow st /\ gs_reports st0 = gs_reports st) by (subst st0; by case_match).
  clearbody st0. destruct E0 as [Es Er]. rewrite (proj2 (Z.eqb_neq s 0)) by lia. unfold get. rewrite <- Es, <- Er in *.
  assert (Hc : max = 0 \/ s + scannedOf max n <= b_end /\ s + scannedOf max n <= 2 ^ s_bits (gs_shadow st0)).
  { unfold scannedOf in *. destruct (Z.ltb_spec n max); lia. }
  destruct (shortString (gs_shadow st0) s max) as [l| |] eqn:Esh.
  - destruct Hc as [->|[He' Hend']]; [done|].
    pose proof (shortString_spec (gs_shadow st0) s max n here Hwf Hb Hs ltac:(lia) He' Hend' Hpage) as Hsh.
    rewrite Esh in Hsh. destruct Hsh as [-> Hu]. split; [by apply settles_refl|]. by left.
  - unfold stringLength, or_fault, mbind, G_bind, get.
    pose proof (strnlen_run s max ltac:(lia)) as Hr. destruct (strnlen s max) as [k|].
    2:{ destruct (Hr n Hs). lia. }
    rewrite (measured_unique _ _ _ _ (proj1 Hr) Hs). fold (scannedOf max n). clear Hr k.
    destruct (weavecRtQuickOk (gs_shadow st0) s (scannedOf max n)) eqn:Eq.
    { split; [by apply settles_refl|]. left. split; [done|]. split; [|done]. intros a Ha.
      assert (0 < scannedOf max n) by lia.
      apply (quick_usable (gs_shadow st0) here s (scannedOf max n)); try done; [lia|lia|].
      unfold quick. by rewrite Eq. }
    assert (Hpos : 0 < scannedOf max n).
    { unfold weavecRtQuickOk in Eq. destruct (Z.eqb_spec (scannedOf max n) 0); [done|].
      unfold scannedOf in *. destruct (Z.ltb_spec n max); lia. }
    destruct (scan_run st0 s (scannedOf max n) here) as (s1 & r & -> & Hset & Hans); [done|lia| |].
    { unfold scannedOf in *. destruct (Z.ltb_spec n max); lia. }
    rewrite <- (scan_answer_usable _ _ _ _ _ Hans).
    destruct r as [[bad v]|]; [|split; [done|]; by left].
    unfold raise. set (f := Fails _ s _).
    destruct (fail_stops (gs_reports st0) f si Hstop) as (extra & Hf & _).
    cbn [gs_reports with_shadow]. rewrite Hf. cbn. split; [done|]. by right.
  - destruct Hc as [->|[He' Hend']]; [done|].
    pose proof (shortString_spec (gs_shadow st0) s max n here Hwf Hb Hs ltac:(lia) He' Hend' Hpage) as Hsh.
    by rewrite Esh in Hsh.
Qed.

(** A string that ends neither in what is mapped nor within [max] stops the
    program. *)
Lemma strlen_open st s max si here :
  bytes_ok b_at -> s <> 0 -> 0 <= max -> shadow_wf (gs_shadow st) ->
  (forall n, measured s max n -> scannedOf max n <> 0 /\ b_end < s + scannedOf max n) ->
  let r := __weavec_rt_strlen s max si here st in
  fst r = None /\ settles (gs_shadow st) (gs_shadow (snd r)) here.
Proof.
  intros Hb H0 Hm Hwf Hno. unfold __weavec_rt_strlen, mbind, G_bind, weavecRtCount, modify. cbv zeta.
  set (st0 := if gs_statsOn st || _ then _ else st).
  assert (Es : gs_shadow st0 = gs_shadow st) by (subst st0; by case_match). clearbody st0.
  rewrite (proj2 (Z.eqb_neq s 0)) by lia. unfold get.
  destruct (shortString_open (gs_shadow st0) s max Hb Hno) as [-> | ->].
  - unfold stringLength, or_fault, mbind, G_bind. pose proof (strnlen_run s max Hm) as Hr.
    destruct (strnlen s max) as [k|].
    + exfalso. destruct Hr as [Hk Hk']. destruct (Hno k Hk). lia.
    + cbn. rewrite Es. split; [done|by apply settles_refl].
  - cbn. rewrite Es. split; [done|by apply settles_refl].
Qed.

(** C38: the string guard answers a string's length exactly when its bytes and
    its terminator may be used, by whichever of its scans; else the program
    stops. The short scan never faults: it stays in a page the string is in. *)
Theorem strlen_decides st s max len si here :
  shadow_wf (gs_shadow st) -> bytes_ok b_at -> string_at s len -> s + len < b_end ->
  b_end mod 4096 = 0 -> len < max -> 0 < s -> s + len + 1 <= 2 ^ s_bits (gs_shadow st) ->
  stop (gs_reports st) si = true ->
  let r := __weavec_rt_strlen s max si here st in
  settles (gs_shadow st) (gs_shadow (snd r)) here
  /\ (fst r = Some len <-> all_usable (gs_shadow st) here s (len + 1))
  /\ (fst r = Some len \/ fst r = None).
Proof.
  intros Hwf Hb Hs He Hpage Hm H0 Hend Hstop. assert (Hlen : 0 <= len) by apply Hs.
  assert (Hsc : scannedOf max len = len + 1) by (unfold scannedOf; rewrite (proj2 (Z.ltb_lt _ _)); [done|lia]).
  destruct (strlen_measured st s max len si here) as [Hset Hr]; try done; rewrite ?Hsc; try lia.
  { by apply measured_string. }
  rewrite Hsc in Hr. split; [done|]. destruct Hr as [(-> & Hu & _)|[-> Hu]]; split; try done; (by left) || by right.
Qed.
End StringLength.

(** ** Objects with a redzone after them *)

Section Redzones.
Context {P : Pages} (HP : pages_wf).

(** An object and the poison up to [padded] bytes from its base, as dynamic
    stack objects and globals are written. *)
Definition write_padded (s : shadow) (base size padded tail color : Z) : shadow :=
  weavecRtShadowSet (weavecRtShadowObject s base size tail color)
                    (base + (size + 15) / 16 * 16) (padded - (size + 15) / 16 * 16) tail.

(** What is to be written lies in the window, in whole granules. *)
Definition padded_ok (s : shadow) (base size padded : Z) : Prop :=
  0 <= base /\ base mod 16 = 0 /\ 0 <= size /\ (size + 15) / 16 * 16 <= padded
  /\ 16 <= padded /\ padded mod 16 = 0 /\ base + padded <= 2 ^ s_bits s.

Lemma write_padded_gval s base size padded tail color g :
  shadow_wf s -> padded_ok s base size padded -> color_ok color -> 0 <= tail < 256 ->
  gval (write_padded s base size padded tail color) g
  = if decide (base / 16 + (size + 15) / 16 <= g < (base + padded) / 16) then tail
    else object_value s base size tail color g.
Proof.
  intros Hwf (Hb & Hal & Hs & Hu & Hp & Hpm & Hend) Hc Ht. unfold write_padded.
  pose proof (window_room s Hwf). pose proof (window_split s Hwf).
  assert (Hwf' : shadow_wf (weavecRtShadowObject s base size tail color))
    by (apply shadowObject_wf; [done|destruct Hc; lia]).
  rewrite <- shadowObject_gval by (done || euclid).
  set (used := (size + 15) / 16 * 16) in *.
  assert (Hbu : (base + used) / 16 = base / 16 + (size + 15) / 16) by (subst used; euclid).
  assert (0 <= used /\ used mod 16 = 0) as [H0u H0m] by (subst used; euclid). clearbody used.
  destruct (Z.eq_dec padded used) as [He|Hne].
  - unfold weavecRtShadowSet. rewrite He, Z.sub_diag. cbn. rewrite orb_true_r. cbn.
    case_decide; [exfalso; euclid|done].
  - rewrite shadowSet_gval by (rewrite ?shadowObject_bits; done || lia). rewrite Hbu.
    repeat case_decide; (done || (exfalso; euclid)).
Qed.

Lemma write_padded_spec s base size padded tail color (s' := write_padded s base size padded tail color) :
  shadow_wf s -> padded_ok s base size padded -> color_ok color ->
  WeavecRtShadowPoisonFrom <= tail < 256 ->
  shadow_wf s' /\ s_bits s' = s_bits s
  /\ (forall a, base <= a < base + padded -> addressable s' a = (a <? base + size))
  /\ (forall a, 0 <= a < 2 ^ s_bits s -> ~ (base <= a < base + padded) ->
        granule_value s' a = granule_value s a).
Proof.
  intros Hwf Hok Hc Ht. assert (Hok' := Hok). destruct Hok' as (Hb & Hal & Hs & Hu & Hp & Hpm & Hend).
  assert (Ht' : 0 <= tail < 256) by (unfold WeavecRtShadowPoisonFrom in Ht; lia).
  assert (Hwf' : shadow_wf s').
  { apply shadowSet_wf; [|done]. apply shadowObject_wf; [done|destruct Hc; lia]. }
  assert (Hbits : s_bits s' = s_bits s)
    by (subst s'; unfold write_padded; by rewrite shadowSet_bits, shadowObject_bits).
  split; [done|]. split; [done|].
  assert (Htail : forall off, byte_ok tail off = false)
    by (intros off; apply poison_not_ok, Z.leb_le; lia).
  pose proof (object_color_ok (size / 16) color Hc) as Hoc.
  split; intros a Ha.
  - rewrite addressable_gval by (rewrite ?Hbits; done || lia). subst s'.
    rewrite write_padded_gval by done. unfold object_value.
    case_decide; [rewrite Htail; symmetry; apply Z.ltb_ge; euclid|].
    case_decide; [|case_decide; [case_decide; [|case_decide]|]].
    + rewrite full_byte_ok; [symmetry; apply Z.ltb_lt; euclid|].
      apply Z.ltb_lt. destruct Hoc. lia.
    + rewrite partialOf_byte_ok by (done || euclid). bool_cases; (done || euclid).
    + rewrite Htail. symmetry. apply Z.ltb_ge. euclid.
    + exfalso. euclid.
    + exfalso. euclid.
  - intros Hn. rewrite !granule_value_gval by (rewrite ?Hbits; done || lia).
    subst s'. rewrite write_padded_gval by done. unfold object_value.
    repeat case_decide; (done || (exfalso; euclid)).
Qed.
End Redzones.

Section WritersExact.
Context {T : Thread} {P : Pages} (HP : pages_wf).

Lemma up16_spec x : 0 <= x -> x + 15 < 2 ^ 64 -> up16 x = (x + 15) / 16 * 16.
Proof.
  intros Hx Hl. unfold up16, add64. rewrite wrap64_small, Z.ldiff_land by lia.
  change 15 with (2 ^ 4 - 1) at 2. by rewrite land_lnot_ones by lia.
Qed.

Lemma up32_spec x : 0 <= x -> x + 31 < 2 ^ 64 -> up32 x = (x + 31) / 32 * 32.
Proof.
  intros Hx Hl. unfold up32, add64. rewrite wrap64_small, Z.ldiff_land by lia.
  change 31 with (2 ^ 5 - 1) at 2. by rewrite land_lnot_ones by lia.
Qed.

(** The dynamic object fits where [__weavec_rt_alloca_poison] writes. *)
Definition alloca_fits (address padded : Z) : bool :=
  if onOwnStack address (address + padded)
  then (address + padded <=? stackHigh) && (stackLow <=? address)
  else padded <=? 2 ^ 30.

Lemma alloca_run st address size :
  address mod 16 = 0 -> 0 <= address -> 0 <= size < 2 ^ 62 ->
  let padded := (size + 31) / 32 * 32 + 32 in
  address + padded <= 2 ^ 63 ->
  __weavec_rt_alloca_poison address size st
  = (Some tt,
     if alloca_fits address padded
     then with_shadow st (write_padded (gs_shadow st) address size padded
                            WeavecRtShadowStackDynamic 0)
     else st).
Proof.
  intros Hal Ha Hs padded Hend. unfold __weavec_rt_alloca_poison, alloca_fits. cbv zeta.
  rewrite up16_spec, up32_spec by lia.
  assert (Hp : add64 ((size + 31) / 32 * 32) 32 = padded)
    by (unfold add64; by rewrite wrap64_small by euclid).
  rewrite Hp. assert (Hpd : padded = (size + 31) / 32 * 32 + 32) by done. clearbody padded.
  rewrite land_15, Hal. cbn [negb orb Z.eqb].
  rewrite (proj2 (Z.ltb_ge padded size)), (proj2 (Z.leb_gt (2 ^ 64) (address + padded))) by euclid.
  cbn [orb]. change (Z.shiftl 1 30) with (2 ^ 30). unfold write_padded, add64, sub64.
  rewrite !wrap64_small by euclid.
  destruct (onOwnStack address (address + padded)).
  - rewrite (Z.leb_antisym stackHigh), (Z.leb_antisym address stackLow), <- negb_orb.
    by destruct ((stackHigh <? address + padded) || (address <? stackLow)).
  - rewrite (Z.leb_antisym (2 ^ 30) padded). by destruct (2 ^ 30 <? padded).
Qed.

(** A dynamic stack object that fits: its bytes are addressable, every
    other byte of its padded block (the redzone of at least 32 bytes after it)
    is not, and no other granule changes; one that does not fit writes
    nothing. *)
Theorem alloca_exact st address size :
  shadow_wf (gs_shadow st) -> 0 <= address -> address mod 16 = 0 -> 0 <= size < 2 ^ 62 ->
  let padded := (size + 31) / 32 * 32 + 32 in
  address + padded <= 2 ^ s_bits (gs_shadow st) ->
  let r := __weavec_rt_alloca_poison address size st in
  fst r = Some tt
  /\ if alloca_fits address padded then
       let s' := gs_shadow (snd r) in
       shadow_wf s'
       /\ (forall a, address <= a < address + padded -> addressable s' a = (a <? address + size))
       /\ (forall a, 0 <= a < 2 ^ s_bits (gs_shadow st) -> ~ (address <= a < address + padded) ->
             granule_value s' a = granule_value (gs_shadow st) a)
     else snd r = st.
Proof.
  intros Hwf Ha Hal Hs padded Hend r. subst r.
  pose proof (wf_bits _ Hwf). assert (2 ^ s_bits (gs_shadow st) <= 2 ^ 63) by (apply Z.pow_le_mono_r; lia).
  rewrite alloca_run by (fold padded; done || lia). fold padded. cbn [fst snd]. split; [done|].
  destruct (alloca_fits address padded); [|done]. cbn [gs_shadow with_shadow].
  destruct (write_padded_spec HP (gs_shadow st) address size padded WeavecRtShadowStackDynamic 0)
    as (Hwf' & _ & Hin & Hout); [done| |split; [lia|done]|vm_compute; intuition congruence|done].
  unfold padded_ok. subst padded. repeat split; (done || euclid).
Qed.

(** A dynamic object of negative size (a huge unsigned one) writes
    nothing: its first access leaves the stack, as without WeaveC. *)
Theorem alloca_negative st address size :
  2 ^ 64 - 2 ^ 31 <= size < 2 ^ 64 - 31 -> 0 <= address < 2 ^ 63 -> 2 ^ 31 <= address -> 
  __weavec_rt_alloca_poison address size st = (Some tt, st).
Proof.
  intros Hs Ha Hl. unfold __weavec_rt_alloca_poison. cbv zeta. rewrite up32_spec by lia.
  assert (Hp : 2 ^ 64 <= address + add64 ((size + 31) / 32 * 32) 32
               \/ add64 ((size + 31) / 32 * 32) 32 < size).
  { unfold add64, wrap64. euclid. }
  destruct Hp as [Hp|Hp].
  - rewrite (proj2 (Z.leb_le _ _) Hp). by rewrite !orb_true_r.
  - rewrite (proj2 (Z.ltb_lt _ _) Hp). by rewrite !orb_true_r.
Qed.

(** Clearing the stack after a non-local exit leaves every byte of it
    above the frame addressable, and records that its colors are lost. *)
Theorem unpoison_exact st low :
  shadow_wf (gs_shadow st) -> 0 <= low < stackHigh -> stackHigh - low <= 2 ^ 30 ->
  stackHigh <= 2 ^ s_bits (gs_shadow st) ->
  let r := __weavec_rt_unpoison_stack low st in
  fst r = Some tt /\ gs_lostColors (snd r) = true
  /\ forall a, low <= a < stackHigh -> addressable (gs_shadow (snd r)) a = true.
Proof.
  intros Hwf Hl Hr Hb. unfold __weavec_rt_unpoison_stack, weavecRtCount, modify, mbind, G_bind.
  cbv zeta. change (Z.shiftl 1 30) with (2 ^ 30).
  rewrite (proj2 (Z.ltb_lt low stackHigh)), (proj2 (Z.leb_le _ (2 ^ 30))) by lia. cbn [andb].
  set (st0 := if gs_statsOn st || _ then _ else st).
  assert (E0 : gs_shadow st0 = gs_shadow st) by (subst st0; by case_match).
  clearbody st0. cbn. rewrite E0. split; [done|]. split; [done|]. intros a Ha.
  assert (Hbits : s_bits (weavecRtShadowClear (gs_shadow st) low stackHigh) = s_bits (gs_shadow st))
    by (unfold weavecRtShadowClear; by repeat case_match).
  rewrite addressable_gval by (rewrite ?Hbits; lia || by apply shadowClear_wf).
  rewrite (shadowClear_gval HP) by (done || lia). case_decide; [done|]. exfalso. euclid.
Qed.

(** *** Globals *)

Definition global_ok (s : shadow) (g : global) : Prop :=
  padded_ok s (gl_address g) (gl_size g) (gl_padded g).
Definition in_global (g : global) (a : Z) : Prop := gl_address g <= a < gl_address g + gl_padded g.
Definition apart (g h : global) : Prop :=
  gl_address g + gl_padded g <= gl_address h \/ gl_address h + gl_padded h <= gl_address g.

Definition write_global (s : shadow) (g : global) (n : Z) : shadow :=
  write_padded s (gl_address g) (gl_size g) (gl_padded g) WeavecRtShadowGlobal (weavecRtColor n).

Lemma registerGlobal_run st g :
  shadow_wf (gs_shadow st) -> global_ok (gs_shadow st) g -> 0 <= gs_globalColors st < 2 ^ 64 - 1 ->
  registerGlobal g st
  = (Some tt, with_globalColors (with_shadow st (write_global (gs_shadow st) g (gs_globalColors st)))
                (gs_globalColors st + 1)).
Proof.
  intros Hwf (Hb & Hal & Hs & Hu & Hp & Hpm & Hend) Hn.
  pose proof (window_room _ Hwf). pose proof (window_split _ Hwf).
  unfold registerGlobal. cbv zeta. rewrite up16_spec by euclid.
  rewrite land_15, Hal, (proj2 (Z.ltb_ge (gl_padded g) _)) by euclid. cbn [negb orb Z.eqb].
  unfold write_global, write_padded, add64.
  rewrite (wrap64_small (gl_address g + _)) by euclid.
  unfold get, mbind, G_bind, on_shadow, modify. rewrite wrap64_small by lia.
  destruct (Z.ltb_spec ((gl_size g + 15) / 16 * 16) (gl_padded g)) as [|Hge]; [done|].
  assert (He : gl_padded g = (gl_size g + 15) / 16 * 16) by lia. rewrite He, Z.sub_diag.
  set (s' := weavecRtShadowObject _ _ _ _ _).
  assert (Hset : weavecRtShadowSet s' (gl_address g + (gl_size g + 15) / 16 * 16) 0
                   WeavecRtShadowGlobal = s').
  { unfold weavecRtShadowSet. rewrite Z.eqb_refl, orb_true_r. done. }
  by rewrite Hset.
Qed.

Lemma write_global_spec s g n :
  shadow_wf s -> global_ok s g ->
  shadow_wf (write_global s g n) /\ s_bits (write_global s g n) = s_bits s
  /\ (forall a, in_global g a -> addressable (write_global s g n) a = (a <? gl_address g + gl_size g))
  /\ (forall a, 0 <= a < 2 ^ s_bits s -> ~ in_global g a ->
        granule_value (write_global s g n) a = granule_value s a).
Proof.
  intros Hwf Hok. apply (write_padded_spec HP); [done|done| |vm_compute; intuition congruence].
  unfold color_ok. rewrite weavecRtColor_value. split; euclid.
Qed.

Lemma register_spec globals st :
  shadow_wf (gs_shadow st) -> Forall (global_ok (gs_shadow st)) globals ->
  ForallOrdPairs apart globals ->
  0 <= gs_globalColors st -> gs_globalColors st + Z.of_nat (length globals) < 2 ^ 64 ->
  let r := __weavec_rt_globals_register globals st in
  fst r = Some tt /\ shadow_wf (gs_shadow (snd r))
  /\ s_bits (gs_shadow (snd r)) = s_bits (gs_shadow st)
  /\ gs_globalColors (snd r) = gs_globalColors st + Z.of_nat (length globals)
  /\ (forall g a, In g globals -> in_global g a ->
        addressable (gs_shadow (snd r)) a = (a <? gl_address g + gl_size g))
  /\ (forall a, 0 <= a < 2 ^ s_bits (gs_shadow st) -> (forall g, In g globals -> ~ in_global g a) ->
        granule_value (gs_shadow (snd r)) a = granule_value (gs_shadow st) a).
Proof.
  revert st. induction globals as [|g rest IH]; intros st Hwf Hok Hap Hn Hlen.
  { intros r. subst r. cbn. rewrite Z.add_0_r. split_and!; (done || by intros). }
  apply Forall_cons_iff in Hok as [Hg Hok]. inversion Hap as [|? ? Hga Hap' Eq]; subst.
  rewrite List.Forall_forall in Hga. cbn [length] in Hlen. rewrite Nat2Z.inj_succ in Hlen.
  intros r.
  destruct (write_global_spec (gs_shadow st) g (gs_globalColors st) Hwf Hg)
    as (Hw1 & Hb1 & Hin1 & Hout1).
  set (st1 := with_globalColors (with_shadow st (write_global (gs_shadow st) g (gs_globalColors st)))
                (gs_globalColors st + 1)).
  assert (Er : r = __weavec_rt_globals_register rest st1).
  { subst r. cbn [__weavec_rt_globals_register]. unfold mbind, G_bind.
    by rewrite registerGlobal_run by (done || lia). }
  clearbody r. subst r.
  assert (E1 : gs_shadow st1 = write_global (gs_shadow st) g (gs_globalColors st)) by done.
  assert (E2 : gs_globalColors st1 = gs_globalColors st + 1) by done. clearbody st1.
  destruct (IH st1) as (Hf & Hwf' & Hb' & Hc' & Hin' & Hout').
  { by rewrite E1. }
  { eapply List.Forall_impl; [|exact Hok]. unfold global_ok, padded_ok. intros h. by rewrite E1, Hb1. }
  { done. }
  { lia. }
  { lia. }
  rewrite E1 in Hb', Hout'. rewrite Hb1 in Hb', Hout'. rewrite E2 in Hc'.
  assert (Hnone : forall a, in_global g a -> forall h, In h rest -> ~ in_global h a).
  { intros a Ha h Hh Hh'. specialize (Hga h Hh).
    unfold apart, in_global in *. lia. }
  assert (Hwin : forall a, in_global g a -> 0 <= a < 2 ^ s_bits (gs_shadow st)).
  { unfold global_ok, padded_ok, in_global in *. intros a Ha. lia. }
  split; [done|]. split; [done|]. split; [done|].
  split; [rewrite Hc'; cbn [length]; lia|]. split.
  - intros h a [<-|Hh] Ha; [|by apply Hin']. rewrite <- Hin1 by done. unfold addressable.
    rewrite Hout' by (exact (Hwin a Ha) || exact (Hnone a Ha)). done.
  - intros a Ha Hno. rewrite Hout' by (done || (intros h Hh; apply Hno; by right)).
    apply Hout1; [done|]. apply Hno. by left.
Qed.

(** After a unit's globals are registered, every byte of every global is
    addressable, every byte of the redzone after it is not, no granule outside
    them changes, and each took the next color. *)
Theorem register_exact globals st :
  shadow_wf (gs_shadow st) -> Forall (global_ok (gs_shadow st)) globals ->
  ForallOrdPairs apart globals ->
  0 <= gs_globalColors st -> gs_globalColors st + Z.of_nat (length globals) < 2 ^ 64 ->
  let r := __weavec_rt_globals_register globals st in
  fst r = Some tt /\ shadow_wf (gs_shadow (snd r))
  /\ s_bits (gs_shadow (snd r)) = s_bits (gs_shadow st)
  /\ gs_globalColors (snd r) = gs_globalColors st + Z.of_nat (length globals)
  /\ (forall g a, In g globals -> in_global g a ->
        addressable (gs_shadow (snd r)) a = (a <? gl_address g + gl_size g))
  /\ (forall a, 0 <= a < 2 ^ s_bits (gs_shadow st) -> (forall g, In g globals -> ~ in_global g a) ->
        granule_value (gs_shadow (snd r)) a = granule_value (gs_shadow st) a).
Proof. apply register_spec. Qed.
End WritersExact.
