(* ===== verification/InlineGuard.v ===== *)
(** * The inline checks

    [lib/Frontend/GuardPass.cpp], lines 555 to 946: the code [emitGuard],
    [chunkCheck], [colorCheck], [chunkCheckString] and [emitRange] emit before
    an access.  A definition here is the run of the emitted code: from the
    shadow and the values the code computes with, the calls of the runtime it
    makes, in order (an empty list is the fast path).  What the pass decides
    while compiling (the width, the alignment, the byte order, whether there is
    a null test, a root, members of a merged guard) is an argument too.

    The theorems are against the exact decision of the files Shadow and
    GuardEntry: an inline check stays on the fast path exactly when every byte
    may be accessed, and, with a root, only when the runtime would find no
    color failure. *)

From Stdlib Require Import String.
From S2P Require Import Prelude Shadow Report Guard GuardEntry.
Local Open Scope Z_scope.

(** A call of the runtime. *)
Inductive call :=
  | CallGuard (address width : Z) (s : site)
  | CallNull (address : Z) (s : site)
  | CallRange (address n : Z) (s : site)
  | CallStrlen (address max : Z) (s : site)
  | CallGuardJump (address width root rootShadow : Z) (s : site)
  | CallJump (address width root rootShadow : Z) (s : site).

(** [FunctionContext::Member]. *)
Record Member := mkMember { m_pointer : Z; m_width : Z; m_site : site }.

(** [RootCheck]: [r_shadow] is the i32, the root's shadow byte sign-extended;
    [r_isNullBase] whether the null test's base is the root. *)
Record RootCheck := mkRootCheck {
  r_root : Z;
  r_shadow : Z;
  r_monitorSite : option site;
  r_isNullBase : bool
}.

Definition rootByte (root : RootCheck) : Z := r_shadow root mod 256.

(** The i32 a root's shadow byte is loaded as. *)
Definition sign_extended (b : Z) : Z := if b <? 128 then b else b + (2 ^ 32 - 256).

(** [icmp slt i8 value, 0] *)
Definition negative8 (value : Z) : bool := 128 <=? value.

Definition isPowerOf2 (n : Z) : bool := (0 <? n) && (Z.land n (n - 1) =? 0).

Section Emitted.
Context (s : shadow).

Definition shadowAddress (address : Z) : Z := s_base s + Z.land (Z.shiftr address 4) (s_mask s).

Definition shadowByte (address : Z) : Z := s_byte s (shadowAddress address).

Definition slowGuard (address width : Z) (si : site) (members : list Member) : list call :=
  match members with
  | [] => [CallGuard address width si]
  | _ => map (fun m => CallGuard (m_pointer m) (m_width m) (m_site m)) members
  end.

(** The color of an access, tested apart. *)
Definition colorCheck (address width : Z) (si : site) (root : RootCheck) : list call :=
  let value := shadowByte address in
  if negb (value =? r_shadow root) && negb (value =? rootByte root) then
    [CallJump address width (r_root root) (rootByte root)
              (match r_monitorSite root with Some m => m | None => si end)]
  else [].

(** A poison value, or a partial granule [lastByte] is past. *)
Definition badByte (value lastByte : Z) : bool := (0xF0 <=? value) || (Z.land value 15 <=? lastByte).

(** The part of [chunkCheck] behind the fast test. *)
Definition chunkExact (address width : Z) (si : site) (null : bool) (slow : list call) : list call :=
  let offset := Z.land address 15 in
  let lastOffset := add64 offset (sub64 width 1) in
  let granules := Z.shiftr lastOffset 4 in
  let chunk := load_le (s_byte s) (shadowAddress address) 8 in
  let bits := Z.shiftl granules 3 in
  let rest := Z.land (Z.land chunk (Z.shiftl 1 bits - 1)) hi8 in
  let lastValue := Z.shiftr chunk bits mod 256 in
  let nonzero := negb (rest =? 0) || negative8 lastValue in
  if nonzero || null then
    (if null then [CallNull address si] else [])
    ++ (if negb (rest =? 0) || (negative8 lastValue && badByte lastValue (Z.land lastOffset 15))
        then slow else [])
  else [].

(** The fast test of a constant width: every granule it could touch. *)
Definition chunkFast (address width : Z) : bool :=
  let reach := (15 + width + 15) / 16 in
  if reach <=? 2 then
    negb (Z.land (load_le (s_byte s) (shadowAddress address) (Z.to_nat reach))
                 (hi8 mod 2 ^ (8 * reach)) =? 0)
  else
    let mask := if 8 <=? reach then 2 ^ 64 - 1 else Z.shiftl 1 (8 * reach) - 1 in
    negb (Z.land (load_le (s_byte s) (shadowAddress address) 8) (Z.land mask hi8) =? 0).

Definition chunkCheck (address width : Z) (constant : bool) (si : site) (null : bool)
    (slow : list call) : list call :=
  if constant && negb (width =? 0) && (width <=? 113) then
    if chunkFast address width || null then chunkExact address width si null slow else []
  else chunkExact address width si null slow.

Definition chunkCheckString (address bound : Z) (si : site) : list call :=
  chunkCheck address bound true si false [CallStrlen address bound si].

(** The one-granule form. *)
Definition emitSingle (address width : Z) (si : site) (null : bool) (members : list Member)
    (root : option RootCheck) : list call :=
  let nullInCheck := match root with Some r => r_isNullBase r | None => false end in
  let value := shadowByte address in
  let nonzero := match root with
                 | Some r => negb (value =? r_shadow r)
                 | None => negative8 value
                 end in
  if nonzero || (null && negb nullInCheck) then
    let last := (Z.land address 15 + (width - 1)) mod 256 in
    let bad := badByte value last in
    let bad := match root with Some _ => negative8 value && bad | None => bad end in
    (if null then [CallNull address si] else [])
    ++ match root with
       | Some r =>
         let rb := rootByte r in
         match r_monitorSite r, members with
         | None, [] =>
           let differs := (negb (negative8 value) && negb (negative8 rb) && negb (value =? rb))
                          || negb (weavecRtShadowClass value =? weavecRtShadowClass rb) in
           if bad || differs then [CallGuardJump address width (r_root r) rb si] else []
         | monitor, _ =>
           (if bad then slowGuard address width si members else [])
           ++ (if negb (value =? rb)
               then [CallJump address width (r_root r) rb
                              (match monitor with Some m => m | None => si end)]
               else [])
         end
       | None => if bad then slowGuard address width si members else []
       end
  else [].

(** At most two granules. *)
Definition emitPair (little : bool) (address width : Z) (si : site) (null : bool)
    (members : list Member) : list call :=
  let lastAddress := add64 address (width - 1) in
  let first := shadowByte address in
  let last := shadowByte lastAddress in
  let nonzero :=
    if little then negb (Z.land (load_le (s_byte s) (shadowAddress address) 2) 0x8080 =? 0)
    else negative8 (Z.lor first last) in
  if nonzero || null then
    let crosses := negb (Z.shiftr (Z.lxor address lastAddress) 4 =? 0) in
    (if null then [CallNull address si] else [])
    ++ (if (crosses && negative8 first)
           || (negative8 last && badByte last (Z.land lastAddress 15))
        then slowGuard address width si members else [])
  else [].

Definition oneGranule (width alignment : Z) : bool :=
  (width <=? 16) && isPowerOf2 width && (width <=? alignment).

Definition emitGuard (little : bool) (address width alignment : Z) (si : site)
    (nullBase : option Z) (members : list Member) (root : option RootCheck) : list call :=
  let null := match nullBase with Some base => base =? 0 | None => false end in
  if width =? 0 then []
  else
    (match root with
     | Some r => if oneGranule width alignment then [] else colorCheck address width si r
     | None => []
     end)
    ++ (if (113 <? width) || (negb little && (16 <? width)) then
          match members with
          | [] => [CallRange address width si]
          | _ => slowGuard address width si members
          end
        else if oneGranule width alignment then emitSingle address width si null members root
        else if width <=? 16 then emitPair little address width si null members
        else chunkCheck address width true si null (slowGuard address width si members)).

(** A guard of a length known when the program runs. *)
Definition emitRange (little : bool) (address bytes : Z) (si : site) : list call :=
  if negb little then [CallRange address bytes si]
  else if sub64 bytes 1 <? 113 then
    chunkCheck address bytes false si false [CallGuard address bytes si]
  else [CallRange address bytes si].
End Emitted.

(** ** The fast path is exact *)

Section Exact.
Context (s : shadow) (Hwf : shadow_wf s).

Lemma shadowAddress_eq a : 0 <= a < 2 ^ s_bits s -> shadowAddress s a = s_base s + a / 16.
Proof.
  intros Ha. pose proof (shadowOf_eq s Hwf a Ha) as He. unfold weavecRtShadowOf, add64 in He.
  pose proof (window_room s Hwf). pose proof (wf_base s Hwf). pose proof (wf_room s Hwf).
  unfold shadowAddress. rewrite <- He. symmetry. apply wrap64_small.
  rewrite (wf_mask s Hwf). replace (2 ^ (s_bits s - 4) - 1) with (Z.ones (s_bits s - 4))
    by (rewrite Z.ones_equiv; lia).
  pose proof (wf_bits s Hwf). rewrite Z.land_ones by lia.
  pose proof (Z.mod_pos_bound (Z.shiftr a 4) (2 ^ (s_bits s - 4)) ltac:(lia)). lia.
Qed.

Lemma shadowByte_eq a : 0 <= a < 2 ^ s_bits s -> shadowByte s a = gval s (a / 16).
Proof. intros Ha. unfold shadowByte, gval. by rewrite shadowAddress_eq. Qed.

(** The test of a granule is the specification's. *)
Lemma badByte_ok v off : negative8 v && badByte v off = negb (byte_ok v off).
Proof.
  unfold negative8, badByte, byte_ok, weavecRtShadowFull, weavecRtShadowPoison,
    WeavecRtShadowPoisonFrom, weavecRtShadowBytes.
  rewrite (Z.leb_antisym v 128), (Z.leb_antisym off (Z.land v 15)).
  destruct (v <? 128), (0xF0 <=? v), (off <? Z.land v 15); done.
Qed.

Lemma negative8_full v : negative8 v = negb (weavecRtShadowFull v).
Proof. unfold negative8, weavecRtShadowFull. apply Z.leb_antisym. Qed.

Lemma if_nil {A} (b : bool) (l : list A) : l <> [] -> (if b then l else []) = [] <-> b = false.
Proof. by destruct b. Qed.

Lemma slowGuard_nonempty address width si members : slowGuard address width si members <> [].
Proof. by destruct members. Qed.

(** What [chunkExact] tests is [weavecRtQuickOk]. *)
Lemma chunkExact_granules address width si slow :
  0 <= address < 2 ^ s_bits s -> 0 < width <= 113 -> slow <> [] ->
  chunkExact s address width si false slow = if weavecRtQuickOk s address width then [] else slow.
Proof.
  intros Ha Hw Hs. unfold chunkExact, weavecRtQuickOk.
  rewrite (proj2 (Z.eqb_neq width 0)), (proj2 (Z.ltb_ge 113 width)) by lia.
  rewrite ready_wf, inWindow_true by done. cbn [negb orb app].
  rewrite shadowOf_eq, shadowAddress_eq, land_15 by done.
  unfold sub64, add64. rewrite (wrap64_small (width - 1)), wrap64_small by euclid.
  replace (address mod 16 + (width - 1)) with (address mod 16 + width - 1) by lia.
  set (last := address mod 16 + width - 1). rewrite shiftr_4, land_15.
  rewrite (Z.shiftl_mul_pow2 (last / 16) 3) by lia. change (2 ^ 3) with 8.
  set (chunk := load_le _ _ 8). set (sh := last / 16 * 8).
  fold (weavecRtShadowFull (Z.shiftr chunk sh mod 256)).
  fold (byte_ok (Z.shiftr chunk sh mod 256) (last mod 16)).
  rewrite orb_false_r.
  set (v := Z.shiftr chunk sh mod 256).
  assert (Hrest : negb (sh =? 0) && negb (Z.land (Z.land chunk (Z.shiftl 1 sh - 1)) hi8 =? 0)
                  = negb (Z.land (Z.land chunk (Z.shiftl 1 sh - 1)) hi8 =? 0)).
  { destruct (Z.eqb_spec sh 0) as [->|]; [|done]. change (Z.shiftl 1 0 - 1) with 0. by rewrite Z.land_0_r, Z.land_0_l. }
  rewrite Hrest. destruct (negb (Z.land (Z.land chunk (Z.shiftl 1 sh - 1)) hi8 =? 0)); cbn [orb]; [done|].
  rewrite badByte_ok, negative8_full. unfold byte_ok.
  destruct (weavecRtShadowFull v); [done|]. cbn [negb orb].
  by destruct (negb (weavecRtShadowPoison v) && (last mod 16 <? weavecRtShadowBytes v)).
Qed.

(** The constant test of every granule an access could touch lets only whole
    granules pass. *)
Lemma chunkFast_ok address width :
  0 <= address < 2 ^ s_bits s -> 0 < width <= 113 ->
  chunkFast s address width = false -> granules_ok s address width.
Proof.
  intros Ha Hw Hf. unfold chunkFast in Hf. rewrite shadowAddress_eq in Hf by done.
  set (reach := (15 + width + 15) / 16) in *.
  assert (Hr : 1 <= reach <= 8) by (subst reach; euclid).
  assert (Hcov : (address + width - 1) / 16 - address / 16 < reach) by (subst reach; euclid).
  clearbody reach.
  assert (Hall : forall i, 0 <= i < reach -> s_byte s (s_base s + address / 16 + i) < 128).
  { destruct (Z.leb_spec reach 2).
    - apply negb_false_iff, Z.eqb_eq in Hf.
      assert (Hm : hi8 mod 2 ^ (8 * reach) = hi_bits (Z.to_nat reach))
        by (assert (reach = 1 \/ reach = 2) as [->| ->] by lia; done).
      rewrite Hm in Hf. pose proof (proj1 (land_hi_bits_zero _ _) Hf) as Hz.
      intros i Hi. specialize (Hz i ltac:(lia)).
      by rewrite load_le_byte_at in Hz by (apply Hwf || lia).
    - apply negb_false_iff, Z.eqb_eq in Hf. rewrite Z.land_assoc in Hf.
      apply (proj1 (chunk_check (s_byte s) (s_base s + address / 16) reach (wf_bytes s Hwf) ltac:(lia))).
      destruct (Z.leb_spec 8 reach); [|exact Hf].
      assert (reach = 8) as -> by lia. exact Hf. }
  assert (Hg : forall g, address / 16 <= g <= (address + width - 1) / 16 ->
                         weavecRtShadowFull (gval s g) = true).
  { intros g Hg. apply Z.ltb_lt. specialize (Hall (g - address / 16) ltac:(lia)).
    unfold gval. by replace (s_base s + g) with (s_base s + address / 16 + (g - address / 16)) by lia. }
  split; [intros g Hr'; apply Hg; lia|]. apply full_byte_ok, Hg. euclid.
Qed.

Lemma chunkCheck_granules address width constant si slow :
  0 <= address < 2 ^ s_bits s -> 0 < width <= 113 -> slow <> [] ->
  chunkCheck s address width constant si false slow = [] <-> granules_ok s address width.
Proof.
  intros Ha Hw Hs. unfold chunkCheck.
  assert (He : chunkExact s address width si false slow = [] <-> granules_ok s address width).
  { rewrite chunkExact_granules by done.
    pose proof (quickOk_granules s address width Hwf Ha Hw) as Hq.
    destruct (weavecRtQuickOk s address width); [by split; intros; [apply Hq|]|].
    split; [done|]. intros Hg. by apply Hq in Hg. }
  destruct (constant && negb (width =? 0) && (width <=? 113)); [|done].
  rewrite orb_false_r. destruct (chunkFast s address width) eqn:E; [done|].
  split; [|done]. intros _. by apply chunkFast_ok.
Qed.

Lemma if_both_nil {A} (b c : bool) (l : list A) :
  l <> [] -> (if b then if c then l else [] else []) = [] <-> b && c = false.
Proof. by destruct b, c. Qed.

Lemma lxor_shiftr_zero a b : (Z.shiftr (Z.lxor a b) 4 =? 0) = (a / 16 =? b / 16).
Proof.
  rewrite Z.shiftr_lxor, !shiftr_4.
  destruct (Z.eqb_spec (a / 16) (b / 16)) as [->|Hne]; [by rewrite Z.lxor_nilpotent|].
  apply Z.eqb_neq. intros Hx. by apply Z.lxor_eq in Hx.
Qed.

Lemma lor_negative8 a b : 0 <= a < 256 -> 0 <= b < 256 -> negative8 (Z.lor a b) = negative8 a || negative8 b.
Proof.
  intros Ha Hb. assert (Hn : forall x, 0 <= x < 256 -> negative8 x = Z.testbit x 7).
  { intros x Hx. unfold negative8. rewrite Z.testbit_eqb by lia. change (2 ^ 7) with 128.
    destruct (Z.leb_spec 128 x); symmetry; [apply Z.eqb_eq|apply Z.eqb_neq]; euclid. }
  assert (Hor : 0 <= Z.lor a b < 256).
  { pose proof (proj2 (Z.lor_nonneg a b) ltac:(lia)). split; [done|]. change 256 with (2 ^ 8).
    destruct (Z.eq_dec (Z.lor a b) 0) as [->|]; [lia|]. apply Z.log2_lt_pow2; [lia|].
    rewrite Z.log2_lor by lia.
    assert (Hl : forall x, 0 <= x < 256 -> Z.log2 x < 8).
    { intros x Hx. destruct (Z.eq_dec x 0) as [->|]; [done|]. apply Z.log2_lt_pow2; lia. }
    apply Z.max_lub_lt; by apply Hl. }
  rewrite !Hn by done. apply Z.lor_spec.
Qed.

(** The fast test of the two-granule form. *)
Lemma pair_fast little address width :
  0 <= address -> 0 < width <= 16 -> address + width <= 2 ^ s_bits s ->
  (if little : bool then negb (Z.land (load_le (s_byte s) (shadowAddress s address) 2) 0x8080 =? 0)
   else negative8 (Z.lor (shadowByte s address) (shadowByte s (address + (width - 1))))) = false ->
  granules_ok s address width.
Proof.
  intros Ha Hw Hend Hf.
  assert (Hg : forall g, address / 16 <= g <= (address + width - 1) / 16 ->
                         weavecRtShadowFull (gval s g) = true).
  { destruct little.
    - apply negb_false_iff, Z.eqb_eq in Hf. change 0x8080 with (hi_bits 2) in Hf.
      pose proof (proj1 (land_hi_bits_zero _ _) Hf) as Hz. rewrite shadowAddress_eq in Hz by lia.
      intros g Hg. specialize (Hz (g - address / 16) ltac:(euclid)).
      rewrite load_le_byte_at in Hz by (apply Hwf || euclid). apply Z.ltb_lt. unfold gval.
      by replace (s_base s + g) with (s_base s + address / 16 + (g - address / 16)) by lia.
    - rewrite !shadowByte_eq in Hf by lia.
      rewrite lor_negative8 in Hf by apply Hwf. apply orb_false_iff in Hf as [H1 H2].
      rewrite negative8_full in H1, H2. apply negb_false_iff in H1, H2.
      replace (address + (width - 1)) with (address + width - 1) in H2 by lia.
      intros g Hg.
      assert (g = address / 16 \/ g = (address + width - 1) / 16) as [->| ->] by euclid; done. }
  split; [intros g Hr; apply Hg; lia|]. apply full_byte_ok, Hg. euclid.
Qed.

Lemma emitPair_granules little address width si members :
  0 <= address -> 0 < width <= 16 -> address + width <= 2 ^ s_bits s ->
  emitPair s little address width si false members = [] <-> granules_ok s address width.
Proof.
  intros Ha Hw Hend. pose proof (window_room s Hwf). pose proof (window_split s Hwf).
  unfold emitPair. unfold add64. rewrite wrap64_small by lia. cbn [app].
  rewrite orb_false_r, if_both_nil by apply slowGuard_nonempty.
  rewrite lxor_shiftr_zero, land_15, badByte_ok.
  pose proof (pair_fast little address width Ha Hw Hend) as Hfast.
  set (fast := if little then _ else _) in *. rewrite !shadowByte_eq by lia.
  replace (address + (width - 1)) with (address + width - 1) by lia.
  destruct fast; cbn [andb].
  2:{ split; [intros _; by apply Hfast|done]. }
  clear Hfast. rewrite orb_false_iff, negb_false_iff, negative8_full. unfold granules_ok.
  destruct (Z.eqb_spec (address / 16) ((address + width - 1) / 16)) as [He|Hne]; cbn [negb andb].
  - split; [intros [_ Hl]; split; [intros g; lia|done]|by intros [_ ?]].
  - assert (Hs : (address + width - 1) / 16 = address / 16 + 1) by euclid.
    rewrite negb_false_iff. split; intros [H1 H2]; (split; [|done]).
    + intros g Hg. by replace g with (address / 16) by lia.
    + apply H1. lia.
Qed.

(** An access the one-granule form guards stays in its granule. *)
Lemma one_granule address width alignment :
  0 <= address -> oneGranule width alignment = true ->
  (exists k, alignment = 2 ^ k /\ 0 <= k) -> address mod alignment = 0 ->
  0 < width /\ address mod 16 + (width - 1) < 16.
Proof.
  intros Ha Ho (k & -> & Hk) Hal. unfold oneGranule, isPowerOf2 in Ho. bool_hyps.
  assert (Hwc : width = 1 \/ width = 2 \/ width = 4 \/ width = 8 \/ width = 16).
  { assert (Hw : 1 <= width < 1 + Z.of_nat 16) by lia.
    pose proof (all_from_spec 1 16 (fun w => negb (Z.land w (w - 1) =? 0) || (w =? 1) || (w =? 2)
      || (w =? 4) || (w =? 8) || (w =? 16)) width eq_refl Hw) as Hc.
    cbv beta in Hc. match goal with Hz : Z.land width _ = 0 |- _ => rewrite Hz in Hc end. cbn [negb orb Z.eqb] in Hc.
    rewrite !orb_true_iff, !Z.eqb_eq in Hc. lia. }
  split; [lia|].
  assert (Hd : (width | 2 ^ k)).
  { assert (Hlog : width = 2 ^ Z.log2 width)
      by (destruct Hwc as [->|[->|[->|[->| ->]]]]; done).
    exists (2 ^ (k - Z.log2 width)). rewrite Hlog at 2. rewrite <- Z.pow_add_r; [f_equal; lia| |].
    - assert (Z.log2 width <= Z.log2 (2 ^ k)) by (apply Z.log2_le_mono; lia).
      rewrite Z.log2_pow2 in * by lia. lia.
    - apply Z.log2_nonneg. }
  assert (Hdiv : (width | address)).
  { apply Z.divide_trans with (2 ^ k); [done|]. apply Z.mod_divide; [lia|done]. }
  destruct Hdiv as [q ->]. destruct Hwc as [->|[->|[->|[->| ->]]]]; euclid.
Qed.

Lemma single_granules address width :
  0 <= address < 2 ^ s_bits s -> 0 < width -> address mod 16 + (width - 1) < 16 ->
  granules_ok s address width <-> byte_ok (gval s (address / 16)) (address mod 16 + (width - 1)) = true.
Proof.
  intros Ha Hw Hs. unfold granules_ok.
  replace ((address + width - 1) / 16) with (address / 16) by euclid.
  replace ((address + width - 1) mod 16) with (address mod 16 + (width - 1)) by euclid.
  split; [by intros [_ ?]|]. intros ?. split; [intros g; lia|done].
Qed.

Lemma emitSingle_granules address width si members :
  0 <= address < 2 ^ s_bits s -> 0 < width -> address mod 16 + (width - 1) < 16 ->
  emitSingle s address width si false members None = [] <-> granules_ok s address width.
Proof.
  intros Ha Hw Hs. rewrite single_granules by done. unfold emitSingle. cbn [app andb].
  rewrite orb_false_r, if_both_nil by apply slowGuard_nonempty.
  rewrite land_15, (Z.mod_small (_ + _)) by euclid. rewrite shadowByte_eq by done.
  by rewrite badByte_ok, negb_false_iff.
Qed.

(** A null base always calls. *)
Lemma chunkCheck_null address width constant si slow : chunkCheck s address width constant si true slow <> [].
Proof.
  assert (He : chunkExact s address width si true slow <> []) by (unfold chunkExact; rewrite orb_true_r; done).
  unfold chunkCheck. rewrite orb_true_r. by destruct (constant && negb (width =? 0) && (width <=? 113)).
Qed.

Lemma emitPair_null little address width si members : emitPair s little address width si true members <> [].
Proof. unfold emitPair. by rewrite orb_true_r. Qed.

(** What a root's byte is loaded as is one of the granule's values only when
    both are whole. *)
Lemma loaded_equal v b : 0 <= v < 256 -> 0 <= b < 256 -> v = sign_extended b <-> v = b /\ v < 128.
Proof. intros Hv Hb. unfold sign_extended. destruct (Z.ltb_spec b 128); lia. Qed.

Lemma colorCheck_nil address width si root :
  0 <= address < 2 ^ s_bits s -> r_shadow root = sign_extended (rootByte root) ->
  colorCheck s address width si root = [] <-> gval s (address / 16) = rootByte root.
Proof.
  intros Ha Hr. assert (Hv : 0 <= gval s (address / 16) < 256) by apply Hwf.
  assert (Hb : 0 <= rootByte root < 256) by (apply Z.mod_pos_bound; lia).
  pose proof (loaded_equal _ _ Hv Hb) as Hl. unfold colorCheck. rewrite shadowByte_eq, Hr by done.
  destruct (Z.eqb_spec (gval s (address / 16)) (sign_extended (rootByte root))) as [E|Hne]; cbn [negb andb].
  - split; [|done]. intros _. by apply Hl.
  - destruct (Z.eqb_spec (gval s (address / 16)) (rootByte root)); by cbn.
Qed.

(** Equal colors; of a partial granule only the class is kept. *)
Definition sameColor (v w : Z) : Prop :=
  v = w \/ (weavecRtShadowFull v = false \/ weavecRtShadowFull w = false) /\ weavecRtShadowClass v = weavecRtShadowClass w.

(** What [RootCheck] promises: the i32 is the root's shadow byte, sign-extended;
    the first page, which a null root lies in, is poison. *)
Definition root_ok (nullBase : option Z) (root : RootCheck) : Prop :=
  r_shadow root = sign_extended (rootByte root) /\ (r_isNullBase root = true -> nullBase = Some 0 -> 0xF0 <= rootByte root).

(** What the guard's form compares of the colors. *)
Definition colorFits (root : RootCheck) (one : bool) (members : list Member) (v : Z) : Prop :=
  if one && negb (bool_decide (is_Some (r_monitorSite root))) && bool_decide (members = [])
  then sameColor v (rootByte root) else v = rootByte root.

Lemma differs_sameColor v w :
  (negb (negative8 v) && negb (negative8 w) && negb (v =? w)) || negb (weavecRtShadowClass v =? weavecRtShadowClass w) = false
  <-> sameColor v w.
Proof.
  rewrite !negative8_full, !negb_involutive. unfold sameColor. destruct (Z.eqb_spec v w) as [->|Hne].
  - rewrite Z.eqb_refl, !andb_false_r. split; [by left|done].
  - rewrite andb_true_r. rewrite orb_false_iff, andb_false_iff, negb_false_iff, Z.eqb_eq. tauto.
Qed.

Lemma app_nil_iff {A} (l l' : list A) : l ++ l' = [] <-> l = [] /\ l' = [].
Proof. split; [apply app_eq_nil|by intros [-> ->]]. Qed.

Lemma both_pass {A} (ok : bool) (l l' : list A) (v w : Z) : l <> [] -> l' <> [] ->
  (if negb ok then l else []) ++ (if negb (v =? w) then l' else []) = [] <-> ok = true /\ v = w.
Proof.
  intros Hl Hl'. destruct ok; cbn [negb app]; [|destruct l; [done|by split; [|intros [? _]]]].
  destruct (Z.eqb_spec v w); cbn [negb]; [by split|]. by split; [|intros [_ ?]].
Qed.

Lemma emitSingle_root address width si nullBase members root :
  0 <= address < 2 ^ s_bits s -> 0 < width -> address mod 16 + (width - 1) < 16 -> root_ok nullBase root ->
  let null := match nullBase with Some base => base =? 0 | None => false end in
  emitSingle s address width si null members (Some root) = []
  <-> null = false /\ granules_ok s address width /\ colorFits root true members (gval s (address / 16)).
Proof.
  intros Ha Hw Hs [Hr Hnull]. cbv zeta. rewrite single_granules by done. unfold emitSingle, colorFits.
  rewrite land_15, (Z.mod_small (_ + _)) by euclid. rewrite shadowByte_eq, Hr, badByte_ok by done.
  assert (Hv : 0 <= gval s (address / 16) < 256) by apply Hwf. assert (Hb : 0 <= rootByte root < 256) by (apply Z.mod_pos_bound; lia).
  pose proof (loaded_equal _ _ Hv Hb) as Hl. generalize dependent (gval s (address / 16)). intros v Hv Hl.
  destruct (match nullBase with Some base => base =? 0 | None => false end) eqn:En.
  - assert (H0 : nullBase = Some 0) by (destruct nullBase; [f_equal; lia|done]). split; [|by intros [? _]].
    assert (Hne : r_isNullBase root = true -> (v =? sign_extended (rootByte root)) = false).
    { intros Hi. apply Z.eqb_neq. intros [-> ?]%Hl. specialize (Hnull Hi H0). lia. }
    destruct (r_isNullBase root); [rewrite Hne by done|rewrite orb_true_r]; done.
  - cbn [andb app]. rewrite orb_false_r. destruct (Z.eqb_spec v (sign_extended (rootByte root))) as [E|E]; cbn [negb].
    + apply Hl in E as [-> Hlt]. split; [intros _; split; [done|]; split; [apply full_byte_ok; unfold weavecRtShadowFull; lia|]|done].
      destruct (_ && _); [by left|done].
    + destruct (r_monitorSite root) as [mon|]; cbn [is_Some_dec bool_decide decide_rel negb andb];
        [rewrite both_pass by (apply slowGuard_nonempty || done); tauto|].
      destruct members as [|m ms]; [|rewrite bool_decide_false, both_pass by (apply slowGuard_nonempty || done); tauto].
      rewrite bool_decide_true, if_nil, orb_false_iff, negb_false_iff, differs_sameColor by done. tauto.
Qed.

(** C4: an emitted guard of constant size calls nothing exactly when it is of no
    bytes, or of up to 113 (16 on a big-endian target), the base it tests is
    not null, every byte of the access is addressable, and, for a guard with a
    root, the first granule has the root's color (of a partial granule the
    one-granule form compares the class); else it calls the runtime. *)
Theorem inline_exact little address width alignment si nullBase members root :
  0 <= address -> 0 <= width -> address + width <= 2 ^ s_bits s ->
  (exists k, alignment = 2 ^ k /\ 0 <= k) -> address mod alignment = 0 ->
  (forall r, root = Some r -> root_ok nullBase r) ->
  emitGuard s little address width alignment si nullBase members root = []
  <-> width = 0
      \/ width <= (if little : bool then 113 else 16) /\ nullBase <> Some 0 /\ range_ok s address width
         /\ (forall r, root = Some r -> colorFits r (oneGranule width alignment) members (gval s (address / 16))).
Proof.
  intros Ha Hw Hend Hk Hal Hroot. unfold emitGuard. destruct (Z.eqb_spec width 0) as [->|Hne]; [by split; [left|]|].
  set (null := match nullBase with Some base => base =? 0 | None => false end).
  assert (Hn : nullBase <> Some 0 <-> null = false).
  { subst null. destruct nullBase as [q|]; [|done]. rewrite Z.eqb_neq. split; [intros Hq ->; by apply Hq|by intros Hq [= ->]]. }
  rewrite Hn. destruct ((113 <? width) || (negb little && (16 <? width))) eqn:Ewide.
  { split.
    - intros Hnil. exfalso. apply app_eq_nil in Hnil as [_ Hnil]. by destruct members.
    - intros [?|[Hle _]]; [done|]. exfalso. destruct little; cbn in Ewide; lia. }
  assert (Hle : width <= (if little : bool then 113 else 16)) by (destruct little; cbn in Ewide; lia).
  rewrite range_ok_granules by (done || destruct little; lia). destruct (oneGranule width alignment) eqn:Eo.
  - destruct (one_granule address width alignment Ha Eo Hk Hal). replace (match root with Some _ => [] | None => [] end) with (@nil call) by by destruct root.
    cbn [app]. destruct root as [r|].
    + subst null. rewrite emitSingle_root by (lia || by apply Hroot). split; [intros (? & ? & ?); right; split_and!; try done; by intros r' [= <-]|].
      intros [?|(_ & ? & ? & Hc)]; [done|]. split_and!; try done. by apply Hc.
    + destruct null; [|rewrite emitSingle_granules by lia; intuition (done || lia)]. split; [|intros [?|(_ & ? & _)]; done].
      unfold emitSingle. by rewrite orb_true_r.
  - assert (Hcolor : match root with Some r => colorCheck s address width si r | None => [] end = []
                     <-> forall r, root = Some r -> colorFits r false members (gval s (address / 16))).
    { destruct root as [r|]; [|by split]. rewrite colorCheck_nil by (lia || by apply Hroot). unfold colorFits. cbn [andb].
      split; [by intros ? r' [= <-]|auto]. }
    rewrite app_nil_iff, Hcolor. clear Hcolor.
    assert (Hbytes : (if width <=? 16 then emitPair s little address width si null members
                      else chunkCheck s address width true si null (slowGuard address width si members)) = []
                     <-> null = false /\ granules_ok s address width).
    { destruct null.
      - split; [|by intros [? _]]. destruct (width <=? 16); intros Hnil; [by apply emitPair_null in Hnil|by apply chunkCheck_null in Hnil].
      - destruct (Z.leb_spec width 16); [rewrite emitPair_granules by lia|rewrite chunkCheck_granules by (apply slowGuard_nonempty || destruct little; lia)]; tauto. }
    rewrite Hbytes. intuition (done || lia).
Qed.

(** A guard of a run-time length calls nothing exactly when the length is
    1 to 113 and every byte is addressable; else the runtime decides. *)
Theorem inline_range_exact address bytes si :
  0 <= address -> 0 <= bytes < 2 ^ 64 -> address + bytes <= 2 ^ s_bits s ->
  emitRange s true address bytes si = []
  <-> 0 < bytes <= 113 /\ range_ok s address bytes.
Proof.
  intros Ha Hb Hend. unfold emitRange, sub64. cbn [negb].
  destruct (Z.eq_dec bytes 0) as [->|Hne].
  { change (wrap64 (0 - 1) <? 113) with false. split; [done|lia]. }
  rewrite wrap64_small by lia.
  destruct (Z.ltb_spec (bytes - 1) 113).
  - rewrite chunkCheck_granules by (done || lia). rewrite range_ok_granules by (done || lia).
    split; [intros; split; [lia|done]|by intros [_ ?]].
  - split; [done|lia].
Qed.
End Exact.

(** ** The color test is sound *)

Section Jump.
Context {T : Thread} {H : HeapView} (s : shadow) (Hwf : shadow_wf s).

Lemma not_poison_class v w st address root here :
  gs_shadow st = s -> granule_value s address = v ->
  v = w \/ ((negb (weavecRtShadowFull v) || negb (weavecRtShadowFull w) = true)
            /\ weavecRtShadowClass v = weavecRtShadowClass w) ->
  jumpKind st address root w here = None.
Proof.
  intros Es Ev Hc. unfold jumpKind. rewrite Es, Ev. case_match; [done|].
  destruct (isPoison v || isPoison w); [done|].
  destruct (Z.eqb_spec v w) as [|Hne]; cbn [orb]; [done|].
  destruct Hc as [|[Hf Hcl]]; [done|]. by rewrite Hf, Hcl, Z.eqb_refl.
Qed.

(** When the one-granule check of an access with a root stays on its fast
    path, the runtime would have found nothing: every byte of the access is
    addressable and its color is no failure, whatever the heap and the
    stack. *)
Theorem inline_jump_sound st address width alignment si root here :
  gs_shadow st = s -> 0 <= address -> address + width <= 2 ^ s_bits s ->
  oneGranule width alignment = true ->
  (exists k, alignment = 2 ^ k /\ 0 <= k) -> address mod alignment = 0 ->
  r_monitorSite root = None -> 0 <= rootByte root < 256 ->
  r_shadow root = sign_extended (rootByte root) ->
  emitGuard s true address width alignment si None [] (Some root) = [] ->
  range_ok s address width /\ jumpKind st address (r_root root) (rootByte root) here = None.
Proof.
  intros Es Ha Hend Ho Hk Hal Hm Hrb Hsh He.
  destruct (one_granule address width alignment Ha Ho Hk Hal) as [Hw Hin].
  rewrite range_ok_granules by (done || lia). rewrite single_granules by (done || lia).
  assert (Hg : granule_value s address = gval s (address / 16))
    by (apply granule_value_gval; (done || lia)).
  assert (Hv : 0 <= gval s (address / 16) < 256) by apply Hwf.
  unfold emitGuard in He. rewrite Ho in He.
  assert (Hw16 : width <= 16) by euclid.
  rewrite (proj2 (Z.eqb_neq width 0)), (proj2 (Z.ltb_ge 113 width)) in He by lia. cbn [app orb andb negb] in He.
  unfold emitSingle in He. rewrite Hm in He. cbn [andb] in He. rewrite orb_false_r in He.
  rewrite shadowByte_eq, land_15, (Z.mod_small (_ + _)) in He by (done || euclid || lia).
  set (v := gval s (address / 16)) in *. set (last := address mod 16 + (width - 1)) in *.
  rewrite badByte_ok in He.
  destruct (Z.eqb_spec v (r_shadow root)) as [Heq|Hne]; cbn [negb] in He.
  - assert (Hvr : v = rootByte root /\ v < 128).
    { rewrite Hsh in Heq. unfold sign_extended in Heq.
      destruct (Z.ltb_spec (rootByte root) 128); lia. }
    destruct Hvr as [Hvr Hlt]. split; [by apply full_byte_ok, Z.ltb_lt|].
    eapply not_poison_class; [exact Es|exact Hg|]. by left.
  - cbn [app] in He.
    destruct (negb (byte_ok v last)) eqn:Ebad; cbn [orb] in He; [done|].
    apply negb_false_iff in Ebad. split; [done|].
    eapply not_poison_class; [exact Es|exact Hg|]. rewrite !negative8_full, !negb_involutive in He.
    destruct (Z.eqb_spec v (rootByte root)) as [|Hne2]; [by left|]. right.
    cbn [negb] in He. rewrite andb_true_r in He.
    destruct (weavecRtShadowFull v), (weavecRtShadowFull (rootByte root)); cbn [andb orb negb] in He;
      (split; [done|]);
      destruct (Z.eqb_spec (weavecRtShadowClass v) (weavecRtShadowClass (rootByte root))); done.
Qed.
End Jump.
