(* ===== verification/Classes.v ===== *)
(** * Size classes and slots

    [runtime/weavec_alloc.c] and the arena's part of [runtime/weavec_rt.h]:
    the size classes ([classFor], [powerClass], [buildClasses]), the arena's
    geometry ([reserve]), and the slot an address lies in ([slotOf], a
    multiplication in place of a division), its color and its object's
    bounds.

    The arena is the record [heap] of [struct __weavec_rt_heap_t]; [shift] is
    31, or 30 where the address space is short. *)

From S2P Require Import Prelude Shadow.
Local Open Scope Z_scope.

(** ** Classes *)

Definition WeavecRtClassCount : Z := 100.
Definition WeavecRtRegionCount : Z := 160.
Definition WeavecRtSmallClasses : Z := 8.
Definition WeavecRtMaxClassShift : Z := 30.

Definition wrap32 (z : Z) : Z := z mod 2 ^ 32.

Definition classFor (size : Z) : Z :=
  let need := add64 size 1 in
  if need <=? 128 then wrap32 (sub64 need 1 / 16)
  else if Z.shiftl 1 WeavecRtMaxClassShift <? need then WeavecRtClassCount
  else
    let k := Z.log2 (need - 1) - 2 in
    let m := Z.shiftr (need - 1) k + 1 in
    WeavecRtSmallClasses + 4 * (k - 5) + (m - 5).

Definition powerClass (bytes : Z) : Z := classFor (bytes - 1).

Record size_class := mkClass { c_size : Z; c_magic : Z; c_shift : Z; c_capacity : Z }.

(** [while (m % 2 == 0 && m > 1)], from an [m] of at most 8. *)
Fixpoint normalize (fuel : nat) (m k : Z) : Z * Z :=
  match fuel with
  | O => (m, k)
  | S fuel' => if (m mod 2 =? 0) && (1 <? m) then normalize fuel' (m / 2) (k + 1) else (m, k)
  end.

Definition classUnits (index : Z) : Z * Z :=
  if index <? WeavecRtSmallClasses then (index + 1, 4)
  else (5 + (index - WeavecRtSmallClasses) mod 4, 5 + (index - WeavecRtSmallClasses) / 4).

Definition magicOf (m : Z) : Z := if m =? 1 then 0 else wrap32 ((2 ^ 32 + m - 1) / m).

Definition classEntry (shift index : Z) : size_class :=
  let '(m, k) := classUnits index in
  let '(m, k) := normalize 3 m k in
  let size := wrap32 (Z.shiftl m k) in
  mkClass size (magicOf m) k (wrap32 (Z.shiftl 1 shift / size)).

(** The entries built before the first class larger than a quarter of a
    region. *)
Fixpoint buildFrom (fuel : nat) (shift index : Z) : list size_class :=
  match fuel with
  | O => []
  | S fuel' =>
    let entry := classEntry shift index in
    if Z.shiftl 1 (shift - 2) <? c_size entry then [] else entry :: buildFrom fuel' shift (index + 1)
  end.

Definition buildClasses (shift : Z) : list size_class := buildFrom (Z.to_nat WeavecRtClassCount) shift 0.

(** ** The arena *)

Record heap := mkHeap {
  h_base : Z;
  h_bytes : Z;
  h_meta : Z;
  h_shift : Z;
  h_classes : Z;
  h_regions : Z;
  h_table : list size_class
}.

Definition noClass : size_class := mkClass 0 0 0 0.

Definition entryOf (h : heap) (region : Z) : size_class := nth (Z.to_nat region) (h_table h) noClass.

(** A region no class has taken has one slot, never allocated. *)
Definition spare (shift : Z) : size_class := mkClass (Z.shiftl 1 (shift - 1)) 0 shift 0.

(** [reserve]: the arena in the mapping at [map]. *)
Definition reserve (shift map : Z) : heap :=
  let classes := buildClasses shift in
  let data := Z.shiftl WeavecRtRegionCount shift in
  let align := Z.shiftl 1 shift in
  let start := Z.ldiff (add64 (map + WeavecRtShadowGranule) (align - 1)) (align - 1) in
  mkHeap start data (start + data) shift (Z.of_nat (length classes)) (Z.of_nat (length classes))
         (classes ++ replicate (Z.to_nat WeavecRtRegionCount - length classes) (spare shift)).

(** The bytes [reserve] maps. *)
Definition reserveTotal (shift : Z) : Z :=
  Z.shiftl WeavecRtRegionCount shift + Z.shiftl WeavecRtRegionCount (shift - 2) + 2 * Z.shiftl 1 shift.

(** [takeSpare]'s change of the table: a class's region. *)
Definition giveRegion (h : heap) (c : Z) : heap :=
  mkHeap (h_base h) (h_bytes h) (h_meta h) (h_shift h) (h_classes h) (h_regions h + 1)
         (<[Z.to_nat (h_regions h) := entryOf h c]> (h_table h)).

Section Slots.
Context (h : heap).

Definition regionStart (region : Z) : Z := h_base h + Z.shiftl region (h_shift h).

Definition slotWords (region : Z) : Z := h_meta h + Z.shiftl region (h_shift h - 2).

Definition inArena (address : Z) : bool := sub64 address (h_base h) <? h_bytes h.

Record SlotRef := mkSlot { ref_region : Z; ref_slot : Z; ref_base : Z }.

Definition slotOf (address : Z) : SlotRef :=
  let offset := sub64 address (h_base h) in
  let region := wrap32 (Z.shiftr offset (h_shift h)) in
  let entry := entryOf h region in
  let in_ := Z.land offset (Z.shiftl 1 (h_shift h) - 1) in
  let units := Z.shiftr in_ (c_shift entry) in
  let slot := if c_magic entry =? 0 then wrap32 units
              else wrap32 (Z.shiftr (wrap64 (units * c_magic entry)) 32) in
  mkSlot region slot (regionStart region + slot * c_size entry).

Definition weavecRtColorOfHeap (address : Z) : Z :=
  if negb (inArena address) then 0
  else
    let ref := slotOf address in
    weavecRtColor (add64 (ref_slot ref) (ref_region ref * 41)).

(** The loop of [allocate] over the power-of-two classes. *)
Fixpoint doubleUp (fuel : nat) (size bytes : Z) : Z :=
  match fuel with
  | O => bytes
  | S fuel' =>
    if (bytes <=? size) && (bytes <? Z.shiftl 1 WeavecRtMaxClassShift)
    then doubleUp fuel' size (Z.shiftl bytes 1) else bytes
  end.

(** The class an allocation takes a slot of; [None] is [EINVAL], and a class
    past the heap's is a block mapped on its own. *)
Definition chosenClass (size alignment : Z) : option Z :=
  if 16 <? alignment then
    if negb (Z.land alignment (alignment - 1) =? 0) then None
    else
      let bytes := doubleUp 31 size alignment in
      Some (if size <? bytes then powerClass bytes else WeavecRtClassCount)
  else Some (classFor size).
End Slots.

(** ** The classes *)

(** A class's slot size, of its index. *)
Definition classSize (index : Z) : Z :=
  let '(m, k) := classUnits index in m * 2 ^ k.

(** The divisor of a class's slot index: [m] units of [2^k] bytes. *)
Definition divides_by (e : size_class) (m : Z) : Prop :=
  (m = 1 \/ m = 3 \/ m = 5 \/ m = 7) /\ 4 <= c_shift e <= 30
  /\ c_size e = m * 2 ^ c_shift e /\ c_magic e = magicOf m.

Definition indices : list Z := map Z.of_nat (seq 0 100).

Lemma indices_in index : 0 <= index < 100 -> In index indices.
Proof.
  intros Hi. unfold indices. apply in_map_iff. exists (Z.to_nat index). split; [lia|].
  apply in_seq. lia.
Qed.

(** A decidable property of every class. *)
Lemma each_class (p : Z -> bool) index :
  forallb p indices = true -> 0 <= index < 100 -> p index = true.
Proof. intros Hp Hi. rewrite forallb_forall in Hp. by apply Hp, indices_in. Qed.

Definition entry_check (shift : Z) (index : Z) : bool :=
  let e := classEntry shift index in
  (c_size e =? classSize index)
  && (4 <=? c_shift e) && (c_shift e <=? 30)
  && existsb (fun m => (c_size e =? m * 2 ^ c_shift e) && (c_magic e =? magicOf m)) [1; 3; 5; 7]
  && (c_capacity e =? wrap32 (2 ^ shift / c_size e)).

Lemma classEntry_spec shift index :
  shift = 30 \/ shift = 31 -> 0 <= index < 100 ->
  c_size (classEntry shift index) = classSize index
  /\ (exists m, divides_by (classEntry shift index) m)
  /\ c_capacity (classEntry shift index) = wrap32 (2 ^ shift / classSize index).
Proof.
  intros Hs Hi.
  assert (Hc : entry_check shift index = true).
  { apply each_class; [|done]. destruct Hs as [->| ->]; vm_compute; reflexivity. }
  unfold entry_check in Hc. bool_hyps.
  match goal with H : existsb _ _ = true |- _ => apply existsb_exists in H as (m & Hm & He) end.
  bool_hyps. split_and!; [done| |congruence]. exists m. unfold divides_by. split_and!; try done.
  cbn in Hm. intuition.
Qed.

Lemma classSize_step index : 0 <= index < 99 -> classSize index < classSize (index + 1).
Proof.
  intros Hi. assert (Hc : forallb (fun i => (i =? 99) || (classSize i <? classSize (i + 1))) indices = true)
    by (vm_compute; reflexivity).
  pose proof (each_class _ index Hc ltac:(lia)) as H. cbv beta in H. apply orb_true_iff in H as [H|H]; bool_hyps; lia.
Qed.

Lemma classSize_mono a b : 0 <= a < b -> b < 100 -> classSize a < classSize b.
Proof.
  intros Ha Hb. remember (Z.to_nat (b - a)) as n eqn:Hn. revert b Ha Hb Hn.
  induction n as [|n IH]; intros b Ha Hb Hn; [lia|].
  pose proof (classSize_step (b - 1) ltac:(lia)) as Hs. replace (b - 1 + 1) with b in Hs by lia.
  destruct (Z.eq_dec a (b - 1)) as [->|Hne]; [done|]. specialize (IH (b - 1) ltac:(lia) ltac:(lia) ltac:(lia)). lia.
Qed.

(** The class of a size, and the size of the class before it. *)
Lemma classFor_bounds size :
  0 <= size < 2 ^ 30 ->
  0 <= classFor size < 100 /\ size < classSize (classFor size)
  /\ (0 < classFor size -> classSize (classFor size - 1) <= size).
Proof.
  intros Hs. unfold classFor, add64. rewrite wrap64_small by lia.
  destruct (Z.leb_spec (size + 1) 128) as [Hle|Hgt].
  - unfold sub64. rewrite wrap64_small by lia. unfold wrap32. rewrite Z.mod_small by euclid.
    assert (Hc : forallb (fun c => (128 <=? 16 * c) || (classSize c =? 16 * (c + 1))) indices = true)
      by (vm_compute; reflexivity).
    assert (Hsz : forall c, 0 <= c < 8 -> classSize c = 16 * (c + 1)).
    { intros c Hcc. pose proof (each_class _ c Hc ltac:(lia)) as H. cbv beta in H.
      apply orb_true_iff in H as [H|H]; bool_hyps; lia. }
    replace (size + 1 - 1) with size by lia.
    split; [euclid|]. split; [rewrite Hsz by euclid; euclid|]. intros Hp. rewrite Hsz by euclid. euclid.
  - change (Z.shiftl 1 WeavecRtMaxClassShift) with (2 ^ 30).
    rewrite (proj2 (Z.ltb_ge (2 ^ 30) _)) by lia. replace (size + 1 - 1) with size by lia.
    pose proof (Z.log2_spec size ltac:(lia)) as [Hl1 Hl2].
    assert (Hl : 7 <= Z.log2 size < 30).
    { split; [apply Z.log2_le_pow2; lia|apply Z.log2_lt_pow2; lia]. }
    set (l := Z.log2 size) in *. set (k := l - 2). rewrite Z.shiftr_div_pow2 by (subst k; lia).
    assert (Hpow : 2 ^ l = 4 * 2 ^ k).
    { subst k. change 4 with (2 ^ 2). rewrite <- Z.pow_add_r by lia. f_equal. lia. }
    rewrite Z.pow_succ_r, Hpow in Hl2 by lia. rewrite Hpow in Hl1.
    assert (Hk : 5 <= k < 28) by (subst k; lia). assert (0 < 2 ^ k) by lia.
    pose proof (Z.div_mod size (2 ^ k) ltac:(lia)) as Hd.
    pose proof (Z.mod_pos_bound size (2 ^ k) ltac:(lia)) as Hm.
    set (q := size / 2 ^ k) in *. assert (Hq : 4 <= q < 8) by nia.
    unfold WeavecRtSmallClasses.
    assert (Hsz : forall m, 5 <= m <= 8 -> classSize (8 + 4 * (k - 5) + (m - 5)) = m * 2 ^ k).
    { intros m Hmm. unfold classSize, classUnits, WeavecRtSmallClasses.
      rewrite (proj2 (Z.ltb_ge _ _)) by lia.
      replace (8 + 4 * (k - 5) + (m - 5) - 8) with ((m - 5) + (k - 5) * 4) by lia.
      rewrite Z.mod_add, Z.div_add, Z.mod_small, Z.div_small by lia. f_equal; [lia|]. f_equal. lia. }
    split; [lia|]. split; [rewrite Hsz by lia; lia|]. intros _.
    destruct (Z.eq_dec q 4) as [Hq4|Hq4].
    + rewrite Hq4. replace (8 + 4 * (k - 5) + (4 + 1 - 5) - 1) with (8 + 4 * (k - 1 - 5) + (8 - 5)) by lia.
      destruct (Z.eq_dec k 5) as [->|Hk5]; [change (classSize _) with 128; rewrite Hq4 in Hd; lia|].
      assert (Hsz8 : classSize (8 + 4 * (k - 1 - 5) + (8 - 5)) = 8 * 2 ^ (k - 1)).
      { unfold classSize, classUnits, WeavecRtSmallClasses. rewrite (proj2 (Z.ltb_ge _ _)) by lia.
        replace (8 + 4 * (k - 1 - 5) + (8 - 5) - 8) with (3 + (k - 6) * 4) by lia.
        rewrite Z.mod_add, Z.div_add, Z.mod_small, Z.div_small by lia. f_equal. f_equal. lia. }
      rewrite Hsz8. assert (Hk2 : 2 ^ k = 2 * 2 ^ (k - 1)) by (rewrite <- Z.pow_succ_r by lia; f_equal; lia).
      rewrite Hq4 in Hd. lia.
    + replace (8 + 4 * (k - 5) + (q + 1 - 5) - 1) with (8 + 4 * (k - 5) + (q - 5)) by lia.
      rewrite Hsz by lia. nia.
Qed.

(** The class of a request, or none. *)
Lemma classFor_smallest size :
  0 <= size < 2 ^ 64 ->
  if size <? 2 ^ 30 then
    0 <= classFor size < 100 /\ size < classSize (classFor size)
    /\ forall c, 0 <= c < classFor size -> classSize c <= size
  else 100 <= classFor size.
Proof.
  intros Hs. destruct (Z.ltb_spec size (2 ^ 30)) as [Hlt|Hge].
  - destruct (classFor_bounds size ltac:(lia)) as (H1 & H2 & H3). split; [done|]. split; [done|].
    intros c Hc. destruct (Z.eq_dec c (classFor size - 1)) as [->|Hne]; [apply H3; lia|].
    pose proof (classSize_mono c (classFor size - 1) ltac:(lia) ltac:(lia)). specialize (H3 ltac:(lia)). lia.
  - unfold classFor, add64, sub64, wrap64. destruct (Z.eq_dec size (2 ^ 64 - 1)) as [->|Hne]; [vm_compute; discriminate|].
    rewrite (Z.mod_small (size + 1)) by lia. rewrite (proj2 (Z.leb_gt (size + 1) 128)) by lia.
    change (Z.shiftl 1 WeavecRtMaxClassShift) with (2 ^ 30). rewrite (proj2 (Z.ltb_lt (2 ^ 30) _)) by lia.
    unfold WeavecRtClassCount. lia.
Qed.

(** The class of a request below a gigabyte is the smallest whose slots
    are strictly larger than it (so that at least one byte behind every object
    belongs to none); every larger request, up to the largest [size_t], takes
    none. *)
Theorem classFor_exact size :
  0 <= size < 2 ^ 64 ->
  if size <? 2 ^ 30 then
    0 <= classFor size < 100 /\ size < classSize (classFor size)
    /\ forall c, 0 <= c < classFor size -> classSize c <= size
  else 100 <= classFor size.
Proof. apply classFor_smallest. Qed.

(** ** Slots *)

(** A region's entry: a class's, or a spare's. *)
Definition entry_ok (shift : Z) (e : size_class) : Prop :=
  ((exists m, divides_by e m) /\ 0 <= c_capacity e /\ c_capacity e * c_size e <= 2 ^ shift
   /\ c_size e <= 2 ^ (shift - 2))
  \/ e = spare shift.

(** What [reserve] and the regions taken since establish. *)
Record heap_ok (h : heap) : Prop := {
  ho_shift : h_shift h = 30 \/ h_shift h = 31;
  ho_base : 0 < h_base h /\ h_base h mod 2 ^ h_shift h = 0;
  ho_bytes : h_bytes h = 160 * 2 ^ h_shift h;
  ho_meta : h_meta h = h_base h + h_bytes h;
  ho_room : h_base h + 2 * h_bytes h < 2 ^ 63;
  ho_counts : 0 < h_classes h <= h_regions h /\ h_regions h <= 160;
  ho_length : length (h_table h) = 160%nat;
  ho_entries : Forall (entry_ok (h_shift h)) (h_table h);
  ho_classes : h_classes h <= 100
}.

Lemma buildFrom_spec fuel shift index :
  shift = 30 \/ shift = 31 -> 0 <= index -> index + Z.of_nat fuel <= 100 ->
  Forall (entry_ok shift) (buildFrom fuel shift index)
  /\ (length (buildFrom fuel shift index) <= fuel)%nat.
Proof.
  intros Hs. revert index. induction fuel as [|fuel IH]; intros index Hi Hf; cbn [buildFrom]; [by split|].
  destruct (Z.ltb_spec (Z.shiftl 1 (shift - 2)) (c_size (classEntry shift index))) as [Hlt|Hge].
  { split; [constructor|cbn; lia]. }
  destruct (IH (index + 1) ltac:(lia) ltac:(lia)) as [H1 H2]. split; [|cbn [length]; lia].
  constructor; [|done]. left.
  destruct (classEntry_spec shift index Hs ltac:(lia)) as (Hsz & (m & Hm) & Hcap).
  assert (Hsize : 16 <= classSize index).
  { destruct Hm as (Hm & Hk & He & _). rewrite <- Hsz, He. assert (2 ^ 4 <= 2 ^ c_shift (classEntry shift index)) by (apply Z.pow_le_mono_r; lia).
    lia. }
  assert (Hp : 0 < 2 ^ shift <= 2 ^ 31) by (destruct Hs as [->| ->]; lia).
  rewrite Z.shiftl_1_l, Hsz in Hge. rewrite Hcap, Hsz. unfold wrap32.
  assert (Hq : 0 <= 2 ^ shift / classSize index <= 2 ^ 31).
  { split; [apply Z.div_pos; lia|]. apply Z.div_le_upper_bound; nia. }
  rewrite Z.mod_small by lia. split; [eauto|]. split; [lia|]. split; [|done]. rewrite Z.mul_comm. apply Z.mul_div_le. lia.
Qed.

(** The arena [reserve] lays out in a mapping of its size. *)
Lemma reserve_ok shift map :
  shift = 30 \/ shift = 31 -> 0 < map -> map + reserveTotal shift < 2 ^ 62 ->
  heap_ok (reserve shift map)
  /\ map + WeavecRtShadowGranule <= h_base (reserve shift map)
  /\ h_base (reserve shift map) + h_bytes (reserve shift map)
     + Z.shiftl WeavecRtRegionCount (shift - 2) <= map + reserveTotal shift.
Proof.
  intros Hs Hm Htot.
  destruct (buildFrom_spec 100 shift 0 Hs ltac:(lia) ltac:(lia)) as [Hb Hbl].
  change (buildFrom 100 shift 0) with (buildClasses shift) in Hb, Hbl.
  assert (Hpos : (0 < length (buildClasses shift))%nat) by (destruct Hs as [->| ->]; vm_compute; lia).
  assert (Hbase : exists q, h_base (reserve shift map) = q * 2 ^ shift
                    /\ map + 16 <= q * 2 ^ shift < map + 16 + 2 ^ shift).
  { unfold reserve, reserveTotal in *. cbn [h_base]. rewrite !Z.shiftl_1_l in *.
    assert (H2 : 0 < 2 ^ shift <= 2 ^ 31) by (destruct Hs as [->| ->]; lia).
    rewrite !Z.shiftl_mul_pow2 in Htot by lia. unfold WeavecRtRegionCount in Htot.
    assert (0 < 2 ^ (shift - 2)) by (destruct Hs as [->| ->]; lia).
    change WeavecRtShadowGranule with 16. unfold add64. rewrite wrap64_small by lia.
    rewrite Z.ldiff_land, land_lnot_ones by lia.
    exists ((map + 16 + (2 ^ shift - 1)) / 2 ^ shift). split; [done|].
    pose proof (Z.div_mod (map + 16 + (2 ^ shift - 1)) (2 ^ shift) ltac:(lia)).
    pose proof (Z.mod_pos_bound (map + 16 + (2 ^ shift - 1)) (2 ^ shift) ltac:(lia)). lia. }
  destruct Hbase as (q & Hq & Hql).
  assert (Hp : 2 ^ shift = 4 * 2 ^ (shift - 2)).
  { change 4 with (2 ^ 2). rewrite <- Z.pow_add_r by lia. f_equal. lia. }
  assert (Hdata : h_bytes (reserve shift map) = 160 * 2 ^ shift).
  { cbn. rewrite Z.shiftl_mul_pow2 by lia. done. }
  unfold reserveTotal in *. rewrite Z.shiftl_1_l in *. rewrite !Z.shiftl_mul_pow2 in * by lia.
  unfold WeavecRtRegionCount, WeavecRtShadowGranule in *.
  assert (Hbig : 2 ^ 30 <= 2 ^ shift) by (apply Z.pow_le_mono_r; lia).
  assert (0 < 2 ^ (shift - 2)) by lia.
  split; [|rewrite Hq, Hdata; lia]. constructor.
  - exact Hs.
  - change (h_shift (reserve shift map)) with shift. rewrite Hq. split; [lia|apply Z_mod_mult].
  - exact Hdata.
  - cbn [reserve h_meta h_base h_bytes]. done.
  - lia.
  - cbn. lia.
  - cbn [reserve h_table]. rewrite length_app, length_replicate. unfold WeavecRtRegionCount. lia.
  - cbn [reserve h_table h_shift]. apply Forall_app. split; [done|].
    apply Forall_replicate. by right.
  - cbn [reserve h_classes]. lia.
Qed.

(** Multiplying by the rounded-up inverse divides. *)
Lemma magic_divides m u :
  m = 1 \/ m = 3 \/ m = 5 \/ m = 7 -> 0 <= u < 2 ^ 28 ->
  (if magicOf m =? 0 then wrap32 u else wrap32 (Z.shiftr (wrap64 (u * magicOf m)) 32)) = u / m.
Proof.
  intros Hm Hu. unfold wrap32. rewrite Z.shiftr_div_pow2 by lia.
  destruct Hm as [->|[->|[->| ->]]].
  - change (magicOf 1 =? 0) with true. cbv iota. rewrite Z.div_1_r. apply Z.mod_small. lia.
  - change (magicOf 3) with 1431655766. cbn [Z.eqb]. rewrite wrap64_small by lia. euclid.
  - change (magicOf 5) with 858993460. cbn [Z.eqb]. rewrite wrap64_small by lia. euclid.
  - change (magicOf 7) with 613566757. cbn [Z.eqb]. rewrite wrap64_small by lia. euclid.
Qed.

Section SlotFacts.
Context (h : heap) (Hh : heap_ok h).

Lemma shift_size : 2 ^ 30 <= 2 ^ h_shift h <= 2 ^ 31.
Proof. destruct (ho_shift h Hh) as [->| ->]; lia. Qed.

Lemma entryOf_ok region : 0 <= region < 160 -> entry_ok (h_shift h) (entryOf h region).
Proof.
  intros Hr. unfold entryOf. pose proof (ho_entries h Hh) as He. rewrite List.Forall_forall in He.
  apply He, nth_In. rewrite (ho_length h Hh). lia.
Qed.

(** The region and the offset in it of an arena address. *)
Lemma slotOf_parts region in_ :
  0 <= region < 160 -> 0 <= in_ < 2 ^ h_shift h ->
  let address := regionStart h region + in_ in
  let entry := entryOf h region in
  inArena h address = true
  /\ slotOf h address
     = (let units := Z.shiftr in_ (c_shift entry) in
        let slot := if c_magic entry =? 0 then wrap32 units
                    else wrap32 (Z.shiftr (wrap64 (units * c_magic entry)) 32) in
        mkSlot region slot (regionStart h region + slot * c_size entry)).
Proof.
  intros Hr Hi. cbv zeta. pose proof shift_size as Hp. pose proof (ho_base h Hh) as [Hb _].
  pose proof (ho_bytes h Hh) as Hby. pose proof (ho_room h Hh) as Hro. destruct (ho_shift h Hh) as [Hs|Hs].
  all: unfold inArena, slotOf, sub64, regionStart; rewrite Z.shiftl_mul_pow2 by lia.
  all: assert (Ho : h_base h + region * 2 ^ h_shift h + in_ - h_base h = region * 2 ^ h_shift h + in_) by lia.
  all: rewrite Ho, wrap64_small by (rewrite Hs in *; lia).
  all: rewrite !Z.shiftr_div_pow2, Z.shiftl_1_l by lia.
  all: assert (Hq : (region * 2 ^ h_shift h + in_) / 2 ^ h_shift h = region)
    by (rewrite Z.div_add_l, Z.div_small by lia; lia).
  all: rewrite Hq; unfold wrap32; rewrite (Z.mod_small region) by lia.
  all: replace (2 ^ h_shift h - 1) with (Z.ones (h_shift h)) by (rewrite Z.ones_equiv; lia).
  all: assert (Hl : Z.land (region * 2 ^ h_shift h + in_) (Z.ones (h_shift h)) = in_)
    by (rewrite Z.land_ones, (Z.add_comm _ in_), Z.mod_add, Z.mod_small by lia; done).
  all: rewrite Hl.
  all: split; [apply Z.ltb_lt; rewrite Hs in *; lia|].
  all: by rewrite (Z.shiftl_mul_pow2 region) by lia.
Qed.

(** The slot of an offset in a class's region: the quotient by its size. *)
Lemma slot_quotient e m in_ :
  divides_by e m -> 0 <= in_ < 2 ^ 31 ->
  (if c_magic e =? 0 then wrap32 (Z.shiftr in_ (c_shift e))
   else wrap32 (Z.shiftr (wrap64 (Z.shiftr in_ (c_shift e) * c_magic e)) 32)) = in_ / c_size e.
Proof.
  intros (Hm & Hk & Hs & Hmag) Hi. rewrite Hmag.
  assert (Hu : 0 <= Z.shiftr in_ (c_shift e) < 2 ^ 28).
  { rewrite Z.shiftr_div_pow2 by lia. split; [apply Z.div_pos; lia|]. apply Z.div_lt_upper_bound; [lia|].
    assert (2 ^ 4 <= 2 ^ c_shift e) by (apply Z.pow_le_mono_r; lia). nia. }
  rewrite magic_divides, Hs by done. rewrite Z.shiftr_div_pow2, Z.div_div, Z.mul_comm by lia. done.
Qed.

Lemma slotOf_look region slot i :
  0 <= region < 160 -> 0 <= slot < c_capacity (entryOf h region) -> 0 <= i < c_size (entryOf h region) ->
  let base := regionStart h region + slot * c_size (entryOf h region) in
  inArena h (base + i) = true /\ slotOf h (base + i) = mkSlot region slot base.
Proof.
  intros Hr Hs Hi. cbv zeta. pose proof shift_size as Hp.
  destruct (entryOf_ok region Hr) as [((m & Hm) & Hc & Hcap & _)|Hsp].
  2:{ rewrite Hsp in Hs. cbn in Hs. lia. }
  set (e := entryOf h region) in *.
  assert (Hin : 0 <= slot * c_size e + i < 2 ^ h_shift h) by nia.
  destruct (slotOf_parts region (slot * c_size e + i) Hr Hin) as [H1 H2]. fold e in H2.
  rewrite Z.add_assoc in H1, H2. split; [done|]. rewrite H2. cbv zeta.
  rewrite (slot_quotient e m) by (done || lia).
  rewrite Z.div_add_l, Z.div_small by lia. by rewrite Z.add_0_r.
Qed.

(** C29: every byte of every slot a region can hand out is looked up, by a
    multiplication and a shift, as a byte of that slot: the region, the slot's
    index and the slot's base. *)
Theorem slotOf_exact region slot i :
  0 <= region < 160 -> 0 <= slot < c_capacity (entryOf h region) -> 0 <= i < c_size (entryOf h region) ->
  let base := regionStart h region + slot * c_size (entryOf h region) in
  inArena h (base + i) = true /\ slotOf h (base + i) = mkSlot region slot base.
Proof. apply slotOf_look. Qed.

(** The slot [slotOf] finds for an address of the arena. *)
Lemma slotOf_within address :
  inArena h address = true -> 0 <= address < 2 ^ 64 ->
  let ref := slotOf h address in
  0 <= ref_region ref < 160
  /\ ref_base ref <= address
  /\ (0 < c_capacity (entryOf h (ref_region ref)) ->
        address < ref_base ref + c_size (entryOf h (ref_region ref)))
  /\ slotWords h (ref_region ref) <= slotWords h (ref_region ref) + 4 * ref_slot ref
  /\ slotWords h (ref_region ref) + 4 * ref_slot ref + 4 <= slotWords h (ref_region ref + 1).
Proof.
  intros Ha Hr. pose proof shift_size as Hp. pose proof (ho_base h Hh) as [Hb _].
  pose proof (ho_bytes h Hh) as Hby. pose proof (ho_room h Hh) as Hro.
  assert (Hoff : 0 <= address - h_base h < 160 * 2 ^ h_shift h).
  { unfold inArena, sub64, wrap64 in Ha. apply Z.ltb_lt in Ha. rewrite Hby in *.
    destruct (Z.lt_ge_cases address (h_base h)) as [Hlt|Hge].
    - exfalso. replace (address - h_base h) with (address - h_base h + 2 ^ 64 + (-1) * 2 ^ 64) in Ha by lia.
      rewrite Z.mod_add, Z.mod_small in Ha by lia. lia.
    - rewrite Z.mod_small in Ha by lia. lia. }
  set (region := (address - h_base h) / 2 ^ h_shift h).
  set (in_ := (address - h_base h) mod 2 ^ h_shift h).
  assert (Hreg : 0 <= region < 160).
  { subst region. split; [apply Z.div_pos; lia|apply Z.div_lt_upper_bound; lia]. }
  assert (Hin : 0 <= in_ < 2 ^ h_shift h) by (apply Z.mod_pos_bound; lia).
  assert (Haddr : address = regionStart h region + in_).
  { unfold regionStart. rewrite Z.shiftl_mul_pow2 by (destruct (ho_shift h Hh); lia).
    subst region in_. pose proof (Z.div_mod (address - h_base h) (2 ^ h_shift h) ltac:(lia)). lia. }
  destruct (slotOf_parts region in_ Hreg Hin) as [_ Hslot]. rewrite <- Haddr in Hslot.
  assert (Hwords : slotWords h (region + 1) = slotWords h region + 2 ^ (h_shift h - 2)).
  { unfold slotWords. rewrite !Z.shiftl_mul_pow2 by (destruct (ho_shift h Hh); lia). lia. }
  assert (Hq : 2 ^ h_shift h = 16 * (2 ^ (h_shift h - 4)) /\ 2 ^ (h_shift h - 2) = 4 * 2 ^ (h_shift h - 4)).
  { destruct (ho_shift h Hh) as [->| ->]; split; reflexivity. }
  pose proof (entryOf_ok region Hreg) as Hentry.
  cbv zeta in Hslot |- *. set (e := entryOf h region) in *.
  destruct Hentry as [((m & Hm) & _ & _ & _)|Hsp].
  - rewrite (slot_quotient e m) in Hslot by (done || lia). rewrite Hslot. cbn [ref_region ref_slot ref_base].
    fold e. assert (Hsz : 16 <= c_size e).
    { destruct Hm as (Hm & Hk & He' & _). rewrite He'.
      assert (2 ^ 4 <= 2 ^ c_shift e) by (apply Z.pow_le_mono_r; lia). lia. }
    pose proof (Z.div_mod in_ (c_size e) ltac:(lia)) as Hd.
    pose proof (Z.mod_pos_bound in_ (c_size e) ltac:(lia)) as Hmod.
    assert (0 <= in_ / c_size e) by (apply Z.div_pos; lia).
    assert (in_ / c_size e < 2 ^ (h_shift h - 4)) by (apply Z.div_lt_upper_bound; nia).
    rewrite Hwords. split; [done|]. split; [rewrite Haddr; nia|]. split; [intros _; rewrite Haddr; nia|]. lia.
  - rewrite Hsp in Hslot. cbn [spare c_size c_shift c_magic] in Hslot. change (0 =? 0) with true in Hslot.
    cbv iota in Hslot. rewrite Z.shiftr_div_pow2, Z.div_small in Hslot by (lia || (destruct (ho_shift h Hh); lia)).
    change (wrap32 0) with 0 in Hslot. rewrite Z.add_0_r in Hslot. rewrite Hslot.
    cbn [ref_region ref_slot ref_base]. split; [done|]. rewrite Hwords.
    split; [lia|]. split; [|lia]. fold e. rewrite Hsp. cbn. lia.
Qed.

(** Any address of the arena, in a slot or not: in a region a class has, it
    lies in the slot that answers for it; and in every region that slot's word
    lies in the region's part of the metadata, so that a guard may read it for
    any pointer. *)
Theorem slotOf_contains address :
  inArena h address = true -> 0 <= address < 2 ^ 64 ->
  let ref := slotOf h address in
  0 <= ref_region ref < 160
  /\ ref_base ref <= address
  /\ (0 < c_capacity (entryOf h (ref_region ref)) ->
        address < ref_base ref + c_size (entryOf h (ref_region ref)))
  /\ slotWords h (ref_region ref) <= slotWords h (ref_region ref) + 4 * ref_slot ref
  /\ slotWords h (ref_region ref) + 4 * ref_slot ref + 4 <= slotWords h (ref_region ref + 1).
Proof. apply slotOf_within. Qed.
End SlotFacts.

(** ** Colors and alignment *)

Lemma power_of_two x : 0 < x -> Z.land x (x - 1) = 0 -> exists a, 0 <= a /\ x = 2 ^ a.
Proof.
  intros Hx Hl. pose proof (Z.log2_spec x Hx) as [H1 H2]. exists (Z.log2 x).
  split; [apply Z.log2_nonneg|]. destruct (Z.eq_dec x (2 ^ Z.log2 x)) as [|Hne]; [done|]. exfalso.
  assert (Hlog : Z.log2 (x - 1) = Z.log2 x).
  { apply Z.log2_unique; [apply Z.log2_nonneg|lia]. }
  assert (Hb : Z.testbit (Z.land x (x - 1)) (Z.log2 x) = true).
  { rewrite Z.land_spec, Z.bit_log2 by done. rewrite <- Hlog at 1. rewrite Z.bit_log2; [done|].
    assert (0 < 2 ^ Z.log2 x) by (apply Z.pow_pos_nonneg; [lia|apply Z.log2_nonneg]). lia. }
  by rewrite Hl, Z.testbit_0_l in Hb.
Qed.

Lemma doubleUp_spec fuel size a :
  0 <= a -> 30 - a <= Z.of_nat fuel ->
  exists b, a <= b /\ doubleUp fuel size (2 ^ a) = 2 ^ b /\ (b = a \/ b <= 30).
Proof.
  revert a. induction fuel as [|fuel IH]; intros a Ha Hf; cbn [doubleUp].
  { exists a. split_and!; [lia|done|by left]. }
  change (Z.shiftl 1 WeavecRtMaxClassShift) with (2 ^ 30).
  destruct ((2 ^ a <=? size) && (2 ^ a <? 2 ^ 30)) eqn:E; [|exists a; split_and!; [lia|done|by left]].
  bool_hyps. assert (a < 30) by (apply (Z.pow_lt_mono_r_iff 2); lia).
  rewrite Z.shiftl_mul_pow2 by lia. replace (2 ^ a * 2 ^ 1) with (2 ^ (a + 1)) by (rewrite Z.pow_add_r; lia).
  destruct (IH (a + 1) ltac:(lia) ltac:(lia)) as (b & Hb & He & Hor). exists b. split_and!; [lia|done|right; lia].
Qed.

(** The powers of two are class sizes. *)
Lemma powerClass_size b :
  5 <= b <= 30 -> 0 <= powerClass (2 ^ b) < 100 /\ classSize (powerClass (2 ^ b)) = 2 ^ b.
Proof.
  intros Hb. assert (Hp : forallb (fun i =>
      (0 <=? powerClass (2 ^ i)) && (powerClass (2 ^ i) <? 100)
      && (classSize (powerClass (2 ^ i)) =? 2 ^ i)) (map Z.of_nat (seq 5 26)) = true)
    by (vm_compute; reflexivity).
  rewrite forallb_forall in Hp. specialize (Hp b). cbv beta in Hp.
  assert (Hin : In b (map Z.of_nat (seq 5 26))).
  { apply in_map_iff. exists (Z.to_nat b). split; [lia|]. apply in_seq. lia. }
  specialize (Hp Hin). bool_hyps. lia.
Qed.

(** The class of an aligned request, and its slots' addresses. *)
Lemma chosenClass_aligned h size alignment :
  heap_ok h -> 0 <= size < 2 ^ 64 -> 16 < alignment < 2 ^ 64 ->
  (chosenClass size alignment = None <-> Z.land alignment (alignment - 1) <> 0)
  /\ forall c, chosenClass size alignment = Some c -> c < 100 ->
       0 <= c /\ size < classSize c
       /\ forall region slot, 0 <= region -> c_size (entryOf h region) = classSize c ->
            (regionStart h region + slot * c_size (entryOf h region)) mod alignment = 0.
Proof.
  intros Hh Hs Ha. unfold chosenClass. rewrite (proj2 (Z.ltb_lt 16 alignment)) by lia.
  destruct (Z.eqb_spec (Z.land alignment (alignment - 1)) 0) as [Hp|Hp]; cbn [negb]; [|by split].
  split; [by split|]. cbv zeta.
  destruct (power_of_two alignment ltac:(lia) Hp) as (a & Ha0 & ->).
  assert (Ha5 : 5 <= a). { assert (4 < a) by (apply (Z.pow_lt_mono_r_iff 2); lia). lia. }
  destruct (doubleUp_spec 31 size a Ha0 ltac:(lia)) as (b & Hb & He & Hor). rewrite He. clear He.
  intros c [= <-] Hc.
  destruct (Z.ltb_spec size (2 ^ b)) as [Hlt|]; [|exfalso; unfold WeavecRtClassCount in Hc; lia].
  assert (Hb30 : b <= 30).
  { destruct Hor as [->|]; [|done]. destruct (Z.le_gt_cases a 30) as [|Hgt]; [done|exfalso].
    unfold powerClass in Hc. pose proof (Z.pow_le_mono_r 2 31 a ltac:(lia) ltac:(lia)) as Hpow.
    unfold classFor, add64 in Hc. rewrite wrap64_small in Hc by lia.
    rewrite (proj2 (Z.leb_gt (2 ^ a - 1 + 1) 128)) in Hc by lia.
    change (Z.shiftl 1 WeavecRtMaxClassShift) with (2 ^ 30) in Hc.
    rewrite (proj2 (Z.ltb_lt (2 ^ 30) _)) in Hc by lia. unfold WeavecRtClassCount in Hc. lia. }
  destruct (powerClass_size b ltac:(lia)) as [Hr Hsize]. rewrite Hsize. split_and!; [lia|done|].
  intros region slot Hregion Hentry. rewrite Hentry.
  pose proof (ho_base h Hh) as [_ Hbase]. apply Z.mod_divide in Hbase; [|destruct (ho_shift h Hh) as [->| ->]; lia].
  assert (Hdiv : forall x, a <= x -> (2 ^ a | 2 ^ x)).
  { intros x Hx. exists (2 ^ (x - a)). rewrite <- Z.pow_add_r by lia. f_equal. lia. }
  apply Z.mod_divide; [lia|]. unfold regionStart. rewrite Z.shiftl_mul_pow2 by (destruct (ho_shift h Hh); lia).
  apply Z.divide_add_r; [apply Z.divide_add_r|].
  - eapply Z.divide_trans; [apply Hdiv|exact Hbase]. destruct (ho_shift h Hh); lia.
  - apply Z.divide_mul_r, Hdiv. destruct (ho_shift h Hh); lia.
  - apply Z.divide_mul_r, Hdiv. lia.
Qed.

(** An aligned request (16 or less needs none) is refused exactly when the
    alignment is not a power of two; the class it takes a slot of holds it with
    a byte to spare, and every slot of a region of that class starts at a
    multiple of the alignment. *)
Theorem chosenClass_exact h size alignment :
  heap_ok h -> 0 <= size < 2 ^ 64 -> 16 < alignment < 2 ^ 64 ->
  (chosenClass size alignment = None <-> Z.land alignment (alignment - 1) <> 0)
  /\ forall c, chosenClass size alignment = Some c -> c < 100 ->
       0 <= c /\ size < classSize c
       /\ forall region slot, 0 <= region -> c_size (entryOf h region) = classSize c ->
            (regionStart h region + slot * c_size (entryOf h region)) mod alignment = 0.
Proof. apply chosenClass_aligned. Qed.

(** Whatever the alignment, the class chosen holds the object, and its slots
    are aligned. *)
Lemma chosenClass_fits h size alignment c :
  heap_ok h -> 0 <= size < 2 ^ 64 -> 0 <= alignment < 2 ^ 64 -> chosenClass size alignment = Some c -> c < 100 ->
  0 <= c /\ size < classSize c
  /\ forall region slot, 0 <= region -> c_size (entryOf h region) = classSize c -> 16 < alignment ->
       (regionStart h region + slot * c_size (entryOf h region)) mod alignment = 0.
Proof.
  intros Hh Hs Ha Hc Hlt. destruct (Z.lt_ge_cases 16 alignment) as [H16|H16].
  - destruct (chosenClass_aligned h size alignment Hh Hs ltac:(lia)) as [_ H]. 
    destruct (H c Hc Hlt) as (H1 & H2 & H3). split_and!; try done. intros region slot Hr He _. by apply H3.
  - unfold chosenClass in Hc. rewrite (proj2 (Z.ltb_ge 16 alignment)) in Hc by lia. injection Hc as <-.
    pose proof (classFor_smallest size Hs) as Hf. destruct (size <? 2 ^ 30); [|lia]. destruct Hf as (H1 & H2 & _).
    split_and!; (done || lia).
Qed.

(** Objects in two slots of a region fewer than 111 apart never share a
    color (nor does any heap object have the color 0 of memory outside the
    arena), so that a jump from one to the other is seen. *)
Theorem heap_colors h region slot slot' i i' :
  heap_ok h -> 0 <= region < 160 ->
  0 <= slot < c_capacity (entryOf h region) -> 0 <= slot' < c_capacity (entryOf h region) ->
  0 <= i < c_size (entryOf h region) -> 0 <= i' < c_size (entryOf h region) ->
  0 < Z.abs (slot - slot') < 111 ->
  let at_ s j := regionStart h region + s * c_size (entryOf h region) + j in
  weavecRtColorOfHeap h (at_ slot i) <> weavecRtColorOfHeap h (at_ slot' i')
  /\ color_ok (weavecRtColorOfHeap h (at_ slot i)) /\ weavecRtColorOfHeap h (at_ slot i) <> 0.
Proof.
  intros Hh Hr Hs Hs' Hi Hi' Hd. cbv zeta.
  assert (Hcap : c_capacity (entryOf h region) <= 2 ^ 31).
  { pose proof (shift_size h Hh). destruct (entryOf_ok h Hh region Hr) as [(_ & Hc0 & Hc & _)|He]; [nia|].
    rewrite He. cbn. lia. }
  assert (Hcolor : forall s j, 0 <= s < c_capacity (entryOf h region) -> 0 <= j < c_size (entryOf h region) ->
    weavecRtColorOfHeap h (regionStart h region + s * c_size (entryOf h region) + j)
    = weavecRtColor (s + region * 41)).
  { intros s j Hsj Hj. destruct (slotOf_look h Hh region s j Hr Hsj Hj) as [H1 H2].
    unfold weavecRtColorOfHeap. rewrite H1, H2. cbn [negb ref_slot ref_region].
    unfold add64. by rewrite wrap64_small by lia. }
  cbv beta.
  rewrite (Hcolor slot i), (Hcolor slot' i') by done. split_and!.
  - intros Heq. rewrite !weavecRtColor_value in Heq. euclid.
  - unfold color_ok. rewrite weavecRtColor_value. split; euclid.
  - rewrite weavecRtColor_value. euclid.
Qed.
