(* ===== verification/Heap.v ===== *)
(** * The allocator's state and its slots

    [runtime/weavec_alloc.c]: the slot words, each region's free list and
    quarantine queue, the regions of a class, the thread caches, and the
    paths a slot takes between them.  (The classes and the arithmetic of slots
    are the file Classes; blocks mapped on their own, HugeBlocks; the calls of
    the program and the sweep, Allocator.)

    Every function takes the allocator's state and answers the new one.  What
    the system answers (a mapping, whether a call succeeded, the clock, the
    words a sweep scans outside the heap) comes through the class [System], one
    answer per question: [al_tick] counts the questions.  The locks are not
    modelled: a call of the allocator is one step, and [tc_locks] and
    [tc_depth] are what a nested call (a signal handler's) reads. *)

From Stdlib Require Import String.
From S2P Require Import Prelude Shadow Report Classes.
Local Open Scope Z_scope.

(** ** Slot words *)

Definition WeavecRtNever : Z := 0.
Definition WeavecRtLive : Z := 1.
Definition WeavecRtFree : Z := 2.
Definition WeavecRtDead : Z := 3.
Definition WeavecRtWordState : Z := 3.
Definition WeavecRtWordShift : Z := 2.

Definition weavecRtWordValue (word : Z) : Z := Z.shiftr word WeavecRtWordShift.

Definition wordState (word : Z) : Z := Z.land word WeavecRtWordState.

(** [((uint32_t)value << WeavecRtWordShift) | state]. *)
Definition makeWord (value state : Z) : Z := Z.lor (wrap32 (Z.shiftl value WeavecRtWordShift)) state.

(** The word of a claimed slot: released, on its way to the quarantine. *)
Definition CachedDead : Z := 2 ^ 30 - 1.
Definition claimed : Z := makeWord CachedDead WeavecRtDead.

(** ** Thread caches *)

Definition CachedClasses : Z := 40.
Definition CacheSlots : Z := 32.
Definition CacheBytes : Z := 32 * 1024.
Definition FoldBytes : Z := 256 * 1024.

(** A cached slot: its region and index, the low bit set for a slot used
    before, the top bit for the sweep. *)
Definition slotEntry (region slot : Z) (used : bool) : Z :=
  Z.lor (Z.lor (Z.lor (Z.shiftl 1 63) (Z.shiftl region 32)) (Z.shiftl slot 1)) (Z.b2z used).

Definition entryRegion (entry : Z) : Z := Z.land (wrap32 (Z.shiftr entry 32)) 0xFF.
Definition entrySlot (entry : Z) : Z := Z.land (wrap32 (Z.shiftr entry 1)) 0x7FFFFFFF.

(** A cache's slots, [count] of them, the last first to be taken. *)
Record ThreadCache := mkCache {
  tc_alloc : Z -> list Z;
  tc_release : Z -> list Z;
  tc_liveDelta : Z;
  tc_depth : Z;
  tc_locks : Z;
  tc_deferred : list Z
}.

Definition emptyCache : ThreadCache := mkCache (fun _ => []) (fun _ => []) 0 0 0 [].

Definition setAt {A} (f : Z -> A) (i : Z) (v : A) : Z -> A := fun j => if j =? i then v else f j.

Definition tc_with_alloc (k : ThreadCache) (c : Z) (l : list Z) : ThreadCache :=
  mkCache (setAt (tc_alloc k) c l) (tc_release k) (tc_liveDelta k) (tc_depth k) (tc_locks k) (tc_deferred k).
Definition tc_with_release (k : ThreadCache) (c : Z) (l : list Z) : ThreadCache :=
  mkCache (tc_alloc k) (setAt (tc_release k) c l) (tc_liveDelta k) (tc_depth k) (tc_locks k) (tc_deferred k).
Definition tc_with_delta (k : ThreadCache) (n : Z) : ThreadCache :=
  mkCache (tc_alloc k) (tc_release k) n (tc_depth k) (tc_locks k) (tc_deferred k).
Definition tc_with_depth (k : ThreadCache) (n : Z) : ThreadCache :=
  mkCache (tc_alloc k) (tc_release k) (tc_liveDelta k) n (tc_locks k) (tc_deferred k).
Definition tc_with_deferred (k : ThreadCache) (l : list Z) : ThreadCache :=
  mkCache (tc_alloc k) (tc_release k) (tc_liveDelta k) (tc_depth k) (tc_locks k) l.

(** ** The state *)

(** What one region needs besides the public table. *)
Record RegionState := mkRegion {
  bump : Z;
  freeHead : Z;
  deadHead : Z;
  deadTail : Z;
  marks : option (Z -> bool);
  committed : Z;
  metaCommitted : Z
}.

Definition with_bump (r : RegionState) (n : Z) : RegionState :=
  mkRegion n (freeHead r) (deadHead r) (deadTail r) (marks r) (committed r) (metaCommitted r).
Definition with_freeHead (r : RegionState) (n : Z) : RegionState :=
  mkRegion (bump r) n (deadHead r) (deadTail r) (marks r) (committed r) (metaCommitted r).
Definition with_dead (r : RegionState) (head tail : Z) : RegionState :=
  mkRegion (bump r) (freeHead r) head tail (marks r) (committed r) (metaCommitted r).
Definition with_marks (r : RegionState) (m : option (Z -> bool)) : RegionState :=
  mkRegion (bump r) (freeHead r) (deadHead r) (deadTail r) m (committed r) (metaCommitted r).
Definition with_committed (r : RegionState) (n : Z) : RegionState :=
  mkRegion (bump r) (freeHead r) (deadHead r) (deadTail r) (marks r) n (metaCommitted r).
Definition with_metaCommitted (r : RegionState) (n : Z) : RegionState :=
  mkRegion (bump r) (freeHead r) (deadHead r) (deadTail r) (marks r) (committed r) n.

(** A block mapped on its own; [hb_dead] is 0 while it is live. *)
Record HugeBlock := mkHuge {
  hb_base : Z;
  hb_size : Z;
  hb_map : Z;
  hb_mapBytes : Z;
  hb_dead : Z;
  hb_marked : bool
}.

(** [hugeBlocks] (its [hugeCount] blocks), [hugeCapacity], [hugeLow],
    [hugeHigh], [hugeDeadCount], [hugeDeadBytes] and [hugeReleases]. *)
Record hugeTable := mkHugeTable {
  ht_blocks : list HugeBlock;
  ht_capacity : Z;
  ht_low : Z;
  ht_high : Z;
  ht_deadCount : Z;
  ht_deadBytes : Z;
  ht_releases : Z
}.

(** The shared counts and the sweep's pacing. *)
Record pace := mkPace {
  quarantineBudget : Z;
  quarantineBytes : Z;
  retainedBytes : Z;
  liveBytes : Z;
  peakLive : Z;
  peakQuarantine : Z;
  lastSweepEnd : Z;
  lastSweepTook : Z;
  nextPacingCheck : Z
}.

(** [struct weavecRtSweepCounts]. *)
Record sweepCounts := mkCounts { sc_recycled : Z; sc_retained : Z; sc_retainedBytes : Z }.

(** [lastCounts], [weavecRtSweepNanos] and [weavecRtSweepLongest]. *)
Record sweepTotals := mkTotals { sw_last : sweepCounts; sw_nanos : Z; sw_longest : Z }.

(** [al_gone]: the threads whose cache has gone. *)
Record alloc := mkAlloc {
  al_heap : heap;                    (* __weavec_rt_heap *)
  al_words : Z -> Z -> Z;            (* slotWords(region)[slot] *)
  al_region : Z -> RegionState;      (* regionState *)
  al_next : Z -> Z;                  (* regionNext *)
  al_class : Z -> Z;                 (* regionClass *)
  al_active : Z -> Z;                (* classActive *)
  al_gained : Z -> Z;                (* classGained *)
  al_caches : list (nat * ThreadCache);
  al_gone : list nat;
  al_pace : pace;
  al_huge : hugeTable;
  al_shadow : shadow;
  al_mem : Z -> Z;                   (* the bytes of the process *)
  al_stats : Z -> Z;
  al_sweeps : sweepTotals;
  al_tick : nat
}.

Definition set_heap st v := mkAlloc v (al_words st) (al_region st) (al_next st) (al_class st) (al_active st)
  (al_gained st) (al_caches st) (al_gone st) (al_pace st) (al_huge st)
  (al_shadow st) (al_mem st) (al_stats st) (al_sweeps st) (al_tick st).
Definition set_words st v := mkAlloc (al_heap st) v (al_region st) (al_next st) (al_class st) (al_active st)
  (al_gained st) (al_caches st) (al_gone st) (al_pace st) (al_huge st)
  (al_shadow st) (al_mem st) (al_stats st) (al_sweeps st) (al_tick st).
Definition set_regions st v := mkAlloc (al_heap st) (al_words st) v (al_next st) (al_class st) (al_active st)
  (al_gained st) (al_caches st) (al_gone st) (al_pace st) (al_huge st)
  (al_shadow st) (al_mem st) (al_stats st) (al_sweeps st) (al_tick st).
Definition set_next st v := mkAlloc (al_heap st) (al_words st) (al_region st) v (al_class st) (al_active st)
  (al_gained st) (al_caches st) (al_gone st) (al_pace st) (al_huge st)
  (al_shadow st) (al_mem st) (al_stats st) (al_sweeps st) (al_tick st).
Definition set_class st v := mkAlloc (al_heap st) (al_words st) (al_region st) (al_next st) v (al_active st)
  (al_gained st) (al_caches st) (al_gone st) (al_pace st) (al_huge st)
  (al_shadow st) (al_mem st) (al_stats st) (al_sweeps st) (al_tick st).
Definition set_active st v := mkAlloc (al_heap st) (al_words st) (al_region st) (al_next st) (al_class st) v
  (al_gained st) (al_caches st) (al_gone st) (al_pace st) (al_huge st)
  (al_shadow st) (al_mem st) (al_stats st) (al_sweeps st) (al_tick st).
Definition set_gained st v := mkAlloc (al_heap st) (al_words st) (al_region st) (al_next st) (al_class st) (al_active st)
  v (al_caches st) (al_gone st) (al_pace st) (al_huge st)
  (al_shadow st) (al_mem st) (al_stats st) (al_sweeps st) (al_tick st).
Definition set_caches st v := mkAlloc (al_heap st) (al_words st) (al_region st) (al_next st) (al_class st) (al_active st)
  (al_gained st) v (al_gone st) (al_pace st) (al_huge st)
  (al_shadow st) (al_mem st) (al_stats st) (al_sweeps st) (al_tick st).
Definition set_gone st v := mkAlloc (al_heap st) (al_words st) (al_region st) (al_next st) (al_class st) (al_active st)
  (al_gained st) (al_caches st) v (al_pace st) (al_huge st)
  (al_shadow st) (al_mem st) (al_stats st) (al_sweeps st) (al_tick st).
Definition set_pace st v := mkAlloc (al_heap st) (al_words st) (al_region st) (al_next st) (al_class st) (al_active st)
  (al_gained st) (al_caches st) (al_gone st) v (al_huge st)
  (al_shadow st) (al_mem st) (al_stats st) (al_sweeps st) (al_tick st).
Definition set_huge st v := mkAlloc (al_heap st) (al_words st) (al_region st) (al_next st) (al_class st) (al_active st)
  (al_gained st) (al_caches st) (al_gone st) (al_pace st) v
  (al_shadow st) (al_mem st) (al_stats st) (al_sweeps st) (al_tick st).
Definition set_shadow st v := mkAlloc (al_heap st) (al_words st) (al_region st) (al_next st) (al_class st) (al_active st)
  (al_gained st) (al_caches st) (al_gone st) (al_pace st) (al_huge st)
  v (al_mem st) (al_stats st) (al_sweeps st) (al_tick st).
Definition set_mem st v := mkAlloc (al_heap st) (al_words st) (al_region st) (al_next st) (al_class st) (al_active st)
  (al_gained st) (al_caches st) (al_gone st) (al_pace st) (al_huge st)
  (al_shadow st) v (al_stats st) (al_sweeps st) (al_tick st).
Definition set_stats st v := mkAlloc (al_heap st) (al_words st) (al_region st) (al_next st) (al_class st) (al_active st)
  (al_gained st) (al_caches st) (al_gone st) (al_pace st) (al_huge st)
  (al_shadow st) (al_mem st) v (al_sweeps st) (al_tick st).
Definition set_sweeps st v := mkAlloc (al_heap st) (al_words st) (al_region st) (al_next st) (al_class st) (al_active st)
  (al_gained st) (al_caches st) (al_gone st) (al_pace st) (al_huge st)
  (al_shadow st) (al_mem st) (al_stats st) v (al_tick st).
Definition set_tick st v := mkAlloc (al_heap st) (al_words st) (al_region st) (al_next st) (al_class st) (al_active st)
  (al_gained st) (al_caches st) (al_gone st) (al_pace st) (al_huge st)
  (al_shadow st) (al_mem st) (al_stats st) (al_sweeps st) v.

(** [storeWord(&slotWords(region)[slot], word)]. *)
Definition storeWord (st : alloc) (region slot word : Z) : alloc :=
  set_words st (setAt (al_words st) region (setAt (al_words st region) slot word)).

Definition set_region (st : alloc) (region : Z) (r : RegionState) : alloc :=
  set_regions st (setAt (al_region st) region r).

(** The word of a slot. *)
Definition wordOf (st : alloc) (ref : SlotRef) : Z := al_words st (ref_region ref) (ref_slot ref).

Definition slotBytesOf (st : alloc) (region : Z) : Z := c_size (entryOf (al_heap st) region).

(** The address of a slot. *)
Definition slotBase (st : alloc) (region slot : Z) : Z :=
  regionStart (al_heap st) region + slot * slotBytesOf st region.

Definition WeavecRtStatAllocations : Z := 0.
Definition WeavecRtStatReleases : Z := 1.
Definition WeavecRtStatRecycled : Z := 2.
Definition WeavecRtStatHuge : Z := 3.
Definition WeavecRtStatSweeps : Z := 8.

(** ** The system *)

(** Its answers, by the number of the question: [mmap] of fresh memory among
    the mappings there are (address and size), a call that succeeds or fails, the clock, the words a sweep finds outside the
    heap (the registers, the stacks and the other mappings). *)
Class System := {
  sys_map : nat -> list (Z * Z) -> Z -> option Z;
  sys_ok : nat -> bool;
  sys_clock : nat -> Z;
  sys_roots : nat -> list Z;
  sys_statsOn : bool                 (* WEAVEC_RT_STATS=1 *)
}.

(** The mappings the allocator's memory is in: the arena and the blocks mapped
    on their own. *)
Definition mappings (st : alloc) : list (Z * Z) :=
  (h_base (al_heap st), h_bytes (al_heap st)) :: map (fun b => (hb_map b, hb_mapBytes b)) (ht_blocks (al_huge st)).

Section Slots.
Context {P : Pages} {Sys : System}.

Definition ask {A} (question : nat -> A) (st : alloc) : A * alloc :=
  (question (al_tick st), set_tick st (S (al_tick st))).

(** [weavecRtCount]. *)
Definition countStat (st : alloc) (stat : Z) : alloc :=
  if sys_statsOn || (stat =? WeavecRtStatSweeps)
  then set_stats st (setAt (al_stats st) stat (add64 (al_stats st stat) 1)) else st.

Definition NoRegion : Z := 0xFF.
Definition DataChunk : Z := 2 ^ 20.
Definition MetaChunk : Z := 64 * 1024.
Definition TailLimit : Z := 64 * 1024.
Definition WeavecRtDecommitBytes : Z := 64 * 1024.

(** [commit]: what becomes of [*committed], [None] when [mprotect] fails. *)
Definition commit (committed end_ chunk limit : Z) (st : alloc) : option Z * alloc :=
  if end_ <=? committed then (Some committed, st)
  else
    let chunk := if chunk <? pageBytes then pageBytes else chunk in
    let target := (end_ + chunk - 1) / chunk * chunk in
    let target := if limit <? target then limit else target in
    let '(ok, st) := ask sys_ok st in
    (if (ok : bool) then Some target else None, st).

(** Zeroes a recycled block: pages mapped afresh read zero. *)
Definition zeroFill (mem : Z -> Z) (base size : Z) : Z -> Z :=
  let first := page_up base in
  let last := page_down (add64 base size) in
  if (size <? 16 * pageBytes) || (last <=? first) || negb (remaps first (last - first))
  then memset mem base 0 size
  else
    let mem := fill_bytes mem first (last - first) 0 in
    let mem := memset mem base 0 (first - base) in
    memset mem last 0 (base + size - last).

Definition shadowLive (h : heap) (s : shadow) (base size slot : Z) : shadow :=
  let used := Z.land (add64 size 15) (Z.lnot 15) in
  let s := weavecRtShadowObject s base size WeavecRtShadowHeapTail (weavecRtColorOfHeap h base) in
  if used <? slot
  then weavecRtShadowSet s (base + used) (if slot - used <? TailLimit then slot - used else TailLimit)
                         WeavecRtShadowHeapTail
  else s.

Definition shadowDead (s : shadow) (base slot : Z) : shadow :=
  weavecRtShadowSet s base slot WeavecRtShadowHeapFreed.

(** ** Taking slots *)

(** A fresh slot of the region, its bytes and its word accessible; the shadow
    says of the bytes just made accessible, and of the granule before the
    region, that they are no object's. *)
Definition freshSlot (region : Z) (st : alloc) : option (Z * bool) * alloc :=
  let entry := entryOf (al_heap st) region in
  let state := al_region st region in
  let limit := Z.shiftl 1 (h_shift (al_heap st)) in
  let before := committed state in
  let slot := bump state in
  if c_capacity entry <=? slot then (None, st)
  else
    let '(data, st) := commit before ((slot + 1) * c_size entry) DataChunk limit st in
    match data with
    | None => (None, st)
    | Some data =>
      let st := set_region st region (with_committed (al_region st region) data) in
      let '(meta, st) := commit (metaCommitted state) ((slot + 1) * 4) MetaChunk (Z.shiftr limit 2) st in
      match meta with
      | None => (None, st)
      | Some meta =>
        let st := set_region st region (with_metaCommitted (al_region st region) meta) in
        let start := regionStart (al_heap st) region in
        let st :=
          if before <? data then
            set_shadow st (weavecRtShadowSet (al_shadow st) (start + before)
              (if c_size entry <=? TailLimit then data - before else TailLimit) WeavecRtShadowHeapTail)
          else st in
        let st :=
          if before =? 0 then
            set_shadow st (weavecRtShadowSet (al_shadow st) (start - WeavecRtShadowGranule)
                             WeavecRtShadowGranule WeavecRtShadowHeapTail)
          else st in
        let st := set_region st region (with_bump (al_region st region) (slot + 1)) in
        (Some (slot, false), st)
      end
    end.

(** A slot of the region and whether it was used before. *)
Definition popSlot (region : Z) (st : alloc) : option (Z * bool) * alloc :=
  let state := al_region st region in
  if negb (freeHead state =? 0) then
    let slot := freeHead state - 1 in
    let st := set_region st region (with_freeHead state (weavecRtWordValue (al_words st region slot))) in
    (Some (slot, true), st)
  else freshSlot region st.

(** Up to [want] slots of the region, as the cache's array holds them. *)
Fixpoint popRegion (want : nat) (region : Z) (slots : list Z) (st : alloc) : list Z * alloc :=
  match want with
  | O => (slots, st)
  | S want' =>
    let '(taken, st) := popSlot region st in
    match taken with
    | None => (slots, st)
    | Some (slot, used) => popRegion want' region (slots ++ [slotEntry region slot used]) st
    end
  end.

(** The last region of a class's list; [fuel] bounds its length. *)
Fixpoint lastRegion (fuel : nat) (next : Z -> Z) (last : Z) : Z :=
  match fuel with
  | O => last
  | S fuel' => if next last =? NoRegion then last else lastRegion fuel' next (next last)
  end.

Definition takeSpare (c : Z) (st : alloc) : bool * alloc :=
  let region := h_regions (al_heap st) in
  if WeavecRtRegionCount <=? region then (false, st)
  else
    let st := set_heap st (giveRegion (al_heap st) c) in
    let st := set_class st (setAt (al_class st) region c) in
    let last := lastRegion 160 (al_next st) c in
    let st := set_next st (setAt (al_next st) last region) in
    (true, set_active st (setAt (al_active st) c region)).

(** The walk of a class's regions: the slots of the first that has any. *)
Fixpoint popList (fuel : nat) (c region : Z) (want : nat) (st : alloc) : list Z * alloc :=
  match fuel with
  | O => ([], st)
  | S fuel' =>
    if region =? NoRegion then ([], st)
    else
      let '(got, st) := popRegion want region [] st in
      match got with
      | [] => popList fuel' c (al_next st region) want st
      | _ => (got, set_active st (setAt (al_active st) c region))
      end
  end.

(** The loop of [popClass]; [None] is the fuel's end. *)
Fixpoint popClassLoop (fuel : nat) (sweep : alloc -> alloc) (c : Z) (want : nat) (swept : bool) (st : alloc)
    : option (list Z) * alloc :=
  match fuel with
  | O => (None, st)
  | S fuel' =>
    let '(got, st) := popRegion want (al_active st c) [] st in
    match got with
    | _ :: _ => (Some got, st)
    | [] =>
      let '(got, st) := popList 160 c c want st in
      match got with
      | _ :: _ => (Some got, st)
      | [] =>
        let entry := entryOf (al_heap st) c in
        if negb swept && (c_capacity entry * c_size entry / 4 <=? al_gained st c)
        then popClassLoop fuel' sweep c want true (sweep st)
        else
          let '(spare, st) := takeSpare c st in
          if (spare : bool) then popClassLoop fuel' sweep c want swept st
          else if swept then (Some [], st)
          else popClassLoop fuel' sweep c want true (sweep st)
      end
    end
  end.

(** A pass without a slot takes one of the spares, or it is followed by the
    one sweep, or it is the last: 163 passes are enough. *)
Definition popClass (sweep : alloc -> alloc) (c : Z) (want : nat) (st : alloc) : option (list Z) * alloc :=
  popClassLoop 163 sweep c want false st.

(** ** The live heap *)

(** The 64-bit value of a signed count. *)
Definition signed64 (z : Z) : Z := (z + 2 ^ 63) mod 2 ^ 64 - 2 ^ 63.

Definition addLive (bytes : Z) (st : alloc) : alloc :=
  let p := al_pace st in
  let live := add64 (liveBytes p) bytes in
  set_pace st (mkPace (quarantineBudget p) (quarantineBytes p) (retainedBytes p) live
    (if signed64 (peakLive p) <? signed64 live then live else peakLive p) (peakQuarantine p)
    (lastSweepEnd p) (lastSweepTook p) (nextPacingCheck p)).

Definition liveNow (st : alloc) : Z :=
  let live := signed64 (liveBytes (al_pace st)) in if 0 <? live then live else 0.

(** Adds bytes to the quarantine's. *)
Definition addQuarantine (bytes : Z) (st : alloc) : alloc :=
  let p := al_pace st in
  let held := add64 (quarantineBytes p) bytes in
  set_pace st (mkPace (quarantineBudget p) held (retainedBytes p) (liveBytes p) (peakLive p)
    (if peakQuarantine p <? held then held else peakQuarantine p)
    (lastSweepEnd p) (lastSweepTook p) (nextPacingCheck p)).

Definition gain (c bytes : Z) (st : alloc) : alloc :=
  set_gained st (setAt (al_gained st) c (add64 (al_gained st c) bytes)).

(** Makes the slot [taken] live with an object of [size] bytes. *)
Definition makeLive (taken size slotBytes : Z) (st : alloc) : Z * alloc :=
  let region := entryRegion taken in
  let slot := entrySlot taken in
  let base := regionStart (al_heap st) region + slot * slotBytes in
  let st := storeWord st region slot (makeWord size WeavecRtLive) in
  let st := if negb (Z.land taken 1 =? 0) && negb (size =? 0)
            then set_mem st (zeroFill (al_mem st) base size) else st in
  (base, set_shadow st (shadowLive (al_heap st) (al_shadow st) base size slotBytes)).

(** A slot without a cache; [Some 0] when memory is exhausted. *)
Definition takeSlot (sweep : alloc -> alloc) (c size : Z) (st : alloc) : option Z * alloc :=
  let slotBytes := slotBytesOf st c in
  let '(got, st) := popClass sweep c 1 st in
  match got with
  | None => (None, st)
  | Some [] => (Some 0, st)
  | Some (taken :: _) =>
    let '(block, st) := makeLive taken size slotBytes (addLive slotBytes st) in (Some block, st)
  end.

(** ** Caches *)

Definition cacheLimit (st : alloc) (c : Z) : Z :=
  let fit := CacheBytes / slotBytesOf st c in
  if fit =? 0 then 1 else if fit <? CacheSlots then fit else CacheSlots.

(** The classes the caches serve: [weavecRtInitialize]'s loop. *)
Fixpoint cachedFrom (fuel : nat) (h : heap) (index count : Z) : Z :=
  match fuel with
  | O => count
  | S fuel' =>
    if (index <? h_classes h) && (index <? CachedClasses) && (c_size (entryOf h index) <=? CacheBytes)
    then cachedFrom fuel' h (index + 1) (index + 1) else count
  end.

Definition cachedClasses (h : heap) : Z := cachedFrom 40 h 0 0.

Fixpoint findCache (self : nat) (l : list (nat * ThreadCache)) : option ThreadCache :=
  match l with
  | [] => None
  | (t, k) :: rest => if Nat.eqb t self then Some k else findCache self rest
  end.

Definition ownCache (self : nat) (st : alloc) : option ThreadCache := findCache self (al_caches st).

Fixpoint putCache (self : nat) (k : ThreadCache) (l : list (nat * ThreadCache)) : list (nat * ThreadCache) :=
  match l with
  | [] => []
  | (t, k') :: rest => if Nat.eqb t self then (t, k) :: rest else (t, k') :: putCache self k rest
  end.

(** Writes a thread's own cache. *)
Definition set_cache (st : alloc) (self : nat) (k : ThreadCache) : alloc :=
  set_caches st (putCache self k (al_caches st)).

(** The bytes of a [ThreadCache]. *)
Definition ThreadCacheBytes : Z := 8 + 2 * 40 * (8 + 8 * 32) + 8 + 4 + 4 + 8 + 8 * 16.

(** [pthread_setspecific] may fail: the cache is unmapped. *)
Definition makeCache (self : nat) (st : alloc) : option ThreadCache * alloc :=
  let '(map, st) := ask (fun n => sys_map n (mappings st) ThreadCacheBytes) st in
  match map with
  | None => (None, st)
  | Some _ =>
    let '(ok, st) := ask sys_ok st in
    if (ok : bool) then (Some emptyCache, set_caches st ((self, emptyCache) :: al_caches st)) else (None, st)
  end.

Definition threadCache (self : nat) (st : alloc) : option ThreadCache * alloc :=
  match ownCache self st with
  | Some k => (Some k, st)
  | None => if existsb (Nat.eqb self) (al_gone st) then (None, st) else makeCache self st
  end.

(** The change of the live heap a thread holds back, folded in. *)
Definition foldLive (k : ThreadCache) (st : alloc) : ThreadCache * alloc :=
  (tc_with_delta k 0, if negb (tc_liveDelta k =? 0) then addLive (tc_liveDelta k) st else st).

(** A released slot joins its region's quarantine. *)
Definition enqueue (region slot : Z) (st : alloc) : alloc :=
  let st := storeWord st region slot WeavecRtDead in
  let state := al_region st region in
  let st :=
    if negb (deadTail state =? 0)
    then storeWord st region (deadTail state - 1) (makeWord (slot + 1) WeavecRtDead)
    else st in
  set_region st region
    (with_dead state (if negb (deadTail state =? 0) then deadHead state else slot + 1) (slot + 1)).

(** Whether a fork's copy of a cache holds the entry in full. *)
Definition heldDead (c region slot : Z) (st : alloc) : bool :=
  (region <? h_regions (al_heap st)) && (al_class st region =? c) && (slot <? bump (al_region st region))
  && (al_words st region slot =? claimed).

Definition heldFree (c region slot : Z) (st : alloc) : bool :=
  (region <? h_regions (al_heap st)) && (al_class st region =? c) && (slot <? bump (al_region st region))
  && negb (wordState (al_words st region slot) =? WeavecRtLive)
  && negb (wordState (al_words st region slot) =? WeavecRtDead).

(** The loop of [flushReleases]: the bytes queued. *)
Fixpoint flushFrom (released : list Z) (c slotBytes : Z) (check : bool) (bytes : Z) (st : alloc) : Z * alloc :=
  match released with
  | [] => (bytes, st)
  | entry :: rest =>
    if check && negb (heldDead c (entryRegion entry) (entrySlot entry) st)
    then flushFrom rest c slotBytes check bytes st
    else flushFrom rest c slotBytes check (bytes + slotBytes)
                   (enqueue (entryRegion entry) (entrySlot entry) st)
  end.

Definition flushReleases (k : ThreadCache) (c : Z) (check : bool) (st : alloc) : ThreadCache * alloc :=
  let '(bytes, st) := flushFrom (tc_release k c) c (slotBytesOf st c) check 0 st in
  (tc_with_release k c [],
   if negb (bytes =? 0) then gain c bytes (addQuarantine bytes st) else st).

(** A free slot joins its region's free list. *)
Definition giveBack (region slot : Z) (st : alloc) : alloc :=
  let state := al_region st region in
  let st := storeWord st region slot (makeWord (freeHead state) WeavecRtFree) in
  set_region st region (with_freeHead state (slot + 1)).

Fixpoint returnFrom (available : list Z) (c : Z) (check : bool) (st : alloc) : alloc :=
  match available with
  | [] => st
  | entry :: rest =>
    if check && negb (heldFree c (entryRegion entry) (entrySlot entry) st)
    then returnFrom rest c check st
    else returnFrom rest c check (giveBack (entryRegion entry) (entrySlot entry) st)
  end.

Definition returnSlots (k : ThreadCache) (c : Z) (check : bool) (st : alloc) : ThreadCache * alloc :=
  let st := returnFrom (tc_alloc k c) c check st in (tc_with_alloc k c [], st).

Fixpoint drainFrom (n : nat) (c : Z) (k : ThreadCache) (check : bool) (st : alloc) : ThreadCache * alloc :=
  match n with
  | O => (k, st)
  | S n' =>
    let '(k, st) := flushReleases k c check st in
    let '(k, st) := returnSlots k c check st in
    drainFrom n' (c + 1) k check st
  end.

Definition drainCache (k : ThreadCache) (check : bool) (st : alloc) : ThreadCache * alloc :=
  let '(k, st) := drainFrom (Z.to_nat (cachedClasses (al_heap st))) 0 k check st in foldLive k st.

(** A thread's exit. *)
Definition dropCache (self : nat) (st : alloc) : alloc :=
  let own := ownCache self st in
  let st := set_gone st (self :: al_gone st) in
  match own with
  | None => st
  | Some k =>
    let '(_, st) := drainCache k false st in
    set_caches st (List.filter (fun p => negb (Nat.eqb (fst p) self)) (al_caches st))
  end.

Definition weavecRtFlushThread (self : nat) (st : alloc) : alloc :=
  match ownCache self st with
  | None => st
  | Some k => let '(k, st) := drainCache k false st in set_cache st self k
  end.

(** A child's other threads: their caches go back. *)
Fixpoint drainOthers (self : nat) (l : list (nat * ThreadCache)) (st : alloc) : alloc :=
  match l with
  | [] => st
  | (t, k) :: rest =>
    if Nat.eqb t self then drainOthers self rest (set_caches st ((t, k) :: al_caches st))
    else let '(_, st) := drainCache k true st in drainOthers self rest st
  end.

Definition forkChild (self : nat) (st : alloc) : alloc :=
  drainOthers self (al_caches st) (set_caches st []).
End Slots.
