(* ===== verification/HugeBlocks.v ===== *)
(** * Blocks mapped on their own

    [runtime/weavec_alloc.c], "Huge blocks": a request no class can hold is
    mapped on its own and kept in a table sorted by the mappings' addresses; a
    released one stays there, without access, until a sweep finds no pointer to
    it.  The definitions, then the theorems: the binary search finds exactly
    the block whose mapping holds an address, and the table stays sorted and
    its mappings apart. *)

From Stdlib Require Import String.
From stdpp Require Import sorting.
From S2P Require Import Prelude Shadow Report Classes Heap.
Local Open Scope Z_scope.

Section Huge.
Context {P : Pages} {Sys : System}.

Definition hugeNone : HugeBlock := mkHuge 0 0 0 0 0 false.

Definition hugeAt (blocks : list HugeBlock) (index : nat) : HugeBlock := nth index blocks hugeNone.

(** The loop of [hugeIndex]: the number of blocks mapped at or below the
    address, by bisection. *)
Fixpoint hugeSearch (fuel : nat) (blocks : list HugeBlock) (address : Z) (low high : nat) : nat :=
  match fuel with
  | O => low
  | S fuel' =>
    if (low <? high)%nat then
      let mid := (low + (high - low) / 2)%nat in
      if hb_map (hugeAt blocks mid) <=? address
      then hugeSearch fuel' blocks address (S mid) high
      else hugeSearch fuel' blocks address low mid
    else low
  end.

(** The index of the last block whose mapping starts at or below [address],
    or -1; the interval halves, so its length bounds the rounds. *)
Definition hugeIndex (blocks : list HugeBlock) (address : Z) : Z :=
  Z.of_nat (hugeSearch (S (length blocks)) blocks address 0 (length blocks)) - 1.

Definition HugeBlockBytes : Z := 48.

(** Rounds up to a multiple of [page]. *)
Definition roundPage (size page : Z) : Z := wrap64 (size + page - 1) / page * page.

Definition ht_with_blocks (t : hugeTable) (l : list HugeBlock) : hugeTable :=
  mkHugeTable l (ht_capacity t) (ht_low t) (ht_high t) (ht_deadCount t) (ht_deadBytes t) (ht_releases t).

(** A full table moves to a mapping of twice its capacity; false when that
    mapping fails. *)
Definition hugeGrow (st : alloc) : bool * alloc :=
  let t := al_huge st in
  if Z.of_nat (length (ht_blocks t)) =? ht_capacity t then
    let capacity := if negb (ht_capacity t =? 0) then ht_capacity t * 2 else 256 in
    let '(map, st) := ask (fun n => sys_map n (mappings st) (capacity * HugeBlockBytes)) st in
    match map with
    | None => (false, st)
    | Some _ =>
      (true, set_huge st (mkHugeTable (ht_blocks t) capacity (ht_low t) (ht_high t) (ht_deadCount t)
                                         (ht_deadBytes t) (ht_releases t)))
    end
  else (true, st).

(** The block joins the table behind the last one mapped below it. *)
Definition hugeInsert (block : HugeBlock) (t : hugeTable) : hugeTable :=
  let at_ := Z.to_nat (hugeIndex (ht_blocks t) (hb_map block) + 1) in
  mkHugeTable (take at_ (ht_blocks t) ++ block :: drop at_ (ht_blocks t)) (ht_capacity t)
    (if hb_map block <? ht_low t then hb_map block else ht_low t)
    (if ht_high t <? hb_map block + hb_mapBytes block then hb_map block + hb_mapBytes block else ht_high t)
    (ht_deadCount t) (ht_deadBytes t) (ht_releases t).

(** Whether a request is refused before anything is mapped. *)
Definition hugeRefused (s : shadow) (size alignment : Z) : bool :=
  (sub64 (sub64 (2 ^ 63 - 1) (wrap64 (2 * alignment))) (2 * pageBytes) <? size)
  || (weavecRtShadowReady s && (s_bits s <? 64) && (Z.shiftl 1 (s_bits s - 2) <? size)).

(** The block's address; 0 is [ENOMEM]. *)
Definition hugeAlloc (size alignment : Z) (st : alloc) : Z * alloc :=
  let page := pageBytes in
  let alignment := if alignment <? page then page else alignment in
  if hugeRefused (al_shadow st) size alignment then (0, st)
  else
    let bytes := roundPage size page in
    let bytes := if bytes =? 0 then page else bytes in
    let mapBytes := add64 (bytes + page) (if page <? alignment then alignment else 0) in
    let '(map, st) := ask (fun n => sys_map n (mappings st) mapBytes) st in
    match map with
    | None => (0, st)
    | Some map =>
      let base := Z.land (add64 map (alignment - 1)) (Z.lnot (alignment - 1)) in
      let '(_, st) := ask sys_ok st in             (* mprotect, its answer dropped *)
      let '(grown, st) := hugeGrow st in
      if negb grown then (0, st)
      else
        (* fresh pages read zero *)
        let st := set_mem st (fill_bytes (al_mem st) map mapBytes 0) in
        let st := set_huge st (hugeInsert (mkHuge base size map mapBytes 0 false) (al_huge st)) in
        (base, set_shadow st (shadowLive (al_heap st) (al_shadow st) base size bytes))
    end.

Definition maybeHuge (t : hugeTable) (address : Z) : bool :=
  (ht_low t <=? address) && (address <? ht_high t).

(** The block of the table that holds [address], live or dead. *)
Definition hugeHolding (t : hugeTable) (address : Z) : option HugeBlock :=
  let index := hugeIndex (ht_blocks t) address in
  let block := hugeAt (ht_blocks t) (Z.to_nat index) in
  if (0 <=? index) && (address <? hb_map block + hb_mapBytes block) then Some block else None.

Definition hugeFind (t : hugeTable) (address : Z) : option HugeBlock :=
  if negb (maybeHuge t address) then None else hugeHolding t address.

(** The shadow of a released block: a large one's ends are poisoned, its
    middle is cleared. *)
Definition hugeShadowDead (s : shadow) (base size : Z) : shadow :=
  if 2 * TailLimit <? size then
    let s := shadowDead s base TailLimit in
    let s := weavecRtShadowClear s (base + TailLimit) (base + size - TailLimit) in
    shadowDead s (base + size - TailLimit) TailLimit
  else shadowDead s base size.

Definition hugeFree (address : Z) (st : alloc) : bool * alloc :=
  let t := al_huge st in
  if negb (maybeHuge t address) then (false, st)
  else
    let index := hugeIndex (ht_blocks t) address in
    let block := hugeAt (ht_blocks t) (Z.to_nat index) in
    if (0 <=? index) && (hb_base block =? address) && (hb_dead block =? 0) then
      let releases := add64 (ht_releases t) 1 in
      let dead := mkHuge (hb_base block) (hb_size block) (hb_map block) (hb_mapBytes block)
                         releases (hb_marked block) in
      let st := set_shadow st (hugeShadowDead (al_shadow st) (hb_base block) (hb_size block)) in
      let st := set_mem st (fill_bytes (al_mem st) (hb_map block) (hb_mapBytes block) 0) in
      (true, set_huge st (mkHugeTable (<[Z.to_nat index := dead]> (ht_blocks t)) (ht_capacity t)
               (ht_low t) (ht_high t) (add64 (ht_deadCount t) 1)
               (add64 (ht_deadBytes t) (hb_size block)) releases))
    else (false, st).
End Huge.

(** ** The table *)

(** The mapping of one block lies before another's. *)
Definition precedes (b b' : HugeBlock) : Prop := hb_map b + hb_mapBytes b <= hb_map b'.

(** The table: its mappings apart and in order, its bounds around them. *)
Record table_ok (t : hugeTable) : Prop := {
  tb_sorted : StronglySorted precedes (ht_blocks t);
  tb_bytes : Forall (fun b => 0 < hb_mapBytes b) (ht_blocks t);
  tb_bounds : Forall (fun b => ht_low t <= hb_map b /\ hb_map b + hb_mapBytes b <= ht_high t) (ht_blocks t)
}.

(** Whether a block's mapping holds an address. *)
Definition holds (address : Z) (b : HugeBlock) : bool :=
  (hb_map b <=? address) && (address <? hb_map b + hb_mapBytes b).

Lemma hugeAt_lookup l i : (i < length l)%nat -> l !! i = Some (hugeAt l i).
Proof. intros Hi. unfold hugeAt. destruct (nth_lookup_or_length l i hugeNone); [done|lia]. Qed.

(** A block behind another is mapped above it. *)
Lemma sorted_lookup l i j b b' :
  StronglySorted precedes l -> (i < j)%nat -> l !! i = Some b -> l !! j = Some b' -> precedes b b'.
Proof.
  intros Hs. revert i j. induction Hs as [|x l Hs IH Hx]; intros i j Hij Hi Hj; [done|].
  destruct j as [|j]; [lia|]. destruct i as [|i]; [|by apply (IH i j); [lia|..]].
  cbn in Hi, Hj. injection Hi as <-. apply list_elem_of_lookup_2 in Hj.
  exact (proj1 (list.Forall_forall _ _) Hx _ Hj).
Qed.

Section Search.
Context (l : list HugeBlock) (a : Z) (Hs : StronglySorted precedes l)
        (Hb : Forall (fun b => 0 < hb_mapBytes b) l).

(** The bisection's result: how many blocks are mapped at or below [a]. *)
Definition split_at (n : nat) : Prop :=
  (n <= length l)%nat
  /\ (forall i, (i < n)%nat -> hb_map (hugeAt l i) <= a)
  /\ (forall i, (n <= i < length l)%nat -> a < hb_map (hugeAt l i)).

Lemma map_below i j : (i < j < length l)%nat -> hb_map (hugeAt l i) < hb_map (hugeAt l j).
Proof.
  intros Hij. pose proof (sorted_lookup l i j _ _ Hs ltac:(lia) (hugeAt_lookup l i ltac:(lia)) (hugeAt_lookup l j ltac:(lia))) as Hp.
  pose proof (proj1 (list.Forall_forall _ _) Hb (hugeAt l i)
                (list_elem_of_lookup_2 _ _ _ (hugeAt_lookup l i ltac:(lia)))) as H0.
  unfold precedes in Hp. cbn in H0. lia.
Qed.

Lemma hugeSearch_split fuel low high :
  (low <= high <= length l)%nat -> (high - low < fuel)%nat ->
  (forall i, (i < low)%nat -> hb_map (hugeAt l i) <= a) ->
  (forall i, (high <= i < length l)%nat -> a < hb_map (hugeAt l i)) ->
  split_at (hugeSearch fuel l a low high).
Proof.
  revert low high. induction fuel as [|fuel IH]; intros low high Hlh Hf Hlow Hhigh; [lia|]. cbn [hugeSearch].
  destruct (Nat.ltb_spec low high) as [Hlt|Hge]; [|split_and!; [lia|done|intros; apply Hhigh; lia]].
  set (mid := (low + (high - low) / 2)%nat).
  assert (Hmid : (low <= mid < high)%nat) by (unfold mid; pose proof (Nat.div_lt (high - low) 2); lia).
  clearbody mid. destruct (Z.leb_spec (hb_map (hugeAt l mid)) a) as [Hle|Hgt].
  - apply IH; [lia|lia| |done]. intros i Hi. destruct (decide (i = mid)) as [->|]; [done|].
    pose proof (map_below i mid ltac:(lia)). lia.
  - apply IH; [lia|lia|done|]. intros i Hi. destruct (decide (i = mid)) as [->|]; [done|].
    pose proof (map_below mid i ltac:(lia)). lia.
Qed.

Lemma hugeIndex_split : exists n, hugeIndex l a = Z.of_nat n - 1 /\ split_at n.
Proof. eexists. split; [reflexivity|]. apply hugeSearch_split; try lia. Qed.
End Search.

(** The block that holds an address, by its index. *)
Lemma hugeIndex_holds l a i b :
  StronglySorted precedes l -> Forall (fun b => 0 < hb_mapBytes b) l -> l !! i = Some b ->
  holds a b = true -> hugeIndex l a = Z.of_nat i.
Proof.
  intros Hs Hb Hi Hh. unfold holds in Hh. apply andb_true_iff in Hh as [H1%Z.leb_le H2%Z.ltb_lt].
  destruct (hugeIndex_split l a Hs Hb) as (n & -> & Hn & Hlow & Hhigh).
  assert (Hil : (i < length l)%nat) by (by apply lookup_lt_Some in Hi).
  pose proof (hugeAt_lookup l i Hil) as E. rewrite Hi in E. injection E as E.
  assert (Hin : (i < n)%nat).
  { destruct (Nat.lt_ge_cases i n) as [?|Hge]; [done|]. specialize (Hhigh i ltac:(lia)). rewrite <- E in Hhigh. lia. }
  destruct (Nat.eq_dec n (S i)) as [->|Hne]; [lia|]. exfalso.
  pose proof (hugeAt_lookup l (S i) ltac:(lia)) as E'.
  pose proof (sorted_lookup l i (S i) _ _ Hs ltac:(lia) Hi E') as Hp. specialize (Hlow (S i) ltac:(lia)).
  unfold precedes in Hp. lia.
Qed.

(** [hugeFind] answers exactly the block of the table whose mapping holds the
    address. *)
Lemma hugeFind_some t a b :
  table_ok t -> hugeFind t a = Some b <-> b ∈ ht_blocks t /\ holds a b = true.
Proof.
  intros [Hs Hb Hbd]. unfold hugeFind, hugeHolding, maybeHuge. split.
  - destruct (_ && _); [|done]. destruct (hugeIndex_split (ht_blocks t) a Hs Hb) as (n & Hi & Hn & Hlow & Hhigh).
    rewrite Hi. destruct (Z.leb_spec 0 (Z.of_nat n - 1)) as [H0|]; [|done].
    replace (Z.to_nat (Z.of_nat n - 1)) with (n - 1)%nat by lia.
    destruct (Z.ltb_spec a (hb_map (hugeAt (ht_blocks t) (n - 1)) + hb_mapBytes (hugeAt (ht_blocks t) (n - 1)))); [|done].
    intros [= <-]. split; [by apply (list_elem_of_lookup_2 _ (n - 1)), hugeAt_lookup; lia|].
    unfold holds. apply andb_true_iff. split; [apply Z.leb_le, Hlow|apply Z.ltb_lt]; lia.
  - intros [Hin Hh]. apply list_elem_of_lookup in Hin as [i Hi].
    rewrite (hugeIndex_holds _ a i b Hs Hb Hi Hh).
    unfold holds in Hh. apply andb_true_iff in Hh as [H1%Z.leb_le H2%Z.ltb_lt].
    pose proof (proj1 (Forall_lookup _ _) Hbd i b Hi) as [Hl Hh']. cbn in Hl, Hh'.
    rewrite (proj2 (Z.leb_le _ _)), (proj2 (Z.ltb_lt _ _)) by lia. cbn [negb andb].
    rewrite (proj2 (Z.leb_le 0 _)) by lia. rewrite Nat2Z.id. unfold hugeAt. rewrite (nth_lookup_Some _ _ _ _ Hi).
    by rewrite (proj2 (Z.ltb_lt a _)) by lia.
Qed.

Lemma hugeFind_none t a :
  table_ok t -> hugeFind t a = None <-> Forall (fun b => holds a b = false) (ht_blocks t).
Proof.
  intros Ht. rewrite list.Forall_forall. split.
  - intros E b Hin. destruct (holds a b) eqn:Eh; [|done].
    by rewrite (proj2 (hugeFind_some t a b Ht) (conj Hin Eh)) in E.
  - intros Hn. destruct (hugeFind t a) as [b|] eqn:E; [|done]. apply hugeFind_some in E as [Hin Eh]; [|done].
    by rewrite Hn in Eh.
Qed.

(** A mapping of [n] bytes at [low] touches no block's. *)
Definition apart (low n : Z) (b : HugeBlock) : Prop :=
  low + n <= hb_map b \/ hb_map b + hb_mapBytes b <= low.

(** A block whose mapping is apart from the others' joins the table in
    order. *)
Lemma hugeInsert_ok t b :
  table_ok t -> 0 < hb_mapBytes b -> Forall (apart (hb_map b) (hb_mapBytes b)) (ht_blocks t) ->
  table_ok (hugeInsert b t) /\ ht_blocks (hugeInsert b t) ≡ₚ b :: ht_blocks t.
Proof.
  intros [Hs Hb Hbd] H0 Ha.
  destruct (hugeIndex_split (ht_blocks t) (hb_map b) Hs Hb) as (n & Hi & Hn & Hlow & Hhigh).
  assert (E : ht_blocks (hugeInsert b t) = take n (ht_blocks t) ++ b :: drop n (ht_blocks t)).
  { unfold hugeInsert. cbn. rewrite Hi. by replace (Z.to_nat (Z.of_nat n - 1 + 1)) with n by lia. }
  assert (Hperm : ht_blocks (hugeInsert b t) ≡ₚ b :: ht_blocks t).
  { rewrite E. rewrite <- Permutation_middle. by rewrite take_drop. }
  split; [|done]. rewrite <- (take_drop n (ht_blocks t)), StronglySorted_app in Hs. destruct Hs as (Hx & H1 & H2).
  pose proof (proj1 (Forall_lookup _ _) Ha) as Hap. pose proof (proj1 (Forall_lookup _ _) Hb) as Hbp. cbn in Hbp.
  assert (Hbefore : forall x, x ∈ take n (ht_blocks t) -> precedes x b).
  { intros x [i Hxi]%list_elem_of_lookup. rewrite lookup_take_Some in Hxi. destruct Hxi as [Hxi Hin].
    specialize (Hlow i Hin). unfold hugeAt in Hlow. rewrite (nth_lookup_Some _ _ _ _ Hxi) in Hlow.
    destruct (Hap i x Hxi); [|done]. unfold precedes. specialize (Hbp i x Hxi). lia. }
  assert (Hafter : forall x, x ∈ drop n (ht_blocks t) -> precedes b x).
  { intros x [i Hxi]%list_elem_of_lookup. rewrite lookup_drop in Hxi.
    specialize (Hhigh (n + i)%nat ltac:(apply lookup_lt_Some in Hxi; lia)).
    unfold hugeAt in Hhigh. rewrite (nth_lookup_Some _ _ _ _ Hxi) in Hhigh.
    destruct (Hap (n + i)%nat x Hxi); [done|]. specialize (Hbp _ x Hxi). unfold precedes. lia. }
  constructor.
  - rewrite E. apply StronglySorted_app. split_and!; [|done|].
    + intros x y Hxt [->|Hy]%elem_of_cons; [by apply Hbefore|by apply Hx].
    + apply StronglySorted_cons. split; [|done]. apply list.Forall_forall. apply Hafter.
  - rewrite Hperm. by constructor.
  - rewrite Hperm. cbn. constructor.
    + destruct (Z.ltb_spec (hb_map b) (ht_low t)), (Z.ltb_spec (ht_high t) (hb_map b + hb_mapBytes b)); lia.
    + eapply Forall_impl; [|exact Hbd]. cbn. intros x [? ?].
      destruct (Z.ltb_spec (hb_map b) (ht_low t)), (Z.ltb_spec (ht_high t) (hb_map b + hb_mapBytes b)); lia.
Qed.

(** A block's other fields may change. *)
Lemma table_replace t i b b' dc db rel :
  table_ok t -> ht_blocks t !! i = Some b -> hb_map b' = hb_map b -> hb_mapBytes b' = hb_mapBytes b ->
  table_ok (mkHugeTable (<[i := b']> (ht_blocks t)) (ht_capacity t) (ht_low t) (ht_high t) dc db rel).
Proof.
  intros [Hs Hb Hbd] Hi E1 E2. constructor; cbn.
  - clear Hb Hbd. revert i Hi. induction Hs as [|x l Hs IH Hx]; intros [|i] Hi; cbn; try done; constructor.
    + done.
    + injection Hi as ->. eapply Forall_impl; [|exact Hx]. unfold precedes. by rewrite E1, E2.
    + by apply IH.
    + apply list.Forall_insert; [done|]. pose proof (proj1 (Forall_lookup _ _) Hx i b Hi). unfold precedes in *. by rewrite E1.
  - apply list.Forall_insert; [done|]. rewrite E2. exact (proj1 (Forall_lookup _ _) Hb i b Hi).
  - apply list.Forall_insert; [done|]. rewrite E1, E2. exact (proj1 (Forall_lookup _ _) Hbd i b Hi).
Qed.

Lemma sublist_all {A} (p : A -> Prop) l l' : sublist l l' -> Forall p l' -> Forall p l.
Proof. induction 1; inversion 1; subst; auto. Qed.

(** Blocks leave the table. *)
Lemma table_sublist t l cap dc db rel :
  table_ok t -> sublist l (ht_blocks t) -> table_ok (mkHugeTable l cap (ht_low t) (ht_high t) dc db rel).
Proof.
  intros [Hs Hb Hbd] Hl. constructor; cbn; [|by eapply sublist_all..]. clear Hb Hbd.
  induction Hl as [|x l1 l2 Hl IH|x l1 l2 Hl IH]; [done| |]; apply StronglySorted_cons in Hs as [Hx Hs].
  - constructor; [by apply IH|by eapply sublist_all].
  - by apply IH.
Qed.

(** A block of the table: its pages after the object inside its mapping, which
    is outside the arena and inside the shadow's window. *)
Record block_ok (h : heap) (bits : Z) (b : HugeBlock) : Prop := {
  bo_map : 0 < hb_map b <= hb_base b;
  bo_base : hb_base b mod 16 = 0;
  bo_size : 0 <= hb_size b;
  bo_end : hb_base b + (hb_size b + 15) / 16 * 16 + 16 <= hb_map b + hb_mapBytes b <= 2 ^ bits;
  bo_apart : apart (h_base h) (h_bytes h) b
}.

(** A live block of the table, by its address and size. *)
Definition huge_live (t : hugeTable) (base size : Z) : Prop :=
  exists b, b ∈ ht_blocks t /\ hb_dead b = 0 /\ hb_base b = base /\ hb_size b = size.

Definition huge_ok (st : alloc) : Prop :=
  table_ok (al_huge st) /\ Forall (block_ok (al_heap st) (s_bits (al_shadow st))) (ht_blocks (al_huge st)).
