(* ===== verification/Sweep.v ===== *)
(** * The sweep

    [runtime/weavec_alloc.c], "The allocator's side of the sweep", and
    [weavecRtSweep] of [runtime/weavec_sweep.c]: the released slots and huge
    blocks that a word of the program points into are marked, and the others
    are recycled.

    The words of the roots (the registers, the stacks, the program's other
    mappings) come from the system ([sys_roots]); the words of the live objects
    are read from memory.  Whether every thread stopped and every mapping was
    scanned are answers of the system; the files SweepStop and SweepScan model
    how they come about, and SweepWork the workers that mark a large heap in
    parallel: they set the bits this pass sets. *)

From Stdlib Require Import String.
From S2P Require Import Prelude Shadow Report Classes Heap HugeBlocks.
Local Open Scope Z_scope.

Section Sweep.
Context {P : Pages} {Sys : System}.

(** ** Marking *)

Definition weavecRtSweepWanted (st : alloc) : bool :=
  negb (quarantineBytes (al_pace st) =? 0) || negb (ht_deadCount (al_huge st) =? 0).

(** The bytes of a region's marks. *)
Definition marksBytes (capacity : Z) : Z := (capacity + 63) / 64 * 8.

(** Maps the marks of the regions whose quarantine holds slots, from [region]
    on. *)
Fixpoint prepareFrom (n : nat) (region : Z) (st : alloc) : bool * alloc :=
  match n with
  | O => (true, st)
  | S n' =>
    let state := al_region st region in
    match marks state with
    | Some _ => prepareFrom n' (region + 1) st
    | None =>
      if deadHead state =? 0 then prepareFrom n' (region + 1) st
      else
        let '(map, st) := ask (fun k => sys_map k (mappings st) (marksBytes (c_capacity (entryOf (al_heap st) region)))) st in
        match map with
        | None => (false, st)
        | Some _ =>
          prepareFrom n' (region + 1)
            (set_region st region (with_marks (al_region st region) (Some (fun _ => false))))
        end
    end
  end.

Definition weavecRtPrepareMarks (st : alloc) : bool * alloc :=
  prepareFrom (Z.to_nat (h_regions (al_heap st))) 0 st.

(** Marks the released huge block of an index. *)
Definition markHugeAt (st : alloc) (index : nat) : alloc :=
  let t := al_huge st in
  let block := hugeAt (ht_blocks t) index in
  set_huge st (ht_with_blocks t
    (<[index := mkHuge (hb_base block) (hb_size block) (hb_map block) (hb_mapBytes block) (hb_dead block) true]>
       (ht_blocks t))).

(** Marks the quarantined slot or released huge block [value] points into. *)
Definition markAddress (st : alloc) (value : Z) : alloc :=
  let h := al_heap st in
  if inArena h value then
    let quick := al_region st (wrap32 (Z.shiftr (sub64 value (h_base h)) (h_shift h))) in
    match marks quick with
    | None => st
    | Some _ =>
      if deadHead quick =? 0 then st
      else
        let ref := slotOf h value in
        if wordState (wordOf st ref) =? WeavecRtDead then
          let state := al_region st (ref_region ref) in
          match marks state with
          | None => st
          | Some bits => set_region st (ref_region ref) (with_marks state (Some (setAt bits (ref_slot ref) true)))
          end
        else st
    end
  else
    let t := al_huge st in
    if negb (ht_deadCount t =? 0) && (ht_low t <=? value) && (value <? ht_high t) then
      let index := hugeIndex (ht_blocks t) value in
      let block := hugeAt (ht_blocks t) (Z.to_nat index) in
      if (0 <=? index) && negb (hb_dead block =? 0) && (value <? hb_map block + hb_mapBytes block)
      then markHugeAt st (Z.to_nat index) else st
    else st.

(** The aligned words of [[low, high)]. *)
Fixpoint wordsFrom (n : nat) (mem : Z -> Z) (word : Z) : list Z :=
  match n with
  | O => []
  | S n' => load_le mem word 8 :: wordsFrom n' mem (word + 8)
  end.

Definition wordsIn (mem : Z -> Z) (low high : Z) : list Z :=
  let word := Z.land (add64 low 7) (Z.lnot 7) in
  let end_ := Z.land high (Z.lnot 7) in
  wordsFrom (Z.to_nat ((end_ - word) / 8)) mem word.

Definition weavecRtMarkWords (st : alloc) (low high : Z) : alloc :=
  foldl markAddress st (wordsIn (al_mem st) low high).

Fixpoint markSlotsFrom (n : nat) (region slot : Z) (st : alloc) : alloc :=
  match n with
  | O => st
  | S n' =>
    let word := al_words st region slot in
    let st :=
      if wordState word =? WeavecRtLive
      then weavecRtMarkWords st (slotBase st region slot) (slotBase st region slot + weavecRtWordValue word)
      else st in
    markSlotsFrom n' region (slot + 1) st
  end.

Definition weavecRtMarkSlots (region first last : Z) (st : alloc) : alloc :=
  markSlotsFrom (Z.to_nat (last - first)) region first st.

Fixpoint markHugeFrom (n i : nat) (st : alloc) : alloc :=
  match n with
  | O => st
  | S n' =>
    let block := hugeAt (ht_blocks (al_huge st)) i in
    let st := if hb_dead block =? 0 then weavecRtMarkWords st (hb_base block) (hb_base block + hb_size block)
              else st in
    markHugeFrom n' (S i) st
  end.

Definition weavecRtMarkHuge (st : alloc) : alloc :=
  markHugeFrom (length (ht_blocks (al_huge st))) 0 st.

Fixpoint markRegionsFrom (n : nat) (region : Z) (st : alloc) : alloc :=
  match n with
  | O => st
  | S n' => markRegionsFrom n' (region + 1) (weavecRtMarkSlots region 0 (bump (al_region st region)) st)
  end.

Definition weavecRtMarkHeap (st : alloc) : alloc :=
  weavecRtMarkHuge (markRegionsFrom (Z.to_nat (h_regions (al_heap st))) 0 st).

(** ** Recycling *)

Definition retain (c : sweepCounts) (bytes : Z) : sweepCounts :=
  mkCounts (sc_recycled c) (add64 (sc_retained c) 1) (add64 (sc_retainedBytes c) bytes).
Definition recycled (c : sweepCounts) : sweepCounts :=
  mkCounts (add64 (sc_recycled c) 1) (sc_retained c) (sc_retainedBytes c).

Definition takeQuarantine (bytes : Z) (st : alloc) : alloc :=
  let p := al_pace st in
  set_pace st (mkPace (quarantineBudget p) (sub64 (quarantineBytes p) bytes) (retainedBytes p) (liveBytes p)
    (peakLive p) (peakQuarantine p) (lastSweepEnd p) (lastSweepTook p) (nextPacingCheck p)).

(** The slots of a region below [n], from the last: the quarantine's marked
    ones are linked anew, the others join the free list. *)
Fixpoint recycleSlots (n : nat) (region size : Z) (bits : Z -> bool) (recycle : bool)
    (keptHead : Z) (counts : sweepCounts) (st : alloc) : Z * sweepCounts * alloc :=
  match n with
  | O => (keptHead, counts, st)
  | S n' =>
    let slot := Z.of_nat n' in
    let word := al_words st region slot in
    if negb (wordState word =? WeavecRtDead) || (weavecRtWordValue word =? CachedDead)
    then recycleSlots n' region size bits recycle keptHead counts st
    else if negb recycle || bits slot then
      let st := if keptHead =? 0
                then set_region st region (with_dead (al_region st region) (deadHead (al_region st region)) (slot + 1))
                else st in
      recycleSlots n' region size bits recycle (slot + 1) (retain counts size)
                   (storeWord st region slot (makeWord keptHead WeavecRtDead))
    else
      let st := storeWord st region slot (makeWord (freeHead (al_region st region)) WeavecRtFree) in
      let st := set_region st region (with_freeHead (al_region st region) (slot + 1)) in
      recycleSlots n' region size bits recycle keptHead (recycled counts)
                   (countStat (takeQuarantine size st) WeavecRtStatRecycled)
  end.

Definition recycleRegion (region : Z) (recycle : bool) (counts : sweepCounts) (st : alloc) : sweepCounts * alloc :=
  let state := al_region st region in
  match marks state with
  | None => (counts, st)
  | Some bits =>
    if deadHead state =? 0 then (counts, st)
    else
      let '(keptHead, counts, st) :=
        recycleSlots (Z.to_nat (bump state)) region (slotBytesOf st region) bits recycle 0 counts st in
      let state := al_region st region in
      let tail := if keptHead =? 0 then 0 else deadTail state in
      (counts, set_region st region (with_marks (with_dead state keptHead tail)
        (Some (fun slot => if slot <? (bump state + 63) / 64 * 64 then false else bits slot))))
  end.

Fixpoint recycleRegions (n : nat) (region : Z) (recycle : bool) (counts : sweepCounts) (st : alloc)
    : sweepCounts * alloc :=
  match n with
  | O => (counts, st)
  | S n' =>
    let '(counts, st) := recycleRegion region recycle counts st in
    recycleRegions n' (region + 1) recycle counts st
  end.

(** The huge blocks that stay, unmarked, the shadow and the counts. *)
Fixpoint recycleHuge (blocks : list HugeBlock) (recycle : bool) (counts : sweepCounts) (st : alloc)
    : list HugeBlock * sweepCounts * alloc :=
  match blocks with
  | [] => ([], counts, st)
  | block :: rest =>
    if (hb_dead block =? 0) || hb_marked block || negb recycle then
      let counts := if negb (hb_dead block =? 0) then retain counts (hb_size block) else counts in
      let '(kept, counts, st) := recycleHuge rest recycle counts st in
      (mkHuge (hb_base block) (hb_size block) (hb_map block) (hb_mapBytes block) (hb_dead block) false :: kept,
       counts, st)
    else
      let st := set_shadow st (weavecRtShadowClear (al_shadow st) (hb_base block)
                                 (hb_base block + hb_size block + 16)) in
      let t := al_huge st in
      let st := set_huge st (mkHugeTable (ht_blocks t) (ht_capacity t) (ht_low t) (ht_high t)
                  (sub64 (ht_deadCount t) 1) (sub64 (ht_deadBytes t) (hb_size block)) (ht_releases t)) in
      recycleHuge rest recycle (recycled counts) st
  end.

Definition weavecRtRecycle (recycle : bool) (st : alloc) : sweepCounts * alloc :=
  let st := set_gained st (fun c => if (0 <=? c) && (c <? h_classes (al_heap st)) then 0 else al_gained st c) in
  let '(counts, st) := recycleRegions (Z.to_nat (h_regions (al_heap st))) 0 recycle (mkCounts 0 0 0) st in
  let '(kept, counts, st) := recycleHuge (ht_blocks (al_huge st)) recycle counts st in
  let st := set_huge st (ht_with_blocks (al_huge st) kept) in
  let p := al_pace st in
  (counts, set_pace st (mkPace (quarantineBudget p) (quarantineBytes p)
             (add64 (quarantineBytes p) (ht_deadBytes (al_huge st))) (liveBytes p) (peakLive p) (peakQuarantine p)
             (lastSweepEnd p) (lastSweepTook p) (nextPacingCheck p))).

(** ** Pacing *)

(** The released bytes held, and those released since the last sweep. *)
Definition heldBytes (st : alloc) : Z := add64 (quarantineBytes (al_pace st)) (ht_deadBytes (al_huge st)).

Definition gainedBytes (st : alloc) : Z :=
  if retainedBytes (al_pace st) <? heldBytes st then heldBytes st - retainedBytes (al_pace st) else 0.

Definition with_pacing (st : alloc) (ended took check : Z) : alloc :=
  let p := al_pace st in
  set_pace st (mkPace (quarantineBudget p) (quarantineBytes p) (retainedBytes p) (liveBytes p) (peakLive p)
                      (peakQuarantine p) ended took check).

Definition softBudget (st : alloc) : Z :=
  let budget := quarantineBudget (al_pace st) in
  if liveNow st / 4 <? budget then budget else liveNow st / 4.

Definition hardBudget (st : alloc) : Z :=
  let twice := wrap64 (2 * quarantineBudget (al_pace st)) in
  if liveNow st / 2 <? twice then twice else liveNow st / 2.

(** Whether the quarantine should be swept. *)
Definition overBudget (st : alloc) : bool * alloc :=
  let gained := gainedBytes st in
  let p := al_pace st in
  if (gained <? softBudget st) || (gained <? nextPacingCheck p) then (false, st)
  else if hardBudget st <=? gained then (true, st)
  else
    let '(now, st) := ask sys_clock st in
    if wrap64 (8 * lastSweepTook p) <=? sub64 now (lastSweepEnd p) then (true, st)
    else (false, with_pacing st (lastSweepEnd p) (lastSweepTook p) (add64 gained (softBudget st / 16))).

Definition weavecRtSwept (ended took : Z) (marked : bool) (st : alloc) : alloc :=
  with_pacing st ended took (if marked then 0 else add64 (gainedBytes st) (hardBudget st)).

(** ** A sweep *)

Definition weavecRtAllocatorNested (self : nat) (st : alloc) : bool :=
  match ownCache self st with Some k => 1 <? tc_depth k | None => false end.

(** The marking and the recycling of a stopped world. *)
Definition markAndRecycle (st : alloc) : alloc :=
  let '(roots, st) := ask sys_roots st in
  let '(complete, st) := ask sys_ok st in      (* scanned && !threadsChanged() *)
  let st := weavecRtMarkHeap (foldl markAddress st roots) in
  let '(counts, st) := weavecRtRecycle complete st in
  let st := countStat st WeavecRtStatSweeps in
  set_sweeps st (mkTotals counts (sw_nanos (al_sweeps st)) (sw_longest (al_sweeps st))).

Definition weavecRtSweep (self : nat) (st : alloc) : alloc :=
  if weavecRtAllocatorNested self st then st
  else
    let st := weavecRtFlushThread self st in
    if negb (weavecRtSweepWanted st) then st
    else
      let '(locked, st) := ask sys_ok st in    (* trySweepLock() *)
      if negb locked then st
      else
        let '(world, st) := ask sys_ok st in   (* mapWorld() *)
        if negb world then st
        else
          let '(started, st) := ask sys_clock st in
          let '(stopped, st) := ask sys_ok st in
          let '(prepared, st) := if (stopped : bool) then weavecRtPrepareMarks st else (false, st) in
          let st := if (prepared : bool) then markAndRecycle st else st in
          let '(ended, st) := ask sys_clock st in
          let took := sub64 ended started in
          let sw := al_sweeps st in
          let st := set_sweeps st (mkTotals (sw_last sw) (add64 (sw_nanos sw) took)
                                     (if sw_longest sw <? took then took else sw_longest sw)) in
          weavecRtSwept ended took prepared st.
End Sweep.
