(* ===== verification/SweepStop.v ===== *)
(** * Stopping the world

    [runtime/weavec_sweep.c], lines 798 to 1043 (Linux): the sweeping thread
    signals every other thread and waits until each has answered from its
    handler, where it stays until the sweep resumes it.  The sweeping thread
    and the handlers interleave: a state machine, whose steps are the reads
    and writes of the shared variables, in the order of the code.

    Two theorems: when a stop begins while no handler is halfway, and
    [stopThreads] answers 1, every thread asked that still exists waits in its
    handler; and a handler left halfway by a stop that gave up after a second
    counts for the next stop without waiting. *)

From stdpp Require Import gmap sets relations.
From S2P Require Import Prelude.
Local Open Scope Z_scope.

(** ** The state *)

(** A thread of the program: outside [stopHandler]; in it, having read
    [stopGeneration]; having found its place in the table and stored its stack
    pointer; counted, and waiting for another generation. *)
Inductive threadState :=
  | Outside
  | ReadGeneration (generation : Z)
  | StoredSp (generation : Z) (i : nat)
  | Waiting (generation : Z)
  | Exited.

(** The sweeping thread: outside a stop; sending, so many sent; waiting for the
    answers; done, the threads stopped; done, given up; [stopping] cleared. *)
Inductive sweeperState :=
  | Idle
  | Sending (i : nat) (sent : Z)
  | WaitingFor (sent : Z)
  | StoppedAll
  | GaveUp
  | Resuming.

Record world := mkWorld {
  threads : gmap nat threadState;       (* the program's threads, by a number none gets again *)
  pending : gset nat;                   (* those with the signal pending *)
  stopped : list (option nat);          (* the table; [None] for 0 *)
  stoppedSp : gset nat;                 (* the indexes with a stack pointer *)
  stoppedCount : Z;
  stopping : bool;
  stopGeneration : Z;
  sweeper : sweeperState
}.

Definition with_thread (t : nat) (s : threadState) (w : world) : world :=
  mkWorld (<[t := s]> (threads w)) (pending w) (stopped w) (stoppedSp w) (stoppedCount w) (stopping w) (stopGeneration w) (sweeper w).
Definition with_pending (p : gset nat) (w : world) : world :=
  mkWorld (threads w) p (stopped w) (stoppedSp w) (stoppedCount w) (stopping w) (stopGeneration w) (sweeper w).
Definition with_stopped (l : list (option nat)) (w : world) : world :=
  mkWorld (threads w) (pending w) l (stoppedSp w) (stoppedCount w) (stopping w) (stopGeneration w) (sweeper w).
Definition with_sp (s : gset nat) (w : world) : world :=
  mkWorld (threads w) (pending w) (stopped w) s (stoppedCount w) (stopping w) (stopGeneration w) (sweeper w).
Definition with_count (n : Z) (w : world) : world :=
  mkWorld (threads w) (pending w) (stopped w) (stoppedSp w) n (stopping w) (stopGeneration w) (sweeper w).
Definition with_sweeper (s : sweeperState) (w : world) : world :=
  mkWorld (threads w) (pending w) (stopped w) (stoppedSp w) (stoppedCount w) (stopping w) (stopGeneration w) s.

(** Where a thread is in the table. *)
Definition placeOf (w : world) (t : nat) : option nat := fst <$> list_find (fun x => x = Some t) (stopped w).

Definition alive (w : world) (t : nat) : Prop := exists s, threads w !! t = Some s /\ s <> Exited.

(** ** The steps *)

Inductive step : world -> world -> Prop :=
  (** The program's threads: they come and go, and anyone may send the signal. *)
  | step_spawn w t : threads w !! t = None -> step w (with_thread t Outside w)
  | step_exit w t : threads w !! t = Some Outside -> step w (with_thread t Exited w)
  | step_kill w t : alive w t -> step w (with_pending ({[t]} ∪ pending w) w)
  (** [stopHandler]: the signal is delivered and the generation read; *)
  | step_deliver w t : threads w !! t = Some Outside -> t ∈ pending w ->
    step w (with_thread t (ReadGeneration (stopGeneration w)) (with_pending (pending w ∖ {[t]}) w))
  (** no stop in progress, or the thread is not asked; *)
  | step_ignore w t g : threads w !! t = Some (ReadGeneration g) -> stopping w = false \/ placeOf w t = None ->
    step w (with_thread t Outside w)
  (** its stack pointer stored; *)
  | step_store w t g i : threads w !! t = Some (ReadGeneration g) -> stopping w = true -> placeOf w t = Some i ->
    step w (with_thread t (StoredSp g i) (with_sp ({[i]} ∪ stoppedSp w) w))
  (** counted; *)
  | step_count w t g i : threads w !! t = Some (StoredSp g i) ->
    step w (with_thread t (Waiting g) (with_count (stoppedCount w + 1) w))
  (** and it goes on under another generation. *)
  | step_leave w t g : threads w !! t = Some (Waiting g) -> stopGeneration w <> g -> step w (with_thread t Outside w)
  (** [stopThreads]: the tasks listed, the table filled; *)
  | step_begin w l : sweeper w = Idle -> NoDup l -> (forall t, t ∈ l <-> alive w t) ->
    step w (mkWorld (threads w) (pending w) (map Some l) ∅ 0 true (stopGeneration w) (Sending 0 0))
  (** the signals sent; *)
  | step_send w i sent t : sweeper w = Sending i sent -> stopped w !! i = Some (Some t) -> alive w t ->
    step w (with_sweeper (Sending (S i) (sent + 1)) (with_pending ({[t]} ∪ pending w) w))
  | step_send_gone w i sent t : sweeper w = Sending i sent -> stopped w !! i = Some (Some t) -> threads w !! t = Some Exited ->
    step w (with_sweeper (Sending (S i) sent) (with_stopped (<[i := None]> (stopped w)) w))
  | step_sent w i sent : sweeper w = Sending i sent -> i = length (stopped w) -> step w (with_sweeper (WaitingFor sent) w)
  (** enough answers; *)
  | step_enough w sent : sweeper w = WaitingFor sent -> sent <= stoppedCount w -> step w (with_sweeper StoppedAll w)
  (** the deadline; *)
  | step_deadline w sent : sweeper w = WaitingFor sent -> step w (with_sweeper GaveUp w)
  (** a thread that exited without an answer is taken out; *)
  | step_gone w sent i t : sweeper w = WaitingFor sent -> stopped w !! i = Some (Some t) -> i ∉ stoppedSp w -> threads w !! t = Some Exited ->
    step w (with_sweeper (WaitingFor (sent - 1)) (with_stopped (<[i := None]> (stopped w)) w))
  (** [resumeThreads]. *)
  | step_clear w : sweeper w = StoppedAll \/ sweeper w = GaveUp ->
    step w (mkWorld (threads w) (pending w) (stopped w) (stoppedSp w) (stoppedCount w) false (stopGeneration w) Resuming)
  | step_resume w : sweeper w = Resuming ->
    step w (mkWorld (threads w) (pending w) (stopped w) (stoppedSp w) (stoppedCount w) (stopping w) (stopGeneration w + 1) Idle).

(** ** A stop *)

(** No handler is halfway with an old generation. *)
Definition clean (w : world) : Prop :=
  sweeper w = Idle /\ forall t s, threads w !! t = Some s ->
    match s with
    | Outside | Exited => True
    | ReadGeneration g => g = stopGeneration w
    | StoredSp _ _ => False
    | Waiting g => g <> stopGeneration w
    end.

(** A step of the stop that began, not its end. *)
Definition stopStep (w w' : world) : Prop := step w w' /\ sweeper w <> Idle /\ sweeper w' <> Idle /\ sweeper w' <> Resuming.

(** The threads that wait in this stop. *)
Definition waits (w : world) (t : nat) : Prop := threads w !! t = Some (Waiting (stopGeneration w)).

(** The entries of the table that are left. *)
Definition asked (l : list (option nat)) : list nat := omap id l.

(** In the stop that listed the threads [tasks]. *)
Record stop_inv (tasks : list nat) (w : world) : Prop := {
  si_tasks : forall t, t ∈ tasks -> t ∈ asked (stopped w) \/ threads w !! t = Some Exited;
  si_nodup : NoDup (asked (stopped w));
  si_stopping : stopping w = true;
  (** the handlers inside belong to this stop *)
  si_read : forall t g, threads w !! t = Some (ReadGeneration g) -> g = stopGeneration w;
  si_stored : forall t g i, threads w !! t = Some (StoredSp g i) -> g = stopGeneration w /\ stopped w !! i = Some (Some t) /\ i ∈ stoppedSp w;
  si_waits : forall t, waits w t -> exists i, stopped w !! i = Some (Some t) /\ i ∈ stoppedSp w;
  (** the answers *)
  si_count : exists l, NoDup l /\ (forall t, t ∈ l <-> waits w t) /\ stoppedCount w = Z.of_nat (length l);
  (** the signals sent *)
  si_sent : match sweeper w with
            | Sending i sent => sent = Z.of_nat (length (asked (take i (stopped w)))) /\ (i <= length (stopped w))%nat
            | WaitingFor sent => sent = Z.of_nat (length (asked (stopped w)))
            | StoppedAll => Z.of_nat (length (asked (stopped w))) <= stoppedCount w
            | _ => True
            end
}.

(** *** The table *)

Lemma asked_in l i t : l !! i = Some (Some t) -> t ∈ asked l.
Proof. intros Hi. apply list_elem_of_omap. exists (Some t). split; [by eapply list_elem_of_lookup_2|done]. Qed.

Lemma asked_map l : asked (map Some l) = l.
Proof. unfold asked. induction l as [|t l IH]; [done|]. cbn. by rewrite IH. Qed.

Lemma asked_app l1 l2 : asked (l1 ++ l2) = asked l1 ++ asked l2.
Proof. unfold asked. apply omap_app. Qed.

Lemma asked_split l i t : l !! i = Some (Some t) -> asked l = asked (take i l) ++ t :: asked (drop (S i) l).
Proof. intros Hi. rewrite <- (take_drop_middle l i (Some t) Hi) at 1. by rewrite asked_app. Qed.

Lemma asked_drop l i t : l !! i = Some (Some t) -> asked (<[i := None]> l) = asked (take i l) ++ asked (drop (S i) l).
Proof.
  intros Hi. rewrite insert_take_drop by (by eapply lookup_lt_Some). by rewrite asked_app.
Qed.

Lemma asked_next l i t : l !! i = Some (Some t) -> length (asked (take (S i) l)) = S (length (asked (take i l))).
Proof. intros Hi. rewrite (take_S_r _ _ _ Hi), asked_app, length_app. cbn. lia. Qed.

Lemma placeOf_at w t i : placeOf w t = Some i -> stopped w !! i = Some (Some t).
Proof.
  unfold placeOf. destruct (list_find _ _) as [[j x]|] eqn:E; [|done]. intros [= <-]. apply list_find_Some in E as (Hj & -> & _). done.
Qed.

(** A stop begins. *)
Lemma begin_inv w l w' : clean w -> NoDup l -> (forall t, t ∈ l <-> alive w t) ->
  w' = mkWorld (threads w) (pending w) (map Some l) ∅ 0 true (stopGeneration w) (Sending 0 0) -> stop_inv l w'.
Proof.
  intros [_ Hclean] Hdup Hl ->. split; cbn.
  - intros t Ht. left. by rewrite asked_map.
  - by rewrite asked_map.
  - done.
  - intros t g Ht. exact (Hclean t _ Ht).
  - intros t g i Ht. destruct (Hclean t _ Ht).
  - intros t Ht. destruct (Hclean t _ Ht). done.
  - exists []. split; [constructor|]. split; [|done]. intros t. split; [set_solver|]. intros Ht. destruct (Hclean t _ Ht). done.
  - split; [done|lia].
Qed.

(** *** A thread's step *)

Lemma thread_inv tasks w w' t s :
  stop_inv tasks w -> threads w !! t <> Some Exited -> ~ waits w t ->
  threads w' = <[t := s]> (threads w) -> stopped w' = stopped w -> stopping w' = stopping w -> stopGeneration w' = stopGeneration w ->
  sweeper w' = sweeper w -> stoppedSp w ⊆ stoppedSp w' ->
  match s with
  | ReadGeneration g => g = stopGeneration w
  | StoredSp g i => g = stopGeneration w /\ stopped w !! i = Some (Some t) /\ i ∈ stoppedSp w'
  | Waiting g => g = stopGeneration w /\ exists i, stopped w !! i = Some (Some t) /\ i ∈ stoppedSp w
  | _ => True
  end ->
  stoppedCount w' = (match s with Waiting _ => stoppedCount w + 1 | _ => stoppedCount w end) ->
  stop_inv tasks w'.
Proof.
  intros Hinv Hex Hnw Et Es Eg Egen Esw Hsp Hs Hc. unfold waits in *.
  assert (Hw : forall t', waits w' t' <-> (t' = t /\ (match s with Waiting _ => True | _ => False end)) \/ (t' <> t /\ waits w t')).
  { intros t'. unfold waits. rewrite Et, Egen. destruct (decide (t' = t)) as [->|Hne].
    - rewrite lookup_insert_eq. destruct s; [..|destruct Hs as [-> _]|]; naive_solver.
    - rewrite lookup_insert_ne by done. naive_solver. }
  split.
  - intros t' Ht'. rewrite Es, Et. destruct (si_tasks _ _ Hinv t' Ht') as [Ha|Hx]; [by left|]. right. rewrite lookup_insert_ne; [done|]. congruence.
  - rewrite Es. apply (si_nodup _ _ Hinv).
  - rewrite Eg. apply (si_stopping _ _ Hinv).
  - intros t' g. rewrite Et, Egen. destruct (decide (t' = t)) as [->|]; [rewrite lookup_insert_eq; by intros [= ->]|].
    rewrite lookup_insert_ne by done. apply (si_read _ _ Hinv).
  - intros t' g i. rewrite Et, Es, Egen. destruct (decide (t' = t)) as [->|]; [rewrite lookup_insert_eq; by intros [= ->]|].
    rewrite lookup_insert_ne by done. intros Hl. destruct (si_stored _ _ Hinv _ _ _ Hl) as (H1 & H2 & H3). split_and!; [done|done|by apply Hsp].
  - intros t' [[-> Hwait]|[Hne Hwait]]%Hw; rewrite Es.
    + destruct s; try done. destruct Hs as (_ & i & H1 & H2). exists i. split; [done|by apply Hsp].
    + destruct (si_waits _ _ Hinv t' Hwait) as (i & H1 & H2). exists i. split; [done|by apply Hsp].
  - destruct (si_count _ _ Hinv) as (l & Hdup & Hl & Hn). assert (Hnin : t ∉ l) by (by rewrite Hl).
    destruct s; try (exists l; split; [done|]; split; [intros t'; rewrite Hl, Hw; split; [intros Hwt; right; split; [|done]; intros ->; done|tauto]|lia]).
    exists (t :: l). split; [by constructor|]. split; [|cbn; lia]. intros t'. rewrite elem_of_cons, Hl, Hw. split; [|tauto].
    intros [->|Hwt]; [by left|]. destruct (decide (t' = t)) as [->|]; [by left|by right].
  - rewrite Esw, Es. assert (Hle : stoppedCount w <= stoppedCount w') by (rewrite Hc; destruct s; lia).
    pose proof (si_sent _ _ Hinv) as Hsent. destruct (sweeper w); try done. lia.
Qed.

(** *** A thread taken out of the table *)

Lemma out_inv tasks w i t sw' :
  stop_inv tasks w -> stopped w !! i = Some (Some t) -> threads w !! t = Some Exited ->
  match sw' with
  | Sending j sent => j = S i /\ sent = Z.of_nat (length (asked (take i (stopped w))))
  | WaitingFor sent => sent + 1 = Z.of_nat (length (asked (stopped w)))
  | _ => False
  end ->
  stop_inv tasks (with_sweeper sw' (with_stopped (<[i := None]> (stopped w)) w)).
Proof.
  intros Hinv Hi Hx Hsw. pose proof (asked_split _ _ _ Hi) as Hsplit. pose proof (asked_drop _ _ _ Hi) as Hdrop.
  assert (Hkeep : forall j t', stopped w !! j = Some (Some t') -> threads w !! t' <> Some Exited -> <[i := None]> (stopped w) !! j = Some (Some t')).
  { intros j t' Hj Hne. rewrite list_lookup_insert_ne; [done|]. intros <-. congruence. }
  split; cbn [threads pending stopped stoppedSp stoppedCount stopping stopGeneration sweeper with_sweeper with_stopped].
  - intros t' Ht'. destruct (si_tasks _ _ Hinv t' Ht') as [Ha|]; [|by right]. rewrite Hsplit in Ha. rewrite Hdrop.
    apply elem_of_app in Ha as [Ha|[->|Ha]%elem_of_cons]; [left; set_solver|by right|left; set_solver].
  - rewrite Hdrop. pose proof (si_nodup _ _ Hinv) as Hdup. rewrite Hsplit in Hdup. apply list.NoDup_app in Hdup as (H1 & H2 & H3).
    apply list.NoDup_app. split_and!; [done|set_solver|]. by apply list.NoDup_cons in H3 as [_ H3].
  - apply (si_stopping _ _ Hinv).
  - apply (si_read _ _ Hinv).
  - intros t' g j Ht'. destruct (si_stored _ _ Hinv t' g j Ht') as (H1 & H2 & H3). split_and!; [done| |done]. apply Hkeep; [done|congruence].
  - intros t' Ht'. destruct (si_waits _ _ Hinv t' Ht') as (j & H1 & H2). exists j. split; [|done]. apply Hkeep; [done|]. unfold waits in Ht'. cbn in Ht'. congruence.
  - apply (si_count _ _ Hinv).
  - assert (Hlen : length (asked (stopped w)) = S (length (asked (<[i:=None]> (stopped w)))))
      by (rewrite Hsplit, Hdrop, !length_app; cbn; lia).
    destruct sw'; try done; [|lia]. destruct Hsw as [-> ->]. pose proof (lookup_lt_Some _ _ _ Hi) as Hlt. split; [|rewrite length_insert; lia].
    rewrite (take_S_r _ i None) by (by apply list_lookup_insert_eq). rewrite take_insert_ge, asked_app by lia. cbn. by rewrite app_nil_r.
Qed.

(** *** Every step *)

Lemma step_inv tasks w w' : stop_inv tasks w -> stopStep w w' -> stop_inv tasks w'.
Proof.
  intros Hinv (Hstep & Hidle & Hidle' & Hres). destruct Hstep as [w t Ht|w t Ht|w t Ha|w t Ht Hp|w t g Ht Hno|w t g i Ht Hst Hpl|w t g i Ht|w t g Ht Hg
    |w l Hi|w i sent t Hsw Hi Ha|w i sent t Hsw Hi Hx|w i sent Hsw Hi|w sent Hsw Hn|w sent Hsw|w sent i t Hsw Hi Hsp Hx|w Hsw|w Hsw];
    try (by exfalso; cbn in *; congruence).
  - eapply (thread_inv tasks w _ t Outside Hinv); try done; unfold waits; by rewrite Ht.
  - eapply (thread_inv tasks w _ t Exited Hinv); try done; unfold waits; by rewrite Ht.
  - destruct Hinv. by split.
  - eapply (thread_inv tasks w _ t (ReadGeneration (stopGeneration w)) Hinv); try done; unfold waits; by rewrite Ht.
  - eapply (thread_inv tasks w _ t Outside Hinv); try done; unfold waits; by rewrite Ht.
  - pose proof (si_read _ _ Hinv t g Ht) as ->.
    eapply (thread_inv tasks w _ t (StoredSp (stopGeneration w) i) Hinv); try done; try (unfold waits; by rewrite Ht); cbn; [set_solver|].
    split; [done|]. split; [by apply placeOf_at|set_solver].
  - destruct (si_stored _ _ Hinv t g i Ht) as (-> & Hi & Hsp).
    eapply (thread_inv tasks w _ t (Waiting (stopGeneration w)) Hinv); try done; try (unfold waits; by rewrite Ht); cbn. split; [done|]. by exists i.
  - eapply (thread_inv tasks w _ t Outside Hinv); try done; unfold waits; rewrite Ht; congruence.
  - pose proof (si_sent _ _ Hinv) as Hsent. rewrite Hsw in Hsent. destruct Hinv. split; try done.
    change (sent + 1 = Z.of_nat (length (asked (take (S i) (stopped w)))) /\ (S i <= length (stopped w))%nat). rewrite (asked_next _ _ _ Hi).
    destruct Hsent as [-> Hle]. apply lookup_lt_Some in Hi. split; lia.
  - pose proof (si_sent _ _ Hinv) as Hsent. rewrite Hsw in Hsent. by eapply out_inv; [..|destruct Hsent as [-> _]].
  - pose proof (si_sent _ _ Hinv) as Hsent. rewrite Hsw in Hsent. destruct Hinv. split; try done. cbn. destruct Hsent as [-> _]. subst i. by rewrite firstn_all.
  - pose proof (si_sent _ _ Hinv) as Hsent. rewrite Hsw in Hsent. destruct Hinv. split; try done. change (Z.of_nat (length (asked (stopped w))) <= stoppedCount w). lia.
  - destruct Hinv. by split.
  - pose proof (si_sent _ _ Hinv) as Hsent. rewrite Hsw in Hsent. eapply out_inv; [done..|].
    change (sent - 1 + 1 = Z.of_nat (length (asked (stopped w)))). lia.
Qed.

Lemma steps_inv tasks w w' : stop_inv tasks w -> rtc stopStep w w' -> stop_inv tasks w'.
Proof. intros Hinv Hr. induction Hr as [w|w w1 w2 Hs _ IH]; [done|]. apply IH. by eapply step_inv. Qed.

(** As many answers as threads asked: all of them wait. *)
Lemma all_wait tasks w : stop_inv tasks w -> sweeper w = StoppedAll -> forall t, t ∈ tasks -> waits w t \/ threads w !! t = Some Exited.
Proof.
  intros Hinv Hsw t Ht. destruct (si_tasks _ _ Hinv t Ht) as [Ha|]; [left|by right].
  destruct (si_count _ _ Hinv) as (l & Hdup & Hl & Hn). pose proof (si_sent _ _ Hinv) as Hsent. rewrite Hsw, Hn in Hsent.
  apply Hl. apply list_elem_of_In, (List.NoDup_length_incl (l := l) (l' := asked (stopped w))); [by apply NoDup_ListNoDup|lia| |by apply list_elem_of_In].
  intros x Hx%list_elem_of_In%Hl. apply list_elem_of_In. destruct (si_waits _ _ Hinv x Hx) as (i & Hi & _). by eapply asked_in.
Qed.

(** [threadsChanged]: a task that was not listed. *)
Definition threadsChanged (tasks : list nat) (w : world) : Prop := exists t, alive w t /\ t ∉ tasks.

(** C12: when a stop begins while no handler is halfway, and [stopThreads]
    answers 1, however the threads came, went, were signalled by others and
    answered in between: every thread that was listed and still exists waits in
    its handler for the sweep to end; so does every thread there is, unless
    [threadsChanged] says that a new one came. *)
Theorem stop_sound w tasks w1 w2 :
  clean w -> NoDup tasks -> (forall t, t ∈ tasks <-> alive w t) ->
  w1 = mkWorld (threads w) (pending w) (map Some tasks) ∅ 0 true (stopGeneration w) (Sending 0 0) ->
  rtc stopStep w1 w2 -> sweeper w2 = StoppedAll ->
  step w w1
  /\ (forall t, t ∈ tasks -> waits w2 t \/ threads w2 !! t = Some Exited)
  /\ (~ threadsChanged tasks w2 -> forall t, alive w2 t -> waits w2 t).
Proof.
  intros Hclean Hdup Htasks E Hr Hsw. pose proof (steps_inv tasks w1 w2 (begin_inv w tasks w1 Hclean Hdup Htasks E) Hr) as Hinv.
  split; [subst w1; apply step_begin; [apply Hclean|done|done]|]. split; [by apply all_wait|].
  intros Hno t Ht. destruct (decide (t ∈ tasks)) as [Hin|Hnin]; [|by destruct Hno; exists t].
  destruct (all_wait tasks w2 Hinv Hsw t Hin) as [|Hx]; [done|]. destruct Ht as (s & Hs & Hne). congruence.
Qed.

(** A thread that waits does nothing until the sweep resumes it. *)
Lemma waits_until t w w' : waits w t -> step w w' -> stopGeneration w' = stopGeneration w -> waits w' t.
Proof.
  unfold waits. intros Ht Hs Hg. rewrite Hg.
  assert (Hkeep : forall t' s, threads w !! t' <> Some (Waiting (stopGeneration w)) -> <[t' := s]> (threads w) !! t = Some (Waiting (stopGeneration w)))
    by (intros t' s Hne; rewrite lookup_insert_ne; [done|congruence]).
  destruct Hs as [w t' E|w t' E|w t' E|w t' E _|w t' g E _|w t' g i E _ _|w t' g i E|w t' g E Hne|w l E|w i sent t' E|w i sent t' E|w i sent E|w sent E|w sent E|w sent i t' E|w E|w E];
    cbn in *; try done; apply Hkeep; rewrite E; congruence.
Qed.

(** ** Two threads *)

Module TwoThreads.
Definition start : world := mkWorld {[1%nat := Outside; 2%nat := Outside]} ∅ [] ∅ 0 false 0 Idle.

Lemma start_clean : clean start.
Proof.
  split; [done|]. intros t s Ht. unfold start in Ht. cbn [threads] in Ht. rewrite lookup_insert_Some in Ht.
  destruct Ht as [[_ <-]|[_ [_ <-]%lookup_singleton_Some]]; done.
Qed.

Lemma start_alive t : t ∈ [1; 2]%nat <-> alive start t.
Proof.
  unfold alive, start. cbn [threads]. rewrite !elem_of_cons. split.
  - intros [->|[->|Ht]]; [by exists Outside|by exists Outside|set_solver].
  - intros (s & Ht & _). rewrite lookup_insert_Some in Ht. destruct Ht as [[<- _]|[_ [<- _]%lookup_singleton_Some]]; auto.
Qed.

Lemma listed w : dom (threads w) = {[1; 2]}%nat -> alive w 1%nat -> alive w 2%nat -> forall t, t ∈ [1; 2]%nat <-> alive w t.
Proof.
  intros Hd H1 H2 t. rewrite !elem_of_cons. split; [intros [->|[->|Ht]]; [done|done|set_solver]|].
  intros (s & Ht & _). apply elem_of_dom_2 in Ht. rewrite Hd in Ht. set_solver.
Qed.

Lemma two : NoDup [1; 2]%nat.
Proof. repeat constructor; set_solver. Qed.

Ltac side := first [apply two | apply listed; [reflexivity|eexists; split; [reflexivity|discriminate]..] | reflexivity | eexists; split; [reflexivity|discriminate] | vm_compute; intuition congruence | vm_compute; exact I | vm_compute; reflexivity].
Ltac settle := match goal with |- rtc _ ?w _ => let w' := eval vm_compute in w in change w with w' end.
Tactic Notation "go" uconstr(c) := eapply rtc_l; [eapply c; side|settle].
Tactic Notation "stop" uconstr(c) := eapply rtc_l; [split; [eapply c; side|split; [discriminate|split; discriminate]]|].

Definition begun : world := mkWorld (threads start) (pending start) (map Some [1; 2]%nat) ∅ 0 true (stopGeneration start) (Sending 0 0).

(** Both answer. *)
Lemma stop_run : exists w, rtc stopStep begun w /\ sweeper w = StoppedAll.
Proof.
  eexists. split.
  - stop (step_send begun 0 0 1%nat).
    stop (step_deliver _ 1%nat). stop (step_store _ 1%nat 0 0%nat).
    stop (step_send _ 1 1 2%nat). stop (step_sent _ 2 2).
    stop (step_count _ 1%nat 0 0%nat). stop (step_deliver _ 2%nat). stop (step_store _ 2%nat 0 1%nat). stop (step_count _ 2%nat 0 1%nat).
    stop (step_enough _ 2). apply rtc_refl.
  - reflexivity.
Qed.

Lemma stop_sound_witness : exists w2, rtc stopStep begun w2 /\ sweeper w2 = StoppedAll
  /\ (step start begun /\ (forall t, t ∈ [1; 2]%nat -> waits w2 t \/ threads w2 !! t = Some Exited)
      /\ (~ threadsChanged [1; 2]%nat w2 -> forall t, alive w2 t -> waits w2 t)).
Proof.
  destruct stop_run as (w2 & Hr & Hsw). exists w2. split; [exact Hr|]. split; [exact Hsw|].
  apply (stop_sound start [1; 2]%nat begun w2 start_clean); [repeat constructor; set_solver|apply start_alive|reflexivity|exact Hr|exact Hsw].
Defined.

(** [stopHandler] reads the generation before it asks whether a stop is in
    progress.  A thread held up for more than a second between the two (its
    stop gives up) goes on in the next stop with the old generation: it is
    counted, does not wait, answers once more, and [stopThreads] answers 1
    while a thread it listed runs. *)
Theorem late_answer_counts_twice :
  exists w t, rtc step start w /\ sweeper w = StoppedAll /\ Some t ∈ stopped w /\ threads w !! t = Some Outside.
Proof.
  eexists _, 2%nat. split.
  - go (step_begin start [1; 2]%nat). go (step_send _ 0 0 1%nat). go (step_send _ 1 1 2%nat). go (step_sent _ 2 2).
    (* thread 1 has read the generation; thread 2 answers; the second passes *)
    go (step_deliver _ 1%nat). go (step_deliver _ 2%nat). go (step_store _ 2%nat 0 1%nat). go (step_count _ 2%nat 0 1%nat).
    go (step_deadline _ 2). go (step_clear _). go (step_resume _). go (step_leave _ 2%nat 0).
    (* the next stop *)
    go (step_begin _ [1; 2]%nat). go (step_send _ 0 0 1%nat). go (step_send _ 1 1 2%nat). go (step_sent _ 2 2).
    go (step_store _ 1%nat 0 0%nat). go (step_count _ 1%nat 0 0%nat). go (step_leave _ 1%nat 0).
    go (step_deliver _ 1%nat). go (step_store _ 1%nat 1 0%nat). go (step_count _ 1%nat 1 0%nat).
    go (step_enough _ 2). apply rtc_refl.
  - split; [reflexivity|]. split; [|reflexivity]. vm_compute. do 2 constructor.
Qed.
End TwoThreads.
