(* ===== verification/SweepSignal.v ===== *)
(** * The sweep's signal

    [runtime/weavec_sweep.c] (Linux), [chooseSignal] to
    [pthread_sigmask]: which signal stops the threads, chosen once and again
    when the program took it; and the masks the program sets, which leave it
    out.

    The kernel's table of handlers is a function from signals; which signals
    [sigaction] answers for and which it sets are the system's. *)

From S2P Require Import Prelude.
From Stdlib Require Import Bool.
Local Open Scope Z_scope.

(** What a signal does: nothing of the program's; a handler of the program's
    (with [SA_SIGINFO] or not); [stopHandler]. *)
Inductive disposition :=
  | SIG_DFL
  | SIG_IGN
  | Handler (siginfo : bool) (address : Z)
  | stopHandler.

Definition SIGPWR : Z := 30.
Definition SIGXCPU : Z := 24.

(** The table; the signal chosen, 0 for none; whether [chooseFirst] ran; the
    signals the calling thread blocks, a bit each. *)
Record signals := mkSignals {
  actions : Z -> disposition;
  stopSignal : Z;
  once : bool;
  blocked : Z
}.

Section Signal.
(** [sigaction] answers for the signal; and sets it; WEAVEC_RT_SWEEP_SIGNAL, 0
    when it is not set. *)
Context (known settable : Z -> bool) (asked : Z).

(** [sa_flags & SA_SIGINFO], or a handler that is neither. *)
Definition handled (d : disposition) : bool :=
  match d with SIG_DFL | SIG_IGN => false | Handler _ _ | stopHandler => true end.

Definition bitOf (signal : Z) : Z := Z.shiftl 1 (signal - 1).

(** The candidates from one on; the flag is whether a handled one is skipped. *)
Fixpoint chooseFrom (candidates : list (bool * Z)) (st : signals) : signals :=
  match candidates with
  | [] => st
  | (skip, signal) :: rest =>
    if negb (known signal) then chooseFrom rest st
    else if skip && handled (actions st signal) then chooseFrom rest st
    else if settable signal then
      mkSignals (fun s => if s =? signal then stopHandler else actions st s) signal (once st)
        (Z.land (blocked st) (Z.lnot (bitOf signal)))
    else chooseFrom rest st
  end.

Definition chooseSignal (again : bool) (st : signals) : signals :=
  let st := mkSignals (actions st) 0 (once st) (blocked st) in
  chooseFrom ((if negb (asked =? 0) then [(again, asked)] else []) ++ [(true, SIGPWR); (true, SIGXCPU)]) st.

Definition installHandler (st : signals) : bool * signals :=
  let st := if once st then st else chooseSignal false (mkSignals (actions st) (stopSignal st) true (blocked st)) in
  (negb (stopSignal st =? 0), st).

Definition isStop (d : disposition) : bool := match d with stopHandler => true | _ => false end.

Definition ownSignal (st : signals) : bool * signals :=
  let '(installed, st) := installHandler st in
  let st := if installed && (negb (known (stopSignal st)) || negb (isStop (actions st (stopSignal st))))
            then chooseSignal true st else st in
  (negb (stopSignal st =? 0), st).

(** How a mask is set: [SIG_BLOCK] adds it, [SIG_UNBLOCK] takes it away,
    [SIG_SETMASK] replaces. *)
Inductive how := SIG_BLOCK | SIG_UNBLOCK | SIG_SETMASK.

(** [rt_sigprocmask]: the kernel's. *)
Definition rt_sigprocmask (h : how) (set mask : Z) : Z :=
  match h with
  | SIG_BLOCK => Z.lor mask set
  | SIG_UNBLOCK => Z.land mask (Z.lnot set)
  | SIG_SETMASK => set
  end.

(** The C library's two internal signals, 32 and 33. *)
Definition internalMask : Z := Z.shiftl 3 31.

Definition setMask (h : how) (set : option Z) (st : signals) : signals :=
  match set with
  | None => st
  | Some set =>
    match h with
    | SIG_UNBLOCK => mkSignals (actions st) (stopSignal st) (once st) (rt_sigprocmask h set (blocked st))
    | _ =>
      let '(installed, st) := installHandler st in
      let signal := if installed then stopSignal st else 0 in
      let mask := Z.lor (if negb (signal =? 0) then bitOf signal else 0) internalMask in
      mkSignals (actions st) (stopSignal st) (once st) (rt_sigprocmask h (Z.land (Z.lnot mask) set) (blocked st))
    end
  end.

(** ** What is chosen *)

(** A signal the program handles. *)
Definition programs (d : disposition) : bool := match d with Handler _ _ => true | _ => false end.

(** Signals are numbered from 1; the one asked for is one. *)
Context (Hknown : forall s, known s = true -> 1 <= s <= 64).

Lemma chooseFrom_spec candidates : forall st,
  stopSignal st = 0 ->
  let st' := chooseFrom candidates st in
  (stopSignal st' = 0 /\ st' = st)
  \/ (known (stopSignal st') = true /\ actions st' (stopSignal st') = stopHandler /\ Z.testbit (blocked st') (stopSignal st' - 1) = false
      /\ (forall s, s <> stopSignal st' -> actions st' s = actions st s)
      /\ exists skip, In (skip, stopSignal st') candidates /\ (skip = true -> handled (actions st (stopSignal st')) = false)).
Proof.
  induction candidates as [|(skip, signal) rest IH]; intros st H0; cbn [chooseFrom]; [by left|].
  assert (Hskip : forall st', chooseFrom rest st = st' -> (stopSignal st' = 0 /\ st' = st)
    \/ (known (stopSignal st') = true /\ actions st' (stopSignal st') = stopHandler /\ Z.testbit (blocked st') (stopSignal st' - 1) = false
      /\ (forall s, s <> stopSignal st' -> actions st' s = actions st s)
      /\ exists skip', In (skip', stopSignal st') ((skip, signal) :: rest) /\ (skip' = true -> handled (actions st (stopSignal st')) = false))).
  { intros st' <-. destruct (IH st H0) as [?|(H1 & H2 & H3 & H4 & sk & Hin & Hsk)]; [by left|right]. split_and!; try done. exists sk. split; [by right|done]. }
  destruct (known signal) eqn:Ek; cbn [negb]; [|by apply Hskip]. destruct (skip && handled (actions st signal)) eqn:Es; [by apply Hskip|].
  destruct (settable signal); [|by apply Hskip]. right. cbn. rewrite Z.eqb_refl. specialize (Hknown signal Ek). split_and!; try done.
  - rewrite Z.land_spec, Z.lnot_spec by lia. unfold bitOf. rewrite Z.shiftl_1_l, Z.pow2_bits_true by lia. apply andb_false_r.
  - intros s Hs. destruct (Z.eqb_spec s signal); [done|reflexivity].
  - exists skip. split; [by left|]. intros ->. exact Es.
Qed.

(** Choosing blocks nothing. *)
Lemma chooseFrom_blocked candidates : forall st k, 0 <= k -> Z.testbit (blocked st) k = false -> Z.testbit (blocked (chooseFrom candidates st)) k = false.
Proof.
  induction candidates as [|(skip, signal) rest IH]; intros st k Hk Hb; cbn [chooseFrom]; [done|].
  destruct (negb (known signal)); [by apply IH|]. destruct (skip && _); [by apply IH|]. destruct (settable signal); [|by apply IH].
  cbn. by rewrite Z.land_spec, Hb.
Qed.

Lemma installHandler_blocked st k : 0 <= k -> Z.testbit (blocked st) k = false -> Z.testbit (blocked (snd (installHandler st))) k = false.
Proof. intros Hk Hb. unfold installHandler. destruct (once st); [done|]. by apply chooseFrom_blocked. Qed.

Lemma candidates_kept again st skip s :
  In (skip, s) ((if negb (asked =? 0) then [(again, asked)] else []) ++ [(true, SIGPWR); (true, SIGXCPU)]) ->
  (skip = true -> handled (actions st s) = false) -> programs (actions st s) = true -> again = false /\ s = asked.
Proof.
  intros Hin Hs Hp. assert (Hskip : skip <> true) by (intros E; specialize (Hs E); by destruct (actions st s)).
  destruct (negb (asked =? 0)); cbn in Hin; destruct again, skip; intuition (try congruence).
Qed.

Lemma chooseSignal_spec again st :
  let st' := chooseSignal again st in
  (stopSignal st' = 0 \/ (1 <= stopSignal st' <= 64 /\ known (stopSignal st') = true /\ actions st' (stopSignal st') = stopHandler
                        /\ Z.testbit (blocked st') (stopSignal st' - 1) = false))
  /\ (forall s, programs (actions st s) = true -> again = true \/ s <> asked -> actions st' s = actions st s).
Proof.
  cbn zeta. unfold chooseSignal. set (st1 := mkSignals (actions st) 0 (once st) (blocked st)).
  destruct (chooseFrom_spec ((if negb (asked =? 0) then [(again, asked)] else []) ++ [(true, SIGPWR); (true, SIGXCPU)]) st1 eq_refl)
    as [[H0 ->]|(H1 & H2 & H3 & H4 & skip & Hin & Hs)]; [split; [by left|done]|].
  split; [right; split_and!; try done; by apply Hknown|]. intros s Hp Ha. apply (H4 s). intros ->.
  destruct (candidates_kept again st1 skip _ Hin Hs Hp) as [E1 E2]. destruct Ha; congruence.
Qed.

(** The signal is one, its handler [stopHandler], and it is not blocked. *)
Definition signal_free (st : signals) : Prop :=
  stopSignal st = 0 \/ (1 <= stopSignal st <= 64 /\ Z.testbit (blocked st) (stopSignal st - 1) = false).

Lemma installHandler_spec st :
  signal_free st ->
  signal_free (snd (installHandler st)) /\ fst (installHandler st) = negb (stopSignal (snd (installHandler st)) =? 0)
  /\ (forall s, programs (actions st s) = true -> once st = true \/ s <> asked -> actions (snd (installHandler st)) s = actions st s)
  /\ (once st = true -> snd (installHandler st) = st)
  /\ (once st = false -> stopSignal (snd (installHandler st)) <> 0 ->
       known (stopSignal (snd (installHandler st))) = true /\ actions (snd (installHandler st)) (stopSignal (snd (installHandler st))) = stopHandler).
Proof.
  intros Hf. unfold installHandler. destruct (once st) eqn:Eo; cbn [fst snd]; [by split_and!|].
  destruct (chooseSignal_spec false (mkSignals (actions st) (stopSignal st) true (blocked st))) as [H1 H2].
  split_and!; try done.
  - destruct H1 as [?|(H1 & _ & _ & H3)]; [by left|by right].
  - intros _ Hne. destruct H1 as [?|(_ & H1 & H3 & _)]; [done|by split].
Qed.

(** Before a stop [ownSignal] answers that there is a signal only when its
    handler is [stopHandler], and it leaves every handler the program set where
    it is (the signal asked for apart, the first time one is chosen). *)
Theorem ownSignal_exact st :
  signal_free st ->
  let st' := snd (ownSignal st) in
  signal_free st'
  /\ (fst (ownSignal st) = true -> actions st' (stopSignal st') = stopHandler)
  /\ (forall s, programs (actions st s) = true -> once st = true \/ s <> asked -> actions st' s = actions st s).
Proof.
  intros Hf. cbn zeta. unfold ownSignal. destruct (installHandler_spec st Hf) as (H1 & H2 & H3 & H4 & H5).
  destruct (installHandler st) as [installed st1]. cbn [fst snd] in *.
  destruct (installed && _) eqn:Ec; cbn [fst snd].
  - apply andb_true_iff in Ec as [-> Hlost]. destruct (chooseSignal_spec true st1) as [[Hz|(G1 & G2 & G3 & G4)] Hk].
    + split_and!; [by left|by rewrite Hz|]. intros s Hp Hs. rewrite <- (H3 s Hp Hs). apply Hk; [by rewrite (H3 s Hp Hs)|by left].
    + split_and!; [by right|done|]. intros s Hp Hs. rewrite <- (H3 s Hp Hs). apply Hk; [by rewrite (H3 s Hp Hs)|by left].
  - split_and!; [done| |done]. intros Hn. rewrite H2, Hn in Ec. cbn [andb] in Ec. apply orb_false_iff in Ec as [_ Ec].
    apply negb_false_iff in Ec. by destruct (actions st1 (stopSignal st1)).
Qed.

(** C25: whatever masks the program sets, and in whatever way, a signal chosen
    stays unblocked; and so do the C library's own two, 32 and 33, where they
    were or the mask is replaced. *)
Theorem setMask_free h set st :
  signal_free st ->
  signal_free (setMask h set st)
  /\ (forall k, k = 31 \/ k = 32 -> Z.testbit (blocked st) k = false \/ (h = SIG_SETMASK /\ set <> None) ->
       Z.testbit (blocked (setMask h set st)) k = false).
Proof.
  intros Hf. unfold setMask. destruct set as [set|]; [|split; [done|]; intros k _ [?|[_ ?]]; done].
  destruct (installHandler_spec st Hf) as (H1 & H2 & _). pose proof (installHandler_blocked st) as Hb.
  destruct (installHandler st) as [installed st1]. cbn [fst snd] in *.
  set (signal := if installed then stopSignal st1 else 0). set (mask := Z.lor (if negb (signal =? 0) then bitOf signal else 0) internalMask).
  assert (Hmask : forall k, 0 <= k -> k = 31 \/ k = 32 \/ (stopSignal st1 <> 0 /\ k = stopSignal st1 - 1) -> Z.testbit (Z.land (Z.lnot mask) set) k = false).
  { intros k Hk Hc. rewrite Z.land_spec, Z.lnot_spec by lia. unfold mask. rewrite Z.lor_spec. destruct Hc as [->|[->|[Hne ->]]].
    - change (Z.testbit internalMask 31) with true. by rewrite orb_true_r.
    - change (Z.testbit internalMask 32) with true. by rewrite orb_true_r.
    - subst signal. rewrite H2, (proj2 (Z.eqb_neq _ _) Hne). cbn [negb]. rewrite (proj2 (Z.eqb_neq _ _) Hne). cbn [negb].
      unfold bitOf. rewrite Z.shiftl_1_l, Z.pow2_bits_true by lia. done. }
  destruct h; cbn [rt_sigprocmask]; (split; [|intros k Hk Hold; cbn [blocked]]).
  - destruct H1 as [?|[H1 H3]]; [by left|right; cbn [stopSignal blocked]; split; [done|]]. rewrite Z.lor_spec, H3, Hmask; [done|lia|right; right; split; [lia|done]].
  - rewrite Z.lor_spec, Hmask by lia. destruct Hold as [Hold|[? _]]; [|done]. rewrite Hb; [done|lia|done].
  - destruct Hf as [?|[Hf1 Hf2]]; [by left|right; cbn [stopSignal blocked]; split; [done|]]. by rewrite Z.land_spec, Hf2.
  - rewrite Z.land_spec. destruct Hold as [->|[? _]]; done.
  - destruct H1 as [?|[H1 H3]]; [by left|right; cbn [stopSignal blocked]; split; [done|]]. apply Hmask; [lia|right; right; split; [lia|done]].
  - apply Hmask; lia.
Qed.
End Signal.

(** ** A program that handles SIGPWR *)

Module Taken.
Definition known (s : Z) : bool := (1 <=? s) && (s <=? 64).
Lemma known_here s : known s = true -> 1 <= s <= 64.
Proof. unfold known. rewrite andb_true_iff, !Z.leb_le. done. Qed.

(** The sweep had chosen it; the program took it since. *)
Definition taken : signals :=
  mkSignals (fun s => if s =? SIGPWR then Handler true 4096 else SIG_DFL) SIGPWR true 0.

Lemma taken_free : signal_free taken.
Proof. right. split; [change (1 <= SIGPWR <= 64); unfold SIGPWR; lia|reflexivity]. Qed.

Lemma ownSignal_exact_witness :
  let st' := snd (ownSignal known known 0 taken) in
  signal_free st' /\ (fst (ownSignal known known 0 taken) = true -> actions st' (stopSignal st') = stopHandler)
  /\ (forall s, programs (actions taken s) = true -> once taken = true \/ s <> 0 -> actions st' s = actions taken s).
Proof. exact (ownSignal_exact known known 0 known_here taken taken_free). Defined.

Example chosen_again : stopSignal (snd (ownSignal known known 0 taken)) = SIGXCPU.
Proof. reflexivity. Qed.

Lemma setMask_free_witness :
  signal_free (setMask known known 0 SIG_SETMASK (Some (2 ^ 64 - 1)) taken)
  /\ Z.testbit (blocked (setMask known known 0 SIG_SETMASK (Some (2 ^ 64 - 1)) taken)) 31 = false.
Proof.
  destruct (setMask_free known known 0 known_here SIG_SETMASK (Some (2 ^ 64 - 1)) taken taken_free) as [H1 H2].
  split; [exact H1|]. apply H2; [by left|right; split; [reflexivity|discriminate]].
Defined.
End Taken.
