(* ===== verification/SweepScan.v ===== *)
(** * The memory a sweep reads

    [runtime/weavec_sweep.c] (Linux): the runtime's own mappings, which hold
    no pointer of the program ([weavecRtInternal], [sortInternal]); the stacks
    of the stopped threads ([stackIn]); /proc/self/maps read line by line
    ([scanMappings]), a range of each mapping marked or listed
    ([scanExcluding], [scanStack], [scanResident]); and the items a parallel
    mark divides ([markRange], [addWork], [takeWork], and [weavecRtHeapWork] of
    [runtime/weavec_alloc.c]).

    A scan answers the ranges it gives to [markRange], in order: nothing else
    happens in between.  The page size, [mincore] and /proc/self/pagemap are
    the system's. *)

From stdpp Require Import list sorting.
From Stdlib Require Import String Ascii.
From S2P Require Import Prelude Shadow Report Classes Heap HugeBlocks Sweep.
Local Open Scope Z_scope.

(** A range of addresses, [[low, high)]. *)
Definition range : Type := Z * Z.

(** ** The runtime's own mappings *)

Definition InternalSlots : nat := 512.

Definition weavecRtInternal (low high : Z) (internal : list range) : list range :=
  if (length internal <? InternalSlots)%nat then internal ++ [(low, high)] else internal.

(** The first range with that start; the last takes its place. *)
Definition weavecRtInternalDrop (low : Z) (internal : list range) : list range :=
  match list_find (fun r => fst r = low) internal, list.last internal with
  | Some (i, _), Some r => take (length internal - 1) (<[i := r]> internal)
  | _, _ => internal
  end.

(** The inner loop of [sortInternal]: the sorted ranges before, the last first,
    those that start after [r] moved up. *)
Fixpoint moveUp (r : range) (before : list range) : list range :=
  match before with
  | [] => [r]
  | b :: before' => if fst b >? fst r then b :: moveUp r before' else r :: before
  end.

Definition sortInternal (internal : list range) : list range :=
  reverse (foldl (fun sorted r => moveUp r sorted) [] internal).

(** The loop of [scanExcluding], from the range it is at. *)
Fixpoint scanExcludingFrom (internal : list range) (low high : Z) : list range :=
  match internal with
  | [] => if low <? high then [(low, high)] else []
  | (a, b) :: rest =>
    if low <? high then
      if (b <=? low) || (a >=? high) then scanExcludingFrom rest low high
      else (if a >? low then [(low, a)] else []) ++ scanExcludingFrom rest b high
    else []
  end.

Definition skipInternal (internal : list range) (address : Z) : Z :=
  foldl (fun address r => if (address >=? fst r) && (address <? snd r) then snd r else address) address internal.

(** ** The stacks *)

Definition stackIn (stacks : list Z) (low high : Z) : Z :=
  foldl (fun sp s => if (s >=? low) && (s <? high) && ((sp =? 0) || (s <? sp)) then s else sp) 0 stacks.

Section Scan.
(** The machine is an x86-64; [getpagesize]; [mincore] of so many bytes from an
    address, one byte for each page; the entries of /proc/self/pagemap, so many
    from one on: the system may answer neither. *)
Context (x86_64 : bool) (pageSize : Z).
Context (mincore : Z -> Z -> option (list Z)) (pagemapAt : Z -> Z -> option (list Z)).
(** The runtime's own mappings, and the stack pointers of the stopped threads. *)
Context (internal : list range) (stacks : list Z).

Definition RedZone : Z := if x86_64 then 128 else 0.

Definition scanExcluding (low high : Z) : list range := scanExcludingFrom internal low high.

(** Where the live part of the stack with that stack pointer begins. *)
Definition liveFrom (sp low : Z) : Z := if sub64 sp RedZone >? low then sub64 sp RedZone else low.

Definition scanStack (low high : Z) : list range :=
  let sp := stackIn stacks low high in
  if sp =? 0 then scanExcluding low high else scanExcluding (liveFrom sp low) high.

(** ** Resident pages *)

(** An entry of /proc/self/pagemap: present and not a file's page, or swapped. *)
Definition written (entry : Z) : bool := (Z.shiftr entry 61 =? 4) || negb (Z.land (Z.shiftr entry 62) 1 =? 0).
Definition resident (v : Z) : bool := negb (Z.land v 1 =? 0).

Definition vectorPages : Z := 512.

(** The pages of one chunk, those the predicate holds of. *)
Fixpoint scanPages (wanted : Z -> bool) (pages : list Z) (i low high : Z) : list range :=
  match pages with
  | [] => []
  | p :: pages' =>
    (if wanted p then
       let end_ := add64 low ((i + 1) * pageSize) in
       scanExcluding (low + i * pageSize) (if end_ <? high then end_ else high)
     else []) ++ scanPages wanted pages' (i + 1) low high
  end.

(** One chunk; [pagemap] whether /proc/self/pagemap is asked. *)
Definition scanChunk (pagemap : bool) (low chunk high : Z) : list range :=
  let count := (chunk + pageSize - 1) / pageSize in
  match (if pagemap then pagemapAt (low / pageSize) count else None) with
  | Some entries => scanPages written entries 0 low high
  | None =>
    match mincore low chunk with
    | None => scanExcluding low (low + chunk)
    | Some vector => scanPages resident vector 0 low high
    end
  end.

Fixpoint scanResidentFrom (fuel : nat) (low high : Z) (pagemap : bool) : list range :=
  match fuel with
  | O => []
  | S fuel' =>
    let low := skipInternal internal low in
    if low <? high then
      let chunk := if high - low >? vectorPages * pageSize then vectorPages * pageSize else high - low in
      scanChunk pagemap low chunk high ++ scanResidentFrom fuel' (low + chunk) high pagemap
    else []
  end.

(** Every turn but the last is [vectorPages] pages on. *)
Definition residentFuel (low high : Z) : nat := S (S (Z.to_nat ((high - low) / (vectorPages * pageSize)))).

Definition scanResident (low high : Z) (pagemap : bool) : list range :=
  let low := Z.land low (Z.lnot (pageSize - 1)) in
  scanResidentFrom (residentFuel low high) low high pagemap.

(** ** The mappings *)

(** The text of /proc/self/maps, the terminating 0 with it; [None]: read past
    its end. *)
Definition textOf (s : string) : list Z := map (fun c => Z.of_nat (nat_of_ascii c)) (list_ascii_of_string s).
Definition charOf (c : ascii) : Z := Z.of_nat (nat_of_ascii c).

Definition digitOf (c : Z) : option Z :=
  if (c >=? charOf "0") && (c <=? charOf "9") then Some (c - charOf "0")
  else if (c >=? charOf "a") && (c <=? charOf "f") then Some (c - charOf "a" + 10)
  else None.

Fixpoint hexFrom (value : Z) (at_ : list Z) : option (Z * list Z) :=
  match at_ with
  | [] => None
  | c :: rest =>
    match digitOf c with
    | None => Some (value, at_)
    | Some digit => hexFrom (wrap64 (wrap64 (value * 16) + digit)) rest
    end
  end.

Definition hex (at_ : list Z) : option (Z * list Z) := hexFrom 0 at_.

(** [strncmp] with a literal of that length is 0. *)
Fixpoint startsWith (s : list Z) (literal : list Z) : bool :=
  match literal, s with
  | [], _ => true
  | _ :: _, [] => false
  | l :: literal', c :: s' => (c =? l) && startsWith s' literal'
  end.

Definition named (name : list Z) (s : string) : bool := startsWith name (textOf s).

(** One mapping's decision, [name] the text from its name on. *)
Definition scanMapping (pagemap : bool) (low high : Z) (readable writable executable shared : bool) (name : list Z) : list range :=
  if readable && (writable || (negb executable && negb shared)) then
    if named name "[vvar" || named name "[vsys" then []
    else if negb (named name "/dev/") || named name "/dev/shm/" || named name "/dev/zero" || named name "/dev/hugepages/" then
      let sp := stackIn stacks low high in
      if negb writable then scanResident low high pagemap
      else if (sp =? 0) || named name "[stack]" then scanStack low high
      else
        let live := liveFrom sp low in
        scanResident low live false ++ scanExcluding live high
    else []
  else [].

(** The text from the first character the predicate holds of. *)
Fixpoint upTo (stop : Z -> bool) (at_ : list Z) : option (list Z) :=
  match at_ with
  | [] => None
  | c :: rest => if stop c then Some at_ else upTo stop rest
  end.

Definition nameStarts (c : Z) : bool :=
  (c =? 0) || (c =? 10) || (c =? charOf "[") || (c =? charOf "/").
Definition lineEnds (c : Z) : bool := (c =? 0) || (c =? 10).

(** [++at]. *)
Definition next (at_ : list Z) : option (list Z) := match at_ with [] => None | _ :: rest => Some rest end.

(** One line: its ranges, and the text after it. *)
Definition scanLine (pagemap : bool) (at_ : list Z) : option (list range * list Z) :=
  '(low, at_) ← hex at_; at_ ← next at_;
  '(high, at_) ← hex at_; at_ ← next at_;
  r ← at_ !! 0%nat; w ← at_ !! 1%nat; x ← at_ !! 2%nat; s ← at_ !! 3%nat;
  name ← upTo nameStarts at_;
  let ranges := scanMapping pagemap low high (r =? charOf "r") (w =? charOf "w") (x =? charOf "x") (s =? charOf "s") name in
  at_ ← upTo lineEnds at_;
  Some (ranges, match at_ with 10 :: rest => rest | _ => at_ end).

(** The lines; each takes a character at least. *)
Fixpoint scanLines (fuel : nat) (pagemap : bool) (at_ : list Z) : option (list range) :=
  match fuel, at_ with
  | O, _ | _, [] => None
  | S fuel', c :: _ =>
    if c =? 0 then Some []
    else '(ranges, at_) ← scanLine pagemap at_; rest ← scanLines fuel' pagemap at_; Some (ranges ++ rest)
  end.

Definition scanMappings (pagemap : bool) (mapsText : list Z) : option (list range) :=
  scanLines (length mapsText) pagemap mapsText.
End Scan.
