(* ===== verification/ScanFacts.v ===== *)
(** * What a sweep reads

    Facts on [SweepScan.v]: no address outside the runtime's own mappings is
    left out by [scanExcluding], whatever their order; none of them is read
    once they are sorted; a resident page is read; the lines of
    /proc/self/maps are read back; so every address of a mapping the program
    can write is in a range that is marked, but the dead part of a stack and
    the pages below a stack pointer that are not resident. *)

From stdpp Require Import list sorting sets.
From Stdlib Require Import String Ascii.
From S2P Require Import Prelude Shadow Report Classes Heap HugeBlocks Sweep SweepScan.
Local Open Scope Z_scope.

Definition inRange (a : Z) (r : range) : Prop := fst r <= a < snd r.
(** An address of the runtime's own mappings; an address some range holds. *)
Definition isInternal (internal : list range) (a : Z) : Prop := Exists (inRange a) internal.
Definition covered (l : list range) (a : Z) : Prop := Exists (inRange a) l.

Lemma covered_app l1 l2 a : covered (l1 ++ l2) a <-> covered l1 a \/ covered l2 a.
Proof. apply Exists_app. Qed.

Lemma covered_one low high a : covered [(low, high)] a <-> low <= a < high.
Proof. unfold covered. rewrite Exists_cons, Exists_nil. unfold inRange. cbn. tauto. Qed.

(** The comparisons of the code, decided. *)
Ltac compare_cases := rewrite ?Z.gtb_ltb, ?Z.geb_leb in *; repeat (progress bool_cases; cbn [andb orb negb] in *).

(** ** The runtime's own mappings *)

Lemma excluding_covers internal : forall low high a,
  low <= a < high -> ~ isInternal internal a -> covered (scanExcludingFrom internal low high) a.
Proof.
  induction internal as [|[x y] rest IH]; intros low high a Ha Hn; cbn [scanExcludingFrom].
  { compare_cases; [by apply covered_one|lia]. }
  unfold isInternal in Hn. rewrite Exists_cons in Hn. unfold inRange at 1 in Hn. cbn [fst snd] in Hn.
  assert (Hr : ~ isInternal rest a) by tauto.
  compare_cases; try lia; try (by apply IH); rewrite covered_app, ?covered_one; destruct (decide (a < x)); try (left; lia); right; apply IH; try tauto; lia.
Qed.

Lemma excluding_within internal : forall low high r,
  r ∈ scanExcludingFrom internal low high -> low <= fst r /\ fst r < snd r /\ snd r <= high.
Proof.
  induction internal as [|[x y] rest IH]; intros low high r Hr; cbn [scanExcludingFrom] in Hr.
  { revert Hr. compare_cases; [intros ->%list_elem_of_singleton; cbn; lia|by intros ?%elem_of_nil]. }
  revert Hr. compare_cases; try (by apply IH); rewrite ?elem_of_app, ?list_elem_of_singleton, ?elem_of_nil; try tauto;
    intros [Hr|Hr]; try tauto; try (subst r; cbn; lia); apply IH in Hr; lia.
Qed.

(** The ranges in the order of their starts. *)
Definition starts_le (r1 r2 : range) : Prop := fst r1 <= fst r2.

Lemma excluding_free internal : forall low high a,
  StronglySorted starts_le internal -> covered (scanExcludingFrom internal low high) a -> ~ isInternal internal a.
Proof.
  induction internal as [|[x y] rest IH]; intros low high a Hs Hc; [by intros ?%Exists_nil|].
  inversion Hs as [|? ? Hs' Hall]; subst. unfold isInternal. rewrite Exists_cons. unfold inRange at 1. cbn [fst snd].
  assert (Hlow : forall l h, covered (scanExcludingFrom rest l h) a -> l <= a < h).
  { intros l h Hx. apply list.Exists_exists in Hx as (r & Hr & Ha). apply excluding_within in Hr. unfold inRange in Ha. lia. }
  assert (Hrest : a < x -> ~ isInternal rest a).
  { intros Ha Hx. apply list.Exists_exists in Hx as (r & Hr & Hin). rewrite list.Forall_forall in Hall. specialize (Hall r Hr).
    unfold starts_le, inRange in *. cbn in *. lia. }
  revert Hc. cbn [scanExcludingFrom]. compare_cases; rewrite ?covered_app, ?covered_one; unfold covered at 1; rewrite ?Exists_nil; intros Hc; try tauto;
    try (pose proof (Hlow _ _ Hc); intros [?|?]; [lia|by eapply IH]).
  - destruct Hc as [Hc|Hc]; [intros [?|?]; [lia|eapply Hrest; [lia|done]]|]. pose proof (Hlow _ _ Hc). intros [?|?]; [lia|by eapply IH].
  - destruct Hc as [[]|Hc]. pose proof (Hlow _ _ Hc). intros [?|?]; [lia|by eapply IH].
Qed.

(** [sortInternal] sorts. *)
Lemma moveUp_perm r before : moveUp r before ≡ₚ r :: before.
Proof. induction before as [|b before IH]; cbn [moveUp]; [done|]. destruct (fst b >? fst r); [|done]. rewrite IH. by rewrite Permutation_swap. Qed.

Lemma moveUp_sorted r before : StronglySorted (flip starts_le) before -> StronglySorted (flip starts_le) (moveUp r before).
Proof.
  induction 1 as [|b before Hs IH Hall]; cbn [moveUp]; [repeat constructor|].
  compare_cases; constructor; try done.
  - rewrite moveUp_perm. constructor; [|done]. unfold starts_le. cbn. lia.
  - by constructor.
  - constructor; [unfold starts_le; cbn; lia|]. eapply list.Forall_impl; [exact Hall|]. unfold starts_le. cbn. intros. lia.
Qed.

Lemma sort_fold l : forall acc,
  StronglySorted (flip starts_le) acc ->
  StronglySorted (flip starts_le) (foldl (fun sorted r => moveUp r sorted) acc l)
  /\ foldl (fun sorted r => moveUp r sorted) acc l ≡ₚ l ++ acc.
Proof.
  induction l as [|r l IH]; intros acc Hs; cbn [foldl]; [done|].
  destruct (IH (moveUp r acc) (moveUp_sorted r acc Hs)) as [H1 H2]. split; [done|].
  rewrite H2, moveUp_perm. symmetry. apply (Permutation_middle l acc r).
Qed.

Lemma sorted_reverse l : StronglySorted (flip starts_le) l -> StronglySorted starts_le (reverse l).
Proof.
  induction 1 as [|x l Hs IH Hall]; [constructor|]. rewrite reverse_cons. apply StronglySorted_app_2; [|done|repeat constructor].
  intros y z Hy ->%list_elem_of_singleton. rewrite elem_of_reverse in Hy. rewrite list.Forall_forall in Hall. exact (Hall y Hy).
Qed.

Lemma sortInternal_ok internal : StronglySorted starts_le (sortInternal internal) /\ sortInternal internal ≡ₚ internal.
Proof.
  unfold sortInternal. destruct (sort_fold internal [] ltac:(constructor)) as [H1 H2]. split; [by apply sorted_reverse|].
  by rewrite reverse_Permutation, H2, app_nil_r.
Qed.

(** What [skipInternal] passes over is the runtime's own. *)
Lemma skip_from internal : forall all low x,
  (forall a, low <= a < x -> isInternal all a) -> low <= x -> Forall (fun r => r ∈ all) internal ->
  low <= skipInternal internal x /\ forall a, low <= a < skipInternal internal x -> isInternal all a.
Proof.
  induction internal as [|r rest IH]; intros all low x Hx Hl Hall; cbn [skipInternal foldl]; [done|].
  apply list.Forall_cons in Hall as [Hr Hrest]. apply IH; [|compare_cases; lia|done].
  intros a Ha. destruct (decide (a < x)) as [|Hge]; [apply Hx; lia|]. revert Ha. compare_cases; intros Ha; try lia.
  apply list.Exists_exists. exists r. split; [done|]. unfold inRange. lia.
Qed.

Lemma skipInternal_ok internal x : x <= skipInternal internal x /\ forall a, x <= a < skipInternal internal x -> isInternal internal a.
Proof. apply (skip_from internal internal x x); [intros; lia|lia|by apply list.Forall_forall]. Qed.

(** ** The stacks *)

Lemma stackIn_from stacks low high : forall sp,
  0 < low -> (sp = 0 \/ low <= sp < high) ->
  let r := foldl (fun sp s => if (s >=? low) && (s <? high) && ((sp =? 0) || (s <? sp)) then s else sp) sp stacks in
  (r = 0 \/ low <= r < high) /\ (sp <> 0 -> 0 < r <= sp) /\ forall s, s ∈ stacks -> low <= s < high -> 0 < r <= s.
Proof.
  induction stacks as [|s stacks IH]; intros sp Hl Hsp; cbn [foldl].
  { split; [done|]. split; [lia|]. intros s Hs. by apply elem_of_nil in Hs. }
  set (sp' := if (s >=? low) && (s <? high) && ((sp =? 0) || (s <? sp)) then s else sp).
  assert (Hsp' : (sp' = 0 \/ low <= sp' < high) /\ (sp <> 0 -> 0 < sp' <= sp) /\ (low <= s < high -> 0 < sp' <= s)).
  { subst sp'. compare_cases; repeat split; try lia. }
  destruct Hsp' as (H1 & H2 & H3). destruct (IH sp' Hl H1) as (I1 & I2 & I3). split; [done|]. split; [intros; lia|].
  intros x [->|Hx]%elem_of_cons Hin; [specialize (H3 Hin); lia|by apply I3].
Qed.

(** The lowest stack pointer of the range, or 0 when there is none. *)
Lemma stackIn_lowest stacks low high :
  0 < low ->
  (stackIn stacks low high = 0 /\ (forall s, s ∈ stacks -> ~ low <= s < high))
  \/ (stackIn stacks low high ∈ stacks /\ low <= stackIn stacks low high < high
      /\ forall s, s ∈ stacks -> low <= s < high -> stackIn stacks low high <= s).
Proof.
  intros Hl. destruct (stackIn_from stacks low high 0 Hl ltac:(by left)) as (H1 & _ & H3). fold (stackIn stacks low high) in *.
  assert (Hin : forall sp, stackIn stacks low high <> sp -> foldl (fun sp s => if (s >=? low) && (s <? high) && ((sp =? 0) || (s <? sp)) then s else sp) sp stacks ∈ sp :: stacks).
  { intros sp _. clear. revert sp. induction stacks as [|s l IH]; intros sp; cbn [foldl]; [set_solver|].
    destruct ((s >=? low) && (s <? high) && ((sp =? 0) || (s <? sp))); specialize (IH s) as IH1; specialize (IH sp) as IH2; set_solver. }
  destruct H1 as [E|Hr]; [left; split; [done|]; intros s Hs Hsr; specialize (H3 s Hs Hsr); lia|right].
  split; [|split; [done|intros s Hs Hsr; by apply H3]]. specialize (Hin 0 ltac:(lia)). apply elem_of_cons in Hin as [Hin|Hin]; [|exact Hin].
  unfold stackIn in Hr. lia.
Qed.

Section Scan.
Context (x86_64 : bool) (pageSize : Z).
Context (mincore : Z -> Z -> option (list Z)) (pagemapAt : Z -> Z -> option (list Z)).
Context (internal : list range) (stacks : list Z).
Local Notation scanExcluding := (scanExcluding internal).
Local Notation scanPages := (scanPages pageSize internal).
Local Notation scanChunk := (scanChunk pageSize mincore pagemapAt internal).
Local Notation scanResidentFrom := (scanResidentFrom pageSize mincore pagemapAt internal).
Local Notation scanResident := (scanResident pageSize mincore pagemapAt internal).
Local Notation scanMapping := (scanMapping x86_64 pageSize mincore pagemapAt internal stacks).
Local Notation scanMappings := (scanMappings x86_64 pageSize mincore pagemapAt internal stacks).

(** The pages that are resident, and those written (or swapped) and not a
    file's, by their number. *)
Context (isResident isWritten : Z -> bool).

(** [mincore] answers for aligned addresses only, with a byte for each page;
    /proc/self/pagemap with an entry for each page. *)
Definition vectorOf (holds : Z -> bool) (page_is : Z -> bool) (page count : Z) (v : list Z) : Prop :=
  forall k, 0 <= k < count -> exists b, v !! Z.to_nat k = Some b /\ holds b = page_is (page + k).
Definition mincore_ok : Prop := forall low bytes v, mincore low bytes = Some v ->
  low mod pageSize = 0 /\ vectorOf resident isResident (low / pageSize) ((bytes + pageSize - 1) / pageSize) v.
Definition pagemap_ok : Prop := forall page count v, pagemapAt page count = Some v -> vectorOf written isWritten page count v.

(** Its page is read. *)
Definition readPage (pagemap : bool) (a : Z) : Prop :=
  if pagemap then isWritten (a / pageSize) = true /\ (isResident (a / pageSize) = true \/ forall page count, pagemapAt page count <> None)
  else isResident (a / pageSize) = true.

Lemma scanExcluding_covers low high a : low <= a < high -> ~ isInternal internal a -> covered (scanExcluding low high) a.
Proof. apply excluding_covers. Qed.

Lemma scanPages_covers wanted pages : forall i low high k b a,
  0 <= i -> 0 <= low -> 0 < pageSize -> high < 2 ^ 63 -> pageSize < 2 ^ 62 -> pages !! Z.to_nat k = Some b -> 0 <= k -> wanted b = true ->
  low + (i + k) * pageSize <= a < low + (i + k + 1) * pageSize -> a < high -> ~ isInternal internal a ->
  covered (scanPages wanted pages i low high) a.
Proof.
  induction pages as [|p pages IH]; intros i low high k b a Hi Hl Hp Hh Hp2 Hk Hk0 Hb Ha Hah Hn; [done|].
  cbn [SweepScan.scanPages]. rewrite covered_app. destruct (decide (k = 0)) as [->|].
  - cbn in Hk. injection Hk as ->. rewrite Hb. left. apply scanExcluding_covers; [|done].
    unfold add64. rewrite wrap64_small by nia. cbn zeta. bool_cases; nia.
  - right. apply (IH (i + 1) low high (k - 1) b a); try lia; try done.
    replace (Z.to_nat k) with (S (Z.to_nat (k - 1))) in Hk by lia. exact Hk.
Qed.

Section Resident.
Context (Hm : mincore_ok) (Hpm : pagemap_ok) (Hsize : 0 < pageSize < 2 ^ 62).

Lemma scanChunk_covers pagemap low chunk high a :
  0 <= low -> 0 < chunk -> low + chunk <= high -> high < 2 ^ 63 -> (pagemap = true -> low mod pageSize = 0) ->
  low <= a < low + chunk -> ~ isInternal internal a -> readPage pagemap a -> covered (scanChunk pagemap low chunk high) a.
Proof.
  intros Hl Hc Hch Hh Hal Ha Hn Hr. unfold SweepScan.scanChunk.
  set (k := (a - low) / pageSize).
  assert (Hk : 0 <= k /\ k * pageSize <= a - low < (k + 1) * pageSize) by (subst k; split; [apply Z.div_pos; lia|]; pose proof (Z.div_mod (a - low) pageSize); pose proof (Z.mod_pos_bound (a - low) pageSize); nia).
  assert (Hcount : k < (chunk + pageSize - 1) / pageSize) by (apply Z.lt_le_trans with (k + 1); [lia|]; apply Z.div_le_lower_bound; nia).
  assert (Hpage : low mod pageSize = 0 -> low / pageSize + k = a / pageSize).
  { intros Hmod. subst k. replace a with ((a - low) + low / pageSize * pageSize) at 2 by (rewrite (Z.mul_comm (low / pageSize)), <- Z_div_exact_full_2 by lia; lia).
    rewrite Z.div_add by lia. lia. }
  assert (Hpages : forall holds page_is v, vectorOf holds page_is (low / pageSize) ((chunk + pageSize - 1) / pageSize) v -> low mod pageSize = 0 ->
    page_is (a / pageSize) = true -> covered (scanPages holds v 0 low high) a).
  { intros holds page_is v Hv Hmod Hq. destruct (Hv k ltac:(lia)) as (b & Hb & Hbe). rewrite Hpage in Hbe by done.
    apply (scanPages_covers holds v 0 low high k b a); try done; try lia. congruence. }
  assert (Hmin : isResident (a / pageSize) = true ->
    covered (match mincore low chunk with None => scanExcluding low (low + chunk) | Some vector => scanPages resident vector 0 low high end) a).
  { intros Hq. destruct (mincore low chunk) as [v|] eqn:E; [|by apply scanExcluding_covers]. destruct (Hm low chunk v E) as [Hmod Hv].
    by apply (Hpages resident isResident). }
  unfold readPage in Hr. destruct pagemap; cbn [readPage] in Hr; [|by apply Hmin].
  destruct (pagemapAt (low / pageSize) ((chunk + pageSize - 1) / pageSize)) as [v|] eqn:E.
  - apply (Hpages written isWritten); [by apply Hpm|by apply Hal|apply Hr].
  - destruct Hr as [_ [Hr|Hr]]; [by apply Hmin|by destruct (Hr _ _ E)].
Qed.

(** The runtime's own mappings are made of whole pages. *)
Definition paged : Prop := Forall (fun r => snd r mod pageSize = 0) internal.

Lemma skip_paged x : paged -> x mod pageSize = 0 -> skipInternal internal x mod pageSize = 0.
Proof.
  unfold paged. clear. revert x. induction internal as [|r l IH]; intros x Hp Hx; [done|]. apply list.Forall_cons in Hp as [Hr Hl].
  cbn [skipInternal foldl]. apply IH; [done|]. by destruct (_ && _).
Qed.

Lemma residentFrom_covers fuel : forall pagemap low high a,
  0 <= low -> high < 2 ^ 63 -> (pagemap = true -> low mod pageSize = 0 /\ paged) ->
  high - low < Z.of_nat fuel * (vectorPages * pageSize) ->
  low <= a < high -> ~ isInternal internal a -> readPage pagemap a -> covered (scanResidentFrom fuel low high pagemap) a.
Proof.
  unfold vectorPages. induction fuel as [|fuel IH]; intros pagemap low high a Hl Hh Hal Hf Ha Hn Hr; [lia|].
  cbn [SweepScan.scanResidentFrom]. destruct (skipInternal_ok internal low) as [Hs1 Hs2]. set (low' := skipInternal internal low) in *.
  assert (Hge : low' <= a) by (destruct (Z.le_gt_cases low' a); [done|destruct Hn; apply Hs2; lia]).
  assert (Hal' : pagemap = true -> low' mod pageSize = 0 /\ paged) by (intros Hp; destruct (Hal Hp); split; [by apply skip_paged|done]).
  cbn zeta. unfold vectorPages. destruct (Z.ltb_spec low' high); [|lia]. rewrite covered_app.
  set (chunk := if high - low' >? 512 * pageSize then 512 * pageSize else high - low').
  assert (Hchunk : 0 < chunk /\ low' + chunk <= high /\ (chunk = 512 * pageSize \/ low' + chunk = high)) by (subst chunk; compare_cases; nia).
  destruct (decide (a < low' + chunk)) as [Hin|Hout]; [left; apply scanChunk_covers; try lia; try done; by intros Hp; apply Hal'|right].
  destruct Hchunk as (Hc1 & Hc2 & [Hc3|Hc3]); [|lia]. apply IH; try lia; try done.
  intros Hp. destruct (Hal' Hp) as [H1 H2]. split; [|done]. rewrite Hc3, Z.mod_add by lia. done.
Qed.

Lemma scanResident_covers pagemap low high a :
  (exists n, 0 <= n /\ pageSize = 2 ^ n) -> 0 <= low -> high < 2 ^ 63 -> (pagemap = true -> paged) ->
  low <= a < high -> ~ isInternal internal a -> readPage pagemap a -> covered (scanResident low high pagemap) a.
Proof.
  intros (n & Hn & Ep) Hl Hh Hp Ha Hni Hr. unfold SweepScan.scanResident. rewrite Ep, land_lnot_ones, <- Ep by done.
  assert (Hdm : 0 <= low / pageSize * pageSize <= low) by (split; [apply Z.mul_nonneg_nonneg; [apply Z.div_pos|]; lia|pose proof (Z.mul_div_le low pageSize); lia]).
  apply residentFrom_covers; try lia; try done.
  - intros Hq. split; [by rewrite Z.mod_mul by lia|by apply Hp].
  - unfold residentFuel. set (d := high - low / pageSize * pageSize). rewrite !Nat2Z.inj_succ, Z2Nat.id by (apply Z.div_pos; unfold vectorPages; lia).
    assert (Hv : 0 < vectorPages * pageSize) by (unfold vectorPages; lia).
    pose proof (Z.mul_succ_div_gt d (vectorPages * pageSize) Hv). nia.
Qed.
End Resident.

(** ** /proc/self/maps *)

(** A line as the kernel prints it: the bounds in hexadecimal, eight digits at
    least, the permissions, the columns up to the name, and the name, which is
    empty or begins with a bracket or a slash. *)
Record mapping := mkMapping {
  m_low : Z; m_high : Z;
  m_readable : bool; m_writable : bool; m_executable : bool; m_shared : bool;
  m_columns : list Z; m_name : list Z
}.

Definition hexChar (d : Z) : Z := if d <? 10 then charOf "0" + d else charOf "a" + (d - 10).
Fixpoint hexDigits (width : nat) (n : Z) : list Z :=
  match width with O => [] | S width' => hexDigits width' (n / 16) ++ [hexChar (n mod 16)] end.
Definition hexText (n : Z) : list Z := hexDigits (Nat.max 8 (Z.to_nat (Z.log2 n / 4 + 1))) n.

Definition flags (m : mapping) : list Z :=
  [if m_readable m then charOf "r" else charOf "-"; if m_writable m then charOf "w" else charOf "-";
   if m_executable m then charOf "x" else charOf "-"; if m_shared m then charOf "s" else charOf "p"].

Definition mapLine (m : mapping) : list Z :=
  hexText (m_low m) ++ charOf "-" :: hexText (m_high m) ++ charOf " " :: flags m ++ m_columns m ++ m_name m ++ [10].
Definition mapsText (ms : list mapping) : list Z := concat (map mapLine ms) ++ [0].

Record mapping_ok (m : mapping) : Prop := {
  mo_range : 128 <= m_low m < m_high m /\ m_high m < 2 ^ 63;
  mo_columns : Forall (fun c => nameStarts c = false) (m_columns m);
  mo_name : Forall (fun c => lineEnds c = false) (m_name m);
  mo_starts : forall c, head (m_name m) = Some c -> nameStarts c = true
}.

Lemma digit_char d : 0 <= d < 16 -> digitOf (hexChar d) = Some d /\ hexChar d <> 0.
Proof.
  intros Hd. assert (He : d ∈ seqZ 0 16) by (apply elem_of_seqZ; lia). clear Hd. revert d He. apply list.Forall_forall.
  repeat constructor; discriminate.
Qed.

Lemma hexFrom_digits width : forall n value rest,
  0 <= value -> 0 <= n < 16 ^ Z.of_nat width -> value * 16 ^ Z.of_nat width + n < 2 ^ 64 ->
  hexFrom value (hexDigits width n ++ rest) = hexFrom (value * 16 ^ Z.of_nat width + n) rest.
Proof.
  induction width as [|width IH]; intros n value rest Hv Hn Hb; cbn [hexDigits].
  { cbn [app Z.of_nat] in *. f_equal. lia. }
  rewrite Nat2Z.inj_succ, Z.pow_succ_r in * by lia. set (p := 16 ^ Z.of_nat width) in *.
  assert (Hp : 0 < p) by (subst p; lia). assert (Hq : 0 <= n / 16 < p) by (split; [apply Z.div_pos; lia|apply Z.div_lt_upper_bound; lia]).
  pose proof (Z.div_mod n 16 ltac:(lia)) as Hd. pose proof (Z.mod_pos_bound n 16 ltac:(lia)) as Hmod.
  rewrite <- app_assoc, IH by (try done; nia). fold p. cbn [app hexFrom].
  destruct (digit_char (n mod 16) Hmod) as [-> _]. f_equal.
  assert (Hval : (value * p + n / 16) * 16 + n mod 16 = value * (16 * p) + n) by lia.
  rewrite (wrap64_small (_ * 16)) by nia. rewrite wrap64_small by lia. exact Hval.
Qed.

Lemma hex_text n c rest : 0 < n < 2 ^ 63 -> digitOf c = None -> hex (hexText n ++ c :: rest) = Some (n, c :: rest).
Proof.
  intros Hn Hc. unfold hex, hexText. set (width := Nat.max 8 (Z.to_nat (Z.log2 n / 4 + 1))).
  assert (Hw : n < 16 ^ Z.of_nat width).
  { assert (Hlog : n < 2 ^ (4 * (Z.log2 n / 4 + 1))).
    { eapply Z.lt_le_trans; [apply Z.log2_spec; lia|]. apply Z.pow_le_mono_r; [lia|]. pose proof (Z.div_mod (Z.log2 n) 4). pose proof (Z.mod_pos_bound (Z.log2 n) 4). lia. }
    rewrite Z.pow_mul_r in Hlog by (try lia; pose proof (Z.log2_nonneg n); pose proof (Z.div_pos (Z.log2 n) 4); lia). change (2 ^ 4) with 16 in Hlog.
    eapply Z.lt_le_trans; [exact Hlog|]. apply Z.pow_le_mono_r; [lia|]. subst width. lia. }
  rewrite hexFrom_digits by lia. cbn [hexFrom]. rewrite Hc. do 3 f_equal.
Qed.

Lemma upTo_app stop l : forall c rest, Forall (fun c => stop c = false) l -> stop c = true -> upTo stop (l ++ c :: rest) = Some (c :: rest).
Proof.
  induction l as [|x l IH]; intros c rest Hl Hc; cbn [app upTo]; [by rewrite Hc|].
  apply list.Forall_cons in Hl as [-> Hl]. by apply IH.
Qed.

Lemma flags_plain m : Forall (fun c => nameStarts c = false) (flags m).
Proof. unfold flags. destruct (m_readable m), (m_writable m), (m_executable m), (m_shared m); repeat constructor. Qed.

Lemma nameStarts_ends c : nameStarts c = false -> lineEnds c = false.
Proof. unfold nameStarts, lineEnds. by destruct (c =? 0), (c =? 10). Qed.

Lemma startsWith_line literal : forall name rest,
  Forall (fun c => c <> 10) literal -> startsWith (name ++ 10 :: rest) literal = startsWith name literal.
Proof.
  induction literal as [|l literal IH]; intros name rest Hl; [by destruct name|].
  apply list.Forall_cons in Hl as [Hne Hl]. destruct name as [|c name]; cbn [app startsWith]; [|by rewrite IH].
  destruct (Z.eqb_spec 10 l); [congruence|done].
Qed.

Lemma scanMapping_line pagemap low high r w x s name rest :
  scanMapping pagemap low high r w x s (name ++ 10 :: rest) = scanMapping pagemap low high r w x s name.
Proof.
  unfold SweepScan.scanMapping, named. rewrite !startsWith_line by (cbn; repeat constructor; discriminate). reflexivity.
Qed.

(** What is done with one mapping. *)
Definition mappingRanges (pagemap : bool) (m : mapping) : list range :=
  scanMapping pagemap (m_low m) (m_high m) (m_readable m) (m_writable m) (m_executable m) (m_shared m) (m_name m).

Lemma scanLine_print pagemap m rest :
  mapping_ok m ->
  scanLine x86_64 pageSize mincore pagemapAt internal stacks pagemap (mapLine m ++ rest) = Some (mappingRanges pagemap m, rest).
Proof.
  intros [[Hlow Hhigh] Hcol Hname Hstarts]. unfold scanLine, mapLine.
  rewrite <- !app_assoc. cbn [app]. rewrite hex_text by (try done; lia). cbn [mbind option_bind next].
  rewrite <- !app_assoc. cbn [app]. rewrite hex_text by (try done; lia). cbn [mbind option_bind next].
  rewrite <- !app_assoc. cbn [app].
  set (body := flags m ++ m_columns m ++ m_name m ++ 10 :: rest).
  assert (Hup : upTo nameStarts body = Some (m_name m ++ 10 :: rest)).
  { subst body. rewrite app_assoc. assert (Hf : Forall (fun c => nameStarts c = false) (flags m ++ m_columns m)) by (apply Forall_app; split; [apply flags_plain|done]).
    destruct (m_name m) as [|c name]; [by apply upTo_app|]. cbn [app]. apply upTo_app; [done|by apply Hstarts]. }
  assert (Hend : upTo lineEnds body = Some (10 :: rest)).
  { subst body. rewrite !app_assoc. apply upTo_app; [|done]. rewrite !Forall_app. split; [split|done];
      (eapply list.Forall_impl; [|apply nameStarts_ends]); [apply flags_plain|done]. }
  rewrite Hup, Hend. cbn [mbind option_bind]. subst body. unfold flags. cbn [app lookup list_lookup mbind option_bind].
  rewrite scanMapping_line. unfold mappingRanges.
  destruct (m_readable m), (m_writable m), (m_executable m), (m_shared m); reflexivity.
Qed.

Lemma mapLine_cons m : exists c l, mapLine m = c :: l /\ c <> 0.
Proof.
  unfold mapLine, hexText. set (width := Nat.max 8 _). assert (Hw : exists w, width = S w) by (subst width; destruct (Nat.max 8 _) eqn:E; [lia|by eexists]).
  destruct Hw as (w & ->). assert (Hd : forall k n, exists c l, hexDigits (S k) n = c :: l /\ c <> 0).
  { induction k as [|k IH]; intros n.
    - exists (hexChar (n mod 16)), []. split; [done|]. apply digit_char, Z.mod_pos_bound. lia.
    - destruct (IH (n / 16)) as (c & l & E & Hc). cbn [hexDigits] in *. rewrite E. exists c, (l ++ [hexChar (n mod 16)]). done. }
  destruct (Hd w (m_low m)) as (c & l & -> & Hc). by eexists _, _.
Qed.

Lemma scanLines_print pagemap ms : forall fuel,
  Forall mapping_ok ms -> (length ms < fuel)%nat ->
  scanLines x86_64 pageSize mincore pagemapAt internal stacks fuel pagemap (mapsText ms) = Some (concat (map (mappingRanges pagemap) ms)).
Proof.
  unfold mapsText. induction ms as [|m ms IH]; intros fuel Hok Hf; destruct fuel as [|fuel]; cbn [length] in Hf; try lia; [done|].
  apply list.Forall_cons in Hok as [Hm Hms]. cbn [map concat]. rewrite <- app_assoc.
  destruct (mapLine_cons m) as (c & l & E & Hc). pose proof (scanLine_print pagemap m (concat (map mapLine ms) ++ [0]) Hm) as Hline.
  rewrite E in *. cbn [app scanLines] in *. destruct (Z.eqb_spec c 0); [done|]. rewrite Hline. cbn [mbind option_bind].
  rewrite IH by (try done; lia). reflexivity.
Qed.

Lemma mapsText_length ms : (length ms < length (mapsText ms))%nat.
Proof.
  unfold mapsText. rewrite length_app. cbn. induction ms as [|m ms IH]; cbn [map concat length]; [lia|].
  destruct (mapLine_cons m) as (c & l & -> & _). cbn [app length]. rewrite length_app. lia.
Qed.

Lemma scanMappings_print pagemap ms : Forall mapping_ok ms -> scanMappings pagemap (mapsText ms) = Some (concat (map (mappingRanges pagemap) ms)).
Proof. intros Hok. apply scanLines_print; [done|apply mapsText_length]. Qed.

(** The kernel's mappings and the devices', which are left out. *)
Definition leftOut (name : list Z) : bool :=
  named name "[vvar" || named name "[vsys"
  || (named name "/dev/" && negb (named name "/dev/shm/" || named name "/dev/zero" || named name "/dev/hugepages/")).

(** What the x86-64 ABI lets a function use below its stack pointer; other
    machines have no such zone. *)
Definition abiRedZone : Z := if x86_64 then 128 else 0.

(** Where a root can be.  Of a mapping the program can write: anywhere, when no
    stopped thread has its stack pointer in it; where a stopped thread may keep
    a local, from the red zone of its stack pointer up; and on a resident page
    unless the mapping is the main thread's stack, for the other stacks of a
    pool of coroutines.  Of a private mapping it cannot write: on a page that
    is read. *)
Definition rootAt (pagemap : bool) (m : mapping) (a : Z) : Prop :=
  if m_writable m then
    (forall s, s ∈ stacks -> ~ m_low m <= s < m_high m)
    \/ (exists s, s ∈ stacks /\ m_low m <= s < m_high m /\ s - abiRedZone <= a)
    \/ (named (m_name m) "[stack]" = false /\ isResident (a / pageSize) = true)
  else m_executable m = false /\ m_shared m = false /\ readPage pagemap a /\ (pagemap = true -> paged).

(** The lowest stack pointer of the mapping is where the scan begins. *)
Lemma root_scanned pagemap m a :
  128 <= m_low m < m_high m -> m_high m < 2 ^ 63 -> m_low m <= a -> m_writable m = true -> rootAt pagemap m a ->
  let sp := stackIn stacks (m_low m) (m_high m) in
  sp = 0 \/ liveFrom x86_64 sp (m_low m) <= a \/ (named (m_name m) "[stack]" = false /\ isResident (a / pageSize) = true).
Proof.
  intros Hlow Hhigh Ha Hw Hroot. unfold rootAt in Hroot. rewrite Hw in Hroot. cbn zeta.
  destruct (stackIn_lowest stacks (m_low m) (m_high m) ltac:(lia)) as [[-> _]|(Hin & Hr & Hleast)]; [by left|right].
  destruct Hroot as [Hno|[(s & Hs & Hsr & Hsa)|?]]; [by destruct (Hno _ Hin)|left|by right].
  specialize (Hleast s Hs Hsr). unfold liveFrom, RedZone, sub64, abiRedZone in *.
  rewrite wrap64_small by (destruct x86_64; lia). rewrite Z.gtb_ltb. bool_cases; destruct x86_64; lia.
Qed.

Lemma scanMapping_covers pagemap m a :
  mincore_ok -> pagemap_ok -> (exists n, 0 <= n < 62 /\ pageSize = 2 ^ n) -> mapping_ok m ->
  m_readable m = true -> leftOut (m_name m) = false -> m_low m <= a < m_high m -> ~ isInternal internal a -> rootAt pagemap m a ->
  covered (mappingRanges pagemap m) a.
Proof.
  intros Hm Hpm (n & Hn & Ep) [[Hlow Hhigh] _ _ _] Hr Hout Ha Hni Hroot.
  assert (Hsize : 0 < pageSize < 2 ^ 62) by (rewrite Ep; split; [lia|apply Z.pow_lt_mono_r; lia]).
  assert (Hpow : exists n, 0 <= n /\ pageSize = 2 ^ n) by (exists n; split; [lia|done]).
  unfold leftOut in Hout. apply orb_false_iff in Hout as [Hk Hdev]. unfold mappingRanges, SweepScan.scanMapping, scanStack. rewrite Hr, Hk. cbn [andb].
  replace (negb (named (m_name m) "/dev/") || named (m_name m) "/dev/shm/" || named (m_name m) "/dev/zero" || named (m_name m) "/dev/hugepages/") with true
    by (destruct (named (m_name m) "/dev/"), (named (m_name m) "/dev/shm/"), (named (m_name m) "/dev/zero"), (named (m_name m) "/dev/hugepages/"); done).
  pose proof (root_scanned pagemap m a Hlow Hhigh ltac:(lia)) as Hlow_root. unfold rootAt in Hroot, Hlow_root.
  destruct (m_writable m); cbn [orb negb].
  - specialize (Hlow_root eq_refl Hroot). clear Hroot. rename Hlow_root into Hroot. cbn zeta in Hroot |- *. destruct (Z.eqb_spec (stackIn stacks (m_low m) (m_high m)) 0) as [E|E]; cbn [orb]; [by apply scanExcluding_covers|].
    assert (Hlive : stackIn stacks (m_low m) (m_high m) < m_high m) by (destruct (stackIn_lowest stacks (m_low m) (m_high m) ltac:(lia)) as [[? _]|[_ [? _]]]; [done|lia]).
    assert (Hlive' : liveFrom x86_64 (stackIn stacks (m_low m) (m_high m)) (m_low m) <= m_high m).
    { unfold liveFrom, RedZone, sub64. assert (m_low m <= stackIn stacks (m_low m) (m_high m)) by (destruct (stackIn_lowest stacks (m_low m) (m_high m) ltac:(lia)) as [[? _]|[_ [? _]]]; [done|lia]).
      rewrite wrap64_small by (destruct x86_64; lia). rewrite Z.gtb_ltb. bool_cases; destruct x86_64; lia. }
    set (live := liveFrom x86_64 (stackIn stacks (m_low m) (m_high m)) (m_low m)) in *. destruct (named (m_name m) "[stack]"); cbn [orb].
    + apply scanExcluding_covers; [|done]. destruct Hroot as [?|[?|[? _]]]; [done|lia|done].
    + rewrite covered_app. destruct (decide (live <= a)) as [Hl|Hl]; [right; apply scanExcluding_covers; [lia|done]|left].
      destruct Hroot as [?|[?|[_ Hres]]]; [done|done|]. apply scanResident_covers; try done; lia.
  - destruct Hroot as (-> & -> & Hp & Hpg). cbn [negb andb orb]. apply scanResident_covers; try done; lia.
Qed.

(** Nothing of the runtime's own is read, once [sortInternal] has run. *)
Definition free (l : list range) : Prop := forall a, covered l a -> ~ isInternal internal a.

Lemma free_app l1 l2 : free l1 -> free l2 -> free (l1 ++ l2).
Proof. intros H1 H2 a [Ha|Ha]%covered_app; [by apply H1|by apply H2]. Qed.

Lemma free_nil : free [].
Proof. intros a Ha. by apply Exists_nil in Ha. Qed.

Section Free.
Context (Hsorted : StronglySorted starts_le internal).

Lemma free_excluding low high : free (scanExcluding low high).
Proof. intros a Ha. by eapply excluding_free. Qed.

Local Hint Resolve free_nil free_app free_excluding : core.

Lemma free_pages wanted pages : forall i low high, free (scanPages wanted pages i low high).
Proof. induction pages as [|p pages IH]; intros i low high; cbn [SweepScan.scanPages]; [done|]. apply free_app; [by destruct (wanted p)|done]. Qed.

Lemma free_resident pagemap low high : free (scanResident low high pagemap).
Proof.
  unfold SweepScan.scanResident. generalize (Z.land low (Z.lnot (pageSize - 1))) (residentFuel pageSize (Z.land low (Z.lnot (pageSize - 1))) high).
  intros x fuel. revert x. induction fuel as [|fuel IH]; intros x; cbn [SweepScan.scanResidentFrom]; [done|].
  cbn zeta. destruct (_ <? high); [|done]. apply free_app; [|apply IH]. unfold SweepScan.scanChunk.
  repeat case_match; auto using free_pages.
Qed.

Lemma free_mapping pagemap m : free (mappingRanges pagemap m).
Proof.
  unfold mappingRanges, SweepScan.scanMapping, scanStack. cbn zeta.
  repeat case_match; auto using free_resident.
Qed.

Lemma free_mappings pagemap ms : free (concat (map (mappingRanges pagemap) ms)).
Proof. induction ms as [|m ms IH]; cbn [map concat]; auto using free_mapping. Qed.
End Free.

End Scan.
