(* ===== verification/Allocator.v ===== *)
(** * The calls of the program

    [runtime/weavec_alloc.c], "Allocate, release, reallocate" and "Reports":
    [__weavec_rt_alloc], [__weavec_rt_free], [__weavec_rt_realloc],
    [__weavec_rt_size] and [weavecRtHeapObjectAt], over the state of the file
    Heap and the sweep of the file Sweep.

    A call answers its result or the fatal error that stops the program.  The
    C library's allocator, which serves what the arena cannot, is the class
    [NextAllocator].  [self] is the calling thread. *)

From Stdlib Require Import String.
From S2P Require Import Prelude Shadow Report Classes Heap HugeBlocks Sweep.
Local Open Scope Z_scope.

(** The C library's allocator: the answer to its [n]-th question. *)
Class NextAllocator := {
  nextAlign : nat -> Z -> Z -> option Z;
  nextKnows : Z -> bool;                  (* [false]: the block is nobody's *)
  nextRealloc : nat -> Z -> Z -> option Z;
  nextSize : Z -> Z
}.

(** What a call comes to. *)
Inductive outcome (A : Type) :=
  | Done (result : A) (st : alloc)
  | Fatal (address : Z) (why : string).
Arguments Done {A} result st.
Arguments Fatal {A} address why.

Section Calls.
Context {P : Pages} {Sys : System} {Next : NextAllocator}.

(** ** Allocation *)

(** An allocation from a thread's cache, refilled when it is empty; [None] is
    the fuel's end, [Some 0] that memory is exhausted. *)
Definition cachedAlloc (self : nat) (k : ThreadCache) (c size : Z) (st : alloc) : option Z * alloc :=
  let slotBytes := slotBytesOf st c in
  let '(available, k, st) :=
    match tc_alloc k c with
    | [] =>
      let '(got, st) := popClass (weavecRtSweep self) c (Z.to_nat (cacheLimit st c)) st in
      let k := match ownCache self st with Some k => k | None => k end in
      (option_map (@rev Z) got, k, st)
    | l => (Some l, k, st)
    end in
  match available with
  | None => (None, st)
  | Some l =>
    match rev l with
    | [] => (Some 0, set_cache st self (tc_with_alloc k c []))
    | taken :: rest =>
      let k := tc_with_delta k (tc_liveDelta k + slotBytes) in
      let '(k, st) := if FoldBytes <=? tc_liveDelta k then foldLive k st else (k, st) in
      let st := set_cache st self (tc_with_alloc k c (rev rest)) in
      let '(block, st) := makeLive taken size slotBytes st in (Some block, st)
    end
  end.

(** The cache of a call that is the thread's only one in the allocator. *)
Definition cacheFor (self : nat) (c : Z) (st : alloc) : option ThreadCache * alloc :=
  if c <? cachedClasses (al_heap st) then
    let '(cache, st) := threadCache self st in
    match cache with
    | Some k => if tc_depth k <=? 1 then (Some k, st) else (None, st)
    | None => (None, st)
    end
  else (None, st).

(** A slot of class [c], by the thread's cache or without one. *)
Definition allocateSlot (self : nat) (c size : Z) (st : alloc) : option Z * alloc :=
  let '(cache, st) := cacheFor self c st in
  match cache with
  | Some k => cachedAlloc self k c size st
  | None => takeSlot (weavecRtSweep self) c size st
  end.

(** [allocate]; 0 is a failure ([ENOMEM] or [EINVAL]). *)
Definition allocate (self : nat) (size alignment : Z) (st : alloc) : option Z * alloc :=
  if h_bytes (al_heap st) =? 0 then
    let '(block, st) := ask (fun n => nextAlign n (if 16 <? alignment then alignment else 16) size) st in
    match block with
    | None => (Some 0, st)
    | Some block => (Some block, set_mem st (memset (al_mem st) block 0 size))
    end
  else
    match chosenClass size alignment with
    | None => (Some 0, st)
    | Some c =>
      let st := countStat st WeavecRtStatAllocations in
      let '(block, st) :=
        if c <? h_classes (al_heap st) then allocateSlot self c size st else (Some 0, st) in
      match block with
      | None => (None, st)
      | Some block =>
        if negb (block =? 0) then (Some block, st)
        else
          let '(block, st) := hugeAlloc size alignment (countStat st WeavecRtStatHuge) in (Some block, st)
      end
    end.

(** ** Release *)

(** The requested size of the live block that starts at [p]. *)
Definition ownedSize (p : Z) (st : alloc) : option Z :=
  if inArena (al_heap st) p then
    let ref := slotOf (al_heap st) p in
    let word := wordOf st ref in
    if negb (ref_base ref =? p) || negb (wordState word =? WeavecRtLive) then None
    else Some (weavecRtWordValue word)
  else
    match hugeFind (al_huge st) p with
    | Some block => if (hb_base block =? p) && (hb_dead block =? 0) then Some (hb_size block) else None
    | None => None
    end.

Definition whyNotReleasable (address : Z) (st : alloc) : string :=
  let word := wordOf st (slotOf (al_heap st) address) in
  if wordState word =? WeavecRtDead then "the block was already released"
  else if negb (wordState word =? WeavecRtLive) then "no block is allocated there"
  else "not the start of its block".

(** The whole pages inside a dead slot go back: they read zero. *)
Definition decommit (mem : Z -> Z) (base bytes : Z) : Z -> Z :=
  let first := Z.land (base + pageBytes - 1) (Z.lnot (pageBytes - 1)) in
  let last := Z.land (base + bytes) (Z.lnot (pageBytes - 1)) in
  if last <=? first then mem else fill_bytes mem first (last - first) 0.

(** Takes the live slot for its release, its word unchanged since it was
    read. *)
Definition claim (ref : SlotRef) (word p : Z) (st : alloc) : outcome unit :=
  if wordOf st ref =? word then Done tt (storeWord st (ref_region ref) (ref_slot ref) claimed)
  else Fatal p "the block was already released".

Definition sweepOverBudget (self : nat) (st : alloc) : alloc :=
  let '(over, st) := overBudget st in if (over : bool) then weavecRtSweep self st else st.

(** Queues the claimed slot in its region's quarantine. *)
Definition retire (self : nat) (ref : SlotRef) (st : alloc) : alloc :=
  let size := slotBytesOf st (ref_region ref) in
  let st := set_shadow st (shadowDead (al_shadow st) (ref_base ref) size) in
  let st := if WeavecRtDecommitBytes <=? size then set_mem st (decommit (al_mem st) (ref_base ref) size) else st in
  let st := enqueue (ref_region ref) (ref_slot ref) st in
  let st := addQuarantine size st in
  let st := gain (al_class st (ref_region ref)) size st in
  sweepOverBudget self (addLive (- size) st).

(** A release through the thread's cache. *)
Definition cachedRelease (self : nat) (k : ThreadCache) (c : Z) (ref : SlotRef) (st : alloc) : alloc :=
  let slotBytes := slotBytesOf st c in
  let st := set_shadow st (shadowDead (al_shadow st) (ref_base ref) slotBytes) in
  let released := tc_release k c ++ [slotEntry (ref_region ref) (ref_slot ref) true] in
  let k := tc_with_delta (tc_with_release k c released) (tc_liveDelta k - slotBytes) in
  let '(k, st) := if tc_liveDelta k <=? - FoldBytes then foldLive k st else (k, st) in
  if Z.of_nat (length released) =? cacheLimit st c then
    let '(k, st) := flushReleases k c false st in sweepOverBudget self (set_cache st self k)
  else set_cache st self k.

Definition release (self : nat) (p : Z) (st : alloc) : outcome unit :=
  if inArena (al_heap st) p then
    let ref := slotOf (al_heap st) p in
    let word := wordOf st ref in
    let c := al_class st (ref_region ref) in
    if negb (ref_base ref =? p) || negb (wordState word =? WeavecRtLive)
    then Fatal p (whyNotReleasable p st)
    else
      match claim ref word p (countStat st WeavecRtStatReleases) with
      | Fatal a why => Fatal a why
      | Done _ st =>
        let '(cache, st) := cacheFor self c st in
        Done tt (match cache with
                 | Some k => cachedRelease self k c ref st
                 | None => retire self ref st
                 end)
      end
  else
    let '(freed, st) := hugeFree p st in
    if (freed : bool) then Done tt (sweepOverBudget self st)
    else
      match hugeFind (al_huge st) p with
      | Some block =>
        Fatal p (if negb (hb_dead block =? 0) then "the block was already released"
                 else "not the start of its block")
      | None => if nextKnows p then Done tt st else Fatal p "not a heap block"
      end.

(** ** The entry points *)

(** Whether the thread is inside the allocator and holds one of its locks. *)
Definition busy (self : nat) (st : alloc) : bool :=
  match ownCache self st with
  | Some k => negb (tc_depth k =? 0) && negb (tc_locks k =? 0)
  | None => false
  end.

(** A call into the allocator begins, and ends; whether there was a cache to
    count it in. *)
Definition enter (self : nat) (st : alloc) : bool * alloc :=
  match ownCache self st with
  | Some k => (true, set_cache st self (tc_with_depth k (tc_depth k + 1)))
  | None => (false, st)
  end.

(** Whether the thread's outermost call ended. *)
Definition leave (self : nat) (counted : bool) (st : alloc) : bool * alloc :=
  match ownCache self st with
  | Some k =>
    if counted then (tc_depth k - 1 =? 0, set_cache st self (tc_with_depth k (tc_depth k - 1))) else (false, st)
  | None => (false, st)
  end.

(** The next release that waits, the last deferred first. *)
Definition popDeferred (self : nat) (st : alloc) : option (Z * alloc) :=
  match ownCache self st with
  | Some k =>
    match rev (tc_deferred k) with
    | p :: rest => Some (p, set_cache st self (tc_with_deferred k (rev rest)))
    | [] => None
    end
  | None => None
  end.

Definition Deferrable : Z := 16.

(** [__weavec_rt_free], and the loop over the deferred releases, which calls
    it; [None] is the fuel's end. *)
Fixpoint freeDeferred (fuel : nat) (self : nat) (p : Z) (st : alloc) : option (outcome unit) :=
  match fuel with
  | O => None
  | S fuel' =>
    if p =? 0 then Some (Done tt st)
    else if busy self st then
      match ownCache self st with
      | Some k =>
        Some (Done tt (if Z.of_nat (length (tc_deferred k)) <? Deferrable
                       then set_cache st self (tc_with_deferred k (tc_deferred k ++ [p])) else st))
      | None => Some (Done tt st)
      end
    else
      let '(counted, st) := enter self st in
      match release self p st with
      | Fatal a why => Some (Fatal a why)
      | Done _ st =>
        let '(outermost, st) := leave self counted st in
        if (outermost : bool) then drainDeferred fuel' self st else Some (Done tt st)
      end
  end
with drainDeferred (fuel : nat) (self : nat) (st : alloc) : option (outcome unit) :=
  match fuel with
  | O => None
  | S fuel' =>
    match popDeferred self st with
    | None => Some (Done tt st)
    | Some (p, st) =>
      match freeDeferred fuel' self p st with
      | Some (Done _ st) => drainDeferred fuel' self st
      | r => r
      end
    end
  end.

(** Each deferred release is taken off before it is made. *)
Definition deferFuel (self : nat) (st : alloc) : nat :=
  match ownCache self st with Some k => 2 * length (tc_deferred k) + 3 | None => 3 end.

Definition __weavec_rt_free (self : nat) (p : Z) (st : alloc) : option (outcome unit) :=
  freeDeferred (deferFuel self st) self p st.

Definition __weavec_rt_alloc (self : nat) (size alignment : Z) (st : alloc) : option (outcome Z) :=
  if busy self st then Some (Done 0 st)
  else
    let '(counted, st) := enter self st in
    let '(block, st) := allocate self size alignment st in
    match block with
    | None => None
    | Some block =>
      let '(outermost, st) := leave self counted st in
      if (outermost : bool) then
        match drainDeferred (deferFuel self st) self st with
        | Some (Done _ st) => Some (Done block st)
        | Some (Fatal a why) => Some (Fatal a why)
        | None => None
        end
      else Some (Done block st)
    end.

(** [memcpy] of [n] bytes. *)
Definition copy_bytes (mem : Z -> Z) (to from n : Z) : Z -> Z :=
  fun a => if (to <=? a) && (a <? to + n) then mem (from + (a - to)) else mem a.

(** The block moves: allocated anew, copied, released. *)
Definition reallocMove (self : nat) (p old size : Z) (st : alloc) : option (outcome Z) :=
  match __weavec_rt_alloc self size 0 st with
  | Some (Done moved st) =>
    if moved =? 0 then Some (Done 0 st)
    else
      let st := set_mem st (copy_bytes (al_mem st) moved p (if old <? size then old else size)) in
      match __weavec_rt_free self p st with
      | Some (Done _ st) => Some (Done moved st)
      | Some (Fatal a why) => Some (Fatal a why)
      | None => None
      end
  | r => r
  end.

Definition __weavec_rt_realloc (self : nat) (p size : Z) (st : alloc) : option (outcome Z) :=
  if p =? 0 then __weavec_rt_alloc self size 0 st
  else if inArena (al_heap st) p then
    let ref := slotOf (al_heap st) p in
    let value := wordOf st ref in
    if negb (ref_base ref =? p) || negb (wordState value =? WeavecRtLive)
    then Some (Fatal p (whyNotReleasable p st))
    else
      let old := weavecRtWordValue value in
      if classFor size =? al_class st (ref_region ref) then
        let st := if old <? size then set_mem st (memset (al_mem st) (p + old) 0 (size - old)) else st in
        let st := set_shadow st (shadowLive (al_heap st) (al_shadow st) p size (slotBytesOf st (ref_region ref))) in
        Some (Done p (storeWord st (ref_region ref) (ref_slot ref) (makeWord size WeavecRtLive)))
      else reallocMove self p old size st
  else
    match ownedSize p st with
    | Some old => reallocMove self p old size st
    | None =>
      match hugeFind (al_huge st) p with
      | Some _ => Some (Fatal p "not the start of a live block")
      | None =>
        if nextKnows p then
          let '(moved, st) := ask (fun n => nextRealloc n p size) st in
          Some (Done (default 0 moved) st)
        else Some (Fatal p "not a heap block")
      end
    end.

Definition __weavec_rt_size (p : Z) (st : alloc) : Z :=
  if p =? 0 then 0
  else
    match ownedSize p st with
    | Some size => size
    | None =>
      if inArena (al_heap st) p then 0
      else match hugeFind (al_huge st) p with Some _ => 0 | None => nextSize p end
    end.

(** ** Reports *)

Definition weavecRtHeapObjectAt (address : Z) (st : alloc) : HeapObject :=
  if inArena (al_heap st) address then
    let ref := slotOf (al_heap st) address in
    let word := wordOf st ref in
    let live := wordState word =? WeavecRtLive in
    mkHeapObject (negb (wordState word =? WeavecRtNever)) live (ref_base ref)
      (if live then weavecRtWordValue word else slotBytesOf st (ref_region ref))
  else
    match hugeFind (al_huge st) address with
    | Some block => mkHeapObject true (hb_dead block =? 0) (hb_base block) (hb_size block)
    | None => no_heap_object
    end.
End Calls.

(** The allocator's answers, as a report asks for them. *)
Definition heap_view (st : alloc) : HeapView := {| Report.weavecRtHeapObjectAt a := weavecRtHeapObjectAt a st |}.
