(* ===== verification/HeapFacts.v ===== *)
(** * Every slot is in one place

    The invariant of the allocator's slots (the definitions of the file Heap):
    each slot of a region is in exactly one place, its word says so, and the
    free list and the quarantine queue of the region hold exactly the slots
    whose place they are.  [place] is ghost state: no function of the
    allocator reads it. *)

From S2P Require Import Prelude Shadow Classes Heap.
Local Open Scope Z_scope.

(** ** Words and entries as numbers *)

Lemma lor_low a b n : 0 <= n -> 0 <= b < 2 ^ n -> Z.lor (a * 2 ^ n) b = a * 2 ^ n + b.
Proof.
  intros Hn Hb. assert (Hl : Z.land (a * 2 ^ n) b = 0).
  { rewrite <- (Z.mod_small b (2 ^ n)), <- Z.land_ones by done.
    rewrite (Z.land_comm b), Z.land_assoc, Z.land_ones, Z_mod_mult by done. apply Z.land_0_l. }
  by rewrite <- Z.lxor_lor, <- Z.add_nocarry_lxor.
Qed.

Lemma makeWord_eq v s : 0 <= v < 2 ^ 30 -> 0 <= s < 4 -> makeWord v s = 4 * v + s.
Proof.
  intros Hv Hs. unfold makeWord, WeavecRtWordShift, wrap32. rewrite Z.shiftl_mul_pow2 by lia.
  rewrite Z.mod_small, lor_low by lia. lia.
Qed.

Lemma wordState_eq w : wordState w = w mod 4.
Proof. apply (Z.land_ones w 2). lia. Qed.

Lemma wordValue_eq w : weavecRtWordValue w = w / 4.
Proof. apply Z.shiftr_div_pow2. done. Qed.

Lemma makeWord_state v s : 0 <= v < 2 ^ 30 -> 0 <= s < 4 -> wordState (makeWord v s) = s.
Proof. intros. rewrite wordState_eq, makeWord_eq by done. euclid. Qed.

Lemma makeWord_value v s : 0 <= v < 2 ^ 30 -> 0 <= s < 4 -> weavecRtWordValue (makeWord v s) = v.
Proof. intros. rewrite wordValue_eq, makeWord_eq by done. euclid. Qed.

Lemma slotEntry_eq r s u :
  0 <= r < 256 -> 0 <= s < 2 ^ 31 -> slotEntry r s u = 2 ^ 63 + r * 2 ^ 32 + 2 * s + Z.b2z u.
Proof.
  intros Hr Hs. unfold slotEntry. rewrite !Z.shiftl_mul_pow2 by lia. rewrite Z.mul_1_l.
  assert (Hu : 0 <= Z.b2z u < 2) by (destruct u; cbn; lia).
  replace (2 ^ 63) with (2 ^ 31 * 2 ^ 32) at 1 by reflexivity.
  replace (Z.lor (2 ^ 31 * 2 ^ 32) (r * 2 ^ 32)) with ((2 ^ 31 + r) * 2 ^ 32).
  2:{ rewrite <- !Z.shiftl_mul_pow2 by lia. rewrite <- Z.shiftl_lor. f_equal.
      replace (2 ^ 31) with (2 ^ 23 * 2 ^ 8) by reflexivity. symmetry. apply lor_low; lia. }
  rewrite lor_low by lia.
  replace ((2 ^ 31 + r) * 2 ^ 32 + s * 2 ^ 1) with (((2 ^ 31 + r) * 2 ^ 31 + s) * 2 ^ 1) by ring.
  rewrite lor_low by lia. ring.
Qed.

Lemma entryRegion_slotEntry r s u :
  0 <= r < 256 -> 0 <= s < 2 ^ 31 -> entryRegion (slotEntry r s u) = r.
Proof.
  intros Hr Hs. rewrite slotEntry_eq by done. unfold entryRegion, wrap32.
  rewrite Z.shiftr_div_pow2 by lia. assert (Hu : 0 <= Z.b2z u < 2) by (destruct u; cbn; lia).
  replace ((2 ^ 63 + r * 2 ^ 32 + 2 * s + Z.b2z u) / 2 ^ 32) with (2 ^ 31 + r) by euclid.
  rewrite Z.mod_small by lia. change 255 with (Z.ones 8). rewrite Z.land_ones by lia. euclid.
Qed.

Lemma entrySlot_slotEntry r s u :
  0 <= r < 256 -> 0 <= s < 2 ^ 31 -> entrySlot (slotEntry r s u) = s.
Proof.
  intros Hr Hs. rewrite slotEntry_eq by done. unfold entrySlot, wrap32.
  rewrite Z.shiftr_div_pow2 by lia. assert (Hu : 0 <= Z.b2z u < 2) by (destruct u; cbn; lia).
  replace ((2 ^ 63 + r * 2 ^ 32 + 2 * s + Z.b2z u) / 2 ^ 1) with (2 ^ 62 + r * 2 ^ 31 + s) by euclid.
  change 2147483647 with (Z.ones 31). rewrite Z.land_ones by lia. euclid.
Qed.

Lemma entryUsed_slotEntry r s u :
  0 <= r < 256 -> 0 <= s < 2 ^ 31 -> negb (Z.land (slotEntry r s u) 1 =? 0) = u.
Proof.
  intros Hr Hs. rewrite slotEntry_eq by done. change 1 with (Z.ones 1). rewrite Z.land_ones by lia.
  replace ((2 ^ 63 + r * 2 ^ 32 + 2 * s + Z.b2z u) mod 2 ^ 1) with (Z.b2z u) by (destruct u; cbn [Z.b2z]; euclid).
  by destruct u.
Qed.

Lemma slotEntry_inj r s u r' s' u' :
  0 <= r < 256 -> 0 <= s < 2 ^ 31 -> 0 <= r' < 256 -> 0 <= s' < 2 ^ 31 ->
  slotEntry r s u = slotEntry r' s' u' -> r = r' /\ s = s' /\ u = u'.
Proof.
  intros Hr Hs Hr' Hs' He. split_and!.
  - by rewrite <- (entryRegion_slotEntry r s u), He, entryRegion_slotEntry.
  - by rewrite <- (entrySlot_slotEntry r s u), He, entrySlot_slotEntry.
  - by rewrite <- (entryUsed_slotEntry r s u), He, entryUsed_slotEntry.
Qed.

(** ** Updates at an index *)

Lemma setAt_eq {A} (f : Z -> A) i v : setAt f i v i = v.
Proof. unfold setAt. by rewrite Z.eqb_refl. Qed.

Lemma setAt_ne {A} (f : Z -> A) i v j : j <> i -> setAt f i v j = f j.
Proof. intros Hne. unfold setAt. by rewrite (proj2 (Z.eqb_neq j i)). Qed.

Lemma setAt_cases {A} (f : Z -> A) i v j : setAt f i v j = if decide (j = i) then v else f j.
Proof. case_decide as E; [subst; apply setAt_eq|by apply setAt_ne]. Qed.

(** ** Places *)

(** Where a slot is: never handed out; live; on its region's free list; in its
    quarantine; taken from the region by a call in progress; in a thread's
    cache of free slots of a class; claimed by a release in progress (its shadow
    still the live block's), or by a thread for a class.  [used]: it was used
    before. *)
Inductive place :=
  | Fresh
  | Live
  | Free
  | Queued
  | Hand (used : bool)
  | Held (thread : nat) (c : Z) (used : bool)
  | Claimed (owner : option (nat * Z)).

#[export] Instance place_eq_dec : EqDecision place.
Proof. solve_decision. Defined.

(** What the word of a slot in a place says. *)
Definition word_ok (size word : Z) (p : place) : Prop :=
  match p with
  | Fresh | Hand false | Held _ _ false => word = 0
  | Live => exists n, 0 <= n < size /\ word = makeWord n WeavecRtLive
  | Free | Hand true | Held _ _ true => exists v, 0 <= v < 2 ^ 30 /\ word = makeWord v WeavecRtFree
  | Queued => exists v, 0 <= v < CachedDead /\ word = makeWord v WeavecRtDead
  | Claimed _ => word = claimed
  end.

(** The slots linked from [head] by the values of their words. *)
Fixpoint chain (words : Z -> Z) (head : Z) (l : list Z) : Prop :=
  match l with
  | [] => head = 0
  | s :: l' => head = s + 1 /\ 0 <= s /\ chain words (weavecRtWordValue (words s)) l'
  end.

(** A list from [head] of exactly the slots in place [p]. *)
Record listed (words : Z -> Z) (w : Z -> place) (head : Z) (p : place) (l : list Z) : Prop := {
  li_chain : chain words head l;
  li_nodup : NoDup l;
  li_elem : forall s, s ∈ l <-> 0 <= s /\ w s = p
}.

Definition tailOf (l : list Z) : Z := match list.last l with Some s => s + 1 | None => 0 end.

(** The invariant of a region, given its class, its words and its state. *)
Record region_ok (shift : Z) (e : size_class) (words : Z -> Z) (rs : RegionState) (w : Z -> place) : Prop := {
  ro_bump : 0 <= bump rs <= c_capacity e;
  ro_committed : bump rs * c_size e <= committed rs <= 2 ^ shift /\ committed rs mod 2 ^ 20 = 0;
  ro_fresh : forall s, 0 <= s -> w s = Fresh <-> bump rs <= s;
  ro_words : forall s, 0 <= s -> word_ok (c_size e) (words s) (w s);
  ro_free : exists l, listed words w (freeHead rs) Free l;
  ro_dead : exists l, listed words w (deadHead rs) Queued l /\ deadTail rs = tailOf l
}.

(** ** Lists under updates *)

Lemma chain_ext words words' head l :
  (forall s, s ∈ l -> words' s = words s) -> chain words head l -> chain words' head l.
Proof.
  revert head. induction l as [|s l IH]; intros head He; [done|]. cbn. intros (-> & Hs & Hc).
  split_and!; [done|done|]. rewrite He by left. apply IH; [|done]. intros x Hx. apply He. by right.
Qed.

Lemma listed_frame words w head p l s v q :
  listed words w head p l -> w s <> p -> q <> p -> listed (setAt words s v) (setAt w s q) head p l.
Proof.
  intros [Hc Hn He] Hs Hq. constructor; [|done|].
  - apply (chain_ext words); [|done]. intros x Hx. apply He in Hx as [_ Hx]. apply setAt_ne. congruence.
  - intros x. rewrite He, setAt_cases. case_decide; [subst|done]. split; intros [? ?]; congruence.
Qed.

Lemma listed_frame_place words w head p l s q :
  listed words w head p l -> w s <> p -> q <> p -> listed words (setAt w s q) head p l.
Proof.
  intros [Hc Hn He] Hs Hq. constructor; [done|done|].
  intros x. rewrite He, setAt_cases. case_decide; [subst|done]. split; intros [? ?]; congruence.
Qed.

(** A slot pushed at the head. *)
Lemma listed_cons words w head p l s v :
  listed words w head p l -> 0 <= s -> w s <> p -> weavecRtWordValue v = head ->
  listed (setAt words s v) (setAt w s p) (s + 1) p (s :: l).
Proof.
  intros [Hc Hn He] Hs Hp Hv. constructor.
  - cbn. split_and!; [done|done|]. rewrite setAt_eq, Hv. apply (chain_ext words); [|done].
    intros x Hx. apply He in Hx as [_ Hx]. apply setAt_ne. congruence.
  - constructor; [|done]. rewrite He. intros [_ ?]. done.
  - intros x. rewrite elem_of_cons, He, setAt_cases. case_decide; [subst; tauto|tauto].
Qed.

(** The slot at the head taken off. *)
Lemma listed_uncons words w head p l q :
  listed words w head p l -> head <> 0 -> q <> p ->
  exists s l', l = s :: l' /\ head = s + 1 /\ 0 <= s /\ w s = p
    /\ listed words (setAt w s q) (weavecRtWordValue (words s)) p l'.
Proof.
  intros [Hc Hn He] Hh Hq. destruct l as [|s l']; [done|]. cbn in Hc. destruct Hc as (Hhs & Hs & Hc).
  apply list.NoDup_cons in Hn as [Hnot Hn]. exists s, l'. assert (Hws : w s = p) by (apply He; left).
  split_and!; [done|done|done|done|]. constructor; [done|done|]. intros x.
  assert (Hx : x ∈ s :: l' <-> 0 <= x /\ w x = p) by apply He. rewrite elem_of_cons in Hx.
  rewrite setAt_cases. case_decide; [subst x; split; [by intros|intros [_ ?]; congruence]|tauto].
Qed.

Lemma chain_snoc words head l t s v :
  chain words head l -> NoDup l -> list.last l = Some t -> 0 <= s -> s ∉ l -> weavecRtWordValue v = s + 1 ->
  weavecRtWordValue (words s) = 0 -> chain (setAt words t v) head (l ++ [s]).
Proof.
  revert head. induction l as [|x l IH]; intros head Hc Hn Hl Hs Hnot Hv Hw; [done|].
  cbn in Hc. destruct Hc as (-> & Hx & Hc). apply list.NoDup_cons in Hn as [Hxl Hn].
  cbn [app chain]. split_and!; [done|done|]. destruct l as [|y l].
  - cbn in Hl. injection Hl as ->. rewrite setAt_eq, Hv. cbn. split_and!; [done|done|].
    rewrite setAt_ne; [done|]. intros ->. apply Hnot. left.
  - rewrite setAt_ne.
    + apply IH; [done|done|done|done| |done|done]. intros Hin. apply Hnot. by right.
    + intros ->. apply Hxl. rewrite list.last_cons in Hl. apply list.last_Some_elem_of. 
      destruct (list.last (y :: l)) eqn:E; [by injection Hl as ->|]. by apply list.last_None in E.
Qed.

Lemma tailOf_snoc l s : tailOf (l ++ [s]) = s + 1.
Proof. unfold tailOf. by rewrite last_snoc. Qed.

(** ** Steps of one region *)

(** No list's place. *)
Definition loose (p : place) : bool :=
  match p with Fresh | Free | Queued => false | _ => true end.

Lemma entry_capacity shift e :
  shift = 30 \/ shift = 31 -> entry_ok shift e ->
  0 <= c_capacity e <= 2 ^ 27 /\ 0 < c_size e <= 2 ^ 30
  /\ c_capacity e * c_size e <= 2 ^ shift /\ c_size e mod 16 = 0
  /\ (0 < c_capacity e -> c_size e <= 2 ^ 29).
Proof.
  intros Hs [((m & Hm & Hk & He & _) & Hc & Hcap & Hq)| ->].
  - assert (Hsz : 16 <= c_size e /\ c_size e mod 16 = 0).
    { rewrite He. replace (c_shift e) with (4 + (c_shift e - 4)) by lia. rewrite Z.pow_add_r by lia.
      assert (1 <= 2 ^ (c_shift e - 4)) by (apply (Z.pow_le_mono_r 2 0); lia).
      replace (m * (2 ^ 4 * 2 ^ (c_shift e - 4))) with (m * 2 ^ (c_shift e - 4) * 16) by ring.
      split; [lia|apply Z_mod_mult]. }
    assert (Hp : 2 ^ shift <= 2 ^ 31 /\ 2 ^ (shift - 2) <= 2 ^ 29) by (destruct Hs as [->| ->]; lia).
    split_and!; try lia; nia.
  - cbn [spare c_capacity c_size]. rewrite Z.shiftl_1_l. destruct Hs as [->| ->]; vm_compute; intuition congruence.
Qed.

Section Region.
Context (shift : Z) (Hshift : shift = 30 \/ shift = 31) (e : size_class) (He : entry_ok shift e).

Section Steps.
Context (words : Z -> Z) (rs : RegionState) (w : Z -> place) (H : region_ok shift e words rs w).

Lemma place_bound s : 0 <= s -> w s <> Fresh -> s < bump rs /\ s < 2 ^ 27.
Proof.
  intros Hs Hf. destruct (entry_capacity shift e Hshift He) as (Hc & _).
  pose proof (ro_bump _ _ _ _ _ H) as Hb. pose proof (ro_fresh _ _ _ _ _ H s Hs) as Hi.
  destruct (Z.lt_ge_cases s (bump rs)) as [?|Hge]; [lia|]. exfalso. by apply Hf, Hi.
Qed.

Lemma region_ok_ext words' :
  (forall s, 0 <= s -> words' s = words s) -> region_ok shift e words' rs w.
Proof.
  intros Hx. destruct H as [Hb Hc Hf Hw (lf & Hlf) (ld & Hld & Ht)].
  assert (Hl : forall head p l, listed words w head p l -> listed words' w head p l).
  { intros head p l [H1 H2 H3]. constructor; [|done|done]. apply (chain_ext words); [|done].
    intros s Hs. apply Hx. by apply H3 in Hs as [? _]. }
  constructor; [done|done|done| |eauto|eauto]. intros s Hs. rewrite Hx by done. by apply Hw.
Qed.

Lemma words_set s v q :
  0 <= s -> word_ok (c_size e) v q ->
  forall x, 0 <= x -> word_ok (c_size e) (setAt words s v x) (setAt w s q x).
Proof.
  intros Hs Hv x Hx. rewrite !setAt_cases. case_decide; [done|]. by apply (ro_words _ _ _ _ _ H).
Qed.

Lemma fresh_set s q :
  0 <= s -> q <> Fresh -> w s <> Fresh -> forall x, 0 <= x -> setAt w s q x = Fresh <-> bump rs <= x.
Proof.
  intros Hs Hq Hf x Hx. rewrite setAt_cases. case_decide; [|by apply (ro_fresh _ _ _ _ _ H)]. subst x.
  split; [by intros|]. intros Hb. by apply (ro_fresh _ _ _ _ _ H) in Hb.
Qed.

(** A slot in no list goes to another such place. *)
Lemma region_loose s v q :
  0 <= s -> loose (w s) = true -> loose q = true -> word_ok (c_size e) v q ->
  region_ok shift e (setAt words s v) rs (setAt w s q).
Proof.
  intros Hs Hp Hq Hv. destruct H as [Hb Hc _ Hw (lf & Hlf) (ld & Hld & Ht)].
  constructor; [done|done| | | |].
  - apply fresh_set; [done| |]; intros E; rewrite E in *; done.
  - by apply words_set.
  - exists lf. apply listed_frame; [done|..]; intros E; rewrite E in *; done.
  - exists ld. split; [|done]. apply listed_frame; [done|..]; intros E; rewrite E in *; done.
Qed.

(** The same, its word as it was. *)
Lemma region_move s q :
  0 <= s -> loose (w s) = true -> loose q = true -> word_ok (c_size e) (words s) q ->
  region_ok shift e words rs (setAt w s q).
Proof.
  intros Hs Hp Hq Hv. destruct H as [Hb Hc _ Hw (lf & Hlf) (ld & Hld & Ht)].
  constructor; [done|done| | | |].
  - apply fresh_set; [done| |]; intros E; rewrite E in *; done.
  - intros x Hx. rewrite setAt_cases. case_decide; [by subst|by apply Hw].
  - exists lf. apply listed_frame_place; [done|..]; intros E; rewrite E in *; done.
  - exists ld. split; [|done]. apply listed_frame_place; [done|..]; intros E; rewrite E in *; done.
Qed.

(** The head of the free list is taken. *)
Lemma region_pop :
  freeHead rs <> 0 ->
  let s := freeHead rs - 1 in
  0 <= s /\ w s = Free
  /\ region_ok shift e words (with_freeHead rs (weavecRtWordValue (words s))) (setAt w s (Hand true)).
Proof.
  intros Hh s. destruct H as [Hb Hc Hf Hw (lf & Hlf) (ld & Hld & Ht)].
  destruct (listed_uncons _ _ _ _ _ (Hand true) Hlf Hh) as (x & l & -> & Hx & Hx0 & Hwx & Hl); [done|].
  assert (Hsx : s = x) by lia. clearbody s. subst s. split_and!; [done|done|].
  constructor; cbn [with_freeHead bump committed freeHead deadHead deadTail]; [done|done| | | |].
  - apply fresh_set; [done|done|congruence].
  - intros y Hy. rewrite setAt_cases. case_decide; [|by apply Hw]. subst y.
    specialize (Hw x Hx0). by rewrite Hwx in Hw.
  - eauto.
  - exists ld. split; [|done]. apply listed_frame_place; [done|congruence|done].
Qed.

(** Bytes are made accessible. *)
Lemma region_commit data :
  committed rs <= data <= 2 ^ shift -> data mod 2 ^ 20 = 0 ->
  region_ok shift e words (with_committed rs data) w.
Proof. intros Hd Hm. destruct H as [Hb Hc Hf Hw Hfr Hde]. constructor; try done. cbn. lia. Qed.

Lemma region_meta n : region_ok shift e words (with_metaCommitted rs n) w.
Proof. by destruct H as [Hb Hc Hf Hw Hfr Hde]. Qed.

Lemma region_marks m : region_ok shift e words (with_marks rs m) w.
Proof. by destruct H as [Hb Hc Hf Hw Hfr Hde]. Qed.

(** The next fresh slot is taken. *)
Lemma region_fresh :
  bump rs < c_capacity e -> (bump rs + 1) * c_size e <= committed rs ->
  w (bump rs) = Fresh
  /\ region_ok shift e words (with_bump rs (bump rs + 1)) (setAt w (bump rs) (Hand false)).
Proof.
  intros Hlt Hd. destruct H as [Hb Hc Hf Hw (lf & Hlf) (ld & Hld & Ht)].
  assert (Hwb : w (bump rs) = Fresh) by (apply Hf; lia). split; [done|].
  constructor; cbn [with_bump bump committed freeHead deadHead deadTail].
  - lia.
  - lia.
  - intros x Hx. rewrite setAt_cases. case_decide; [subst; split; [done|lia]|]. rewrite Hf by done. lia.
  - intros x Hx. rewrite setAt_cases. case_decide; [|by apply Hw]. subst x.
    specialize (Hw _ (proj1 Hb)). by rewrite Hwb in Hw.
  - exists lf. apply listed_frame_place; [done|congruence|done].
  - exists ld. split; [|done]. apply listed_frame_place; [done|congruence|done].
Qed.

Lemma head_bound head p l : listed words w head p l -> p <> Fresh -> 0 <= head <= 2 ^ 27.
Proof.
  intros Hl Hp. destruct l as [|s l]; [pose proof (li_chain _ _ _ _ _ Hl) as ->; lia|].
  pose proof (li_chain _ _ _ _ _ Hl) as (-> & Hs & _).
  assert (Hws : w s = p) by (apply (li_elem _ _ _ _ _ Hl); left).
  destruct (place_bound s Hs); [by rewrite Hws|lia].
Qed.

(** The quarantine's tail is a slot of it. *)
Lemma tail_queued : deadTail rs <> 0 -> w (deadTail rs - 1) = Queued.
Proof.
  intros Ht. destruct H as [_ _ _ _ _ (ld & Hld & Htl)]. rewrite Htl in *. unfold tailOf in *.
  destruct (list.last ld) as [t|] eqn:E; [|done]. rewrite Z.add_simpl_r.
  apply (li_elem _ _ _ _ _ Hld). by apply list.last_Some_elem_of.
Qed.

(** A slot joins the free list. *)
Lemma region_give s :
  0 <= s -> loose (w s) = true ->
  region_ok shift e (setAt words s (makeWord (freeHead rs) WeavecRtFree)) (with_freeHead rs (s + 1)) (setAt w s Free).
Proof.
  intros Hs Hp. pose proof H as [Hb Hc _ Hw (lf & Hlf) (ld & Hld & Ht)].
  pose proof (head_bound _ _ _ Hlf ltac:(done)) as Hh.
  constructor; cbn [with_freeHead bump committed freeHead deadHead deadTail]; [done|done| | | |].
  - apply fresh_set; [done|done|]. intros E. by rewrite E in Hp.
  - apply words_set; [done|]. exists (freeHead rs). split; [lia|done].
  - exists (s :: lf). apply (listed_cons _ _ (freeHead rs)); [done|done| |].
    + intros E. by rewrite E in Hp.
    + apply makeWord_value; [lia|vm_compute; intuition congruence].
  - exists ld. split; [|done]. apply listed_frame; [done| |done]. intros E. by rewrite E in Hp.
Qed.
End Steps.

(** A claimed slot joins the quarantine, behind the others. *)
Lemma region_enqueue words rs w s :
  region_ok shift e words rs w -> 0 <= s -> loose (w s) = true ->
  let tail := deadTail rs in
  let words1 := setAt words s WeavecRtDead in
  let words2 := if negb (tail =? 0) then setAt words1 (tail - 1) (makeWord (s + 1) WeavecRtDead) else words1 in
  region_ok shift e words2
    (with_dead rs (if negb (tail =? 0) then deadHead rs else s + 1) (s + 1)) (setAt w s Queued).
Proof.
  intros H Hs Hp tail words1 words2. pose proof H as [Hb Hc _ Hw (lf & Hlf) (ld & Hld & Ht)].
  assert (Hwf : forall p, loose p = false -> w s <> p) by (intros p E Hx; congruence).
  assert (Hsb : s < 2 ^ 27) by (apply (place_bound words rs w H s Hs); by apply Hwf).
  assert (Hd : word_ok (c_size e) WeavecRtDead Queued).
  { exists 0. split; [vm_compute; intuition congruence|reflexivity]. }
  assert (Hsl : s ∉ ld) by (rewrite (li_elem _ _ _ _ _ Hld); intros [_ E]; by apply (Hwf Queued)).
  assert (Htail : (ld = [] /\ tail = 0 /\ deadHead rs = 0)
                  \/ exists t, list.last ld = Some t /\ tail = t + 1 /\ 0 <= t /\ w t = Queued).
  { subst tail. rewrite Ht. unfold tailOf. destruct (list.last ld) as [t|] eqn:E.
    - right. exists t. split_and!; [done|done|..]; eapply (li_elem _ _ _ _ _ Hld);
        by apply list.last_Some_elem_of.
    - left. apply list.last_None in E. subst ld. split_and!; [done|done|]. exact (li_chain _ _ _ _ _ Hld). }
  assert (Hw2 : forall x, 0 <= x -> word_ok (c_size e) (words2 x) (setAt w s Queued x)).
  { intros x Hx. pose proof (words_set _ _ _ H s _ Queued Hs Hd x Hx) as Hw1. fold words1 in Hw1. subst words2.
    destruct Htail as [(_ & -> & _)|(t & _ & -> & Ht0 & Hwt)]; [done|].
    destruct (Z.eqb_spec (t + 1) 0); [lia|]. cbn [negb]. rewrite Z.add_simpl_r.
    rewrite (setAt_cases words1 t). case_decide; [|done]. subst x. rewrite setAt_ne by (intros ->; by apply (Hwf Queued)).
    rewrite Hwt. exists (s + 1). split; [unfold CachedDead; lia|done]. }
  constructor; cbn [with_dead bump committed freeHead deadHead deadTail]; [done|done| |exact Hw2| |].
  - apply (fresh_set words rs w H); [done|done|]. by apply Hwf.
  - exists lf. subst words2 words1. 
    assert (Hl1 : listed (setAt words s WeavecRtDead) (setAt w s Queued) (freeHead rs) Free lf)
      by (apply listed_frame; [done|by apply Hwf|done]).
    destruct Htail as [(_ & -> & _)|(t & _ & -> & Ht0 & Hwt)]; [done|].
    destruct (Z.eqb_spec (t + 1) 0); [lia|]. cbn [negb]. rewrite Z.add_simpl_r.
    destruct Hl1 as [L1 L2 L3]. constructor; [|done|done]. apply (chain_ext (setAt words s WeavecRtDead)); [|done].
    intros x Hx. apply setAt_ne. intros ->. apply (li_elem _ _ _ _ _ Hlf) in Hx as [_ Hx]. congruence.
  - exists (ld ++ [s]). split; [|by rewrite tailOf_snoc]. constructor.
    + subst words2 words1. destruct Htail as [(-> & -> & Hh)|(t & Hl & -> & Ht0 & Hwt)].
      * cbn. split_and!; [done|done|]. by rewrite setAt_eq.
      * destruct (Z.eqb_spec (t + 1) 0); [lia|]. cbn [negb]. rewrite Z.add_simpl_r.
        apply chain_snoc; [|exact (li_nodup _ _ _ _ _ Hld)|done|done|done| |by rewrite setAt_eq].
        -- apply (chain_ext words); [|exact (li_chain _ _ _ _ _ Hld)]. intros x Hx. apply setAt_ne. by intros ->.
        -- apply makeWord_value; [lia|vm_compute; intuition congruence].
    + apply list.NoDup_app. split_and!; [exact (li_nodup _ _ _ _ _ Hld)| |apply NoDup_singleton].
      intros x Hx ->%list_elem_of_singleton. done.
    + intros x. rewrite list.elem_of_app, list_elem_of_singleton, (li_elem _ _ _ _ _ Hld), setAt_cases.
      case_decide; [subst; tauto|]. split; [by intros [?|?]|tauto].
Qed.
End Region.

(** ** The invariant of the heap *)

(** The address of a slot, and the bytes of one. *)
Definition slotStart (h : heap) (r s : Z) : Z := regionStart h r + s * c_size (entryOf h r).

Definition in_slot (h : heap) (r s a : Z) : Prop :=
  slotStart h r s <= a < slotStart h r s + c_size (entryOf h r).

(** Regions, their lists and the table. *)
Record slots_ok (h : heap) (words : Z -> Z -> Z) (region : Z -> RegionState) (next class active : Z -> Z)
    (w : Z -> Z -> place) : Prop := {
  so_heap : heap_ok h;
  so_entry : forall c, 0 <= c < h_classes h -> entryOf h c = classEntry (h_shift h) c;
  so_class : forall r, 0 <= r < h_regions h ->
               0 <= class r < h_classes h /\ entryOf h r = entryOf h (class r);
  so_own : forall c, 0 <= c < h_classes h -> class c = c;
  so_next : forall r, 0 <= r < h_regions h ->
              next r = NoRegion \/ (r < next r < h_regions h /\ class (next r) = class r);
  so_active : forall c, 0 <= c < h_classes h -> 0 <= active c < h_regions h /\ class (active c) = c;
  so_spare : forall r, h_regions h <= r < 160 -> entryOf h r = spare (h_shift h) /\ next r = NoRegion;
  so_region : forall r, 0 <= r < 160 ->
                region_ok (h_shift h) (entryOf h r) (words r) (region r) (w r)
}.

Definition slots (st : alloc) (w : Z -> Z -> place) : Prop :=
  slots_ok (al_heap st) (al_words st) (al_region st) (al_next st) (al_class st) (al_active st) w.

(** The places whose bytes the shadow denies, and those whose bytes were never
    written. *)
Definition denied (p : place) : bool :=
  match p with Queued | Claimed (Some _) => true | _ => false end.
Definition unwritten (p : place) : bool :=
  match p with Hand false | Held _ _ false => true | _ => false end.

Definition up_16 (n : Z) : Z := (n + 15) / 16 * 16.

(** The shadow and the bytes of the slots: a live object's bytes are
    addressable, but for the last granule of its region; the bytes behind it,
    up to the slot's end or [TailLimit] of them, and every byte of a released
    slot are not; and what was never handed out is zero. *)
Record bytes_of_slots (h : heap) (words : Z -> Z -> Z) (region : Z -> RegionState) (sh : shadow) (mem : Z -> Z)
    (w : Z -> Z -> place) : Prop := {
  bs_wf : shadow_wf sh;
  bs_window : h_base h + h_bytes h <= 2 ^ s_bits sh;
  bs_denied : forall r s a, 0 <= r < 160 -> 0 <= s -> denied (w r s) = true -> in_slot h r s a ->
                addressable sh a = false;
  bs_live : forall r s a, 0 <= r < 160 -> 0 <= s -> w r s = Live -> in_slot h r s a ->
                a < slotStart h r s + weavecRtWordValue (words r s) -> a < regionStart h (r + 1) - 16 ->
                addressable sh a = true;
  bs_tail : forall r s a, 0 <= r < 160 -> 0 <= s -> w r s = Live -> in_slot h r s a ->
                slotStart h r s + weavecRtWordValue (words r s) <= a ->
                a < slotStart h r s + up_16 (weavecRtWordValue (words r s)) + TailLimit ->
                addressable sh a = false;
  bs_beyond : forall r a, 0 <= r < 160 ->
                regionStart h r + bump (region r) * c_size (entryOf h r) <= a < regionStart h (r + 1) -> mem a = 0;
  bs_unwritten : forall r s a, 0 <= r < 160 -> 0 <= s -> unwritten (w r s) = true -> in_slot h r s a -> mem a = 0
}.

Definition heap_inv (st : alloc) (w : Z -> Z -> place) : Prop :=
  slots st w
  /\ bytes_of_slots (al_heap st) (al_words st) (al_region st) (al_shadow st) (al_mem st) w.

(** The places after slot [s] of region [r] went to [p]. *)
Definition set_place (w : Z -> Z -> place) (r s : Z) (p : place) : Z -> Z -> place :=
  setAt w r (setAt (w r) s p).

Lemma set_place_cases w r s p r' s' :
  set_place w r s p r' s' = if decide (r' = r /\ s' = s) then p else w r' s'.
Proof.
  unfold set_place. rewrite setAt_cases. destruct (decide (r' = r)) as [->|].
  - rewrite setAt_cases. repeat case_decide; intuition congruence.
  - case_decide; [intuition congruence|done].
Qed.

(** *** Addresses *)

Section Addresses.
Context (h : heap) (Hh : heap_ok h).

Lemma regionStart_eq r : regionStart h r = h_base h + r * 2 ^ h_shift h.
Proof. unfold regionStart. destruct (ho_shift h Hh) as [-> | ->]; rewrite Z.shiftl_mul_pow2 by lia; done. Qed.

Lemma arena_bounds r :
  0 <= r < 160 ->
  0 < h_base h <= regionStart h r /\ regionStart h r + 2 ^ h_shift h = regionStart h (r + 1)
  /\ regionStart h (r + 1) <= h_base h + h_bytes h < 2 ^ 63
  /\ regionStart h r mod 16 = 0 /\ 2 ^ 30 <= 2 ^ h_shift h <= 2 ^ 31 /\ 2 ^ h_shift h mod 16 = 0.
Proof.
  intros Hr. rewrite !regionStart_eq. pose proof (ho_base h Hh) as [Hb Hm].
  pose proof (ho_bytes h Hh) as Hby. pose proof (ho_room h Hh) as Hro.
  destruct (ho_shift h Hh) as [Hs|Hs]; rewrite Hs in *;
    split_and!; try lia; try (vm_compute; congruence); euclid.
Qed.

Lemma capacity_of r :
  0 <= r < 160 ->
  0 <= c_capacity (entryOf h r) <= 2 ^ 27 /\ 0 < c_size (entryOf h r) <= 2 ^ 30
  /\ c_capacity (entryOf h r) * c_size (entryOf h r) <= 2 ^ h_shift h /\ c_size (entryOf h r) mod 16 = 0
  /\ (0 < c_capacity (entryOf h r) -> c_size (entryOf h r) <= 2 ^ 29).
Proof. intros Hr. apply entry_capacity; [apply (ho_shift h Hh)|by apply entryOf_ok]. Qed.

(** An address is in one region. *)
Lemma region_unique r r' a :
  regionStart h r <= a < regionStart h (r + 1) -> regionStart h r' <= a < regionStart h (r' + 1) -> r = r'.
Proof.
  rewrite !regionStart_eq. assert (0 < 2 ^ h_shift h) by (destruct (ho_shift h Hh) as [-> | ->]; lia). nia.
Qed.

(** An address just before a region is in the one before it. *)
Lemma region_above r r' a :
  regionStart h r - 16 <= a < regionStart h r -> regionStart h r' <= a < regionStart h (r' + 1) -> r = r' + 1.
Proof.
  rewrite !regionStart_eq. intros H1 H2.
  assert (2 ^ 30 <= 2 ^ h_shift h) by (destruct (ho_shift h Hh) as [-> | ->]; lia). nia.
Qed.

(** A slot lies in its region, its address a multiple of 16. *)
Lemma slot_bounds r s :
  0 <= r < 160 -> 0 <= s < c_capacity (entryOf h r) ->
  regionStart h r <= slotStart h r s /\ slotStart h r s mod 16 = 0
  /\ slotStart h r s + c_size (entryOf h r) <= regionStart h (r + 1).
Proof.
  intros Hr Hs. destruct (capacity_of r Hr) as (Hc & Hz & Hp & Hm & _).
  destruct (arena_bounds r Hr) as (Hb & He & _ & Hmod & _). unfold slotStart.
  rewrite <- He. split_and!; [nia| |nia].
  rewrite <- Z.add_mod_idemp_l, Hmod by lia. rewrite Z.add_0_l.
  rewrite <- Z.mul_mod_idemp_r, Hm by lia. by rewrite Z.mul_0_r.
Qed.

Lemma in_slot_look r s a :
  0 <= r < 160 -> 0 <= s < c_capacity (entryOf h r) -> in_slot h r s a ->
  inArena h a = true /\ slotOf h a = mkSlot r s (slotStart h r s).
Proof.
  intros Hr Hs [Ha1 Ha2]. 
  destruct (slotOf_look h Hh r s (a - slotStart h r s) Hr Hs) as [H1 H2]; [lia|].
  fold (slotStart h r s) in H1, H2. replace (slotStart h r s + (a - slotStart h r s)) with a in H1, H2 by lia.
  done.
Qed.

(** An address is in one slot. *)
Lemma in_slot_unique r s r' s' a :
  0 <= r < 160 -> 0 <= s < c_capacity (entryOf h r) -> in_slot h r s a ->
  0 <= r' < 160 -> 0 <= s' < c_capacity (entryOf h r') -> in_slot h r' s' a -> r = r' /\ s = s'.
Proof.
  intros Hr Hs Ha Hr' Hs' Ha'. destruct (in_slot_look r s a Hr Hs Ha) as [_ H1].
  destruct (in_slot_look r' s' a Hr' Hs' Ha') as [_ H2]. rewrite H1 in H2. by injection H2.
Qed.

(** The granule of a slot's byte is the slot's. *)
Lemma in_slot_granule r s a b :
  0 <= r < 160 -> 0 <= s < c_capacity (entryOf h r) -> in_slot h r s a -> a / 16 = b / 16 -> in_slot h r s b.
Proof.
  intros Hr Hs Ha Hb. destruct (slot_bounds r s Hr Hs) as (_ & Hm & _).
  destruct (capacity_of r Hr) as (_ & _ & _ & Hz & _). unfold in_slot in *. euclid.
Qed.
End Addresses.

(** *** Writing the shadow of a slot *)

(** [s'] is [s] but for the bytes [p] holds of. *)
Definition changes_only (s s' : shadow) (p : Z -> Prop) : Prop :=
  shadow_wf s' /\ s_bits s' = s_bits s
  /\ forall a, 0 <= a < 2 ^ s_bits s -> ~ p a -> addressable s' a = addressable s a.

Lemma changes_only_trans s s' s'' p :
  changes_only s s' p -> changes_only s' s'' p -> changes_only s s'' p.
Proof.
  intros (W1 & B1 & F1) (W2 & B2 & F2). split_and!; [done|congruence|].
  intros a Ha Hp. rewrite F2 by (rewrite ?B1; done). by apply F1.
Qed.

Lemma changes_only_weaken s s' (p q : Z -> Prop) :
  (forall a, p a -> q a) -> changes_only s s' p -> changes_only s s' q.
Proof. intros Hpq (W & B & F). split_and!; [done|done|]. intros a Ha Hq. apply F; [done|]. auto. Qed.

Lemma shadowSet_poison s base size v :
  shadow_wf s -> 0 <= base -> base mod 16 = 0 -> 0 < size -> base + size <= 2 ^ s_bits s -> 0xF0 <= v < 256 ->
  let s' := weavecRtShadowSet s base size v in
  changes_only s s' (fun a => base <= a < base + up_16 size)
  /\ forall a, base <= a < base + up_16 size -> a < 2 ^ s_bits s -> addressable s' a = false.
Proof.
  intros Hwf Hb Hm Hs He Hv s'. pose proof (window_room s Hwf). pose proof (window_split s Hwf).
  assert (Hwf' : shadow_wf s') by (apply shadowSet_wf; [done|lia]).
  assert (Hbits : s_bits s' = s_bits s) by (subst s'; unfold weavecRtShadowSet; by case_match).
  assert (Hg : forall g, gval s' g = if decide (base / 16 <= g < base / 16 + (size + 15) / 16) then v else gval s g)
    by (intros g; apply shadowSet_gval; (done || lia)).
  unfold up_16. split; [split_and!; [done|done|]|].
  - intros a Ha Hn. rewrite !addressable_gval by (rewrite ?Hbits; done). rewrite Hg.
    case_decide; [|done]. exfalso. apply Hn. euclid.
  - intros a Ha Hlt. rewrite addressable_gval by (rewrite ?Hbits; done || lia). rewrite Hg.
    case_decide; [|exfalso; euclid]. apply poison_not_ok. unfold weavecRtShadowPoison, WeavecRtShadowPoisonFrom.
    apply Z.leb_le. lia.
Qed.

Lemma heap_color_ok h a : color_ok (weavecRtColorOfHeap h a).
Proof.
  unfold weavecRtColorOfHeap. case_match; [split; [lia|done]|]. by apply weavecRtColor_spec.
Qed.

Lemma up_16_mod n : n mod 16 = 0 -> up_16 n = n.
Proof. unfold up_16. intros. euclid. Qed.

Lemma land_lnot_15 x : 0 <= x < 2 ^ 63 -> Z.land (add64 x 15) (Z.lnot 15) = up_16 x.
Proof.
  intros Hx. unfold add64, up_16. rewrite wrap64_small by lia. change 15 with (2 ^ 4 - 1) at 2.
  rewrite land_lnot_ones by lia. done.
Qed.

Section Writers.
Context `{P : Pages} (HP : pages_wf).

Lemma shadowDead_spec s base size :
  shadow_wf s -> 0 <= base -> base mod 16 = 0 -> size mod 16 = 0 -> 0 < size -> base + size <= 2 ^ s_bits s ->
  changes_only s (shadowDead s base size) (fun a => base <= a < base + size)
  /\ forall a, base <= a < base + size -> addressable (shadowDead s base size) a = false.
Proof.
  intros Hwf Hb Hm Hs H0 He.
  destruct (shadowSet_poison s base size WeavecRtShadowHeapFreed Hwf Hb Hm H0 He) as [H1 H2];
    [vm_compute; intuition congruence|].
  rewrite (up_16_mod size Hs) in H1, H2. split; [exact H1|]. intros a Ha. apply H2; [done|lia].
Qed.

(** What [shadowLive] makes of a slot of [slot] bytes. *)
Lemma shadowLive_spec h s base size slot :
  shadow_wf s -> 0 < base -> base mod 16 = 0 -> slot mod 16 = 0 -> 0 <= size <= slot -> 0 < slot ->
  base + slot <= 2 ^ s_bits s ->
  let s' := shadowLive h s base size slot in
  changes_only s s' (fun a => base <= a < base + slot)
  /\ (forall a, base <= a < base + size -> addressable s' a = true)
  /\ (forall a, base + size <= a < base + slot -> a < base + up_16 size + TailLimit -> addressable s' a = false).
Proof.
  intros Hwf Hb Hm Hsl Hsz Hsl0 He. pose proof (window_room s Hwf). pose proof (window_split s Hwf).
  cbv zeta. unfold shadowLive. rewrite land_lnot_15 by lia.
  set (s1 := weavecRtShadowObject s base size WeavecRtShadowHeapTail (weavecRtColorOfHeap h base)).
  pose proof (heap_color_ok h base) as Hc.
  assert (Hwf1 : shadow_wf s1) by (apply shadowObject_wf; [done|destruct Hc; lia]).
  assert (Hb1 : s_bits s1 = s_bits s) by apply shadowObject_bits.
  assert (Hu : size <= up_16 size <= slot /\ up_16 size mod 16 = 0 /\ up_16 size < size + 16)
    by (unfold up_16; euclid).
  assert (Hs16 : 16 <= slot) by euclid.
  assert (Hg : forall g, gval s1 g = object_value s base size WeavecRtShadowHeapTail (weavecRtColorOfHeap h base) g)
    by (intros g; apply shadowObject_gval; try (done || lia); vm_compute; intuition congruence).
  assert (Hf1 : forall a, 0 <= a < 2 ^ s_bits s -> ~ (base <= a < base + slot) -> addressable s1 a = addressable s a).
  { intros a Ha Hn. rewrite !addressable_gval by (rewrite ?Hb1; done). rewrite Hg. unfold object_value.
    repeat case_decide; (done || (exfalso; euclid)). }
  assert (Hlow : forall a, base <= a < base + Z.max 16 (up_16 size) -> addressable s1 a = (a <? base + size)).
  { intros a Ha. rewrite addressable_gval by (rewrite ?Hb1; done || lia). rewrite Hg. unfold object_value.
    pose proof (object_color_ok (size / 16) _ Hc) as Hoc. unfold up_16 in *.
    case_decide; [|case_decide; [case_decide; [|case_decide]|]].
    - rewrite full_byte_ok; [symmetry; apply Z.ltb_lt; euclid|]. apply Z.ltb_lt. destruct Hoc. lia.
    - rewrite partialOf_byte_ok by (done || euclid). bool_cases; (done || euclid).
    - rewrite poison_not_ok by done. symmetry. apply Z.ltb_ge. euclid.
    - exfalso. euclid.
    - exfalso. euclid. }
  destruct (Z.ltb_spec (up_16 size) slot) as [Hlt|Hge].
  - set (len := if slot - up_16 size <? TailLimit then slot - up_16 size else TailLimit).
    assert (Hlen : 0 < len <= slot - up_16 size /\ (len = slot - up_16 size \/ len = TailLimit) /\ len mod 16 = 0).
    { subst len. change TailLimit with 65536. destruct (Z.ltb_spec (slot - up_16 size) 65536); split_and!;
        try lia; try (by left); try (by right); euclid. }
    destruct (shadowSet_poison s1 (base + up_16 size) len WeavecRtShadowHeapTail Hwf1) as [(W2 & B2 & F2) P2];
      [lia|euclid|lia|rewrite Hb1; lia|vm_compute; intuition congruence|].
    rewrite (up_16_mod len) in F2, P2 by tauto. rewrite Hb1 in B2, F2, P2.
    split_and!.
    + split_and!; [done|congruence|]. intros a Ha Hn. rewrite F2 by lia. apply Hf1; [done|lia].
    + intros a Ha. rewrite F2 by lia. rewrite Hlow by lia. apply Z.ltb_lt. lia.
    + intros a Ha Ht. destruct (Z.lt_ge_cases a (base + up_16 size)) as [Hl|Hr].
      * rewrite F2 by lia. rewrite Hlow by lia. apply Z.ltb_ge. lia.
      * apply P2; lia.
  - assert (up_16 size = slot) by lia. split_and!.
    + split_and!; [done|done|]. intros a Ha Hn. by apply Hf1.
    + intros a Ha. rewrite Hlow by lia. apply Z.ltb_lt. lia.
    + intros a Ha Ht. rewrite Hlow by lia. apply Z.ltb_ge. lia.
Qed.

(** [zeroFill] is a [memset]. *)
Lemma zeroFill_spec mem base size a :
  0 <= base -> 0 <= size -> base + size < 2 ^ 63 ->
  zeroFill mem base size a = if decide (base <= a < base + size) then 0 else mem a.
Proof.
  intros Hb Hs He. unfold zeroFill, add64, memset. rewrite wrap64_small by lia.
  destruct (page_up_spec HP base) as [Hf1 Hf2]; [lia|].
  destruct (page_down_spec HP (base + size)) as [Hl1 Hl2].
  set (first := page_up base) in *. set (last := page_down (base + size)) in *.
  assert (Hset : fill_bytes mem base size 0 a = if decide (base <= a < base + size) then 0 else mem a)
    by (rewrite fill_bytes_eq; repeat case_decide; (done || lia)).
  destruct (size <? 16 * pageBytes); [done|]. destruct (Z.leb_spec last first); [done|].
  destruct (remaps first (last - first)); cbn [negb orb]; [|done].
  rewrite !fill_bytes_eq. repeat case_decide; (done || lia).
Qed.
End Writers.

(** *** A step at one slot *)

Section Slot.
Context (h : heap) (words : Z -> Z -> Z) (region : Z -> RegionState) (next class active : Z -> Z)
        (w : Z -> Z -> place) (Hs : slots_ok h words region next class active w).

Lemma slots_bound r s :
  0 <= r < 160 -> 0 <= s -> w r s <> Fresh -> s < bump (region r) <= c_capacity (entryOf h r) /\ s < 2 ^ 27.
Proof.
  intros Hr Hs0 Hf. pose proof (so_region _ _ _ _ _ _ _ Hs r Hr) as Hro.
  pose proof (so_heap _ _ _ _ _ _ _ Hs) as Hh.
  destruct (place_bound _ (ho_shift h Hh) _ (entryOf_ok h Hh r Hr) _ _ _ Hro s Hs0 Hf).
  pose proof (ro_bump _ _ _ _ _ Hro). lia.
Qed.

(** The step's slot is the only one whose word, place or bytes change. *)
Lemma bytes_step sh mem words' region' sh' mem' r s p :
  bytes_of_slots h words region sh mem w -> 0 <= r < 160 -> 0 <= s -> w r s <> Fresh -> p <> Fresh ->
  (forall r', bump (region' r') = bump (region r')) ->
  (forall r' s', ~ (r' = r /\ s' = s) -> words' r' s' = words r' s') ->
  changes_only sh sh' (in_slot h r s) -> (forall a, ~ in_slot h r s a -> mem' a = mem a) ->
  (denied p = true -> forall a, in_slot h r s a -> addressable sh' a = false) ->
  (p = Live -> forall a, in_slot h r s a ->
     (a < slotStart h r s + weavecRtWordValue (words' r s) -> a < regionStart h (r + 1) - 16 ->
        addressable sh' a = true)
     /\ (slotStart h r s + weavecRtWordValue (words' r s) <= a ->
         a < slotStart h r s + up_16 (weavecRtWordValue (words' r s)) + TailLimit -> addressable sh' a = false)) ->
  (unwritten p = true -> forall a, in_slot h r s a -> mem' a = 0) ->
  bytes_of_slots h words' region' sh' mem' (set_place w r s p).
Proof.
  intros [Bwf Bwin Bden Bliv Btai Bbey Bunw] Hr Hs0 Hf Hpf Hbump Hw' (Cwf & Cb & Cf) Hm' Hden Hliv Hunw.
  pose proof (so_heap _ _ _ _ _ _ _ Hs) as Hh.
  destruct (slots_bound r s Hr Hs0 Hf) as [Hb _].
  assert (Hother : forall r' s' a, 0 <= r' < 160 -> 0 <= s' -> w r' s' <> Fresh -> ~ (r' = r /\ s' = s) ->
                     in_slot h r' s' a -> ~ in_slot h r s a /\ 0 <= a < 2 ^ s_bits sh).
  { intros r' s' a Hr' Hs' Hf' Hne Ha. destruct (slots_bound r' s' Hr' Hs' Hf') as [Hb' _].
    split.
    - intros Hin. apply Hne. apply (in_slot_unique h Hh r' s' r s a); (done || lia).
    - destruct (slot_bounds h Hh r' s' Hr' ltac:(lia)) as (H1 & _ & H2).
      destruct (arena_bounds h Hh r' Hr') as (H3 & _ & H4 & _). unfold in_slot in Ha. lia. }
  assert (Hnf : forall q, denied q = true \/ q = Live \/ unwritten q = true -> q <> Fresh)
    by (intros q [E|[E|E]] ->; done).
  constructor; [done|by rewrite Cb|..].
  - intros r' s' a Hr' Hs' Hd Ha. rewrite set_place_cases in Hd. case_decide as E; [destruct E; subst; auto|].
    destruct (Hother r' s' a) as [H1 H2]; [done|done|by apply Hnf; left|done|done|]. rewrite Cf by done. eauto.
  - intros r' s' a Hr' Hs' Hd Ha Hv He. rewrite set_place_cases in Hd. case_decide as E.
    { destruct E; subst r' s'. by apply (Hliv Hd a Ha). }
    destruct (Hother r' s' a) as [H1 H2]; [done|done|by rewrite Hd|done|done|].
    rewrite Cf by done. rewrite Hw' in Hv by done. eauto.
  - intros r' s' a Hr' Hs' Hd Ha Hv He. rewrite set_place_cases in Hd. case_decide as E.
    { destruct E; subst r' s'. by apply (Hliv Hd a Ha). }
    destruct (Hother r' s' a) as [H1 H2]; [done|done|by rewrite Hd|done|done|].
    rewrite Cf by done. rewrite Hw' in Hv, He by done. eauto.
  - intros r' a Hr' Ha. rewrite Hbump in Ha. rewrite Hm'; [by apply (Bbey r')|].
    intros Hin. destruct (slot_bounds h Hh r s Hr ltac:(lia)) as (H1 & _ & H2). unfold in_slot in Hin.
    destruct (capacity_of h Hh r' Hr') as (_ & Hz & _). destruct (capacity_of h Hh r Hr) as (_ & Hz2 & _).
    destruct (ro_bump _ _ _ _ _ (so_region _ _ _ _ _ _ _ Hs r' Hr')) as [Hb' _].
    assert (r' = r) as -> by (apply (region_unique h Hh r' r a); nia). unfold slotStart in Hin. nia.
  - intros r' s' a Hr' Hs' Hd Ha. rewrite set_place_cases in Hd. case_decide as E; [destruct E; subst; auto|].
    destruct (Hother r' s' a) as [H1 H2]; [done|done|apply Hnf; tauto|done|done|]. rewrite Hm' by done. eauto.
Qed.

(** The table and the lists of a region step. *)
Lemma slots_step r words' region' w' :
  0 <= r < 160 -> (forall r', r' <> r -> words' r' = words r' /\ region' r' = region r' /\ w' r' = w r') ->
  region_ok (h_shift h) (entryOf h r) (words' r) (region' r) (w' r) ->
  slots_ok h words' region' next class active w'.
Proof.
  intros Hr Ho Hro. destruct Hs as [S1 S2 S3 S4 S5 S6 S7 S8]. constructor; try done.
  intros r' Hr'. destruct (decide (r' = r)) as [->|Hne]; [done|].
  destruct (Ho r' Hne) as (-> & -> & ->). by apply S8.
Qed.
End Slot.

Lemma setAt_other {A} (f : Z -> A) r v r' : r' <> r -> setAt f r v r' = f r'.
Proof. apply setAt_ne. Qed.

Lemma changes_none s p : shadow_wf s -> changes_only s s p.
Proof. by intros. Qed.

(** *** The steps *)

Section Inv.
Context `{P : Pages} (HP : pages_wf) {Sys : System}.

Lemma regions_of st w r : slots st w -> 0 <= r < 160 ->
  (h_shift (al_heap st) = 30 \/ h_shift (al_heap st) = 31) /\ entry_ok (h_shift (al_heap st)) (entryOf (al_heap st) r)
  /\ region_ok (h_shift (al_heap st)) (entryOf (al_heap st) r) (al_words st r) (al_region st r) (w r).
Proof.
  intros Hs Hr. pose proof (so_heap _ _ _ _ _ _ _ Hs) as Hh.
  split_and!; [apply (ho_shift _ Hh)|by apply entryOf_ok|by apply (so_region _ _ _ _ _ _ _ Hs)].
Qed.

(** Only the values of the places matter. *)
Lemma heap_inv_ext st w w' : (forall r s, w' r s = w r s) -> heap_inv st w -> heap_inv st w'.
Proof.
  intros E [[S1 S2 S3 S4 S5 S6 S7 S8] [B1 B2 B3 B4 B5 B6 B7]].
  assert (Hl : forall words r head p l, listed words (w r) head p l -> listed words (w' r) head p l).
  { intros words r head p l [L1 L2 L3]. constructor; [done|done|]. intros x. by rewrite L3, E. }
  split; constructor; try done.
  - intros r Hr. destruct (S8 r Hr) as [R1 R2 R3 R4 (lf & R5) (ld & R6 & R7)].
    constructor; [done|done| | |eauto|eauto]; intros x Hx; rewrite E; auto.
  - intros r s a Hr Hs. rewrite E. by apply B3.
  - intros r s a Hr Hs. rewrite E. by apply B4.
  - intros r s a Hr Hs. rewrite E. by apply B5.
  - intros r s a Hr Hs. rewrite E. by apply B7.
Qed.

Lemma loose_fresh p : loose p = true -> p <> Fresh.
Proof. by intros E ->. Qed.

(** A slot goes from one place in no list to another, its word and bytes as
    they were. *)
Lemma inv_move st w r s p :
  heap_inv st w -> 0 <= r < 160 -> 0 <= s -> loose (w r s) = true -> loose p = true ->
  word_ok (c_size (entryOf (al_heap st) r)) (al_words st r s) p ->
  (denied p = true -> denied (w r s) = true) -> (p = Live -> w r s = Live) ->
  (unwritten p = true -> unwritten (w r s) = true) ->
  heap_inv st (set_place w r s p).
Proof.
  intros [Hs Hb] Hr Hs0 Hl Hp Hw Hd Hli Hu. destruct (regions_of st w r Hs Hr) as (Hsh & He & Hro).
  pose proof Hb as [Bwf Bwin Bden Bliv Btai Bbey Bunw].
  split.
  - apply (slots_step _ _ _ _ _ _ _ Hs r); [done| |].
    + intros r' Hne. unfold set_place. by rewrite setAt_ne.
    + unfold set_place. rewrite setAt_eq. by apply region_move.
  - eapply (bytes_step _ _ _ _ _ _ _ Hs); try done.
    + by apply loose_fresh.
    + by apply loose_fresh.
    + intros Hdp a Ha. apply (Bden r s); auto.
    + intros -> a Ha. specialize (Hli eq_refl). split; intros; [by apply (Bliv r s)|by apply (Btai r s)].
    + intros Hup a Ha. apply (Bunw r s); auto.
Qed.

(** What the lists do not hold. *)
Definition beside (st : alloc) :=
  (al_heap st, al_next st, al_class st, al_active st, al_shadow st, al_mem st).

(** The lists of one region changed, of slot [s]; the bytes as they were. *)
Lemma inv_lists st st' w r s p :
  heap_inv st w -> beside st' = beside st -> 0 <= r < 160 -> 0 <= s -> w r s <> Fresh ->
  p <> Fresh -> p <> Live -> unwritten p = false -> (denied p = true -> denied (w r s) = true) ->
  (forall r', r' <> r -> al_words st' r' = al_words st r' /\ al_region st' r' = al_region st r') ->
  bump (al_region st' r) = bump (al_region st r) ->
  (forall s', w r s' = Live -> al_words st' r s' = al_words st r s') ->
  region_ok (h_shift (al_heap st)) (entryOf (al_heap st) r) (al_words st' r) (al_region st' r) (setAt (w r) s p) ->
  heap_inv st' (set_place w r s p).
Proof.
  intros [Hs Hb] [= E1 E2 E3 E4 E5 E6] Hr Hs0 Hf Hpf Hpl Hpu Hd Ho Hbump Hw Hro.
  assert (Hwords : forall r' s', w r' s' = Live -> al_words st' r' s' = al_words st r' s').
  { intros r' s' Hl. destruct (decide (r' = r)) as [->|Hne]; [by apply Hw|]. by destruct (Ho r' Hne) as [-> _]. }
  split; unfold slots; rewrite ?E1, ?E2, ?E3, ?E4, ?E5, ?E6.
  - apply (slots_step _ _ _ _ _ _ _ Hs r); [done| |].
    + intros r' Hne. destruct (Ho r' Hne) as [-> ->]. unfold set_place. by rewrite setAt_ne.
    + unfold set_place. by rewrite setAt_eq.
  - destruct Hb as [Bwf Bwin Bden Bliv Btai Bbey Bunw]. constructor; [done|done|..].
    + intros r' s' a Hr' Hs' Hdp Ha. rewrite set_place_cases in Hdp.
      case_decide as E; [destruct E; subst; apply (Bden r s); auto|by apply (Bden r' s')].
    + intros r' s' a Hr' Hs' Hlv Ha. rewrite set_place_cases in Hlv. case_decide as E; [done|].
      rewrite Hwords by done. by apply Bliv.
    + intros r' s' a Hr' Hs' Hlv Ha. rewrite set_place_cases in Hlv. case_decide as E; [done|].
      rewrite Hwords by done. by apply Btai.
    + intros r' a Hr'. replace (bump (al_region st' r')) with (bump (al_region st r')); [by apply Bbey|].
      destruct (decide (r' = r)) as [->|Hne]; [done|]. by destruct (Ho r' Hne) as [_ ->].
    + intros r' s' a Hr' Hs' Hdp Ha. rewrite set_place_cases in Hdp.
      case_decide as E; [congruence|by apply (Bunw r' s')].
Qed.

Ltac not_fresh := intros E; rewrite E in *; done.

(** A slot in no list joins the free list. *)
Lemma inv_giveBack st w r s :
  heap_inv st w -> 0 <= r < 160 -> 0 <= s -> loose (w r s) = true -> w r s <> Live ->
  heap_inv (giveBack r s st) (set_place w r s Free).
Proof.
  intros H Hr Hs0 Hl Hnl. destruct (regions_of st w r (proj1 H) Hr) as (Hsh & He & Hro).
  apply (inv_lists st); try done; cbn; rewrite ?setAt_eq; [not_fresh| |done| |].
  - intros r' Hne. by rewrite !setAt_ne.
  - intros s' Hlv. apply setAt_ne. intros ->. done.
  - by apply region_give.
Qed.

(** A claimed slot joins the quarantine. *)
Lemma inv_enqueue st w r s o :
  heap_inv st w -> 0 <= r < 160 -> 0 <= s -> w r s = Claimed (Some o) ->
  heap_inv (enqueue r s st) (set_place w r s Queued).
Proof.
  intros H Hr Hs0 Hw. destruct (regions_of st w r (proj1 H) Hr) as (Hsh & He & Hro).
  pose proof (region_enqueue _ Hsh _ He _ _ _ s Hro Hs0 ltac:(by rewrite Hw)) as Hq. cbv zeta in Hq.
  assert (Hwds : al_words (enqueue r s st) r
                 = if negb (deadTail (al_region st r) =? 0)
                   then setAt (setAt (al_words st r) s WeavecRtDead) (deadTail (al_region st r) - 1)
                          (makeWord (s + 1) WeavecRtDead)
                   else setAt (al_words st r) s WeavecRtDead).
  { unfold enqueue. cbn. destruct (negb _); cbn; by rewrite !setAt_eq. }
  assert (Hreg : al_region (enqueue r s st) r
                 = with_dead (al_region st r)
                     (if negb (deadTail (al_region st r) =? 0) then deadHead (al_region st r) else s + 1) (s + 1)).
  { unfold enqueue. cbn. destruct (negb _); cbn; by rewrite !setAt_eq. }
  apply (inv_lists st); rewrite ?Hwds, ?Hreg, ?Hw; try done.
  - unfold enqueue, beside. cbn. by destruct (negb _).
  - intros r' Hne. unfold enqueue. cbn. by destruct (negb _); cbn; rewrite !setAt_ne by done.
  - intros s' Hlv. assert (s' <> s) by congruence.
    destruct (Z.eqb_spec (deadTail (al_region st r)) 0) as [Ht|Ht]; cbn [negb]; [by rewrite setAt_ne|].
    pose proof (tail_queued _ _ _ _ _ Hro Ht). rewrite !setAt_ne; [done|done|congruence].
Qed.

(** The head of a free list is taken. *)
Lemma inv_popFree st w r :
  heap_inv st w -> 0 <= r < 160 -> freeHead (al_region st r) <> 0 ->
  let s := freeHead (al_region st r) - 1 in
  0 <= s /\ w r s = Free
  /\ heap_inv (set_region st r (with_freeHead (al_region st r) (weavecRtWordValue (al_words st r s))))
       (set_place w r s (Hand true)).
Proof.
  intros H Hr Hh s. destruct (regions_of st w r (proj1 H) Hr) as (Hsh & He & Hro).
  destruct (region_pop _ Hsh _ _ _ _ Hro Hh) as (Hs0 & Hw & Hro'). fold s in Hs0, Hw, Hro'.
  split_and!; [done|done|]. apply (inv_lists st); try done; cbn; rewrite ?setAt_eq; [by rewrite Hw| |done|done].
  intros r' Hne. by rewrite !setAt_ne.
Qed.

(** A slot taken goes live: its word, its bytes and its shadow. *)
Lemma inv_makeLive st w r s u size :
  heap_inv st w -> 0 <= r < 160 -> 0 <= s -> w r s = Hand u ->
  0 <= size < c_size (entryOf (al_heap st) r) ->
  let st' := snd (makeLive (slotEntry r s u) size (c_size (entryOf (al_heap st) r)) st) in
  fst (makeLive (slotEntry r s u) size (c_size (entryOf (al_heap st) r)) st) = slotStart (al_heap st) r s
  /\ heap_inv st' (set_place w r s Live)
  /\ al_words st' r s = makeWord size WeavecRtLive
  /\ (forall a, slotStart (al_heap st) r s <= a < slotStart (al_heap st) r s + size ->
        al_mem st' a = 0 /\ addressable (al_shadow st') a = true).
Proof.
  intros [Hs Hb] Hr Hs0 Hw Hsz. pose proof (so_heap _ _ _ _ _ _ _ Hs) as Hh.
  destruct (regions_of st w r Hs Hr) as (Hsh & He & Hro).
  destruct (slots_bound _ _ _ _ _ _ _ Hs r s Hr Hs0) as [Hcap H27]; [by rewrite Hw|].
  destruct (slot_bounds _ Hh r s Hr ltac:(lia)) as (Hlo & Hmod & Hhi).
  destruct (arena_bounds _ Hh r Hr) as (Hba & Hst & Htop & _).
  destruct (capacity_of _ Hh r Hr) as (_ & Hz & _ & Hzm & Hz29).
  pose proof (bs_window _ _ _ _ _ _ Hb) as Hwin. pose proof (bs_wf _ _ _ _ _ _ Hb) as Hwf.
  set (h := al_heap st) in *. set (sz := c_size (entryOf h r)) in *. set (base := slotStart h r s) in *.
  assert (Hroom : base + sz < 2 ^ 63) by (pose proof (ho_room _ Hh); pose proof (ho_bytes _ Hh); lia).
  destruct (shadowLive_spec HP h (al_shadow st) base size sz) as (Hch & Hon & Hoff); try (done || lia).
  set (sh' := shadowLive h (al_shadow st) base size sz) in *.
  set (mem' := if u && negb (size =? 0) then zeroFill (al_mem st) base size else al_mem st).
  assert (Hmem : forall a, (base <= a < base + size -> mem' a = 0) /\ (~ in_slot h r s a -> mem' a = al_mem st a)).
  { intros a. subst mem'. destruct u; cbn [andb].
    - destruct (Z.eqb_spec size 0) as [->|]; cbn [negb]; [split; [lia|done]|].
      rewrite (zeroFill_spec HP) by lia. unfold in_slot. fold base sz.
      case_decide; (split; intros; try done; try lia).
    - split; [|done]. intros Ha. apply (bs_unwritten _ _ _ _ _ _ Hb r s); [done|done|by rewrite Hw|].
      unfold in_slot. fold h. fold base sz. lia. }
  assert (Hmk : makeLive (slotEntry r s u) size sz st
                = (base, set_shadow (set_mem (storeWord st r s (makeWord size WeavecRtLive)) mem') sh')).
  { unfold makeLive. rewrite entryRegion_slotEntry, entrySlot_slotEntry, entryUsed_slotEntry by lia.
    fold h. fold sz in base. subst mem'. fold base. cbn [storeWord set_words al_heap].
    by destruct (u && negb (size =? 0)). }
  rewrite Hmk. cbn [fst snd]. split; [done|]. assert (Hword : al_words (storeWord st r s (makeWord size WeavecRtLive)) r s = makeWord size WeavecRtLive)
    by (cbn; by rewrite !setAt_eq).
  assert (Hval : weavecRtWordValue (makeWord size WeavecRtLive) = size)
    by (apply makeWord_value; [lia|vm_compute; intuition congruence]).
  split_and!.
  - split.
    + apply (slots_step _ _ _ _ _ _ _ Hs r); [done| |]; cbn; unfold set_place.
      * intros r' Hne. by rewrite !setAt_ne.
      * rewrite !setAt_eq. apply region_loose; try done; [by rewrite Hw|]. by exists size.
    + apply (bytes_step _ _ _ _ _ _ _ Hs (al_shadow st) (al_mem st)); try done; cbn.
      * by rewrite Hw.
      * intros r' s' Hne. rewrite setAt_cases. case_decide; [subst|done]. apply setAt_ne. tauto.
      * intros a. apply Hmem.
      * intros _ a Ha. rewrite !setAt_eq, Hval. unfold in_slot in Ha. fold h base sz in Ha. fold h base.
        split; intros; [apply Hon; lia|apply Hoff; lia].
  - done.
  - intros a Ha. split; [by apply Hmem|by apply Hon].
Qed.
(** A live slot is claimed. *)
Lemma inv_claim st w r s :
  heap_inv st w -> 0 <= r < 160 -> 0 <= s -> w r s = Live ->
  heap_inv (storeWord st r s claimed) (set_place w r s (Claimed None)).
Proof.
  intros [Hs Hb] Hr Hs0 Hw. destruct (regions_of st w r Hs Hr) as (Hsh & He & Hro). split.
  - apply (slots_step _ _ _ _ _ _ _ Hs r); [done| |]; cbn; unfold set_place.
    + intros r' Hne. by rewrite !setAt_ne.
    + rewrite !setAt_eq. apply region_loose; try done. by rewrite Hw.
  - apply (bytes_step _ _ _ _ _ _ _ Hs (al_shadow st) (al_mem st)); try done; cbn.
    + by rewrite Hw.
    + intros r' s' Hne. rewrite setAt_cases. case_decide; [subst|done]. apply setAt_ne. tauto.
    + apply changes_none. by destruct Hb.
Qed.

(** A claimed slot's shadow is poisoned; its bytes may be given back. *)
Lemma inv_dead st w r s o mem :
  heap_inv st w -> 0 <= r < 160 -> 0 <= s -> w r s = Claimed None ->
  (forall a, ~ in_slot (al_heap st) r s a -> mem a = al_mem st a) ->
  heap_inv (set_mem (set_shadow st (shadowDead (al_shadow st) (slotStart (al_heap st) r s)
                                      (c_size (entryOf (al_heap st) r)))) mem)
           (set_place w r s (Claimed (Some o))).
Proof.
  intros [Hs Hb] Hr Hs0 Hw Hm. destruct (regions_of st w r Hs Hr) as (Hsh & He & Hro).
  pose proof (so_heap _ _ _ _ _ _ _ Hs) as Hh.
  destruct (slots_bound _ _ _ _ _ _ _ Hs r s Hr Hs0) as [Hcap _]; [by rewrite Hw|].
  destruct (slot_bounds _ Hh r s Hr ltac:(lia)) as (Hlo & Hmod & Hhi).
  destruct (arena_bounds _ Hh r Hr) as (Hba & _ & Htop & _).
  destruct (capacity_of _ Hh r Hr) as (_ & Hz & _ & Hzm & _).
  pose proof (bs_window _ _ _ _ _ _ Hb) as Hwin.
  destruct (shadowDead_spec (al_shadow st) (slotStart (al_heap st) r s) (c_size (entryOf (al_heap st) r)))
    as [Hch Hoff]; try (done || lia); [by destruct Hb|].
  split.
  - apply (slots_step _ _ _ _ _ _ _ Hs r); [done| |]; cbn; unfold set_place.
    + intros r' Hne. by rewrite !setAt_ne.
    + rewrite !setAt_eq. apply region_move; try done; [by rewrite Hw|].
      pose proof (ro_words _ _ _ _ _ Hro s Hs0) as Hwd. by rewrite Hw in Hwd.
  - apply (bytes_step _ _ _ _ _ _ _ Hs (al_shadow st) (al_mem st)); try done; cbn. by rewrite Hw.
Qed.

(** A live slot's size changes: its word, its shadow and its own bytes. *)
Lemma inv_resize st w r s size mem :
  heap_inv st w -> 0 <= r < 160 -> 0 <= s -> w r s = Live -> 0 <= size < c_size (entryOf (al_heap st) r) ->
  (forall a, ~ in_slot (al_heap st) r s a -> mem a = al_mem st a) ->
  let sh' := shadowLive (al_heap st) (al_shadow st) (slotStart (al_heap st) r s) size (c_size (entryOf (al_heap st) r)) in
  heap_inv (storeWord (set_shadow (set_mem st mem) sh') r s (makeWord size WeavecRtLive)) w
  /\ forall a, slotStart (al_heap st) r s <= a < slotStart (al_heap st) r s + size -> addressable sh' a = true.
Proof.
  intros [Hs Hb] Hr Hs0 Hw Hsz Hm sh'. pose proof (so_heap _ _ _ _ _ _ _ Hs) as Hh.
  destruct (regions_of st w r Hs Hr) as (Hsh & He & Hro).
  destruct (slots_bound _ _ _ _ _ _ _ Hs r s Hr Hs0) as [Hcap H27]; [by rewrite Hw|].
  destruct (slot_bounds _ Hh r s Hr ltac:(lia)) as (Hlo & Hmod & Hhi).
  destruct (arena_bounds _ Hh r Hr) as (Hba & _ & Htop & _).
  destruct (capacity_of _ Hh r Hr) as (_ & Hz & _ & Hzm & Hz29).
  pose proof (bs_window _ _ _ _ _ _ Hb) as Hwin.
  destruct (shadowLive_spec HP (al_heap st) (al_shadow st) (slotStart (al_heap st) r s) size
              (c_size (entryOf (al_heap st) r))) as (Hch & Hon & Hoff); try (done || lia); [by destruct Hb|].
  fold sh' in Hch, Hon, Hoff. split; [|exact Hon].
  assert (Hval : weavecRtWordValue (makeWord size WeavecRtLive) = size)
    by (apply makeWord_value; [lia|vm_compute; intuition congruence]).
  apply (heap_inv_ext _ (set_place w r s Live)).
  { intros r' s'. rewrite set_place_cases. case_decide as E; [destruct E; by subst|done]. }
  split.
  - apply (slots_step _ _ _ _ _ _ _ Hs r); [done| |]; cbn; unfold set_place.
    + intros r' Hne. by rewrite !setAt_ne.
    + rewrite !setAt_eq. apply region_loose; try done; [by rewrite Hw|]. by exists size.
  - apply (bytes_step _ _ _ _ _ _ _ Hs (al_shadow st) (al_mem st)); try done; cbn.
    + by rewrite Hw.
    + intros r' s' Hne. rewrite setAt_cases. case_decide; [subst|done]. apply setAt_ne. tauto.
    + intros _ a Ha. rewrite !setAt_eq, Hval. unfold in_slot in Ha.
      split; intros; [apply Hon; lia|apply Hoff; lia].
Qed.

(** Poison where no live object's byte lies, but at a region's edge. *)
Lemma bytes_poison h words region next class active w sh sh' mem (q : Z -> Prop) :
  slots_ok h words region next class active w -> bytes_of_slots h words region sh mem w ->
  (forall a, {q a} + {~ q a}) -> changes_only sh sh' q ->
  (forall a, q a -> 0 <= a < 2 ^ s_bits sh -> addressable sh' a = false) ->
  (forall r s a, 0 <= r < 160 -> 0 <= s -> w r s = Live -> in_slot h r s a -> q a -> regionStart h (r + 1) - 16 <= a) ->
  bytes_of_slots h words region sh' mem w.
Proof.
  intros Hs [Bwf Bwin Bden Bliv Btai Bbey Bunw] Hdec (Cw & Cb & Cf) Hoff Hq.
  pose proof (so_heap _ _ _ _ _ _ _ Hs) as Hh.
  assert (Hin : forall r s a, 0 <= r < 160 -> 0 <= s -> w r s <> Fresh -> in_slot h r s a -> 0 <= a < 2 ^ s_bits sh).
  { intros r s a Hr Hs0 Hf Ha. destruct (slots_bound _ _ _ _ _ _ _ Hs r s Hr Hs0 Hf) as [Hb _].
    destruct (slot_bounds h Hh r s Hr ltac:(lia)) as (H1 & _ & H2).
    destruct (arena_bounds h Hh r Hr) as (H3 & _ & H4 & _). unfold in_slot in Ha. lia. }
  constructor; [done|by rewrite Cb|..|done|done].
  - intros r s a Hr Hs0 Hd Ha. assert (Hw : 0 <= a < 2 ^ s_bits sh) by (apply (Hin r s); try done; by intros E; rewrite E in Hd).
    destruct (Hdec a); [auto|rewrite Cf by done; eauto].
  - intros r s a Hr Hs0 Hl Ha Hv He. assert (Hw : 0 <= a < 2 ^ s_bits sh) by (apply (Hin r s); try done; by rewrite Hl).
    destruct (Hdec a) as [Hqa|]; [|rewrite Cf by done; eauto]. specialize (Hq r s a Hr Hs0 Hl Ha Hqa). lia.
  - intros r s a Hr Hs0 Hl Ha Hv He. assert (Hw : 0 <= a < 2 ^ s_bits sh) by (apply (Hin r s); try done; by rewrite Hl).
    destruct (Hdec a); [auto|rewrite Cf by done; eauto].
Qed.

(** What [popSlot] leaves as it was. *)
Definition shared (st : alloc) :=
  (al_heap st, al_next st, al_class st, al_active st, al_gained st, al_caches st, al_gone st, al_pace st, al_huge st,
   al_mem st, al_stats st, al_sweeps st, al_words st).

Lemma commit_spec committed end_ chunk limit st r st' shift :
  commit committed end_ chunk limit st = (r, st') ->
  (exists n, st' = set_tick st n)
  /\ (shift = 30 \/ shift = 31 -> limit = 2 ^ shift -> chunk = DataChunk -> 0 <= committed -> 0 <= end_ <= limit ->
      committed <= limit -> committed mod 2 ^ 20 = 0 ->
      forall data, r = Some data ->
        committed <= data <= limit /\ end_ <= data /\ data mod 2 ^ 20 = 0
        /\ (committed < data -> committed + 2 ^ 20 <= data)).
Proof.
  unfold commit. destruct (Z.leb_spec end_ committed) as [Hle|Hgt].
  { intros [= <- <-]. split; [exists (al_tick st); by destruct st|]. intros _ _ _ _ _ Hcl Hm data [= <-]. lia. }
  unfold ask. intros [= <- <-]. split; [by eexists|]. intros Hsh -> -> Hc He Hcl Hm data.
  destruct (sys_ok (al_tick st)); [|done]. intros [= <-].
  destruct HP as (k & Hk & Hp).
  set (ch := if DataChunk <? pageBytes then pageBytes else DataChunk).
  assert (Hch : exists j, 20 <= j <= 30 /\ ch = 2 ^ j).
  { subst ch. unfold DataChunk. destruct (Z.ltb_spec (2 ^ 20) pageBytes) as [Hlt|Hge]; [|exists 20; lia].
    exists k. split; [|done]. rewrite Hp in Hlt. apply Z.pow_lt_mono_r_iff in Hlt; lia. }
  destruct Hch as (j & Hj & ->).
  assert (Hpj : 0 < 2 ^ j) by lia.
  assert (Hdiv : exists q, 2 ^ j = q * 2 ^ 20 /\ 0 < q).
  { exists (2 ^ (j - 20)). split; [rewrite <- Z.pow_add_r by lia; f_equal; lia|lia]. }
  assert (Hlim : exists q, 2 ^ shift = q * 2 ^ 20).
  { exists (2 ^ (shift - 20)). rewrite <- Z.pow_add_r by lia. f_equal. lia. }
  destruct Hdiv as (q & Hq & Hq0). destruct Hlim as (ql & Hql).
  pose proof (Z.div_mod (end_ + 2 ^ j - 1) (2 ^ j) ltac:(lia)) as Hdm.
  pose proof (Z.mod_pos_bound (end_ + 2 ^ j - 1) (2 ^ j) Hpj) as Hmb.
  set (t := (end_ + 2 ^ j - 1) / 2 ^ j) in *.
  assert (Htm : (t * 2 ^ j) mod 2 ^ 20 = 0) by (rewrite Hq, Z.mul_assoc; apply Z_mod_mult).
  assert (Hlm : 2 ^ shift mod 2 ^ 20 = 0) by (rewrite Hql; apply Z_mod_mult).
  destruct (Z.ltb_spec (2 ^ shift) (t * 2 ^ j)); split_and!; try lia; euclid.
Qed.

(** Poison behind every slot handed out of a region, or in the granule before
    it. *)
Lemma inv_poison st w r low len :
  heap_inv st w -> 0 <= r < 160 ->
  let start := regionStart (al_heap st) r in
  (start + bump (al_region st r) * c_size (entryOf (al_heap st) r) <= low
     /\ low + len <= regionStart (al_heap st) (r + 1))
  \/ (low = start - 16 /\ len = 16) ->
  0 < len -> len mod 16 = 0 -> low mod 16 = 0 ->
  heap_inv (set_shadow st (weavecRtShadowSet (al_shadow st) low len WeavecRtShadowHeapTail)) w.
Proof.
  intros [Hs Hb] Hr start Hlow Hlen Hlm Hb16. split; [done|]. cbn. pose proof (so_heap _ _ _ _ _ _ _ Hs) as Hh.
  destruct (regions_of st w r Hs Hr) as (Hsh & He & Hro).
  destruct (arena_bounds _ Hh r Hr) as (Hba & Hst & Htop & Hmod & Hp & _).
  pose proof (ho_base _ Hh) as [_ Hbm].
  pose proof (bs_window _ _ _ _ _ _ Hb) as Hwin. pose proof (ro_bump _ _ _ _ _ Hro) as Hbp.
  destruct (capacity_of _ Hh r Hr) as (_ & Hz & _).
  assert (H30 : 2 ^ 30 <= h_base (al_heap st)).
  { clear - Hba Hbm Hsh. destruct Hsh as [E|E]; rewrite E in Hbm; euclid. }
  assert (Hs30 : 2 ^ 30 <= start) by (unfold start; lia).
  assert (Hlo0 : 0 <= low) by (destruct Hlow as [[? _]|[-> _]]; nia).
  assert (Hhi : low + len <= regionStart (al_heap st) (r + 1))
    by (destruct Hlow as [[_ ?]|[-> ->]]; [done|fold start in Hst; lia]).
  destruct (shadowSet_poison (al_shadow st) low len WeavecRtShadowHeapTail) as [Hch Hoff];
    [by destruct Hb|done|done|done|lia|vm_compute; intuition congruence|].
  rewrite (up_16_mod len Hlm) in Hch, Hoff.
  eapply (bytes_poison _ _ _ _ _ _ _ (al_shadow st)); [exact Hs|exact Hb| |exact Hch| |].
  - intros a. destruct (decide (low <= a < low + len)); [by left|by right].
  - intros a Ha Hw. apply Hoff; [done|lia].
  - cbv beta. intros r' s' a Hr' Hs' Hl Ha Hq.
    destruct (slots_bound _ _ _ _ _ _ _ Hs r' s' Hr' Hs') as [Hb' _]; [by rewrite Hl|].
    destruct (slot_bounds _ Hh r' s' Hr' ltac:(lia)) as (H1 & _ & H2).
    unfold in_slot in Ha. destruct Hlow as [[Hl1 Hl2]|[-> ->]].
    + exfalso.
      assert (0 <= bump (al_region st r) * c_size (entryOf (al_heap st) r)) by (apply Z.mul_nonneg_nonneg; lia).
      assert (r' = r) as -> by (apply (region_unique _ Hh r' r a); [lia|fold start; lia]).
      assert (Hle : (s' + 1) * c_size (entryOf (al_heap st) r) <= bump (al_region st r) * c_size (entryOf (al_heap st) r))
        by (apply Z.mul_le_mono_nonneg_r; lia).
      unfold slotStart in Ha. fold start in Ha. lia.
    + assert (r = r' + 1) as -> by (apply (region_above _ Hh r r' a); fold start; lia). fold start. lia.
Qed.

(** A region's state changed, its slots as they were. *)
Lemma inv_state st w r rs' n :
  heap_inv st w -> 0 <= r < 160 -> bump rs' = bump (al_region st r) ->
  region_ok (h_shift (al_heap st)) (entryOf (al_heap st) r) (al_words st r) rs' (w r) ->
  heap_inv (set_region (set_tick st n) r rs') w.
Proof.
  intros [Hs Hb] Hr Hbump Hro. split.
  - apply (slots_step _ _ _ _ _ _ _ Hs r); [done| |]; cbn; [|by rewrite setAt_eq].
    intros r' Hne. by rewrite setAt_ne.
  - destruct Hb as [B1 B2 B3 B4 B5 B6 B7]. constructor; cbn; try done.
    intros r' a Hr'. rewrite setAt_cases. case_decide; [subst; rewrite Hbump|]; by apply B6.
Qed.

(** The next fresh slot is taken. *)
Lemma inv_bump st w r :
  heap_inv st w -> 0 <= r < 160 ->
  let rs := al_region st r in
  bump rs < c_capacity (entryOf (al_heap st) r) ->
  (bump rs + 1) * c_size (entryOf (al_heap st) r) <= committed rs ->
  0 <= bump rs < 2 ^ 27 /\ w r (bump rs) = Fresh
  /\ heap_inv (set_region st r (with_bump rs (bump rs + 1))) (set_place w r (bump rs) (Hand false)).
Proof.
  intros [Hs Hb] Hr rs Hlt Hc. destruct (regions_of st w r Hs Hr) as (Hsh & He & Hro).
  pose proof (so_heap _ _ _ _ _ _ _ Hs) as Hh. destruct (capacity_of _ Hh r Hr) as (Hcap & Hz & _).
  destruct (arena_bounds _ Hh r Hr) as (_ & Hst & _).
  destruct (region_fresh _ Hsh _ _ _ _ Hro Hlt Hc) as [Hw Hro'].
  pose proof (ro_bump _ _ _ _ _ Hro) as Hbp. pose proof (ro_committed _ _ _ _ _ Hro) as [Hcm _]. fold rs in Hbp, Hcm, Hw, Hro'.
  split_and!; [lia|lia|done|]. split.
  - apply (slots_step _ _ _ _ _ _ _ Hs r); [done| |]; cbn; unfold set_place.
    + intros r' Hne. by rewrite !setAt_ne.
    + by rewrite !setAt_eq.
  - destruct Hb as [B1 B2 B3 B4 B5 B6 B7]. constructor; cbn; try done.
    + intros r' s' a Hr' Hs' Hd. rewrite set_place_cases in Hd. case_decide; [done|]. by apply (B3 r' s').
    + intros r' s' a Hr' Hs' Hd. rewrite set_place_cases in Hd. case_decide; [done|]. by apply (B4 r' s').
    + intros r' s' a Hr' Hs' Hd. rewrite set_place_cases in Hd. case_decide; [done|]. by apply (B5 r' s').
    + intros r' a Hr'. rewrite setAt_cases. case_decide; [subst r'|by apply B6]. cbn [with_bump bump].
      intros Ha. apply (B6 r a Hr'). fold rs. lia.
    + intros r' s' a Hr' Hs' Hd. rewrite set_place_cases in Hd. case_decide as E; [|by apply (B7 r' s')].
      destruct E as [-> ->]. intros Ha. apply (B6 r a Hr'). unfold in_slot, slotStart in Ha. fold rs. lia.
Qed.

(** A fresh slot, when there is one and its bytes can be made accessible. *)
Lemma inv_freshSlot st w r res st' :
  heap_inv st w -> 0 <= r < 160 -> freshSlot r st = (res, st') ->
  shared st' = shared st
  /\ match res with
     | None => heap_inv st' w
     | Some (s, u) => 0 <= s < 2 ^ 27 /\ w r s = (if u then Free else Fresh) /\ heap_inv st' (set_place w r s (Hand u))
     end.
Proof.
  intros H Hr. destruct (regions_of st w r (proj1 H) Hr) as (Hsh & He & Hro).
  destruct (entry_capacity _ _ Hsh He) as (Hcap & Hz & Hcz & Hzm & Hz29).
  pose proof (ro_committed _ _ _ _ _ Hro) as [Hc Hcm]. pose proof (ro_bump _ _ _ _ _ Hro) as Hbp.
  unfold freshSlot. set (e := entryOf (al_heap st) r) in *.
  destruct (Z.leb_spec (c_capacity e) (bump (al_region st r))) as [Hfull|Hroom]; [by intros [= <- <-]|].
  destruct (commit (committed (al_region st r)) _ DataChunk _ st) as [data st1] eqn:E1.
  apply (commit_spec _ _ _ _ _ _ _ (h_shift (al_heap st))) in E1 as [[n1 ->] Hdata].
  destruct data as [data|]; [|by intros [= <- <-]].
  rewrite Z.shiftl_1_l in *.
  destruct (Hdata Hsh eq_refl eq_refl ltac:(nia) ltac:(nia) ltac:(lia) Hcm data eq_refl) as (Hd1 & Hd2 & Hd3 & Hd4).
  cbn [set_tick al_region al_heap]. set (before := committed (al_region st r)) in *.
  set (rs1 := with_committed (al_region st r) data).
  assert (Hro1 : region_ok (h_shift (al_heap st)) e (al_words st r) rs1 (w r)) by (by apply region_commit).
  pose proof (inv_state st w r rs1 n1 H Hr eq_refl Hro1) as Hi1.
  set (st2 := set_region (set_tick st n1) r rs1) in *.
  destruct (commit (metaCommitted (al_region st r)) _ MetaChunk _ st2) as [meta st3] eqn:E2.
  apply (commit_spec _ _ _ _ _ _ _ (h_shift (al_heap st))) in E2 as [[n3 ->] _].
  destruct meta as [meta|]; [|by intros [= <- <-]].
  set (st4 := set_region (set_tick st2 n3) r (with_metaCommitted (al_region (set_tick st2 n3) r) meta)).
  assert (Hr4 : al_region st4 r = with_metaCommitted rs1 meta) by (cbn; by rewrite !setAt_eq).
  assert (Hi4 : heap_inv st4 w).
  { apply inv_state; [done|done|cbn; by rewrite setAt_eq|]. cbn. rewrite setAt_eq. by apply region_meta. }
  set (start := regionStart (al_heap st) r).
  destruct (arena_bounds _ (so_heap _ _ _ _ _ _ _ (proj1 H)) r Hr) as (_ & Hst & _ & Hmod & _). fold start in Hst, Hmod.
  set (len := if c_size e <=? TailLimit then data - before else TailLimit).
  set (st5 := if before <? data then set_shadow st4 (weavecRtShadowSet (al_shadow st4) (start + before) len WeavecRtShadowHeapTail) else st4).
  assert (Hi5 : heap_inv st5 w /\ al_region st5 r = with_metaCommitted rs1 meta /\ shared st5 = shared st).
  { subst st5. destruct (Z.ltb_spec before data) as [Hlt|]; [|by rewrite Hr4].
    split; [|by rewrite <- Hr4]. specialize (Hd4 Hlt).
    assert (Hlen : 0 < len <= data - before /\ len mod 16 = 0)
      by (unfold len, TailLimit; clear - Hlt Hd3 Hcm Hd4; case_match; (split; [lia|euclid])).
    apply (inv_poison st4 w r); [done|done| |lia|apply Hlen|clear - Hmod Hcm; subst before; euclid].
    left. rewrite Hr4. change (start + bump (al_region st r) * c_size e <= start + before
                               /\ start + before + len <= regionStart (al_heap st) (r + 1)). lia. }
  destruct Hi5 as (Hi5 & Hr5 & Hsh5). 
  set (st6 := if before =? 0
              then set_shadow st5 (weavecRtShadowSet (al_shadow st5) (start - WeavecRtShadowGranule)
                                     WeavecRtShadowGranule WeavecRtShadowHeapTail)
              else st5).
  assert (Hi6 : heap_inv st6 w /\ al_region st6 r = with_metaCommitted rs1 meta /\ shared st6 = shared st).
  { subst st6. destruct (before =? 0); [|done]. split; [|done].
    assert (Hh5 : regionStart (al_heap st5) r = start) by (injection Hsh5 as Hh5; by rewrite Hh5).
    apply (inv_poison st5 w r); [done|done|right; by rewrite Hh5|done|done|].
    change WeavecRtShadowGranule with 16. clear - Hmod. euclid. }
  destruct Hi6 as (Hi6 & Hr6 & Hsh6). intros [= <- <-]. split; [done|].
  assert (Hh6 : al_heap st6 = al_heap st) by (injection Hsh6 as Hh6; exact Hh6).
  destruct (inv_bump st6 w r Hi6 Hr) as (Hb1 & Hw & Hi); rewrite ?Hh6, ?Hr6; [done|done|].
  assert (Hb6 : bump (al_region st6 r) = bump (al_region st r)) by (by rewrite Hr6).
  rewrite Hb6 in Hb1, Hw, Hi. exact (conj Hb1 (conj Hw Hi)).
Qed.

Lemma inv_popSlot st w r res st' :
  heap_inv st w -> 0 <= r < 160 -> popSlot r st = (res, st') ->
  shared st' = shared st
  /\ match res with
     | None => heap_inv st' w
     | Some (s, u) => 0 <= s < 2 ^ 27 /\ w r s = (if u then Free else Fresh) /\ heap_inv st' (set_place w r s (Hand u))
     end.
Proof.
  intros H Hr. unfold popSlot. destruct (Z.eqb_spec (freeHead (al_region st r)) 0) as [Hz|Hz]; cbn [negb].
  - by apply inv_freshSlot.
  - destruct (inv_popFree st w r H Hr Hz) as (Hs0 & Hw & Hi). intros [= <- <-]. split; [done|].
    split_and!; [done| |done|done]. destruct H as [Hs _].
    apply (slots_bound _ _ _ _ _ _ _ Hs r _ Hr Hs0). by rewrite Hw.
Qed.
End Inv.
