(* ===== verification/PopFacts.v ===== *)
(** * Taking slots keeps every slot in one place

    [popRegion], [takeSpare] and [popClass] of the file Heap over the invariant
    of the file HeapFacts: the slots they take were free or fresh, are distinct,
    and belong to regions of the class; [popClass] ends. *)

From S2P Require Import Prelude Shadow Classes Heap HugeBlocks HeapFacts.
Local Open Scope Z_scope.

(** The arena as it was, regions given since apart. *)
Record grown (st st' : alloc) : Prop := {
  gr_base : h_base (al_heap st') = h_base (al_heap st);
  gr_bytes : h_bytes (al_heap st') = h_bytes (al_heap st);
  gr_shift : h_shift (al_heap st') = h_shift (al_heap st);
  gr_classes : h_classes (al_heap st') = h_classes (al_heap st);
  gr_regions : h_regions (al_heap st) <= h_regions (al_heap st');
  gr_same : forall r, 0 <= r < h_regions (al_heap st) ->
              entryOf (al_heap st') r = entryOf (al_heap st) r /\ al_class st' r = al_class st r
}.

Lemma grown_refl st : grown st st.
Proof. by constructor. Qed.

Lemma grown_same st st' : al_heap st' = al_heap st -> al_class st' = al_class st -> grown st st'.
Proof. intros E1 E2. constructor; rewrite ?E1, ?E2; done. Qed.

Lemma grown_trans st st' st'' : grown st st' -> grown st' st'' -> grown st st''.
Proof.
  intros [A1 A2 A3 A4 A5 A6] [B1 B2 B3 B4 B5 B6]. constructor; try congruence; [lia|].
  intros r Hr. destruct (A6 r Hr) as [<- <-]. apply B6. lia.
Qed.

Lemma grown_start st st' r s :
  grown st st' -> 0 <= r < h_regions (al_heap st) -> slotStart (al_heap st') r s = slotStart (al_heap st) r s.
Proof.
  intros [A1 A2 A3 A4 A5 A6] Hr. unfold slotStart, regionStart. destruct (A6 r Hr) as [-> _]. by rewrite A1, A3.
Qed.

(** The slot of an entry. *)
Definition slotKey (e : Z) : Z * Z := (entryRegion e, entrySlot e).

Lemma slotKey_entry r s u : 0 <= r < 160 -> 0 <= s < 2 ^ 27 -> slotKey (slotEntry r s u) = (r, s).
Proof. intros. unfold slotKey. by rewrite entryRegion_slotEntry, entrySlot_slotEntry by lia. Qed.

(** Distinct slots of a class, each in its place [f used]. *)
Record own (st : alloc) (w : Z -> Z -> place) (f : bool -> place) (c : Z) (l : list Z) : Prop := {
  own_nodup : NoDup (slotKey <$> l);
  own_slots : forall e, e ∈ l ->
    exists r s u, e = slotEntry r s u /\ (0 <= r < h_regions (al_heap st) /\ h_regions (al_heap st) <= 160) /\ 0 <= s < 2 ^ 27
      /\ al_class st r = c /\ w r s = f u
}.

Lemma own_nil st w f c : own st w f c [].
Proof. constructor; [constructor|]. by intros e ?%elem_of_nil. Qed.

Lemma own_grown st st' w f c l :
  grown st st' -> h_regions (al_heap st') <= 160 -> own st w f c l -> own st' w f c l.
Proof.
  intros G H160 [N S]. constructor; [done|]. intros e (r & s & u & -> & Hr & Hs & Hc & Hw)%S.
  destruct (gr_same _ _ G r ltac:(lia)) as [_ E]. pose proof (gr_regions _ _ G).
  exists r, s, u. split_and!; (done || lia || congruence).
Qed.

Lemma own_ext st w w' f c l :
  (forall r s u, w r s = f u -> w' r s = f u) -> own st w f c l -> own st w' f c l.
Proof.
  intros E [N S]. constructor; [done|]. intros e (r & s & u & -> & Hr & Hs & Hc & Hw)%S.
  exists r, s, u. split_and!; auto; lia.
Qed.

Lemma own_perm st w f c l l' : l ≡ₚ l' -> own st w f c l -> own st w f c l'.
Proof. intros E [N S]. constructor; [by rewrite <- E|]. intros e He. apply S. by rewrite E. Qed.

Lemma own_key st w f c l r s : own st w f c l -> (r, s) ∈ slotKey <$> l -> exists u, w r s = f u.
Proof.
  intros [N S] (e & E & He)%list_elem_of_fmap. destruct (S e He) as (r' & s' & u & -> & Hr & Hs & _ & Hw).
  rewrite slotKey_entry in E by lia. injection E as -> ->. eauto.
Qed.

Lemma regions_range st w : slots st w -> 0 < h_classes (al_heap st) <= h_regions (al_heap st)
  /\ h_regions (al_heap st) <= 160.
Proof. intros Hs. apply (ho_counts _ (so_heap _ _ _ _ _ _ _ Hs)). Qed.

(** A slot newly in its place joins the list. *)
Lemma own_snoc st w f c l r s u :
  own st w f c l -> (0 <= r < h_regions (al_heap st) /\ h_regions (al_heap st) <= 160) -> 0 <= s < 2 ^ 27 -> al_class st r = c ->
  (forall v, w r s <> f v) -> own st (set_place w r s (f u)) f c (l ++ [slotEntry r s u]).
Proof.
  intros Ho Hr Hs Hc Hw. pose proof Ho as [N S]. constructor.
  - rewrite fmap_app. cbn. rewrite slotKey_entry by lia.
    apply list.NoDup_app. split_and!; [done| |apply NoDup_singleton]. intros k Hk ->%list_elem_of_singleton.
    apply (own_key _ _ _ _ _ _ _ Ho) in Hk as [v Hv]. by apply (Hw v).
  - intros e [He| ->%list_elem_of_singleton]%list.elem_of_app.
    + destruct (S _ He) as (r' & s' & u' & -> & Hr' & Hs' & Hc' & Hw'). exists r', s', u'.
      split_and!; try (done || lia). rewrite set_place_cases. case_decide as E; [|done].
      destruct E; subst. by destruct (Hw u').
    + exists r, s, u. split_and!; try (done || lia). rewrite set_place_cases. by case_decide; [|tauto].
Qed.

(** The first slot of a list goes elsewhere. *)
Lemma own_uncons st w f c e l :
  own st w f c (e :: l) ->
  exists r s u, e = slotEntry r s u /\ (0 <= r < h_regions (al_heap st) /\ h_regions (al_heap st) <= 160) /\ 0 <= s < 2 ^ 27
    /\ al_class st r = c /\ w r s = f u /\ forall p, own st (set_place w r s p) f c l.
Proof.
  intros [N S]. destruct (S e ltac:(left)) as (r & s & u & -> & Hr & Hs & Hc & Hw).
  exists r, s, u. split_and!; try (done || lia). intros p. cbn in N. rewrite slotKey_entry in N by lia.
  apply list.NoDup_cons in N as [Hn N]. constructor; [done|]. intros e He.
  destruct (S e ltac:(by right)) as (r' & s' & u' & -> & Hr' & Hs' & Hc' & Hw').
  exists r', s', u'. split_and!; try (done || lia). rewrite set_place_cases. case_decide as E; [|done].
  destruct E as [-> ->]. exfalso. apply Hn. rewrite <- (slotKey_entry r s u') by lia. by apply list_elem_of_fmap_2.
Qed.

(** What taking slots does to the places. *)
Definition takes (w w' : Z -> Z -> place) : Prop :=
  forall r s, w' r s = w r s \/ ((w r s = Free \/ w r s = Fresh) /\ exists u, w' r s = Hand u).

Lemma takes_refl w : takes w w.
Proof. by left. Qed.

Lemma takes_trans w w' w'' : takes w w' -> takes w' w'' -> takes w w''.
Proof.
  intros H1 H2 r s. destruct (H2 r s) as [E2|[E2 [u E3]]].
  - rewrite E2. apply H1.
  - destruct (H1 r s) as [E1|[E1 [v E4]]].
    + right. rewrite <- E1. eauto.
    + exfalso. destruct E2; congruence.
Qed.

Section Pop.
Context `{P : Pages} (HP : pages_wf) {Sys : System}.

Lemma inv_popRegion want : forall st w r c acc l st',
  heap_inv st w -> 0 <= r < h_regions (al_heap st) -> al_class st r = c -> own st w Hand c acc ->
  popRegion want r acc st = (l, st') ->
  shared st' = shared st
  /\ exists w', heap_inv st' w' /\ own st' w' Hand c l /\ takes w w'
       /\ exists got, l = acc ++ got /\ (length got <= want)%nat.
Proof.
  induction want as [|want IH]; intros st w r c acc l st' Hi Hr Hc Ho.
  { intros [= <- <-]. split; [done|]. exists w. split_and!; [done|done|apply takes_refl|].
    exists []. by rewrite app_nil_r. }
  cbn [popRegion]. destruct (popSlot r st) as [res st1] eqn:E.
  pose proof (regions_range _ _ (proj1 Hi)) as [_ H160].
  apply (inv_popSlot HP st w) in E as [Hsh1 H1]; [|done|lia].
  assert (Hg : al_heap st1 = al_heap st /\ al_class st1 = al_class st) by (injection Hsh1; done).
  destruct Hg as [Hh1 Hc1].
  destruct res as [[s u]|].
  - destruct H1 as (Hs & Hw & Hi1). intros Hp.
    assert (Ho1 : own st1 (set_place w r s (Hand u)) Hand c (acc ++ [slotEntry r s u])).
    { apply own_snoc; rewrite ?Hh1, ?Hc1; try done; [|intros v; by destruct u; rewrite Hw].
      apply (own_grown st); [by apply grown_same|by rewrite Hh1|done]. }
    apply (IH _ (set_place w r s (Hand u)) r c) in Hp as [Hsh2 (w' & Hi' & Ho' & Ht & got & -> & Hlen)];
      rewrite ?Hh1, ?Hc1; try done.
    split; [congruence|]. exists w'. split_and!; [done|done| |].
    + eapply takes_trans; [|exact Ht]. intros r' s'. rewrite set_place_cases. case_decide as Ed; [|by left].
      destruct Ed as [-> ->]. right. split; [|eauto]. rewrite Hw. destruct u; tauto.
    + exists (slotEntry r s u :: got). rewrite <- app_assoc. split; [done|cbn; lia].
  - intros [= <- <-]. split; [done|]. exists w. split_and!; [done| |apply takes_refl|].
    + apply (own_grown st); [by apply grown_same|by rewrite Hh1|done].
    + exists []. rewrite app_nil_r. split; [done|cbn; lia].
Qed.
(** ** A class's regions *)

(** The list of a class's regions ends at its last. *)
Lemma lastRegion_spec st w fuel : forall r,
  slots st w -> 0 <= r < h_regions (al_heap st) -> (Z.to_nat (h_regions (al_heap st) - r) <= fuel)%nat ->
  let last := lastRegion fuel (al_next st) r in
  0 <= last < h_regions (al_heap st) /\ al_class st last = al_class st r /\ al_next st last = NoRegion.
Proof.
  induction fuel as [|fuel IH]; intros r Hs Hr Hf; [lia|]. cbn [lastRegion]. cbv zeta.
  destruct (Z.eqb_spec (al_next st r) NoRegion) as [|Hn]; [done|].
  destruct (so_next _ _ _ _ _ _ _ Hs r Hr) as [?|[Hlt Hc]]; [done|].
  destruct (IH (al_next st r) Hs ltac:(lia) ltac:(lia)) as (H1 & H2 & H3). split_and!; [lia|lia|congruence|done].
Qed.

Lemma NoRegion_eq : NoRegion = 255.
Proof. done. Qed.

(** A region no class has: its slots are all fresh, and it has none. *)
Lemma spare_region st w r :
  slots st w -> h_regions (al_heap st) <= r < 160 -> bump (al_region st r) = 0.
Proof.
  intros Hs Hr. pose proof (regions_range _ _ Hs). destruct (so_spare _ _ _ _ _ _ _ Hs r Hr) as [He _].
  pose proof (so_region _ _ _ _ _ _ _ Hs r ltac:(lia)) as Hro. pose proof (ro_bump _ _ _ _ _ Hro) as Hb.
  rewrite He in Hb. cbn in Hb. lia.
Qed.

Lemma giveRegion_entry h c r :
  length (h_table h) = 160%nat -> 0 <= h_regions h < 160 -> 0 <= r ->
  entryOf (giveRegion h c) r = if decide (r = h_regions h) then entryOf h c else entryOf h r.
Proof.
  intros Hl Hr Hr0. unfold entryOf, giveRegion. cbn. rewrite !nth_lookup. case_decide as E.
  - subst r. rewrite list_lookup_insert_eq by lia. unfold entryOf. by rewrite nth_lookup.
  - rewrite list_lookup_insert_ne by lia. done.
Qed.

(** Any entry fits a region without slots. *)
Lemma region_empty shift e e' words rs w :
  region_ok shift e words rs w -> bump rs = 0 -> 0 <= c_capacity e' -> region_ok shift e' words rs w.
Proof.
  intros [R1 R2 R3 R4 R5 R6] H0 Hc. constructor; try done; [lia|lia|].
  intros s Hs. specialize (R4 s Hs). assert (w s = Fresh) as E by (apply R3; lia). by rewrite E in *.
Qed.

(** What a region given to a class leaves as it was. *)
Definition beside_spare (st : alloc) :=
  (al_words st, al_region st, al_gained st, al_caches st, al_gone st, al_pace st, al_huge st,
   al_shadow st, al_mem st, al_stats st, al_sweeps st, al_tick st).

Lemma inv_takeSpare st w c b st' :
  heap_inv st w -> 0 <= c < h_classes (al_heap st) -> takeSpare c st = (b, st') ->
  heap_inv st' w /\ grown st st' /\ beside_spare st' = beside_spare st
  /\ h_regions (al_heap st') = h_regions (al_heap st) + Z.b2z b
  /\ (b = false -> st' = st /\ h_regions (al_heap st) = 160).
Proof.
  intros [Hs Hb] Hc. pose proof (regions_range _ _ Hs) as [Hcl H160]. pose proof (so_heap _ _ _ _ _ _ _ Hs) as Hh.
  unfold takeSpare. cbv zeta. change WeavecRtRegionCount with 160.
  match goal with |- context [lastRegion 160 ?n c] => change n with (al_next st) end.
  destruct (Z.leb_spec 160 (h_regions (al_heap st))) as [Hfull|Hroom].
  { intros [= <- <-]. split_and!; try done; [cbn; lia|intros; split; [done|lia]]. }
  destruct (lastRegion_spec st w 160 c Hs ltac:(lia) ltac:(lia)) as (Hl1 & Hl2 & Hl3).
  generalize dependent (lastRegion 160 (al_next st) c). intros last Hl1 Hl2 Hl3 [= <- <-]. cbn [Z.b2z].
  set (r := h_regions (al_heap st)) in *.
  assert (Hent : forall x, 0 <= x -> entryOf (giveRegion (al_heap st) c) x
                  = if decide (x = r) then entryOf (al_heap st) c else entryOf (al_heap st) x)
    by (intros x Hx; apply giveRegion_entry; [apply (ho_length _ Hh)|lia|done]).
  rewrite (so_own _ _ _ _ _ _ _ Hs c Hc) in Hl2. fold r in Hl1.
  assert (Hb0 : bump (al_region st r) = 0) by (by apply (spare_region st w)).
  destruct (so_class _ _ _ _ _ _ _ Hs c ltac:(lia)) as [_ Hec]. 
  assert (Hcap : 0 <= c_capacity (entryOf (al_heap st) c)) by (destruct (capacity_of _ Hh c ltac:(lia)); lia).
  assert (Hbump : forall x, 0 <= x < 160 -> bump (al_region st x) * c_size (entryOf (giveRegion (al_heap st) c) x)
                   = bump (al_region st x) * c_size (entryOf (al_heap st) x)).
  { intros x Hx. rewrite Hent by lia. case_decide; [subst x; rewrite Hb0; ring|done]. }
  assert (Hfr : forall s, 0 <= s -> w r s = Fresh).
  { intros s Hs0. pose proof (so_region _ _ _ _ _ _ _ Hs r ltac:(lia)) as Hro. apply (ro_fresh _ _ _ _ _ Hro); lia. }
  assert (Hold : forall x s, 0 <= x < 160 -> 0 <= s -> w x s <> Fresh -> entryOf (giveRegion (al_heap st) c) x = entryOf (al_heap st) x).
  { intros x s Hx Hs0 Hw. rewrite Hent by lia. case_decide; [subst x; by destruct Hw; apply Hfr|done]. }
  assert (Hslot : forall x s a, 0 <= x < 160 -> 0 <= s -> w x s <> Fresh ->
            in_slot (giveRegion (al_heap st) c) x s a -> in_slot (al_heap st) x s a
            /\ slotStart (giveRegion (al_heap st) c) x s = slotStart (al_heap st) x s).
  { intros x s a Hx Hs0 Hw. unfold in_slot, slotStart. rewrite (Hold x s Hx Hs0 Hw). done. }
  assert (Hheap : heap_ok (giveRegion (al_heap st) c)).
  { destruct Hh as [A1 A2 A3 A4 A5 A6 A7 A8 A9]. constructor; cbn; try done; [fold r; lia|by rewrite length_insert|].
    apply list.Forall_insert; [done|]. apply (entryOf_ok _ ltac:(by constructor)). lia. }
  split_and!; [split| |done|done|done].
  - destruct Hs as [S1 S2 S3 S4 S5 S6 S7 S8]. fold r in S3, S5, S6, S7.
    constructor; cbn [set_active set_next set_class set_heap al_heap al_words al_region al_next al_class al_active giveRegion h_classes h_regions h_shift]; fold r.
    + done.
    + intros c' Hc'. rewrite Hent by lia. case_decide; [lia|auto].
    + intros x Hx. rewrite setAt_cases, Hent by lia. case_decide as Ex.
      * split; [done|]. rewrite Hent by lia. case_decide; [lia|done].
      * destruct (S3 x ltac:(lia)) as [H1 H2]. split; [done|]. rewrite Hent by lia. case_decide; [lia|done].
    + intros c' Hc'. rewrite setAt_ne by lia. auto.
    + intros x Hx. rewrite setAt_cases. case_decide as Ex.
      * subst x. right. split; [lia|]. rewrite setAt_eq, setAt_ne by lia. done.
      * destruct (decide (x = r)) as [->|Hne].
        -- left. apply S7. lia.
        -- destruct (S5 x ltac:(lia)) as [H1|[H1 H2]]; [by left|right]. split; [lia|]. rewrite !setAt_ne by lia. done.
    + intros c' Hc'. rewrite setAt_cases. case_decide as Ex.
      * subst c'. split; [lia|]. by rewrite setAt_eq.
      * destruct (S6 c' Hc') as [H1 H2]. split; [lia|]. rewrite setAt_ne by lia. done.
    + intros x Hx. rewrite Hent by lia. case_decide; [lia|]. destruct (S7 x ltac:(lia)) as [H1 H2].
      split; [done|]. rewrite setAt_ne by lia. done.
    + intros x Hx. rewrite Hent by lia. case_decide as Ex; [subst x|by apply S8].
      by apply (region_empty _ (entryOf (al_heap st) r)); [apply S8|..].
  - destruct Hb as [B1 B2 B3 B4 B5 B6 B7].
    constructor; cbn [set_active set_next set_class set_heap al_heap al_words al_region al_shadow al_mem]; [done|done|..].
    + intros x s a Hx Hs0 Hd Ha. apply Hslot in Ha as [Ha _]; try done; [by eapply B3|]. by intros E; rewrite E in Hd.
    + intros x s a Hx Hs0 Hd Ha. apply Hslot in Ha as [Ha E]; try done; [|by rewrite Hd]. rewrite E. by eapply B4.
    + intros x s a Hx Hs0 Hd Ha. apply Hslot in Ha as [Ha E]; try done; [|by rewrite Hd]. rewrite E. by eapply B5.
    + intros x a Hx. rewrite Hbump by done. by apply B6.
    + intros x s a Hx Hs0 Hd Ha. apply Hslot in Ha as [Ha _]; try done; [by eapply B7|]. by intros E; rewrite E in Hd.
  - constructor; cbn [set_active set_next set_class set_heap al_heap al_class giveRegion h_base h_bytes h_shift h_classes h_regions]; try done; fold r; [lia|].
    intros x Hx. rewrite setAt_ne by lia. rewrite Hent by lia. case_decide; [lia|done].
Qed.
(** ** The invariant of the allocator *)

(** A cache's lists: free slots, and claimed ones on their way to the
    quarantine, of the classes the caches serve, no more than the arrays
    hold. *)
Record cache_ok (st : alloc) (w : Z -> Z -> place) (t : nat) (k : ThreadCache) : Prop := {
  ca_alloc : forall c, own st w (Held t c) c (tc_alloc k c);
  ca_release : forall c, own st w (fun _ => Claimed (Some (t, c))) c (tc_release k c);
  ca_bounds : forall c, 0 <= c < cachedClasses (al_heap st) ->
                Z.of_nat (length (tc_alloc k c)) <= cacheLimit st c
                /\ Z.of_nat (length (tc_release k c)) <= cacheLimit st c;
  ca_outside : forall c, ~ (0 <= c < cachedClasses (al_heap st)) -> tc_alloc k c = [] /\ tc_release k c = []
}.

(** A cache at rest has room for one more release of any class. *)
Definition room (st : alloc) (k : ThreadCache) : Prop :=
  forall c, 0 <= c < cachedClasses (al_heap st) -> Z.of_nat (length (tc_release k c)) < cacheLimit st c.

Definition caches_ok (st : alloc) (w : Z -> Z -> place) : Prop :=
  forall t k, ownCache t st = Some k -> cache_ok st w t k /\ room st k.

Definition alloc_inv (st : alloc) (w : Z -> Z -> place) : Prop :=
  heap_inv st w /\ caches_ok st w /\ huge_ok st.

(** A slot an allocation may be given, now or after its region's others. *)
Definition available (p : place) : bool :=
  match p with Fresh | Free | Hand _ | Held _ _ _ => true | _ => false end.

(** A slot whose block was released and not recycled yet. *)
Definition released (p : place) : bool :=
  match p with Queued | Claimed _ => true | _ => false end.

(** A word of the heap: an aligned word of a live block's object. *)
Definition heap_word (st : alloc) (w : Z -> Z -> place) (v : Z) : Prop :=
  (exists r s i, 0 <= r < h_regions (al_heap st) /\ 0 <= s /\ w r s = Live /\ 0 <= i
     /\ 8 * i + 8 <= weavecRtWordValue (al_words st r s)
     /\ v = load_le (al_mem st) (slotStart (al_heap st) r s + 8 * i) 8)
  \/ (exists b i, b ∈ ht_blocks (al_huge st) /\ hb_dead b = 0 /\ 0 <= i /\ 8 * i + 8 <= hb_size b
        /\ v = load_le (al_mem st) (hb_base b + 8 * i) 8).

(** No root and no word of the heap points into the slot. *)
Definition unreferenced (st : alloc) (w : Z -> Z -> place) (roots : list Z) (r s : Z) : Prop :=
  forall v, v ∈ roots \/ heap_word st w v -> ~ in_slot (al_heap st) r s v.

(** What a thread's calls keep in its cache beside its slots. *)
Definition calls (st : alloc) (t : nat) : option (Z * Z * list Z) :=
  option_map (fun k => (tc_depth k, tc_locks k, tc_deferred k)) (ownCache t st).

(** The mark bits of a region, and of all, are clear: so they are between
    sweeps. *)
Definition marks_clear (rs : RegionState) : Prop := forall bits s, marks rs = Some bits -> bits s = false.

Definition marks_rest (st : alloc) : Prop := forall r, marks_clear (al_region st r).

(** The lists leave the marks alone. *)
Definition same_marks (st st' : alloc) : Prop := forall r, marks (al_region st' r) = marks (al_region st r).

Lemma same_marks_rest st st' : same_marks st st' -> marks_rest st -> marks_rest st'.
Proof. intros H Hm r bits s. rewrite H. apply Hm. Qed.

Lemma same_marks_trans st st' st'' : same_marks st st' -> same_marks st' st'' -> same_marks st st''.
Proof. intros H1 H2 r. by rewrite H2. Qed.

Lemma regions_marks st st' : al_region st' = al_region st -> marks_rest st -> marks_rest st'.
Proof. intros E. apply same_marks_rest. intros r. by rewrite E. Qed.

(** What the allocator does on its own account: the live blocks, their sizes
    and the memory are as they were, what was available stays so, and a
    released block becomes available only when the roots of a sweep and the
    words of the heap do not point into it. *)
Record unseen (st : alloc) (w : Z -> Z -> place) (st' : alloc) (w' : Z -> Z -> place) : Prop := {
  us_grown : grown st st';
  us_mem : al_mem st' = al_mem st;
  us_bits : s_bits (al_shadow st') = s_bits (al_shadow st);
  us_live : forall r s, w' r s = Live <-> w r s = Live;
  us_words : forall r s, w r s = Live -> al_words st' r s = al_words st r s;
  us_avail : forall r s, available (w r s) = true -> available (w' r s) = true;
  us_released : forall r s, 0 <= r < h_regions (al_heap st) -> denied (w r s) = true ->
                  denied (w' r s) = true
                  \/ (available (w' r s) = true
                      /\ exists n, (al_tick st <= n < al_tick st')%nat /\ unreferenced st w (sys_roots n) r s);
  us_huge : forall base size, huge_live (al_huge st') base size <-> huge_live (al_huge st) base size;
  us_calls : forall t, calls st' t = calls st t \/ (calls st t = None /\ calls st' t = Some (0, 0, []));
  us_tick : (al_tick st <= al_tick st')%nat;
  us_releases : ht_releases (al_huge st') = ht_releases (al_huge st);
  us_marks : marks_rest st -> marks_rest st'
}.

Lemma unseen_refl st w : unseen st w st w.
Proof.
  constructor; try done; [intros; by left|by left].
Qed.

(** What no word points into now, none did. *)
Lemma unreferenced_back st w st' w' roots r s :
  unseen st w st' w' -> 0 <= r < h_regions (al_heap st) -> unreferenced st' w' roots r s -> unreferenced st w roots r s.
Proof.
  intros [G M B L W A R Hg C T _] Hr Hu v Hv Hin. apply (Hu v).
  - destruct Hv as [Hv|[(r' & s' & i & Hr' & Hs' & Hl & Hi & Hsz & ->)|(b & i & Hb & Hd & Hi & Hsz & ->)]]; [by left|right..].
    + left. exists r', s', i. pose proof (gr_regions _ _ G). rewrite W, M, (grown_start _ _ r' s' G Hr') by done.
      split_and!; try (done || lia). by apply L.
    + destruct (proj2 (Hg (hb_base b) (hb_size b)) ltac:(by exists b)) as (b' & Hb' & Hd' & E1 & E2). right. exists b', i. rewrite M, E1, E2. by split_and!.
  - unfold in_slot in *. rewrite (grown_start _ _ r s G Hr). by destruct (gr_same _ _ G r Hr) as [-> _].
Qed.

Lemma unseen_trans st w st1 w1 st2 w2 : unseen st w st1 w1 -> unseen st1 w1 st2 w2 -> unseen st w st2 w2.
Proof.
  intros HA HB. pose proof HA as [A1 A2 A3 A4 A5 A6 AR AH A7 A8 A9 AM]. pose proof HB as [B1 B2 B3 B4 B5 B6 BR BH B7 B8 B9 BM].
  constructor; try congruence; [by eapply grown_trans|..].
  - intros r s. by rewrite B4.
  - intros r s Hl. rewrite B5 by (by apply A4). auto.
  - auto.
  - intros r s Hr Hd. pose proof (gr_regions _ _ A1). destruct (AR r s Hr Hd) as [Hd1|[Ha1 (n & Hn & Hu)]].
    + destruct (BR r s ltac:(lia) Hd1) as [?|[Ha2 (n & Hn & Hu)]]; [by left|right]. split; [done|].
      exists n. split; [lia|]. by apply (unreferenced_back _ _ _ _ _ _ _ HA).
    + right. split; [auto|]. exists n. split; [lia|done].
  - intros base size. by rewrite BH.
  - intros t. destruct (B7 t) as [->|[E1 E2]]; [apply A7|]. destruct (A7 t) as [E3|[E3 E4]]; [|congruence].
    right. split; [congruence|done].
  - lia.
  - auto.
Qed.

(** What becomes of one slot: its bytes denied, or a sweep found no root that
    points into it. *)
Definition slot_denied (st st' : alloc) (w' : Z -> Z -> place) (r s : Z) : Prop :=
  denied (w' r s) = true
  \/ exists n, (al_tick st <= n < al_tick st')%nat /\ forall v, v ∈ sys_roots n -> ~ in_slot (al_heap st) r s v.

(** Released slots stay denied, and marks come to rest. *)
Record stale (st : alloc) (w : Z -> Z -> place) (st' : alloc) (w' : Z -> Z -> place) : Prop := {
  st_tick : (al_tick st <= al_tick st')%nat;
  st_slots : forall r s, 0 <= r < h_regions (al_heap st) -> denied (w r s) = true -> slot_denied st st' w' r s;
  st_marks : marks_rest st -> marks_rest st'
}.

Lemma stale_places st w st' w' :
  (al_tick st <= al_tick st')%nat -> (forall r s, denied (w r s) = true -> denied (w' r s) = true) ->
  (marks_rest st -> marks_rest st') -> stale st w st' w'.
Proof. intros Ht Hw Hm. split; [done| |done]. intros r s _ Hd. left. by apply Hw. Qed.

Lemma stale_same st st' w : (al_tick st <= al_tick st')%nat -> (marks_rest st -> marks_rest st') -> stale st w st' w.
Proof. intros Ht Hm. by apply stale_places. Qed.

Lemma unseen_stale st w st' w' : unseen st w st' w' -> stale st w st' w'.
Proof.
  intros H. split; [apply H| |apply H]. intros r s Hr Hd. destruct (us_released _ _ _ _ H r s Hr Hd) as [?|[_ (n & Hn & Hu)]]; [by left|].
  right. exists n. split; [done|]. intros v Hv. apply Hu. by left.
Qed.

Lemma in_slot_grown st st' r s a :
  grown st st' -> 0 <= r < h_regions (al_heap st) -> in_slot (al_heap st') r s a <-> in_slot (al_heap st) r s a.
Proof. intros G Hr. unfold in_slot. rewrite (grown_start _ _ r s G Hr). by destruct (gr_same _ _ G r Hr) as [-> _]. Qed.

Lemma slot_denied_after st st1 st' w' r s :
  grown st st1 -> (al_tick st <= al_tick st1)%nat -> 0 <= r < h_regions (al_heap st) -> slot_denied st1 st' w' r s ->
  slot_denied st st' w' r s.
Proof.
  intros G Ht Hr [?|(n & Hn & Hu)]; [by left|right]. exists n. split; [lia|]. intros v Hv. by rewrite <- (in_slot_grown st st1); auto.
Qed.

Lemma slot_denied_then st st1 w1 st' w' r s :
  grown st st1 -> (al_tick st <= al_tick st1)%nat -> 0 <= r < h_regions (al_heap st) -> slot_denied st st1 w1 r s ->
  stale st1 w1 st' w' -> slot_denied st st' w' r s.
Proof.
  intros G Ht Hr [Hd|(n & Hn & Hu)] [T H]; [|right; exists n; split; [lia|done]].
  pose proof (gr_regions _ _ G). apply (slot_denied_after st st1); try done. apply H; [lia|done].
Qed.

Lemma stale_trans st w st1 w1 st2 w2 : grown st st1 -> stale st w st1 w1 -> stale st1 w1 st2 w2 -> stale st w st2 w2.
Proof.
  intros G [T1 H1 M1] HS. split; [destruct HS; lia| |intros Hm; by apply HS, M1]. intros r s Hr Hd. by apply (slot_denied_then st st1 w1); auto.
Qed.

Lemma takes_live w w' r s : takes w w' -> w' r s = Live <-> w r s = Live.
Proof. intros H. destruct (H r s) as [->|[[E|E] [u ->]]]; rewrite ?E; done. Qed.

Lemma takes_avail w w' r s : takes w w' -> available (w r s) = true -> available (w' r s) = true.
Proof. intros H Ha. destruct (H r s) as [->|[_ [u ->]]]; done. Qed.

Lemma takes_released w w' r s : takes w w' -> denied (w r s) = true -> denied (w' r s) = true.
Proof. intros H Ha. destruct (H r s) as [->|[[E|E] _]]; [done|by rewrite E in Ha..]. Qed.

(** The caches' slots are where they were. *)
Lemma takes_own w w' st f c l :
  takes w w' -> (forall u, f u <> Free /\ f u <> Fresh) -> own st w f c l -> own st w' f c l.
Proof.
  intros Ht Hf. apply own_ext. intros r s u E. destruct (Ht r s) as [->|[[E'|E'] _]]; [done|..];
    rewrite E in E'; by destruct (Hf u).
Qed.

(** The classes the caches serve are the first ones, of slots that fit a
    cache's bytes. *)
Lemma cachedFrom_spec h fuel : forall index count,
  let n := cachedFrom fuel h index count in
  index = count -> 0 <= index <= h_classes h ->
  index <= n <= Z.max index (h_classes h) /\ forall c, index <= c < n -> c < CachedClasses /\ c_size (entryOf h c) <= CacheBytes.
Proof.
  induction fuel as [|fuel IH]; intros index count n -> Hi; subst n; cbn [cachedFrom]; [split; [lia|intros; lia]|].
  destruct (Z.ltb_spec count (h_classes h)); cbn [andb]; [|split; [lia|intros; lia]].
  destruct (Z.ltb_spec count CachedClasses); cbn [andb]; [|split; [lia|intros; lia]].
  destruct (Z.leb_spec (c_size (entryOf h count)) CacheBytes); cbn [andb]; [|split; [lia|intros; lia]].
  destruct (IH (count + 1) (count + 1) eq_refl ltac:(lia)) as [IH1 IH2]. split; [lia|].
  intros c Hc. destruct (decide (c = count)) as [->|]; [done|]. apply IH2. lia.
Qed.

Lemma cachedClasses_spec st w :
  slots st w ->
  0 <= cachedClasses (al_heap st) <= h_classes (al_heap st)
  /\ forall c, 0 <= c < cachedClasses (al_heap st) -> c < CachedClasses /\ slotBytesOf st c <= CacheBytes.
Proof.
  intros Hs. pose proof (regions_range _ _ Hs).
  destruct (cachedFrom_spec (al_heap st) 40 0 0 eq_refl ltac:(lia)) as [H1 H2].
  split; [unfold cachedClasses; lia|exact H2].
Qed.

Lemma cachedFrom_ext h h' fuel : forall index count,
  h_classes h' = h_classes h -> (forall c, 0 <= c < h_classes h -> entryOf h' c = entryOf h c) -> 0 <= index ->
  cachedFrom fuel h' index count = cachedFrom fuel h index count.
Proof.
  induction fuel as [|fuel IH]; intros index count Hc He Hi; cbn [cachedFrom]; [done|]. rewrite Hc.
  destruct (Z.ltb_spec index (h_classes h)); [|done]. rewrite He by lia. case_match; [|done]. apply IH; (done || lia).
Qed.

Lemma grown_cached st st' w :
  slots st w -> grown st st' ->
  cachedClasses (al_heap st') = cachedClasses (al_heap st)
  /\ forall c, 0 <= c < h_classes (al_heap st) -> slotBytesOf st' c = slotBytesOf st c /\ cacheLimit st' c = cacheLimit st c.
Proof.
  intros Hs G. pose proof (regions_range _ _ Hs). split.
  - apply cachedFrom_ext; [apply (gr_classes _ _ G)| |lia]. intros c Hc. apply (gr_same _ _ G). lia.
  - intros c Hc. destruct (gr_same _ _ G c ltac:(lia)) as [E _].
    assert (E' : slotBytesOf st' c = slotBytesOf st c) by (unfold slotBytesOf; by rewrite E).
    unfold cacheLimit. by rewrite E'.
Qed.

(** A cache's slots are where they were after others moved. *)
Lemma cache_ok_frame st w st' w' t k :
  slots st w -> grown st st' -> h_regions (al_heap st') <= 160 ->
  (forall r s c u, w r s = Held t c u -> w' r s = Held t c u) ->
  (forall r s c, w r s = Claimed (Some (t, c)) -> w' r s = Claimed (Some (t, c))) ->
  cache_ok st w t k -> cache_ok st' w' t k.
Proof.
  intros Hs G H160 Hh Hc [A R B O]. destruct (grown_cached _ _ _ Hs G) as [E1 E2].
  pose proof (cachedClasses_spec _ _ Hs) as [Hcc _]. constructor.
  - intros c. apply (own_ext _ w); [intros; by apply Hh|]. by apply (own_grown st).
  - intros c. apply (own_ext _ w); [intros; by apply Hc|]. by apply (own_grown st).
  - intros c. rewrite E1. intros Hr. destruct (E2 c ltac:(lia)) as [_ ->]. by apply B.
  - rewrite E1. exact O.
Qed.

Lemma room_frame st w st' k : slots st w -> grown st st' -> room st k -> room st' k.
Proof.
  intros Hs G Hr c. destruct (grown_cached _ _ _ Hs G) as [E1 E2]. rewrite E1. intros Hc.
  pose proof (cachedClasses_spec _ _ Hs) as [Hcc _]. destruct (E2 c ltac:(lia)) as [_ ->]. by apply Hr.
Qed.

(** Caches that are as they were. *)
Lemma caches_ok_frame st w st' w' :
  slots st w -> grown st st' -> h_regions (al_heap st') <= 160 -> al_caches st' = al_caches st ->
  (forall r s t c u, w r s = Held t c u -> w' r s = Held t c u) ->
  (forall r s o, w r s = Claimed (Some o) -> w' r s = Claimed (Some o)) ->
  caches_ok st w -> caches_ok st' w'.
Proof.
  intros Hs G H160 Ec Hh Hcl Hc t k. unfold ownCache. rewrite Ec. intros Hk. destruct (Hc t k Hk) as [H1 H2].
  split; [|by apply (room_frame st w)]. apply (cache_ok_frame st w); auto.
Qed.

Lemma huge_ok_frame st st' :
  grown st st' -> al_huge st' = al_huge st -> s_bits (al_shadow st') = s_bits (al_shadow st) ->
  huge_ok st -> huge_ok st'.
Proof.
  intros G E1 E2 [Ht Hb]. split; [by rewrite E1|]. rewrite E1, E2. eapply Forall_impl; [|exact Hb].
  intros b [B1 B2 B3 B4 B5]. constructor; try done. by rewrite (gr_base _ _ G), (gr_bytes _ _ G).
Qed.

(** Slots taken from the free ones keep the invariant. *)
Lemma inv_takes st w st' w' :
  alloc_inv st w -> heap_inv st' w' -> grown st st' -> takes w w' ->
  al_caches st' = al_caches st -> al_huge st' = al_huge st -> s_bits (al_shadow st') = s_bits (al_shadow st) ->
  al_mem st' = al_mem st -> al_words st' = al_words st -> (al_tick st <= al_tick st')%nat -> same_marks st st' ->
  alloc_inv st' w' /\ unseen st w st' w'.
Proof.
  intros (Hi & Hc & Hg) Hi' G Ht Ec Eh Eb Em Ew Etk Hmk.
  assert (Hkeep : forall r s p, w r s = p -> p <> Free -> p <> Fresh -> w' r s = p).
  { intros r s p E Hf1 Hf2. destruct (Ht r s) as [->|[[E'|E'] _]]; congruence. }
  pose proof (regions_range _ _ (proj1 Hi')) as [_ H160]. split.
  - split_and!; [done| |by apply (huge_ok_frame st)].
    apply (caches_ok_frame st w); [apply Hi|done|done|done|..]; [intros; by apply Hkeep..|done].
  - constructor; try done.
    + intros r s. by apply takes_live.
    + intros r s _. by rewrite Ew.
    + intros r s. by apply takes_avail.
    + intros r s _ Hd. left. by eapply takes_released.
    + intros base size. by rewrite Eh.
    + intros t. left. unfold calls, ownCache. by rewrite Ec.
    + by rewrite Eh.
    + by apply same_marks_rest.
Qed.

(** The questions asked and the shadow's width. *)
Lemma popSlot_width r st res st' :
  popSlot r st = (res, st') -> s_bits (al_shadow st') = s_bits (al_shadow st) /\ (al_tick st <= al_tick st')%nat.
Proof.
  unfold popSlot. destruct (negb _); [by intros [= <- <-]|]. unfold freshSlot.
  destruct (_ <=? bump _); [by intros [= <- <-]|].
  assert (Hc : forall a b c d st1 r1 st2, commit a b c d st1 = (r1, st2) ->
            al_shadow st2 = al_shadow st1 /\ (al_tick st1 <= al_tick st2)%nat).
  { unfold commit, ask. intros a b c d st1 r1 st2. case_match; intros [= <- <-]; cbn; (split; [done|lia]). }
  destruct (commit _ _ DataChunk _ st) as [[data|] st1] eqn:E1; apply Hc in E1 as [E1 T1];
    [|intros [= <- <-]; by rewrite E1].
  destruct (commit _ _ MetaChunk _ _) as [[meta|] st2] eqn:E2; apply Hc in E2 as [E2 T2]; cbn in E2, T2;
    intros [= <- <-]; [|by rewrite E2, E1; split; [|lia]].
  repeat case_match; cbn; rewrite ?shadowSet_bits, ?E2, ?E1; (split; [done|lia]).
Qed.

Lemma popRegion_width want : forall r acc st l st',
  popRegion want r acc st = (l, st') -> s_bits (al_shadow st') = s_bits (al_shadow st) /\ (al_tick st <= al_tick st')%nat.
Proof.
  induction want as [|want IH]; intros r acc st l st'; cbn [popRegion]; [by intros [= <- <-]|].
  destruct (popSlot r st) as [[[s u]|] st1] eqn:E; apply popSlot_width in E as [E T].
  - intros [E' T']%IH. rewrite E', E. split; [done|lia].
  - by intros [= <- <-].
Qed.

(** Their marks stay. *)
Lemma set_region_marks st r rs : marks rs = marks (al_region st r) -> same_marks st (set_region st r rs).
Proof. intros E r'. cbn. rewrite setAt_cases. by case_decide; [subst|]. Qed.

Lemma popSlot_marks r st res st' : popSlot r st = (res, st') -> same_marks st st'.
Proof.
  unfold popSlot. destruct (negb _); [intros [= <- <-]; by apply set_region_marks|]. unfold freshSlot.
  destruct (_ <=? bump _); [by intros [= <- <-]|].
  assert (Hc : forall a b c d st1 r1 st2, commit a b c d st1 = (r1, st2) -> al_region st2 = al_region st1).
  { unfold commit, ask. intros a b c d st1 r1 st2. by case_match; intros [= <- <-]. }
  destruct (commit _ _ DataChunk _ st) as [[data|] st1] eqn:E1; apply Hc in E1; [|intros [= <- <-] r'; by rewrite E1].
  assert (H1 : same_marks st (set_region st1 r (with_committed (al_region st1 r) data))).
  { intros r'. cbn. rewrite setAt_cases, E1. by case_decide; [subst|]. }
  destruct (commit _ _ MetaChunk _ _) as [[meta|] st2] eqn:E2; apply Hc in E2; intros [= <- <-]; [|intros r'; by rewrite E2, H1].
  intros r'. rewrite <- (H1 r'), <- E2. repeat case_match; cbn; rewrite !setAt_cases; repeat case_decide; subst; by rewrite ?setAt_eq.
Qed.

Lemma popRegion_marks want : forall r acc st l st', popRegion want r acc st = (l, st') -> same_marks st st'.
Proof.
  induction want as [|want IH]; intros r acc st l st'; cbn [popRegion]; [by intros [= <- <-]|].
  destruct (popSlot r st) as [[[s u]|] st1] eqn:E; apply popSlot_marks in E; [|by intros [= <- <-]].
  intros E'%IH. by eapply same_marks_trans.
Qed.

(** Slots taken from one region of a class. *)
Lemma alloc_popRegion want st w r c l st' :
  alloc_inv st w -> 0 <= r < h_regions (al_heap st) -> al_class st r = c ->
  popRegion want r [] st = (l, st') ->
  exists w', alloc_inv st' w' /\ unseen st w st' w' /\ own st' w' Hand c l /\ (length l <= want)%nat
    /\ shared st' = shared st.
Proof.
  intros Hi Hr Hc Hp. pose proof (popRegion_width _ _ _ _ _ _ Hp) as [Hb Ht]. pose proof (popRegion_marks _ _ _ _ _ _ Hp) as Hmk.
  apply (inv_popRegion want st w r c) in Hp as [Hsh (w' & Hi' & Ho & Htk & got & -> & Hl)];
    [|apply Hi|done|done|apply own_nil].
  assert (Hsh' := Hsh). injection Hsh' as E1 E2 E3 E4 E5 E6 E7 E8 E9 E10 E11 E12 E13.
  destruct (inv_takes st w st' w') as [Ha Hu]; try done; [by apply grown_same|].
  exists w'. by split_and!.
Qed.

(** The class's list of regions. *)
Lemma alloc_popList want c : forall fuel st w r l st',
  alloc_inv st w -> 0 <= c < h_classes (al_heap st) ->
  r = NoRegion \/ (0 <= r < h_regions (al_heap st) /\ al_class st r = c) ->
  popList fuel c r want st = (l, st') ->
  exists w', alloc_inv st' w' /\ unseen st w st' w' /\ own st' w' Hand c l /\ (length l <= want)%nat
    /\ al_heap st' = al_heap st /\ al_class st' = al_class st.
Proof.
  induction fuel as [|fuel IH]; intros st w r l st' Hi Hc Hr; cbn [popList].
  { intros [= <- <-]. exists w. split_and!; (done || apply unseen_refl || apply own_nil || (cbn; lia)). }
  destruct (Z.eqb_spec r NoRegion) as [|Hne].
  { intros [= <- <-]. exists w. split_and!; (done || apply unseen_refl || apply own_nil || (cbn; lia)). }
  destruct Hr as [?|[Hr Hcr]]; [done|]. destruct (popRegion want r [] st) as [got st1] eqn:E.
  apply (alloc_popRegion want st w r c) in E as (w1 & Hi1 & Hu1 & Ho1 & Hl1 & Hsh1); try done.
  assert (Hsh' := Hsh1). injection Hsh' as E1 E2 E3 E4 _ _ _ _ _ _ _ _ _.
  destruct got as [|e got].
  - intros Hp. apply (IH st1 w1) in Hp as (w2 & Hi2 & Hu2 & Ho2 & Hl2 & H1 & H2); rewrite ?E1 in *; [|done|done|].
    + exists w2. split_and!; try done; [by eapply unseen_trans|congruence..].
    + rewrite E2, E3. destruct (so_next _ _ _ _ _ _ _ (proj1 (proj1 Hi)) r Hr) as [->|[? ?]]; [by left|right].
      split; [lia|congruence].
  - intros [= <- <-]. exists w1. split_and!; try done.
    + destruct Hi1 as ([Hs1 Hb] & Hca & Hhu). pose proof (regions_range _ _ Hs1) as [_ H160].
      split; [split; [|exact Hb]|split; [|exact Hhu]].
      * destruct Hs1 as [S1 S2 S3 S4 S5 S6 S7 S8]. constructor; cbn; try done.
        intros c' Hc'. rewrite setAt_cases. case_decide; [subst c'|by apply S6]. by rewrite E1, E3.
      * by apply (caches_ok_frame st1 w1).
    + eapply unseen_trans; [exact Hu1|]. constructor; try done; [intros; by left|by left].
    + destruct Ho1. by constructor.
Qed.

(** What the callers of a sweep rely on. *)
Definition sweep_spec (sweep : alloc -> alloc) : Prop :=
  forall st w, alloc_inv st w ->
    exists w', alloc_inv (sweep st) w' /\ unseen st w (sweep st) w'
      /\ h_regions (al_heap (sweep st)) = h_regions (al_heap st).

Lemma alloc_takeSpare st w c b st' :
  alloc_inv st w -> 0 <= c < h_classes (al_heap st) -> takeSpare c st = (b, st') ->
  alloc_inv st' w /\ unseen st w st' w
  /\ h_regions (al_heap st') = h_regions (al_heap st) + Z.b2z b
  /\ (b = true -> h_regions (al_heap st) < 160).
Proof.
  intros Hi Hc Ht. destruct Hi as (Hh & Hca & Hg).
  destruct (inv_takeSpare st w c b st' Hh Hc Ht) as (Hh' & G & Hbs & Hr & Hf).
  injection Hbs as E1 E2 E3 E4 E5 E6 E7 E8 E9 E10 E11 E12.
  pose proof (regions_range _ _ (proj1 Hh')) as [_ H160].
  split_and!; [| |done|intros ->; cbn in Hr; lia].
  - split_and!; [done| |apply (huge_ok_frame st); [done|done|by rewrite E8|done]].
    apply (caches_ok_frame st w); try done. apply Hh.
  - constructor; try done; [by rewrite E8|intros r s _; by rewrite E1|intros; by left| | |by rewrite E12|by rewrite E7|by apply regions_marks].
    { intros base size. by rewrite E7. }
    intros t. left. unfold calls, ownCache. by rewrite E4.
Qed.

Section Sweeping.
Context (sweep : alloc -> alloc) (Hsweep : sweep_spec sweep).

Lemma alloc_popClassLoop want c : forall fuel swept st w,
  alloc_inv st w -> 0 <= c < h_classes (al_heap st) ->
  (Z.to_nat (160 - h_regions (al_heap st)) + (if swept : bool then 0 else 1) < fuel)%nat ->
  exists l st' w', popClassLoop fuel sweep c want swept st = (Some l, st')
    /\ alloc_inv st' w' /\ unseen st w st' w' /\ own st' w' Hand c l /\ (length l <= want)%nat.
Proof.
  induction fuel as [|fuel IH]; intros swept st w Hi Hc Hf; [lia|]. cbn [popClassLoop].
  pose proof (proj1 (proj1 Hi)) as Hs. pose proof (regions_range _ _ Hs) as [Hcl H160].
  destruct (so_active _ _ _ _ _ _ _ Hs c Hc) as [Ha Hac].
  destruct (popRegion want (al_active st c) [] st) as [got st1] eqn:E1.
  apply (alloc_popRegion want st w _ c) in E1 as (w1 & Hi1 & Hu1 & Ho1 & Hl1 & Hsh1); try done.
  destruct got as [|e got]; [|by exists (e :: got), st1, w1].
  assert (Hh1 : al_heap st1 = al_heap st) by (by injection Hsh1). rewrite <- Hh1 in Hc, Hf, H160, Hcl.
  destruct (popList 160 c c want st1) as [got st2] eqn:E2.
  apply (alloc_popList want c 160 st1 w1) in E2 as (w2 & Hi2 & Hu2 & Ho2 & Hl2 & Hh2 & _); [|done|done|].
  2:{ right. split; [lia|]. by apply (so_own _ _ _ _ _ _ _ (proj1 (proj1 Hi1))). }
  assert (Hu2' : unseen st w st2 w2) by (by eapply unseen_trans).
  destruct got as [|e got]; [|by exists (e :: got), st2, w2]. clear Ho1 Ho2 Hl1 Hl2.
  rewrite <- Hh2 in Hc, Hf, H160, Hcl.
  assert (Hagain : forall swept' st3 w3, alloc_inv st3 w3 -> unseen st2 w2 st3 w3 ->
            (Z.to_nat (160 - h_regions (al_heap st3)) + (if swept' : bool then 0 else 1)
             < Z.to_nat (160 - h_regions (al_heap st2)) + (if swept : bool then 0 else 1))%nat ->
            exists l st' w', popClassLoop fuel sweep c want swept' st3 = (Some l, st')
              /\ alloc_inv st' w' /\ unseen st w st' w' /\ own st' w' Hand c l /\ (length l <= want)%nat).
  { intros swept' st3 w3 Hi3 Hu3 Hlt. destruct (IH swept' st3 w3 Hi3) as (l & st' & w' & -> & Hi' & Hu' & Ho & Hl).
    - rewrite (gr_classes _ _ (us_grown _ _ _ _ Hu3)). done.
    - lia.
    - exists l, st', w'. split_and!; try done. eapply unseen_trans; [exact Hu2'|]. by eapply unseen_trans. }
  destruct (Hsweep st2 w2 Hi2) as (w3 & Hi3 & Hu3 & Hr3).
  destruct (negb swept && _) eqn:Eg.
  { destruct swept; [done|]. apply (Hagain _ _ w3); [done|done|]. rewrite Hr3. lia. }
  destruct (takeSpare c st2) as [spare st4] eqn:E4.
  apply (alloc_takeSpare st2 w2) in E4 as (Hi4 & Hu4 & Hr4 & Hroom); [|done|done].
  destruct spare.
  - apply (Hagain _ _ w2); [done|done|]. rewrite Hr4. specialize (Hroom eq_refl). cbn [Z.b2z]. lia.
  - destruct swept.
    + exists [], st4, w2. split_and!; [done|done|by eapply unseen_trans|apply own_nil|cbn; lia].
    + destruct (Hsweep st4 w2 Hi4) as (w5 & Hi5 & Hu5 & Hr5).
      apply (Hagain _ _ w5); [done|by eapply unseen_trans|]. rewrite Hr5, Hr4. cbn [Z.b2z]. lia.
Qed.

(** [popClass] ends: it answers at most [want] slots of the class, each taken
    from the free ones. *)
Lemma alloc_popClass want c st w :
  alloc_inv st w -> 0 <= c < h_classes (al_heap st) ->
  exists l st' w', popClass sweep c want st = (Some l, st')
    /\ alloc_inv st' w' /\ unseen st w st' w' /\ own st' w' Hand c l /\ (length l <= want)%nat.
Proof.
  intros Hi Hc. apply alloc_popClassLoop; [done|done|].
  pose proof (regions_range _ _ (proj1 (proj1 Hi))). lia.
Qed.
End Sweeping.
End Pop.
