(* ===== verification/CacheFacts.v ===== *)
(** * Thread caches keep every slot in one place

    [flushReleases], [returnSlots], [drainCache], [dropCache] and
    [weavecRtFlushThread] of the file Heap over the invariant of the file
    PopFacts: a cache's released slots go to the quarantine, its free ones back
    to their regions, and the other caches' slots stay where they are. *)

From S2P Require Import Prelude Shadow Classes Heap HugeBlocks HeapFacts PopFacts.
Local Open Scope Z_scope.

(** All but the words and the regions' lists. *)
Definition besides_lists (st : alloc) :=
  (al_heap st, al_next st, al_class st, al_active st, al_caches st, al_gone st, al_huge st,
   al_shadow st, al_mem st, al_tick st).

(** The live slots' words are as they were. *)
Definition same_live (st : alloc) (w : Z -> Z -> place) (st' : alloc) : Prop :=
  forall r s, w r s = Live -> al_words st' r s = al_words st r s.

(** The places a cache's slots of class [c] go to when it is emptied. *)
Definition empties (t : nat) (c : Z) (w w' : Z -> Z -> place) : Prop :=
  forall r s, w' r s = w r s
    \/ (w r s = Claimed (Some (t, c)) /\ w' r s = Queued)
    \/ (exists u, w r s = Held t c u /\ w' r s = Free).

Lemma empties_live t c w w' r s : empties t c w w' -> w' r s = Live <-> w r s = Live.
Proof. intros H. destruct (H r s) as [->|[[-> ->]|(u & -> & ->)]]; done. Qed.

Lemma empties_avail t c w w' r s : empties t c w w' -> available (w r s) = true -> available (w' r s) = true.
Proof. intros H. destruct (H r s) as [->|[[-> ->]|(u & -> & ->)]]; done. Qed.

Lemma empties_released t c w w' r s : empties t c w w' -> denied (w r s) = true -> denied (w' r s) = true.
Proof. intros H. destruct (H r s) as [->|[[-> ->]|(u & -> & ->)]]; done. Qed.

(** The slots of other caches and classes stay. *)
Lemma empties_held t c w w' r s t' c' u :
  empties t c w w' -> (t', c') <> (t, c) -> w r s = Held t' c' u -> w' r s = Held t' c' u.
Proof. intros H Hne E. destruct (H r s) as [E'|[[E1 E2]|(v & E1 & E2)]]; congruence. Qed.

Lemma empties_claimed t c w w' r s t' c' :
  empties t c w w' -> (t', c') <> (t, c) -> w r s = Claimed (Some (t', c')) -> w' r s = Claimed (Some (t', c')).
Proof. intros H Hne E. destruct (H r s) as [E'|[[E1 E2]|(v & E1 & E2)]]; congruence. Qed.

(** The slots in places [from] go to [to], some or all. *)
Definition goes (from : place -> Prop) (to : place) (w w' : Z -> Z -> place) : Prop :=
  forall r s, w' r s = w r s \/ (from (w r s) /\ w' r s = to).

Definition flushes (t : nat) (c : Z) := goes (fun p => p = Claimed (Some (t, c))) Queued.
Definition returns (t : nat) (c : Z) := goes (fun p => exists u, p = Held t c u) Free.

Lemma goes_refl from to w : goes from to w w.
Proof. by left. Qed.

Lemma goes_trans (from : place -> Prop) to w w' w'' :
  goes from to w w' -> goes from to w' w'' -> goes from to w w''.
Proof.
  intros H1 H2 r s. destruct (H1 r s) as [<-|[E1 E2]]; [apply H2|].
  destruct (H2 r s) as [->|[E3 E4]]; right; [done|]. done.
Qed.

Lemma goes_set (from : place -> Prop) to w r s : from (w r s) -> goes from to w (set_place w r s to).
Proof. intros H r' s'. rewrite set_place_cases. case_decide as E; [destruct E; subst; by right|by left]. Qed.

Lemma flushes_empties t c w w' : flushes t c w w' -> empties t c w w'.
Proof. intros H r s. destruct (H r s) as [?|[? ?]]; [by left|right; by left]. Qed.

Lemma returns_empties t c w w' : returns t c w w' -> empties t c w w'.
Proof. intros H r s. destruct (H r s) as [?|[[u ?] ?]]; [by left|right; right; eauto]. Qed.

Section Caches.
Context `{P : Pages} (HP : pages_wf) {Sys : System}.

Lemma enqueue_live st w r s o : heap_inv st w -> 0 <= r < 160 -> w r s = Claimed o -> same_live st w (enqueue r s st).
Proof.
  intros Hi Hr Hw r' s' Hl. destruct (regions_of st w r (proj1 Hi) Hr) as (Hsh & He & Hro).
  unfold enqueue. cbn. destruct (Z.eqb_spec (deadTail (al_region st r)) 0) as [Ht|Ht]; cbn [negb]; cbn.
  - rewrite setAt_cases. case_decide; [subst r'|done]. apply setAt_ne. congruence.
  - pose proof (tail_queued _ _ _ _ _ Hro Ht) as Hq. rewrite setAt_cases. case_decide; [subst r'|by rewrite setAt_ne]. rewrite setAt_eq, !setAt_ne by congruence. done.
Qed.

Lemma giveBack_live st w r s : w r s <> Live -> same_live st w (giveBack r s st).
Proof.
  intros Hw r' s' Hl. unfold giveBack. cbn. rewrite setAt_cases. case_decide; [subst r'|done]. apply setAt_ne. congruence.
Qed.

Lemma same_live_trans st w st1 w1 st2 :
  same_live st w st1 -> (forall r s, w r s = Live -> w1 r s = Live) -> same_live st1 w1 st2 -> same_live st w st2.
Proof. intros H1 Hw H2 r s Hl. rewrite H2 by auto. auto. Qed.

(** The released slots of class [c] join their regions' quarantines. *)
Lemma inv_flushFrom t c sz l : forall st w bytes b' st',
  heap_inv st w -> own st w (fun _ => Claimed (Some (t, c))) c l ->
  flushFrom l c sz false bytes st = (b', st') ->
  besides_lists st' = besides_lists st /\ al_gained st' = al_gained st /\ al_pace st' = al_pace st
  /\ b' = bytes + Z.of_nat (length l) * sz
  /\ exists w', heap_inv st' w' /\ flushes t c w w' /\ same_live st w st'.
Proof.
  induction l as [|e l IH]; intros st w bytes b' st' Hi Ho; cbn [flushFrom andb].
  { intros [= <- <-]. split_and!; try done; [cbn; lia|]. exists w. split_and!; [done|apply goes_refl|by intros]. }
  destruct (own_uncons _ _ _ _ _ _ Ho) as (r & s & u & -> & [Hr H160] & Hs & Hc & Hw & Ho').
  rewrite entryRegion_slotEntry, entrySlot_slotEntry by lia. intros Hf.
  pose proof (inv_enqueue st w r s _ Hi ltac:(lia) ltac:(lia) Hw) as Hi1.
  assert (Hb : besides_lists (enqueue r s st) = besides_lists st /\ al_gained (enqueue r s st) = al_gained st
               /\ al_pace (enqueue r s st) = al_pace st).
  { unfold enqueue, besides_lists. cbn. by destruct (negb _). }
  destruct Hb as (Hb & Hg & Hp).
  apply (IH _ (set_place w r s Queued)) in Hf as (Hb' & Hg' & Hp' & -> & w' & Hi' & He & Hl); [|done|].
  2:{ assert (E : al_heap (enqueue r s st) = al_heap st /\ al_class (enqueue r s st) = al_class st)
        by (unfold enqueue; cbn; by destruct (negb _)).
      destruct E as [E1 E2]. apply (own_grown st); [by apply grown_same|by rewrite E1|apply Ho']. }
  split_and!; try congruence; [cbn [length]; lia|]. exists w'.
  assert (H1 : flushes t c w (set_place w r s Queued)) by (by apply goes_set).
  split_and!; [done|by eapply goes_trans|]. eapply same_live_trans; [exact (enqueue_live st w r s _ Hi ltac:(lia) Hw)| |done].
  intros r' s'. apply (empties_live t c). by apply flushes_empties.
Qed.

(** The free slots of class [c] go back to their regions' free lists. *)
Lemma inv_returnFrom t c l : forall st w st',
  heap_inv st w -> own st w (Held t c) c l -> returnFrom l c false st = st' ->
  besides_lists st' = besides_lists st /\ al_gained st' = al_gained st /\ al_pace st' = al_pace st
  /\ exists w', heap_inv st' w' /\ returns t c w w' /\ same_live st w st'.
Proof.
  induction l as [|e l IH]; intros st w st' Hi Ho; cbn [returnFrom andb].
  { intros <-. split_and!; try done. exists w. split_and!; [done|apply goes_refl|by intros]. }
  destruct (own_uncons _ _ _ _ _ _ Ho) as (r & s & u & -> & [Hr H160] & Hs & Hc & Hw & Ho').
  rewrite entryRegion_slotEntry, entrySlot_slotEntry by lia. intros Hf.
  pose proof (inv_giveBack st w r s Hi ltac:(lia) ltac:(lia) ltac:(by rewrite Hw) ltac:(by rewrite Hw)) as Hi1.
  apply (IH _ (set_place w r s Free)) in Hf as (Hb' & Hg' & Hp' & w' & Hi' & He & Hl); [|done|].
  2:{ apply (own_grown st); [by apply grown_same|done|apply Ho']. }
  split_and!; try done. exists w'.
  assert (H1 : returns t c w (set_place w r s Free)) by (apply goes_set; eauto).
  split_and!; [done|by eapply goes_trans|]. eapply same_live_trans; [by apply (giveBack_live _ w); rewrite Hw| |done].
  intros r' s'. apply (empties_live t c). by apply returns_empties.
Qed.
(** ** A thread at work on its cache *)

(** The other threads' caches. *)
Definition others_ok (self : nat) (st : alloc) (w : Z -> Z -> place) : Prop :=
  forall t k, t <> self -> ownCache t st = Some k -> cache_ok st w t k /\ room st k.

(** The invariant while thread [self] holds its cache as [k]. *)
Record work (self : nat) (k : ThreadCache) (st : alloc) (w : Z -> Z -> place) : Prop := {
  wk_heap : heap_inv st w;
  wk_others : others_ok self st w;
  wk_huge : huge_ok st;
  wk_cache : cache_ok st w self k
}.

Lemma findCache_put self k t l :
  findCache t (putCache self k l)
  = if decide (t = self) then match findCache self l with Some _ => Some k | None => None end else findCache t l.
Proof.
  induction l as [|[t0 k0] l IH]; cbn [putCache findCache]; [by case_decide|].
  destruct (Nat.eqb_spec t0 self) as [->|Hne]; cbn [findCache].
  - destruct (Nat.eqb_spec self t); case_decide; congruence.
  - rewrite IH. destruct (Nat.eqb_spec t0 t); case_decide; congruence.
Qed.

Lemma work_start self k st w : alloc_inv st w -> ownCache self st = Some k -> work self k st w.
Proof.
  intros (Hi & Hc & Hg) Hk. constructor; [done| |done|by apply Hc]. intros t k' _ Hk'. by apply Hc.
Qed.

Lemma cache_frame_same st st' w t k :
  slots st w -> al_heap st' = al_heap st -> al_class st' = al_class st -> cache_ok st w t k -> cache_ok st' w t k.
Proof.
  intros Hs E1 E2 Hc. pose proof (regions_range _ _ Hs) as [_ H160].
  apply (cache_ok_frame st w); try done; [by apply grown_same|by rewrite E1].
Qed.

(** The cache goes back in its place. *)
Lemma work_end self k st w :
  work self k st w -> room st k -> alloc_inv (set_cache st self k) w.
Proof.
  intros [Hi Ho Hg Hc] Hr. pose proof (proj1 Hi) as Hs. split_and!; [done| |done].
  intros t k'. unfold ownCache, set_cache. cbn. rewrite findCache_put. case_decide as E.
  - subst t. destruct (findCache self (al_caches st)); [intros [= <-]|done].
    split; [by apply (cache_frame_same st)|by apply (room_frame st w); [|apply grown_same|]].
  - intros Hk. destruct (Ho t k' E Hk) as [H1 H2].
    split; [by apply (cache_frame_same st)|by apply (room_frame st w); [|apply grown_same|]].
Qed.

Lemma calls_set st self k t :
  calls (set_cache st self k) t
  = if decide (t = self)
    then match ownCache self st with Some _ => Some (tc_depth k, tc_locks k, tc_deferred k) | None => None end
    else calls st t.
Proof.
  unfold calls, ownCache, set_cache. cbn. rewrite findCache_put. case_decide; [|done].
  by destruct (findCache self (al_caches st)).
Qed.

(** The lists of the caches leave the marks alone. *)
Lemma enqueue_marks r s st : same_marks st (enqueue r s st).
Proof. intros r'. unfold enqueue. cbn. rewrite setAt_cases. case_decide; [subst|]; by destruct (negb _). Qed.

Lemma giveBack_marks r s st : same_marks st (giveBack r s st).
Proof. intros r'. unfold giveBack. cbn. rewrite setAt_cases. by case_decide; [subst|]. Qed.

Lemma flushFrom_marks l c size check : forall bytes st b' st', flushFrom l c size check bytes st = (b', st') -> same_marks st st'.
Proof.
  induction l as [|e l IH]; intros b st b' st'; cbn [flushFrom]; [by intros [= <- <-]|].
  destruct (_ && _); [apply IH|]. intros E%IH. eapply same_marks_trans; [apply enqueue_marks|done].
Qed.

Lemma flushReleases_marks k c check st : same_marks st (snd (flushReleases k c check st)).
Proof.
  unfold flushReleases. destruct (flushFrom _ _ _ _ _ _) as [bytes st1] eqn:E. cbn [snd].
  apply flushFrom_marks in E. by destruct (negb _).
Qed.

Lemma returnSlots_marks k c check st : same_marks st (snd (returnSlots k c check st)).
Proof.
  unfold returnSlots. cbn [snd]. revert st. induction (tc_alloc k c) as [|e l IH]; intros st; cbn [returnFrom]; [done|].
  destruct (_ && _); [apply IH|]. eapply same_marks_trans; [apply giveBack_marks|apply IH].
Qed.

(** Lists of class [c] changed: what the rest sees. *)
Lemma unseen_empties st w st' w' t c :
  besides_lists st' = besides_lists st -> empties t c w w' -> same_live st w st' -> same_marks st st' -> unseen st w st' w'.
Proof.
  intros [= E1 E2 E3 E4 E5 E6 E7 E8 E9 E10] He Hl Hm.
  constructor; try done; [by apply grown_same|by rewrite E8|..|by rewrite E10|by rewrite E7|by apply same_marks_rest].
  - intros r s. by apply (empties_live t c).
  - intros r s. by apply (empties_avail t c).
  - intros r s _. left. by apply (empties_released t c w).
  - intros base size. by rewrite E7.
  - intros t'. left. unfold calls, ownCache. by rewrite E5.
Qed.

Lemma others_empties self st w st' w' c :
  slots st w -> besides_lists st' = besides_lists st -> empties self c w w' -> others_ok self st w -> others_ok self st' w'.
Proof.
  intros Hs Hb He Ho t k Hne. injection Hb as E1 E2 E3 E4 E5 E6 E7 E8 E9 E10. unfold ownCache. rewrite E5. intros Hk.
  pose proof (regions_range _ _ Hs) as [_ H160]. destruct (Ho t k Hne Hk) as [H1 H2].
  assert (G : grown st st') by (by apply grown_same).
  split; [|by apply (room_frame st w)]. apply (cache_ok_frame st w); try done; [by rewrite E1| |].
  - intros r s c' u. apply (empties_held self c); [done|congruence].
  - intros r s c'. apply (empties_claimed self c); [done|congruence].
Qed.

Lemma huge_besides st st' : besides_lists st' = besides_lists st -> huge_ok st -> huge_ok st'.
Proof.
  intros [= E1 E2 E3 E4 E5 E6 E7 E8 E9 E10] H. apply (huge_ok_frame st); [by apply grown_same|done|by rewrite E8|done].
Qed.

(** A list of a cache was emptied, its slots gone elsewhere. *)
Lemma cache_emptied self c st w st' w' k k' :
  slots st w -> besides_lists st' = besides_lists st -> empties self c w w' ->
  cache_ok st w self k ->
  (forall c', c' <> c -> tc_alloc k' c' = tc_alloc k c' /\ tc_release k' c' = tc_release k c') ->
  (tc_alloc k' c = [] \/ (tc_alloc k' c = tc_alloc k c /\ forall r s u, w r s = Held self c u -> w' r s = Held self c u)) ->
  (tc_release k' c = [] \/ (tc_release k' c = tc_release k c
                           /\ forall r s, w r s = Claimed (Some (self, c)) -> w' r s = Claimed (Some (self, c)))) ->
  cache_ok st' w' self k'.
Proof.
  intros Hs Hb He [A R B O] Hother Ha Hr. injection Hb as E1 E2 E3 _ _ _ _ _ _ _.
  pose proof (regions_range _ _ Hs) as [_ H160]. assert (G : grown st st') by (by apply grown_same).
  destruct (grown_cached _ _ _ Hs G) as [C1 C2]. pose proof (cachedClasses_spec _ _ Hs) as [Hcc _].
  assert (Hlen : forall c', (length (tc_alloc k' c') <= length (tc_alloc k c'))%nat
                           /\ (length (tc_release k' c') <= length (tc_release k c'))%nat).
  { intros c'. destruct (decide (c' = c)) as [->|Hne]; [|by destruct (Hother c' Hne) as [-> ->]].
    split; [destruct Ha as [->|[-> _]]|destruct Hr as [->|[-> _]]]; cbn; lia. }
  constructor.
  - intros c'. destruct (decide (c' = c)) as [->|Hne].
    + destruct Ha as [->|[-> Hk]]; [apply own_nil|].
      apply (own_ext _ w); [done|]. apply (own_grown st); [done|by rewrite E1|done].
    + destruct (Hother c' Hne) as [-> _]. apply (own_ext _ w); [intros r s u; apply (empties_held self c); [done|congruence]|].
      apply (own_grown st); [done|by rewrite E1|done].
  - intros c'. destruct (decide (c' = c)) as [->|Hne].
    + destruct Hr as [->|[-> Hk]]; [apply own_nil|].
      apply (own_ext _ w); [intros r s _; apply Hk|]. apply (own_grown st); [done|by rewrite E1|done].
    + destruct (Hother c' Hne) as [_ ->]. apply (own_ext _ w); [intros r s _; apply (empties_claimed self c); [done|congruence]|].
      apply (own_grown st); [done|by rewrite E1|done].
  - intros c'. rewrite C1. intros Hc'. destruct (C2 c' ltac:(lia)) as [_ ->]. specialize (B c' Hc').
    specialize (Hlen c'). lia.
  - intros c'. rewrite C1. intros Hc'. destruct (O c' Hc') as [O1 O2]. specialize (Hlen c'). rewrite O1, O2 in Hlen.
    cbn in Hlen. split; apply nil_length_inv; lia.
Qed.

(** Emptying one list of class [c]: the invariant of the thread's work. *)
Lemma work_emptied self c k k' st w st' w' :
  work self k st w -> besides_lists st' = besides_lists st -> heap_inv st' w' -> empties self c w w' ->
  cache_ok st' w' self k' -> work self k' st' w'.
Proof.
  intros [Hi Ho Hg Hc] Hb Hi' He Hc'. constructor; [done| |by apply (huge_besides st)|done].
  by apply (others_empties self st w _ _ c); [apply Hi|..].
Qed.

(** [foldLive] and the shared counts are nobody's places. *)
Definition besides_counts (st : alloc) :=
  (al_heap st, al_words st, al_region st, al_next st, al_class st, al_active st, al_caches st, al_gone st, al_huge st,
   al_shadow st, al_mem st, al_tick st).

Lemma heap_inv_counts st st' w : besides_counts st' = besides_counts st -> heap_inv st w -> heap_inv st' w.
Proof. unfold heap_inv, slots. by intros [= -> -> -> -> -> -> _ _ _ -> -> _]. Qed.

Lemma unseen_counts st st' w : besides_counts st' = besides_counts st -> unseen st w st' w.
Proof.
  intros [= E1 E2 E3 E4 E5 E6 E7 E8 E9 E10 E11 E12].
  constructor; try done; [by apply grown_same|by rewrite E10|intros r s _; by rewrite E2|intros; by left| | |by rewrite E12|by rewrite E9|by apply regions_marks].
  { intros base size. by rewrite E9. }
  intros t. left. unfold calls, ownCache. by rewrite E7.
Qed.

Lemma work_counts self k k' st st' w :
  besides_counts st' = besides_counts st -> tc_alloc k' = tc_alloc k -> tc_release k' = tc_release k ->
  work self k st w -> work self k' st' w.
Proof.
  intros Hb Ea Er [Hi Ho Hg Hc]. pose proof Hb as Hb'. injection Hb' as E1 E2 E3 E4 E5 E6 E7 E8 E9 E10 E11 E12.
  pose proof (proj1 Hi) as Hs. constructor.
  - by apply (heap_inv_counts st).
  - intros t k0 Hne. unfold ownCache. rewrite E7. intros Hk. destruct (Ho t k0 Hne Hk).
    split; [by apply (cache_frame_same st)|apply (room_frame st w); [done|by apply grown_same|done]].
  - apply (huge_ok_frame st); [by apply grown_same|done|by rewrite E10|done].
  - apply (cache_frame_same st); [done|done|done|]. destruct Hc as [A R B O]. constructor; rewrite ?Ea, ?Er; done.
Qed.

Lemma work_flush self c k st w k' st' :
  work self k st w -> flushReleases k c false st = (k', st') ->
  k' = tc_with_release k c [] /\ exists w', work self k' st' w' /\ unseen st w st' w' /\ flushes self c w w'.
Proof.
  intros Hw. unfold flushReleases. destruct (flushFrom _ _ _ _ _ _) as [bytes st1] eqn:E. intros [= <- <-]. split; [done|].
  pose proof (flushFrom_marks _ _ _ _ _ _ _ _ E) as Hmk.
  apply (inv_flushFrom self) with (w := w) in E as (Hb & Hg & Hp & _ & w' & Hi' & He & Hl); [|apply Hw|apply (wk_cache _ _ _ _ Hw)].
  assert (Hc : besides_counts (if negb (bytes =? 0) then gain c bytes (addQuarantine bytes st1) else st1) = besides_counts st1)
    by (by destruct (negb _)).
  pose proof (flushes_empties _ _ _ _ He) as He'.
  exists w'. split_and!; [|eapply unseen_trans; [by eapply unseen_empties|by apply unseen_counts]|done].
  eapply work_counts; [exact Hc|reflexivity|reflexivity|].
  eapply work_emptied; [exact Hw|done|done|exact He'|].
  eapply (cache_emptied self c st w _ _ k); [apply (wk_heap _ _ _ _ Hw)|done|done|apply (wk_cache _ _ _ _ Hw)|..]; cbn.
  - intros c' Hne. by rewrite setAt_ne.
  - right. split; [done|]. intros r s u Hh. destruct (He r s) as [->|[? ?]]; [done|congruence].
  - left. apply setAt_eq.
Qed.

Lemma work_return self c k st w k' st' :
  work self k st w -> returnSlots k c false st = (k', st') ->
  k' = tc_with_alloc k c [] /\ exists w', work self k' st' w' /\ unseen st w st' w' /\ returns self c w w'.
Proof.
  intros Hw [= <- <-]. split; [done|].
  destruct (inv_returnFrom self c (tc_alloc k c) st w _ (wk_heap _ _ _ _ Hw) (ca_alloc _ _ _ _ (wk_cache _ _ _ _ Hw) c) eq_refl)
    as (Hb & Hg & Hp & w' & Hi' & He & Hl).
  pose proof (returns_empties _ _ _ _ He) as He'.
  exists w'. split_and!; [|eapply unseen_empties; try done; exact (returnSlots_marks k c false st)|done].
  eapply work_emptied; [exact Hw|done|done|exact He'|].
  eapply (cache_emptied self c st w _ _ k); [apply (wk_heap _ _ _ _ Hw)|done|done|apply (wk_cache _ _ _ _ Hw)|..]; cbn.
  - intros c' Hne. by rewrite setAt_ne.
  - left. apply setAt_eq.
  - right. split; [done|]. intros r s Hh. destruct (He r s) as [->|[[u ?] ?]]; [done|congruence].
Qed.

(** What a cache keeps beside its lists. *)
Definition tc_rest (k : ThreadCache) := (tc_depth k, tc_locks k, tc_deferred k).

Lemma flush_heap self c k st k' st' w :
  work self k st w -> flushReleases k c false st = (k', st') -> al_heap st' = al_heap st /\ al_caches st' = al_caches st.
Proof.
  intros Hw. unfold flushReleases. destruct (flushFrom _ _ _ _ _ _) as [bytes st1] eqn:E. intros [= _ <-].
  apply (inv_flushFrom self) with (w := w) in E as (Hb & _); [|apply Hw|apply (wk_cache _ _ _ _ Hw)].
  injection Hb as E1 E2 E3 E4 E5 E6 E7 E8 E9 E10. by destruct (negb _).
Qed.

Lemma return_heap self c k st k' st' w :
  work self k st w -> returnSlots k c false st = (k', st') -> al_heap st' = al_heap st /\ al_caches st' = al_caches st.
Proof.
  intros Hw [= _ <-].
  destruct (inv_returnFrom self c (tc_alloc k c) st w _ (wk_heap _ _ _ _ Hw) (ca_alloc _ _ _ _ (wk_cache _ _ _ _ Hw) c) eq_refl)
    as (Hb & _). by injection Hb as E1 E2 E3 E4 E5 E6 E7 E8 E9 E10.
Qed.

Lemma work_drainFrom self n : forall c k st w k' st',
  work self k st w -> drainFrom n c k false st = (k', st') ->
  (exists w', work self k' st' w' /\ unseen st w st' w')
  /\ tc_rest k' = tc_rest k
  /\ (forall c', if decide (c <= c' < c + Z.of_nat n) then tc_alloc k' c' = [] /\ tc_release k' c' = []
            else tc_alloc k' c' = tc_alloc k c' /\ tc_release k' c' = tc_release k c')
  /\ al_heap st' = al_heap st /\ al_caches st' = al_caches st.
Proof.
  induction n as [|n IH]; intros c k st w k' st' Hw; cbn [drainFrom].
  { intros [= <- <-]. split_and!; try done; [exists w; split; [done|apply unseen_refl]|].
    intros c'. case_decide; [lia|done]. }
  destruct (flushReleases k c false st) as [k1 st1] eqn:E1.
  pose proof (flush_heap _ _ _ _ _ _ _ Hw E1) as [Hh1 Hc1].
  apply (work_flush self c k st w) in E1 as (-> & w1 & Hw1 & Hu1 & Hf1); [|done].
  destruct (returnSlots (tc_with_release k c []) c false st1) as [k2 st2] eqn:E2.
  pose proof (return_heap _ _ _ _ _ _ _ Hw1 E2) as [Hh2 Hc2].
  apply (work_return self c _ st1 w1) in E2 as (-> & w2 & Hw2 & Hu2 & Hf2); [|done].
  intros Hd. apply (IH _ _ _ w2) in Hd as ((w' & Hw' & Hu') & Hr & Hl & Hh & Hc); [|done].
  split_and!; [exists w'; split; [done|]|rewrite Hr; done| |congruence|congruence].
  - eapply unseen_trans; [exact Hu1|]. by eapply unseen_trans.
  - intros c'. specialize (Hl c'). cbn in Hl. repeat case_decide; try lia; [done| |].
    + assert (c' = c) as -> by lia. by rewrite !setAt_eq in Hl.
    + by rewrite !setAt_ne in Hl by lia.
Qed.

Lemma foldLive_counts k st k' st' :
  foldLive k st = (k', st') -> besides_counts st' = besides_counts st /\ tc_alloc k' = tc_alloc k /\ tc_release k' = tc_release k
  /\ tc_rest k' = tc_rest k.
Proof. unfold foldLive. intros [= <- <-]. by destruct (negb _). Qed.

(** A cache drained: it is empty. *)
Lemma work_drainCache self k st w k' st' :
  work self k st w -> drainCache k false st = (k', st') ->
  (exists w', work self k' st' w' /\ unseen st w st' w')
  /\ tc_rest k' = tc_rest k /\ (forall c, tc_alloc k' c = [] /\ tc_release k' c = [])
  /\ al_heap st' = al_heap st /\ al_caches st' = al_caches st.
Proof.
  intros Hw. unfold drainCache. destruct (drainFrom _ _ _ _ _) as [k1 st1] eqn:E. intros Hf.
  apply (work_drainFrom self _ _ _ _ w) in E as ((w1 & Hw1 & Hu1) & Hr & Hl & Hh & Hc); [|done].
  apply foldLive_counts in Hf as (Hb & Ea & Er & Hr'). pose proof Hb as Hb'. injection Hb' as E1 _ _ _ _ _ E7 _ _ _ _ _.
  split_and!; [exists w1; split| | | |]; try congruence.
  - by apply (work_counts self k1 _ st1).
  - eapply unseen_trans; [done|]. by apply unseen_counts.
  - intros c. rewrite Ea, Er. specialize (Hl c). case_decide as Ed; [done|]. destruct Hl as [-> ->].
    apply (ca_outside _ _ _ _ (wk_cache _ _ _ _ Hw)). 
    pose proof (cachedClasses_spec st w (proj1 (wk_heap _ _ _ _ Hw))) as [? _]. lia.
Qed.

Lemma cacheLimit_bounds st w c :
  slots st w -> 0 <= c < h_classes (al_heap st) -> 1 <= cacheLimit st c <= CacheSlots.
Proof.
  intros Hs Hc. pose proof (regions_range _ _ Hs). unfold cacheLimit, CacheSlots, slotBytesOf.
  destruct (capacity_of _ (so_heap _ _ _ _ _ _ _ Hs) c ltac:(lia)) as (_ & Hz & _).
  pose proof (Z.div_pos CacheBytes (c_size (entryOf (al_heap st) c)) ltac:(done) ltac:(lia)).
  destruct (Z.eqb_spec (CacheBytes / c_size (entryOf (al_heap st) c)) 0); [lia|]. case_match; lia.
Qed.

Lemma room_empty st w k : slots st w -> (forall c, tc_release k c = []) -> room st k.
Proof.
  intros Hs He c Hc. rewrite He. pose proof (cachedClasses_spec _ _ Hs) as [? _].
  pose proof (cacheLimit_bounds st w c Hs ltac:(lia)). cbn. lia.
Qed.

(** The own cache emptied into the shared lists. *)
Lemma inv_weavecRtFlushThread self st w :
  alloc_inv st w ->
  (exists w', alloc_inv (weavecRtFlushThread self st) w' /\ unseen st w (weavecRtFlushThread self st) w')
  /\ al_heap (weavecRtFlushThread self st) = al_heap st.
Proof.
  intros Hi. unfold weavecRtFlushThread. destruct (ownCache self st) as [k|] eqn:Ek.
  2:{ split; [exists w; split; [done|apply unseen_refl]|done]. }
  destruct (drainCache k false st) as [k' st'] eqn:E.
  pose proof (work_start _ _ _ _ Hi Ek) as Hw.
  apply (work_drainCache self _ _ w) in E as ((w' & Hw' & Hu') & Hr & Hl & Hh & Hc); [|done].
  split; [|done]. exists w'. split.
  - apply work_end; [done|]. apply (room_empty _ w'); [apply (wk_heap _ _ _ _ Hw')|apply Hl].
  - eapply unseen_trans; [exact Hu'|]. constructor; try done; [intros; by left|].
    intros t. left. rewrite calls_set. case_decide; [subst t|done]. 
    assert (Ek' : ownCache self st' = Some k) by (unfold ownCache; by rewrite Hc).
    unfold calls. rewrite Ek'. cbn. f_equal. exact Hr.
Qed.

(** A new cache is empty. *)
Lemma inv_threadCache self st w res st' :
  alloc_inv st w -> threadCache self st = (res, st') ->
  alloc_inv st' w /\ unseen st w st' w /\ (res = None \/ ownCache self st' = res)
  /\ (ownCache self st <> None -> st' = st) /\ al_heap st' = al_heap st /\ al_words st' = al_words st
  /\ al_class st' = al_class st.
Proof.
  intros Hi. unfold threadCache. destruct (ownCache self st) as [k|] eqn:Ek.
  { intros [= <- <-]. split_and!; try done; [apply unseen_refl|by right]. }
  assert (Htick : forall n st1, st1 = set_tick st n -> (al_tick st <= n)%nat -> alloc_inv st1 w /\ unseen st w st1 w).
  { intros n st1 -> Hn. destruct Hi as (Hh & Hc & Hg). split; [split_and!|]; try done.
    - intros t k Hk. destruct (Hc t k Hk). split; [by apply (cache_frame_same st); [apply Hh|..]|].
      by apply (room_frame st w); [apply Hh|by apply grown_same|].
    - constructor; try done; [intros; by left|by left]. }
  destruct (existsb _ _).
  { intros [= <- <-]. split_and!; try done; [apply unseen_refl|by left]. }
  unfold makeCache, ask. destruct (sys_map _ _ _); cbn [al_tick set_tick].
  2:{ intros [= <- <-]. destruct (Htick (S (al_tick st)) _ eq_refl ltac:(lia)). split_and!; try done. by left. }
  destruct (Htick (S (S (al_tick st))) _ eq_refl ltac:(lia)) as [Hi2 Hu2].
  destruct (sys_ok _); intros [= <- <-]; [|split_and!; try done; by left].
  destruct Hi2 as (Hh2 & Hc2 & Hg2). 
  assert (Hnil : forall c, tc_release emptyCache c = []) by done.
  split_and!; try done.
  - split_and!; [done| |done]. intros t k. unfold ownCache. cbn.
    destruct (Nat.eqb_spec self t) as [<-|Hne].
    + intros [= <-]. split; [|by apply (room_empty _ w); [apply Hh2|]]. constructor; intros c; cbn; [apply own_nil..| |done].
      intros Hc. pose proof (proj1 Hh2) as Hs2. pose proof (cachedClasses_spec _ _ Hs2) as [Hcc _].
      pose proof (cacheLimit_bounds st w c (proj1 (proj1 Hi)) ltac:(cbn in *; lia)). cbn. change (cacheLimit _ c) with (cacheLimit st c). lia.
    + intros Hk. destruct (Hc2 t k Hk). split; [by apply (cache_frame_same (set_tick st (S (S (al_tick st))))); [apply Hh2|..]|].
      by apply (room_frame (set_tick st (S (S (al_tick st)))) w); [apply Hh2|by apply grown_same|].
  - eapply unseen_trans; [exact Hu2|]. constructor; try done; [intros; by left|].
    intros t. unfold calls, ownCache. cbn. destruct (Nat.eqb_spec self t) as [<-|Hne]; [|by left].
    right. split; [|done]. unfold ownCache in Ek. by rewrite Ek.
  - right. unfold ownCache. cbn. by rewrite Nat.eqb_refl.
Qed.
End Caches.
