(* ===== verification/MarkFacts.v ===== *)
(** * Marking

    The marks of the file Sweep: a pass over words changes nothing but marks,
    and it is one fold of [markAddress] over the words the live blocks hold; a
    quarantined slot is marked exactly when one of the words points into it. *)

From S2P Require Import Prelude Shadow Classes Heap HugeBlocks Sweep HeapFacts PopFacts.
Local Open Scope Z_scope.

(** All but the marks. *)
Definition besides_marks (st : alloc) :=
  (al_heap st, al_words st, al_next st, al_class st, al_active st, al_gained st, al_caches st, al_gone st,
   al_pace st, al_shadow st, al_mem st, al_stats st, al_sweeps st, al_tick st).

(** Whether a slot is marked. *)
Definition marked (st : alloc) (r s : Z) : bool :=
  match marks (al_region st r) with Some bits => bits s | None => false end.

(** A block with its mark perhaps set. *)
Definition marked_from (b b' : HugeBlock) : Prop :=
  b' = b \/ b' = mkHuge (hb_base b) (hb_size b) (hb_map b) (hb_mapBytes b) (hb_dead b) true.

Record marking (st st' : alloc) : Prop := {
  mk_besides : besides_marks st' = besides_marks st;
  mk_region : forall r, exists m, al_region st' r = with_marks (al_region st r) m
                /\ (m = None <-> marks (al_region st r) = None);
  mk_more : forall r s, marked st r s = true -> marked st' r s = true;
  mk_blocks : Forall2 marked_from (ht_blocks (al_huge st)) (ht_blocks (al_huge st'));
  mk_table : al_huge st' = ht_with_blocks (al_huge st) (ht_blocks (al_huge st'))
}.

Lemma with_marks_same rs : with_marks rs (marks rs) = rs.
Proof. by destruct rs. Qed.

Lemma marking_refl st : marking st st.
Proof.
  constructor; try done.
  - intros r. exists (marks (al_region st r)). by rewrite with_marks_same.
  - apply list.Forall2_same_length_lookup_2; [done|]. intros i b b' E1 E2. left. congruence.
  - by destruct st as [? ? ? ? ? ? ? ? ? ? []].
Qed.

Lemma marking_trans st st' st'' : marking st st' -> marking st' st'' -> marking st st''.
Proof.
  intros [A1 A2 A3 A4 A5] [B1 B2 B3 B4 B5]. constructor; [congruence| |auto| |].
  - intros r. destruct (A2 r) as (m & E1 & H1), (B2 r) as (m' & E2 & H2). exists m'. rewrite E2, E1. split; [done|].
    rewrite H2, E1. cbn. done.
  - clear - A4 B4. revert B4. generalize (ht_blocks (al_huge st'')).
    induction A4 as [|b b' l l' Hb _ IH]; intros l'' H; inversion H as [|? b'' ? ? Hb']; subst; constructor; [|by apply IH].
    destruct Hb as [->| ->], Hb' as [->| ->]; cbn; [by left|by right|by right|by right].
  - rewrite B5, A5. cbn. unfold ht_with_blocks. cbn. done.
Qed.

(** Slot [s] of region [r] answers for the address. *)
Definition answers (h : heap) (v r s : Z) : Prop :=
  inArena h v = true /\ ref_region (slotOf h v) = r /\ ref_slot (slotOf h v) = s.

Lemma markAddress_marking st v : marking st (markAddress st v).
Proof.
  unfold markAddress. destruct (inArena (al_heap st) v).
  - destruct (marks _) as [q|] eqn:Eq; [|apply marking_refl]. destruct (_ =? 0); [apply marking_refl|].
    destruct (_ =? WeavecRtDead); [|apply marking_refl].
    change (marks (al_region st (ref_region (slotOf (al_heap st) v))) = Some q) in Eq.
    set (r := ref_region (slotOf (al_heap st) v)) in *. set (s := ref_slot (slotOf (al_heap st) v)).
    clearbody r s.
    constructor; try done.
    + intros r'. cbn. rewrite setAt_cases. case_decide; [subst r'; eexists; split; [done|]; by rewrite Eq|].
      exists (marks (al_region st r')). by rewrite with_marks_same.
    + intros r' s'. unfold marked. cbn. rewrite setAt_cases. case_decide; [subst r'|done]. rewrite Eq. cbn.
      rewrite setAt_cases. by case_decide.
    + apply (mk_blocks _ _ (marking_refl st)).
    + apply (mk_table _ _ (marking_refl st)).
  - destruct (_ && _); [|apply marking_refl]. destruct (_ && _) eqn:Ec; [|apply marking_refl].
    set (i := Z.to_nat _). constructor; try done.
    + apply (mk_region _ _ (marking_refl st)).
    + unfold markHugeAt. cbn. apply list.Forall2_same_length_lookup_2; [by rewrite length_insert|].
      intros j b b' E1 E2. rewrite list_lookup_insert in E2. case_decide as Ej; [|left; congruence].
      destruct Ej as [<- Hj]. injection E2 as <-. right. unfold hugeAt. by rewrite (nth_lookup_Some _ _ _ _ E1).
Qed.

(** What a word marks. *)
Lemma markAddress_only st v r s :
  marked (markAddress st v) r s = true ->
  marked st r s = true
  \/ (answers (al_heap st) v r s /\ wordState (al_words st r s) = WeavecRtDead
      /\ deadHead (al_region st (wrap32 (Z.shiftr (sub64 v (h_base (al_heap st))) (h_shift (al_heap st))))) <> 0).
Proof.
  unfold markAddress. destruct (inArena (al_heap st) v) eqn:Ea.
  - destruct (marks _) as [q|] eqn:Eq; [|by left].
    destruct (Z.eqb_spec (deadHead (al_region st (wrap32 (Z.shiftr (sub64 v (h_base (al_heap st))) (h_shift (al_heap st)))))) 0); [by left|].
    destruct (Z.eqb_spec (wordState (wordOf st (slotOf (al_heap st) v))) WeavecRtDead) as [Hd|]; [|by left].
    change (marks (al_region st (ref_region (slotOf (al_heap st) v))) = Some q) in Eq.
    unfold wordOf in Hd. unfold answers.
    remember (ref_region (slotOf (al_heap st) v)) as r0 eqn:Hr0. remember (ref_slot (slotOf (al_heap st) v)) as s0 eqn:Hs0.
    unfold marked at 1. cbn. rewrite setAt_cases. case_decide as Er; [|by left]. subst r. cbn. rewrite setAt_cases.
    case_decide as Es; [subst s|intros Hb; left; unfold marked; by rewrite Eq].
    intros _. right. done.
  - by repeat case_match; left.
Qed.

Lemma wordState_of_queued size word : word_ok size word Queued -> wordState word = WeavecRtDead.
Proof.
  intros (v & Hv & ->). unfold CachedDead in Hv. apply makeWord_state; [lia|vm_compute; intuition congruence].
Qed.

(** A region with a quarantined slot has a quarantine. *)
Lemma queued_head st w r s :
  slots st w -> 0 <= r < 160 -> 0 <= s -> w r s = Queued -> deadHead (al_region st r) <> 0.
Proof.
  intros Hs Hr Hs0 Hw. pose proof (so_region _ _ _ _ _ _ _ Hs r Hr) as Hro.
  destruct (ro_dead _ _ _ _ _ Hro) as (l & Hl & _). intros E. rewrite E in Hl.
  destruct l as [|x l]; [|destruct (li_chain _ _ _ _ _ Hl); lia].
  assert (Hin : s ∈ []) by (by apply (li_elem _ _ _ _ _ Hl)). by apply elem_of_nil in Hin.
Qed.

(** The region of an address, the quick way. *)
Lemma quick_region h v :
  heap_ok h -> wrap32 (Z.shiftr (sub64 v (h_base h)) (h_shift h)) = ref_region (slotOf h v).
Proof. done. Qed.

(** A word that points into a quarantined slot marks it. *)
Lemma markAddress_hits st w v r s :
  slots st w -> 0 <= r < 160 -> 0 <= s -> w r s = Queued -> marks (al_region st r) <> None ->
  in_slot (al_heap st) r s v -> marked (markAddress st v) r s = true.
Proof.
  intros Hs Hr Hs0 Hw Hm Hin. pose proof (so_heap _ _ _ _ _ _ _ Hs) as Hh.
  destruct (slots_bound _ _ _ _ _ _ _ Hs r s Hr Hs0) as [Hb _]; [by rewrite Hw|].
  destruct (in_slot_look _ Hh r s v Hr ltac:(lia) Hin) as [Ha Hso].
  pose proof (queued_head st w r s Hs Hr Hs0 Hw) as Hd.
  unfold markAddress. rewrite Ha. change (wrap32 _) with (ref_region (slotOf (al_heap st) v)). rewrite Hso. cbn [ref_region ref_slot].
  destruct (marks (al_region st r)) as [bits|] eqn:Em; [|done].
  rewrite (proj2 (Z.eqb_neq _ 0)) by done. unfold wordOf. cbn [ref_region ref_slot].
  rewrite (wordState_of_queued (c_size (entryOf (al_heap st) r))) by
    (rewrite <- Hw; by apply (ro_words _ _ _ _ _ (so_region _ _ _ _ _ _ _ Hs r Hr))).
  cbn. unfold marked. cbn. rewrite setAt_eq. cbn. apply setAt_eq.
Qed.

(** ** A pass over words *)

Definition markAll (st : alloc) (vs : list Z) : alloc := foldl markAddress st vs.

Lemma markAll_marking vs : forall st, marking st (markAll st vs).
Proof.
  induction vs as [|v vs IH]; intros st; [apply marking_refl|]. cbn.
  eapply marking_trans; [apply markAddress_marking|apply IH].
Qed.

(** New marks are nobody's places. *)
Lemma heap_inv_marks st st' w :
  (al_heap st', al_words st', al_next st', al_class st', al_active st', al_shadow st', al_mem st')
  = (al_heap st, al_words st, al_next st, al_class st, al_active st, al_shadow st, al_mem st) ->
  (forall r, exists m, al_region st' r = with_marks (al_region st r) m) -> heap_inv st w -> heap_inv st' w.
Proof.
  intros [= E1 E2 E3 E4 E5 E6 E7] R [Hs Hb]. split.
  - destruct Hs as [S1 S2 S3 S4 S5 S6 S7 S8].
    constructor; rewrite ?E1, ?E3, ?E4, ?E5; try done. intros r Hr. destruct (R r) as (m & ->). rewrite E2.
    apply region_marks. by apply S8.
  - rewrite E1, E2, E6, E7. destruct Hb as [B1 B2 B3 B4 B5 B6 B7]. constructor; try done. intros r a Hr.
    destruct (R r) as (m & ->). by apply B6.
Qed.

Lemma marking_heap st st' w : marking st st' -> heap_inv st w -> heap_inv st' w.
Proof.
  intros M. pose proof (mk_besides _ _ M) as B. injection B as E1 E2 E3 E4 E5 E6 E7 E8 E9 E10 E11 E12 E13 E14.
  apply heap_inv_marks; [congruence|]. intros r. destruct (mk_region _ _ M r) as (m & E & _). eauto.
Qed.

(** Every quarantined slot a word points into is marked. *)
Lemma markAll_hits vs : forall st w v r s,
  heap_inv st w -> 0 <= r < 160 -> 0 <= s -> w r s = Queued -> marks (al_region st r) <> None -> v ∈ vs ->
  in_slot (al_heap st) r s v -> marked (markAll st vs) r s = true.
Proof.
  induction vs as [|v0 vs IH]; intros st w v r s Hs Hr Hs0 Hw Hm Hv Hin; [by apply elem_of_nil in Hv|].
  cbn [markAll foldl]. apply elem_of_cons in Hv as [->|Hv].
  - apply (mk_more _ _ (markAll_marking vs _)). by apply (markAddress_hits st w); [apply Hs|..].
  - pose proof (markAddress_marking st v0) as M. pose proof (mk_besides _ _ M) as B.
    apply (IH _ w v); try done; [by apply (marking_heap st)| |].
    + destruct (mk_region _ _ M r) as (m & -> & Hmn). cbn. rewrite Hmn. done.
    + by injection B as -> _ _ _ _ _ _ _ _ _ _ _ _ _.
Qed.

(** And only those. *)
Lemma markAll_only vs : forall st r s,
  marked (markAll st vs) r s = true ->
  marked st r s = true
  \/ exists v, v ∈ vs /\ answers (al_heap st) v r s /\ wordState (al_words st r s) = WeavecRtDead
       /\ deadHead (al_region st r) <> 0.
Proof.
  induction vs as [|v0 vs IH]; intros st r s Hm; [by left|]. cbn [markAll foldl] in Hm.
  apply IH in Hm as [Hm|(v & Hv & Ha & Hw & Hd)].
  - apply markAddress_only in Hm as [?|(Ha & Hw & Hd)]; [by left|right]. exists v0. split; [left|].
    split_and!; try done. destruct Ha as (_ & <- & _). exact Hd.
  - right. exists v. split; [by right|]. pose proof (markAddress_marking st v0) as M. pose proof (mk_besides _ _ M) as B.
    injection B as E1 E2 _ _ _ _ _ _ _ _ _ _ _ _. rewrite E1 in Ha. rewrite E2 in Hw.
    destruct (mk_region _ _ M r) as (m & E & _). rewrite E in Hd. done.
Qed.

(** *** The words of the heap *)

(** The words of the live objects of [n] slots from [slot] on. *)
Fixpoint slotWordsFrom (n : nat) (region slot : Z) (st : alloc) : list Z :=
  match n with
  | O => []
  | S n' =>
    let word := al_words st region slot in
    (if wordState word =? WeavecRtLive
     then wordsIn (al_mem st) (slotBase st region slot) (slotBase st region slot + weavecRtWordValue word) else [])
    ++ slotWordsFrom n' region (slot + 1) st
  end.

Fixpoint regionWordsFrom (n : nat) (region : Z) (st : alloc) : list Z :=
  match n with
  | O => []
  | S n' => slotWordsFrom (Z.to_nat (bump (al_region st region))) region 0 st ++ regionWordsFrom n' (region + 1) st
  end.

Fixpoint hugeWordsFrom (n i : nat) (st : alloc) : list Z :=
  match n with
  | O => []
  | S n' =>
    let block := hugeAt (ht_blocks (al_huge st)) i in
    (if hb_dead block =? 0 then wordsIn (al_mem st) (hb_base block) (hb_base block + hb_size block) else [])
    ++ hugeWordsFrom n' (S i) st
  end.

Definition heapWords (st : alloc) : list Z :=
  regionWordsFrom (Z.to_nat (h_regions (al_heap st))) 0 st ++ hugeWordsFrom (length (ht_blocks (al_huge st))) 0 st.

Lemma markWords_fold st0 st low high :
  marking st0 st -> weavecRtMarkWords st low high = markAll st (wordsIn (al_mem st0) low high).
Proof.
  intros M. pose proof (mk_besides _ _ M) as B. injection B as _ _ _ _ _ _ _ _ _ _ E _ _ _.
  unfold weavecRtMarkWords. by rewrite E.
Qed.

Lemma markSlotsFrom_fold st0 region n : forall slot st,
  marking st0 st -> markSlotsFrom n region slot st = markAll st (slotWordsFrom n region slot st0).
Proof.
  induction n as [|n IH]; intros slot st M; [done|]. cbn [markSlotsFrom slotWordsFrom].
  pose proof (mk_besides _ _ M) as B. injection B as E1 E2 _ _ _ _ _ _ _ _ E3 _ _ _.
  unfold markAll. rewrite foldl_app. unfold slotBase, slotBytesOf. rewrite E2, E1. destruct (_ =? WeavecRtLive).
  - rewrite (markWords_fold st0 st) by done. apply IH. eapply marking_trans; [exact M|apply markAll_marking].
  - by apply IH.
Qed.

Lemma markRegionsFrom_fold st0 n : forall region st,
  marking st0 st -> markRegionsFrom n region st = markAll st (regionWordsFrom n region st0).
Proof.
  induction n as [|n IH]; intros region st M; [done|]. cbn [markRegionsFrom regionWordsFrom].
  unfold markAll. rewrite foldl_app. unfold weavecRtMarkSlots. rewrite Z.sub_0_r.
  destruct (mk_region _ _ M region) as (m & E & _). rewrite E. cbn [with_marks bump].
  rewrite (markSlotsFrom_fold st0) by done. apply IH. eapply marking_trans; [exact M|apply markAll_marking].
Qed.

Lemma marking_hugeAt st0 st i :
  marking st0 st -> let b := hugeAt (ht_blocks (al_huge st0)) i in let b' := hugeAt (ht_blocks (al_huge st)) i in
  hb_dead b' = hb_dead b /\ hb_base b' = hb_base b /\ hb_size b' = hb_size b.
Proof.
  intros M. cbv zeta. unfold hugeAt. rewrite !nth_lookup.
  pose proof (mk_blocks _ _ M) as HB. destruct (ht_blocks (al_huge st0) !! i) as [b|] eqn:E.
  - destruct (Forall2_lookup_l _ _ _ _ _ HB E) as (b' & -> & [->| ->]); done.
  - apply lookup_ge_None_1 in E. rewrite (Forall2_length HB) in E. by rewrite (lookup_ge_None_2 _ _ E).
Qed.

Lemma markHugeFrom_fold st0 n : forall i st,
  marking st0 st -> markHugeFrom n i st = markAll st (hugeWordsFrom n i st0).
Proof.
  induction n as [|n IH]; intros i st M; [done|]. cbn [markHugeFrom hugeWordsFrom].
  unfold markAll. rewrite foldl_app. destruct (marking_hugeAt _ _ i M) as (-> & -> & ->).
  destruct (_ =? 0).
  - rewrite (markWords_fold st0 st) by done. apply IH. eapply marking_trans; [exact M|apply markAll_marking].
  - by apply IH.
Qed.

(** The marking of the heap is one pass over its words. *)
Lemma markHeap_fold st0 st : marking st0 st -> weavecRtMarkHeap st = markAll st (heapWords st0).
Proof.
  intros M. pose proof (mk_besides _ _ M) as B. injection B as E1 _ _ _ _ _ _ _ _ _ _ _ _ _.
  unfold weavecRtMarkHeap, heapWords, weavecRtMarkHuge. unfold markAll. rewrite foldl_app. rewrite E1.
  rewrite (markRegionsFrom_fold st0) by done. set (st1 := markAll st _).
  assert (M1 : marking st0 st1) by (eapply marking_trans; [exact M|apply markAll_marking]).
  rewrite (markHugeFrom_fold st0) by done. by rewrite <- (Forall2_length (mk_blocks _ _ M1)).
Qed.

Lemma wordsFrom_elem mem n : forall word v,
  v ∈ wordsFrom n mem word <-> exists i, 0 <= i < Z.of_nat n /\ v = load_le mem (word + 8 * i) 8.
Proof.
  induction n as [|n IH]; intros word v; cbn [wordsFrom].
  { split; [by intros ?%elem_of_nil|intros (i & Hi & _); lia]. }
  rewrite elem_of_cons, IH. split.
  - intros [->|(i & Hi & ->)]; [exists 0; split; [lia|f_equal; lia]|exists (i + 1); split; [lia|f_equal; lia]].
  - intros (i & Hi & ->). destruct (decide (i = 0)) as [->|]; [left; f_equal; lia|right].
    exists (i - 1). split; [lia|f_equal; lia].
Qed.

Lemma wordsIn_elem mem low size v :
  0 <= low -> low mod 8 = 0 -> 0 <= size -> low + size < 2 ^ 63 ->
  v ∈ wordsIn mem low (low + size) <-> exists i, 0 <= i /\ 8 * i + 8 <= size /\ v = load_le mem (low + 8 * i) 8.
Proof.
  intros Hl Hm Hs Hb. unfold wordsIn, add64. rewrite wrap64_small by lia.
  assert (E7 : forall x, Z.land x (Z.lnot 7) = x / 8 * 8) by (intros x; exact (land_lnot_ones x 3 ltac:(lia))).
  rewrite !E7. replace ((low + 7) / 8 * 8) with low by (clear - Hm; euclid).
  rewrite wordsFrom_elem. split; intros (i & Hi & H); exists i.
  - split; [lia|]. split; [|done]. assert (Z.of_nat (Z.to_nat (((low + size) / 8 * 8 - low) / 8)) = ((low + size) / 8 * 8 - low) / 8)
      by (apply Z2Nat.id; euclid). euclid.
  - destruct H as [H1 H2]. split; [|done]. rewrite Z2Nat.id by euclid. euclid.
Qed.

Lemma slotWordsFrom_elem st region v n : forall slot,
  v ∈ slotWordsFrom n region slot st <->
  exists s, slot <= s < slot + Z.of_nat n /\ wordState (al_words st region s) = WeavecRtLive
    /\ v ∈ wordsIn (al_mem st) (slotBase st region s) (slotBase st region s + weavecRtWordValue (al_words st region s)).
Proof.
  induction n as [|n IH]; intros slot; cbn [slotWordsFrom].
  { split; [by intros ?%elem_of_nil|intros (s & Hs & _); lia]. }
  rewrite list.elem_of_app, IH. split.
  - intros [Hv|(s & Hs & H)]; [|exists s; split; [lia|done]].
    destruct (Z.eqb_spec (wordState (al_words st region slot)) WeavecRtLive); [|by apply elem_of_nil in Hv].
    exists slot. split_and!; (done || lia).
  - intros (s & Hs & H1 & H2). destruct (decide (s = slot)) as [->|]; [left; by rewrite H1|right].
    exists s. split; [lia|done].
Qed.

Lemma regionWordsFrom_elem st v n : forall region,
  v ∈ regionWordsFrom n region st <->
  exists r, region <= r < region + Z.of_nat n /\ v ∈ slotWordsFrom (Z.to_nat (bump (al_region st r))) r 0 st.
Proof.
  induction n as [|n IH]; intros region; cbn [regionWordsFrom].
  { split; [by intros ?%elem_of_nil|intros (s & Hs & _); lia]. }
  rewrite list.elem_of_app, IH. split.
  - intros [Hv|(s & Hs & H)]; [exists region; split; [lia|done]|exists s; split; [lia|done]].
  - intros (s & Hs & H). destruct (decide (s = region)) as [->|]; [by left|right]. exists s. split; [lia|done].
Qed.

Lemma hugeWordsFrom_elem st v n : forall i,
  v ∈ hugeWordsFrom n i st <->
  exists j, (i <= j < i + n)%nat /\ hb_dead (hugeAt (ht_blocks (al_huge st)) j) = 0
    /\ v ∈ wordsIn (al_mem st) (hb_base (hugeAt (ht_blocks (al_huge st)) j))
             (hb_base (hugeAt (ht_blocks (al_huge st)) j) + hb_size (hugeAt (ht_blocks (al_huge st)) j)).
Proof.
  induction n as [|n IH]; intros i; cbn [hugeWordsFrom].
  { split; [by intros ?%elem_of_nil|intros (s & Hs & _); lia]. }
  rewrite list.elem_of_app, IH. split.
  - intros [Hv|(s & Hs & H)]; [|exists s; split; [lia|done]].
    destruct (Z.eqb_spec (hb_dead (hugeAt (ht_blocks (al_huge st)) i)) 0); [|by apply elem_of_nil in Hv].
    exists i. split_and!; (done || lia).
  - intros (s & Hs & H1 & H2). destruct (decide (s = i)) as [->|]; [left; by rewrite H1|right].
    exists s. split; [lia|done].
Qed.

Lemma live_word size word p :
  word_ok size word p -> 0 < size <= 2 ^ 30 -> wordState word = WeavecRtLive <-> p = Live.
Proof.
  intros Hw Hsz. unfold WeavecRtLive.
  assert (Hs : forall v s, 0 <= v < 2 ^ 30 -> 0 <= s < 4 -> word = makeWord v s -> wordState word = s)
    by (intros v s Hv Hs ->; by apply makeWord_state).
  assert (H0 : word = 0 -> wordState word = 0) by (by intros ->).
  assert (HC : CachedDead = 2 ^ 30 - 1) by done.
  destruct p as [ | | | |[]|? ? []|]; cbn in Hw;
    try (specialize (H0 Hw); split; [lia|done]);
    try (destruct Hw as (n & Hn & E)).
  - specialize (Hs n 1 ltac:(lia) ltac:(lia) E). split; [done|lia].
  - specialize (Hs n 2 ltac:(lia) ltac:(lia) E). split; [lia|done].
  - specialize (Hs n 3 ltac:(lia) ltac:(lia) E). split; [lia|done].
  - specialize (Hs n 2 ltac:(lia) ltac:(lia) E). split; [lia|done].
  - specialize (Hs n 2 ltac:(lia) ltac:(lia) E). split; [lia|done].
  - specialize (Hs CachedDead 3 ltac:(lia) ltac:(lia) Hw). split; [lia|done].
Qed.

(** The size of a live slot's object. *)
Lemma live_size st w r s :
  slots st w -> 0 <= r < 160 -> 0 <= s -> w r s = Live ->
  al_words st r s = makeWord (weavecRtWordValue (al_words st r s)) WeavecRtLive
  /\ 0 <= weavecRtWordValue (al_words st r s) < c_size (entryOf (al_heap st) r).
Proof.
  intros Hs Hr Hs0 Hw. pose proof (so_region _ _ _ _ _ _ _ Hs r Hr) as Hro.
  pose proof (ro_words _ _ _ _ _ Hro s Hs0) as Hk. rewrite Hw in Hk. destruct Hk as (n & Hn & ->).
  destruct (capacity_of _ (so_heap _ _ _ _ _ _ _ Hs) r Hr) as (_ & Hz & _ & _ & _).
  rewrite makeWord_value; [done|lia|vm_compute; intuition congruence].
Qed.

(** The words a sweep scans in the heap are its live objects' words. *)
Lemma heapWords_elem st w v :
  alloc_inv st w -> v ∈ heapWords st <-> heap_word st w v.
Proof.
  intros (Hi & _ & Ht & Hg). pose proof (window_room _ (bs_wf _ _ _ _ _ _ (proj2 Hi))) as Hroom.
  pose proof (window_split _ (bs_wf _ _ _ _ _ _ (proj2 Hi))) as Hsplit. pose proof (proj1 Hi) as Hs. pose proof (so_heap _ _ _ _ _ _ _ Hs) as Hh.
  pose proof (regions_range _ _ Hs) as Hrr.
  assert (Hlive : forall r s, 0 <= r < 160 -> 0 <= s -> w r s = Live ->
            0 <= slotBase st r s /\ slotBase st r s mod 8 = 0 /\ 0 <= weavecRtWordValue (al_words st r s)
            /\ slotBase st r s + weavecRtWordValue (al_words st r s) < 2 ^ 63).
  { intros r s Hr Hs0 Hw. destruct (live_size st w r s Hs Hr Hs0 Hw) as [_ Hsz].
    destruct (slots_bound _ _ _ _ _ _ _ Hs r s Hr Hs0) as [Hb _]; [by rewrite Hw|].
    destruct (slot_bounds _ Hh r s Hr ltac:(lia)) as (H1 & H2 & H3).
    destruct (arena_bounds _ Hh r Hr) as (H4 & _ & H5 & _). 
    change (slotBase st r s) with (slotStart (al_heap st) r s). split_and!; try lia. clear - H2. euclid. }
  assert (Hhuge : forall b, b ∈ ht_blocks (al_huge st) ->
            0 <= hb_base b /\ hb_base b mod 8 = 0 /\ 0 <= hb_size b /\ hb_base b + hb_size b < 2 ^ 63).
  { intros b Hb. destruct (proj1 (list.Forall_forall _ _) Hg b Hb) as [A1 A2 A3 A4 A5].
    split_and!; [lia|clear - A2; euclid|done|clear - A4 Hroom Hsplit; euclid]. }
  unfold heapWords, heap_word. rewrite list.elem_of_app, regionWordsFrom_elem, hugeWordsFrom_elem. split.
  - intros [(r & Hr & Hv)|(j & Hj & Hd & Hv)].
    + apply slotWordsFrom_elem in Hv as (s & Hsr & Hst & Hv). rewrite Z2Nat.id in Hr by lia.
      pose proof (so_region _ _ _ _ _ _ _ Hs r ltac:(lia)) as Hro. pose proof (ro_bump _ _ _ _ _ Hro) as Hbp.
      destruct (capacity_of _ Hh r ltac:(lia)) as (_ & Hz & _).
      apply (live_word _ _ _ (ro_words _ _ _ _ _ Hro s ltac:(lia)) Hz) in Hst.
      destruct (Hlive r s ltac:(lia) ltac:(lia) Hst) as (L1 & L2 & L3 & L4).
      apply wordsIn_elem in Hv as (i & Hi0 & Hi1 & ->); try done. left. exists r, s, i. split_and!; (done || lia).
    + assert (Hb : hugeAt (ht_blocks (al_huge st)) j ∈ ht_blocks (al_huge st))
        by (eapply list_elem_of_lookup_2, hugeAt_lookup; lia).
      destruct (Hhuge _ Hb) as (L1 & L2 & L3 & L4).
      apply wordsIn_elem in Hv as (i & Hi0 & Hi1 & ->); try done. right. eexists _, i. split_and!; [exact Hb|..]; done.
  - intros [(r & s & i & Hr & Hs0 & Hw & Hi0 & Hi1 & ->)|(b & i & Hb & Hd & Hi0 & Hi1 & ->)].
    + left. exists r. rewrite Z2Nat.id by lia. split; [lia|]. apply slotWordsFrom_elem. exists s.
      destruct (slots_bound _ _ _ _ _ _ _ Hs r s ltac:(lia) Hs0) as [Hb _]; [by rewrite Hw|].
      pose proof (so_region _ _ _ _ _ _ _ Hs r ltac:(lia)) as Hro.
      destruct (capacity_of _ Hh r ltac:(lia)) as (_ & Hz & _).
      destruct (Hlive r s ltac:(lia) Hs0 Hw) as (L1 & L2 & L3 & L4).
      split_and!; [lia|lia|by apply (live_word _ _ _ (ro_words _ _ _ _ _ Hro s Hs0) Hz)|].
      apply wordsIn_elem; try done. eauto.
    + right. apply list_elem_of_lookup in Hb as [j Hj]. exists j.
      assert (E : hugeAt (ht_blocks (al_huge st)) j = b) by (unfold hugeAt; by rewrite (nth_lookup_Some _ _ _ _ Hj)).
      apply lookup_lt_Some in Hj as Hlt. rewrite E. split_and!; [lia|lia|done|].
      destruct (Hhuge b) as (L1 & L2 & L3 & L4); [by eapply list_elem_of_lookup_2|]. apply wordsIn_elem; try done. eauto.
Qed.

(** A word that answers for a quarantined slot points into it. *)
Lemma answers_in_slot st w v r s :
  slots st w -> 0 <= r < 160 -> 0 <= s -> w r s = Queued -> 0 <= v < 2 ^ 64 -> answers (al_heap st) v r s ->
  in_slot (al_heap st) r s v.
Proof.
  intros Hs Hr Hs0 Hw Hv (Ha & E1 & E2). pose proof (so_heap _ _ _ _ _ _ _ Hs) as Hh.
  destruct (slots_bound _ _ _ _ _ _ _ Hs r s Hr Hs0) as [Hb _]; [by rewrite Hw|].
  destruct (slotOf_within _ Hh v Ha Hv) as (_ & H1 & H2 & _).
  assert (E3 : ref_base (slotOf (al_heap st) v) = slotStart (al_heap st) r s) by (unfold slotStart; rewrite <- E1, <- E2; done).
  rewrite E1, E3 in *. unfold in_slot. split; [lia|]. apply H2. lia.
Qed.

Lemma heap_word_range st w v : (forall a, 0 <= al_mem st a < 256) -> heap_word st w v -> 0 <= v < 2 ^ 64.
Proof. intros Hm [(? & ? & ? & _ & _ & _ & _ & _ & ->)|(? & ? & _ & _ & _ & _ & ->)]; by apply (load_le_range _ _ 8). Qed.

(** The slot that answers for a word, whatever the word, is one of a region. *)
Lemma answers_slot h v r s : heap_ok h -> answers h v r s -> 0 <= r < 160 /\ 0 <= s.
Proof.
  intros Hh (Ha & <- & <-).
  assert (E : sub64 (v mod 2 ^ 64) (h_base h) = sub64 v (h_base h)) by (unfold sub64, wrap64; apply Zminus_mod_idemp_l).
  assert (Es : slotOf h v = slotOf h (v mod 2 ^ 64)) by (unfold slotOf; by rewrite E).
  unfold inArena in Ha. rewrite <- E in Ha. rewrite Es.
  destruct (slotOf_within h Hh (v mod 2 ^ 64) Ha ltac:(apply Z.mod_pos_bound; lia)) as (H1 & _ & _ & H2 & _).
  split; [done|lia].
Qed.

(** A slot whose word says released was handed out. *)
Lemma dead_word_bump st w r s :
  slots st w -> 0 <= r < 160 -> 0 <= s -> wordState (al_words st r s) = WeavecRtDead -> s < bump (al_region st r).
Proof.
  intros Hs Hr Hs0 Hd. apply (slots_bound _ _ _ _ _ _ _ Hs r s Hr Hs0). intros E.
  pose proof (ro_words _ _ _ _ _ (so_region _ _ _ _ _ _ _ Hs r Hr) s Hs0) as Hw. rewrite E in Hw. cbn in Hw.
  by rewrite Hw in Hd.
Qed.
