(* ===== verification/SweepWork.v ===== *)
(** * The mark in parallel

    [runtime/weavec_sweep.c], "Mark workers", and [weavecRtHeapWork] of
    [runtime/weavec_alloc.c]: a large sweep lists its ranges first, and runs of
    slots of each region; then the sweeping thread and the workers take the
    items one by one ([takeWork]) and mark from the words of each
    ([markAddress], whose bits are set atomically).  A step relation says how
    they interleave, down to one address.  The theorem: however they do, the
    marks are those of the pass of one thread ([weavecRtMarkHeap] after the
    roots, in Sweep). *)

From stdpp Require Import list relations.
From S2P Require Import Prelude Shadow Classes Heap HugeBlocks Sweep HeapFacts PopFacts MarkFacts.
Local Open Scope Z_scope.

(** ** Listing *)

Definition MarkChunk : Z := 4 * 2 ^ 20.
Definition WorkSlots : nat := Z.to_nat (2 ^ 16).
Definition WordsWork : Z := 2 ^ 32 - 1.

(** The words of [[w_low, w_high)] when the region is [WordsWork]; else those
    slots of it. *)
Record Work := mkWork { w_low : Z; w_high : Z; w_region : Z }.

Definition markWork (item : Work) (st : alloc) : alloc :=
  if w_region item =? WordsWork then weavecRtMarkWords st (w_low item) (w_high item)
  else weavecRtMarkSlots (w_region item) (wrap32 (w_low item)) (wrap32 (w_high item)) st.

(** The list and the marks. *)
Definition listing : Type := list Work * alloc.

(** Lists an item, or marks it at once when the list is full. *)
Definition addWork (low high region : Z) (s : listing) : listing :=
  let '(work, st) := s in
  if (length work <? WorkSlots)%nat then (work ++ [mkWork low high region], st)
  else (work, markWork (mkWork low high region) st).

(** The chunks; each takes [MarkChunk] off the range. *)
Fixpoint markChunks (fuel : nat) (low high : Z) (s : listing) : listing :=
  match fuel with
  | O => s
  | S fuel' =>
    if high - low >? MarkChunk
    then markChunks fuel' (low + MarkChunk) high (addWork low (low + MarkChunk) WordsWork s)
    else if low <? high then addWork low high WordsWork s else s
  end.

Definition markRange (collecting : bool) (low high : Z) (s : listing) : listing :=
  if collecting then markChunks (S (Z.to_nat ((high - low) / MarkChunk))) low high s
  else (fst s, weavecRtMarkWords (snd s) low high).

(** The runs of [step] slots of one region; each takes a slot at least. *)
Fixpoint addRuns (fuel : nat) (region first bump step : Z) (s : listing) : listing :=
  match fuel with
  | O => s
  | S fuel' =>
    if first <? bump
    then addRuns fuel' region (wrap32 (first + step)) bump step
           (addWork first (if bump - first >? step then first + step else bump) region s)
    else s
  end.

Definition runStep (size chunk : Z) : Z := if size >=? chunk then 1 else chunk / size.

Fixpoint addRegions (n : nat) (region chunk : Z) (s : listing) : listing :=
  match n with
  | O => s
  | S n' =>
    let size := c_size (entryOf (al_heap (snd s)) region) in
    let bump := bump (al_region (snd s) region) in
    addRegions n' (region + 1) chunk (addRuns (S (Z.to_nat bump)) region 0 bump (runStep size chunk) s)
  end.

Definition weavecRtHeapWork (chunk : Z) (s : listing) : listing :=
  addRegions (Z.to_nat (h_regions (al_heap (snd s)))) 0 chunk s.

(** ** The markers *)

(** What an item marks from. *)
Definition itemWords (st : alloc) (item : Work) : list Z :=
  if w_region item =? WordsWork then wordsIn (al_mem st) (w_low item) (w_high item)
  else slotWordsFrom (Z.to_nat (wrap32 (w_high item) - wrap32 (w_low item))) (w_region item) (wrap32 (w_low item)) st.

(** The next item to take; for each marker (the sweeping thread and the
    workers) the words left of its item; the state they mark. *)
Record markers := mkMarkers { workNext : nat; left_of : list (list Z); ma_state : alloc }.

Inductive markStep (work : list Work) : markers -> markers -> Prop :=
  | mark_take m i item : left_of m !! i = Some [] -> work !! workNext m = Some item ->
      markStep work m (mkMarkers (S (workNext m)) (<[i := itemWords (ma_state m) item]> (left_of m)) (ma_state m))
  | mark_word m i v vs : left_of m !! i = Some (v :: vs) ->
      markStep work m (mkMarkers (workNext m) (<[i := vs]> (left_of m)) (markAddress (ma_state m) v)).

(** Every item taken, every marker done: [runWork] goes on. *)
Definition finished (work : list Work) (m : markers) : Prop :=
  (length work <= workNext m)%nat /\ Forall (fun l => l = []) (left_of m).

(** The sweep's mark, parallel: the roots' ranges listed, then the heap; the
    markers; and the huge blocks last. *)
Definition listAll (ranges : list (Z * Z)) (st : alloc) : listing :=
  weavecRtHeapWork MarkChunk (foldl (fun s r => markRange true (fst r) (snd r) s) ([], st) ranges).
Definition runWork (s : listing) (n : nat) : markers := mkMarkers 0 (replicate n []) (snd s).

(** By one thread. *)
Definition markAlone (ranges : list (Z * Z)) (st : alloc) : alloc :=
  weavecRtMarkHeap (foldl (fun st r => weavecRtMarkWords st (fst r) (snd r)) st ranges).

(** ** What an address marks *)

Inductive target :=
  | NoTarget
  | SlotTarget (region slot : Z)
  | HugeTarget (i : nat).

Definition targetOf (st : alloc) (v : Z) : target :=
  let h := al_heap st in
  if inArena h v then
    let ref := slotOf h v in
    match marks (al_region st (ref_region ref)) with
    | None => NoTarget
    | Some _ =>
      if deadHead (al_region st (ref_region ref)) =? 0 then NoTarget
      else if wordState (wordOf st ref) =? WeavecRtDead then SlotTarget (ref_region ref) (ref_slot ref) else NoTarget
    end
  else
    let t := al_huge st in
    if negb (ht_deadCount t =? 0) && (ht_low t <=? v) && (v <? ht_high t) then
      let i := hugeIndex (ht_blocks t) v in
      let block := hugeAt (ht_blocks t) (Z.to_nat i) in
      if (0 <=? i) && negb (hb_dead block =? 0) && (v <? hb_map block + hb_mapBytes block) then HugeTarget (Z.to_nat i) else NoTarget
    else NoTarget.

Lemma markAddress_slot st v r s :
  marked (markAddress st v) r s = true <-> marked st r s = true \/ targetOf st v = SlotTarget r s.
Proof.
  unfold markAddress, targetOf. destruct (inArena (al_heap st) v).
  - change (wrap32 _) with (ref_region (slotOf (al_heap st) v)).
    destruct (slotOf (al_heap st) v) as [r0 s0] eqn:E. cbn [ref_region ref_slot].
    destruct (marks (al_region st r0)) as [bits|] eqn:Em; [|naive_solver].
    destruct (_ =? 0); [naive_solver|]. destruct (_ =? WeavecRtDead); [|naive_solver].
    unfold marked at 1. cbn. rewrite setAt_cases. case_decide as Er.
    + subst r0. cbn. rewrite setAt_cases. unfold marked. rewrite Em. case_decide; naive_solver.
    + unfold marked. naive_solver.
  - repeat case_match; naive_solver.
Qed.

(** Whether the block of an index is marked. *)
Definition hugeMarked (st : alloc) (i : nat) : bool := hb_marked (hugeAt (ht_blocks (al_huge st)) i).

Lemma markAddress_huge st v i :
  hugeMarked (markAddress st v) i = true <->
  hugeMarked st i = true \/ (targetOf st v = HugeTarget i /\ (i < length (ht_blocks (al_huge st)))%nat).
Proof.
  unfold markAddress, targetOf. destruct (inArena (al_heap st) v).
  - change (wrap32 _) with (ref_region (slotOf (al_heap st) v)). repeat case_match; cbn; naive_solver.
  - destruct (_ && _); [|naive_solver]. destruct (_ && _); [|naive_solver]. set (j := Z.to_nat _).
    unfold hugeMarked, markHugeAt, hugeAt. cbn. rewrite !nth_lookup, list_lookup_insert. case_decide as Ei.
    + destruct Ei as [<- Hj]. cbn. naive_solver.
    + split; [by left|]. intros [?|[[= ->] Hi]]; [done|]. destruct Ei. done.
Qed.

(** A pass leaves the targets as they are. *)
Lemma marking_searches st st' :
  marking st st' -> forall v, hugeIndex (ht_blocks (al_huge st')) v = hugeIndex (ht_blocks (al_huge st)) v.
Proof.
  intros M v. unfold hugeIndex. pose proof (mk_blocks _ _ M) as HB. rewrite <- (Forall2_length HB). f_equal. f_equal.
  remember (S (length (ht_blocks (al_huge st)))) as fuel eqn:Ef. clear Ef. generalize 0%nat, (length (ht_blocks (al_huge st))).
  induction fuel as [|fuel IH]; intros low high; cbn [hugeSearch]; [done|]. destruct (_ <? _)%nat; [|done].
  assert (Hm : hb_map (hugeAt (ht_blocks (al_huge st')) (low + (high - low) / 2)) = hb_map (hugeAt (ht_blocks (al_huge st)) (low + (high - low) / 2))).
  { unfold hugeAt. rewrite !nth_lookup. destruct (ht_blocks (al_huge st) !! _) as [b|] eqn:E.
    - destruct (Forall2_lookup_l _ _ _ _ _ HB E) as (b' & -> & [->| ->]); done.
    - apply lookup_ge_None_1 in E. rewrite (Forall2_length HB) in E. by rewrite (lookup_ge_None_2 _ _ E). }
  rewrite Hm. destruct (_ <=? _); apply IH.
Qed.

Lemma marking_block st st' i :
  marking st st' -> let b := hugeAt (ht_blocks (al_huge st)) i in let b' := hugeAt (ht_blocks (al_huge st')) i in b' = b \/ marked_from b b'.
Proof.
  intros M. cbn zeta. pose proof (mk_blocks _ _ M) as HB. unfold hugeAt. rewrite !nth_lookup. destruct (ht_blocks (al_huge st) !! i) as [b|] eqn:E.
  - destruct (Forall2_lookup_l _ _ _ _ _ HB E) as (b' & -> & Hb). by right.
  - apply lookup_ge_None_1 in E. rewrite (Forall2_length HB) in E. rewrite (lookup_ge_None_2 _ _ E). by left.
Qed.

Lemma marking_target st st' v : marking st st' -> targetOf st' v = targetOf st v.
Proof.
  intros M. pose proof (mk_besides _ _ M) as B. injection B as E1 E2 _ _ _ _ _ _ _ _ _ _ _ _.
  unfold targetOf, wordOf. rewrite E1, E2. rewrite (marking_searches st st' M). destruct (inArena (al_heap st) v).
  - destruct (slotOf (al_heap st) v) as [r s]. cbn [ref_region ref_slot]. destruct (mk_region _ _ M r) as (m & -> & Hm). cbn [with_marks marks deadHead].
    destruct m, (marks (al_region st r)) as [bits|]; try (exfalso; destruct Hm as [X Y]; first [discriminate (X eq_refl)|discriminate (Y eq_refl)]); reflexivity.
  - pose proof (mk_table _ _ M) as T. assert (ht_deadCount (al_huge st') = ht_deadCount (al_huge st) /\ ht_low (al_huge st') = ht_low (al_huge st) /\ ht_high (al_huge st') = ht_high (al_huge st)) as (-> & -> & ->)
      by (rewrite T; done).
    set (i := Z.to_nat _). assert (Hb : hb_dead (hugeAt (ht_blocks (al_huge st')) i) = hb_dead (hugeAt (ht_blocks (al_huge st)) i)
      /\ hb_map (hugeAt (ht_blocks (al_huge st')) i) = hb_map (hugeAt (ht_blocks (al_huge st)) i)
      /\ hb_mapBytes (hugeAt (ht_blocks (al_huge st')) i) = hb_mapBytes (hugeAt (ht_blocks (al_huge st)) i))
      by (destruct (marking_block st st' i M) as [->|[->| ->]]; done).
    destruct Hb as (-> & -> & ->). done.
Qed.

Lemma marking_table_length st st' : marking st st' -> length (ht_blocks (al_huge st')) = length (ht_blocks (al_huge st)).
Proof. intros M. symmetry. apply (Forall2_length (mk_blocks _ _ M)). Qed.

Lemma markAll_app st vs vs' : markAll st (vs ++ vs') = markAll (markAll st vs) vs'.
Proof. apply foldl_app. Qed.

(** What a pass marks is a set. *)
Lemma markAll_slot vs : forall st r s,
  marked (markAll st vs) r s = true <-> marked st r s = true \/ exists v, v ∈ vs /\ targetOf st v = SlotTarget r s.
Proof.
  induction vs as [|v vs IH]; intros st r s; cbn [markAll foldl]; [set_solver|].
  change (foldl markAddress (markAddress st v) vs) with (markAll (markAddress st v) vs). rewrite IH, markAddress_slot.
  setoid_rewrite (marking_target _ _ _ (markAddress_marking st v)). setoid_rewrite elem_of_cons. naive_solver.
Qed.

Lemma markAll_huge vs : forall st i,
  hugeMarked (markAll st vs) i = true <->
  hugeMarked st i = true \/ (exists v, v ∈ vs /\ targetOf st v = HugeTarget i) /\ (i < length (ht_blocks (al_huge st)))%nat.
Proof.
  induction vs as [|v vs IH]; intros st i; cbn [markAll foldl]; [set_solver|].
  change (foldl markAddress (markAddress st v) vs) with (markAll (markAddress st v) vs). rewrite IH, markAddress_huge.
  rewrite (marking_table_length _ _ (markAddress_marking st v)).
  setoid_rewrite (marking_target _ _ _ (markAddress_marking st v)). setoid_rewrite elem_of_cons. naive_solver.
Qed.

(** Two states that differ in nothing that can be read. *)
Record same_state (st st' : alloc) : Prop := {
  sa_besides : besides_marks st' = besides_marks st;
  sa_region : forall r, with_marks (al_region st' r) None = with_marks (al_region st r) None
                 /\ (marks (al_region st' r) = None <-> marks (al_region st r) = None);
  sa_marked : forall r s, marked st' r s = marked st r s;
  sa_huge : al_huge st' = al_huge st
}.

Lemma marking_same st0 st st' :
  marking st0 st -> marking st0 st' -> (forall r s, marked st' r s = marked st r s) -> (forall i, hugeMarked st' i = hugeMarked st i) ->
  same_state st st'.
Proof.
  intros M M' Hm Hh. constructor.
  - by rewrite (mk_besides _ _ M), (mk_besides _ _ M').
  - intros r. destruct (mk_region _ _ M r) as (m & -> & E), (mk_region _ _ M' r) as (m' & -> & E'). cbn. split; [done|]. by rewrite E, E'.
  - done.
  - rewrite (mk_table _ _ M), (mk_table _ _ M'). f_equal. apply list_eq. intros i.
    pose proof (mk_blocks _ _ M) as HB. pose proof (mk_blocks _ _ M') as HB'. specialize (Hh i). unfold hugeMarked, hugeAt in Hh. rewrite !nth_lookup in Hh.
    destruct (ht_blocks (al_huge st0) !! i) as [b|] eqn:E.
    + destruct (Forall2_lookup_l _ _ _ _ _ HB E) as (b1 & E1 & Hb1), (Forall2_lookup_l _ _ _ _ _ HB' E) as (b2 & E2 & Hb2).
      rewrite E1, E2 in *. cbn in Hh. destruct Hb1 as [->| ->], Hb2 as [->| ->]; cbn in Hh; try done; destruct b; cbn in *; congruence.
    + apply lookup_ge_None_1 in E. rewrite !lookup_ge_None_2; [done|by rewrite (marking_table_length _ _ M)|by rewrite (marking_table_length _ _ M')].
Qed.

Lemma markAll_same vs vs' st : (forall v, v ∈ vs <-> v ∈ vs') -> same_state (markAll st vs) (markAll st vs').
Proof.
  intros Hv. apply (marking_same st); try apply markAll_marking.
  - intros r s. apply eq_true_iff_eq. rewrite !markAll_slot. setoid_rewrite Hv. done.
  - intros i. apply eq_true_iff_eq. rewrite !markAll_huge. setoid_rewrite Hv. done.
Qed.

(** *** The listing *)

Section Listing.
Context (st0 : alloc).

(** The items and the marks made so far come from the words [ws]. *)
Definition lists (s : listing) (P : Z -> Prop) : Prop :=
  exists done, snd s = markAll st0 done
    /\ forall v, P v <-> v ∈ done \/ exists item, item ∈ fst s /\ v ∈ itemWords st0 item.

Lemma markWork_fold item st : marking st0 st -> markWork item st = markAll st (itemWords st0 item).
Proof.
  intros M. unfold markWork, itemWords. destruct (_ =? _); [by apply markWords_fold|]. by apply markSlotsFrom_fold.
Qed.

Lemma addWork_lists low high region s P :
  lists s P -> lists (addWork low high region s) (fun v => P v \/ v ∈ itemWords st0 (mkWork low high region)).
Proof.
  intros (d & Hst & HP). destruct s as [work st]. cbn [fst snd] in *. unfold addWork, lists. destruct (_ <? _)%nat; cbn [fst snd].
  - exists d. split; [done|]. intros v. rewrite HP. setoid_rewrite list.elem_of_app. setoid_rewrite list_elem_of_singleton. naive_solver.
  - exists (d ++ itemWords st0 (mkWork low high region)). split.
    + rewrite markWork_fold by (subst st; apply markAll_marking). subst st. unfold markAll. by rewrite foldl_app.
    + intros v. rewrite HP, list.elem_of_app. naive_solver.
Qed.

Lemma lists_iff s P Q : (forall v, P v <-> Q v) -> lists s P -> lists s Q.
Proof. intros H (d & ? & HP). exists d. split; [done|]. intros v. by rewrite <- H. Qed.

(** A range cut at an aligned address. *)
Lemma wordsIn_cut mem low m high v :
  0 <= low -> low mod 8 = 0 -> low <= m -> m mod 8 = 0 -> m <= high -> high < 2 ^ 63 ->
  v ∈ wordsIn mem low high <-> v ∈ wordsIn mem low m \/ v ∈ wordsIn mem m high.
Proof.
  intros Hl Hml Hlm Hmm Hmh Hh.
  replace high with (low + (high - low)) at 1 by lia. replace m with (low + (m - low)) at 1 by lia. replace high with (m + (high - m)) at 2 by lia.
  rewrite !wordsIn_elem by lia. split.
  - intros (i & Hi & Hb & ->). destruct (Z.le_gt_cases (8 * i + 8) (m - low)); [left; exists i; split_and!; (done || lia)|right].
    exists (i - (m - low) / 8). assert (Hd : m - low = 8 * ((m - low) / 8)) by (apply Z_div_exact_full_2; [lia|]; rewrite Zminus_mod, Hmm, Hml; done).
    split_and!; [lia|lia|f_equal; lia].
  - intros [(i & Hi & Hb & ->)|(i & Hi & Hb & ->)]; [exists i; split_and!; (done || lia)|].
    exists ((m - low) / 8 + i). assert (Hd : m - low = 8 * ((m - low) / 8)) by (apply Z_div_exact_full_2; [lia|]; rewrite Zminus_mod, Hmm, Hml; done).
    split_and!; [lia|lia|f_equal; lia].
Qed.

Lemma wordsIn_none mem low high v : 0 <= low < 2 ^ 63 -> high <= low -> ~ v ∈ wordsIn mem low high.
Proof.
  intros Hl Hh Hv. unfold wordsIn, add64 in Hv. rewrite wrap64_small in Hv by lia.
  assert (E7 : forall x, Z.land x (Z.lnot 7) = x / 8 * 8) by (intros x; exact (land_lnot_ones x 3 ltac:(lia))).
  rewrite !E7 in Hv. replace (Z.to_nat _) with O in Hv by euclid. by apply elem_of_nil in Hv.
Qed.

Lemma markChunks_lists fuel : forall low high s P,
  0 <= low < 2 ^ 63 -> low mod 8 = 0 -> high < 2 ^ 63 -> high - low < Z.of_nat fuel * MarkChunk -> lists s P ->
  lists (markChunks fuel low high s) (fun v => P v \/ v ∈ wordsIn (al_mem st0) low high).
Proof.
  unfold MarkChunk. induction fuel as [|fuel IH]; intros low high s P Hl Ha Hh Hf Hs; cbn [markChunks].
  { eapply lists_iff; [|exact Hs]. intros v. pose proof (wordsIn_none (al_mem st0) low high v Hl ltac:(lia)). tauto. }
  unfold MarkChunk. rewrite Z.gtb_ltb. destruct (Z.ltb_spec (4 * 2 ^ 20) (high - low)) as [Hc|Hc].
  - eapply lists_iff; [|apply IH; [lia|rewrite Zplus_mod, Ha; done|done|lia|by apply addWork_lists]].
    intros v. cbn beta. unfold itemWords. cbn [w_region w_low w_high]. rewrite Z.eqb_refl.
    rewrite (wordsIn_cut (al_mem st0) low (low + 4 * 2 ^ 20) high) by (try lia; rewrite Zplus_mod, Ha; done). tauto.
  - destruct (Z.ltb_spec low high).
    + eapply lists_iff; [|by apply addWork_lists]. intros v. unfold itemWords. cbn [w_region w_low w_high]. by rewrite Z.eqb_refl.
    + eapply lists_iff; [|exact Hs]. intros v. pose proof (wordsIn_none (al_mem st0) low high v Hl ltac:(lia)). tauto.
Qed.

Lemma markRange_lists low high s P :
  0 <= low < 2 ^ 63 -> low mod 8 = 0 -> high < 2 ^ 63 -> lists s P ->
  lists (markRange true low high s) (fun v => P v \/ v ∈ wordsIn (al_mem st0) low high).
Proof.
  intros Hl Ha Hh Hs. apply markChunks_lists; try done. unfold MarkChunk.
  destruct (Z.le_gt_cases low high); [|lia].
  rewrite Nat2Z.inj_succ, Z2Nat.id by (apply Z.div_pos; lia). pose proof (Z.mul_succ_div_gt (high - low) (4 * 2 ^ 20)). lia.
Qed.

Lemma wrap32_small x : 0 <= x < 2 ^ 32 -> wrap32 x = x.
Proof. apply Z.mod_small. Qed.

Lemma addRuns_lists fuel : forall region first bump step s P,
  0 <= region < 160 -> 0 <= first <= 2 ^ 28 -> 0 <= bump <= 2 ^ 27 -> 1 <= step <= 2 ^ 27 -> bump - first < Z.of_nat fuel -> lists s P ->
  lists (addRuns fuel region first bump step s) (fun v => P v \/ v ∈ slotWordsFrom (Z.to_nat (bump - first)) region first st0).
Proof.
  induction fuel as [|fuel IH]; intros region first bump step s P Hr Hfi Hb Hst Hf Hs; cbn [addRuns].
  { eapply lists_iff; [|exact Hs]. intros v. replace (Z.to_nat (bump - first)) with O by lia. cbn [slotWordsFrom]. rewrite elem_of_nil. tauto. }
  destruct (Z.ltb_spec first bump).
  - rewrite wrap32_small by lia. eapply lists_iff; [|apply IH; [lia|lia|lia|lia|lia|by apply addWork_lists]].
    intros v. cbn beta. unfold itemWords. cbn [w_region w_low w_high]. rewrite (proj2 (Z.eqb_neq region WordsWork)) by (unfold WordsWork; lia).
    set (last := if bump - first >? step then first + step else bump).
    assert (Hlast : first <= last <= bump /\ (last = first + step \/ last = bump /\ bump <= first + step)) by (subst last; rewrite Z.gtb_ltb; bool_cases; lia).
    clearbody last. rewrite !wrap32_small by lia. rewrite !slotWordsFrom_elem.
    split; [intros [[Hp|(x & Hx & Hw)]|(x & Hx & Hw)]|intros [Hp|(x & Hx & Hw)]]; try tauto; try (right; exists x; split; [lia|done]).
    destruct (Z.lt_ge_cases x last); [left; right|right]; exists x; (split; [lia|done]).
  - eapply lists_iff; [|exact Hs]. intros v. replace (Z.to_nat (bump - first)) with O by lia. cbn [slotWordsFrom]. rewrite elem_of_nil. tauto.
Qed.

(** The regions' slots are few and of some size. *)
Definition regions_ok : Prop :=
  0 <= h_regions (al_heap st0) <= 160
  /\ forall r, 0 <= r < 160 -> 0 < c_size (entryOf (al_heap st0) r) /\ 0 <= bump (al_region st0 r) <= 2 ^ 27.

Lemma runStep_range size : 0 < size -> 1 <= runStep size MarkChunk <= 2 ^ 27.
Proof.
  intros Hs. unfold runStep, MarkChunk. rewrite Z.geb_leb. destruct (Z.leb_spec (4 * 2 ^ 20) size); [lia|].
  split; [apply Z.div_le_lower_bound; lia|]. etrans; [apply Z.div_le_upper_bound with (q := 4 * 2 ^ 20); nia|lia].
Qed.

Lemma addRegions_lists n : forall region s P,
  regions_ok -> 0 <= region -> region + Z.of_nat n <= 160 -> lists s P ->
  lists (addRegions n region MarkChunk s) (fun v => P v \/ v ∈ regionWordsFrom n region st0).
Proof.
  induction n as [|n IH]; intros region s P Hok Hr Hn Hs; cbn [addRegions regionWordsFrom].
  { eapply lists_iff; [|exact Hs]. intros v. rewrite elem_of_nil. tauto. }
  assert (E : c_size (entryOf (al_heap (snd s)) region) = c_size (entryOf (al_heap st0) region) /\ bump (al_region (snd s) region) = bump (al_region st0 region)).
  { destruct Hs as (d & -> & _). pose proof (markAll_marking d st0) as M. pose proof (mk_besides _ _ M) as B. injection B as -> _ _ _ _ _ _ _ _ _ _ _ _ _.
    destruct (mk_region _ _ M region) as (m & -> & _). done. }
  destruct E as [-> ->]. destruct (proj2 Hok region ltac:(lia)) as [Hsz Hbump]. pose proof (runStep_range _ Hsz).
  eapply lists_iff; [|apply IH; [done|lia|lia|apply addRuns_lists; [lia|lia|lia|lia|lia|exact Hs]]].
  intros v. cbn beta. rewrite Z.sub_0_r, list.elem_of_app. tauto.
Qed.

(** The roots' ranges: aligned where they begin. *)
Definition ranges_ok (ranges : list (Z * Z)) : Prop :=
  Forall (fun r => 0 <= fst r < 2 ^ 63 /\ fst r mod 8 = 0 /\ snd r < 2 ^ 63) ranges.

Definition rootWords (ranges : list (Z * Z)) : list Z := concat (map (fun r => wordsIn (al_mem st0) (fst r) (snd r)) ranges).

Lemma ranges_lists ranges : forall s P,
  ranges_ok ranges -> lists s P ->
  lists (foldl (fun s r => markRange true (fst r) (snd r) s) s ranges) (fun v => P v \/ v ∈ rootWords ranges).
Proof.
  induction ranges as [|r ranges IH]; intros s P Hok Hs; cbn [foldl].
  { eapply lists_iff; [|exact Hs]. intros v. unfold rootWords. cbn. rewrite elem_of_nil. tauto. }
  apply list.Forall_cons in Hok as [(H1 & H2 & H3) Hok]. eapply lists_iff; [|apply IH; [done|by apply markRange_lists]].
  intros v. unfold rootWords. cbn [map concat]. rewrite list.elem_of_app. tauto.
Qed.

Lemma listAll_lists ranges :
  regions_ok -> ranges_ok ranges ->
  lists (listAll ranges st0) (fun v => v ∈ rootWords ranges \/ v ∈ regionWordsFrom (Z.to_nat (h_regions (al_heap st0))) 0 st0).
Proof.
  intros Hok Hr. unfold listAll, weavecRtHeapWork.
  assert (H0 : lists ([], st0) (fun _ => False)).
  { exists []. split; [done|]. intros v. cbn. setoid_rewrite elem_of_nil. naive_solver. }
  pose proof (ranges_lists ranges _ _ Hr H0) as Hs. set (s := foldl _ _ _) in *.
  assert (Eh : al_heap (snd s) = al_heap st0) by (destruct Hs as (d & -> & _); pose proof (mk_besides _ _ (markAll_marking d st0)) as B; by injection B as -> _ _ _ _ _ _ _ _ _ _ _ _ _).
  rewrite Eh. eapply lists_iff; [|apply addRegions_lists; [done|lia|destruct Hok; lia|exact Hs]]. intros v. cbn beta. tauto.
Qed.
End Listing.

(** *** The run *)

Lemma itemWords_marking st0 st item : marking st0 st -> itemWords st item = itemWords st0 item.
Proof.
  intros M. pose proof (mk_besides _ _ M) as B. injection B as E1 E2 _ _ _ _ _ _ _ _ E3 _ _ _.
  unfold itemWords. rewrite E3. destruct (_ =? _); [done|].
  generalize (wrap32 (w_low item)), (Z.to_nat (wrap32 (w_high item) - wrap32 (w_low item))). intros slot k. revert slot.
  induction k as [|k IH]; intros slot; cbn [slotWordsFrom]; [done|]. unfold slotBase, slotBytesOf. by rewrite E1, E2, E3, IH.
Qed.

Section Run.
Context (st0 : alloc) (work : list Work).

(** What is left to do: a step for each item, one for each word. *)
Definition wordsLeft (l : list (list Z)) : nat := length (concat l).
Definition itemsLeft (next : nat) : nat := sum_list (map (fun item => S (length (itemWords st0 item))) (drop next work)).
Definition stepsLeft (m : markers) : nat := (itemsLeft (workNext m) + wordsLeft (left_of m))%nat.

(** The words the markers hold. *)
Definition held (l : list (list Z)) (v : Z) : Prop := exists i vs, l !! i = Some vs /\ v ∈ vs.
Definition taken (next : nat) (v : Z) : Prop := exists k item, (k < next)%nat /\ work !! k = Some item /\ v ∈ itemWords st0 item.

Record running (st1 : alloc) (m : markers) : Prop := {
  ru_state : exists d, ma_state m = markAll st1 d /\ forall v, v ∈ d \/ held (left_of m) v <-> taken (workNext m) v
}.

Lemma held_insert l i vs vs' v : l !! i = Some vs -> held (<[i := vs']> l) v <-> v ∈ vs' \/ exists j us, j <> i /\ l !! j = Some us /\ v ∈ us.
Proof.
  intros Hi. pose proof (lookup_lt_Some _ _ _ Hi) as Hlen. unfold held. split.
  - intros (j & us & Hj & Hv). rewrite list_lookup_insert in Hj. case_decide as E; [left; destruct E as [<- _]; by injection Hj as ->|].
    right. exists j, us. split; [|done]. intros ->. by destruct E.
  - intros [Hv|(j & us & Hne & Hj & Hv)]; [exists i, vs'; by rewrite list_lookup_insert_eq|exists j, us; by rewrite list_lookup_insert_ne].
Qed.

Lemma held_split l i vs v : l !! i = Some vs -> held l v <-> v ∈ vs \/ exists j us, j <> i /\ l !! j = Some us /\ v ∈ us.
Proof. intros Hi. rewrite <- (held_insert l i vs vs v Hi). by rewrite list_insert_id. Qed.

Lemma wordsLeft_insert l i vs vs' : l !! i = Some vs -> (wordsLeft (<[i := vs']> l) + length vs = wordsLeft l + length vs')%nat.
Proof.
  intros Hi. unfold wordsLeft. rewrite (insert_take_drop _ _ _ (lookup_lt_Some _ _ _ Hi)).
  rewrite <- (take_drop_middle _ _ _ Hi) at 3. rewrite !concat_app. cbn [concat]. rewrite !length_app. lia.
Qed.

Lemma itemsLeft_take next item : work !! next = Some item -> itemsLeft next = (S (length (itemWords st0 item)) + itemsLeft (S next))%nat.
Proof. intros Hi. unfold itemsLeft. by rewrite (drop_S _ _ _ Hi). Qed.

Lemma step_running st1 m m' :
  marking st0 st1 -> running st1 m -> markStep work m m' -> running st1 m' /\ stepsLeft m = S (stepsLeft m').
Proof.
  intros M1 [(d & Hst & Hd)] Hs. assert (M : marking st0 (ma_state m)) by (rewrite Hst; eapply marking_trans; [exact M1|apply markAll_marking]).
  destruct Hs as [m i item Hi Hw|m i v vs Hi]; cbn [workNext left_of ma_state] in *.
  - split.
    + constructor. exists d. split; [done|]. intros x. cbn [left_of workNext]. rewrite (held_insert _ _ _ _ _ Hi), (itemWords_marking st0 (ma_state m)) by done.
      assert (Ht : taken (S (workNext m)) x <-> taken (workNext m) x \/ x ∈ itemWords st0 item).
      { unfold taken. split.
        - intros (k & it & Hk & Hit & Hx). destruct (decide (k = workNext m)) as [->|]; [right; congruence|left; exists k, it; split; [lia|done]].
        - intros [(k & it & Hk & Hit & Hx)|Hx]; [exists k, it; split; [lia|done]|exists (workNext m), item; split; [lia|done]]. }
      rewrite Ht, <- Hd, (held_split _ _ _ _ Hi), elem_of_nil. tauto.
    + unfold stepsLeft. cbn [workNext left_of]. rewrite (itemsLeft_take _ _ Hw), (itemWords_marking st0 (ma_state m)) by done.
      pose proof (wordsLeft_insert (left_of m) i [] (itemWords st0 item) Hi) as Hl. cbn in Hl. lia.
  - split.
    + constructor. exists (d ++ [v]). cbn [ma_state workNext left_of]. split; [rewrite Hst; unfold markAll; by rewrite foldl_app|].
      intros x. rewrite <- Hd, (held_insert _ _ _ _ _ Hi), (held_split _ _ _ _ Hi), list.elem_of_app, list_elem_of_singleton, elem_of_cons. tauto.
    + unfold stepsLeft. cbn [workNext left_of]. pose proof (wordsLeft_insert (left_of m) i (v :: vs) vs Hi) as Hl. cbn in Hl. lia.
Qed.

Lemma steps_running st1 m m' k :
  marking st0 st1 -> running st1 m -> nsteps (markStep work) k m m' -> running st1 m' /\ (k + stepsLeft m' = stepsLeft m)%nat.
Proof.
  intros M Hr Hn. induction Hn as [m|k m m1 m2 Hs _ IH]; [by split|]. destruct (step_running st1 m m1 M Hr Hs) as [H1 H2].
  destruct (IH H1) as [H3 H4]. split; [exact H3|lia].
Qed.

Lemma step_left m m' : markStep work m m' -> length (left_of m') = length (left_of m).
Proof. destruct 1; cbn; by rewrite length_insert. Qed.

Lemma progress m : (0 < length (left_of m))%nat -> finished work m \/ exists m', markStep work m m'.
Proof.
  intros Hn. destruct (decide (Forall (fun l => l = []) (left_of m))) as [Hall|Hsome].
  - destruct (decide (length work <= workNext m)%nat) as [|Hlt]; [by left|right].
    destruct (left_of m !! 0%nat) as [l|] eqn:E; [|apply lookup_ge_None_1 in E; lia].
    destruct (work !! workNext m) as [item|] eqn:Ew; [|apply lookup_ge_None_1 in Ew; lia].
    assert (l = []) as -> by (rewrite Forall_lookup in Hall; by eapply Hall). eexists. by eapply mark_take.
  - right. apply not_Forall_Exists in Hsome; [|apply _]. apply list.Exists_exists in Hsome as (l & Hl & Hne).
    apply list_elem_of_lookup in Hl as (i & Hi). destruct l as [|v vs]; [by destruct Hne|]. eexists. by eapply mark_word.
Qed.
End Run.

Lemma slots_regions st w : slots st w -> regions_ok st.
Proof.
  intros Hs. pose proof (so_heap _ _ _ _ _ _ _ Hs) as Hh. split; [pose proof (ho_counts _ Hh); lia|]. intros r Hr.
  destruct (capacity_of _ Hh r Hr) as (Hc & Hz & _). pose proof (ro_bump _ _ _ _ _ (so_region _ _ _ _ _ _ _ Hs r Hr)). lia.
Qed.

Lemma markAlone_fold ranges st : markAlone ranges st = markAll st (rootWords st ranges ++ heapWords st).
Proof.
  unfold markAlone. rewrite (markHeap_fold st).
  - unfold markAll. rewrite foldl_app. f_equal. unfold rootWords.
    assert (H : forall st', marking st st' -> foldl (fun s r => weavecRtMarkWords s (fst r) (snd r)) st' ranges
        = markAll st' (concat (map (fun r => wordsIn (al_mem st) (fst r) (snd r)) ranges))); [|apply H, marking_refl].
    induction ranges as [|r ranges IH]; intros st' M; cbn [foldl map concat]; [done|]. unfold markAll. rewrite foldl_app, (markWords_fold st) by done.
    apply IH. eapply marking_trans; [exact M|apply markAll_marking].
  - generalize (marking_refl st). generalize st at 2 4 as st'. induction ranges as [|r ranges IH]; intros st' M; cbn [foldl]; [done|].
    apply IH. rewrite (markWords_fold st) by done. eapply marking_trans; [exact M|apply markAll_marking].
Qed.

(** A run of the markers, by the steps it took. *)
Lemma run_marks st w ranges n k m :
  slots st w -> ranges_ok ranges ->
  nsteps (markStep (fst (listAll ranges st))) k (runWork (listAll ranges st) n) m ->
  (k <= stepsLeft st (fst (listAll ranges st)) (runWork (listAll ranges st) n))%nat
  /\ (finished (fst (listAll ranges st)) m -> same_state (markAlone ranges st) (weavecRtMarkHuge (ma_state m))).
Proof.
  intros Hs Hr Hk. pose proof (listAll_lists st ranges (slots_regions st w Hs) Hr) as (d0 & Hst & Hd0).
  destruct (listAll ranges st) as [work st1]. cbn [fst snd] in *. subst st1.
  assert (Hrun : running st work (markAll st d0) (runWork (work, markAll st d0) n)).
  { constructor. exists []. split; [done|]. intros v. cbn [left_of workNext runWork]. rewrite elem_of_nil. split.
    - intros [[]|(i & vs & Hi & Hv)]. rewrite lookup_replicate in Hi. destruct Hi as [-> _]. by apply elem_of_nil in Hv.
    - intros (j & item & Hj & _). lia. }
  destruct (steps_running st work _ _ _ k (markAll_marking d0 st) Hrun Hk) as [[(d & Hm & Hd)] Hsteps].
  split; [lia|].
  intros [Hnext Hall]. assert (M : marking st (ma_state m)) by (rewrite Hm; eapply marking_trans; apply markAll_marking).
  unfold weavecRtMarkHuge. rewrite (markHugeFrom_fold st) by done. rewrite markAlone_fold, (marking_table_length _ _ M), Hm.
  unfold heapWords. rewrite <- !markAll_app. apply markAll_same.
  intros v. specialize (Hd v). specialize (Hd0 v). rewrite !list.elem_of_app.
  assert (Hheld : ~ held (left_of m) v) by (intros (i & vs & Hi & Hv); rewrite Forall_lookup in Hall; rewrite (Hall i vs Hi) in Hv; by apply elem_of_nil in Hv).
  assert (Htaken : taken st work (workNext m) v <-> exists item, item ∈ work /\ v ∈ itemWords st item).
  { unfold taken. setoid_rewrite list_elem_of_lookup. split; [intros (j & item & _ & Hj & Hv); eauto|].
    intros (item & (j & Hj) & Hv). exists j, item. split; [apply lookup_lt_Some in Hj; lia|done]. }
  tauto.
Qed.

(** C14: with the ranges and the heap listed and one marker at least, however
    the markers take the items and interleave: they are never stuck before all
    is marked, they make so many steps and no more, and once they are done and
    the huge blocks marked from, the state is the one the pass of one thread
    gives (the same slots and huge blocks marked, all else untouched). *)
Theorem workers_same st w ranges n k m :
  slots st w -> ranges_ok ranges -> (0 < n)%nat ->
  nsteps (markStep (fst (listAll ranges st))) k (runWork (listAll ranges st) n) m ->
  (finished (fst (listAll ranges st)) m \/ exists m', markStep (fst (listAll ranges st)) m m')
  /\ (k <= stepsLeft st (fst (listAll ranges st)) (runWork (listAll ranges st) n))%nat
  /\ (finished (fst (listAll ranges st)) m -> same_state (markAlone ranges st) (weavecRtMarkHuge (ma_state m))).
Proof.
  intros Hs Hr Hn Hk. split; [|by eapply run_marks].
  apply progress. assert (Hlen : length (left_of m) = n); [|lia]. clear - Hk.
  assert (H : length (left_of m) = length (left_of (runWork (listAll ranges st) n))); [|rewrite H; apply length_replicate].
  revert Hk. generalize (runWork (listAll ranges st) n). intros m0 Hk. induction Hk as [|k m0 m1 m2 H1 _ IH]; [done|]. by rewrite IH, (step_left _ _ _ H1).
Qed.
