(* ===== verification/SweepFacts.v ===== *)
(** * A sweep recycles exactly what nothing points into

    The definitions of the file Sweep over the invariant of the file PopFacts:
    marking changes nothing but marks; a slot's mark is set exactly when a word
    points into it; recycling keeps every slot in one place, and a quarantined
    slot becomes free exactly when the roots and the words of the live blocks
    do not point into it. *)

From stdpp Require Import sorting.
From S2P Require Import Prelude Shadow Classes Heap HugeBlocks Sweep HeapFacts PopFacts CacheFacts MarkFacts.
Local Open Scope Z_scope.

(** ** Rebuilding a region's lists *)

(** A region whose slots from [n] on were looked at: the kept ones are listed
    from [keptHead]. *)
Record rebuilt (shift : Z) (e : size_class) (words : Z -> Z) (rs : RegionState) (w : Z -> place)
    (n keptHead : Z) (kept : list Z) : Prop := {
  rb_bump : 0 <= bump rs <= c_capacity e;
  rb_committed : bump rs * c_size e <= committed rs <= 2 ^ shift /\ committed rs mod 2 ^ 20 = 0;
  rb_fresh : forall s, 0 <= s -> w s = Fresh <-> bump rs <= s;
  rb_words : forall s, 0 <= s -> word_ok (c_size e) (words s) (w s);
  rb_free : exists l, listed words w (freeHead rs) Free l;
  rb_chain : chain words keptHead kept;
  rb_nodup : NoDup kept;
  rb_kept : forall s, s ∈ kept <-> n <= s /\ 0 <= s /\ w s = Queued;
  rb_tail : kept <> [] -> deadTail rs = tailOf kept
}.

Lemma queued_word size word p :
  word_ok size word p -> 0 < size <= 2 ^ 30 ->
  (wordState word =? WeavecRtDead) && negb (weavecRtWordValue word =? CachedDead) = true <-> p = Queued.
Proof.
  intros Hw Hsz. rewrite andb_true_iff, Z.eqb_eq, negb_true_iff, Z.eqb_neq.
  assert (Hs : forall v s, 0 <= v < 2 ^ 30 -> 0 <= s < 4 -> word = makeWord v s ->
            wordState word = s /\ weavecRtWordValue word = v)
    by (intros v s Hv Hs ->; by rewrite makeWord_state, makeWord_value).
  unfold WeavecRtDead. assert (HC : CachedDead = 2 ^ 30 - 1) by done.
  assert (H0 : word = 0 -> wordState word = 0) by (by intros ->).
  destruct p as [ | | | |[]|? ? []|]; cbn in Hw;
    try (specialize (H0 Hw); split; [lia|done]).
  - destruct Hw as (n & Hn & E). destruct (Hs n 1 ltac:(lia) ltac:(lia) E). split; [lia|done].
  - destruct Hw as (n & Hn & E). destruct (Hs n 2 ltac:(lia) ltac:(lia) E). split; [lia|done].
  - destruct Hw as (n & Hn & E). destruct (Hs n 3 ltac:(lia) ltac:(lia) E). split; [done|lia].
  - destruct Hw as (n & Hn & E). destruct (Hs n 2 ltac:(lia) ltac:(lia) E). split; [lia|done].
  - destruct Hw as (n & Hn & E). destruct (Hs n 2 ltac:(lia) ltac:(lia) E). split; [lia|done].
  - destruct (Hs CachedDead 3 ltac:(lia) ltac:(lia) Hw). split; [lia|done].
Qed.

Section Rebuild.
Context (shift : Z) (Hshift : shift = 30 \/ shift = 31) (e : size_class) (He : entry_ok shift e).

Lemma rebuilt_start words rs w :
  region_ok shift e words rs w -> rebuilt shift e words rs w (bump rs) 0 [].
Proof.
  intros [R1 R2 R3 R4 R5 R6]. constructor; try done; [constructor|].
  intros s. split; [by intros ?%elem_of_nil|]. intros (Hn & Hs & Hw). apply R3 in Hn; [congruence|done].
Qed.

Lemma rebuilt_end words rs w keptHead kept m :
  rebuilt shift e words rs w 0 keptHead kept ->
  region_ok shift e words
    (with_marks (with_dead rs keptHead (if keptHead =? 0 then 0 else deadTail rs)) m) w.
Proof.
  intros [R1 R2 R3 R4 R5 R6 R7 R8 R9]. constructor; try done. cbn. exists kept. split.
  - constructor; [done|done|]. intros s. rewrite R8. intuition lia.
  - destruct kept as [|s l]; cbn in R6; [by subst|]. destruct R6 as (-> & Hs & _).
    destruct (Z.eqb_spec (s + 1) 0); [lia|]. by apply R9.
Qed.

Section Step.
Context (words : Z -> Z) (rs : RegionState) (w : Z -> place) (s keptHead : Z) (kept : list Z)
        (H : rebuilt shift e words rs w (s + 1) keptHead kept) (Hs : 0 <= s).

Lemma rebuilt_skip : w s <> Queued -> rebuilt shift e words rs w s keptHead kept.
Proof.
  intros Hw. destruct H as [R1 R2 R3 R4 R5 R6 R7 R8 R9]. constructor; try done.
  intros x. rewrite R8. split; intros (H1 & H2 & H3); split_and!; try done; [lia|].
  destruct (decide (x = s)); [congruence|lia].
Qed.

Lemma rebuilt_bound x : 0 <= x -> w x <> Fresh -> x < 2 ^ 27.
Proof.
  intros Hx Hf. destruct (entry_capacity shift e Hshift He) as (Hc & _). destruct H as [R1 R2 R3 _ _ _ _ _ _].
  destruct (Z.lt_ge_cases x (bump rs)) as [|Hge]; [lia|]. by apply R3 in Hge.
Qed.

Lemma kept_bound : 0 <= keptHead <= 2 ^ 27.
Proof.
  pose proof rebuilt_bound as Hbd. destruct H as [R1 R2 R3 R4 R5 R6 R7 R8 R9].
  destruct kept as [|x l]; [cbn in R6; lia|].
  destruct R6 as (-> & Hx & _). destruct (proj1 (R8 x) ltac:(left)) as (_ & _ & Hw).
  specialize (Hbd x Hx ltac:(congruence)). lia.
Qed.

(** A marked slot stays quarantined. *)
Lemma rebuilt_keep :
  w s = Queued ->
  rebuilt shift e (setAt words s (makeWord keptHead WeavecRtDead))
    (if keptHead =? 0 then with_dead rs (deadHead rs) (s + 1) else rs) w s (s + 1) (s :: kept).
Proof.
  intros Hw. pose proof kept_bound as Hkb. destruct H as [R1 R2 R3 R4 (lf & R5) R6 R7 R8 R9].
  assert (Hnot : s ∉ kept) by (rewrite R8; lia).
  assert (Erb : forall A (f : RegionState -> A), (forall a b c, f (with_dead a b c) = f a) ->
            f (if keptHead =? 0 then with_dead rs (deadHead rs) (s + 1) else rs) = f rs)
    by (intros A f Hf; case_match; [apply Hf|done]).
  assert (Hval : weavecRtWordValue (makeWord keptHead WeavecRtDead) = keptHead)
    by (apply makeWord_value; [lia|vm_compute; intuition congruence]).
  constructor.
  - by rewrite (Erb _ bump).
  - by rewrite (Erb _ bump), (Erb _ committed).
  - by rewrite (Erb _ bump).
  - intros x Hx. rewrite setAt_cases. case_decide; [subst x|by apply R4]. rewrite Hw. exists keptHead.
    split; [unfold CachedDead; lia|done].
  - rewrite (Erb _ freeHead) by done. exists lf. destruct R5 as [L1 L2 L3]. constructor; [|done|done].
    apply (chain_ext words); [|done]. intros x Hx. apply setAt_ne. intros ->. apply L3 in Hx as [_ Hx]. congruence.
  - cbn. split_and!; [done|done|]. rewrite setAt_eq, Hval. apply (chain_ext words); [|done].
    intros x Hx. apply setAt_ne. by intros ->.
  - by constructor.
  - intros x. rewrite elem_of_cons, R8. split.
    + intros [->|(? & ? & ?)]; split_and!; (done || lia).
    + intros (? & ? & ?). destruct (decide (x = s)); [by left|right]. split_and!; (done || lia).
  - intros _. destruct kept as [|y l].
    + cbn in R6. subst keptHead. cbn. done.
    + destruct R6 as (-> & Hy & _). destruct (Z.eqb_spec (y + 1) 0); [lia|]. rewrite R9 by done. done.
Qed.

(** An unmarked one joins the free list. *)
Lemma rebuilt_free :
  w s = Queued ->
  rebuilt shift e (setAt words s (makeWord (freeHead rs) WeavecRtFree)) (with_freeHead rs (s + 1))
    (setAt w s Free) s keptHead kept.
Proof.
  intros Hw. pose proof rebuilt_bound as Hbd. destruct H as [R1 R2 R3 R4 (lf & R5) R6 R7 R8 R9].
  assert (Hfh : 0 <= freeHead rs <= 2 ^ 27).
  { destruct lf as [|x l]; [pose proof (li_chain _ _ _ _ _ R5) as ->; lia|].
    pose proof (li_chain _ _ _ _ _ R5) as (-> & Hx & _).
    assert (w x = Free) by (apply (li_elem _ _ _ _ _ R5); left).
    pose proof (Hbd x Hx ltac:(congruence)). lia. }
  assert (Hnot : s ∉ kept) by (rewrite R8; lia).
  constructor; cbn [with_freeHead bump committed freeHead deadTail]; try done.
  - intros x Hx. rewrite setAt_cases. case_decide; [subst x|by apply R3]. split; [done|].
    intros Hb. apply R3 in Hb; [congruence|done].
  - intros x Hx. rewrite !setAt_cases. case_decide; [|by apply R4]. exists (freeHead rs). split; [lia|done].
  - exists (s :: lf). apply (listed_cons _ _ (freeHead rs)); [done|done|congruence|].
    apply makeWord_value; [lia|vm_compute; intuition congruence].
  - apply (chain_ext words); [|done]. intros x Hx. apply setAt_ne. by intros ->.
  - intros x. rewrite R8, setAt_cases. case_decide; [subst x; split; [lia|by intros (? & ? & ?)]|].
    split; intros (? & ? & ?); split_and!; (done || lia).
Qed.
End Step.
End Rebuild.

(** ** Recycling *)

Section Recycle.
Context `{P : Pages} (HP : pages_wf) {Sys : System}.

(** All but the words, the regions' lists and the counts. *)
Definition besides_recycling (st : alloc) :=
  (al_heap st, al_next st, al_class st, al_active st, al_caches st, al_gone st, al_shadow st, al_mem st, al_tick st).

Definition other_regions (r : Z) (st st' : alloc) : Prop :=
  forall r', r' <> r -> al_words st' r' = al_words st r' /\ al_region st' r' = al_region st r'.

Lemma countStat_besides st n :
  besides_recycling (countStat st n) = besides_recycling st /\ al_words (countStat st n) = al_words st
  /\ al_region (countStat st n) = al_region st /\ al_huge (countStat st n) = al_huge st
  /\ al_gained (countStat st n) = al_gained st.
Proof. unfold countStat. by case_match. Qed.

Definition slotGoes (bits : Z -> bool) (recycle : bool) (n : Z) (w w' : Z -> place) : Prop :=
  forall s, w' s = if decide (0 <= s < n /\ w s = Queued /\ recycle = true /\ bits s = false) then Free else w s.

Lemma recycleSlots_spec shift e r size bits recycle :
  shift = 30 \/ shift = 31 -> entry_ok shift e -> forall n st w keptHead kept counts keptHead' counts' st',
  rebuilt shift e (al_words st r) (al_region st r) w (Z.of_nat n) keptHead kept ->
  recycleSlots n r size bits recycle keptHead counts st = (keptHead', counts', st') ->
  exists w' kept', rebuilt shift e (al_words st' r) (al_region st' r) w' 0 keptHead' kept'
    /\ slotGoes bits recycle (Z.of_nat n) w w'
    /\ (forall s, w s = Live -> al_words st' r s = al_words st r s)
    /\ other_regions r st st' /\ besides_recycling st' = besides_recycling st /\ al_huge st' = al_huge st
    /\ al_gained st' = al_gained st
    /\ marks (al_region st' r) = marks (al_region st r) /\ bump (al_region st' r) = bump (al_region st r).
Proof.
  intros Hsh He. induction n as [|n IH]; intros st w keptHead kept counts keptHead' counts' st' Hr; cbn [recycleSlots].
  { intros [= <- <- <-]. exists w, kept. split_and!; try done. intros s. case_decide; [lia|done]. }
  replace (Z.of_nat (S n)) with (Z.of_nat n + 1) in Hr by lia. set (s := Z.of_nat n) in *. assert (Hs : 0 <= s) by lia.
  destruct (entry_capacity shift e Hsh He) as (_ & Hz & _).
  pose proof (queued_word (c_size e) (al_words st r s) (w s) (rb_words _ _ _ _ _ _ _ _ Hr s Hs) Hz) as Hq.
  destruct (negb (wordState (al_words st r s) =? WeavecRtDead) || (weavecRtWordValue (al_words st r s) =? CachedDead)) eqn:Eq.
  { assert (Hw : w s <> Queued).
    { intros Hw. apply Hq in Hw. destruct (_ =? WeavecRtDead), (_ =? CachedDead); done. }
    intros HH. apply (IH st w keptHead kept) in HH as (w' & kept' & H1 & H2 & H3 & H4 & H5 & H6 & H7 & H8 & H9); [|by eapply rebuilt_skip].
    exists w', kept'. split_and!; try done. intros x. rewrite H2. apply decide_ext.
    destruct (decide (x = s)) as [->|Hne]; [tauto|]. intuition lia. }
  assert (Hw : w s = Queued).
  { apply Hq. destruct (_ =? WeavecRtDead), (_ =? CachedDead); done. }
  clear Eq Hq.
  destruct (negb recycle || bits s) eqn:Em.
  - set (st1 := if keptHead =? 0 then _ else st).
    assert (Hst1 : al_words st1 = al_words st
                   /\ al_region st1 r = (if keptHead =? 0 then with_dead (al_region st r) (deadHead (al_region st r)) (s + 1) else al_region st r)
                   /\ other_regions r st st1 /\ besides_recycling st1 = besides_recycling st /\ al_huge st1 = al_huge st
                   /\ al_gained st1 = al_gained st
                   /\ marks (al_region st1 r) = marks (al_region st r) /\ bump (al_region st1 r) = bump (al_region st r)).
    { subst st1. destruct (keptHead =? 0); cbn; rewrite ?setAt_eq; split_and!; try done.
      intros r' Hne. cbn. by rewrite setAt_ne. }
    destruct Hst1 as (W1 & R1 & O1 & B1 & H1 & G1 & M1 & U1). clearbody st1.
    intros HH. apply (IH _ w (s + 1) (s :: kept)) in HH as (w' & kept' & K1 & K2 & K3 & K4 & K5 & K6 & K7 & K8 & K9).
    2:{ cbn. rewrite setAt_eq, W1, R1. by apply rebuilt_keep. }
    change (besides_recycling st' = besides_recycling st1) in K5.
    cbn in K3, K4, K6, K7, K8, K9. exists w', kept'. split_and!; try congruence.
    + intros x. rewrite K2. apply decide_ext. destruct (decide (x = s)) as [->|Hne]; [|intuition lia].
      destruct recycle; [|intuition congruence]. cbn in Em. intuition congruence.
    + intros x Hx. rewrite K3 by done. rewrite setAt_eq, W1. apply setAt_ne. congruence.
    + intros r' Hne. destruct (K4 r' Hne) as [-> ->]. cbn. rewrite setAt_ne by done. by rewrite W1, (proj2 (O1 r' Hne)).
  - set (st1 := countStat _ _).
    assert (Hst1 : al_words st1 = setAt (al_words st) r (setAt (al_words st r) s (makeWord (freeHead (al_region st r)) WeavecRtFree))
                   /\ al_region st1 = setAt (al_region st) r (with_freeHead (al_region st r) (s + 1))
                   /\ besides_recycling st1 = besides_recycling st /\ al_huge st1 = al_huge st /\ al_gained st1 = al_gained st).
    { subst st1. destruct (countStat_besides
        (takeQuarantine size (set_region (storeWord st r s (makeWord (freeHead (al_region st r)) WeavecRtFree)) r
           (with_freeHead (al_region (storeWord st r s (makeWord (freeHead (al_region st r)) WeavecRtFree)) r) (s + 1))))
        WeavecRtStatRecycled) as (-> & -> & -> & -> & ->). done. }
    destruct Hst1 as (W1 & R1 & B1 & H1 & G1). clearbody st1.
    intros HH. apply (IH _ (setAt w s Free) keptHead kept) in HH as (w' & kept' & K1 & K2 & K3 & K4 & K5 & K6 & K7 & K8 & K9).
    2:{ rewrite W1, R1, !setAt_eq. by eapply rebuilt_free. }
    apply orb_false_iff in Em as [Em1%negb_false_iff Em2].
    exists w', kept'. split_and!; try congruence.
    + intros x. rewrite K2. destruct (decide (x = s)) as [->|Hne].
      * rewrite setAt_eq, (decide_True _ _ (P := 0 <= s < Z.of_nat (S n) /\ _)) by (split_and!; (done || lia)). by case_decide.
      * rewrite setAt_ne by done. apply decide_ext. intuition lia.
    + intros x Hx. rewrite K3 by (rewrite setAt_ne; congruence). rewrite W1, setAt_eq. apply setAt_ne. congruence.
    + intros r' Hne. destruct (K4 r' Hne) as [-> ->]. by rewrite W1, R1, !setAt_ne.
    + rewrite K8, R1, setAt_eq. done.
    + rewrite K9, R1, setAt_eq. done.
Qed.

(** One region's lists rebuilt, some of its quarantine free. *)
Lemma inv_relist st st' w w' r :
  heap_inv st w -> besides_recycling st' = besides_recycling st -> 0 <= r < 160 -> other_regions r st st' ->
  bump (al_region st' r) = bump (al_region st r) ->
  (forall s, w r s = Live -> al_words st' r s = al_words st r s) ->
  (forall s, w' s = w r s \/ (w r s = Queued /\ w' s = Free)) ->
  region_ok (h_shift (al_heap st)) (entryOf (al_heap st) r) (al_words st' r) (al_region st' r) w' ->
  heap_inv st' (setAt w r w').
Proof.
  intros [Hs Hb] [= E1 E2 E3 E4 E5 E6 E7 E8 E9] Hr Ho Hbump Hlive Hw Hro.
  assert (Hwl : forall r' s, setAt w r w' r' s = Live -> w r' s = Live /\ al_words st' r' s = al_words st r' s).
  { intros r' s. rewrite setAt_cases. case_decide as Er.
    - subst r'. intros E. destruct (Hw s) as [E'|[_ E']]; [|congruence]. split; [congruence|apply Hlive; congruence].
    - intros E. destruct (Ho r' Er) as [-> _]. done. }
  assert (Hwp : forall (f : place -> bool) r' s, (f Free = false) -> f (setAt w r w' r' s) = true -> f (w r' s) = true).
  { intros f r' s Hf. rewrite setAt_cases. case_decide; [subst r'|done].
    destruct (Hw s) as [-> |[_ ->]]; [done|congruence]. }
  assert (Hbr : forall r', bump (al_region st' r') = bump (al_region st r')).
  { intros r'. destruct (decide (r' = r)) as [->|Hne]; [done|]. by destruct (Ho r' Hne) as [_ ->]. }
  split; unfold slots; rewrite ?E1, ?E2, ?E3, ?E4, ?E7, ?E8.
  - apply (slots_step _ _ _ _ _ _ _ Hs r); [done| |by rewrite setAt_eq].
    intros r' Hne. destruct (Ho r' Hne) as [-> ->]. by rewrite setAt_ne.
  - destruct Hb as [B1 B2 B3 B4 B5 B6 B7]. constructor; [done|done|..].
    + intros r' s a Hr' Hs' Hd. apply (Hwp denied) in Hd; [|done]. by apply (B3 r' s).
    + intros r' s a Hr' Hs' Hd Ha. apply Hwl in Hd as [Hd ->]. by apply (B4 r' s).
    + intros r' s a Hr' Hs' Hd Ha. apply Hwl in Hd as [Hd ->]. by apply (B5 r' s).
    + intros r' a Hr'. rewrite Hbr. by apply B6.
    + intros r' s a Hr' Hs' Hd. apply (Hwp unwritten) in Hd; [|done]. by apply (B7 r' s).
Qed.

(** Whether the sweep's marks leave a slot out. *)
Definition unmarked (st : alloc) (r s : Z) : bool :=
  match marks (al_region st r) with Some bits => negb (bits s) | None => false end.

(** Only slots handed out are marked, in regions whose quarantine holds some. *)
Definition marks_ready (rs : RegionState) : Prop :=
  forall bits s, marks rs = Some bits -> bits s = true -> 0 <= s < bump rs /\ deadHead rs <> 0.

Lemma marks_clear_ready rs : marks_clear rs -> marks_ready rs.
Proof. intros H bits s E1 E2. by rewrite (H bits s E1) in E2. Qed.

Definition frees (region n : Z) (recycle : bool) (st : alloc) (w w' : Z -> Z -> place) : Prop :=
  forall r s, w' r s
    = if decide (region <= r < region + n /\ 0 <= s /\ w r s = Queued /\ recycle = true /\ unmarked st r s = true)
      then Free else w r s.

(** What recycling some regions leaves as it was. *)
Record recycling (region n : Z) (recycle : bool) (st : alloc) (w : Z -> Z -> place) (st' : alloc)
    (w' : Z -> Z -> place) : Prop := {
  re_inv : heap_inv st' w';
  re_frees : frees region n recycle st w w';
  re_live : same_live st w st';
  re_besides : besides_recycling st' = besides_recycling st;
  re_huge : al_huge st' = al_huge st;
  re_gained : al_gained st' = al_gained st;
  re_other : forall r, ~ (region <= r < region + n) -> al_region st' r = al_region st r;
  re_marks : (forall r, marks_ready (al_region st r)) -> forall r, region <= r < region + n -> marks_clear (al_region st' r)
}.

Lemma recycleRegion_spec st w r recycle counts counts' st' :
  heap_inv st w -> 0 <= r < 160 ->
  recycleRegion r recycle counts st = (counts', st') -> exists w', recycling r 1 recycle st w st' w'.
Proof.
  intros Hi Hr. destruct (regions_of st w r (proj1 Hi) Hr) as (Hsh & He & Hro). unfold recycleRegion.
  assert (Hidle : (forall s, 0 <= s -> w r s = Queued -> unmarked st r s = false) ->
                  (forall bits, marks (al_region st r) = Some bits -> deadHead (al_region st r) = 0) ->
                  exists w', recycling r 1 recycle st w st w').
  { intros Hn Hm. exists w. constructor; try done.
    - intros r' s. case_decide as E; [|done]. destruct E as (E1 & E2 & E3 & E4 & E5). replace r' with r in * by lia.
      by rewrite Hn in E5.
    - intros Hmr r' Hr' bits s Hb. replace r' with r in * by lia. destruct (bits s) eqn:Es; [|done].
      destruct (Hmr r bits s Hb Es) as [_ Hd]. by apply Hm in Hb. }
  destruct (marks (al_region st r)) as [bits|] eqn:Em.
  2:{ intros [= <- <-]. apply Hidle; [|done]. intros s _ _. unfold unmarked. by rewrite Em. }
  destruct (Z.eqb_spec (deadHead (al_region st r)) 0) as [Hd|Hd].
  { intros [= <- <-]. apply Hidle; [|done]. intros s Hs Hq. exfalso.
    destruct (ro_dead _ _ _ _ _ Hro) as (l & Hl & _). rewrite Hd in Hl.
    destruct l as [|x l]; [|destruct (li_chain _ _ _ _ _ Hl); lia].
    assert (Hin : s ∈ []) by (by apply (li_elem _ _ _ _ _ Hl)). by apply elem_of_nil in Hin. }
  destruct (recycleSlots _ _ _ _ _ _ _ _) as [[keptHead counts1] st1] eqn:E. intros [= <- <-].
  pose proof (ro_bump _ _ _ _ _ Hro) as Hbp.
  eapply (recycleSlots_spec _ (entryOf (al_heap st) r)) with (w := w r) (kept := []) in E
    as (wr & kept & K1 & K2 & K3 & K4 & K5 & K6 & K7 & K8 & K9); [|exact Hsh|done|rewrite Z2Nat.id by lia; by apply rebuilt_start].
  rewrite Z2Nat.id in K2 by lia. 
  assert (Hwr : forall s, wr s = w r s \/ (w r s = Queued /\ wr s = Free)).
  { intros s. rewrite K2. case_decide; [right; tauto|by left]. }
  exists (setAt w r wr). constructor.
  - set (m := fun slot : Z => _). eapply inv_relist; [exact Hi|exact K5|done| |cbn; by rewrite setAt_eq|exact K3|exact Hwr|].
    + intros r' Hne. destruct (K4 r' Hne) as [H1 H2]. split; [done|]. cbn. by rewrite setAt_ne.
    + cbn [set_region set_regions al_words al_region]. rewrite setAt_eq. eapply rebuilt_end; [exact Hsh|exact K1].
  - intros r' s. rewrite setAt_cases. case_decide as Er; [subst r'|case_decide; [lia|done]].
    rewrite K2. apply decide_ext. unfold unmarked. rewrite Em, negb_true_iff.
    split; intros (H1 & H2 & H3 & H4); split_and!; try (done || lia).
    1: { apply (slots_bound _ _ _ _ _ _ _ (proj1 Hi) r s Hr H2). by rewrite H3. }
    all: tauto.
  - intros r' s Hl. cbn. destruct (decide (r' = r)) as [->|Hne]; [by apply K3|]. by destruct (K4 r' Hne) as [-> _].
  - exact K5.
  - exact K6.
  - exact K7.
  - intros r' Hr'. cbn. rewrite setAt_ne by lia. destruct (K4 r' ltac:(lia)) as [_ ->]. done.
  - intros Hb r' Hr'. replace r' with r by lia. intros bits' s. cbn. rewrite setAt_eq. cbn. intros [= <-].
    destruct (Z.ltb_spec s ((bump (al_region st1 r) + 63) / 64 * 64)) as [|Hge]; [done|].
    destruct (bits s) eqn:Eb; [|done]. destruct (Hb r bits s Em Eb) as [Hsb _]. rewrite K9 in Hge. euclid.
Qed.

(** All the regions given, one after the other. *)
Lemma recycleRegions_spec n : forall st w region recycle counts counts' st',
  heap_inv st w -> 0 <= region -> region + Z.of_nat n <= 160 ->
  recycleRegions n region recycle counts st = (counts', st') ->
  exists w', recycling region (Z.of_nat n) recycle st w st' w'.
Proof.
  induction n as [|n IH]; intros st w region recycle counts counts' st' Hi Hr Hn; cbn [recycleRegions].
  { intros [= <- <-]. exists w. constructor; try done; [|intros _ r Hr'; lia]. intros r s. case_decide; [lia|done]. }
  destruct (recycleRegion region recycle counts st) as [counts1 st1] eqn:E. intros HH.
  apply (recycleRegion_spec st w) in E as (w1 & [A1 A2 A3 A4 A5 A6 A7 A8]); [|done|lia].
  apply (IH st1 w1) in HH as (w' & [B1 B2 B3 B4 B5 B6 B7 B8]); [|done|lia|lia].
  exists w'. constructor; try congruence.
  - intros r s. rewrite B2, A2. unfold unmarked.
    destruct (decide (region + 1 <= r < region + 1 + Z.of_nat n)) as [Hin|Hout].
    + rewrite A7 by lia. rewrite (decide_False (P := region <= r < region + 1 /\ _)) by lia.
      apply decide_ext. intuition lia.
    + rewrite (decide_False (P := region + 1 <= r < _ /\ _)) by tauto. apply decide_ext. intuition lia.
  - eapply same_live_trans; [exact A3| |exact B3]. intros r s Hl. rewrite A2. case_decide; [intuition congruence|done].
  - intros r Hr'. rewrite B7, A7 by lia. done.
  - intros Hb r Hr'. destruct (decide (r = region)) as [->|Hne].
    + rewrite B7 by lia. apply A8; [done|lia].
    + apply B8; [|lia]. intros r'. destruct (decide (r' = region)) as [->|Hne']; [|rewrite A7 by lia; apply Hb].
      apply marks_clear_ready, A8; [done|lia].
Qed.

(** *** Huge blocks *)

Definition in_arena (h : heap) (a : Z) : Prop := h_base h <= a < h_base h + h_bytes h.

(** The shadow of what lies outside the arena is no slot's. *)
Lemma bytes_outside h words region next class active w sh sh' mem :
  slots_ok h words region next class active w -> bytes_of_slots h words region sh mem w ->
  changes_only sh sh' (fun a => ~ in_arena h a) -> bytes_of_slots h words region sh' mem w.
Proof.
  intros Hs [B1 B2 B3 B4 B5 B6 B7] (C1 & C2 & C3). pose proof (so_heap _ _ _ _ _ _ _ Hs) as Hh.
  assert (Hin : forall r s a, 0 <= r < 160 -> 0 <= s -> w r s <> Fresh -> in_slot h r s a ->
            addressable sh' a = addressable sh a).
  { intros r s a Hr Hs0 Hf Ha. destruct (slots_bound _ _ _ _ _ _ _ Hs r s Hr Hs0 Hf) as [Hb _].
    destruct (slot_bounds h Hh r s Hr ltac:(lia)) as (H1 & _ & H2).
    destruct (arena_bounds h Hh r Hr) as (H3 & _ & H4 & _). unfold in_slot in Ha.
    apply C3; [lia|]. intros Hn. apply Hn. unfold in_arena. lia. }
  constructor; [done|by rewrite C2|..|done|done].
  - intros r s a Hr Hs0 Hd Ha. rewrite (Hin r s) by (try done; by intros E; rewrite E in Hd). by eapply B3.
  - intros r s a Hr Hs0 Hd Ha. rewrite (Hin r s) by (try done; by rewrite Hd). by eapply B4.
  - intros r s a Hr Hs0 Hd Ha. rewrite (Hin r s) by (try done; by rewrite Hd). by eapply B5.
Qed.

Definition unmark (b : HugeBlock) : HugeBlock :=
  mkHuge (hb_base b) (hb_size b) (hb_map b) (hb_mapBytes b) (hb_dead b) false.

Definition stays (recycle : bool) (b : HugeBlock) : bool := (hb_dead b =? 0) || hb_marked b || negb recycle.

(** The blocks that stay, and what recycling the others changes. *)
Definition besides_huge (st : alloc) :=
  (al_heap st, al_words st, al_region st, al_next st, al_class st, al_active st, al_gained st, al_caches st, al_gone st,
   al_pace st, al_mem st, al_stats st, al_sweeps st, al_tick st).

Lemma recycleHuge_spec h bits recycle blocks : forall counts st kept counts' st',
  Forall (block_ok h bits) blocks -> shadow_wf (al_shadow st) -> s_bits (al_shadow st) = bits ->
  recycleHuge blocks recycle counts st = (kept, counts', st') ->
  kept = map unmark (List.filter (stays recycle) blocks)
  /\ besides_huge st' = besides_huge st
  /\ changes_only (al_shadow st) (al_shadow st') (fun a => ~ in_arena h a)
  /\ ht_blocks (al_huge st') = ht_blocks (al_huge st) /\ ht_low (al_huge st') = ht_low (al_huge st)
  /\ ht_high (al_huge st') = ht_high (al_huge st) /\ ht_releases (al_huge st') = ht_releases (al_huge st).
Proof.
  induction blocks as [|b blocks IH]; intros counts st kept counts' st' Hb Hwf Hbits; cbn [recycleHuge].
  { intros [= <- <- <-]. split_and!; try done. }
  apply list.Forall_cons in Hb as [Hb1 Hb2]. cbn [List.filter]. change ((hb_dead b =? 0) || hb_marked b || negb recycle) with (stays recycle b).
  destruct (stays recycle b).
  - destruct (recycleHuge _ _ _ _) as [[kept1 counts1] st1] eqn:E. intros [= <- <- <-].
    apply IH in E as (-> & H2 & H3 & H4 & H5 & H6 & H7); try done.
  - intros HH. destruct Hb1 as [A1 A2 A3 A4 A5].
    assert (Hch : changes_only (al_shadow st)
              (weavecRtShadowClear (al_shadow st) (hb_base b) (hb_base b + hb_size b + 16)) (fun a => ~ in_arena h a)).
    { split_and!; [by apply shadowClear_wf|by unfold weavecRtShadowClear; repeat case_match|].
      intros a Ha Hn. pose proof (window_split _ Hwf).
      assert (Hcb : s_bits (weavecRtShadowClear (al_shadow st) (hb_base b) (hb_base b + hb_size b + 16)) = s_bits (al_shadow st))
        by (unfold weavecRtShadowClear; by repeat case_match).
      rewrite !addressable_gval by (rewrite ?Hcb; auto using shadowClear_wf).
      rewrite (shadowClear_gval HP); [|done|lia|subst bits; clear - A4; euclid]. case_decide as E; [|done]. exfalso. apply Hn.
      unfold apart, in_arena in *. intros Hin. destruct A5; euclid. }
    apply IH in HH as (-> & H2 & H3 & H4 & H5 & H6 & H7); [|done|by destruct Hch|by destruct Hch as (_ & E & _); cbn; rewrite E].
    split_and!; try done. eapply changes_only_trans; [exact Hch|exact H3].
Qed.

Lemma heap_inv_same st st' w :
  (al_heap st', al_words st', al_region st', al_next st', al_class st', al_active st', al_shadow st', al_mem st')
  = (al_heap st, al_words st, al_region st, al_next st, al_class st, al_active st, al_shadow st, al_mem st) ->
  heap_inv st w -> heap_inv st' w.
Proof. unfold heap_inv, slots. by intros [= -> -> -> -> -> -> -> ->]. Qed.

(** The table of the blocks that stayed. *)
Lemma stayed_ok h bits recycle blocks :
  Forall (block_ok h bits) blocks -> Forall (block_ok h bits) (map unmark (List.filter (stays recycle) blocks)).
Proof.
  intros Hb. induction Hb as [|b l H Hl IH]; cbn; [done|]. destruct (stays recycle b); cbn; [|done].
  constructor; [|done]. by destruct H.
Qed.

Lemma stayed_table t recycle cap dc db rel :
  table_ok t ->
  table_ok (mkHugeTable (map unmark (List.filter (stays recycle) (ht_blocks t))) cap (ht_low t) (ht_high t) dc db rel).
Proof.
  intros [Hs Hb Hbd]. constructor; cbn.
  - clear Hb Hbd. induction Hs as [|b l Hs IH Hx]; cbn; [constructor|]. destruct (stays recycle b); [|done]. cbn.
    constructor; [done|]. clear - Hx. induction Hx as [|b' l H Hx IH]; cbn; [done|].
    destruct (stays recycle b'); [|done]. constructor; done.
  - clear Hs Hbd. induction Hb; cbn; [done|]. destruct (stays recycle x); [constructor|]; done.
  - clear Hs Hb. induction Hbd; cbn; [done|]. destruct (stays recycle x); [constructor|]; done.
Qed.

Lemma stayed_live recycle t t' base size :
  ht_blocks t' = map unmark (List.filter (stays recycle) (ht_blocks t)) -> huge_live t' base size <-> huge_live t base size.
Proof.
  unfold huge_live. intros ->. split; intros (b & Hb & Hd & E).
  - apply list_elem_of_fmap in Hb as (b' & -> & Hb). exists b'. split_and!; try apply E; [|done].
    apply list_elem_of_In. apply list_elem_of_In in Hb. by apply filter_In in Hb as [Hb _].
  - exists (unmark b). split; [|done]. apply list_elem_of_fmap. exists b. split; [done|].
    apply list_elem_of_In, filter_In. split; [by apply list_elem_of_In|]. unfold stays. by rewrite Hd.
Qed.

(** Marking leaves the live blocks live. *)
Lemma marked_live l l' t t' base size :
  ht_blocks t = l -> ht_blocks t' = l' -> Forall2 marked_from l l' -> huge_live t' base size <-> huge_live t base size.
Proof.
  unfold huge_live. intros -> -> HB. split; intros (b & [i Hb]%list_elem_of_lookup & Hd & E1 & E2).
  - destruct (Forall2_lookup_r _ _ _ _ _ HB Hb) as (b' & Hb' & Hm). apply list_elem_of_lookup_2 in Hb'.
    exists b'. by destruct Hm as [->| ->].
  - destruct (Forall2_lookup_l _ _ _ _ _ HB Hb) as (b' & Hb' & Hm). apply list_elem_of_lookup_2 in Hb'.
    exists b'. by destruct Hm as [->| ->].
Qed.

(** The whole of a sweep's recycling. *)
Lemma weavecRtRecycle_spec st w recycle counts st' :
  heap_inv st w -> huge_ok st -> weavecRtRecycle recycle st = (counts, st') ->
  exists w', heap_inv st' w' /\ huge_ok st' /\ frees 0 (h_regions (al_heap st)) recycle st w w' /\ same_live st w st'
    /\ (al_heap st', al_class st', al_caches st', al_mem st', al_tick st')
       = (al_heap st, al_class st, al_caches st, al_mem st, al_tick st)
    /\ s_bits (al_shadow st') = s_bits (al_shadow st)
    /\ ht_blocks (al_huge st') = map unmark (List.filter (stays recycle) (ht_blocks (al_huge st)))
    /\ ((forall r, marks_ready (al_region st r)) -> forall r, 0 <= r < h_regions (al_heap st) -> marks_clear (al_region st' r))
    /\ (forall r, ~ (0 <= r < h_regions (al_heap st)) -> al_region st' r = al_region st r)
    /\ ht_releases (al_huge st') = ht_releases (al_huge st).
Proof.
  intros Hi Hg. pose proof (regions_range _ _ (proj1 Hi)) as Hrr. unfold weavecRtRecycle.
  set (st1 := set_gained st _). change (al_heap st1) with (al_heap st). destruct (recycleRegions _ _ _ _ st1) as [counts2 st2] eqn:E2.
  assert (Hi1 : heap_inv st1 w) by (by apply (heap_inv_same st)).
  apply (recycleRegions_spec _ st1 w) in E2 as (w' & [R1 R2 R3 R4 R5 R6 R7 R8]); [|done|done|cbn; lia].
  rewrite Z2Nat.id in R2, R7, R8 by lia. injection R4 as E1 E2 E3 E4 E5 E6 E7 E8 E9. cbn in E1, E2, E3, E4, E5, E6, E7, E8, E9, R5.
  destruct Hg as [Ht Hb]. destruct (recycleHuge _ _ _ st2) as [[kept counts3] st3] eqn:E10.
  apply (recycleHuge_spec (al_heap st) (s_bits (al_shadow st))) in E10 as (-> & H2 & H3 & H4 & H5 & H6 & H7);
    [|by rewrite R5|rewrite E7; apply (bs_wf _ _ _ _ _ _ (proj2 Hi))|by rewrite E7].
  injection H2 as F1 F2 F3 F4 F5 F6 F7 F8 F9 F10 F11 F12 F13 F14. destruct H3 as (C1 & C2 & C3). rewrite E7 in C2.
  intros [= <- <-]. exists w'. split_and!; cbn.
  - destruct R1 as [Rs Rb]. split; unfold slots; cbn; rewrite ?F1, ?F2, ?F3, ?F4, ?F5, ?F6, ?F11; [exact Rs|].
    apply (bytes_outside _ _ _ _ _ _ _ _ _ _ Rs Rb). rewrite E1. split_and!; [done|by rewrite E7|done].
  - split; cbn.
    + rewrite R5. unfold ht_with_blocks. rewrite H5, H6, R5. by apply (stayed_table (al_huge st)).
    + rewrite F1, E1, C2, R5. by apply stayed_ok.
  - intros r s. apply (R2 r s).
  - intros r s Hl. cbn. rewrite F2. by apply R3.
  - congruence.
  - done.
  - by rewrite R5.
  - intros Hm r Hr. rewrite F3. by apply R8.
  - intros r Hr. rewrite F3. by apply R7.
  - by rewrite H7, R5.
Qed.

(** ** Marks for every quarantine *)

Definition besides_prepare (st : alloc) :=
  (al_heap st, al_words st, al_next st, al_class st, al_active st, al_gained st, al_caches st, al_gone st,
   al_pace st, al_huge st, al_shadow st, al_mem st, al_stats st, al_sweeps st).

(** New marks are clear. *)
Definition fresh_marks (rs rs' : RegionState) : Prop :=
  rs' = rs \/ (marks rs = None /\ rs' = with_marks rs (Some (fun _ => false))).

Lemma prepareFrom_spec n : forall region st b st',
  prepareFrom n region st = (b, st') ->
  besides_prepare st' = besides_prepare st /\ (al_tick st <= al_tick st')%nat
  /\ (forall r, fresh_marks (al_region st r) (al_region st' r))
  /\ (b = true -> forall r, region <= r < region + Z.of_nat n -> deadHead (al_region st r) <> 0 ->
        marks (al_region st' r) <> None).
Proof.
  induction n as [|n IH]; intros region st b st'; cbn [prepareFrom].
  { intros [= <- <-]. split_and!; try done; [by left|intros _ r Hr; lia]. }
  assert (Hskip : (marks (al_region st region) <> None \/ deadHead (al_region st region) = 0) ->
    prepareFrom n (region + 1) st = (b, st') ->
    besides_prepare st' = besides_prepare st /\ (al_tick st <= al_tick st')%nat
    /\ (forall r, fresh_marks (al_region st r) (al_region st' r))
    /\ (b = true -> forall r, region <= r < region + Z.of_nat (S n) -> deadHead (al_region st r) <> 0 ->
          marks (al_region st' r) <> None)).
  { intros Hm HH. apply IH in HH as (H1 & H2 & H3 & H4). split_and!; try done. intros Hb r Hr Hd.
    destruct (decide (r = region)) as [->|Hne]; [|apply H4; (done || lia)].
    destruct Hm as [Hm|Hm]; [|done]. destruct (H3 region) as [->|[? _]]; done. }
  destruct (marks (al_region st region)) as [m|] eqn:Em; [apply Hskip; by left|].
  destruct (Z.eqb_spec (deadHead (al_region st region)) 0); [apply Hskip; by right|].
  unfold ask. destruct (sys_map _ _ _).
  2:{ intros [= <- <-]. split_and!; try done; [cbn; lia|by left]. }
  intros HH. apply IH in HH as (H1 & H2 & H3 & H4). cbn [set_region set_regions set_tick al_region al_tick] in *.
  split_and!; [done|lia| |].
  - intros r. specialize (H3 r). rewrite setAt_cases in H3. case_decide; [subst r|done].
    right. split; [done|]. destruct H3 as [->|[Hx _]]; done.
  - intros Hb r Hr Hd. destruct (decide (r = region)) as [->|Hne].
    + specialize (H3 region). rewrite setAt_eq in H3. destruct H3 as [->|[Hx _]]; done.
    + apply H4; [done|lia|by rewrite setAt_ne].
Qed.

Lemma fresh_marks_with rs rs' : fresh_marks rs rs' -> exists m, rs' = with_marks rs m.
Proof. intros [->|[_ ->]]; [exists (marks rs); by rewrite with_marks_same|eauto]. Qed.

(** ** The stopped world *)

(** Every quarantined slot has a mark. *)
Definition prepared (st : alloc) : Prop :=
  forall r, 0 <= r < h_regions (al_heap st) -> deadHead (al_region st r) <> 0 -> marks (al_region st r) <> None.

Lemma prepare_rest st st' : (forall r, fresh_marks (al_region st r) (al_region st' r)) -> marks_rest st -> marks_rest st'.
Proof.
  intros H Hm r bits s E. destruct (H r) as [Er|[Hn Er]]; rewrite Er in E; [by apply (Hm r)|].
  cbn in E. by injection E as <-.
Qed.

(** New marks, a tick: nothing anyone sees. *)
Lemma alloc_inv_prepare st st' w :
  alloc_inv st w -> besides_prepare st' = besides_prepare st -> (al_tick st <= al_tick st')%nat ->
  (forall r, fresh_marks (al_region st r) (al_region st' r)) ->
  alloc_inv st' w /\ unseen st w st' w.
Proof.
  intros (Hi & Hc & Hg) Hb Ht Hr. injection Hb as E1 E2 E3 E4 E5 E6 E7 E8 E9 E10 E11 E12 E13 E14.
  pose proof (regions_range _ _ (proj1 Hi)) as [_ H160]. assert (G : grown st st') by (by apply grown_same). split.
  - split_and!; [apply (heap_inv_marks st); [congruence|intros r; by apply fresh_marks_with|done]| |apply (huge_ok_frame st); [done|done|by rewrite E11|done]].
    apply (caches_ok_frame st w); try done; [apply Hi|by rewrite E1].
  - constructor; try done; [by rewrite E11|intros; by rewrite E2|intros; by left| | |by rewrite E10|by apply prepare_rest].
    + intros base size. by rewrite E10.
    + intros t. left. unfold calls, ownCache. by rewrite E7.
Qed.

Lemma alloc_inv_marking st st' w :
  marking st st' -> alloc_inv st w ->
  alloc_inv st' w /\ (forall base size, huge_live (al_huge st') base size <-> huge_live (al_huge st) base size)
  /\ ht_releases (al_huge st') = ht_releases (al_huge st).
Proof.
  intros M (Hi & Hc & Ht & Hg). pose proof (mk_besides _ _ M) as B.
  injection B as E1 E2 E3 E4 E5 E6 E7 E8 E9 E10 E11 E12 E13.
  pose proof (regions_range _ _ (proj1 Hi)) as [_ H160]. assert (G : grown st st') by (by apply grown_same).
  pose proof (mk_blocks _ _ M) as HB. split.
  - split_and!; [by apply (marking_heap st)|apply (caches_ok_frame st w); try done; [apply Hi|by rewrite E1]|split].
    + rewrite (mk_table _ _ M). destruct Ht as [Hs Hb Hbd]. unfold ht_with_blocks.
      clear - Hs Hb Hbd HB. revert Hs Hb Hbd HB.
      generalize (ht_blocks (al_huge st)), (ht_blocks (al_huge st')), (ht_low (al_huge st)), (ht_high (al_huge st)).
      intros l l' low high Hs Hb Hbd HB. constructor; cbn.
      * clear Hb Hbd. revert l' HB. induction Hs as [|b l Hs IH Hx]; intros l' HB; inversion HB as [|? b' ? l1 Hm HB']; subst; constructor.
        -- by apply IH.
        -- clear - Hx HB' Hm. revert l1 HB'. induction Hx as [|b2 l2 Hp Hx IH]; intros l1 HB'; inversion HB' as [|? b3 ? l3 Hm2 HB2]; subst;
             constructor; [|by apply IH]. unfold precedes in *. by destruct Hm as [->| ->], Hm2 as [->| ->].
      * clear Hs Hbd. revert l' HB. induction Hb as [|b l Hx Hb IH]; intros l' HB; inversion HB as [|? b' ? l1 Hm HB']; subst;
          constructor; [by destruct Hm as [->| ->]|by apply IH].
      * clear Hs Hb. revert l' HB. induction Hbd as [|b l Hx Hbd IH]; intros l' HB; inversion HB as [|? b' ? l1 Hm HB']; subst;
          constructor; [by destruct Hm as [->| ->]|by apply IH].
    + rewrite E1, E10. clear - Hg HB. revert HB. generalize (ht_blocks (al_huge st')).
      induction Hg as [|b l Hx Hg IH]; intros l' HB; inversion HB as [|? b' ? l1 Hm HB']; subst; constructor; [|by apply IH].
      destruct Hx. by destruct Hm as [->| ->].
  - split; [|by rewrite (mk_table _ _ M)]. intros base size. by eapply marked_live.
Qed.

Lemma alloc_inv_tick st w n : (al_tick st <= n)%nat -> alloc_inv st w -> alloc_inv (set_tick st n) w /\ unseen st w (set_tick st n) w.
Proof.
  intros Hn Hi. apply (alloc_inv_prepare st); [done|done|done|]. intros r. by left.
Qed.

(** The roots and the words a sweep that starts in [st] scans. *)
Definition scanned (st : alloc) : list Z := sys_roots (al_tick st) ++ heapWords st.

Lemma scanned_unreferenced st w r s :
  alloc_inv st w -> unreferenced st w (sys_roots (al_tick st)) r s <->
  forall v, v ∈ scanned st -> ~ in_slot (al_heap st) r s v.
Proof.
  intros Hi. unfold unreferenced, scanned. setoid_rewrite list.elem_of_app. setoid_rewrite (heapWords_elem st w _ Hi). done.
Qed.

(** The state once everything is marked. *)
Definition markedState (st : alloc) : alloc := markAll (set_tick st (S (S (al_tick st)))) (scanned st).

Lemma heapWords_tick st n : heapWords (set_tick st n) = heapWords st.
Proof.
  unfold heapWords. f_equal; cbn.
  - generalize 0. induction (Z.to_nat (h_regions (al_heap st))) as [|k IH]; intros r; cbn; [done|]. rewrite IH. f_equal.
    generalize 0. induction (Z.to_nat (bump (al_region st r))) as [|j IHj]; intros s; cbn; [done|]. by rewrite IHj.
  - generalize 0%nat. induction (length (ht_blocks (al_huge st))) as [|k IH]; intros i; cbn; [done|]. by rewrite IH.
Qed.

Lemma markAndRecycle_eq st :
  markAndRecycle st
  = let '(counts, st') := weavecRtRecycle (sys_ok (S (al_tick st))) (markedState st) in
    let st' := countStat st' WeavecRtStatSweeps in
    set_sweeps st' (mkTotals counts (sw_nanos (al_sweeps st')) (sw_longest (al_sweeps st'))).
Proof.
  unfold markAndRecycle, ask. cbn [set_tick al_tick]. 
  set (st1 := set_tick (set_tick st _) _). assert (E1 : st1 = set_tick st (S (S (al_tick st)))) by done.
  replace (weavecRtMarkHeap (foldl markAddress st1 (sys_roots (al_tick st)))) with (markedState st); [done|].
  rewrite (markHeap_fold st1) by (apply markAll_marking). unfold markedState, scanned, markAll.
  rewrite foldl_app, <- E1. f_equal. subst st1. symmetry. apply (heapWords_tick st (S (S (al_tick st)))).
Qed.

(** Recycled: by a complete sweep, a quarantined slot no scanned word points
    into. *)
Definition recycles (st : alloc) (w : Z -> Z -> place) (r s : Z) : Prop :=
  0 <= r < h_regions (al_heap st) /\ 0 <= s /\ w r s = Queued /\ sys_ok (S (al_tick st)) = true
  /\ unmarked (markedState st) r s = true.

Lemma unmarked_unreferenced st w r s :
  alloc_inv st w -> 0 <= r < 160 -> 0 <= s -> w r s = Queued -> unmarked (markedState st) r s = true ->
  unreferenced st w (sys_roots (al_tick st)) r s.
Proof.
  intros Hi Hr Hs Hw Hu. apply scanned_unreferenced; [done|]. intros v Hv Hin.
  destruct (alloc_inv_tick st w (S (S (al_tick st))) ltac:(lia) Hi) as [Hi1 _].
  unfold unmarked in Hu. 
  assert (Hm : marks (al_region st r) <> None).
  { destruct (mk_region _ _ (markAll_marking (scanned st) (set_tick st (S (S (al_tick st))))) r) as (m & E & Hn).
    intros Hnone. cbn in Hn. apply Hn in Hnone. unfold markedState in Hu. rewrite E, Hnone in Hu. done. }
  pose proof (markAll_hits (scanned st) (set_tick st (S (S (al_tick st)))) w v r s (proj1 Hi1) Hr Hs Hw Hm Hv Hin) as Hk.
  unfold marked in Hk. fold (markedState st) in Hk. by destruct (marks (al_region (markedState st) r)) as [b|]; [rewrite Hk in Hu|].
Qed.

Lemma unreferenced_unmarked st w r s :
  alloc_inv st w -> bytes_ok (al_mem st) -> Forall (fun v => 0 <= v < 2 ^ 64) (sys_roots (al_tick st)) ->
  prepared st -> marks_rest st -> 0 <= r < h_regions (al_heap st) -> 0 <= s -> w r s = Queued ->
  unreferenced st w (sys_roots (al_tick st)) r s -> unmarked (markedState st) r s = true.
Proof.
  intros Hi Hm Hroots Hp Hrest Hr Hs Hw Hu. pose proof (proj1 (proj1 Hi)) as Hsl.
  pose proof (regions_range _ _ Hsl) as [_ H160].
  assert (Hsome : marks (al_region (markedState st) r) <> None).
  { destruct (mk_region _ _ (markAll_marking (scanned st) (set_tick st (S (S (al_tick st))))) r) as (m & E & Hn).
    unfold markedState. rewrite E. cbn. rewrite Hn. cbn. apply Hp; [done|]. apply (queued_head st w r s); (done || lia). }
  unfold unmarked. destruct (marks (al_region (markedState st) r)) as [bits|] eqn:Eb; [|done].
  destruct (bits s) eqn:Es; [|done]. exfalso.
  assert (Hk : marked (markedState st) r s = true) by (unfold marked; by rewrite Eb).
  unfold markedState in Hk. apply markAll_only in Hk as [Hk|(v & Hv & Ha & _)].
  - unfold marked in Hk. cbn in Hk. destruct (marks (al_region st r)) as [b|] eqn:E; [|done]. by rewrite (Hrest r b s E) in Hk.
  - apply (proj1 (scanned_unreferenced st w r s Hi) Hu v Hv).
    apply (answers_in_slot st w); try done; [lia|]. unfold scanned in Hv. apply list.elem_of_app in Hv as [Hv|Hv].
    + exact (proj1 (list.Forall_forall _ _) Hroots v Hv).
    + apply (heapWords_elem st w v Hi) in Hv. by apply (heap_word_range st w).
Qed.

(** The marking and the recycling of a stopped world. *)
Lemma markAndRecycle_spec st w :
  alloc_inv st w ->
  exists w', alloc_inv (markAndRecycle st) w' /\ unseen st w (markAndRecycle st) w'
    /\ al_heap (markAndRecycle st) = al_heap st
    /\ (forall r s, recycles st w r s -> w' r s = Free) /\ (forall r s, ~ recycles st w r s -> w' r s = w r s)
    /\ ht_blocks (al_huge (markAndRecycle st))
       = map unmark (List.filter (stays (sys_ok (S (al_tick st)))) (ht_blocks (al_huge (markedState st)))).
Proof.
  intros Hi. rewrite markAndRecycle_eq. destruct (weavecRtRecycle _ _) as [counts st2] eqn:E.
  destruct (alloc_inv_tick st w (S (S (al_tick st))) ltac:(lia) Hi) as [Hi1 Hu1].
  pose proof (markAll_marking (scanned st) (set_tick st (S (S (al_tick st))))) as M. fold (markedState st) in M.
  destruct (alloc_inv_marking _ _ _ M Hi1) as (Hi2 & Hu2 & Hre2). pose proof (mk_besides _ _ M) as B.
  injection B as E1 E2 E3 E4 E5 E6 E7 E8 E9 E10 E11 E12 E13 E14. cbn in E1, E2, E3, E4, E5, E6, E7, E8, E9, E10, E11, E12, E13, E14.
  destruct Hi2 as (Hh2 & Hc2 & Hg2).
  apply (weavecRtRecycle_spec _ w) in E as (w' & R1 & R2 & R3 & R4 & R5 & R6 & R7 & R8 & R9 & R10); [|done|done].
  injection R5 as F1 F2 F3 F4 F5. destruct (countStat_besides st2 WeavecRtStatSweeps) as (G1 & G2 & G3 & G4 & G5).
  injection G1 as K1 K2 K3 K4 K5 K6 K7 K8 K9. cbv zeta. set (st3 := set_sweeps _ _).
  assert (Hi3 : heap_inv st3 w') by (apply (heap_inv_same st2); [unfold st3; cbn; congruence|done]).
  pose proof (proj1 Hi) as Hi0. pose proof (regions_range _ _ (proj1 Hi0)) as [_ H160].
  assert (Hfree : forall r s, w' r s = w r s \/ (w r s = Queued /\ w' r s = Free /\ recycles st w r s)).
  { intros r s. rewrite R3. case_decide as Ed; [right|by left]. destruct Ed as (D1 & D2 & D3 & D4 & D5).
    rewrite E1 in D1. split_and!; try done; lia. }
  assert (Hmarks : marks_rest st -> marks_rest st3).
  { intros Hrest r. cbn. rewrite G3. destruct (decide (0 <= r < h_regions (al_heap st))) as [Hr|Hr].
    + apply R8; [|by rewrite E1]. intros r' bits s Eb Es.
      assert (Hk : marked (markedState st) r' s = true) by (unfold marked; by rewrite Eb).
      unfold markedState in Hk. apply markAll_only in Hk as [Hk|(v & Hv & Ha & Hw & Hd)].
      * unfold marked in Hk. cbn in Hk. destruct (marks (al_region st r')) as [b|] eqn:E0; [|done]. by rewrite (Hrest r' b s E0) in Hk.
      * cbn in Ha, Hw, Hd. destruct (mk_region _ _ M r') as (m & Er & _). rewrite Er. cbn. split; [|done].
        destruct (answers_slot _ v r' s (so_heap _ _ _ _ _ _ _ (proj1 Hi0)) Ha) as [H1 H2].
        split; [done|]. by apply (dead_word_bump st w); [apply Hi0|..].
    + rewrite R9; [|rewrite E1; exact Hr]. intros bits s Eb. destruct (bits s) eqn:Es; [|done]. exfalso.
      assert (Hk : marked (markedState st) r s = true) by (unfold marked; by rewrite Eb).
      unfold markedState in Hk. apply markAll_only in Hk as [Hk|(v & Hv & Ha & Hw & Hd)].
      * unfold marked in Hk. cbn in Hk. destruct (marks (al_region st r)) as [b|] eqn:E0; [|done]. by rewrite (Hrest r b s E0) in Hk.
      * cbn in Ha, Hw, Hd. destruct (answers_slot _ v r s (so_heap _ _ _ _ _ _ _ (proj1 Hi0)) Ha) as [H1 H2].
        assert (Hlt : s < bump (al_region st r)) by (by apply (dead_word_bump st w); [apply Hi0|..]).
        rewrite (spare_region st w r (proj1 Hi0)) in Hlt; lia. }
  exists w'. split_and!.
  - split_and!; [done| |].
    + apply (caches_ok_frame (markedState st) w); [apply Hh2| | | | | |exact Hc2].
      * apply grown_same; cbn; congruence.
      * cbn. by rewrite K1, F1, E1.
      * cbn. congruence.
      * intros r s t c u Hh. destruct (Hfree r s) as [->|(? & _ & _)]; congruence.
      * intros r s o Hh. destruct (Hfree r s) as [->|(? & _ & _)]; congruence.
    + destruct R2 as [T1 T2]. split; cbn; rewrite ?G4; [done|]. by rewrite K1, K7.
  - constructor; cbn.
    + apply grown_same; cbn; congruence.
    + congruence.
    + rewrite K7, R6. by rewrite E10.
    + intros r s. destruct (Hfree r s) as [->|(-> & -> & _)]; done.
    + intros r s Hl. rewrite G2, R4 by done. by rewrite E2.
    + intros r s. by destruct (Hfree r s) as [->|(-> & -> & _)].
    + intros r s Hr Hd. destruct (Hfree r s) as [->|(Hq & -> & Hrec)]; [by left|right]. split; [done|].
      exists (al_tick st). split; [rewrite K9, F5, E14; lia|]. destruct Hrec as (_ & Hs0 & _ & _ & Hun).
      apply (unmarked_unreferenced st w); (done || lia).
    + intros base size. rewrite (stayed_live (sys_ok (S (al_tick st))) (al_huge (markedState st)))
        by (cbn; by rewrite G4, R7). by rewrite Hu2, (us_huge _ _ _ _ Hu1).
    + intros t. left. unfold calls, ownCache. cbn. by rewrite K5, F3, E7.
    + rewrite K9, F5, E14. lia.
    + rewrite G4, R10. by rewrite Hre2, (us_releases _ _ _ _ Hu1).
    + exact Hmarks.
  - cbn. congruence.
  - intros r s (D1 & D2 & D3 & D4 & D5). rewrite R3. rewrite E1. rewrite decide_True; [done|]. split_and!; try done; lia.
  - intros r s Hn. destruct (Hfree r s) as [->|(_ & _ & ?)]; done.
  - cbn. by rewrite G4, R7.
Qed.

(** ** A sweep *)

(** The state in which a sweep marks, when it comes to that: the own cache
    flushed, the marks mapped. *)
Definition sweepStart (self : nat) (st : alloc) : option alloc :=
  if weavecRtAllocatorNested self st then None
  else
    let st := weavecRtFlushThread self st in
    if negb (weavecRtSweepWanted st) then None
    else
      let '(locked, st) := ask sys_ok st in
      if negb locked then None
      else
        let '(world, st) := ask sys_ok st in
        if negb world then None
        else
          let '(_, st) := ask sys_clock st in
          let '(stopped, st) := ask sys_ok st in
          if negb stopped then None
          else
            let '(prepared, st) := weavecRtPrepareMarks st in
            if (prepared : bool) then Some st else None.

Lemma alloc_inv_counts st st' w :
  besides_counts st' = besides_counts st -> alloc_inv st w -> alloc_inv st' w /\ unseen st w st' w.
Proof.
  intros Hb (Hi & Hc & Hg). pose proof Hb as Hb'. injection Hb' as E1 E2 E3 E4 E5 E6 E7 E8 E9 E10 E11 E12.
  pose proof (regions_range _ _ (proj1 Hi)) as [_ H160]. split; [|by apply unseen_counts].
  split_and!; [by apply (heap_inv_counts st)| |apply (huge_ok_frame st); [by apply grown_same|done|by rewrite E10|done]].
  apply (caches_ok_frame st w); try done; [apply Hi|by apply grown_same|by rewrite E1].
Qed.

Lemma chain_steps st w st1 w1 st2 w2 :
  unseen st w st1 w1 -> alloc_inv st2 w2 /\ unseen st1 w1 st2 w2 -> alloc_inv st2 w2 /\ unseen st w st2 w2.
Proof. intros H1 [H2 H3]. split; [done|]. by eapply unseen_trans. Qed.

(** A sweep keeps the invariant and does nothing a program sees. *)
Lemma weavecRtSweep_spec self st w :
  alloc_inv st w ->
  (exists w', alloc_inv (weavecRtSweep self st) w' /\ unseen st w (weavecRtSweep self st) w')
  /\ al_heap (weavecRtSweep self st) = al_heap st.
Proof.
  intros Hi. unfold weavecRtSweep. destruct (weavecRtAllocatorNested self st).
  { split_and!; try done. exists w. split; [done|apply unseen_refl]. }
  destruct (inv_weavecRtFlushThread self st w Hi) as ((w1 & Hi1 & Hu1) & Hh1).
  set (st1 := weavecRtFlushThread self st) in *. clearbody st1.
  destruct (negb (weavecRtSweepWanted st1)); [split_and!; try done; by exists w1|].
  unfold ask. cbn [al_tick set_tick].
  assert (Htick : forall n, (al_tick st1 <= n)%nat ->
    (exists w', alloc_inv (set_tick st1 n) w' /\ unseen st w (set_tick st1 n) w')
    /\ al_heap (set_tick st1 n) = al_heap st).
  { intros n Hn. split; [|done]. exists w1. eapply chain_steps; [exact Hu1|]. by apply alloc_inv_tick. }
  destruct (sys_ok (al_tick st1)); cbn [negb]; [|apply (Htick (S (al_tick st1))); lia].
  destruct (sys_ok _); cbn [negb]; [|apply (Htick (S (S (al_tick st1)))); lia].
  destruct (Htick (S (S (S (S (al_tick st1))))) ltac:(lia)) as ((w2 & Hi2 & Hu2) & Hh2).
  change (set_tick (set_tick (set_tick (set_tick st1 _) _) _) _) with (set_tick st1 (S (S (S (S (al_tick st1)))))).
  set (st2 := set_tick st1 _) in *. clearbody st2.
  set (stopped := sys_ok (S (S (S (al_tick st1))))).
  destruct (if stopped then weavecRtPrepareMarks st2 else (false, st2)) as [prepared st3] eqn:E3.
  assert (H3 : alloc_inv st3 w2 /\ unseen st w st3 w2 /\ al_heap st3 = al_heap st).
  { destruct stopped; [|by injection E3 as <- <-].
    apply prepareFrom_spec in E3 as (P1 & P2 & P3 & _).
    destruct (alloc_inv_prepare st2 st3 w2) as [Q1 Q2]; [done|done|done|exact P3|].
    split_and!; [done|by eapply unseen_trans|injection P1; congruence]. }
  destruct H3 as (Hi3 & Hu3 & Hh3).
  set (st4 := if prepared then markAndRecycle st3 else st3).
  assert (H4 : exists w4, alloc_inv st4 w4 /\ unseen st w st4 w4 /\ al_heap st4 = al_heap st).
  { subst st4. destruct prepared; [|by exists w2].
    destruct (markAndRecycle_spec st3 w2 Hi3) as (w4 & R1 & R2 & R3 & _).
    exists w4. split_and!; [done|by eapply unseen_trans|congruence]. }
  destruct H4 as (w4 & Hi4 & Hu4 & Hh4). clearbody st4.
  destruct (alloc_inv_tick st4 w4 (S (al_tick st4)) ltac:(lia) Hi4) as [Hi5 Hu5].
  set (st5 := set_tick st4 _) in *.
  split_and!.
  - exists w4. eapply chain_steps; [exact Hu4|]. eapply chain_steps; [exact Hu5|]. 
    apply alloc_inv_counts; done.
  - exact Hh4.
Qed.

(** The state in which it marks satisfies the invariant, its marks mapped. *)
Lemma sweepStart_spec self st st1 w :
  alloc_inv st w -> sweepStart self st = Some st1 ->
  (exists w1, alloc_inv st1 w1 /\ unseen st w st1 w1) /\ prepared st1 /\ al_heap st1 = al_heap st.
Proof.
  intros Hi. unfold sweepStart. destruct (weavecRtAllocatorNested self st); [done|].
  destruct (inv_weavecRtFlushThread self st w Hi) as ((w1 & Hi1 & Hu1) & Hh1).
  set (st2 := weavecRtFlushThread self st) in *. clearbody st2.
  destruct (negb (weavecRtSweepWanted st2)); [done|]. unfold ask. cbn [al_tick set_tick].
  destruct (negb (sys_ok _)); [done|]. destruct (negb (sys_ok _)); [done|]. destruct (negb (sys_ok _)); [done|].
  change (set_tick (set_tick (set_tick (set_tick st2 _) _) _) _) with (set_tick st2 (S (S (S (S (al_tick st2)))))).
  destruct (alloc_inv_tick st2 w1 (S (S (S (S (al_tick st2))))) ltac:(lia) Hi1) as [Hi2 Hu2].
  set (st3 := set_tick st2 _) in *.
  assert (Eh : al_heap st3 = al_heap st) by exact Hh1.
  clearbody st3.
  destruct (weavecRtPrepareMarks st3) as [b st4] eqn:E4. destruct b; [|done]. intros [= <-].
  apply prepareFrom_spec in E4 as (P1 & P2 & P3 & P4).
  destruct (alloc_inv_prepare st3 st4 w1) as [Q1 Q2]; [done|done|done|exact P3|].
  assert (Eh4 : al_heap st4 = al_heap st3) by (by injection P1). split_and!.
  - exists w1. split; [done|]. eapply unseen_trans; [exact Hu1|]. by eapply unseen_trans.
  - intros r Hr Hd. rewrite Eh4 in Hr. apply P4; [done|lia|]. destruct (P3 r) as [<-|[_ E]]; [done|by rewrite E in Hd].
  - congruence.
Qed.

(** Once mapped, the marks stay. *)
Lemma prepared_once st : prepared st -> weavecRtPrepareMarks st = (true, st).
Proof.
  intros Hp. unfold weavecRtPrepareMarks.
  assert (H : forall n region, 0 <= region -> region + Z.of_nat n <= h_regions (al_heap st) -> prepareFrom n region st = (true, st)).
  { induction n as [|n IH]; intros region Hr Hn; cbn [prepareFrom]; [done|].
    destruct (marks (al_region st region)) eqn:Em; [apply IH; lia|].
    destruct (Z.eqb_spec (deadHead (al_region st region)) 0) as [|Hd]; [apply IH; lia|]. by destruct (Hp region ltac:(lia) Hd). }
  destruct (Z.le_gt_cases 0 (h_regions (al_heap st))); [apply H; lia|]. by rewrite Z2Nat.nonpos by lia.
Qed.

(** Such a sweep marks and recycles; the rest of it counts. *)
Lemma sweepStart_sweep self st st1 :
  sweepStart self st = Some st1 ->
  (al_heap (weavecRtSweep self st), al_words (weavecRtSweep self st), al_region (weavecRtSweep self st),
   al_huge (weavecRtSweep self st))
  = (al_heap (markAndRecycle st1), al_words (markAndRecycle st1), al_region (markAndRecycle st1), al_huge (markAndRecycle st1)).
Proof.
  unfold sweepStart, weavecRtSweep. destruct (weavecRtAllocatorNested self st); [done|].
  destruct (negb (weavecRtSweepWanted _)); [done|]. unfold ask. cbn [al_tick set_tick].
  destruct (negb (sys_ok _)); [done|]. destruct (negb (sys_ok _)); [done|].
  destruct (sys_ok _); cbn [negb]; [|done].
  destruct (weavecRtPrepareMarks _) as [[] st4]; [|done]. intros [= <-]. done.
Qed.

(** ** The lists of a region *)

(** The slots of a region's quarantine, and of its free list. *)
Definition quarantined (st : alloc) (r s : Z) : Prop :=
  exists l, chain (al_words st r) (deadHead (al_region st r)) l /\ s ∈ l.
Definition free_listed (st : alloc) (r s : Z) : Prop :=
  exists l, chain (al_words st r) (freeHead (al_region st r)) l /\ s ∈ l.

Lemma chain_unique words l : forall head l', chain words head l -> chain words head l' -> l = l'.
Proof.
  induction l as [|s l IH]; intros head [|s' l']; cbn; [done|lia|lia|].
  intros (E & Hs & Hc) (E' & Hs' & Hc'). assert (s' = s) as -> by lia. f_equal. by eapply IH.
Qed.

Lemma listed_place words w head p l s :
  listed words w head p l -> (exists l', chain words head l' /\ s ∈ l') <-> 0 <= s /\ w s = p.
Proof.
  intros [Hc _ He]. rewrite <- He. split; [|by exists l].
  intros (l' & Hl & Hin). by rewrite (chain_unique _ _ _ _ Hc Hl).
Qed.

Lemma quarantined_place st w r s : slots st w -> 0 <= r < 160 -> quarantined st r s <-> 0 <= s /\ w r s = Queued.
Proof.
  intros Hs Hr. destruct (ro_dead _ _ _ _ _ (so_region _ _ _ _ _ _ _ Hs r Hr)) as (l & Hl & _). by apply (listed_place _ _ _ _ l).
Qed.

Lemma free_listed_place st w r s : slots st w -> 0 <= r < 160 -> free_listed st r s <-> 0 <= s /\ w r s = Free.
Proof.
  intros Hs Hr. destruct (ro_free _ _ _ _ _ (so_region _ _ _ _ _ _ _ Hs r Hr)) as (l & Hl). by apply (listed_place _ _ _ _ l).
Qed.

(** What becomes of a quarantined slot in a sweep. *)
Lemma sweep_decides self st st1 w r s :
  alloc_inv st w -> sweepStart self st = Some st1 -> 0 <= r < h_regions (al_heap st) -> quarantined st1 r s ->
  exists w1, alloc_inv st1 w1 /\ 0 <= s /\ w1 r s = Queued
    /\ (recycles st1 w1 r s -> free_listed (weavecRtSweep self st) r s)
    /\ (~ recycles st1 w1 r s -> quarantined (weavecRtSweep self st) r s /\ ~ free_listed (weavecRtSweep self st) r s).
Proof.
  intros Hi Hst Hr Hq. destruct (sweepStart_spec self st st1 w Hi Hst) as ((w1 & Hi1 & _) & _ & Hh).
  pose proof (sweepStart_sweep self st st1 Hst) as E. injection E as E1 E2 E3 E4.
  destruct (markAndRecycle_spec st1 w1 Hi1) as (w' & Hi' & _ & Hh' & Hfree & Hsame & _).
  pose proof (regions_range _ _ (proj1 (proj1 Hi))) as [_ H160].
  destruct (proj1 (quarantined_place st1 w1 r s (proj1 (proj1 Hi1)) ltac:(lia)) Hq) as [Hs0 Hqw].
  assert (Hf : free_listed (weavecRtSweep self st) r s <-> w' r s = Free).
  { pose proof (free_listed_place (markAndRecycle st1) w' r s (proj1 (proj1 Hi')) ltac:(lia)) as X.
    unfold free_listed in *. rewrite E2, E3. tauto. }
  assert (Hd : quarantined (weavecRtSweep self st) r s <-> w' r s = Queued).
  { pose proof (quarantined_place (markAndRecycle st1) w' r s (proj1 (proj1 Hi')) ltac:(lia)) as X.
    unfold quarantined in *. rewrite E2, E3. tauto. }
  exists w1. split; [exact Hi1|]. split; [exact Hs0|]. split; [exact Hqw|]. split.
  - intros Hrec. apply Hf. by apply Hfree.
  - intros Hn. rewrite Hf, Hd, (Hsame r s Hn). by rewrite Hqw.
Qed.
End Recycle.
