(* ===== verification/SweepRoots.v ===== *)
(** * From a root to a mark

    The composition of SweepScan and SweepWork with the marks of Sweep: a word
    in memory the program can reach that points into a quarantined slot marks
    it, by the pass of one thread, and so by the workers. *)

From stdpp Require Import list sorting relations.
From S2P Require Import Prelude Shadow Classes Heap HugeBlocks Sweep SweepScan ScanFacts HeapFacts PopFacts MarkFacts SweepFacts SweepWork.
Local Open Scope Z_scope.

(** ** Whole words *)

(** Bounds that cut no word. *)
Definition whole (r : range) : Prop := 0 <= fst r < snd r /\ fst r mod 8 = 0 /\ snd r mod 8 = 0 /\ snd r < 2 ^ 63.

Definition aligned (l : list range) : Prop := Forall (fun r => fst r mod 8 = 0 /\ snd r mod 8 = 0) l.

Lemma wrap_mod_8 x : wrap64 x mod 8 = x mod 8.
Proof. unfold wrap64. change (2 ^ 64) with (8 * 2 ^ 61). rewrite Z.rem_mul_r by lia. rewrite Z.mul_comm, Z.mod_add by lia. apply Z.mod_mod. lia. Qed.

Lemma whole_ranges_app l1 l2 : Forall whole l1 -> Forall whole l2 -> Forall whole (l1 ++ l2).
Proof. intros. by apply list.Forall_app. Qed.

Lemma excluding_whole internal : forall low high,
  aligned internal -> 0 <= low -> low mod 8 = 0 -> high mod 8 = 0 -> high < 2 ^ 63 ->
  Forall whole (scanExcludingFrom internal low high).
Proof.
  induction internal as [|[x y] rest IH]; intros low high Hi Hl Hlm Hhm Hh; cbn [scanExcludingFrom].
  { compare_cases; [|constructor]. constructor; [|constructor]. unfold whole. cbn. lia. }
  apply list.Forall_cons in Hi as [[Hx Hy] Hr]. cbn [fst snd] in *.
  compare_cases; try (by apply IH); try apply whole_ranges_app; try (by constructor); try (apply IH; done || lia).
  constructor; [|constructor]. unfold whole. cbn. lia.
Qed.

Section Scan.
Context (x86_64 : bool) (pageSize : Z).
Context (mincore : Z -> Z -> option (list Z)) (pagemapAt : Z -> Z -> option (list Z)).
Context (internal : list range) (stacks : list Z).
Context (Hint : aligned internal) (Hstacks : Forall (fun s => s mod 8 = 0) stacks).
Context (Hsize : exists n, 3 <= n < 62 /\ pageSize = 2 ^ n).

Lemma page_bounds : 0 < pageSize < 2 ^ 62 /\ pageSize mod 8 = 0.
Proof.
  destruct Hsize as (n & Hn & ->). split; [split; [lia|apply Z.pow_lt_mono_r; lia]|].
  replace n with (3 + (n - 3)) by lia. rewrite Z.pow_add_r by lia. rewrite Z.mul_comm. apply Z_mod_mult.
Qed.

Lemma times_page k : (k * pageSize) mod 8 = 0.
Proof. rewrite Zmult_mod, (proj2 page_bounds), Z.mul_0_r. done. Qed.

Lemma stackIn_aligned low high : stackIn stacks low high mod 8 = 0.
Proof.
  unfold stackIn. assert (H : forall sp, sp mod 8 = 0 -> foldl (fun sp s => if (s >=? low) && (s <? high) && ((sp =? 0) || (s <? sp)) then s else sp) sp stacks mod 8 = 0); [|by apply H].
  revert Hstacks. clear. induction stacks as [|s l IH]; intros Hs sp Hsp; cbn [foldl]; [done|]. apply list.Forall_cons in Hs as [Hs Hl].
  apply IH; [done|]. by destruct ((s >=? low) && (s <? high) && ((sp =? 0) || (s <? sp))).
Qed.

Lemma liveFrom_aligned sp low : sp mod 8 = 0 -> low mod 8 = 0 -> liveFrom x86_64 sp low mod 8 = 0.
Proof.
  intros Hs Hl. unfold liveFrom. destruct (_ >? low); [|done]. unfold sub64. rewrite wrap_mod_8, Zminus_mod, Hs.
  unfold RedZone. by destruct x86_64.
Qed.

Lemma liveFrom_low sp low : low <= liveFrom x86_64 sp low.
Proof. unfold liveFrom. rewrite Z.gtb_ltb. bool_cases; lia. Qed.

Lemma skip_aligned x : x mod 8 = 0 -> skipInternal internal x mod 8 = 0.
Proof.
  clear - Hint. revert x Hint. unfold skipInternal. induction internal as [|r l IH]; intros x Hal Hx; cbn [foldl]; [done|].
  apply list.Forall_cons in Hal as [[_ Hr] Hl]. apply IH; [done|]. by destruct ((x >=? fst r) && (x <? snd r)).
Qed.

Lemma pages_whole wanted pages : forall i low high,
  0 <= i -> 0 <= low -> low mod 8 = 0 -> high mod 8 = 0 -> high < 2 ^ 63 -> Forall whole (scanPages pageSize internal wanted pages i low high).
Proof.
  induction pages as [|p pages IH]; intros i low high Hi Hl Hlm Hhm Hh; cbn [scanPages]; [constructor|].
  apply whole_ranges_app; [|by apply IH; try lia]. destruct (wanted p); [|constructor]. pose proof page_bounds as [Hp _].
  apply excluding_whole; [done|nia|by rewrite Zplus_mod, Hlm, times_page| |].
  - destruct (_ <? high); [|done]. unfold add64. by rewrite wrap_mod_8, Zplus_mod, Hlm, times_page.
  - cbn zeta. bool_cases; lia.
Qed.

Lemma resident_whole pagemap low high :
  0 <= low -> high mod 8 = 0 -> high < 2 ^ 63 ->
  Forall whole (scanResident pageSize mincore pagemapAt internal low high pagemap).
Proof.
  intros Hl Hhm Hh. pose proof page_bounds as [Hp _]. destruct Hsize as (n & Hn & Ep). unfold scanResident.
  assert (E : Z.land low (Z.lnot (pageSize - 1)) = low / pageSize * pageSize) by (rewrite Ep; apply land_lnot_ones; lia). rewrite E.
  assert (Hx : 0 <= low / pageSize * pageSize /\ (low / pageSize * pageSize) mod 8 = 0)
    by (split; [apply Z.mul_nonneg_nonneg; [apply Z.div_pos|]; lia|apply times_page]).
  revert Hx. generalize (low / pageSize * pageSize), (residentFuel pageSize (low / pageSize * pageSize) high). clear E Hl low.
  intros x fuel. revert x. induction fuel as [|fuel IH]; intros x [Hx Hxm]; cbn [scanResidentFrom]; [constructor|].
  pose proof (proj1 (skipInternal_ok internal x)) as Hs. pose proof (skip_aligned x Hxm) as Hsm. set (y := skipInternal internal x) in *. clearbody y.
  cbn zeta. destruct (Z.ltb_spec y high); [|constructor].
  set (chunk := if high - y >? vectorPages * pageSize then vectorPages * pageSize else high - y).
  assert (Hchunk : 0 < chunk /\ y + chunk <= high /\ (y + chunk) mod 8 = 0).
  { subst chunk. unfold vectorPages. compare_cases; (split; [lia|split; [lia|]]); [by rewrite Zplus_mod, Hsm, times_page|by replace (y + (high - y)) with high by lia]. }
  destruct Hchunk as (Hc0 & Hc & Hcm). apply whole_ranges_app; [|apply IH; split; [lia|done]]. unfold scanChunk.
  repeat case_match; try (apply pages_whole; done || lia); apply excluding_whole; done || lia.
Qed.

(** Every range of the mappings is made of whole words. *)
Lemma mapping_whole pagemap m :
  mapping_ok m -> m_low m mod 8 = 0 -> m_high m mod 8 = 0 ->
  Forall whole (mappingRanges x86_64 pageSize mincore pagemapAt internal stacks pagemap m).
Proof.
  intros [[Hlow Hhigh] _ _ _] Hlm Hhm. unfold mappingRanges, scanMapping, scanStack.
  pose proof (stackIn_aligned (m_low m) (m_high m)) as Hsp. set (sp := stackIn stacks (m_low m) (m_high m)) in *.
  pose proof (liveFrom_aligned sp _ Hsp Hlm) as Hlive. pose proof (liveFrom_low sp (m_low m)) as Hge.
  assert (Hsmall : sp <> 0 -> liveFrom x86_64 sp (m_low m) < 2 ^ 63).
  { intros Hne. destruct (stackIn_lowest stacks (m_low m) (m_high m) ltac:(lia)) as [[? _]|[_ [Hin _]]]; [done|]. fold sp in Hin.
    unfold liveFrom, sub64, RedZone. rewrite wrap64_small by (destruct x86_64; lia). rewrite Z.gtb_ltb. bool_cases; destruct x86_64; lia. }
  destruct (_ && _); [|constructor]. destruct (_ || _); [constructor|]. destruct (_ || _); [|constructor]. cbn zeta.
  destruct (negb _); [apply resident_whole; done || lia|].
  destruct (Z.eqb_spec sp 0); cbn [orb]; [apply excluding_whole; done || lia|].
  destruct (named _ _); [apply excluding_whole; done || lia|].
  apply whole_ranges_app; [apply resident_whole; [lia|done|by apply Hsmall]|apply excluding_whole; done || lia].
Qed.

(** ** From the text of the mappings to the marks *)

Section Marks.
Context {P : Pages} {Sys : System}.
Context (isResident isWritten : Z -> bool).
Context (Hmincore : mincore_ok pageSize mincore isResident) (Hpagemap : pagemap_ok pagemapAt isWritten).

Lemma covered_word l a : Forall whole l -> covered l a -> a mod 8 = 0 -> exists r, r ∈ l /\ whole r /\ fst r <= a /\ a + 8 <= snd r.
Proof.
  intros Hl Hc Ha. apply list.Exists_exists in Hc as (r & Hr & Hin). rewrite list.Forall_forall in Hl. destruct (Hl r Hr) as (H1 & H2 & H3 & H4).
  unfold inRange in Hin. exists r. split_and!; try done; [lia|]. clear - H3 Hin Ha. euclid.
Qed.

(** A word of a covered address is one of those marked from. *)
Lemma covered_root st l a : Forall whole l -> covered l a -> a mod 8 = 0 -> load_le (al_mem st) a 8 ∈ rootWords st l.
Proof.
  intros Hl Hc Ha. destruct (covered_word l a Hl Hc Ha) as (r & Hr & (H1 & H2 & H3 & H4) & Hlo & Hhi).
  unfold rootWords. apply list_elem_of_In, in_concat. exists (wordsIn (al_mem st) (fst r) (snd r)). split; [apply (in_map (fun r => wordsIn (al_mem st) (fst r) (snd r))); by apply list_elem_of_In|].
  apply list_elem_of_In. replace (snd r) with (fst r + (snd r - fst r)) by lia. rewrite wordsIn_elem by lia.
  exists ((a - fst r) / 8). assert (Hd : a - fst r = 8 * ((a - fst r) / 8)) by (apply Z_div_exact_full_2; [lia|]; rewrite Zminus_mod, Ha, H2; done).
  split_and!; [lia|lia|f_equal; lia].
Qed.

(** A quarantined slot has a mark once the marks are mapped. *)
Lemma prepared_marks st0 st w r s :
  weavecRtPrepareMarks st0 = (true, st) -> slots st w -> 0 <= r < 160 -> 0 <= s -> w r s = Queued -> marks (al_region st r) <> None.
Proof.
  intros E Hs Hr Hs0 Hq. pose proof (queued_head st w r s Hs Hr Hs0 Hq) as Hd.
  assert (Hlt : r < h_regions (al_heap st)).
  { destruct (Z.lt_ge_cases r (h_regions (al_heap st))) as [|Hge]; [done|exfalso].
    pose proof (spare_region st w r Hs ltac:(lia)) as Hb0.
    assert (X : w r s = Fresh) by (apply (ro_fresh _ _ _ _ _ (so_region _ _ _ _ _ _ _ Hs r Hr)); lia). congruence. }
  apply prepareFrom_spec in E as (P1 & _ & P3 & P4). assert (Eh : al_heap st = al_heap st0) by (by injection P1).
  apply P4; [done|rewrite <- Eh; lia|]. destruct (P3 r) as [<-|[_ E]]; [done|by rewrite E in Hd].
Qed.

End Marks.
End Scan.
