(* ===== verification/HugeFacts.v ===== *)
(** * Blocks mapped on their own keep the allocator's invariant

    [hugeAlloc] and [hugeFree] of the file HugeBlocks over the invariant of the
    file PopFacts: their mappings are apart from the arena and each other, so
    that no slot sees them. *)

From S2P Require Import Prelude Shadow Report Classes Heap HugeBlocks Sweep HeapFacts PopFacts CacheFacts.
From S2P Require Import MarkFacts SweepFacts.
Local Open Scope Z_scope.

(** The documented behaviour of [mmap] of fresh pages: they start a page, are
    of the process's addresses (below [top]) and overlap no mapping there
    is. *)
Definition maps_apart `{P : Pages} {Sys : System} (top : Z) : Prop :=
  forall n mapped bytes low, 0 < bytes -> sys_map n mapped bytes = Some low ->
    0 < low /\ low mod pageBytes = 0 /\ low + bytes <= top
    /\ Forall (fun m => low + bytes <= fst m \/ fst m + snd m <= low) mapped.

Section Huge.
Context `{P : Pages} (HP : pages_wf) {Sys : System}.

(** The shadow and the bytes outside the arena are no slot's. *)
Lemma heap_inv_outside st st' w :
  heap_inv st w ->
  (al_heap st', al_words st', al_region st', al_next st', al_class st', al_active st')
  = (al_heap st, al_words st, al_region st, al_next st, al_class st, al_active st) ->
  changes_only (al_shadow st) (al_shadow st') (fun a => ~ in_arena (al_heap st) a) ->
  (forall a, in_arena (al_heap st) a -> al_mem st' a = al_mem st a) -> heap_inv st' w.
Proof.
  intros [Hs Hb] [= E1 E2 E3 E4 E5 E6] Hsh Hm. pose proof (so_heap _ _ _ _ _ _ _ Hs) as Hh.
  split; [by unfold slots; rewrite E1, E2, E3, E4, E5, E6|]. rewrite E1, E2, E3.
  pose proof (bytes_outside _ _ _ _ _ _ _ _ _ _ Hs Hb Hsh) as [B1 B2 B3 B4 B5 B6 B7]. constructor; try done.
  - intros r a Hr Ha. rewrite Hm; [by apply (B6 r)|].
    destruct (arena_bounds _ Hh r Hr) as (H1 & _ & H2 & _). unfold in_arena.
    destruct (capacity_of _ Hh r Hr) as (_ & Hz & _).
    destruct (ro_bump _ _ _ _ _ (so_region _ _ _ _ _ _ _ Hs r Hr)) as [Hb' _]. nia.
  - intros r s a Hr Hs0 Hu Ha. rewrite Hm; [by apply (B7 r s)|].
    destruct (slots_bound _ _ _ _ _ _ _ Hs r s Hr Hs0) as [Hb' _]; [intros E; by rewrite E in Hu|].
    destruct (slot_bounds _ Hh r s Hr ltac:(lia)) as (H1 & _ & H2).
    destruct (arena_bounds _ Hh r Hr) as (H3 & _ & H4 & _). unfold in_slot in Ha. unfold in_arena. lia.
Qed.

(** The same for the whole of the allocator, its table another. *)
Lemma alloc_inv_outside st st' w :
  alloc_inv st w ->
  (al_heap st', al_words st', al_region st', al_next st', al_class st', al_active st', al_caches st')
  = (al_heap st, al_words st, al_region st, al_next st, al_class st, al_active st, al_caches st) ->
  changes_only (al_shadow st) (al_shadow st') (fun a => ~ in_arena (al_heap st) a) ->
  (forall a, in_arena (al_heap st) a -> al_mem st' a = al_mem st a) -> huge_ok st' -> alloc_inv st' w.
Proof.
  intros (Hi & Hc & Hg) [= E1 E2 E3 E4 E5 E6 E7] Hsh Hm Hg'. split_and!; [|..|done].
  - apply (heap_inv_outside st); [done|congruence|done|done].
  - pose proof (regions_range _ _ (proj1 Hi)) as [_ H160].
    apply (caches_ok_frame st w); try done; [apply Hi|by apply grown_same|by rewrite E1].
Qed.

(** ** Allocation *)

Lemma roundPage_spec size :
  0 <= size < 2 ^ 62 ->
  let bytes := roundPage size pageBytes in
  size <= bytes < size + pageBytes /\ bytes mod pageBytes = 0.
Proof.
  destruct HP as (k & Hk & Hp). intros Hs. assert (0 < 2 ^ k <= 2 ^ 30) by (split; [lia|apply Z.pow_le_mono_r; lia]).
  unfold roundPage. rewrite Hp. rewrite wrap64_small by lia. split; [euclid|apply Z_mod_mult].
Qed.

Lemma page_16 : pageBytes mod 16 = 0 /\ 16 <= pageBytes <= 2 ^ 30.
Proof.
  destruct HP as (k & Hk & Hp). rewrite Hp. split.
  - replace k with (4 + (k - 4)) by lia. rewrite Z.pow_add_r by lia. rewrite Z.mul_comm. apply Z_mod_mult.
  - split; [apply (Z.pow_le_mono_r 2 4); lia|apply Z.pow_le_mono_r; lia].
Qed.

(** What an allocation that maps a block comes to: the block, live, its bytes
    zero and the program's, in a mapping apart from the arena and from every
    other block's; nothing else changes. *)
Record huge_made (st st' : alloc) (block size alignment : Z) : Prop := {
  hm_new : exists b, ht_blocks (al_huge st') ≡ₚ b :: ht_blocks (al_huge st)
    /\ hb_base b = block /\ hb_size b = size /\ hb_dead b = 0
    /\ hb_map b <= block /\ block + size <= hb_map b + hb_mapBytes b
    /\ Forall (apart (hb_map b) (hb_mapBytes b)) (ht_blocks (al_huge st))
    /\ apart (h_base (al_heap st)) (h_bytes (al_heap st)) b
    /\ forall a, ~ (hb_map b <= a < hb_map b + hb_mapBytes b) -> al_mem st' a = al_mem st a;
  hm_bytes : forall a, block <= a < block + size -> al_mem st' a = 0 /\ addressable (al_shadow st') a = true;
  hm_aligned : block mod pageBytes = 0 /\ (16 < alignment -> block mod alignment = 0);
  hm_besides : (al_heap st', al_words st', al_region st', al_next st', al_class st', al_active st', al_caches st')
               = (al_heap st, al_words st, al_region st, al_next st, al_class st, al_active st, al_caches st);
  hm_bits : s_bits (al_shadow st') = s_bits (al_shadow st);
  hm_tick : (al_tick st <= al_tick st')%nat;
  hm_releases : ht_releases (al_huge st') = ht_releases (al_huge st)
}.

(** A request's alignment: none, or a power of two. *)
Definition aligned_request (alignment : Z) : Prop :=
  0 <= alignment < 2 ^ 64 /\ (16 < alignment -> Z.land alignment (alignment - 1) = 0).

(** The alignment a block is mapped with. *)
Lemma huge_alignment alignment :
  aligned_request alignment ->
  exists a, 4 <= a <= 63 /\ (if alignment <? pageBytes then pageBytes else alignment) = 2 ^ a
    /\ (pageBytes | 2 ^ a) /\ (16 < alignment -> (alignment | 2 ^ a)).
Proof.
  intros [Ha Hp]. destruct HP as (k & Hk & E). rewrite E.
  assert (Hdiv : forall i j, 0 <= i <= j -> (2 ^ i | 2 ^ j)).
  { intros i j Hij. exists (2 ^ (j - i)). rewrite <- Z.pow_add_r by lia. f_equal. lia. }
  destruct (Z.ltb_spec alignment (2 ^ k)) as [Hlt|Hge].
  - exists k. split; [lia|]. split; [done|]. split; [apply Hdiv; lia|]. intros H16. destruct (power_of_two alignment ltac:(lia) (Hp H16)) as (j & Hj & ->).
    apply Hdiv. apply Z.pow_lt_mono_r_iff in Hlt; lia.
  - assert (2 ^ 4 <= 2 ^ k) by (apply Z.pow_le_mono_r; lia).
    destruct (Z.eq_dec alignment 16) as [E16|Hne].
    { assert (k = 4) as -> by (assert (k <= 4) by (apply (Z.pow_le_mono_r_iff 2); lia); lia).
      exists 4. rewrite E16. split; [lia|]. split; [done|]. split; [apply Z.divide_refl|lia]. }
    specialize (Hp ltac:(lia)). destruct (power_of_two alignment ltac:(lia) Hp) as (j & Hj & ->).
    assert (j < 64) by (apply (Z.pow_lt_mono_r_iff 2); lia).
    assert (k <= j) by (apply (Z.pow_le_mono_r_iff 2); lia).
    exists j. split; [lia|]. split; [done|]. split; [apply Hdiv; lia|intros; apply Z.divide_refl].
Qed.

(** Room in the table, or none. *)
Lemma hugeGrow_spec st b st' :
  hugeGrow st = (b, st') ->
  exists cap n, st' = set_huge (set_tick st n) (mkHugeTable (ht_blocks (al_huge st)) cap (ht_low (al_huge st))
      (ht_high (al_huge st)) (ht_deadCount (al_huge st)) (ht_deadBytes (al_huge st)) (ht_releases (al_huge st)))
    /\ (al_tick st <= n)%nat.
Proof.
  unfold hugeGrow, ask. destruct (_ =? ht_capacity _).
  - destruct (sys_map _ _ _); intros [= <- <-]; [eexists _, (S (al_tick st))|exists (ht_capacity (al_huge st)), (S (al_tick st))];
      (split; [|lia]); by destruct st as [? ? ? ? ? ? ? ? ? ? [] ? ? ? ? ?].
  - intros [= <- <-]. exists (ht_capacity (al_huge st)), (al_tick st). split; [|done].
    by destruct st as [? ? ? ? ? ? ? ? ? ? [] ? ? ? ? ?].
Qed.

Lemma table_capacity t cap :
  table_ok t -> table_ok (mkHugeTable (ht_blocks t) cap (ht_low t) (ht_high t) (ht_deadCount t) (ht_deadBytes t) (ht_releases t)).
Proof. intros [A B C]. by constructor. Qed.

Lemma alloc_inv_room st w n cap :
  (al_tick st <= n)%nat -> alloc_inv st w ->
  let st' := set_huge (set_tick st n) (mkHugeTable (ht_blocks (al_huge st)) cap (ht_low (al_huge st))
      (ht_high (al_huge st)) (ht_deadCount (al_huge st)) (ht_deadBytes (al_huge st)) (ht_releases (al_huge st))) in
  alloc_inv st' w /\ unseen st w st' w.
Proof.
  intros Hn Hi st'. pose proof Hi as (Hh & Hc & Ht & Hb). split.
  - apply (alloc_inv_outside st); try done; [|split; [by apply table_capacity|done]].
    apply changes_none. apply Hh.
  - constructor; try done; [intros; by left|by left].
Qed.

(** A mapping of a request that was not refused holds the block, its shadow
    tail and a page more. *)
Lemma huge_layout s size a low :
  shadow_wf s -> 0 <= size < 2 ^ 64 -> 4 <= a <= 63 -> (pageBytes | 2 ^ a) -> hugeRefused s size (2 ^ a) = false ->
  let bytes := roundPage size pageBytes in
  let bytes := if bytes =? 0 then pageBytes else bytes in
  let mapBytes := add64 (bytes + pageBytes) (if pageBytes <? 2 ^ a then 2 ^ a else 0) in
  0 < mapBytes /\ 0 < bytes /\ bytes mod 16 = 0 /\ size <= bytes
  /\ (0 < low -> low mod pageBytes = 0 -> low + mapBytes <= 2 ^ s_bits s ->
      let base := Z.land (add64 low (2 ^ a - 1)) (Z.lnot (2 ^ a - 1)) in
      low <= base /\ base + bytes + pageBytes <= low + mapBytes /\ (2 ^ a | base)).
Proof.
  intros Hwf Hs Ha Hdiv Hr bytes0 bytes mapBytes. destruct page_16 as [Hp16 Hp]. set (A := 2 ^ a) in *.
  assert (HA : 16 <= A <= 2 ^ 63) by (split; [apply (Z.pow_le_mono_r 2 4); lia|apply Z.pow_le_mono_r; lia]).
  assert (HpA : pageBytes <= A) by (apply Z.divide_pos_le; [lia|done]).
  assert (Hsz : size <= 2 ^ 61).
  { unfold hugeRefused in Hr. rewrite (ready_wf s Hwf) in Hr. pose proof (wf_bits s Hwf).
    rewrite (proj2 (Z.ltb_lt (s_bits s) 64)) in Hr by lia. apply orb_false_iff in Hr as [_ Hr]. cbn [andb] in Hr.
    apply Z.ltb_ge in Hr. rewrite Z.shiftl_1_l in Hr.
    assert (2 ^ (s_bits s - 2) <= 2 ^ 61) by (apply Z.pow_le_mono_r; lia). lia. }
  destruct (roundPage_spec size ltac:(lia)) as [Hb1 Hb2]. fold bytes0 in Hb1, Hb2.
  assert (Hb : 0 < bytes /\ size <= bytes /\ bytes <= 2 ^ 61 + 2 ^ 30 /\ (pageBytes | bytes)).
  { subst bytes. destruct (Z.eqb_spec bytes0 0) as [E|]; split_and!; try lia; try apply Z.divide_refl.
    apply Z.mod_divide; [lia|done]. }
  assert (HM : mapBytes = bytes + pageBytes + (if pageBytes <? A then A else 0)).
  { unfold mapBytes, add64. apply wrap64_small. destruct (pageBytes <? A); lia. }
  clearbody mapBytes bytes. destruct Hb as (Hb0 & Hbs & Hbm & Hbd).
  assert (Hb16 : bytes mod 16 = 0).
  { apply Z.mod_divide; [done|]. eapply Z.divide_trans; [|exact Hbd]. by apply Z.mod_divide. }
  split_and!; try done; [destruct (pageBytes <? A); lia|]. intros Hl Hlm Hend base.
  pose proof (wf_bits s Hwf). assert (2 ^ s_bits s <= 2 ^ 63) by (apply Z.pow_le_mono_r; lia).
  assert (Hbase : base = (low + (A - 1)) / A * A).
  { unfold base, add64. rewrite wrap64_small by (destruct (Z.ltb_spec pageBytes A); lia). apply land_lnot_ones. lia. }
  clearbody base. subst base. split_and!; [euclid| |by exists ((low + (A - 1)) / A)].
  rewrite HM. destruct (Z.ltb_spec pageBytes A) as [|Hge]; [euclid|].
  assert (EA : A = pageBytes) by lia. rewrite EA. apply Z.mod_divide in Hlm as [q ->]; [|lia].
  rewrite Z.div_add_l, (Z.div_small (pageBytes - 1)) by lia. lia.
Qed.

Lemma hugeAlloc_spec top size alignment st w :
  maps_apart top -> top <= 2 ^ s_bits (al_shadow st) -> alloc_inv st w -> 0 <= size < 2 ^ 64 ->
  aligned_request alignment ->
  let res := hugeAlloc size alignment st in
  alloc_inv (snd res) w
  /\ ((fst res = 0 /\ unseen st w (snd res) w) \/ (0 < fst res /\ huge_made st (snd res) (fst res) size alignment)).
Proof.
  intros Hmap Htop Hi Hs Hal. unfold hugeAlloc. destruct (huge_alignment alignment Hal) as (a & Ha & -> & Hpd & Had).
  destruct (hugeRefused (al_shadow st) size (2 ^ a)) eqn:Hr.
  { split; [done|]. left. split; [done|apply unseen_refl]. }
  pose proof (proj2 (proj1 Hi)) as Hby. pose proof (bs_wf _ _ _ _ _ _ Hby) as Hwf.
  pose proof (fun low => huge_layout _ size a low Hwf Hs Ha Hpd Hr) as Hlay. cbv zeta in Hlay |- *.
  set (bytes := if roundPage size pageBytes =? 0 then _ else _) in *.
  set (mapBytes := add64 (bytes + pageBytes) _) in *. unfold ask.
  destruct (alloc_inv_tick st w (S (al_tick st)) ltac:(lia) Hi) as [Hi1 Hu1].
  destruct (sys_map (al_tick st) (mappings st) mapBytes) as [low|] eqn:Emap.
  2:{ cbn [fst snd]. split; [done|]. by left. }
  destruct (Hlay low) as (Hm0 & Hb0 & Hb16 & Hbs & Hbase).
  destruct (Hmap _ _ _ _ Hm0 Emap) as (Hl0 & Hlm & Hend & Hap).
  destruct (Hbase Hl0 Hlm ltac:(lia)) as (Hlow & Hhigh & Hdiv). clear Hlay Hbase.
  set (base := Z.land _ _) in *. cbn [set_tick al_tick]. 
  set (st1 := set_tick (set_tick st _) _). destruct (hugeGrow st1) as [grown st2] eqn:Eg.
  apply hugeGrow_spec in Eg as (cap & n & -> & Hn). cbn [st1 set_tick al_tick] in Hn.
  destruct (alloc_inv_room st w n cap ltac:(lia) Hi) as [Hi2 Hu2].
  destruct grown; cbn [negb]; [|split; [done|by left]]. cbn [fst snd]. clearbody base bytes mapBytes.
  set (b := mkHuge base size low mapBytes 0 false).
  assert (Hpos : 0 < base) by lia.
  destruct page_16 as [Hp16 Hp].
  apply list.Forall_cons in Hap as [Harena Hap].
  assert (Hapart : Forall (apart low mapBytes) (ht_blocks (al_huge st))).
  { clear - Hap. induction (ht_blocks (al_huge st)) as [|x l IH]; [done|]. cbn in Hap.
    apply list.Forall_cons in Hap as [H1 H2]. constructor; [exact H1|auto]. }
  assert (Hnot : forall x, low <= x < low + mapBytes -> ~ in_arena (al_heap st) x)
    by (intros x Hx; unfold in_arena; cbn in Harena; lia).
  assert (H16 : base mod 16 = 0).
  { apply Z.mod_divide; [done|]. eapply Z.divide_trans; [|exact Hdiv]. exists (2 ^ (a - 4)).
    replace 16 with (2 ^ 4) by done. rewrite <- Z.pow_add_r by lia. f_equal. lia. }
  destruct Hi2 as (Hh2 & Hc2 & Ht2 & Hb2).
  destruct (hugeInsert_ok _ b Ht2 Hm0 Hapart) as [Htab Hperm].
  destruct (shadowLive_spec HP (al_heap st) (al_shadow st) base size bytes Hwf) as (Hch & Hon & _); [lia|done|done|lia|lia|lia|].
  set (st3 := set_shadow _ _).
  assert (Hi3 : alloc_inv st3 w).
  { apply (alloc_inv_outside st); try done.
    - eapply changes_only_weaken; [|exact Hch]. intros x Hx. apply Hnot. cbv beta in Hx. lia.
    - intros x Hx. subst st3. cbn. rewrite fill_bytes_eq. case_decide as E; [|done]. by apply Hnot in E.
    - split; [done|]. assert (Hbits : s_bits (al_shadow st3) = s_bits (al_shadow st)) by (by destruct Hch as (_ & E & _)).
      rewrite Hbits. revert Hperm. match goal with |- ht_blocks ?x ≡ₚ _ -> _ => change (al_huge st3) with x end.
      intros Hperm. change (al_heap st3) with (al_heap st). rewrite Hperm. constructor; [|exact Hb2].
      constructor; cbn; try done; try lia.
      + split; [euclid|lia].
      + unfold apart. cbn in Harena |- *. lia. }
  split; [done|right]. split; [done|].
  constructor; try done.
  - exists b. split; [exact Hperm|]. split_and!; try done; [cbn; lia|unfold apart; cbn in Harena |- *; lia|].
    intros x Hx. subst st3. cbn. rewrite fill_bytes_eq. by case_decide.
  - intros x Hx. split; [|by apply Hon]. subst st3. cbn. rewrite fill_bytes_eq. case_decide; [done|lia].
  - split; [|intros H16']; (apply Z.mod_divide; [lia|eapply Z.divide_trans; [|exact Hdiv]]); auto.
  - by destruct Hch as (_ & E & _).
  - cbn. lia.
Qed.

(** ** Release *)

Lemma shadowSet_outside h s base size value :
  shadow_wf s -> 0 <= base -> 0 < size -> base + size <= 2 ^ s_bits s -> 0 <= value < 256 ->
  (forall a, base / 16 * 16 <= a < base / 16 * 16 + up_16 size -> ~ in_arena h a) ->
  changes_only s (weavecRtShadowSet s base size value) (fun a => ~ in_arena h a).
Proof.
  intros Hwf Hb Hs He Hv Hout. pose proof (window_room s Hwf). pose proof (window_split s Hwf).
  assert (Hwf' : shadow_wf (weavecRtShadowSet s base size value)) by (by apply shadowSet_wf).
  split_and!; [done|apply shadowSet_bits|]. intros a Ha Hn.
  rewrite !addressable_gval by (rewrite ?shadowSet_bits; done). rewrite shadowSet_gval by (done || lia).
  case_decide as E; [|done]. exfalso. apply Hn, Hout. unfold up_16. euclid.
Qed.

Lemma shadowClear_outside h s low high :
  shadow_wf s -> 0 <= low < high -> high <= 2 ^ s_bits s ->
  (forall a, low / 16 * 16 <= a < up_16 high -> ~ in_arena h a) ->
  changes_only s (weavecRtShadowClear s low high) (fun a => ~ in_arena h a).
Proof.
  intros Hwf Hl Hh Hout. pose proof (window_split s Hwf).
  assert (Hb : s_bits (weavecRtShadowClear s low high) = s_bits s)
    by (unfold weavecRtShadowClear; by repeat case_match).
  split_and!; [by apply shadowClear_wf|done|]. intros a Ha Hn.
  rewrite !addressable_gval by (rewrite ?Hb; auto using shadowClear_wf). rewrite (shadowClear_gval HP) by (done || lia).
  case_decide as E; [|done]. exfalso. apply Hn, Hout. unfold up_16. euclid.
Qed.

(** The shadow of a block's release is its mapping's. *)
Lemma hugeShadowDead_outside h s b :
  shadow_wf s -> block_ok h (s_bits s) b ->
  changes_only s (hugeShadowDead s (hb_base b) (hb_size b)) (fun a => ~ in_arena h a).
Proof.
  intros Hwf [A1 A2 A3 A4 A5]. pose proof (window_split s Hwf). set (base := hb_base b) in *. set (size := hb_size b) in *.
  assert (Hout : forall a, base <= a < base + up_16 size -> ~ in_arena h a).
  { intros a Ha. unfold up_16, in_arena, apart in *. lia. }
  assert (HF : 0 <= WeavecRtShadowHeapFreed < 256) by (vm_compute; intuition congruence).
  assert (HT : TailLimit = 65536) by done. clearbody base size.
  unfold hugeShadowDead, shadowDead. destruct (Z.ltb_spec (2 * TailLimit) size) as [Hbig|Hsmall].
  - assert (H1 : changes_only s (weavecRtShadowSet s base TailLimit WeavecRtShadowHeapFreed) (fun a => ~ in_arena h a)).
    { apply shadowSet_outside; try done; try (clear - A1 A2 A4 Hbig HT H; euclid).
      intros a Ha. apply Hout. unfold up_16 in *. clear - A2 Hbig HT Ha. euclid. }
    pose proof H1 as (W1 & B1 & _). eapply changes_only_trans; [exact H1|]. rewrite <- B1 in A4, H.
    set (s1 := weavecRtShadowSet s _ _ _) in *. clearbody s1.
    assert (H2 : changes_only s1 (weavecRtShadowClear s1 (base + TailLimit) (base + size - TailLimit)) (fun a => ~ in_arena h a)).
    { apply shadowClear_outside; try done; try (clear - A1 A2 A4 Hbig HT H; euclid).
      intros a Ha. apply Hout. unfold up_16 in *. clear - A2 Hbig HT Ha. euclid. }
    pose proof H2 as (W2 & B2 & _). eapply changes_only_trans; [exact H2|]. rewrite <- B2 in A4, H.
    set (s2 := weavecRtShadowClear s1 _ _) in *. clearbody s2.
    apply shadowSet_outside; try done; try (clear - A1 A2 A4 Hbig HT H; euclid).
    intros a Ha. apply Hout. unfold up_16 in *. clear - A2 Hbig HT Ha. euclid.
  - destruct (Z.eq_dec size 0) as [->|Hne].
    + replace (weavecRtShadowSet s base 0 WeavecRtShadowHeapFreed) with s by (unfold weavecRtShadowSet; by rewrite orb_true_r).
      by apply changes_none.
    + apply shadowSet_outside; try done; try (clear - A1 A2 A3 A4 H Hne; euclid).
      intros a Ha. apply Hout. unfold up_16 in *. clear - A2 Ha. euclid.
Qed.

Definition huge_dead (n : Z) (b : HugeBlock) : HugeBlock :=
  mkHuge (hb_base b) (hb_size b) (hb_map b) (hb_mapBytes b) n (hb_marked b).

(** What the release of a mapped block comes to: the block is dead, its bytes
    gone; nothing else changes. *)
Record huge_freed (st st' : alloc) (i : nat) (b : HugeBlock) : Prop := {
  hf_block : ht_blocks (al_huge st) !! i = Some b;
  hf_dead : hb_dead b = 0;
  hf_table : ht_blocks (al_huge st') = <[i := huge_dead (add64 (ht_releases (al_huge st)) 1) b]> (ht_blocks (al_huge st));
  hf_mem : forall a, ~ (hb_map b <= a < hb_map b + hb_mapBytes b) -> al_mem st' a = al_mem st a;
  hf_besides : (al_heap st', al_words st', al_region st', al_next st', al_class st', al_active st', al_caches st', al_tick st')
               = (al_heap st, al_words st, al_region st, al_next st, al_class st, al_active st, al_caches st, al_tick st);
  hf_bits : s_bits (al_shadow st') = s_bits (al_shadow st);
  hf_releases : ht_releases (al_huge st') = add64 (ht_releases (al_huge st)) 1
}.

Lemma huge_holds h bits b : block_ok h bits b -> holds (hb_base b) b = true.
Proof.
  intros [A1 A2 A3 A4 A5]. unfold holds. apply andb_true_iff. split; [apply Z.leb_le|apply Z.ltb_lt]; euclid.
Qed.

(** The live block at an address, as the table finds it. *)
Lemma huge_live_find st p size :
  huge_ok st -> huge_live (al_huge st) p size <->
  exists b, hugeFind (al_huge st) p = Some b /\ hb_base b = p /\ hb_dead b = 0 /\ hb_size b = size.
Proof.
  intros [Ht Hb]. split.
  - intros (b & Hin & Hd & E1 & E2). exists b. split_and!; try done. apply hugeFind_some; [done|]. split; [done|].
    rewrite <- E1. apply (huge_holds (al_heap st) (s_bits (al_shadow st))). by apply (proj1 (list.Forall_forall _ _) Hb).
  - intros (b & Hf & E1 & Hd & E2). apply hugeFind_some in Hf as [Hin _]; [|done]. by exists b.
Qed.

Lemma hugeFree_found st p b :
  hugeFind (al_huge st) p = Some b -> hb_base b = p -> hb_dead b = 0 -> fst (hugeFree p st) = true.
Proof.
  unfold hugeFind, hugeHolding, hugeFree. destruct (negb _); [done|]. cbv zeta.
  destruct (0 <=? hugeIndex _ p); cbn [andb]; [|done]. destruct (p <? _); [|done].
  intros [= <-] E1 E2. rewrite (proj2 (Z.eqb_eq _ _) E1), (proj2 (Z.eqb_eq _ _) E2). done.
Qed.

Lemma hugeFree_spec st w p :
  alloc_inv st w ->
  let res := hugeFree p st in
  if fst res then alloc_inv (snd res) w /\ exists i b, hb_base b = p /\ huge_freed st (snd res) i b
  else snd res = st /\ forall size, ~ huge_live (al_huge st) p size.
Proof.
  intros Hi res. pose proof Hi as (Hh & _ & Ht & Hb).
  destruct (fst res) eqn:E.
  2:{ split.
      - subst res. unfold hugeFree in *. destruct (negb _); [done|]. cbv zeta in *. by destruct (_ && _).
      - intros size (b & Hf & E1 & E2 & _)%huge_live_find; [|by split]. subst res. by rewrite (hugeFree_found st p b) in E. }
  subst res. unfold hugeFree in *. destruct (negb (maybeHuge (al_huge st) p)); [done|]. cbv zeta in *.
  destruct (hugeIndex_split (ht_blocks (al_huge st)) p (tb_sorted _ Ht) (tb_bytes _ Ht)) as (n & En & Hn & _).
  rewrite En in *. replace (Z.to_nat (Z.of_nat n - 1)) with (n - 1)%nat in * by lia.
  destruct (Z.leb_spec 0 (Z.of_nat n - 1)); cbn [andb] in *; [|done].
  pose proof (hugeAt_lookup (ht_blocks (al_huge st)) (n - 1) ltac:(lia)) as Hlk.
  set (b := hugeAt _ _) in *. clearbody b.
  destruct (Z.eqb_spec (hb_base b) p) as [Ebp|]; cbn [andb] in *; [|done].
  destruct (Z.eqb_spec (hb_dead b) 0) as [Ed|]; cbn [andb] in *; [|done]. cbn [fst snd].
  pose proof (proj1 (Forall_lookup _ _) Hb _ _ Hlk) as Hbo.
  pose proof (bs_wf _ _ _ _ _ _ (proj2 Hh)) as Hwf.
  pose proof (hugeShadowDead_outside _ _ b Hwf Hbo) as Hsh.
  set (st' := set_huge _ _).
  assert (Hbits : s_bits (al_shadow st') = s_bits (al_shadow st)) by (by destruct Hsh as (_ & ? & _)).
  split.
  - apply (alloc_inv_outside st); try done.
    + intros a Ha. subst st'. cbn. rewrite fill_bytes_eq. case_decide; [|done].
      destruct Hbo as [_ _ _ _ Hap]. unfold apart, in_arena in *. lia.
    + split; [by apply (table_replace _ _ b)|]. rewrite Hbits. cbn. apply list.Forall_insert; [done|]. by destruct Hbo.
  - exists (n - 1)%nat, b. split; [done|]. constructor; try done.
    intros a Ha. subst st'. cbn. rewrite fill_bytes_eq. by case_decide.
Qed.
End Huge.
