(* ===== verification/AllocFacts.v ===== *)
(** * Allocation

    The allocation paths of the files Heap and Allocator over the invariant of
    the file PopFacts: [makeLive], [takeSlot], [cachedAlloc], [allocateSlot] and
    [allocate].  A slot an allocation takes was not live, and if its block had
    been released, nothing pointed into it. *)

From S2P Require Import Prelude Shadow Report Classes Heap HugeBlocks Sweep Allocator HeapFacts PopFacts CacheFacts.
From S2P Require Import MarkFacts SweepFacts.
Local Open Scope Z_scope.

Section Alloc.
Context `{P : Pages} (HP : pages_wf) {Sys : System}.

Lemma shadowLive_bits h s base size slot : s_bits (shadowLive h s base size slot) = s_bits s.
Proof. unfold shadowLive. case_match; [rewrite shadowSet_bits|]; apply shadowObject_bits. Qed.

(** What becomes of a slot that goes live with an object of [size] bytes: its
    word, its bytes, and nothing else. *)
Record becomes_live (st st' : alloc) (r s size : Z) : Prop := {
  bl_word : al_words st' r s = makeWord size WeavecRtLive;
  bl_bytes : forall a, slotStart (al_heap st) r s <= a < slotStart (al_heap st) r s + size ->
               al_mem st' a = 0 /\ addressable (al_shadow st') a = true;
  bl_mem : forall a, ~ in_slot (al_heap st) r s a -> al_mem st' a = al_mem st a;
  bl_words : forall r' s', ~ (r' = r /\ s' = s) -> al_words st' r' s' = al_words st r' s';
  bl_besides : (al_heap st', al_region st', al_class st', al_caches st', al_huge st', al_tick st')
               = (al_heap st, al_region st, al_class st, al_caches st, al_huge st, al_tick st);
  bl_bits : s_bits (al_shadow st') = s_bits (al_shadow st)
}.

Lemma alloc_makeLive st w r s u size :
  alloc_inv st w -> 0 <= r < h_regions (al_heap st) -> 0 <= s -> w r s = Hand u ->
  0 <= size < c_size (entryOf (al_heap st) r) ->
  let res := makeLive (slotEntry r s u) size (c_size (entryOf (al_heap st) r)) st in
  fst res = slotStart (al_heap st) r s /\ alloc_inv (snd res) (set_place w r s Live)
  /\ becomes_live st (snd res) r s size.
Proof.
  intros (Hi & Hc & Hg) Hr Hs Hw Hsz res. pose proof (proj1 Hi) as Hsl. pose proof (so_heap _ _ _ _ _ _ _ Hsl) as Hh.
  pose proof (regions_range _ _ Hsl) as [_ H160].
  destruct (inv_makeLive HP st w r s u size Hi ltac:(lia) Hs Hw Hsz) as (E & Hi' & Hword & Hbytes).
  fold res in E, Hi', Hword, Hbytes. split; [done|].
  destruct (slots_bound _ _ _ _ _ _ _ Hsl r s ltac:(lia) Hs) as [Hcap H27]; [by rewrite Hw|].
  destruct (slot_bounds _ Hh r s ltac:(lia) ltac:(lia)) as (Hlo & _ & Hhi).
  destruct (arena_bounds _ Hh r ltac:(lia)) as (Hba & _ & Htop & _).
  assert (Hbl : becomes_live st (snd res) r s size).
  { subst res. unfold makeLive in *. rewrite entryRegion_slotEntry, entrySlot_slotEntry in * by lia. cbn [fst snd] in *.
    constructor; try done.
    - intros a Ha. destruct (_ && _); cbn; [|done].
      rewrite (zeroFill_spec HP) by (fold (slotStart (al_heap st) r s); lia). case_decide as Ed; [|done].
      exfalso. apply Ha. unfold in_slot, slotStart in *. lia.
    - intros r' s' Hne. destruct (_ && _); cbn; rewrite setAt_cases; (case_decide; [subst|done]); apply setAt_ne; tauto.
    - by destruct (_ && _).
    - cbn. rewrite shadowLive_bits. by destruct (_ && _). }
  split; [|done]. clearbody res. destruct Hbl as [_ _ _ _ Hb Hbits]. injection Hb as E1 E2 E3 E4 E5 E6.
  split_and!; [done| |apply (huge_ok_frame st); [by apply grown_same|done|done|done]].
  apply (caches_ok_frame st w); try done; [by apply grown_same|by rewrite E1|..].
  - intros r' s' t c u' Hh'. rewrite set_place_cases. case_decide as Ed; [destruct Ed; congruence|done].
  - intros r' s' o Hh'. rewrite set_place_cases. case_decide as Ed; [destruct Ed; congruence|done].
Qed.

(** What an allocation comes to: a slot that was not live, whose block, if it
    had been released, nothing pointed into when a sweep recycled it; now live,
    of the size asked, its bytes zero; the other live blocks as they were. *)
Record allocated (st : alloc) (w : Z -> Z -> place) (st' : alloc) (w' : Z -> Z -> place) (block size r s : Z) : Prop := {
  ad_slot : 0 <= r < h_regions (al_heap st') /\ 0 <= s /\ block = slotStart (al_heap st') r s;
  ad_size : 0 <= size < c_size (entryOf (al_heap st') r);
  ad_grown : grown st st';
  ad_was : w r s <> Live;
  ad_released : denied (w r s) = true ->
    exists n, (al_tick st <= n < al_tick st')%nat /\ unreferenced st w (sys_roots n) r s;
  ad_live : w' r s = Live /\ al_words st' r s = makeWord size WeavecRtLive;
  ad_bytes : forall a, block <= a < block + size -> al_mem st' a = 0 /\ addressable (al_shadow st') a = true;
  ad_mem : forall a, ~ in_slot (al_heap st') r s a -> al_mem st' a = al_mem st a;
  ad_others : forall r' s', ~ (r' = r /\ s' = s) -> w' r' s' = Live <-> w r' s' = Live;
  ad_words : forall r' s', ~ (r' = r /\ s' = s) -> w r' s' = Live -> al_words st' r' s' = al_words st r' s';
  ad_huge : forall base n, huge_live (al_huge st') base n <-> huge_live (al_huge st) base n;
  ad_bits : s_bits (al_shadow st') = s_bits (al_shadow st);
  ad_releases : ht_releases (al_huge st') = ht_releases (al_huge st);
  ad_stale : stale st w st' w'
}.

Lemma allocated_intro st w st1 w1 st2 r s size :
  slots st w -> unseen st w st1 w1 -> 0 <= r < h_regions (al_heap st1) -> h_regions (al_heap st1) <= 160 -> 0 <= s ->
  available (w1 r s) = true -> 0 <= size < c_size (entryOf (al_heap st1) r) -> becomes_live st1 st2 r s size ->
  allocated st w st2 (set_place w1 r s Live) (slotStart (al_heap st1) r s) size r s.
Proof.
  intros Hs Hu Hr H160 Hs0 Ha Hsz [B1 B2 B3 B4 B5 B6]. injection B5 as E1 E2 E3 E4 E5 E6.
  assert (Hset : set_place w1 r s Live r s = Live) by (rewrite set_place_cases; case_decide; [done|tauto]).
  assert (Hne : forall r' s', ~ (r' = r /\ s' = s) -> set_place w1 r s Live r' s' = w1 r' s')
    by (intros r' s' Hn; rewrite set_place_cases; by case_decide).
  constructor; rewrite ?E1; try done.
  - apply (grown_trans _ st1); [apply Hu|by apply grown_same].
  - intros E. apply (us_live _ _ _ _ Hu) in E. by rewrite E in Ha.
  - intros Hd. destruct (us_released _ _ _ _ Hu r s) as [Hd1|(_ & n & Hn & Hun)]; [|done| |exists n; by rewrite E6].
    + split; [lia|]. destruct (Z.lt_ge_cases r (h_regions (al_heap st))) as [|Hge]; [done|exfalso].
      pose proof (spare_region st w r Hs ltac:(lia)) as Hb0.
      assert (E : w r s = Fresh) by (apply (ro_fresh _ _ _ _ _ (so_region _ _ _ _ _ _ _ Hs r ltac:(lia))); lia).
      by rewrite E in Hd.
    + by destruct (w1 r s).
  - intros a Hna. rewrite B3 by done. by rewrite (us_mem _ _ _ _ Hu).
  - intros r' s' Hn. rewrite Hne by done. apply (us_live _ _ _ _ Hu).
  - intros r' s' Hn Hl. rewrite B4 by done. by apply (us_words _ _ _ _ Hu).
  - intros base n. rewrite E5. apply (us_huge _ _ _ _ Hu).
  - rewrite B6. apply (us_bits _ _ _ _ Hu).
  - rewrite E5. apply (us_releases _ _ _ _ Hu).
  - split; [rewrite E6; apply (us_tick _ _ _ _ Hu)| |intros Hm; apply (regions_marks st1); [exact E2|by apply Hu]]. intros r' s' Hr' Hd.
    destruct (st_slots _ _ _ _ (unseen_stale _ _ _ _ Hu) r' s' Hr' Hd) as [Hd1|(n & Hn & Hun)]; [left|right; exists n; by rewrite E6].
    destruct (decide (r' = r /\ s' = s)) as [[-> ->]|Hn]; [by destruct (w1 r s)|by rewrite Hne].
Qed.

Lemma own_inj st w f c l r s u : own st w f c l -> slotEntry r s u ∈ l -> 0 <= r < 160 -> 0 <= s < 2 ^ 27 -> w r s = f u.
Proof.
  intros [_ S] Hin Hr Hs. destruct (S _ Hin) as (r' & s' & u' & E & Hr' & Hs' & _ & Hw).
  apply slotEntry_inj in E; [|lia..]. by destruct E as (-> & -> & ->).
Qed.

(** The slots of a list taken are held by a cache. *)
Definition holding (t : nat) (c : Z) (w w' : Z -> Z -> place) : Prop :=
  forall r s, w' r s = w r s \/ exists u, w r s = Hand u /\ w' r s = Held t c u.

Lemma inv_hold t c l : forall st w done_,
  heap_inv st w -> own st w Hand c l -> own st w (Held t c) c done_ ->
  exists w', heap_inv st w' /\ own st w' (Held t c) c (done_ ++ l) /\ holding t c w w'
    /\ (forall r s u, w r s = Hand u -> (r, s) ∉ slotKey <$> l -> w' r s = Hand u).
Proof.
  induction l as [|e l IH]; intros st w done_ Hi Ho Hd.
  { exists w. rewrite app_nil_r. split_and!; try done. by left. }
  destruct (own_uncons _ _ _ _ _ _ Ho) as (r & s & u & -> & [Hr H160] & Hs & Hc & Hw & Ho').
  pose proof (ro_words _ _ _ _ _ (so_region _ _ _ _ _ _ _ (proj1 Hi) r ltac:(lia)) s ltac:(lia)) as Hwd.
  destruct (IH st (set_place w r s (Held t c u)) (done_ ++ [slotEntry r s u])) as (w' & Hi' & Hall & Hh & Hk).
  - apply inv_move; rewrite ?Hw; try done; try lia.
    rewrite Hw in Hwd. by destruct u.
  - apply Ho'.
  - apply own_snoc; try done. intros v. by rewrite Hw.
  - rewrite <- app_assoc in Hall. exists w'. split_and!; [done|done| |].
    + intros r' s'. destruct (Hh r' s') as [->|(v & E & ->)]; rewrite set_place_cases in *; case_decide as Ed;
        [destruct Ed as [-> ->]; right; eauto|by left|done|right; eauto].
    + intros r' s' v E Hnot. rewrite fmap_cons, slotKey_entry in Hnot by lia. apply not_elem_of_cons in Hnot as [Hn1 Hn2].
      apply Hk; [|done]. rewrite set_place_cases. case_decide as Ed; [destruct Ed; congruence|done].
Qed.

(** A cache's list of free slots of one class is another. *)
Lemma cache_with_alloc st w w1 self k c l :
  cache_ok st w self k -> 0 <= c < cachedClasses (al_heap st) ->
  (forall r s c' u, c' <> c -> w r s = Held self c' u -> w1 r s = Held self c' u) ->
  (forall r s o, w r s = Claimed (Some o) -> w1 r s = Claimed (Some o)) ->
  own st w1 (Held self c) c l -> Z.of_nat (length l) <= cacheLimit st c ->
  cache_ok st w1 self (tc_with_alloc k c l).
Proof.
  intros [A R B O] Hc Hh Hcl Ho Hl. constructor; cbn.
  - intros c'. rewrite setAt_cases. case_decide as E; [by subst c'|]. apply (own_ext _ w); [intros; by apply Hh|done].
  - intros c'. apply (own_ext _ w); [intros; by apply Hcl|done].
  - intros c' Hc'. destruct (B c' Hc') as [B1 B2]. rewrite setAt_cases. case_decide as E; [by subst c'|done].
  - intros c' Hc'. rewrite setAt_ne by (intros ->; done). by apply O.
Qed.

Lemma others_frame self st w w1 :
  others_ok self st w -> slots st w ->
  (forall r s t c u, t <> self -> w r s = Held t c u -> w1 r s = Held t c u) ->
  (forall r s o, w r s = Claimed (Some o) -> w1 r s = Claimed (Some o)) -> others_ok self st w1.
Proof.
  intros Ho Hs Hh Hc t k Hne Hk. destruct (Ho t k Hne Hk) as [H1 H2]. split; [|done].
  pose proof (regions_range _ _ Hs) as [_ H160].
  apply (cache_ok_frame st w); try done; [intros r s c u; by apply Hh|intros r s c; apply Hc].
Qed.

(** Slots that stay available, or as they were: no one sees. *)
Lemma unseen_places st w w1 :
  (forall r s, w1 r s = w r s \/ (available (w r s) = true /\ available (w1 r s) = true)) -> unseen st w st w1.
Proof.
  intros H. constructor; try done.
  - intros r s. destruct (H r s) as [->|[A1 A2]]; [done|]. by destruct (w r s), (w1 r s).
  - intros r s Ha. by destruct (H r s) as [->|[A1 A2]].
  - intros r s _ Hd. left. destruct (H r s) as [->|[A1 A2]]; [done|]. by destruct (w r s).
  - by left.
Qed.

Lemma unseen_cache st w self k k0 :
  ownCache self st = Some k0 -> tc_rest k = tc_rest k0 -> unseen st w (set_cache st self k) w.
Proof.
  intros Hk Hr. constructor; try done; [intros; by left|].
  intros t. left. rewrite calls_set, Hk. case_decide; [subst t|done]. unfold calls. rewrite Hk. cbn. f_equal. exact Hr.
Qed.

(** A thread's slot [r], [s] in hand goes live; its cache keeps [l]. *)
Lemma cached_take self k k0 c l st w r s u size :
  work self (tc_with_alloc k c l) st w -> ownCache self st = Some k0 -> tc_rest k = tc_rest k0 -> room st k ->
  0 <= r < h_regions (al_heap st) -> 0 <= s -> al_class st r = c -> w r s = Hand u -> 0 <= size < slotBytesOf st c ->
  let '(k1, st1) := if FoldBytes <=? tc_liveDelta k then foldLive k st else (k, st) in
  let res := makeLive (slotEntry r s u) size (slotBytesOf st c) (set_cache st1 self (tc_with_alloc k1 c l)) in
  alloc_inv (snd res) (set_place w r s Live) /\ fst res = slotStart (al_heap st) r s
  /\ exists st2, unseen st w st2 w /\ becomes_live st2 (snd res) r s size /\ al_heap st2 = al_heap st /\ al_class st2 = al_class st.
Proof.
  intros Hw Hk Hrest Hroom Hr Hs Hcl Hp Hsz.
  destruct (if FoldBytes <=? tc_liveDelta k then foldLive k st else (k, st)) as [k1 st1] eqn:E.
  assert (Hf : besides_counts st1 = besides_counts st /\ tc_alloc k1 = tc_alloc k /\ tc_release k1 = tc_release k
               /\ tc_rest k1 = tc_rest k).
  { destruct (_ <=? _); [by apply foldLive_counts|by injection E as <- <-]. }
  destruct Hf as (Hb & Ha & Hrel & Hr1). pose proof Hb as Hb'. injection Hb' as E1 E2 E3 E4 E5 E6 E7 E8 E9 E10 E11 E12.
  pose proof (proj1 (wk_heap _ _ _ _ Hw)) as Hsl.
  assert (Hw1 : work self (tc_with_alloc k1 c l) st1 w).
  { apply (work_counts self (tc_with_alloc k c l) _ st); [done|cbn; by rewrite Ha|done|done]. }
  assert (Hk1 : ownCache self st1 = Some k0) by (unfold ownCache; by rewrite E7).
  assert (Hi : alloc_inv (set_cache st1 self (tc_with_alloc k1 c l)) w).
  { apply work_end; [done|]. apply (room_frame st w); [done|by apply grown_same|].
    intros c' Hc'. cbn. rewrite Hrel. by apply Hroom. }
  assert (Hent : c_size (entryOf (al_heap st) r) = slotBytesOf st c).
  { unfold slotBytesOf. destruct (so_class _ _ _ _ _ _ _ Hsl r Hr) as [_ ->]. by rewrite Hcl. }
  cbv zeta. rewrite <- Hent in *. 
  set (st2 := set_cache st1 self (tc_with_alloc k1 c l)) in *.
  assert (Hh2 : al_heap st2 = al_heap st) by (cbn; done). assert (Hc2 : al_class st2 = al_class st) by (cbn; done).
  assert (Hu2 : unseen st w st2 w).
  { eapply unseen_trans; [by apply unseen_counts|]. apply (unseen_cache _ _ _ _ k0); [done|]. rewrite <- Hrest. exact Hr1. }
  clearbody st2.
  destruct (alloc_makeLive st2 w r s u size Hi) as (R1 & R2 & R3); rewrite ?Hh2; try done.
  rewrite Hh2 in R1, R2, R3. split_and!; [done|done|]. exists st2. by split_and!.
Qed.

(** What a path of an allocation comes to: no memory, or a slot of the class. *)
Definition slot_or_none (st : alloc) (w : Z -> Z -> place) (c size block : Z) (st' : alloc) (w' : Z -> Z -> place) : Prop :=
  (block = 0 /\ unseen st w st' w')
  \/ (exists r s, allocated st w st' w' block size r s /\ al_class st' r = c /\ c_size (entryOf (al_heap st') r) = slotBytesOf st c).

Lemma slot_class st w r c :
  slots st w -> 0 <= r < h_regions (al_heap st) -> al_class st r = c -> c_size (entryOf (al_heap st) r) = slotBytesOf st c.
Proof. intros Hs Hr <-. unfold slotBytesOf. by destruct (so_class _ _ _ _ _ _ _ Hs r Hr) as [_ <-]. Qed.

(** What the calls of a thread keep is kept, or the cache is new. *)
Definition calls_kept (st st' : alloc) : Prop :=
  (al_tick st <= al_tick st')%nat
  /\ forall t, calls st' t = calls st t \/ (calls st t = None /\ calls st' t = Some (0, 0, [])).

Lemma calls_kept_trans st st1 st2 : calls_kept st st1 -> calls_kept st1 st2 -> calls_kept st st2.
Proof.
  intros [T1 H1] [T2 H2]. split; [lia|]. intros t. destruct (H2 t) as [->|[E1 E2]]; [apply H1|].
  destruct (H1 t) as [E3|[E3 E4]]; [right; split; congruence|congruence].
Qed.

Lemma unseen_kept st w st' w' : unseen st w st' w' -> calls_kept st st'.
Proof. intros H. split; [apply H|]. intros t. apply (us_calls _ _ _ _ H). Qed.

Lemma becomes_live_kept st st' r s size : becomes_live st st' r s size -> calls_kept st st'.
Proof.
  intros [_ _ _ _ B _]. injection B as E1 E2 E3 E4 E5 E6. split; [lia|]. intros t. left.
  unfold calls, ownCache. by rewrite E4.
Qed.

Lemma calls_own st st' self k :
  ownCache self st = Some k -> calls_kept st st' -> exists k', ownCache self st' = Some k' /\ tc_rest k' = tc_rest k.
Proof.
  intros Hk [_ H]. specialize (H self). unfold calls in H. rewrite Hk in H. cbn in H.
  destruct (ownCache self st') as [k'|]; cbn in H; [|by destruct H as [?|[? ?]]].
  destruct H as [E|[? ?]]; [|done]. exists k'. split; [done|]. unfold tc_rest. congruence.
Qed.

Section Sweeping.
Context (self : nat).

Lemma sweep_ok : sweep_spec (weavecRtSweep self).
Proof.
  intros st w Hi. destruct (weavecRtSweep_spec HP self st w Hi) as ((w' & H1 & H2) & H3).
  exists w'. split_and!; [done|done|by rewrite H3].
Qed.

Lemma takeSlot_spec c size st w :
  alloc_inv st w -> 0 <= c < h_classes (al_heap st) -> 0 <= size < slotBytesOf st c ->
  exists block st' w', takeSlot (weavecRtSweep self) c size st = (Some block, st') /\ alloc_inv st' w'
    /\ calls_kept st st' /\ slot_or_none st w c size block st' w'.
Proof.
  intros Hi Hc Hsz. unfold takeSlot.
  destruct (alloc_popClass HP _ sweep_ok 1 c st w Hi Hc) as (l & st1 & w1 & -> & Hi1 & Hu1 & Ho1 & Hl1).
  destruct l as [|taken [|? ?]]; [|clear Hl1|cbn in Hl1; lia].
  { exists 0, st1, w1. split_and!; [done|done|by eapply unseen_kept|by left]. }
  destruct (own_uncons _ _ _ _ _ _ Ho1) as (r & s & u & -> & [Hr H160] & Hs & Hcl & Hp & _).
  assert (Hb : besides_counts (addLive (slotBytesOf st c) st1) = besides_counts st1) by done.
  destruct (alloc_inv_counts _ _ w1 Hb Hi1) as [Hi2 Hu2]. set (st2 := addLive _ st1) in *.
  assert (Hh2 : al_heap st2 = al_heap st1) by done. assert (Hc2 : al_class st2 = al_class st1) by done. clearbody st2.
  pose proof (regions_range _ _ (proj1 (proj1 Hi))) as Hrr.
  assert (E : slotBytesOf st c = c_size (entryOf (al_heap st2) r)).
  { rewrite Hh2, (slot_class st1 w1 r c) by (try done; apply Hi1). unfold slotBytesOf.
    by destruct (gr_same _ _ (us_grown _ _ _ _ Hu1) c ltac:(lia)) as [-> _]. }
  rewrite E in *.
  pose proof (alloc_makeLive st2 w1 r s u size Hi2 ltac:(by rewrite Hh2) ltac:(lia) Hp Hsz) as (R1 & R2 & R3).
  destruct (makeLive _ _ _ st2) as [block st3]. cbn [fst snd] in *.
  exists block, st3, (set_place w1 r s Live). split_and!; [done|done| |right; exists r, s].
  - eapply calls_kept_trans; [by eapply unseen_kept|]. eapply calls_kept_trans; [by eapply unseen_kept|].
    by eapply becomes_live_kept.
  - pose proof (bl_besides _ _ _ _ _ R3) as B. injection B as B1 B2 B3 B4 B5 B6. split_and!.
    + rewrite R1. apply (allocated_intro st w st2 w1); try done; [apply Hi|by eapply unseen_trans|by rewrite Hh2|by rewrite Hh2|lia|].
      by rewrite Hp.
    + by rewrite B3, Hc2.
    + by rewrite B1.
Qed.

Lemma cachedAlloc_spec c size st w k :
  alloc_inv st w -> ownCache self st = Some k -> 0 <= c < cachedClasses (al_heap st) -> 0 <= size < slotBytesOf st c ->
  exists block st' w', cachedAlloc self k c size st = (Some block, st') /\ alloc_inv st' w'
    /\ calls_kept st st' /\ slot_or_none st w c size block st' w'.
Proof.
  intros Hi Hk Hc Hsz. unfold cachedAlloc.
  pose proof (cachedClasses_spec st w (proj1 (proj1 Hi))) as [Hcc _].
  assert (Hfinish : forall st1 w1 w2 k1 l taken, alloc_inv st1 w1 -> unseen st w st1 w1 -> ownCache self st1 = Some k1 ->
     work self (tc_with_alloc k1 c l) st1 w2 -> unseen st1 w1 st1 w2 -> room st1 k1 ->
     (exists r s u, taken = slotEntry r s u /\ 0 <= r < h_regions (al_heap st1) /\ 0 <= s /\ al_class st1 r = c /\ w2 r s = Hand u) ->
     exists block st' w',
       (let k2 := tc_with_delta k1 (tc_liveDelta k1 + slotBytesOf st c) in
        let '(k2, st2) := if FoldBytes <=? tc_liveDelta k2 then foldLive k2 st1 else (k2, st1) in
        let st3 := set_cache st2 self (tc_with_alloc k2 c l) in
        let '(block, st4) := makeLive taken size (slotBytesOf st c) st3 in (Some block, st4)) = (Some block, st')
       /\ alloc_inv st' w' /\ calls_kept st st' /\ slot_or_none st w c size block st' w').
  { intros st1 w1 w2 k1 l taken Hi1 Hu1 Hk1 Hw Hu2 Hroom (r & s & u & -> & Hr & Hs & Hcl & Hp).
    pose proof (regions_range _ _ (proj1 (wk_heap _ _ _ _ Hw))) as [_ H160].
    pose proof (regions_range _ _ (proj1 (proj1 Hi))) as Hrr.
    assert (E : slotBytesOf st c = slotBytesOf st1 c).
    { unfold slotBytesOf. by destruct (gr_same _ _ (us_grown _ _ _ _ Hu1) c ltac:(lia)) as [-> _]. }
    assert (E' : c_size (entryOf (al_heap st1) r) = slotBytesOf st1 c) by (by apply (slot_class st1 w2); [apply (wk_heap _ _ _ _ Hw)|..]).
    rewrite E in *. cbv zeta.
    pose proof (cached_take self (tc_with_delta k1 (tc_liveDelta k1 + slotBytesOf st1 c)) k1 c l st1 w2 r s u size) as Hct.
    destruct (if FoldBytes <=? tc_liveDelta _ then _ else _) as [k2 st2] eqn:Ef. cbv zeta in Hct.
    destruct (makeLive _ _ _ (set_cache st2 self _)) as [block st4] eqn:Em. cbn [fst snd] in Hct.
    destruct Hct as (R1 & R2 & st3 & R3 & R4 & R5 & R6); try done.
    { apply (work_counts self (tc_with_alloc k1 c l) _ st1); try done. }
    assert (Hu3 : unseen st w st3 w2) by (eapply unseen_trans; [exact Hu1|]; by eapply unseen_trans).
    exists block, st4, (set_place w2 r s Live). split_and!; [done|done| |right; exists r, s].
    - eapply calls_kept_trans; [by eapply unseen_kept|by eapply becomes_live_kept].
    - pose proof (bl_besides _ _ _ _ _ R4) as B. injection B as B1 B2 B3 B4 B5 B6. split_and!.
      + rewrite R2, <- R5. apply (allocated_intro st w st3 w2); rewrite ?R5; try done; [apply Hi|by rewrite Hp|by rewrite E'].
      + by rewrite B3, R6.
      + by rewrite B1, R5, E', E. }
  destruct (tc_alloc k c) as [|e l] eqn:Ea.
  - (* refill *)
    destruct (alloc_popClass HP _ sweep_ok (Z.to_nat (cacheLimit st c)) c st w Hi ltac:(lia))
      as (got & st1 & w1 & -> & Hi1 & Hu1 & Ho1 & Hl1).
    destruct (calls_own st st1 self k Hk (unseen_kept _ _ _ _ Hu1)) as (k1 & Hk1 & Hrest).
    rewrite Hk1. cbn [option_map]. rewrite rev_involutive.
    pose proof (work_start self k1 st1 w1 Hi1 Hk1) as Hw1. pose proof (proj1 (proj2 Hi1) self k1 Hk1) as [Hck1 Hroom1].
    destruct (grown_cached st st1 w (proj1 (proj1 Hi)) (us_grown _ _ _ _ Hu1)) as [Hcc1 Hlim1].
    destruct (Hlim1 c ltac:(lia)) as [_ Hlim].
    pose proof (cacheLimit_bounds st w c (proj1 (proj1 Hi)) ltac:(lia)) as Hlb.
    destruct got as [|taken rest].
    { exists 0, (set_cache st1 self (tc_with_alloc k1 c [])), w1.
      assert (Hw2 : work self (tc_with_alloc k1 c []) st1 w1).
      { destruct Hw1 as [A B C D]. constructor; try done. apply (cache_with_alloc st1 w1); try done; [by rewrite Hcc1|apply own_nil|].
        cbn. lia. }
      assert (Hu2 : unseen st w (set_cache st1 self (tc_with_alloc k1 c [])) w1)
        by (eapply unseen_trans; [exact Hu1|]; by apply (unseen_cache _ _ _ _ k1)).
      split_and!; [done|by apply work_end|by eapply unseen_kept|left; done]. }
    destruct (own_uncons _ _ _ _ _ _ Ho1) as (r & s & u & -> & [Hr H160] & Hs & Hcl & Hp & Ho1').
    assert (Hrest_own : own st1 w1 Hand c rest).
    { destruct Ho1 as [N S]. constructor; [by apply list.NoDup_cons in N as [_ N]|]. intros e He. apply S. by right. }
    destruct (inv_hold self c rest st1 w1 [] (proj1 Hi1) Hrest_own (own_nil _ _ _ _)) as (w2 & Hi2 & Ho2 & Hh & Hkeep).
    assert (Hp2 : w2 r s = Hand u).
    { apply Hkeep; [done|]. destruct Ho1 as [N _]. rewrite fmap_cons, slotKey_entry in N by lia. by apply list.NoDup_cons in N as [N _]. }
    assert (Hfh : forall r' s' t c' v, w1 r' s' = Held t c' v -> w2 r' s' = Held t c' v)
      by (intros r' s' t c' v E; destruct (Hh r' s') as [->|(x & E' & _)]; congruence).
    assert (Hfc : forall r' s' o, w1 r' s' = Claimed (Some o) -> w2 r' s' = Claimed (Some o))
      by (intros r' s' o E; destruct (Hh r' s') as [->|(x & E' & _)]; congruence).
    apply (Hfinish st1 w1 w2 k1 (rev rest)); try done.
    + destruct Hw1 as [A B C D]. constructor; try done.
      * apply (others_frame self st1 w1); try done; [apply A|]. intros r' s' t c' v _. apply Hfh.
      * apply (cache_with_alloc st1 w1).
        -- done.
        -- by rewrite Hcc1.
        -- intros r' s' c' v _. apply Hfh.
        -- exact Hfc.
        -- apply (own_perm _ _ _ _ rest); [apply Permutation_rev|exact Ho2].
        -- rewrite length_rev, Hlim. cbn in Hl1. lia.
    + apply unseen_places. intros r' s'. destruct (Hh r' s') as [->|(x & -> & ->)]; [by left|by right].
    + exists r, s, u. split_and!; (done || lia).
  - (* from the cache *)
    destruct (rev (e :: l)) as [|taken rest] eqn:Er.
    { apply (f_equal (@length Z)) in Er. rewrite length_rev in Er. done. }
    pose proof (work_start self k st w Hi Hk) as Hw. pose proof (proj1 (proj2 Hi) self k Hk) as [Hck Hroom].
    assert (Hown : own st w (Held self c) c (taken :: rev rest)).
    { apply (own_perm _ _ _ _ (e :: l)); [|rewrite <- Ea; apply Hck].
      rewrite <- (rev_involutive (e :: l)), Er. cbn [rev]. symmetry. apply Permutation_cons_append. }
    destruct (own_uncons _ _ _ _ _ _ Hown) as (r & s & u & -> & [Hr H160] & Hs & Hcl & Hp & Ho').
    specialize (Ho' (Hand u)). set (w2 := set_place w r s (Hand u)) in *.
    assert (Hne : forall r' s', w2 r' s' = w r' s' \/ (w r' s' = Held self c u /\ w2 r' s' = Hand u)).
    { intros r' s'. unfold w2. rewrite set_place_cases. case_decide as Ed; [destruct Ed as [-> ->]; by right|by left]. }
    assert (Hfc : forall r' s' o, w r' s' = Claimed (Some o) -> w2 r' s' = Claimed (Some o))
      by (intros r' s' o E; destruct (Hne r' s') as [->|[E' _]]; congruence).
    pose proof (ro_words _ _ _ _ _ (so_region _ _ _ _ _ _ _ (proj1 (proj1 Hi)) r ltac:(lia)) s ltac:(lia)) as Hwd.
    rewrite Hp in Hwd.
    apply (Hfinish st w w2 k (rev rest)); try done.
    + apply unseen_refl.
    + destruct Hw as [A B C D]. constructor; try done.
      * apply inv_move; rewrite ?Hp; try done; (lia || by destruct u).
      * apply (others_frame self st w); try done; [apply A|]. intros r' s' t c' v Ht E.
        destruct (Hne r' s') as [->|[E' _]]; congruence.
      * apply (cache_with_alloc st w).
        -- done.
        -- done.
        -- intros r' s' c' v Hc' E. destruct (Hne r' s') as [->|[E' _]]; congruence.
        -- exact Hfc.
        -- exact Ho'.
        -- destruct (ca_bounds _ _ _ _ Hck c Hc) as [Hb _]. rewrite Ea in Hb.
           assert (Hlen : length (e :: l) = length (Z.of_nat 0 :: rest)) by (rewrite <- (length_rev (e :: l)), Er; done).
           rewrite length_rev. cbn [length] in *. lia.
    + apply unseen_places. intros r' s'. destruct (Hne r' s') as [->|(-> & ->)]; [by left|by right].
    + exists r, s, u. split_and!; try (done || lia). unfold w2. rewrite set_place_cases. case_decide; [done|tauto].
Qed.

(** The cache of a call, perhaps a new one. *)
Lemma cacheFor_spec c st w :
  alloc_inv st w ->
  let res := cacheFor self c st in
  alloc_inv (snd res) w /\ unseen st w (snd res) w /\ al_heap (snd res) = al_heap st
  /\ al_class (snd res) = al_class st /\ al_words (snd res) = al_words st
  /\ match fst res with Some k => ownCache self (snd res) = Some k /\ c < cachedClasses (al_heap st) | None => True end.
Proof.
  intros Hi. unfold cacheFor. destruct (Z.ltb_spec c (cachedClasses (al_heap st))) as [Hc|Hc].
  2:{ cbn. split_and!; try done. apply unseen_refl. }
  destruct (threadCache self st) as [cache st1] eqn:E.
  destruct (inv_threadCache self st w cache st1 Hi E) as (H1 & H2 & H3 & _ & H5 & H6 & H7).
  destruct cache as [k|]; [|cbn; by split_and!].
  destruct H3 as [|H3]; [done|]. destruct (tc_depth k <=? 1); cbn; by split_and!.
Qed.

Lemma slot_or_none_from st w st1 c size block st' w' :
  unseen st w st1 w -> slots st w -> al_heap st1 = al_heap st -> slots st' w' -> slot_or_none st1 w c size block st' w' ->
  slot_or_none st w c size block st' w'.
Proof.
  intros Hu Hs Hh Hs' [[-> Hu']|(r & s & Had & Hc & Hz)].
  - left. split; [done|]. by eapply unseen_trans.
  - right. exists r, s. unfold slotBytesOf in *. rewrite Hh in Hz. split_and!; try done.
    destruct Had as [A1 A2 A3 A4 A5 A6 A7 A8 A9 A10 A11 A12 A13 A14]. pose proof (regions_range _ _ Hs') as [_ H160].
    constructor; try done.
    + eapply grown_trans; [apply Hu|done].
    + intros Hd. destruct (A5 Hd) as (n & Hn & Hun). exists n. pose proof (us_tick _ _ _ _ Hu). split; [lia|].
      apply (unreferenced_back _ _ _ _ _ _ _ Hu); [|done].
      split; [lia|]. destruct (Z.lt_ge_cases r (h_regions (al_heap st))) as [|Hge]; [done|exfalso].
      pose proof (spare_region st w r Hs ltac:(lia)) as Hb0.
      assert (E : w r s = Fresh) by (apply (ro_fresh _ _ _ _ _ (so_region _ _ _ _ _ _ _ Hs r ltac:(lia))); lia).
      by rewrite E in Hd.
    + intros a Ha. rewrite A8 by done. by rewrite (us_mem _ _ _ _ Hu).
    + intros r' s' Hn Hl. rewrite A10 by done. by apply (us_words _ _ _ _ Hu).
    + intros base n. rewrite A11. apply (us_huge _ _ _ _ Hu).
    + rewrite A12. apply (us_bits _ _ _ _ Hu).
    + rewrite A13. apply (us_releases _ _ _ _ Hu).
    + eapply stale_trans; [apply Hu|by apply unseen_stale|done].
Qed.

Lemma allocateSlot_spec c size st w :
  alloc_inv st w -> 0 <= c < h_classes (al_heap st) -> 0 <= size < slotBytesOf st c ->
  exists block st' w', allocateSlot self c size st = (Some block, st') /\ alloc_inv st' w'
    /\ calls_kept st st' /\ slot_or_none st w c size block st' w'.
Proof.
  intros Hi Hc Hsz. unfold allocateSlot. destruct (cacheFor_spec c st w Hi) as (H1 & H2 & H3 & H4 & _ & H5).
  destruct (cacheFor self c st) as [cache st1]. cbn [fst snd] in *.
  assert (E : slotBytesOf st1 c = slotBytesOf st c) by (unfold slotBytesOf; by rewrite H3).
  destruct (match cache with Some k => cachedAlloc self k c size st1 | None => _ end) as [b st2] eqn:Eb.
  assert (HH : exists block st' w', (b, st2) = (Some block, st') /\ alloc_inv st' w'
            /\ calls_kept st1 st' /\ slot_or_none st1 w c size block st' w').
  { rewrite <- Eb. destruct cache as [k|].
    - destruct H5 as [Hk Hlt]. apply cachedAlloc_spec; try done; [rewrite H3; lia|by rewrite E].
    - apply takeSlot_spec; try done; [by rewrite H3|by rewrite E]. }
  destruct HH as (block & st' & w' & Heq & Hi' & Hk & Hsl). exists block, st', w'. split_and!; try done.
  - eapply calls_kept_trans; [by eapply unseen_kept|done].
  - apply (slot_or_none_from st w st1); try done; [apply Hi|apply Hi'].
Qed.
End Sweeping.
End Alloc.
