(* ===== verification/LiveFacts.v ===== *)
(** * The live blocks

    The abstract state of the allocator (files Heap and Allocator): the live
    blocks, their sizes and their bytes.  [ownedSize] computes it; what the
    allocator does on its own account ([unseen]) leaves it as it was, and an
    allocation adds one block, apart from the others. *)

From S2P Require Import Prelude Shadow Report Classes Heap HugeBlocks Sweep Allocator HeapFacts PopFacts CacheFacts.
From S2P Require Import MarkFacts SweepFacts HugeFacts AllocFacts.
Local Open Scope Z_scope.

(** A live block: a live slot's object, or a block mapped on its own. *)
Definition live_block (st : alloc) (w : Z -> Z -> place) (p n : Z) : Prop :=
  (exists r s, 0 <= r < h_regions (al_heap st) /\ 0 <= s /\ w r s = Live /\ p = slotStart (al_heap st) r s
     /\ n = weavecRtWordValue (al_words st r s))
  \/ huge_live (al_huge st) p n.

Section Live.
Context `{P : Pages} (HP : pages_wf) {Sys : System}.

(** ** The blocks' addresses *)

(** The live block an address starts, as its slot's word tells. *)
Lemma live_ref st w p :
  slots st w -> 0 <= p < 2 ^ 64 -> inArena (al_heap st) p = true ->
  let ref := slotOf (al_heap st) p in
  (ref_base ref = p /\ wordState (wordOf st ref) = WeavecRtLive)
  <-> exists r s, 0 <= r < h_regions (al_heap st) /\ 0 <= s /\ w r s = Live /\ p = slotStart (al_heap st) r s.
Proof.
  intros Hs Hp Ha ref. pose proof (so_heap _ _ _ _ _ _ _ Hs) as Hh. pose proof (regions_range _ _ Hs) as [_ H160].
  assert (Hsz : forall r, 0 <= r < 160 -> 0 < c_size (entryOf (al_heap st) r) <= 2 ^ 30).
  { intros r Hr. by destruct (capacity_of _ Hh r Hr) as (_ & Hz & _). }
  split.
  - intros [Hb Hw]. destruct (slotOf_within _ Hh p Ha Hp) as (Hr & _ & _ & Hs0 & _). fold ref in Hr, Hs0.
    exists (ref_region ref), (ref_slot ref).
    assert (Hs1 : 0 <= ref_slot ref) by lia.
    assert (Hl : w (ref_region ref) (ref_slot ref) = Live).
    { eapply live_word; [|by apply (Hsz (ref_region ref))|exact Hw].
      apply (ro_words _ _ _ _ _ (so_region _ _ _ _ _ _ _ Hs _ Hr)). done. }
    split_and!; try done; try lia.
    destruct (Z.lt_ge_cases (ref_region ref) (h_regions (al_heap st))) as [|Hge]; [done|exfalso].
    pose proof (spare_region st w _ Hs ltac:(split; [exact Hge|apply Hr])) as Hb0.
    assert (E : w (ref_region ref) (ref_slot ref) = Fresh)
      by (apply (ro_fresh _ _ _ _ _ (so_region _ _ _ _ _ _ _ Hs _ Hr)); lia).
    congruence.
  - intros (r & s & Hr & Hs0 & Hl & ->).
    destruct (slots_bound _ _ _ _ _ _ _ Hs r s ltac:(lia) Hs0) as [Hb _]; [by rewrite Hl|].
    destruct (slotOf_look _ Hh r s 0 ltac:(lia) ltac:(lia)) as [_ E]; [specialize (Hsz r ltac:(lia)); lia|].
    rewrite Z.add_0_r in E. fold (slotStart (al_heap st) r s) in E. subst ref. rewrite E. cbn [ref_base ref_region ref_slot].
    split; [done|]. unfold wordOf. cbn [ref_region ref_slot].
    eapply live_word; [|apply (Hsz r); lia|exact Hl].
    apply (ro_words _ _ _ _ _ (so_region _ _ _ _ _ _ _ Hs r ltac:(lia))). done.
Qed.

Lemma slotOf_start st w r s :
  slots st w -> 0 <= r < h_regions (al_heap st) -> 0 <= s -> w r s <> Fresh ->
  inArena (al_heap st) (slotStart (al_heap st) r s) = true
  /\ slotOf (al_heap st) (slotStart (al_heap st) r s) = mkSlot r s (slotStart (al_heap st) r s).
Proof.
  intros Hs Hr Hs0 Hw. pose proof (so_heap _ _ _ _ _ _ _ Hs) as Hh. pose proof (regions_range _ _ Hs) as [_ H160].
  destruct (slots_bound _ _ _ _ _ _ _ Hs r s ltac:(lia) Hs0 Hw) as [Hb _].
  destruct (capacity_of _ Hh r ltac:(lia)) as (_ & Hz & _).
  apply (in_slot_look _ Hh r s); [lia|lia|]. unfold in_slot. lia.
Qed.

Lemma slot_not_huge st w r s p n :
  alloc_inv st w -> 0 <= r < h_regions (al_heap st) -> 0 <= s -> w r s <> Fresh -> huge_live (al_huge st) p n ->
  forall a, p <= a < p + n -> ~ in_slot (al_heap st) r s a.
Proof.
  intros (Hi & _ & _ & Hb) Hr Hs0 Hw (b & Hin & _ & E1 & E2) a Ha Hia. pose proof (proj1 Hi) as Hs.
  pose proof (so_heap _ _ _ _ _ _ _ Hs) as Hh. pose proof (regions_range _ _ Hs) as [_ H160].
  destruct (slots_bound _ _ _ _ _ _ _ Hs r s ltac:(lia) Hs0 Hw) as [Hb1 _].
  destruct (slot_bounds _ Hh r s ltac:(lia) ltac:(lia)) as (H1 & _ & H2).
  destruct (arena_bounds _ Hh r ltac:(lia)) as (H3 & _ & H4 & _).
  pose proof (proj1 (list.Forall_forall _ _) Hb b Hin) as [A1 A2 A3 A4 A5].
  assert (p + n <= hb_map b + hb_mapBytes b) by (rewrite <- E1, <- E2; clear - A4; euclid).
  unfold in_slot, apart in *. lia.
Qed.

(** An address is in one live block. *)
Lemma live_unique st w p n q m a :
  alloc_inv st w -> live_block st w p n -> live_block st w q m -> p <= a < p + Z.max n 1 -> q <= a < q + Z.max m 1 ->
  p = q /\ n = m.
Proof.
  intros Hi Hp Hq Ha Hb. pose proof Hi as (Hh & _ & Ht & Hbl). pose proof (proj1 Hh) as Hs.
  pose proof (so_heap _ _ _ _ _ _ _ Hs) as Hhp. pose proof (regions_range _ _ Hs) as [_ H160].
  assert (Hslot : forall p n, (exists r s, 0 <= r < h_regions (al_heap st) /\ 0 <= s /\ w r s = Live
             /\ p = slotStart (al_heap st) r s /\ n = weavecRtWordValue (al_words st r s)) -> p <= a < p + Z.max n 1 ->
             exists r s, 0 <= r < 160 /\ 0 <= s < c_capacity (entryOf (al_heap st) r) /\ in_slot (al_heap st) r s a
               /\ h_base (al_heap st) <= a < h_base (al_heap st) + h_bytes (al_heap st)
               /\ p = slotStart (al_heap st) r s /\ n = weavecRtWordValue (al_words st r s)).
  { intros p0 n0 (r & s & Hr & Hs0 & Hl & -> & ->) Ha0. exists r, s.
    destruct (slots_bound _ _ _ _ _ _ _ Hs r s ltac:(lia) Hs0) as [Hb1 _]; [by rewrite Hl|].
    destruct (live_size st w r s Hs ltac:(lia) Hs0 Hl) as [_ Hsz].
    destruct (slot_bounds _ Hhp r s ltac:(lia) ltac:(lia)) as (H1 & _ & H2).
    destruct (arena_bounds _ Hhp r ltac:(lia)) as (H3 & _ & H4 & _).
    split_and!; try done; unfold in_slot; lia. }
  assert (Hhuge : forall p n, huge_live (al_huge st) p n -> p <= a < p + Z.max n 1 ->
            exists b, b ∈ ht_blocks (al_huge st) /\ holds a b = true /\ hb_base b = p /\ hb_size b = n
              /\ apart (h_base (al_heap st)) (h_bytes (al_heap st)) b).
  { intros p0 n0 (b & Hin & _ & <- & <-) Ha0. exists b.
    pose proof (proj1 (list.Forall_forall _ _) Hbl b Hin) as [A1 A2 A3 A4 A5]. split_and!; try done.
    unfold holds. apply andb_true_iff. split; [apply Z.leb_le|apply Z.ltb_lt]; euclid. }
  destruct Hp as [Hp|Hp], Hq as [Hq|Hq].
  - destruct (Hslot p n Hp Ha) as (r & s & R1 & R2 & R3 & _ & -> & ->). destruct (Hslot q m Hq Hb) as (r' & s' & R1' & R2' & R3' & _ & -> & ->).
    by destruct (in_slot_unique _ Hhp r s r' s' a) as [-> ->].
  - destruct (Hslot p n Hp Ha) as (r & s & _ & _ & _ & R & _). destruct (Hhuge q m Hq Hb) as (b & _ & Hho & _ & _ & Hap).
    unfold holds in Hho. apply andb_true_iff in Hho as [?%Z.leb_le ?%Z.ltb_lt]. unfold apart in Hap. lia.
  - destruct (Hslot q m Hq Hb) as (r & s & _ & _ & _ & R & _). destruct (Hhuge p n Hp Ha) as (b & _ & Hho & _ & _ & Hap).
    unfold holds in Hho. apply andb_true_iff in Hho as [?%Z.leb_le ?%Z.ltb_lt]. unfold apart in Hap. lia.
  - destruct (Hhuge p n Hp Ha) as (b & H1 & H2 & <- & <- & _). destruct (Hhuge q m Hq Hb) as (b' & H1' & H2' & <- & <- & _).
    pose proof (proj2 (hugeFind_some _ a b Ht) (conj H1 H2)) as E.
    rewrite (proj2 (hugeFind_some _ a b' Ht) (conj H1' H2')) in E. by injection E as ->.
Qed.

(** Blocks of different addresses are apart. *)
Lemma live_apart st w p n q m :
  alloc_inv st w -> live_block st w p n -> live_block st w q m -> p <> q -> 0 <= n -> 0 <= m -> p + n <= q \/ q + m <= p.
Proof.
  intros Hi Hp Hq Hne Hn Hm. destruct (Z.le_gt_cases (p + n) q) as [|H1]; [by left|].
  destruct (Z.le_gt_cases (q + m) p) as [|H2]; [by right|]. exfalso. apply Hne.
  apply (live_unique st w p n q m (Z.max p q) Hi Hp Hq); lia.
Qed.

Lemma live_range st w p n : alloc_inv st w -> live_block st w p n -> 0 < p < 2 ^ 63 /\ 0 <= n.
Proof.
  intros (Hi & _ & _ & Hb) [(r & s & Hr & Hs0 & Hl & -> & ->)|(b & Hin & _ & <- & <-)].
  - pose proof (proj1 Hi) as Hs. pose proof (so_heap _ _ _ _ _ _ _ Hs) as Hh. pose proof (regions_range _ _ Hs) as [_ H160].
    destruct (slots_bound _ _ _ _ _ _ _ Hs r s ltac:(lia) Hs0) as [Hb1 _]; [by rewrite Hl|].
    destruct (live_size st w r s Hs ltac:(lia) Hs0 Hl) as [_ Hsz].
    destruct (slot_bounds _ Hh r s ltac:(lia) ltac:(lia)) as (H1 & _ & H2).
    destruct (arena_bounds _ Hh r ltac:(lia)) as (H3 & _ & H4 & _). lia.
  - pose proof (proj1 (list.Forall_forall _ _) Hb b Hin) as [A1 A2 A3 A4 A5].
    pose proof (bs_wf _ _ _ _ _ _ (proj2 Hi)) as Hwf. pose proof (wf_bits _ Hwf).
    assert (2 ^ s_bits (al_shadow st) <= 2 ^ 63) by (apply Z.pow_le_mono_r; lia). split; [|done].
    clear - A1 A3 A4 H0. euclid.
Qed.

Lemma live_outside_arena st w p n :
  alloc_inv st w -> huge_live (al_huge st) p n -> inArena (al_heap st) p = false.
Proof.
  intros Hi Hl. pose proof (live_range st w p n Hi (or_intror Hl)) as [Hp _].
  destruct Hi as (Hi & _ & _ & Hb). destruct Hl as (b & Hin & _ & <- & <-).
  pose proof (so_heap _ _ _ _ _ _ _ (proj1 Hi)) as Hh.
  pose proof (proj1 (list.Forall_forall _ _) Hb b Hin) as [A1 A2 A3 A4 A5].
  unfold inArena, sub64, wrap64. apply Z.ltb_ge. destruct (arena_bounds _ Hh 0 ltac:(lia)) as (H3 & _ & H4 & _).
  destruct (arena_bounds _ Hh 159 ltac:(lia)) as (_ & _ & H5 & _).
  pose proof (ho_base _ Hh) as [Hb0 _]. pose proof (ho_room _ Hh) as Hro. unfold apart in A5.
  clear - A1 A3 A4 A5 Hp H3 H5 Hb0. euclid.
Qed.

(** [ownedSize] answers exactly the live blocks. *)
Lemma ownedSize_live st w p n :
  alloc_inv st w -> 0 <= p < 2 ^ 64 -> ownedSize p st = Some n <-> live_block st w p n.
Proof.
  intros Hi Hp. pose proof Hi as (Hh & _ & Hg). pose proof (proj1 Hh) as Hs.
  unfold ownedSize. destruct (inArena (al_heap st) p) eqn:Ha.
  - pose proof (live_ref st w p Hs Hp Ha) as HL. cbv zeta in HL |- *. set (ref := slotOf (al_heap st) p) in *.
    assert (Hw : forall r s, 0 <= r < h_regions (al_heap st) -> 0 <= s -> w r s = Live -> p = slotStart (al_heap st) r s ->
              wordOf st ref = al_words st r s).
    { intros r s Hr Hs0 Hl E. destruct (slotOf_start st w r s Hs Hr Hs0) as [_ E']; [by rewrite Hl|].
      rewrite <- E in E'. unfold wordOf, ref. by rewrite E'. }
    split.
    + destruct (Z.eqb_spec (ref_base ref) p) as [E1|]; cbn [negb orb]; [|done].
      destruct (Z.eqb_spec (wordState (wordOf st ref)) WeavecRtLive) as [E2|]; cbn [negb]; [|done].
      intros [= <-]. destruct (proj1 HL (conj E1 E2)) as (r & s & Hr & Hs0 & Hl & E). left. exists r, s.
      rewrite (Hw r s Hr Hs0 Hl E). split_and!; (done || lia).
    + intros [(r & s & Hr & Hs0 & Hl & E & ->)|Hhu]; [|by rewrite (live_outside_arena st w p n Hi Hhu) in Ha].
      destruct (proj2 HL) as [E1 E2]; [by exists r, s|].
      rewrite (proj2 (Z.eqb_eq _ _) E1), (proj2 (Z.eqb_eq _ _) E2). cbn [negb orb]. by rewrite (Hw r s Hr Hs0 Hl E).
  - assert (Hno : ~ (exists r s, 0 <= r < h_regions (al_heap st) /\ 0 <= s /\ w r s = Live
             /\ p = slotStart (al_heap st) r s /\ n = weavecRtWordValue (al_words st r s))).
    { intros (r & s & Hr & Hs0 & Hl & E & _). destruct (slotOf_start st w r s Hs Hr Hs0) as [E' _]; [by rewrite Hl|].
      rewrite <- E in E'. congruence. }
    assert (Hf : live_block st w p n <-> huge_live (al_huge st) p n) by (unfold live_block; tauto).
    rewrite Hf, (huge_live_find st p n Hg). split.
    + destruct (hugeFind (al_huge st) p) as [b|]; [|done].
      destruct (Z.eqb_spec (hb_base b) p) as [E1|]; cbn [andb]; [|done].
      destruct (Z.eqb_spec (hb_dead b) 0) as [E2|]; [|done]. intros [= <-]. by exists b.
    + intros (b & -> & E1 & E2 & <-). by rewrite (proj2 (Z.eqb_eq _ _) E1), (proj2 (Z.eqb_eq _ _) E2).
Qed.

(** ** What the calls do to the live blocks *)

(** Their bytes are as they were. *)
Definition bytes_kept (st : alloc) (w : Z -> Z -> place) (st' : alloc) (q : Z -> Prop) : Prop :=
  forall p n a, live_block st w p n -> q p -> p <= a < p + n -> al_mem st' a = al_mem st a.

(** The live slots stay live. *)
Definition slots_live (st : alloc) (w w' : Z -> Z -> place) : Prop :=
  forall r s, 0 <= r < h_regions (al_heap st) -> w r s = Live -> w' r s = Live.

(** The live blocks are the same. *)
Record kept (st : alloc) (w : Z -> Z -> place) (st' : alloc) (w' : Z -> Z -> place) : Prop := {
  kp_live : forall p n, live_block st' w' p n <-> live_block st w p n;
  kp_bytes : bytes_kept st w st' (fun _ => True);
  kp_grown : grown st st';
  kp_bits : s_bits (al_shadow st') = s_bits (al_shadow st);
  kp_releases : ht_releases (al_huge st') = ht_releases (al_huge st);
  kp_stale : stale st w st' w';
  kp_places : slots_live st w w'
}.

Lemma unseen_same st w st' w' : heap_inv st w -> heap_inv st' w' -> unseen st w st' w' -> kept st w st' w'.
Proof.
  intros Hi Hi' Hu. pose proof Hu as [G M B L W A R Hg C T Re]. pose proof (gr_regions _ _ G) as Hr.
  pose proof (regions_range _ _ (proj1 Hi')) as [_ H160].
  constructor; [|by intros ? ? ? _ _ _; rewrite M|done|done|done|by apply unseen_stale|intros r s _; by apply L].
  intros p n. unfold live_block. rewrite Hg. split; intros [(r & s & Hr1 & Hs0 & Hl & -> & ->)|?]; [|by right| |by right]; left; exists r, s.
  - assert (Hr0 : 0 <= r < h_regions (al_heap st)).
    { split; [lia|]. destruct (Z.lt_ge_cases r (h_regions (al_heap st))) as [|Hge]; [done|exfalso].
      pose proof (spare_region st w r (proj1 Hi) ltac:(lia)) as Hb0.
      assert (E : w r s = Fresh) by (apply (ro_fresh _ _ _ _ _ (so_region _ _ _ _ _ _ _ (proj1 Hi) r ltac:(lia))); lia).
      apply L in Hl. congruence. }
    apply L in Hl. rewrite W, (grown_start st st') by done. split_and!; (done || lia).
  - rewrite W, (grown_start st st') by done. apply L in Hl. split_and!; (done || lia).
Qed.

Lemma kept_trans st w st1 w1 st2 w2 : kept st w st1 w1 -> kept st1 w1 st2 w2 -> kept st w st2 w2.
Proof.
  intros [A1 A2 A3 A4 A5 A6 A7] [B1 B2 B3 B4 B5 B6 B7]. constructor.
  - intros p n. by rewrite B1.
  - intros p n a Hp _ Ha. rewrite (B2 p n) by (try done; by apply A1). by apply (A2 p n).
  - by eapply grown_trans.
  - congruence.
  - congruence.
  - by eapply stale_trans.
  - intros r s Hr Hl. pose proof (gr_regions _ _ A3). apply B7; [lia|by apply A7].
Qed.

(** A block more, its bytes zero and the program's, apart from the others. *)
Record made (st : alloc) (w : Z -> Z -> place) (st' : alloc) (w' : Z -> Z -> place) (p n : Z) : Prop := {
  md_live : forall q m, live_block st' w' q m <-> (q = p /\ m = n) \/ live_block st w q m;
  md_apart : forall q m, live_block st w q m -> p <> q /\ (p + n <= q \/ q + m <= p);
  md_bytes : forall a, p <= a < p + n -> al_mem st' a = 0 /\ addressable (al_shadow st') a = true;
  md_kept : bytes_kept st w st' (fun _ => True);
  md_grown : grown st st';
  md_bits : s_bits (al_shadow st') = s_bits (al_shadow st);
  md_releases : ht_releases (al_huge st') = ht_releases (al_huge st);
  md_stale : stale st w st' w';
  md_places : slots_live st w w'
}.

Lemma allocated_made st w st' w' p n r s :
  alloc_inv st w -> alloc_inv st' w' -> allocated st w st' w' p n r s -> made st w st' w' p n.
Proof.
  intros Hi Hi' [(Hr & Hs0 & ->) Hsz G Hwas Hrel [Hl Hword] Hby Hm Ho Hws Hhu Hb Hrl Hst].
  pose proof (proj1 (proj1 Hi)) as Hs. pose proof (proj1 (proj1 Hi')) as Hs'. pose proof (so_heap _ _ _ _ _ _ _ Hs') as Hh'.
  pose proof (regions_range _ _ Hs') as [_ H160']. pose proof (gr_regions _ _ G) as Hrg.
  assert (Hval : weavecRtWordValue (al_words st' r s) = n).
  { rewrite Hword. apply makeWord_value; [|vm_compute; intuition congruence].
    destruct (capacity_of _ Hh' r ltac:(lia)) as (_ & Hz & _). lia. }
  assert (Hold : forall r' s', 0 <= r' -> 0 <= s' -> w r' s' = Live -> r' < h_regions (al_heap st') -> r' < h_regions (al_heap st)).
  { intros r' s' Hr' Hs'0 Hl' Hlt. destruct (Z.lt_ge_cases r' (h_regions (al_heap st))) as [|Hge]; [done|exfalso].
    pose proof (spare_region st w r' Hs ltac:(lia)) as Hb0.
    assert (E : w r' s' = Fresh) by (apply (ro_fresh _ _ _ _ _ (so_region _ _ _ _ _ _ _ Hs r' ltac:(lia))); lia).
    congruence. }
  assert (Hlive : forall q m, live_block st' w' q m <-> (q = slotStart (al_heap st') r s /\ m = n) \/ live_block st w q m).
  { intros q m. unfold live_block. rewrite Hhu. split.
    - intros [(r' & s' & Hr' & Hs'0 & Hl' & -> & ->)|?]; [|tauto].
      destruct (decide (r' = r /\ s' = s)) as [[-> ->]|Hne]; [by left|right; left].
      apply Ho in Hl'; [|done]. assert (r' < h_regions (al_heap st)) by (apply (Hold r' s'); (done || lia)).
      exists r', s'. rewrite (grown_start st st'), Hws by (done || lia). split_and!; (done || lia).
    - intros [[-> ->]|[(r' & s' & Hr' & Hs'0 & Hl' & -> & ->)|?]]; [| |tauto]; left.
      + exists r, s. split_and!; (done || lia).
      + assert (Hne : ~ (r' = r /\ s' = s)) by (intros [-> ->]; done).
        exists r', s'. rewrite (grown_start st st'), Hws by (done || lia). split_and!; (done || lia || by apply Ho). }
  assert (Hnew : live_block st' w' (slotStart (al_heap st') r s) n) by (apply Hlive; by left).
  destruct (slotOf_start st' w' r s Hs' Hr Hs0) as [Hin Href]; [by rewrite Hl|].
  assert (Hne : forall q m, live_block st w q m -> slotStart (al_heap st') r s <> q).
  { intros q m Hq E. subst q. pose proof (proj2 (Hlive _ m) (or_intror Hq)) as Hq'. destruct Hq as [(r' & s' & Hr' & Hs'0 & Hl' & E & _)|Hq].
    - rewrite <- (grown_start st st') in E by done. assert (Hne : ~ (r' = r /\ s' = s)) by (intros [-> ->]; done).
      destruct (slotOf_start st' w' r' s' Hs' ltac:(lia) Hs'0) as [_ E']; [by rewrite (proj2 (Ho r' s' Hne) Hl')|].
      rewrite <- E, Href in E'. injection E' as -> ->. by apply Hne.
    - apply Hhu in Hq. by rewrite (live_outside_arena st' w' _ _ Hi' Hq) in Hin. }
  constructor; try done.
  - intros q m Hq. split; [by eapply Hne|]. pose proof (live_range st w q m Hi Hq) as [_ Hm0].
    apply (live_apart st' w'); try done; [by apply Hlive; right|by eapply Hne|lia].
  - intros q m a Hq _ Ha. apply Hm. intros Hia. destruct Hq as [(r' & s' & Hr' & Hs'0 & Hl' & -> & ->)|Hq].
    + assert (Hne' : ~ (r' = r /\ s' = s)) by (intros [-> ->]; done). apply Hne'.
      destruct (live_size st w r' s' Hs ltac:(lia) Hs'0 Hl') as [_ Hsz'].
      destruct (gr_same _ _ G r' Hr') as [He _].
      destruct (slots_bound _ _ _ _ _ _ _ Hs' r' s' ltac:(lia) Hs'0) as [Hb1 _]; [by rewrite (proj2 (Ho r' s' Hne') Hl')|].
      destruct (slots_bound _ _ _ _ _ _ _ Hs' r s ltac:(lia) Hs0) as [Hb2 _]; [by rewrite Hl|].
      apply (in_slot_unique _ Hh' r' s' r s a); try done; try lia. unfold in_slot. rewrite (grown_start st st'), He by done. lia.
    + apply Hhu in Hq. apply (slot_not_huge st' w' r s q m Hi' Hr Hs0 ltac:(by rewrite Hl) Hq a Ha Hia).
  - intros r' s' _ Hl'. destruct (decide (r' = r /\ s' = s)) as [[-> ->]|Hn]; [done|by apply Ho].
Qed.

(** A live block's bytes are in the arena, or in its mapping. *)
Lemma live_extent st w p n :
  alloc_inv st w -> live_block st w p n ->
  (h_base (al_heap st) <= p /\ p + Z.max n 1 <= h_base (al_heap st) + h_bytes (al_heap st))
  \/ exists b, b ∈ ht_blocks (al_huge st) /\ hb_base b = p /\ hb_map b <= p /\ p + Z.max n 1 <= hb_map b + hb_mapBytes b.
Proof.
  intros (Hi & _ & _ & Hb) [(r & s & Hr & Hs0 & Hl & -> & ->)|(b & Hin & _ & <- & <-)].
  - left. pose proof (proj1 Hi) as Hs. pose proof (so_heap _ _ _ _ _ _ _ Hs) as Hh. pose proof (regions_range _ _ Hs) as [_ H160].
    destruct (slots_bound _ _ _ _ _ _ _ Hs r s ltac:(lia) Hs0) as [Hb1 _]; [by rewrite Hl|].
    destruct (live_size st w r s Hs ltac:(lia) Hs0 Hl) as [_ Hsz].
    destruct (slot_bounds _ Hh r s ltac:(lia) ltac:(lia)) as (H1 & _ & H2).
    destruct (arena_bounds _ Hh r ltac:(lia)) as (H3 & _ & H4 & _). lia.
  - right. exists b. pose proof (proj1 (list.Forall_forall _ _) Hb b Hin) as [A1 A2 A3 A4 A5]. split_and!; try done; [lia|].
    clear - A3 A4. euclid.
Qed.

Lemma same_slots st st' w p n :
  (al_heap st', al_words st') = (al_heap st, al_words st) ->
  (forall q m, huge_live (al_huge st') q m <-> (q = p /\ m = n) \/ huge_live (al_huge st) q m) ->
  forall q m, live_block st' w q m <-> (q = p /\ m = n) \/ live_block st w q m.
Proof. intros [= E1 E2] Hhu q m. unfold live_block. rewrite Hhu, E1, E2. tauto. Qed.

Lemma huge_made_made st w st' p n alignment :
  alloc_inv st w -> alloc_inv st' w -> huge_made st st' p n alignment -> 0 <= n -> made st w st' w p n.
Proof.
  intros Hi Hi' [(b & Hperm & <- & <- & Hd & Hlo & Hhi & Hap & Har & Hm) Hby _ Hbes Hbits Ht Hrl] Hn.
  injection Hbes as E1 E2 E3 E4 E5 E6 E7.
  assert (Hin : b ∈ ht_blocks (al_huge st')) by (rewrite Hperm; left).
  pose proof (proj1 (list.Forall_forall _ _) (proj2 (proj2 (proj2 Hi'))) b Hin) as [A1 A2 A3 A4 A5].
  assert (Hlive : forall q m, live_block st' w q m <-> (q = hb_base b /\ m = hb_size b) \/ live_block st w q m).
  { apply same_slots; [congruence|]. intros q m. unfold huge_live. split.
    - intros (b' & Hb' & Hd' & <- & <-). rewrite Hperm in Hb'. apply elem_of_cons in Hb' as [->|Hb']; [by left|right; by exists b'].
    - intros [[-> ->]|(b' & Hb' & Hd' & E)]; [by exists b|]. exists b'. split; [|done]. rewrite Hperm. by right. }
  assert (Hout : forall q m, live_block st w q m -> q + Z.max m 1 <= hb_map b \/ hb_map b + hb_mapBytes b <= q).
  { intros q m Hq. destruct (live_extent st w q m Hi Hq) as [He|(b' & Hb' & _ & H1 & H2)].
    - unfold apart in Har. lia.
    - pose proof (proj1 (list.Forall_forall _ _) Hap b' Hb'). unfold apart in *. lia. }
  assert (Hub : hb_base b < hb_map b + hb_mapBytes b) by (clear - A3 A4; euclid).
  constructor; try done.
  - intros q m Hq. pose proof (live_range st w q m Hi Hq) as [_ Hm0]. specialize (Hout q m Hq). lia.
  - intros q m a Hq _ Ha. apply Hm. specialize (Hout q m Hq). lia.
  - by apply grown_same.
  - apply stale_same; [done|by apply regions_marks].
  - by intros r s _.
Qed.

(** A block fewer. *)
Record unmade (st : alloc) (w : Z -> Z -> place) (st' : alloc) (w' : Z -> Z -> place) (p n : Z) : Prop := {
  um_was : live_block st w p n;
  um_live : forall q m, live_block st' w' q m <-> q <> p /\ live_block st w q m;
  um_kept : bytes_kept st w st' (fun q => q <> p);
  um_grown : grown st st';
  um_bits : s_bits (al_shadow st') = s_bits (al_shadow st);
  um_releases : ht_releases (al_huge st') = ht_releases (al_huge st)
                \/ ht_releases (al_huge st') = add64 (ht_releases (al_huge st)) 1;
  um_stale : stale st w st' w';
  um_denied : forall r s, 0 <= r < h_regions (al_heap st) -> 0 <= s -> w r s = Live -> slotStart (al_heap st) r s = p ->
                slot_denied st st' w' r s
}.

Lemma huge_freed_unmade st w st' i b :
  alloc_inv st w -> alloc_inv st' w -> huge_freed st st' i b -> add64 (ht_releases (al_huge st)) 1 <> 0 ->
  unmade st w st' w (hb_base b) (hb_size b).
Proof.
  intros Hi Hi' [Hb Hd Ht Hm Hbes Hbits Hrl] Hne. injection Hbes as E1 E2 E3 E4 E5 E6 E7 E8.
  pose proof Hi as (Hh & _ & Htab & Hok). pose proof (list_elem_of_lookup_2 _ _ _ Hb) as Hin.
  assert (Hwas : live_block st w (hb_base b) (hb_size b)) by (right; by exists b).
  assert (Hhu : forall q m, huge_live (al_huge st') q m <-> q <> hb_base b /\ huge_live (al_huge st) q m).
  { intros q m. unfold huge_live. rewrite Ht. split.
    - intros (b' & [j Hj]%list_elem_of_lookup & Hd' & <- & <-). destruct (decide (i = j)) as [<-|Hij].
      + rewrite list_lookup_insert_eq in Hj by (by eapply lookup_lt_Some). injection Hj as <-. done.
      + rewrite list_lookup_insert_ne in Hj by done. pose proof (list_elem_of_lookup_2 _ _ _ Hj) as Hin'. split; [|by exists b'].
        intros E. pose proof (proj1 (list.Forall_forall _ _) Hok b Hin) as Hb1. pose proof (proj1 (list.Forall_forall _ _) Hok b' Hin') as Hb2.
        apply huge_holds in Hb1, Hb2. rewrite E in Hb2.
        pose proof (hugeIndex_holds _ _ _ _ (tb_sorted _ Htab) (tb_bytes _ Htab) Hb Hb1) as X.
        rewrite (hugeIndex_holds _ _ _ _ (tb_sorted _ Htab) (tb_bytes _ Htab) Hj Hb2) in X. lia.
    - intros (Hq & b' & [j Hj]%list_elem_of_lookup & Hd' & <- & <-). exists b'. split_and!; try done.
      apply (list_elem_of_lookup_2 _ j). rewrite list_lookup_insert_ne; [done|]. intros ->. congruence. }
  assert (Hlive : forall q m, live_block st' w q m <-> q <> hb_base b /\ live_block st w q m).
  { intros q m. unfold live_block. rewrite Hhu, E1, E2. split.
    - intros [(r & s & Hr & Hs0 & Hl & -> & ->)|[? ?]]; [|tauto]. split; [|left; exists r, s; split_and!; (done || lia)].
      intros E. pose proof (live_outside_arena st w _ _ Hi (ex_intro _ b (conj Hin (conj Hd (conj eq_refl eq_refl))))) as X.
      rewrite <- E in X. destruct (slotOf_start st w r s (proj1 Hh) Hr Hs0) as [X' _]; [by rewrite Hl|]. congruence.
    - intros (? & [?|?]); tauto. }
  constructor; try done.
  - intros q m a Hq Hqp Ha. apply Hm. intros Hin_. destruct (live_extent st w q m Hi Hq) as [He|(b' & Hb' & E & H1 & H2)].
    + pose proof (proj1 (list.Forall_forall _ _) Hok b Hin) as [A1 A2 A3 A4 A5]. unfold apart in A5. lia.
    + assert (Hab : forall b0, hb_map b0 <= a < hb_map b0 + hb_mapBytes b0 -> holds a b0 = true)
        by (intros b0 Hb0; unfold holds; apply andb_true_iff; split; [apply Z.leb_le|apply Z.ltb_lt]; lia).
      pose proof (proj2 (hugeFind_some _ a b Htab) (conj Hin (Hab b Hin_))) as F1.
      pose proof (proj2 (hugeFind_some _ a b' Htab) (conj Hb' (Hab b' ltac:(lia)))) as F2.
      rewrite F1 in F2. injection F2 as <-. done.
  - by apply grown_same.
  - by right.
  - apply stale_same; [lia|by apply regions_marks].
  - intros r s Hr Hs0 Hl E. destruct (slotOf_start st w r s (proj1 Hh) Hr Hs0) as [X _]; [by rewrite Hl|].
    rewrite E in X. by rewrite (live_outside_arena st w _ _ Hi (ex_intro _ b (conj Hin (conj Hd (conj eq_refl eq_refl))))) in X.
Qed.
End Live.
