(* ===== verification/ReleaseFacts.v ===== *)
(** * Release

    The release paths of the file Allocator over the invariant of the file
    PopFacts: [retire], [cachedRelease] and [release].  A release succeeds
    exactly at the start of a live block; the block is then no one's until a
    sweep finds no word that points into it. *)

From Stdlib Require Import String.
From S2P Require Import Prelude Shadow Report Classes Heap HugeBlocks Sweep Allocator HeapFacts PopFacts CacheFacts.
From S2P Require Import MarkFacts SweepFacts HugeFacts AllocFacts LiveFacts.
Local Open Scope Z_scope.

Section Release.
Context `{P : Pages} (HP : pages_wf) {Sys : System}.

(** ** The budget *)

Lemma inv_overBudget st w b st' :
  overBudget st = (b, st') -> alloc_inv st w -> alloc_inv st' w /\ unseen st w st' w.
Proof.
  unfold overBudget. intros E Hi. destruct (_ || _).
  { injection E as <- <-. split; [done|apply unseen_refl]. }
  destruct (_ <=? _).
  { injection E as <- <-. split; [done|apply unseen_refl]. }
  unfold ask in E. destruct (alloc_inv_tick st w (S (al_tick st)) ltac:(lia) Hi) as [Hi1 Hu1].
  destruct (_ <=? _); injection E as <- <-; [done|].
  eapply chain_steps; [exact Hu1|]. by apply alloc_inv_counts.
Qed.

Lemma inv_sweepOverBudget self st w :
  alloc_inv st w ->
  exists w', alloc_inv (sweepOverBudget self st) w' /\ unseen st w (sweepOverBudget self st) w'.
Proof.
  intros Hi. unfold sweepOverBudget. destruct (overBudget st) as [b st1] eqn:E.
  destruct (inv_overBudget st w b st1 E Hi) as [Hi1 Hu1]. destruct b; [|by exists w].
  destruct (weavecRtSweep_spec HP self st1 w Hi1) as ((w' & Hi2 & Hu2) & _).
  exists w'. split; [done|]. by eapply unseen_trans.
Qed.


(** ** A slot's release *)

(** A live slot's block is released: its bytes are no one's, and perhaps gone;
    nothing else changes. *)
Record buried (st : alloc) (w : Z -> Z -> place) (st' : alloc) (w' : Z -> Z -> place) (r s : Z) : Prop := {
  bu_slot : 0 <= r < h_regions (al_heap st) /\ 0 <= s /\ w r s = Live;
  bu_released : denied (w' r s) = true;
  bu_denied : forall a, in_slot (al_heap st) r s a -> addressable (al_shadow st') a = false;
  bu_others : forall r' s', ~ (r' = r /\ s' = s) -> w' r' s' = Live <-> w r' s' = Live;
  bu_words : forall r' s', ~ (r' = r /\ s' = s) -> w r' s' = Live -> al_words st' r' s' = al_words st r' s';
  bu_mem : forall a, ~ in_slot (al_heap st) r s a -> al_mem st' a = al_mem st a;
  bu_besides : (al_heap st', al_class st') = (al_heap st, al_class st);
  bu_huge : forall base n, huge_live (al_huge st') base n <-> huge_live (al_huge st) base n;
  bu_releases : ht_releases (al_huge st') = ht_releases (al_huge st);
  bu_bits : s_bits (al_shadow st') = s_bits (al_shadow st);
  bu_calls : calls_kept st st';
  bu_stale : stale st w st' w'
}.

Lemma buried_after st w st1 st2 w2 r s :
  besides_counts st1 = besides_counts st -> buried st1 w st2 w2 r s -> buried st w st2 w2 r s.
Proof.
  intros Hb [A1 A2 A3 A4 A5 A6 A7 A8 A9 A10 [A11 A12] A13]. injection Hb as E1 E2 E3 E4 E5 E6 E7 E8 E9 E10 E11 E12.
  rewrite E1, E9 in *. constructor; rewrite <- ?E2, <- ?E11, <- ?E10; try done.
  - congruence.
  - split; [lia|]. intros t. unfold calls, ownCache in *. rewrite <- E7. apply A12.
  - destruct A13 as [T S M]. constructor; [by rewrite <- E12|unfold slot_denied in *; by rewrite <- E12, <- E1|].
    intros Hm. by apply M, (regions_marks st).
Qed.

(** The slot's word was taken, the thread's cache perhaps made; then its bytes
    and its place change. *)
Lemma buried_intro st w st2 st3 w3 r s :
  slots st w -> 0 <= r < h_regions (al_heap st) -> 0 <= s -> w r s = Live ->
  unseen (storeWord st r s claimed) (set_place w r s (Claimed None)) st2 (set_place w r s (Claimed None)) ->
  al_heap st2 = al_heap st -> al_class st2 = al_class st ->
  denied (w3 r s) = true -> (forall r' s', ~ (r' = r /\ s' = s) -> w3 r' s' = w r' s') ->
  (forall a, in_slot (al_heap st) r s a -> addressable (al_shadow st3) a = false) ->
  (forall r' s', ~ (r' = r /\ s' = s) -> w r' s' = Live -> al_words st3 r' s' = al_words st2 r' s') ->
  (forall a, ~ in_slot (al_heap st) r s a -> al_mem st3 a = al_mem st2 a) ->
  (al_heap st3, al_class st3, al_huge st3) = (al_heap st2, al_class st2, al_huge st2) ->
  s_bits (al_shadow st3) = s_bits (al_shadow st2) -> calls_kept st2 st3 -> (marks_rest st2 -> marks_rest st3) ->
  buried st w st3 w3 r s.
Proof.
  intros Hsl Hr Hs0 Hl [G M B L W A R Hg C T Re Hmk] Eh Ec Hrel Hw3 Hden Hwd Hm [= E1 E2 E3] Hb Hk Hmk3.
  assert (Hne : forall r' s', ~ (r' = r /\ s' = s) -> set_place w r s (Claimed None) r' s' = w r' s').
  { intros r' s' Hne. rewrite set_place_cases. by case_decide. }
  constructor; try done.
  - intros r' s' Hn. by rewrite Hw3.
  - intros r' s' Hn Hlv. rewrite Hwd, W by (rewrite ?Hne; done). cbn. rewrite setAt_cases. case_decide; [subst r'|done].
    apply setAt_ne. intros ->. by apply Hn.
  - intros a Ha. rewrite Hm by done. by rewrite M.
  - congruence.
  - intros base n. rewrite E3. apply Hg.
  - by rewrite E3.
  - by rewrite Hb, B.
  - eapply calls_kept_trans; [|exact Hk]. split; [exact T|exact C].
  - apply stale_places; [apply (Nat.le_trans _ (al_tick st2)); [exact T|apply Hk]| |intros Hm0; by apply Hmk3, Hmk].
    intros r' s' Hd. rewrite Hw3; [done|]. intros [-> ->]. by rewrite Hl in Hd.
Qed.

(** The pages of a slot that are given back are its own. *)
Lemma decommit_frame mem base bytes a :
  ~ (base <= a < base + bytes) -> decommit mem base bytes a = mem a.
Proof.
  intros Ha. destruct HP as (k & Hk & Hp). unfold decommit. rewrite Hp, !land_lnot_ones by lia.
  assert (0 < 2 ^ k) by lia. destruct (_ <=? _); [done|]. rewrite fill_bytes_eq. case_decide as E; [|done].
  exfalso. apply Ha. euclid.
Qed.

Section Slot.
Context (self : nat) (st : alloc) (w : Z -> Z -> place) (r s : Z)
        (Hi : alloc_inv st w) (Hr : 0 <= r < h_regions (al_heap st)) (Hs : 0 <= s).

(** The word of a live slot is taken for its release. *)
Lemma claim_spec :
  w r s = Live ->
  let st1 := storeWord st r s claimed in let w1 := set_place w r s (Claimed None) in
  alloc_inv st1 w1 /\ unseen st1 w1 st1 w1.
Proof.
  intros Hw st1 w1. pose proof (regions_range _ _ (proj1 (proj1 Hi))) as [_ H160]. split; [|apply unseen_refl].
  destruct Hi as (Hh & Hc & Hg). split_and!; [apply inv_claim; (done || lia)| |done].
  apply (caches_ok_frame st w); try done; [apply Hh|..].
  - intros r' s' t c u E. unfold w1. rewrite set_place_cases. case_decide as Ed; [destruct Ed; congruence|done].
  - intros r' s' o E. unfold w1. rewrite set_place_cases. case_decide as Ed; [destruct Ed; congruence|done].
Qed.

Lemma class_size : c_size (entryOf (al_heap st) r) = slotBytesOf st (al_class st r).
Proof. apply (slot_class st w r); [apply Hi|done|done]. Qed.
End Slot.

(** A claimed slot's block is released in full. *)
Record settles (st : alloc) (w : Z -> Z -> place) (st' : alloc) (w' : Z -> Z -> place) (r s : Z) : Prop := {
  se_released : denied (w' r s) = true;
  se_others : forall r' s', ~ (r' = r /\ s' = s) -> w' r' s' = w r' s';
  se_denied : forall a, in_slot (al_heap st) r s a -> addressable (al_shadow st') a = false;
  se_words : forall r' s', w r' s' = Live -> al_words st' r' s' = al_words st r' s';
  se_mem : forall a, ~ in_slot (al_heap st) r s a -> al_mem st' a = al_mem st a;
  se_besides : (al_heap st', al_class st', al_huge st', al_tick st') = (al_heap st, al_class st, al_huge st, al_tick st);
  se_bits : s_bits (al_shadow st') = s_bits (al_shadow st);
  se_marks : same_marks st st'
}.

Section Retire.
Context (self : nat) (st : alloc) (w : Z -> Z -> place) (r s : Z)
        (Hh : heap_inv st w) (Hr : 0 <= r < h_regions (al_heap st)) (Hs : 0 <= s) (Hw : w r s = Claimed None).

Let slotBytes := c_size (entryOf (al_heap st) r).
Let dead mem := set_mem (set_shadow st (shadowDead (al_shadow st) (slotStart (al_heap st) r s) slotBytes)) mem.

(** The slot's shadow says it is dead; an owner has it. *)
Lemma dead_spec o mem :
  (forall a, ~ in_slot (al_heap st) r s a -> mem a = al_mem st a) ->
  heap_inv (dead mem) (set_place w r s (Claimed (Some o)))
  /\ settles st w (dead mem) (set_place w r s (Claimed (Some o))) r s.
Proof.
  intros Hm. pose proof (regions_range _ _ (proj1 Hh)) as [_ H160].
  pose proof (inv_dead st w r s o mem Hh ltac:(lia) Hs Hw Hm) as Hd. split; [done|].
  assert (Hp : set_place w r s (Claimed (Some o)) r s = Claimed (Some o)) by (rewrite set_place_cases; case_decide; [done|tauto]).
  constructor; try done.
  - by rewrite Hp.
  - intros r' s' Hne. rewrite set_place_cases. by case_decide.
  - intros a Ha. apply (bs_denied _ _ _ _ _ _ (proj2 Hd) r s); [lia|done|by rewrite Hp|done].
  - unfold shadowDead. apply shadowSet_bits.
Qed.

Lemma settles_counts st1 st2 w1 :
  besides_counts st2 = besides_counts st1 -> settles st w st1 w1 r s -> settles st w st2 w1 r s.
Proof.
  intros [= E1 E2 E3 E4 E5 E6 E7 E8 E9 E10 E11 E12] [A1 A2 A3 A4 A5 A6 A7 A8].
  constructor; rewrite ?E2, ?E10, ?E11; try done; [congruence|]. intros r'. by rewrite E3.
Qed.

(** The slot joins its region's quarantine. *)
Lemma enqueue_settles mem :
  (forall a, ~ in_slot (al_heap st) r s a -> mem a = al_mem st a) ->
  exists w', heap_inv (enqueue r s (dead mem)) w' /\ settles st w (enqueue r s (dead mem)) w' r s
    /\ al_caches (enqueue r s (dead mem)) = al_caches st.
Proof.
  intros Hm. pose proof (regions_range _ _ (proj1 Hh)) as [_ H160].
  destruct (dead_spec (0%nat, 0) mem Hm) as [Hd [A1 A2 A3 A4 A5 A6 A7 A8]]. set (st1 := dead mem) in *. set (w1 := set_place _ _ _ _) in *.
  assert (Hp : w1 r s = Claimed (Some (0%nat, 0))) by (unfold w1; rewrite set_place_cases; case_decide; [done|tauto]).
  assert (Hh1 : al_heap st1 = al_heap st) by done. assert (Hc1 : al_caches st1 = al_caches st) by done.
  pose proof (inv_enqueue st1 w1 r s _ Hd ltac:(lia) Hs Hp) as Hq.
  pose proof (enqueue_live st1 w1 r s _ Hd ltac:(lia) Hp) as Hl.
  exists (set_place w1 r s Queued). split; [done|]. clearbody st1 w1.
  assert (Hb : besides_lists (enqueue r s st1) = besides_lists st1) by (unfold enqueue; cbn; by destruct (negb _)).
  pose proof (same_marks_trans _ _ _ A8 (enqueue_marks r s st1)) as Hmk.
  generalize dependent (enqueue r s st1). intros st2 Hq Hl Hb Hmk. injection Hb as E1 E2 E3 E4 E5 E6 E7 E8 E9 E10.
  split; [|congruence]. constructor; rewrite ?E8, ?E9; try done.
  - rewrite set_place_cases. case_decide; [done|tauto].
  - intros r' s' Hne. rewrite set_place_cases. case_decide; [tauto|by apply A2].
  - intros r' s' Hlv. rewrite Hl; [by apply A4|]. rewrite A2; [done|]. intros [-> ->]. congruence.
  - congruence.
Qed.
End Retire.

(** A release's outcome: the block is released in full, and what follows is the
    allocator's own. *)
Definition settled (st : alloc) (w : Z -> Z -> place) (st' : alloc) (r s : Z) : Prop :=
  exists st1 w1 w', heap_inv st1 w1 /\ settles st w st1 w1 r s /\ calls_kept st st1 /\ alloc_inv st' w' /\ unseen st1 w1 st' w'.

Lemma settles_inv st w st1 w1 r s :
  alloc_inv st w -> heap_inv st1 w1 -> settles st w st1 w1 r s -> al_caches st1 = al_caches st -> w r s = Claimed None ->
  alloc_inv st1 w1 /\ calls_kept st st1.
Proof.
  intros (Hh & Hc & Hg) Hi1 [A1 A2 A3 A4 A5 A6 A7] Ec Hw. injection A6 as E1 E2 E3 E4.
  pose proof (regions_range _ _ (proj1 Hi1)) as [_ H160].
  assert (G : grown st st1) by (by apply grown_same). split.
  - split_and!; [done| |by apply (huge_ok_frame st)].
    apply (caches_ok_frame st w); try done; [apply Hh|..].
    + intros r' s' t c u E. rewrite A2; [done|]. intros [-> ->]. congruence.
    + intros r' s' o E. rewrite A2; [done|]. intros [-> ->]. congruence.
  - split; [lia|]. intros t. left. unfold calls, ownCache. by rewrite Ec.
Qed.

Lemma settled_sweep self st w st1 w1 r s :
  settles st w st1 w1 r s -> calls_kept st st1 -> alloc_inv st1 w1 -> settled st w (sweepOverBudget self st1) r s.
Proof.
  intros Hse Hk Hi1. destruct (inv_sweepOverBudget self st1 w1 Hi1) as (w' & Hi' & Hu').
  exists st1, w1, w'. split_and!; try done. apply Hi1.
Qed.

Lemma retire_spec self st w r s :
  alloc_inv st w -> 0 <= r < h_regions (al_heap st) -> 0 <= s -> w r s = Claimed None ->
  settled st w (retire self (mkSlot r s (slotStart (al_heap st) r s)) st) r s.
Proof.
  intros Hi Hr Hs Hw. unfold retire. cbn [ref_region ref_slot ref_base].
  change (slotBytesOf st r) with (c_size (entryOf (al_heap st) r)). set (size := c_size _).
  set (st1 := set_shadow st _).
  set (mem := if WeavecRtDecommitBytes <=? size then decommit (al_mem st) (slotStart (al_heap st) r s) size else al_mem st).
  replace (if WeavecRtDecommitBytes <=? size then _ else st1) with (set_mem st1 mem) by (unfold mem; by destruct (_ <=? size)).
  destruct (enqueue_settles st w r s (proj1 Hi) Hr Hs Hw mem) as (w1 & Hi1 & Hse & Ec).
  { intros a Ha. unfold mem. destruct (_ <=? size); [|done]. by apply decommit_frame. }
  fold size in Hi1, Hse, Ec. fold st1 in Hi1, Hse, Ec. set (st2 := enqueue r s _) in *.
  set (st3 := addLive _ _). assert (Hb : besides_counts st3 = besides_counts st2) by done.
  assert (Ec3 : al_caches st3 = al_caches st) by (by rewrite <- Ec). clearbody st2 st3.
  pose proof (heap_inv_counts st2 st3 w1 Hb Hi1) as Hi3. pose proof (settles_counts st w r s st2 st3 w1 Hb Hse) as Hse3.
  destruct (settles_inv st w st3 w1 r s Hi Hi3 Hse3 Ec3 Hw) as [Hi4 Hk].
  by apply (settled_sweep self st w st3 w1).
Qed.

(** A claimed slot joins its class's list of a cache. *)
Lemma cache_release st w self k c r s :
  slots st w -> cache_ok st w self k -> room st k -> 0 <= r < h_regions (al_heap st) -> 0 <= s < 2 ^ 27 -> al_class st r = c ->
  0 <= c < cachedClasses (al_heap st) -> w r s = Claimed None ->
  cache_ok st (set_place w r s (Claimed (Some (self, c)))) self
    (tc_with_release k c (tc_release k c ++ [slotEntry r s true])).
Proof.
  intros Hsl [A R B O] Hroom Hr Hs Hcl Hc Hw. pose proof (regions_range _ _ Hsl) as [_ H160].
  set (w1 := set_place _ _ _ _).
  assert (Hne : forall r' s' p, p <> Claimed None -> w r' s' = p -> w1 r' s' = p).
  { intros r' s' p Hp E. unfold w1. rewrite set_place_cases. case_decide as Ed; [destruct Ed; congruence|done]. }
  constructor; cbn.
  - intros c'. apply (own_ext _ w); [intros; by apply Hne|apply A].
  - intros c'. rewrite setAt_cases. case_decide as E; [subst c'|apply (own_ext _ w); [intros; by apply Hne|apply R]].
    apply (own_snoc st w (fun _ => Claimed (Some (self, c))) c (tc_release k c) r s true); try done.
    intros _. by rewrite Hw.
  - intros c' Hc'. destruct (B c' Hc') as [B1 B2]. split; [done|]. rewrite setAt_cases. case_decide as E; [subst c'|done].
    rewrite length_app. cbn. specialize (Hroom c Hc). lia.
  - intros c' Hc'. rewrite setAt_ne by (intros ->; done). by apply O.
Qed.

Lemma cachedRelease_spec self st w k r s :
  alloc_inv st w -> ownCache self st = Some k -> 0 <= r < h_regions (al_heap st) -> 0 <= s -> w r s = Claimed None ->
  al_class st r < cachedClasses (al_heap st) ->
  settled st w (cachedRelease self k (al_class st r) (mkSlot r s (slotStart (al_heap st) r s)) st) r s.
Proof.
  intros Hi Hk Hr Hs Hw Hcc. unfold cachedRelease. cbn [ref_region ref_slot ref_base].
  pose proof (proj1 (proj1 Hi)) as Hsl. pose proof (regions_range _ _ Hsl) as [_ H160].
  rewrite <- (slot_class st w r _ Hsl Hr eq_refl). set (c := al_class st r) in *. set (size := c_size _).
  assert (Hc : 0 <= c < cachedClasses (al_heap st)) by (split; [apply (so_class _ _ _ _ _ _ _ Hsl r Hr)|done]).
  assert (Hs27 : 0 <= s < 2 ^ 27) by (split; [done|]; apply (slots_bound _ _ _ _ _ _ _ Hsl r s); [lia|done|by rewrite Hw]).
  destruct (proj1 (proj2 Hi) self k Hk) as [Hck Hroom]. pose proof (work_start self k st w Hi Hk) as Hwork.
  destruct (dead_spec st w r s (proj1 Hi) Hr Hs Hw (self, c) (al_mem st) ltac:(done)) as [Hd Hse].
  fold size in Hd, Hse. set (w1 := set_place w r s (Claimed (Some (self, c)))) in *.
  change (set_mem (set_shadow st (shadowDead (al_shadow st) (slotStart (al_heap st) r s) size)) (al_mem st))
    with (set_shadow st (shadowDead (al_shadow st) (slotStart (al_heap st) r s) size)) in Hd, Hse.
  set (st1 := set_shadow st _) in *. set (released := tc_release k c ++ _).
  assert (Hlim : cacheLimit st1 c = cacheLimit st c) by done. 
  assert (E1 : al_heap st1 = al_heap st /\ al_class st1 = al_class st /\ al_caches st1 = al_caches st /\ al_huge st1 = al_huge st
               /\ ownCache self st1 = Some k) by done.
  destruct E1 as (E1 & E2 & E3 & E4 & E5).
  assert (Hne : forall r' s' p, p <> Claimed None -> w r' s' = p -> w1 r' s' = p).
  { intros r' s' p Hp E. unfold w1. rewrite set_place_cases. case_decide as Ed; [destruct Ed; congruence|done]. }
  pose proof (se_bits _ _ _ _ _ _ Hse) as Hbits. assert (Hsl1 : slots st w1) by exact (proj1 Hd). clearbody st1.
  assert (Hw1 : work self (tc_with_release k c released) st1 w1).
  { constructor; [done| |apply (huge_ok_frame st); [by apply grown_same|done|done|apply Hi]|].
    - assert (Ho : others_ok self st w1).
      { apply (others_frame self st w); [apply Hwork|done|..]; intros; by apply Hne. }
      intros t k0 Hne0. unfold ownCache. rewrite E3. intros Hk0. destruct (Ho t k0 Hne0 Hk0) as [H1 H2]. split.
      + by apply (cache_frame_same st).
      + apply (room_frame st w); [done|by apply grown_same|done].
    - apply (cache_frame_same st); [done..|]. by apply cache_release. }
  cbv zeta. cbn [tc_liveDelta tc_with_release].
  set (k1 := tc_with_delta (tc_with_release k c released) (tc_liveDelta k - size)).
  destruct (if _ <=? _ then foldLive k1 st1 else (k1, st1)) as [k2 st2] eqn:Ef.
  assert (Hf : besides_counts st2 = besides_counts st1 /\ tc_alloc k2 = tc_alloc k1 /\ tc_release k2 = tc_release k1
               /\ tc_rest k2 = tc_rest k1).
  { destruct (_ <=? _); [by apply foldLive_counts|by injection Ef as <- <-]. }
  clear Ef. destruct Hf as (Hb & Ha2 & Hr2 & Hrest).
  assert (Hw2 : work self k2 st2 w1) by (by apply (work_counts self (tc_with_release k c released) k2 st1)).
  pose proof (settles_counts st w r s st1 st2 w1 Hb Hse) as Hse2.
  pose proof Hb as Hb'. injection Hb' as F1 F2 F3 F4 F5 F6 F7 F8 F9 F10 F11 F12.
  assert (Hk2 : ownCache self st2 = Some k) by (unfold ownCache; rewrite F7, E3; exact Hk).
  assert (Hkept : calls_kept st st2).
  { injection (se_besides _ _ _ _ _ _ Hse2) as _ _ _ Ht. split; [lia|]. intros t0. left. unfold calls, ownCache. by rewrite F7, E3. }
  assert (Hlim2 : cacheLimit st2 c = cacheLimit st c) by (unfold cacheLimit, slotBytesOf; by rewrite F1, E1).
  assert (Hrk : tc_rest k2 = tc_rest k) by exact Hrest.
  destruct (Z.eqb_spec (Z.of_nat (length released)) (cacheLimit st2 c)) as [Hfull|Hnot].
  - destruct (flushReleases k2 c false st2) as [k3 st3] eqn:Efl.
    destruct (flush_heap self c k2 st2 k3 st3 w1 Hw2 Efl) as [G1 G2].
    apply (work_flush self c k2 st2 w1) in Efl as (-> & w3 & Hw3 & Hu3 & _); [|done].
    assert (Hroom3 : room st3 (tc_with_release k2 c [])).
    { intros c' Hc'. cbn. rewrite G1, F1, E1 in Hc'. pose proof (cachedClasses_spec st w Hsl) as [Hcc' _].
      assert (El : cacheLimit st3 c' = cacheLimit st c') by (unfold cacheLimit, slotBytesOf; by rewrite G1, F1, E1). rewrite El.
      pose proof (cacheLimit_bounds st w c' Hsl ltac:(lia)). rewrite setAt_cases. case_decide as Ec; [cbn; lia|].
      rewrite Hr2. cbn. rewrite setAt_ne by done. apply Hroom. done. }
    pose proof (work_end self _ st3 w3 Hw3 Hroom3) as Hi4.
    assert (Hu4 : unseen st2 w1 (set_cache st3 self (tc_with_release k2 c [])) w3).
    { eapply unseen_trans; [exact Hu3|]. apply (unseen_cache st3 w3 self _ k).
      - unfold ownCache. rewrite G2. exact Hk2.
      - exact Hrk. }
    destruct (inv_sweepOverBudget self _ _ Hi4) as (w5 & Hi5 & Hu5).
    exists st2, w1, w5. split_and!; try done; [apply Hw2|by eapply unseen_trans].
  - exists st2, w1, w1. split_and!; try done; [apply Hw2| |].
    + apply work_end; [done|]. intros c' Hc'. rewrite F1, E1 in Hc'. 
      assert (El : cacheLimit st2 c' = cacheLimit st c') by (unfold cacheLimit, slotBytesOf; by rewrite F1, E1). rewrite El.
      rewrite Hr2. cbn. rewrite setAt_cases. case_decide as Ec; [|by apply Hroom]. subst c'.
      unfold released in *. rewrite length_app in *. cbn in *. specialize (Hroom c Hc). lia.
    + by apply (unseen_cache st2 w1 self _ k).
Qed.

(** The slot of a live block is released. *)
Lemma release_slot self st w r s :
  alloc_inv st w -> 0 <= r < h_regions (al_heap st) -> 0 <= s -> w r s = Live ->
  forall (Next : NextAllocator), exists st' st1 w1 w',
    release self (slotStart (al_heap st) r s) st = Done tt st'
    /\ heap_inv st1 w1 /\ buried st w st1 w1 r s /\ alloc_inv st' w' /\ unseen st1 w1 st' w'.
Proof.
  intros Hi Hr Hs Hl Next. pose proof (proj1 (proj1 Hi)) as Hsl.
  destruct (slotOf_start st w r s Hsl Hr Hs) as [Ha Href]; [by rewrite Hl|].
  unfold release. rewrite Ha, Href. cbn [ref_base ref_region ref_slot]. unfold wordOf. cbn [ref_region ref_slot].
  pose proof (regions_range _ _ Hsl) as [_ H160].
  assert (Hlw : wordState (al_words st r s) = WeavecRtLive).
  { destruct (capacity_of _ (so_heap _ _ _ _ _ _ _ Hsl) r ltac:(lia)) as (_ & Hz & _).
    eapply live_word; [|exact Hz|exact Hl]. by apply (ro_words _ _ _ _ _ (so_region _ _ _ _ _ _ _ Hsl r ltac:(lia))). }
  rewrite Z.eqb_refl, Hlw. cbn [negb orb Z.eqb WeavecRtLive Pos.eqb].
  set (st0 := countStat st WeavecRtStatReleases).
  assert (Hb : besides_counts st0 = besides_counts st) by (unfold st0, countStat; by destruct (_ || _)).
  destruct (alloc_inv_counts st st0 w Hb Hi) as [Hi0 _]. pose proof Hb as Hb'. injection Hb' as E1 E2 E3 E4 E5 E6 E7 E8 E9 E10 E11 E12.
  clearbody st0. unfold claim, wordOf. cbn [ref_region ref_slot]. rewrite E2, Z.eqb_refl.
  destruct (claim_spec st0 w r s Hi0 ltac:(by rewrite E1) Hs Hl) as [Hi1 _].
  set (st1 := storeWord st0 r s claimed) in *. set (w1 := set_place w r s (Claimed None)) in *.
  assert (Hw1 : w1 r s = Claimed None) by (unfold w1; rewrite set_place_cases; case_decide; [done|tauto]).
  destruct (cacheFor_spec self (al_class st r) st1 w1 Hi1) as (H1 & H2 & H3 & H4 & H5 & H6).
  destruct (cacheFor self (al_class st r) st1) as [cache st2]. cbn [fst snd] in *.
  assert (H3' : al_heap st2 = al_heap st0) by (by rewrite H3). assert (H4' : al_class st2 = al_class st0) by (by rewrite H4).
  assert (Hset : settled st2 w1 (match cache with
                    | Some k => cachedRelease self k (al_class st r) (mkSlot r s (slotStart (al_heap st) r s)) st2
                    | None => retire self (mkSlot r s (slotStart (al_heap st) r s)) st2 end) r s).
  { rewrite <- E1, <- H3', <- E5, <- H4'. destruct cache as [k|].
    - destruct H6 as [Hk Hlt]. apply cachedRelease_spec; try done; [by rewrite H3', E1|]. by rewrite H4', E5, H3'.
    - apply retire_spec; try done. by rewrite H3', E1. }
  destruct Hset as (st3 & w3 & w' & Hi3 & [S1 S2 S3 S4 S5 S6 S7 S8] & Hk3 & Hi' & Hu').
  eexists _, st3, w3, w'. split; [reflexivity|]. split_and!; try done.
  rewrite H3', E1 in S3, S5. injection S6 as T1 T2 T3 T4.
  apply (buried_after st w st0 st3 w3 r s Hb).
  apply (buried_intro st0 w st2 st3 w3 r s); try done; rewrite ?E1; try done.
  - apply Hi0.
  - intros r' s' Hne. rewrite S2 by done. unfold w1. rewrite set_place_cases. by case_decide.
  - intros r' s' Hne Hlv. apply S4. unfold w1. rewrite set_place_cases. by case_decide.
  - congruence.
  - by apply same_marks_rest.
Qed.

(** A slot's block is no more; the others are as they were. *)
Lemma buried_unmade st w st1 w1 st' w' r s :
  alloc_inv st w -> heap_inv st1 w1 -> alloc_inv st' w' -> buried st w st1 w1 r s -> unseen st1 w1 st' w' ->
  unmade st w st' w' (slotStart (al_heap st) r s) (weavecRtWordValue (al_words st r s)).
Proof.
  intros Hi Hi1 Hi' [(Hr & Hs & Hl) B2 B3 B4 B5 B6 B7 B8 B9 B10 B11 B12] Hu. injection B7 as E1 E2.
  pose proof (unseen_same st1 w1 st' w' Hi1 (proj1 Hi') Hu) as [K1 K2 K4 K5 K6 K7 K8].
  pose proof (proj1 (proj1 Hi)) as Hsl. set (p := slotStart (al_heap st) r s).
  destruct (slotOf_start st w r s Hsl Hr Hs) as [Ha Href]; [by rewrite Hl|].
  assert (Hp : live_block st w p (weavecRtWordValue (al_words st r s))) by (left; exists r, s; split_and!; (done || lia)).
  assert (Hlive : forall q m, live_block st1 w1 q m <-> q <> p /\ live_block st w q m).
  { intros q m. unfold live_block. rewrite B8, E1. split.
    - intros [(r' & s' & Hr' & Hs' & Hl' & -> & ->)|Hq].
      + assert (Hne : ~ (r' = r /\ s' = s)) by (intros [-> ->]; by rewrite Hl' in B2).
        apply B4 in Hl'; [|done]. rewrite B5 by done. split; [|left; exists r', s'; split_and!; (done || lia)].
        intros E. destruct (slotOf_start st w r' s' Hsl Hr' Hs') as [_ E']; [by rewrite Hl'|].
        rewrite E in E'. unfold p in E'. rewrite Href in E'. injection E' as E3 E4. apply Hne. by split.
      + split; [|by right]. intros ->. unfold p in Hq. by rewrite (live_outside_arena st w _ _ Hi Hq) in Ha.
    - intros [Hne [(r' & s' & Hr' & Hs' & Hl' & -> & ->)|Hq]]; [left|by right].
      assert (Hrs : ~ (r' = r /\ s' = s)) by (intros [-> ->]; by apply Hne).
      exists r', s'. rewrite B5 by done. split_and!; try (done || lia). by apply B4. }
  assert (Hby : forall q m a, live_block st w q m -> q <> p -> q <= a < q + m -> ~ in_slot (al_heap st) r s a).
  { intros q m a Hq Hne Hqa Hia. destruct Hq as [(r' & s' & Hr' & Hs' & Hl' & -> & ->)|Hq].
    - pose proof (regions_range _ _ Hsl) as [_ H160]. pose proof (so_heap _ _ _ _ _ _ _ Hsl) as Hh.
      destruct (live_size st w r' s' Hsl ltac:(lia) Hs' Hl') as [_ Hsz].
      destruct (slots_bound _ _ _ _ _ _ _ Hsl r' s' ltac:(lia) Hs') as [Hb1 _]; [by rewrite Hl'|].
      destruct (slots_bound _ _ _ _ _ _ _ Hsl r s ltac:(lia) Hs) as [Hb2 _]; [by rewrite Hl|].
      destruct (in_slot_unique _ Hh r' s' r s a) as [-> ->]; try done; try lia. unfold in_slot. lia.
    - apply (slot_not_huge st w r s q m Hi Hr Hs ltac:(by rewrite Hl) Hq a Hqa Hia). }
  constructor; try done.
  - intros q m. by rewrite K1.
  - intros q m a Hq Hne Hqa. rewrite (K2 q m) by (try done; by apply Hlive). apply B6. by eapply Hby.
  - eapply grown_trans; [|exact K4]. by apply grown_same.
  - congruence.
  - left. congruence.
  - eapply stale_trans; [|exact B12|exact K7]. by apply grown_same.
  - intros r' s' Hr' Hs' Hl' E. destruct (slotOf_start st w r' s' Hsl Hr' Hs') as [_ E']; [by rewrite Hl'|].
    rewrite E in E'. unfold p in E'. rewrite Href in E'. injection E' as <- <-.
    apply (slot_denied_then st st1 w1); [by apply grown_same|apply B11|done|by left|exact K7].
Qed.

(** ** [release] *)

Lemma released_word size word p :
  word_ok size word p -> 0 < size <= 2 ^ 30 -> wordState word = WeavecRtDead <-> released p = true.
Proof.
  intros Hw Hsz. unfold WeavecRtDead.
  assert (Hs : forall v s, 0 <= v < 2 ^ 30 -> 0 <= s < 4 -> word = makeWord v s -> wordState word = s)
    by (intros v s Hv Hs ->; by apply makeWord_state).
  assert (H0 : word = 0 -> wordState word = 0) by (by intros ->).
  assert (HC : CachedDead = 2 ^ 30 - 1) by done.
  destruct p as [ | | | |[]|? ? []|]; cbn in Hw |- *;
    try (specialize (H0 Hw); split; [lia|done]);
    try (destruct Hw as (n & Hn & E)).
  - specialize (Hs n 1 ltac:(lia) ltac:(lia) E). split; [lia|done].
  - specialize (Hs n 2 ltac:(lia) ltac:(lia) E). split; [lia|done].
  - specialize (Hs n 3 ltac:(lia) ltac:(lia) E). split; [done|lia].
  - specialize (Hs n 2 ltac:(lia) ltac:(lia) E). split; [lia|done].
  - specialize (Hs n 2 ltac:(lia) ltac:(lia) E). split; [lia|done].
  - specialize (Hs CachedDead 3 ltac:(lia) ltac:(lia) Hw). split; [done|lia].
Qed.

(** Why an address is not one that may be released. *)
Inductive misuse (st : alloc) (w : Z -> Z -> place) (p : Z) : string -> Prop :=
  | released_twice r s : answers (al_heap st) p r s -> released (w r s) = true -> misuse st w p "the block was already released"
  | released_inside r s : answers (al_heap st) p r s -> w r s = Live -> p <> slotStart (al_heap st) r s ->
      misuse st w p "not the start of its block"
  | released_nothing r s : answers (al_heap st) p r s -> released (w r s) = false -> w r s <> Live ->
      misuse st w p "no block is allocated there"
  | huge_twice b : inArena (al_heap st) p = false -> hugeFind (al_huge st) p = Some b -> hb_dead b <> 0 ->
      misuse st w p "the block was already released"
  | huge_inside b : inArena (al_heap st) p = false -> hugeFind (al_huge st) p = Some b -> hb_dead b = 0 -> hb_base b <> p ->
      misuse st w p "not the start of its block"
  | foreign_block : inArena (al_heap st) p = false -> hugeFind (al_huge st) p = None -> misuse st w p "not a heap block".

Lemma whyNotReleasable_spec st w p :
  alloc_inv st w -> 0 <= p < 2 ^ 64 -> inArena (al_heap st) p = true -> (forall n, ~ live_block st w p n) ->
  misuse st w p (whyNotReleasable p st).
Proof.
  intros Hi Hp Ha Hno. pose proof (proj1 (proj1 Hi)) as Hsl. pose proof (so_heap _ _ _ _ _ _ _ Hsl) as Hh.
  destruct (slotOf_within _ Hh p Ha Hp) as (Hr & _ & _ & Hs0 & _).
  assert (Hans : answers (al_heap st) p (ref_region (slotOf (al_heap st) p)) (ref_slot (slotOf (al_heap st) p))) by done.
  pose proof (live_ref st w p Hsl Hp Ha) as HL. cbv zeta in HL. unfold whyNotReleasable, wordOf in *.
  assert (Hbase : ref_base (slotOf (al_heap st) p)
                  = slotStart (al_heap st) (ref_region (slotOf (al_heap st) p)) (ref_slot (slotOf (al_heap st) p))) by done.
  set (r := ref_region (slotOf (al_heap st) p)) in *. set (s := ref_slot (slotOf (al_heap st) p)) in *.
  destruct (capacity_of _ Hh r Hr) as (_ & Hz & _).
  pose proof (ro_words _ _ _ _ _ (so_region _ _ _ _ _ _ _ Hsl r Hr) s ltac:(lia)) as Hwd.
  pose proof (released_word _ _ _ Hwd ltac:(lia)) as HR. pose proof (live_word _ _ _ Hwd ltac:(lia)) as HV.
  cbv zeta. destruct (Z.eqb_spec (wordState (al_words st r s)) WeavecRtDead) as [Ed|Ed].
  { apply (released_twice _ _ _ r s); [done|by apply HR]. }
  destruct (Z.eqb_spec (wordState (al_words st r s)) WeavecRtLive) as [El|El]; cbn [negb].
  - apply (released_inside _ _ _ r s); [done|by apply HV|]. intros E. 
    assert (E' : ref_base (slotOf (al_heap st) p) = p) by (by rewrite Hbase).
    destruct (proj1 HL (conj E' El)) as (r' & s' & H1 & H2 & H3 & H4).
    apply (Hno (weavecRtWordValue (al_words st r' s'))). left. exists r', s'. split_and!; (done || lia).
  - apply (released_nothing _ _ _ r s); [done| |].
    + apply not_true_is_false. intros E. by apply HR in E.
    + intros E. by apply HV in E.
Qed.

Section Next.
Context {Next : NextAllocator}.

(** A release succeeds exactly at the start of a live block, which it makes no
    one's, or of a block of the C library's. *)
Lemma release_spec self st w p :
  alloc_inv st w -> 0 <= p < 2 ^ 64 -> add64 (ht_releases (al_huge st)) 1 <> 0 ->
  match release self p st with
  | Done _ st' => exists w', alloc_inv st' w' /\ calls_kept st st'
      /\ ((exists n, unmade st w st' w' p n)
          \/ (inArena (al_heap st) p = false /\ hugeFind (al_huge st) p = None /\ nextKnows p = true /\ st' = st /\ w' = w))
  | Fatal a why => a = p /\ (forall n, ~ live_block st w p n) /\ misuse st w p why
                   /\ (hugeFind (al_huge st) p = None -> inArena (al_heap st) p = false -> nextKnows p = false)
  end.
Proof.
  intros Hi Hp Hrel. pose proof (proj1 (proj1 Hi)) as Hsl.
  destruct (inArena (al_heap st) p) eqn:Ha.
  - destruct (decide (ref_base (slotOf (al_heap st) p) = p /\ wordState (wordOf st (slotOf (al_heap st) p)) = WeavecRtLive)) as [Hyes|Hno].
    + destruct (proj1 (live_ref st w p Hsl Hp Ha) Hyes) as (r & s & Hr & Hs & Hl & ->).
      destruct (release_slot self st w r s Hi Hr Hs Hl Next) as (st' & st1 & w1 & w' & -> & Hi1 & Hbu & Hi' & Hu).
      exists w'. split; [done|]. split.
      { eapply calls_kept_trans; [apply (bu_calls _ _ _ _ _ _ Hbu)|by eapply unseen_kept]. }
      left. exists (weavecRtWordValue (al_words st r s)). by apply (buried_unmade st w st1 w1).
    + assert (Hnl : forall n, ~ live_block st w p n).
      { intros n Hn. apply (ownedSize_live st w p n Hi Hp) in Hn. unfold ownedSize in Hn. rewrite Ha in Hn. cbv zeta in Hn.
        apply Hno. destruct (Z.eqb_spec (ref_base (slotOf (al_heap st) p)) p); [|done].
        destruct (Z.eqb_spec (wordState (wordOf st (slotOf (al_heap st) p))) WeavecRtLive); done. }
      unfold release. rewrite Ha. cbv zeta.
      assert (negb (ref_base (slotOf (al_heap st) p) =? p)
              || negb (wordState (wordOf st (slotOf (al_heap st) p)) =? WeavecRtLive) = true) as ->.
      { destruct (Z.eqb_spec (ref_base (slotOf (al_heap st) p)) p); [|done].
        destruct (Z.eqb_spec (wordState (wordOf st (slotOf (al_heap st) p))) WeavecRtLive); [exfalso; tauto|done]. }
      split_and!; try done. by apply whyNotReleasable_spec.
  - unfold release. rewrite Ha. pose proof (hugeFree_spec HP st w p Hi) as HF. cbv zeta in HF.
    destruct (hugeFree p st) as [freed st1]. cbn [fst snd] in HF. destruct freed.
    + destruct HF as [Hi1 (i & b & <- & Hf)]. destruct (inv_sweepOverBudget self st1 w Hi1) as (w' & Hi' & Hu').
      pose proof (unseen_same st1 w _ w' (proj1 Hi1) (proj1 Hi') Hu') as [K1 K2 K4 K5 K6 K7 K8].
      destruct (huge_freed_unmade st w st1 i b Hi Hi1 Hf Hrel) as [U1 U2 U3 U5 U6 U7 U8 U9].
      exists w'. split; [done|]. split.
      { eapply calls_kept_trans; [|by eapply unseen_kept]. pose proof (hf_besides _ _ _ _ Hf) as E. injection E as _ _ _ _ _ _ Ec Et.
        split; [lia|]. intros t. left. unfold calls, ownCache. by rewrite Ec. }
      left. exists (hb_size b). constructor; try done.
      * intros q m. by rewrite K1.
      * intros q m a Hq Hne Ha'. rewrite (K2 q m) by (try done; by apply U2). by apply (U3 q m).
      * by eapply grown_trans.
      * congruence.
      * rewrite K6. exact U7.
      * by eapply stale_trans.
      * intros r s Hr Hs0 Hl E. apply (slot_denied_then st st1 w); [exact U5|apply U8|done|by apply U9|exact K7].
    + destruct HF as [-> Hno]. pose proof Hi as (_ & _ & Hg).
      assert (Hnl : forall n, ~ live_block st w p n).
      { intros n [(r & s & Hr & Hs & Hl & -> & _)|Hn]; [|by apply (Hno n)].
        destruct (slotOf_start st w r s Hsl Hr Hs) as [X _]; [by rewrite Hl|]. congruence. }
      destruct (hugeFind (al_huge st) p) as [b|] eqn:Ef.
      * split_and!; try done. destruct (Z.eqb_spec (hb_dead b) 0) as [Ed|Ed]; cbn [negb].
        -- apply (huge_inside _ _ _ b); try done. intros E. apply (Hno (hb_size b)). apply (huge_live_find st p _ Hg). by exists b.
        -- by apply (huge_twice _ _ _ b).
      * destruct (nextKnows p) eqn:En; [exists w; split; [done|split; [apply (unseen_kept st w st w), unseen_refl|by right]]|]. split_and!; try done. by apply foreign_block.
Qed.
End Next.
End Release.
