(* ===== verification/CallFacts.v ===== *)
(** * The calls of the program

    [__weavec_rt_alloc], [__weavec_rt_free] and [__weavec_rt_realloc] of the
    file Allocator over the live blocks of the file LiveFacts: what a call makes
    or releases, the deferred releases of nested calls, and that no call runs
    out of fuel. *)

From Stdlib Require Import String.
From S2P Require Import Prelude Shadow Report Classes Heap HugeBlocks Sweep Allocator HeapFacts PopFacts CacheFacts.
From S2P Require Import MarkFacts SweepFacts HugeFacts AllocFacts LiveFacts ReleaseFacts.
Local Open Scope Z_scope.

Section Calls.
Context `{P : Pages} (HP : pages_wf) {Sys : System} {Next : NextAllocator}.
Context (top : Z) (Hmap : maps_apart top).

(** ** Allocation *)

(** A request that is refused: its alignment is no power of two. *)
Definition bad_alignment (alignment : Z) : Prop := 16 < alignment /\ Z.land alignment (alignment - 1) <> 0.

(** The block is no memory, or a new one. *)
Definition served (st : alloc) (w : Z -> Z -> place) (st' : alloc) (w' : Z -> Z -> place) (block size alignment : Z) : Prop :=
  (block = 0 /\ kept st w st' w')
  \/ (0 < block /\ made st w st' w' block size /\ ~ bad_alignment alignment /\ (16 < alignment -> block mod alignment = 0)).

Lemma made_after st w st1 w1 st2 w2 p n :
  kept st w st1 w1 -> made st1 w1 st2 w2 p n -> made st w st2 w2 p n.
Proof.
  intros [A1 A2 A3 A4 A5 A6 A7] [B1 B2 B3 B4 B5 B6 B7 B8 B9]. constructor; try congruence; try done.
  - intros q m. by rewrite B1, A1.
  - intros q m Hq. apply (B2 q m). by apply A1.
  - intros q m a Hq _ Ha. rewrite (B4 q m) by (try done; by apply A1). by apply (A2 q m).
  - by eapply grown_trans.
  - by eapply stale_trans.
  - intros r s Hr Hl. pose proof (gr_regions _ _ A3). apply B9; [lia|by apply A7].
Qed.

Lemma made_then st w st1 w1 st2 w2 p n :
  made st w st1 w1 p n -> kept st1 w1 st2 w2 -> al_mem st2 = al_mem st1 -> al_shadow st2 = al_shadow st1 -> made st w st2 w2 p n.
Proof.
  intros [B1 B2 B3 B4 B5 B6 B7 B8 B9] [A1 A2 A3 A4 A5 A6 A7] Em Es. constructor; try congruence; try done.
  - intros q m. by rewrite A1, B1.
  - intros a. rewrite Em, Es. apply B3.
  - intros q m a Hq _ Ha. rewrite Em. by apply (B4 q m).
  - by eapply grown_trans.
  - by eapply stale_trans.
  - intros r s Hr Hl. pose proof (gr_regions _ _ B5). apply A7; [lia|by apply B9].
Qed.

Lemma served_after st w st1 w1 st2 w2 block size alignment :
  kept st w st1 w1 -> served st1 w1 st2 w2 block size alignment -> served st w st2 w2 block size alignment.
Proof.
  intros Hk [[-> H]|(H0 & H1 & H2)]; [left; split; [done|by eapply kept_trans]|right].
  split; [done|]. split; [by eapply made_after|done].
Qed.

Lemma counted_kept st w st1 : besides_counts st1 = besides_counts st -> alloc_inv st w -> alloc_inv st1 w /\ kept st w st1 w /\ calls_kept st st1.
Proof.
  intros Hb Hi. destruct (alloc_inv_counts st st1 w Hb Hi) as [H1 H2]. split; [done|].
  split; [apply unseen_same; [apply Hi|apply H1|done]|by eapply unseen_kept].
Qed.

Lemma huge_made_calls st st' p n alignment : huge_made st st' p n alignment -> calls_kept st st'.
Proof.
  intros H. pose proof (hm_besides _ _ _ _ _ H) as E. injection E as _ _ _ _ _ _ E.
  split; [apply (hm_tick _ _ _ _ _ H)|]. intros t. left. unfold calls, ownCache. by rewrite E.
Qed.

(** [chosenClass]'s class is one of the heap's, or the request is a mapping of
    its own. *)
Lemma chosen_slot st w size alignment c :
  slots st w -> 0 <= size < 2 ^ 64 -> 0 <= alignment < 2 ^ 64 -> chosenClass size alignment = Some c ->
  c < h_classes (al_heap st) ->
  0 <= c /\ 0 <= size < slotBytesOf st c
  /\ forall r s, 0 <= r < h_regions (al_heap st) -> al_class st r = c -> 16 < alignment ->
       slotStart (al_heap st) r s mod alignment = 0.
Proof.
  intros Hs Hsz Hal Hc Hlt. pose proof (so_heap _ _ _ _ _ _ _ Hs) as Hh. pose proof (ho_classes _ Hh) as H100.
  destruct (chosenClass_fits _ size alignment c Hh Hsz Hal Hc ltac:(lia)) as (H0 & H1 & H2).
  assert (Hcs : c_size (entryOf (al_heap st) c) = classSize c).
  { rewrite (so_entry _ _ _ _ _ _ _ Hs c ltac:(lia)). apply classEntry_spec; [apply (ho_shift _ Hh)|lia]. }
  split; [done|]. split; [unfold slotBytesOf; rewrite Hcs; lia|].
  intros r s Hr Hcl H16. apply H2; [lia| |done].
  destruct (so_class _ _ _ _ _ _ _ Hs r Hr) as [_ ->]. by rewrite Hcl.
Qed.

Lemma slot_served st w st' w' c size alignment block :
  alloc_inv st w -> alloc_inv st' w' -> 0 <= size < 2 ^ 64 -> 0 <= alignment < 2 ^ 64 ->
  chosenClass size alignment = Some c -> c < h_classes (al_heap st) -> ~ bad_alignment alignment ->
  slot_or_none st w c size block st' w' -> served st w st' w' block size alignment.
Proof.
  intros Hi Hi' Hsz Hal Hc Hlt Hbad [[-> Hu]|(r & s & Had & Hcl & _)].
  - left. split; [done|]. apply unseen_same; [apply Hi|apply Hi'|done].
  - right. pose proof (allocated_made st w st' w' block size r s Hi Hi' Had) as Hm.
    pose proof (ad_slot _ _ _ _ _ _ _ _ Had) as (Hr & Hs & ->).
    destruct (live_range st' w' (slotStart (al_heap st') r s) size Hi') as [Hp _]; [apply (md_live _ _ _ _ _ _ Hm); by left|].
    split; [lia|]. split; [done|]. split; [done|]. intros H16.
    apply (chosen_slot st' w' size alignment c); try done; [apply Hi'|].
    by rewrite (gr_classes _ _ (ad_grown _ _ _ _ _ _ _ _ Had)).
Qed.

Lemma allocate_spec self size alignment st w :
  alloc_inv st w -> top <= 2 ^ s_bits (al_shadow st) -> 0 <= size < 2 ^ 64 -> 0 <= alignment < 2 ^ 64 ->
  exists block st' w', allocate self size alignment st = (Some block, st') /\ alloc_inv st' w'
    /\ served st w st' w' block size alignment /\ calls_kept st st'.
Proof.
  intros Hi Htop Hsz Hal. pose proof (proj1 (proj1 Hi)) as Hs. pose proof (so_heap _ _ _ _ _ _ _ Hs) as Hh.
  unfold allocate. rewrite (proj2 (Z.eqb_neq _ 0)).
  2:{ rewrite (ho_bytes _ Hh). destruct (ho_shift _ Hh) as [->| ->]; lia. }
  destruct (chosenClass size alignment) as [c|] eqn:Hc.
  2:{ exists 0, st, w. split_and!; try done; [|apply (unseen_kept st w st w), unseen_refl].
      left. split; [done|]. apply unseen_same; [apply Hi..|apply unseen_refl]. }
  assert (Hbad : ~ bad_alignment alignment).
  { intros [H16 Hn]. destruct (chosenClass_aligned _ size alignment Hh Hsz ltac:(lia)) as [Hx _].
    by rewrite (proj2 Hx Hn) in Hc. }
  assert (Hreq : aligned_request alignment).
  { split; [done|]. intros H16. destruct (Z.eq_dec (Z.land alignment (alignment - 1)) 0); [done|]. by destruct Hbad. }
  set (st0 := countStat st _). assert (Hb0 : besides_counts st0 = besides_counts st) by (unfold st0, countStat; by case_match).
  destruct (counted_kept st w st0 Hb0 Hi) as (Hi0 & Hk0 & Hc0). injection Hb0 as E1 E2 E3 E4 E5 E6 E7 E8 E9 E10 E11 E12. clearbody st0.
  assert (Hhuge : forall st1 w1, alloc_inv st1 w1 -> kept st w st1 w1 -> calls_kept st st1 ->
    exists block st' w', (let '(block, st') := hugeAlloc size alignment (countStat st1 WeavecRtStatHuge) in (Some block, st'))
                       = (Some block, st') /\ alloc_inv st' w' /\ served st w st' w' block size alignment /\ calls_kept st st').
  { intros st1 w1 Hi1 Hk1 Hc1. set (st2 := countStat st1 _).
    assert (Hb2 : besides_counts st2 = besides_counts st1) by (unfold st2, countStat; by case_match).
    destruct (counted_kept st1 w1 st2 Hb2 Hi1) as (Hi2 & Hk2 & Hc2). clearbody st2.
    assert (Htop2 : top <= 2 ^ s_bits (al_shadow st2)) by (by rewrite (kp_bits _ _ _ _ Hk2), (kp_bits _ _ _ _ Hk1)).
    destruct (hugeAlloc_spec HP top size alignment st2 w1 Hmap Htop2 Hi2 Hsz Hreq) as [Hi3 Hres].
    destruct (hugeAlloc size alignment st2) as [block st3]. cbn [fst snd] in *. exists block, st3, w1. split; [done|]. split; [done|].
    split; [|do 2 (eapply calls_kept_trans; [eassumption|]); destruct Hres as [[_ Hu]|[_ Hm]];
              [by eapply unseen_kept|by eapply huge_made_calls]].
    apply (served_after st w st2 w1); [by eapply kept_trans|].
    destruct Hres as [[-> Hu]|[H0 Hm]]; [left; split; [done|apply unseen_same; [apply Hi2|apply Hi3|done]]|right].
    split; [done|]. split; [apply (huge_made_made st2 w1 st3 block size alignment); (done || lia)|]. split; [done|]. by apply (hm_aligned _ _ _ _ _ Hm). }
  destruct (Z.ltb_spec c (h_classes (al_heap st0))) as [Hlt|Hge].
  - destruct (chosen_slot st0 w size alignment c (proj1 (proj1 Hi0)) Hsz Hal Hc Hlt) as (H0 & H1 & _).
    destruct (allocateSlot_spec HP self c size st0 w Hi0 ltac:(lia) H1) as (block & st1 & w1 & -> & Hi1 & Hk1 & Hsl).
    pose proof (slot_served st0 w st1 w1 c size alignment block Hi0 Hi1 Hsz Hal Hc Hlt Hbad Hsl) as Hserved.
    destruct (Z.eqb_spec block 0) as [->|Hne]; cbn [negb].
    + destruct Hserved as [[_ Hk]|(? & _)]; [|lia]. apply (Hhuge st1 w1 Hi1); [by eapply kept_trans|by eapply calls_kept_trans].
    + exists block, st1, w1. split_and!; try done; [by apply (served_after st w st0 w)|by eapply calls_kept_trans].
  - cbn [Z.eqb negb]. by apply (Hhuge st0 w).
Qed.

(** ** A call begins and ends *)

Lemma kept_refl st w : alloc_inv st w -> kept st w st w.
Proof. intros Hi. apply unseen_same; [apply Hi..|apply unseen_refl]. Qed.

(** The own cache's counts change, not its slots. *)
Lemma inv_calls st w self k k' :
  alloc_inv st w -> ownCache self st = Some k -> tc_alloc k' = tc_alloc k -> tc_release k' = tc_release k ->
  alloc_inv (set_cache st self k') w /\ kept st w (set_cache st self k') w.
Proof.
  intros Hi Hk Ea Er. destruct (proj1 (proj2 Hi) self k Hk) as [Hc Hroom]. split.
  - apply work_end; [|intros c Hc0; rewrite Er; by apply Hroom].
    apply (work_counts self k k' st st); try done. by apply work_start.
  - constructor; try done; [by apply stale_same|by intros r s _].
Qed.

Definition deferred (self : nat) (st : alloc) : list Z :=
  match ownCache self st with Some k => tc_deferred k | None => [] end.

Lemma deferred_calls self st d l def : calls st self = Some (d, l, def) -> deferred self st = def.
Proof. unfold calls, deferred. destruct (ownCache self st); [|done]. by intros [= _ _ ->]. Qed.

(** What a thread's calls keep, one call deeper. *)
Definition deeper (n : Z) (x : Z * Z * list Z) : Z * Z * list Z := (fst (fst x) + n, snd (fst x), snd x).

Lemma enter_spec self st w :
  alloc_inv st w ->
  let res := enter self st in
  alloc_inv (snd res) w /\ kept st w (snd res) w /\ al_tick (snd res) = al_tick st
  /\ fst res = (match calls st self with Some _ => true | None => false end)
  /\ forall t, calls (snd res) t = if decide (t = self) then option_map (deeper 1) (calls st t) else calls st t.
Proof.
  intros Hi. unfold enter. destruct (ownCache self st) as [k|] eqn:Hk; cbn [fst snd].
  - destruct (inv_calls st w self k (tc_with_depth k (tc_depth k + 1)) Hi Hk eq_refl eq_refl) as [H1 H2].
    split_and!; try done; [unfold calls; by rewrite Hk|].
    intros t. rewrite calls_set, Hk. case_decide; [subst t|done]. unfold calls. by rewrite Hk.
  - split_and!; try done; [by apply kept_refl|unfold calls; by rewrite Hk|]. intros t. case_decide; [subst t|done]. unfold calls. by rewrite Hk.
Qed.

(** Whether a thread's call is its only one. *)
Definition outermost (self : nat) (st : alloc) : bool :=
  match calls st self with Some (d, _, _) => d =? 0 | None => false end.

(** The call ends: what the thread's calls keep is as it was. *)
Lemma leave_spec self st st1 st2 w2 :
  (al_tick st1 = al_tick st) ->
  (forall t, calls st1 t = if decide (t = self) then option_map (deeper 1) (calls st t) else calls st t) ->
  alloc_inv st2 w2 -> calls_kept st1 st2 ->
  let res := leave self (match calls st self with Some _ => true | None => false end) st2 in
  alloc_inv (snd res) w2 /\ kept st2 w2 (snd res) w2 /\ calls_kept st (snd res) /\ fst res = outermost self st.
Proof.
  intros Ht Hc Hi2 [Ht2 Hk2]. unfold leave, outermost. pose proof (Hc self) as Hs. rewrite decide_True in Hs by done.
  pose proof (Hk2 self) as Hks. rewrite Hs in Hks.
  destruct (calls st self) as [[[d l] def]|] eqn:Ec; cbn [option_map] in Hks.
  - destruct Hks as [Hks|[? ?]]; [|done]. unfold calls in Hks. destruct (ownCache self st2) as [k|] eqn:Hk; [|done].
    cbn in Hks. injection Hks as E1 E2 E3. cbn [fst snd].
    destruct (inv_calls st2 w2 self k (tc_with_depth k (tc_depth k - 1)) Hi2 Hk eq_refl eq_refl) as [H1 H2].
    split; [done|]. split; [done|]. split; [|by replace (tc_depth k - 1) with d by lia].
    split; [cbn; lia|]. intros t. rewrite calls_set, Hk. case_decide as Et.
    + subst t. left. rewrite Ec. cbn. f_equal. f_equal; [f_equal; lia|done].
    + specialize (Hc t). rewrite decide_False in Hc by done. rewrite <- Hc. apply Hk2.
  - assert (E : match ownCache self st2 with
                | Some k => if false then (tc_depth k - 1 =? 0, set_cache st2 self (tc_with_depth k (tc_depth k - 1))) else (false, st2)
                | None => (false, st2) end = (false, st2)) by (by destruct (ownCache self st2)).
    rewrite E. cbn [fst snd]. split; [done|]. split; [apply unseen_same; [apply Hi2..|apply unseen_refl]|]. split; [|done].
    split; [lia|]. intros t. destruct (decide (t = self)) as [->|Et].
    + rewrite Ec. destruct Hks as [->|[_ ->]]; [by left|by right].
    + specialize (Hc t). rewrite decide_False in Hc by done. rewrite <- Hc. apply Hk2.
Qed.

Lemma leave_bytes self counted st :
  al_mem (snd (leave self counted st)) = al_mem st /\ al_shadow (snd (leave self counted st)) = al_shadow st.
Proof. unfold leave. destruct (ownCache self st); [|done]. by destruct (counted : bool). Qed.

(** ** Releases, one after another *)

(** A release that succeeds: of nothing, of a live block, or of a block of the C
    library's. *)
Definition one_release (st : alloc) (w : Z -> Z -> place) (p : Z) (st' : alloc) (w' : Z -> Z -> place) : Prop :=
  (p = 0 /\ kept st w st' w')
  \/ (exists n, unmade st w st' w' p n)
  \/ ((forall n, ~ live_block st w p n) /\ nextKnows p = true /\ kept st w st' w').

Inductive runs : alloc -> (Z -> Z -> place) -> list Z -> alloc -> (Z -> Z -> place) -> Prop :=
  | runs_done st w st' w' : kept st w st' w' -> runs st w [] st' w'
  | runs_release st w p ps st1 w1 st' w' : one_release st w p st1 w1 -> runs st1 w1 ps st' w' -> runs st w (p :: ps) st' w'.

(** The first of the releases that cannot be made stops the program. *)
Definition stops (st : alloc) (w : Z -> Z -> place) (ps : list Z) (a : Z) (why : string) : Prop :=
  exists before after st1 w1, ps = before ++ a :: after /\ runs st w before st1 w1
    /\ (forall n, ~ live_block st1 w1 a n) /\ misuse st1 w1 a why.

Lemma unmade_after st w st1 w1 st2 w2 p n :
  kept st w st1 w1 -> unmade st1 w1 st2 w2 p n -> unmade st w st2 w2 p n.
Proof.
  intros [A1 A2 A4 A5 A6 A7 A8] [B1 B2 B3 B5 B6 B7 B8 B9]. constructor; try congruence.
  - by apply A1.
  - intros q m. by rewrite B2, A1.
  - intros q m a Hq Hne Ha. rewrite (B3 q m) by (try done; by apply A1). by apply (A2 q m).
  - by eapply grown_trans.
  - by eapply stale_trans.
  - intros r s Hr Hs Hl E. pose proof (gr_regions _ _ A4). apply (slot_denied_after st st1); [done|apply A7|done|].
    apply B9; [lia|done|by apply A8|]. by rewrite (grown_start st st1).
Qed.

Lemma unmade_then st w st1 w1 st2 w2 p n :
  unmade st w st1 w1 p n -> kept st1 w1 st2 w2 -> unmade st w st2 w2 p n.
Proof.
  intros [A1 A2 A3 A5 A6 A7 A8 A9] [B1 B2 B4 B5 B6 B7 B8]. constructor; try congruence.
  - intros q m. by rewrite B1, A2.
  - intros q m a Hq Hne Ha. rewrite (B2 q m) by (try done; by apply A2). by apply (A3 q m).
  - by eapply grown_trans.
  - by eapply stale_trans.
  - intros r s Hr Hs Hl E. apply (slot_denied_then st st1 w1); [done|apply A8|done|by apply A9|done].
Qed.

Lemma one_release_after st w st1 w1 p st2 w2 : kept st w st1 w1 -> one_release st1 w1 p st2 w2 -> one_release st w p st2 w2.
Proof.
  intros Hk [[-> H]|[[n H]|(H1 & H2 & H3)]]; [left|right; left|right; right].
  - split; [done|]. by eapply kept_trans.
  - exists n. by eapply unmade_after.
  - split_and!; [|done|by eapply kept_trans]. intros n Hn. apply (H1 n). by apply (kp_live _ _ _ _ Hk).
Qed.

Lemma one_release_then st w st1 w1 p st2 w2 : one_release st w p st1 w1 -> kept st1 w1 st2 w2 -> one_release st w p st2 w2.
Proof.
  intros [[-> H]|[[n H]|(H1 & H2 & H3)]] Hk; [left|right; left|right; right].
  - split; [done|]. by eapply kept_trans.
  - exists n. by eapply unmade_then.
  - split_and!; [done|done|by eapply kept_trans].
Qed.

Lemma runs_after st w st1 w1 ps st2 w2 : kept st w st1 w1 -> runs st1 w1 ps st2 w2 -> runs st w ps st2 w2.
Proof.
  intros Hk Hr. inversion Hr; subst; [constructor; by eapply kept_trans|].
  eapply runs_release; [|done]. by eapply one_release_after.
Qed.

Lemma runs_then st w ps st1 w1 st2 w2 : runs st w ps st1 w1 -> kept st1 w1 st2 w2 -> runs st w ps st2 w2.
Proof.
  induction 1 as [st w st' w' Hk'|st w p ps st1 w1 st' w' Ho Hr IH]; intros Hk; [constructor; by eapply kept_trans|].
  eapply runs_release; [done|]. by apply IH.
Qed.

Lemma runs_app st w ps qs st1 w1 st2 w2 : runs st w ps st1 w1 -> runs st1 w1 qs st2 w2 -> runs st w (ps ++ qs) st2 w2.
Proof.
  induction 1 as [st w st' w' Hk'|st w p ps st1 w1 st' w' Ho Hr IH]; intros Hq; [by eapply runs_after|].
  cbn. eapply runs_release; [done|]. by apply IH.
Qed.

Lemma stops_after st w st1 w1 ps a why : kept st w st1 w1 -> stops st1 w1 ps a why -> stops st w ps a why.
Proof.
  intros Hk (before & after & st2 & w2 & -> & Hr & H). exists before, after, st2, w2. split; [done|].
  split; [by eapply runs_after|done].
Qed.

Lemma stops_release st w p ps st1 w1 a why :
  one_release st w p st1 w1 -> stops st1 w1 ps a why -> stops st w (p :: ps) a why.
Proof.
  intros Ho (before & after & st2 & w2 & -> & Hr & H). exists (p :: before), after, st2, w2. split; [done|].
  split; [by eapply runs_release|done].
Qed.

(** The count of the mapped blocks' releases is not about to wrap. *)
Definition room_for (n : nat) (st : alloc) : Prop :=
  0 <= ht_releases (al_huge st) /\ ht_releases (al_huge st) + Z.of_nat n < 2 ^ 64.

Lemma room_for_kept n st w st' w' : kept st w st' w' -> room_for n st -> room_for n st'.
Proof. intros Hk. unfold room_for. by rewrite (kp_releases _ _ _ _ Hk). Qed.

Lemma room_for_less n m st : (m <= n)%nat -> room_for n st -> room_for m st.
Proof. unfold room_for. lia. Qed.

Lemma room_for_release n st w p st' w' : one_release st w p st' w' -> room_for (S n) st -> room_for n st'.
Proof.
  intros [[_ H]|[[m H]|(_ & _ & H)]] Hr; [by eapply room_for_less; [|by eapply room_for_kept]; lia| |
    by eapply room_for_less; [|by eapply room_for_kept]; lia].
  unfold room_for in *. destruct (um_releases _ _ _ _ _ _ H) as [->| ->]; [lia|]. unfold add64. rewrite wrap64_small by lia. lia.
Qed.

Lemma runs_room st w ps st' w' n : runs st w ps st' w' -> room_for (length ps + n) st -> room_for n st'.
Proof.
  induction 1 as [st w st' w' Hk|st w p ps st1 w1 st' w' Ho Hr IH]; intros Hroom; [by eapply room_for_kept|].
  apply IH. by eapply room_for_release.
Qed.

Lemma served_room st w st' w' block size alignment n :
  served st w st' w' block size alignment -> room_for n st -> room_for n st'.
Proof.
  unfold room_for. intros [[_ H]|(_ & H & _)]; [by rewrite (kp_releases _ _ _ _ H)|by rewrite (md_releases _ _ _ _ _ _ H)].
Qed.

(** A release between a call's beginning and its end. *)
Lemma call_release self st w p :
  alloc_inv st w -> 0 <= p < 2 ^ 64 -> room_for 1 st ->
  let entered := enter self st in
  match release self p (snd entered) with
  | Fatal a why => stops st w [p] a why
  | Done _ st2 => exists w', alloc_inv (snd (leave self (fst entered) st2)) w'
      /\ one_release st w p (snd (leave self (fst entered) st2)) w'
      /\ calls_kept st (snd (leave self (fst entered) st2)) /\ fst (leave self (fst entered) st2) = outermost self st
  end.
Proof.
  intros Hi Hp Hroom entered. destruct (enter_spec self st w Hi) as (Hi1 & Hk1 & Ht1 & Hf1 & Hc1).
  fold entered in Hi1, Hk1, Ht1, Hf1, Hc1. set (st1 := snd entered) in *.
  assert (Hrel : add64 (ht_releases (al_huge st1)) 1 <> 0).
  { rewrite (kp_releases _ _ _ _ Hk1). unfold room_for in Hroom. unfold add64. rewrite wrap64_small by lia. lia. }
  pose proof (release_spec HP self st1 w p Hi1 Hp Hrel) as HR. destruct (release self p st1) as [[] st2|a why].
  - destruct HR as (w2 & Hi2 & Hc2 & Hone). rewrite Hf1.
    destruct (leave_spec self st st1 st2 w2 Ht1 Hc1 Hi2 Hc2) as (Hi3 & Hk3 & Hc3 & Ho3).
    exists w2. split_and!; try done.
    apply (one_release_then st w st2 w2); [|done]. apply (one_release_after st w st1 w); [done|].
    destruct Hone as [H|(H1 & H2 & H3 & -> & ->)]; [by right; left|right; right].
    split_and!; [|done|by apply kept_refl]. intros n [(r & s & Hr & Hs & Hl & -> & _)|Hn].
    + destruct (slotOf_start st1 w r s (proj1 (proj1 Hi1)) Hr Hs) as [X _]; [by rewrite Hl|]. congruence.
    + apply huge_live_find in Hn as (b & E & _); [congruence|apply Hi1].
  - destruct HR as (-> & H1 & H2 & _). exists [], [], st1, w. split_and!; try done. by constructor.
Qed.

(** What a thread's outermost call leaves: nothing deferred. *)
Definition drained (self : nat) (st st' : alloc) : Prop :=
  (al_tick st <= al_tick st')%nat
  /\ (forall t, t <> self -> calls st' t = calls st t \/ (calls st t = None /\ calls st' t = Some (0, 0, [])))
  /\ match calls st self with
     | Some (0, l, _) => calls st' self = Some (0, l, [])
     | Some x => calls st' self = Some x
     | None => calls st' self = None \/ calls st' self = Some (0, 0, [])
     end.

Lemma drained_after self st st1 st2 d l def def' :
  (al_tick st <= al_tick st1)%nat ->
  (forall t, t <> self -> calls st1 t = calls st t \/ (calls st t = None /\ calls st1 t = Some (0, 0, []))) ->
  calls st self = Some (d, l, def) -> d = 0 -> calls st1 self = Some (0, l, def') -> drained self st1 st2 -> drained self st st2.
Proof.
  intros Ht Ho Hs -> Hs1 (B1 & B2 & B3). rewrite Hs1 in B3. split; [lia|]. split; [|by rewrite Hs].
  intros t Hne. destruct (B2 t Hne) as [->|[E1 E2]]; [by apply Ho|]. destruct (Ho t Hne) as [E|[E E']]; [|congruence].
  right. split; [congruence|done].
Qed.

Lemma popDeferred_spec self st w d l def :
  alloc_inv st w -> calls st self = Some (d, l, def) ->
  match rev def with
  | [] => popDeferred self st = None
  | p :: rest => exists st', popDeferred self st = Some (p, st') /\ alloc_inv st' w /\ kept st w st' w
                   /\ al_tick st' = al_tick st
                   /\ forall t, calls st' t = if decide (t = self) then Some (d, l, rev rest) else calls st t
  end.
Proof.
  intros Hi Hc. unfold popDeferred. unfold calls in Hc. destruct (ownCache self st) as [k|] eqn:Hk; [|done].
  cbn in Hc. injection Hc as E1 E2 E3. rewrite E3. destruct (rev def) as [|p rest]; [done|].
  destruct (inv_calls st w self k (tc_with_deferred k (rev rest)) Hi Hk eq_refl eq_refl) as [H1 H2].
  eexists. split; [reflexivity|]. split_and!; try done. intros t. rewrite calls_set, Hk. case_decide; [|done].
  cbn. by rewrite E1, E2.
Qed.

Lemma busy_calls self st : busy self st = match calls st self with Some (d, l, _) => negb (d =? 0) && negb (l =? 0) | None => false end.
Proof. unfold busy, calls. by destruct (ownCache self st). Qed.

Definition addresses (ps : list Z) : Prop := Forall (fun p => 0 <= p < 2 ^ 64) ps.

Definition free_spec (fuel : nat) : Prop := forall self st w p,
  alloc_inv st w -> 0 <= p < 2 ^ 64 -> addresses (deferred self st) -> room_for (S (length (deferred self st))) st ->
  (2 * length (deferred self st) + 2 <= fuel)%nat -> busy self st = false ->
  let ps := if p =? 0 then [] else p :: (if outermost self st then rev (deferred self st) else []) in
  match freeDeferred fuel self p st with
  | None => False
  | Some (Done _ st') => exists w', alloc_inv st' w' /\ runs st w ps st' w' /\ (if p =? 0 then st' = st else drained self st st')
  | Some (Fatal a why) => stops st w ps a why
  end.

Definition drain_spec (fuel : nat) : Prop := forall self st w l def,
  alloc_inv st w -> calls st self = Some (0, l, def) -> addresses def -> room_for (length def) st ->
  (2 * length def + 1 <= fuel)%nat ->
  match drainDeferred fuel self st with
  | None => False
  | Some (Done _ st') => exists w', alloc_inv st' w' /\ runs st w (rev def) st' w' /\ drained self st st'
  | Some (Fatal a why) => stops st w (rev def) a why
  end.

Lemma stops_none st w a why : ~ stops st w [] a why.
Proof. intros (before & after & _ & _ & E & _). by destruct before. Qed.

Lemma kept_drained self st st' l def :
  calls_kept st st' -> calls st self = Some (0, l, def) -> def = [] -> drained self st st'.
Proof.
  intros [Ht Hc] E ->. split; [done|]. split; [intros t _; apply Hc|]. rewrite E.
  destruct (Hc self) as [->|[E' _]]; [done|congruence].
Qed.

Lemma not_outermost_drained self st st' : calls_kept st st' -> outermost self st = false -> drained self st st'.
Proof.
  intros [Ht Hc] Ho. split; [done|]. split; [intros t _; apply Hc|]. unfold outermost in Ho.
  destruct (Hc self) as [E|[E E']].
  - rewrite E. destruct (calls st self) as [[[d l] def]|]; [|by left]. destruct d; done.
  - rewrite E. by right.
Qed.

Lemma drainDeferred_S fuel self st :
  drainDeferred (S fuel) self st
  = match popDeferred self st with
    | None => Some (Done tt st)
    | Some (p, st) =>
      match freeDeferred fuel self p st with
      | Some (Done _ st) => drainDeferred fuel self st
      | r => r
      end
    end.
Proof. done. Qed.

Lemma freeDeferred_S fuel self p st :
  freeDeferred (S fuel) self p st
  = if p =? 0 then Some (Done tt st)
    else if busy self st then
      match ownCache self st with
      | Some k =>
        Some (Done tt (if Z.of_nat (length (tc_deferred k)) <? Deferrable
                       then set_cache st self (tc_with_deferred k (tc_deferred k ++ [p])) else st))
      | None => Some (Done tt st)
      end
    else
      match release self p (snd (enter self st)) with
      | Fatal a why => Some (Fatal a why)
      | Done _ st2 =>
        let ended := leave self (fst (enter self st)) st2 in
        if fst ended then drainDeferred fuel self (snd ended) else Some (Done tt (snd ended))
      end.
Proof.
  cbn -[release]. destruct (p =? 0); [done|]. destruct (busy self st); [done|]. destruct (enter self st) as [counted st1].
  cbn [fst snd]. destruct (release self p st1) as [r st2|]; [|done]. by destruct (leave self counted st2) as [[] ?].
Qed.

Lemma drain_step fuel : free_spec fuel -> drain_spec fuel -> drain_spec (S fuel).
Proof.
  intros HF HD self st w l def Hi Hc Ha Hroom Hf. rewrite drainDeferred_S.
  pose proof (popDeferred_spec self st w 0 l def Hi Hc) as Hpop.
  assert (Hlen : length def = length (rev def)) by (by rewrite length_rev).
  assert (Har : addresses (rev def)) by (unfold addresses; by rewrite <- (Permutation_rev def)).
  destruct (rev def) as [|p rest] eqn:Er.
  { rewrite Hpop. exists w. split; [done|]. split; [constructor; by apply kept_refl|].
    apply (kept_drained self st st l def); [apply (unseen_kept st w st w), unseen_refl|done|].
    by destruct def; [|cbn in Hlen; lia]. }
  destruct Hpop as (st1 & -> & Hi1 & Hk1 & Ht1 & Hc1). apply list.Forall_cons in Har as [Hp Har].
  assert (Hs1 : calls st1 self = Some (0, l, rev rest)) by (rewrite Hc1; by rewrite decide_True).
  pose proof (deferred_calls self st1 0 l _ Hs1) as Hd1. cbn [length] in Hlen.
  assert (Hr1 : addresses (rev rest)) by (unfold addresses; by rewrite <- (Permutation_rev rest)).
  pose proof (HF self st1 w p Hi1 Hp) as HF1. rewrite Hd1, length_rev in HF1.
  specialize (HF1 Hr1 ltac:(eapply room_for_kept; [exact Hk1|]; by rewrite <- Hlen) ltac:(lia)
                  ltac:(by rewrite busy_calls, Hs1)). cbv zeta in HF1.
  assert (Hout : outermost self st1 = true) by (unfold outermost; by rewrite Hs1). rewrite Hout, rev_involutive in HF1.
  assert (Hothers : forall t, t <> self -> calls st1 t = calls st t \/ (calls st t = None /\ calls st1 t = Some (0, 0, []))).
  { intros t Hne. left. rewrite Hc1. by rewrite decide_False. }
  destruct (freeDeferred fuel self p st1) as [[[] st2|a why]|]; [| |done].
  - destruct HF1 as (w2 & Hi2 & Hr2 & Hd2). destruct (Z.eqb_spec p 0) as [->|Hne].
    + subst st2. specialize (HD self st1 w l (rev rest) Hi1 Hs1 Hr1). rewrite length_rev, rev_involutive in HD.
      specialize (HD ltac:(eapply room_for_less; [|by eapply room_for_kept]; lia) ltac:(lia)).
      destruct (drainDeferred fuel self st1) as [[[] st3|a why]|]; [| |done].
      * destruct HD as (w3 & Hi3 & Hr3 & Hd3). exists w3. split; [done|]. split.
        -- eapply runs_release; [left; split; [done|exact Hk1]|done].
        -- by apply (drained_after self st st1 st3 0 l def (rev rest)); [lia|..].
      * apply (stops_release st w 0 rest st1 w); [by left|done].
    + pose proof Hd2 as (D1 & D2 & D3). rewrite Hs1 in D3.
      specialize (HD self st2 w2 l [] Hi2 D3 ltac:(constructor)). cbn [length rev] in HD.
      assert (Hroom2 : room_for 0 st2).
      { apply (runs_room st1 w (p :: rest) st2 w2 0 Hr2). cbn [length]. rewrite Nat.add_0_r, <- Hlen.
        by eapply room_for_kept. }
      specialize (HD Hroom2 ltac:(lia)).
      destruct (drainDeferred fuel self st2) as [[[] st3|a why]|]; [| |done].
      * destruct HD as (w3 & Hi3 & Hr3 & Hd3). exists w3. split; [done|]. split.
        -- apply (runs_after st w st1 w); [done|]. rewrite <- (app_nil_r (p :: rest)). by eapply runs_app.
        -- apply (drained_after self st st1 st3 0 l def (rev rest)); try done; [lia|].
           destruct Hd3 as (F1 & F2 & F3). rewrite D3 in F3. split; [lia|]. split; [|by rewrite Hs1].
           intros t Hne'. destruct (F2 t Hne') as [->|[G1 G2]]; [by apply D2|].
           destruct (D2 t Hne') as [X|[X Y]]; [|congruence]. right. split; [congruence|done].
      * by apply stops_none in HD.
  - destruct (Z.eqb_spec p 0); [by apply stops_none in HF1|]. by apply (stops_after st w st1 w).
Qed.

Lemma free_step fuel : drain_spec fuel -> free_spec (S fuel).
Proof.
  intros HD self st w p Hi Hp Ha Hroom Hf Hb. rewrite freeDeferred_S. cbv zeta.
  destruct (Z.eqb_spec p 0) as [->|Hne].
  { exists w. split; [done|]. split; [constructor; by apply kept_refl|done]. }
  rewrite Hb. pose proof (call_release self st w p Hi Hp ltac:(eapply room_for_less; [|exact Hroom]; lia)) as HR. cbv zeta in HR.
  destruct (release self p (snd (enter self st))) as [r st2|a why].
  - destruct HR as (w' & Hi' & Hone & Hc & Ho). set (st3 := snd (leave self (fst (enter self st)) st2)) in *. rewrite Ho.
    destruct (outermost self st) eqn:Hout.
    + unfold outermost in Hout. destruct (calls st self) as [[[d l] def]|] eqn:Ec; [|done]. apply Z.eqb_eq in Hout as ->.
      rewrite (deferred_calls self st 0 l def Ec) in *.
      assert (Ec3 : calls st3 self = Some (0, l, def)).
      { destruct Hc as [_ Hc]. destruct (Hc self) as [->|[? _]]; [done|congruence]. }
      specialize (HD self st3 w' l def Hi' Ec3 Ha ltac:(by eapply room_for_release) ltac:(lia)).
      destruct (drainDeferred fuel self st3) as [[[] st4|a why]|]; [| |done].
      * destruct HD as (w4 & Hi4 & Hr4 & Hd4). exists w4. split; [done|]. split; [by eapply runs_release|].
        apply (drained_after self st st3 st4 0 l def def); try done; [apply Hc|]. intros t _. by apply Hc.
      * by eapply stops_release.
    + exists w'. split; [done|]. split; [eapply runs_release; [done|]; constructor; by apply kept_refl|].
      by apply not_outermost_drained.
  - destruct HR as (before & after & st1 & w1 & E & Hr & Hno & Hmi). exists before, (after ++ (if outermost self st then rev (deferred self st) else [])), st1, w1.
    split_and!; try done. change (p :: ?x) with ([p] ++ x). rewrite E, <- app_assoc. done.
Qed.

Lemma free_fuel fuel : free_spec fuel /\ drain_spec fuel.
Proof.
  induction fuel as [|fuel [IHf IHd]].
  - split; [intros self st w p _ _ _ _ Hf _; lia|intros self st w l def _ _ _ _ Hf; lia].
  - split; [by apply free_step|by apply drain_step].
Qed.

(** ** The entry points *)

(** The fuel is enough. *)
Lemma __weavec_rt_free_spec self st w p :
  alloc_inv st w -> 0 <= p < 2 ^ 64 -> addresses (deferred self st) -> room_for (S (length (deferred self st))) st ->
  busy self st = false ->
  let ps := if p =? 0 then [] else p :: (if outermost self st then rev (deferred self st) else []) in
  match __weavec_rt_free self p st with
  | None => False
  | Some (Done _ st') => exists w', alloc_inv st' w' /\ runs st w ps st' w' /\ (if p =? 0 then st' = st else drained self st st')
  | Some (Fatal a why) => stops st w ps a why
  end.
Proof.
  intros Hi Hp Ha Hroom Hb. apply (proj1 (free_fuel _)); try done. unfold deferFuel, deferred.
  destruct (ownCache self st); cbn [length]; lia.
Qed.

(** A nested call that finds the thread holding a lock defers the release, or
    drops it when the list is full. *)
Lemma __weavec_rt_free_busy self st p :
  p <> 0 -> busy self st = true ->
  exists k, ownCache self st = Some k
    /\ __weavec_rt_free self p st
       = Some (Done tt (if Z.of_nat (length (tc_deferred k)) <? Deferrable
                        then set_cache st self (tc_with_deferred k (tc_deferred k ++ [p])) else st)).
Proof.
  intros Hp Hb. unfold __weavec_rt_free, deferFuel. unfold busy in Hb. destruct (ownCache self st) as [k|] eqn:Hk; [|done].
  exists k. split; [done|]. replace (2 * length (tc_deferred k) + 3)%nat with (S (2 * length (tc_deferred k) + 2)) by lia.
  rewrite freeDeferred_S, (proj2 (Z.eqb_neq _ _) Hp). unfold busy. by rewrite Hk, Hb.
Qed.

Lemma __weavec_rt_alloc_spec self st w size alignment :
  alloc_inv st w -> top <= 2 ^ s_bits (al_shadow st) -> 0 <= size < 2 ^ 64 -> 0 <= alignment < 2 ^ 64 ->
  addresses (deferred self st) -> room_for (length (deferred self st)) st -> busy self st = false ->
  let ps := if outermost self st then rev (deferred self st) else [] in
  exists block st1 w1, alloc_inv st1 w1 /\ served st w st1 w1 block size alignment /\
  match __weavec_rt_alloc self size alignment st with
  | None => False
  | Some (Done b st') => b = block /\ exists w', alloc_inv st' w' /\ runs st1 w1 ps st' w' /\ drained self st st'
  | Some (Fatal a why) => stops st1 w1 ps a why
  end.
Proof.
  intros Hi Htop Hsz Hal Ha Hroom Hb. unfold __weavec_rt_alloc. rewrite Hb.
  destruct (enter_spec self st w Hi) as (Hi1 & Hk1 & Ht1 & Hf1 & Hc1).
  destruct (enter self st) as [counted st1]. cbn [fst snd] in *.
  destruct (allocate_spec self size alignment st1 w Hi1 ltac:(by rewrite (kp_bits _ _ _ _ Hk1)) Hsz Hal)
    as (block & st2 & w2 & -> & Hi2 & Hserved & Hc2).
  subst counted. destruct (leave_spec self st st1 st2 w2 Ht1 Hc1 Hi2 Hc2) as (Hi3 & Hk3 & Hc3 & Ho3).
  destruct (leave_bytes self (match calls st self with Some _ => true | None => false end) st2) as [Em Es].
  destruct (leave self _ st2) as [outer st3]. cbn [fst snd] in *. subst outer.
  assert (Hs3 : served st w st3 w2 block size alignment).
  { apply (served_after st w st1 w); [done|]. destruct Hserved as [[-> H]|(H0 & H1 & H2)]; [left|right].
    - split; [done|]. by eapply kept_trans.
    - split; [done|]. split; [|done]. by apply (made_then st1 w st2 w2). }
  exists block, st3, w2. split; [done|]. split; [done|]. cbv zeta. destruct (outermost self st) eqn:Hout.
  - unfold outermost in Hout. destruct (calls st self) as [[[d l] def]|] eqn:Ec; [|done]. apply Z.eqb_eq in Hout as ->.
    rewrite (deferred_calls self st 0 l def Ec) in *.
    assert (Ec3 : calls st3 self = Some (0, l, def)).
    { destruct Hc3 as [_ Hc]. destruct (Hc self) as [->|[? _]]; [done|congruence]. }
    assert (Hroom3 : room_for (length def) st3) by (eapply served_room; [exact Hs3|done]).
    pose proof (proj2 (free_fuel (deferFuel self st3)) self st3 w2 l def Hi3 Ec3 Ha Hroom3) as HD.
    assert (Hfuel : (2 * length def + 1 <= deferFuel self st3)%nat).
    { unfold deferFuel. unfold calls in Ec3. destruct (ownCache self st3) as [k|]; [|done]. cbn in Ec3. injection Ec3 as _ _ ->. lia. }
    specialize (HD Hfuel). destruct (drainDeferred _ self st3) as [[[] st4|a why]|]; [|done|done].
    destruct HD as (w4 & Hi4 & Hr4 & Hd4). split; [done|]. exists w4. split; [done|]. split; [done|].
    apply (drained_after self st st3 st4 0 l def def); try done; [apply Hc3|]. intros t _. by apply Hc3.
  - split; [done|]. exists w2. split; [done|]. split; [constructor; by apply kept_refl|]. by apply not_outermost_drained.
Qed.
End Calls.
