(* ===== verification/ReallocFacts.v ===== *)
(** * Writes and reallocation

    The program's writes to its live blocks keep the allocator's invariant, and
    [__weavec_rt_realloc] of the file Allocator moves or resizes a block: its
    first bytes are the old block's, those it gains are zero. *)

From Stdlib Require Import String.
From S2P Require Import Prelude Shadow Report Classes Heap HugeBlocks Sweep Allocator HeapFacts PopFacts CacheFacts.
From S2P Require Import MarkFacts SweepFacts HugeFacts AllocFacts LiveFacts ReleaseFacts CallFacts.
Local Open Scope Z_scope.

Section Realloc.
Context `{P : Pages} (HP : pages_wf) {Sys : System} {Next : NextAllocator}.

(** ** The program's writes *)

(** The bytes outside the live blocks are as they were. *)
Definition writes_live (st : alloc) (w : Z -> Z -> place) (mem : Z -> Z) : Prop :=
  forall a, (forall p n, live_block st w p n -> ~ (p <= a < p + n)) -> mem a = al_mem st a.

Lemma live_slot_bytes st w r s p n a :
  alloc_inv st w -> 0 <= r < 160 -> 0 <= s < c_capacity (entryOf (al_heap st) r) -> w r s <> Live -> in_slot (al_heap st) r s a ->
  live_block st w p n -> ~ (p <= a < p + n).
Proof.
  intros Hi Hr Hs Hw Ha Hl Hpa. pose proof (proj1 (proj1 Hi)) as Hsl. pose proof (so_heap _ _ _ _ _ _ _ Hsl) as Hh.
  pose proof (regions_range _ _ Hsl) as [_ H160].
  destruct Hl as [(r' & s' & Hr' & Hs' & Hl' & -> & ->)|(b & Hin & _ & <- & <-)].
  - destruct (live_size st w r' s' Hsl ltac:(lia) Hs' Hl') as [_ Hsz].
    destruct (slots_bound _ _ _ _ _ _ _ Hsl r' s' ltac:(lia) Hs') as [Hb1 _]; [by rewrite Hl'|].
    destruct (in_slot_unique _ Hh r' s' r s a) as [-> ->]; try done; try lia. unfold in_slot. lia.
  - pose proof (proj1 (list.Forall_forall _ _) (proj2 (proj2 (proj2 Hi))) b Hin) as [A1 A2 A3 A4 A5].
    destruct (slot_bounds _ Hh r s Hr Hs) as (H1 & _ & H2). destruct (arena_bounds _ Hh r Hr) as (H3 & _ & H4 & _).
    assert (hb_base b + hb_size b <= hb_map b + hb_mapBytes b) by (clear - A4; euclid).
    unfold in_slot, apart in *. lia.
Qed.

Lemma inv_write st w mem :
  alloc_inv st w -> writes_live st w mem -> alloc_inv (set_mem st mem) w.
Proof.
  intros Hi Hm. pose proof Hi as ((Hs & Hb) & Hc & Hg). pose proof (so_heap _ _ _ _ _ _ _ Hs) as Hh.
  assert (Hh' : heap_inv (set_mem st mem) w).
  { split; [done|]. destruct Hb as [B1 B2 B3 B4 B5 B6 B7]. constructor; try done.
    - intros r a Hr Ha. cbn. rewrite Hm; [by apply (B6 r)|]. intros p n Hl Hpa. cbn in Ha.
      destruct (capacity_of _ Hh r Hr) as (_ & Hz & _).
      destruct (ro_bump _ _ _ _ _ (so_region _ _ _ _ _ _ _ Hs r Hr)) as [Hb' _].
      destruct (arena_bounds _ Hh r Hr) as (H3 & _ & H4 & _). pose proof (regions_range _ _ Hs) as [_ H160].
      destruct Hl as [(r' & s' & Hr' & Hs' & Hl' & -> & ->)|(b & Hin & _ & <- & <-)].
      + destruct (live_size st w r' s' Hs ltac:(lia) Hs' Hl') as [_ Hsz].
        destruct (slots_bound _ _ _ _ _ _ _ Hs r' s' ltac:(lia) Hs') as [Hb1 _]; [by rewrite Hl'|].
        destruct (slot_bounds _ Hh r' s' ltac:(lia) ltac:(lia)) as (K1 & _ & K2).
        assert (r' = r) as -> by (apply (region_unique _ Hh r' r a); nia).
        unfold slotStart in Hpa. nia.
      + pose proof (proj1 (list.Forall_forall _ _) (proj2 Hg) b Hin) as [A1 A2 A3 A4 A5].
        assert (hb_base b + hb_size b <= hb_map b + hb_mapBytes b) by (clear - A4; euclid).
        unfold apart in A5. nia.
    - intros r s a Hr Hs0 Hu Ha. cbn. rewrite Hm; [by apply (B7 r s)|]. intros p n Hl.
      destruct (slots_bound _ _ _ _ _ _ _ Hs r s Hr Hs0) as [Hb1 _]; [intros E; by rewrite E in Hu|].
      refine (live_slot_bytes st w r s p n a Hi Hr ltac:(lia) _ Ha Hl). intros E. by rewrite E in Hu. }
  split_and!; [done| |done]. apply (caches_ok_frame st w); try done. by apply (regions_range _ _ Hs).
Qed.

(** ** Reallocation *)

(** Block [p] is now block [q], of [size] bytes: the first ones those it had, the
    ones it gains zero; the others are as they were. *)
Record reallocated (st : alloc) (w : Z -> Z -> place) (st' : alloc) (w' : Z -> Z -> place) (p old q size : Z) : Prop := {
  ra_live : forall x m, live_block st' w' x m <-> (x = q /\ m = size) \/ (x <> p /\ live_block st w x m);
  ra_apart : forall x m, live_block st w x m -> x <> p -> q <> x /\ (q + size <= x \/ x + m <= q);
  ra_first : forall i, 0 <= i < Z.min old size -> al_mem st' (q + i) = al_mem st (p + i);
  ra_gained : forall i, old <= i < size -> al_mem st' (q + i) = 0;
  ra_kept : bytes_kept st w st' (fun x => x <> p);
  ra_grown : grown st st';
  ra_bits : s_bits (al_shadow st') = s_bits (al_shadow st);
  ra_releases : ht_releases (al_huge st') = ht_releases (al_huge st)
                \/ ht_releases (al_huge st') = add64 (ht_releases (al_huge st)) 1;
  ra_stale : stale st w st' w';
  ra_denied : q <> p -> forall r s, 0 <= r < h_regions (al_heap st) -> 0 <= s -> w r s = Live -> slotStart (al_heap st) r s = p ->
                slot_denied st st' w' r s
}.

(** A thread between its calls. *)
Definition idle (self : nat) (st : alloc) : Prop := calls st self = None \/ calls st self = Some (0, 0, []).

Lemma idle_free self st : idle self st -> busy self st = false /\ deferred self st = [].
Proof.
  intros H. rewrite busy_calls. assert (D : deferred self st = match calls st self with Some x => snd x | None => [] end).
  { unfold deferred, calls. by destruct (ownCache self st). }
  rewrite D. by destruct H as [-> | ->].
Qed.

Lemma drained_kept self st st' : drained self st st' -> idle self st -> calls_kept st st'.
Proof.
  intros (D1 & D2 & D3) Hid. split; [done|]. intros t. destruct (decide (t = self)) as [->|Hne]; [|by apply D2].
  destruct Hid as [E|E]; rewrite E in *; [destruct D3 as [->| ->]; [by left|by right]|left; by rewrite D3].
Qed.

Lemma kept_idle st st' t : calls_kept st st' -> idle t st -> idle t st'.
Proof. intros [_ Hc] Hi. unfold idle in *. destruct (Hc t) as [->|[_ ->]]; [done|by right]. Qed.

(** A slot's block is resized in place. *)
Lemma resize_spec st w r s size :
  alloc_inv st w -> 0 <= r < h_regions (al_heap st) -> 0 <= s -> w r s = Live -> 0 <= size < c_size (entryOf (al_heap st) r) ->
  let p := slotStart (al_heap st) r s in
  let old := weavecRtWordValue (al_words st r s) in
  let mem := if old <? size then memset (al_mem st) (p + old) 0 (size - old) else al_mem st in
  let sh := shadowLive (al_heap st) (al_shadow st) p size (c_size (entryOf (al_heap st) r)) in
  let st' := storeWord (set_shadow (set_mem st mem) sh) r s (makeWord size WeavecRtLive) in
  alloc_inv st' w /\ reallocated st w st' w p old p size /\ calls_kept st st'.
Proof.
  intros Hi Hr Hs Hl Hsz p old mem sh st'. pose proof Hi as ((Hsl & Hb) & Hc & Hg).
  pose proof (so_heap _ _ _ _ _ _ _ Hsl) as Hh. pose proof (regions_range _ _ Hsl) as [_ H160].
  destruct (live_size st w r s Hsl ltac:(lia) Hs Hl) as [_ Hold]. fold old in Hold.
  assert (Hmem : forall a, ~ (p + old <= a < p + size) -> mem a = al_mem st a).
  { intros a Ha. unfold mem. destruct (Z.ltb_spec old size); [|done]. unfold memset. rewrite fill_bytes_eq. case_decide; [lia|done]. }
  destruct (inv_resize HP st w r s size mem (conj Hsl Hb) ltac:(lia) Hs Hl Hsz) as [Hh' _].
  { intros a Ha. apply Hmem. unfold in_slot in Ha. fold p in Ha. lia. }
  fold p in Hh'. fold sh in Hh'. fold st' in Hh'.
  assert (Hbits : s_bits sh = s_bits (al_shadow st)) by apply shadowLive_bits.
  assert (Hi' : alloc_inv st' w).
  { split_and!; [done|apply (caches_ok_frame st w); try done|apply (huge_ok_frame st); done]. }
  assert (Hval : weavecRtWordValue (makeWord size WeavecRtLive) = size).
  { apply makeWord_value; [|vm_compute; intuition congruence]. destruct (capacity_of _ Hh r ltac:(lia)) as (_ & Hz & _). lia. }
  assert (Hword : forall r' s', ~ (r' = r /\ s' = s) -> al_words st' r' s' = al_words st r' s').
  { intros r' s' Hne. cbn. rewrite setAt_cases. case_decide as E; [|done]. subst r'. rewrite setAt_ne; [done|]. intros ->. by apply Hne. }
  assert (Hnew : weavecRtWordValue (al_words st' r s) = size) by (cbn; by rewrite !setAt_eq).
  assert (Hlive : forall x m, live_block st' w x m <-> (x = p /\ m = size) \/ (x <> p /\ live_block st w x m)).
  { intros x m. destruct (slotOf_start st w r s Hsl Hr Hs) as [Ha Href]; [by rewrite Hl|].
    assert (Hne : forall r' s', 0 <= r' < h_regions (al_heap st) -> 0 <= s' -> w r' s' = Live -> ~ (r' = r /\ s' = s) ->
              slotStart (al_heap st) r' s' <> p).
    { intros r' s' Hr' Hs' Hl' Hn Ex. destruct (slotOf_start st w r' s' Hsl Hr' Hs') as [_ E']; [by rewrite Hl'|].
      rewrite Ex in E'. unfold p in E'. rewrite Href in E'. injection E' as -> ->. by apply Hn. }
    split.
    - intros [(r' & s' & Hr' & Hs' & Hl' & -> & ->)|Hx].
      + destruct (decide (r' = r /\ s' = s)) as [[-> ->]|Hn]; [by left|right].
        change (al_heap st') with (al_heap st) in *.
        split; [by apply Hne|]. left. exists r', s'. rewrite (Hword _ _ Hn). split_and!; (done || lia).
      + right. split; [|by right]. intros ->. unfold p in Hx. by rewrite (live_outside_arena st w _ _ Hi Hx) in Ha.
    - intros [[-> ->]|[Hxp [(r' & s' & Hr' & Hs' & Hl' & -> & ->)|Hx]]]; [left|left|by right].
      + exists r, s. change (al_heap st') with (al_heap st). rewrite Hnew. split_and!; (done || lia).
      + exists r', s'. change (al_heap st') with (al_heap st). rewrite Hword by (intros [-> ->]; by apply Hxp). split_and!; (done || lia). }
  assert (Hpl : live_block st w p old) by (left; exists r, s; split_and!; (done || lia)).
  split; [done|]. split; [|split; [done|intros t; by left]].
  constructor; try done.
  - intros x m Hx Hne. split; [congruence|]. pose proof (live_range st w x m Hi Hx) as [_ Hm0].
    by apply (live_apart st' w p size x m Hi' (proj2 (Hlive _ _) (or_introl (conj eq_refl eq_refl))) (proj2 (Hlive _ _) (or_intror (conj Hne Hx))) (not_eq_sym Hne) (proj1 Hsz) Hm0).
  - intros i Hi0. cbn. apply Hmem. lia.
  - intros i Hi0. cbn. unfold mem. rewrite (proj2 (Z.ltb_lt old size)) by lia. unfold memset. rewrite fill_bytes_eq. case_decide; [done|lia].
  - intros x m a Hx Hne Ha. cbn. apply Hmem. intros Hin.
    pose proof (live_range st w x m Hi Hx) as [_ Hm0].
    destruct (live_apart st' w p size x m Hi' (proj2 (Hlive _ _) (or_introl (conj eq_refl eq_refl))) (proj2 (Hlive _ _) (or_intror (conj Hne Hx))) (not_eq_sym Hne) (proj1 Hsz) Hm0); lia.
  - by left.
  - by apply stale_same.
Qed.

(** ** The calls of a thread between its calls *)

Lemma deferFuel_S self st : exists n, deferFuel self st = S n.
Proof. unfold deferFuel. destruct (ownCache self st); [|by exists 2%nat]. eexists. by rewrite <- Nat.add_succ_comm, Nat.add_comm. Qed.

Lemma drain_none self st : deferred self st = [] -> drainDeferred (deferFuel self st) self st = Some (Done tt st).
Proof.
  intros Hd. destruct (deferFuel_S self st) as [n ->]. rewrite drainDeferred_S. unfold popDeferred, deferred in *.
  destruct (ownCache self st) as [k|]; [|done]. by rewrite Hd.
Qed.

(** What a thread's calls keep is nothing. *)
Lemma idle_kept self st st' : idle self st -> calls_kept st st' -> idle self st' /\ deferred self st' = [].
Proof. intros Hi Hc. pose proof (kept_idle st st' self Hc Hi) as H. split; [done|]. by apply idle_free. Qed.

Lemma idle_outermost self st : idle self st -> outermost self st = (match calls st self with Some _ => true | None => false end).
Proof. unfold outermost. by intros [-> | ->]. Qed.

Lemma idle_alloc top self st w size alignment :
  maps_apart top -> alloc_inv st w -> top <= 2 ^ s_bits (al_shadow st) -> 0 <= size < 2 ^ 64 -> 0 <= alignment < 2 ^ 64 ->
  idle self st ->
  exists block st' w', __weavec_rt_alloc self size alignment st = Some (Done block st') /\ alloc_inv st' w'
    /\ served st w st' w' block size alignment /\ calls_kept st st'.
Proof.
  intros Hmap Hi Htop Hsz Hal Hid. unfold __weavec_rt_alloc. destruct (idle_free self st Hid) as [-> _].
  destruct (enter_spec self st w Hi) as (Hi1 & Hk1 & Ht1 & Hf1 & Hc1).
  destruct (enter self st) as [counted st1]. cbn [fst snd] in *.
  destruct (allocate_spec HP top Hmap self size alignment st1 w Hi1 ltac:(by rewrite (kp_bits _ _ _ _ Hk1)) Hsz Hal)
    as (block & st2 & w2 & -> & Hi2 & Hserved & Hc2).
  subst counted. destruct (leave_spec self st st1 st2 w2 Ht1 Hc1 Hi2 Hc2) as (Hi3 & Hk3 & Hc3 & Ho3).
  destruct (leave_bytes self (match calls st self with Some _ => true | None => false end) st2) as [Em Es].
  destruct (leave self _ st2) as [outer st3]. cbn [fst snd] in *. subst outer.
  destruct (idle_kept self st st3 Hid Hc3) as [_ Hd3]. rewrite (drain_none self st3 Hd3).
  exists block, st3, w2. split; [by case_match|]. split; [done|]. split; [|done].
  apply (served_after st w st1 w); [done|]. destruct Hserved as [[-> H]|(H0 & H1 & H2)]; [left|right].
  - split; [done|]. by eapply kept_trans.
  - split; [done|]. split; [|done]. by apply (made_then st1 w st2 w2).
Qed.

Lemma runs_one st w p st' w' : runs st w [p] st' w' -> one_release st w p st' w'.
Proof.
  intros H. inversion H as [|? ? ? ? st1 w1 ? ? Ho Hr]; subst. inversion Hr; subst. by eapply one_release_then.
Qed.

Lemma idle_release self st w p :
  alloc_inv st w -> 0 < p < 2 ^ 64 -> room_for 1 st -> idle self st ->
  match __weavec_rt_free self p st with
  | None => False
  | Some (Done _ st') => exists w', alloc_inv st' w' /\ one_release st w p st' w' /\ calls_kept st st'
  | Some (Fatal a why) => stops st w [p] a why
  end.
Proof.
  intros Hi Hp Hroom Hid. destruct (idle_free self st Hid) as [Hb Hd].
  pose proof (__weavec_rt_free_spec HP self st w p Hi ltac:(lia) ltac:(rewrite Hd; constructor) ltac:(by rewrite Hd) Hb) as H.
  cbv zeta in H. rewrite (proj2 (Z.eqb_neq p 0) ltac:(lia)), Hd in H.
  assert (E : (if outermost self st then rev (@nil Z) else []) = []) by (by destruct (outermost self st)). rewrite E in H.
  destruct (__weavec_rt_free self p st) as [[u st'|a why]|]; [|done|done].
  destruct H as (w' & Hi' & Hr & Hdr). exists w'. split; [done|]. split; [by apply runs_one|by apply (drained_kept self)].
Qed.

Lemma stops_one st w p a why : stops st w [p] a why -> a = p /\ forall n, ~ live_block st w p n.
Proof.
  intros (before & after & st1 & w1 & E & Hr & Hno & _).
  assert (Eb : before = [] /\ a = p) by (destruct before as [|? [|? ?]]; cbn in E; [by injection E|done|done]). destruct Eb as [-> ->].
  split; [done|]. intros n Hn. inversion Hr as [? ? ? ? Hk|]; subst. apply (Hno n). by apply (kp_live _ _ _ _ Hk).
Qed.

Lemma idle_release_live self st w p n :
  alloc_inv st w -> room_for 1 st -> idle self st -> live_block st w p n ->
  exists st' w', __weavec_rt_free self p st = Some (Done tt st') /\ alloc_inv st' w' /\ unmade st w st' w' p n /\ calls_kept st st'.
Proof.
  intros Hi Hroom Hid Hl. pose proof (live_range st w p n Hi Hl) as [Hp Hn].
  pose proof (idle_release self st w p Hi ltac:(lia) Hroom Hid) as H.
  destruct (__weavec_rt_free self p st) as [[[] st'|a why]|]; [| |done].
  - destruct H as (w' & Hi' & Ho & Hc). exists st', w'. split_and!; try done.
    destruct Ho as [[-> _]|[[m Hu]|(Hno & _)]]; [lia| |by destruct (Hno n)].
    pose proof (um_was _ _ _ _ _ _ Hu) as Hw.
    destruct (live_unique st w p n p m p Hi Hl Hw) as [_ ->]; [lia|lia|done].
  - destruct (stops_one _ _ _ _ _ H) as [_ Hno]. by destruct (Hno n).
Qed.

(** ** [__weavec_rt_realloc] *)

Lemma copy_bytes_eq mem to from n a :
  copy_bytes mem to from n a = if decide (to <= a < to + n) then mem (from + (a - to)) else mem a.
Proof. unfold copy_bytes. destruct (Z.leb_spec to a), (Z.ltb_spec a (to + n)); cbn [andb]; case_decide; (done || lia). Qed.

(** Its block copied, a block moves. *)
Lemma moved_reallocated st w st1 w1 st' w' p old q size :
  alloc_inv st w -> live_block st w p old -> made st w st1 w1 q size -> 0 <= size ->
  unmade (set_mem st1 (copy_bytes (al_mem st1) q p (if old <? size then old else size))) w1 st' w' p old ->
  reallocated st w st' w' p old q size.
Proof.
  intros Hi Hl Hm Hsz Hu. pose proof Hm as [M1 M2 M3 M4 M5 M6 M7 M8 M9]. pose proof Hu as [U1 U2 U3 U4 U5 U6 U7 U8].
  set (n := if old <? size then old else size) in *. set (st2 := set_mem st1 _) in *.
  assert (Hn : n = Z.min old size) by (unfold n; destruct (Z.ltb_spec old size); lia). clearbody n.
  pose proof (live_range st w p old Hi Hl) as [_ Hold]. destruct (M2 p old Hl) as [Hqp Hap].
  assert (L2 : forall x m, live_block st2 w1 x m <-> (x = q /\ m = size) \/ live_block st w x m) by (intros x m; apply M1).
  assert (Hq2 : live_block st2 w1 q size) by (apply L2; by left).
  assert (Hmem2 : forall a, al_mem st2 a = if decide (q <= a < q + n) then al_mem st1 (p + (a - q)) else al_mem st1 a)
    by (intros a; apply copy_bytes_eq).
  constructor.
  - intros x m. rewrite U2, L2. split; [tauto|]. intros [[-> ->]|?]; [|tauto]. split; [done|by left].
  - intros x m Hx _. by apply (M2 x m).
  - intros i Hi0. rewrite (U3 q size (q + i) Hq2 Hqp ltac:(lia)), Hmem2, decide_True by lia.
    replace (p + (q + i - q)) with (p + i) by lia. apply (M4 p old); (done || lia).
  - intros i Hi0. rewrite (U3 q size (q + i) Hq2 Hqp ltac:(lia)), Hmem2, decide_False by lia. apply M3. lia.
  - intros x m a Hx Hne Ha. rewrite (U3 x m a); [|apply L2; by right|done|done].
    rewrite Hmem2, decide_False; [by apply (M4 x m)|]. destruct (M2 x m Hx). lia.
  - eapply grown_trans; [exact M5|]. eapply grown_trans; [|exact U4]. by apply grown_same.
  - rewrite U5. apply M6.
  - destruct U6 as [E|E]; [left|right]; rewrite E; [apply M7|]. cbn. by rewrite M7.
  - eapply stale_trans; [exact M5|exact M8|]. eapply (stale_trans st1 w1 st2); [by apply grown_same|by apply stale_same|exact U7].
  - intros _ r s Hr Hs Hlv E. pose proof (gr_regions _ _ M5). apply (slot_denied_after st st1); [exact M5|apply M8|done|].
    apply (U8 r s); [cbn; lia|done|by apply M9|]. cbn. by rewrite (grown_start st st1).
Qed.

Section Move.
Context (top : Z) (Hmap : maps_apart top).

(** The block is where it was, or it is now block [b]. *)
Definition resized (st : alloc) (w : Z -> Z -> place) (st' : alloc) (w' : Z -> Z -> place) (p old b size : Z) : Prop :=
  (b = 0 /\ kept st w st' w') \/ (0 < b /\ reallocated st w st' w' p old b size).

Lemma reallocMove_spec self st w p old size :
  alloc_inv st w -> top <= 2 ^ s_bits (al_shadow st) -> 0 <= size < 2 ^ 64 -> room_for 1 st -> idle self st ->
  live_block st w p old ->
  exists b st' w', reallocMove self p old size st = Some (Done b st') /\ alloc_inv st' w'
    /\ resized st w st' w' p old b size /\ calls_kept st st'.
Proof.
  intros Hi Htop Hsz Hroom Hid Hl. unfold reallocMove.
  destruct (idle_alloc top self st w size 0 Hmap Hi Htop Hsz ltac:(lia) Hid) as (b & st1 & w1 & -> & Hi1 & Hsv & Hc1).
  pose proof (served_room _ _ _ _ _ _ _ 1 Hsv Hroom) as Hroom1.
  destruct Hsv as [[-> Hk]|(H0 & Hm & _)]; [cbn; exists 0, st1, w1; split_and!; try done; by left|].
  rewrite (proj2 (Z.eqb_neq b 0)) by lia. set (st2 := set_mem st1 _).
  destruct (idle_kept self st st1 Hid Hc1) as [Hid1 _].
  pose proof (live_range st w p old Hi Hl) as [_ Hold].
  assert (Hi2 : alloc_inv st2 w1).
  { apply inv_write; [done|]. intros a Ha. rewrite copy_bytes_eq. case_decide as Hin; [|done].
    destruct (Ha b size); [apply (md_live _ _ _ _ _ _ Hm); by left|]. destruct (Z.ltb_spec old size); lia. }
  assert (Hl2 : live_block st2 w1 p old) by (apply (md_live _ _ _ _ _ _ Hm); by right).
  destruct (idle_release_live self st2 w1 p old Hi2 Hroom1 Hid1 Hl2) as (st' & w' & -> & Hi' & Hu & Hc').
  exists b, st', w'. split_and!; try done.
  - right. split; [done|]. apply (moved_reallocated st w st1 w1); (done || lia).
  - eapply calls_kept_trans; [exact Hc1|]. exact Hc'.
Qed.

(** The class of a live slot's size is its region's only when the slot holds
    the size. *)
Lemma same_class st w r size :
  slots st w -> 0 <= r < h_regions (al_heap st) -> 0 <= size < 2 ^ 64 -> classFor size = al_class st r ->
  size < c_size (entryOf (al_heap st) r).
Proof.
  intros Hs Hr Hsz Hc. pose proof (so_heap _ _ _ _ _ _ _ Hs) as Hh. pose proof (ho_classes _ Hh) as H100.
  destruct (so_class _ _ _ _ _ _ _ Hs r Hr) as [Hcl ->]. pose proof (classFor_smallest size Hsz) as H.
  destruct (size <? 2 ^ 30); [|lia]. destruct H as (_ & H & _). rewrite <- Hc.
  rewrite (so_entry _ _ _ _ _ _ _ Hs (classFor size) ltac:(lia)). by rewrite (proj1 (classEntry_spec _ (classFor size) (ho_shift _ Hh) ltac:(lia))).
Qed.

Lemma set_mem_if st (b : bool) mem : (if b then set_mem st mem else st) = set_mem st (if b then mem else al_mem st).
Proof. by destruct b, st. Qed.

Lemma __weavec_rt_realloc_spec self st w p size :
  alloc_inv st w -> top <= 2 ^ s_bits (al_shadow st) -> 0 <= p < 2 ^ 64 -> 0 <= size < 2 ^ 64 -> room_for 1 st -> idle self st ->
  match __weavec_rt_realloc self p size st with
  | None => False
  | Some (Done b st') => exists w', alloc_inv st' w' /\ calls_kept st st' /\
      ((p = 0 /\ served st w st' w' b size 0)
       \/ (exists old, live_block st w p old /\ resized st w st' w' p old b size)
       \/ ((forall n, ~ live_block st w p n) /\ nextKnows p = true /\ kept st w st' w'))
  | Some (Fatal a why) => a = p /\ (forall n, ~ live_block st w p n)
      /\ (misuse st w p why \/ (why = "not the start of a live block"%string /\ hugeFind (al_huge st) p <> None))
  end.
Proof.
  intros Hi Htop Hp Hsz Hroom Hid. pose proof (proj1 (proj1 Hi)) as Hs. unfold __weavec_rt_realloc.
  destruct (Z.eqb_spec p 0) as [->|Hne].
  { destruct (idle_alloc top self st w size 0 Hmap Hi Htop Hsz ltac:(lia) Hid) as (b & st' & w' & -> & Hi' & Hsv & Hc).
    exists w'. split_and!; try done. by left. }
  assert (Hmove : forall old, live_block st w p old ->
    match reallocMove self p old size st with
    | None => False
    | Some (Done b st') => exists w', alloc_inv st' w' /\ calls_kept st st' /\
      ((p = 0 /\ served st w st' w' b size 0)
       \/ (exists old, live_block st w p old /\ resized st w st' w' p old b size)
       \/ ((forall n, ~ live_block st w p n) /\ nextKnows p = true /\ kept st w st' w'))
    | Some (Fatal a why) => a = p /\ (forall n, ~ live_block st w p n)
      /\ (misuse st w p why \/ (why = "not the start of a live block"%string /\ hugeFind (al_huge st) p <> None))
    end).
  { intros old Hl. destruct (reallocMove_spec self st w p old size Hi Htop Hsz Hroom Hid Hl) as (b & st' & w' & -> & Hi' & Hr & Hc).
    exists w'. split_and!; try done. right; left. by exists old. }
  assert (Hno : ownedSize p st = None -> forall n, ~ live_block st w p n).
  { intros E n Hn. apply (ownedSize_live st w p n Hi Hp) in Hn. congruence. }
  destruct (inArena (al_heap st) p) eqn:Ha.
  - pose proof (live_ref st w p Hs Hp Ha) as HL. unfold ownedSize in Hno. rewrite Ha in Hno. cbv zeta in HL, Hno |- *.
    destruct (Z.eqb_spec (ref_base (slotOf (al_heap st) p)) p) as [Eb|Eb]; cbn [negb orb] in Hno |- *.
    2:{ split; [done|]. split; [by apply Hno|]. left. apply whyNotReleasable_spec; try done. by apply Hno. }
    destruct (Z.eqb_spec (wordState (wordOf st (slotOf (al_heap st) p))) WeavecRtLive) as [Ew|Ew]; cbn [negb] in Hno |- *.
    2:{ split; [done|]. split; [by apply Hno|]. left. apply whyNotReleasable_spec; try done. by apply Hno. }
    destruct (proj1 HL (conj Eb Ew)) as (r & s & Hr & Hs0 & Hl & E).
    destruct (slotOf_start st w r s Hs Hr Hs0) as [_ Href]; [by rewrite Hl|]. rewrite <- E in Href.
    unfold wordOf. rewrite Href. cbn [ref_region ref_slot].
    assert (Hlive : live_block st w p (weavecRtWordValue (al_words st r s))) by (left; exists r, s; split_and!; (done || lia)).
    destruct (Z.eqb_spec (classFor size) (al_class st r)) as [Ec|Ec]; [|by apply Hmove].
    pose proof (same_class st w r size Hs Hr Hsz Ec) as Hlt.
    pose proof (resize_spec st w r s size Hi Hr Hs0 Hl ltac:(lia)) as HR. cbv zeta in HR. rewrite <- E in HR.
    rewrite (set_mem_if st).
    destruct HR as (Hi' & Hra & Hc). exists w. split; [exact Hi'|]. split; [exact Hc|].
    right; left. eexists. split; [exact Hlive|]. right. split; [lia|]. exact Hra.
  - destruct (ownedSize p st) as [old|] eqn:Eo.
    { apply Hmove. by apply (ownedSize_live st w p old Hi Hp). }
    specialize (Hno eq_refl). destruct (hugeFind (al_huge st) p) as [b|] eqn:Eh.
    { split; [done|]. split; [done|]. right. split; [done|congruence]. }
    destruct (nextKnows p) eqn:En.
    + destruct (alloc_inv_tick st w (S (al_tick st)) ltac:(lia) Hi) as [Hi' Hu]. exists w.
      split; [done|]. split; [by eapply unseen_kept|]. right; right. split_and!; try done.
      by apply unseen_same; [apply Hi|apply Hi'|].
    + split; [done|]. split; [done|]. left. by apply foreign_block.
Qed.
End Move.
End Realloc.
