(* ===== verification/Setup.v ===== *)
(** * The start of the program

    [weavecRtInitialize] of [runtime/weavec_alloc.c]: the shadow, then the
    arena, with regions of 2 GiB or of 1 GiB.  What it leaves satisfies the
    allocator's invariant, with no block live. *)

From S2P Require Import Prelude Shadow Report Classes Heap HugeBlocks Sweep Allocator HeapFacts PopFacts CacheFacts.
From S2P Require Import MarkFacts SweepFacts HugeFacts AllocFacts LiveFacts.
Local Open Scope Z_scope.

Section Setup.
Context `{P : Pages} {Sys : System}.

(** The static state before any call; [budget] is [WEAVEC_RT_QUARANTINE]'s or
    64 MiB. *)
Definition blank (budget : Z) (sh : shadow) (mem : Z -> Z) : alloc :=
  mkAlloc (mkHeap 0 0 0 0 0 0 []) (fun _ _ => 0) (fun _ => mkRegion 0 0 0 0 None 0 0)
    (fun _ => 0) (fun _ => 0) (fun _ => 0) (fun _ => 0) [] []
    (mkPace budget 0 0 0 0 0 0 0 0) (mkHugeTable [] 0 (2 ^ 64 - 1) 0 0 0 0)
    sh mem (fun _ => 0) (mkTotals (mkCounts 0 0 0) 0 0) 0.

(** [reserve] with its system calls: the slot words are readable from the
    start, and zero until written. *)
Definition reserveArena (shift : Z) (st : alloc) : bool * alloc :=
  let total := reserveTotal shift in
  let '(map, st) := ask (fun n => sys_map n (mappings st) total) st in
  match map with
  | None => (false, st)
  | Some map =>
    let '(ok, st) := ask sys_ok st in
    if negb ok then (false, st)
    else
      let h := reserve shift map in
      let st := set_mem st (fill_bytes (al_mem st) map total 0) in
      let st := set_words st (fun _ _ => 0) in
      let st := set_next st (fun region => if region <? WeavecRtRegionCount then NoRegion else al_next st region) in
      let st := set_class st (fun region => if region <? h_classes h then region else NoRegion) in
      let st := set_active st (fun c => if c <? h_classes h then c else al_active st c) in
      (true, set_heap st h)
  end.

Definition reserveShadowPages (bits : Z) (st : alloc) : alloc :=
  let '(map, st) := ask (fun n => sys_map n (mappings st) (Z.shiftl 1 (bits - 4) + 64)) st in
  set_shadow st (reserveShadow (al_shadow st) bits map).

(** The first call of [weavecRtInitialize]; [bits] is [windowBits]'s. *)
Definition weavecRtInitialize (bits : Z) (st : alloc) : bool * alloc :=
  if negb (h_bytes (al_heap st) =? 0) then (true, st)
  else
    let st := reserveShadowPages bits st in
    let '(ok, st) := reserveArena 31 st in
    if (ok : bool) then (true, st) else reserveArena 30 st.

(** ** What it leaves *)

(** What a failed reservation leaves. *)
Definition started (bits : Z) (st : alloc) : Prop :=
  al_region st = (fun _ => mkRegion 0 0 0 0 None 0 0) /\ al_caches st = [] /\ ht_blocks (al_huge st) = []
  /\ ht_releases (al_huge st) = 0
  /\ h_bytes (al_heap st) = 0 /\ h_base (al_heap st) = 0 /\ shadow_wf (al_shadow st) /\ s_bits (al_shadow st) = bits.

Definition nowhere : Z -> Z -> place := fun _ _ => Fresh.

Lemma buildFrom_nth fuel shift index i :
  (i < length (buildFrom fuel shift index))%nat ->
  nth i (buildFrom fuel shift index) noClass = classEntry shift (index + Z.of_nat i).
Proof.
  revert index i. induction fuel as [|fuel IH]; intros index i; cbn [buildFrom]; [cbn; lia|].
  case_match; [cbn; lia|]. destruct i as [|i]; cbn [length nth]; [intros _; by rewrite Z.add_0_r|].
  intros Hi. rewrite IH by lia. f_equal. lia.
Qed.

Lemma entryOf_reserve shift map r :
  0 <= r < 160 ->
  entryOf (reserve shift map) r = if r <? h_classes (reserve shift map) then classEntry shift r else spare shift.
Proof.
  intros Hr. unfold entryOf. cbn [reserve h_table h_classes]. case_match eqn:E; bool_hyps.
  - rewrite app_nth1 by lia. unfold buildClasses. rewrite buildFrom_nth by (unfold buildClasses in *; lia).
    f_equal. lia.
  - rewrite app_nth2, nth_lookup by lia. rewrite lookup_replicate_2; [done|]. unfold WeavecRtRegionCount. lia.
Qed.

Lemma reserve_region shift map r :
  shift = 30 \/ shift = 31 -> 0 < map -> map + reserveTotal shift < 2 ^ 62 -> 0 <= r < 160 ->
  region_ok shift (entryOf (reserve shift map) r) (fun _ => 0) (mkRegion 0 0 0 0 None 0 0) (fun _ => Fresh).
Proof.
  intros Hs Hm Hroom Hr. destruct (reserve_ok shift map Hs Hm Hroom) as [Hh _].
  destruct (capacity_of _ Hh r Hr) as (Hc & Hz & _).
  assert (Hnil : forall p, p <> Fresh -> listed (fun _ => 0) (fun _ => Fresh) 0 p []).
  { intros p Hp. constructor; [done|apply list.NoDup_nil; done|]. intros s. split; [by intros ?%not_elem_of_nil|intros [_ E]; congruence]. }
  constructor; cbn [bump committed freeHead deadHead deadTail].
  - lia.
  - split; [|done]. destruct Hs as [-> | ->]; lia.
  - intros s Hs0. split; [done|]. done.
  - intros s Hs0. done.
  - exists []. by apply Hnil.
  - exists []. split; [by apply Hnil|done].
Qed.

(** An arena reserved: every slot is still to be handed out. *)
Lemma reserveArena_spec top shift bits st ok st' :
  maps_apart top -> top < 2 ^ 62 -> top <= 2 ^ bits -> shift = 30 \/ shift = 31 -> started bits st ->
  reserveArena shift st = (ok, st') ->
  if ok then alloc_inv st' nowhere /\ al_caches st' = [] /\ ht_blocks (al_huge st') = [] /\ s_bits (al_shadow st') = bits
             /\ ht_releases (al_huge st') = 0
  else started bits st'.
Proof.
  intros Hmap H62 Hbits Hs (S1 & S2 & S3 & S4 & S5 & S6 & S7 & S8). unfold reserveArena, ask.
  assert (Htot : 0 < reserveTotal shift) by (destruct Hs as [-> | ->]; done).
  destruct (sys_map _ _ _) as [map|] eqn:Em; cbn [al_tick set_tick]; [|by intros [= <- <-]].
  destruct (sys_ok _); cbn [negb]; [|by intros [= <- <-]].
  destruct (Hmap _ _ _ _ Htot Em) as (Hm0 & _ & Hmt & _).
  intros [= <- <-]. set (h := reserve shift map).
  assert (Hroom : map + reserveTotal shift < 2 ^ 62) by lia.
  destruct (reserve_ok shift map Hs Hm0 Hroom) as (Hh & Hlo & Hhi). fold h in Hh, Hlo, Hhi.
  assert (Hcl : 0 < h_classes h <= 100) by (split; [apply (ho_counts _ Hh)|apply (ho_classes _ Hh)]).
  assert (Hent : forall r, 0 <= r < 160 -> entryOf h r = if r <? h_classes h then classEntry shift r else spare shift)
    by (intros r Hr; by apply entryOf_reserve).
  assert (Hmeta : 0 <= Z.shiftl WeavecRtRegionCount (shift - 2)) by (destruct Hs as [-> | ->]; done).
  assert (Hsame : h_shift h = shift /\ h_regions h = h_classes h) by done. destruct Hsame as [Hsh Hrg].
  assert (Hreg : forall r, 0 <= r < 160 ->
            region_ok shift (entryOf h r) (fun _ => 0) (mkRegion 0 0 0 0 None 0 0) (fun _ => Fresh))
    by (intros r Hr; by apply reserve_region).
  change (Z.of_nat (length (buildClasses shift))) with (h_classes h). clearbody h.
  split; [|done]. split_and!; [split|intros t k; unfold ownCache; cbn; by rewrite S2|].
  - constructor; cbn -[entryOf]; rewrite ?Hsh, ?Hrg.
    + done.
    + intros c Hc. rewrite Hent by lia. by rewrite (proj2 (Z.ltb_lt _ _)) by lia.
    + intros r Hr. rewrite (proj2 (Z.ltb_lt _ _)) by lia. split; [lia|done].
    + intros c Hc. by rewrite (proj2 (Z.ltb_lt _ _)) by lia.
    + intros r Hr. left. unfold WeavecRtRegionCount. by rewrite (proj2 (Z.ltb_lt _ _)) by lia.
    + intros c Hc. rewrite !(proj2 (Z.ltb_lt _ _)) by lia. split; [lia|done].
    + intros r Hr. rewrite Hent by lia. rewrite (proj2 (Z.ltb_ge _ _)) by lia. split; [done|].
      unfold WeavecRtRegionCount. by rewrite (proj2 (Z.ltb_lt _ _)) by lia.
    + intros r Hr. rewrite S1. by apply Hreg.
  - constructor; cbn -[entryOf]; rewrite ?S8; try done; [lia|].
    intros r a Hr Ha. rewrite fill_bytes_eq. case_decide as Hin; [done|exfalso]. apply Hin.
    destruct (arena_bounds _ Hh r Hr) as (B1 & _ & B3 & _). rewrite S1 in Ha. cbn -[entryOf] in Ha.
    change WeavecRtShadowGranule with 16 in Hlo. lia.
  - split; [constructor|]; cbn; rewrite S3; constructor.
Qed.

Lemma reserveShadowPages_spec top budget bits sh mem :
  maps_apart top -> top < 2 ^ 62 -> 39 <= bits < 64 -> bytes_ok (s_byte sh) -> s_mask sh = 0 ->
  weavecRtShadowReady (al_shadow (reserveShadowPages bits (blank budget sh mem))) = true ->
  started bits (reserveShadowPages bits (blank budget sh mem)).
Proof.
  intros Hmap H62 Hbits Hb Hmask. unfold reserveShadowPages, ask.
  rewrite Z.shiftl_mul_pow2, Z.mul_1_l by lia.
  assert (Hpos : 0 < 2 ^ (bits - 4) + 64) by (pose proof (Z.pow_pos_nonneg 2 (bits - 4)); lia).
  destruct (sys_map _ _ _) as [map|] eqn:Em; cbn [al_shadow set_shadow set_tick blank].
  2:{ unfold weavecRtShadowReady. cbn. by rewrite Hmask. }
  intros _. destruct (Hmap _ _ _ _ Hpos Em) as (Hm0 & _ & Hmt & _).
  unfold started. cbn [al_shadow set_shadow]. split_and!; try done. apply reserveShadow_wf; (done || lia).
Qed.

(** No region has marks yet. *)
Lemma weavecRtInitialize_marks budget bits sh mem : marks_rest (snd (weavecRtInitialize bits (blank budget sh mem))).
Proof.
  assert (H : forall shift st, al_region (snd (reserveArena shift st)) = al_region st).
  { intros shift st. unfold reserveArena, ask. destruct (sys_map _ _ _); [|done]. by destruct (sys_ok _). }
  unfold weavecRtInitialize. cbn [blank al_heap h_bytes Z.eqb negb]. fold (blank budget sh mem).
  set (st0 := reserveShadowPages bits (blank budget sh mem)).
  assert (E0 : al_region st0 = fun _ => mkRegion 0 0 0 0 None 0 0).
  { unfold st0, reserveShadowPages, ask. by repeat case_match. }
  pose proof (H 31 st0) as E1. destruct (reserveArena 31 st0) as [ok st1]. cbn [snd] in E1.
  assert (E : al_region (snd (if ok then (true, st1) else reserveArena 30 st1)) = fun _ => mkRegion 0 0 0 0 None 0 0)
    by (destruct ok; [exact (eq_trans E1 E0)|rewrite H; exact (eq_trans E1 E0)]).
  intros r bits0 s Hb. by rewrite E in Hb.
Qed.

(** What [weavecRtInitialize] establishes when the arena and the shadow are
    there. *)
Lemma weavecRtInitialize_start top budget bits sh mem :
  maps_apart top -> top < 2 ^ 62 -> top <= 2 ^ bits -> 39 <= bits < 64 -> bytes_ok (s_byte sh) -> s_mask sh = 0 ->
  let '(ok, st) := weavecRtInitialize bits (blank budget sh mem) in
  ok = true -> weavecRtShadowReady (al_shadow st) = true ->
  alloc_inv st nowhere /\ al_caches st = [] /\ ht_blocks (al_huge st) = [] /\ s_bits (al_shadow st) = bits
  /\ ht_releases (al_huge st) = 0.
Proof.
  intros Hmap H62 Htop Hbits Hb Hmask. unfold weavecRtInitialize. cbn [blank al_heap h_bytes Z.eqb negb].
  fold (blank budget sh mem). set (st0 := blank budget sh mem).
  assert (Hsh : forall shift st, al_shadow (snd (reserveArena shift st)) = al_shadow st).
  { intros shift st. unfold reserveArena, ask. destruct (sys_map _ _ _); [|done]. by destruct (sys_ok _). }
  destruct (reserveArena 31 (reserveShadowPages bits st0)) as [ok st1] eqn:E1.
  pose proof (Hsh 31 (reserveShadowPages bits st0)) as F1. rewrite E1 in F1. cbn [snd] in F1.
  destruct ok.
  - intros _ Hr. rewrite F1 in Hr. pose proof (reserveShadowPages_spec top budget bits sh mem Hmap H62 Hbits Hb Hmask Hr) as Hst.
    by apply (reserveArena_spec top 31 bits _ true st1 Hmap H62 Htop ltac:(by right) Hst).
  - destruct (reserveArena 30 st1) as [ok st2] eqn:E2. intros -> Hr.
    pose proof (Hsh 30 st1) as F2. rewrite E2 in F2. cbn [snd] in F2. rewrite F2, F1 in Hr.
    pose proof (reserveShadowPages_spec top budget bits sh mem Hmap H62 Hbits Hb Hmask Hr) as Hst.
    pose proof (reserveArena_spec top 31 bits _ false st1 Hmap H62 Htop ltac:(by right) Hst E1) as Hst1.
    by apply (reserveArena_spec top 30 bits _ true st2 Hmap H62 Htop ltac:(by left) Hst1).
Qed.
End Setup.
