(* ===== verification/Refinement.v ===== *)
(** * The heap the program sees

    The specification of the allocator: a heap is the sizes of its blocks by
    their address and the bytes of the process, and an event (a call of a
    thread, a write, a sweep, a thread's exit) changes it as the C library's
    [malloc], [free] and [realloc] do, with fresh bytes zero.  The allocator
    of the file Allocator refines it: an execution of its calls, from the state
    [weavecRtInitialize] leaves, is an execution of the specification. *)

From Stdlib Require Import String.
From S2P Require Import Prelude Shadow Report Classes Heap HugeBlocks Sweep Allocator HeapFacts PopFacts CacheFacts.
From S2P Require Import MarkFacts SweepFacts HugeFacts AllocFacts LiveFacts ReleaseFacts CallFacts ReallocFacts.
From S2P Require Import Setup.
Local Open Scope Z_scope.

(** ** The specification *)

Record aheap := mkAheap { ah_size : Z -> option Z; ah_byte : Z -> Z }.

(** What happens to the heap: calls with their answers, a write of the
    program's that leaves these bytes, and what it cannot see. *)
Inductive event :=
  | Allocated (self : nat) (size alignment block : Z)
  | Released (self : nat) (p : Z)
  | Reallocated (self : nat) (p size block : Z)
  | Written (mem : Z -> Z)
  | Swept (self : nat)
  | Exited (self : nat).

(** The blocks are the same, and the bytes of those of [keep]. *)
Definition bytes_same (keep : Z -> Prop) (h h' : aheap) : Prop :=
  forall p n a, ah_size h p = Some n -> keep p -> p <= a < p + n -> ah_byte h' a = ah_byte h a.

Definition same_heap (h h' : aheap) : Prop :=
  (forall p, ah_size h' p = ah_size h p) /\ bytes_same (fun _ => True) h h'.

(** [n] bytes at [p] are no byte of a block but those of [old]. *)
Definition free_space (h : aheap) (old : option Z) (p n : Z) : Prop :=
  forall q m, ah_size h q = Some m -> Some q <> old -> p <> q /\ (p + n <= q \/ q + m <= p).

Record new_block (h h' : aheap) (p n alignment : Z) : Prop := {
  nb_address : 0 < p /\ p mod 16 = 0 /\ (16 < alignment -> p mod alignment = 0);
  nb_space : free_space h None p n;
  nb_sizes : forall q, ah_size h' q = if decide (q = p) then Some n else ah_size h q;
  nb_zero : forall a, p <= a < p + n -> ah_byte h' a = 0;
  nb_same : bytes_same (fun _ => True) h h'
}.

Record moved_block (h h' : aheap) (p old q n : Z) : Prop := {
  mb_address : 0 < q /\ q mod 16 = 0;
  mb_space : free_space h (Some p) q n;
  mb_sizes : forall x, ah_size h' x = if decide (x = q) then Some n else if decide (x = p) then None else ah_size h x;
  mb_first : forall i, 0 <= i < Z.min old n -> ah_byte h' (q + i) = ah_byte h (p + i);
  mb_gained : forall i, old <= i < n -> ah_byte h' (q + i) = 0;
  mb_same : bytes_same (fun x => x <> p) h h'
}.

Section Specification.
Context {Next : NextAllocator}.

Inductive allowed (h : aheap) : event -> aheap -> Prop :=
  | no_memory self size alignment h' : same_heap h h' -> allowed h (Allocated self size alignment 0) h'
  | new_memory self size alignment block h' :
      ~ bad_alignment alignment -> new_block h h' block size alignment -> allowed h (Allocated self size alignment block) h'
  | release_nothing self h' : same_heap h h' -> allowed h (Released self 0) h'
  | release_block self p n h' :
      ah_size h p = Some n -> (forall q, ah_size h' q = if decide (q = p) then None else ah_size h q) ->
      bytes_same (fun q => q <> p) h h' -> allowed h (Released self p) h'
  | release_foreign self p h' :
      ah_size h p = None -> nextKnows p = true -> same_heap h h' -> allowed h (Released self p) h'
  | realloc_none self size block h' :
      allowed h (Allocated self size 0 block) h' -> allowed h (Reallocated self 0 size block) h'
  | realloc_fails self p n size h' :
      ah_size h p = Some n -> same_heap h h' -> allowed h (Reallocated self p size 0) h'
  | realloc_moves self p old size block h' :
      ah_size h p = Some old -> moved_block h h' p old block size -> allowed h (Reallocated self p size block) h'
  | realloc_foreign self p size block h' :
      ah_size h p = None -> nextKnows p = true -> same_heap h h' -> allowed h (Reallocated self p size block) h'
  | writes mem h' :
      (forall p, ah_size h' p = ah_size h p) -> ah_byte h' = mem ->
      (forall a, (forall p n, ah_size h p = Some n -> ~ (p <= a < p + n)) -> mem a = ah_byte h a) ->
      allowed h (Written mem) h'
  | sweeps self h' : same_heap h h' -> allowed h (Swept self) h'
  | exits self h' : same_heap h h' -> allowed h (Exited self) h'.

Inductive behaves : aheap -> list event -> aheap -> Prop :=
  | behaves_none h : behaves h [] h
  | behaves_event h e h1 tr h' : allowed h e h1 -> behaves h1 tr h' -> behaves h (e :: tr) h'.
End Specification.

(** ** The allocator's executions *)

Section Executions.
Context `{P : Pages} {Sys : System} {Next : NextAllocator}.

(** The heap a state represents. *)
Definition represented (p : Z) (st : alloc) : option Z :=
  if (0 <=? p) && (p <? 2 ^ 64) then ownedSize p st else None.

Definition heapOf (st : alloc) : aheap := mkAheap (fun p => represented p st) (al_mem st).

(** One event: a call that returns, a write to live blocks, a sweep, the exit
    of a thread. *)
Inductive step (st : alloc) : event -> alloc -> Prop :=
  | step_alloc self size alignment block st' :
      0 <= size < 2 ^ 64 -> 0 <= alignment < 2 ^ 64 ->
      __weavec_rt_alloc self size alignment st = Some (Done block st') -> step st (Allocated self size alignment block) st'
  | step_free self p st' :
      0 <= p < 2 ^ 64 -> __weavec_rt_free self p st = Some (Done tt st') -> step st (Released self p) st'
  | step_realloc self p size block st' :
      0 <= p < 2 ^ 64 -> 0 <= size < 2 ^ 64 ->
      __weavec_rt_realloc self p size st = Some (Done block st') -> step st (Reallocated self p size block) st'
  | step_write mem :
      (forall a, (forall p n, represented p st = Some n -> ~ (p <= a < p + n)) -> mem a = al_mem st a) ->
      step st (Written mem) (set_mem st mem)
  | step_sweep self : step st (Swept self) (weavecRtSweep self st)
  | step_exit self : step st (Exited self) (dropCache self st).

Inductive execution : alloc -> list event -> alloc -> Prop :=
  | execution_none st : execution st [] st
  | execution_event st e st1 tr st' : step st e st1 -> execution st1 tr st' -> execution st (e :: tr) st'.

(** ** The representation of the live blocks *)

Context (HP : pages_wf).

Lemma represented_live st w p n : alloc_inv st w -> represented p st = Some n <-> live_block st w p n.
Proof.
  intros Hi. unfold represented. destruct (Z.leb_spec 0 p); cbn [andb]; [destruct (Z.ltb_spec p (2 ^ 64))|].
  - by apply ownedSize_live.
  - split; [done|]. intros Hl. pose proof (live_range st w p n Hi Hl). lia.
  - split; [done|]. intros Hl. pose proof (live_range st w p n Hi Hl). lia.
Qed.

Lemma option_ext {A} (x y : option A) : (forall m, x = Some m <-> y = Some m) -> x = y.
Proof.
  intros H. destruct x as [a|]; [symmetry; by apply H|]. destruct y as [b|]; [|done]. by apply H.
Qed.

Lemma live_mod st w p n : alloc_inv st w -> live_block st w p n -> p mod 16 = 0.
Proof.
  intros Hi [(r & s & Hr & Hs0 & Hl & -> & _)|(b & Hin & _ & <- & _)].
  - pose proof (proj1 (proj1 Hi)) as Hs. pose proof (so_heap _ _ _ _ _ _ _ Hs) as Hh. pose proof (regions_range _ _ Hs) as [_ H160].
    destruct (slots_bound _ _ _ _ _ _ _ Hs r s ltac:(lia) Hs0) as [Hb1 _]; [by rewrite Hl|].
    by destruct (slot_bounds _ Hh r s ltac:(lia) ltac:(lia)) as (_ & H & _).
  - apply (bo_base _ _ _ (proj1 (list.Forall_forall _ _) (proj2 (proj2 (proj2 Hi))) b Hin)).
Qed.

Lemma bytes_kept_same st w st' (keep : Z -> Prop) :
  alloc_inv st w -> bytes_kept st w st' keep -> bytes_same keep (heapOf st) (heapOf st').
Proof. intros Hi Hb p n a Hp Hk Ha. apply (represented_live st w) in Hp; [|done]. by apply (Hb p n). Qed.

Lemma kept_heap st w st' w' : alloc_inv st w -> alloc_inv st' w' -> kept st w st' w' -> same_heap (heapOf st) (heapOf st').
Proof.
  intros Hi Hi' Hk. split; [|apply (bytes_kept_same st w); [done|apply Hk]].
  intros p. apply option_ext. intros m. cbn. rewrite (represented_live st' w') by done.
  rewrite (represented_live st w) by done. apply Hk.
Qed.

Lemma made_heap st w st' w' p n alignment :
  alloc_inv st w -> alloc_inv st' w' -> made st w st' w' p n -> (16 < alignment -> p mod alignment = 0) ->
  new_block (heapOf st) (heapOf st') p n alignment.
Proof.
  intros Hi Hi' Hm Hal. assert (Hl : live_block st' w' p n) by (apply Hm; by left).
  constructor.
  - split_and!; [apply (live_range st' w' p n Hi' Hl)|by apply (live_mod st' w' p n)|done].
  - intros q m Hq _. apply (represented_live st w) in Hq; [|done]. by apply (md_apart _ _ _ _ _ _ Hm).
  - intros q. apply option_ext. intros m. cbn. rewrite (represented_live st' w') by done. rewrite (md_live _ _ _ _ _ _ Hm).
    case_decide as E; [|rewrite (represented_live st w) by done; tauto]. split; [|intros [= <-]; by left].
    intros [[_ ->]|Hq]; [done|]. subst q. by destruct (md_apart _ _ _ _ _ _ Hm p m Hq).
  - intros a Ha. by apply (md_bytes _ _ _ _ _ _ Hm).
  - apply (bytes_kept_same st w); [done|apply Hm].
Qed.

Lemma unmade_heap st w st' w' p n :
  alloc_inv st w -> alloc_inv st' w' -> unmade st w st' w' p n ->
  represented p st = Some n /\ (forall q, represented q st' = if decide (q = p) then None else represented q st)
  /\ bytes_same (fun q => q <> p) (heapOf st) (heapOf st').
Proof.
  intros Hi Hi' Hu. split_and!; [apply (represented_live st w); [done|apply Hu]| |apply (bytes_kept_same st w); [done|apply Hu]].
  intros q. apply option_ext. intros m. rewrite (represented_live st' w') by done. rewrite (um_live _ _ _ _ _ _ Hu).
  case_decide as E; [split; [tauto|done]|]. rewrite (represented_live st w) by done. tauto.
Qed.

Lemma reallocated_heap st w st' w' p old q n :
  alloc_inv st w -> alloc_inv st' w' -> 0 < q -> reallocated st w st' w' p old q n ->
  moved_block (heapOf st) (heapOf st') p old q n.
Proof.
  intros Hi Hi' Hq Hr. assert (Hl : live_block st' w' q n) by (apply Hr; by left). constructor.
  - split; [done|by apply (live_mod st' w' q n)].
  - intros x m Hx Hne. apply (represented_live st w) in Hx; [|done]. apply (ra_apart _ _ _ _ _ _ _ _ Hr x m Hx). congruence.
  - intros x. apply option_ext. intros m. cbn. rewrite (represented_live st' w') by done. rewrite (ra_live _ _ _ _ _ _ _ _ Hr).
    case_decide as E; [|case_decide as E'; [|rewrite (represented_live st w) by done; tauto]].
    + subst x. split; [|intros [= <-]; by left]. intros [[_ ->]|[Hne Hx]]; [done|].
      by destruct (ra_apart _ _ _ _ _ _ _ _ Hr q m Hx Hne).
    + split; [|done]. intros [[-> _]|[? _]]; done.
  - intros i Hi0. by apply (ra_first _ _ _ _ _ _ _ _ Hr).
  - intros i Hi0. by apply (ra_gained _ _ _ _ _ _ _ _ Hr).
  - apply (bytes_kept_same st w); [done|apply Hr].
Qed.

(** ** A thread's exit *)

Lemma findCache_filter self t l :
  findCache t (List.filter (fun p => negb (Nat.eqb (fst p) self)) l) = if decide (t = self) then None else findCache t l.
Proof.
  induction l as [|[u k] l IH]; cbn; [by case_decide|].
  destruct (Nat.eqb_spec u self) as [->|Hu]; cbn [negb]; rewrite ?IH.
  - case_decide; [done|]. destruct (Nat.eqb_spec self t); [congruence|done].
  - cbn. rewrite IH. destruct (Nat.eqb_spec u t) as [->|Ht]; [|done]. case_decide; [congruence|done].
Qed.

(** The caches of a state change, each as it was or gone. *)
Lemma inv_caches st w st' :
  alloc_inv st w ->
  (al_heap st', al_words st', al_region st', al_next st', al_class st', al_active st', al_huge st', al_shadow st', al_mem st',
   al_tick st')
  = (al_heap st, al_words st, al_region st, al_next st, al_class st, al_active st, al_huge st, al_shadow st, al_mem st,
     al_tick st) ->
  (forall t k, ownCache t st' = Some k -> ownCache t st = Some k) ->
  alloc_inv st' w /\ kept st w st' w.
Proof.
  intros ((Hs & Hb) & Hc & Hg) [= E1 E2 E3 E4 E5 E6 E7 E8 E9 E10] Hk. assert (G : grown st st') by (by apply grown_same).
  assert (Hh' : heap_inv st' w) by (unfold heap_inv, slots; rewrite E1, E2, E3, E4, E5, E6, E8, E9; done).
  split; [split_and!; [done| |]|].
  - intros t k Ho. destruct (Hc t k (Hk t k Ho)). split; [by apply (cache_frame_same st)|by apply (room_frame st w)].
  - apply (huge_ok_frame st); [done|done|by rewrite E8|done].
  - constructor; [|by intros ? ? ? _ _ _; rewrite E9|done|by rewrite E8|by rewrite E7|apply stale_same; [lia|by apply regions_marks]|by intros r s _].
    intros p n. unfold live_block. by rewrite E1, E2, E7.
Qed.

Lemma dropCache_spec self st w :
  alloc_inv st w ->
  exists w', alloc_inv (dropCache self st) w' /\ kept st w (dropCache self st) w'
    /\ forall t, calls (dropCache self st) t = if decide (t = self) then None else calls st t.
Proof.
  intros Hi. unfold dropCache. destruct (inv_caches st w (set_gone st (self :: al_gone st)) Hi) as [Hi0 Hk0]; [done|done|].
  destruct (ownCache self st) as [k|] eqn:Ek.
  2:{ exists w. split_and!; try done. intros t. change (calls (set_gone st (self :: al_gone st)) t) with (calls st t).
      case_decide; [subst|done]. unfold calls. by rewrite Ek. }
  set (st0 := set_gone st (self :: al_gone st)) in *.
  assert (Ek0 : ownCache self st0 = Some k) by done. assert (Ec0 : al_caches st0 = al_caches st) by done. clearbody st0.
  destruct (drainCache k false st0) as [k' st1] eqn:E. pose proof (work_start _ _ _ _ Hi0 Ek0) as Hw.
  apply (work_drainCache self _ _ w) in E as ((w' & Hw' & Hu') & _ & Hl & Hh & Hc); [|done].
  destruct Hw' as [Hi1 Ho1 Hg1 Hc1]. set (st2 := set_caches st1 _).
  assert (Hown : forall t, ownCache t st2 = if decide (t = self) then None else ownCache t st1)
    by (intros t; apply findCache_filter).
  exists w'. split_and!.
  - split_and!; [done| |done]. intros t k0. rewrite Hown. case_decide; [done|]. intros Ht. destruct (Ho1 t k0) as [H1 H2]; [done|done|].
    split; [by apply (cache_frame_same st1); [apply Hi1|..]|]. apply (room_frame st1 w'); [apply Hi1|by apply grown_same|done].
  - eapply kept_trans; [exact Hk0|]. eapply kept_trans; [apply unseen_same; [apply Hi0|exact Hi1|exact Hu']|].
    constructor; try done; [by apply stale_same|by intros r s _].
  - intros t. unfold calls. rewrite Hown. case_decide; [done|]. unfold ownCache. by rewrite Hc, Ec0.
Qed.

(** ** Refinement *)

Context (top : Z) (Hmap : maps_apart top).

(** The states between events: the invariant, no call under way, at most [n]
    mapped blocks released so far. *)
Definition sound_at (n : Z) (st : alloc) (w : Z -> Z -> place) : Prop :=
  alloc_inv st w /\ (forall t, idle t st) /\ top <= 2 ^ s_bits (al_shadow st) /\ 0 <= ht_releases (al_huge st) <= n.

Definition sound (n : Z) (st : alloc) : Prop := exists w, sound_at n st w.

(** The state after one more event. *)
Definition follows (n : Z) (st : alloc) (w : Z -> Z -> place) (st' : alloc) : Prop :=
  exists w', sound_at (n + 1) st' w' /\ grown st st' /\ stale st w st' w'.

Lemma released_once old new n : 0 <= old <= n -> n + 1 < 2 ^ 64 -> new = old \/ new = add64 old 1 -> 0 <= new <= n + 1.
Proof. intros H1 H2 [->| ->]; [lia|]. unfold add64. rewrite wrap64_small by lia. lia. Qed.

Lemma sound_after n st w st' w' :
  sound_at n st w -> n + 1 < 2 ^ 64 -> alloc_inv st' w' -> (forall t, idle t st') ->
  s_bits (al_shadow st') = s_bits (al_shadow st) ->
  ht_releases (al_huge st') = ht_releases (al_huge st) \/ ht_releases (al_huge st') = add64 (ht_releases (al_huge st)) 1 ->
  grown st st' -> stale st w st' w' -> follows n st w st'.
Proof.
  intros (_ & _ & Htop & Hrel) Hn Hi Hid Hb Hr G S. exists w'. split; [|done]. split_and!; try done; [by rewrite Hb|..];
    pose proof (released_once _ _ n Hrel Hn Hr); lia.
Qed.

Lemma idle_all st st' : (forall t, idle t st) -> calls_kept st st' -> forall t, idle t st'.
Proof. intros H Hc t. by apply (kept_idle st). Qed.

Lemma free_null self st : __weavec_rt_free self 0 st = Some (Done tt st).
Proof.
  unfold __weavec_rt_free. destruct (deferFuel_S self st) as [n ->]. by rewrite freeDeferred_S.
Qed.

Lemma follows_kept n st w st' w' :
  sound_at n st w -> n + 1 < 2 ^ 64 -> alloc_inv st' w' -> (forall t, idle t st') -> kept st w st' w' -> follows n st w st'.
Proof. intros Hs Hn Hi Hid Hk. apply (sound_after n st w st' w'); try done; [apply Hk|left; apply Hk|apply Hk|apply Hk]. Qed.

Lemma served_refines n st w st' w' self size alignment block :
  sound_at n st w -> n + 1 < 2 ^ 64 -> alloc_inv st' w' -> (forall t, idle t st') -> served st w st' w' block size alignment ->
  allowed (heapOf st) (Allocated self size alignment block) (heapOf st') /\ follows n st w st'.
Proof.
  intros Hs Hn Hi' Hid. pose proof Hs as (Hi & _). intros [[-> Hk]|(Hb & Hm & Hbad & Hal)].
  - split; [apply no_memory; by apply (kept_heap st w st' w')|by apply (follows_kept n st w st' w')].
  - split; [apply new_memory; [done|by apply (made_heap st w st' w')]|].
    apply (sound_after n st w st' w'); try done; [apply Hm|left; apply Hm|apply Hm|apply Hm].
Qed.

Lemma not_represented st w p : alloc_inv st w -> (forall n, ~ live_block st w p n) -> ah_size (heapOf st) p = None.
Proof.
  intros Hi Hno. cbn. destruct (represented p st) as [m|] eqn:Em; [|done].
  apply (represented_live st w) in Em; [|done]. by destruct (Hno m).
Qed.

Lemma step_refines n st w e st' :
  sound_at n st w -> n + 1 < 2 ^ 64 -> step st e st' -> allowed (heapOf st) e (heapOf st') /\ follows n st w st'.
Proof.
  intros Hsound Hn Hstep. pose proof Hsound as (Hi & Hid & Htop & Hrel).
  assert (Hroom : room_for 1 st) by (unfold room_for; lia).
  destruct Hstep as [self size alignment block st' Hsz Hal E|self p st' Hp E|self p size block st' Hp Hsz E|mem Hm|self|self].
  - destruct (idle_alloc HP top self st w size alignment Hmap Hi Htop Hsz Hal (Hid self)) as (b & st1 & w' & E' & Hi' & Hsv & Hc).
    rewrite E in E'. injection E' as <- <-. apply (served_refines n st w st' w'); try done. by apply (idle_all st).
  - destruct (Z.eq_dec p 0) as [->|Hne].
    { assert (st' = st) as -> by (rewrite free_null in E; congruence). split; [apply release_nothing; by split|].
      apply (follows_kept n st w st w); try done. by apply kept_refl. }
    pose proof (idle_release HP self st w p Hi ltac:(lia) Hroom (Hid self)) as H. rewrite E in H.
    destruct H as (w' & Hi' & [[-> _]|[[m Hu]|(Hno & Hk & Hkept)]] & Hc); [done| |].
    + destruct (unmade_heap st w st' w' p m Hi Hi' Hu) as (H1 & H2 & H3). split; [by apply (release_block _ self p m)|].
      apply (sound_after n st w st' w'); try done; [by apply (idle_all st)|apply Hu..].
    + split; [|apply (follows_kept n st w st' w'); try done; by apply (idle_all st)].
      apply release_foreign; [by apply (not_represented st w)|done|by apply (kept_heap st w st' w')].
  - pose proof (__weavec_rt_realloc_spec HP top Hmap self st w p size Hi Htop Hp Hsz Hroom (Hid self)) as H. rewrite E in H.
    destruct H as (w' & Hi' & Hc & Hcase). pose proof (idle_all st st' Hid Hc) as Hid'.
    destruct Hcase as [[-> Hsv]|[(old & Hl & [[-> Hk]|[Hb Hra]])|(Hno & Hk & Hkept)]].
    + destruct (served_refines n st w st' w' self size 0 block Hsound Hn Hi' Hid' Hsv) as [Hall Hf].
      split; [by apply realloc_none|done].
    + split; [apply (realloc_fails _ self p old); [by apply (represented_live st w)|by apply (kept_heap st w st' w')]|].
      by apply (follows_kept n st w st' w').
    + split; [apply (realloc_moves _ self p old); [by apply (represented_live st w)|by apply (reallocated_heap st w st' w')]|].
      apply (sound_after n st w st' w'); try done; apply Hra.
    + split; [|by apply (follows_kept n st w st' w')].
      apply realloc_foreign; [by apply (not_represented st w)|done|by apply (kept_heap st w st' w')].
  - split; [apply writes; [done|done|exact Hm]|].
    assert (Hi' : alloc_inv (set_mem st mem) w).
    { apply inv_write; [done|]. intros a Ha. apply Hm. intros p m Hp. apply Ha. by apply (represented_live st w). }
    apply (sound_after n st w (set_mem st mem) w); try done; [by left|by apply stale_same].
  - destruct (weavecRtSweep_spec HP self st w Hi) as ((w' & Hi' & Hu) & _).
    pose proof (unseen_same _ _ _ _ (proj1 Hi) (proj1 Hi') Hu) as Hk.
    split; [apply sweeps; by apply (kept_heap st w _ w')|].
    apply (follows_kept n st w _ w'); try done. apply (idle_all st); [done|by eapply unseen_kept].
  - destruct (dropCache_spec self st w Hi) as (w' & Hi' & Hk & Hc).
    split; [apply exits; by apply (kept_heap st w _ w')|].
    apply (follows_kept n st w _ w'); try done.
    intros t. unfold idle. rewrite Hc. case_decide; [by left|apply Hid].
Qed.

(** Executions are behaviours of the specification; what a released block's
    memory is denied, it stays so until a sweep finds no root into it. *)
Lemma execution_behaves tr : forall n st w st',
  sound_at n st w -> n + Z.of_nat (length tr) < 2 ^ 64 -> execution st tr st' ->
  behaves (heapOf st) tr (heapOf st')
  /\ exists w', sound_at (n + Z.of_nat (length tr)) st' w' /\ grown st st' /\ stale st w st' w'.
Proof.
  induction tr as [|e tr IH]; intros n st w st' Hs Hn Hex; inversion Hex; subst; cbn [length] in *.
  - split; [constructor|]. exists w. replace (n + Z.of_nat 0) with n by lia.
    split; [done|]. split; [by apply grown_same|by apply stale_same].
  - destruct (step_refines n st w e st1 Hs ltac:(lia)) as [Ha (w1 & Hs1 & G1 & S1)]; [done|].
    destruct (IH (n + 1) st1 w1 st' Hs1 ltac:(lia)) as [Hb (w' & Hs' & G' & S')]; [done|].
    split; [by eapply behaves_event|]. exists w'.
    replace (n + Z.of_nat (S (length tr))) with (n + 1 + Z.of_nat (length tr)) by lia.
    split; [done|]. split; [by eapply grown_trans|by eapply stale_trans].
Qed.
End Executions.
