(* ===== verification/HeapTheorems.v ===== *)
(** * What the allocator promises

    The properties of the allocator, of the files Heap to Refinement, in terms
    of what a program and the other parts of the runtime see: the calls and
    their answers, the shadow, the words of the slots, the reports' view of the
    heap. *)

From Stdlib Require Import String.
From S2P Require Import Prelude Shadow Report Classes Heap HugeBlocks Sweep Allocator HeapFacts PopFacts CacheFacts.
From S2P Require Import MarkFacts SweepFacts HugeFacts AllocFacts LiveFacts ReleaseFacts CallFacts ReallocFacts.
From S2P Require Import Setup Refinement.
Local Open Scope Z_scope.

Section Promises.
Context `{P : Pages} {Sys : System} {Next : NextAllocator} (HP : pages_wf) (top : Z) (Hmap : maps_apart top).

(** ** The states of a program *)

(** The first call of [weavecRtInitialize] reserved the arena and the shadow;
    the window reaches the process's addresses, those below [top]. *)
Definition boots (st0 : alloc) : Prop :=
  exists budget bits sh mem,
    top < 2 ^ 62 /\ top <= 2 ^ bits /\ 39 <= bits < 64 /\ bytes_ok (s_byte sh) /\ s_mask sh = 0
    /\ weavecRtInitialize bits (blank budget sh mem) = (true, st0) /\ weavecRtShadowReady (al_shadow st0) = true.

(** The states after [n] events. *)
Definition reachable (n : Z) (st : alloc) : Prop :=
  exists st0 tr, boots st0 /\ execution st0 tr st /\ n = Z.of_nat (length tr) /\ n + 2 < 2 ^ 64.

Lemma boots_sound st0 : boots st0 -> sound_at top 0 st0 nowhere /\ forall p, represented p st0 = None.
Proof.
  intros (budget & bits & sh & mem & H1 & H2 & H3 & H4 & H5 & H6 & H7).
  pose proof (weavecRtInitialize_start top budget bits sh mem Hmap H1 H2 H3 H4 H5) as H. rewrite H6 in H.
  destruct (H eq_refl H7) as (Hi & Hc & Hb & Hbits & Hr). split.
  - split_and!; [done| |by rewrite Hbits|lia|lia]. intros t. left. unfold calls, ownCache. by rewrite Hc.
  - intros p. apply (not_represented st0 nowhere p Hi). intros n [(r & s & _ & _ & Hl & _)|(b & Hin & _)]; [done|].
    rewrite Hb in Hin. by apply elem_of_nil in Hin.
Qed.

Lemma reachable_sound n st : reachable n st -> 0 <= n /\ n + 2 < 2 ^ 64 /\ exists w, sound_at top n st w.
Proof.
  intros (st0 & tr & Hb & Hex & -> & Hn). destruct (boots_sound st0 Hb) as [Hs _].
  destruct (execution_behaves HP top Hmap tr 0 st0 nowhere st Hs ltac:(lia) Hex) as (_ & w & Hw & _).
  split; [lia|]. split; [done|]. by exists w.
Qed.

(** Between the events no mark bit is set. *)
Lemma reachable_rest n st : reachable n st -> marks_rest st.
Proof.
  intros (st0 & tr & Hb & Hex & -> & Hn). destruct (boots_sound st0 Hb) as [Hs _].
  destruct (execution_behaves HP top Hmap tr 0 st0 nowhere st Hs ltac:(lia) Hex) as (_ & w & _ & _ & S).
  apply (st_marks _ _ _ _ S). destruct Hb as (budget & bits & sh & mem & _ & _ & _ & _ & _ & E & _).
  pose proof (weavecRtInitialize_marks budget bits sh mem) as H. by rewrite E in H.
Qed.

(** C1: the allocator refines its specification: from the start of the program on, any
    sequence of allocations, releases, reallocations, writes to live blocks,
    sweeps and exits of threads is one the specification allows: every block
    handed out is new, aligned, apart from the live ones and zero, every block
    keeps its bytes, a release ends its block and no other, a reallocation
    keeps the first bytes. *)
Theorem execution_refines st0 tr st :
  boots st0 -> execution st0 tr st -> Z.of_nat (length tr) < 2 ^ 64 ->
  (forall p, ah_size (heapOf st0) p = None) /\ behaves (heapOf st0) tr (heapOf st).
Proof.
  intros Hb Hex Hn. destruct (boots_sound st0 Hb) as [Hs Hno]. split; [exact Hno|].
  by apply (execution_behaves HP top Hmap tr 0 st0 nowhere st Hs ltac:(lia) Hex).
Qed.

(** ** Every call returns *)

(** The addresses of the allocator's own memory: the arena, and the mappings of
    the blocks mapped on their own. *)
Definition own_memory (st : alloc) (p : Z) : Prop :=
  h_base (al_heap st) <= p < h_base (al_heap st) + h_bytes (al_heap st)
  \/ exists b, b ∈ ht_blocks (al_huge st) /\ hb_map b <= p < hb_map b + hb_mapBytes b.

(** What a program may give back: null, a live block, and a block of the C
    library's. *)
Definition releasable (st : alloc) (p : Z) : Prop :=
  p = 0 \/ represented p st <> None \/ (nextKnows p = true /\ ~ own_memory st p).

Lemma own_memory_found st w p :
  alloc_inv st w -> 0 <= p < 2 ^ 64 ->
  own_memory st p <-> inArena (al_heap st) p = true \/ hugeFind (al_huge st) p <> None.
Proof.
  intros Hi Hp. pose proof (so_heap _ _ _ _ _ _ _ (proj1 (proj1 Hi))) as Hh. pose proof Hi as (_ & _ & Ht & _).
  assert (Ha : inArena (al_heap st) p = true <-> h_base (al_heap st) <= p < h_base (al_heap st) + h_bytes (al_heap st)).
  { pose proof (ho_room _ Hh) as Hro. pose proof (ho_base _ Hh) as [Hb0 _]. unfold inArena, sub64, wrap64. rewrite Z.ltb_lt.
    clear - Hro Hb0 Hp. split; intros H; euclid. }
  unfold own_memory. rewrite Ha. split; (intros [?|H]; [by left|right]).
  - destruct H as (b & Hb & Hm). assert (E : hugeFind (al_huge st) p = Some b); [|by rewrite E].
    apply hugeFind_some; [done|]. split; [done|]. unfold holds. apply andb_true_iff. split; [apply Z.leb_le|apply Z.ltb_lt]; lia.
  - destruct (hugeFind (al_huge st) p) as [b|] eqn:E; [|done]. exists b. apply hugeFind_some in E as [Hb Hho]; [|done].
    unfold holds in Hho. bool_hyps. split; [done|lia].
Qed.

Lemma foreign_memory st w p :
  alloc_inv st w -> 0 <= p < 2 ^ 64 ->
  ~ own_memory st p <-> inArena (al_heap st) p = false /\ hugeFind (al_huge st) p = None.
Proof.
  intros Hi Hp. rewrite (own_memory_found st w p Hi Hp).
  destruct (inArena (al_heap st) p), (hugeFind (al_huge st) p); intuition congruence.
Qed.

(** A release of what is no block succeeds for what the C library knows, and
    for nothing else. *)
Lemma release_unknown self st w p r :
  alloc_inv st w -> idle self st -> p <> 0 -> (forall m, ~ live_block st w p m) -> 0 <= p < 2 ^ 64 -> room_for 1 st ->
  __weavec_rt_free self p st = Some r ->
  match r with
  | Done _ _ => nextKnows p = true /\ ~ own_memory st p
  | Fatal _ _ => nextKnows p = false \/ own_memory st p
  end.
Proof.
  intros Hi Hid Hne Hno Hp Hroom. unfold __weavec_rt_free. destruct (deferFuel_S self st) as [fuel ->]. rewrite freeDeferred_S.
  destruct (idle_free self st Hid) as [-> _]. rewrite (proj2 (Z.eqb_neq p 0) Hne). cbv zeta.
  destruct (enter_spec self st w Hi) as (Hi1 & Hk1 & _). pose proof (call_release HP self st w p Hi Hp Hroom) as HC. cbv zeta in HC.
  assert (Hrel : add64 (ht_releases (al_huge (snd (enter self st)))) 1 <> 0).
  { rewrite (kp_releases _ _ _ _ Hk1). unfold room_for in Hroom. unfold add64. rewrite wrap64_small by lia. lia. }
  pose proof (release_spec HP self (snd (enter self st)) w p Hi1 Hp Hrel) as HR.
  assert (E : al_heap (snd (enter self st)) = al_heap st /\ al_huge (snd (enter self st)) = al_huge st)
    by (unfold enter; by destruct (ownCache self st)). destruct E as [E1 E2].
  rewrite E1, E2 in HR. pose proof (foreign_memory st w p Hi Hp) as HO.
  destruct (release self p (snd (enter self st))) as [u st2|a why].
  - destruct HR as (w2 & _ & _ & [[m Hu]|(Ha & Hf & Hk & _)]).
    { destruct (Hno m). apply (kp_live _ _ _ _ Hk1). apply Hu. }
    destruct HC as (w' & _ & _ & [_ Hc] & _). set (st3 := snd (leave self (fst (enter self st)) st2)) in *.
    assert (Hd3 : calls st3 self = None \/ exists x, calls st3 self = Some (x, 0, [])).
    { destruct (Hc self) as [->|[_ ->]]; [|by right; exists 0]. destruct Hid as [-> | ->]; [by left|right; by exists 0]. }
    assert (Hpop : popDeferred self st3 = None).
    { unfold popDeferred, calls in *. destruct (ownCache self st3) as [k|]; [|done]. cbn in Hd3.
      destruct Hd3 as [?|[x [= _ _ ->]]]; done. }
    destruct (fst (leave self _ st2)); [|intros [= <-]; split; [done|by apply HO]].
    destruct fuel as [|fuel]; [done|]. rewrite drainDeferred_S, Hpop. intros [= <-]. split; [done|by apply HO].
  - intros [= <-]. destruct HR as (_ & _ & _ & HK). destruct (nextKnows p) eqn:Ek; [right|by left].
    destruct (inArena (al_heap st) p) eqn:Ha; [|destruct (hugeFind (al_huge st) p) eqn:Ef; [|by specialize (HK eq_refl eq_refl)]].
    all: apply (own_memory_found st w p Hi Hp); rewrite ?Ha, ?Ef; first [by left | by right].
Qed.

Lemma free_answers n st w self p :
  sound_at top n st w -> n + 1 < 2 ^ 64 -> 0 <= p < 2 ^ 64 ->
  (exists st', __weavec_rt_free self p st = Some (Done tt st') /\ releasable st p)
  \/ (exists why, __weavec_rt_free self p st = Some (Fatal p why) /\ ~ releasable st p).
Proof.
  intros (Hi & Hid & Htop & Hrel) Hn Hp.
  destruct (Z.eq_dec p 0) as [->|Hne]; [left; exists st; split; [apply free_null|by left]|].
  assert (Hroom : room_for 1 st) by (unfold room_for; lia).
  pose proof (idle_release HP self st w p Hi ltac:(lia) Hroom (Hid self)) as H.
  pose proof (release_unknown self st w p) as HU.
  destruct (__weavec_rt_free self p st) as [[[] st'|a why]|]; [left|right|done].
  - exists st'. split; [done|]. destruct H as (w' & _ & [[-> _]|[[m Hu]|(Hno & _)]] & _); [by left|right; left|right; right].
    + rewrite (proj2 (represented_live st w p m Hi) (um_was _ _ _ _ _ _ Hu)). done.
    + by apply (HU (Done tt st')).
  - destruct (stops_one _ _ _ _ _ H) as [-> Hno]. exists why. split; [done|].
    specialize (HU _ Hi (Hid self) Hne Hno ltac:(lia) Hroom eq_refl). cbn in HU.
    pose proof (not_represented st w p Hi Hno) as Hnone. cbn in Hnone. intros [?|[?|[? ?]]]; [done|done|]. destruct HU; [congruence|done].
Qed.

Lemma realloc_answers n st w self p size :
  sound_at top n st w -> n + 1 < 2 ^ 64 -> 0 <= p < 2 ^ 64 -> 0 <= size < 2 ^ 64 ->
  (exists block st', __weavec_rt_realloc self p size st = Some (Done block st') /\ releasable st p)
  \/ (exists why, __weavec_rt_realloc self p size st = Some (Fatal p why) /\ ~ releasable st p).
Proof.
  intros (Hi & Hid & Htop & Hrel) Hn Hp Hsz.
  pose proof (__weavec_rt_realloc_spec HP top Hmap self st w p size Hi Htop Hp Hsz ltac:(unfold room_for; lia) (Hid self)) as H.
  pose proof (own_memory_found st w p Hi Hp) as HW. pose proof (foreign_memory st w p Hi Hp) as HO.
  destruct (Z.eq_dec p 0) as [->|Hne].
  { destruct (idle_alloc HP top self st w size 0 Hmap Hi Htop Hsz ltac:(lia) (Hid self)) as (b & st' & w' & E' & _).
    left. exists b, st'. split; [done|by left]. }
  assert (HU : (forall m, ~ live_block st w p m) -> forall r, __weavec_rt_realloc self p size st = Some r ->
    match r with Done _ _ => nextKnows p = true /\ ~ own_memory st p | Fatal _ _ => nextKnows p = false \/ own_memory st p end).
  { intros Hno r. assert (Eo : ownedSize p st = None).
    { destruct (ownedSize p st) as [m|] eqn:E; [|done]. apply (ownedSize_live st w p m Hi Hp) in E. by destruct (Hno m). }
    unfold __weavec_rt_realloc. rewrite (proj2 (Z.eqb_neq p 0) Hne), Eo. unfold ownedSize in Eo.
    destruct (inArena (al_heap st) p) eqn:Ha.
    - cbv zeta in Eo |- *. destruct (_ || _); [|done]. intros [= <-]. right. apply HW. by left.
    - destruct (hugeFind (al_huge st) p) eqn:Ef; [|destruct (nextKnows p) eqn:Ek; [destruct (ask _ _) as [moved st1]|]];
        intros [= <-]; [|split; [done|by apply HO]|by left].
      right. apply HW. by right. }
  destruct (__weavec_rt_realloc self p size st) as [[b st'|a why]|] eqn:E; [left|right|done].
  - exists b, st'. split; [done|]. destruct H as (w' & _ & _ & [[-> _]|[(old & Hl & _)|(Hno & _)]]); [by left|right; left|right; right].
    + by rewrite (proj2 (represented_live st w p old Hi) Hl).
    + by apply (HU Hno _ eq_refl).
  - destruct H as (-> & Hno & _). exists why. split; [done|]. specialize (HU Hno _ eq_refl). cbn in HU.
    pose proof (not_represented st w p Hi Hno) as Hnone. cbn in Hnone. intros [?|[?|[? ?]]]; [done|done|]. destruct HU; [congruence|done].
Qed.

(** C16: in every state of a program every call returns: an allocation with its
    block or none, a release or a reallocation with its result exactly for
    null, for a live block and for what the C library knows outside the
    allocator's own memory, and else with a report of the address.  The fuel
    of the model is never used up. *)
Theorem calls_return n st self :
  reachable n st ->
  (forall size alignment, 0 <= size < 2 ^ 64 -> 0 <= alignment < 2 ^ 64 ->
     exists block st', __weavec_rt_alloc self size alignment st = Some (Done block st'))
  /\ (forall p, 0 <= p < 2 ^ 64 ->
       (exists st', __weavec_rt_free self p st = Some (Done tt st') /\ releasable st p)
       \/ (exists why, __weavec_rt_free self p st = Some (Fatal p why) /\ ~ releasable st p))
  /\ (forall p size, 0 <= p < 2 ^ 64 -> 0 <= size < 2 ^ 64 ->
       (exists block st', __weavec_rt_realloc self p size st = Some (Done block st') /\ releasable st p)
       \/ (exists why, __weavec_rt_realloc self p size st = Some (Fatal p why) /\ ~ releasable st p)).
Proof.
  intros Hr. destruct (reachable_sound n st Hr) as (H0 & Hn & w & Hs). split_and!.
  - intros size alignment Hsz Hal. pose proof Hs as (Hi & Hid & Htop & _).
    destruct (idle_alloc HP top self st w size alignment Hmap Hi Htop Hsz Hal (Hid self)) as (b & st' & w' & E & _). by exists b, st'.
  - intros p Hp. apply (free_answers n st w); (done || lia).
  - intros p size Hp Hsz. apply (realloc_answers n st w); (done || lia).
Qed.

(** ** A pointer that outlives its block *)

(** The events that end block [p]: its release, and its reallocation to
    another address. *)
Inductive ends (p : Z) : event -> Prop :=
  | ends_free self : ends p (Released self p)
  | ends_realloc self size block : block <> 0 -> block <> p -> ends p (Reallocated self p size block).

Lemma ended_denied n st w e st' p m :
  sound_at top n st w -> n + 1 < 2 ^ 64 -> step st e st' -> ends p e -> live_block st w p m ->
  exists w', sound_at top (n + 1) st' w' /\ grown st st'
    /\ forall r s, 0 <= r < h_regions (al_heap st) -> 0 <= s -> w r s = Live -> slotStart (al_heap st) r s = p ->
         slot_denied st st' w' r s.
Proof.
  intros Hs Hn Hst He Hl. pose proof Hs as (Hi & Hid & Htop & Hrel).
  pose proof (live_range st w p m Hi Hl) as [Hp0 _].
  destruct He as [self|self size block Hb Hbp]; inversion Hst as [|? ? ? Hp E|? ? ? ? ? Hp Hsz E| | |]; subst.
  - destruct (idle_release_live HP self st w p m Hi ltac:(unfold room_for; lia) (Hid self) Hl) as (st1 & w' & E' & Hi' & Hu & Hc).
    rewrite E in E'. injection E' as <-.
    destruct (sound_after top n st w st' w' Hs Hn Hi' (idle_all st st' Hid Hc)) as (w1 & _); [apply Hu..|].
    exists w'. split; [|split; [apply Hu|apply Hu]].
    split_and!; [done|by apply (idle_all st)|by rewrite (um_bits _ _ _ _ _ _ Hu)|..];
      pose proof (released_once _ _ n Hrel Hn (um_releases _ _ _ _ _ _ Hu)); lia.
  - pose proof (__weavec_rt_realloc_spec HP top Hmap self st w p size Hi Htop Hp Hsz ltac:(unfold room_for; lia) (Hid self)) as H.
    rewrite E in H. destruct H as (w' & Hi' & Hc & [[-> _]|[(old & Hold & [[-> _]|[_ Hra]])|(Hno & _)]]); [lia|done| |by destruct (Hno m)].
    exists w'. split; [|split; [apply Hra|by apply Hra]].
    split_and!; [done|by apply (idle_all st)|by rewrite (ra_bits _ _ _ _ _ _ _ _ Hra)|..];
      pose proof (released_once _ _ n Hrel Hn (ra_releases _ _ _ _ _ _ _ _ Hra)); lia.
Qed.

Lemma sound_denied n st w st' r s a :
  sound_at top n st w -> grown st st' -> 0 <= r < h_regions (al_heap st) -> 0 <= s ->
  forall m w', sound_at top m st' w' -> denied (w' r s) = true -> in_slot (al_heap st) r s a ->
  addressable (al_shadow st') a = false /\ forall q k, represented q st' = Some k -> ~ (q <= a < q + k).
Proof.
  intros Hs G Hr Hs0 m w' (Hi' & _) Hd Ha. pose proof (gr_regions _ _ G).
  pose proof (proj1 (proj1 Hi')) as Hsl. pose proof (regions_range _ _ Hsl) as [_ H160].
  apply (in_slot_grown st st' r s a G Hr) in Ha. split.
  - apply (bs_denied _ _ _ _ _ _ (proj2 (proj1 Hi')) r s); (done || lia).
  - intros q k Hq. apply (represented_live st' w') in Hq; [|done].
    destruct (slots_bound _ _ _ _ _ _ _ Hsl r s ltac:(lia) Hs0) as [Hb1 _]; [intros E; by rewrite E in Hd|].
    apply (live_slot_bytes st' w' r s q k a Hi'); try done; try lia. intros E. by rewrite E in Hd.
Qed.

(** C2: while a root points into the slot of a released block of the arena, at
    every moment a sweep may read its roots, the block is not reused: after its
    release, or the reallocation that moved it, its bytes stay denied and no
    live block has any of them, whatever the program does. *)
Theorem stale_pointer_denied n st e st1 tr st2 p size :
  reachable n st -> n + 1 + Z.of_nat (length tr) < 2 ^ 64 ->
  represented p st = Some size -> inArena (al_heap st) p = true ->
  step st e st1 -> ends p e -> execution st1 tr st2 ->
  let slotBytes := slotBytesOf st (ref_region (slotOf (al_heap st) p)) in
  (forall k, (al_tick st <= k < al_tick st2)%nat -> exists v, v ∈ sys_roots k /\ p <= v < p + slotBytes) ->
  forall a, p <= a < p + slotBytes ->
    addressable (al_shadow st2) a = false /\ forall q m, represented q st2 = Some m -> ~ (q <= a < q + m).
Proof.
  intros Hr Htr Hrep Ha Hst He Hex slotBytes Hroots a Hpa.
  destruct (reachable_sound n st Hr) as (H0 & Hn & w & Hs). pose proof Hs as (Hi & _). pose proof (proj1 (proj1 Hi)) as Hsl.
  pose proof (proj1 (represented_live st w p size Hi) Hrep) as Hl.
  destruct (ended_denied n st w e st1 p size Hs ltac:(lia) Hst He Hl) as (w1 & Hs1 & G1 & Hd1).
  destruct (execution_behaves HP top Hmap tr (n + 1) st1 w1 st2 Hs1 ltac:(lia) Hex) as (_ & w2 & Hs2 & G2 & S2).
  destruct Hl as [(r & s & Hr0 & Hs0 & Hlv & E & _)|Hhu]; [|by rewrite (live_outside_arena st w p size Hi Hhu) in Ha].
  destruct (slotOf_start st w r s Hsl Hr0 Hs0) as [_ Href]; [by rewrite Hlv|]. rewrite <- E in Href.
  unfold slotBytes, slotBytesOf in *. rewrite Href in *. cbn [ref_region] in *.
  assert (Hin : forall v, p <= v < p + c_size (entryOf (al_heap st) r) -> in_slot (al_heap st) r s v)
    by (intros v Hv; unfold in_slot; lia).
  assert (T1 : (al_tick st <= al_tick st1)%nat).
  { destruct (step_refines HP top Hmap n st w e st1 Hs ltac:(lia) Hst) as [_ (w1' & _ & _ & [T _])]. exact T. }
  pose proof (slot_denied_then st st1 w1 st2 w2 r s G1 T1 Hr0 (Hd1 r s Hr0 Hs0 Hlv (eq_sym E)) S2) as [Hd|(k & Hk & Hno)].
  - apply (sound_denied n st w st2 r s a Hs (grown_trans _ _ _ G1 G2) Hr0 Hs0 _ w2 Hs2 Hd). by apply Hin.
  - destruct (Hroots k Hk) as (v & Hv & Hpv). by destruct (Hno v Hv (Hin v Hpv)).
Qed.

(** The calls that hand out the block at [p]. *)
Definition hands_out (p : Z) (e : event) : Prop :=
  match e with Allocated _ _ _ b | Reallocated _ _ _ b => b = p | _ => False end.

Lemma ends_gone h e h' p n : p <> 0 -> ends p e -> allowed h e h' -> ah_size h p = Some n -> ah_size h' p = None.
Proof.
  intros Hp He Ha Hn. destruct He as [self|self size block Hb Hbp]; inversion Ha; subst; try congruence.
  - match goal with H : forall q, ah_size _ q = _ |- _ => rewrite H end. by rewrite decide_True.
  - match goal with H : moved_block _ _ _ _ _ _ |- _ => rewrite (mb_sizes _ _ _ _ _ _ H) end.
    by rewrite decide_False, decide_True by congruence.
Qed.

Lemma gone_stays h tr h' p :
  behaves h tr h' -> Forall (fun e => ~ hands_out p e) tr -> ah_size h p = None -> ah_size h' p = None.
Proof.
  assert (Halloc : forall h self size al b h', allowed h (Allocated self size al b) h' -> b <> p -> ah_size h p = None -> ah_size h' p = None).
  { intros h0 self size al b h0' Ha Hb Hn. inversion Ha as [? ? ? ? Hs|? ? ? ? ? ? Hnb| | | | | | | | | |]; subst;
      [by rewrite (proj1 Hs)|]. rewrite (nb_sizes _ _ _ _ _ Hnb). by rewrite decide_False. }
  intros Hb. induction Hb as [|h e h1 tr h' Ha Hb IH]; intros Hf Hn; [done|]. apply list.Forall_cons in Hf as [He Hf]. apply IH; [done|].
  destruct Ha as [? ? ? ? Hs|? ? ? ? ? ? Hnb|? ? Hs|? q ? ? ? Hq _|? ? ? ? ? Hs|? ? ? ? Hal|? ? ? ? ? ? Hs|? q ? ? ? ? Hq Hm|? ? ? ? ? ? ? Hs|? ? Hs|? ? Hs|? ? Hs];
    try (by rewrite (proj1 Hs)); try (by rewrite Hs).
  - rewrite (nb_sizes _ _ _ _ _ Hnb). by rewrite decide_False by (intros ->; by apply He).
  - rewrite Hq. by case_decide.
  - by apply (Halloc _ _ _ _ _ _ Hal).
  - rewrite (mb_sizes _ _ _ _ _ _ Hm). rewrite decide_False by (intros ->; by apply He). by case_decide.
Qed.

(** C27: a second release of a block stops the program with a report of the
    address: whatever the program does between the end of the block (its
    release, or the reallocation that moved it) and the second release or
    reallocation, by any thread, as long as no call handed the address out
    again and the C library knows no block there. *)
Theorem double_release n st e st1 tr st2 self p size :
  reachable n st -> n + 2 + Z.of_nat (length tr) < 2 ^ 64 ->
  represented p st = Some size -> nextKnows p = false ->
  step st e st1 -> ends p e -> execution st1 tr st2 -> Forall (fun e => ~ hands_out p e) tr ->
  (exists why, __weavec_rt_free self p st2 = Some (Fatal p why))
  /\ forall newSize, 0 <= newSize < 2 ^ 64 -> exists why, __weavec_rt_realloc self p newSize st2 = Some (Fatal p why).
Proof.
  intros Hr Hn2 Hrep Hk Hst He Hex Hno. destruct (reachable_sound n st Hr) as (H0 & Hn & w & Hs). pose proof Hs as (Hi & _).
  pose proof (proj1 (represented_live st w p size Hi) Hrep) as Hl. pose proof (live_range st w p size Hi Hl) as [Hp _].
  destruct (step_refines HP top Hmap n st w e st1 Hs ltac:(lia) Hst) as [Hal (w1 & Hs1 & _)].
  destruct (execution_behaves HP top Hmap tr (n + 1) st1 w1 st2 Hs1 ltac:(lia) Hex) as (Hbe & w2 & Hs2 & _).
  assert (Hnone : represented p st2 = None).
  { apply (gone_stays _ _ _ p Hbe Hno). by apply (ends_gone _ _ _ p size ltac:(lia) He Hal). }
  assert (Hrel : ~ releasable st2 p) by (intros [?|[?|[? _]]]; [lia|done|congruence]). split.
  - destruct (free_answers (n + 1 + Z.of_nat (length tr)) st2 w2 self p Hs2 ltac:(lia) ltac:(lia)) as [(st' & _ & ?)|(why & E & _)];
      [done|by exists why].
  - intros newSize Hsz.
    destruct (realloc_answers (n + 1 + Z.of_nat (length tr)) st2 w2 self p newSize Hs2 ltac:(lia) ltac:(lia) Hsz)
      as [(b & st' & _ & ?)|(why & E & _)]; [done|by exists why].
Qed.

(** ** What a guard finds *)

Lemma arena_block st w p size :
  alloc_inv st w -> live_block st w p size -> inArena (al_heap st) p = true ->
  exists r s, 0 <= r < h_regions (al_heap st) /\ 0 <= s /\ w r s = Live /\ p = slotStart (al_heap st) r s
    /\ size = weavecRtWordValue (al_words st r s) /\ slotOf (al_heap st) p = mkSlot r s p.
Proof.
  intros Hi [(r & s & Hr & Hs0 & Hl & -> & ->)|Hhu] Ha; [|by rewrite (live_outside_arena st w p size Hi Hhu) in Ha].
  exists r, s. destruct (slotOf_start st w r s (proj1 (proj1 Hi)) Hr Hs0) as [_ Href]; [by rewrite Hl|]. split_and!; (done || lia).
Qed.

(** C17: the shadow of a live block of the arena: its bytes pass a guard, unless
    they are in the last 16 bytes of a region; the bytes behind it, to the end
    of its slot or for 64 KiB, do not. *)
Theorem live_checked n st p size a :
  reachable n st -> represented p st = Some size -> inArena (al_heap st) p = true ->
  let r := ref_region (slotOf (al_heap st) p) in
  p <= a < p + slotBytesOf st r ->
  (a < p + size -> a < regionStart (al_heap st) (r + 1) - 16 -> addressable (al_shadow st) a = true)
  /\ (p + size <= a < p + up_16 size + TailLimit -> addressable (al_shadow st) a = false).
Proof.
  intros Hr Hrep Ha r Hpa. destruct (reachable_sound n st Hr) as (_ & _ & w & Hi & _).
  apply (represented_live st w) in Hrep; [|done].
  destruct (arena_block st w p size Hi Hrep Ha) as (r' & s & Hr0 & Hs0 & Hl & E & Esz & Href).
  subst r. rewrite Href in *. cbn [ref_region] in *. unfold slotBytesOf in Hpa.
  pose proof (regions_range _ _ (proj1 (proj1 Hi))) as [_ H160]. destruct Hi as ((Hs & Hb) & _).
  assert (Hin : in_slot (al_heap st) r' s a) by (unfold in_slot; lia).
  split; intros H1.
  - intros H2. apply (bs_live _ _ _ _ _ _ Hb r' s); (done || lia).
  - rewrite Esz in H1. apply (bs_tail _ _ _ _ _ _ Hb r' s); (done || lia).
Qed.

(** C28: the bytes of a new block are the program's: each passes a guard and is
    zero, for blocks of the arena and blocks mapped on their own alike. *)
Theorem alloc_checked n st self size alignment block st' :
  reachable n st -> 0 <= size < 2 ^ 64 -> 0 <= alignment < 2 ^ 64 ->
  __weavec_rt_alloc self size alignment st = Some (Done block st') -> block <> 0 ->
  represented block st' = Some size
  /\ forall a, block <= a < block + size -> addressable (al_shadow st') a = true /\ al_mem st' a = 0.
Proof.
  intros Hr Hsz Hal E Hne. destruct (reachable_sound n st Hr) as (_ & _ & w & Hi & Hid & Htop & _).
  destruct (idle_alloc HP top self st w size alignment Hmap Hi Htop Hsz Hal (Hid self)) as (b & st1 & w' & E' & Hi' & Hsv & _).
  rewrite E in E'. injection E' as <- <-. destruct Hsv as [[-> _]|(_ & Hm & _)]; [done|]. split.
  - apply (represented_live st' w'); [done|]. apply (md_live _ _ _ _ _ _ Hm). by left.
  - intros a Ha. destruct (md_bytes _ _ _ _ _ _ Hm a Ha) as [-> ->]. done.
Qed.

(** A report names the live block an address lies in, with its start and
    size, and what it calls a live block is one. *)
Theorem object_exact n st a :
  reachable n st -> 0 <= a < 2 ^ 64 ->
  (forall p size, represented p st = Some size -> p <= a < p + Z.max size 1 ->
     Allocator.weavecRtHeapObjectAt a st = mkHeapObject true true p size)
  /\ (let o := Allocator.weavecRtHeapObjectAt a st in
      ho_live o = true -> represented (Report.ho_base o) st = Some (ho_size o) /\ (inArena (al_heap st) a = true -> Report.ho_base o <= a)).
Proof.
  intros Hr Ha. destruct (reachable_sound n st Hr) as (_ & _ & w & Hi & _). pose proof Hi as (Hh & _ & Ht & Hok).
  pose proof (proj1 Hh) as Hs. pose proof (so_heap _ _ _ _ _ _ _ Hs) as Hhp. pose proof (regions_range _ _ Hs) as [_ H160].
  assert (Hword : forall r s, 0 <= r < 160 -> 0 <= s -> wordState (al_words st r s) = WeavecRtLive <-> w r s = Live).
  { intros r s Hr0 Hs0. destruct (capacity_of _ Hhp r Hr0) as (_ & Hz & _). eapply live_word; [|exact Hz].
    by apply (ro_words _ _ _ _ _ (so_region _ _ _ _ _ _ _ Hs r Hr0)). }
  unfold Allocator.weavecRtHeapObjectAt. split.
  - intros p size Hrep Hpa. apply (represented_live st w) in Hrep; [|done].
    destruct Hrep as [(r & s & Hr0 & Hs0 & Hl & -> & ->)|(b & Hin & Hd & <- & <-)].
    + destruct (slots_bound _ _ _ _ _ _ _ Hs r s ltac:(lia) Hs0) as [Hb1 _]; [by rewrite Hl|].
      destruct (live_size st w r s Hs ltac:(lia) Hs0 Hl) as [_ Hsz].
      destruct (in_slot_look _ Hhp r s a ltac:(lia) ltac:(lia)) as [-> ->]; [unfold in_slot; lia|].
      unfold wordOf. cbn [ref_region ref_slot ref_base]. by rewrite (proj2 (Hword r s ltac:(lia) Hs0) Hl).
    + pose proof (proj1 (list.Forall_forall _ _) Hok b Hin) as [A1 A2 A3 A4 A5].
      assert (Hub : hb_map b <= a < hb_map b + hb_mapBytes b) by (clear - A1 A3 A4 Hpa; euclid).
      assert (Hf : hugeFind (al_huge st) a = Some b).
      { apply hugeFind_some; [done|]. split; [done|]. unfold holds. apply andb_true_iff. split; [apply Z.leb_le|apply Z.ltb_lt]; lia. }
      assert (Hout : inArena (al_heap st) a = false).
      { unfold inArena, sub64, wrap64. apply Z.ltb_ge. destruct (arena_bounds _ Hhp 0 ltac:(lia)) as (H3 & _).
        pose proof (ho_room _ Hhp) as Hro. pose proof (ho_base _ Hhp) as [Hb0 _]. unfold apart in A5. clear - A1 A5 Hub Hro Hb0 H3 Ha. euclid. }
      by rewrite Hout, Hf, Hd.
  - destruct (inArena (al_heap st) a) eqn:Hin.
    + destruct (slotOf_within _ Hhp a Hin Ha) as (Hr0 & Hba & _ & Hs0 & _). set (ref := slotOf (al_heap st) a) in *.
      cbn [ho_live Report.ho_base ho_size]. intros Hl. rewrite Hl. apply Z.eqb_eq in Hl. split; [|by intros _].
      apply (represented_live st w); [done|]. left. exists (ref_region ref), (ref_slot ref).
      assert (Hs1 : 0 <= ref_slot ref) by lia. assert (Hlv : w (ref_region ref) (ref_slot ref) = Live) by (apply Hword; done).
      split_and!; try done; [lia|].
      destruct (Z.lt_ge_cases (ref_region ref) (h_regions (al_heap st))) as [|Hge]; [done|exfalso].
      pose proof (spare_region st w _ Hs ltac:(split; [exact Hge|apply Hr0])) as Hb0.
      assert (E : w (ref_region ref) (ref_slot ref) = Fresh)
        by (apply (ro_fresh _ _ _ _ _ (so_region _ _ _ _ _ _ _ Hs _ Hr0)); lia).
      congruence.
    + destruct (hugeFind (al_huge st) a) as [b|] eqn:Ef; [|done]. cbn [ho_live Report.ho_base ho_size]. intros Hd.
      apply hugeFind_some in Ef as [Hb Hho]; [|done]. split.
      * apply (represented_live st w); [done|]. right. exists b. split_and!; try done. by apply Z.eqb_eq.
      * congruence.
Qed.

(** ** The sweep *)

(** The words a sweep that starts in [st] finds: its roots and the aligned
    words of the live blocks. *)
Definition scanned_word (st : alloc) (v : Z) : Prop :=
  v ∈ sys_roots (al_tick st)
  \/ exists p n i, represented p st = Some n /\ 0 <= i /\ 8 * i + 8 <= n /\ v = load_le (al_mem st) (p + 8 * i) 8.

Lemma scanned_word_iff st w v :
  alloc_inv st w -> scanned_word st v <-> v ∈ sys_roots (al_tick st) \/ heap_word st w v.
Proof.
  intros Hi. unfold scanned_word, heap_word. split; (intros [?|H]; [by left|right]).
  - destruct H as (p & n & i & Hp & Hi0 & Hn & ->). apply (represented_live st w) in Hp; [|done].
    destruct Hp as [(r & s & Hr & Hs & Hl & -> & ->)|(b & Hb & Hd & <- & <-)]; [left; by exists r, s, i|right; by exists b, i].
  - destruct H as [(r & s & i & Hr & Hs & Hl & Hi0 & Hn & ->)|(b & i & Hb & Hd & Hi0 & Hn & ->)].
    + exists (slotStart (al_heap st) r s), (weavecRtWordValue (al_words st r s)), i. split_and!; try done.
      apply (represented_live st w); [done|]. left. by exists r, s.
    + exists (hb_base b), (hb_size b), i. split_and!; try done. apply (represented_live st w); [done|]. right. by exists b.
Qed.

(** C8: a sweep recycles no block something points into: a quarantined slot with a
    word found by the sweep that points into it stays in the quarantine. *)
Theorem sweep_keeps_referenced n st self st1 r s v :
  reachable n st -> sweepStart self st = Some st1 -> 0 <= r < h_regions (al_heap st) -> quarantined st1 r s ->
  scanned_word st1 v -> in_slot (al_heap st1) r s v ->
  quarantined (weavecRtSweep self st) r s /\ ~ free_listed (weavecRtSweep self st) r s.
Proof.
  intros Hr Hst Hr0 Hq Hv Hin. destruct (reachable_sound n st Hr) as (_ & _ & w & Hi & _).
  destruct (sweep_decides HP self st st1 w r s Hi Hst Hr0 Hq) as (w1 & Hi1 & Hs0 & Hw & _ & Hno). apply Hno.
  intros (Hr1 & _ & _ & _ & Hun). apply (scanned_word_iff st1 w1 v Hi1) in Hv.
  pose proof (regions_range _ _ (proj1 (proj1 Hi1))) as [_ H160].
  by apply (unmarked_unreferenced st1 w1 r s Hi1 ltac:(lia) Hs0 Hw Hun v Hv).
Qed.

(** C26: a completed sweep recycles every quarantined slot no word it finds
    points into, a root or an aligned word of a live block: the slot is free
    again when the sweep ends.  Memory is of bytes and a root a word of 64
    bits; that no mark of an earlier sweep is left is part of the claim. *)
Theorem sweep_recycles n st self st1 r s :
  reachable n st -> sweepStart self st = Some st1 -> sys_ok (S (al_tick st1)) = true ->
  bytes_ok (al_mem st1) -> Forall (fun v => 0 <= v < 2 ^ 64) (sys_roots (al_tick st1)) ->
  0 <= r < h_regions (al_heap st) -> quarantined st1 r s ->
  (forall v, scanned_word st1 v -> ~ in_slot (al_heap st1) r s v) ->
  free_listed (weavecRtSweep self st) r s.
Proof.
  intros Hr Hst Hok Hm Hroots Hr0 Hq Hno. pose proof (reachable_rest n st Hr) as Hrest. destruct (reachable_sound n st Hr) as (_ & _ & w & Hi & _).
  destruct (sweepStart_spec self st st1 w Hi Hst) as ((wx & _ & Hux) & Hprep & Hh).
  destruct (sweep_decides HP self st st1 w r s Hi Hst Hr0 Hq) as (w1 & Hi1 & Hs0 & Hw & Hyes & _). apply Hyes.
  split; [by rewrite Hh|]. do 3 (split; [done|]).
  apply (unreferenced_unmarked st1 w1); try done; [by apply Hux|by rewrite Hh|].
  intros v Hv. apply Hno. by apply (scanned_word_iff st1 w1).
Qed.

(** ** The caches *)

(** C36: the entries of a thread's cache: at most the class's limit, and never more
    than 32, of either list; each names a slot of a region of its class below
    the region's bump, and no slot is named twice; a slot to hand out has the
    word of a fresh or a free slot, a released one that of a claimed slot. *)
Theorem cache_entries n st self k c :
  reachable n st -> ownCache self st = Some k -> 0 <= c < cachedClasses (al_heap st) ->
  Z.of_nat (length (tc_alloc k c)) <= cacheLimit st c /\ Z.of_nat (length (tc_release k c)) < cacheLimit st c
  /\ cacheLimit st c <= 32
  /\ NoDup (slotKey <$> tc_alloc k c ++ tc_release k c)
  /\ forall e, e ∈ tc_alloc k c ++ tc_release k c -> exists r s u,
       e = slotEntry r s u /\ 0 <= r < h_regions (al_heap st) /\ al_class st r = c /\ 0 <= s < bump (al_region st r)
       /\ (e ∈ tc_alloc k c -> if (u : bool) then wordState (al_words st r s) = WeavecRtFree else al_words st r s = 0)
       /\ (e ∈ tc_release k c -> al_words st r s = claimed).
Proof.
  intros Hr Hk Hc. destruct (reachable_sound n st Hr) as (_ & _ & w & Hi & _). pose proof (proj1 (proj1 Hi)) as Hs.
  destruct (proj1 (proj2 Hi) self k Hk) as [[A R B O] Hroom]. destruct (B c Hc) as [B1 _].
  pose proof (regions_range _ _ Hs) as [_ H160]. pose proof (cachedClasses_spec _ _ Hs) as [Hcc _].
  pose proof (cacheLimit_bounds st w c Hs ltac:(lia)) as Hlim.
  assert (Hslot : forall r s, 0 <= r < 160 -> 0 <= s -> w r s <> Fresh -> s < bump (al_region st r))
    by (intros r s Hr0 Hs0 Hw; by apply (slots_bound _ _ _ _ _ _ _ Hs r s)).
  assert (Hword : forall r s, 0 <= r < 160 -> 0 <= s -> word_ok (c_size (entryOf (al_heap st) r)) (al_words st r s) (w r s))
    by (intros r s Hr0 Hs0; by apply (ro_words _ _ _ _ _ (so_region _ _ _ _ _ _ _ Hs r Hr0))).
  split_and!; [done|by apply Hroom|apply Hlim| |].
  - rewrite fmap_app. apply list.NoDup_app. split_and!; [apply A| |apply R].
    intros x Hx Hx'. apply list_elem_of_fmap in Hx as (e & -> & He). apply list_elem_of_fmap in Hx' as (e' & E & He').
    destruct (own_slots _ _ _ _ _ (A c) e He) as (r & s & u & -> & [Hr0 _] & Hs0 & _ & Hw).
    destruct (own_slots _ _ _ _ _ (R c) e' He') as (r' & s' & u' & -> & [Hr0' _] & Hs0' & _ & Hw').
    rewrite !slotKey_entry in E by lia. injection E as -> ->. congruence.
  - intros e [He|He]%list.elem_of_app.
    + destruct (own_slots _ _ _ _ _ (A c) e He) as (r & s & u & -> & [Hr0 _] & Hs0 & Hcl & Hw).
      pose proof (Hword r s ltac:(lia) ltac:(lia)) as Hwd. rewrite Hw in Hwd. cbn in Hwd.
      exists r, s, u. split_and!; try (done || lia); [apply Hslot; [lia|lia|by rewrite Hw]| |].
      * intros _. destruct u; [|done]. destruct Hwd as (v & Hv & ->). by apply makeWord_state.
      * intros He'. destruct (own_slots _ _ _ _ _ (R c) _ He') as (r' & s' & u' & E & [Hr0' _] & Hs0' & _ & Hw').
        apply slotEntry_inj in E as (-> & -> & _); [|lia..]. congruence.
    + destruct (own_slots _ _ _ _ _ (R c) e He) as (r & s & u & -> & [Hr0 _] & Hs0 & Hcl & Hw).
      pose proof (Hword r s ltac:(lia) ltac:(lia)) as Hwd. rewrite Hw in Hwd. cbn in Hwd.
      exists r, s, u. split_and!; try (done || lia); [apply Hslot; [lia|lia|by rewrite Hw]|].
      intros He'. destruct (own_slots _ _ _ _ _ (A c) _ He') as (r' & s' & u' & E & [Hr0' _] & Hs0' & _ & Hw').
      apply slotEntry_inj in E as (-> & -> & _); [|lia..]. congruence.
Qed.

(** ** Taking slots *)

(** Taking slots of a class always ends, with at most those asked for: each a
    slot of a region of the class that was free or never handed out, no two
    the same, and no live block is touched. *)
Theorem popClass_ends n st self c want :
  reachable n st -> 0 <= c < h_classes (al_heap st) ->
  exists l st', popClass (weavecRtSweep self) c want st = (Some l, st')
    /\ (length l <= want)%nat /\ NoDup (slotKey <$> l)
    /\ (forall e, e ∈ l -> exists r s u, e = slotEntry r s u /\ 0 <= r < h_regions (al_heap st') /\ 0 <= s < bump (al_region st' r)
          /\ al_class st' r = c
          /\ if (u : bool) then wordState (al_words st' r s) = WeavecRtFree else al_words st' r s = 0)
    /\ same_heap (heapOf st) (heapOf st').
Proof.
  intros Hr Hc. destruct (reachable_sound n st Hr) as (_ & _ & w & Hi & _).
  destruct (alloc_popClass HP (weavecRtSweep self) (sweep_ok HP self) want c st w Hi Hc) as (l & st' & w' & E & Hi' & Hu & Ho & Hl).
  exists l, st'. split; [done|]. split; [done|]. split; [apply Ho|].
  pose proof (proj1 (proj1 Hi')) as Hs. pose proof (regions_range _ _ Hs) as [_ H160]. split.
  - intros e He. destruct (own_slots _ _ _ _ _ Ho e He) as (r & s & u & -> & [Hr0 _] & Hs0 & Hcl & Hw).
    pose proof (ro_words _ _ _ _ _ (so_region _ _ _ _ _ _ _ Hs r ltac:(lia)) s ltac:(lia)) as Hwd. rewrite Hw in Hwd. cbn in Hwd.
    destruct (slots_bound _ _ _ _ _ _ _ Hs r s ltac:(lia) ltac:(lia)) as [Hb _]; [by rewrite Hw|].
    exists r, s, u. split_and!; try (done || lia). destruct u; [|done]. destruct Hwd as (v & Hv & ->). by apply makeWord_state.
  - apply (kept_heap st w st' w'); [done|done|]. apply unseen_same; [apply Hi|apply Hi'|done].
Qed.

(** The search of the blocks mapped on their own answers the one whose mapping
    an address is in, if there is one. *)
Theorem hugeFind_exact n st a b :
  reachable n st ->
  hugeFind (al_huge st) a = Some b
  <-> b ∈ ht_blocks (al_huge st) /\ hb_map b <= a < hb_map b + hb_mapBytes b.
Proof.
  intros Hr. destruct (reachable_sound n st Hr) as (_ & _ & w & (_ & _ & Ht & _) & _). rewrite hugeFind_some by done.
  unfold holds. rewrite andb_true_iff, Z.leb_le, Z.ltb_lt. done.
Qed.

(** ** Calls inside calls *)

(** A release made while the thread is inside the allocator and holds one of
    its locks (a signal handler's) waits: it joins the thread's list, or is
    dropped when 16 wait already; nothing else changes and no lock is taken. *)
Theorem nested_release_waits self st p :
  p <> 0 -> busy self st = true ->
  exists k, ownCache self st = Some k
    /\ __weavec_rt_free self p st
       = Some (Done tt (if Z.of_nat (length (tc_deferred k)) <? 16
                        then set_cache st self (tc_with_deferred k (tc_deferred k ++ [p])) else st))
    /\ __weavec_rt_alloc self p 0 st = Some (Done 0 st).
Proof.
  intros Hp Hb. destruct (__weavec_rt_free_busy self st p Hp Hb) as (k & H1 & H2). exists k. split; [done|]. split; [done|].
  unfold __weavec_rt_alloc. by rewrite Hb.
Qed.

(** The releases that waited are made when the thread's outermost call ends,
    the last first and each once, unless one of them stops the program; then
    nothing waits, and the fuel is never used up. *)
Theorem waiting_releases_made self st w p :
  alloc_inv st w -> 0 < p < 2 ^ 64 -> addresses (deferred self st) -> room_for (S (length (deferred self st))) st ->
  outermost self st = true -> busy self st = false ->
  match __weavec_rt_free self p st with
  | None => False
  | Some (Done _ st') => (exists w', alloc_inv st' w' /\ runs st w (p :: rev (deferred self st)) st' w') /\ deferred self st' = []
  | Some (Fatal a why) => stops st w (p :: rev (deferred self st)) a why
  end.
Proof.
  intros Hi Hp Ha Hroom Hout Hb. pose proof (__weavec_rt_free_spec HP self st w p Hi ltac:(lia) Ha Hroom Hb) as H. cbv zeta in H.
  rewrite (proj2 (Z.eqb_neq p 0) ltac:(lia)), Hout in H. destruct (__weavec_rt_free self p st) as [[u st'|a why]|]; [|done|done].
  destruct H as (w' & Hi' & Hr & _ & _ & Hd). split; [by exists w'|].
  unfold outermost in Hout. destruct (calls st self) as [[[d l] def]|]; [|done]. apply Z.eqb_eq in Hout as ->.
  by apply (deferred_calls self st' 0 l []).
Qed.
End Promises.
