(* ===== verification/Frames.v ===== *)
(** * Frames

    [lib/Frontend/GuardFrames.cpp]: where a function's tracked locals lie in
    the frame the pass builds ([place]), their colors, the frame's shadow at
    entry and the shadow a scope's markers write, as runs of granules
    ([ShadowRuns] of [GuardPassImpl.h]); and [writeShadow] of [GuardPass.cpp],
    the stores, fills and runtime calls that write runs.

    An alloca is the record [FrameObject]: its size, its alignment and its
    lifetime markers, numbered.  What LLVM answers is an argument: whether two
    allocas' live ranges overlap ([overlaps], StackLifetime) and the hash of
    the function's name. *)

From stdpp Require Import sorting.
From S2P Require Import Prelude Shadow Report Guard GuardEntry.
Local Open Scope Z_scope.

(** ** Runs *)

Record ShadowRun := mkRun { count : Z; value : Z }.

(** [appendRun], the runs in order. *)
Fixpoint appendRun (runs : list ShadowRun) (n v : Z) : list ShadowRun :=
  if n =? 0 then runs
  else
    match runs with
    | [] => [mkRun n v]
    | [r] => if value r =? v then [mkRun (count r + n) v] else [r; mkRun n v]
    | r :: rest => r :: appendRun rest n v
    end.

(** The shadow values of runs, a granule each. *)
Definition expand (runs : list ShadowRun) : list Z :=
  concat (map (fun r => replicate (Z.to_nat (count r)) (value r)) runs).

(** ** Objects *)

Definition FrameAlign : Z := 32.
Definition LeftZone : Z := 64.
Definition ShareAbove : Z := 512.

Record FrameObject := mkObject {
  o_alloca : nat;
  o_align : Z;
  o_size : Z;
  o_offset : Z;
  o_color : Z;
  o_starts : list nat;
  o_ends : list nat
}.

Definition set_offset (o : FrameObject) (offset : Z) : FrameObject :=
  mkObject (o_alloca o) (o_align o) (o_size o) offset (o_color o) (o_starts o) (o_ends o).
Definition set_color (o : FrameObject) (color : Z) : FrameObject :=
  mkObject (o_alloca o) (o_align o) (o_size o) (o_offset o) color (o_starts o) (o_ends o).

(** An alloca the pass tracks, of [size] bytes. *)
Definition frameObject (alloca : nat) (align size : Z) (starts ends : list nat) : FrameObject :=
  mkObject alloca align (Z.max size 1) 0 0 starts ends.

Definition paddedSize (size : Z) : Z :=
  let zone := Z.max 32 (Z.min (size / 8) 4096) in
  Z.ldiff (add64 (add64 size zone) 31) 31.

Definition partialOf (color bytes : Z) : Z :=
  Z.lor (Z.lor 0x80 (Z.shiftl (Z.land color 7) 4)) bytes mod 256.

Definition objectRuns (size color : Z) : list ShadowRun :=
  let runs := appendRun [] (size / 16) color in
  if negb (size mod 16 =? 0) then appendRun runs 1 (partialOf color (size mod 16)) else runs.

Definition granules (size : Z) : Z := (size + 15) / 16.

(** An object without lifetime markers is in scope
    throughout. *)
Definition inScope (o : FrameObject) : bool := match o_starts o with [] => true | _ => false end.

Definition extentEnd (o : FrameObject) : Z := o_offset o + paddedSize (o_size o).

(** [(x + align - 1) & ~(align - 1)]. *)
Definition alignUp (x align : Z) : Z := Z.ldiff (x + align - 1) (align - 1).

Section Layout.
Context (overlaps : nat -> nat -> bool).

Definition together (scoped : bool) (a b : FrameObject) : bool :=
  negb scoped || inScope a || inScope b || overlaps (o_alloca a) (o_alloca b).

(** One turn of the clash loop over the objects placed: where the object moves
    to, and whether it moved. *)
Fixpoint clashTurn (scoped : bool) (placed : list FrameObject) (o : FrameObject)
    (align extent offset : Z) (clash : bool) : Z * bool :=
  match placed with
  | [] => (offset, clash)
  | p :: rest =>
    if (offset <? extentEnd p) && (o_offset p <? offset + extent) && together scoped p o then
      clashTurn scoped rest o align extent (alignUp (extentEnd p) align) true
    else clashTurn scoped rest o align extent offset clash
  end.

Fixpoint settleOffset (fuel : nat) (scoped : bool) (placed : list FrameObject) (o : FrameObject)
    (align extent offset : Z) : Z :=
  match fuel with
  | O => offset
  | S fuel' =>
    let '(offset, clash) := clashTurn scoped placed o align extent offset false in
    if clash then settleOffset fuel' scoped placed o align extent offset else offset
  end.

(** The objects placed, in order, and the frame's size. *)
Fixpoint placeFrom (scoped : bool) (placed rest : list FrameObject) (size : Z)
    : list FrameObject * Z :=
  match rest with
  | [] => (placed, size)
  | o :: rest =>
    let align := Z.max FrameAlign (o_align o) in
    let extent := paddedSize (o_size o) in
    let offset := settleOffset (S (length placed)) scoped placed o align extent
                               (alignUp LeftZone align) in
    placeFrom scoped (placed ++ [set_offset o offset]) rest (Z.max size (offset + extent))
  end.

Definition place (scoped : bool) (objects : list FrameObject) : list FrameObject * Z :=
  placeFrom scoped [] objects LeftZone.

(** [std::ranges::stable_sort] by alignment, the larger first and equal ones in
    their order. *)
Fixpoint insertObject (o : FrameObject) (l : list FrameObject) : list FrameObject :=
  match l with
  | [] => [o]
  | p :: rest => if o_align o <? o_align p then p :: insertObject o rest else o :: l
  end.

Definition stableSort (l : list FrameObject) : list FrameObject := foldr insertObject [] l.

(** The compiler's copy of the runtime's [weavecRtColor]. *)
Definition colorAt (n : Z) : Z :=
  let m := n mod 111 + 1 in
  Z.lor (Z.shiftl (m / 7) 3) (m mod 7) mod 256.

(** Consecutive colors from the hash of the function's name. *)
Fixpoint colorsFrom (next : Z) (objects : list FrameObject) : list FrameObject :=
  match objects with
  | [] => []
  | o :: rest => set_color o (colorAt next) :: colorsFrom (add64 next 1) rest
  end.

Record Frame := mkFrame { f_objects : list FrameObject; f_size : Z; f_alignment : Z }.

Definition layoutStatic (hash : Z) (allocas : list FrameObject) : Frame :=
  let alignment := foldr (fun o a => Z.max a (o_align o)) FrameAlign allocas in
  let objects := stableSort allocas in
  let '(placed, size) := place false objects in
  let placed := colorsFrom hash placed in
  if (ShareAbove <? size) && existsb (fun o => negb (inScope o)) placed then
    let '(placed, size) := place true placed in
    mkFrame placed size alignment
  else mkFrame placed size alignment.
End Layout.

(** ** The shadow at entry *)

Definition objectsEnd (objects : list FrameObject) : Z :=
  foldr (fun o e => Z.max e (o_offset o + o_size o)) 0 objects.

(** The value granule [g] takes from the objects, in layout order. *)
Fixpoint coverValue (objects : list FrameObject) (g value : Z) : Z :=
  match objects with
  | [] => value
  | o :: rest =>
    let first := o_offset o / 16 in
    if (g <? first) || (first + granules (o_size o) <=? g) then coverValue rest g value
    else
      let own := if g - first <? o_size o / 16 then o_color o
                 else partialOf (o_color o) (o_size o mod 16) in
      if inScope o || (value =? WeavecRtShadowStackMid) then
        coverValue rest g (if inScope o then own else WeavecRtShadowStackScope)
      else coverValue rest g value
  end.

Definition entryValue (objects : list FrameObject) (g : Z) : Z :=
  let value := if g <? LeftZone / 16 then WeavecRtShadowStackLeft else WeavecRtShadowStackMid in
  if granules (objectsEnd objects) <=? g then WeavecRtShadowStackRight
  else coverValue objects g value.

Definition cutsOf (frame : Frame) : list Z :=
  [0; LeftZone / 16; granules (objectsEnd (f_objects frame)); f_size frame / 16]
  ++ concat (map (fun o => [o_offset o / 16; o_offset o / 16 + o_size o / 16;
                            o_offset o / 16 + granules (o_size o)]) (f_objects frame)).

(** [std::ranges::unique] of a sorted list. *)
Fixpoint unique (l : list Z) : list Z :=
  match l with
  | [] => []
  | a :: rest =>
    match unique rest with
    | b :: more => if a =? b then b :: more else a :: b :: more
    | [] => [a]
    end
  end.

Definition sortedCuts (frame : Frame) : list Z := unique (merge_sort Z.le (cutsOf frame)).

(** The stretch from each cut to the next. *)
Fixpoint entryFrom (frame : Frame) (cuts : list Z) (entry : list ShadowRun) : list ShadowRun :=
  match cuts with
  | [] => entry
  | g :: rest =>
    match rest with
    | [] => entry
    | next :: _ =>
      if g <? f_size frame / 16 then
        entryFrom frame rest
          (appendRun entry (Z.min next (f_size frame / 16) - g) (entryValue (f_objects frame) g))
      else entry
    end
  end.

Definition entryRuns (frame : Frame) : list ShadowRun := entryFrom frame (sortedCuts frame) [].

(** ** Scopes and exits *)

(** The redzone shares bytes with another object's end. *)
Definition sharesRedzone (objects : list FrameObject) (o : FrameObject) : bool :=
  existsb (fun other => negb (o_alloca other =? o_alloca o)%nat
                        && (o_offset other <? extentEnd o)
                        && (o_offset o + o_size o <? o_offset other + o_size other)) objects.

Definition liveRuns (objects : list FrameObject) (o : FrameObject) : list ShadowRun :=
  let live := objectRuns (o_size o) (o_color o) in
  if sharesRedzone objects o
  then appendRun live (paddedSize (o_size o) / 16 - granules (o_size o)) WeavecRtShadowStackMid
  else live.

Definition deadRuns (o : FrameObject) : list ShadowRun :=
  appendRun [] (granules (o_size o)) WeavecRtShadowStackScope.

Definition clearRuns (frame : Frame) : list ShadowRun :=
  appendRun [] (f_size frame / 16) WeavecRtShadowReturned.

(** The padded size of a dynamic object, as the pass computes it. *)
Definition dynamicPadded (bytes : Z) : Z :=
  add64 (Z.land (add64 bytes (FrameAlign - 1)) (wrap64 (Z.lnot (FrameAlign - 1)))) FrameAlign.

(** ** Writing runs *)

(** What [writeShadow] emits, behind its test of the mask: [at_] is the offset
    from the shadow of the pointer. *)
Inductive shadow_op :=
  | Store (at_ : Z) (width : nat) (word : Z)
  | MemSet (at_ n v : Z)
  | FrameShadow (at_ n v : Z).

Definition MemsetRun : Z := 64.
Definition RuntimeRun : Z := 4096.

(** The word of the bytes [bytes], little-endian. *)
Fixpoint wordOf (bytes : list Z) : Z :=
  match bytes with
  | [] => 0
  | b :: rest => Z.lor b (Z.shiftl (wordOf rest) 8)
  end.

(** The widest store that fits. *)
Definition storeWidth (little : bool) (n : nat) : nat :=
  if little then
    if (8 <=? n)%nat then 8 else if (4 <=? n)%nat then 4 else if (2 <=? n)%nat then 2 else 1
  else 1.

Fixpoint flush (fuel : nat) (little : bool) (pending : list Z) (at_ : Z) : list shadow_op :=
  match fuel, pending with
  | O, _ => []
  | _, [] => []
  | S fuel', _ =>
    let width := storeWidth little (length pending) in
    Store at_ width (wordOf (take width pending))
    :: flush fuel' little (drop width pending) (at_ + Z.of_nat width)
  end.

Definition flushAll (little : bool) (pending : list Z) (at_ : Z) : list shadow_op :=
  flush (length pending) little pending at_.

(** The runs from [at_], the bytes [pending] (of short runs) not yet stored. *)
Fixpoint writeRuns (little : bool) (runs : list ShadowRun) (pending : list Z) (pendingAt at_ : Z)
    : list shadow_op :=
  match runs with
  | [] => flushAll little pending pendingAt
  | r :: rest =>
    if count r <? MemsetRun then
      writeRuns little rest (pending ++ replicate (Z.to_nat (count r)) (value r))
                (match pending with [] => at_ | _ => pendingAt end) (at_ + count r)
    else
      flushAll little pending pendingAt
      ++ (if RuntimeRun <=? count r then FrameShadow at_ (count r) (value r)
          else MemSet at_ (count r) (value r))
      :: writeRuns little rest [] pendingAt (at_ + count r)
  end.

Definition writeShadow (little : bool) (runs : list ShadowRun) : list shadow_op :=
  writeRuns little runs [] 0 0.

Section Run.
Context {T : Thread} {P : Pages}.

(** An operation, at the pointer [address]: nothing is written before the
    shadow exists. *)
Definition run_op (address : Z) (op : shadow_op) : G unit :=
  match op with
  | Store at_ width word =>
    on_shadow (fun s => set_byte s (store_le (s_byte s) (weavecRtShadowOf s address + at_) width word))
  | MemSet at_ n v =>
    on_shadow (fun s => set_byte s (memset (s_byte s) (weavecRtShadowOf s address + at_) v n))
  | FrameShadow at_ n v => __weavec_rt_frame_shadow (add64 address (at_ * 16)) (n * 16) v
  end.

Fixpoint run_ops (address : Z) (ops : list shadow_op) : G unit :=
  match ops with
  | [] => mret tt
  | op :: rest => run_op address op;; run_ops address rest
  end.

Definition run_writeShadow (little : bool) (address : Z) (runs : list ShadowRun) : G unit :=
  st ← get;
  if weavecRtShadowReady (gs_shadow st) then run_ops address (writeShadow little runs) else mret tt.
End Run.
