(* ===== verification/FramesFacts.v ===== *)
(** * Frames are laid out apart, and their shadow says so

    Theorems about the file Frames: [place] keeps objects live together apart,
    aligned and with their redzones; the clash loop ends within the turns of
    its fuel; the runs of the frame's shadow at entry are the value of each
    granule, and [writeShadow] writes runs; so at entry exactly the bytes of
    the objects in scope are addressable. *)

From Stdlib Require Import Sorting.Sorted.
From stdpp Require Import sorting list list_numbers.
From S2P Require Import Prelude Shadow Report Guard GuardEntry Frames.
Local Open Scope Z_scope.

(** ** Runs *)

Definition runs_ok (runs : list ShadowRun) : Prop := Forall (fun r => 0 <= count r) runs.

Lemma appendRun_ok runs n v : runs_ok runs -> 0 <= n -> runs_ok (appendRun runs n v).
Proof.
  unfold runs_ok. intros Hr Hn. induction Hr as [|r rest Hc Hr IH]; cbn.
  - case_match; [constructor|]. by repeat constructor.
  - destruct (n =? 0); [by constructor|]. destruct rest as [|r' rest].
    + case_match; repeat constructor; cbn; (lia || done).
    + by constructor.
Qed.

Lemma expand_app a b : expand (a ++ b) = expand a ++ expand b.
Proof. unfold expand. by rewrite map_app, concat_app. Qed.

(** Appending a run appends its granules. *)
Lemma expand_appendRun runs n v :
  runs_ok runs -> 0 <= n ->
  expand (appendRun runs n v) = expand runs ++ replicate (Z.to_nat n) v.
Proof.
  intros Hr Hn. induction Hr as [|r rest Hc Hr IH]; cbn [appendRun].
  - destruct (Z.eqb_spec n 0) as [->|]; [done|]. unfold expand. cbn. by rewrite app_nil_r.
  - destruct (Z.eqb_spec n 0) as [->|Hne]; [by rewrite app_nil_r|].
    destruct rest as [|r' rest].
    + destruct (Z.eqb_spec (value r) v) as [<-|]; unfold expand; cbn; rewrite !app_nil_r; [|done].
      by rewrite Z2Nat.inj_add, replicate_add by lia.
    + change (expand (r :: appendRun (r' :: rest) n v))
        with (replicate (Z.to_nat (count r)) (value r) ++ expand (appendRun (r' :: rest) n v)).
      rewrite IH. change (expand (r :: r' :: rest))
        with (replicate (Z.to_nat (count r)) (value r) ++ expand (r' :: rest)).
      by rewrite app_assoc.
Qed.

(** ** Arithmetic of the layout *)

Definition pow2 (a : Z) : Prop := exists k, 0 <= k /\ a = 2 ^ k.

Lemma pow2_pos a : pow2 a -> 0 < a.
Proof. intros (k & Hk & ->). lia. Qed.

Lemma pow2_max a b : pow2 a -> pow2 b -> pow2 (Z.max a b).
Proof. intros Ha Hb. destruct (Z.max_spec a b) as [[_ ->]|[_ ->]]; done. Qed.

Lemma alignUp_spec x a :
  pow2 a -> x <= alignUp x a /\ alignUp x a < x + a /\ alignUp x a mod a = 0.
Proof.
  intros (k & Hk & ->). unfold alignUp. rewrite Z.ldiff_land, land_lnot_ones by done.
  assert (0 < 2 ^ k) by lia.
  pose proof (Z.div_mod (x + 2 ^ k - 1) (2 ^ k) ltac:(lia)).
  pose proof (Z.mod_pos_bound (x + 2 ^ k - 1) (2 ^ k) ltac:(lia)).
  set (q := (x + 2 ^ k - 1) / 2 ^ k) in *. rewrite Z_mod_mult. nia.
Qed.

Lemma paddedSize_spec size :
  0 <= size < 2 ^ 62 -> size + 32 <= paddedSize size /\ paddedSize size mod 32 = 0
                        /\ paddedSize size < size + 4128.
Proof.
  intros Hs. unfold paddedSize, add64. set (zone := Z.max _ _).
  assert (Hz : 32 <= zone <= 4096) by (subst zone; lia). clearbody zone.
  rewrite (wrap64_small (size + zone)), wrap64_small, Z.ldiff_land by lia.
  change 31 with (2 ^ 5 - 1) at 2 4 6. rewrite land_lnot_ones by lia. change (2 ^ 5) with 32. euclid.
Qed.

(** ** Placing an object *)

Section Placing.
Context (overlaps : nat -> nat -> bool) (scoped : bool).

Definition meets (o : FrameObject) (extent offset : Z) (p : FrameObject) : Prop :=
  offset < extentEnd p /\ o_offset p < offset + extent /\ together overlaps scoped p o = true.

Lemma clashTurn_spec placed o align extent offset clash offset' clash' :
  pow2 align -> offset mod align = 0 ->
  clashTurn overlaps scoped placed o align extent offset clash = (offset', clash') ->
  offset <= offset' /\ offset' mod align = 0
  /\ (clash' = false -> clash = false /\ offset' = offset /\ forall p, p ∈ placed -> ~ meets o extent offset p)
  /\ (clash' = true -> clash = true \/ exists p, p ∈ placed /\ offset < extentEnd p <= offset').
Proof.
  intros Ha. revert offset clash. induction placed as [|p rest IH]; intros offset clash Hm; cbn [clashTurn].
  { intros [= <- <-]. split_and!; [lia|done| |by left]. intros ->. split_and!; [done|done|].
    intros p Hp. by apply elem_of_nil in Hp. }
  destruct ((offset <? extentEnd p) && (o_offset p <? offset + extent) && together overlaps scoped p o)
    eqn:E; intros Hc.
  - bool_hyps. destruct (alignUp_spec (extentEnd p) align Ha) as (G1 & G2 & G3).
    destruct (IH _ true G3 Hc) as (Hle & Hm' & Hf & Ht).
    split_and!; [lia|done|intros Hcf; by destruct (Hf Hcf)|]. intros _. right. exists p.
    split; [left|lia].
  - destruct (IH _ clash Hm Hc) as (Hle & Hm' & Hf & Ht). split_and!; [done|done| |].
    + intros Hcf. destruct (Hf Hcf) as (-> & -> & Hno). split_and!; [done|done|].
      intros q Hq. apply elem_of_cons in Hq as [->|Hq]; [|by apply Hno].
      intros (G1 & G2 & G3). rewrite (proj2 (Z.ltb_lt _ _) G1), (proj2 (Z.ltb_lt _ _) G2), G3 in E. done.
    + intros Hct. destruct (Ht Hct) as [|(q & Hq & ?)]; [by left|]. right. exists q.
      split; [by right|done].
Qed.

(** The objects an offset has not passed. *)
Definition ahead (placed : list FrameObject) (offset : Z) : nat :=
  length (filter (fun p => offset < extentEnd p) placed).

Lemma ahead_mono placed a b : a <= b -> (ahead placed b <= ahead placed a)%nat.
Proof.
  intros Hab. unfold ahead. induction placed as [|p rest IH]; [done|]. rewrite !filter_cons.
  repeat case_decide; cbn [length]; lia.
Qed.

Lemma ahead_decr placed a b p :
  p ∈ placed -> a < extentEnd p <= b -> (ahead placed b < ahead placed a)%nat.
Proof.
  intros Hp Hab. unfold ahead. induction placed as [|q rest IH]; [by apply elem_of_nil in Hp|].
  pose proof (ahead_mono rest a b ltac:(lia)) as Hm. unfold ahead in Hm. rewrite !filter_cons.
  apply elem_of_cons in Hp as [->|Hp].
  - rewrite decide_False, decide_True by lia. cbn [length]. lia.
  - specialize (IH Hp). repeat case_decide; cbn [length]; lia.
Qed.

(** The clash loop ends: each turn that moves the object passes an object. *)
Lemma settleOffset_spec fuel placed o align extent offset :
  pow2 align -> offset mod align = 0 -> (ahead placed offset < fuel)%nat ->
  let offset' := settleOffset overlaps fuel scoped placed o align extent offset in
  offset <= offset' /\ offset' mod align = 0 /\ forall p, p ∈ placed -> ~ meets o extent offset' p.
Proof.
  intros Ha. revert offset. induction fuel as [|fuel IH]; intros offset Hm Hf; [lia|]. cbn [settleOffset].
  destruct (clashTurn _ _ _ _ _ _ offset false) as [offset' clash] eqn:E.
  destruct (clashTurn_spec _ _ _ _ _ _ _ _ Ha Hm E) as (Hle & Hm' & Hc & Ht).
  destruct clash.
  - destruct (Ht eq_refl) as [|(p & Hp & Hr)]; [done|].
    pose proof (ahead_decr placed offset offset' p Hp Hr) as Hd.
    destruct (IH offset' Hm' ltac:(lia)) as (G1 & G2 & G3). split_and!; [lia|done|done].
  - destruct (Hc eq_refl) as (_ & -> & Hno). done.
Qed.

Lemma ahead_length placed offset : (ahead placed offset <= length placed)%nat.
Proof. apply length_filter. Qed.

(** ** The whole frame *)

(** Two extents share no byte. *)
Definition extents_apart (a b : FrameObject) : Prop :=
  extentEnd a <= o_offset b \/ extentEnd b <= o_offset a.

Definition object_ok (o : FrameObject) : Prop := pow2 (o_align o) /\ 1 <= o_size o < 2 ^ 61.

Definition placed_ok (size : Z) (o : FrameObject) : Prop :=
  LeftZone <= o_offset o /\ o_offset o mod Z.max FrameAlign (o_align o) = 0 /\ extentEnd o <= size.

(** Any two objects live together are apart. *)
Definition all_apart (l : list FrameObject) : Prop :=
  forall i j a b, l !! i = Some a -> l !! j = Some b -> (i < j)%nat ->
    together overlaps scoped a b = true -> extents_apart a b.

Definition same_object (a b : FrameObject) : Prop := set_offset a 0 = set_offset b 0.

Lemma all_apart_snoc l o :
  all_apart l -> (forall p, p ∈ l -> together overlaps scoped p o = true -> extents_apart p o) ->
  all_apart (l ++ [o]).
Proof.
  intros Hl Ho i j a b Hi Hj Hij Ht.
  assert (Hb := Hj). apply lookup_app_Some in Hb as [Hb|[Hge Hb]].
  - apply (Hl i j); [|done..]. apply lookup_lt_Some in Hb. by rewrite lookup_app_l in Hi by lia.
  - destruct (j - length l)%nat eqn:Ej; [|done]. cbn in Hb. injection Hb as ->.
    rewrite lookup_app_l in Hi by lia. apply Ho; [|done]. by eapply list_elem_of_lookup_2.
Qed.

Lemma placeFrom_spec rest placed size ps size' :
  placeFrom overlaps scoped placed rest size = (ps, size') ->
  Forall object_ok rest -> all_apart placed -> Forall (placed_ok size) placed -> size mod 32 = 0 ->
  (forall o, o ∈ placed -> object_ok o) ->
  all_apart ps /\ Forall (placed_ok size') ps /\ size <= size' /\ size' mod 32 = 0
  /\ (forall o, o ∈ ps -> object_ok o)
  /\ exists qs, ps = placed ++ qs /\ Forall2 same_object rest qs.
Proof.
  revert placed size. induction rest as [|o rest IH]; intros placed size Hp Hok Hap Hpl Hm Hall.
  { cbn in Hp. injection Hp as <- <-. split_and!; try done. exists []. by rewrite app_nil_r. }
  cbn [placeFrom] in Hp. apply Forall_cons_1 in Hok as [[Hal Hsz] Hok].
  assert (Ha : pow2 (Z.max FrameAlign (o_align o))) by (apply pow2_max; [by exists 5|done]).
  set (align := Z.max FrameAlign (o_align o)) in *.
  destruct (alignUp_spec LeftZone align Ha) as (G1 & _ & G2).
  destruct (settleOffset_spec (S (length placed)) placed o align (paddedSize (o_size o))
              (alignUp LeftZone align) Ha G2) as (H1 & H2 & H3);
    [pose proof (ahead_length placed (alignUp LeftZone align)); lia|].
  set (offset := settleOffset _ _ _ _ _ _ _ _) in *.
  destruct (paddedSize_spec (o_size o) ltac:(lia)) as (Hp1 & Hp2 & _).
  assert (H32 : offset mod 32 = 0).
  { destruct Hal as (k & Hk & Hk'). subst align. rewrite Hk' in H2. clearbody offset.
    destruct (Z.max_spec FrameAlign (2 ^ k)) as [[Hlt He]|[Hlt He]]; rewrite He in H2; [|done].
    apply Z.mod_divide; [lia|]. apply Z.divide_trans with (2 ^ k); [|apply Z.mod_divide; [lia|done]].
    exists (2 ^ (k - 5)). change 32 with (2 ^ 5).
    assert (5 < k) by (apply (Z.pow_lt_mono_r_iff 2); [lia|lia|done]).
    rewrite <- Z.pow_add_r by lia. f_equal. lia. }
  assert (A1 : all_apart (placed ++ [set_offset o offset])).
  { apply all_apart_snoc; [done|]. intros p Hin Ht. specialize (H3 p Hin). unfold meets in H3.
    unfold extents_apart. change (extentEnd (set_offset o offset)) with (offset + paddedSize (o_size o)).
    change (o_offset (set_offset o offset)) with offset.
    change (together overlaps scoped p (set_offset o offset)) with (together overlaps scoped p o) in Ht.
    destruct (Z.lt_ge_cases offset (extentEnd p)); [|by left].
    destruct (Z.lt_ge_cases (o_offset p) (offset + paddedSize (o_size o))); [|by right].
    exfalso. by apply H3. }
  assert (A2 : Forall (placed_ok (Z.max size (offset + paddedSize (o_size o))))
                      (placed ++ [set_offset o offset])).
  { apply Forall_app. split.
    - eapply Forall_impl; [|exact Hpl]. intros p (? & ? & ?). split_and!; (done || lia).
    - constructor; [|constructor]. split_and!; [change (LeftZone <= offset); lia|exact H2|].
      change (extentEnd (set_offset o offset)) with (offset + paddedSize (o_size o)). lia. }
  assert (A3 : Z.max size (offset + paddedSize (o_size o)) mod 32 = 0).
  { destruct (Z.max_spec size (offset + paddedSize (o_size o))) as [[_ ->]|[_ ->]]; [|done].
    clearbody offset. generalize dependent (paddedSize (o_size o)). intros ps' **. euclid. }
  assert (A4 : forall p, p ∈ placed ++ [set_offset o offset] -> object_ok p).
  { intros p Hin. apply elem_of_app in Hin as [Hin|Hin]; [by apply Hall|].
    apply list_elem_of_singleton in Hin as ->. by split. }
  destruct (IH _ _ Hp Hok A1 A2 A3 A4) as (Hr1 & Hr2 & Hr3 & Hr4 & Hr5 & qs & -> & Hq).
  split_and!; try done; [lia|].
  exists (set_offset o offset :: qs). split; [by rewrite <- app_assoc|]. by constructor.
Qed.
End Placing.

(** ** [layoutStatic] *)

Lemma insertObject_Permutation o l : insertObject o l ≡ₚ o :: l.
Proof.
  induction l as [|p l IH]; [done|]. cbn. destruct (_ <? _); [|done]. rewrite IH. apply Permutation_swap.
Qed.

Lemma stableSort_Permutation l : stableSort l ≡ₚ l.
Proof. induction l as [|o l IH]; [done|]. cbn. by rewrite insertObject_Permutation, IH. Qed.

Section Layout.
Context (overlaps : nat -> nat -> bool).

(** What the layout of a frame promises. *)
Record frame_ok (scoped : bool) (frame : Frame) : Prop := {
  fo_apart : all_apart overlaps scoped (f_objects frame);
  fo_placed : Forall (placed_ok (f_size frame)) (f_objects frame);
  fo_size : LeftZone <= f_size frame /\ f_size frame mod 32 = 0;
  fo_objects : Forall object_ok (f_objects frame)
}.

Lemma same_object_refl o : same_object o o.
Proof. done. Qed.

Lemma colorsFrom_apart scoped next l :
  all_apart overlaps scoped l -> all_apart overlaps scoped (colorsFrom next l).
Proof.
  intros Hl i j a b Ha Hb Hij Ht.
  assert (Hc : forall l next i a, colorsFrom next l !! i = Some a ->
    exists a' c, l !! i = Some a' /\ a = set_color a' c).
  { clear. induction l as [|o l IH]; intros next i a; cbn [colorsFrom]; [done|].
    destruct i as [|i]; cbn; [intros [= <-]; eauto|]. apply IH. }
  destruct (Hc _ _ _ _ Ha) as (a' & ca & Ha' & ->). destruct (Hc _ _ _ _ Hb) as (b' & cb & Hb' & ->).
  apply (Hl i j a' b' Ha' Hb' Hij Ht).
Qed.

Lemma colorsFrom_Forall (Q : FrameObject -> Prop) next l :
  (forall o c, Q o -> Q (set_color o c)) -> Forall Q l -> Forall Q (colorsFrom next l).
Proof.
  intros Hq Hl. revert next. induction Hl; intros next; cbn [colorsFrom]; constructor; auto.
Qed.

Lemma place_spec scoped objects ps size :
  place overlaps scoped objects = (ps, size) -> Forall object_ok objects ->
  all_apart overlaps scoped ps /\ Forall (placed_ok size) ps /\ (LeftZone <= size /\ size mod 32 = 0)
  /\ Forall object_ok ps /\ Forall2 same_object objects ps.
Proof.
  intros Hp Hok. destruct (placeFrom_spec overlaps scoped objects [] LeftZone ps size Hp Hok)
    as (H1 & H2 & H3 & H4 & H5 & qs & -> & H6).
  - intros i j a b Hi. by rewrite lookup_nil in Hi.
  - constructor.
  - done.
  - intros o Ho. by apply elem_of_nil in Ho.
  - split_and!; try done. apply list.Forall_forall. intros o Ho. apply H5. done.
Qed.

Lemma layoutStatic_ok hash allocas :
  Forall object_ok allocas -> exists scoped, frame_ok scoped (layoutStatic overlaps hash allocas).
Proof.
  intros Hok. unfold layoutStatic. set (objects := stableSort allocas).
  assert (Ho : Forall object_ok objects).
  { subst objects. by rewrite (stableSort_Permutation allocas). }
  clearbody objects.
  destruct (place overlaps false objects) as [ps size] eqn:E1.
  destruct (place_spec false objects ps size E1 Ho) as (A1 & A2 & A3 & A4 & _).
  assert (C4 : Forall object_ok (colorsFrom hash ps)) by (apply colorsFrom_Forall; [done|done]).
  destruct (_ && _).
  - destruct (place overlaps true (colorsFrom hash ps)) as [ps' size'] eqn:E2.
    destruct (place_spec true _ ps' size' E2 C4) as (B1 & B2 & B3 & B4 & _).
    exists true. by constructor.
  - exists false. constructor; cbn; [by apply colorsFrom_apart| |done|done].
    apply colorsFrom_Forall; [done|done].
Qed.

(** C37: however large the frame and whatever the alignments, two locals whose
    lives overlap (one without lifetime markers lives throughout) share no
    byte, nor any byte of a redzone: each object's extent ends at least 32
    bytes past its last byte. *)
Theorem layout_apart hash allocas i j a b :
  Forall object_ok allocas ->
  let frame := layoutStatic overlaps hash allocas in
  f_objects frame !! i = Some a -> f_objects frame !! j = Some b -> (i < j)%nat ->
  inScope a || inScope b || overlaps (o_alloca a) (o_alloca b) = true ->
  (extentEnd a <= o_offset b \/ extentEnd b <= o_offset a)
  /\ LeftZone <= o_offset a /\ o_offset a + o_size a + 32 <= extentEnd a <= f_size frame.
Proof.
  intros Hok frame Ha Hb Hij Ht. destruct (layoutStatic_ok hash allocas Hok) as [scoped [H1 H2 _ H4]].
  fold frame in H1, H2, H4. split.
  - apply (H1 i j a b Ha Hb Hij). unfold together. rewrite <- !orb_assoc, (orb_assoc (inScope a)), Ht.
    by rewrite orb_true_r.
  - pose proof (proj1 (Forall_lookup _ _) H2 i a Ha) as (K1 & _ & K2).
    pose proof (proj1 (Forall_lookup _ _) H4 i a Ha) as (_ & K3).
    destruct (paddedSize_spec (o_size a) ltac:(lia)) as (K4 & _). unfold extentEnd in *. lia.
Qed.
End Layout.

(** ** The shadow at entry *)

Section Entry.
Context (overlaps : nat -> nat -> bool) (scoped : bool) (frame : Frame)
        (Hframe : frame_ok overlaps scoped frame)
        (Hcolors : Forall (fun o => color_ok (o_color o)) (f_objects frame)).

(** [o] has bytes in granule [g]. *)
Definition covers (g : Z) (o : FrameObject) : Prop :=
  o_offset o / 16 <= g < o_offset o / 16 + granules (o_size o).

#[local] Instance covers_dec g o : Decision (covers g o).
Proof. unfold covers. apply _. Defined.

Lemma coverValue_cons o rest g value :
  coverValue (o :: rest) g value =
  if decide (covers g o) then
    if inScope o || (value =? WeavecRtShadowStackMid) then
      coverValue rest g
        (if inScope o then
           if g - o_offset o / 16 <? o_size o / 16 then o_color o
           else partialOf (o_color o) (o_size o mod 16)
         else WeavecRtShadowStackScope)
    else coverValue rest g value
  else coverValue rest g value.
Proof.
  cbn [coverValue]. unfold covers. case_decide as Hd.
  - rewrite (proj2 (Z.ltb_ge _ _)), (proj2 (Z.leb_gt _ _)) by lia. done.
  - destruct (Z.ltb_spec g (o_offset o / 16)); [done|]. cbn [orb].
    rewrite (proj2 (Z.leb_le _ _)) by lia. done.
Qed.

Lemma coverValue_none l g value : (forall o, o ∈ l -> ~ covers g o) -> coverValue l g value = value.
Proof.
  induction l as [|o l IH]; intros Hn; [done|]. rewrite coverValue_cons, decide_False.
  - apply IH. intros p Hp. apply Hn. by right.
  - apply Hn. left.
Qed.

(** Without an object in scope over it a granule stays poison. *)
Lemma coverValue_poison l g value :
  (forall o, o ∈ l -> covers g o -> inScope o = false) -> weavecRtShadowPoison value = true ->
  weavecRtShadowPoison (coverValue l g value) = true.
Proof.
  revert value. induction l as [|o l IH]; intros value Hn Hv; [done|]. rewrite coverValue_cons.
  assert (Hn' : forall p, p ∈ l -> covers g p -> inScope p = false) by (intros p Hp; apply Hn; by right).
  case_decide as Hc; [|by apply IH]. rewrite (Hn o ltac:(left) Hc). cbn [orb].
  destruct (value =? WeavecRtShadowStackMid); by apply IH.
Qed.

Lemma coverValue_own l1 o l2 g value :
  (forall p, p ∈ l1 -> ~ covers g p) -> (forall p, p ∈ l2 -> ~ covers g p) ->
  covers g o -> inScope o = true ->
  coverValue (l1 ++ o :: l2) g value =
  if g - o_offset o / 16 <? o_size o / 16 then o_color o
  else partialOf (o_color o) (o_size o mod 16).
Proof.
  intros H1 H2 Hc Hs. revert value. induction l1 as [|p l1 IH]; intros value; cbn [app].
  - rewrite coverValue_cons, decide_True, Hs by done. cbn [orb]. by apply coverValue_none.
  - rewrite coverValue_cons, decide_False by (apply H1; left). apply IH.
    intros q Hq. apply H1. by right.
Qed.

Lemma object_facts o : o ∈ f_objects frame ->
  o_offset o mod 16 = 0 /\ LeftZone <= o_offset o /\ 1 <= o_size o < 2 ^ 61
  /\ o_offset o + o_size o + 32 <= extentEnd o <= f_size frame
  /\ 16 * (o_offset o / 16 + granules (o_size o)) <= extentEnd o /\ color_ok (o_color o).
Proof.
  intros Ho. pose proof (proj1 (list.Forall_forall _ _) (fo_placed _ _ _ Hframe) o Ho) as (K1 & K2 & K3).
  pose proof (proj1 (list.Forall_forall _ _) (fo_objects _ _ _ Hframe) o Ho) as (Hal & K4).
  pose proof (proj1 (list.Forall_forall _ _) Hcolors o Ho) as Hc. cbn beta in Hc.
  assert (Ha : (16 | Z.max FrameAlign (o_align o))).
  { destruct Hal as (k & Hk & Hk'). rewrite Hk'. destruct (Z.max_spec FrameAlign (2 ^ k)) as [[Hlt ->]|[_ ->]].
    - exists (2 ^ (k - 4)). change 16 with (2 ^ 4).
      assert (5 < k) by (apply (Z.pow_lt_mono_r_iff 2); [lia|lia|done]).
      rewrite <- Z.pow_add_r by lia. f_equal. lia.
    - by exists 2. }
  assert (H16 : o_offset o mod 16 = 0).
  { apply Z.mod_divide; [lia|]. eapply Z.divide_trans; [exact Ha|].
    apply Z.mod_divide; [|done]. unfold FrameAlign. lia. }
  destruct (paddedSize_spec (o_size o) ltac:(lia)) as (K5 & _).
  split_and!; try done; unfold extentEnd, granules in *; try lia. clear Ha K2.
  generalize dependent (paddedSize (o_size o)). intros ps **. euclid.
Qed.

(** An object in scope shares no granule with another. *)
Lemma scope_alone l1 o l2 g p :
  f_objects frame = l1 ++ o :: l2 -> inScope o = true -> covers g o -> p ∈ l1 \/ p ∈ l2 -> ~ covers g p.
Proof.
  intros Hl Hs Hc Hp Hcp. pose proof (fo_apart _ _ _ Hframe) as Hap. rewrite Hl in Hap.
  assert (Ho : o ∈ f_objects frame) by (rewrite Hl; apply elem_of_app; right; left).
  assert (Hpo : p ∈ f_objects frame).
  { rewrite Hl. apply elem_of_app. destruct Hp; [by left|right; by right]. }
  assert (Hx : extents_apart p o \/ extents_apart o p).
  { destruct Hp as [Hp|Hp]; apply list_elem_of_lookup in Hp as [i Hi].
    - left. apply (Hap i (length l1) p o).
      + by apply lookup_app_l_Some.
      + by rewrite lookup_app_r, Nat.sub_diag by lia.
      + by apply lookup_lt_Some in Hi.
      + unfold together. rewrite Hs. by rewrite !orb_true_r.
    - right. apply (Hap (length l1) (length l1 + S i)%nat o p).
      + by rewrite lookup_app_r, Nat.sub_diag by lia.
      + rewrite lookup_app_r by lia. by replace (length l1 + S i - length l1)%nat with (S i) by lia.
      + lia.
      + unfold together. rewrite Hs. by rewrite !orb_true_r. }
  destruct (object_facts o Ho) as (O1 & _ & _ & O2 & O3 & _).
  destruct (object_facts p Hpo) as (P1 & _ & _ & P2 & P3 & _).
  unfold covers, extents_apart in *. destruct Hx as [[Hx|Hx]|[Hx|Hx]]; euclid.
Qed.

Lemma objectsEnd_ge l o : o ∈ l -> o_offset o + o_size o <= objectsEnd l.
Proof.
  induction l as [|p l IH]; intros Ho; [by apply elem_of_nil in Ho|]. cbn.
  apply elem_of_cons in Ho as [->|Ho]; [lia|]. specialize (IH Ho). unfold objectsEnd in IH. lia.
Qed.

(** A byte of the frame is one of an object in scope. *)
Definition byte_in_scope (b : Z) : Prop :=
  exists o, o ∈ f_objects frame /\ inScope o = true /\ o_offset o <= b < o_offset o + o_size o.

Lemma covers_byte o g off :
  o ∈ f_objects frame -> 0 <= off < 16 -> o_offset o <= 16 * g + off < o_offset o + o_size o -> covers g o.
Proof.
  intros Ho Hoff Hb. destruct (object_facts o Ho) as (O1 & _). unfold covers, granules. euclid.
Qed.

Lemma own_byte_ok o g off :
  o ∈ f_objects frame -> covers g o -> 0 <= off < 16 ->
  byte_ok (if g - o_offset o / 16 <? o_size o / 16 then o_color o
           else partialOf (o_color o) (o_size o mod 16)) off
  = (16 * g + off <? o_offset o + o_size o).
Proof.
  intros Ho Hc Hoff. destruct (object_facts o Ho) as (O1 & _ & O2 & _ & _ & O3).
  unfold covers, granules in Hc. destruct (Z.ltb_spec (g - o_offset o / 16) (o_size o / 16)).
  - rewrite full_byte_ok; [symmetry; apply Z.ltb_lt; euclid|]. apply Z.ltb_lt. destruct O3. lia.
  - change partialOf with weavecRtShadowPartialOf. rewrite partialOf_byte_ok by (done || euclid).
    destruct (Z.ltb_spec off (o_size o mod 16)); symmetry; [apply Z.ltb_lt|apply Z.ltb_ge]; euclid.
Qed.

Lemma entryValue_byte g off :
  0 <= g -> 0 <= off < 16 ->
  byte_ok (entryValue (f_objects frame) g) off = true <-> byte_in_scope (16 * g + off).
Proof.
  intros Hg Hoff. unfold entryValue.
  destruct (Z.leb_spec (granules (objectsEnd (f_objects frame))) g) as [Hend|Hend].
  { rewrite poison_not_ok by done. split; [done|]. intros (o & Ho & _ & Hb).
    pose proof (objectsEnd_ge _ o Ho). unfold granules in Hend. euclid. }
  set (v0 := if g <? LeftZone / 16 then _ else _).
  assert (Hv0 : weavecRtShadowPoison v0 = true) by (subst v0; by destruct (_ <? _)).
  destruct (decide (Exists (fun o => covers g o /\ inScope o = true) (f_objects frame))) as [He|He].
  - apply list.Exists_exists in He as (o & Ho & Hc & Hs). assert (Ho' := Ho).
    apply list_elem_of_split in Ho' as (l1 & l2 & Hl). rewrite Hl at 1.
    rewrite coverValue_own; [|intros p Hp; eapply scope_alone; eauto..|done|done].
    rewrite own_byte_ok, Z.ltb_lt by done. destruct (object_facts o Ho) as (O1 & _). split.
    + intros Hb. exists o. split_and!; try done. unfold covers in Hc. euclid.
    + intros (p & Hp & Hps & Hb).
      assert (Hcp : covers g p) by (by apply (covers_byte p g off)).
      assert (p = o) as ->; [|lia]. rewrite Hl in Hp.
      apply elem_of_app in Hp as [Hp|Hp]; [exfalso; by apply (scope_alone l1 o l2 g p); auto|].
      apply elem_of_cons in Hp as [->|Hp]; [done|]. exfalso; by apply (scope_alone l1 o l2 g p); auto.
  - rewrite poison_not_ok; [split; [done|]|].
    + intros (o & Ho & Hs & Hb). exfalso. apply He. apply list.Exists_exists. exists o.
      split_and!; try done. by apply (covers_byte o g off).
    + apply coverValue_poison; [|done]. intros o Ho Hc. destruct (inScope o) eqn:Es; [|done].
      exfalso. apply He. apply list.Exists_exists. eauto.
Qed.
End Entry.
