(* ===== verification/FrameEntry.v ===== *)
(** * At entry, exactly the bytes of the locals in scope are addressable

    The runs of a frame's shadow ([entryRuns]) are the value of each granule
    ([entryValue]); [writeShadow] turns runs into stores, fills and runtime
    calls that write each granule of the runs once, and no other granule; so
    the code the pass puts at a function's entry leaves addressable exactly the
    bytes of the locals in scope there. *)

From Stdlib Require Import Sorting.Sorted.
From stdpp Require Import relations sorting list list_numbers.
From S2P Require Import Prelude Shadow Report Guard GuardEntry Frames FramesFacts.
Local Open Scope Z_scope.

(** ** The stretches between cuts *)

Lemma Forall_elem {A} (Q : A -> Prop) l x : Forall Q l -> x ∈ l -> Q x.
Proof. intros H. exact (proj1 (list.Forall_forall Q l) H x). Qed.

(** No cut lies in [(g, g']]. *)
Definition same_side (cuts : list Z) (g g' : Z) : Prop :=
  forall c, c ∈ cuts -> (c <=? g) = (c <=? g').

Lemma same_side_ltb cuts g g' c : same_side cuts g g' -> c ∈ cuts -> (g <? c) = (g' <? c).
Proof. intros Hs Hc. rewrite !Z.ltb_antisym. by rewrite (Hs c Hc). Qed.

Lemma ltb_sub_l a b c : (a - b <? c) = (a <? b + c).
Proof. destruct (Z.ltb_spec (a - b) c), (Z.ltb_spec a (b + c)); (done || lia). Qed.

Lemma object_cut frame c :
  c ∈ concat (map (fun o => [o_offset o / 16; o_offset o / 16 + o_size o / 16;
                             o_offset o / 16 + granules (o_size o)]) (f_objects frame))
  <-> exists o, o ∈ f_objects frame
        /\ c ∈ [o_offset o / 16; o_offset o / 16 + o_size o / 16;
                o_offset o / 16 + granules (o_size o)].
Proof.
  rewrite list_elem_of_In, in_concat. setoid_rewrite in_map_iff. setoid_rewrite list_elem_of_In.
  split; [intros (l & (o & <- & Ho) & Hc); eauto|intros (o & Ho & Hc); eauto].
Qed.

Lemma coverValue_same frame g g' objects value :
  same_side (cutsOf frame) g g' -> objects ⊆ f_objects frame ->
  coverValue objects g value = coverValue objects g' value.
Proof.
  intros Hs. revert value. induction objects as [|o l IH]; intros value Hin; [done|].
  assert (Hl : l ⊆ f_objects frame) by (intros x Hx; apply Hin; by right).
  assert (Hcuts : forall c, c ∈ [o_offset o / 16; o_offset o / 16 + o_size o / 16;
                                 o_offset o / 16 + granules (o_size o)] -> c ∈ cutsOf frame).
  { intros c Hc. unfold cutsOf. apply elem_of_app. right. apply object_cut.
    exists o. split; [apply Hin; left|done]. }
  cbn [coverValue]. cbv zeta. rewrite !ltb_sub_l.
  rewrite (same_side_ltb _ g g' _ Hs (Hcuts (o_offset o / 16) ltac:(left))).
  rewrite (Hs _ (Hcuts (o_offset o / 16 + granules (o_size o)) ltac:(do 2 right; left))).
  rewrite (same_side_ltb _ g g' _ Hs (Hcuts (o_offset o / 16 + o_size o / 16) ltac:(right; left))).
  rewrite !IH by done. done.
Qed.

Lemma entryValue_same frame g g' :
  same_side (cutsOf frame) g g' -> entryValue (f_objects frame) g = entryValue (f_objects frame) g'.
Proof.
  intros Hs. unfold entryValue.
  rewrite (Hs (granules _)) by (do 2 right; left).
  rewrite (same_side_ltb _ g g' (LeftZone / 16) Hs) by (right; left).
  rewrite (coverValue_same frame g g') by done. done.
Qed.

(** *** The cuts, in increasing order *)

Lemma unique_elem l c : c ∈ unique l <-> c ∈ l.
Proof.
  induction l as [|a l IH]; [done|]. cbn [unique]. rewrite elem_of_cons, <- IH.
  destruct (unique l) as [|b m] eqn:E.
  - rewrite list_elem_of_singleton. split; [by left|]. intros [|H]; [done|].
    by apply elem_of_nil in H.
  - destruct (Z.eqb_spec a b) as [->|]; rewrite !elem_of_cons; tauto.
Qed.

Lemma unique_sorted l : StronglySorted Z.le l -> StronglySorted Z.lt (unique l).
Proof.
  induction 1 as [|a l Hl IH Ha]; cbn [unique]; [constructor|].
  assert (Hin : forall c, c ∈ unique l -> a <= c).
  { intros c Hc. apply (proj1 (unique_elem _ _)) in Hc. exact (Forall_elem _ _ c Ha Hc). }
  destruct (unique l) as [|b m]; [repeat constructor|].
  apply StronglySorted_inv in IH as IH'. destruct IH' as [Hm Hb].
  destruct (Z.eqb_spec a b) as [->|Hne]; [done|]. constructor; [done|].
  assert (a <= b) by (apply Hin; left). constructor; [lia|].
  eapply List.Forall_impl; [|exact Hb]. cbn. lia.
Qed.

Lemma sortedCuts_elem frame c : c ∈ sortedCuts frame <-> c ∈ cutsOf frame.
Proof. unfold sortedCuts. rewrite unique_elem. by rewrite (merge_sort_Permutation Z.le). Qed.

Lemma sortedCuts_sorted frame : StronglySorted Z.lt (sortedCuts frame).
Proof. apply unique_sorted. apply (StronglySorted_merge_sort Z.le). Qed.

(** *** The runs *)

(** The shadow values of the granules [[a, b)]. *)
Definition entryValues (frame : Frame) (a b : Z) : list Z :=
  map (entryValue (f_objects frame)) (seqZ a (b - a)).

Lemma entryValues_nil frame a : entryValues frame a a = [].
Proof. unfold entryValues. by rewrite Z.sub_diag. Qed.

Lemma entryValues_app frame a b c :
  a <= b <= c -> entryValues frame a c = entryValues frame a b ++ entryValues frame b c.
Proof.
  intros H. unfold entryValues. rewrite <- map_app. f_equal.
  replace (c - a) with ((b - a) + (c - b)) by lia. rewrite seqZ_app by lia.
  do 2 f_equal. lia.
Qed.

Lemma entryValues_flat frame a b :
  a <= b -> (forall g, a <= g < b -> same_side (cutsOf frame) a g) ->
  entryValues frame a b = replicate (Z.to_nat (b - a)) (entryValue (f_objects frame) a).
Proof.
  intros Hab Hs. unfold entryValues. apply list_eq. intros i.
  rewrite list_lookup_fmap. destruct (decide (Z.of_nat i < b - a)) as [Hi|Hi].
  - rewrite lookup_seqZ_lt, lookup_replicate_2 by lia. cbn. f_equal. symmetry.
    apply entryValue_same, Hs. lia.
  - rewrite lookup_seqZ_ge by lia. cbn. symmetry. apply lookup_replicate_None. lia.
Qed.

Lemma entryFrom_next frame g next cuts entry :
  entryFrom frame (g :: next :: cuts) entry =
  if g <? f_size frame / 16 then
    entryFrom frame (next :: cuts)
      (appendRun entry (Z.min next (f_size frame / 16) - g) (entryValue (f_objects frame) g))
  else entry.
Proof. done. Qed.

Lemma entryFrom_spec frame cuts g entry :
  let last := f_size frame / 16 in
  StronglySorted Z.lt (g :: cuts) -> g <= last -> last ∈ g :: cuts ->
  (forall c, c ∈ cutsOf frame -> c <= g \/ c ∈ cuts) -> runs_ok entry ->
  runs_ok (entryFrom frame (g :: cuts) entry)
  /\ expand (entryFrom frame (g :: cuts) entry) = expand entry ++ entryValues frame g last.
Proof.
  intros last. revert g entry. induction cuts as [|next cuts IH]; intros g entry Hs Hg Hl Hc Hr.
  { apply list_elem_of_singleton in Hl. rewrite <- Hl, entryValues_nil, app_nil_r. done. }
  rewrite entryFrom_next. apply StronglySorted_inv in Hs as [Hs Hlt].
  destruct (Z.ltb_spec g (f_size frame / 16)) as [Hgl|Hgl].
  2:{ replace last with g by (subst last; lia). by rewrite entryValues_nil, app_nil_r. }
  assert (Hge : forall c, c ∈ next :: cuts -> next <= c).
  { apply StronglySorted_inv in Hs as [_ Hn]. intros c Hin. apply elem_of_cons in Hin as [->|Hin]; [lia|].
    pose proof (Forall_elem _ _ c Hn Hin). lia. }
  apply elem_of_cons in Hl as [Hl|Hl]; [subst last; lia|].
  assert (Hn : next <= f_size frame / 16) by (by apply Hge).
  assert (Hgn : g < next) by (inversion Hlt; lia).
  rewrite Z.min_l by done.
  destruct (IH next (appendRun entry (next - g) (entryValue (f_objects frame) g))) as [H1 H2]; try done.
  { intros c Hcc. destruct (Hc c Hcc) as [|Hcc']; [left; lia|].
    apply elem_of_cons in Hcc' as [->|]; [left; lia|by right]. }
  { apply appendRun_ok; [done|lia]. }
  split; [done|]. rewrite H2, expand_appendRun, <- app_assoc by (done || lia). f_equal.
  rewrite (entryValues_app frame g next) by lia. f_equal. symmetry. apply entryValues_flat; [lia|].
  intros g' Hg' c Hcc. destruct (Hc c Hcc) as [Hle|Hin].
  - rewrite !(proj2 (Z.leb_le _ _)) by lia. done.
  - specialize (Hge c Hin). rewrite !(proj2 (Z.leb_gt _ _)) by lia. done.
Qed.

Lemma cutsOf_nonneg frame c :
  0 <= f_size frame -> Forall (fun o => 0 <= o_offset o /\ 0 <= o_size o) (f_objects frame) ->
  c ∈ cutsOf frame -> 0 <= c.
Proof.
  intros Hs Ho Hc. unfold cutsOf in Hc. apply elem_of_app in Hc as [Hc|Hc].
  - assert (0 <= objectsEnd (f_objects frame)).
    { clear. induction (f_objects frame); cbn; [done|]. unfold objectsEnd in IHl. lia. }
    unfold granules in Hc. repeat (apply elem_of_cons in Hc as [->|Hc]; [unfold LeftZone; euclid|]).
    by apply elem_of_nil in Hc.
  - apply object_cut in Hc as (o & Hin & Hc).
    destruct (Forall_elem _ _ o Ho Hin). unfold granules in Hc.
    repeat (apply elem_of_cons in Hc as [->|Hc]; [euclid|]). by apply elem_of_nil in Hc.
Qed.

(** The runs at entry are the value of each granule of the frame. *)
Lemma entryRuns_spec frame :
  0 <= f_size frame -> Forall (fun o => 0 <= o_offset o /\ 0 <= o_size o) (f_objects frame) ->
  runs_ok (entryRuns frame)
  /\ expand (entryRuns frame) = entryValues frame 0 (f_size frame / 16).
Proof.
  intros Hs Ho. unfold entryRuns.
  assert (Hin : forall c, c ∈ cutsOf frame <-> c ∈ sortedCuts frame) by (intros c; by rewrite sortedCuts_elem).
  assert (H0 : 0 ∈ sortedCuts frame) by (apply Hin; left).
  assert (Hl : f_size frame / 16 ∈ sortedCuts frame) by (apply Hin; do 3 right; left).
  pose proof (sortedCuts_sorted frame) as Hsort.
  destruct (sortedCuts frame) as [|c cuts]; [by apply elem_of_nil in H0|].
  assert (c = 0) as ->.
  { assert (0 <= c) by (apply (cutsOf_nonneg frame); [done|done|apply Hin; left]).
    apply StronglySorted_inv in Hsort as [_ Hc].
    apply elem_of_cons in H0 as [|H0]; [done|]. pose proof (Forall_elem _ _ 0 Hc H0). lia. }
  destruct (entryFrom_spec frame cuts 0 []) as [H1 H2]; [done|euclid|done| |constructor|by split].
  intros c Hc. apply Hin in Hc. apply elem_of_cons in Hc as [->|]; [left; lia|by right].
Qed.

(** ** [writeShadow] writes runs *)

Definition is_byte (v : Z) : Prop := 0 <= v < 256.

Definition op_at (op : shadow_op) : Z :=
  match op with Store a _ _ | MemSet a _ _ | FrameShadow a _ _ => a end.

(** The granules an operation writes. *)
Definition op_values (op : shadow_op) : list Z :=
  match op with
  | Store _ width word => map (fun i => byte_at word (Z.of_nat i)) (seq 0 width)
  | MemSet _ n v | FrameShadow _ n v => replicate (Z.to_nat n) v
  end.

Definition op_ok (op : shadow_op) : Prop :=
  match op with
  | Store _ _ _ => True
  | MemSet _ n v | FrameShadow _ n v => 0 < n /\ is_byte v
  end.

(** The operations write [vals] one after the other from [at_]. *)
Fixpoint chain (at_ : Z) (ops : list shadow_op) (vals : list Z) : Prop :=
  match ops with
  | [] => vals = []
  | op :: rest =>
    op_at op = at_ /\ op_ok op /\ exists vals', vals = op_values op ++ vals'
                         /\ chain (at_ + Z.of_nat (length (op_values op))) rest vals'
  end.

Lemma chain_app at_ a va b vb :
  chain at_ a va -> chain (at_ + Z.of_nat (length va)) b vb -> chain at_ (a ++ b) (va ++ vb).
Proof.
  revert at_ va. induction a as [|op a IH]; intros at_ va; cbn.
  - intros ->. by rewrite Z.add_0_r.
  - intros (<- & Hok & va' & -> & Ha) Hb. split; [done|]. split; [done|]. exists (va' ++ vb).
    rewrite <- app_assoc. split; [done|]. apply IH; [done|].
    by rewrite length_app, Nat2Z.inj_add, Z.add_assoc in Hb.
Qed.

Lemma wordOf_cons b l : is_byte b -> wordOf (b :: l) = b + 256 * wordOf l.
Proof.
  intros Hb. cbn [wordOf]. apply Z.bits_inj'. intros k Hk.
  rewrite testbit_add_256, Z.lor_spec, Z.shiftl_spec by done.
  destruct (Z.ltb_spec k 8).
  - rewrite (Z.testbit_neg_r _ (k - 8)) by lia. apply orb_false_r.
  - rewrite (Z.bits_above_log2 b); [done|apply Hb|].
    destruct (decide (b = 0)) as [->|]; [cbn; lia|].
    assert (Z.log2 b < 8) by (apply Z.log2_lt_pow2; destruct Hb; lia). lia.
Qed.

(** A word holds the bytes it was built from. *)
Lemma wordOf_bytes l :
  Forall is_byte l -> map (fun i => byte_at (wordOf l) (Z.of_nat i)) (seq 0 (length l)) = l.
Proof.
  induction 1 as [|b l Hb Hl IH]; [done|]. cbn [length seq map]. f_equal.
  - rewrite wordOf_cons by done. unfold byte_at. change (2 ^ (8 * Z.of_nat 0)) with 1.
    rewrite Z.div_1_r, (Z.mul_comm 256), Z_mod_plus_full. by apply Z.mod_small.
  - rewrite <- seq_shift, map_map. rewrite <- IH at 2. apply map_ext. intros i.
    rewrite wordOf_cons by done. unfold byte_at. rewrite Nat2Z.inj_succ.
    replace (8 * Z.succ (Z.of_nat i)) with (8 + 8 * Z.of_nat i) by lia.
    rewrite Z.pow_add_r, <- Z.div_div by lia. change (2 ^ 8) with 256. f_equal. f_equal.
    destruct Hb. euclid.
Qed.

Lemma storeWidth_le little n : (0 < n)%nat -> (1 <= storeWidth little n <= n)%nat.
Proof. intros Hn. unfold storeWidth. repeat case_match; rewrite ?Nat.leb_le in *; lia. Qed.

Lemma flush_chain fuel little pending at_ :
  Forall is_byte pending -> (length pending <= fuel)%nat ->
  chain at_ (flush fuel little pending at_) pending.
Proof.
  revert pending at_. induction fuel as [|fuel IH]; intros pending at_ Hb Hf.
  - destruct pending; [done|cbn in Hf; lia].
  - destruct pending as [|b l]; [done|]. set (pending := b :: l) in *.
    change (flush (S fuel) little pending at_) with
      (let width := storeWidth little (length pending) in
       Store at_ width (wordOf (take width pending))
       :: flush fuel little (drop width pending) (at_ + Z.of_nat width)).
    cbv zeta. destruct (storeWidth_le little (length pending)) as [Hw1 Hw2]; [cbn; lia|].
    set (width := storeWidth _ _) in *. clearbody width.
    assert (Hlen : length (take width pending) = width) by (rewrite length_take; lia).
    assert (Hv : op_values (Store at_ width (wordOf (take width pending))) = take width pending).
    { pose proof (wordOf_bytes (take width pending) ltac:(by apply Forall_take)) as Hw.
      by rewrite Hlen in Hw. }
    split; [done|]. split; [done|]. exists (drop width pending). rewrite Hv, take_drop. split; [done|].
    rewrite Hlen. apply IH; [by apply Forall_drop|]. rewrite length_drop. lia.
Qed.

Definition run_bytes (r : ShadowRun) : Prop := 0 <= count r /\ is_byte (value r).

Lemma writeRuns_chain little runs pending pendingAt at_ start :
  Forall run_bytes runs -> Forall is_byte pending ->
  at_ = start + Z.of_nat (length pending) -> (pending <> [] -> pendingAt = start) ->
  chain start (writeRuns little runs pending pendingAt at_) (pending ++ expand runs).
Proof.
  intros Hr. revert pending pendingAt at_ start.
  induction Hr as [|r runs [Hc Hv] Hr IH]; intros pending pendingAt at_ start Hb Ha Hp; cbn [writeRuns].
  - unfold expand. cbn. rewrite app_nil_r. destruct pending as [|b l]; [done|].
    rewrite Hp by done. by apply flush_chain.
  - assert (Hx : expand (r :: runs) = replicate (Z.to_nat (count r)) (value r) ++ expand runs) by done.
    rewrite Hx. destruct (Z.ltb_spec (count r) MemsetRun) as [Hm|Hm].
    + rewrite app_assoc. apply IH.
      * apply Forall_app. split; [done|]. by apply Forall_replicate.
      * rewrite length_app, length_replicate, Nat2Z.inj_add, Z2Nat.id by done. lia.
      * intros _. destruct pending; [cbn in Ha; lia|]. by apply Hp.
    + assert (Hpos : 0 < count r) by (unfold MemsetRun in Hm; lia).
      assert (Hfl : chain start (flushAll little pending pendingAt) pending).
      { destruct pending as [|b l]; [done|]. rewrite Hp by done. by apply flush_chain. }
      apply chain_app; [done|]. rewrite <- Ha.
      assert (Hrest : chain (at_ + Z.of_nat (length (replicate (Z.to_nat (count r)) (value r))))
                        (writeRuns little runs [] pendingAt (at_ + count r)) ([] ++ expand runs)).
      { rewrite length_replicate, Z2Nat.id by done. apply IH; [constructor|cbn; lia|done]. }
      destruct (RuntimeRun <=? count r); (split; [done|]; split; [done|]; by exists (expand runs)).
Qed.

Lemma writeShadow_chain little runs :
  Forall run_bytes runs -> chain 0 (writeShadow little runs) (expand runs).
Proof. intros Hr. by apply (writeRuns_chain little runs [] 0 0 0). Qed.

(** ** The stores write the shadow *)

(** From [s] to [s'] exactly the granules from [g0] on took the values
    [vals]. *)
Definition written (s s' : shadow) (g0 : Z) (vals : list Z) : Prop :=
  shadow_wf s' /\ s_bits s' = s_bits s
  /\ forall g, gval s' g = if decide (g0 <= g < g0 + Z.of_nat (length vals))
                          then default (gval s g) (vals !! Z.to_nat (g - g0)) else gval s g.

Lemma written_nil s g0 : shadow_wf s -> written s s g0 [].
Proof. intros Hs. split_and!; [done|done|]. intros g. cbn. case_decide; [lia|done]. Qed.

Lemma written_app s s1 s2 g0 va vb :
  written s s1 g0 va -> written s1 s2 (g0 + Z.of_nat (length va)) vb -> written s s2 g0 (va ++ vb).
Proof.
  intros (Hw1 & Hb1 & Hg1) (Hw2 & Hb2 & Hg2). split_and!; [done|congruence|]. intros g.
  rewrite Hg2, Hg1, length_app, Nat2Z.inj_add.
  destruct (decide (g0 <= g < g0 + Z.of_nat (length va))) as [Ha|Ha].
  - rewrite decide_False by lia. rewrite decide_True by lia. by rewrite lookup_app_l by lia.
  - destruct (decide (g0 + _ <= g < _)) as [Hb|Hb]; [|by rewrite decide_False by lia].
    rewrite decide_True, lookup_app_r by lia.
    by replace (Z.to_nat (g - g0) - length va)%nat
      with (Z.to_nat (g - (g0 + Z.of_nat (length va)))) by lia.
Qed.

Lemma written_fill s s' g0 n v :
  0 <= n -> shadow_wf s' -> s_bits s' = s_bits s ->
  (forall g, gval s' g = if decide (g0 <= g < g0 + n) then v else gval s g) ->
  written s s' g0 (replicate (Z.to_nat n) v).
Proof.
  intros Hn Hw Hb Hg. split_and!; [done|done|]. intros g. rewrite Hg, length_replicate, Z2Nat.id by done.
  case_decide; [|done]. rewrite lookup_replicate_2 by lia. done.
Qed.

(** A frame on the thread's stack, or apart from it and not absurdly large:
    what [__weavec_rt_frame_shadow] writes. *)
Definition frame_fits `{Thread} (address size : Z) : Prop :=
  (stackLow <= address /\ address + size <= stackHigh)
  \/ (size <= 2 ^ 30 /\ (address + size <= stackLow \/ stackHigh <= address)).

Section Writes.
Context {T : Thread} {P : Pages} (HP : pages_wf).

Lemma frame_shadow_written st address n v :
  let s := gs_shadow st in
  shadow_wf s -> 0 <= address -> address mod 16 = 0 -> 0 < n -> is_byte v ->
  address + n * 16 <= 2 ^ s_bits s -> frame_fits address (n * 16) ->
  exists s', __weavec_rt_frame_shadow address (n * 16) v st = (Some tt, with_shadow st s')
             /\ written s s' (address / 16) (replicate (Z.to_nat n) v).
Proof.
  intros s Hs Ha Hm Hn Hv Hend Hfit.
  pose proof (wf_bits s Hs). assert (2 ^ s_bits s <= 2 ^ 63) by (apply Z.pow_le_mono_r; lia).
  exists (if v =? WeavecRtShadowAddressable then weavecRtShadowClear s address (address + n * 16)
     else weavecRtShadowSet s address (n * 16) v). split.
  - unfold __weavec_rt_frame_shadow. cbv zeta. rewrite (proj2 (Z.leb_gt (2 ^ 64) _)) by lia.
    replace (address + n * 16 - address) with (n * 16) by lia.
    rewrite (Z.mod_small v 256) by done.
    assert (Hw : (if address + n * 16 <=? address then mret tt
                  else if v =? WeavecRtShadowAddressable
                  then on_shadow (fun s => weavecRtShadowClear s address (address + n * 16))
                  else on_shadow (fun s => weavecRtShadowSet s address (n * 16) v)) st
                 = (Some tt, with_shadow st
                     (if v =? WeavecRtShadowAddressable
                      then weavecRtShadowClear s address (address + n * 16)
                      else weavecRtShadowSet s address (n * 16) v))).
    { rewrite (proj2 (Z.leb_gt _ _)) by lia. by destruct (_ =? _). }
    unfold onOwnStack. destruct Hfit as [[Hl Hh]|[Hsz Hd]].
    + rewrite (proj2 (Z.eqb_neq stackHigh 0)), (proj2 (Z.ltb_lt address stackHigh)),
        (proj2 (Z.ltb_lt stackLow _)) by lia. cbn [negb andb].
      rewrite (proj2 (Z.ltb_ge address stackLow)), (proj2 (Z.ltb_ge stackHigh _)) by lia.
      by replace (address + n * 16 - address) with (n * 16) by lia.
    + replace (negb (stackHigh =? 0) && (address <? stackHigh) && (stackLow <? address + n * 16)) with false.
      2:{ symmetry. destruct Hd as [Hd|Hd].
          - rewrite (proj2 (Z.ltb_ge stackLow _)) by lia. apply andb_false_r.
          - rewrite (proj2 (Z.ltb_ge address _)) by lia. by rewrite andb_false_r. }
      unfold sub64. rewrite wrap64_small by lia. change (Z.shiftl 1 30) with (2 ^ 30).
      rewrite (proj2 (Z.ltb_ge (2 ^ 30) _)) by lia.
      by replace (address + n * 16 - address) with (n * 16) by lia.
  - assert (Hr : (address + n * 16 + 15) / 16 = address / 16 + n) by euclid.
    assert (Hr' : (n * 16 + 15) / 16 = n) by euclid.
    destruct (Z.eqb_spec v WeavecRtShadowAddressable) as [->|Hne].
    + apply written_fill; [lia|by apply shadowClear_wf|unfold weavecRtShadowClear; by repeat case_match|].
      intros g. rewrite (shadowClear_gval HP) by (done || lia). by rewrite Hr.
    + apply written_fill; [lia|by apply shadowSet_wf|unfold weavecRtShadowSet; by repeat case_match|].
      intros g. rewrite shadowSet_gval by (done || lia). by rewrite Hr'.
Qed.

Lemma store_written s a width word :
  shadow_wf s -> 
  written s (set_byte s (store_le (s_byte s) (s_base s + a) width word)) a
    (map (fun i => byte_at word (Z.of_nat i)) (seq 0 width)).
Proof.
  intros Hs. split_and!; [apply set_byte_wf; auto with weavec|done|]. intros g.
  unfold gval, set_byte. cbn [s_byte s_base]. unfold store_le. rewrite length_map, length_seq.
  case_decide as Hd.
  - rewrite (proj2 (Z.leb_le _ _)), (proj2 (Z.ltb_lt _ _)) by lia. cbn [andb].
    rewrite list_lookup_fmap, lookup_seq_lt by lia. cbn. f_equal. lia.
  - destruct (Z.leb_spec (s_base s + a) (s_base s + g)), (Z.ltb_spec (s_base s + g) (s_base s + a + Z.of_nat width));
      (done || lia).
Qed.

Lemma run_op_written st address size op :
  let s := gs_shadow st in
  shadow_wf s -> 0 <= address -> address mod 16 = 0 -> op_ok op -> 0 <= op_at op ->
  op_at op * 16 + 16 * Z.of_nat (length (op_values op)) <= size ->
  address + size <= 2 ^ s_bits s -> frame_fits address size -> 0 < size ->
  exists s', run_op address op st = (Some tt, with_shadow st s')
             /\ written s s' (address / 16 + op_at op) (op_values op).
Proof.
  intros s Hs Ha Hm Hok Hat Hlen Hend Hfit Hpos.
  pose proof (wf_bits s Hs). assert (2 ^ s_bits s <= 2 ^ 63) by (apply Z.pow_le_mono_r; lia).
  assert (Hof : weavecRtShadowOf s address = s_base s + address / 16) by (apply shadowOf_eq; [done|lia]).
  destruct op as [a width word|a n v|a n v]; cbn [op_at op_values op_ok run_op] in *.
  - eexists. split; [reflexivity|]. cbv beta. fold s. rewrite Hof, <- Z.add_assoc. by apply store_written.
  - destruct Hok as [Hn Hv]. eexists. split; [reflexivity|]. cbv beta. fold s. rewrite Hof.
    apply written_fill; [lia|apply set_byte_wf; auto with weavec|done|].
    { apply fill_bytes_ok; [auto with weavec|done]. }
    intros g. unfold gval, set_byte, memset. cbn [s_byte s_base]. rewrite fill_bytes_eq.
    repeat case_decide; (done || lia).
  - destruct Hok as [Hn Hv]. rewrite length_replicate, Z2Nat.id in Hlen by lia.
    assert (He : add64 address (a * 16) = address + a * 16) by (unfold add64; rewrite wrap64_small; lia).
    rewrite He. replace (address / 16 + a) with ((address + a * 16) / 16) by euclid.
    apply frame_shadow_written; try done; [lia|euclid|fold s; lia|].
    unfold frame_fits in *. lia.
Qed.

Lemma run_ops_written st address size ops at_ vals :
  let s := gs_shadow st in
  shadow_wf s -> 0 <= address -> address mod 16 = 0 -> chain at_ ops vals -> 0 <= at_ ->
  at_ * 16 + 16 * Z.of_nat (length vals) <= size ->
  address + size <= 2 ^ s_bits s -> frame_fits address size -> 0 < size ->
  exists s', run_ops address ops st = (Some tt, with_shadow st s')
             /\ written s s' (address / 16 + at_) vals.
Proof.
  intros s Hs Ha Hm. subst s. revert st at_ vals Hs.
  induction ops as [|op ops IH]; intros st at_ vals Hs Hc Hat Hlen Hend Hfit Hpos; cbn [run_ops].
  { cbn in Hc. subst vals. exists (gs_shadow st). split; [by destruct st|by apply written_nil]. }
  destruct Hc as (<- & Hok & vals' & -> & Hc). rewrite length_app, Nat2Z.inj_add in Hlen.
  destruct (run_op_written st address size op) as (s1 & E1 & W1); try done; [lia|].
  assert (W1' := W1). destruct W1' as (Hw1 & Hb1 & _).
  destruct (IH (with_shadow st s1) (op_at op + Z.of_nat (length (op_values op))) vals') as (s2 & E2 & W2);
    cbn [gs_shadow with_shadow]; try done; [lia|lia|by rewrite Hb1|].
  exists s2. split.
  - unfold mbind, G_bind. rewrite E1. exact E2.
  - cbn [gs_shadow with_shadow] in W2. eapply written_app; [exact W1|]. by rewrite <- Z.add_assoc.
Qed.

(** Writing runs at an address: their granules take their values, and no
    other granule changes. *)
Lemma writeShadow_written little st address runs :
  let s := gs_shadow st in
  let size := 16 * Z.of_nat (length (expand runs)) in
  shadow_wf s -> Forall run_bytes runs -> 0 <= address -> address mod 16 = 0 ->
  address + size <= 2 ^ s_bits s -> frame_fits address size -> 0 < size ->
  exists s', run_writeShadow little address runs st = (Some tt, with_shadow st s')
             /\ written s s' (address / 16) (expand runs).
Proof.
  intros s size Hs Hr Ha Hm Hend Hfit Hpos. unfold run_writeShadow, mbind, G_bind, get. fold s.
  rewrite ready_wf by done. rewrite <- (Z.add_0_r (address / 16)).
  by apply (run_ops_written st address size); [..|by apply writeShadow_chain| | | | |].
Qed.
End Writes.

(** ** The frame at entry *)

Definition frame_colors (frame : Frame) : Prop :=
  Forall (fun o => color_ok (o_color o)) (f_objects frame).

Lemma colorsFrom_ok next l : Forall (fun o => color_ok (o_color o)) (colorsFrom next l).
Proof.
  revert next. induction l as [|o l IH]; intros next; cbn [colorsFrom]; constructor; [|apply IH].
  change (color_ok (weavecRtColor next)). unfold color_ok. rewrite weavecRtColor_value. split; euclid.
Qed.

Lemma layout_colors overlaps hash allocas :
  Forall object_ok allocas -> frame_colors (layoutStatic overlaps hash allocas).
Proof.
  intros Hok. unfold layoutStatic, frame_colors. set (objects := stableSort allocas).
  assert (Ho : Forall object_ok objects).
  { subst objects. by rewrite (stableSort_Permutation allocas). }
  clearbody objects. destruct (place overlaps false objects) as [ps size] eqn:E1.
  destruct (place_spec overlaps false objects ps size E1 Ho) as (_ & _ & _ & A4 & _).
  destruct (_ && _); [|apply colorsFrom_ok].
  destruct (place overlaps true (colorsFrom hash ps)) as [ps' size'] eqn:E2.
  destruct (place_spec overlaps true _ ps' size' E2) as (_ & _ & _ & _ & Hsame).
  { by apply colorsFrom_Forall. }
  cbn [f_objects]. pose proof (colorsFrom_ok hash ps) as Hc.
  clear -Hsame Hc. induction Hsame as [|a b la lb Hab Hl IH]; [constructor|].
  apply Forall_cons_1 in Hc as [Ha Hc]. constructor; [|by apply IH].
  unfold same_object, set_offset in Hab. injection Hab as _ _ _ Hab _ _. by rewrite <- Hab.
Qed.

Lemma partialOf_is_byte color bytes : is_byte (partialOf color bytes).
Proof. apply Z.mod_pos_bound. lia. Qed.

Lemma coverValue_byte objects g v :
  Forall (fun o => color_ok (o_color o)) objects -> is_byte v -> is_byte (coverValue objects g v).
Proof.
  intros Hc. revert v. induction Hc as [|o l [Ho _] Hl IH]; intros v Hv; [done|]. cbn [coverValue]. cbv zeta.
  destruct (_ || _); [by apply IH|]. destruct (_ || _); [|by apply IH].
  apply IH. destruct (inScope o); [|done]. destruct (_ <? _); [unfold is_byte; lia|apply partialOf_is_byte].
Qed.

Lemma entryValue_is_byte frame g : frame_colors frame -> is_byte (entryValue (f_objects frame) g).
Proof.
  intros Hc. unfold entryValue. cbv zeta. destruct (_ <=? _); [done|].
  apply coverValue_byte; [done|]. by destruct (_ <? _).
Qed.

Lemma entryFrom_bytes frame cuts entry :
  frame_colors frame -> Forall (fun r => is_byte (value r)) entry ->
  Forall (fun r => is_byte (value r)) (entryFrom frame cuts entry).
Proof.
  intros Hc. revert entry. induction cuts as [|g cuts IH]; intros entry He; [done|].
  destruct cuts as [|next cuts]; [done|]. rewrite entryFrom_next. destruct (_ <? _); [|done].
  apply IH. generalize (Z.min next (f_size frame / 16) - g). intros n.
  pose proof (entryValue_is_byte frame g Hc) as Hv. generalize dependent (entryValue (f_objects frame) g).
  intros v Hv. induction He as [|r rest Hr He IHe]; cbn [appendRun].
  - destruct (n =? 0); repeat constructor; exact Hv || apply Hv.
  - destruct (n =? 0); [by constructor|]. destruct rest as [|r' rest].
    + destruct (_ =? v); repeat constructor; apply Hv || apply Hr.
    + by constructor.
Qed.

Lemma entryRuns_ok frame :
  frame_colors frame -> runs_ok (entryRuns frame) -> Forall run_bytes (entryRuns frame).
Proof.
  intros Hc Hr. pose proof (entryFrom_bytes frame (sortedCuts frame) [] Hc ltac:(constructor)) as Hb.
  fold (entryRuns frame) in Hb. apply list.Forall_forall. intros r Hin. split.
  - exact (Forall_elem _ _ r Hr Hin).
  - exact (Forall_elem _ _ r Hb Hin).
Qed.

Lemma entry_shadow `{Thread} `{Pages} overlaps hash allocas little st address :
  Forall object_ok allocas -> pages_wf -> shadow_wf (gs_shadow st) ->
  let frame := layoutStatic overlaps hash allocas in
  0 <= address -> address mod 16 = 0 ->
  address + f_size frame <= 2 ^ s_bits (gs_shadow st) -> frame_fits address (f_size frame) ->
  let r := run_writeShadow little address (entryRuns frame) st in
  shadow_wf (gs_shadow (snd r)) /\ s_bits (gs_shadow (snd r)) = s_bits (gs_shadow st)
  /\ fst r = Some tt
  /\ (forall b, 0 <= b < f_size frame ->
        addressable (gs_shadow (snd r)) (address + b) = true <-> byte_in_scope frame b)
  /\ (forall a, 0 <= a < 2 ^ s_bits (gs_shadow st) -> ~ (address <= a < address + f_size frame) ->
        granule_value (gs_shadow (snd r)) a = granule_value (gs_shadow st) a).
Proof.
  intros Hok HP Hs frame Ha Hm Hend Hfit r.
  pose proof (layout_colors overlaps hash allocas Hok) as Hcol. fold frame in Hcol.
  destruct (layoutStatic_ok overlaps hash allocas Hok) as [scoped Hfr]. fold frame in Hfr.
  assert (Hfr' := Hfr). destruct Hfr' as [_ Hpl [Hsz Hsm] Hobj]. unfold LeftZone in Hsz.
  assert (Hpos : Forall (fun o => 0 <= o_offset o /\ 0 <= o_size o) (f_objects frame)).
  { apply list.Forall_forall. intros o Hin. destruct (Forall_elem _ _ o Hpl Hin) as [Hl _].
    destruct (Forall_elem _ _ o Hobj Hin) as [_ Hsize]. unfold LeftZone in Hl. lia. }
  destruct (entryRuns_spec frame ltac:(lia) Hpos) as [Hr1 Hr2].
  assert (Hlen : 16 * Z.of_nat (length (expand (entryRuns frame))) = f_size frame).
  { rewrite Hr2. unfold entryValues. rewrite length_map, length_seqZ. euclid. }
  destruct (writeShadow_written HP little st address (entryRuns frame)) as (s' & E & Hw' & Hb' & Hg');
    rewrite ?Hlen; try done; [by apply entryRuns_ok|lia|].
  subst r. rewrite E. cbn [fst snd gs_shadow with_shadow].
  split; [done|]. split; [done|]. split; [done|].
  assert (Hlen' : Z.of_nat (length (expand (entryRuns frame))) = f_size frame / 16) by euclid.
  rewrite Hlen' in Hg'. split.
  - intros b Hb. rewrite addressable_gval by (rewrite ?Hb'; done || lia).
    assert (Hq : (address + b) / 16 = address / 16 + b / 16) by euclid.
    assert (Hmd : (address + b) mod 16 = b mod 16) by euclid.
    rewrite Hq, Hmd, Hg', decide_True by euclid.
    replace (address / 16 + b / 16 - address / 16) with (b / 16) by lia.
    rewrite Hr2. unfold entryValues. rewrite Z.sub_0_r, list_lookup_fmap, lookup_seqZ_lt by euclid.
    cbn [default fmap option_fmap option_map].
    replace (0 + Z.of_nat (Z.to_nat (b / 16))) with (b / 16) by euclid.
    change (id ?x) with x. rewrite (entryValue_byte overlaps scoped frame Hfr Hcol) by euclid.
    by replace (16 * (b / 16) + b mod 16) with b by euclid.
  - intros a Haa Hno. rewrite !granule_value_gval by (rewrite ?Hb'; done || lia).
    rewrite Hg'. case_decide; [|done]. exfalso. apply Hno. clear -H0 Hm Hsm Hsm H1. euclid.
Qed.

(** The stores the pass puts at a function's entry, whatever the layout,
    the lifetimes and the widths the stores take: a byte of the frame is
    addressable exactly when it is one of a local in scope throughout (one
    without lifetime markers); every redzone byte and every byte of a local
    not yet in scope is not; no granule outside the frame changes. *)
Theorem entry_exact `{Thread} `{Pages} overlaps hash allocas little st address :
  Forall object_ok allocas -> pages_wf -> shadow_wf (gs_shadow st) ->
  let frame := layoutStatic overlaps hash allocas in
  0 <= address -> address mod 16 = 0 ->
  address + f_size frame <= 2 ^ s_bits (gs_shadow st) -> frame_fits address (f_size frame) ->
  let r := run_writeShadow little address (entryRuns frame) st in
  fst r = Some tt
  /\ (forall b, 0 <= b < f_size frame ->
        addressable (gs_shadow (snd r)) (address + b) = true <-> byte_in_scope frame b)
  /\ (forall a, 0 <= a < 2 ^ s_bits (gs_shadow st) -> ~ (address <= a < address + f_size frame) ->
        granule_value (gs_shadow (snd r)) a = granule_value (gs_shadow st) a).
Proof.
  intros Hok HP Hs frame Ha Hm Hend Hfit r.
  by destruct (entry_shadow overlaps hash allocas little st address Hok HP Hs Ha Hm Hend Hfit)
    as (_ & _ & Hr).
Qed.

(** ** Scopes *)

(** The runs mark a block that holds [o] and lies in its extent: its first
    [live] bytes are addressable, the others are not. *)
Definition marks (runs : list ShadowRun) (live : Z) (o : FrameObject) : Prop :=
  Forall run_bytes runs /\ 0 < Z.of_nat (length (expand runs))
  /\ o_size o <= 16 * Z.of_nat (length (expand runs)) <= paddedSize (o_size o)
  /\ forall k v off, expand runs !! k = Some v -> 0 <= off < 16 ->
       byte_ok v off = (16 * Z.of_nat k + off <? live).

Lemma expand_replicate n v : 0 <= n -> expand (appendRun [] n v) = replicate (Z.to_nat n) v.
Proof. intros Hn. by rewrite expand_appendRun by (constructor || done). Qed.

Lemma appendRun_bytes runs n v :
  Forall run_bytes runs -> 0 <= n -> is_byte v -> Forall run_bytes (appendRun runs n v).
Proof.
  intros Hr Hn Hv. induction Hr as [|r rest [Hc Hb] Hr IH]; cbn [appendRun].
  - destruct (n =? 0); [constructor|]. constructor; [by split|constructor].
  - destruct (n =? 0); [by constructor|]. destruct rest as [|r' rest].
    + destruct (_ =? v); repeat (constructor; [split; cbn; [lia|done]|]); constructor.
    + by constructor.
Qed.

Lemma run_bytes_ok runs : Forall run_bytes runs -> runs_ok runs.
Proof. intros H. eapply List.Forall_impl; [|exact H]. by intros r []. Qed.

Lemma object_values size color :
  0 <= size -> color_ok color ->
  Forall run_bytes (objectRuns size color)
  /\ expand (objectRuns size color)
     = replicate (Z.to_nat (size / 16)) color
       ++ (if size mod 16 =? 0 then [] else [partialOf color (size mod 16)]).
Proof.
  intros Hs [Hc _]. unfold objectRuns. cbv zeta.
  assert (H1 : Forall run_bytes (appendRun [] (size / 16) color)).
  { apply appendRun_bytes; [constructor|euclid|unfold is_byte; lia]. }
  destruct (size mod 16 =? 0); cbn [negb].
  - split; [done|]. by rewrite expand_replicate, app_nil_r by euclid.
  - split; [apply appendRun_bytes; [done|lia|apply partialOf_is_byte]|].
    rewrite expand_appendRun by (lia || by apply run_bytes_ok). by rewrite expand_replicate by euclid.
Qed.

Lemma object_values_byte size color k v off :
  0 <= size -> color_ok color -> 0 <= off < 16 ->
  expand (objectRuns size color) !! k = Some v -> byte_ok v off = (16 * Z.of_nat k + off <? size).
Proof.
  intros Hs Hc Hoff Hk. rewrite (proj2 (object_values size color Hs Hc)) in Hk.
  apply lookup_app_Some in Hk as [Hk|[Hge Hk]].
  - apply lookup_replicate_1 in Hk as [-> Hlt]. rewrite full_byte_ok; [symmetry; apply Z.ltb_lt; euclid|].
    apply Z.ltb_lt. destruct Hc. lia.
  - rewrite length_replicate in Hge, Hk. destruct (Z.eqb_spec (size mod 16) 0) as [|Hne]; [done|].
    apply list_lookup_singleton_Some in Hk as [Hk <-].
    change partialOf with weavecRtShadowPartialOf. rewrite partialOf_byte_ok by (done || euclid).
    destruct (Z.ltb_spec off (size mod 16)); symmetry; [apply Z.ltb_lt|apply Z.ltb_ge]; euclid.
Qed.

Lemma object_values_length size color :
  0 <= size -> color_ok color ->
  Z.of_nat (length (expand (objectRuns size color))) = granules size.
Proof.
  intros Hs Hc. rewrite (proj2 (object_values size color Hs Hc)), length_app, length_replicate.
  unfold granules. destruct (Z.eqb_spec (size mod 16) 0); cbn [length]; euclid.
Qed.

Lemma live_marks objects o :
  object_ok o -> color_ok (o_color o) -> marks (liveRuns objects o) (o_size o) o.
Proof.
  intros [_ Hs] Hc. destruct (paddedSize_spec (o_size o) ltac:(lia)) as (Hp1 & Hp2 & _).
  pose proof (object_values_length (o_size o) (o_color o) ltac:(lia) Hc) as Hlen.
  destruct (object_values (o_size o) (o_color o) ltac:(lia) Hc) as [Hr _].
  assert (Hval := object_values_byte (o_size o) (o_color o)). unfold liveRuns. cbv zeta.
  assert (Hg : granules (o_size o) <= paddedSize (o_size o) / 16 /\ 0 < granules (o_size o)
               /\ o_size o <= 16 * granules (o_size o)) by (unfold granules; euclid).
  destruct (sharesRedzone objects o).
  - assert (He : expand (appendRun (objectRuns (o_size o) (o_color o))
                           (paddedSize (o_size o) / 16 - granules (o_size o)) WeavecRtShadowStackMid)
                 = expand (objectRuns (o_size o) (o_color o))
                   ++ replicate (Z.to_nat (paddedSize (o_size o) / 16 - granules (o_size o)))
                        WeavecRtShadowStackMid)
      by (apply expand_appendRun; [by apply run_bytes_ok|lia]).
    unfold marks. rewrite He, length_app, length_replicate.
    split_and!; [apply appendRun_bytes; [done|lia|done]|lia|lia|euclid|].
    intros k v off Hk Hoff. apply lookup_app_Some in Hk as [Hk|[Hge Hk]]; [by apply Hval; [lia|..]|].
    apply lookup_replicate_1 in Hk as [-> _]. rewrite poison_not_ok by done.
    symmetry. apply Z.ltb_ge. lia.
  - unfold marks. rewrite Hlen. split_and!; [done|lia|lia|euclid|].
    intros k v off Hk Hoff. by apply Hval; [lia|..].
Qed.

Lemma dead_marks o : object_ok o -> marks (deadRuns o) 0 o.
Proof.
  intros [_ Hs]. destruct (paddedSize_spec (o_size o) ltac:(lia)) as (Hp1 & Hp2 & _).
  assert (Hg : granules (o_size o) <= paddedSize (o_size o) / 16 /\ 0 < granules (o_size o)
               /\ o_size o <= 16 * granules (o_size o))
    by (unfold granules; euclid).
  unfold marks, deadRuns. rewrite expand_replicate, length_replicate by lia.
  split_and!; [apply appendRun_bytes; [constructor|lia|done]|lia|lia|euclid|].
  intros k v off Hk Hoff. apply lookup_replicate_1 in Hk as [-> _]. rewrite poison_not_ok by done.
  symmetry. apply Z.ltb_ge. lia.
Qed.

Section Scopes.
Context {T : Thread} {P : Pages} (HP : pages_wf).
Context (overlaps : nat -> nat -> bool) (Hsym : forall a b, overlaps a b = overlaps b a).
Context (scoped little : bool) (frame : Frame) (address : Z).
Context (Hframe : frame_ok overlaps scoped frame) (Hcolors : frame_colors frame).
Context (Haddress : 0 <= address) (Haligned : address mod 16 = 0)
        (Hfits : frame_fits address (f_size frame)).

(** The local of index [i] is in scope, the locals [live] being those whose
    marker opened them. *)
Definition live_object (live : list nat) (i : nat) (o : FrameObject) : Prop :=
  f_objects frame !! i = Some o /\ (inScope o = true \/ i ∈ live).

(** A byte of the frame is addressable exactly when it is one of a local in
    scope. *)
Definition frame_state (st : gstate) (live : list nat) : Prop :=
  shadow_wf (gs_shadow st) /\ address + f_size frame <= 2 ^ s_bits (gs_shadow st)
  /\ forall b, 0 <= b < f_size frame ->
       addressable (gs_shadow st) (address + b) = true
       <-> exists i o, live_object live i o /\ o_offset o <= b < o_offset o + o_size o.

(** The markers of a local's lifetime.  What StackLifetime promises: a local
    starts, and ends, only while the locals in scope overlap it.  (An end of a
    local that is not in scope would poison the bytes it shares.) *)
Inductive scope_step : gstate * list nat -> gstate * list nat -> Prop :=
  | scope_start st live i o :
      f_objects frame !! i = Some o -> inScope o = false ->
      (forall j p, j ∈ live -> j <> i -> f_objects frame !! j = Some p ->
         overlaps (o_alloca o) (o_alloca p) = true) ->
      scope_step (st, live)
        (snd (run_writeShadow little (address + o_offset o) (liveRuns (f_objects frame) o) st), i :: live)
  | scope_end st live i o :
      f_objects frame !! i = Some o -> inScope o = false ->
      (forall j p, j ∈ live -> j <> i -> f_objects frame !! j = Some p ->
         overlaps (o_alloca o) (o_alloca p) = true) ->
      scope_step (st, live)
        (snd (run_writeShadow little (address + o_offset o) (deadRuns o) st), filter (.≠ i) live).

(** Two locals in scope share no byte of their extents. *)
Lemma together_apart i j a b :
  i <> j -> f_objects frame !! i = Some a -> f_objects frame !! j = Some b ->
  inScope b = true \/ overlaps (o_alloca a) (o_alloca b) = true -> extents_apart a b.
Proof.
  intros Hij Ha Hb Ht. pose proof (fo_apart _ _ _ Hframe) as Hap.
  destruct (Nat.lt_gt_cases i j) as [Hc _]. destruct (Hc Hij) as [Hlt|Hgt].
  - apply (Hap i j a b); [done..|]. unfold together. destruct Ht as [->| ->]; by rewrite !orb_true_r.
  - assert (extents_apart b a) as Hx; [|unfold extents_apart in *; tauto].
    apply (Hap j i b a); [done..|]. unfold together.
    destruct Ht as [->|Ht]; [by rewrite orb_true_r|]. rewrite Hsym, Ht. apply orb_true_r.
Qed.

(** Nor does the block written for one hold a byte of another in scope. *)
Lemma block_alone i j o p b n :
  i <> j -> f_objects frame !! i = Some o -> f_objects frame !! j = Some p ->
  n * 16 <= paddedSize (o_size o) -> o_offset o <= b < o_offset o + 16 * n ->
  o_offset p <= b < o_offset p + o_size p ->
  ~ (inScope p = true \/ overlaps (o_alloca o) (o_alloca p) = true).
Proof.
  intros Hij Hi Hj Hn Hb Hp Ht. pose proof (together_apart i j o p Hij Hi Hj Ht) as Hx.
  assert (Hpin : p ∈ f_objects frame) by (by eapply list_elem_of_lookup_2).
  pose proof (Forall_elem _ _ p (fo_objects _ _ _ Hframe) Hpin) as [_ Hps].
  destruct (paddedSize_spec (o_size p) ltac:(lia)) as (Hpp & _).
  unfold extents_apart, extentEnd in Hx. lia.
Qed.

(** Marking a local changes its own bytes only. *)
Lemma mark_state st live live' i o runs keep :
  frame_state st live -> f_objects frame !! i = Some o -> inScope o = false ->
  (forall j p, j ∈ live -> j <> i -> f_objects frame !! j = Some p ->
     overlaps (o_alloca o) (o_alloca p) = true) ->
  marks runs keep o -> ((i ∈ live' /\ keep = o_size o) \/ ((i ∉ live') /\ keep = 0)) ->
  (forall j, j <> i -> (j ∈ live' <-> j ∈ live)) ->
  frame_state (snd (run_writeShadow little (address + o_offset o) runs st)) live'.
Proof.
  intros (Hs & Hend & Hst) Hi Hsc Hov (Hr & Hlen0 & Hlen & Hval) Hk Hj.
  assert (Ho : o ∈ f_objects frame) by (by eapply list_elem_of_lookup_2).
  pose proof (Forall_elem _ _ o (fo_placed _ _ _ Hframe) Ho) as (Hl & _ & He).
  destruct (object_facts overlaps scoped frame Hframe Hcolors o Ho) as (O1 & _).
  unfold LeftZone, extentEnd in *. set (n := Z.of_nat (length (expand runs))) in *.
  destruct (writeShadow_written HP little st (address + o_offset o) runs) as (s' & E & Hw' & Hb' & Hg');
    fold n; try done; [lia|euclid|lia|unfold frame_fits in *; lia|lia|].
  rewrite E. cbn [snd]. unfold frame_state. cbn [gs_shadow with_shadow]. fold n in Hg'. rewrite Hb'.
  split_and!; [done|done|]. intros b Hb.
  assert (Hq : (address + o_offset o) / 16 = address / 16 + o_offset o / 16) by euclid.
  rewrite addressable_gval by (rewrite ?Hb'; done || lia). rewrite Hg'.
  destruct (decide _) as [Hd|Hd].
  - (* a granule of the block *)
    assert (Hblock : o_offset o <= b < o_offset o + 16 * n) by euclid.
    set (k := Z.to_nat ((address + b) / 16 - (address + o_offset o) / 16)).
    destruct (lookup_lt_is_Some_2 (expand runs) k) as [v Hv]; [subst k n; lia|].
    rewrite Hv. cbn [default]. rewrite (Hval k v) by (done || euclid).
    assert (Hbk : 16 * Z.of_nat k + (address + b) mod 16 = b - o_offset o) by (subst k; euclid).
    rewrite Hbk, Z.ltb_lt. clear Hv v. split.
    + intros Hlt. exists i, o. destruct Hk as [[Hin ->]|[_ ->]]; [|lia].
      split; [split; [done|by right]|lia].
    + intros (j & p & (Hp & Hlv) & Hbp). destruct (decide (j = i)) as [->|Hne].
      * rewrite Hi in Hp. injection Hp as <-. destruct Hlv as [Hlv|Hlv]; [congruence|].
        destruct Hk as [[_ ->]|[Hn _]]; [lia|done].
      * exfalso. apply (block_alone i j o p b n); try done; [lia|].
        destruct Hlv as [Hlv|Hlv]; [by left|right]. apply (Hov j); [by apply Hj|done|done].
  - (* another granule: unchanged *)
    rewrite <- addressable_gval by (done || lia). rewrite Hst by done.
    assert (Hnb : ~ (o_offset o <= b < o_offset o + 16 * n)) by (intros Hx; apply Hd; euclid).
    assert (Hne : forall j p, f_objects frame !! j = Some p -> o_offset p <= b < o_offset p + o_size p ->
                    j <> i).
    { intros j p Hp Hbp ->. rewrite Hi in Hp. injection Hp as <-. lia. }
    split; intros (j & p & (Hp & Hlv) & Hbp); exists j, p; split; try done; split; try done;
      (destruct Hlv as [Hlv|Hlv]; [by left|right; apply Hj; [by eapply Hne|done]]).
Qed.

(** Along any sequence of markers the bytes of the locals in scope, and no
    others, are addressable. *)
Lemma scope_invariant c c' :
  rtc scope_step c c' -> frame_state (fst c) (snd c) -> frame_state (fst c') (snd c').
Proof.
  induction 1 as [|c1 c2 c3 Hstep _ IH]; [done|]. intros Hst. apply IH. clear IH c3.
  destruct Hstep as [st live i o Hi Hsc Hov|st live i o Hi Hsc Hov]; cbn [fst snd] in *;
    assert (Ho : o ∈ f_objects frame) by (by eapply list_elem_of_lookup_2);
    pose proof (Forall_elem _ _ o (fo_objects _ _ _ Hframe) Ho) as Hok;
    pose proof (Forall_elem _ _ o Hcolors Ho) as Hc.
  - eapply (mark_state st live _ i o); [done..|by apply live_marks|left; split; [left|done]|].
    intros j Hj. rewrite elem_of_cons. split; [by intros [|]|by right].
  - eapply (mark_state st live _ i o); [done..|by apply dead_marks|right; split; [|done]|].
    + rewrite list_elem_of_filter. by intros [? _].
    + intros j Hj. rewrite list_elem_of_filter. split; [by intros []|by split].
Qed.
End Scopes.

(** C5: from the entry on, along any sequence of lifetime markers in which a
    local starts or ends only while every other local in scope is one the
    layout was told may overlap it (what StackLifetime promises of the markers
    the layout was made from), the addressable
    bytes of the frame are exactly the bytes of the locals in scope: objects
    that share stack never expose each other, and a redzone byte is never
    addressable. *)
Theorem scopes_exact `{Thread} `{Pages} overlaps hash allocas little st address st' live :
  Forall object_ok allocas -> pages_wf -> shadow_wf (gs_shadow st) ->
  (forall a b, overlaps a b = overlaps b a) ->
  let frame := layoutStatic overlaps hash allocas in
  0 <= address -> address mod 16 = 0 ->
  address + f_size frame <= 2 ^ s_bits (gs_shadow st) -> frame_fits address (f_size frame) ->
  let entered := snd (run_writeShadow little address (entryRuns frame) st) in
  rtc (scope_step overlaps little frame address) (entered, []) (st', live) ->
  forall b, 0 <= b < f_size frame ->
    addressable (gs_shadow st') (address + b) = true
    <-> exists i o, live_object frame live i o /\ o_offset o <= b < o_offset o + o_size o.
Proof.
  intros Hok HP Hs Hsym frame Ha Hm Hend Hfit entered Hsteps.
  destruct (entry_shadow overlaps hash allocas little st address Hok HP Hs Ha Hm Hend Hfit)
    as (Hw & Hb & _ & Hin & _).
  fold frame entered in Hw, Hb, Hin.
  destruct (layoutStatic_ok overlaps hash allocas Hok) as [scoped Hfr].
  apply (scope_invariant HP overlaps Hsym scoped little frame address Hfr
           (layout_colors overlaps hash allocas Hok) Ha Hm Hfit _ _ Hsteps).
  cbn [fst snd]. unfold frame_state. rewrite Hb. split_and!; [done|done|]. intros b Hbb.
  rewrite Hin by done. unfold byte_in_scope, live_object. split.
  - intros (o & Ho & Hsc & Hob). apply list_elem_of_lookup in Ho as [i Hi]. eauto 8.
  - intros (i & o & (Hi & [Hsc|Hl]) & Hob); [|by apply elem_of_nil in Hl].
    exists o. split; [by eapply list_elem_of_lookup_2|]. split; done.
Qed.
