(* ===== verification/Asan.v ===== *)
(** * AddressSanitizer's interface

    [runtime/weavec_asan.c]: the functions a program written for
    AddressSanitizer calls, over WeaveC's shadow.  Poisoning denies the whole
    granules inside a region; unpoisoning makes a region's bytes addressable
    again, in the color of the heap slot that holds it; the questions ask the
    range check of the file GuardEntry, a byte at a time to find the first
    poisoned one. *)

From Stdlib Require Import String.
From S2P Require Import Prelude Shadow Report Guard GuardEntry Classes.
Local Open Scope Z_scope.

(** ** Writing *)

Definition __asan_poison_memory_region (s : shadow) (address size : Z) : shadow :=
  let low := Z.land (add64 address 15) (Z.lnot 15) in
  let high := Z.land (add64 address size) (Z.lnot 15) in
  if low <? high then weavecRtShadowSet s low (sub64 high low) WeavecRtShadowUser else s.

Definition __asan_unpoison_memory_region (h : heap) (s : shadow) (start size : Z) : shadow :=
  let low := Z.land start (Z.lnot 15) in
  let end_ := add64 start size in
  let color := weavecRtColorOfHeap h start in
  if (size =? 0) || negb (weavecRtShadowReady s) || negb (weavecRtInWindow s start) then s
  else
    let whole := Z.land end_ (Z.lnot 15) in
    let rest := Z.land end_ 15 in
    let s := if low <? whole
             then set_byte s (memset (s_byte s) (weavecRtShadowOf s low) color (Z.shiftr (sub64 whole low) 4))
             else s in
    if negb (rest =? 0) then
      let last := granule_value s end_ in
      if weavecRtShadowPoison last || (negb (weavecRtShadowFull last) && (weavecRtShadowBytes last <? rest))
      then set_byte s (store1 (s_byte s) (weavecRtShadowOf s end_) (weavecRtShadowPartialOf color rest))
      else s
    else s.

(** ** Asking *)

Section Asking.
Context {T : Thread} {H : HeapView}.

Definition __asan_address_is_poisoned (address here : Z) : G bool :=
  ok ← __weavec_rt_range_ok address 1 here;
  mret (negb ok).

(** The loop over [at], of which [n] are left. *)
Fixpoint firstPoisoned (n : nat) (address at_ here : Z) : G (option Z) :=
  match n with
  | O => mret None
  | S n' =>
    ok ← __weavec_rt_range_ok (add64 address at_) 1 here;
    if (ok : bool) then firstPoisoned n' address (at_ + 1) here else mret (Some (add64 address at_))
  end.

(** [None] for the null pointer. *)
Definition __asan_region_is_poisoned (address size here : Z) : G (option Z) :=
  if size =? 0 then mret None
  else
    ok ← __weavec_rt_range_ok address size here;
    if (ok : bool) then mret None else firstPoisoned (Z.to_nat size) address 0 here.

Definition __asan_handle_no_return `{P : Pages} (here : Z) : G unit := __weavec_rt_unpoison_stack here.
End Asking.

(** ** What the writers write *)

Section Written.
Context (s : shadow) (Hwf : shadow_wf s).

Lemma window_top : 2 ^ s_bits s <= 2 ^ 63.
Proof. pose proof (wf_bits s Hwf). apply Z.pow_le_mono_r; lia. Qed.

Lemma down_16 x : Z.land x (Z.lnot 15) = x / 16 * 16.
Proof. change 15 with (2 ^ 4 - 1). by rewrite land_lnot_ones by lia. Qed.

(** The granules a region holds whole are poisoned, the others are as they
    were. *)
Lemma poison_gval address size g :
  0 <= address -> 0 <= size -> address + size <= 2 ^ s_bits s ->
  gval (__asan_poison_memory_region s address size) g
  = if decide (address <= 16 * g /\ 16 * g + 16 <= address + size) then WeavecRtShadowUser else gval s g.
Proof.
  intros Ha Hs Hend. pose proof window_top. pose proof (window_split s Hwf).
  unfold __asan_poison_memory_region. rewrite !down_16. unfold add64, sub64.
  rewrite !(wrap64_small (address + _)) by lia.
  destruct (Z.ltb_spec ((address + 15) / 16 * 16) ((address + size) / 16 * 16)).
  - rewrite wrap64_small by euclid. rewrite shadowSet_gval; [|done|euclid..|done].
    repeat case_decide; try done; exfalso; euclid.
  - case_decide; [exfalso; euclid|done].
Qed.

Lemma poison_bits address size : s_bits (__asan_poison_memory_region s address size) = s_bits s.
Proof. unfold __asan_poison_memory_region. case_match; [apply shadowSet_bits|done]. Qed.

Lemma poison_wf address size : shadow_wf (__asan_poison_memory_region s address size).
Proof. unfold __asan_poison_memory_region. case_match; [by apply shadowSet_wf|done]. Qed.
(** A partial last granule holds at least [k] bytes. *)
Definition at_least (v color k : Z) : Z :=
  if weavecRtShadowPoison v || (negb (weavecRtShadowFull v) && (weavecRtShadowBytes v <? k))
  then weavecRtShadowPartialOf color k else v.

Lemma at_least_ok v color k off :
  1 <= k <= 15 -> color_ok color -> byte_ok (at_least v color k) off = byte_ok v off || (off <? k).
Proof.
  intros Hk Hc. unfold at_least. destruct (weavecRtShadowPoison v) eqn:Ep; cbn [orb].
  - by rewrite partialOf_byte_ok, poison_not_ok by done.
  - destruct (weavecRtShadowFull v) eqn:Ef; cbn [negb andb]; [by rewrite full_byte_ok by done|].
    assert (E : forall b, byte_ok v b = (b <? weavecRtShadowBytes v)) by (intros b; unfold byte_ok; by rewrite Ef, Ep).
    destruct (Z.ltb_spec (weavecRtShadowBytes v) k); rewrite ?(partialOf_byte_ok color k) by done; rewrite E; bool_cases; done || lia.
Qed.

Lemma unpoison_gval h start size g :
  0 <= start -> 0 < size -> start + size <= 2 ^ s_bits s -> color_ok (weavecRtColorOfHeap h start) ->
  let color := weavecRtColorOfHeap h start in
  let end_ := start + size in
  gval (__asan_unpoison_memory_region h s start size) g
  = if decide (start / 16 <= g < end_ / 16) then color
    else if decide (g = end_ / 16 /\ end_ mod 16 <> 0) then at_least (gval s g) color (end_ mod 16) else gval s g.
Proof.
  intros Ha Hs Hend Hcol color end_. subst end_. pose proof (window_top) as Htop. pose proof (window_split s Hwf) as Hsplit.
  unfold __asan_unpoison_memory_region. fold color in Hcol |- *. rewrite !down_16.
  rewrite (proj2 (Z.eqb_neq size 0)), ready_wf, inWindow_true by (done || lia). cbn [orb negb].
  unfold add64, sub64. rewrite (wrap64_small (start + size)) by lia. rewrite land_15.
  set (s1 := if _ <? _ then _ else _).
  assert (H1 : shadow_wf s1 /\ s_bits s1 = s_bits s /\ forall g, gval s1 g
    = if decide (start / 16 <= g < (start + size) / 16) then color else gval s g).
  { subst s1. destruct (Z.ltb_spec (start / 16 * 16) ((start + size) / 16 * 16)).
    - split; [apply set_byte_wf; [done|unfold memset; apply fill_bytes_ok; [apply Hwf|destruct Hcol; lia]]|].
      split; [done|]. intros g0. rewrite wrap64_small by euclid. rewrite shiftr_4, gval_memset by (done || euclid).
      repeat case_decide; try done; exfalso; euclid.
    - split; [done|]. split; [done|]. intros g0. case_decide; [exfalso; euclid|done]. }
  destruct H1 as (W1 & B1 & G1). clearbody s1.
  destruct (Z.eqb_spec ((start + size) mod 16) 0) as [E|E]; cbn [negb].
  - rewrite G1. repeat case_decide; (done || lia).
  - rewrite granule_value_gval by (done || rewrite B1; euclid).
    assert (Ev : gval s1 ((start + size) / 16) = gval s ((start + size) / 16)) by (rewrite G1; case_decide; [lia|done]).
    rewrite Ev. unfold at_least. case_match eqn:Ec.
    + rewrite store1_gval; [|done|rewrite B1; euclid|pose proof (partialOf_range color ((start + size) mod 16) ltac:(euclid) Hcol);
        unfold WeavecRtShadowPoisonFrom in *; lia].
      rewrite G1. repeat case_decide; destruct_and?; subst; rewrite ?Ec; try done; try lia.
    + rewrite G1. repeat case_decide; destruct_and?; subst; rewrite ?Ec; try done; try lia.
Qed.

Lemma unpoison_frame h start size :
  color_ok (weavecRtColorOfHeap h start) ->
  shadow_wf (__asan_unpoison_memory_region h s start size)
  /\ s_bits (__asan_unpoison_memory_region h s start size) = s_bits s.
Proof.
  intros [Hc _]. unfold __asan_unpoison_memory_region, memset. repeat case_match; cbn; (split; [|done]); try done;
    unfold store1; eauto 12 with weavec lia.
Qed.
End Written.

Lemma colorOfHeap_ok h a : color_ok (weavecRtColorOfHeap h a).
Proof.
  unfold weavecRtColorOfHeap. case_match; [split; [lia|done]|].
  match goal with |- color_ok (weavecRtColor ?n) => destruct (weavecRtColor_spec n) as (_ & Hc & _); exact Hc end.
Qed.

(** Poisoning a region and making one addressable again change exactly what
    AddressSanitizer's interface says, at WeaveC's granule: poisoning denies
    the bytes of the granules the region holds whole and no other byte;
    unpoisoning makes the region's bytes addressable, with those before it in
    its first granule, and no other byte. *)
Theorem user_regions_exact s h address size a :
  shadow_wf s -> 0 <= address -> 0 < size -> address + size <= 2 ^ s_bits s -> 0 <= a < 2 ^ s_bits s ->
  addressable (__asan_poison_memory_region s address size) a
    = negb ((address <=? a / 16 * 16) && (a / 16 * 16 + 16 <=? address + size)) && addressable s a
  /\ addressable (__asan_unpoison_memory_region h s address size) a
    = ((address / 16 * 16 <=? a) && (a <? address + size)) || addressable s a.
Proof.
  intros Hwf Had Hs Hend Ha. pose proof (colorOfHeap_ok h address) as Hc.
  destruct (unpoison_frame s Hwf h address size Hc) as [Hwu Hbu]. pose proof (unpoison_gval s Hwf h address size (a / 16) Had Hs Hend Hc) as Hu.
  cbv zeta in Hu.
  rewrite !addressable_gval by (rewrite ?poison_bits, ?Hbu; done || by apply poison_wf).
  split.
  - clear Hu. rewrite poison_gval by (done || lia). case_decide as Hd.
    + rewrite poison_not_ok by done. bool_cases; done || (exfalso; euclid).
    + bool_cases; cbn [andb negb]; done || (exfalso; apply Hd; euclid).
  - rewrite Hu. clear Hu. repeat case_decide.
    + rewrite full_byte_ok by (destruct Hc; apply Z.ltb_lt; lia). bool_cases; done || (exfalso; euclid).
    + rewrite at_least_ok by (done || euclid). rewrite orb_comm. bool_cases; done || (exfalso; euclid).
    + bool_cases; cbn [andb orb]; done || (exfalso; euclid).
Qed.

(** ** What the questions answer *)

Section Answered.
Context {T : Thread} {H : HeapView}.

Lemma all_usable_one s here a : 0 <= a < 2 ^ s_bits s -> all_usable s here a 1 <-> usable s here a = true.
Proof.
  unfold all_usable. intros Ha. split; [intros Hu; apply Hu; lia|]. intros Hu b Hb. by replace b with a by lia.
Qed.

Lemma all_usable_settles s s' here a n : settles s s' here -> all_usable s' here a n <-> all_usable s here a n.
Proof.
  intros Hs. pose proof Hs as (_ & Hb & _). unfold all_usable. rewrite Hb.
  split; intros Hu b Hb'; specialize (Hu b Hb'); [by rewrite <- (settles_usable s s')|by rewrite (settles_usable s s')].
Qed.

(** The first byte of a region that may not be used, if there is one. *)
Definition first_denied (s : shadow) (here address size : Z) (r : option Z) : Prop :=
  match r with
  | None => forall a, address <= a < address + size -> usable s here a = true
  | Some bad => address <= bad < address + size /\ usable s here bad = false
                /\ forall a, address <= a < bad -> usable s here a = true
  end.

Lemma firstPoisoned_run n address here : forall at_ st,
  shadow_wf (gs_shadow st) -> 0 <= address -> 0 <= at_ -> address + at_ + Z.of_nat n <= 2 ^ s_bits (gs_shadow st) ->
  exists r st', firstPoisoned n address at_ here st = (Some r, st')
    /\ settles (gs_shadow st) (gs_shadow st') here
    /\ first_denied (gs_shadow st) here (address + at_) (Z.of_nat n) r.
Proof.
  induction n as [|n IH]; intros at_ st Hwf Ha Hat Hend; cbn [firstPoisoned].
  - exists None, st. split; [done|]. split; [by apply settles_refl|]. intros a. lia.
  - pose proof (window_top _ Hwf). unfold add64. rewrite wrap64_small by lia. unfold mbind, G_bind.
    destruct (range_ok_run st (address + at_) 1 here) as (ok & st1 & -> & Hset & Hok); [done|lia|lia|].
    rewrite all_usable_one in Hok by lia. pose proof Hset as (Hwf1 & Hb1 & _). destruct ok.
    + destruct (IH (at_ + 1) st1) as (r & st' & -> & Hset' & Hr); [done|done|lia|rewrite Hb1; lia|].
      exists r, st'. split; [done|]. split; [by apply settles_trans with (gs_shadow st1)|].
      assert (Hu : forall a, usable (gs_shadow st1) here a = usable (gs_shadow st) here a) by (intros a; by apply settles_usable).
      assert (Hhead : usable (gs_shadow st) here (address + at_) = true) by by apply Hok.
      destruct r as [bad|]; cbn in Hr |- *.
      * destruct Hr as (R1 & R2 & R3). split; [lia|]. split; [by rewrite <- Hu|]. intros a Hb.
        destruct (Z.eq_dec a (address + at_)) as [->|]; [done|]. rewrite <- Hu. apply R3. lia.
      * intros a Hb. destruct (Z.eq_dec a (address + at_)) as [->|]; [done|]. rewrite <- Hu. apply Hr. lia.
    + exists (Some (address + at_)), st1. split; [done|]. split; [done|]. split; [lia|]. split; [|lia].
      apply not_true_is_false. intros E. by apply Hok in E.
Qed.

(** [__asan_region_is_poisoned] answers the first byte of the region that may
    not be used, and null when there is none; like a guard it changes nothing
    but granules of frames that returned, and it always answers. *)
Theorem region_poisoned_exact st address size here :
  shadow_wf (gs_shadow st) -> 0 <= address -> 0 <= size < 2 ^ 64 -> address + size <= 2 ^ s_bits (gs_shadow st) ->
  exists r st', __asan_region_is_poisoned address size here st = (Some r, st')
    /\ settles (gs_shadow st) (gs_shadow st') here
    /\ first_denied (gs_shadow st) here address size r.
Proof.
  intros Hwf Ha Hs Hend. unfold __asan_region_is_poisoned. destruct (Z.eqb_spec size 0) as [->|Hne].
  { exists None, st. split; [done|]. split; [by apply settles_refl|]. intros a. lia. }
  unfold mbind, G_bind. destruct (range_ok_run st address size here) as (ok & st1 & -> & Hset & Hok); [done|lia|lia|].
  pose proof Hset as (Hwf1 & Hb1 & _). destruct ok.
  - exists None, st1. split; [done|]. split; [done|]. intros a Hb. apply Hok; [done|lia].
  - destruct (firstPoisoned_run (Z.to_nat size) address here 0 st1) as (r & st' & -> & Hset' & Hr);
      [done|done|lia|rewrite Hb1; lia|].
    exists r, st'. split; [done|]. split; [by apply settles_trans with (gs_shadow st1)|].
    rewrite Z.add_0_r, Z2Nat.id in Hr by lia.
    assert (Hu : forall a, usable (gs_shadow st1) here a = usable (gs_shadow st) here a) by (intros a; by apply settles_usable).
    destruct r as [bad|]; cbn in Hr |- *; setoid_rewrite Hu in Hr; done.
Qed.
End Answered.
