(* ===== verification/Globals.v ===== *)
(** * Redzones after globals

    [instrumentGlobals] of [lib/Frontend/GuardGlobals.cpp]: each global the
    unit defines exactly is replaced by one that holds it and a redzone, and
    hooks around the program hand the runtime a record of each.  What LLVM
    says of a global (its linkage, whether the definition is exact, the size
    of its type) is in the global's record; the addresses are the loader's.
    The theorem composes the pass with the runtime's registration, of the file
    GuardEntry. *)

From Stdlib Require Import String.
From S2P Require Import Prelude Shadow Report Guard GuardEntry Frames FramesFacts.
Local Open Scope Z_scope.

(** ** Globals of a unit *)

Inductive Linkage :=
  | ExternalLinkage | AvailableExternallyLinkage | LinkOnceAnyLinkage | LinkOnceODRLinkage | WeakAnyLinkage
  | WeakODRLinkage | AppendingLinkage | InternalLinkage | PrivateLinkage | ExternalWeakLinkage | CommonLinkage.

#[export] Instance Linkage_eq : EqDecision Linkage.
Proof. solve_decision. Defined.

(** A type: one of the program, with its size as allocated ([None] when it is
    a multiple of the vector length), the structure of a type and a redzone,
    or the array of [n] records. *)
Inductive ValueType :=
  | TypeOf (allocSize : option Z)
  | WithZone (inner : ValueType) (zone : Z)
  | RecordArray (n : Z).

(** An initializer: one of the program, one with the redzone's zeros, or the
    records (a global's name, its size, the size with its redzone). *)
Inductive Initializer :=
  | Initial (value : nat)
  | WithZeros (value : Initializer) (zeros : Z)
  | Records (records : list (string * Z * Z)).

Record GlobalVariable := mkVariable {
  gv_name : string;
  gv_type : ValueType;
  gv_initializer : option Initializer;
  gv_constant : bool;
  gv_linkage : Linkage;
  gv_declaration : bool;
  gv_exactDefinition : bool;
  gv_interposable : bool;
  gv_threadLocal : bool;
  gv_section : bool;
  gv_comdat : bool;
  gv_addressSpace : Z;
  gv_externallyInitialized : bool;
  gv_globalUnnamedAddr : bool;
  gv_align : option Z
}.

Definition hasLocalLinkage (g : GlobalVariable) : bool :=
  bool_decide (gv_linkage g = InternalLinkage) || bool_decide (gv_linkage g = PrivateLinkage).

Definition getTypeAllocSize (t : ValueType) : option Z :=
  match t with TypeOf size => size | _ => None end.

(** Whether [global] gets a redzone. *)
Definition isTracked (g : GlobalVariable) : bool :=
  let name := gv_name g in
  if gv_declaration g || negb (bool_decide (is_Some (gv_initializer g))) || negb (gv_exactDefinition g)
     || gv_interposable g || bool_decide (gv_linkage g = CommonLinkage) || bool_decide (gv_linkage g = AppendingLinkage)
     || gv_threadLocal g || gv_section g || gv_comdat g || negb (gv_addressSpace g =? 0)
     || gv_externallyInitialized g
  then false
  else if String.prefix "llvm." name || String.prefix "__weavec" name || String.prefix "__llvm" name then false
  else if gv_constant g && gv_globalUnnamedAddr g && hasLocalLinkage g then false
  else if match gv_align g with Some align => 4096 <? align | None => false end then false
  else match getTypeAllocSize (gv_type g) with Some size => negb (size =? 0) | None => false end.

(** ** The pass *)

(** The size of a tracked global. *)
Definition sizeOf (g : GlobalVariable) : Z := default 0 (getTypeAllocSize (gv_type g)).

Definition replacement (g : GlobalVariable) : GlobalVariable :=
  let zone := paddedSize (sizeOf g) - sizeOf g in
  {| gv_name := gv_name g;
     gv_type := WithZone (gv_type g) zone;
     gv_initializer := option_map (fun i => WithZeros i zone) (gv_initializer g);
     gv_constant := gv_constant g;
     gv_linkage := gv_linkage g;
     gv_declaration := gv_declaration g;
     gv_exactDefinition := gv_exactDefinition g;
     gv_interposable := gv_interposable g;
     gv_threadLocal := gv_threadLocal g;
     gv_section := gv_section g;
     gv_comdat := gv_comdat g;
     gv_addressSpace := gv_addressSpace g;
     gv_externallyInitialized := gv_externallyInitialized g;
     gv_globalUnnamedAddr := gv_globalUnnamedAddr g;
     gv_align := Some (Z.max 32 (default 1 (gv_align g))) |}.

Definition recordOf (g : GlobalVariable) : string * Z * Z := (gv_name g, sizeOf g, paddedSize (sizeOf g)).

(** A function the pass makes, which calls a runtime entry point with the
    array and the number of its records. *)
Record Hook := mkHook { hk_name : string; hk_entry : string; hk_count : Z }.

Record Module_ := mkModule {
  md_globals : list GlobalVariable;
  md_ctors : list (Z * Hook);
  md_dtors : list (Z * Hook)
}.

Definition recordArray (records : list (string * Z * Z)) : GlobalVariable :=
  {| gv_name := "__weavec.globals";
     gv_type := RecordArray (Z.of_nat (length records));
     gv_initializer := Some (Records records);
     gv_constant := true;
     gv_linkage := PrivateLinkage;
     gv_declaration := false; gv_exactDefinition := true; gv_interposable := false; gv_threadLocal := false;
     gv_section := false; gv_comdat := false; gv_addressSpace := 0; gv_externallyInitialized := false;
     gv_globalUnnamedAddr := false; gv_align := None |}.

Definition instrumentGlobals (m : Module_) : Module_ :=
  let globals := List.filter isTracked (md_globals m) in
  match globals with
  | [] => m
  | _ =>
    let records := map recordOf globals in
    let n := Z.of_nat (length records) in
    mkModule (map (fun g => if isTracked g then replacement g else g) (md_globals m) ++ [recordArray records])
      (md_ctors m ++ [(1, mkHook "__weavec.globals.register" "__weavec_rt_globals_register" n)])
      (md_dtors m ++ [(1, mkHook "__weavec.globals.unregister" "__weavec_rt_globals_unregister" n)])
  end.

(** ** What the program loads *)

Definition recordsIn (g : GlobalVariable) : list (string * Z * Z) :=
  match gv_initializer g with Some (Records records) => records | _ => [] end.

(** The records a module's hooks pass to the runtime, at the loader's
    addresses. *)
Definition loaded (at_ : string -> Z) (m : Module_) : list global :=
  map (fun '(name, size, padded) => mkGlobal (at_ name) size padded) (flat_map recordsIn (md_globals m)).

(** The constructors of the module that register globals, in order. *)
Definition construct `{P : Pages} (at_ : string -> Z) (m : Module_) : G unit :=
  foldr (fun '(_, hook) rest =>
           if String.eqb (hk_entry hook) "__weavec_rt_globals_register"
           then __weavec_rt_globals_register (take (Z.to_nat (hk_count hook)) (loaded at_ m));; rest else rest)
        (mret tt) (md_ctors m).

(** A tracked global, as LLVM has it: its size, its alignment a power of two,
    not the pass's. *)
Definition variable_ok (g : GlobalVariable) : Prop :=
  recordsIn g = []
  /\ (isTracked g = true -> 0 <= sizeOf g < 2 ^ 62 /\ match gv_align g with Some a => exists k, 0 <= k /\ a = 2 ^ k | None => True end).

(** The bytes of a type, the padding behind a structure apart: of a structure,
    its fields'; of the array, its records'. *)
Fixpoint bytesOf (t : ValueType) : option Z :=
  match t with
  | TypeOf allocSize => allocSize
  | WithZone inner zone => match bytesOf inner with Some n => Some (n + zone) | None => None end
  | RecordArray n => Some (24 * n)
  end.

(** The bytes a global of a module has in the program's storage. *)
Definition storageOf (g : GlobalVariable) : option Z :=
  if gv_declaration g || gv_threadLocal g then None else bytesOf (gv_type g).

(** What the loader promises of a module: each global the module defines is
    aligned as it says, and has storage for its type, in the window and apart
    from the others'. *)
Record placed (bits : Z) (at_ : string -> Z) (m : Module_) : Prop := {
  pl_aligned : forall g, In g (md_globals m) ->
    match gv_align g with Some a => at_ (gv_name g) mod a = 0 | None => True end;
  pl_room : forall g n, In g (md_globals m) -> storageOf g = Some n -> 0 <= at_ (gv_name g) /\ at_ (gv_name g) + n <= 2 ^ bits;
  pl_apart : ForallOrdPairs (fun g h => forall n k, storageOf g = Some n -> storageOf h = Some k ->
                               at_ (gv_name g) + n <= at_ (gv_name h) \/ at_ (gv_name h) + k <= at_ (gv_name g))
               (md_globals m)
}.

Section Guarded.
Context `{P : Pages} (HP : pages_wf) (m : Module_) (Hm : forall g, In g (md_globals m) -> variable_ok g).

Definition tracked : list GlobalVariable := List.filter isTracked (md_globals m).

Lemma no_records l : (forall g, In g l -> recordsIn g = []) -> flat_map recordsIn l = [].
Proof.
  induction l as [|g l IH]; [done|]. intros H. cbn. rewrite H by by left. apply IH. intros h Hh. apply H. by right.
Qed.

Lemma replacement_records g : recordsIn g = [] -> recordsIn (if isTracked g then replacement g else g) = [].
Proof. case_match; [|done]. unfold recordsIn, replacement. cbn. by destruct (gv_initializer g). Qed.

(** The instrumented module's records are its tracked globals'. *)
Lemma instrumented_records at_ :
  loaded at_ (instrumentGlobals m) = map (fun g => mkGlobal (at_ (gv_name g)) (sizeOf g) (paddedSize (sizeOf g))) tracked.
Proof.
  unfold loaded, instrumentGlobals, tracked. destruct (List.filter isTracked (md_globals m)) as [|g0 l] eqn:E.
  - rewrite no_records; [done|]. intros g Hg. by apply Hm.
  - cbn [md_globals]. rewrite flat_map_app, no_records; cbn [flat_map recordArray recordsIn gv_initializer app].
    + rewrite app_nil_r, map_map. done.
    + intros g Hg. apply in_map_iff in Hg as (h & <- & Hh). apply replacement_records. by apply Hm.
Qed.

Lemma power_32 k : 0 <= k -> exists j, Z.max 32 (2 ^ k) = 32 * 2 ^ j /\ 0 <= j.
Proof.
  intros Hk. destruct (Z.le_gt_cases k 5).
  - exists 0. assert (2 ^ k <= 2 ^ 5) by (apply Z.pow_le_mono_r; lia). lia.
  - exists (k - 5). assert (2 ^ 5 <= 2 ^ k) by (apply Z.pow_le_mono_r; lia). rewrite Z.max_r by lia.
    split; [|lia]. change 32 with (2 ^ 5). rewrite <- Z.pow_add_r by lia. f_equal. lia.
Qed.

Lemma replaced g : In g tracked -> In (replacement g) (md_globals (instrumentGlobals m)).
Proof.
  intros Hg. pose proof Hg as [Hin Ht]%List.filter_In. unfold instrumentGlobals. fold tracked. destruct tracked as [|g0 l]; [done|].
  cbn [md_globals]. apply in_or_app. left. apply in_map_iff. exists g. by rewrite Ht.
Qed.

(** The storage of a replacement is the global's and its redzone's. *)
Lemma replacement_storage g : isTracked g = true -> storageOf (replacement g) = Some (paddedSize (sizeOf g)).
Proof.
  unfold isTracked, storageOf. cbn [replacement gv_declaration gv_threadLocal gv_type bytesOf].
  destruct (gv_declaration g); [done|]. destruct (gv_threadLocal g); [by rewrite ?orb_true_r|]. cbn [orb].
  destruct (gv_type g) as [[size|]| |] eqn:Et; cbn [bytesOf getTypeAllocSize]; try (repeat case_match; done).
  intros _. assert (Es : sizeOf g = size) by (unfold sizeOf; by rewrite Et). rewrite Es. f_equal. lia.
Qed.

Lemma pairs_filter {A} (R R' : A -> A -> Prop) (f : A -> A) (keep : A -> bool) l more :
  (forall x y, keep x = true -> keep y = true -> R (f x) (f y) -> R' x y) ->
  ForallOrdPairs R (map (fun x => if keep x then f x else x) l ++ more) -> ForallOrdPairs R' (List.filter keep l).
Proof.
  intros HR. induction l as [|x l IH]; cbn; [constructor|]. intros Hp. inversion Hp as [|? ? Hx Hl]; subst. specialize (IH Hl).
  destruct (keep x) eqn:Ex; [|done]. constructor; [|done]. apply List.Forall_forall. intros y [Hy Ey]%List.filter_In.
  apply HR; [done|done|]. apply (proj1 (List.Forall_forall _ _) Hx). apply in_or_app. left. apply in_map_iff. exists y. by rewrite Ey.
Qed.

Lemma tracked_apart bits at_ : placed bits at_ (instrumentGlobals m) ->
  ForallOrdPairs (fun g h => at_ (gv_name g) + paddedSize (sizeOf g) <= at_ (gv_name h)
                             \/ at_ (gv_name h) + paddedSize (sizeOf h) <= at_ (gv_name g)) tracked.
Proof.
  intros Hpl. pose proof (pl_apart _ _ _ Hpl) as Hap. unfold instrumentGlobals in Hap. fold tracked in Hap. destruct tracked as [|g0 l] eqn:E; [constructor|].
  rewrite <- E. unfold tracked. cbn [md_globals] in Hap. eapply pairs_filter; [|exact Hap]. cbv beta. intros x y Hx Hy Hxy.
  exact (Hxy _ _ (replacement_storage x Hx) (replacement_storage y Hy)).
Qed.

Lemma aligned_32 bits at_ g : placed bits at_ (instrumentGlobals m) -> In g tracked -> at_ (gv_name g) mod 32 = 0.
Proof.
  intros Hpl Hg. pose proof Hg as [Hin Ht]%List.filter_In. destruct (Hm g Hin) as [_ Hv]. destruct (Hv Ht) as [_ Hal].
  pose proof (replaced g Hg) as Hr.
  pose proof (pl_aligned _ _ _ Hpl _ Hr) as Ha. cbn in Ha.
  assert (Hk : exists j, Z.max 32 (default 1 (gv_align g)) = 32 * 2 ^ j /\ 0 <= j).
  { destruct (gv_align g) as [a|]; [destruct Hal as (k & Hk & ->); by apply power_32|by apply (power_32 0)]. }
  destruct Hk as (j & Ej & Hj). rewrite Ej in Ha. pose proof (Z.pow_pos_nonneg 2 j).
  apply Z.mod_divide in Ha; [|lia]. apply Z.mod_divide; [lia|]. eapply Z.divide_trans; [|exact Ha]. apply Z.divide_factor_l.
Qed.

Lemma loaded_ok st at_ :
  placed (s_bits (gs_shadow st)) at_ (instrumentGlobals m) ->
  Forall (global_ok (gs_shadow st)) (loaded at_ (instrumentGlobals m)) /\ ForallOrdPairs apart (loaded at_ (instrumentGlobals m)).
Proof.
  intros Hpl. rewrite instrumented_records. split.
  - apply List.Forall_forall. intros x Hx. apply in_map_iff in Hx as (g & <- & Hg).
    pose proof (aligned_32 _ _ g Hpl Hg) as Hal. pose proof (replaced g Hg) as Hr. apply List.filter_In in Hg as [Hin Ht].
    destruct (Hm g Hin) as [_ Hv]. destruct (Hv Ht) as [Hs _].
    destruct (pl_room _ _ _ Hpl _ _ Hr (replacement_storage g Ht)) as [H1 H2]. cbn in H1, H2.
    destruct (paddedSize_spec (sizeOf g) ltac:(lia)) as (P1 & P2 & _). unfold global_ok, padded_ok. cbn.
    split_and!; try (done || lia || euclid).
  - pose proof (tracked_apart _ _ Hpl) as Hap. induction Hap as [|g l Hg Hl IH]; [constructor|].
    cbn [map]. constructor; [|apply IH]. apply List.Forall_forall. intros x Hx. apply in_map_iff in Hx as (h & <- & Hh).
    exact (proj1 (List.Forall_forall _ _) Hg h Hh).
Qed.

Lemma skip_ctors (f : Z * Hook -> G unit -> G unit) z ctors last :
  (forall c rest, In c ctors -> f c rest = rest) -> foldr f z (ctors ++ last) = foldr f z last.
Proof.
  induction ctors as [|c ctors IH]; intros Hskip; [done|]. cbn [app foldr]. rewrite Hskip by by left. apply IH. intros c' rest Hc. apply Hskip. by right.
Qed.

(** C30: composed with the runtime, the pass guards the unit's globals: once the
    hook it adds has run, wherever the loader put them, exactly the bytes of
    each global that is tracked are addressable up to its end, and the at
    least 32 bytes of redzone behind it are not.  The loader's promise is about
    the types of the instrumented module: room for a redzone is there because
    the replacement's type has it.  The unit's own constructors register no
    globals: it was not instrumented before. *)
Theorem globals_guarded st at_ g a :
  (forall c, In c (md_ctors m) -> hk_entry (snd c) <> "__weavec_rt_globals_register"%string) ->
  shadow_wf (gs_shadow st) -> placed (s_bits (gs_shadow st)) at_ (instrumentGlobals m) ->
  0 <= gs_globalColors st -> gs_globalColors st + Z.of_nat (length (md_globals m)) < 2 ^ 64 ->
  In g (md_globals m) -> isTracked g = true ->
  at_ (gv_name g) <= a < at_ (gv_name g) + paddedSize (sizeOf g) ->
  let r := construct at_ (instrumentGlobals m) st in
  fst r = Some tt /\ addressable (gs_shadow (snd r)) a = (a <? at_ (gv_name g) + sizeOf g)
  /\ sizeOf g + 32 <= paddedSize (sizeOf g).
Proof.
  intros Hc Hwf Hpl Hn Hlen Hin Ht Ha r.
  assert (Hg : In g tracked) by by apply List.filter_In.
  destruct (loaded_ok st at_ Hpl) as [Hok Hap].
  assert (Er : r = (__weavec_rt_globals_register (loaded at_ (instrumentGlobals m));; mret tt) st).
  { subst r. unfold construct. unfold instrumentGlobals at 2. fold tracked. destruct tracked as [|g0 l] eqn:E; [done|].
    cbn [md_ctors]. rewrite skip_ctors.
    2:{ intros [n hook] rest Hin'. pose proof (Hc _ Hin') as Hne. apply String.eqb_neq in Hne. cbn in Hne |- *. by rewrite Hne. }
    cbn [foldr hk_entry hk_count].
    replace (String.eqb "__weavec_rt_globals_register" "__weavec_rt_globals_register") with true by (symmetry; apply String.eqb_refl).
    rewrite instrumented_records, E, length_map, Nat2Z.id.
    rewrite firstn_all2; [done|]. by rewrite length_map. }
  rewrite Er. destruct (register_spec HP (loaded at_ (instrumentGlobals m)) st Hwf Hok Hap Hn) as (H1 & _ & _ & _ & H5 & _).
  { rewrite instrumented_records, length_map. pose proof (List.filter_length_le isTracked (md_globals m)) as Hle. unfold tracked. lia. }
  unfold mbind, G_bind. destruct (__weavec_rt_globals_register _ st) as [o st']. cbn in H1, H5. subst o. cbn. split; [done|]. split.
  - apply (H5 (mkGlobal (at_ (gv_name g)) (sizeOf g) (paddedSize (sizeOf g)))); [|exact Ha].
    rewrite instrumented_records. apply in_map_iff. by exists g.
  - destruct (Hm g Hin) as [_ Hv]. destruct (Hv Ht) as [Hs _]. by apply paddedSize_spec.
Qed.

(** What [dlclose] leaves: after the other hook has run the granules of the
    globals read 0, as memory nobody wrote, and no other changed. *)
Lemma unregister_spec globals : forall st,
  shadow_wf (gs_shadow st) -> Forall (global_ok (gs_shadow st)) globals ->
  let r := __weavec_rt_globals_unregister globals st in
  fst r = Some tt /\ shadow_wf (gs_shadow (snd r)) /\ s_bits (gs_shadow (snd r)) = s_bits (gs_shadow st)
  /\ (forall k, (exists g, In g globals /\ gl_address g / 16 <= k < (gl_address g + gl_padded g) / 16) ->
        gval (gs_shadow (snd r)) k = 0)
  /\ (forall k, (forall g, In g globals -> ~ (gl_address g / 16 <= k < (gl_address g + gl_padded g) / 16)) ->
        gval (gs_shadow (snd r)) k = gval (gs_shadow st) k).
Proof.
  induction globals as [|g rest IH]; intros st Hwf Hok.
  { cbn. split_and!; try done. by intros k (? & [] & _). }
  apply Forall_cons_iff in Hok as [Hg Hok]. pose proof Hg as (G1 & G2 & G3 & G4 & G5 & G6 & G7). cbn zeta.
  assert (H63 : 2 ^ s_bits (gs_shadow st) <= 2 ^ 63) by (pose proof (wf_bits _ Hwf); apply Z.pow_le_mono_r; lia).
  cbn [__weavec_rt_globals_unregister]. unfold mbind, G_bind, on_shadow, modify. cbn -[__weavec_rt_globals_unregister].
  unfold add64. rewrite wrap64_small by lia.
  set (s1 := weavecRtShadowClear (gs_shadow st) (gl_address g) (gl_address g + gl_padded g)).
  assert (W1 : shadow_wf s1) by by apply shadowClear_wf.
  assert (B1 : s_bits s1 = s_bits (gs_shadow st)) by (subst s1; unfold weavecRtShadowClear; by repeat case_match).
  destruct (IH (with_shadow st s1)) as (H1 & H2 & H3 & H4 & H5); [done| |].
  { eapply List.Forall_impl; [|exact Hok]. unfold global_ok, padded_ok. cbn. by rewrite B1. }
  cbn in H3, H5. split; [exact H1|]. split; [exact H2|]. split; [by rewrite H3|].
  assert (Hk : forall k, gval s1 k = if decide (gl_address g / 16 <= k < (gl_address g + gl_padded g) / 16) then 0 else gval (gs_shadow st) k).
  { intros k. subst s1. rewrite (shadowClear_gval HP) by (done || lia). repeat case_decide; try done; exfalso; euclid. }
  assert (Hrest : forall k, (exists h, In h rest /\ gl_address h / 16 <= k < (gl_address h + gl_padded h) / 16)
                            \/ forall h, In h rest -> ~ (gl_address h / 16 <= k < (gl_address h + gl_padded h) / 16)).
  { clear. intros k. induction rest as [|h rest IH]; [by right|]. destruct IH as [(x & Hx & Hr)|Hno]; [left; exists x; by split; [right|]|].
    destruct (decide (gl_address h / 16 <= k < (gl_address h + gl_padded h) / 16)) as [Hh|Hh]; [left; exists h; by split; [left|]|].
    right. intros x [<-|Hx]; [done|by apply Hno]. }
  split; intros k Hin.
  - destruct (Hrest k) as [Hr|Hno]; [by apply H4|]. rewrite H5, Hk by done. destruct Hin as (h & [<-|Hh] & Hr).
    + by rewrite decide_True.
    + by destruct (Hno h Hh).
  - rewrite H5, Hk by (intros h Hh; apply Hin; by right). rewrite decide_False; [done|]. apply Hin. by left.
Qed.
End Guarded.
