(* ===== verification/Libc.v ===== *)
(** * The checked library calls

    [runtime/weavec_libc.c], but its formats (the file LibcFormat): the
    versions of C library functions the pass redirects calls to.  Each checks
    the bytes the call will read and write (a search or a comparison those it
    read), and calls.  A call is a computation over the guards' state, the
    program's memory and its input; it answers [None] when a check stops the
    program or a read leaves what is mapped.

    The C library is the class [Machine]: what a call answers and how it
    leaves memory ([library]), what a formatted write produces ([formatted]),
    what a number parser reads ([parser]), and the sizes of its types.
    [memmove], the comparisons and the character classes are written out. *)

From Stdlib Require Import String.
From S2P Require Import Prelude Shadow Report Guard GuardEntry.
Local Open Scope Z_scope.

Class Machine := {
  mappedEnd : Z;                                           (* where mapped memory ends *)
  sizeof : string -> Z;
  library : string -> list Z -> (Z -> Z) -> Z * (Z -> Z);
  formatted : (Z -> Z) -> Z -> list Z -> option (list Z);  (* [None]: the call fails *)
  parser : string -> (Z -> Z) -> Z -> Z -> Z * Z;          (* its value, where it stopped *)
  inputFails : bool                                        (* ferror(stdin) at the end of input *)
}.

(** ** Computations *)

Record cstate := mkC {
  cs_guard : gstate;
  cs_mem : Z -> Z;
  cs_input : list Z
}.

Definition C (A : Type) : Type := cstate -> option A * cstate.

#[export] Instance C_ret : MRet C := fun A a st => (Some a, st).
#[export] Instance C_bind : MBind C := fun A B f c st =>
  match c st with
  | (Some a, st') => f a st'
  | (None, st') => (None, st')
  end.

Definition when (b : bool) (c : C unit) : C unit := if b then c else mret tt.
Definition stopped {A} : C A := fun st => (None, st).
Definition or_stopped {A} (a : option A) : C A := fun st => (a, st).
Definition memory : C (Z -> Z) := fun st => (Some (cs_mem st), st).
Definition setMemory (m : Z -> Z) : C unit := fun st => (Some tt, mkC (cs_guard st) m (cs_input st)).
Definition guardState : C gstate := fun st => (Some (cs_guard st), st).

Definition theInput : C (list Z) := fun st => (Some (cs_input st), st).
Definition setInput (rest : list Z) : C unit := fun st => (Some tt, mkC (cs_guard st) (cs_mem st) rest).

(** [memmove]. *)
Definition memmove (m : Z -> Z) (to from n : Z) : Z -> Z :=
  fun a => if (to <=? a) && (a <? to + n) then m (from + (a - to)) else m a.

Definition poke (m : Z -> Z) (a v : Z) : Z -> Z := fun x => if x =? a then v else m x.

Definition MaxLength : Z := 2 ^ 64 - 1.

Section Calls.
Context {T : Thread} {H : HeapView} {M : Machine} (here : Z).

(** What a guard reads of the program's memory. *)
Definition reading (m : Z -> Z) : Bytes := {| b_at := m; b_end := mappedEnd |}.

(** A computation of the guards. *)
Definition guarded {A} (f : Bytes -> G A) : C A := fun st =>
  let '(r, g) := f (reading (cs_mem st)) (cs_guard st) in (r, mkC g (cs_mem st) (cs_input st)).

(** A call of the C library. *)
Definition call (name : string) (arguments : list Z) : C Z := fun st =>
  let '(result, m) := library name arguments (cs_mem st) in (Some result, mkC (cs_guard st) m (cs_input st)).

(** Reads [n] bytes of memory. *)
Definition load (a : Z) (n : nat) : C Z :=
  m ← memory;
  if mappedEnd <? a + Z.of_nat n then stopped else mret (load_le m a n).

(** ** Checks *)

Definition checkRange (address n : Z) (s : option site) : C unit :=
  if n =? 0 then mret tt
  else
    g ← guardState;
    when (negb (weavecRtQuickOk (gs_shadow g) address n)) (guarded (fun _ => __weavec_rt_range address n s here)).

Definition checkLimit (d n limit : Z) (write : site) : C unit :=
  when (limit <? n) (guarded (fun _ => __weavec_rt_limit_fail d n limit (Some write))).

Definition writeSite (s : option site) : site :=
  let line := match s with Some s => site_line s | None => 0 end in
  let column := match s with Some s => site_column s | None => 0 end in
  weavecRtSiteSet (weavecRtSiteFile s) line column (Z.lor (siteFlags s) WeavecRtSiteWrite).

Definition strlen (s max : Z) (si : option site) : C Z := guarded (fun _ => __weavec_rt_strlen s max si here).

Definition rangeOk (address n : Z) : C bool := guarded (fun _ => __weavec_rt_range_ok address n here).

Definition checkWrite (p n : Z) (s : option site) : C unit := checkRange p n (Some (writeSite s)).

(** A read of [n] bytes at [s] through null. *)
Definition readsNull (s n : Z) (si : option site) : C unit :=
  when ((s =? 0) && negb (n =? 0)) (guarded (fun _ => raise (Fails "null-dereference" 0 n) si)).

(** ** Strings *)

Definition copyString (d s limit : Z) (si : option site) : C Z :=
  n ← strlen s MaxLength si;
  let write := writeSite si in
  checkRange s (add64 n 1) si;;
  checkRange d (add64 n 1) (Some write);;
  checkLimit d (add64 n 1) limit write;;
  when (negb (d =? s) && (d <? add64 (add64 s n) 1) && (s <? add64 (add64 d n) 1))
    (guarded (fun _ => __weavec_rt_overlap d s (add64 n 1) (Some write)));;
  m ← memory;
  setMemory (memmove m d s (add64 n 1));;
  mret n.

Definition __weavec_rt_strcpy (d s limit : Z) (si : option site) : C Z :=
  copyString d s limit si;; mret d.

Definition __weavec_rt_stpcpy (d s limit : Z) (si : option site) : C Z :=
  n ← copyString d s limit si; mret (add64 d n).

(** The [memcpy] of operands that overlap, which C does not define, moves. *)
Definition __weavec_rt_strcat (d s limit : Z) (si : option site) : C Z :=
  at_ ← strlen d MaxLength si;
  n ← strlen s MaxLength si;
  let write := writeSite si in
  checkRange d (add64 (add64 at_ n) 1) (Some write);;
  checkLimit d (add64 (add64 at_ n) 1) limit write;;
  m ← memory;
  setMemory (memmove m (add64 d at_) s (add64 n 1));;
  mret d.

(** [gets]: the loop over the input, [n] bytes written so far; whether the
    line ended, or the input did. *)
Fixpoint getsFrom (input : list Z) (d n limit : Z) (write : site) : C (Z * bool * list Z) :=
  match input with
  | [] => mret (n, false, [])
  | c :: rest =>
    if c =? 10 then mret (n, true, rest)
    else
      checkRange (add64 d n) 1 (Some write);;
      checkLimit d (add64 n 1) limit write;;
      m ← memory;
      setMemory (poke m (add64 d n) c);;
      getsFrom rest d (add64 n 1) limit write
  end.

Definition __weavec_rt_gets (d limit : Z) (si : option site) : C Z :=
  let write := writeSite si in
  input ← theInput;
  r ← getsFrom input d 0 limit write;
  let '(n, ended, rest) := r in
  setInput rest;;
  if negb ended && ((n =? 0) || inputFails) then mret 0
  else
    checkRange (add64 d n) 1 (Some write);;
    checkLimit d (add64 n 1) limit write;;
    m ← memory;
    setMemory (poke m (add64 d n) 0);;
    mret d.

(** ** Comparisons *)

Definition tolower (c : Z) : Z := if (65 <=? c) && (c <=? 90) then c + 32 else c.

(** The loop from [i]: the result and how many bytes were read; [None] when it
    reads past what is mapped. *)
Fixpoint compareFrom (fuel : nat) (m : Z -> Z) (a b n i : Z) (folded : bool) : option (Z * Z) :=
  match fuel with
  | O => None
  | S fuel' =>
    if n <=? i then Some (0, i)
    else if (mappedEnd <=? a + i) || (mappedEnd <=? b + i) then None
    else
      let x := if folded then tolower (m (a + i)) else m (a + i) in
      let y := if folded then tolower (m (b + i)) else m (b + i) in
      if negb (x =? y) || (x =? 0) then Some (x - y, i + 1) else compareFrom fuel' m a b n (i + 1) folded
  end.

Definition compareFuel (a b n : Z) : nat := Z.to_nat (Z.min n (Z.max 0 (mappedEnd - Z.max a b)) + 1).

Definition compare (a b n : Z) (folded : bool) (si : option site) : C Z :=
  readsNull a n si;;
  readsNull b n si;;
  m ← memory;
  r ← or_stopped (compareFrom (compareFuel a b n) m a b n 0 folded);
  let '(result, i) := r in
  checkRange a i si;;
  checkRange b i si;;
  mret result.

Definition __weavec_rt_strcmp (a b : Z) (si : option site) : C Z := compare a b MaxLength false si.
Definition __weavec_rt_strncmp (a b n : Z) (si : option site) : C Z := compare a b n false si.
Definition __weavec_rt_strcasecmp (a b : Z) (si : option site) : C Z := compare a b MaxLength true si.
Definition __weavec_rt_strncasecmp (a b n : Z) (si : option site) : C Z := compare a b n true si.

(** ** Mappings *)

Definition MapFailed : Z := 2 ^ 64 - 1.

Definition __weavec_rt_mmap `{P : Pages} (address length protection flags fd offset : Z) (si : option site) : C Z :=
  mapped ← call "mmap" [address; length; protection; flags; fd; offset];
  when (negb (mapped =? MapFailed))
    (guarded (fun _ => on_shadow (fun s => weavecRtShadowClear s mapped (add64 mapped length))));;
  mret mapped.

Definition __weavec_rt_munmap `{P : Pages} (address length : Z) (si : option site) : C Z :=
  result ← call "munmap" [address; length];
  when (result =? 0)
    (guarded (fun _ => on_shadow (fun s => weavecRtShadowClear s address (add64 address length))));;
  mret result.

(** ** Number parsing *)

Definition isspace (c : Z) : bool := (c =? 32) || ((9 <=? c) && (c <=? 13)).

(** The white space from [at_]; [None] past what is mapped. *)
Fixpoint skipSpace (fuel : nat) (m : Z -> Z) (at_ : Z) : option Z :=
  match fuel with
  | O => None
  | S fuel' =>
    if mappedEnd <=? at_ then None
    else if isspace (m at_) then skipSpace fuel' m (at_ + 1) else Some at_
  end.

(** The bytes a parser read: to where it stopped, or when it converted nothing
    to what refused. *)
Definition parsedLength (m : Z -> Z) (s end_ : Z) : option Z :=
  if negb (end_ =? s) then Some (end_ - s + 1)
  else
    match skipSpace (Z.to_nat (Z.max 0 (mappedEnd - s) + 1)) m s with
    | Some at_ => Some ((if (m at_ =? 43) || (m at_ =? 45) then at_ + 1 else at_) - s + 1)
    | None => None
    end.

Definition parsed (s end_ out : Z) (si : option site) : C unit :=
  m ← memory;
  read ← or_stopped (parsedLength m s end_);
  checkRange s read si;;
  when (negb (out =? 0))
    (checkRange out 8 (Some (writeSite si));;
     m ← memory;
     setMemory (store_le m out 8 end_)).

(** The function [WEAVEC_RT_PARSER] defines for [name]. *)
Definition parserCall (name : string) (s end_ base : Z) (si : option site) : C Z :=
  readsNull s 1 si;;
  m ← memory;
  let '(value, stop) := parser name m s base in
  parsed s stop end_ si;;
  mret value.

Definition __weavec_rt_strtol (s end_ base : Z) := parserCall "strtol" s end_ base.
Definition __weavec_rt_strtoll (s end_ base : Z) := parserCall "strtoll" s end_ base.
Definition __weavec_rt_strtoul (s end_ base : Z) := parserCall "strtoul" s end_ base.
Definition __weavec_rt_strtoull (s end_ base : Z) := parserCall "strtoull" s end_ base.
Definition __weavec_rt_strtoimax (s end_ base : Z) := parserCall "strtoimax" s end_ base.
Definition __weavec_rt_strtoumax (s end_ base : Z) := parserCall "strtoumax" s end_ base.

(** [WEAVEC_RT_FLOAT_PARSER]'s: no base. *)
Definition __weavec_rt_strtod (s end_ : Z) := parserCall "strtod" s end_ 0.
Definition __weavec_rt_strtof (s end_ : Z) := parserCall "strtof" s end_ 0.
Definition __weavec_rt_strtold (s end_ : Z) := parserCall "strtold" s end_ 0.

Definition signed32 (x : Z) : Z := let x := x mod 2 ^ 32 in if x <? 2 ^ 31 then x else x - 2 ^ 32.

Definition __weavec_rt_atoi (s : Z) (si : option site) : C Z :=
  value ← __weavec_rt_strtol s 0 10 si; mret (signed32 value).
Definition __weavec_rt_atol (s : Z) := __weavec_rt_strtol s 0 10.
Definition __weavec_rt_atoll (s : Z) := __weavec_rt_strtoll s 0 10.
Definition __weavec_rt_atof (s : Z) := __weavec_rt_strtod s 0.

(** ** Bytes a type or a structure gives *)

(** [struct iovec]: a pointer and a length. *)
Definition iovecBytes : Z := 16.

Definition checkVector (v : Z) (write : bool) (si : option site) : C unit :=
  base ← load v 8;
  len ← load (v + 8) 8;
  if write then checkWrite base len si else checkRange base len si.

Fixpoint vectorsFrom (n : nat) (v : Z) (write : bool) (si : option site) : C unit :=
  match n with
  | O => mret tt
  | S n' => checkVector v write si;; vectorsFrom n' (v + iovecBytes) write si
  end.

Definition checkVectors (v count : Z) (write : bool) (si : option site) : C unit :=
  if count <=? 0 then mret tt
  else
    checkRange v (count * iovecBytes) si;;
    vectorsFrom (Z.to_nat count) v write si.

Definition __weavec_rt_readv (fd v count : Z) (si : option site) : C Z :=
  checkVectors v count true si;; call "readv" [fd; v; count].
Definition __weavec_rt_writev (fd v count : Z) (si : option site) : C Z :=
  checkVectors v count false si;; call "writev" [fd; v; count].
Definition __weavec_rt_preadv (fd v count offset : Z) (si : option site) : C Z :=
  checkVectors v count true si;; call "preadv" [fd; v; count; offset].
Definition __weavec_rt_pwritev (fd v count offset : Z) (si : option site) : C Z :=
  checkVectors v count false si;; call "pwritev" [fd; v; count; offset].

Definition checkBytes (write : bool) (p n : Z) (si : option site) : C unit :=
  if write then checkWrite p n si else checkRange p n si.

(** [struct msghdr], as 64-bit Linux lays it out: the address at 0, its length
    at 8 (four bytes), the vectors at 16, their number at 24, the control data
    at 32 and its length at 40. *)
Definition checkMessage (m : Z) (write : bool) (si : option site) : C unit :=
  checkBytes write m (sizeof "struct msghdr") si;;
  name ← load m 8;
  when (negb (name =? 0)) (namelen ← load (m + 8) 4; checkBytes write name namelen si);;
  iov ← load (m + 16) 8;
  iovlen ← load (m + 24) 8;
  checkVectors iov (signed32 iovlen) write si;;
  control ← load (m + 32) 8;
  when (negb (control =? 0)) (controllen ← load (m + 40) 8; checkBytes write control controllen si).

Definition __weavec_rt_recvmsg (fd m flags : Z) (si : option site) : C Z :=
  checkMessage m true si;; call "recvmsg" [fd; m; flags].
Definition __weavec_rt_sendmsg (fd m flags : Z) (si : option site) : C Z :=
  checkMessage m false si;; call "sendmsg" [fd; m; flags].

(** A line buffer of the capacity the caller states. *)
Definition checkLine (line n : Z) (si : option site) : C unit :=
  checkWrite line 8 si;;
  checkWrite n 8 si;;
  buffer ← load line 8;
  capacity ← load n 8;
  when (negb (buffer =? 0) && negb (capacity =? 0)) (checkWrite buffer capacity si).

Definition __weavec_rt_getline (line n stream : Z) (si : option site) : C Z :=
  checkLine line n si;; call "getline" [line; n; stream].
Definition __weavec_rt_getdelim (line n delimiter stream : Z) (si : option site) : C Z :=
  checkLine line n si;; call "getdelim" [line; n; delimiter; stream].

Definition AF_INET : Z := 2.
Definition AF_INET6 : Z := 10.
Definition familyBytes (family : Z) : Z :=
  if family =? AF_INET then 4 else if family =? AF_INET6 then 16 else 0.

Definition __weavec_rt_inet_pton (family text address : Z) (si : option site) : C Z :=
  _ ← strlen text MaxLength si;
  checkWrite address (familyBytes family) si;;
  call "inet_pton" [family; text; address].
Definition __weavec_rt_inet_ntop (family address text size : Z) (si : option site) : C Z :=
  checkRange address (familyBytes family) si;;
  checkWrite text size si;;
  call "inet_ntop" [family; address; text; size].

Definition __weavec_rt_stat (path out : Z) (si : option site) : C Z :=
  _ ← strlen path MaxLength si; checkWrite out (sizeof "struct stat") si;; call "stat" [path; out].
Definition __weavec_rt_lstat (path out : Z) (si : option site) : C Z :=
  _ ← strlen path MaxLength si; checkWrite out (sizeof "struct stat") si;; call "lstat" [path; out].
Definition __weavec_rt_fstat (fd out : Z) (si : option site) : C Z :=
  checkWrite out (sizeof "struct stat") si;; call "fstat" [fd; out].
Definition __weavec_rt_fstatat (fd path out flags : Z) (si : option site) : C Z :=
  _ ← strlen path MaxLength si; checkWrite out (sizeof "struct stat") si;; call "fstatat" [fd; path; out; flags].

Definition __weavec_rt_gmtime_r (time out : Z) (si : option site) : C Z :=
  checkRange time (sizeof "time_t") si;; checkWrite out (sizeof "struct tm") si;; call "gmtime_r" [time; out].
Definition __weavec_rt_localtime_r (time out : Z) (si : option site) : C Z :=
  checkRange time (sizeof "time_t") si;; checkWrite out (sizeof "struct tm") si;; call "localtime_r" [time; out].
Definition __weavec_rt_uname (out : Z) (si : option site) : C Z :=
  checkWrite out (sizeof "struct utsname") si;; call "uname" [out].

(** A buffer whose length the caller passes through [length], a [socklen_t]. *)
Definition checkLength (buffer length : Z) (si : option site) : C unit :=
  when (negb ((buffer =? 0) || (length =? 0)))
    (checkWrite length 4 si;; n ← load length 4; checkWrite buffer n si).

Definition __weavec_rt_getsockopt (fd level name value length : Z) (si : option site) : C Z :=
  checkLength value length si;; call "getsockopt" [fd; level; name; value; length].
Definition __weavec_rt_getsockname (fd address length : Z) (si : option site) : C Z :=
  checkLength address length si;; call "getsockname" [fd; address; length].
Definition __weavec_rt_getpeername (fd address length : Z) (si : option site) : C Z :=
  checkLength address length si;; call "getpeername" [fd; address; length].
Definition __weavec_rt_accept (fd address length : Z) (si : option site) : C Z :=
  checkLength address length si;; call "accept" [fd; address; length].
Definition __weavec_rt_recvfrom (fd buffer n flags address length limit : Z) (si : option site) : C Z :=
  checkWrite buffer n si;;
  checkLimit buffer n limit (writeSite si);;
  checkLength address length si;;
  call "recvfrom" [fd; buffer; n; flags; address; length].

Definition IF_NAMESIZE : Z := 16.
Definition __weavec_rt_if_indextoname (index name : Z) (si : option site) : C Z :=
  checkWrite name IF_NAMESIZE si;; call "if_indextoname" [index; name].

(** ** Wide strings *)

(** [wcsnlen] over the mapped elements. *)
Fixpoint wcsnlenFrom (fuel : nat) (m : Z -> Z) (s max i : Z) : option Z :=
  match fuel with
  | O => None
  | S fuel' =>
    if max <=? i then Some max
    else if mappedEnd <? s + (i + 1) * sizeof "wchar_t" then None
    else if load_le m (s + i * sizeof "wchar_t") (Z.to_nat (sizeof "wchar_t")) =? 0 then Some i
    else wcsnlenFrom fuel' m s max (i + 1)
  end.

Definition wideFuel (s max : Z) : nat := Z.to_nat (Z.min max (Z.max 0 (mappedEnd - s)) + 1).

Fixpoint wcslenFrom (fuel : nat) (s max length : Z) (si : option site) : C Z :=
  match fuel with
  | O => stopped
  | S fuel' =>
    if max <=? length then mret max
    else
      let wide := sizeof "wchar_t" in
      let at_ := add64 s (length * wide) in
      g ← guardState;
      ok ← (if weavecRtQuickOk (gs_shadow g) at_ wide then mret true else rangeOk at_ wide);
      if negb ok then
        guarded (fun _ => raise (Fails "unterminated-string" s ((length + 1) * wide)) si);;
        m ← memory;
        rest ← or_stopped (wcsnlenFrom (wideFuel at_ (max - length)) m at_ (max - length) 0);
        mret (length + rest)
      else
        c ← load at_ (Z.to_nat wide);
        if c =? 0 then mret length else wcslenFrom fuel' s max (length + 1) si
  end.

Definition __weavec_rt_wcslen (s max : Z) (si : option site) : C Z :=
  if s =? 0 then
    when (match si with None => true | Some si => Z.land (site_flags si) WeavecRtSiteNullOk =? 0 end)
      (guarded (fun _ => raise (Fails "null-dereference" 0 (sizeof "wchar_t")) si));;
    mret 0
  else wcslenFrom (wideFuel s max) s max 0 si.
End Calls.
