(* ===== verification/LibcFormat.v ===== *)
(** * Checked formats

    The formatted calls of [runtime/weavec_libc.c]: [checkFormat] reads a
    [printf] format for the arguments that name memory and checks each before
    the call, [checkScanned] checks after a [scanf] call what its conversions
    wrote.

    A pointer into the format is the list of the mapped bytes from it on: a
    read of the empty list leaves what is mapped, and the answer is [None].
    The arguments of a variadic call are a list, one entry per argument. *)

From Stdlib Require Import String.
From S2P Require Import Prelude Shadow Report Guard GuardEntry Libc.
Local Open Scope Z_scope.

(** ** Reading a format *)

Inductive ArgumentKind :=
  | ArgumentNone | ArgumentInt | ArgumentLong | ArgumentLongLong | ArgumentDouble | ArgumentLongDouble
  | ArgumentPointer | ArgumentString | ArgumentTarget.

#[export] Instance ArgumentKind_eq : EqDecision ArgumentKind.
Proof. solve_decision. Defined.

Definition FormatArguments : Z := 64.

Record FormatUse := mkUse {
  fu_kind : ArgumentKind;
  fu_precision : Z;
  fu_precisionArgument : Z;
  fu_bytes : Z
}.

Definition noUse : FormatUse := mkUse ArgumentNone 0 0 0.

(** What the scan of a format knows: [uses], [count] and [next]. *)
Record walk := mkWalk { w_uses : list FormatUse; w_count : Z; w_next : Z }.

Definition startWalk : walk := mkWalk (replicate 64 noUse) 0 1.

Definition isdigit (c : Z) : bool := (48 <=? c) && (c <=? 57).

(** A decimal number, -1 when there is none or it is over 100000. *)
Fixpoint readNumberFrom (value : Z) (at_ : list Z) : option (Z * list Z) :=
  match at_ with
  | [] => None
  | c :: rest =>
    if isdigit c then
      let value := (if value <? 0 then 0 else value * 10) + (c - 48) in
      if 100000 <? value then Some (-1, rest) else readNumberFrom value rest
    else Some (value, at_)
  end.

Definition readNumber (at_ : list Z) : option (Z * list Z) := readNumberFrom (-1) at_.

Definition setUse (w : walk) (index : Z) (f : FormatUse -> FormatUse) : walk :=
  mkWalk (alter f (Z.to_nat (index - 1)) (w_uses w)) (w_count w) (w_next w).

Definition use (w : walk) (index : Z) (kind : ArgumentKind) : option walk :=
  if (index <? 1) || (FormatArguments <? index) then None
  else
    let w := setUse w index (fun u =>
      if decide (fu_kind u = ArgumentNone)
      then mkUse kind (fu_precision u) (fu_precisionArgument u) (fu_bytes u) else u) in
    Some (mkWalk (w_uses w) (if w_count w <? index then index else w_count w) (w_next w)).

Definition isFlag (c : Z) : bool :=
  (c =? 45) || (c =? 43) || (c =? 32) || (c =? 35) || (c =? 48) || (c =? 39).

Fixpoint skipFlags (at_ : list Z) : option (list Z) :=
  match at_ with
  | [] => None
  | c :: rest => if negb (c =? 0) && isFlag c then skipFlags rest else Some at_
  end.

(** A star's argument, its number read: [3$], or the next. *)
Definition starArgument (w : walk) (at_ : list Z) : option (Z * walk * list Z) :=
  '(n, at_) ← readNumber at_;
  c ← head at_;
  if (0 <? n) && (c =? 36) then Some (n, w, tail at_)
  else Some (w_next w, mkWalk (w_uses w) (w_count w) (w_next w + 1), at_).

(** What a part of a specification says: go on, or the scan ends. *)
Inductive part (A : Type) := Go (a : A) | Break (w : walk).
Arguments Go {A} a.
Arguments Break {A} w.

Definition readWidth (w : walk) (at_ : list Z) : option (part (walk * list Z)) :=
  c ← head at_;
  if c =? 42 then
    '(n, w, at_) ← starArgument w (tail at_);
    Some (match use w n ArgumentInt with Some w => Go (w, at_) | None => Break w end)
  else
    '(_, at_) ← readNumber at_;
    Some (Go (w, at_)).

(** The precision and the argument that holds it. *)
Definition readPrecision (w : walk) (at_ : list Z) : option (part (Z * Z * walk * list Z)) :=
  c ← head at_;
  if c =? 46 then
    c ← head (tail at_);
    if c =? 42 then
      '(n, w, at_) ← starArgument w (tail (tail at_));
      Some (match use w n ArgumentInt with Some w => Go (-1, n, w, at_) | None => Break w end)
    else
      '(precision, at_) ← readNumber (tail at_);
      Some (Go ((if precision <? 0 then 0 else precision), 0, w, at_))
  else Some (Go (-1, 0, w, at_)).

(** The length modifier: 0 int, 1 long, 2 long long, 3 intmax, 4 size,
    5 ptrdiff, 6 long double, -1 char, -2 short. *)
Definition readSize (at_ : list Z) : option (Z * list Z) :=
  c ← head at_;
  if c =? 104 then
    c ← head (tail at_); Some (if c =? 104 then (-1, tail (tail at_)) else (-2, tail at_))
  else if c =? 108 then
    c ← head (tail at_); Some (if c =? 108 then (2, tail (tail at_)) else (1, tail at_))
  else if c =? 106 then Some (3, tail at_)
  else if c =? 122 then Some (4, tail at_)
  else if c =? 116 then Some (5, tail at_)
  else if c =? 76 then Some (6, tail at_)
  else Some (0, at_).

Definition one_of (c : Z) (l : list Z) : bool := existsb (Z.eqb c) l.

(** How a conversion reads its argument. *)
Definition conversionKind (c size : Z) : ArgumentKind :=
  if one_of c [100; 105; 111; 117; 120; 88; 99] then
    if size =? 2 then ArgumentLongLong else if 1 <=? size then ArgumentLong else ArgumentInt
  else if one_of c [101; 69; 102; 70; 103; 71; 97; 65] then
    if size =? 6 then ArgumentLongDouble else ArgumentDouble
  else if c =? 112 then ArgumentPointer
  else if c =? 115 then (if size =? 1 then ArgumentPointer else ArgumentString)
  else if c =? 110 then ArgumentTarget
  else ArgumentNone.

Definition targetBytes (size : Z) : Z :=
  if size =? -1 then 1 else if size =? -2 then 2 else if size =? 0 then 4 else 8.

(** A specification, after its [%]: the pointer to its conversion. *)
Definition readSpec (w : walk) (spec : list Z) : option (part (walk * list Z)) :=
  '(number, at_) ← readNumber spec;
  c ← head at_;
  let '(position, at_) := if (0 <? number) && (c =? 36) then (number, tail at_) else (0, spec) in
  at_ ← skipFlags at_;
  r ← readWidth w at_;
  match r with
  | Break w => Some (Break w)
  | Go (w, at_) =>
    r ← readPrecision w at_;
    match r with
    | Break w => Some (Break w)
    | Go (precision, precisionArgument, w, at_) =>
      '(size, at_) ← readSize at_;
      c ← head at_;
      let kind := conversionKind c size in
      if decide (kind = ArgumentNone) then Some (Break w)
      else
        let '(position, w) := if position =? 0 then (w_next w, mkWalk (w_uses w) (w_count w) (w_next w + 1))
                              else (position, w) in
        match use w position kind with
        | None => Some (Break w)
        | Some w =>
          let w := setUse w position (fun u => mkUse (fu_kind u) precision precisionArgument (targetBytes size)) in
          Some (if c =? 0 then Break w else Go (w, at_))
        end
    end
  end.

(** The loop over the format; [fuel] bounds its turns. *)
Fixpoint readFormat (fuel : nat) (w : walk) (at_ : list Z) : option walk :=
  match fuel with
  | O => None
  | S fuel' =>
    c ← head at_;
    if c =? 0 then Some w
    else if negb (c =? 37) then readFormat fuel' w (tail at_)
    else
      c ← head (tail at_);
      if c =? 37 then readFormat fuel' w (tail (tail at_))
      else
        r ← readSpec w (tail at_);
        match r with
        | Break w => Some w
        | Go (w, at_) => readFormat fuel' w (tail at_)
        end
  end.

Definition formatUses (at_ : list Z) : option walk := readFormat (S (length at_)) startWalk at_.

(** The arguments the uses read, up to the first the format does not say how
    to read; [None] for the value of one that is not an integer. *)
Fixpoint readArguments (uses : list FormatUse) (arguments : list Z) : option (list (option Z)) :=
  match uses with
  | [] => Some []
  | u :: rest =>
    let value (f : Z -> option Z) :=
      match arguments with
      | [] => None
      | a :: others => values ← readArguments rest others; Some (f a :: values)
      end in
    match fu_kind u with
    | ArgumentNone => Some []
    | ArgumentInt => value (fun a => Some (signed32 a))
    | ArgumentDouble | ArgumentLongDouble => value (fun _ => None)
    | ArgumentLong | ArgumentLongLong | ArgumentPointer | ArgumentString | ArgumentTarget => value Some
    end
  end.

(** ** Checking what it names *)

Section Formats.
Context {T : Thread} {H : HeapView} {M : Machine} (here : Z).

(** The mapped bytes from [a] on. *)
Definition mappedFrom (m : Z -> Z) (a : Z) : list Z :=
  map (fun i => m (a + Z.of_nat i)) (seq 0 (Z.to_nat (mappedEnd - a))).

Definition stringSite (s : option site) : site :=
  match s with
  | None => Site None 0 0 WeavecRtSiteNullOk
  | Some s => weavecRtSiteSet (site_file s) (site_line s) (site_column s) (Z.lor (site_flags s) WeavecRtSiteNullOk)
  end.

(** The precision of a use: its own, or the value of the argument that holds
    it; [None] when that value was not read as an integer. *)
Definition precisionOf (u : FormatUse) (values : list (option Z)) : option Z :=
  if 0 <? fu_precisionArgument u then
    if fu_precisionArgument u <=? Z.of_nat (length values) then
      v ← mjoin (values !! Z.to_nat (fu_precisionArgument u - 1)); Some (signed32 v)
    else Some (-1)
  else Some (fu_precision u).

Definition checkUse (u : FormatUse) (value : option Z) (values : list (option Z)) (s : option site) : C unit :=
  match fu_kind u with
  | ArgumentString =>
    precision ← or_stopped (precisionOf u values);
    value ← or_stopped value;
    _ ← strlen here value (if precision <? 0 then MaxLength else precision) (Some (stringSite s));
    mret tt
  | ArgumentTarget => value ← or_stopped value; checkRange here value (fu_bytes u) (Some (writeSite s))
  | _ => mret tt
  end.

Fixpoint checkUses (l : list (FormatUse * option Z)) (values : list (option Z)) (s : option site) : C unit :=
  match l with
  | [] => mret tt
  | (u, v) :: rest => checkUse u v values s;; checkUses rest values s
  end.

Definition checkFormat (format : Z) (arguments : list Z) (s : option site) : C unit :=
  if format =? 0 then mret tt
  else
    m ← memory;
    w ← or_stopped (formatUses (mappedFrom m format));
    values ← or_stopped (readArguments (take (Z.to_nat (w_count w)) (w_uses w)) arguments);
    checkUses (zip (w_uses w) values) values s.

(** ** What a scan wrote *)

(** The set of a [[]: from the character behind the bracket to the closing
    one; [None] in the first component when the format ends in it. *)
Fixpoint closeSet (at_ : list Z) : option (option (list Z)) :=
  match at_ with
  | [] => None
  | c :: rest => if c =? 0 then Some None else if c =? 93 then Some (Some at_) else closeSet rest
  end.

Definition skipSet (at_ : list Z) : option (option (list Z)) :=
  c ← head at_;
  let at_ := if c =? 94 then tail at_ else at_ in
  c ← head at_;
  closeSet (if c =? 93 then tail at_ else at_).

(** A scan's length modifier: as [readSize], with [z] and [t] as [j]. *)
Definition readScanSize (at_ : list Z) : option (Z * list Z) :=
  '(size, at_) ← readSize at_; Some (if (size =? 4) || (size =? 5) then 3 else size, at_).

Definition scanConversion (c : Z) : bool :=
  one_of c [100; 105; 111; 117; 120; 88; 97; 101; 69; 102; 70; 103; 71; 65; 115; 99; 91; 112; 110].

Definition floatConversion (c : Z) : bool := one_of c [97; 101; 69; 102; 70; 103; 71; 65].

(** The bytes a conversion that ran wrote at [target]. *)
Definition scannedBytes (conversion size width target : Z) : C Z :=
  if (conversion =? 115) || (conversion =? 91) then
    if negb (size =? 1) && negb (target =? 0) then
      m ← memory;
      n ← or_stopped (@strnlen (reading m) target MaxLength);
      mret (n + 1)
    else mret 0
  else if conversion =? 99 then mret (if negb (size =? 1) then (if 0 <? width then width else 1) else 0)
  else if floatConversion conversion then
    mret (if size =? 6 then sizeof "long double" else if size =? 1 then 8 else 4)
  else if conversion =? 112 then mret 8
  else mret (targetBytes size).

(** A conversion of a scan's format, after its [%]: whether its argument is
    suppressed, its width, its size, the conversion, the pointer to its last
    character; [None] inside when the scan ends. *)
Definition readScan (at_ : list Z) : option (option (bool * Z * Z * Z * list Z)) :=
  c ← head at_;
  let '(suppressed, at_) := if c =? 42 then (true, tail at_) else (false, at_) in
  '(width, at_) ← readNumber at_;
  c ← head at_;
  if c =? 36 then Some None
  else
    '(size, at_) ← readScanSize at_;
    conversion ← head at_;
    set ← (if conversion =? 91 then skipSet (tail at_) else Some (Some at_));
    match set with
    | None => Some None
    | Some at_ =>
      if negb (scanConversion conversion) || (conversion =? 0) then Some None
      else Some (Some (suppressed, width, size, conversion, at_))
    end.

Fixpoint scannedFrom (fuel : nat) (at_ arguments : list Z) (index assigned : Z) (write : site) : C unit :=
  match fuel with
  | O => stopped
  | S fuel' =>
    c ← or_stopped (head at_);
    if c =? 0 then mret tt
    else if negb (c =? 37) then scannedFrom fuel' (tail at_) arguments index assigned write
    else
      c ← or_stopped (head (tail at_));
      if c =? 37 then scannedFrom fuel' (tail (tail at_)) arguments index assigned write
      else
        r ← or_stopped (readScan (tail at_));
        match r with
        | None => mret tt
        | Some (true, _, _, _, at_) => scannedFrom fuel' (tail at_) arguments index assigned write
        | Some (false, width, size, conversion, at_) =>
          target ← or_stopped (head arguments);
          let ran := if conversion =? 110 then negb (assigned <? index) else index <? assigned in
          let index := if conversion =? 110 then index else index + 1 in
          if negb ran then mret tt
          else
            bytes ← scannedBytes conversion size width target;
            checkRange here target bytes (Some write);;
            scannedFrom fuel' (tail at_) (tail arguments) index assigned write
        end
  end.

Definition checkScanned (format : Z) (arguments : list Z) (assigned : Z) (s : option site) : C unit :=
  if format =? 0 then mret tt
  else
    m ← memory;
    let at_ := mappedFrom m format in
    scannedFrom (S (length at_)) at_ arguments 0 assigned (writeSite s).

Definition __weavec_rt_vsscanf (s format : Z) (arguments : list Z) (si : option site) : C Z :=
  _ ← strlen here s MaxLength si;
  assigned ← call "vsscanf" (s :: format :: arguments);
  checkScanned format arguments assigned si;;
  mret assigned.

Definition __weavec_rt_sscanf (si : option site) (s format : Z) (arguments : list Z) : C Z :=
  __weavec_rt_vsscanf s format arguments si.

Definition __weavec_rt_vfscanf (stream format : Z) (arguments : list Z) (si : option site) : C Z :=
  assigned ← call "vfscanf" (stream :: format :: arguments);
  checkScanned format arguments assigned si;;
  mret assigned.

Definition __weavec_rt_fscanf (si : option site) (stream format : Z) (arguments : list Z) : C Z :=
  __weavec_rt_vfscanf stream format arguments si.

(** [stdin] is the C library's. *)
Definition __weavec_rt_vscanf (stdin format : Z) (arguments : list Z) (si : option site) : C Z :=
  __weavec_rt_vfscanf stdin format arguments si.

Definition __weavec_rt_scanf (si : option site) (stdin format : Z) (arguments : list Z) : C Z :=
  __weavec_rt_vfscanf stdin format arguments si.

(** ** Formatted writes *)

Definition writeBytes (m : Z -> Z) (d : Z) (bytes : list Z) : Z -> Z :=
  fun a => if (d <=? a) && (a <? d + Z.of_nat (length bytes)) then nth (Z.to_nat (a - d)) bytes 0 else m a.

(** The C library's [vsnprintf]: the length of what the format gives, of which
    at most [n - 1] bytes and a terminator are written; negative when it
    fails. *)
Definition vsnprintf (d n format : Z) (arguments : list Z) : C Z :=
  m ← memory;
  match formatted m format arguments with
  | None => mret (-1)
  | Some bytes =>
    when (negb (n =? 0)) (setMemory (writeBytes m d (take (Z.to_nat (n - 1)) bytes ++ [0])));;
    mret (Z.of_nat (length bytes))
  end.

Definition __weavec_rt_vsnprintf (d n format : Z) (arguments : list Z) (limit : Z) (si : option site) : C Z :=
  checkFormat format arguments si;;
  ok ← (if negb (n =? 0) then rangeOk here d n else mret true);
  when (negb (n =? 0) && (negb ok || (limit <? n)))
    (length ← vsnprintf 0 0 format arguments;
     when (0 <=? length)
       (let written := if length + 1 <? n then length + 1 else n in
        let write := writeSite si in
        checkRange here d written (Some write);;
        checkLimit d written limit write));;
  vsnprintf d n format arguments.

Definition __weavec_rt_snprintf (si : option site) (limit d n format : Z) (arguments : list Z) : C Z :=
  __weavec_rt_vsnprintf d n format arguments limit si.

Definition __weavec_rt_vsprintf (d format : Z) (arguments : list Z) (limit : Z) (si : option site) : C Z :=
  checkFormat format arguments si;;
  length ← vsnprintf 0 0 format arguments;
  if length <? 0 then mret length
  else
    let write := writeSite si in
    checkRange here d (length + 1) (Some write);;
    checkLimit d (length + 1) limit write;;
    vsnprintf d (length + 1) format arguments.

Definition __weavec_rt_sprintf (si : option site) (limit d format : Z) (arguments : list Z) : C Z :=
  __weavec_rt_vsprintf d format arguments limit si.

Definition __weavec_rt_vprintf (format : Z) (arguments : list Z) (si : option site) : C Z :=
  checkFormat format arguments si;; call "vprintf" (format :: arguments).
Definition __weavec_rt_printf (si : option site) (format : Z) (arguments : list Z) : C Z :=
  __weavec_rt_vprintf format arguments si.
Definition __weavec_rt_vfprintf (stream format : Z) (arguments : list Z) (si : option site) : C Z :=
  checkFormat format arguments si;; call "vfprintf" (stream :: format :: arguments).
Definition __weavec_rt_fprintf (si : option site) (stream format : Z) (arguments : list Z) : C Z :=
  __weavec_rt_vfprintf stream format arguments si.
Definition __weavec_rt_vdprintf (fd format : Z) (arguments : list Z) (si : option site) : C Z :=
  checkFormat format arguments si;; call "vdprintf" (fd :: format :: arguments).
Definition __weavec_rt_dprintf (si : option site) (fd format : Z) (arguments : list Z) : C Z :=
  __weavec_rt_vdprintf fd format arguments si.
Definition __weavec_rt_vasprintf (out format : Z) (arguments : list Z) (si : option site) : C Z :=
  checkWrite here out 8 si;; checkFormat format arguments si;; call "vasprintf" (out :: format :: arguments).
Definition __weavec_rt_asprintf (si : option site) (out format : Z) (arguments : list Z) : C Z :=
  __weavec_rt_vasprintf out format arguments si.
End Formats.
