(* ===== verification/LibcFacts.v ===== *)
(** * What the checked calls demand

    A call of the files Libc and LibcFormat checks a list of demands, each a
    condition on the state it starts in: bytes that may be used, a string that
    ends, a write within its limit, operands apart.  The lemmas say of each
    check that it goes on exactly when its demand holds, and leaves memory as
    it was; the theorems put them together for each call. *)

From Stdlib Require Import String.
From S2P Require Import Prelude Shadow Report Guard GuardEntry Libc LibcFormat.
Local Open Scope Z_scope.

(** ** Ranges at any address *)

Section Ranges.
Context {T : Thread} {H : HeapView}.

Lemma reached_cases s a :
  shadow_wf s -> 0 <= a < 2 ^ 64 ->
  (weavecRtInWindow s (reachedAddress s a) = true /\ 0 <= reachedAddress s a < 2 ^ s_bits s)
  \/ (weavecRtInWindow s (reachedAddress s a) = false /\ reachedAddress s a = a /\ 2 ^ s_bits s <= a).
Proof.
  intros Hwf Ha. assert (Hr : 0 <= reachedAddress s a).
  { unfold reachedAddress. case_match; [|lia]. apply Z.ldiff_nonneg. lia. }
  destruct (weavecRtInWindow s (reachedAddress s a)) eqn:E.
  - left. split; [done|]. split; [done|]. by apply inWindow_iff in E.
  - right. split; [done|]. unfold reachedAddress in *. destruct (aarch64 && _ && _) eqn:Ec.
    + apply andb_true_iff in Ec as [_ Ec]. congruence.
    + split; [done|]. destruct (Z.lt_ge_cases a (2 ^ s_bits s)); [|done]. by rewrite inWindow_true in E.
Qed.

Lemma reached_inside s a : shadow_wf s -> 0 <= a < 2 ^ s_bits s -> reachedAddress s a = a.
Proof. intros Hwf Ha. unfold reachedAddress. by rewrite inWindow_true, andb_false_r. Qed.

Lemma scan_any st a n here :
  shadow_wf (gs_shadow st) -> 0 <= a < 2 ^ 64 -> 0 < n < 2 ^ 64 ->
  exists s r, scan a n here st = (Some r, with_shadow st s)
    /\ settles (gs_shadow st) s here
    /\ (r = None <-> all_usable (gs_shadow st) here (reachedAddress (gs_shadow st) a) n).
Proof.
  intros Hwf Ha Hn. destruct (reached_cases (gs_shadow st) a Hwf Ha) as [(Hw & Hr)|(Hw & Er & Hr)].
  - destruct (scan_run st (reachedAddress (gs_shadow st) a) n here Hwf Hr Hn) as (s & r & E & Hset & Hans).
    exists s, r. split; [|split; [done|by apply scan_answer_usable]]. rewrite <- E. unfold scan.
    unfold firstUnaddressable. by rewrite (reached_inside _ (reachedAddress _ a)).
  - exists (gs_shadow st), None. unfold scan, firstUnaddressable. rewrite Hw, orb_true_r. rewrite Er.
    split; [done|]. split; [by apply settles_refl|]. split; [|done]. intros _ b. lia.
Qed.

Lemma quick_any s a n here :
  shadow_wf s -> 0 <= a < 2 ^ 64 -> 0 < n < 2 ^ 64 -> quick a n s = true ->
  all_usable s here (reachedAddress s a) n.
Proof.
  intros Hwf Ha Hn Hq. destruct (Z.lt_ge_cases a (2 ^ s_bits s)) as [Hlt|Hge].
  - rewrite reached_inside by (done || lia). apply quick_usable; (done || lia).
  - exfalso. assert (Ew : weavecRtInWindow s a = false).
    { apply not_true_is_false. rewrite inWindow_iff by (done || lia). lia. }
    unfold quick, weavecRtQuickOk, allAddressable in Hq. rewrite (proj2 (Z.eqb_neq n 0)), Ew in Hq by lia.
    rewrite !orb_true_r in Hq. cbn in Hq. rewrite ?orb_true_r in Hq. cbn in Hq. done.
Qed.

Lemma range_any st a n s here :
  shadow_wf (gs_shadow st) -> 0 <= a < 2 ^ 64 -> 0 < n < 2 ^ 64 -> stop (gs_reports st) s = true ->
  let r := __weavec_rt_range a n s here st in
  settles (gs_shadow st) (gs_shadow (snd r)) here
  /\ ((fst r = Some tt /\ gs_reports (snd r) = gs_reports st /\ all_usable (gs_shadow st) here (reachedAddress (gs_shadow st) a) n)
      \/ (fst r = None /\ ~ all_usable (gs_shadow st) here (reachedAddress (gs_shadow st) a) n)).
Proof.
  intros Hwf Ha Hn Hstop. unfold __weavec_rt_range, get, mbind, G_bind.
  destruct (quick a n (gs_shadow st)) eqn:E.
  - split; [by apply settles_refl|]. left. split; [done|]. split; [done|]. by apply quick_any.
  - cbn [weavecRtCount modify]. set (st1 := if gs_statsOn st || _ then _ else st).
    assert (E0 : gs_shadow st1 = gs_shadow st /\ gs_reports st1 = gs_reports st) by (subst st1; by case_match).
    clearbody st1. destruct E0 as [Es Er].
    destruct (scan_any st1 a n here) as (s1 & r & -> & Hset & Hans); [by rewrite Es|done|done|].
    rewrite Es in Hset, Hans. rewrite <- Hans. destruct r as [[bad v]|].
    + change (failAt bad v a n s (with_shadow st1 s1)) with (report_scan a n s (Some (bad, v)) (with_shadow st1 s1)).
      destruct (report_scan_run (with_shadow st1 s1) a n s (Some (bad, v))) as (Hp & Hsh & _); [cbn; by rewrite Er|].
      rewrite Hsh. split; [done|]. right. split; [|done].
      destruct (fst (report_scan a n s (Some (bad, v)) (with_shadow st1 s1))) as [[]|]; [|done].
      by discriminate (proj1 Hp eq_refl).
    + cbn. split; [done|]. by left.
Qed.

Lemma range_ok_any st a n here :
  shadow_wf (gs_shadow st) -> 0 <= a < 2 ^ 64 -> 0 < n < 2 ^ 64 ->
  exists ok st', __weavec_rt_range_ok a n here st = (Some ok, st')
    /\ settles (gs_shadow st) (gs_shadow st') here /\ gs_reports st' = gs_reports st
    /\ (ok = true <-> all_usable (gs_shadow st) here (reachedAddress (gs_shadow st) a) n).
Proof.
  intros Hwf Ha Hn. unfold __weavec_rt_range_ok, get, mbind, G_bind.
  destruct (quick a n (gs_shadow st)) eqn:E.
  - exists true, st. split; [done|]. split; [by apply settles_refl|]. split; [done|]. split; [|done]. intros _. by apply quick_any.
  - cbn [weavecRtCount modify]. set (st1 := if gs_statsOn st || _ then _ else st).
    assert (E0 : gs_shadow st1 = gs_shadow st /\ gs_reports st1 = gs_reports st) by (subst st1; by case_match).
    clearbody st1. destruct E0 as [Es Er].
    destruct (scan_any st1 a n here) as (s1 & r & -> & Hset & Hans); [by rewrite Es|done|done|].
    rewrite Es in Hset, Hans. eexists _, _. split; [reflexivity|]. split; [done|]. split; [done|]. rewrite <- Hans. by destruct r.
Qed.
End Ranges.

Section Demands.
Context {T : Thread} {H : HeapView} {M : Machine} (here : Z) (st0 : cstate).

(** ** Demands *)

Notation sh0 := (gs_shadow (cs_guard st0)).
Notation m0 := (cs_mem st0).

(** The bytes of a string the call scans: its length, at most [max]. *)
Definition lengthOf (s max : Z) : option Z := @strnlen (reading m0) s max.

Inductive demand :=
  | Usable (a n : Z)
  | Ends (s max : Z) (nullOk : bool)
  | Within (n limit : Z)
  | Apart (d s n : Z)
  | NotNull (s n : Z)
  | Mapped (a n : Z)
  | Never.

Definition holds (d : demand) : Prop :=
  match d with
  | Usable a n => all_usable sh0 here (reachedAddress sh0 a) n
  | Ends s max nullOk =>
    if s =? 0 then nullOk = true
    else exists n, lengthOf s max = Some n /\ all_usable sh0 here s (scannedOf max n)
  | Within n limit => n <= limit
  | Apart d s n => d = s \/ d + n <= s \/ s + n <= d
  | NotNull s n => s <> 0 \/ n = 0
  | Mapped a n => a + n <= mappedEnd
  | Never => False
  end.

(** A state the checks reached: memory and input as they were, only stale
    granules cleared. *)
Definition quiet (st : cstate) : Prop :=
  cs_mem st = m0 /\ cs_input st = cs_input st0 /\ settles sh0 (gs_shadow (cs_guard st)) here.

Definition near (st : cstate) : Prop := quiet st /\ gs_reports (cs_guard st) = gs_reports (cs_guard st0).

(** A computation that goes on, with answer [x], exactly when [ds] hold. *)
Definition needs {A} (ds : list demand) (x : A) (r : option A * cstate) : Prop :=
  (fst r = Some x /\ near (snd r) /\ Forall holds ds) \/ (fst r = None /\ quiet (snd r) /\ ~ Forall holds ds).

(** What is asked of the state and of the sites: a well-formed shadow, bytes,
    memory mapped in whole pages of the window, and failures that stop. *)
Record ready (si : option site) : Prop := {
  rd_shadow : shadow_wf sh0;
  rd_bytes : bytes_ok m0;
  rd_end : 0 <= mappedEnd <= 2 ^ s_bits sh0;
  rd_pages : mappedEnd mod 4096 = 0;
  rd_stop : stop (gs_reports (cs_guard st0)) si = true
}.

Lemma near_refl si : ready si -> near st0.
Proof. intros Hr. split; [|done]. split; [done|]. split; [done|]. apply settles_refl, Hr. Qed.

Lemma needs_ret {A} (x : A) st : near st -> needs [] x (Some x, st).
Proof. intros Hn. left. split; [done|]. by split. Qed.

Lemma needs_bind {A B} ds es (x : A) (y : B) (c : C A) (f : A -> C B) st :
  needs ds x (c st) -> (forall st', near st' -> Forall holds ds -> needs es y (f x st')) -> needs (ds ++ es) y ((c ≫= f) st).
Proof.
  intros Hc Hf. unfold mbind, C_bind. destruct (c st) as [[x'|] st']; destruct Hc as [(E & Hn & Hd)|(E & Hq & Hd)]; cbn in *; try done.
  - injection E as ->. destruct (Hf st' Hn Hd) as [(Ef & Hn' & He)|(Ef & Hq & He)].
    + left. split; [done|]. split; [done|]. by apply Forall_app.
    + right. split; [done|]. split; [done|]. by intros [_ ?]%Forall_app.
  - right. split; [done|]. split; [done|]. by intros [? _]%Forall_app.
Qed.

Lemma needs_weaken {A} ds es (x : A) r : (Forall holds ds <-> Forall holds es) -> needs ds x r -> needs es x r.
Proof. intros Hd. unfold needs. by rewrite Hd. Qed.

Lemma needs_fails {A} ds (x y : A) r : ~ Forall holds ds -> needs ds x r -> needs ds y r.
Proof. intros Hd [(_ & _ & ?)|Hr]; [done|by right]. Qed.

(** ** The checks *)

Lemma holds_one d : Forall holds [d] <-> holds d.
Proof. rewrite Forall_cons_iff. split; [by intros [? _]|by split]. Qed.

Lemma quiet_guard st g :
  quiet st -> settles (gs_shadow (cs_guard st)) (gs_shadow g) here -> quiet (mkC g (cs_mem st) (cs_input st)).
Proof. intros (E1 & E2 & Hs) Hg. split; [done|]. split; [done|]. by eapply settles_trans. Qed.

Lemma near_all_usable st a n : near st -> all_usable (gs_shadow (cs_guard st)) here a n <-> all_usable sh0 here a n.
Proof.
  intros ((_ & _ & Hs) & _). pose proof Hs as (_ & Hb & _). unfold all_usable. rewrite Hb.
  split; intros Hu b Hb'; specialize (Hu b Hb'); [by rewrite <- (settles_usable sh0 (gs_shadow (cs_guard st)))|
    by rewrite (settles_usable sh0 (gs_shadow (cs_guard st)))].
Qed.

(** A failure that stops. *)
Lemma needs_raise (f : failure) s ds st :
  near st -> stop (gs_reports (cs_guard st0)) s = true -> ~ Forall holds ds ->
  needs ds tt (guarded (fun _ => raise f s) st).
Proof.
  intros ((E1 & E2 & Hs) & Er) Hstop Hd. right. unfold guarded, raise. rewrite Er.
  destruct (fail_stops (gs_reports (cs_guard st0)) f s Hstop) as (extra & Hf & _). rewrite Hf. cbn.
  split; [done|]. split; [|done]. apply quiet_guard; [done|]. cbn. destruct Hs as (? & ? & ?). by apply settles_refl.
Qed.

Lemma needs_when (b : bool) ds c st :
  near st -> (b = false -> Forall holds ds) -> (b = true -> needs ds tt (c st)) -> needs ds tt (when b c st).
Proof. intros Hn Hf Ht. unfold when. destruct b; [by apply Ht|]. left. split; [done|]. split; [done|by apply Hf]. Qed.

Lemma needs_limit d n limit write st :
  near st -> stop (gs_reports (cs_guard st0)) (Some write) = true ->
  needs [Within n limit] tt (checkLimit d n limit write st).
Proof.
  intros Hn Hstop. unfold checkLimit, __weavec_rt_limit_fail. apply needs_when; [done| |].
  - intros Hl%Z.ltb_ge. by apply holds_one.
  - intros Hl%Z.ltb_lt. apply needs_raise; [done|done|]. rewrite holds_one. cbn. lia.
Qed.

Lemma needs_null s n si st :
  near st -> stop (gs_reports (cs_guard st0)) si = true -> needs [NotNull s n] tt (readsNull s n si st).
Proof.
  intros Hn Hstop. unfold readsNull. apply needs_when; [done| |].
  - intros Hl. apply holds_one. cbn. destruct (Z.eqb_spec s 0), (Z.eqb_spec n 0); cbn in Hl; (done || lia).
  - intros Hl. apply needs_raise; [done|done|]. rewrite holds_one. cbn.
    destruct (Z.eqb_spec s 0), (Z.eqb_spec n 0); cbn in Hl; (done || lia).
Qed.

Lemma near_shadow st : near st -> settles sh0 (gs_shadow (cs_guard st)) here.
Proof. by intros ((_ & _ & ?) & _). Qed.

Lemma near_reached st a : near st -> reachedAddress (gs_shadow (cs_guard st)) a = reachedAddress sh0 a.
Proof.
  intros Hn. pose proof (near_shadow st Hn) as (_ & Hb & _). unfold reachedAddress, weavecRtInWindow. by rewrite Hb.
Qed.

Lemma near_after st g :
  near st -> settles (gs_shadow (cs_guard st)) (gs_shadow g) here -> gs_reports g = gs_reports (cs_guard st) ->
  near (mkC g (cs_mem st) (cs_input st)).
Proof. intros [Hq Er] Hs E. split; [by apply quiet_guard|]. cbn. congruence. Qed.

(** A check of the guards that answers [x] when [ds] hold. *)
Lemma needs_guarded {A} ds (x : A) (f : Bytes -> G A) st :
  near st ->
  (let r := f (reading m0) (cs_guard st) in
   settles (gs_shadow (cs_guard st)) (gs_shadow (snd r)) here
   /\ ((fst r = Some x /\ gs_reports (snd r) = gs_reports (cs_guard st) /\ Forall holds ds)
       \/ (fst r = None /\ ~ Forall holds ds))) ->
  needs ds x (guarded f st).
Proof.
  intros Hn Hr. pose proof Hn as ((E1 & _ & _) & _). unfold guarded. rewrite E1.
  destruct (f (reading m0) (cs_guard st)) as [r g]. cbn in Hr. destruct Hr as [Hs [(-> & Er & Hd)|[-> Hd]]].
  - left. split; [done|]. split; [|done]. rewrite <- E1. by apply near_after.
  - right. split; [done|]. split; [|done]. rewrite <- E1. apply quiet_guard; [apply Hn|done].
Qed.

Lemma needs_range a n s si st :
  near st -> ready si -> stop (gs_reports (cs_guard st0)) s = true -> 0 <= a < 2 ^ 64 -> 0 <= n < 2 ^ 64 ->
  needs [Usable a n] tt (checkRange here a n s st).
Proof.
  intros Hn Hr Hstop Ha Hn0. pose proof (near_shadow st Hn) as (Hwf & _ & _). unfold checkRange.
  destruct (Z.eqb_spec n 0) as [->|Hne].
  { left. split; [done|]. split; [done|]. apply holds_one. intros b. lia. }
  unfold guardState, mbind, C_bind. apply needs_when; [done| |].
  - intros Hq%negb_false_iff. apply holds_one. cbn. rewrite <- (near_reached st), <- (near_all_usable st) by done.
    apply quick_any; [done|done|lia|]. unfold quick. by rewrite Hq.
  - intros _. apply needs_guarded; [done|]. cbv zeta.
    destruct (range_any (cs_guard st) a n s here) as [Hs Hc]; [done|done|lia|by rewrite (proj2 Hn)|].
    rewrite near_reached, near_all_usable in Hc by done. rewrite holds_one. split; [done|]. exact Hc.
Qed.

Lemma flag_lor x y b : 0 <= b -> has (Z.lor x y mod 65536) b = true -> Z.land y b = 0 -> has x b = true.
Proof.
  unfold has. intros Hb Hh Hy. apply negb_true_iff, Z.eqb_neq. apply negb_true_iff, Z.eqb_neq in Hh. intros Hx. apply Hh.
  change 65536 with (2 ^ 16). rewrite <- Z.land_ones, <- Z.land_assoc, (Z.land_comm (Z.ones 16)), Z.land_assoc, Z.land_lor_distr_l, Hx, Hy by lia.
  done.
Qed.

Lemma stop_site r si f :
  stop r si = true -> Z.land f WeavecRtSiteReport = 0 ->
  forall file line column, stop r (Some (weavecRtSiteSet file line column (Z.lor (siteFlags si) f))) = true.
Proof.
  unfold stop. intros Hs Hf file line column. cbn. apply negb_true_iff. apply negb_true_iff in Hs.
  apply not_true_is_false. intros [Hh Ha]%andb_true_iff. rewrite Ha, andb_true_r in Hs.
  apply flag_lor in Hh; [congruence|done|done].
Qed.

Lemma stop_writeSite si : ready si -> stop (gs_reports (cs_guard st0)) (Some (writeSite si)) = true.
Proof. intros Hr. by apply stop_site; [apply Hr|]. Qed.

Lemma stop_stringSite si : ready si -> stop (gs_reports (cs_guard st0)) (Some (stringSite si)) = true.
Proof. intros Hr. destruct si as [s|]; [by apply (stop_site _ (Some s)); [apply Hr|]|done]. Qed.

Lemma needs_write a n si st :
  near st -> ready si -> 0 <= a < 2 ^ 64 -> 0 <= n < 2 ^ 64 -> needs [Usable a n] tt (checkWrite here a n si st).
Proof. intros Hn Hr Ha Hn0. apply (needs_range a n _ si); try done. by apply stop_writeSite. Qed.

Lemma needs_load a n st :
  near st -> needs [Mapped a (Z.of_nat n)] (load_le m0 a n) (load a n st).
Proof.
  intros Hn. pose proof Hn as ((E1 & _ & _) & _). unfold load, memory, mbind, C_bind, stopped. rewrite E1.
  destruct (Z.ltb_spec mappedEnd (a + Z.of_nat n)).
  - right. split; [done|]. split; [apply Hn|]. rewrite holds_one. cbn. lia.
  - left. split; [done|]. split; [done|]. rewrite holds_one. cbn. lia.
Qed.

Definition nullAllowed (si : option site) : bool :=
  match si with None => false | Some si => negb (Z.land (site_flags si) WeavecRtSiteNullOk =? 0) end.

(** What a string's measure answers. *)
Definition answerOf (s max : Z) : Z := if s =? 0 then 0 else default 0 (lengthOf s max).

Lemma needs_strlen s max si0 si st :
  near st -> ready si0 -> stop (gs_reports (cs_guard st0)) si = true -> 0 <= s -> 0 <= max ->
  needs [Ends s max (nullAllowed si)] (answerOf s max) (strlen here s max si st).
Proof.
  intros Hn Hr Hstop Hs Hm. pose proof (near_shadow st Hn) as Hset. pose proof Hset as (Hwf & Hb & _).
  unfold strlen. apply needs_guarded; [done|]. cbv zeta. rewrite holds_one. unfold answerOf, holds.
  destruct (Z.eqb_spec s 0) as [->|Hne].
  - unfold __weavec_rt_strlen, mbind, G_bind, weavecRtCount, modify. cbv zeta. cbn [Z.eqb].
    set (g := if gs_statsOn (cs_guard st) || _ then _ else _).
    assert (E0 : gs_shadow g = gs_shadow (cs_guard st) /\ gs_reports g = gs_reports (cs_guard st)) by (subst g; by case_match).
    clearbody g. destruct E0 as [Es Er].
    assert (Hflag : match si with Some si => Z.land (site_flags si) WeavecRtSiteNullOk =? 0 | None => true end = negb (nullAllowed si))
      by (destruct si; cbn; by rewrite ?negb_involutive).
    rewrite Hflag. destruct (nullAllowed si); cbn [negb].
    + cbn. rewrite Es. split; [by apply settles_refl|]. by left.
    + unfold raise. rewrite Er, (proj2 Hn).
      destruct (fail_stops (gs_reports (cs_guard st0)) (Fails "null-dereference" 0 1) si Hstop) as (extra & Hf & _).
      rewrite Hf. cbn. rewrite Es. split; [by apply settles_refl|]. by right.
  - pose proof (@strnlen_run (reading m0) s max Hm) as Hlen. fold (lengthOf s max) in Hlen.
    pose proof (rd_end _ Hr) as Hend. destruct (lengthOf s max) as [n|] eqn:El.
    + destruct Hlen as [Hms Hmap]. cbn [default from_option id].
      destruct (@strlen_measured _ _ (reading m0) (cs_guard st) s max n si here) as [H1 H2]; try done.
      { apply Hr. } { destruct Hmap; [by right|by left]. } { apply Hr. } { lia. }
      { rewrite Hb. destruct Hmap as [?|Hmap]; [by right|left]. cbn in Hmap. lia. }
      { by rewrite (proj2 Hn). }
      split; [done|]. destruct H2 as [(-> & Hu & Er)|[-> Hu]]; [left|right]; rewrite near_all_usable in Hu by done.
      * split; [done|]. split; [done|]. by exists n.
      * split; [done|]. intros (k & [= <-] & Hk). done.
    + destruct (@strlen_open _ _ (reading m0) (cs_guard st) s max si here) as [H1 H2]; try done; [apply Hr|].
      split; [done|]. right. split; [done|]. by intros (n & E & _).
Qed.

(** ** Calls *)

(** A call that is made, with answer [x], exactly when [ds] hold; else the
    program stops, and no byte was written. *)
Definition performs {A} (ds : list demand) (x : A) (m : Z -> Z) (r : option A * cstate) : Prop :=
  (fst r = Some x /\ cs_mem (snd r) = m /\ cs_input (snd r) = cs_input st0
   /\ settles sh0 (gs_shadow (cs_guard (snd r))) here /\ gs_reports (cs_guard (snd r)) = gs_reports (cs_guard st0)
   /\ Forall holds ds)
  \/ (fst r = None /\ quiet (snd r) /\ ~ Forall holds ds).

Lemma performs_bind {A B} ds es (x : A) (y : B) m (c : C A) (f : A -> C B) st :
  needs ds x (c st) -> (forall st', near st' -> Forall holds ds -> performs es y m (f x st')) ->
  performs (ds ++ es) y m ((c ≫= f) st).
Proof.
  intros Hc Hf. unfold mbind, C_bind. destruct (c st) as [[x'|] st']; destruct Hc as [(E & Hn & Hd)|(E & Hq & Hd)]; cbn in *; try done.
  - injection E as ->. destruct (Hf st' Hn Hd) as [(Ef & E1 & E2 & E3 & E4 & He)|(Ef & Hq & He)].
    + left. split_and!; try done. by apply Forall_app.
    + right. split; [done|]. split; [done|]. by intros [_ ?]%Forall_app.
  - right. split; [done|]. split; [done|]. by intros [? _]%Forall_app.
Qed.

Lemma performs_weaken {A} ds es (x : A) m r : (Forall holds ds <-> Forall holds es) -> performs ds x m r -> performs es x m r.
Proof. intros Hd. unfold performs. by rewrite Hd. Qed.

Lemma performs_call name arguments st :
  near st -> performs [] (fst (library name arguments m0)) (snd (library name arguments m0)) (call name arguments st).
Proof.
  intros ((E1 & E2 & Hs) & Er). left. unfold call. rewrite E1. destruct (library name arguments m0) as [x m]. by split_and!.
Qed.

(** Memory written, and the answer. *)
Lemma performs_write {A} (w : (Z -> Z) -> Z -> Z) (x : A) st :
  near st -> performs [] x (w m0) ((m ← memory; setMemory (w m);; mret x) st).
Proof.
  intros ((E1 & E2 & Hs) & Er). left. unfold memory, setMemory, mbind, C_bind. cbn. rewrite E1. by split_and!.
Qed.

Lemma performs_map {A B} ds (x : A) (f : A -> B) m (c : C A) st :
  performs ds x m (c st) -> performs ds (f x) m ((c ≫= fun a => mret (f a)) st).
Proof.
  unfold mbind, C_bind, mret, C_ret, performs. destruct (c st) as [[a|] st']; cbn.
  - intros [([= ->] & Hr)|(? & _)]; [left; split; [done|exact Hr]|done].
  - intros [(? & _)|[_ Hr]]; [done|right; split; [done|exact Hr]].
Qed.

Lemma performs_ret {A} (x : A) st : near st -> performs [] x m0 (Some x, st).
Proof. intros ((E1 & E2 & Hs) & Er). left. by split_and!. Qed.

Lemma needs_memory {A} (f : (Z -> Z) -> C A) ds x st :
  near st -> needs ds x (f m0 st) -> needs ds x ((m ← memory; f m) st).
Proof. intros ((E1 & _) & _). unfold memory, mbind, C_bind. by rewrite E1. Qed.

Lemma performs_memory {A} (f : (Z -> Z) -> C A) ds x m st :
  near st -> performs ds x m (f m0 st) -> performs ds x m ((m ← memory; f m) st).
Proof. intros ((E1 & _) & _). unfold memory, mbind, C_bind. by rewrite E1. Qed.

Lemma window_64 si : ready si -> mappedEnd <= 2 ^ 63.
Proof.
  intros Hr. pose proof (rd_end _ Hr). pose proof (wf_bits _ (rd_shadow _ Hr)).
  assert (2 ^ s_bits sh0 <= 2 ^ 63) by (apply Z.pow_le_mono_r; lia). lia.
Qed.

Lemma answerOf_bound s max si :
  ready si -> 0 <= s -> 0 <= max -> 0 <= answerOf s max /\ (answerOf s max = 0 \/ 0 < s /\ s + answerOf s max <= mappedEnd).
Proof.
  intros Hr Hs Hm. unfold answerOf. destruct (Z.eqb_spec s 0) as [|Hs0]; [lia|].
  pose proof (@strnlen_run (reading m0) s max Hm) as Hlen. fold (lengthOf s max) in Hlen.
  destruct (lengthOf s max) as [n|]; cbn [default from_option id]; [|lia].
  destruct Hlen as [[Hn _] Hmap]. unfold scannedOf in Hmap. change (@b_end (reading m0)) with mappedEnd in Hmap.
  destruct (Z.ltb_spec n max); lia.
Qed.

Lemma ends_bound s nullOk si :
  ready si -> 0 <= s -> Forall holds [Ends s MaxLength nullOk] -> s + answerOf s MaxLength + 1 <= Z.max 1 mappedEnd.
Proof.
  intros Hr Hs. rewrite holds_one. cbn. unfold answerOf. destruct (Z.eqb_spec s 0) as [->|Hne]; [lia|].
  intros (n & El & _). pose proof (@strnlen_run (reading m0) s MaxLength ltac:(done)) as Hlen. fold (lengthOf s MaxLength) in Hlen.
  rewrite El in Hlen |- *. destruct Hlen as [[Hn _] Hmap]. cbn. unfold scannedOf in Hmap.
  change (@b_end (reading m0)) with mappedEnd in Hmap. pose proof (window_64 si Hr). unfold MaxLength in *.
  destruct (Z.ltb_spec n (2 ^ 64 - 1)); lia.
Qed.

(** *** Copies *)

Definition copyDemands (d s limit : Z) (si : option site) : list demand :=
  let n := answerOf s MaxLength in
  [Ends s MaxLength (nullAllowed si); Usable s (n + 1); Usable d (n + 1); Within (n + 1) limit; Apart d s (n + 1)].

Lemma performs_copy d s limit si st :
  near st -> ready si -> 0 <= d < 2 ^ 63 -> 0 <= s < 2 ^ 64 ->
  performs (copyDemands d s limit si) (answerOf s MaxLength) (memmove m0 d s (answerOf s MaxLength + 1))
    (copyString here d s limit si st).
Proof.
  intros Hn Hr Hd Hs. unfold copyDemands. pose proof (window_64 si Hr) as H63. pose proof (stop_writeSite si Hr) as Hw.
  destruct (answerOf_bound s MaxLength si Hr ltac:(lia) ltac:(done)) as [B1 B2].
  unfold copyString. apply (performs_bind [_] [_; _; _; _] (answerOf s MaxLength)).
  { apply (needs_strlen s MaxLength si si); try done; [apply Hr|lia]. }
  intros st1 N1 He. pose proof (ends_bound _ _ _ Hr (proj1 Hs) He) as B3. set (n := answerOf s MaxLength) in *. cbv zeta.
  assert (En : add64 n 1 = n + 1) by (unfold add64; rewrite wrap64_small; lia). rewrite En.
  apply (performs_bind [_] [_; _; _] tt); [apply (needs_range s (n + 1) si si); (done || apply Hr || lia)|]. intros st2 N2 _.
  apply (performs_bind [_] [_; _] tt); [apply (needs_range d (n + 1) _ si); (done || lia)|]. intros st3 N3 _.
  apply (performs_bind [_] [_] tt); [by apply needs_limit|]. intros st4 N4 _.
  apply (performs_bind [_] [] tt); [|intros st5 N5 _; by apply (performs_write (fun m => memmove m d s (n + 1)))].
  unfold add64. rewrite (wrap64_small (s + n)), (wrap64_small (s + n + 1)), (wrap64_small (d + n)), (wrap64_small (d + n + 1)) by lia.
  apply needs_when; [done| |].
  - intros E. apply holds_one. cbn. destruct (Z.eqb_spec d s); [by left|right]. cbn in E.
    destruct (Z.ltb_spec d (s + n + 1)), (Z.ltb_spec s (d + n + 1)); cbn in E; (done || lia).
  - intros E. unfold __weavec_rt_overlap. apply needs_raise; [done|done|]. rewrite holds_one. cbn.
    destruct (Z.eqb_spec d s), (Z.ltb_spec d (s + n + 1)), (Z.ltb_spec s (d + n + 1)); cbn in E; (done || lia).
Qed.

Definition catDemands (d s limit : Z) (si : option site) : list demand :=
  let n := answerOf d MaxLength + answerOf s MaxLength + 1 in
  [Ends d MaxLength (nullAllowed si); Ends s MaxLength (nullAllowed si); Usable d n; Within n limit].

Lemma performs_cat d s limit si st :
  near st -> ready si -> 0 <= d < 2 ^ 63 -> 0 <= s < 2 ^ 64 ->
  performs (catDemands d s limit si) d (memmove m0 (d + answerOf d MaxLength) s (answerOf s MaxLength + 1))
    (__weavec_rt_strcat here d s limit si st).
Proof.
  intros Hn Hr Hd Hs. unfold catDemands. pose proof (window_64 si Hr) as H63. pose proof (stop_writeSite si Hr) as Hw.
  destruct (answerOf_bound s MaxLength si Hr ltac:(lia) ltac:(done)) as [B1 B2].
  destruct (answerOf_bound d MaxLength si Hr ltac:(lia) ltac:(done)) as [A1 A2].
  unfold __weavec_rt_strcat. apply (performs_bind [_] [_; _; _] (answerOf d MaxLength)).
  { apply (needs_strlen d MaxLength si si); try done; (apply Hr || lia). }
  intros st1 N1 _. apply (performs_bind [_] [_; _] (answerOf s MaxLength)).
  { apply (needs_strlen s MaxLength si si); try done; (apply Hr || lia). }
  intros st2 N2 _. set (n := answerOf s MaxLength) in *. set (k := answerOf d MaxLength) in *. cbv zeta. unfold add64.
  rewrite (wrap64_small (k + n)), (wrap64_small (k + n + 1)), (wrap64_small (d + k)), (wrap64_small (n + 1)) by lia.
  apply (performs_bind [_] [_] tt); [apply (needs_range d (k + n + 1) _ si); (done || lia)|]. intros st3 N3 _.
  apply (performs_bind [_] [] tt); [by apply needs_limit|]. intros st4 N4 _.
  by apply (performs_write (fun m => memmove m (d + k) s (n + 1))).
Qed.

(** *** Structures *)

(** The little-endian value at an address, a pointer or a length. *)
Definition word (a : Z) : Z := load_le m0 a 8.
Definition half (a : Z) : Z := load_le m0 a 4.

Lemma word_range a si : ready si -> 0 <= word a < 2 ^ 64.
Proof. intros Hr. unfold word. pose proof (load_le_range m0 a 8 (rd_bytes _ Hr)). lia. Qed.

Lemma half_range a si : ready si -> 0 <= half a < 2 ^ 32.
Proof. intros Hr. unfold half. pose proof (load_le_range m0 a 4 (rd_bytes _ Hr)). lia. Qed.

Definition vectorDemands (v : Z) : list demand := [Mapped v 8; Mapped (v + 8) 8; Usable (word v) (word (v + 8))].

Fixpoint vectorsDemands (n : nat) (v : Z) : list demand :=
  match n with
  | O => []
  | S n' => vectorDemands v ++ vectorsDemands n' (v + iovecBytes)
  end.

Definition arrayDemands (v count : Z) : list demand :=
  if count <=? 0 then [] else Usable v (count * iovecBytes) :: vectorsDemands (Z.to_nat count) v.

Lemma needs_bytes write a n si st :
  near st -> ready si -> 0 <= a < 2 ^ 64 -> 0 <= n < 2 ^ 64 -> needs [Usable a n] tt (checkBytes here write a n si st).
Proof.
  intros Hn Hr Ha Hn0. unfold checkBytes. destruct write; [by apply needs_write|].
  apply (needs_range a n si si); (done || apply Hr).
Qed.

Lemma needs_vectorsFrom n v write si st :
  near st -> ready si -> needs (vectorsDemands n v) tt (vectorsFrom here n v write si st).
Proof.
  revert v st. induction n as [|n IH]; intros v st Hn Hr; cbn [vectorsDemands vectorsFrom]; [by apply needs_ret|].
  apply (needs_bind _ _ tt); [|intros st1 N1 _; by apply IH]. unfold checkVector, vectorDemands.
  apply (needs_bind [_] [_; _] (word v)); [by apply needs_load|]. intros st1 N1 _.
  apply (needs_bind [_] [_] (word (v + 8))); [by apply needs_load|]. intros st2 N2 _.
  apply (needs_bytes write); (done || by eapply word_range).
Qed.

Lemma needs_vectors v count write si st :
  near st -> ready si -> 0 <= v < 2 ^ 64 -> count < 2 ^ 32 ->
  needs (arrayDemands v count) tt (checkVectors here v count write si st).
Proof.
  intros Hn Hr Hv Hc. unfold checkVectors, arrayDemands. destruct (Z.leb_spec count 0); [by apply needs_ret|].
  apply (needs_bind [_] _ tt); [|intros st1 N1 _; by apply needs_vectorsFrom].
  apply (needs_range v _ si si); try done; [apply Hr|unfold iovecBytes; lia].
Qed.

Lemma signed32_range x : - 2 ^ 31 <= signed32 x < 2 ^ 31.
Proof. unfold signed32. pose proof (Z.mod_pos_bound x (2 ^ 32)). case_match; bool_hyps; lia. Qed.

Definition messageDemands (m : Z) : list demand :=
  [Usable m (sizeof "struct msghdr"); Mapped m 8]
  ++ (if word m =? 0 then [] else [Mapped (m + 8) 4; Usable (word m) (half (m + 8))])
  ++ [Mapped (m + 16) 8; Mapped (m + 24) 8]
  ++ arrayDemands (word (m + 16)) (signed32 (word (m + 24)))
  ++ [Mapped (m + 32) 8]
  ++ (if word (m + 32) =? 0 then [] else [Mapped (m + 40) 8; Usable (word (m + 32)) (word (m + 40))]).

(** A part checked when its pointer is not null. *)
Lemma needs_part (b : bool) ds c st :
  near st -> (b = false -> needs ds tt (c st)) -> needs (if b then [] else ds) tt (when (negb b) c st).
Proof. intros Hn Hc. unfold when. destruct b; cbn; [by apply needs_ret|by apply Hc]. Qed.

Lemma needs_message m write si st :
  near st -> ready si -> 0 <= m < 2 ^ 64 -> 0 <= sizeof "struct msghdr" < 2 ^ 64 ->
  needs (messageDemands m) tt (checkMessage here m write si st).
Proof.
  intros Hn Hr Hm Hsz. unfold checkMessage, messageDemands.
  apply (needs_bind [_] (_ :: _) tt); [by apply needs_bytes|]. intros st1 N1 _.
  apply (needs_bind [_] (_ ++ _) (word m)); [by apply needs_load|]. intros st2 N2 _.
  apply (needs_bind _ _ tt).
  { apply needs_part; [done|]. intros _.
    apply (needs_bind [_] [_] (half (m + 8))); [by apply needs_load|]. intros st3 N3 _.
    pose proof (half_range (m + 8) si Hr). apply needs_bytes; try done; [by eapply word_range|lia]. }
  intros st3 N3 _. apply (needs_bind [_] (_ :: _) (word (m + 16))); [by apply needs_load|]. intros st4 N4 _.
  apply (needs_bind [_] (_ ++ _) (word (m + 24))); [by apply needs_load|]. intros st5 N5 _.
  apply (needs_bind _ _ tt).
  { apply needs_vectors; try done; [by eapply word_range|pose proof (signed32_range (word (m + 24))); lia]. }
  intros st6 N6 _. apply (needs_bind [_] _ (word (m + 32))); [by apply needs_load|]. intros st7 N7 _.
  apply needs_part; [done|]. intros _.
  apply (needs_bind [_] [_] (word (m + 40))); [by apply needs_load|]. intros st8 N8 _.
  apply needs_bytes; try done; by eapply word_range.
Qed.

Definition lineDemands (line n : Z) : list demand :=
  [Usable line 8; Usable n 8; Mapped line 8; Mapped n 8]
  ++ (if (word line =? 0) || (word n =? 0) then [] else [Usable (word line) (word n)]).

Lemma needs_line line n si st :
  near st -> ready si -> 0 <= line < 2 ^ 64 -> 0 <= n < 2 ^ 64 ->
  needs (lineDemands line n) tt (checkLine here line n si st).
Proof.
  intros Hn Hr Hl Hn0. unfold checkLine, lineDemands.
  apply (needs_bind [_] (_ :: _) tt); [by apply needs_write|]. intros st1 N1 _.
  apply (needs_bind [_] (_ :: _) tt); [by apply needs_write|]. intros st2 N2 _.
  apply (needs_bind [_] (_ :: _) (word line)); [by apply needs_load|]. intros st3 N3 _.
  apply (needs_bind [_] _ (word n)); [by apply needs_load|]. intros st4 N4 _.
  rewrite <- negb_orb.
  apply needs_part; [done|]. intros _. apply needs_write; try done; by eapply word_range.
Qed.

(** A buffer whose length is behind a pointer. *)
Definition lengthDemands (buffer length : Z) : list demand :=
  if (buffer =? 0) || (length =? 0) then [] else [Usable length 4; Mapped length 4; Usable buffer (half length)].

Lemma needs_length buffer length si st :
  near st -> ready si -> 0 <= buffer < 2 ^ 64 -> 0 <= length < 2 ^ 64 ->
  needs (lengthDemands buffer length) tt (checkLength here buffer length si st).
Proof.
  intros Hn Hr Hb Hl. unfold checkLength, lengthDemands.
  apply needs_part; [done|]. intros _. apply (needs_bind [_] [_; _] tt); [by apply needs_write|]. intros st1 N1 _.
  apply (needs_bind [_] [_] (half length)); [by apply needs_load|]. intros st2 N2 _.
  pose proof (half_range length si Hr). apply needs_write; (done || lia).
Qed.

(** *** Comparisons *)

Lemma needs_answer {A} (o : option A) x st :
  near st -> needs (match o with Some _ => [] | None => [Never] end) (default x o) (or_stopped o st).
Proof.
  intros Hn. unfold or_stopped. destruct o as [y|]; cbn; [by apply needs_ret|]. right. split; [done|].
  split; [apply Hn|]. rewrite holds_one. by intros [].
Qed.

Definition compared (a b n : Z) (folded : bool) : option (Z * Z) :=
  compareFrom (compareFuel a b n) m0 a b n 0 folded.

Lemma compareFrom_read fuel a b n folded : forall i r k,
  compareFrom fuel m0 a b n i folded = Some (r, k) -> i <= k <= Z.max i n.
Proof.
  induction fuel as [|fuel IH]; intros i r k; cbn [compareFrom]; [done|].
  destruct (Z.leb_spec n i); [intros [= _ <-]; lia|]. destruct (_ || _); [done|]. cbv zeta.
  destruct (_ || _); [intros [= _ <-]; lia|]. intros E%IH. lia.
Qed.

Definition compareDemands (a b n : Z) (folded : bool) : list demand :=
  [NotNull a n; NotNull b n]
  ++ match compared a b n folded with Some (_, i) => [Usable a i; Usable b i] | None => [Never] end.

Definition compareResult (a b n : Z) (folded : bool) : Z :=
  match compared a b n folded with Some (r, _) => r | None => 0 end.

Lemma performs_compare a b n folded si st :
  near st -> ready si -> 0 <= a < 2 ^ 64 -> 0 <= b < 2 ^ 64 -> 0 <= n < 2 ^ 64 ->
  performs (compareDemands a b n folded) (compareResult a b n folded) m0 (compare here a b n folded si st).
Proof.
  intros Hn Hr Ha Hb Hn0. pose proof (rd_stop _ Hr) as Hstop. unfold compare, compareDemands, compareResult.
  apply (performs_bind [_] (_ :: _) tt); [by apply needs_null|]. intros st1 N1 _.
  apply (performs_bind [_] _ tt); [by apply needs_null|]. intros st2 N2 _.
  apply performs_memory; [done|]. fold (compared a b n folded). pose proof (needs_answer (compared a b n folded) (0, 0) st2 N2) as Hc.
  destruct (compared a b n folded) as [[r i]|] eqn:E.
  - pose proof (compareFrom_read _ _ _ _ _ _ _ _ E) as Hi.
    change [Usable a i; Usable b i] with ([] ++ [Usable a i; Usable b i]). eapply performs_bind; [exact Hc|]. intros st3 N3 _. cbn.
    apply (performs_bind [_] [_] tt); [apply (needs_range a i si si); (done || lia)|]. intros st4 N4 _.
    apply (performs_bind [_] [] tt); [apply (needs_range b i si si); (done || lia)|]. intros st5 N5 _. by apply performs_ret.
  - right. destruct Hc as [(? & _)|(E1 & Hq & Hd)]; [done|]. unfold mbind, C_bind. cbn in E1 |- *. split; [done|]. by split; [apply N2|].
Qed.

(** *** Number parsers *)

Definition parserDemands (s stop out : Z) : list demand :=
  NotNull s 1
  :: match parsedLength m0 s stop with
     | Some read => Usable s read :: (if out =? 0 then [] else [Usable out 8])
     | None => [Never]
     end.

(** A parser stops in the string, at a character it read. *)
Definition stops_inside (s stop : Z) : Prop := s <= stop /\ (stop = s \/ stop < mappedEnd).

Lemma skipSpace_inside fuel m : forall at_ r, skipSpace fuel m at_ = Some r -> at_ <= r < mappedEnd.
Proof.
  induction fuel as [|fuel IH]; intros at_ r; cbn; [done|]. destruct (Z.leb_spec mappedEnd at_); [done|].
  case_match; [|intros [= <-]; lia]. intros Hr%IH. lia.
Qed.

Lemma performs_parser name s end_ base si st :
  near st -> ready si -> 0 <= s < 2 ^ 64 -> 0 <= end_ < 2 ^ 64 ->
  let '(value, stop) := parser name m0 s base in
  stops_inside s stop ->
  performs (parserDemands s stop end_) value (if end_ =? 0 then m0 else store_le m0 end_ 8 stop)
    (parserCall here name s end_ base si st).
Proof.
  intros Hn Hr Hs He. destruct (parser name m0 s base) as [value stop] eqn:Ep. intros [Hst1 Hst2].
  pose proof (window_64 si Hr) as H63. unfold parserCall, parserDemands.
  apply (performs_bind [_] _ tt); [apply needs_null; [done|apply Hr]|]. intros st1 N1 _. apply performs_memory; [done|].
  rewrite Ep. apply (performs_map _ tt (fun _ => value)). unfold parsed. apply performs_memory; [done|].
  pose proof (needs_answer (parsedLength m0 s stop) 0 st1 N1) as Hc. destruct (parsedLength m0 s stop) as [read|] eqn:E.
  - assert (Hread : 0 <= read < 2 ^ 64).
    { unfold parsedLength in E. destruct (Z.eqb_spec stop s) as [->|]; cbn [negb] in E; [|injection E as <-; lia].
      destruct (skipSpace _ _ _) as [r|] eqn:Ek; [|done]. apply skipSpace_inside in Ek. injection E as <-. case_match; lia. }
    change (Usable s read :: _) with ([] ++ Usable s read :: (if end_ =? 0 then [] else [Usable end_ 8])).
    eapply performs_bind; [exact Hc|]. intros st2 N2 _. cbn [default from_option id].
    apply (performs_bind [_] _ tt); [apply (needs_range s read si si); (done || apply Hr)|]. intros st3 N3 _.
    unfold when. destruct (end_ =? 0); cbn [negb]; [by apply performs_ret|].
    apply (performs_bind [_] [] tt); [by apply needs_write|]. intros st4 N4 _. destruct N4 as ((E1 & E2 & E3) & E4). left.
    unfold memory, setMemory, mbind, C_bind. cbn. rewrite E1. by split_and!.
  - right. destruct Hc as [(? & _)|(E1 & Hq & Hd)]; [done|]. unfold mbind, C_bind. cbn in E1 |- *. split; [done|]. by split; [apply N1|].
Qed.
End Demands.
