(* ===== verification/LibcCalls.v ===== *)
(** * The calls and their demands

    What each checked call of the files Libc and LibcFormat demands before it
    is made, as a table: the theorem says that the code implements it.  What the
    scan of a format reads is in the file FormatFacts. *)

From Stdlib Require Import String.
From S2P Require Import Prelude Shadow Report Guard GuardEntry Libc LibcFormat LibcFacts.
Local Open Scope Z_scope.

(** ** Reading a format *)

(** The bytes of every use are those of a conversion's target. *)
Definition walk_ok (w : walk) : Prop := Forall (fun u => 0 <= fu_bytes u <= 8) (w_uses w).

Lemma setUse_ok w index f :
  walk_ok w -> (forall u, 0 <= fu_bytes u <= 8 -> 0 <= fu_bytes (f u) <= 8) -> walk_ok (setUse w index f).
Proof. intros Hw Hf. apply Forall_alter; [done|]. intros u _. apply Hf. Qed.

Lemma use_ok w index kind w' : walk_ok w -> use w index kind = Some w' -> walk_ok w'.
Proof.
  intros Hw. unfold use. case_match; [done|]. intros [= <-]. apply (setUse_ok w); [done|]. intros u Hu. by case_decide.
Qed.

Definition go_ok {A} (proj : A -> walk) (r : option (part A)) : Prop :=
  match r with Some (Go a) => walk_ok (proj a) | Some (Break w) => walk_ok w | None => True end.

Lemma starArgument_ok w at_ n w' rest : walk_ok w -> starArgument w at_ = Some (n, w', rest) -> walk_ok w'.
Proof.
  intros Hw. unfold starArgument. destruct (readNumber at_) as [[k at1]|]; cbn; [|done]. destruct (head at1); cbn; [|done].
  case_match; by intros [= <- <- <-].
Qed.

Lemma readWidth_ok w at_ : walk_ok w -> go_ok fst (readWidth w at_).
Proof.
  intros Hw. unfold readWidth. destruct (head at_) as [c|]; cbn; [|done]. case_match.
  - destruct (starArgument w (tail at_)) as [[[n w'] rest]|] eqn:E; cbn; [|done]. apply starArgument_ok in E; [|done].
    destruct (use w' n ArgumentInt) eqn:Eu; cbn; [by eapply use_ok|done].
  - destruct (readNumber at_) as [[k at1]|]; done.
Qed.

Lemma readPrecision_ok w at_ : walk_ok w -> go_ok (fun x : Z * Z * walk * list Z => snd (fst x)) (readPrecision w at_).
Proof.
  intros Hw. unfold readPrecision. destruct (head at_) as [c|]; cbn; [|done]. case_match; [|done].
  destruct (head (tail at_)) as [c1|]; cbn; [|done]. case_match.
  - destruct (starArgument w (tail (tail at_))) as [[[n w'] rest]|] eqn:E; cbn; [|done]. apply starArgument_ok in E; [|done].
    destruct (use w' n ArgumentInt) eqn:Eu; cbn; [by eapply use_ok|done].
  - destruct (readNumber (tail at_)) as [[k at1]|]; done.
Qed.

Lemma readSpec_ok w spec : walk_ok w -> go_ok fst (readSpec w spec).
Proof.
  intros Hw. unfold readSpec. destruct (readNumber spec) as [[number at1]|]; cbn; [|done].
  destruct (head at1) as [c0|]; cbn; [|done].
  destruct (if (0 <? number) && (c0 =? 36) then (number, tail at1) else (0, spec)) as [position at2].
  destruct (skipFlags at2) as [at3|]; cbn; [|done]. pose proof (readWidth_ok w at3 Hw) as H1.
  destruct (readWidth w at3) as [[[w1 at4]|w1]|]; cbn in *; try done. pose proof (readPrecision_ok w1 at4 H1) as H2.
  destruct (readPrecision w1 at4) as [[[[[p pa] w2] at5]|w2]|]; cbn in *; try done.
  destruct (readSize at5) as [[size at6]|]; cbn; [|done]. destruct (head at6) as [c|]; cbn; [|done]. case_decide; [done|].
  destruct (if position =? 0 then (w_next w2, mkWalk (w_uses w2) (w_count w2) (w_next w2 + 1)) else (position, w2))
    as [position' w3] eqn:E3.
  assert (H3 : walk_ok w3) by (by case_match; injection E3 as <- <-).
  destruct (use w3 position' _) as [w4|] eqn:E4; [|done]. apply use_ok in E4; [|done].
  assert (H5 : walk_ok (setUse w4 position' (fun u => mkUse (fu_kind u) p pa (targetBytes size)))).
  { apply setUse_ok; [done|]. intros u _. cbn. unfold targetBytes. repeat case_match; lia. }
  destruct (c =? 0); exact H5.
Qed.

Lemma readFormat_ok fuel : forall w at_ w', walk_ok w -> readFormat fuel w at_ = Some w' -> walk_ok w'.
Proof.
  induction fuel as [|fuel IH]; intros w at_ w' Hw; cbn [readFormat]; [done|].
  destruct (head at_) as [c|]; cbn; [|done]. case_match; [by intros [= <-]|]. case_match; [by apply IH|].
  destruct (head (tail at_)) as [c1|]; cbn; [|done]. case_match; [by apply IH|]. pose proof (readSpec_ok w (tail at_) Hw) as Hgo.
  destruct (readSpec w (tail at_)) as [[[w1 at1]|w1]|]; cbn in *; [by apply IH|by intros [= <-]|done].
Qed.

Lemma formatUses_ok at_ w : formatUses at_ = Some w -> walk_ok w.
Proof. apply readFormat_ok. unfold walk_ok, startWalk. cbn. repeat constructor; cbn; lia. Qed.

(** The values of the uses that name memory are arguments. *)
Lemma readArguments_named uses : forall arguments values,
  readArguments uses arguments = Some values -> Forall (fun a => 0 <= a < 2 ^ 64) arguments ->
  Forall (fun '(u, v) => fu_kind u = ArgumentString \/ fu_kind u = ArgumentTarget -> exists a, v = Some a /\ 0 <= a < 2 ^ 64)
    (zip uses values).
Proof.
  induction uses as [|u uses IH]; intros arguments values; cbn [readArguments]; [by intros [= <-]|].
  intros E Ha. destruct (fu_kind u) eqn:Ek; [injection E as <-; constructor|..];
    (destruct arguments as [|a others]; [done|]; inversion Ha as [|? ? Ha1 Ha2]; subst;
     destruct (readArguments uses others) as [l|] eqn:El; [|done]; injection E as <-; cbn; constructor; [|by eapply IH];
     rewrite Ek; intros [?|?]; try done; by exists a).
Qed.

(** ** Formats demand *)

Section Calls.
Context {T : Thread} {H : HeapView} {M : Machine} (here : Z) (st0 : cstate).

Notation m0 := (cs_mem st0).
Notation needs := (needs here st0).
Notation near := (near here st0).
Notation performs := (performs here st0).
Notation ready := (ready st0).
Notation holds := (holds here st0).

Definition useDemands (u : FormatUse) (value : option Z) (values : list (option Z)) : list demand :=
  match fu_kind u with
  | ArgumentString =>
    match precisionOf u values, value with
    | Some p, Some v => [Ends v (if p <? 0 then MaxLength else p) true]
    | _, _ => [Never]
    end
  | ArgumentTarget => match value with Some v => [Usable v (fu_bytes u)] | None => [Never] end
  | _ => []
  end.

Definition usesDemands (l : list (FormatUse * option Z)) (values : list (option Z)) : list demand :=
  flat_map (fun '(u, v) => useDemands u v values) l.

(** The uses of a format's arguments, with their values. *)
Definition formatReads (format : Z) (arguments : list Z) : option (list (FormatUse * option Z) * list (option Z)) :=
  w ← formatUses (mappedFrom m0 format);
  values ← readArguments (take (Z.to_nat (w_count w)) (w_uses w)) arguments;
  Some (zip (w_uses w) values, values).

Definition formatDemands (format : Z) (arguments : list Z) : list demand :=
  if format =? 0 then []
  else match formatReads format arguments with Some (l, values) => usesDemands l values | None => [Never] end.

Definition use_ok_value (x : FormatUse * option Z) : Prop :=
  0 <= fu_bytes (fst x) <= 8
  /\ (fu_kind (fst x) = ArgumentString \/ fu_kind (fst x) = ArgumentTarget -> exists a, snd x = Some a /\ 0 <= a < 2 ^ 64).

Lemma zip_take {A B} (l : list A) (k : list B) n : (length k <= n)%nat -> zip (take n l) k = zip l k.
Proof.
  revert k n. induction l as [|a l IH]; intros k n; [by rewrite firstn_nil|]. destruct n as [|n], k as [|b k]; cbn; try (done || lia).
  intros Hk. rewrite IH; [done|lia].
Qed.

Lemma readArguments_length uses : forall arguments values, readArguments uses arguments = Some values -> (length values <= length uses)%nat.
Proof.
  induction uses as [|u uses IH]; intros arguments values; cbn; [by intros [= <-]|].
  destruct (fu_kind u); [intros [= <-]; cbn; lia|..];
    (destruct arguments as [|a others]; [done|]; destruct (readArguments uses others) eqn:E; [|done]; intros [= <-]; apply IH in E; cbn; lia).
Qed.

Lemma formatReads_ok format arguments l values :
  formatReads format arguments = Some (l, values) -> Forall (fun a => 0 <= a < 2 ^ 64) arguments -> Forall use_ok_value l.
Proof.
  unfold formatReads. destruct (formatUses (mappedFrom m0 format)) as [w|] eqn:Ew; cbn; [|done].
  destruct (readArguments _ arguments) as [vs|] eqn:Ev; cbn; [|done]. intros [= <- <-] Ha. apply formatUses_ok in Ew.
  pose proof (readArguments_named _ _ _ Ev Ha) as Hn. pose proof (readArguments_length _ _ _ Ev) as Hl.
  rewrite zip_take in Hn by (rewrite length_take in Hl; lia). apply list.Forall_forall. intros [u v] Hin. split; cbn.
  - pose proof (proj1 (list.Forall_forall _ _) Ew u) as Hu. apply Hu. eapply elem_of_zip_l. exact Hin.
  - pose proof (proj1 (list.Forall_forall _ _) Hn (u, v) Hin) as Hv. exact Hv.
Qed.

Lemma nullAllowed_string si : nullAllowed (Some (stringSite si)) = true.
Proof.
  unfold nullAllowed. apply negb_true_iff, Z.eqb_neq. destruct si as [s|]; [|done]. cbn.
  intros E. apply (f_equal (fun z => Z.testbit z 3)) in E. rewrite Z.land_spec, Z.bits_0 in E.
  change 65536 with (2 ^ 16) in E. rewrite Z.mod_pow2_bits_low, Z.lor_spec in E by lia.
  change (Z.testbit WeavecRtSiteNullOk 3) with true in E. by rewrite orb_true_r in E.
Qed.

Lemma needs_use u v values si st :
  near st -> ready si -> use_ok_value (u, v) -> needs (useDemands u v values) tt (checkUse here u v values si st).
Proof.
  intros Hn Hr [Hb Hv]. cbn in Hb, Hv. unfold checkUse, useDemands. destruct (fu_kind u) eqn:Ek; try by apply needs_ret.
  - destruct Hv as (a & -> & Ha); [by left|]. pose proof (needs_answer here st0 (precisionOf u values) 0 st Hn) as Hp.
    destruct (precisionOf u values) as [p|]; cbn in Hp.
    + change [Ends a _ true] with ([] ++ [Ends a (if p <? 0 then MaxLength else p) true] ++ []).
      apply (needs_bind here st0 [] _ p); [exact Hp|]. intros st1 N1 _.
      apply (needs_bind here st0 [] [_] a); [by apply needs_ret|]. intros st2 N2 _.
      set (max := if p <? 0 then MaxLength else p). assert (0 <= max) by (subst max; unfold MaxLength; case_match; bool_hyps; lia).
      apply (needs_bind here st0 [Ends a max true] [] (answerOf st0 a max)); [|intros st3 N3 _; by apply needs_ret].
      rewrite <- (nullAllowed_string si). apply (needs_strlen here st0 _ _ si); try done; [by apply stop_stringSite|lia].
    + right. destruct Hp as [(? & _)|(E1 & Hq & Hd)]; [done|]. unfold mbind, C_bind. cbn in E1 |- *. split; [done|]. by split; [apply Hn|].
  - destruct Hv as (a & -> & Ha); [by right|]. change [Usable a (fu_bytes u)] with ([] ++ [Usable a (fu_bytes u)]).
    apply (needs_bind here st0 [] _ a); [by apply needs_ret|]. intros st1 N1 _.
    apply (needs_range here st0 a _ _ si); try done; [by apply stop_writeSite|lia].
Qed.

Lemma needs_uses l values si st :
  near st -> ready si -> Forall use_ok_value l -> needs (usesDemands l values) tt (checkUses here l values si st).
Proof.
  intros Hn Hr Hl. revert st Hn. induction Hl as [|[u v] l Hu Hl IH]; intros st Hn; cbn [checkUses usesDemands flat_map]; [by apply needs_ret|].
  apply (needs_bind here st0 _ _ tt); [by apply needs_use|]. intros st1 N1 _. by apply IH.
Qed.

Lemma bind_answer {A B} (a : A) (f : A -> C B) st : (or_stopped (Some a) ≫= f) st = f a st.
Proof. done. Qed.

Lemma needs_format format arguments si st :
  near st -> ready si -> Forall (fun a => 0 <= a < 2 ^ 64) arguments ->
  needs (formatDemands format arguments) tt (checkFormat here format arguments si st).
Proof.
  intros Hn Hr Ha. unfold checkFormat, formatDemands. destruct (format =? 0); [by apply needs_ret|].
  apply needs_memory; [done|]. pose proof (formatReads_ok format arguments) as Hok. unfold formatReads in *.
  destruct (formatUses (mappedFrom m0 format)) as [w|]; cbn [mbind option_bind] in *.
  - rewrite bind_answer. destruct (readArguments _ arguments) as [values|]; cbn [mbind option_bind] in *.
    + rewrite bind_answer. apply (needs_uses _ values si st Hn Hr). by eapply Hok.
    + right. split; [done|]. split; [apply Hn|]. rewrite holds_one. by intros [].
  - right. split; [done|]. split; [apply Hn|]. rewrite holds_one. by intros [].
Qed.

(** ** Formatted writes *)

(** What the C library promises of the class [Machine]: sizes of types, lengths
    that are [int]s, parsers that stop in their string. *)
Record library_ok : Prop := {
  lo_sizes : forall name, 0 <= sizeof name < 2 ^ 64;
  lo_formatted : forall m format arguments bytes, formatted m format arguments = Some bytes -> Z.of_nat (length bytes) < 2 ^ 31;
  lo_parser : forall name m s base, stops_inside s (snd (parser name m s base))
}.

Definition formattedLength (format : Z) (arguments : list Z) : Z :=
  match formatted m0 format arguments with Some bytes => Z.of_nat (length bytes) | None => -1 end.

(** Memory after [vsnprintf]. *)
Definition formattedMemory (d n format : Z) (arguments : list Z) : Z -> Z :=
  match formatted m0 format arguments with
  | Some bytes => if n =? 0 then m0 else writeBytes m0 d (take (Z.to_nat (n - 1)) bytes ++ [0])
  | None => m0
  end.

Definition writeDemands (d n limit format : Z) (arguments : list Z) : list demand :=
  let length := formattedLength format arguments in
  if (n =? 0) || (length <? 0) then []
  else let written := Z.min (length + 1) n in [Usable d written; Within written limit].

Lemma performs_vsnprintf d n format arguments st :
  near st -> performs [] (formattedLength format arguments) (formattedMemory d n format arguments) (vsnprintf d n format arguments st).
Proof.
  intros ((E1 & E2 & Hs) & Er). left. unfold vsnprintf, formattedLength, formattedMemory, memory, mbind, C_bind. rewrite E1.
  destruct (formatted m0 format arguments) as [bytes|]; [|by split_and!]. unfold when, setMemory. destruct (n =? 0); by split_and!.
Qed.

(** Measuring writes nothing. *)
Lemma needs_measure format arguments st :
  near st -> needs [] (formattedLength format arguments) (vsnprintf 0 0 format arguments st).
Proof.
  intros Hn. destruct (performs_vsnprintf 0 0 format arguments st Hn) as [(E & Em & Ei & Hs & Er & Hd)|(E & Hq & Hd)]; [|right; done].
  left. split; [done|]. split; [|done]. split; [|done]. split; [|done]. rewrite Em. unfold formattedMemory. by case_match.
Qed.

Lemma all_usable_less sh a n k : k <= n -> all_usable sh here a n -> all_usable sh here a k.
Proof. intros Hk Hu b Hb. apply Hu. lia. Qed.

Lemma performs_rt_vsnprintf d n format arguments limit si st :
  near st -> ready si -> library_ok -> 0 <= d < 2 ^ 64 -> 0 <= n < 2 ^ 64 -> Forall (fun a => 0 <= a < 2 ^ 64) arguments ->
  performs (formatDemands format arguments ++ writeDemands d n limit format arguments)
    (formattedLength format arguments) (formattedMemory d n format arguments)
    (__weavec_rt_vsnprintf here d n format arguments limit si st).
Proof.
  intros Hn Hr Hl Hd Hn0 Ha. unfold __weavec_rt_vsnprintf.
  apply (performs_bind here st0 _ _ tt); [by apply needs_format|]. intros st1 N1 _. unfold writeDemands.
  set (len := formattedLength format arguments). assert (Hlen : -1 <= len < 2 ^ 31).
  { subst len. unfold formattedLength. destruct (formatted m0 format arguments) eqn:E; [|lia]. apply (lo_formatted Hl) in E. lia. }
  destruct (Z.eqb_spec n 0) as [->|Hne]; cbn [negb andb orb].
  { apply (performs_bind here st0 [] [] true); [by apply needs_ret|]. intros st2 N2 _.
    apply (performs_bind here st0 [] [] tt); [by apply needs_ret|]. intros st3 N3 _. by apply performs_vsnprintf. }
  destruct (range_ok_any (cs_guard st1) d n here) as (ok & g & E & Hset & Er & Hok); [|done|lia|].
  { pose proof (near_shadow here st0 st1 N1) as Hsh. apply Hsh. }
  rewrite (near_reached here st0 st1), (near_all_usable here st0 st1) in Hok by done.
  unfold mbind at 1, C_bind at 1, rangeOk, guarded. rewrite E.
  assert (N2 : near (mkC g (cs_mem st1) (cs_input st1))) by (by apply near_after).
  set (st2 := mkC g (cs_mem st1) (cs_input st1)) in *. clearbody st2.
  set (ds := if len <? 0 then [] else _).
  assert (Hds : Forall holds ds <-> (len < 0 \/ holds (Usable d (Z.min (len + 1) n)) /\ Z.min (len + 1) n <= limit)).
  { subst ds. destruct (Z.ltb_spec len 0); [split; [by left|done]|]. rewrite Forall_cons_iff, holds_one. cbn. intuition lia. }
  rewrite <- (app_nil_r ds). eapply (performs_bind here st0 ds [] tt); [|intros st3 N3 _; by apply performs_vsnprintf].
  apply needs_when; [done| |].
  - intros Eb. apply orb_false_iff in Eb as [Eok El]. apply Hds. destruct ok; [|done]. apply Z.ltb_ge in El.
    destruct (Z.ltb_spec len 0); [by left|right]. split; [|lia]. cbn. apply (all_usable_less _ _ n); [lia|by apply Hok].
  - intros _. assert (Hw : needs ([] ++ ds) tt ((length ← vsnprintf 0 0 format arguments; when (0 <=? length)
       (let written := if length + 1 <? n then length + 1 else n in let write := writeSite si in
        checkRange here d written (Some write);; checkLimit d written limit write)) st2)); [|exact Hw].
    apply (needs_bind here st0 [] ds len); [by apply needs_measure|]. intros st3 N3 _. subst ds. rewrite Z.leb_antisym.
    apply needs_part; [done|]. intros Hpos%Z.ltb_ge. cbv zeta.
    replace (if len + 1 <? n then len + 1 else n) with (Z.min (len + 1) n) by (destruct (Z.ltb_spec (len + 1) n); lia).
    apply (needs_bind here st0 [_] [_] tt); [apply (needs_range here st0 d _ _ si); try done; [by apply stop_writeSite|lia]|].
    intros st4 N4 _. apply needs_limit; [done|by apply stop_writeSite].
Qed.

Definition sprintDemands (d limit format : Z) (arguments : list Z) : list demand :=
  let length := formattedLength format arguments in
  if length <? 0 then [] else [Usable d (length + 1); Within (length + 1) limit].

Definition sprintMemory (d format : Z) (arguments : list Z) : Z -> Z :=
  formattedMemory d (formattedLength format arguments + 1) format arguments.

Lemma performs_rt_vsprintf d format arguments limit si st :
  near st -> ready si -> library_ok -> 0 <= d < 2 ^ 64 -> Forall (fun a => 0 <= a < 2 ^ 64) arguments ->
  performs (formatDemands format arguments ++ sprintDemands d limit format arguments)
    (formattedLength format arguments) (sprintMemory d format arguments)
    (__weavec_rt_vsprintf here d format arguments limit si st).
Proof.
  intros Hn Hr Hl Hd Ha. unfold __weavec_rt_vsprintf.
  apply (performs_bind here st0 _ _ tt); [by apply needs_format|]. intros st1 N1 _. unfold sprintDemands, sprintMemory.
  assert (Hlen : -1 <= formattedLength format arguments < 2 ^ 31).
  { unfold formattedLength. destruct (formatted m0 format arguments) eqn:E; [|lia]. apply (lo_formatted Hl) in E. lia. }
  eapply (performs_bind here st0 [] _ (formattedLength format arguments)); [by apply needs_measure|]. intros st2 N2 _.
  set (len := formattedLength format arguments) in *. destruct (Z.ltb_spec len 0).
  { assert (Em : formattedMemory d (len + 1) format arguments = m0).
    { unfold formattedMemory. subst len. unfold formattedLength in *. destruct (formatted m0 format arguments); [lia|done]. }
    rewrite Em. by apply performs_ret. }
  cbv zeta. apply (performs_bind here st0 [_] [_] tt); [apply (needs_range here st0 d _ _ si); try done; [by apply stop_writeSite|lia]|].
  intros st3 N3 _. apply (performs_bind here st0 [_] [] tt); [apply needs_limit; [done|by apply stop_writeSite]|].
  intros st4 N4 _. by apply performs_vsnprintf.
Qed.

(** ** The table *)

Inductive libcall :=
  | Strcpy (d s limit : Z) | Stpcpy (d s limit : Z) | Strcat (d s limit : Z)
  | Strcmp (a b : Z) | Strncmp (a b n : Z) | Strcasecmp (a b : Z) | Strncasecmp (a b n : Z)
  | Strtol (s end_ base : Z) | Strtoll (s end_ base : Z) | Strtoul (s end_ base : Z) | Strtoull (s end_ base : Z)
  | Strtoimax (s end_ base : Z) | Strtoumax (s end_ base : Z)
  | Strtod (s end_ : Z) | Strtof (s end_ : Z) | Strtold (s end_ : Z)
  | Readv (fd v count : Z) | Writev (fd v count : Z) | Preadv (fd v count offset : Z) | Pwritev (fd v count offset : Z)
  | Recvmsg (fd m flags : Z) | Sendmsg (fd m flags : Z)
  | Getline (line n stream : Z) | Getdelim (line n delimiter stream : Z)
  | InetPton (family text address : Z) | InetNtop (family address text size : Z)
  | Stat (path out : Z) | Lstat (path out : Z) | Fstat (fd out : Z) | Fstatat (fd path out flags : Z)
  | GmtimeR (time out : Z) | LocaltimeR (time out : Z) | Uname (out : Z)
  | Getsockopt (fd level name value length : Z) | Getsockname (fd address length : Z)
  | Getpeername (fd address length : Z) | Accept (fd address length : Z)
  | Recvfrom (fd buffer n flags address length limit : Z) | IfIndextoname (index name : Z)
  | Vsnprintf (d n format : Z) (arguments : list Z) (limit : Z) | Vsprintf (d format : Z) (arguments : list Z) (limit : Z)
  | Vprintf (format : Z) (arguments : list Z) | Vfprintf (stream format : Z) (arguments : list Z)
  | Vdprintf (fd format : Z) (arguments : list Z) | Vasprintf (out format : Z) (arguments : list Z).

Definition run (c : libcall) (si : option site) : C Z :=
  match c with
  | Strcpy d s limit => __weavec_rt_strcpy here d s limit si
  | Stpcpy d s limit => __weavec_rt_stpcpy here d s limit si
  | Strcat d s limit => __weavec_rt_strcat here d s limit si
  | Strcmp a b => __weavec_rt_strcmp here a b si
  | Strncmp a b n => __weavec_rt_strncmp here a b n si
  | Strcasecmp a b => __weavec_rt_strcasecmp here a b si
  | Strncasecmp a b n => __weavec_rt_strncasecmp here a b n si
  | Strtol s end_ base => __weavec_rt_strtol here s end_ base si
  | Strtoll s end_ base => __weavec_rt_strtoll here s end_ base si
  | Strtoul s end_ base => __weavec_rt_strtoul here s end_ base si
  | Strtoull s end_ base => __weavec_rt_strtoull here s end_ base si
  | Strtoimax s end_ base => __weavec_rt_strtoimax here s end_ base si
  | Strtoumax s end_ base => __weavec_rt_strtoumax here s end_ base si
  | Strtod s end_ => __weavec_rt_strtod here s end_ si
  | Strtof s end_ => __weavec_rt_strtof here s end_ si
  | Strtold s end_ => __weavec_rt_strtold here s end_ si
  | Readv fd v count => __weavec_rt_readv here fd v count si
  | Writev fd v count => __weavec_rt_writev here fd v count si
  | Preadv fd v count offset => __weavec_rt_preadv here fd v count offset si
  | Pwritev fd v count offset => __weavec_rt_pwritev here fd v count offset si
  | Recvmsg fd m flags => __weavec_rt_recvmsg here fd m flags si
  | Sendmsg fd m flags => __weavec_rt_sendmsg here fd m flags si
  | Getline line n stream => __weavec_rt_getline here line n stream si
  | Getdelim line n delimiter stream => __weavec_rt_getdelim here line n delimiter stream si
  | InetPton family text address => __weavec_rt_inet_pton here family text address si
  | InetNtop family address text size => __weavec_rt_inet_ntop here family address text size si
  | Stat path out => __weavec_rt_stat here path out si
  | Lstat path out => __weavec_rt_lstat here path out si
  | Fstat fd out => __weavec_rt_fstat here fd out si
  | Fstatat fd path out flags => __weavec_rt_fstatat here fd path out flags si
  | GmtimeR time out => __weavec_rt_gmtime_r here time out si
  | LocaltimeR time out => __weavec_rt_localtime_r here time out si
  | Uname out => __weavec_rt_uname here out si
  | Getsockopt fd level name value length => __weavec_rt_getsockopt here fd level name value length si
  | Getsockname fd address length => __weavec_rt_getsockname here fd address length si
  | Getpeername fd address length => __weavec_rt_getpeername here fd address length si
  | Accept fd address length => __weavec_rt_accept here fd address length si
  | Recvfrom fd buffer n flags address length limit => __weavec_rt_recvfrom here fd buffer n flags address length limit si
  | IfIndextoname index name => __weavec_rt_if_indextoname here index name si
  | Vsnprintf d n format arguments limit => __weavec_rt_vsnprintf here d n format arguments limit si
  | Vsprintf d format arguments limit => __weavec_rt_vsprintf here d format arguments limit si
  | Vprintf format arguments => __weavec_rt_vprintf here format arguments si
  | Vfprintf stream format arguments => __weavec_rt_vfprintf here stream format arguments si
  | Vdprintf fd format arguments => __weavec_rt_vdprintf here fd format arguments si
  | Vasprintf out format arguments => __weavec_rt_vasprintf here out format arguments si
  end.

(** What the call demands of the state it is made in. *)
Definition demands (c : libcall) (si : option site) : list demand :=
  let string s := Ends s MaxLength (nullAllowed si) in
  match c with
  | Strcpy d s limit | Stpcpy d s limit => copyDemands st0 d s limit si
  | Strcat d s limit => catDemands st0 d s limit si
  | Strcmp a b => compareDemands st0 a b MaxLength false
  | Strncmp a b n => compareDemands st0 a b n false
  | Strcasecmp a b => compareDemands st0 a b MaxLength true
  | Strncasecmp a b n => compareDemands st0 a b n true
  | Strtol s end_ base => parserDemands st0 s (snd (parser "strtol" m0 s base)) end_
  | Strtoll s end_ base => parserDemands st0 s (snd (parser "strtoll" m0 s base)) end_
  | Strtoul s end_ base => parserDemands st0 s (snd (parser "strtoul" m0 s base)) end_
  | Strtoull s end_ base => parserDemands st0 s (snd (parser "strtoull" m0 s base)) end_
  | Strtoimax s end_ base => parserDemands st0 s (snd (parser "strtoimax" m0 s base)) end_
  | Strtoumax s end_ base => parserDemands st0 s (snd (parser "strtoumax" m0 s base)) end_
  | Strtod s end_ => parserDemands st0 s (snd (parser "strtod" m0 s 0)) end_
  | Strtof s end_ => parserDemands st0 s (snd (parser "strtof" m0 s 0)) end_
  | Strtold s end_ => parserDemands st0 s (snd (parser "strtold" m0 s 0)) end_
  | Readv _ v count | Writev _ v count | Preadv _ v count _ | Pwritev _ v count _ => arrayDemands st0 v count
  | Recvmsg _ m _ | Sendmsg _ m _ => messageDemands st0 m
  | Getline line n _ | Getdelim line n _ _ => lineDemands st0 line n
  | InetPton family text address => [string text; Usable address (familyBytes family)]
  | InetNtop family address text size => [Usable address (familyBytes family); Usable text size]
  | Stat path out | Lstat path out | Fstatat _ path out _ => [string path; Usable out (sizeof "struct stat")]
  | Fstat _ out => [Usable out (sizeof "struct stat")]
  | GmtimeR time out | LocaltimeR time out => [Usable time (sizeof "time_t"); Usable out (sizeof "struct tm")]
  | Uname out => [Usable out (sizeof "struct utsname")]
  | Getsockopt _ _ _ buffer length | Getsockname _ buffer length | Getpeername _ buffer length | Accept _ buffer length =>
    lengthDemands st0 buffer length
  | Recvfrom _ buffer n _ address length limit => [Usable buffer n; Within n limit] ++ lengthDemands st0 address length
  | IfIndextoname _ name => [Usable name 16]
  | Vsnprintf d n format arguments limit => formatDemands format arguments ++ writeDemands d n limit format arguments
  | Vsprintf d format arguments limit => formatDemands format arguments ++ sprintDemands d limit format arguments
  | Vprintf format arguments | Vfprintf _ format arguments | Vdprintf _ format arguments => formatDemands format arguments
  | Vasprintf out format arguments => Usable out 8 :: formatDemands format arguments
  end.

Definition parserEffect (name : string) (s end_ base : Z) : Z * (Z -> Z) :=
  let '(value, stop) := parser name m0 s base in (value, if end_ =? 0 then m0 else store_le m0 end_ 8 stop).

(** What the call answers, and the memory it leaves, when it is made. *)
Definition effect (c : libcall) : Z * (Z -> Z) :=
  let copied d s := memmove m0 d s (answerOf st0 s MaxLength + 1) in
  match c with
  | Strcpy d s _ => (d, copied d s)
  | Stpcpy d s _ => (add64 d (answerOf st0 s MaxLength), copied d s)
  | Strcat d s _ => (d, memmove m0 (d + answerOf st0 d MaxLength) s (answerOf st0 s MaxLength + 1))
  | Strcmp a b => (compareResult st0 a b MaxLength false, m0)
  | Strncmp a b n => (compareResult st0 a b n false, m0)
  | Strcasecmp a b => (compareResult st0 a b MaxLength true, m0)
  | Strncasecmp a b n => (compareResult st0 a b n true, m0)
  | Strtol s end_ base => parserEffect "strtol" s end_ base
  | Strtoll s end_ base => parserEffect "strtoll" s end_ base
  | Strtoul s end_ base => parserEffect "strtoul" s end_ base
  | Strtoull s end_ base => parserEffect "strtoull" s end_ base
  | Strtoimax s end_ base => parserEffect "strtoimax" s end_ base
  | Strtoumax s end_ base => parserEffect "strtoumax" s end_ base
  | Strtod s end_ => parserEffect "strtod" s end_ 0
  | Strtof s end_ => parserEffect "strtof" s end_ 0
  | Strtold s end_ => parserEffect "strtold" s end_ 0
  | Readv fd v count => library "readv" [fd; v; count] m0
  | Writev fd v count => library "writev" [fd; v; count] m0
  | Preadv fd v count offset => library "preadv" [fd; v; count; offset] m0
  | Pwritev fd v count offset => library "pwritev" [fd; v; count; offset] m0
  | Recvmsg fd m flags => library "recvmsg" [fd; m; flags] m0
  | Sendmsg fd m flags => library "sendmsg" [fd; m; flags] m0
  | Getline line n stream => library "getline" [line; n; stream] m0
  | Getdelim line n delimiter stream => library "getdelim" [line; n; delimiter; stream] m0
  | InetPton family text address => library "inet_pton" [family; text; address] m0
  | InetNtop family address text size => library "inet_ntop" [family; address; text; size] m0
  | Stat path out => library "stat" [path; out] m0
  | Lstat path out => library "lstat" [path; out] m0
  | Fstat fd out => library "fstat" [fd; out] m0
  | Fstatat fd path out flags => library "fstatat" [fd; path; out; flags] m0
  | GmtimeR time out => library "gmtime_r" [time; out] m0
  | LocaltimeR time out => library "localtime_r" [time; out] m0
  | Uname out => library "uname" [out] m0
  | Getsockopt fd level name value length => library "getsockopt" [fd; level; name; value; length] m0
  | Getsockname fd address length => library "getsockname" [fd; address; length] m0
  | Getpeername fd address length => library "getpeername" [fd; address; length] m0
  | Accept fd address length => library "accept" [fd; address; length] m0
  | Recvfrom fd buffer n flags address length _ => library "recvfrom" [fd; buffer; n; flags; address; length] m0
  | IfIndextoname index name => library "if_indextoname" [index; name] m0
  | Vsnprintf d n format arguments _ => (formattedLength format arguments, formattedMemory d n format arguments)
  | Vsprintf d format arguments _ => (formattedLength format arguments, sprintMemory d format arguments)
  | Vprintf format arguments => library "vprintf" (format :: arguments) m0
  | Vfprintf stream format arguments => library "vfprintf" (stream :: format :: arguments) m0
  | Vdprintf fd format arguments => library "vdprintf" (fd :: format :: arguments) m0
  | Vasprintf out format arguments => library "vasprintf" (out :: format :: arguments) m0
  end.

(** The pointers and sizes of a call. *)
Definition words (c : libcall) : list Z :=
  match c with
  | Strcpy d s limit | Stpcpy d s limit | Strcat d s limit => [d; s; limit]
  | Strcmp a b | Strcasecmp a b => [a; b]
  | Strncmp a b n | Strncasecmp a b n => [a; b; n]
  | Strtol s e _ | Strtoll s e _ | Strtoul s e _ | Strtoull s e _ | Strtoimax s e _ | Strtoumax s e _
  | Strtod s e | Strtof s e | Strtold s e => [s; e]
  | Readv _ v _ | Writev _ v _ | Preadv _ v _ _ | Pwritev _ v _ _ => [v]
  | Recvmsg _ m _ | Sendmsg _ m _ => [m]
  | Getline line n _ | Getdelim line n _ _ => [line; n]
  | InetPton _ text address => [text; address]
  | InetNtop _ address text size => [address; text; size]
  | Stat path out | Lstat path out | Fstatat _ path out _ => [path; out]
  | Fstat _ out | Uname out => [out]
  | GmtimeR time out | LocaltimeR time out => [time; out]
  | Getsockopt _ _ _ buffer length | Getsockname _ buffer length | Getpeername _ buffer length | Accept _ buffer length =>
    [buffer; length]
  | Recvfrom _ buffer n _ address length limit => [buffer; n; address; length; limit]
  | IfIndextoname _ name => [name]
  | Vsnprintf d n format arguments limit => d :: n :: format :: limit :: arguments
  | Vsprintf d format arguments limit => d :: format :: limit :: arguments
  | Vprintf format arguments | Vfprintf _ format arguments | Vdprintf _ format arguments => format :: arguments
  | Vasprintf out format arguments => out :: format :: arguments
  end.

(** Its integers are 64-bit words, a copy's destination an address of the user
    half, a count of vectors an [int]. *)
Definition call_ok (c : libcall) : Prop :=
  Forall (fun a => 0 <= a < 2 ^ 64) (words c)
  /\ match c with
     | Strcpy d _ _ | Stpcpy d _ _ | Strcat d _ _ => d < 2 ^ 63
     | Readv _ _ count | Writev _ _ count | Preadv _ _ count _ | Pwritev _ _ count _ => count < 2 ^ 31
     | _ => True
     end.

Context (si : option site) (Hr : ready si) (Hl : library_ok).

Lemma performs_named name arguments st :
  near st -> performs [] (fst (library name arguments m0)) (snd (library name arguments m0)) (call name arguments st).
Proof. apply performs_call. Qed.

(** A check, then the call. *)
Lemma performs_then ds name arguments (c : C unit) st :
  needs ds tt (c st) -> performs ds (fst (library name arguments m0)) (snd (library name arguments m0))
                          ((c;; call name arguments) st).
Proof. intros Hc. rewrite <- (app_nil_r ds). eapply performs_bind; [exact Hc|]. intros st' N' _. by apply performs_named. Qed.

Lemma performs_string ds s x m (c : Z -> C Z) st :
  near st -> 0 <= s -> (forall st', near st' -> performs ds x m (c (answerOf st0 s MaxLength) st')) ->
  performs (Ends s MaxLength (nullAllowed si) :: ds) x m ((strlen here s MaxLength si ≫= c) st).
Proof.
  intros Hn Hs Hc. apply (performs_bind here st0 [_] ds (answerOf st0 s MaxLength)); [|intros st' N' _; by apply Hc].
  apply (needs_strlen here st0 s MaxLength si); (done || apply Hr).
Qed.

Lemma performs_check a n s ds x m (c : C Z) st :
  near st -> stop (gs_reports (cs_guard st0)) s = true -> 0 <= a < 2 ^ 64 -> 0 <= n < 2 ^ 64 ->
  (forall st', near st' -> performs ds x m (c st')) -> performs (Usable a n :: ds) x m ((checkRange here a n s;; c) st).
Proof.
  intros Hn Hs Ha Hn0 Hc. apply (performs_bind here st0 [_] ds tt); [|intros st' N' _; by apply Hc].
  by apply (needs_range here st0 a n s si).
Qed.

Lemma parser_call name s end_ base st :
  near st -> 0 <= s < 2 ^ 64 -> 0 <= end_ < 2 ^ 64 ->
  performs (parserDemands st0 s (snd (parser name m0 s base)) end_)
    (fst (parserEffect name s end_ base)) (snd (parserEffect name s end_ base)) (parserCall here name s end_ base si st).
Proof.
  intros Hn Hs He. pose proof (performs_parser here st0 name s end_ base si st Hn Hr Hs He) as Hp.
  pose proof (lo_parser Hl name m0 s base) as Hst. unfold parserEffect.
  destruct (parser name m0 s base) as [value stop]. cbn in Hst |- *. by apply Hp.
Qed.

Lemma familyBytes_range family : 0 <= familyBytes family < 2 ^ 64.
Proof. unfold familyBytes. repeat case_match; lia. Qed.

Ltac word_bounds :=
  repeat match goal with Hf : Forall _ (_ :: _) |- _ => inversion Hf as [|? ? ? ?]; subst; clear Hf end.
Ltac checking :=
  repeat first
    [ apply performs_named
    | apply performs_string; [done|lia|intros ? ?]
    | apply performs_check; [done|apply Hr|lia|by apply familyBytes_range || by apply Hl || lia|intros ? ?]
    | apply performs_check; [done|by apply stop_writeSite|lia|by apply familyBytes_range || by apply Hl || (cbn; lia)|intros ? ?]
    | done ].

(** C9: each checked call of the C library that [libcall] lists (the string
    copies and comparisons, the number parsers, the vectored reads and writes
    and the messages, the lines, the address conversions, the calls that fill a
    structure, the socket names, and the printf family) is made, with its
    arguments and on the memory the program left, exactly when what it demands
    holds: the bytes it will read and write may be used, its strings end, what
    it writes fits its limit, and the operands of a copy are apart (of [strcat]
    nothing asks that).  Else the program stops and no byte was written.  What
    a format demands is what the runtime's own scan reads of it; FormatFacts
    says of which formats that is what they say.  The scanf family, [gets],
    [mmap] and the wide calls are not among the calls. *)
Theorem calls_demand c :
  call_ok c -> performs (demands c si) (fst (effect c)) (snd (effect c)) (run c si st0).
Proof.
  intros [Hw Hc]. pose proof (near_refl here st0 si Hr) as Hn.
  assert (Hmax : 0 <= MaxLength < 2 ^ 64) by done.
  destruct c; cbn [words] in Hw; word_bounds; cbn [demands effect run fst snd]; try (by apply parser_call);
    try (by apply performs_compare); try (by apply performs_then, needs_vectors; (done || lia));
    try (by apply performs_then, needs_message; [..|apply Hl]); try (by apply performs_then, needs_line);
    try (by apply performs_then, needs_length); try (by apply performs_then, needs_format); try solve [checking].
  - apply (performs_map here st0 _ (answerOf st0 s MaxLength) (fun _ => d)). apply performs_copy; (done || lia).
  - apply (performs_map here st0 _ (answerOf st0 s MaxLength) (add64 d)). apply performs_copy; (done || lia).
  - apply performs_cat; (done || lia).
  - apply performs_check; [done|by apply stop_writeSite|done..|intros st1 N1].
    apply (performs_bind here st0 [_] _ tt); [apply needs_limit; [done|by apply stop_writeSite]|intros st2 N2 _].
    by apply performs_then, needs_length.
  - by apply performs_then, needs_write.
  - by apply performs_rt_vsnprintf.
  - by apply performs_rt_vsprintf.
  - apply performs_check; [done|by apply stop_writeSite|done..|intros st1 N1]. by apply performs_then, needs_format.
Qed.

End Calls.
