(* ===== verification/FormatFacts.v ===== *)
(** * What the scan of a format does

    [checkFormat]'s scan, of the file LibcFormat, always ends at the format's
    terminator; and it reads back the format a list of conversions is written
    as: the arguments in order, each as its conversion reads it. *)

From Stdlib Require Import String.
From S2P Require Import Prelude Shadow Report Guard GuardEntry Libc LibcFormat.
Local Open Scope Z_scope.

(** ** The scan ends *)

(** A reader that stops at the terminator, wherever the memory goes on to:
    what it answers, and the pointer it leaves. *)
Definition local {A} (r : list Z -> option (A * list Z)) (s : list Z) : Prop :=
  exists a s', (length s' <= length s)%nat /\ forall junk, r (s ++ 0 :: junk) = Some (a, s' ++ 0 :: junk).

Lemma head_stop s : exists c, forall junk, head (s ++ 0 :: junk) = Some c /\ (c <> 0 -> exists s', s = c :: s').
Proof. destruct s as [|c s]; [by exists 0|]. exists c. intros junk. split; [done|]. intros _. by exists s. Qed.

Lemma readNumber_local s : local readNumber s.
Proof.
  unfold readNumber. generalize (-1). induction s as [|c s IH]; intros v; cbn [app].
  { exists v, []. split; [done|]. done. }
  destruct (isdigit c) eqn:E.
  - destruct (100000 <? (if v <? 0 then 0 else v * 10) + (c - 48)) eqn:E1.
    + exists (-1), s. split; [cbn; lia|]. intros junk. cbn. by rewrite E, E1.
    + destruct (IH ((if v <? 0 then 0 else v * 10) + (c - 48))) as (a & s' & Hl & Hr).
      exists a, s'. split; [cbn; lia|]. intros junk. cbn. by rewrite E, E1, Hr.
  - exists v, (c :: s). split; [done|]. intros junk. cbn. by rewrite E.
Qed.

Lemma skipFlags_local s : exists s', (length s' <= length s)%nat /\ forall junk, skipFlags (s ++ 0 :: junk) = Some (s' ++ 0 :: junk).
Proof.
  induction s as [|c s IH]; cbn [app].
  - exists []. by split.
  - destruct (negb (c =? 0) && isFlag c) eqn:E.
    + destruct IH as (s' & Hl & Hr). exists s'. split; [cbn; lia|]. intros junk. cbn. by rewrite E.
    + exists (c :: s). split; [done|]. intros junk. cbn. by rewrite E.
Qed.

Lemma starArgument_local w s :
  exists n w' s', (length s' <= length s)%nat /\ forall junk, starArgument w (s ++ 0 :: junk) = Some (n, w', s' ++ 0 :: junk).
Proof.
  destruct (readNumber_local s) as (n & s1 & Hl & Hr). destruct s1 as [|c s1].
  - eexists _, _, []. split; [exact Hl|]. intros junk. unfold starArgument. rewrite Hr. cbn. by rewrite andb_false_r.
  - destruct ((0 <? n) && (c =? 36)) eqn:E.
    + eexists _, _, s1. split; [cbn in Hl; lia|]. intros junk. unfold starArgument. rewrite Hr. cbn. by rewrite E.
    + eexists _, _, (c :: s1). split; [exact Hl|]. intros junk. unfold starArgument. rewrite Hr. cbn. by rewrite E.
Qed.

(** A part of a specification, as [local]: it goes on, or the scan ends. *)
Definition local_part {A} (r : list Z -> option (part (A * list Z))) (s : list Z) : Prop :=
  (exists a s', (length s' <= length s)%nat /\ forall junk, r (s ++ 0 :: junk) = Some (Go (a, s' ++ 0 :: junk)))
  \/ exists w, forall junk, r (s ++ 0 :: junk) = Some (Break w).

Lemma readWidth_local w s : local_part (readWidth w) s.
Proof.
  unfold local_part, readWidth. destruct s as [|c s]; [left; exists w, []; by split|]. cbn [app head tail mbind option_bind].
  destruct (c =? 42).
  - destruct (starArgument_local w s) as (n & w1 & s1 & Hl & Hr). setoid_rewrite Hr. cbn.
    destruct (use w1 n ArgumentInt) as [w2|]; [left; exists w2, s1; split; [cbn; lia|done]|right; by exists w1].
  - left. destruct (readNumber_local (c :: s)) as (n & s1 & Hl & Hr). exists w, s1. split; [done|]. intros junk.
    specialize (Hr junk). cbn [app] in Hr. by rewrite Hr.
Qed.

Lemma readPrecision_local w s : local_part (readPrecision w) s.
Proof.
  unfold local_part, readPrecision. destruct s as [|c s]; [left; exists (-1, 0, w), []; by split|].
  cbn [app head tail mbind option_bind]. destruct (c =? 46); [|left; by exists (-1, 0, w), (c :: s)].
  assert (Hnum : exists a s', (length s' <= S (length s))%nat
    /\ forall junk, ('(precision, at_) ← readNumber (s ++ 0 :: junk);
          Some (Go (if precision <? 0 then 0 else precision, 0, w, at_))) = Some (@Go (Z * Z * walk * list Z) (a, s' ++ 0 :: junk))).
  { destruct (readNumber_local s) as (n & s1 & Hl & Hr). exists (if n <? 0 then 0 else n, 0, w), s1. split; [lia|].
    intros junk. by rewrite Hr. }
  destruct s as [|c1 s]; [left; exact Hnum|]. cbn [app head tail mbind option_bind] in *. destruct (c1 =? 42); [|by left].
  destruct (starArgument_local w s) as (n & w1 & s1 & Hl & Hr). setoid_rewrite Hr. cbn.
  destruct (use w1 n ArgumentInt) as [w2|]; [left; exists (-1, n, w2), s1; split; [cbn; lia|done]|right; by exists w1].
Qed.

Lemma readSize_local s : local readSize s.
Proof.
  assert (Hhere : forall a c s0, (forall junk, readSize (c :: s0 ++ 0 :: junk) = Some (a, s0 ++ 0 :: junk)) -> local readSize (c :: s0))
    by (intros a c s0 Hr; exists a, s0; split; [cbn; lia|done]).
  destruct s as [|c s]; [by exists 0, []|]. unfold readSize in *. cbn [app head tail mbind option_bind] in *.
  destruct (c =? 104) eqn:E1; [|destruct (c =? 108) eqn:E2].
  - destruct s as [|c1 s].
    + exists (-2), []. split; [cbn; lia|]. intros junk. cbn. by rewrite E1.
    + destruct (c1 =? 104) eqn:E3; [exists (-1), s|exists (-2), (c1 :: s)]; (split; [cbn; lia|]); intros junk; cbn; by rewrite E1, E3.
  - destruct s as [|c1 s].
    + exists 1, []. split; [cbn; lia|]. intros junk. cbn. by rewrite E1, E2.
    + destruct (c1 =? 108) eqn:E3; [exists 2, s|exists 1, (c1 :: s)]; (split; [cbn; lia|]); intros junk; cbn; by rewrite E1, E2, E3.
  - unfold local. cbn [app head tail mbind option_bind]. rewrite E1, E2.
    repeat (case_match; [eexists _, s; split; [cbn; lia|reflexivity]|]). by exists 0, (c :: s).
Qed.

Lemma conversion_zero size : conversionKind 0 size = ArgumentNone.
Proof. reflexivity. Qed.

(** A specification leaves its conversion, or ends the scan. *)
Lemma readSpec_local w s :
  (exists w' c s', (length s' < length s)%nat /\ forall junk, readSpec w (s ++ 0 :: junk) = Some (Go (w', c :: s' ++ 0 :: junk)))
  \/ exists w', forall junk, readSpec w (s ++ 0 :: junk) = Some (Break w').
Proof.
  assert (Hpos : exists position s1, (length s1 <= length s)%nat /\ forall junk,
    ('(number, at_) ← readNumber (s ++ 0 :: junk); c ← head at_;
     Some (if (0 <? number) && (c =? 36) then (number, tail at_) else (0, s ++ 0 :: junk))) = Some (position, s1 ++ 0 :: junk)).
  { destruct (readNumber_local s) as (n & s1 & Hl & Hr). destruct s1 as [|c s1].
    - exists 0, s. split; [done|]. intros junk. rewrite Hr. cbn. by rewrite andb_false_r.
    - destruct ((0 <? n) && (c =? 36)) eqn:E; [exists n, s1|exists 0, s]; (split; [cbn in Hl; lia|]); intros junk; rewrite Hr; cbn; by rewrite E. }
  destruct Hpos as (position & s1 & Hl1 & Hpos). destruct (skipFlags_local s1) as (s2 & Hl2 & Hflags).
  assert (Hspec : forall junk, readSpec w (s ++ 0 :: junk) =
    (r ← readWidth w (s2 ++ 0 :: junk);
     match r with
     | Break w => Some (Break w)
     | Go (w, at_) =>
       r ← readPrecision w at_;
       match r with
       | Break w => Some (Break w)
       | Go (precision, precisionArgument, w, at_) =>
         '(size, at_) ← readSize at_;
         c ← head at_;
         let kind := conversionKind c size in
         if decide (kind = ArgumentNone) then Some (Break w)
         else
           let '(position, w) := if position =? 0 then (w_next w, mkWalk (w_uses w) (w_count w) (w_next w + 1))
                                 else (position, w) in
           match use w position kind with
           | None => Some (Break w)
           | Some w =>
             let w := setUse w position (fun u => mkUse (fu_kind u) precision precisionArgument (targetBytes size)) in
             Some (if c =? 0 then Break w else Go (w, at_))
           end
       end
     end)).
  { intros junk. specialize (Hpos junk). unfold readSpec. destruct (readNumber (s ++ 0 :: junk)) as [[n at1]|]; [|done]. cbn in Hpos |- *.
    destruct (head at1) as [c|]; [|done]. cbn in Hpos |- *. injection Hpos as Hpos. rewrite Hpos, Hflags. done. }
  setoid_rewrite Hspec. clear Hspec Hpos Hflags.
  destruct (readWidth_local w s2) as [(w1 & s3 & Hl3 & Hw)|(w' & Hw)]; setoid_rewrite Hw; cbn [mbind option_bind]; [|right; by exists w'].
  destruct (readPrecision_local w1 s3) as [([[p pa] w2] & s4 & Hl4 & Hp)|(w' & Hp)]; setoid_rewrite Hp; cbn [mbind option_bind]; [|right; by exists w'].
  destruct (readSize_local s4) as (size & s5 & Hl5 & Hs). setoid_rewrite Hs. cbn [mbind option_bind].
  destruct s5 as [|c s5]; cbn [app head mbind option_bind].
  { right. exists w2. intros junk. by rewrite decide_True by apply conversion_zero. }
  cbv zeta. destruct (decide (conversionKind c size = ArgumentNone)) as [E|E]; [right; by exists w2|].
  destruct (if position =? 0 then _ else _) as [position' w3]. destruct (use w3 position' _) as [w4|]; [|right; by exists w3].
  destruct (Z.eqb_spec c 0) as [->|Hc]; [by destruct E; apply conversion_zero|].
  left. eexists _, c, s5. split; [cbn in Hl5; lia|done].
Qed.

Lemma readFormat_local n : forall s w, (length s < n)%nat ->
  exists w', forall junk fuel, (length s < fuel)%nat -> readFormat fuel w (s ++ 0 :: junk) = Some w'.
Proof.
  induction n as [|n IH]; intros s w Hn; [lia|].
  destruct s as [|c s].
  { exists w. intros junk [|fuel] Hf; [cbn in Hf; lia|done]. }
  cbn [length] in Hn. destruct (Z.eqb_spec c 0) as [Ec|Ec].
  { exists w. intros junk [|fuel] Hf; [cbn in Hf; lia|]. cbn. by rewrite Ec. }
  destruct (c =? 37) eqn:E37.
  2: { destruct (IH s w ltac:(lia)) as (w' & Hw'). exists w'. intros junk [|fuel] Hf; [cbn in Hf; lia|].
       cbn. rewrite (proj2 (Z.eqb_neq c 0)), E37 by done. cbn. apply Hw'. cbn in Hf. lia. }
  destruct (head_stop s) as (c1 & Hh). destruct (c1 =? 37) eqn:E1.
  { destruct (Hh []) as [_ Hs]. destruct Hs as (s' & ->); [by intros ->|].
    destruct (IH s' w) as (w' & Hw'); [cbn in Hn; lia|]. exists w'. intros junk [|fuel] Hf; [cbn in Hf; lia|].
    cbn. rewrite (proj2 (Z.eqb_neq c 0)), E37 by done. cbn. rewrite E1. apply Hw'. cbn in Hf. lia. }
  destruct (readSpec_local w s) as [(w1 & c' & s' & Hl & Hr)|(w1 & Hr)].
  - destruct (IH s' w1 ltac:(lia)) as (w' & Hw'). exists w'. intros junk [|fuel] Hf; [cbn in Hf; lia|].
    cbn [app readFormat head tail mbind option_bind]. rewrite (proj2 (Z.eqb_neq c 0)), E37 by done. cbn [negb].
    rewrite (proj1 (Hh junk)). cbn [mbind option_bind]. rewrite E1, Hr. cbn [mbind option_bind tail]. apply Hw'. cbn in Hf. lia.
  - exists w1. intros junk [|fuel] Hf; [cbn in Hf; lia|].
    cbn [app readFormat head tail mbind option_bind]. rewrite (proj2 (Z.eqb_neq c 0)), E37 by done. cbn [negb].
    rewrite (proj1 (Hh junk)). cbn [mbind option_bind]. by rewrite E1, Hr.
Qed.

(** C34: the scan of a format ends at its terminator: whatever the format says,
    and whatever lies behind it, the scan answers, and its answer does not
    depend on what lies behind. *)
Theorem format_scan_ends s : exists w, forall junk, formatUses (s ++ 0 :: junk) = Some w.
Proof.
  destruct (readFormat_local (S (length s)) s startWalk ltac:(lia)) as (w & Hw). exists w. intros junk.
  apply Hw. rewrite length_app. cbn. lia.
Qed.

(** ** The scan reads back a format *)

(** A width or a precision: none, its digits, or the next argument. *)
Inductive amount := NoAmount | Digits (digits : list Z) | Star.

(** A conversion without positions: its precision [None] without a period. *)
Record conversion := mkConversion {
  cv_flags : list Z;
  cv_width : amount;
  cv_precision : option amount;
  cv_size : Z;
  cv_letter : Z
}.

Inductive item := Literal (c : Z) | Percent | Converts (c : conversion).

Definition printAmount (a : amount) : list Z :=
  match a with NoAmount => [] | Digits digits => digits | Star => [42] end.

Definition printSize (size : Z) : list Z :=
  if size =? -1 then [104; 104] else if size =? -2 then [104] else if size =? 1 then [108]
  else if size =? 2 then [108; 108] else if size =? 3 then [106] else if size =? 4 then [122]
  else if size =? 5 then [116] else if size =? 6 then [76] else [].

Definition printPrecision (p : option amount) : list Z :=
  match p with None => [] | Some a => 46 :: printAmount a end.

Definition printConversion (c : conversion) : list Z :=
  cv_flags c ++ printAmount (cv_width c) ++ printPrecision (cv_precision c) ++ printSize (cv_size c) ++ [cv_letter c].

Definition printItem (i : item) : list Z :=
  match i with Literal c => [c] | Percent => [37; 37] | Converts c => 37 :: printConversion c end.

Definition printFormat (items : list item) : list Z := flat_map printItem items.

(** The value of digits. *)
Definition digitsValue (digits : list Z) : Z := fold_left (fun v c => v * 10 + (c - 48)) digits 0.

Definition digits_ok (digits : list Z) : Prop :=
  digits <> [] /\ Forall (fun c => isdigit c = true) digits /\ digitsValue digits <= 100000.

Definition conversion_ok (c : conversion) : Prop :=
  Forall (fun f => isFlag f = true) (cv_flags c)
  /\ match cv_width c with Digits digits => digits_ok digits /\ head digits <> Some 48 | _ => True end
  /\ match cv_precision c with Some (Digits digits) => digits_ok digits | _ => True end
  /\ conversionKind (cv_letter c) (cv_size c) <> ArgumentNone /\ -2 <= cv_size c <= 6.

Definition item_ok (i : item) : Prop :=
  match i with Literal c => c <> 0 /\ c <> 37 | Percent => True | Converts c => conversion_ok c end.

(** The arguments a conversion reads, the first of which is number [next]. *)
Definition readInt : FormatUse := mkUse ArgumentInt 0 0 0.

Definition starUse (a : amount) : list FormatUse := match a with Star => [readInt] | _ => [] end.

Definition conversionUses (next : Z) (c : conversion) : list FormatUse :=
  let width := starUse (cv_width c) in
  let '(precision, argument, uses) :=
    match cv_precision c with
    | None => (-1, 0, [])
    | Some NoAmount => (0, 0, [])
    | Some (Digits digits) => (digitsValue digits, 0, [])
    | Some Star => (-1, next + Z.of_nat (length width), [readInt])
    end in
  width ++ uses ++ [mkUse (conversionKind (cv_letter c) (cv_size c)) precision argument (targetBytes (cv_size c))].

(** What the items read, after [uses]. *)
Fixpoint itemUses (uses : list FormatUse) (items : list item) : list FormatUse :=
  match items with
  | [] => uses
  | Converts c :: rest => itemUses (uses ++ conversionUses (Z.of_nat (length uses) + 1) c) rest
  | _ :: rest => itemUses uses rest
  end.

(** The scan's state after [uses], [next] the next argument. *)
Definition walkOf (uses : list FormatUse) (next : Z) : walk :=
  mkWalk (uses ++ replicate (64 - length uses) noUse) (Z.of_nat (length uses)) next.

Lemma alter_last {A} (f : A -> A) (l k : list A) x : alter f (length l) (l ++ x :: k) = l ++ f x :: k.
Proof. rewrite <- (Nat.add_0_r (length l)), alter_app_r. done. Qed.

Lemma use_next uses next kind :
  (length uses < 64)%nat ->
  use (walkOf uses next) (Z.of_nat (length uses) + 1) kind = Some (walkOf (uses ++ [mkUse kind 0 0 0]) next).
Proof.
  intros Hl. unfold use, FormatArguments.
  destruct (Z.ltb_spec (Z.of_nat (length uses) + 1) 1), (Z.ltb_spec 64 (Z.of_nat (length uses) + 1)); try lia. cbn [orb].
  unfold setUse, walkOf. cbn [w_uses w_count w_next]. f_equal.
  replace (Z.to_nat (Z.of_nat (length uses) + 1 - 1)) with (length uses) by lia.
  rewrite (proj2 (Z.ltb_lt (Z.of_nat (length uses)) _)) by lia. rewrite length_app. cbn [length].
  replace (64 - length uses)%nat with (S (64 - (length uses + 1))) by lia. cbn [replicate]. rewrite alter_last. f_equal; [|lia].
  by rewrite <- app_assoc.
Qed.

Lemma setUse_last uses u next f :
  setUse (walkOf (uses ++ [u]) next) (Z.of_nat (length uses) + 1) f = walkOf (uses ++ [f u]) next.
Proof.
  unfold setUse, walkOf. cbn [w_uses w_count w_next]. replace (Z.to_nat (Z.of_nat (length uses) + 1 - 1)) with (length uses) by lia.
  rewrite <- app_assoc. cbn [app]. rewrite alter_last, !length_app. cbn [length]. by rewrite <- app_assoc.
Qed.

(** *** Numbers *)

Lemma isdigit_range c : isdigit c = true -> 48 <= c <= 57.
Proof. unfold isdigit. intros [?%Z.leb_le ?%Z.leb_le]%andb_true_iff. lia. Qed.

Lemma digits_grow digits : forall v, 0 <= v -> Forall (fun c => isdigit c = true) digits ->
  v <= fold_left (fun v c => v * 10 + (c - 48)) digits v.
Proof.
  induction digits as [|c l IH]; intros v Hv Hd; cbn; [lia|]. apply Forall_cons_iff in Hd as [Hc Hd].
  apply isdigit_range in Hc. specialize (IH (v * 10 + (c - 48)) ltac:(lia) Hd). lia.
Qed.

Lemma readNumberFrom_digits digits : forall v x rest,
  0 <= v -> Forall (fun c => isdigit c = true) digits -> isdigit x = false ->
  fold_left (fun v c => v * 10 + (c - 48)) digits v <= 100000 ->
  readNumberFrom v (digits ++ x :: rest) = Some (fold_left (fun v c => v * 10 + (c - 48)) digits v, x :: rest).
Proof.
  induction digits as [|c l IH]; intros v x rest Hv Hd Hx Hb; cbn [app readNumberFrom fold_left] in *; [by rewrite Hx|].
  apply Forall_cons_iff in Hd as [Hc Hd]. rewrite Hc. apply isdigit_range in Hc.
  rewrite (proj2 (Z.ltb_ge v 0)) by lia. pose proof (digits_grow l (v * 10 + (c - 48)) ltac:(lia) Hd).
  rewrite (proj2 (Z.ltb_ge 100000 _)) by lia. apply IH; (done || lia).
Qed.

Lemma readNumber_digits digits x rest :
  digits_ok digits -> isdigit x = false -> readNumber (digits ++ x :: rest) = Some (digitsValue digits, x :: rest).
Proof.
  intros (Hne & Hd & Hb) Hx. destruct digits as [|c l]; [done|]. unfold readNumber, digitsValue in *. cbn [app readNumberFrom fold_left] in *.
  apply Forall_cons_iff in Hd as [Hc Hd]. rewrite Hc. apply isdigit_range in Hc.
  change (if -1 <? 0 then 0 else -1 * 10) with 0. change (0 * 10) with 0 in Hb |- *.
  pose proof (digits_grow l (0 + (c - 48)) ltac:(lia) Hd). rewrite (proj2 (Z.ltb_ge 100000 _)) by lia.
  apply readNumberFrom_digits; (done || lia).
Qed.

Lemma readNumber_none x rest : isdigit x = false -> readNumber (x :: rest) = Some (-1, x :: rest).
Proof. intros Hx. unfold readNumber. cbn. by rewrite Hx. Qed.

(** Behind a number in characters without a [$] is no [$]. *)
Lemma readNumber_position l x rest :
  ~ In 36 l -> x <> 36 -> isdigit x = false ->
  exists n c at_, readNumber (l ++ x :: rest) = Some (n, c :: at_) /\ c <> 36.
Proof.
  unfold readNumber. intros Hl Hx Hd. generalize (-1). induction l as [|c l IH]; intros v; cbn [app readNumberFrom].
  - rewrite Hd. by exists v, x, rest.
  - assert (Hc : c <> 36) by (intros ->; apply Hl; by left).
    assert (Hl' : ~ In 36 l) by (intros ?; apply Hl; by right). destruct (isdigit c); [|by exists v, c, (l ++ x :: rest)].
    destruct (100000 <? _); [|by apply IH]. destruct l as [|c1 l]; [by exists (-1), x, rest|].
    exists (-1), c1, (l ++ x :: rest). split; [done|]. intros ->. apply Hl'. by left.
Qed.

Lemma skipFlags_print flags x rest :
  Forall (fun f => isFlag f = true) flags -> isFlag x = false -> skipFlags (flags ++ x :: rest) = Some (x :: rest).
Proof.
  intros Hf Hx. induction Hf as [|f flags Hf Hfs IH]; cbn [app skipFlags].
  - by rewrite Hx, andb_false_r.
  - rewrite Hf. destruct (Z.eqb_spec f 0) as [->|]; [done|]. cbn. apply IH.
Qed.

(** *** A conversion, part by part *)

(** What no number, flag or star is. *)
Definition plain (x : Z) : Prop := isdigit x = false /\ isFlag x = false /\ x <> 42 /\ x <> 36.

Lemma letter_cases c size : conversionKind c size <> ArgumentNone -> In c [100; 105; 111; 117; 120; 88; 99; 101; 69; 102; 70; 103; 71; 97; 65; 112; 115; 110].
Proof.
  unfold conversionKind, one_of. intros Hk.
  destruct (existsb _ _) eqn:E1 in Hk; [|destruct (existsb _ _) eqn:E2 in Hk].
  - apply existsb_exists in E1 as (x & Hx & ->%Z.eqb_eq). cbn in Hx |- *. tauto.
  - apply existsb_exists in E2 as (x & Hx & ->%Z.eqb_eq). cbn in Hx |- *. tauto.
  - clear E1 E2. destruct (Z.eqb_spec c 112) as [->|]; [cbn; tauto|]. destruct (Z.eqb_spec c 115) as [->|]; [cbn; tauto|].
    destruct (Z.eqb_spec c 110) as [->|]; [cbn; tauto|done].
Qed.

Lemma letter_plain c size : conversionKind c size <> ArgumentNone ->
  plain c /\ c <> 46 /\ c <> 0 /\ c <> 37 /\ ~ In c [104; 108; 106; 122; 116; 76].
Proof.
  intros Hk%letter_cases. unfold plain. cbn in Hk.
  repeat (destruct Hk as [<-|Hk]; [split_and!; first [reflexivity | discriminate | (cbn; intros ?; intuition discriminate)]|]). done.
Qed.

(** The spelling of a size, and the letter. *)
Lemma size_starts c rest :
  conversion_ok c -> exists x at_, printSize (cv_size c) ++ cv_letter c :: rest = x :: at_ /\ plain x /\ x <> 46 /\ (x = cv_letter c \/ x <> 37).
Proof.
  intros (_ & _ & _ & Hk & Hs). destruct (letter_plain _ _ Hk) as (Hp & H46 & _). unfold printSize.
  repeat (case_match; [eexists _, _; split; [reflexivity|]; split; [split_and!; (reflexivity || discriminate)|]; split; [discriminate|by right]|]).
  eexists _, _. split; [reflexivity|]. split; [done|]. split; [done|by left].
Qed.

Lemma readSize_print c rest :
  conversion_ok c -> readSize (printSize (cv_size c) ++ cv_letter c :: rest) = Some (cv_size c, cv_letter c :: rest).
Proof.
  intros (_ & _ & _ & Hk & Hs). destruct (letter_plain _ _ Hk) as (_ & _ & _ & _ & Hn). cbn in Hn.
  assert (Hcases : exists size, cv_size c = size /\ In size [-2; -1; 0; 1; 2; 3; 4; 5; 6]).
  { exists (cv_size c). split; [done|]. cbn. lia. }
  destruct Hcases as (size & -> & Hin).
  assert (E : forall k, In k [104; 108; 106; 122; 116; 76] -> (cv_letter c =? k) = false).
  { intros k Hk'. apply Z.eqb_neq. intros <-. apply Hn. exact Hk'. }
  cbn in Hin. unfold printSize, readSize.
  assert (E1 : (cv_letter c =? 104) = false) by (apply E; cbn; tauto). assert (E2 : (cv_letter c =? 108) = false) by (apply E; cbn; tauto).
  assert (E3 : (cv_letter c =? 106) = false) by (apply E; cbn; tauto). assert (E4 : (cv_letter c =? 122) = false) by (apply E; cbn; tauto).
  assert (E5 : (cv_letter c =? 116) = false) by (apply E; cbn; tauto). assert (E6 : (cv_letter c =? 76) = false) by (apply E; cbn; tauto).
  repeat (destruct Hin as [<-|Hin]; [cbn; rewrite ?E1, ?E2, ?E3, ?E4, ?E5, ?E6; reflexivity|]). done.
Qed.

(** The precision, and what follows it. *)
Lemma precision_starts c rest :
  conversion_ok c ->
  exists x at_, printPrecision (cv_precision c) ++ printSize (cv_size c) ++ cv_letter c :: rest = x :: at_ /\ plain x.
Proof.
  intros Hc. destruct (size_starts c rest Hc) as (x & at_ & E & Hx & _).
  destruct (cv_precision c) as [a|]; cbn [printPrecision app]; [|by exists x, at_].
  eexists _, _. split; [reflexivity|]. by split_and!.
Qed.

(** The precision a conversion states, and the argument that holds it. *)
Definition precisionFrom (p : option amount) (star : Z) : Z * Z :=
  match p with
  | None => (-1, 0) | Some NoAmount => (0, 0) | Some (Digits digits) => (digitsValue digits, 0) | Some Star => (-1, star)
  end.

Definition precisionUses (p : option amount) : list FormatUse := match p with Some a => starUse a | None => [] end.

Lemma length_starUse a : (length (starUse a) <= 1)%nat.
Proof. destruct a; cbn; lia. Qed.

Lemma conversionUses_parts next c :
  let '(precision, argument) := precisionFrom (cv_precision c) (next + Z.of_nat (length (starUse (cv_width c)))) in
  conversionUses next c = starUse (cv_width c) ++ precisionUses (cv_precision c)
                          ++ [mkUse (conversionKind (cv_letter c) (cv_size c)) precision argument (targetBytes (cv_size c))].
Proof. unfold conversionUses, precisionFrom. by destruct (cv_precision c) as [[]|]. Qed.

Lemma digitsValue_nonneg digits : Forall (fun c => isdigit c = true) digits -> 0 <= digitsValue digits.
Proof. intros Hd. unfold digitsValue. by apply (digits_grow digits 0). Qed.

Lemma starArgument_next w x rest :
  plain x -> starArgument w (x :: rest) = Some (w_next w, mkWalk (w_uses w) (w_count w) (w_next w + 1), x :: rest).
Proof. intros (Hd & _). unfold starArgument. rewrite readNumber_none by done. reflexivity. Qed.

Lemma starArgument_plain w l :
  (exists x rest, l = x :: rest /\ plain x) -> starArgument w l = Some (w_next w, mkWalk (w_uses w) (w_count w) (w_next w + 1), l).
Proof. intros (x & rest & -> & Hx). by apply starArgument_next. Qed.

Lemma readNumber_plain digits l :
  digits_ok digits -> (exists x rest, l = x :: rest /\ plain x) -> readNumber (digits ++ l) = Some (digitsValue digits, l).
Proof. intros Hd (x & rest & -> & Hx). apply readNumber_digits; [done|apply Hx]. Qed.

(** The next argument read as an integer. *)
Lemma use_star uses :
  (length uses < 64)%nat ->
  use (walkOf uses (Z.of_nat (length uses) + 1 + 1)) (Z.of_nat (length uses) + 1) ArgumentInt
  = Some (walkOf (uses ++ [readInt]) (Z.of_nat (length (uses ++ [readInt])) + 1)).
Proof. intros Hl. rewrite use_next by done. rewrite length_app. cbn [length]. do 2 f_equal. lia. Qed.

Lemma readWidth_print uses a l :
  (length (uses ++ starUse a) <= 64)%nat ->
  match a with Digits digits => digits_ok digits | _ => True end -> (exists x rest, l = x :: rest /\ plain x) ->
  readWidth (walkOf uses (Z.of_nat (length uses) + 1)) (printAmount a ++ l)
  = Some (Go (walkOf (uses ++ starUse a) (Z.of_nat (length (uses ++ starUse a)) + 1), l)).
Proof.
  intros Hlen Ha Hl. unfold readWidth. destruct a as [|digits|]; cbn [printAmount starUse] in *; rewrite ?app_nil_r in *.
  - destruct Hl as (x & rest & -> & Hx). cbn [app head mbind option_bind].
    rewrite (proj2 (Z.eqb_neq x 42)) by apply Hx. by rewrite readNumber_none by apply Hx.
  - destruct digits as [|d ds]; [by destruct Ha|]. cbn [app head mbind option_bind].
    destruct (Z.eqb_spec d 42) as [->|]; [by destruct Ha as (_ & [? _]%Forall_cons_iff & _)|].
    change (d :: ds ++ l) with ((d :: ds) ++ l). by rewrite readNumber_plain.
  - cbn [app head tail mbind option_bind]. change (42 =? 42) with true. cbv iota. rewrite starArgument_plain by done.
    cbn [mbind option_bind w_next walkOf]. change (mkWalk _ _ _) with (walkOf uses (Z.of_nat (length uses) + 1 + 1)).
    rewrite use_star; [done|]. rewrite length_app in Hlen. cbn in Hlen. lia.
Qed.

Lemma readPrecision_print uses p l :
  (length (uses ++ precisionUses p) <= 64)%nat ->
  match p with Some (Digits digits) => digits_ok digits | _ => True end ->
  (exists x rest, l = x :: rest /\ plain x /\ x <> 46) ->
  readPrecision (walkOf uses (Z.of_nat (length uses) + 1)) (printPrecision p ++ l)
  = Some (Go (fst (precisionFrom p (Z.of_nat (length uses) + 1)), snd (precisionFrom p (Z.of_nat (length uses) + 1)),
              walkOf (uses ++ precisionUses p) (Z.of_nat (length (uses ++ precisionUses p)) + 1), l)).
Proof.
  intros Hlen Hp (x & rest & -> & Hx & H46). unfold readPrecision.
  destruct p as [[|digits|]|]; cbn [printPrecision printAmount starUse precisionUses precisionFrom fst snd app head tail mbind option_bind] in *;
    rewrite ?app_nil_r in *; [change (46 =? 46) with true; cbv iota..|].
  - rewrite (proj2 (Z.eqb_neq x 42)) by apply Hx. by rewrite readNumber_none by apply Hx.
  - destruct digits as [|d ds]; [by destruct Hp|]. cbn [app head mbind option_bind].
    destruct (Z.eqb_spec d 42) as [->|]; [by destruct Hp as (_ & [? _]%Forall_cons_iff & _)|].
    change (d :: ds ++ x :: rest) with ((d :: ds) ++ x :: rest). rewrite readNumber_plain by (done || by exists x, rest).
    cbn [mbind option_bind]. pose proof (digitsValue_nonneg (d :: ds)) as Hn. rewrite (proj2 (Z.ltb_ge _ 0)); [done|].
    apply Hn. apply Hp.
  - change (42 =? 42) with true. cbv iota. rewrite starArgument_next by done.
    cbn [mbind option_bind w_next walkOf]. change (mkWalk _ _ _) with (walkOf uses (Z.of_nat (length uses) + 1 + 1)).
    rewrite use_star; [done|]. rewrite length_app in Hlen. cbn in Hlen. lia.
  - by rewrite (proj2 (Z.eqb_neq x 46)).
Qed.

Lemma no_position l : Forall (fun x => x <> 36) l -> ~ In 36 l.
Proof. intros Hl Hin. by apply (proj1 (List.Forall_forall _ _) Hl 36 Hin). Qed.

Lemma amount_plain a :
  match a with Digits digits => digits_ok digits | _ => True end -> Forall (fun x => x <> 36) (printAmount a).
Proof.
  destruct a as [|ds|]; cbn; [done| |by repeat constructor]. intros (_ & Hd & _). eapply List.Forall_impl; [|exact Hd].
  by intros x Hx ->.
Qed.

Lemma conversion_position c : conversion_ok c ->
  ~ In 36 (cv_flags c ++ printAmount (cv_width c) ++ printPrecision (cv_precision c) ++ printSize (cv_size c)).
Proof.
  intros (Hf & Hw & Hp & _). apply no_position. rewrite !Forall_app. split_and!.
  - eapply List.Forall_impl; [|exact Hf]. by intros x Hx ->.
  - apply amount_plain. by destruct (cv_width c); [..|destruct Hw|].
  - destruct (cv_precision c) as [a|]; cbn; [|done]. constructor; [done|]. apply amount_plain. by destruct a.
  - unfold printSize. repeat case_match; by repeat constructor.
Qed.

Lemma width_starts c rest : conversion_ok c ->
  exists x at_, printAmount (cv_width c) ++ printPrecision (cv_precision c) ++ printSize (cv_size c) ++ cv_letter c :: rest = x :: at_
                /\ isFlag x = false.
Proof.
  intros Hc. destruct (precision_starts c rest Hc) as (x & at_ & E & Hx). rewrite E. destruct Hc as (_ & Hw & _).
  destruct (cv_width c) as [|ds|]; cbn [printAmount app]; [exists x, at_; split; [done|apply Hx]| |by eexists _, _].
  destruct ds as [|d ds]; [by destruct Hw as [[] ]|]. eexists _, _. split; [reflexivity|].
  destruct Hw as [(_ & [Hd _]%Forall_cons_iff & _) Hh]. apply isdigit_range in Hd. unfold isFlag.
  destruct (Z.eqb_spec d 48) as [->|]; [done|]. rewrite !orb_false_iff, !Z.eqb_neq. lia.
Qed.

Lemma readSpec_print uses c rest :
  conversion_ok c -> let uses' := uses ++ conversionUses (Z.of_nat (length uses) + 1) c in
  (length uses' <= 64)%nat ->
  readSpec (walkOf uses (Z.of_nat (length uses) + 1)) (printConversion c ++ rest)
  = Some (Go (walkOf uses' (Z.of_nat (length uses') + 1), cv_letter c :: rest)).
Proof.
  intros Hc uses' Hlen. pose proof Hc as (Hflags & Hwidth & Hprec & Hk & _).
  destruct (letter_plain _ _ Hk) as (Hp & _ & H0 & _).
  set (text := printConversion c ++ rest).
  assert (Etext : text = cv_flags c ++ printAmount (cv_width c) ++ printPrecision (cv_precision c) ++ printSize (cv_size c) ++ cv_letter c :: rest)
    by (subst text; unfold printConversion; by rewrite <- !app_assoc).
  destruct (readNumber_position _ (cv_letter c) rest (conversion_position c Hc)) as (n & x & at_ & En & Hx); [apply Hp..|].
  rewrite <- !app_assoc, <- Etext in En. unfold readSpec. rewrite En. cbn [mbind option_bind head].
  rewrite (proj2 (Z.eqb_neq x 36) Hx), andb_false_r. rewrite Etext.
  destruct (width_starts c rest Hc) as (x1 & at1 & E1 & Hx1). rewrite E1, skipFlags_print by done. rewrite <- E1. cbn [mbind option_bind].
  pose proof (conversionUses_parts (Z.of_nat (length uses) + 1) c) as Hparts.
  subst uses'. set (width := starUse (cv_width c)) in *. set (precision := precisionUses (cv_precision c)) in *.
  destruct (precisionFrom _ _) as [p argument] eqn:Ep. rewrite Hparts in Hlen |- *. rewrite !length_app in Hlen. cbn [length] in Hlen.
  rewrite readWidth_print; [|rewrite length_app; fold width; lia|by destruct (cv_width c); [..|destruct Hwidth|]|by apply precision_starts].
  cbn [mbind option_bind]. fold width.
  rewrite readPrecision_print; [|rewrite !length_app; fold precision; lia|done|].
  2: { destruct (size_starts c rest Hc) as (x2 & at2 & E2 & Hx2 & H46 & _). by exists x2, at2. }
  cbn [mbind option_bind]. fold precision.
  replace (Z.of_nat (length (uses ++ width)) + 1) with (Z.of_nat (length uses) + 1 + Z.of_nat (length width)) by (rewrite length_app; lia).
  rewrite Ep. cbn [fst snd]. rewrite readSize_print by done. cbn [mbind option_bind head]. cbv zeta.
  rewrite decide_False by done. change (0 =? 0) with true. cbv iota. cbn [w_next walkOf w_uses w_count].
  set (used := (uses ++ width) ++ precision). change (mkWalk _ _ _) with (walkOf used (Z.of_nat (length used) + 1 + 1)).
  rewrite use_next by (subst used; rewrite !length_app; lia). rewrite setUse_last. cbn [fu_kind].
  rewrite (proj2 (Z.eqb_neq _ 0) H0). subst used. rewrite <- !app_assoc. do 4 f_equal. rewrite !length_app. cbn [length]. lia.
Qed.

Lemma itemUses_grow items : forall uses, exists more, itemUses uses items = uses ++ more.
Proof.
  induction items as [|[c| |c] items IH]; intros uses; cbn [itemUses]; [by exists []; rewrite app_nil_r|apply IH|apply IH|].
  destruct (IH (uses ++ conversionUses (Z.of_nat (length uses) + 1) c)) as (more & ->). rewrite <- app_assoc. by eexists.
Qed.

Lemma readFormat_print items rest : forall uses fuel,
  Forall item_ok items -> (length (itemUses uses items) <= 64)%nat -> (length (printFormat items) < fuel)%nat ->
  readFormat fuel (walkOf uses (Z.of_nat (length uses) + 1)) (printFormat items ++ 0 :: rest)
  = Some (walkOf (itemUses uses items) (Z.of_nat (length (itemUses uses items)) + 1)).
Proof.
  unfold printFormat. induction items as [|i items IH]; intros uses fuel Hok Hlen Hfuel; (destruct fuel as [|fuel]; [lia|]); [done|].
  apply Forall_cons_iff in Hok as [Hi Hok]. cbn [flat_map itemUses] in *. rewrite length_app in Hfuel. rewrite <- app_assoc.
  destruct i as [c| |c]; cbn [printItem app readFormat head tail mbind option_bind length] in *.
  - rewrite (proj2 (Z.eqb_neq c 0)), (proj2 (Z.eqb_neq c 37)) by apply Hi. cbn [negb]. apply IH; (done || lia).
  - change (37 =? 0) with false. change (37 =? 37) with true. cbn [negb]. apply IH; (done || lia).
  - change (37 =? 0) with false. change (37 =? 37) with true. cbn [negb].
    destruct (itemUses_grow items (uses ++ conversionUses (Z.of_nat (length uses) + 1) c)) as (more & Em).
    assert (Hhead : exists x, head (printConversion c ++ flat_map printItem items ++ 0 :: rest) = Some x /\ x <> 37).
    { unfold printConversion. rewrite <- !app_assoc. pose proof Hi as (Hf & _).
      destruct (cv_flags c) as [|f flags]; cbn [app head].
      - destruct (width_starts c (flat_map printItem items ++ 0 :: rest) Hi) as (x & at_ & E & Hx). cbn [app] in E |- *. rewrite E.
        exists x. split; [done|]. destruct (cv_width c) as [|ds|] eqn:Ew; cbn [printAmount app] in E.
        + destruct (cv_precision c) as [a|]; cbn [printPrecision app] in E; [by injection E as <- <-|].
          destruct (size_starts c (flat_map printItem items ++ 0 :: rest) Hi) as (x1 & at1 & E1 & _ & _ & Hx1). rewrite E1 in E. injection E as -> ->.
          destruct Hx1 as [->|]; [|done]. apply (letter_plain _ (cv_size c)). apply Hi.
        + destruct Hi as (_ & Hw & _). rewrite Ew in Hw. destruct ds as [|d ds]; [by destruct Hw as [[] ]|]. injection E as <- _.
          destruct Hw as [(_ & [Hd _]%Forall_cons_iff & _) _]. by intros ->.
        + by injection E as <- <-.
      - exists f. split; [done|]. apply Forall_cons_iff in Hf as [Hf _]. by intros ->. }
    destruct Hhead as (x & Ex & Hx). rewrite Ex. cbn [mbind option_bind]. rewrite (proj2 (Z.eqb_neq x 37) Hx).
    rewrite readSpec_print; [|done|rewrite Em in Hlen; rewrite length_app in Hlen; lia]. cbn [mbind option_bind tail].
    apply IH; (done || lia).
Qed.

(** C33: the scan reads a format without positions, whose numbers are at most
    100000 and which takes at most 64 arguments, as the list of conversions it
    is written as: the arguments they read in order, a star's before its
    conversion's, each with its kind, its precision and its bytes.  (Larger
    precisions and repeated positions are not read back:
    [large_precision_unchecked], [repeated_argument_unchecked].) *)
Theorem format_read_back items rest :
  Forall item_ok items -> (length (itemUses [] items) <= 64)%nat ->
  exists w, formatUses (printFormat items ++ 0 :: rest) = Some w
    /\ take (Z.to_nat (w_count w)) (w_uses w) = itemUses [] items.
Proof.
  intros Hok Hlen. exists (walkOf (itemUses [] items) (Z.of_nat (length (itemUses [] items)) + 1)). split.
  - apply (readFormat_print items rest [] _ Hok Hlen). rewrite length_app. cbn. lia.
  - cbn [walkOf w_count w_uses]. rewrite Nat2Z.id. apply take_app_length.
Qed.
