(* ===== verification/LibTerm.v ===== *)
(** * Terms of the C library table

    [lib/Core/LibrarySpec.cpp], lines 26 to 430 ([struct LibTerm] of
    [include/weavec/Core/LibrarySpec.h]): the terms over a call's arguments,
    their spelling ([str]), their evaluation in 64-bit arithmetic
    ([evaluate]) and the recursive-descent reader ([TermReader]).

    The reader's position is the part of the text it has not read ([rest]);
    [message] is its first failure.  Its loops and recursion are bounded by a
    fuel: [readFuel] of the text's length is enough ([read_fuel]). *)

From Stdlib Require Import String Ascii.
From S2P Require Import Prelude.
Local Open Scope Z_scope.

(** ** Terms *)

Inductive LibTerm :=
  | Constant (value : Z)
  | Argument (arg : Z)
  | StringLength (arg : Z)
  | Product (left right : LibTerm)
  | Sum (left right : LibTerm)
  | Difference (left : LibTerm) (value : Z)
  | Min (left right : LibTerm)
  | Quotient (left : LibTerm) (value : Z).

#[export] Instance LibTerm_eq_dec : EqDecision LibTerm.
Proof. solve_decision. Defined.

Definition isAdditive (term : LibTerm) : bool :=
  match term with
  | Sum _ _ | Difference _ _ => true
  | _ => false
  end.

Definition isProduct (term : LibTerm) : bool :=
  match term with Product _ _ => true | _ => false end.

(** [std::to_string] of an integer of up to 20 digits. *)
Definition digit (d : Z) : ascii := ascii_of_nat (48 + Z.to_nat d).

Fixpoint dec (fuel : nat) (n : Z) (acc : string) : string :=
  match fuel with
  | O => acc
  | S fuel' =>
    let acc := String (digit (n mod 10)) acc in
    if n / 10 =? 0 then acc else dec fuel' (n / 10) acc
  end.

Definition to_string (n : Z) : string :=
  if n <? 0 then String "-" (dec 20 (- n) EmptyString) else dec 20 n EmptyString.

Definition parenthesised (text : string) (needed : bool) : string :=
  if needed then "(" ++ text ++ ")" else text.

Fixpoint str (term : LibTerm) : string :=
  match term with
  | Constant value => to_string value
  | Argument arg => "a" ++ to_string arg
  | StringLength arg => "strlen(a" ++ to_string arg ++ ")"
  | Product l r =>
    parenthesised (str l) (isAdditive l) ++ "*"
    ++ parenthesised (str r) (isAdditive r || isProduct r)
  | Sum l r => str l ++ "+" ++ parenthesised (str r) (isAdditive r)
  | Difference l value => str l ++ "-" ++ to_string value
  | Min l r => "min(" ++ str l ++ "," ++ str r ++ ")"
  | Quotient l value => parenthesised (str l) (isAdditive l) ++ "/" ++ to_string value
  end.

(** ** Evaluation *)

Definition int64_max : Z := 2 ^ 63 - 1.
Definition int64_min : Z := - 2 ^ 63.

(** [LibTerm::Values]: an empty function makes its leaves unknown. *)
Record Values := mkValues {
  v_argument : option (Z -> option Z);
  v_stringLength : option (Z -> option Z)
}.

Definition ask (function : option (Z -> option Z)) (index : Z) : option Z :=
  match function with Some f => f index | None => None end.

Definition checkedAdd (left right : Z) : option Z :=
  if ((0 <? right) && (int64_max - right <? left))
     || ((right <? 0) && (left <? int64_min - right))
  then None else Some (left + right).

(** A 64-bit signed result, wrapped as the target's arithmetic does; C++ leaves
    such an overflow undefined. *)
Definition swrap64 (z : Z) : Z := (z + 2 ^ 63) mod 2 ^ 64 - 2 ^ 63.

(** C++ division truncates. *)
Definition checkedMultiply (left right : Z) : option Z :=
  if (left =? 0) || (right =? 0) then Some 0
  else
    let overflows :=
      if 0 <? left then
        if 0 <? right then Z.quot int64_max right <? left else right <? Z.quot int64_min left
      else
        if 0 <? right then left <? Z.quot int64_min right else left <? Z.quot int64_max right in
    if overflows then None else Some (left * right).

Fixpoint evaluate (values : Values) (term : LibTerm) : option Z :=
  match term with
  | Constant value => Some value
  | Argument arg => ask (v_argument values) arg
  | StringLength arg => ask (v_stringLength values) arg
  | Difference l value =>
    match evaluate values l with
    | Some x => if value =? int64_min then None else checkedAdd x (- value)
    | None => None
    end
  | Quotient l value =>
    match evaluate values l with
    | Some x =>
      if value <=? 0 then None
      else Some (if 0 <=? x then Z.quot x value
                 else swrap64 (- Z.quot (swrap64 (swrap64 (swrap64 (- x) + value) - 1)) value))
    | None => None
    end
  | Product l r =>
    match evaluate values l, evaluate values r with
    | Some x, Some y => checkedMultiply x y
    | _, _ => None
    end
  | Sum l r =>
    match evaluate values l, evaluate values r with
    | Some x, Some y => checkedAdd x y
    | _, _ => None
    end
  | Min l r =>
    match evaluate values l, evaluate values r with
    | Some x, Some y => Some (Z.min x y)
    | _, _ => None
    end
  end.

(** ** Characters and tokens *)

Definition code (c : ascii) : Z := Z.of_nat (nat_of_ascii c).

Definition between (lo hi c : ascii) : bool := (code lo <=? code c) && (code c <=? code hi).

Definition isDigit (c : ascii) : bool := between "0" "9" c.
Definition isIdentifierStart (c : ascii) : bool :=
  between "A" "Z" c || between "a" "z" c || Ascii.eqb c "_".
Definition isIdentifierChar (c : ascii) : bool := isIdentifierStart c || isDigit c.

Fixpoint all_chars (p : ascii -> bool) (text : string) : bool :=
  match text with
  | EmptyString => true
  | String c text' => p c && all_chars p text'
  end.

Definition isIdentifier (text : string) : bool :=
  match text with
  | EmptyString => false
  | String c _ => isIdentifierStart c && all_chars isIdentifierChar text
  end.

(** [text] after [token], when it starts with it. *)
Fixpoint strip (token text : string) : option string :=
  match token, text with
  | EmptyString, _ => Some text
  | String c token', String d text' => if Ascii.eqb c d then strip token' text' else None
  | String _ _, EmptyString => None
  end.

Fixpoint skipSpaces (text : string) : string :=
  match text with
  | String c text' => if Ascii.eqb c " " then skipSpaces text' else text
  | EmptyString => EmptyString
  end.

(** ** The reader *)

Record reader := mkReader { rest : string; message : string }.

(** A reading: its answer, [None] for [std::nullopt], and where it leaves the
    reader. *)
Definition R (A : Type) : Type := reader -> option A * reader.

#[export] Instance R_ret : MRet R := fun A a st => (Some a, st).
#[export] Instance R_bind : MBind R := fun A B f c st =>
  match c st with
  | (Some a, st') => f a st'
  | (None, st') => (None, st')
  end.

(** A reading whose failure is looked at. *)
Definition attempt {A} (c : R A) : R (option A) := fun st => let '(a, st') := c st in (Some a, st').

Definition skipSpace : R unit := fun st => (Some tt, mkReader (skipSpaces (rest st)) (message st)).

Definition peek : R string := fun st => (Some (rest st), st).

Definition accept (token : string) : R bool := fun st =>
  let text := skipSpaces (rest st) in
  match strip token text with
  | Some text' => (Some true, mkReader text' (message st))
  | None => (Some false, mkReader text (message st))
  end.

Definition nothing {A} : R A := fun st => (None, st).

Definition fail {A} (why : string) : R A := fun st =>
  (None, mkReader (rest st) (if String.eqb (message st) "" then why else message st)).

(** The digits of [number], from [value]; [None] when the value leaves the
    range, the digit read. *)
Fixpoint numberFrom (value : Z) (text : string) : option Z * string :=
  match text with
  | String c text' =>
    if isDigit c then
      let d := code c - 48 in
      if Z.quot (int64_max - d) 10 <? value then (None, text')
      else numberFrom (value * 10 + d) text'
    else (Some value, text)
  | EmptyString => (Some value, text)
  end.

Definition starts_digit (text : string) : bool :=
  match text with String c _ => isDigit c | EmptyString => false end.

Definition number : R Z := fun st =>
  let text := skipSpaces (rest st) in
  if starts_digit text then
    let '(value, text') := numberFrom 0 text in (value, mkReader text' (message st))
  else (None, mkReader text (message st)).

Definition argumentIndex : R Z :=
  ok ← accept "a";
  if negb ok then nothing
  else
    index ← number;
    if 255 <? index then nothing else mret index.

(** What [sum], [product] and [atom] are, given the reader at less fuel. *)
Fixpoint sum (fuel : nat) : R LibTerm :=
  match fuel with
  | O => nothing
  | S n => l ← product n; sumLoop n l
  end
with sumLoop (fuel : nat) (l : LibTerm) : R LibTerm :=
  match fuel with
  | O => nothing
  | S n =>
    plus ← accept "+";
    if (plus : bool) then r ← product n; sumLoop n (Sum l r)
    else
      minus ← accept "-";
      if (minus : bool) then
        r ← attempt number;
        match r with
        | Some r => sumLoop n (Difference l r)
        | None => fail "expected an integer after '-' in a term"
        end
      else mret l
  end
with product (fuel : nat) : R LibTerm :=
  match fuel with
  | O => nothing
  | S n => l ← atom n; productLoop n l
  end
with productLoop (fuel : nat) (l : LibTerm) : R LibTerm :=
  match fuel with
  | O => nothing
  | S n =>
    times ← accept "*";
    if (times : bool) then r ← atom n; productLoop n (Product l r)
    else
      over ← accept "/";
      if (over : bool) then
        r ← attempt number;
        match r with
        | Some r =>
          if r <=? 0 then fail "expected a positive integer after '/' in a term"
          else productLoop n (Quotient l r)
        | None => fail "expected a positive integer after '/' in a term"
        end
      else mret l
  end
with atom (fuel : nat) : R LibTerm :=
  match fuel with
  | O => nothing
  | S n =>
    skipSpace;;
    text ← peek;
    if String.eqb text "" then fail "expected a term"
    else if starts_digit text then
      value ← attempt number;
      match value with
      | Some value => mret (Constant value)
      | None => fail "integer out of range in a term"
      end
    else
      open ← accept "(";
      if (open : bool) then
        inner ← sum n;
        close ← accept ")";
        if (close : bool) then mret inner else fail "expected ')' in a term"
      else
        len ← accept "strlen(";
        if (len : bool) then
          index ← attempt argumentIndex;
          match index with
          | Some index =>
            close ← accept ")";
            if (close : bool) then mret (StringLength index) else fail "expected 'strlen(aN)'"
          | None => fail "expected 'strlen(aN)'"
          end
        else
          least ← accept "min(";
          if (least : bool) then
            l ← sum n;
            comma ← accept ",";
            if negb comma then fail "expected ',' in 'min(…)'"
            else
              r ← sum n;
              close ← accept ")";
              if (close : bool) then mret (Min l r) else fail "expected ')' after 'min(…'"
          else
            text ← peek;
            match text with
            | String "a" text' =>
              if starts_digit text' then
                index ← attempt argumentIndex;
                match index with
                | Some index => mret (Argument index)
                | None => fail "argument index out of range in a term"
                end
              else fail "expected a term"
            | _ => fail "expected a term"
            end
  end.

(** Enough fuel to read a text: each of the reader's five functions reads a
    character before it is called again. *)
Definition readFuel (text : string) : nat := 4 * String.length text + 4.

Definition read : R LibTerm := fun st => sum (readFuel (rest st)) st.

(** [LibTerm::parse]: the term, or the error. *)
Definition parse (text : string) : LibTerm + string :=
  let '(term, st) := read (mkReader text "") in
  let after := skipSpaces (rest st) in
  match term with
  | Some term =>
    if String.eqb after "" then inl term
    else inr ("unexpected '" ++ after ++ "' after a term")%string
  | None => inr (if String.eqb (message st) "" then "expected a term"%string else message st)
  end.

(** ** Well-formed terms *)

Definition int64 (z : Z) : Prop := int64_min <= z <= int64_max.

(** The terms a text can hold: [INT] is not negative, [N] is at most 255, a
    divisor is positive. *)
Fixpoint term_wf (term : LibTerm) : Prop :=
  match term with
  | Constant value => 0 <= value <= int64_max
  | Argument arg | StringLength arg => 0 <= arg <= 255
  | Product l r | Sum l r | Min l r => term_wf l /\ term_wf r
  | Difference l value => term_wf l /\ 0 <= value <= int64_max
  | Quotient l value => term_wf l /\ 0 < value <= int64_max
  end.

(** ** Evaluation is exact *)

Section Evaluation.
Context (values : Values).

(** The known leaves are 64-bit. *)
Definition leaves_ok : Prop :=
  (forall i x, ask (v_argument values) i = Some x -> int64 x)
  /\ (forall i x, ask (v_stringLength values) i = Some x -> int64 x).

(** The mathematical value of a term whose parts all stay in the 64-bit
    range; a quotient is rounded down. *)
Inductive denotes : LibTerm -> Z -> Prop :=
  | d_constant c : denotes (Constant c) c
  | d_argument i x : ask (v_argument values) i = Some x -> denotes (Argument i) x
  | d_length i x : ask (v_stringLength values) i = Some x -> denotes (StringLength i) x
  | d_product l r x y :
    denotes l x -> denotes r y -> int64 (x * y) -> denotes (Product l r) (x * y)
  | d_sum l r x y : denotes l x -> denotes r y -> int64 (x + y) -> denotes (Sum l r) (x + y)
  | d_difference l c x : denotes l x -> int64 (x - c) -> denotes (Difference l c) (x - c)
  | d_min l r x y : denotes l x -> denotes r y -> denotes (Min l r) (Z.min x y)
  | d_quotient l c x : denotes l x -> denotes (Quotient l c) (x / c).

(** No quotient's rounding leaves the 64-bit range on the way. *)
Fixpoint rounds_in_range (term : LibTerm) : Prop :=
  match term with
  | Constant _ | Argument _ | StringLength _ => True
  | Product l r | Sum l r | Min l r => rounds_in_range l /\ rounds_in_range r
  | Difference l _ => rounds_in_range l
  | Quotient l c =>
    rounds_in_range l /\ forall x, denotes l x -> 0 <= x \/ - x + c <= int64_max
  end.

Lemma swrap64_small z : int64 z -> swrap64 z = z.
Proof. unfold int64, int64_min, int64_max, swrap64. intros H. rewrite Z.mod_small; lia. Qed.

Lemma checkedAdd_exact x y z : int64 x -> int64 y -> checkedAdd x y = Some z <-> z = x + y /\ int64 z.
Proof.
  unfold int64, checkedAdd, int64_min, int64_max. intros Hx Hy.
  destruct (Z.ltb_spec 0 y), (Z.ltb_spec (2 ^ 63 - 1 - y) x), (Z.ltb_spec y 0),
    (Z.ltb_spec x (- 2 ^ 63 - y)); cbn [andb orb];
    (split; [intros [= <-]; lia | intros [-> ?]; (done || lia)]).
Qed.

Lemma le_quot a b x : 0 < b -> 0 <= a -> x <= Z.quot a b <-> x * b <= a.
Proof.
  intros Hb Ha. rewrite Z.quot_div_nonneg by lia. split; intros H.
  - transitivity (a / b * b); [nia|]. pose proof (Z.mul_div_le a b Hb). lia.
  - apply Z.div_le_lower_bound; lia.
Qed.

Lemma checkedMultiply_exact x y z :
  int64 x -> int64 y -> checkedMultiply x y = Some z <-> z = x * y /\ int64 z.
Proof.
  unfold int64, checkedMultiply. intros Hx Hy.
  destruct (Z.eqb_spec x 0) as [->|Hx0]; cbn [orb].
  { unfold int64_min, int64_max. split; [intros [= <-]; lia|]. intros [-> _]. done. }
  destruct (Z.eqb_spec y 0) as [->|Hy0].
  { rewrite Z.mul_0_r. unfold int64_min, int64_max. split; [intros [= <-]; lia|]. intros [-> _]. done. }
  set (o := if 0 <? x then _ else _).
  assert (Ho : o = false <-> int64_min <= x * y <= int64_max).
  { subst o. unfold int64_min, int64_max in *.
    destruct (Z.ltb_spec 0 x), (Z.ltb_spec 0 y); rewrite Z.ltb_ge.
    - rewrite le_quot by lia. lia.
    - rewrite Z.quot_opp_l by lia. rewrite Z.opp_le_mono, Z.opp_involutive, le_quot by lia. lia.
    - rewrite Z.quot_opp_l by lia. rewrite Z.opp_le_mono, Z.opp_involutive, le_quot by lia. lia.
    - rewrite <- (Z.opp_involutive y) at 1. rewrite Z.quot_opp_r by lia.
      rewrite Z.opp_le_mono, Z.opp_involutive, le_quot by lia. lia. }
  destruct o.
  - split; [done|]. intros [-> Hr]. apply Ho in Hr. done.
  - destruct Ho as [Ho _]. specialize (Ho eq_refl).
    split; [intros [= <-]; done|]. intros [-> _]. done.
Qed.

Lemma div_int64 x c : int64 x -> 0 < c -> int64 (x / c).
Proof.
  unfold int64, int64_min, int64_max. intros Hx Hc. split.
  - apply Z.div_le_lower_bound; nia.
  - apply Z.div_le_upper_bound; nia.
Qed.

Lemma div_up x c : 0 < c -> - ((- x + c - 1) / c) = x / c.
Proof.
  intros Hc. pose proof (Z.mod_pos_bound x c Hc). pose proof (Z.div_mod x c ltac:(lia)).
  rewrite <- (Z.div_unique (- x + c - 1) c (- (x / c)) (c - 1 - x mod c)); lia.
Qed.

Lemma denotes_int64 t x : leaves_ok -> term_wf t -> denotes t x -> int64 x.
Proof.
  intros [Ha Hl] Hwf Hd. induction Hd; cbn in Hwf; eauto.
  - unfold int64, int64_min in *. lia.
  - destruct Hwf. specialize (IHHd1 ltac:(done)). specialize (IHHd2 ltac:(done)).
    unfold int64 in *. lia.
  - destruct Hwf as [Hwf Hc]. apply div_int64; [by apply IHHd|lia].
Qed.

Lemma denotes_fun t x y : denotes t x -> denotes t y -> x = y.
Proof.
  intros Hx. revert y. induction Hx; intros z Hz; inversion Hz; subst; try congruence;
    repeat match goal with
    | IH : forall y, denotes ?t y -> _ = y, H : denotes ?t _ |- _ => apply IH in H; subst
    end; done.
Qed.

Lemma quotient_exact x c :
  int64 x -> 0 < c <= int64_max -> 0 <= x \/ - x + c <= int64_max ->
  (if 0 <=? x then Z.quot x c
   else swrap64 (- Z.quot (swrap64 (swrap64 (swrap64 (- x) + c) - 1)) c)) = x / c.
Proof.
  unfold int64, int64_min, int64_max. intros Hx Hc Hr. destruct (Z.leb_spec 0 x).
  - by rewrite Z.quot_div_nonneg by lia.
  - destruct (Z.eq_dec x (- 2 ^ 63)) as [->|]; [lia|].
    rewrite (swrap64_small (- x)), (swrap64_small (- x + c)), (swrap64_small (- x + c - 1))
      by (unfold int64, int64_min, int64_max; lia).
    rewrite Z.quot_div_nonneg by lia.
    rewrite div_up by lia. apply swrap64_small, div_int64; [|lia].
    unfold int64, int64_min, int64_max. lia.
Qed.

Lemma evaluate_denotes t x :
  leaves_ok -> term_wf t -> rounds_in_range t -> evaluate values t = Some x <-> denotes t x.
Proof.
  intros Hl. revert x.
  assert (Hb : forall l r x y, term_wf l -> term_wf r -> denotes l x -> denotes r y -> int64 x /\ int64 y)
    by (intros l r x y H1 H2 H3 H4; split; [exact (denotes_int64 l x Hl H1 H3)|exact (denotes_int64 r y Hl H2 H4)]).
  induction t as [c|i|i|l IHl r IHr|l IHl r IHr|l IHl c|l IHl r IHr|l IHl c];
    intros z Hwf Hr; cbn [term_wf rounds_in_range evaluate] in *;
    try (destruct Hwf as [Hw1 Hw2]; destruct Hr as [Hr1 Hr2];
         specialize (fun x => IHl x Hw1 Hr1); specialize (fun x => IHr x Hw2 Hr2)).
  - split; [intros [= ->]; constructor|]. by inversion 1.
  - split; [by constructor|]. by inversion 1.
  - split; [by constructor|]. by inversion 1.
  - split.
    + destruct (evaluate values l) as [x|], (evaluate values r) as [y|]; try done.
      specialize (proj1 (IHl x) eq_refl). specialize (proj1 (IHr y) eq_refl). intros Hy Hx.
      destruct (Hb l r x y Hw1 Hw2 Hx Hy). rewrite checkedMultiply_exact by done.
      intros [-> ?]. by constructor.
    + inversion 1 as [| | |? ? x y Hx Hy| | | |]; subst. destruct (Hb l r x y Hw1 Hw2 Hx Hy).
      rewrite (proj2 (IHl x) Hx), (proj2 (IHr y) Hy). by apply checkedMultiply_exact.
  - split.
    + destruct (evaluate values l) as [x|], (evaluate values r) as [y|]; try done.
      specialize (proj1 (IHl x) eq_refl). specialize (proj1 (IHr y) eq_refl). intros Hy Hx.
      destruct (Hb l r x y Hw1 Hw2 Hx Hy). rewrite checkedAdd_exact by done.
      intros [-> ?]. by constructor.
    + inversion 1 as [| | | |? ? x y Hx Hy| | |]; subst. destruct (Hb l r x y Hw1 Hw2 Hx Hy).
      rewrite (proj2 (IHl x) Hx), (proj2 (IHr y) Hy). by apply checkedAdd_exact.
  - destruct Hwf as [Hw Hc]. specialize (fun x => IHl x Hw Hr). unfold int64_max in Hc.
    rewrite (proj2 (Z.eqb_neq c int64_min)) by (unfold int64_min; lia).
    assert (Hc' : int64 (- c)) by (unfold int64, int64_min, int64_max; lia).
    split.
    + destruct (evaluate values l) as [x|]; [|done]. specialize (proj1 (IHl x) eq_refl). intros Hx.
      rewrite checkedAdd_exact by (exact Hc' || exact (denotes_int64 l x Hl Hw Hx)).
      rewrite Z.add_opp_r. intros [-> ?]. by constructor.
    + inversion 1 as [| | | | |? ? x Hx| |]; subst. rewrite (proj2 (IHl x) Hx).
      apply checkedAdd_exact; [exact (denotes_int64 l x Hl Hw Hx)|done|]. by rewrite Z.add_opp_r.
  - split.
    + destruct (evaluate values l) as [x|], (evaluate values r) as [y|]; try done.
      specialize (proj1 (IHl x) eq_refl). specialize (proj1 (IHr y) eq_refl). intros Hy Hx.
      intros [= <-]. by constructor.
    + inversion 1 as [| | | | | |? ? x y Hx Hy|]; subst.
      by rewrite (proj2 (IHl x) Hx), (proj2 (IHr y) Hy).
  - destruct Hwf as [Hw Hc], Hr as [Hr Hq]. specialize (fun x => IHl x Hw Hr).
    rewrite (proj2 (Z.leb_gt c 0)) by lia. split.
    + destruct (evaluate values l) as [x|]; [|done]. specialize (proj1 (IHl x) eq_refl). intros Hx.
      rewrite quotient_exact by (lia || exact (denotes_int64 l x Hl Hw Hx) || auto).
      intros [= <-]. by constructor.
    + inversion 1 as [| | | | | | |? ? x Hx]; subst. rewrite (proj2 (IHl x) Hx). f_equal.
      apply quotient_exact; [exact (denotes_int64 l x Hl Hw Hx)|lia|by apply Hq].
Qed.

(** Evaluation answers a term's mathematical value exactly when every part
    of it stays in the 64-bit range (a quotient rounded down), and nothing
    else; the roundings of negative quotients must not leave the range. *)
Theorem evaluate_exact t x :
  leaves_ok -> term_wf t -> rounds_in_range t -> evaluate values t = Some x <-> denotes t x.
Proof. apply evaluate_denotes. Qed.
End Evaluation.

(** The rounding of a negative quotient may overflow although its value is
    in range: the term [(0-9223372036854775807)/2], which the reader accepts,
    denotes -2^62 and evaluates to 2^62 on a two's complement target. *)
Theorem quotient_overflow :
  exists t, parse "(0-9223372036854775807)/2" = inl t
  /\ term_wf t /\ denotes (mkValues None None) t (- 2 ^ 62)
  /\ evaluate (mkValues None None) t = Some (2 ^ 62).
Proof.
  exists (Quotient (Difference (Constant 0) 9223372036854775807) 2).
  split; [vm_compute; reflexivity|].
  split; [cbn; unfold int64_max; lia|]. split; [|vm_compute; reflexivity].
  change (- 2 ^ 62) with ((0 - 9223372036854775807) / 2).
  repeat constructor; unfold int64_min, int64_max; lia.
Qed.

(** ** The reader reads forward, and its fuel is enough *)

Section Fuel.
Definition unread (st : reader) : nat := String.length (rest st).

(** A reading never goes back, and reads at least [k] characters to answer. *)
Definition shrinks {A} (k : nat) (c : R A) : Prop :=
  forall st, match c st with
    | (Some _, st') => (unread st' + k <= unread st)%nat
    | (None, st') => (unread st' <= unread st)%nat
    end.

Lemma shrinks_weaken {A} k j (c : R A) : shrinks k c -> (j <= k)%nat -> shrinks j c.
Proof. intros Hc Hj st. specialize (Hc st). destruct (c st) as [[a|] st']; lia. Qed.

Lemma shrinks_bind {A B} k j (c : R A) (f : A -> R B) :
  shrinks k c -> (forall a, shrinks (j - k) (f a)) -> shrinks j (c ≫= f).
Proof.
  intros Hc Hf st. specialize (Hc st). unfold mbind, R_bind.
  destruct (c st) as [[a|] st']; [|done].
  specialize (Hf a st'). destruct (f a st') as [[b|] st'']; lia.
Qed.

Lemma skipSpaces_length text : (String.length (skipSpaces text) <= String.length text)%nat.
Proof. induction text as [|c text IH]; cbn; [lia|]. destruct (Ascii.eqb c " "); cbn; lia. Qed.

Lemma strip_length token text text' :
  strip token text = Some text' ->
  String.length text = (String.length token + String.length text')%nat.
Proof.
  revert text. induction token as [|c token IH]; intros text Hs; cbn in Hs; [by simplify_eq|].
  destruct text as [|d text]; [done|]. destruct (Ascii.eqb c d); [|done].
  apply IH in Hs. cbn. lia.
Qed.

(** The two answers of [accept]. *)
Lemma accept_cases token st :
  (exists text, accept token st = (Some true, mkReader text (message st))
      /\ (String.length text + String.length token <= unread st)%nat)
  \/ accept token st = (Some false, mkReader (skipSpaces (rest st)) (message st)).
Proof.
  unfold accept, unread. pose proof (skipSpaces_length (rest st)).
  destruct (strip token (skipSpaces (rest st))) as [text'|] eqn:E; [left|by right].
  exists text'. split; [done|]. apply strip_length in E. lia.
Qed.

Lemma shrinks_accept {B} j token (f : bool -> R B) :
  shrinks (j - String.length token) (f true) -> shrinks j (f false) -> shrinks j (accept token ≫= f).
Proof.
  intros Ht Hf st. unfold mbind, R_bind.
  destruct (accept_cases token st) as [(text & -> & Hl)| ->].
  - specialize (Ht (mkReader text (message st))). cbn [unread rest] in Ht.
    destruct (f true _) as [[b|] st']; cbn in Ht; lia.
  - specialize (Hf (mkReader (skipSpaces (rest st)) (message st))).
    pose proof (skipSpaces_length (rest st)). unfold unread in *. cbn [rest] in Hf.
    destruct (f false _) as [[b|] st']; lia.
Qed.

Lemma numberFrom_length value text :
  (String.length (snd (numberFrom value text)) <= String.length text)%nat.
Proof.
  revert value. induction text as [|c text IH]; intros value; cbn; [lia|].
  destruct (isDigit c); [|cbn; lia]. case_match; cbn; [lia|].
  etransitivity; [apply IH|]. lia.
Qed.

Lemma shrinks_number : shrinks 1 number.
Proof.
  intros st. unfold number, unread. pose proof (skipSpaces_length (rest st)) as Hs.
  destruct (starts_digit (skipSpaces (rest st))) eqn:E; [|cbn; lia].
  destruct (skipSpaces (rest st)) as [|c text]; [done|]. cbn in E. cbn [numberFrom]. rewrite E.
  cbn in Hs. destruct (_ <? 0); cbn; [lia|].
  pose proof (numberFrom_length (0 * 10 + (code c - 48)) text) as Hn.
  destruct (numberFrom _ text) as [[v|] text']; cbn in *; lia.
Qed.

Lemma shrinks_attempt {A B} k j (c : R A) (f : option A -> R B) :
  shrinks k c -> (forall a, shrinks (j - k) (f (Some a))) -> shrinks j (f None) ->
  shrinks j (attempt c ≫= f).
Proof.
  intros Hc Hs Hn st. specialize (Hc st). unfold mbind, R_bind, attempt.
  destruct (c st) as [[a|] st'].
  - specialize (Hs a st'). destruct (f (Some a) st') as [[b|] st'']; lia.
  - specialize (Hn st'). destruct (f None st') as [[b|] st'']; lia.
Qed.

Lemma shrinks_fail {A} k why : shrinks k (fail (A:=A) why).
Proof. intros st. cbn. done. Qed.
Lemma shrinks_nothing {A} k : shrinks k (nothing (A:=A)).
Proof. intros st. cbn. done. Qed.
Lemma shrinks_ret {A} (a : A) : shrinks 0 (mret a : R A).
Proof. intros st. cbn. lia. Qed.
Lemma shrinks_skipSpace : shrinks 0 skipSpace.
Proof. intros st. cbn. unfold unread. cbn. pose proof (skipSpaces_length (rest st)). lia. Qed.
Lemma shrinks_peek : shrinks 0 peek.
Proof. intros st. cbn. lia. Qed.

Lemma shrinks_argumentIndex : shrinks 1 argumentIndex.
Proof.
  apply shrinks_accept; cbn; [|apply shrinks_nothing].
  eapply shrinks_weaken; [apply (shrinks_bind 1 1); [apply shrinks_number|]|lia].
  intros a. case_match; [apply shrinks_nothing|apply shrinks_ret].
Qed.
End Fuel.

(** Reads forward by the parts of the reading. *)
Ltac shrink :=
  repeat first
    [ apply shrinks_fail | apply shrinks_nothing
    | eapply shrinks_weaken; [apply shrinks_ret|cbn; lia]
    | eapply shrinks_weaken; [apply shrinks_number|cbn; lia]
    | apply shrinks_accept; cbn [String.length Nat.sub]
    | eapply (shrinks_attempt 1); [apply shrinks_number|intros ?|]; cbn [Nat.sub]
    | eapply (shrinks_attempt 1); [apply shrinks_argumentIndex|intros ?|]; cbn [Nat.sub]
    | eapply shrinks_bind; [apply shrinks_skipSpace|intros _; cbn [Nat.sub]]
    | eapply shrinks_bind; [apply shrinks_peek|intros ?; cbn [Nat.sub]]
    | eapply shrinks_bind; [solve [eauto]|intros ?; cbn [Nat.sub]]
    | case_match ].

Lemma reads_forward n :
  shrinks 1 (sum n) /\ (forall l, shrinks 0 (sumLoop n l))
  /\ shrinks 1 (product n) /\ (forall l, shrinks 0 (productLoop n l)) /\ shrinks 1 (atom n).
Proof.
  induction n as [|n (Hs & Hsl & Hp & Hpl & Ha)].
  { split_and!; intros; apply shrinks_nothing. }
  split_and!; intros; cbn [sum sumLoop product productLoop atom]; shrink; eauto using shrinks_weaken.
Qed.

Lemma sum_forward n : shrinks 1 (sum n).
Proof. apply reads_forward. Qed.
Lemma sumLoop_forward n l : shrinks 0 (sumLoop n l).
Proof. apply reads_forward. Qed.
Lemma product_forward n : shrinks 1 (product n).
Proof. apply reads_forward. Qed.
Lemma productLoop_forward n l : shrinks 0 (productLoop n l).
Proof. apply reads_forward. Qed.
Lemma atom_forward n : shrinks 1 (atom n).
Proof. apply reads_forward. Qed.

(** Two readings that agree on texts of at most [N] characters. *)
Definition agree {A} (N : nat) (c c' : R A) : Prop :=
  forall st, (unread st <= N)%nat -> c st = c' st.

Lemma agree_refl {A} N (c : R A) : agree N c c.
Proof. done. Qed.

Lemma agree_bind {A B} k N (c c' : R A) (f f' : A -> R B) :
  shrinks k c -> agree N c c' -> (forall a, (k <= N)%nat -> agree (N - k) (f a) (f' a)) ->
  agree N (c ≫= f) (c' ≫= f').
Proof.
  intros Hk Hc Hf st Hst. unfold mbind, R_bind. rewrite <- (Hc st Hst). specialize (Hk st).
  destruct (c st) as [[a|] st']; [|done]. apply Hf; lia.
Qed.

Lemma agree_attempt {A B} k N (c : R A) (f f' : option A -> R B) :
  shrinks k c -> (forall a, (k <= N)%nat -> agree (N - k) (f (Some a)) (f' (Some a))) ->
  agree N (f None) (f' None) -> agree N (attempt c ≫= f) (attempt c ≫= f').
Proof.
  intros Hk Hs Hn st Hst. unfold mbind, R_bind, attempt. specialize (Hk st).
  destruct (c st) as [[a|] st']; [apply Hs|apply Hn]; lia.
Qed.

Lemma agree_accept {B} N token (f f' : bool -> R B) :
  ((String.length token <= N)%nat -> agree (N - String.length token) (f true) (f' true)) ->
  agree N (f false) (f' false) -> agree N (accept token ≫= f) (accept token ≫= f').
Proof.
  intros Ht Hf st Hst. unfold mbind, R_bind.
  destruct (accept_cases token st) as [(text & -> & Hl)| ->].
  - apply Ht; [lia|]. cbn. lia.
  - apply Hf. pose proof (skipSpaces_length (rest st)). unfold unread in *. cbn. lia.
Qed.

Ltac agrees :=
  repeat first
    [ apply agree_refl
    | apply agree_accept; [intros ?; cbn [String.length] in *|]
    | eapply agree_attempt; [apply shrinks_number|intros ? ?|]
    | eapply agree_attempt; [apply shrinks_argumentIndex|intros ? ?|]
    | eapply agree_bind; [apply shrinks_skipSpace|apply agree_refl|intros _ ?]
    | eapply agree_bind; [apply shrinks_peek|apply agree_refl|intros ? ?]
    | eapply agree_bind; [apply sum_forward| |intros ? ?]
    | eapply agree_bind; [apply product_forward| |intros ? ?]
    | eapply agree_bind; [apply atom_forward| |intros ? ?]
    | case_match ].

Lemma fuel_agrees n :
  (forall m N, (4 * N + 4 <= n)%nat -> (4 * N + 4 <= m)%nat -> agree N (sum n) (sum m))
  /\ (forall m N l, (4 * N + 1 <= n)%nat -> (4 * N + 1 <= m)%nat -> agree N (sumLoop n l) (sumLoop m l))
  /\ (forall m N, (4 * N + 3 <= n)%nat -> (4 * N + 3 <= m)%nat -> agree N (product n) (product m))
  /\ (forall m N l, (4 * N + 1 <= n)%nat -> (4 * N + 1 <= m)%nat ->
        agree N (productLoop n l) (productLoop m l))
  /\ (forall m N, (4 * N + 2 <= n)%nat -> (4 * N + 2 <= m)%nat -> agree N (atom n) (atom m)).
Proof.
  induction n as [|n (Hs & Hsl & Hp & Hpl & Ha)]; [split_and!; intros; lia|].
  split_and!; intros; (destruct m as [|m]; [lia|]);
    cbn [sum sumLoop product productLoop atom]; agrees;
    first [apply Hs | apply Hsl | apply Hp | apply Hpl | apply Ha]; lia.
Qed.

(** The reader always ends, and by its own count: with the fuel of the
    text's length or any more, [sum] answers the same term, failure and
    position. *)
Theorem read_fuel text msg n :
  (readFuel text <= n)%nat -> sum n (mkReader text msg) = read (mkReader text msg).
Proof.
  intros Hn. unfold read, readFuel in *. cbn [rest].
  apply (proj1 (fuel_agrees n) _ (String.length text)); [lia|cbn; lia|done].
Qed.

(** ** What is printed is read back *)

(** The five functions with enough fuel for the text they read. *)
Definition enough (st : reader) : nat := readFuel (rest st).
Definition sum0 : R LibTerm := fun st => sum (enough st) st.
Definition sumLoop0 (l : LibTerm) : R LibTerm := fun st => sumLoop (enough st) l st.
Definition product0 : R LibTerm := fun st => product (enough st) st.
Definition productLoop0 (l : LibTerm) : R LibTerm := fun st => productLoop (enough st) l st.
Definition atom0 : R LibTerm := fun st => atom (enough st) st.

Lemma agree_at {A} (c : R A) (c' : nat -> R A) N :
  (forall m, (4 * N + 4 <= m)%nat -> agree N c (c' m)) ->
  (forall st m, (4 * unread st + 4 <= m)%nat -> c' m st = c' (enough st) st) ->
  agree N c (fun st => c' (enough st) st).
Proof.
  intros Hm He st Hst. rewrite (Hm (4 * N + 4)%nat ltac:(lia) st Hst). apply He. lia.
Qed.

Section Enough.
Context (n N : nat).
Lemma sum_enough : (4 * N + 4 <= n)%nat -> agree N (sum n) sum0.
Proof.
  intros Hn. apply (agree_at _ sum); [intros; by apply fuel_agrees|].
  intros st m Hm. apply (proj1 (fuel_agrees m) _ (unread st)); (done || unfold enough, readFuel, unread in *; lia).
Qed.
Lemma sumLoop_enough l : (4 * N + 1 <= n)%nat -> agree N (sumLoop n l) (sumLoop0 l).
Proof.
  intros Hn. apply (agree_at _ (fun m => sumLoop m l)); [intros; apply fuel_agrees; lia|].
  intros st m Hm. apply (proj1 (proj2 (fuel_agrees m)) _ (unread st));
    (done || unfold enough, readFuel, unread in *; lia).
Qed.
Lemma product_enough : (4 * N + 3 <= n)%nat -> agree N (product n) product0.
Proof.
  intros Hn. apply (agree_at _ product); [intros; apply fuel_agrees; lia|].
  intros st m Hm. apply (proj1 (proj2 (proj2 (fuel_agrees m))) _ (unread st));
    (done || unfold enough, readFuel, unread in *; lia).
Qed.
Lemma productLoop_enough l : (4 * N + 1 <= n)%nat -> agree N (productLoop n l) (productLoop0 l).
Proof.
  intros Hn. apply (agree_at _ (fun m => productLoop m l)); [intros; apply fuel_agrees; lia|].
  intros st m Hm. apply (proj1 (proj2 (proj2 (proj2 (fuel_agrees m)))) _ (unread st));
    (done || unfold enough, readFuel, unread in *; lia).
Qed.
Lemma atom_enough : (4 * N + 2 <= n)%nat -> agree N (atom n) atom0.
Proof.
  intros Hn. apply (agree_at _ atom); [intros; apply fuel_agrees; lia|].
  intros st m Hm. apply (proj2 (proj2 (proj2 (proj2 (fuel_agrees m)))) _ (unread st));
    (done || unfold enough, readFuel, unread in *; lia).
Qed.
End Enough.

(** The equations of the five functions, without fuel. *)
Lemma agree_here {A} (c c' : R A) st : agree (unread st) c c' -> c st = c' st.
Proof. intros Ha. by apply Ha. Qed.

Ltac equation :=
  match goal with |- _ ?st = _ =>
    replace (enough st) with (S (4 * unread st + 3)) by (unfold enough, readFuel, unread; lia);
    cbn [sum sumLoop product productLoop atom];
    apply agree_here; agrees;
    first [apply sum_enough | apply sumLoop_enough | apply product_enough
          | apply productLoop_enough | apply atom_enough]; unfold unread in *; lia
  end.

Lemma sum0_eq st : sum0 st = (l ← product0; sumLoop0 l) st.
Proof. unfold sum0. equation. Qed.

Lemma sumLoop0_eq l st :
  sumLoop0 l st =
  (plus ← accept "+";
   if (plus : bool) then r ← product0; sumLoop0 (Sum l r)
   else
     minus ← accept "-";
     if (minus : bool) then
       r ← attempt number;
       match r with
       | Some r => sumLoop0 (Difference l r)
       | None => fail "expected an integer after '-' in a term"
       end
     else mret l) st.
Proof. unfold sumLoop0 at 1. equation. Qed.

Lemma product0_eq st : product0 st = (l ← atom0; productLoop0 l) st.
Proof. unfold product0. equation. Qed.

Lemma productLoop0_eq l st :
  productLoop0 l st =
  (times ← accept "*";
   if (times : bool) then r ← atom0; productLoop0 (Product l r)
   else
     over ← accept "/";
     if (over : bool) then
       r ← attempt number;
       match r with
       | Some r =>
         if r <=? 0 then fail "expected a positive integer after '/' in a term"
         else productLoop0 (Quotient l r)
       | None => fail "expected a positive integer after '/' in a term"
       end
     else mret l) st.
Proof. unfold productLoop0 at 1. equation. Qed.

(** [atom], its recursive readings given. *)
Definition atomWith (inner : R LibTerm) : R LibTerm := fun st =>
  (skipSpace;;
   text ← peek;
   if String.eqb text "" then fail "expected a term"
   else if starts_digit text then
     value ← attempt number;
     match value with
     | Some value => mret (Constant value)
     | None => fail "integer out of range in a term"
     end
   else
     open ← accept "(";
     if (open : bool) then
       inner ← inner;
       close ← accept ")";
       if (close : bool) then mret inner else fail "expected ')' in a term"
     else
       len ← accept "strlen(";
       if (len : bool) then
         index ← attempt argumentIndex;
         match index with
         | Some index =>
           close ← accept ")";
           if (close : bool) then mret (StringLength index) else fail "expected 'strlen(aN)'"
         | None => fail "expected 'strlen(aN)'"
         end
       else
         least ← accept "min(";
         if (least : bool) then
           l ← inner;
           comma ← accept ",";
           if negb comma then fail "expected ',' in 'min(…)'"
           else
             r ← inner;
             close ← accept ")";
             if (close : bool) then mret (Min l r) else fail "expected ')' after 'min(…'"
         else
           text ← peek;
           match text with
           | String "a" text' =>
             if starts_digit text' then
               index ← attempt argumentIndex;
               match index with
               | Some index => mret (Argument index)
               | None => fail "argument index out of range in a term"
               end
             else fail "expected a term"
           | _ => fail "expected a term"
           end) st.

Lemma atom0_eq st : atom0 st = atomWith sum0 st.
Proof. unfold atom0, atomWith. equation. Qed.

(** *** Numbers *)

Lemma append_assoc a b c : ((a ++ b) ++ c)%string = (a ++ (b ++ c))%string.
Proof. induction a as [|x a IH]; cbn; [done|]. by rewrite IH. Qed.

Lemma digit_facts d :
  0 <= d < 10 -> isDigit (digit d) = true /\ code (digit d) - 48 = d.
Proof.
  intros Hd. assert (d = 0 \/ d = 1 \/ d = 2 \/ d = 3 \/ d = 4 \/ d = 5 \/ d = 6 \/ d = 7
    \/ d = 8 \/ d = 9) as C by lia.
  repeat destruct C as [->|C]; [..|subst d]; done.
Qed.

Lemma dec_append fuel n acc k : (dec fuel n acc ++ k)%string = dec fuel n (acc ++ k).
Proof.
  revert n acc. induction fuel as [|fuel IH]; intros n acc; [done|]. cbn.
  destruct (n / 10 =? 0); [done|]. by rewrite IH.
Qed.

Lemma numberFrom_dec fuel n acc :
  0 <= n < 10 ^ Z.of_nat (S fuel) -> n <= int64_max ->
  numberFrom 0 (dec (S fuel) n acc) = numberFrom n acc /\ starts_digit (dec (S fuel) n acc) = true.
Proof.
  revert n acc. induction fuel as [|fuel IH]; intros n acc Hn Hm;
    destruct (digit_facts (n mod 10)) as [Hd Hc]; [euclid| |euclid|].
  - change (10 ^ Z.of_nat 1) with 10 in Hn. cbn [dec].
    rewrite (Z.div_small n) by lia. cbn [Z.eqb numberFrom starts_digit]. rewrite Hd, Hc.
    rewrite Z.mod_small by lia. rewrite (proj2 (Z.ltb_ge _ 0)); [done|].
    apply Z.quot_pos; unfold int64_max; lia.
  - cbn [dec]. destruct (Z.eqb_spec (n / 10) 0) as [Hz|Hz].
    + cbn [numberFrom starts_digit]. rewrite Hd, Hc.
      rewrite (proj2 (Z.ltb_ge _ 0)) by (apply Z.quot_pos; unfold int64_max; euclid).
      split; [|done]. f_equal. euclid.
    + rewrite Nat2Z.inj_succ, Z.pow_succ_r in Hn by lia.
      destruct (IH (n / 10) (String (digit (n mod 10)) acc)) as [IH1 IH2];
        [split; [euclid|apply Z.div_lt_upper_bound; lia]|euclid|].
      cbn [dec] in IH1, IH2. rewrite IH1, IH2. cbn [numberFrom]. rewrite Hd, Hc.
      rewrite (proj2 (Z.ltb_ge _ (n / 10))).
      * split; [|done]. f_equal. euclid.
      * rewrite Z.quot_div_nonneg by (unfold int64_max in *; euclid).
        apply Z.div_le_lower_bound; euclid.
Qed.

Lemma to_string_digits n k :
  0 <= n <= int64_max -> starts_digit k = false ->
  numberFrom 0 (to_string n ++ k) = (Some n, k) /\ starts_digit (to_string n ++ k) = true.
Proof.
  intros Hn Hk. unfold to_string. rewrite (proj2 (Z.ltb_ge n 0)), dec_append by lia. cbn [append].
  destruct (numberFrom_dec 19 n k) as [-> ->]; [unfold int64_max in Hn; cbn; lia|lia|].
  split; [|done]. destruct k as [|c k]; [done|]. cbn in *. by rewrite Hk.
Qed.

Lemma digit_not_space text : starts_digit text = true -> skipSpaces text = text.
Proof.
  destruct text as [|c text]; [done|]. cbn. intros Hd.
  destruct (Ascii.eqb_spec c " "); [subst c; done|done].
Qed.

Lemma number_to_string n k msg :
  0 <= n <= int64_max -> starts_digit k = false ->
  number (mkReader (to_string n ++ k) msg) = (Some n, mkReader k msg).
Proof.
  intros Hn Hk. destruct (to_string_digits n k Hn Hk) as [H1 H2].
  unfold number. cbn [rest message]. by rewrite digit_not_space, H2, H1 by done.
Qed.

Lemma attempt_ok {A} (c : R A) st a st' : c st = (Some a, st') -> attempt c st = (Some (Some a), st').
Proof. unfold attempt. by intros ->. Qed.

(** What may follow a term: no digit that would go on a number. *)
Definition follows (k : string) : Prop := starts_digit k = false.
(** What ends a product: nothing [productLoop] goes on with. *)
Definition ends_product (k : string) : Prop :=
  follows k /\ skipSpaces k = k /\ strip "*" k = None /\ strip "/" k = None.

Lemma productLoop0_ends l k msg :
  ends_product k -> productLoop0 l (mkReader k msg) = (Some l, mkReader k msg).
Proof.
  intros (_ & Hs & Ht & Ho). rewrite productLoop0_eq. unfold mbind, R_bind, accept.
  cbn [rest message]. rewrite Hs, Ht. cbn [rest message]. by rewrite Hs, Ho.
Qed.

Lemma ends_close k : ends_product (")" ++ k).
Proof. done. Qed.
Lemma ends_comma k : ends_product ("," ++ k).
Proof. done. Qed.
Lemma ends_plus k : ends_product ("+" ++ k).
Proof. done. Qed.
Lemma ends_minus k : ends_product ("-" ++ k).
Proof. done. Qed.
Lemma ends_nil : ends_product "".
Proof. done. Qed.
#[local] Hint Resolve ends_close ends_comma ends_plus ends_minus ends_nil : core.

(** The terms whose spelling is read back: no product has a quotient as its
    right operand. *)
Fixpoint canonical (t : LibTerm) : Prop :=
  match t with
  | Constant _ | Argument _ | StringLength _ => True
  | Product l r => canonical l /\ canonical r /\ match r with Quotient _ _ => False | _ => True end
  | Sum l r | Min l r => canonical l /\ canonical r
  | Difference l _ | Quotient l _ => canonical l
  end.

(** What reading the spelling of [t] does, as a term and as a factor. *)
Definition reads_sum (t : LibTerm) : Prop := forall k msg, ends_product k ->
  sum0 (mkReader (str t ++ k) msg) = sumLoop0 t (mkReader k msg).
Definition reads_product (t : LibTerm) : Prop := forall k msg, follows k ->
  product0 (mkReader (str t ++ k) msg) = productLoop0 t (mkReader k msg).
Definition reads_atom (text : string) (t : LibTerm) : Prop := forall k msg, follows k ->
  atom0 (mkReader (text ++ k) msg) = (Some t, mkReader k msg).

Lemma sumLoop0_close l k msg :
  sumLoop0 l (mkReader (")" ++ k) msg) = (Some l, mkReader (")" ++ k) msg).
Proof. by rewrite sumLoop0_eq. Qed.
Lemma sumLoop0_comma l k msg :
  sumLoop0 l (mkReader ("," ++ k) msg) = (Some l, mkReader ("," ++ k) msg).
Proof. by rewrite sumLoop0_eq. Qed.

(** Where [atom] goes by a term's first characters. *)
Lemma atomWith_open inner text msg :
  atomWith inner (mkReader ("(" ++ text) msg)
  = (t ← inner; close ← accept ")";
     if (close : bool) then mret t else fail "expected ')' in a term") (mkReader text msg).
Proof. reflexivity. Qed.

Lemma atomWith_strlen inner text msg :
  atomWith inner (mkReader ("strlen(" ++ text) msg)
  = (index ← attempt argumentIndex;
     match index with
     | Some index =>
       close ← accept ")";
       if (close : bool) then mret (StringLength index) else fail "expected 'strlen(aN)'"
     | None => fail "expected 'strlen(aN)'"
     end) (mkReader text msg).
Proof. reflexivity. Qed.

Lemma atomWith_min inner text msg :
  atomWith inner (mkReader ("min(" ++ text) msg)
  = (l ← inner; comma ← accept ",";
     if negb comma then fail "expected ',' in 'min(…)'"
     else
       r ← inner; close ← accept ")";
       if (close : bool) then mret (Min l r) else fail "expected ')' after 'min(…'")
      (mkReader text msg).
Proof. reflexivity. Qed.

Lemma atomWith_argument inner text msg :
  starts_digit text = true ->
  atomWith inner (mkReader ("a" ++ text) msg)
  = (index ← attempt argumentIndex;
     match index with
     | Some index => mret (Argument index)
     | None => fail "argument index out of range in a term"
     end) (mkReader ("a" ++ text) msg).
Proof.
  intros Hd. destruct text as [|c text]; [done|]. cbn [starts_digit] in Hd.
  unfold atomWith, mbind, R_bind, skipSpace, peek. cbn -[isDigit].
  change (isDigit "a") with false. cbn -[isDigit attempt argumentIndex]. by rewrite Hd.
Qed.

Lemma reads_parens t : reads_sum t -> reads_atom ("(" ++ str t ++ ")") t.
Proof.
  intros Ht k msg Hk. rewrite atom0_eq, !append_assoc, atomWith_open. unfold mbind, R_bind.
  rewrite Ht by done. by rewrite sumLoop0_close.
Qed.

Lemma reads_constant n : 0 <= n <= int64_max -> reads_atom (to_string n) (Constant n).
Proof.
  intros Hn k msg Hk. rewrite atom0_eq. unfold atomWith, mbind, R_bind, skipSpace, peek.
  cbn [rest message]. destruct (to_string_digits n k Hn Hk) as [H1 H2].
  rewrite digit_not_space, H2 by done.
  assert (He : String.eqb (to_string n ++ k) "" = false) by (by destruct (to_string n ++ k)%string).
  rewrite He. erewrite attempt_ok by (by apply number_to_string). done.
Qed.

Lemma argumentIndex_to_string n k msg :
  0 <= n <= 255 -> follows k ->
  argumentIndex (mkReader ("a" ++ to_string n ++ k) msg) = (Some n, mkReader k msg).
Proof.
  intros Hn Hk. unfold argumentIndex, mbind, R_bind.
  change (accept "a" _) with (Some true, mkReader (to_string n ++ k) msg). cbn [negb].
  rewrite number_to_string by (done || unfold int64_max; lia).
  by rewrite (proj2 (Z.ltb_ge 255 n)) by lia.
Qed.

Lemma reads_argument n : 0 <= n <= 255 -> reads_atom ("a" ++ to_string n) (Argument n).
Proof.
  intros Hn k msg Hk. rewrite atom0_eq, append_assoc, atomWith_argument.
  2:{ apply to_string_digits; [unfold int64_max; lia|done]. }
  unfold mbind, R_bind. erewrite attempt_ok by (by apply argumentIndex_to_string). done.
Qed.

Lemma reads_length n :
  0 <= n <= 255 -> reads_atom ("strlen(a" ++ to_string n ++ ")") (StringLength n).
Proof.
  intros Hn k msg Hk. rewrite atom0_eq. rewrite !append_assoc.
  change ("strlen(a" ++ to_string n ++ ")" ++ k)%string
    with ("strlen(" ++ ("a" ++ to_string n ++ ")" ++ k))%string.
  rewrite atomWith_strlen. unfold mbind, R_bind.
  erewrite attempt_ok by (by apply argumentIndex_to_string). done.
Qed.

Lemma reads_min l r :
  reads_sum l -> reads_sum r -> reads_atom ("min(" ++ str l ++ "," ++ str r ++ ")") (Min l r).
Proof.
  intros Hl Hr k msg Hk. rewrite atom0_eq, !append_assoc, atomWith_min. unfold mbind, R_bind.
  rewrite Hl, sumLoop0_comma by done.
  change (accept "," _) with (Some true, mkReader (str r ++ ")" ++ k) msg). cbn [negb].
  rewrite Hr by done. by rewrite sumLoop0_close.
Qed.

Lemma product_of_atom text t : reads_atom text t -> forall k msg, follows k ->
  product0 (mkReader (text ++ k) msg) = productLoop0 t (mkReader k msg).
Proof. intros Ht k msg Hk. rewrite product0_eq. unfold mbind, R_bind. by rewrite Ht. Qed.

Lemma sum_of_product t : reads_product t -> reads_sum t.
Proof.
  intros Ht k msg Hk. rewrite sum0_eq. unfold mbind, R_bind.
  rewrite Ht by apply Hk. by rewrite productLoop0_ends.
Qed.

(** A factor that is printed as it is or in parentheses. *)
Lemma reads_left t k msg :
  reads_sum t -> (isAdditive t = false -> reads_product t) -> follows k ->
  product0 (mkReader (parenthesised (str t) (isAdditive t) ++ k) msg)
  = productLoop0 t (mkReader k msg).
Proof.
  intros Hs Hp Hk. destruct (isAdditive t) eqn:E; cbn [parenthesised]; [|by apply Hp].
  apply product_of_atom; [by apply reads_parens|done].
Qed.

(** The forms of a term's spelling as an operand, by induction. *)
Definition reads_back (t : LibTerm) : Prop :=
  reads_sum t /\ (isAdditive t = false -> reads_product t)
  /\ (isAdditive t = false -> isProduct t = false ->
      match t with Quotient _ _ => False | _ => True end -> reads_atom (str t) t).

Lemma reads_back_atom t :
  isAdditive t = false -> isProduct t = false -> match t with Quotient _ _ => False | _ => True end ->
  reads_atom (str t) t -> reads_back t.
Proof.
  intros Ha Hp Hq Hr. assert (Hpr : reads_product t) by (intros k msg; by apply product_of_atom).
  split; [by apply sum_of_product|done].
Qed.

Lemma reads_back_product t :
  match t with Product _ _ | Quotient _ _ => True | _ => False end -> reads_product t -> reads_back t.
Proof.
  intros Hm Hr. split; [by apply sum_of_product|]. split; [done|]. by destruct t.
Qed.

Lemma reads_product_product l r :
  reads_back l -> reads_back r -> match r with Quotient _ _ => False | _ => True end ->
  reads_product (Product l r).
Proof.
  intros (Hls & Hlp & _) (Hrs & Hrp & Hra) Hq k msg Hk. cbn [str]. rewrite !append_assoc.
  rewrite reads_left by done. rewrite productLoop0_eq. unfold mbind, R_bind.
  change (accept "*" _) with
    (Some true, mkReader (parenthesised (str r) (isAdditive r || isProduct r) ++ k) msg).
  cbv iota. destruct (isAdditive r || isProduct r) eqn:E; cbn [parenthesised].
  - by rewrite (reads_parens r Hrs k msg Hk).
  - apply orb_false_iff in E as [Ea Ep]. by rewrite (Hra Ea Ep Hq k msg Hk).
Qed.

Lemma reads_product_quotient l c :
  reads_back l -> 0 < c <= int64_max -> reads_product (Quotient l c).
Proof.
  intros (Hls & Hlp & _) Hc k msg Hk. cbn [str]. rewrite !append_assoc.
  rewrite reads_left by done. rewrite productLoop0_eq. unfold mbind, R_bind.
  change (accept "*" _) with (Some false, mkReader ("/" ++ to_string c ++ k) msg). cbv iota beta.
  change (accept "/" _) with (Some true, mkReader (to_string c ++ k) msg). cbv iota beta.
  erewrite attempt_ok by (apply number_to_string; [lia|done]).
  by rewrite (proj2 (Z.leb_gt c 0)) by lia.
Qed.

Lemma reads_sum_sum l r : reads_back l -> reads_back r -> reads_back (Sum l r).
Proof.
  intros (Hls & _ & _) (Hrs & Hrp & _). split; [|done]. intros k msg Hk. cbn [str].
  rewrite !append_assoc, Hls by done. rewrite sumLoop0_eq. unfold mbind, R_bind.
  change (accept "+" _) with
    (Some true, mkReader (parenthesised (str r) (isAdditive r) ++ k) msg). cbv iota beta.
  rewrite reads_left by (done || apply Hk). by rewrite productLoop0_ends.
Qed.

Lemma reads_sum_difference l c : reads_back l -> 0 <= c <= int64_max -> reads_back (Difference l c).
Proof.
  intros (Hls & _ & _) Hc. split; [|done]. intros k msg Hk. cbn [str].
  rewrite !append_assoc, Hls by done. rewrite sumLoop0_eq. unfold mbind, R_bind.
  change (accept "+" _) with (Some false, mkReader ("-" ++ to_string c ++ k) msg). cbv iota beta.
  change (accept "-" _) with (Some true, mkReader (to_string c ++ k) msg). cbv iota beta.
  erewrite attempt_ok by (apply number_to_string; [done|apply Hk]). done.
Qed.

Lemma canonical_reads_back t : term_wf t -> canonical t -> reads_back t.
Proof.
  induction t; cbn [term_wf canonical]; intros Hw Hc.
  - apply reads_back_atom; try done. by apply reads_constant.
  - apply reads_back_atom; try done. by apply reads_argument.
  - apply reads_back_atom; try done. by apply reads_length.
  - apply reads_back_product; [done|]. apply reads_product_product; intuition.
  - apply reads_sum_sum; intuition.
  - apply reads_sum_difference; intuition.
  - apply reads_back_atom; try done. apply reads_min; [apply IHt1|apply IHt2]; intuition.
  - apply reads_back_product; [done|]. apply reads_product_quotient; intuition.
Qed.

Lemma append_nil t : (t ++ "")%string = t.
Proof. induction t as [|c t IH]; cbn; [done|]. by rewrite IH. Qed.

(** A term is read back from its spelling, whatever its depth, unless a
    product in it has a quotient as its right operand. *)
Theorem parse_str t : term_wf t -> canonical t -> parse (str t) = inl t.
Proof.
  intros Hw Hc. destruct (canonical_reads_back t Hw Hc) as [Hs _].
  unfold parse. change read with sum0. specialize (Hs EmptyString EmptyString ends_nil).
  rewrite append_nil in Hs. rewrite Hs. by rewrite sumLoop0_eq.
Qed.

(** The spelling of a product whose right operand is a quotient is not
    read back to the term: [a0*(a1/2)] is spelled [a0*a1/2], which reads as
    [(a0*a1)/2] and has another value. *)
Theorem str_not_canonical :
  exists t t' values,
    term_wf t /\ parse "a0*(a1/2)" = inl t /\ parse (str t) = inl t' /\ t' <> t
    /\ evaluate values t = Some 3 /\ evaluate values t' = Some 4.
Proof.
  exists (Product (Argument 0) (Quotient (Argument 1) 2)).
  exists (Quotient (Product (Argument 0) (Argument 1)) 2).
  exists (mkValues (Some (fun _ => Some 3)) None).
  split; [cbn; unfold int64_max; lia|]. by vm_compute.
Qed.
