(* ===== verification/LibrarySpec.v ===== *)
(** * The C library table

    [lib/Core/LibrarySpec.cpp] from line 179 on and the row types of
    [include/weavec/Core/LibrarySpec.h]: logical lines, the parser of the
    table's text ([LibrarySpecParser]), its validation, the index of rows and
    aliases, and the lookup of a callee.

    A parser method is a computation of the state monad [P] over the parser's
    members: [line] (the logical line being parsed), its unread part (the
    position is what was read of it), [entryName], [message] and the table
    being built.  A method that answers [false], or [std::nullopt], answers
    [None].  The text embedded by the build ([shippedText]) is not modelled:
    [parse] takes any text. *)

From stdpp Require Import gmap strings.
From Stdlib Require Import String Ascii.
From S2P Require Import Prelude LibTerm.
Local Open Scope Z_scope.

(** ** Rows *)

Record LibDisjoint := mkLibDisjoint { d_first : Z; d_second : Z; d_length : LibTerm }.

Inductive FormatKind := Printf | Scanf.
Record LibFormat := mkLibFormat {
  f_kind : FormatKind;
  f_format : Z;
  f_first : Z;
  f_vaList : bool
}.

Inductive ParamType := TInt | TPointer | TFunction | TOther.
Inductive Access := ANone | ARead | AWrite | AReadWrite.
Inductive Null := Forbidden | Allowed | AllowedIfZero.
Inductive Effect := Borrow | Release | Realloc.

Record LibraryParam := mkLibraryParam {
  pa_type : ParamType;
  pa_access : Access;
  pa_bytes : option LibTerm;
  pa_count : option LibTerm;
  pa_string : bool;
  pa_scan : option LibTerm;
  pa_null : Null;
  pa_zeroTerm : option LibTerm;
  pa_effect : Effect
}.

Definition libraryParam (type : ParamType) (access : Access) : LibraryParam :=
  mkLibraryParam type access None None false None Forbidden None Borrow.

Definition set_bytes (p : LibraryParam) (t : LibTerm) : LibraryParam :=
  mkLibraryParam (pa_type p) (pa_access p) (Some t) (pa_count p) (pa_string p) (pa_scan p)
                 (pa_null p) (pa_zeroTerm p) (pa_effect p).
Definition set_count (p : LibraryParam) (t : LibTerm) : LibraryParam :=
  mkLibraryParam (pa_type p) (pa_access p) (pa_bytes p) (Some t) (pa_string p) (pa_scan p)
                 (pa_null p) (pa_zeroTerm p) (pa_effect p).
Definition set_string (p : LibraryParam) : LibraryParam :=
  mkLibraryParam (pa_type p) (pa_access p) (pa_bytes p) (pa_count p) true (pa_scan p)
                 (pa_null p) (pa_zeroTerm p) (pa_effect p).
Definition set_scan (p : LibraryParam) (t : LibTerm) : LibraryParam :=
  mkLibraryParam (pa_type p) (pa_access p) (pa_bytes p) (pa_count p) (pa_string p) (Some t)
                 (pa_null p) (pa_zeroTerm p) (pa_effect p).
Definition set_null (p : LibraryParam) (n : Null) (t : option LibTerm) : LibraryParam :=
  mkLibraryParam (pa_type p) (pa_access p) (pa_bytes p) (pa_count p) (pa_string p) (pa_scan p)
                 n t (pa_effect p).
Definition set_effect (p : LibraryParam) (e : Effect) : LibraryParam :=
  mkLibraryParam (pa_type p) (pa_access p) (pa_bytes p) (pa_count p) (pa_string p) (pa_scan p)
                 (pa_null p) (pa_zeroTerm p) e.

(** A fortified alias; [-1] is an argument dropped, and no size argument. *)
Record LibraryChk := mkLibraryChk {
  c_name : string;
  c_argumentOf : list Z;
  c_sizeArgument : Z
}.

Inductive Result := RVoid | RInt | RPointer.

Record LibraryEntry := mkLibraryEntry {
  e_name : string;
  e_chk : list LibraryChk;
  e_params : list LibraryParam;
  e_variadic : bool;
  e_result : Result;
  e_value : option LibTerm;
  e_disjoint : list LibDisjoint;
  e_wide : bool;
  e_format : option LibFormat;
  e_wrapper : option string;
  e_line : Z
}.

Definition set_result (e : LibraryEntry) (r : Result) (value : option LibTerm) : LibraryEntry :=
  mkLibraryEntry (e_name e) (e_chk e) (e_params e) (e_variadic e) r value (e_disjoint e)
                 (e_wide e) (e_format e) (e_wrapper e) (e_line e).
Definition set_wide (e : LibraryEntry) : LibraryEntry :=
  mkLibraryEntry (e_name e) (e_chk e) (e_params e) (e_variadic e) (e_result e) (e_value e)
                 (e_disjoint e) true (e_format e) (e_wrapper e) (e_line e).
Definition push_disjoint (e : LibraryEntry) (d : LibDisjoint) : LibraryEntry :=
  mkLibraryEntry (e_name e) (e_chk e) (e_params e) (e_variadic e) (e_result e) (e_value e)
                 (e_disjoint e ++ [d]) (e_wide e) (e_format e) (e_wrapper e) (e_line e).
Definition set_format (e : LibraryEntry) (f : LibFormat) : LibraryEntry :=
  mkLibraryEntry (e_name e) (e_chk e) (e_params e) (e_variadic e) (e_result e) (e_value e)
                 (e_disjoint e) (e_wide e) (Some f) (e_wrapper e) (e_line e).
Definition set_wrapper (e : LibraryEntry) (name : string) : LibraryEntry :=
  mkLibraryEntry (e_name e) (e_chk e) (e_params e) (e_variadic e) (e_result e) (e_value e)
                 (e_disjoint e) (e_wide e) (e_format e) (Some name) (e_line e).
Definition push_chk (e : LibraryEntry) (c : LibraryChk) : LibraryEntry :=
  mkLibraryEntry (e_name e) (e_chk e ++ [c]) (e_params e) (e_variadic e) (e_result e) (e_value e)
                 (e_disjoint e) (e_wide e) (e_format e) (e_wrapper e) (e_line e).

(** [LibraryEntry::param]. *)
Definition param (e : LibraryEntry) (index : nat) : option LibraryParam := e_params e !! index.

(** ** Matches *)

Record LibraryMatch := mkLibraryMatch {
  m_entry : option LibraryEntry;
  m_alias : option LibraryChk
}.

Definition back (map : list Z) : Z := List.last map 0.

(** [entry == nullptr || !entry->variadic] *)
Definition fixed (m : LibraryMatch) : bool :=
  match m_entry m with Some e => negb (e_variadic e) | None => true end.

Definition rowArgument (m : LibraryMatch) (callArgument : nat) : Z :=
  match m_alias m with
  | None => Z.of_nat callArgument
  | Some alias =>
    let map := c_argumentOf alias in
    match map !! callArgument with
    | Some row => row
    | None =>
      if fixed m || bool_decide (map = []) || (back map <? 0) then -1
      else back map + (Z.of_nat callArgument - Z.of_nat (length map)) + 1
    end
  end.

(** The first index at which [map] holds [row]. *)
Fixpoint findRow (map : list Z) (row i : Z) : option Z :=
  match map with
  | [] => None
  | r :: map' => if r =? row then Some i else findRow map' row (i + 1)
  end.

Definition callArgument (m : LibraryMatch) (rowArg : nat) : Z :=
  match m_alias m with
  | None => Z.of_nat rowArg
  | Some alias =>
    let map := c_argumentOf alias in
    match findRow map (Z.of_nat rowArg) 0 with
    | Some i => i
    | None =>
      if fixed m || bool_decide (map = []) || (back map <? 0) || (Z.of_nat rowArg <=? back map)
      then -1
      else Z.of_nat (length map) - 1 + (Z.of_nat rowArg - back map)
    end
  end.

Definition sizeArgument (m : LibraryMatch) : Z :=
  match m_alias m with Some alias => c_sizeArgument alias | None => -1 end.

(** ** Logical lines *)

Record LogicalLine := mkLogicalLine { ll_text : string; ll_lines : list Z }.

Definition newline : ascii := ascii_of_nat 10.
Definition tab : ascii := ascii_of_nat 9.
Definition return_ : ascii := ascii_of_nat 13.
Definition backslash : ascii := ascii_of_nat 92.

(** The text cut at its newlines: one more line than it has. *)
Fixpoint physicalLines (text : string) : list string :=
  match text with
  | EmptyString => [EmptyString]
  | String c text' =>
    if Ascii.eqb c newline then EmptyString :: physicalLines text'
    else match physicalLines text' with
         | first :: more => String c first :: more
         | [] => [String c EmptyString]
         end
  end.

(** [text] up to its first ['#']. *)
Fixpoint cutComment (text : string) : string :=
  match text with
  | EmptyString => EmptyString
  | String c text' => if Ascii.eqb c "#" then EmptyString else String c (cutComment text')
  end.

Definition isBlank (c : ascii) : bool := Ascii.eqb c " " || Ascii.eqb c tab || Ascii.eqb c return_.

(** [text] without its trailing blanks. *)
Fixpoint trimEnd (text : string) : string :=
  match text with
  | EmptyString => EmptyString
  | String c text' =>
    match trimEnd text' with
    | EmptyString => if isBlank c then EmptyString else String c EmptyString
    | rest => String c rest
    end
  end.

(** A line without the backslash it ends in, and whether it had one. *)
Fixpoint cutContinuation (text : string) : bool * string :=
  match text with
  | EmptyString => (false, EmptyString)
  | String c EmptyString =>
    if Ascii.eqb c backslash then (true, EmptyString) else (false, text)
  | String c text' => let '(continues, text') := cutContinuation text' in (continues, String c text')
  end.

Fixpoint spaces_for_tabs (text : string) : string :=
  match text with
  | EmptyString => EmptyString
  | String c text' => String (if Ascii.eqb c tab then " "%char else c) (spaces_for_tabs text')
  end.

(** A physical line joined to [current]. *)
Definition join (current : LogicalLine) (physical : string) (number : Z) : LogicalLine :=
  mkLogicalLine (ll_text current ++ spaces_for_tabs physical)
                (ll_lines current ++ replicate (String.length physical) number).

Fixpoint logicalFrom (physical : list string) (number : Z) (current : LogicalLine)
    : list LogicalLine :=
  match physical with
  | [] => if String.eqb (ll_text current) "" then [] else [current]
  | line :: rest =>
    let '(continues, line) := cutContinuation (trimEnd (cutComment line)) in
    let current := join current line number in
    if (continues : bool) then
      logicalFrom rest (number + 1)
        (mkLogicalLine (ll_text current ++ " ") (ll_lines current ++ [number]))
    else current :: logicalFrom rest (number + 1) (mkLogicalLine "" [])
  end.

Definition logicalLines (text : string) : list LogicalLine :=
  logicalFrom (physicalLines text) 1 (mkLogicalLine "" []).

(** ** The table *)

(** [byName] is the multimap: a name's rows in the order they were added. *)
Record LibrarySpec := mkLibrarySpec {
  rows : list LibraryEntry;
  byName : gmap string (list nat);
  byAlias : gmap string (nat * nat)
}.

Definition empty_spec : LibrarySpec := mkLibrarySpec [] ∅ ∅.

Definition rowsOf (spec : LibrarySpec) (name : string) : list nat := default [] (byName spec !! name).

Definition add_row (spec : LibrarySpec) (e : LibraryEntry) : LibrarySpec :=
  mkLibrarySpec (rows spec ++ [e])
                (<[e_name e := rowsOf spec (e_name e) ++ [length (rows spec)]]> (byName spec))
                (byAlias spec).

(** ** The parser *)

Record parser := mkParser {
  p_spec : LibrarySpec;
  p_message : string;
  p_line : option LogicalLine;
  p_rest : string;
  p_entryName : string
}.

Definition P (A : Type) : Type := parser -> option A * parser.

#[export] Instance P_ret : MRet P := fun A a st => (Some a, st).
#[export] Instance P_bind : MBind P := fun A B f c st =>
  match c st with
  | (Some a, st') => f a st'
  | (None, st') => (None, st')
  end.

Definition with_rest (st : parser) (rest : string) : parser :=
  mkParser (p_spec st) (p_message st) (p_line st) rest (p_entryName st).
Definition with_message (st : parser) (message : string) : parser :=
  mkParser (p_spec st) message (p_line st) (p_rest st) (p_entryName st).
Definition with_entryName (st : parser) (name : string) : parser :=
  mkParser (p_spec st) (p_message st) (p_line st) (p_rest st) name.
Definition with_line (st : parser) (line : option LogicalLine) : parser :=
  mkParser (p_spec st) (p_message st) line
           (match line with Some l => ll_text l | None => EmptyString end) (p_entryName st).
Definition with_spec (st : parser) (spec : LibrarySpec) : parser :=
  mkParser spec (p_message st) (p_line st) (p_rest st) (p_entryName st).

Module Parser.

Definition update (f : parser -> parser) : P unit := fun st => (Some tt, f st).

Definition getRows : P (list LibraryEntry) := fun st => (Some (rows (p_spec st)), st).

Definition tried {A} (c : P A) : P (option A) := fun st => let '(a, st') := c st in (Some a, st').

(** The line of the character at the position, or of the last. *)
Definition failLine (st : parser) : Z :=
  match p_line st with
  | Some line =>
    let pos := (String.length (ll_text line) - String.length (p_rest st))%nat in
    default 0 (ll_lines line !! Nat.min pos (length (ll_lines line) - 1))
  | None => 0
  end.

Definition fail {A} (why : string) : P A := fun st =>
  (None,
   if negb (String.eqb (p_message st) "") then st
   else with_message st
     ("LibrarySpec.txt:" ++ to_string (failLine st) ++ ": "
      ++ (if negb (String.eqb (p_entryName st) "") then "'" ++ p_entryName st ++ "': " else "")
      ++ why)%string).

Definition skipSpace : P unit := fun st => (Some tt, with_rest st (skipSpaces (p_rest st))).

Definition atEnd : P bool := fun st =>
  let rest := skipSpaces (p_rest st) in (Some (String.eqb rest ""), with_rest st rest).

Definition accept (token : string) : P bool := fun st =>
  let rest := skipSpaces (p_rest st) in
  match strip token rest with
  | Some rest' => (Some true, with_rest st rest')
  | None => (Some false, with_rest st rest)
  end.

Definition expect (c context : string) : P unit :=
  ok ← accept c;
  if (ok : bool) then mret tt else fail ("expected '" ++ c ++ "' " ++ context).

(** The longest prefix of characters of a word, and what follows it. *)
Fixpoint spanWord (text : string) : string * string :=
  match text with
  | EmptyString => (EmptyString, EmptyString)
  | String c text' =>
    if isIdentifierChar c || Ascii.eqb c "-" then
      let '(word, rest) := spanWord text' in (String c word, rest)
    else (EmptyString, text)
  end.

Definition word : P string := fun st =>
  let '(word, rest) := spanWord (skipSpaces (p_rest st)) in (Some word, with_rest st rest).

Definition name (what : string) : P string :=
  text ← word;
  if isIdentifier text then mret text
  else fail ("expected " ++ what
             ++ (if String.eqb text "" then "" else ", found '" ++ text ++ "'")).

(** The digits of an index, while [value < 1000]. *)
Fixpoint indexFrom (value : Z) (text : string) : Z * string :=
  match text with
  | String c text' =>
    if isDigit c && (value <? 1000) then indexFrom (value * 10 + (code c - 48)) text'
    else (value, text)
  | EmptyString => (value, text)
  end.

Definition index (what : string) : P Z := fun st =>
  let begin := skipSpaces (p_rest st) in
  let '(value, rest) := indexFrom 0 begin in
  let st := with_rest st rest in
  if (String.length rest =? String.length begin)%nat then fail ("expected " ++ what) st
  else if 255 <? value then fail (what ++ " out of range") st
  else (Some value, st).

Definition term (where_ : string) : P LibTerm := fun st =>
  let '(result, reader) := read (mkReader (p_rest st) "") in
  let st := with_rest st (rest reader) in
  match result with
  | Some t => (Some t, st)
  | None => fail (message reader ++ " in '" ++ where_ ++ "(…)'") st
  end.

Definition parenthesisedTerm (flag : string) : P LibTerm :=
  expect "(" ("after '" ++ flag ++ "'");;
  t ← term flag;
  expect ")" ("after the term of '" ++ flag ++ "'");;
  mret t.

Definition rest_is_open : P bool := fun st =>
  (Some (match p_rest st with String c _ => Ascii.eqb c "(" | EmptyString => false end), st).

(** *** Parameters *)

(** One flag of a pointer parameter. *)
Definition paramFlag (p : LibraryParam) (flag : string) : P LibraryParam :=
  if String.eqb flag "bytes" then t ← parenthesisedTerm flag; mret (set_bytes p t)
  else if String.eqb flag "count" then t ← parenthesisedTerm flag; mret (set_count p t)
  else if String.eqb flag "str" then mret (set_string p)
  else if String.eqb flag "scan" then
    skipSpace;;
    open ← rest_is_open;
    if (open : bool) then t ← parenthesisedTerm flag; mret (set_scan p t)
    else mret (set_scan p (Constant 1))
  else if String.eqb flag "null-ok" then mret (set_null p Allowed (pa_zeroTerm p))
  else if String.eqb flag "null-if-zero" then
    t ← parenthesisedTerm flag; mret (set_null p AllowedIfZero (Some t))
  else if String.eqb flag "release" then mret (set_effect p Release)
  else if String.eqb flag "realloc" then mret (set_effect p Realloc)
  else fail ("unknown parameter flag '" ++ flag ++ "'").

(** [while (accept(':'))]; each turn reads a character. *)
Fixpoint paramFlags (fuel : nat) (p : LibraryParam) (seen : list string)
    : P (LibraryParam * list string) :=
  match fuel with
  | O => fun st => (None, st)
  | S fuel' =>
    more ← accept ":";
    if (more : bool) then
      flag ← word;
      if bool_decide (flag ∈ seen) then fail ("duplicate flag '" ++ flag ++ "'")
      else
        p ← paramFlag p flag;
        paramFlags fuel' p (flag :: seen)
    else mret (p, seen)
  end.

(** A bound on the turns of a loop that reads a character at each. *)
Definition with_fuel {A} (c : nat -> P A) : P A := fun st => c (S (String.length (p_rest st))) st.

Definition reads_access (a : Access) : bool :=
  match a with ARead | AReadWrite => true | _ => false end.
Definition is_read (a : Access) : bool := match a with ARead => true | _ => false end.

Definition checkParam (p : LibraryParam) (seen : list string) : P LibraryParam :=
  if bool_decide ("null-ok"%string ∈ seen) && bool_decide ("null-if-zero"%string ∈ seen) then
    fail "'null-ok' and 'null-if-zero' exclude each other"
  else if bool_decide (is_Some (pa_bytes p)) && bool_decide (is_Some (pa_count p)) then
    fail "'bytes' and 'count' exclude each other"
  else if pa_string p && negb (reads_access (pa_access p)) then fail "'str' needs 'r' or 'rw'"
  else if bool_decide (is_Some (pa_scan p)) && negb (is_read (pa_access p)) then
    fail "'scan' needs 'r'"
  else mret p.

Definition parseParam : P LibraryParam :=
  head ← word;
  if String.eqb head "int" then mret (libraryParam TInt ANone)
  else if String.eqb head "other" then mret (libraryParam TOther ANone)
  else if String.eqb head "fn" then mret (libraryParam TFunction ANone)
  else
    access ← (if String.eqb head "r" then mret ARead
              else if String.eqb head "w" then mret AWrite
              else if String.eqb head "rw" then mret AReadWrite
              else if String.eqb head "none" then mret ANone
              else fail ("expected a parameter, found '" ++ head ++ "'"));
    flags ← with_fuel (fun fuel => paramFlags fuel (libraryParam TPointer access) []);
    checkParam (fst flags) (snd flags).

(** *** The result and the clauses *)

Definition parseResult (entry : LibraryEntry) : P LibraryEntry :=
  kind ← word;
  if String.eqb kind "void" then mret (set_result entry RVoid (e_value entry))
  else if String.eqb kind "ptr" then mret (set_result entry RPointer (e_value entry))
  else if String.eqb kind "int" then
    colon ← accept ":";
    if (colon : bool) then
      text ← word;
      if negb (String.eqb text "value") then fail "expected 'value(…)' after 'int:'"
      else
        t ← parenthesisedTerm "value";
        mret (set_result entry RInt (Some t))
    else mret (set_result entry RInt (e_value entry))
  else fail ("expected 'void', 'int' or 'ptr', found '" ++ kind ++ "'").

(** One argument of an alias. *)
Definition chkArgument (chk : LibraryChk) : P LibraryChk :=
  size ← accept "size";
  if (size : bool) then
    if 0 <=? c_sizeArgument chk then fail "an alias has at most one 'size' argument"
    else mret (mkLibraryChk (c_name chk) (c_argumentOf chk ++ [-1])
                            (Z.of_nat (length (c_argumentOf chk))))
  else
    dropped ← accept "_";
    if (dropped : bool) then
      mret (mkLibraryChk (c_name chk) (c_argumentOf chk ++ [-1]) (c_sizeArgument chk))
    else
      row ← index "a row argument index, '_' or 'size'";
      if 127 <? row then fail "alias argument index out of range"
      else mret (mkLibraryChk (c_name chk) (c_argumentOf chk ++ [row]) (c_sizeArgument chk)).

(** [do .. while (accept(','))] *)
Fixpoint chkArguments (fuel : nat) (chk : LibraryChk) : P LibraryChk :=
  match fuel with
  | O => fun st => (None, st)
  | S fuel' =>
    chk ← chkArgument chk;
    more ← accept ",";
    if (more : bool) then chkArguments fuel' chk else mret chk
  end.

Definition parseDisjoint (entry : LibraryEntry) : P LibraryEntry :=
  expect "(" "after 'disjoint'";;
  first ← index "an argument index";
  expect "," "in 'disjoint'";;
  second ← index "an argument index";
  expect "," "in 'disjoint'";;
  length ← term "disjoint";
  expect ")" "after 'disjoint(…'";;
  mret (push_disjoint entry (mkLibDisjoint first second length)).

Definition parseFormat (entry : LibraryEntry) (clause : string) : P LibraryEntry :=
  if bool_decide (is_Some (e_format entry)) then fail "a row has at most one format clause"
  else
    expect "(" ("after '" ++ clause ++ "'");;
    format ← index "the format's index";
    expect "," ("in '" ++ clause ++ "'");;
    first ← index "the first argument's index";
    expect ")" ("after '" ++ clause ++ "(…'");;
    mret (set_format entry
      (mkLibFormat (if String.eqb clause "printf" then Printf else Scanf) format first
                   (negb (e_variadic entry)))).

Definition parseWrapper (entry : LibraryEntry) : P LibraryEntry :=
  if bool_decide (is_Some (e_wrapper entry)) then fail "duplicate clause 'wrapper'"
  else
    expect "(" "after 'wrapper'";;
    wrapped ← name "a wrapper name";
    expect ")" "after the wrapper name";;
    mret (set_wrapper entry wrapped).

Definition parseChk (entry : LibraryEntry) : P LibraryEntry :=
  expect "(" "after 'chk'";;
  alias ← name "an alias name";
  expect ":" "after the alias name";;
  chk ← with_fuel (fun fuel => chkArguments fuel (mkLibraryChk alias [] (-1)));
  expect ")" "after the alias's arguments";;
  mret (push_chk entry chk).

Definition parseClause (entry : LibraryEntry) (clause : string) : P LibraryEntry :=
  if String.eqb clause "wide" then
    if e_wide entry then fail "duplicate clause 'wide'" else mret (set_wide entry)
  else if String.eqb clause "disjoint" then parseDisjoint entry
  else if String.eqb clause "printf" || String.eqb clause "scanf" then parseFormat entry clause
  else if String.eqb clause "wrapper" then parseWrapper entry
  else if String.eqb clause "chk" then parseChk entry
  else fail ("unknown clause '" ++ clause ++ "'").

(** *** Validation *)

Definition is_pointer (p : option LibraryParam) : bool :=
  match p with Some p => match pa_type p with TPointer => true | _ => false end | None => false end.

(** The bound of an argument a term names. *)
Definition validateArg (entry : LibraryEntry) (arg : Z) (where_ : string) : P unit :=
  if Z.of_nat (length (e_params entry)) <=? arg then
    fail ("argument a" ++ to_string arg ++ " of " ++ where_ ++ " is past the row's parameters")
  else mret tt.

Fixpoint validateTerm (entry : LibraryEntry) (value : LibTerm) (where_ : string) : P unit :=
  match value with
  | Constant _ => mret tt
  | Argument arg => validateArg entry arg where_
  | StringLength arg =>
    validateArg entry arg where_;;
    if negb (is_pointer (param entry (Z.to_nat arg))) then
      fail ("strlen(a" ++ to_string arg ++ ") of " ++ where_ ++ " names a non-pointer")
    else mret tt
  | Difference l _ | Quotient l _ => validateTerm entry l where_
  | Product l r | Sum l r | Min l r =>
    validateTerm entry l where_;; validateTerm entry r where_
  end.

Fixpoint for_each {A} (l : list A) (f : A -> P unit) : P unit :=
  match l with
  | [] => mret tt
  | a :: l' => f a;; for_each l' f
  end.

Definition validateParam (entry : LibraryEntry) (i : nat) (p : LibraryParam) : P unit :=
  let where_ := ("parameter " ++ to_string (Z.of_nat i))%string in
  for_each [pa_bytes p; pa_count p; pa_zeroTerm p; pa_scan p]
    (fun value => match value with Some t => validateTerm entry t where_ | None => mret tt end);;
  if bool_decide (is_Some (pa_count p)) && negb (e_wide entry) then fail "'count' needs a wide row"
  else mret tt.

Definition validateDisjoint (entry : LibraryEntry) (d : LibDisjoint) : P unit :=
  let n := Z.of_nat (length (e_params entry)) in
  ok ← (if (n <=? d_first d) || (n <=? d_second d) then mret false
        else
          t ← tried (validateTerm entry (d_length d) "'disjoint'");
          mret (bool_decide (is_Some t)));
  if (ok : bool) then mret tt else fail "'disjoint' names an argument past the row's parameters".

Definition is_void (r : Result) : bool := match r with RVoid => true | _ => false end.

Definition validateScan (entry : LibraryEntry) : P unit :=
  if existsb (fun p => bool_decide (is_Some (pa_scan p))) (e_params entry) then
    if is_void (e_result entry) then fail "'scan' needs a result"
    else if bool_decide (is_Some (e_wrapper entry)) then fail "'scan' excludes 'wrapper'"
    else mret tt
  else mret tt.

Definition validateFormat (entry : LibraryEntry) : P unit :=
  let n := Z.of_nat (length (e_params entry)) in
  match e_format entry with
  | Some f =>
    if (n <=? f_format f) || (negb (e_variadic entry) && (n <=? f_first f)) then
      fail "the format clause names an argument past the parameters"
    else mret tt
  | None => mret tt
  end.

Definition validateWrapper (entry : LibraryEntry) : P unit :=
  match e_wrapper entry with
  | Some wrapped =>
    if negb (String.eqb wrapped (e_name entry)) then
      fail ("'wrapper(" ++ wrapped ++ ")' must name the row")
    else mret tt
  | None => mret tt
  end.

Definition validateChk (entry : LibraryEntry) (chk : LibraryChk) : P unit :=
  for_each (c_argumentOf chk) (fun row =>
    if (0 <=? row) && negb (e_variadic entry) && (Z.of_nat (length (e_params entry)) <=? row) then
      fail ("alias '" ++ c_name chk ++ "' names an argument past the row's parameters")
    else mret tt).

Definition validateEntry (entry : LibraryEntry) : P unit :=
  for_each (imap pair (e_params entry)) (fun ip => validateParam entry (fst ip) (snd ip));;
  match e_value entry with
  | Some t => validateTerm entry t "the result"
  | None => mret tt
  end;;
  for_each (e_disjoint entry) (validateDisjoint entry);;
  validateFormat entry;;
  validateScan entry;;
  validateWrapper entry;;
  for_each (e_chk entry) (validateChk entry).

(** *** An entry *)

(** [do .. while (accept(','))], the parameters so far and whether the row is
    variadic. *)
Fixpoint parseParams (fuel : nat) (params : list LibraryParam) : P (list LibraryParam * bool) :=
  match fuel with
  | O => fun st => (None, st)
  | S fuel' =>
    dots ← accept "...";
    if (dots : bool) then mret (params, true)
    else
      p ← parseParam;
      more ← accept ",";
      if (more : bool) then parseParams fuel' (params ++ [p]) else mret (params ++ [p], false)
  end.

(** [while (!accept(';'))] *)
Fixpoint parseClauses (fuel : nat) (entry : LibraryEntry) : P LibraryEntry :=
  match fuel with
  | O => fun st => (None, st)
  | S fuel' =>
    done ← accept ";";
    if (done : bool) then mret entry
    else
      end_ ← atEnd;
      if (end_ : bool) then fail "expected ';' at the end of the entry"
      else
        clause ← word;
        if String.eqb clause "" then fail "expected a clause or ';'"
        else
          entry ← parseClause entry clause;
          parseClauses fuel' entry
  end.

Definition entryLine : P Z := fun st =>
  (Some (match p_line st with Some line => default 0 (head (ll_lines line)) | None => 0 end), st).

Definition parseEntry : P unit :=
  line ← entryLine;
  rowName ← name "a function name";
  update (fun st => with_entryName st rowName);;
  expect "(" "after the function name";;
  empty ← accept ")";
  params ← (if (empty : bool) then mret ([], false)
            else
              params ← with_fuel (fun fuel => parseParams fuel []);
              expect ")" "after the parameters";;
              mret params);
  arrow ← accept "->";
  if negb arrow then fail "expected '->' after the parameters"
  else
    entry ← parseResult (mkLibraryEntry rowName [] (fst params) (snd params) RVoid None []
                                        false None None line);
    entry ← with_fuel (fun fuel => parseClauses fuel entry);
    end_ ← atEnd;
    if negb end_ then fail "unexpected text after ';'"
    else
      validateEntry entry;;
      update (fun st => with_entryName (with_spec st (add_row (p_spec st) entry)) "").

(** *** A text *)

Fixpoint parseLines (lines : list LogicalLine) : P unit :=
  match lines with
  | [] => mret tt
  | line :: rest =>
    update (fun st => with_line st (Some line));;
    empty ← atEnd;
    (if (empty : bool) then mret tt else parseEntry);;
    parseLines rest
  end.

(** An alias of a row, indexed. *)
Definition addAlias (rowName : string) (row alias : nat) (chk : LibraryChk) : P unit := fun st =>
  let spec := p_spec st in
  if bool_decide (is_Some (byName spec !! c_name chk)) || bool_decide (is_Some (byAlias spec !! c_name chk))
  then fail ("alias '" ++ c_name chk ++ "' is already a row or an alias") (with_entryName st rowName)
  else (Some tt, with_spec st (mkLibrarySpec (rows spec) (byName spec)
                                             (<[c_name chk := (row, alias)]> (byAlias spec)))).

Definition indexRow (row : nat) (entry : LibraryEntry) : P unit :=
  for_each (imap pair (e_chk entry)) (fun ac => addAlias (e_name entry) row (fst ac) (snd ac)).

Definition parse (text : string) : P unit :=
  parseLines (logicalLines text);;
  update (fun st => with_line st None);;
  rows ← getRows;
  for_each (imap pair rows) (fun re => indexRow (fst re) (snd re)).

End Parser.

(** [LibrarySpec::parse]: the table, or the error. *)
Definition parse (text : string) : LibrarySpec + string :=
  let '(ok, st) := Parser.parse text (mkParser empty_spec "" None "" "") in
  match ok with
  | Some _ => inl (p_spec st)
  | None => inr (p_message st)
  end.

(** ** Lookup *)

Definition find (spec : LibrarySpec) (name : string) : option LibraryEntry :=
  match rowsOf spec name with
  | first :: _ => rows spec !! first
  | [] => None
  end.

Definition fits (entry : LibraryEntry) (arguments : nat) : bool :=
  if e_variadic entry then (length (e_params entry) <=? arguments)%nat
  else (arguments =? length (e_params entry))%nat.

(** The first of the rows [at_] the call's arguments fit. *)
Fixpoint fitting (spec : LibrarySpec) (at_ : list nat) (arguments : nat) : option LibraryEntry :=
  match at_ with
  | [] => None
  | row :: rest =>
    match rows spec !! row with
    | Some entry => if fits entry arguments then Some entry else fitting spec rest arguments
    | None => None
    end
  end.

(** A turn of the loop: [None] goes on to the next. *)
Definition lookupName (spec : LibrarySpec) (name : string) (arguments : option nat)
    : option LibraryMatch :=
  match byAlias spec !! name with
  | Some (row, alias) =>
    match rows spec !! row with
    | Some entry =>
      match e_chk entry !! alias with
      | Some chk => Some (mkLibraryMatch (Some entry) (Some chk))
      | None => None
      end
    | None => None
    end
  | None =>
    match rowsOf spec name with
    | [] => None
    | first :: _ =>
      match (match arguments with Some n => fitting spec (rowsOf spec name) n | None => None end) with
      | Some entry => Some (mkLibraryMatch (Some entry) None)
      | None =>
        match rows spec !! first with
        | Some entry => Some (mkLibraryMatch (Some entry) None)
        | None => None
        end
      end
    end
  end.

Definition lookup (spec : LibrarySpec) (callee : string) (arguments : option nat)
    : option LibraryMatch :=
  match lookupName spec callee arguments with
  | Some m => Some m
  | None =>
    match strip "__builtin_" callee with
    | Some name => lookupName spec name arguments
    | None => None
    end
  end.

(** ** Arguments of a fortified alias *)

Section Arguments.

Lemma findRow_spec map row i :
  match findRow map row i with
  | Some j => i <= j /\ map !! Z.to_nat (j - i) = Some row
  | None => row ∉ map
  end.
Proof.
  revert i. induction map as [|r map IH]; intros i; cbn; [by apply not_elem_of_nil|].
  destruct (Z.eqb_spec r row) as [->|Hne]; [split; [lia|]; by rewrite Z.sub_diag|].
  specialize (IH (i + 1)). destruct (findRow map row (i + 1)) as [j|].
  - destruct IH as [Hj Hm]. split; [lia|].
    replace (Z.to_nat (j - i)) with (S (Z.to_nat (j - (i + 1)))) by lia. done.
  - apply not_elem_of_cons. done.
Qed.

(** The two argument maps of a resolved call are inverse: the call
    argument [callArgument] names carries the row argument asked for, and
    every row argument a call argument becomes is carried by one. *)
Theorem arguments_inverse m :
  (forall r i, callArgument m r = i -> 0 <= i -> rowArgument m (Z.to_nat i) = Z.of_nat r)
  /\ (forall a r, rowArgument m a = Z.of_nat r -> 0 <= callArgument m r).
Proof.
  unfold callArgument, rowArgument. destruct (m_alias m) as [alias|].
  2:{ split; intros; lia. }
  set (map := c_argumentOf alias). split.
  - intros r i <-. pose proof (findRow_spec map (Z.of_nat r) 0) as Hf.
    destruct (findRow map (Z.of_nat r) 0) as [j|].
    + destruct Hf as [Hj Hm]. rewrite Z.sub_0_r in Hm. intros _. by rewrite Hm.
    + destruct (fixed m || bool_decide (map = []) || (back map <? 0)) eqn:E; cbn [orb]; [lia|].
      destruct (Z.leb_spec (Z.of_nat r) (back map)); [lia|]. intros _.
      rewrite lookup_ge_None_2 by lia. lia.
  - intros a r. pose proof (findRow_spec map (Z.of_nat r) 0) as Hf.
    destruct (findRow map (Z.of_nat r) 0) as [j|]; [lia|].
    destruct (map !! a) as [row|] eqn:Ea.
    + intros ->. exfalso. apply Hf. by eapply list_elem_of_lookup_2.
    + apply lookup_ge_None_1 in Ea.
      destruct (fixed m || bool_decide (map = []) || (back map <? 0)) eqn:E; cbn [orb]; [lia|].
      intros Hr. destruct (Z.leb_spec (Z.of_nat r) (back map)); lia.
Qed.
End Arguments.

(** ** Logical lines *)

Definition line_ok (n : Z) (l : LogicalLine) : Prop :=
  String.length (ll_text l) = length (ll_lines l) /\ Forall (fun x => 1 <= x < n) (ll_lines l).

Lemma string_length_app a b :
  String.length (a ++ b) = (String.length a + String.length b)%nat.
Proof.
  induction a as [|c a IH]; [done|].
  change (S (String.length (a ++ b)) = S (String.length a + String.length b)). by rewrite IH.
Qed.

Lemma spaces_for_tabs_length text : String.length (spaces_for_tabs text) = String.length text.
Proof. induction text as [|c text IH]; cbn; [done|]. by rewrite IH. Qed.

Lemma line_ok_mono n n' l : n <= n' -> line_ok n l -> line_ok n' l.
Proof.
  intros Hn [Hl Hf]. split; [done|]. eapply List.Forall_impl; [|exact Hf]. cbn. lia.
Qed.

Lemma join_ok current text number :
  1 <= number -> line_ok number current -> line_ok (number + 1) (join current text number).
Proof.
  intros Hn [Hl Hf]. unfold line_ok, join. cbn [ll_text ll_lines].
  rewrite string_length_app, spaces_for_tabs_length, length_app, length_replicate. split; [lia|].
  apply Forall_app. split; [eapply List.Forall_impl; [|exact Hf]; cbn; lia|].
  apply Forall_replicate. lia.
Qed.

Lemma logicalFrom_ok physical number current :
  1 <= number -> line_ok number current ->
  Forall (line_ok (number + Z.of_nat (length physical))) (logicalFrom physical number current).
Proof.
  revert number current. induction physical as [|line rest IH]; intros number current Hn Hc.
  { cbn. case_match; constructor; [|done]. by rewrite Z.add_0_r. }
  cbn [logicalFrom length]. rewrite Nat2Z.inj_succ.
  destruct (cutContinuation _) as [continues text].
  pose proof (join_ok current text number Hn Hc) as Hj.
  replace (number + Z.succ (Z.of_nat (length rest))) with (number + 1 + Z.of_nat (length rest)) by lia.
  destruct continues; [apply IH; [lia|]|constructor; [|apply IH; [lia|split; [done|constructor]]]].
  - destruct Hj as [Hl Hf]. unfold line_ok. cbn [ll_text ll_lines].
    rewrite string_length_app, length_app, Hl. split; [done|].
    apply Forall_app. split; [done|]. constructor; [lia|constructor].
  - eapply line_ok_mono; [|exact Hj]. lia.
Qed.

Lemma physicalLines_length text :
  Z.of_nat (length (physicalLines text))
  = 1 + Z.of_nat (length (filter (fun c => c = newline) (list_ascii_of_string text))).
Proof.
  induction text as [|c text IH]; [done|]. cbn [physicalLines list_ascii_of_string].
  rewrite filter_cons. destruct (Ascii.eqb_spec c newline) as [->|Hne].
  - rewrite decide_True by done. cbn [length]. lia.
  - rewrite decide_False by done. destruct (physicalLines text); cbn in *; lia.
Qed.

(** Every character of a logical line knows its physical line: a logical
    line has one line number per character, between 1 and the number of lines
    of the text. *)
Theorem logicalLines_numbered text :
  Forall (line_ok (2 + Z.of_nat (length (filter (fun c => c = newline) (list_ascii_of_string text)))))
         (logicalLines text).
Proof.
  unfold logicalLines. pose proof (logicalFrom_ok (physicalLines text) 1 (mkLogicalLine "" [])) as H.
  rewrite physicalLines_length in H. eapply List.Forall_impl; [|apply H; [lia|]].
  - intros l. apply line_ok_mono. lia.
  - split; [done|constructor].
Qed.
