(* ===== verification/LibraryParse.v ===== *)
(** * The parser of the C library table is loud, and builds a valid table

    Theorems about [LibrarySpecParser] of the file LibrarySpec: every text it
    rejects is rejected with a located message ([parse_loud], which also shows
    that the fuel of its loops never runs out), every row it accepts is valid
    ([parse_valid]), the index it builds names every row and alias, and a
    lookup finds them ([lookup_sound], [lookup_alias], [lookup_row]). *)

From stdpp Require Import gmap strings.
From Stdlib Require Import String Ascii Sorted.
From S2P Require Import Prelude LibTerm LibrarySpec.
Local Open Scope Z_scope.
Import Parser.

(** ** A failure is located *)

Section Loud.

Definition located (message : string) : Prop :=
  exists why, message = ("LibrarySpec.txt:" ++ why)%string.

(** No failure yet, or a located one. *)
Definition msg_ok (st : parser) : Prop := p_message st = EmptyString \/ located (p_message st).

Definition left_ (st : parser) : nat := String.length (p_rest st).

(** On at most [N] characters, [c] reads at least [k] to answer, or fails
    with a located message. *)
Definition loud {A} (N k : nat) (c : P A) : Prop :=
  forall st, msg_ok st -> (left_ st <= N)%nat ->
  match c st with
  | (Some _, st') => msg_ok st' /\ (left_ st' + k <= left_ st)%nat
  | (None, st') => located (p_message st')
  end.

Lemma loud_weaken {A} N k j (c : P A) : loud N k c -> (j <= k)%nat -> loud N j c.
Proof.
  intros Hc Hj st Hm Hn. specialize (Hc st Hm Hn).
  destruct (c st) as [[a|] st']; [|done]. destruct Hc. split; [done|lia].
Qed.

Lemma loud_bind {A B} N k j (c : P A) (f : A -> P B) :
  loud N k c -> (forall a, (k <= N)%nat -> loud (N - k) (j - k) (f a)) -> loud N j (c ≫= f).
Proof.
  intros Hc Hf st Hm Hn. specialize (Hc st Hm Hn). unfold mbind, P_bind.
  destruct (c st) as [[a|] st']; [|done]. destruct Hc as [Hm' Hl].
  specialize (Hf a ltac:(lia) st' Hm' ltac:(lia)).
  destruct (f a st') as [[b|] st'']; [|done]. destruct Hf. split; [done|lia].
Qed.

Lemma loud_fail {A} N k why : loud N k (fail (A:=A) why).
Proof.
  intros st Hm Hn. unfold fail. destruct (String.eqb_spec (p_message st) "") as [He|Hne]; cbn [negb].
  - cbn. eexists. reflexivity.
  - by destruct Hm.
Qed.

Lemma fail_run {A} why st :
  msg_ok st -> exists st', fail (A:=A) why st = (None, st') /\ located (p_message st').
Proof.
  intros Hm. pose proof (loud_fail (A:=A) (left_ st) 0 why st Hm (le_n _)) as Hl.
  unfold fail in *. eexists. split; [reflexivity|exact Hl].
Qed.

Lemma loud_ret {A} N (a : A) : loud N 0 (mret a : P A).
Proof. intros st Hm Hn. cbn. split; [done|lia]. Qed.

Lemma with_rest_ok st text : msg_ok st -> msg_ok (with_rest st text).
Proof. done. Qed.

Lemma loud_accept {B} N j token (f : bool -> P B) :
  ((String.length token <= N)%nat ->
   loud (N - String.length token) (j - String.length token) (f true)) ->
  loud N j (f false) -> loud N j (accept token ≫= f).
Proof.
  intros Ht Hf st Hm Hn. unfold mbind, P_bind, accept, left_ in *.
  pose proof (skipSpaces_length (p_rest st)) as Hs.
  destruct (strip token (skipSpaces (p_rest st))) as [text|] eqn:E.
  - apply strip_length in E.
    specialize (Ht ltac:(lia) (with_rest st text) ltac:(by apply with_rest_ok) ltac:(unfold left_; cbn; lia)).
    destruct (f true _) as [[b|] st']; [|done]. destruct Ht. split; [done|]. unfold left_ in *. cbn in *. lia.
  - specialize (Hf (with_rest st (skipSpaces (p_rest st))) ltac:(by apply with_rest_ok)
                  ltac:(unfold left_; cbn; lia)).
    destruct (f false _) as [[b|] st']; [|done]. destruct Hf. split; [done|]. unfold left_ in *. cbn in *. lia.
Qed.

Lemma loud_expect N c context : loud N (String.length c) (expect c context).
Proof.
  unfold expect. apply loud_accept; [|apply loud_fail].
  intros _. eapply loud_weaken; [apply loud_ret|lia].
Qed.

(** A step that answers and only moves the position forward. *)
Lemma loud_move {A} N (c : P A) :
  (forall st, exists a text, c st = (Some a, with_rest st text)
                             /\ (String.length text <= left_ st)%nat) -> loud N 0 c.
Proof.
  intros Hc st Hm Hn. destruct (Hc st) as (a & text & -> & Hl).
  split; [by apply with_rest_ok|]. unfold left_ in *. cbn. lia.
Qed.

Lemma loud_skipSpace N : loud N 0 skipSpace.
Proof.
  apply loud_move. intros st. exists tt, (skipSpaces (p_rest st)).
  split; [done|apply skipSpaces_length].
Qed.

Lemma loud_atEnd N : loud N 0 atEnd.
Proof.
  apply loud_move. intros st. unfold atEnd. do 2 eexists. split; [reflexivity|apply skipSpaces_length].
Qed.

Lemma with_rest_same st : with_rest st (p_rest st) = st.
Proof. by destruct st. Qed.

Lemma loud_rest_is_open N : loud N 0 rest_is_open.
Proof.
  apply loud_move. intros st. unfold rest_is_open. do 2 eexists.
  split; [by rewrite with_rest_same|unfold left_; lia].
Qed.

Lemma loud_entryLine N : loud N 0 entryLine.
Proof.
  apply loud_move. intros st. unfold entryLine. do 2 eexists.
  split; [by rewrite with_rest_same|unfold left_; lia].
Qed.

Lemma spanWord_length text :
  (String.length (fst (spanWord text)) + String.length (snd (spanWord text)) = String.length text)%nat.
Proof.
  induction text as [|c text IH]; [done|]. cbn [spanWord].
  destruct (_ || _); [|done]. destruct (spanWord text) as [w r]. cbn in *. lia.
Qed.

(** A word reads its characters. *)
Lemma loud_word {B} N j (f : string -> P B) :
  (forall w, (String.length w <= N)%nat -> loud (N - String.length w) (j - String.length w) (f w)) ->
  loud N j (word ≫= f).
Proof.
  intros Hf st Hm Hn. unfold mbind, P_bind, word, left_ in *.
  pose proof (skipSpaces_length (p_rest st)) as Hs.
  pose proof (spanWord_length (skipSpaces (p_rest st))) as Hl.
  destruct (spanWord _) as [w r]. cbn in Hl.
  specialize (Hf w ltac:(lia) (with_rest st r) ltac:(by apply with_rest_ok) ltac:(unfold left_; cbn; lia)).
  destruct (f w _) as [[b|] st']; [|done]. destruct Hf. split; [done|]. unfold left_ in *. cbn in *. lia.
Qed.

Lemma loud_word_0 N : loud N 0 word.
Proof.
  apply loud_move. intros st. unfold word, left_.
  pose proof (skipSpaces_length (p_rest st)) as Hs.
  pose proof (spanWord_length (skipSpaces (p_rest st))) as Hl.
  destruct (spanWord _) as [w r]. cbn in Hl. do 2 eexists. split; [reflexivity|lia].
Qed.

Lemma loud_name N what : loud N 1 (name what).
Proof.
  unfold name. apply loud_word. intros w Hw. destruct (isIdentifier w) eqn:E; [|apply loud_fail].
  destruct w as [|c w]; [done|]. eapply loud_weaken; [apply loud_ret|cbn; lia].
Qed.

Lemma indexFrom_length value text :
  (String.length (snd (indexFrom value text)) <= String.length text)%nat.
Proof.
  revert value. induction text as [|c text IH]; intros value; cbn [indexFrom]; [done|].
  destruct (_ && _); [|done]. etransitivity; [apply IH|]. cbn. lia.
Qed.

Lemma loud_index N what : loud N 1 (index what).
Proof.
  intros st Hm Hn. unfold index. pose proof (skipSpaces_length (p_rest st)) as Hs.
  pose proof (indexFrom_length 0 (skipSpaces (p_rest st))) as Hl.
  destruct (indexFrom 0 (skipSpaces (p_rest st))) as [v r]. cbn in Hl.
  destruct (Nat.eqb_spec (String.length r) (String.length (skipSpaces (p_rest st)))).
  { by destruct (fail_run (A:=Z) ("expected " ++ what) (with_rest st r) Hm) as (st' & -> & ?). }
  destruct (255 <? v).
  { by destruct (fail_run (A:=Z) (what ++ " out of range") (with_rest st r) Hm) as (st' & -> & ?). }
  split; [by apply with_rest_ok|]. unfold left_. cbn. lia.
Qed.

Lemma loud_term N where_ : loud N 1 (term where_).
Proof.
  intros st Hm Hn. unfold term.
  pose proof (sum_forward (readFuel (p_rest st)) (mkReader (p_rest st) "")) as Hr.
  change (sum (readFuel (p_rest st)) (mkReader (p_rest st) ""))
    with (read (mkReader (p_rest st) "")) in Hr.
  destruct (read (mkReader (p_rest st) "")) as [[t|] r].
  - split; [by apply with_rest_ok|]. unfold left_, unread in *. cbn in *. lia.
  - set (why := (message r ++ _)%string).
    by destruct (fail_run (A:=LibTerm) why (with_rest st (rest r)) Hm) as (st' & -> & ?).
Qed.

Lemma loud_parenthesisedTerm N flag : loud N 1 (parenthesisedTerm flag).
Proof.
  unfold parenthesisedTerm. eapply loud_bind; [apply loud_expect|intros _ ?]. cbn [String.length Nat.sub].
  eapply loud_bind; [apply loud_term|intros t ?].
  eapply loud_bind; [apply loud_expect|intros _ ?].
  eapply loud_weaken; [apply loud_ret|cbn; lia].
Qed.

(** What is loud on any text is loud on [with_fuel]. *)
Lemma loud_with_fuel {A} N k (c : nat -> P A) : (forall M, loud M k (c (S M))) -> loud N k (with_fuel c).
Proof. intros Hc st Hm Hn. unfold with_fuel. by apply Hc. Qed.

Lemma loud_for_each {A} N (l : list A) (f : A -> P unit) :
  (forall a, loud N 0 (f a)) -> loud N 0 (for_each l f).
Proof.
  intros Hf. induction l as [|a l IH]; [apply loud_ret|]. cbn [for_each].
  eapply loud_bind; [apply Hf|intros _ ?]. by rewrite Nat.sub_0_r.
Qed.

(** A check that is made without an effect on the position. *)
Lemma loud_tried {A B} N (c : P A) (f : option A -> P B) :
  loud N 0 c -> (forall st, left_ (snd (c st)) = left_ st) -> (forall a, loud N 0 (f a)) ->
  loud N 0 (tried c ≫= f).
Proof.
  intros Hc Hl Hf st Hm Hn. unfold mbind, P_bind, tried. specialize (Hc st Hm Hn). specialize (Hl st).
  destruct (c st) as [[a|] st']; cbn in Hl.
  - destruct Hc as [Hm' _]. rewrite <- Hl. apply Hf; [done|lia].
  - rewrite <- Hl. apply Hf; [by right|lia].
Qed.
End Loud.

(** Reads on, or fails with a message, by the parts of the method. *)
Ltac loud :=
  repeat first
    [ apply loud_fail
    | match goal with |- loud _ _ (mret _) => eapply loud_weaken; [apply loud_ret|cbn; lia] end
    | apply loud_accept; [intros ?; cbn [String.length] in *|]
    | apply loud_word; intros ? ?
    | eapply loud_bind; [apply loud_expect|intros [] ?]
    | eapply loud_bind; [apply loud_parenthesisedTerm|intros ? ?]
    | eapply loud_bind; [apply loud_term|intros ? ?]
    | eapply loud_bind; [apply loud_index|intros ? ?]
    | eapply loud_bind; [apply loud_name|intros ? ?]
    | eapply loud_bind; [apply loud_skipSpace|intros [] ?]
    | eapply loud_bind; [apply loud_atEnd|intros ? ?]
    | eapply loud_bind; [apply loud_rest_is_open|intros ? ?]
    | match goal with |- loud _ _ (if ?b then _ else _) => destruct b eqn:? end ].

Lemma loud_paramFlag N p flag : loud N 0 (paramFlag p flag).
Proof. unfold paramFlag. loud. Qed.

Lemma loud_paramFlags m n p seen : (n < m)%nat -> loud n 0 (paramFlags m p seen).
Proof.
  revert n p seen. induction m as [|m IH]; intros n p seen Hn; [lia|]. cbn [paramFlags]. loud.
  eapply loud_bind; [apply loud_paramFlag|intros q ?]. apply IH. lia.
Qed.

Lemma loud_checkParam N p seen : loud N 0 (checkParam p seen).
Proof. unfold checkParam. loud. Qed.

Lemma loud_parseParam N : loud N 0 parseParam.
Proof.
  unfold parseParam. loud; try (by eapply loud_weaken; [apply loud_ret|lia]).
  eapply (loud_bind _ 0); [loud|intros access ?]. cbn [Nat.sub].
  eapply (loud_bind _ 0); [apply loud_with_fuel; intros M; apply loud_paramFlags; lia|intros flags ?].
  apply loud_checkParam.
Qed.

Lemma loud_parseParams m n params : (n < m)%nat -> loud n 0 (parseParams m params).
Proof.
  revert n params. induction m as [|m IH]; intros n params Hn; [lia|]. cbn [parseParams]. loud.
  eapply loud_bind; [apply loud_parseParam|intros p ?]. loud. apply IH. lia.
Qed.

Lemma loud_parseResult N entry : loud N 0 (parseResult entry).
Proof. unfold parseResult. loud. Qed.

Lemma loud_chkArgument N chk : loud N 0 (chkArgument chk).
Proof. unfold chkArgument. loud. Qed.

Lemma loud_chkArguments m n chk : (n < m)%nat -> loud n 0 (chkArguments m chk).
Proof.
  revert n chk. induction m as [|m IH]; intros n chk Hn; [lia|]. cbn [chkArguments].
  eapply loud_bind; [apply loud_chkArgument|intros c ?]. loud. apply IH. lia.
Qed.

Lemma loud_parseClause N entry clause : loud N 0 (parseClause entry clause).
Proof.
  unfold parseClause, parseDisjoint, parseFormat, parseWrapper, parseChk. loud.
  eapply (loud_bind _ 0); [apply loud_with_fuel; intros M; apply loud_chkArguments; lia|intros chk ?]. loud.
Qed.

Lemma loud_parseClauses m n entry : (n < m)%nat -> loud n 0 (parseClauses m entry).
Proof.
  revert n entry. induction m as [|m IH]; intros n entry Hn; [lia|]. cbn [parseClauses]. loud.
  eapply loud_bind; [apply loud_parseClause|intros e ?]. apply IH.
  match goal with He : String.eqb ?w "" = false |- _ => destruct w; [done|cbn in *; lia] end.
Qed.

Lemma loud_validateTerm N entry t where_ : loud N 0 (validateTerm entry t where_).
Proof.
  revert N. induction t; intros N; cbn [validateTerm]; unfold validateArg; loud; auto;
    try (eapply (loud_bind _ 0); [loud; auto|intros [] ?]; rewrite ?Nat.sub_0_r; loud; auto).
Qed.

(** ** What the validation accepts *)

(** A method that only checks: it answers without an effect exactly when [b],
    and fails without moving else. *)
Definition checks (b : bool) (c : P unit) : Prop :=
  forall st, if b then c st = (Some tt, st)
             else exists st', c st = (None, st') /\ left_ st' = left_ st.

Lemma checks_ret : checks true (mret tt).
Proof. done. Qed.

Lemma checks_fail why : checks false (fail why).
Proof. intros st. unfold fail. eexists. split; [reflexivity|]. by case_match. Qed.

Lemma checks_if (b b1 b2 : bool) (c1 c2 : P unit) :
  checks b1 c1 -> checks b2 c2 -> checks (if b then b1 else b2) (if b then c1 else c2).
Proof. by destruct b. Qed.

Lemma checks_bind b1 b2 (c1 c2 : P unit) : checks b1 c1 -> checks b2 c2 -> checks (b1 && b2) (c1;; c2).
Proof.
  intros H1 H2 st. specialize (H1 st). unfold mbind, P_bind. destruct b1; cbn [andb].
  - rewrite H1. apply H2.
  - by destruct H1 as (st' & -> & ?); eauto.
Qed.

Lemma checks_for_each {A} (l : list A) (p : A -> bool) (f : A -> P unit) :
  (forall a, checks (p a) (f a)) -> checks (forallb p l) (for_each l f).
Proof.
  intros Hf. induction l as [|a l IH]; [apply checks_ret|]. cbn. by apply checks_bind.
Qed.

(** The argument is one of the row's parameters. *)
Definition arg_ok (entry : LibraryEntry) (arg : Z) : bool := arg <? Z.of_nat (length (e_params entry)).

Fixpoint term_ok (entry : LibraryEntry) (t : LibTerm) : bool :=
  match t with
  | Constant _ => true
  | Argument arg => arg_ok entry arg
  | StringLength arg => arg_ok entry arg && is_pointer (param entry (Z.to_nat arg))
  | Difference l _ | Quotient l _ => term_ok entry l
  | Product l r | Sum l r | Min l r => term_ok entry l && term_ok entry r
  end.

Definition opt_ok {A} (p : A -> bool) (a : option A) : bool :=
  match a with Some a => p a | None => true end.

Definition param_terms_ok (entry : LibraryEntry) (p : LibraryParam) : bool :=
  opt_ok (term_ok entry) (pa_bytes p) && opt_ok (term_ok entry) (pa_count p)
  && opt_ok (term_ok entry) (pa_zeroTerm p) && opt_ok (term_ok entry) (pa_scan p)
  && (e_wide entry || negb (bool_decide (is_Some (pa_count p)))).

Definition disjoint_ok (entry : LibraryEntry) (d : LibDisjoint) : bool :=
  arg_ok entry (d_first d) && arg_ok entry (d_second d) && term_ok entry (d_length d).

Definition format_ok (entry : LibraryEntry) (f : LibFormat) : bool :=
  arg_ok entry (f_format f) && (e_variadic entry || arg_ok entry (f_first f)).

Definition scan_ok (entry : LibraryEntry) : bool :=
  negb (existsb (fun p => bool_decide (is_Some (pa_scan p))) (e_params entry))
  || (negb (is_void (e_result entry)) && negb (bool_decide (is_Some (e_wrapper entry)))).

Definition chk_ok (entry : LibraryEntry) (c : LibraryChk) : bool :=
  forallb (fun row => (row <? 0) || e_variadic entry || arg_ok entry row) (c_argumentOf c).

(** What the table promises of a row. *)
Definition entry_ok (entry : LibraryEntry) : bool :=
  forallb (param_terms_ok entry) (e_params entry)
  && opt_ok (term_ok entry) (e_value entry)
  && forallb (disjoint_ok entry) (e_disjoint entry)
  && opt_ok (format_ok entry) (e_format entry)
  && scan_ok entry
  && opt_ok (fun w => String.eqb w (e_name entry)) (e_wrapper entry)
  && forallb (chk_ok entry) (e_chk entry).

Lemma checks_eq b b' c : checks b c -> b = b' -> checks b' c.
Proof. by intros ? <-. Qed.

Lemma checks_arg entry arg where_ : checks (arg_ok entry arg) (validateArg entry arg where_).
Proof.
  unfold validateArg, arg_ok. rewrite Z.ltb_antisym.
  eapply checks_eq; [apply checks_if; [apply checks_fail|apply checks_ret]|]. by destruct (_ <=? _).
Qed.

Lemma checks_term entry t where_ : checks (term_ok entry t) (validateTerm entry t where_).
Proof.
  induction t; cbn [validateTerm term_ok]; auto using checks_bind, checks_ret, checks_arg.
  apply checks_bind; [apply checks_arg|].
  eapply checks_eq; [apply checks_if; [apply checks_fail|apply checks_ret]|].
  by destruct (is_pointer _).
Qed.

Lemma checks_opt entry (t : option LibTerm) where_ :
  checks (opt_ok (term_ok entry) t)
         (match t with Some t => validateTerm entry t where_ | None => mret tt end).
Proof. destruct t; [apply checks_term|apply checks_ret]. Qed.

Lemma checks_param entry i p : checks (param_terms_ok entry p) (validateParam entry i p).
Proof.
  unfold validateParam, param_terms_ok.
  eapply checks_eq.
  - apply checks_bind.
    + apply checks_for_each. intros value. apply checks_opt.
    + apply checks_if; [apply checks_fail|apply checks_ret].
  - cbn [forallb]. rewrite andb_true_r, !andb_assoc. f_equal.
    by destruct (bool_decide _), (e_wide entry).
Qed.

Lemma checks_disjoint entry d : checks (disjoint_ok entry d) (validateDisjoint entry d).
Proof.
  intros st. unfold validateDisjoint, disjoint_ok, arg_ok. rewrite !Z.ltb_antisym, <- negb_orb.
  destruct (_ || _); cbn [negb andb]; [apply checks_fail|].
  unfold mbind, P_bind, tried. pose proof (checks_term entry (d_length d) "'disjoint'" st) as Ht.
  destruct (term_ok entry (d_length d)); [by rewrite Ht|].
  destruct Ht as (st' & -> & <-). apply checks_fail.
Qed.

Lemma forallb_imap {A B} (l : list A) (f : nat -> A -> B) (p : A -> bool) (q : B -> bool) :
  (forall i a, q (f i a) = p a) -> forallb q (imap f l) = forallb p l.
Proof.
  revert f. induction l as [|a l IH]; intros f Hf; [done|]. cbn.
  rewrite Hf. f_equal. apply IH. intros i a'. apply Hf.
Qed.

Lemma checks_imap {A} (l : list A) (p : A -> bool) (f : nat * A -> P unit) :
  (forall i a, checks (p a) (f (i, a))) -> checks (forallb p l) (for_each (imap pair l) f).
Proof.
  intros Hf. rewrite <- (forallb_imap l pair p (fun ia => p ia.2)) by done.
  apply checks_for_each. intros [i a]. apply Hf.
Qed.

Lemma checks_format entry : checks (opt_ok (format_ok entry) (e_format entry)) (validateFormat entry).
Proof.
  unfold validateFormat. destruct (e_format entry) as [f|]; [|apply checks_ret].
  cbn [opt_ok]. unfold format_ok, arg_ok. rewrite !Z.ltb_antisym.
  eapply checks_eq; [apply checks_if; [apply checks_fail|apply checks_ret]|].
  by destruct (e_variadic entry), (_ <=? f_format f), (_ <=? f_first f).
Qed.

Lemma checks_scan entry : checks (scan_ok entry) (validateScan entry).
Proof.
  unfold validateScan, scan_ok.
  eapply checks_eq; [apply checks_if; [apply checks_if; [apply checks_fail|
    apply checks_if; [apply checks_fail|apply checks_ret]]|apply checks_ret]|].
  by destruct (existsb _ _), (is_void _), (bool_decide _).
Qed.

Lemma checks_wrapper entry :
  checks (opt_ok (fun w => String.eqb w (e_name entry)) (e_wrapper entry)) (validateWrapper entry).
Proof.
  unfold validateWrapper. destruct (e_wrapper entry) as [w|]; [|apply checks_ret].
  eapply checks_eq; [apply checks_if; [apply checks_fail|apply checks_ret]|].
  cbn. by destruct (String.eqb w _).
Qed.

Lemma checks_chk entry c : checks (chk_ok entry c) (validateChk entry c).
Proof.
  apply checks_for_each. intros row.
  eapply checks_eq; [apply checks_if; [apply checks_fail|apply checks_ret]|].
  unfold arg_ok. rewrite (Z.ltb_antisym 0 row), (Z.ltb_antisym _ row).
  by destruct (0 <=? row), (e_variadic entry), (_ <=? row).
Qed.

Lemma checks_entry entry : checks (entry_ok entry) (validateEntry entry).
Proof.
  unfold validateEntry, entry_ok. rewrite <- !andb_assoc.
  repeat apply checks_bind.
  - apply checks_imap. intros i a. apply checks_param.
  - apply checks_opt.
  - apply checks_for_each, checks_disjoint.
  - apply checks_format.
  - apply checks_scan.
  - apply checks_wrapper.
  - apply checks_for_each, checks_chk.
Qed.

(** ** Every rejected text is rejected with a message *)

Lemma loud_validateParam N entry i p : loud N 0 (validateParam entry i p).
Proof.
  unfold validateParam. eapply (loud_bind _ 0); [apply loud_for_each|intros [] ?; loud].
  intros [t|]; [apply loud_validateTerm|apply loud_ret].
Qed.

Lemma loud_validateDisjoint N entry d : loud N 0 (validateDisjoint entry d).
Proof.
  unfold validateDisjoint. eapply (loud_bind _ 0); [|intros ok ?; loud].
  loud. apply loud_tried; [apply loud_validateTerm| |intros a; loud].
  intros st. pose proof (checks_term entry (d_length d) "'disjoint'" st) as Ht.
  destruct (term_ok _ _); [by rewrite Ht|]. by destruct Ht as (st' & -> & ?).
Qed.

Lemma loud_validateEntry N entry : loud N 0 (validateEntry entry).
Proof.
  unfold validateEntry, validateFormat, validateScan, validateWrapper, validateChk.
  eapply (loud_bind _ 0); [apply loud_for_each; intros; apply loud_validateParam|intros [] ?].
  eapply (loud_bind _ 0); [destruct (e_value entry); [apply loud_validateTerm|loud]|intros [] ?].
  eapply (loud_bind _ 0); [apply loud_for_each; intros; apply loud_validateDisjoint|intros [] ?].
  eapply (loud_bind _ 0); [destruct (e_format entry); loud|intros [] ?].
  eapply (loud_bind _ 0); [loud|intros [] ?].
  eapply (loud_bind _ 0); [destruct (e_wrapper entry); loud|intros [] ?].
  apply loud_for_each. intros c. apply loud_for_each. intros row. loud.
Qed.

Lemma loud_update N (f : parser -> parser) :
  (forall st, p_message (f st) = p_message st /\ p_rest (f st) = p_rest st) -> loud N 0 (update f).
Proof.
  intros Hf st Hm Hn. destruct (Hf st) as [H1 H2]. cbn.
  unfold msg_ok, left_. rewrite H1, H2. split; [done|lia].
Qed.

Lemma loud_parseEntry N : loud N 0 parseEntry.
Proof.
  unfold parseEntry.
  eapply (loud_bind _ 0); [apply loud_entryLine|intros line ?].
  eapply (loud_bind _ 1); [apply loud_name|intros rowName ?].
  eapply (loud_bind _ 0); [by apply loud_update|intros [] ?].
  eapply (loud_bind _ 1); [apply loud_expect|intros [] ?].
  apply loud_accept; [intros ?|].
  1: eapply (loud_bind _ 0); [apply loud_ret|intros params ?].
  2: eapply (loud_bind _ 0);
    [ eapply (loud_bind _ 0);
      [apply loud_with_fuel; intros M; apply loud_parseParams; lia|intros ps ?; loud]
    | intros params ? ].
  all: apply loud_accept; [intros ?; cbn [negb]|apply loud_fail].
  all: eapply (loud_bind _ 0); [apply loud_parseResult|intros e ?].
  all: eapply (loud_bind _ 0); [apply loud_with_fuel; intros M; apply loud_parseClauses; lia|
                                intros e' ?].
  all: eapply (loud_bind _ 0); [apply loud_atEnd|intros [] ?; [|apply loud_fail]].
  all: eapply (loud_bind _ 0); [apply loud_validateEntry|intros [] ?]; by apply loud_update.
Qed.

(** Where the position does not matter. *)
Definition says {A} (c : P A) : Prop :=
  forall st, msg_ok st -> match c st with
  | (Some _, st') => msg_ok st'
  | (None, st') => located (p_message st')
  end.

Lemma loud_says {A} (c : P A) : (forall N, loud N 0 c) -> says c.
Proof.
  intros Hc st Hm. specialize (Hc (left_ st) st Hm (le_n _)).
  destruct (c st) as [[a|] st']; [|done]. apply Hc.
Qed.

Lemma says_bind {A B} (c : P A) (f : A -> P B) :
  says c -> (forall a, says (f a)) -> says (c ≫= f).
Proof.
  intros Hc Hf st Hm. specialize (Hc st Hm). unfold mbind, P_bind.
  destruct (c st) as [[a|] st']; [|done]. by apply Hf.
Qed.

Lemma says_update (f : parser -> parser) :
  (forall st, p_message (f st) = p_message st) -> says (update f).
Proof. intros Hf st Hm. cbn. unfold msg_ok. by rewrite Hf. Qed.

Lemma says_for_each {A} (l : list A) (f : A -> P unit) :
  (forall a, says (f a)) -> says (for_each l f).
Proof.
  intros Hf. induction l as [|a l IH]; [by intros st|]. cbn. apply says_bind; [done|by intros []].
Qed.

Lemma says_parseLines lines : says (parseLines lines).
Proof.
  induction lines as [|line rest IH]; [by intros st|]. cbn [parseLines].
  apply says_bind; [by apply says_update|intros []].
  apply says_bind; [apply loud_says; intros; apply loud_atEnd|intros empty].
  apply says_bind; [|by intros []].
  destruct empty; [by intros st|]. apply loud_says. intros; apply loud_parseEntry.
Qed.

Lemma says_addAlias rowName row alias chk : says (addAlias rowName row alias chk).
Proof.
  intros st Hm. unfold addAlias. destruct (_ || _); [|done].
  by destruct (fail_run (A:=unit) ("alias '" ++ c_name chk ++ "' is already a row or an alias")
                 (with_entryName st rowName) Hm) as (st' & -> & ?).
Qed.

Lemma says_parse text : says (Parser.parse text).
Proof.
  unfold Parser.parse. apply says_bind; [apply says_parseLines|intros []].
  apply says_bind; [by apply says_update|intros []].
  apply says_bind; [by intros st|intros rs]. apply says_for_each. intros re.
  apply says_for_each. intros ac. apply says_addAlias.
Qed.

(** A text the parser rejects is rejected with a message that says where,
    whatever the text: no loop of the parser ends for want of fuel. *)
Theorem parse_loud text error :
  LibrarySpec.parse text = inr error -> exists why, error = ("LibrarySpec.txt:" ++ why)%string.
Proof.
  unfold LibrarySpec.parse. intros He.
  pose proof (says_parse text (mkParser empty_spec "" None "" "") ltac:(by left)) as Hs.
  destruct (Parser.parse text _) as [[[]|] st]; [done|]. injection He as <-. exact Hs.
Qed.

(** ** The table built is valid *)

(** A method that leaves the table alone. *)
Definition keeps {A} (c : P A) : Prop := forall st, p_spec (snd (c st)) = p_spec st.

Lemma keeps_bind {A B} (c : P A) (f : A -> P B) : keeps c -> (forall a, keeps (f a)) -> keeps (c ≫= f).
Proof.
  intros Hc Hf st. unfold mbind, P_bind. specialize (Hc st).
  destruct (c st) as [[a|] st']; cbn in *; [|done]. rewrite <- Hc. apply Hf.
Qed.

Lemma keeps_fail {A} why : keeps (fail (A:=A) why).
Proof. intros st. unfold fail. cbn. by case_match. Qed.
Lemma keeps_ret {A} (a : A) : keeps (mret a : P A).
Proof. done. Qed.
Lemma keeps_accept token : keeps (accept token).
Proof. intros st. unfold accept. by case_match. Qed.
Lemma keeps_word : keeps word.
Proof. intros st. unfold word. by destruct (spanWord _). Qed.
Lemma keeps_index what : keeps (index what).
Proof.
  intros st. unfold index. destruct (indexFrom 0 _) as [v r].
  repeat case_match; try apply (keeps_fail _ (with_rest st r)); done.
Qed.
Lemma keeps_term where_ : keeps (term where_).
Proof.
  intros st. unfold term. destruct (read _) as [[t|] r]; [done|].
  apply (keeps_fail _ (with_rest st (rest r))).
Qed.
Lemma keeps_with_fuel {A} (c : nat -> P A) : (forall n, keeps (c n)) -> keeps (with_fuel c).
Proof. intros Hc st. apply Hc. Qed.
Lemma keeps_out {A} : keeps (fun st => (@None A, st)).
Proof. done. Qed.
Lemma keeps_tried {A} (c : P A) : keeps c -> keeps (tried c).
Proof. intros Hc st. unfold tried. specialize (Hc st). by destruct (c st). Qed.
Lemma keeps_for_each {A} (l : list A) (f : A -> P unit) : (forall a, keeps (f a)) -> keeps (for_each l f).
Proof. intros Hf. induction l as [|a l IH]; [done|]. cbn. apply keeps_bind; [done|by intros []]. Qed.
Lemma keeps_skipSpace : keeps skipSpace.
Proof. done. Qed.
Lemma keeps_atEnd : keeps atEnd.
Proof. done. Qed.
Lemma keeps_rest_is_open : keeps rest_is_open.
Proof. done. Qed.
Lemma keeps_entryLine : keeps entryLine.
Proof. done. Qed.

Create HintDb keeps.
#[local] Hint Resolve keeps_fail keeps_ret keeps_accept keeps_word keeps_index keeps_term keeps_out
  keeps_skipSpace keeps_atEnd keeps_rest_is_open keeps_entryLine : keeps.

Ltac keep :=
  repeat first
    [ solve [auto with keeps]
    | apply keeps_bind; [|intros ?]
    | apply keeps_with_fuel; intros ?
    | apply keeps_for_each; intros ?
    | apply keeps_tried
    | match goal with
      | |- keeps (if ?b then _ else _) => destruct b
      | |- keeps (match ?a with _ => _ end) => destruct a
      end ].

Lemma keeps_parenthesisedTerm flag : keeps (parenthesisedTerm flag).
Proof. unfold parenthesisedTerm, expect. keep. Qed.
#[local] Hint Resolve keeps_parenthesisedTerm : keeps.

Lemma keeps_paramFlags n p seen : keeps (paramFlags n p seen).
Proof. revert p seen. induction n as [|n IH]; intros; cbn [paramFlags]; unfold paramFlag; keep; auto. Qed.
#[local] Hint Resolve keeps_paramFlags : keeps.

Lemma keeps_parseParam : keeps parseParam.
Proof. unfold parseParam, checkParam. keep. Qed.
#[local] Hint Resolve keeps_parseParam : keeps.

Lemma keeps_parseParams n params : keeps (parseParams n params).
Proof. revert params. induction n as [|n IH]; intros; cbn [parseParams]; keep; auto. Qed.

Lemma keeps_parseResult entry : keeps (parseResult entry).
Proof. unfold parseResult. keep. Qed.

Lemma keeps_chkArguments n chk : keeps (chkArguments n chk).
Proof.
  revert chk. induction n as [|n IH]; intros; cbn [chkArguments]; unfold chkArgument; keep; auto.
Qed.
#[local] Hint Resolve keeps_parseParams keeps_parseResult keeps_chkArguments : keeps.

Lemma keeps_parseClause entry clause : keeps (parseClause entry clause).
Proof.
  unfold parseClause, parseDisjoint, parseFormat, parseWrapper, parseChk, expect, name. keep.
Qed.
#[local] Hint Resolve keeps_parseClause : keeps.

Lemma keeps_parseClauses n entry : keeps (parseClauses n entry).
Proof. revert entry. induction n as [|n IH]; intros; cbn [parseClauses]; keep; auto. Qed.

Lemma keeps_validateTerm entry t where_ : keeps (validateTerm entry t where_).
Proof. induction t; cbn [validateTerm]; unfold validateArg; keep; auto. Qed.
#[local] Hint Resolve keeps_parseClauses keeps_validateTerm : keeps.

Lemma keeps_validateEntry entry : keeps (validateEntry entry).
Proof.
  unfold validateEntry, validateParam, validateDisjoint, validateFormat, validateScan, validateWrapper,
    validateChk. keep.
Qed.

(** A method that, when it answers, added one valid row. *)
Definition adds (c : P unit) : Prop := forall st st',
  c st = (Some tt, st') ->
  exists entry, entry_ok entry = true /\ p_spec st' = add_row (p_spec st) entry.

Lemma adds_bind {A} (c : P A) (f : A -> P unit) : keeps c -> (forall a, adds (f a)) -> adds (c ≫= f).
Proof.
  intros Hc Hf st st'. unfold mbind, P_bind. specialize (Hc st).
  destruct (c st) as [[a|] st1]; [|done]. cbn in Hc. intros He. rewrite <- Hc. by apply (Hf a).
Qed.

Lemma adds_fail why : adds (fail why).
Proof. done. Qed.

Lemma adds_valid entry :
  adds (validateEntry entry;;
        update (fun st => with_entryName (with_spec st (add_row (p_spec st) entry)) "")).
Proof.
  intros st st'. unfold mbind, P_bind. pose proof (checks_entry entry st) as Hv.
  destruct (entry_ok entry) eqn:E.
  - rewrite Hv. intros [= <-]. by exists entry.
  - destruct Hv as (st1 & -> & _). done.
Qed.

(** An entry that is parsed is added, and is valid. *)
Lemma parseEntry_adds : adds parseEntry.
Proof.
  unfold parseEntry. repeat (apply adds_bind; [unfold name, expect; keep; done|intros ?]).
  match goal with |- adds (if ?b then _ else _) => destruct b end; [apply adds_fail|].
  apply adds_bind; [keep|intros e]. apply adds_bind; [keep|intros e'].
  apply adds_bind; [keep|intros []]; [apply adds_valid|apply adds_fail].
Qed.

(** The rows of a name, in order. *)
Definition rows_named (name : string) (es : list LibraryEntry) : list nat :=
  (filter (fun ie : nat * LibraryEntry => e_name ie.2 = name) (imap pair es)).*1.

(** Every row is valid and under its name. *)
Definition rows_ok (spec : LibrarySpec) : Prop :=
  Forall (fun e => entry_ok e = true) (rows spec)
  /\ forall name, rowsOf spec name = rows_named name (rows spec).

Lemma add_row_ok spec entry :
  rows_ok spec -> entry_ok entry = true -> rows_ok (add_row spec entry).
Proof.
  intros [Hv Hn] He. split.
  - apply Forall_app. by repeat constructor.
  - intros name. unfold rows_named. cbn [rows add_row]. rewrite imap_app, list.filter_app, fmap_app.
    fold (rows_named name (rows spec)). rewrite <- Hn. cbn [imap filter list_filter].
    unfold rowsOf. cbn [byName add_row]. destruct (decide (e_name entry = name)) as [<-|Hne].
    + rewrite lookup_insert_eq. cbn. rewrite decide_True by done. cbn. by rewrite Nat.add_0_r.
    + rewrite lookup_insert_ne by done. cbn. rewrite decide_False by done. by rewrite app_nil_r.
Qed.

Lemma parseLines_ok lines st st' :
  parseLines lines st = (Some tt, st') -> rows_ok (p_spec st) -> byAlias (p_spec st) = ∅ ->
  rows_ok (p_spec st') /\ byAlias (p_spec st') = ∅.
Proof.
  revert st. induction lines as [|line rest IH]; intros st; [by intros [= <-]|].
  cbn [parseLines]. unfold mbind, P_bind, update, atEnd. set (st1 := with_rest _ _).
  assert (E1 : p_spec st1 = p_spec st) by done. clearbody st1.
  destruct (String.eqb _ ""); [rewrite <- E1; apply IH|].
  destruct (parseEntry st1) as [[[]|] st2] eqn:E; [|done]. intros Hp Hok Ha.
  apply parseEntry_adds in E as (entry & He & Hs). apply (IH st2 Hp); rewrite Hs, E1; [|done].
  by apply add_row_ok.
Qed.

(** *** Aliases *)

(** The aliases of the rows, with their places. *)
Definition aliases_of (es : list LibraryEntry) : list (string * (nat * nat)) :=
  concat (imap (fun r e => imap (fun a c => (c_name c, (r, a))) (e_chk e)) es).

(** The index holds exactly the aliases [done], none of a row's name. *)
Definition aliases_ok (spec : LibrarySpec) (found : list (string * (nat * nat))) : Prop :=
  forall name ra, byAlias spec !! name = Some ra <->
                  (name, ra) ∈ found /\ byName spec !! name = None.

(** One step of the indexing, as a list of the places to come. *)
Definition aliases_step (c : P unit) (more : list (string * (nat * nat))) : Prop :=
  forall found st st', c st = (Some tt, st') ->
    aliases_ok (p_spec st) found -> (forall x, x ∈ found -> byName (p_spec st) !! x.1 = None) ->
    aliases_ok (p_spec st') (found ++ more)
    /\ (forall x, x ∈ found ++ more -> byName (p_spec st) !! x.1 = None)
    /\ rows (p_spec st') = rows (p_spec st) /\ byName (p_spec st') = byName (p_spec st).

Lemma aliases_nil : aliases_step (mret tt) [].
Proof. intros found st st' [= <-] Ha Hn. rewrite app_nil_r. done. Qed.

Lemma aliases_bind c1 c2 l1 l2 :
  aliases_step c1 l1 -> aliases_step c2 l2 -> aliases_step (c1;; c2) (l1 ++ l2).
Proof.
  intros H1 H2 found st st'. unfold mbind, P_bind. destruct (c1 st) as [[[]|] st1] eqn:E; [|done].
  intros H Ha Hn. destruct (H1 found st st1 E Ha Hn) as (Ha1 & Hn1 & Hr1 & Hb1).
  destruct (H2 _ st1 st' H Ha1) as (Ha2 & Hn2 & Hr2 & Hb2).
  { intros x Hx. rewrite Hb1. by apply Hn1. }
  rewrite app_assoc. split; [done|]. split; [by rewrite <- Hb1|]. split; congruence.
Qed.

Lemma aliases_add rowName row alias chk :
  aliases_step (addAlias rowName row alias chk) [(c_name chk, (row, alias))].
Proof.
  intros found st st'. unfold addAlias.
  destruct (byName (p_spec st) !! c_name chk) eqn:En; [rewrite bool_decide_true by eauto; done|].
  destruct (byAlias (p_spec st) !! c_name chk) eqn:Ea.
  { rewrite (bool_decide_true (is_Some (Some p))) by eauto. by rewrite orb_true_r. }
  rewrite !bool_decide_false by (intros [? ?]; done). cbn [orb]. intros [= <-] Hok Hn.
  split_and!; [| |done|done].
  - intros name ra. cbn [byAlias byName p_spec with_spec]. rewrite elem_of_app, list_elem_of_singleton.
    destruct (decide (name = c_name chk)) as [->|Hne].
    + rewrite lookup_insert_eq. split; [intros [= <-]; by auto|]. intros [[Hf|Hf] _].
      * assert (Hs : byAlias (p_spec st) !! c_name chk = Some ra) by (by apply Hok). congruence.
      * by injection Hf as ->.
    + rewrite lookup_insert_ne by done. rewrite (Hok name ra). split; [intuition|].
      intros [[Hf|Hf] Hb]; [done|]. by injection Hf.
  - intros x Hx. apply elem_of_app in Hx as [Hx|Hx]; [by apply Hn|].
    apply list_elem_of_singleton in Hx as ->. done.
Qed.

Lemma aliases_for_each {A} (l : list A) (f : nat * A -> P unit) (g : nat -> A -> list (string * (nat * nat))) i :
  (forall i a, aliases_step (f (i, a)) (g i a)) ->
  aliases_step (for_each (imap (fun j => pair (i + j)%nat) l) f)
               (concat (imap (fun j => g (i + j)%nat) l)).
Proof.
  intros Hf. revert i. induction l as [|a l IH]; intros i; [apply aliases_nil|]. cbn [imap for_each concat].
  apply aliases_bind; [apply Hf|].
  assert (E1 : imap ((fun j => pair (i + j)%nat) ∘ S) l = imap (fun j => pair (S i + j)%nat) l)
    by (apply imap_ext; intros k x _; cbn; f_equal; lia).
  assert (E2 : imap ((fun j => g (i + j)%nat) ∘ S) l = imap (fun j => g (S i + j)%nat) l)
    by (apply imap_ext; intros k x _; cbn; f_equal; lia).
  rewrite E1, E2. apply IH.
Qed.

Lemma concat_singletons {A B} (l : list A) (f : nat -> A -> B) :
  concat (imap (fun i a => [f i a]) l) = imap f l.
Proof.
  revert f. induction l as [|a l IH]; intros f; [done|]. cbn. f_equal. apply (IH (f ∘ S)).
Qed.

Lemma aliases_all es :
  aliases_step (for_each (imap pair es) (fun re => indexRow (fst re) (snd re))) (aliases_of es).
Proof.
  apply (aliases_for_each es _ (fun r e => imap (fun a c => (c_name c, (r, a))) (e_chk e)) 0).
  intros r e. cbn [fst snd]. unfold indexRow.
  rewrite <- (concat_singletons (e_chk e) (fun a c => (c_name c, (r, a)))).
  apply (aliases_for_each (e_chk e) _ (fun a c => [(c_name c, (r, a))]) 0).
  intros a c. apply aliases_add.
Qed.

Lemma elem_of_aliases es name r a :
  (name, (r, a)) ∈ aliases_of es <->
  exists e c, es !! r = Some e /\ e_chk e !! a = Some c /\ c_name c = name.
Proof.
  unfold aliases_of. rewrite list_elem_of_In, in_concat. split.
  - intros (l & Hl & Hx). apply list_elem_of_In, elem_of_lookup_imap in Hl as (r' & e & -> & Hr).
    apply list_elem_of_In, elem_of_lookup_imap in Hx as (a' & c & Heq & Ha).
    injection Heq as -> -> ->. eauto.
  - intros (e & c & Hr & Ha & <-). eexists. split.
    + apply list_elem_of_In, elem_of_lookup_imap. by exists r, e.
    + apply list_elem_of_In, elem_of_lookup_imap. by exists a, c.
Qed.

(** ** The table's contract *)

Record spec_valid (spec : LibrarySpec) : Prop := {
  sv_rows : Forall (fun e => entry_ok e = true) (rows spec);
  sv_names : forall name, rowsOf spec name = rows_named name (rows spec);
  sv_aliases : forall name r a, byAlias spec !! name = Some (r, a) <->
    exists e c, rows spec !! r = Some e /\ e_chk e !! a = Some c /\ c_name c = name;
  sv_apart : forall name, is_Some (byAlias spec !! name) -> byName spec !! name = None
}.

Lemma parse_spec_valid text spec : LibrarySpec.parse text = inl spec -> spec_valid spec.
Proof.
  unfold LibrarySpec.parse, Parser.parse. set (st0 := mkParser _ _ _ _ _). intros H.
  unfold mbind, P_bind in H. destruct (parseLines _ st0) as [[[]|] st1] eqn:E1; [|done].
  destruct (parseLines_ok _ _ _ E1) as [[Hv Hn] He].
  { split; [constructor|]. intros name. unfold rowsOf. cbn. done. }
  { done. }
  cbn [update getRows] in H. set (st2 := with_line st1 None) in *.
  destruct (for_each _ _ st2) as [[[]|] st3] eqn:E2; [|done]. injection H as <-.
  destruct (aliases_all (rows (p_spec st2)) [] st2 st3 E2) as (Ha & Hb & Hr & Hm).
  { intros name ra. cbn [p_spec st2 with_line]. rewrite He, lookup_empty, elem_of_nil. split; [done|by intros [[] _]]. }
  { intros x Hx. by apply elem_of_nil in Hx. }
  cbn [p_spec st2 with_line app] in *. constructor.
  - by rewrite Hr.
  - intros name. unfold rowsOf. rewrite Hm, Hr. apply Hn.
  - intros name r a. rewrite (Ha name (r, a)), Hr, elem_of_aliases. split; [by intros [? _]|].
    intros Hx. split; [done|]. rewrite Hm. apply (Hb (name, (r, a))). by apply elem_of_aliases.
  - intros name [[r a] Hx]. apply Ha in Hx as [Hx _]. rewrite Hm. by apply (Hb (name, (r, a))).
Qed.

(** C32: every table the parser builds is valid: each row's terms, clauses and
    aliases name the row's own parameters, the rows are indexed under their
    names in order, and the aliases are exactly those of the rows, none of
    them a row's name or another row's. *)
Theorem parse_valid text spec : LibrarySpec.parse text = inl spec -> spec_valid spec.
Proof. apply parse_spec_valid. Qed.

(** ** Lookup *)

Section Lookup.
Context (spec : LibrarySpec) (Hspec : spec_valid spec).

Lemma elem_of_rowsOf name i :
  i ∈ rowsOf spec name <-> exists e, rows spec !! i = Some e /\ e_name e = name.
Proof.
  rewrite (sv_names _ Hspec). unfold rows_named. rewrite list_elem_of_fmap. split.
  - intros ([j e] & -> & Hx). apply list_elem_of_filter in Hx as [Hn Hx].
    apply elem_of_lookup_imap in Hx as (k & e' & [= -> ->] & He). eauto.
  - intros (e & He & Hn). exists (i, e). split; [done|]. apply list_elem_of_filter. split; [done|].
    apply elem_of_lookup_imap. eauto.
Qed.

(** The rows of a name come in the table's order. *)
Lemma sorted_snoc (l : list nat) n : StronglySorted lt l -> Forall (fun x => (x < n)%nat) l -> StronglySorted lt (l ++ [n]).
Proof.
  induction 1 as [|x l Hs IH Hx]; intros Hn; cbn; [by repeat constructor|]. apply list.Forall_cons in Hn as [Hxn Hn].
  constructor; [by apply IH|]. apply Forall_app. split; [done|by repeat constructor].
Qed.

Lemma rows_named_sorted name es :
  StronglySorted lt (rows_named name es) /\ Forall (fun x => (x < length es)%nat) (rows_named name es).
Proof.
  induction es as [|e es [Hs Hn]] using rev_ind; [by repeat constructor|].
  unfold rows_named. rewrite imap_app, list.filter_app, fmap_app. fold (rows_named name es). cbn [imap filter list_filter].
  rewrite length_app. cbn [length]. case_decide; cbn [fmap list_fmap fst]; rewrite ?Nat.add_0_r.
  - split; [by apply sorted_snoc|]. apply list.Forall_app. split; [eapply list.Forall_impl; [exact Hn|]; cbn; lia|by repeat constructor; lia].
  - rewrite app_nil_r. split; [done|]. eapply list.Forall_impl; [exact Hn|]. cbn. lia.
Qed.

Lemma rowsOf_sorted name : StronglySorted lt (rowsOf spec name).
Proof. rewrite (sv_names _ Hspec). by apply rows_named_sorted. Qed.

(** A row takes so many arguments. *)
Definition takes (e : LibraryEntry) (n : nat) : Prop :=
  if e_variadic e then (length (e_params e) <= n)%nat else n = length (e_params e).

Lemma fits_takes e n : fits e n = true <-> takes e n.
Proof. unfold fits, takes. destruct (e_variadic e); [by rewrite Nat.leb_le|by rewrite Nat.eqb_eq]. Qed.

(** No row and no alias has the name. *)
Definition unknown (name : string) : Prop :=
  (forall r e, rows spec !! r = Some e -> e_name e <> name)
  /\ forall r e a c, rows spec !! r = Some e -> e_chk e !! a = Some c -> c_name c <> name.

(** The first row of the name of which [P] holds. *)
Definition firstRow (name : string) (P : LibraryEntry -> Prop) (e : LibraryEntry) : Prop :=
  exists r, rows spec !! r = Some e /\ e_name e = name /\ P e
    /\ forall r' e', (r' < r)%nat -> rows spec !! r' = Some e' -> e_name e' = name -> ~ P e'.

(** What resolving [name] answers: the alias of the name with its row; else,
    with the call's argument count, the first row of the name that takes so
    many, and the first of the name when none does or the count is not known. *)
Definition resolves (name : string) (arguments : option nat) (m : LibraryMatch) : Prop :=
  exists e, m_entry m = Some e
  /\ match m_alias m with
     | Some c => exists r a, rows spec !! r = Some e /\ e_chk e !! a = Some c /\ c_name c = name
     | None =>
       match arguments with
       | Some n => firstRow name (fun e => takes e n) e
                   \/ (firstRow name (fun _ => True) e /\ forall r' e', rows spec !! r' = Some e' -> e_name e' = name -> ~ takes e' n)
       | None => firstRow name (fun _ => True) e
       end
     end.

Lemma fitting_spec at_ n :
  StronglySorted lt at_ -> (forall r, r ∈ at_ -> is_Some (rows spec !! r)) ->
  match fitting spec at_ n with
  | Some e => takes e n /\ exists r, r ∈ at_ /\ rows spec !! r = Some e
                /\ forall r' e', (r' < r)%nat -> r' ∈ at_ -> rows spec !! r' = Some e' -> ~ takes e' n
  | None => forall r e, r ∈ at_ -> rows spec !! r = Some e -> ~ takes e n
  end.
Proof.
  induction 1 as [|r at_ Hs IH Hlt]; intros Hr; cbn [fitting].
  { intros r e Hx. by apply elem_of_nil in Hx. }
  destruct (Hr r) as [e He]; [left|]. rewrite He. pose proof (fits_takes e n) as Hf. destruct (fits e n).
  { split; [by apply Hf|]. exists r. split; [left|]. split; [done|]. intros r' e' Hless Hin. exfalso.
    apply elem_of_cons in Hin as [->|Hin]; [lia|]. rewrite list.Forall_forall in Hlt. specialize (Hlt r' Hin). lia. }
  assert (Hno : ~ takes e n) by (intros Ht; by apply Hf in Ht).
  specialize (IH (fun r' H => Hr r' (list_elem_of_further _ _ _ H))).
  destruct (fitting spec at_ n) as [e'|].
  - destruct IH as (Ht & r' & Hi & Hx & Hfirst). split; [done|]. exists r'. split; [by right|]. split; [done|].
    intros r2 e2 Hless Hin He2. apply elem_of_cons in Hin as [->|Hin]; [congruence|by apply (Hfirst r2)].
  - intros r' e' Hx He'. apply elem_of_cons in Hx as [->|Hx]; [congruence|by eapply IH].
Qed.

Lemma lookupName_spec name arguments :
  match lookupName spec name arguments with
  | Some m => resolves name arguments m
  | None => unknown name
  end.
Proof.
  unfold lookupName. destruct (byAlias spec !! name) as [[r a]|] eqn:Ea.
  { apply (sv_aliases _ Hspec) in Ea as (e & c & Hr & Hc & Hn). rewrite Hr, Hc. exists e. cbn. eauto 10. }
  assert (Halias : forall r e a c, rows spec !! r = Some e -> e_chk e !! a = Some c -> c_name c <> name).
  { intros r e a c Hr Hc Hn. assert (Hs : byAlias spec !! name = Some (r, a)) by (apply (sv_aliases _ Hspec); eauto). congruence. }
  assert (Hin : forall r, r ∈ rowsOf spec name -> exists e, rows spec !! r = Some e /\ e_name e = name)
    by (intros r; apply elem_of_rowsOf).
  assert (Hout : forall r e, rows spec !! r = Some e -> e_name e = name -> r ∈ rowsOf spec name)
    by (intros r e Hr Hn; apply elem_of_rowsOf; eauto).
  pose proof (rowsOf_sorted name) as Hsort. destruct (rowsOf spec name) as [|first more] eqn:Erows.
  { split; [|done]. intros r e Hr Hn. by specialize (Hout r e Hr Hn); apply elem_of_nil in Hout. }
  destruct (Hin first ltac:(left)) as (e & He & Hn).
  assert (Hfirst : firstRow name (fun _ => True) e).
  { exists first. split_and!; try done. intros r' e' Hless Hr' Hn' _. apply StronglySorted_inv in Hsort as [_ Hlt].
    specialize (Hout r' e' Hr' Hn'). apply elem_of_cons in Hout as [->|Hmore]; [lia|].
    rewrite list.Forall_forall in Hlt. specialize (Hlt r' Hmore). lia. }
  destruct arguments as [n|]; [|rewrite He; exists e; by split].
  pose proof (fitting_spec (first :: more) n Hsort) as Hf. destruct (fitting spec (first :: more) n) as [e'|].
  - destruct Hf as (Ht & r & Hr & He' & Hbefore); [intros r Hr; destruct (Hin r Hr) as (x & ? & _); eauto|].
    exists e'. cbn. split; [done|]. left. exists r. destruct (Hin r Hr) as (x & Hx & Hxn). assert (x = e') as -> by congruence.
    split_and!; try done. intros r' e2 Hless Hr' Hn'. apply (Hbefore r' e2 Hless); [by eapply Hout|done].
  - rewrite He. exists e. cbn. split; [done|]. right. split; [done|]. intros r' e' Hr' Hn'.
    eapply Hf; [|by eapply Hout|done]. intros r Hr. destruct (Hin r Hr) as (x & ? & _). eauto.
Qed.

(** C31: what a lookup answers: the alias of that name with the row it belongs
    to; else the first row of the name that takes the call's argument count,
    and the first of the name when none does or the count is not known.  The
    name is the callee's, and only when no row and no alias has it the callee's
    without [__builtin_].  It answers nothing exactly when neither is known. *)
Theorem lookup_exact callee arguments :
  match lookup spec callee arguments with
  | Some m => exists name, resolves name arguments m
                           /\ (name = callee \/ (unknown callee /\ strip "__builtin_" callee = Some name))
  | None => unknown callee /\ forall name, strip "__builtin_" callee = Some name -> unknown name
  end.
Proof.
  unfold lookup. pose proof (lookupName_spec callee arguments) as H1.
  destruct (lookupName spec callee arguments) as [m|]; [by eauto|].
  destruct (strip "__builtin_" callee) as [name|]; [|done].
  pose proof (lookupName_spec name arguments) as H2.
  destruct (lookupName spec name arguments) as [m|]; [by eauto 10|]. split; [done|]. by intros name' [= <-].
Qed.
End Lookup.

(** A table for witnesses. *)
Definition table_example : string :=
  ("memcpy (w:bytes(a2):null-if-zero(a2), r:bytes(a2), int) -> ptr disjoint(0,1,a2) chk(__memcpy_chk:0,1,2,size);"
   ++ String newline "open (r:str, int, ...) -> int; ")%string.

Definition table_of (text : string) : LibrarySpec :=
  match LibrarySpec.parse text with inl spec => spec | inr _ => empty_spec end.

Lemma table_example_parses : LibrarySpec.parse table_example = inl (table_of table_example).
Proof. vm_compute. reflexivity. Qed.

Lemma parse_valid_witness :
  LibrarySpec.parse table_example = inl (table_of table_example) /\ spec_valid (table_of table_example).
Proof.
  split; [exact table_example_parses|].
  apply (parse_valid table_example). exact table_example_parses.
Defined.

Lemma parse_loud_witness : exists why,
  LibrarySpec.parse "foo(r:x) -> int;" = inr ("LibrarySpec.txt:" ++ why)%string.
Proof.
  destruct (LibrarySpec.parse "foo(r:x) -> int;") as [spec|error] eqn:E.
  - exfalso. vm_compute in E. discriminate.
  - destruct (parse_loud "foo(r:x) -> int;" error E) as [why ->]. exists why. reflexivity.
Defined.

Lemma lookup_exact_witness : exists m,
  lookup (table_of table_example) "__builtin___memcpy_chk" (Some 4%nat) = Some m
  /\ resolves (table_of table_example) "__memcpy_chk" (Some 4%nat) m.
Proof.
  pose proof (lookup_exact (table_of table_example)
                (parse_spec_valid table_example _ table_example_parses)
                "__builtin___memcpy_chk" (Some 4%nat)) as H.
  destruct (lookup (table_of table_example) "__builtin___memcpy_chk" (Some 4%nat)) as [m|] eqn:E.
  2:{ exfalso. vm_compute in E. discriminate. }
  exists m. split; [reflexivity|]. destruct H as (name & Hr & [->|[_ Hn]]).
  - exfalso. destruct Hr as (e & He & Hm). vm_compute in E. injection E as <-. cbn in Hm. destruct Hm as (r & a & Hrow & Hc & Hname).
    discriminate Hname.
  - vm_compute in Hn. injection Hn as <-. exact Hr.
Defined.
