(* ===== verification/CallGuards.v ===== *)
(** * Guards of library calls

    [lib/Frontend/GuardLibrary.cpp]: what the pass puts around a call of a
    function of the library table.  A call is its operands, as far as the pass
    looks at them; the instructions the pass inserts before and after it are a
    list over symbolic values, and [fieldLimit] (lib/Frontend/GuardPass.cpp)
    reads the pointer's [getelementptr]s.  What the instructions do when the
    program runs is in the file CallRuns.

    LLVM's [IRBuilder] folds constants: which values it makes constants is the
    class [Folder]; the size of a type is the class [Layout]. *)

From Stdlib Require Import String Ascii.
From S2P Require Import Prelude LibTerm LibrarySpec.
Local Open Scope Z_scope.

(** ** What the pass sees *)

Inductive irType := IntegerTy (bits : Z) | PointerTy (space : Z) | OtherTy.

Definition isPointerTy (t : irType) : bool := match t with PointerTy _ => true | _ => false end.
Definition isIntegerTy (t : irType) : bool := match t with IntegerTy _ => true | _ => false end.

(** Types, as [fieldLimit] walks them. *)
Inductive layoutType := StructType (elements : list layoutType) | ArrayType (element : layoutType) (n : Z) | ScalarType (name : string).

(** A pointer: a [getelementptr] over a type, its indices ([None]: not a
    constant), or another. *)
Inductive pointerValue := Gep (source : layoutType) (indices : list (option Z)) (base : pointerValue) | NotGep.

Class Layout := { getTypeAllocSize : layoutType -> Z }.

(** An operand: its type, its value when it is a [ConstantInt] (unsigned), the
    constant string it points to. *)
Record operand := mkOperand {
  op_type : irType;
  op_constant : option Z;
  op_literal : option string;
  op_pointer : pointerValue
}.

(** The call: the row it matched, its operands, its result's type, the
    module's [wchar_size]. *)
Record LibraryCall := mkCall {
  lc_entry : LibraryEntry;
  lc_alias : option LibraryChk;
  lc_operands : list operand;
  lc_result : irType;
  lc_wchar : option Z
}.

Definition lc_match (c : LibraryCall) : LibraryMatch := mkLibraryMatch (Some (lc_entry c)) (lc_alias c).

Definition operandAt (c : LibraryCall) (i : nat) : operand :=
  nth i (lc_operands c) (mkOperand OtherTy None None NotGep).

(** The call's operand for row argument [index]. *)
Definition argument (c : LibraryCall) (index : Z) : option nat :=
  let at_ := callArgument (lc_match c) (Z.to_nat index) in
  if (at_ <? 0) || (Z.of_nat (length (lc_operands c)) <=? at_) then None else Some (Z.to_nat at_).

(** The C name of a callee: a Darwin label's prefix and its variant dropped. *)
Fixpoint beforeDollar (name : string) : string :=
  match name with
  | EmptyString => EmptyString
  | String c rest => if Ascii.eqb c "$" then EmptyString else String c (beforeDollar rest)
  end.

Definition cName (name : string) : string :=
  let name := match name with
              | String c rest => if Ascii.eqb c (ascii_of_nat 1) then default rest (strip "_" rest) else name
              | EmptyString => name
              end in
  beforeDollar name.

(** ** The code the pass builds *)

(** A value: of type [i64], but an operand, which has its own. *)
Inductive value :=
  | Word (n : Z)
  | Operand (i : nat)
  | Result
  | Computed (k : nat)                        (* the [k]th string guard's length *)
  | SExtOrTrunc (bits : Z) (v : value)
  | ZExtOrTrunc (bits : Z) (v : value)
  | MulSaturated (l r : value)
  | AddSaturated (l r : value)
  | SubSaturated (l : value) (n : Z)
  | UMin (l r : value)
  | UDiv (l : value) (n : Z)
  | Mul (l r : value)
  | Add (l r : value)
  | Sub (l r : value)
  | IfNull (p : nat) (null other : value).

Inductive instruction :=
  | Guard (pointer : nat) (width flags : Z)
  | RangeGuard (pointer : nat) (bytes : value) (flags : Z)
  | StringGuard (pointer : nat) (bound : value) (flags : Z)
  | WideLength (pointer : nat) (bound : value) (siteFlags : Z)
  | Limit (pointer : nat) (bytes limit : value)
  | Disjoint (first second : nat) (length : value).

(** What comes after the call: code, or code for a result that is not null and
    for one that is. *)
Inductive afterCode := Straight (code : list instruction) | OnResult (found missed : list instruction).

Class Folder := { folded : value -> option Z }.

(** The code so far: before the call, the number of lengths it computed, after
    the call; and the ledger's rows, a reason and bytes. *)
Record builder := mkBuilder {
  b_code : list instruction;
  b_computed : nat;
  b_after : list afterCode;
  b_rows : list (string * Z)
}.

Definition start : builder := mkBuilder [] 0 [] [].

Definition B (A : Type) : Type := builder -> A * builder.
#[export] Instance B_ret : MRet B := fun A a b => (a, b).
#[export] Instance B_bind : MBind B := fun A B f c b => let '(a, b') := c b in f a b'.

Definition record_ (reason : string) (bytes : Z) : B unit := fun b =>
  (tt, mkBuilder (b_code b) (b_computed b) (b_after b) (b_rows b ++ [(reason, bytes)])).
Definition insert (i : instruction) : B unit := fun b =>
  (tt, mkBuilder (b_code b ++ [i]) (b_computed b) (b_after b) (b_rows b)).

(** Code that computes a length. *)
Definition insertLength (i : instruction) : B value := fun b =>
  (Computed (b_computed b), mkBuilder (b_code b ++ [i]) (S (b_computed b)) (b_after b) (b_rows b)).

(** The code [c] builds, apart. *)
Definition block (c : B unit) : B (list instruction) := fun b =>
  let '(_, b') := c (mkBuilder [] (b_computed b) (b_after b) (b_rows b)) in
  (b_code b', mkBuilder (b_code b) (b_computed b) (b_after b') (b_rows b')).

(** Behind the call, in front of what an earlier scan put there. *)
Definition insertAfter (a : afterCode) : B unit := fun b =>
  (tt, mkBuilder (b_code b) (b_computed b) (a :: b_after b) (b_rows b)).

Definition MarkerWrite : Z := 1.
Definition MarkerNullOk : Z := 4.
Definition SiteNullOk : Z := 8.
Definition Max : Z := 2 ^ 64 - 1.

(** ** Limits *)

Section Fields.
Context `{Layout}.

Definition isArrayTy (t : layoutType) : bool := match t with ArrayType _ _ => true | _ => false end.
Definition isStructTy (t : layoutType) : bool := match t with StructType _ => true | _ => false end.

(** The walk over the indices behind the first: the structure the last one is
    a field of, the field's number, its type. *)
Fixpoint walkIndices (indices : list (option Z)) (parent : option (list layoutType)) (field : Z) (t : layoutType)
  : option (option (list layoutType) * Z * layoutType) :=
  match indices with
  | [] => Some (parent, field, t)
  | None :: _ => None
  | Some index :: rest =>
    match t with
    | StructType elements => walkIndices rest (Some elements) index (nth (Z.to_nat index) elements (ScalarType ""))
    | ArrayType element _ => walkIndices rest None field element
    | ScalarType _ => None
    end
  end.

(** A [getelementptr], past an array's decay to its first element. *)
Definition throughDecay (p : pointerValue) : pointerValue :=
  match p with
  | Gep source indices base =>
    if isArrayTy source && forallb (fun i => match i with Some 0 => true | _ => false end) indices then base else p
  | NotGep => NotGep
  end.

Definition fieldLimit (p : pointerValue) : option Z :=
  match throughDecay p with
  | Gep source (Some 0 :: index :: rest) _ =>
    if negb (isStructTy source) then None
    else
      match walkIndices (index :: rest) None 0 source with
      | Some (Some parent, field, t) =>
        if isArrayTy t && (field + 1 <? Z.of_nat (length parent)) then Some (getTypeAllocSize t) else None
      | _ => None
      end
  | _ => None
  end.
End Fields.

Section Pass.
Context `{Layout} `{Folder} (c : LibraryCall).

Definition params : list LibraryParam := e_params (lc_entry c).
Definition wide : bool := e_wide (lc_entry c).
Definition pointerAt (i : nat) : bool := isPointerTy (op_type (operandAt c i)).
Definition literalAt (i : nat) : option string := op_literal (operandAt c i).
Definition wcharSize : Z := default 4 (lc_wchar c).

Definition writes (a : Access) : bool := match a with AWrite | AReadWrite => true | _ => false end.
Definition isPointerParam (p : LibraryParam) : bool := match pa_type p with TPointer => true | _ => false end.
Definition noAccess (p : LibraryParam) : bool := match pa_access p with ANone => true | _ => false end.

Definition paramAt (index : Z) : LibraryParam :=
  nth (Z.to_nat index) params (libraryParam TOther ANone).

Definition wrapperTakesLimit : bool := existsb (fun chk => 0 <=? c_sizeArgument chk) (e_chk (lc_entry c)).

(** The first row argument the call writes through, from [index] on. *)
Fixpoint firstWritten (ps : list LibraryParam) (index : Z) : option Z :=
  match ps with
  | [] => None
  | p :: rest => if isPointerParam p && writes (pa_access p) then Some index else firstWritten rest (index + 1)
  end.

(** The size of the array field the first written argument names. *)
Definition writtenField : option value :=
  if wide || negb (bool_decide (is_Some (e_wrapper (lc_entry c)))) || negb wrapperTakesLimit then None
  else
    index ← firstWritten params 0;
    i ← argument c index;
    if negb (pointerAt i) then None else Word <$> fieldLimit (op_pointer (operandAt c i)).

(** The object size a fortified form passes. *)
Definition statedSize : option value :=
  let at_ := sizeArgument (lc_match c) in
  if (at_ <? 0) || (Z.of_nat (length (lc_operands c)) <=? at_) then None
  else
    let i := Z.to_nat at_ in
    match op_type (operandAt c i) with
    | IntegerTy bits =>
      if match op_constant (operandAt c i) with Some n => n =? 2 ^ bits - 1 | None => false end then None
      else
        let bytes := ZExtOrTrunc bits (Operand i) in
        Some (if wide then Mul bytes (Word wcharSize) else bytes)
    | _ => None
    end.

Definition objectSize : option value :=
  match writtenField, statedSize with
  | Some field, Some stated => Some (UMin field stated)
  | Some field, None => Some field
  | None, stated => stated
  end.

(** ** Terms *)

(** Whether row argument [index] may be null. *)
Definition nullOk (index : Z) : bool :=
  (index <? Z.of_nat (length params)) && match pa_null (paramAt index) with Forbidden => false | _ => true end.

Definition nullFlags (index : Z) : Z := if nullOk index then MarkerNullOk else 0.

Definition stringLength (pointer : nat) (bound : option value) (flags : Z) : B value :=
  match (if wide then None else literalAt pointer) with
  | Some text =>
    let length := Z.of_nat (String.length text) in
    mret (Word (match bound ≫= folded with Some n => Z.min length n | None => length end))
  | None =>
    let bound := default (Word Max) bound in
    record_ "string" 0;;
    if wide then insertLength (WideLength pointer bound (if Z.testbit flags 2 then SiteNullOk else 0))
    else insertLength (StringGuard pointer bound flags)
  end.

Fixpoint evaluate (term : LibTerm) (bound : option value) : B (option value) :=
  match term with
  | Constant v => mret (Some (Word (Z.max v 0)))
  | Argument arg =>
    mret (i ← argument c arg;
          match op_type (operandAt c i) with IntegerTy bits => Some (SExtOrTrunc bits (Operand i)) | _ => None end)
  | StringLength arg =>
    match argument c arg with
    | Some i => if pointerAt i then length ← stringLength i bound (nullFlags arg); mret (Some length) else mret None
    | None => mret None
    end
  | Product l r =>
    left ← evaluate l bound; right ← evaluate r bound;
    mret (x ← left; y ← right; Some (MulSaturated x y))
  | Sum l r =>
    left ← evaluate l bound; right ← evaluate r bound;
    mret (x ← left; y ← right; Some (AddSaturated x y))
  | Difference l v =>
    left ← evaluate l bound; mret (x ← left; Some (SubSaturated x (Z.max v 0)))
  | Min l r =>
    left ← evaluate l bound;
    match left with
    | None => mret None
    | Some x => right ← evaluate r (Some x); mret (y ← right; Some (UMin x y))
    end
  | Quotient l v =>
    left ← evaluate l bound;
    mret (x ← left; if v <=? 0 then None else Some (UDiv x v))
  end.

(** ** Arguments *)

Definition guardBytes (pointer : nat) (bytes : value) (write : bool) : B unit :=
  let flags := if write then MarkerWrite else 0 in
  match folded bytes with
  | Some width => if width =? 0 then mret tt else record_ "range" width;; insert (Guard pointer width flags)
  | None => record_ "range" 0;; insert (RangeGuard pointer bytes flags)
  end.

Definition checkLimit (pointer : nat) (bytes limit : value) : B unit := insert (Limit pointer bytes limit).

Definition termOf (p : LibraryParam) : option LibTerm := match pa_bytes p with Some t => Some t | None => pa_count p end.

(** The bytes for a pointer that may be null. *)
Definition unlessNull (p : LibraryParam) (pointer : nat) (bytes : value) : value :=
  match pa_null p with Allowed => IfNull pointer (Word 0) bytes | _ => bytes end.

(** An inline definition's call, against the field it writes. *)
Definition checkField : B unit :=
  match writtenField with
  | None => mret tt
  | Some limit =>
    match firstWritten params 0 with
    | None => mret tt
    | Some index =>
      match termOf (paramAt index), argument c index with
      | Some term, Some pointer =>
        bytes ← evaluate term None;
        match bytes with Some bytes => checkLimit pointer bytes limit | None => mret tt end
      | _, _ => mret tt
      end
    end
  end.

(** Before a search: its null check and its first byte. *)
Definition guardScanStart (p : LibraryParam) (pointer : nat) : B unit :=
  match termOf p with
  | Some term =>
    count ← evaluate term None;
    match count with
    | Some count => guardBytes pointer (unlessNull p pointer (UMin count (Word 1))) false
    | None => mret tt
    end
  | None => guardBytes pointer (unlessNull p pointer (Word 1)) false
  end.

Definition insertRange (pointer : nat) (bytes : value) : B unit :=
  record_ "scan" 0;; insert (RangeGuard pointer bytes 0).

(** The bytes up to [stop] and the scan's term of elements from there. *)
Definition readTo (p : LibraryParam) (pointer : nat) (stop : value) : B unit :=
  match pa_scan p with
  | Some scan =>
    tail ← evaluate scan None;
    match tail with
    | Some tail => insertRange pointer (Add stop (Mul tail (Word (if wide then wcharSize else 1))))
    | None => mret tt
    end
  | None => mret tt
  end.

(** After a search: the elements it read. *)
Definition guardScan (p : LibraryParam) (pointer : nat) : B unit :=
  let elementBytes := Word (if wide then wcharSize else 1) in
  match lc_result c with
  | PointerTy _ =>
    found ← block (readTo p pointer (Sub Result (Operand pointer)));
    missed ← block (match termOf p with
                    | None => _ ← stringLength pointer None 0; mret tt
                    | Some term =>
                      count ← evaluate term None;
                      match count with
                      | Some count =>
                        insertRange pointer (match pa_bytes p with Some _ => count | None => Mul count elementBytes end)
                      | None => mret tt
                      end
                    end);
    insertAfter (OnResult found missed)
  | t =>
    let bits := match t with IntegerTy bits => bits | _ => 64 end in
    code ← block (readTo p pointer (Mul (ZExtOrTrunc bits Result) elementBytes));
    insertAfter (Straight code)
  end.

(** [min(t, strlen(a<self>) + 1)]: the bytes a bounded scan reads. *)
Definition boundedScan (term : LibTerm) (index : Z) : option LibTerm :=
  match term with
  | Min t s => if decide (s = Sum (StringLength index) (Constant 1)) then Some t else None
  | _ => None
  end.

(** The bytes a parameter's term or its lack states. *)
Definition paramBytes (p : LibraryParam) : B (option value) :=
  match termOf p with
  | Some term =>
    if negb (bool_decide (is_Some (pa_bytes p))) && wide then evaluate (Product term (Constant wcharSize)) None
    else evaluate term None
  | None => mret (if pa_string p then None else Some (Word 1))
  end.

(** One parameter that is read or written: the limit the next ones have. *)
Definition guardArgument (p : LibraryParam) (index : Z) (pointer : nat) (limit : option value) : B (option value) :=
  (if pa_string p then _ ← stringLength pointer None (nullFlags index); mret tt else mret tt);;
  match termOf p ≫= fun t => boundedScan t index with
  | Some t =>
    bound ← evaluate t None;
    match bound with
    | Some bound => _ ← stringLength pointer (Some bound) (nullFlags index); mret limit
    | None => mret limit
    end
  | None =>
    bytes ← paramBytes p;
    match bytes with
    | None => mret limit
    | Some bytes =>
      let bytes := unlessNull p pointer bytes in
      guardBytes pointer bytes (writes (pa_access p));;
      match limit with
      | Some l => if writes (pa_access p) then checkLimit pointer bytes l;; mret None else mret limit
      | None => mret None
      end
    end
  end.

Definition spaceZero (i : nat) : bool := match op_type (operandAt c i) with PointerTy space => space =? 0 | _ => false end.

(** The loop over the parameters, from [index] on: the scans it put off. *)
Fixpoint guardParams (ps : list LibraryParam) (index : Z) (limit : option value) : B (list (LibraryParam * nat)) :=
  match ps with
  | [] => mret []
  | p :: rest =>
    if negb (isPointerParam p) || noAccess p then guardParams rest (index + 1) limit
    else if bool_decide (is_Some (pa_scan p)) then
      match argument c index with
      | Some i =>
        if negb (spaceZero i) || (negb wide && bool_decide (is_Some (literalAt i)))
        then guardParams rest (index + 1) limit
        else
          guardScanStart p i;;
          scans ← guardParams rest (index + 1) limit;
          mret ((p, i) :: scans)
      | None => guardParams rest (index + 1) limit
      end
    else
      match pa_effect p with
      | Borrow =>
        match argument c index with
        | Some i =>
          if negb (spaceZero i) then guardParams rest (index + 1) limit
          else limit ← guardArgument p index i limit; guardParams rest (index + 1) limit
        | None => guardParams rest (index + 1) limit
        end
      | _ => guardParams rest (index + 1) limit
      end
  end.

Fixpoint guardDisjoint (l : list LibDisjoint) : B unit :=
  match l with
  | [] => mret tt
  | d :: rest =>
    match argument c (d_first d), argument c (d_second d) with
    | Some first, Some second =>
      if negb (pointerAt first) || negb (pointerAt second) then guardDisjoint rest
      else
        length ← evaluate (d_length d) None;
        match length with
        | Some length => insert (Disjoint first second length);; guardDisjoint rest
        | None => guardDisjoint rest
        end
    | _, _ => guardDisjoint rest
    end
  end.

Fixpoint guardScans (l : list (LibraryParam * nat)) : B unit :=
  match l with
  | [] => mret tt
  | (p, i) :: rest => guardScan p i;; guardScans rest
  end.

Definition guardArguments : B unit :=
  let limit := objectSize in
  scans ← guardParams params 0 limit;
  guardDisjoint (e_disjoint (lc_entry c));;
  guardScans scans.

(** The first byte of each string that must not be null and is no literal. *)
Fixpoint firstBytes (ps : list LibraryParam) (index : Z) : B unit :=
  match ps with
  | [] => mret tt
  | p :: rest =>
    match argument c index with
    | Some i =>
      if negb (pa_string p) || wide || negb (match pa_null p with Forbidden => true | _ => false end)
         || negb (pointerAt i) || bool_decide (is_Some (literalAt i))
      then firstBytes rest (index + 1)
      else guardBytes i (Word 1) false;; firstBytes rest (index + 1)
    | None => firstBytes rest (index + 1)
    end
  end.

Definition guardFirstBytes : B unit := firstBytes params 0.

(** ** Constant formats *)

(** The format's text from the position on, as characters. *)
Definition characters (text : string) : list Z :=
  map (fun a => Z.of_nat (nat_of_ascii a)) (list_ascii_of_string text).

Definition oneOf (set : string) (ch : Z) : bool := existsb (Z.eqb ch) (characters set).

Fixpoint skipSet (set : string) (text : list Z) : list Z :=
  match text with
  | ch :: rest => if oneOf set ch then skipSet set rest else text
  | [] => []
  end.

(** Decimal digits, in 64 bits: the number, whether there is one. *)
Fixpoint readDigits (digits : Z) (any : bool) (text : list Z) : Z * bool * list Z :=
  match text with
  | ch :: rest =>
    if (48 <=? ch) && (ch <=? 57) then readDigits (wrap64 (digits * 10 + (ch - 48))) true rest else (digits, any, text)
  | [] => (digits, any, text)
  end.

(** The length modifiers, and whether one is [l]. *)
Fixpoint modifiers (isWide : bool) (text : list Z) : bool * list Z :=
  match text with
  | ch :: rest => if oneOf "hljztLqI" ch then modifiers (isWide || (ch =? 108)) rest else (isWide, text)
  | [] => (isWide, text)
  end.

(** From a [[] to the [']'] of its set. *)
Fixpoint toBracket (text : list Z) : list Z :=
  match text with
  | ch :: rest => if ch =? 93 then text else toBracket rest
  | [] => []
  end.

(** The next variadic operand. *)
Definition take_ (next : nat) : option nat * nat :=
  if Nat.ltb next (length (lc_operands c)) then (Some next, S next) else (None, next).

Definition startsWith (ch : Z) (text : list Z) : bool := match text with x :: _ => x =? ch | [] => false end.

(** A conversion's argument. *)
Definition guardConversion (scanf : bool) (conversion : Z) (isWide dynamicPrecision : bool) (width precision : option Z)
  (pointer : nat) : B unit :=
  if conversion =? 110 then guardBytes pointer (Word 1) true
  else if isWide then mret tt
  else if negb scanf && (conversion =? 115) && negb dynamicPrecision then
    _ ← stringLength pointer (Word <$> precision) MarkerNullOk; mret tt
  else if scanf && ((conversion =? 115) || (conversion =? 91)) && bool_decide (is_Some width) then
    guardBytes pointer (Word (wrap64 (default 0 width + 1))) true
  else if scanf && (conversion =? 99) then guardBytes pointer (Word (default 1 width)) true
  else mret tt.

(** A width or a precision behind its [*] test: digits, in 64 bits. *)
Fixpoint formatFrom (fuel : nat) (scanf : bool) (text : list Z) (next : nat) : B unit :=
  match fuel with
  | O => mret tt
  | S fuel' =>
    match text with
    | [] => mret tt
    | ch :: text =>
      if negb (ch =? 37) then formatFrom fuel' scanf text next
      else if startsWith 37 text then formatFrom fuel' scanf (tail text) next
      else
        let suppressed := scanf && startsWith 42 text in
        let text := if suppressed then tail text else text in
        let text := skipSet "-+ #0'" text in
        let '(star, (digits, any, text)) :=
          if startsWith 42 text then (true, (0, false, tail text)) else (false, readDigits 0 false text) in
        let next := if star : bool then snd (take_ next) else next in
        if negb star && startsWith 36 text then mret tt
        else
          let width := if any : bool then Some digits else None in
          let '(dynamicPrecision, precision, text) :=
            if negb scanf && startsWith 46 text then
              let text := tail text in
              if startsWith 42 text then (true, None, tail text)
              else let '(digits, _, text) := readDigits 0 false text in (false, Some digits, text)
            else (false, None, text) in
          let next := if dynamicPrecision : bool then snd (take_ next) else next in
          let '(isWide, text) := modifiers false text in
          match text with
          | [] => mret tt
          | conversion :: rest =>
            let rest := if scanf && (conversion =? 91) then tail (toBracket rest) else rest in
            if suppressed then formatFrom fuel' scanf rest next
            else
              let '(value, next) := take_ next in
              (match value with
               | Some pointer =>
                 if pointerAt pointer then guardConversion scanf conversion isWide dynamicPrecision width precision pointer
                 else mret tt
               | None => mret tt
               end);;
              formatFrom fuel' scanf rest next
          end
    end
  end.

Definition guardFormat (format : LibFormat) : B unit :=
  match argument c (f_format format) ≫= literalAt with
  | None => mret tt
  | Some text =>
    let first := callArgument (lc_match c) (Z.to_nat (f_first format)) in
    if first <? 0 then mret tt
    else formatFrom (S (String.length text)) (match f_kind format with Scanf => true | Printf => false end)
           (characters text) (Z.to_nat first)
  end.

(** ** What becomes of a call *)

(** A constant of at most 113 bytes. *)
Definition small (term : LibTerm) : bool :=
  match term with
  | Constant v => (0 <=? v) && (v <=? 113)
  | Argument arg =>
    match argument c arg ≫= fun i => op_constant (operandAt c i) with Some n => n <=? 113 | None => false end
  | _ => false
  end.

(** The loop from [index] on: whether a parameter was checked; [None] when one
    is not cheap. *)
Fixpoint cheapFrom (ps : list LibraryParam) (index : Z) (checked : bool) : option bool :=
  match ps with
  | [] => Some checked
  | p :: rest =>
    if negb (isPointerParam p) || noAccess p then cheapFrom rest (index + 1) checked
    else if negb (match pa_access p with ARead => true | _ => false end) then None
    else if bool_decide (is_Some (argument c index ≫= literalAt)) then cheapFrom rest (index + 1) true
    else
      match termOf p with
      | None => None
      | Some term => if wide || negb (small term) then None else cheapFrom rest (index + 1) true
      end
  end.

Definition cheapToGuard : bool :=
  if bool_decide (is_Some (e_format (lc_entry c))) && bool_decide (is_Some (e_wrapper (lc_entry c))) then false
  else default false (cheapFrom params 0 false).

(** An argument of the runtime's version: the site, or a value. *)
Inductive redirected := TheSite | AValue (v : value).

Definition namedArguments : option (list nat) :=
  mapM (argument c) (map Z.of_nat (seq 0 (length params))).

(** The call that replaces a redirected one. *)
Definition redirect : option (string * list redirected) :=
  wrapper ← e_wrapper (lc_entry c);
  named ← namedArguments;
  let limit := if wrapperTakesLimit then Some (default (Word Max) objectSize) else None in
  let given := map (fun i => AValue (Operand i)) named in
  if e_variadic (lc_entry c) then
    let last := if bool_decide (params = []) then -1 else callArgument (lc_match c) (length params - 1) in
    if negb (bool_decide (params = [])) && (last <? 0) then None
    else
      let more := seq (Z.to_nat (last + 1)) (length (lc_operands c) - Z.to_nat (last + 1)) in
      Some (wrapper, TheSite :: match limit with Some l => [AValue l] | None => [] end
                     ++ given ++ map (fun i => AValue (Operand i)) more)
  else Some (wrapper, given ++ match limit with Some l => [AValue l] | None => [] end ++ [TheSite]).

Definition computesItsValue : bool :=
  let entry := lc_entry c in
  bool_decide (is_Some (e_value entry)) && negb (e_wide entry) && negb (e_variadic entry)
  && negb (bool_decide (is_Some (e_format entry))) && negb (bool_decide (is_Some (e_wrapper entry)))
  && bool_decide (e_disjoint entry = [])
  && forallb (fun p => negb (isPointerParam p)
       || (negb (writes (pa_access p)) && match pa_effect p with Borrow => true | _ => false end)) (e_params entry).

Definition onlyReads (entry : LibraryEntry) : bool :=
  negb (bool_decide (is_Some (e_format entry)))
  && forallb (fun p => negb (isPointerParam p) || negb (writes (pa_access p))) (e_params entry).

(** The call is left, with the code around it; redirected; or replaced by a
    value. *)
Inductive outcome :=
  | Kept (b : builder)
  | Redirected (b : builder) (name : string) (arguments : list redirected)
  | Replaced (b : builder) (v : value).

Definition unchanged : outcome := Kept start.

(** A call of a declared function that matched a row, in the early pass or in
    the late one. *)
Definition guardCall (late : bool) : outcome :=
  let entry := lc_entry c in
  let deferred := bool_decide (is_Some (e_wrapper entry)) && onlyReads entry in
  let redirecting (b : builder) (otherwise : outcome) : outcome :=
    match redirect with
    | Some (name, arguments) => Redirected (snd (record_ "checked-call" 0 b)) name arguments
    | None => otherwise
    end in
  if deferred && negb late then Kept (snd (guardFirstBytes start))
  else if negb (Bool.eqb deferred late) then unchanged
  else if late then
    if cheapToGuard then Kept (snd (guardArguments start)) else redirecting start unchanged
  else
    let b := match e_format entry with
             | Some format =>
               if negb (f_vaList format) && negb (bool_decide (is_Some (e_wrapper entry)))
               then snd (guardFormat format start) else start
             | None => start
             end in
    let guarded b := Kept (snd (guardArguments b)) in
    let valued b :=
      if negb (bool_decide (is_Some (lc_alias c))) && computesItsValue
         && match lc_result c with IntegerTy bits => bits =? 64 | _ => false end
      then
        match e_value entry with
        | Some term =>
          let '(v, b') := evaluate term None b in
          match v with Some v => Replaced b' v | None => guarded b' end
        | None => guarded b
        end
      else guarded b in
    if cheapToGuard then valued b else redirecting b (valued b).
End Pass.

(** ** The calls of a function *)

(** A call as the pass finds it: its callee, whether it lies in an unsafe
    region. *)
Record callSite := mkCallSite {
  cs_callee : string;
  cs_declaration : bool;
  cs_alwaysInline : bool;
  cs_intrinsic : bool;
  cs_unsafe : bool;
  cs_operands : list operand;
  cs_result : irType
}.

Definition isRuntimeName (name : string) : bool :=
  String.prefix "__weavec_" name || String.prefix "__weavec." name || String.prefix "__ubsan_handle_" name.

(** [consume_back]. *)
Definition withoutSuffix (suffix name : string) : string :=
  let n := (String.length name - String.length suffix)%nat in
  if (Nat.leb (String.length suffix) (String.length name)) && String.eqb (substring n (String.length suffix) name) suffix
  then substring 0 n name else name.

Definition collected (late : bool) (s : callSite) : bool :=
  (cs_declaration s || (negb late && cs_alwaysInline s)) && negb (cs_intrinsic s) && negb (isRuntimeName (cs_callee s)).

(** [guardLibraryCalls], for one call of a function. *)
Definition guardLibraryCall `{Layout} `{Folder} (spec : LibrarySpec) (wchar : option Z) (late : bool) (s : callSite) : outcome :=
  if negb (collected late s) || cs_unsafe s then unchanged
  else
    match lookup spec (withoutSuffix ".inline" (cName (cs_callee s))) (Some (length (cs_operands s))) with
    | Some (mkLibraryMatch (Some entry) alias) =>
      let c := mkCall entry alias (cs_operands s) (cs_result s) wchar in
      if negb (cs_declaration s) then Kept (snd (checkField c start)) else guardCall c late
    | _ => unchanged
    end.

Definition guardLibraryCalls `{Layout} `{Folder} (spec : LibrarySpec) (wchar : option Z) (late : bool) (calls : list callSite)
  : list outcome :=
  map (guardLibraryCall spec wchar late) calls.

Definition guardsAnArgument (entry : LibraryEntry) : bool :=
  existsb (fun p => isPointerParam p && negb (noAccess p) && match pa_effect p with Borrow => true | _ => false end)
    (e_params entry).
