(* ===== verification/CallRuns.v ===== *)
(** * Guarded library calls at run time

    What the code of the file CallGuards does when the program runs: each
    instruction is a check of the runtime (the file GuardEntry; that the inline
    code in front of a check decides as the check is the file InlineGuard's),
    and a computed length is the next of the environment.  The theorems say
    what the checks around a call demand, as a function of the row. *)

From Stdlib Require Import String.
From S2P Require Import Prelude Shadow Report Guard GuardEntry Libc LibcFormat LibcFacts.
From S2P Require Import LibTerm LibrarySpec CallGuards.
Local Open Scope Z_scope.

(** ** Values *)

(** The operands (unsigned, at their width), the lengths computed so far, the
    call's result. *)
Record env := mkEnv { ev_operands : list Z; ev_computed : list Z; ev_result : Z }.

Definition operandValue (e : env) (i : nat) : Z := nth i (ev_operands e) 0.

Definition saturated (n : Z) : Z := Z.min n Max.

Definition mul64 (x y : Z) : Z := wrap64 (x * y).

Definition signExtended (bits x : Z) : Z :=
  if 64 <=? bits then wrap64 x else wrap64 (if x <? 2 ^ (bits - 1) then x else x - 2 ^ bits).

Fixpoint valueOf (e : env) (v : value) : Z :=
  match v with
  | Word n => n
  | Operand i => operandValue e i
  | Result => ev_result e
  | Computed k => nth k (ev_computed e) 0
  | SExtOrTrunc bits v => signExtended bits (valueOf e v)
  | ZExtOrTrunc bits v => wrap64 (valueOf e v)
  | MulSaturated l r => saturated (valueOf e l * valueOf e r)
  | AddSaturated l r => saturated (valueOf e l + valueOf e r)
  | SubSaturated l n => if valueOf e l <? n then 0 else valueOf e l - n
  | UMin l r => Z.min (valueOf e l) (valueOf e r)
  | UDiv l n => valueOf e l / n
  | Mul l r => mul64 (valueOf e l) (valueOf e r)
  | Add l r => add64 (valueOf e l) (valueOf e r)
  | Sub l r => sub64 (valueOf e l) (valueOf e r)
  | IfNull p null other => if operandValue e p =? 0 then valueOf e null else valueOf e other
  end.

Definition extend (e : env) (lengths : list Z) : env := mkEnv (ev_operands e) (ev_computed e ++ lengths) (ev_result e).

(** ** Code *)

Section Code.
Context {T : Thread} {H : HeapView} {M : Machine} (here : Z) (siteFor : Z -> site).

Definition siteOf (flags bit siteFlag : Z) : option site := Some (siteFor (if Z.testbit flags bit then siteFlag else 0)).

Definition overlaps (d s n : Z) : bool := (d <? add64 s n) && (s <? add64 d n) && negb (d =? s).

Definition runOne (i : instruction) (e : env) : C env :=
  match i with
  | CallGuards.Guard p width flags =>
    guarded (fun _ => __weavec_rt_guard (operandValue e p) width (siteOf flags 0 WeavecRtSiteWrite) here);; mret e
  | RangeGuard p bytes flags =>
    guarded (fun _ => __weavec_rt_range (operandValue e p) (valueOf e bytes) (siteOf flags 0 WeavecRtSiteWrite) here);; mret e
  | StringGuard p bound flags =>
    n ← strlen here (operandValue e p) (valueOf e bound) (siteOf flags 2 WeavecRtSiteNullOk); mret (extend e [n])
  | WideLength p bound siteFlags =>
    n ← __weavec_rt_wcslen here (operandValue e p) (valueOf e bound) (Some (siteFor siteFlags)); mret (extend e [n])
  | Limit p bytes limit =>
    Libc.checkLimit (operandValue e p) (valueOf e bytes) (valueOf e limit) (siteFor WeavecRtSiteWrite);; mret e
  | Disjoint first second length =>
    let d := operandValue e first in
    let s := operandValue e second in
    let n := valueOf e length in
    when (overlaps d s n) (guarded (fun _ => __weavec_rt_overlap d s n (Some (siteFor WeavecRtSiteWrite))));; mret e
  end.

Fixpoint runCode (code : list instruction) (e : env) : C env :=
  match code with
  | [] => mret e
  | i :: rest => e ← runOne i e; runCode rest e
  end.

Definition runAfter (a : afterCode) (e : env) : C unit :=
  match a with
  | Straight code => _ ← runCode code e; mret tt
  | OnResult found missed => _ ← runCode (if ev_result e =? 0 then missed else found) e; mret tt
  end.

Fixpoint runAfters (l : list afterCode) (e : env) : C unit :=
  match l with
  | [] => mret tt
  | a :: rest => runAfter a e;; runAfters rest e
  end.
End Code.

(** ** What a row demands *)

Section Demanded.
Context (c : LibraryCall) (e0 : env) {M : Machine} (st0 : cstate).

(** The length of the string at operand [i], at most [bound]. *)
Definition lengthUpTo (i : nat) (bound : Z) : Z :=
  match literalAt c i with
  | Some text => Z.min (Z.of_nat (String.length text)) bound
  | None => answerOf st0 (operandValue e0 i) bound
  end.

Definition stringDemands (i : nat) (bound : Z) (null : bool) : list demand :=
  match literalAt c i with Some _ => [] | None => [Ends (operandValue e0 i) bound null] end.

Definition namedPointer (arg : Z) : option nat := i ← argument c arg; if pointerAt c i then Some i else None.

(** A term's value, saturated; [None] when a leaf has none. *)
Fixpoint meaning (t : LibTerm) (bound : Z) : option Z :=
  match t with
  | Constant v => Some (Z.max v 0)
  | Argument arg =>
    i ← argument c arg;
    match op_type (operandAt c i) with IntegerTy bits => Some (signExtended bits (operandValue e0 i)) | _ => None end
  | StringLength arg => i ← namedPointer arg; Some (lengthUpTo i bound)
  | Product l r => x ← meaning l bound; y ← meaning r bound; Some (saturated (x * y))
  | Sum l r => x ← meaning l bound; y ← meaning r bound; Some (saturated (x + y))
  | Difference l v => x ← meaning l bound; Some (Z.max 0 (x - Z.max v 0))
  | Min l r => x ← meaning l bound; y ← meaning r x; Some (Z.min x y)
  | Quotient l v => x ← meaning l bound; if v <=? 0 then None else Some (x / v)
  end.

(** The strings its evaluation measures. *)
Fixpoint termDemands (t : LibTerm) (bound : Z) : list demand :=
  match t with
  | Constant _ | Argument _ => []
  | StringLength arg => match namedPointer arg with Some i => stringDemands i bound (nullOk c arg) | None => [] end
  | Product l r | Sum l r => termDemands l bound ++ termDemands r bound
  | Difference l _ | Quotient l _ => termDemands l bound
  | Min l r => termDemands l bound ++ match meaning l bound with Some x => termDemands r x | None => [] end
  end.

(** The bytes at a pointer the call accepts as null. *)
Definition bytesUnlessNull (p : LibraryParam) (i : nat) (n : Z) : Z :=
  match pa_null p with Allowed => if operandValue e0 i =? 0 then 0 else n | _ => n end.

(** A parameter that is read or written, and the limit the next ones have. *)
Definition argumentDemands (p : LibraryParam) (index : Z) (i : nat) (limit : option Z) : list demand * option Z :=
  let string := if pa_string p then stringDemands i Max (nullOk c index) else [] in
  match termOf p ≫= fun t => boundedScan t index with
  | Some t =>
    (string ++ termDemands t Max ++ match meaning t Max with Some n => stringDemands i n (nullOk c index) | None => [] end, limit)
  | None =>
    let '(measured, bytes) :=
      match termOf p with
      | Some t => (termDemands t Max, meaning t Max)
      | None => ([], if pa_string p then None else Some 1)
      end in
    match bytes with
    | None => (string ++ measured, limit)
    | Some n =>
      let n := bytesUnlessNull p i n in
      let usable := string ++ measured ++ [Usable (operandValue e0 i) n] in
      match limit with
      | Some l => if writes (pa_access p) then (usable ++ [Within n l], None) else (usable, limit)
      | None => (usable, None)
      end
    end
  end.

(** Before a search: its first byte, unless its count is zero. *)
Definition scanStartDemands (p : LibraryParam) (i : nat) : list demand :=
  match termOf p with
  | Some t =>
    termDemands t Max ++ match meaning t Max with
                         | Some n => [Usable (operandValue e0 i) (bytesUnlessNull p i (Z.min n 1))]
                         | None => []
                         end
  | None => [Usable (operandValue e0 i) (bytesUnlessNull p i 1)]
  end.

Fixpoint paramsDemands (ps : list LibraryParam) (index : Z) (limit : option Z) : list demand :=
  match ps with
  | [] => []
  | p :: rest =>
    if negb (isPointerParam p) || noAccess p then paramsDemands rest (index + 1) limit
    else
      match argument c index with
      | None => paramsDemands rest (index + 1) limit
      | Some i =>
        if negb (spaceZero c i) then paramsDemands rest (index + 1) limit
        else if bool_decide (is_Some (pa_scan p)) then
          (if bool_decide (is_Some (literalAt c i)) then [] else scanStartDemands p i) ++ paramsDemands rest (index + 1) limit
        else
          match pa_effect p with
          | Borrow =>
            let '(ds, limit) := argumentDemands p index i limit in
            ds ++ paramsDemands rest (index + 1) limit
          | _ => paramsDemands rest (index + 1) limit
          end
      end
  end.

Fixpoint disjointDemands (l : list LibDisjoint) : list demand :=
  match l with
  | [] => []
  | d :: rest =>
    match namedPointer (d_first d), namedPointer (d_second d) with
    | Some first, Some second =>
      termDemands (d_length d) Max
      ++ match meaning (d_length d) Max with
         | Some n => [Apart (operandValue e0 first) (operandValue e0 second) n]
         | None => []
         end
    | _, _ => []
    end ++ disjointDemands rest
  end.

(** What the row demands before a call that may write [limit] bytes. *)
Definition rowDemands (limit : option Z) : list demand :=
  paramsDemands (params c) 0 limit ++ disjointDemands (e_disjoint (lc_entry c)).
End Demanded.

(** ** What a call may write *)

Section Limits.
Context `{Layout}.

(** The type the constant indices lead to. *)
Inductive leads : layoutType -> list (option Z) -> layoutType -> Prop :=
  | leads_here t : leads t [] t
  | leads_field elements index t rest u :
    nth_error elements (Z.to_nat index) = Some t -> leads t rest u -> leads (StructType elements) (Some index :: rest) u
  | leads_element t n index rest u : leads t rest u -> leads (ArrayType t n) (Some index :: rest) u.

(** The pointer is [&s.f] of the field [f], an array and not the last field of
    its structure; of [n] bytes. *)
Definition pointsToField (p : pointerValue) (n : Z) : Prop :=
  exists members before index elements element count base,
    p = Gep (StructType members) (Some 0 :: before ++ [Some index]) base
    /\ leads (StructType members) before (StructType elements)
    /\ nth_error elements (Z.to_nat index) = Some (ArrayType element count)
    /\ index + 1 < Z.of_nat (length elements)
    /\ n = getTypeAllocSize (ArrayType element count).

(** The same, or the field's first element. *)
Definition namesField (p : pointerValue) (n : Z) : Prop :=
  pointsToField p n
  \/ exists element count zeros q, p = Gep (ArrayType element count) zeros q /\ Forall (fun i => i = Some 0) zeros /\ pointsToField q n.

Context (c : LibraryCall) (e0 : env).

(** The field the first parameter the call writes through names, for a narrow
    row with a checked version one of whose fortified forms takes a size. *)
Definition fieldBytes (n : Z) : Prop :=
  wide c = false /\ is_Some (e_wrapper (lc_entry c)) /\ (exists chk, In chk (e_chk (lc_entry c)) /\ 0 <= c_sizeArgument chk)
  /\ exists k p i,
      nth_error (params c) k = Some p /\ pa_type p = TPointer /\ (pa_access p = AWrite \/ pa_access p = AReadWrite)
      /\ (forall k' p', (k' < k)%nat -> nth_error (params c) k' = Some p' ->
           pa_type p' = TPointer -> pa_access p' <> AWrite /\ pa_access p' <> AReadWrite)
      /\ argument c (Z.of_nat k) = Some i /\ (exists space, op_type (operandAt c i) = PointerTy space)
      /\ namesField (op_pointer (operandAt c i)) n.

(** The object size a fortified form states, when it is known: not all ones. *)
Definition statedBytes (n : Z) : Prop :=
  exists alias i bits, lc_alias c = Some alias /\ c_sizeArgument alias = Z.of_nat i /\ (i < length (lc_operands c))%nat
    /\ op_type (operandAt c i) = IntegerTy bits /\ op_constant (operandAt c i) <> Some (2 ^ bits - 1)
    /\ n = wrap64 (operandValue e0 i).

(** The most the call may write: the least of the two. *)
Definition mayWrite (limit : option Z) : Prop :=
  match limit with
  | Some n => (fieldBytes n \/ statedBytes n) /\ forall m, fieldBytes m \/ statedBytes m -> n <= m
  | None => forall n, ~ fieldBytes n /\ ~ statedBytes n
  end.

Lemma walk_app l1 l2 : forall parent field t,
  walkIndices (l1 ++ l2) parent field t
  = match walkIndices l1 parent field t with Some (parent, field, t) => walkIndices l2 parent field t | None => None end.
Proof. induction l1 as [|[i|] l1 IH]; intros parent field t; cbn [app walkIndices]; [done| |done]. destruct t; [apply IH|apply IH|done]. Qed.

Lemma walk_leads indices u : (forall name, u <> ScalarType name) -> forall parent field t,
  (exists parent' field', walkIndices indices parent field t = Some (parent', field', u)) <-> leads t indices u.
Proof.
  intros Hu. induction indices as [|[i|] indices IH]; intros parent field t; cbn [walkIndices].
  - split; [intros (? & ? & [= <- <- <-]); constructor|]. intros Hl. inversion Hl; subst. by eexists _, _.
  - destruct t as [elements|element n|name].
    + rewrite IH. split.
      * intros Hl. destruct (nth_error elements (Z.to_nat i)) as [t'|] eqn:E.
        -- econstructor; [exact E|]. by rewrite (nth_error_nth elements _ (ScalarType "") E) in Hl.
        -- exfalso. apply nth_error_None in E. rewrite nth_overflow in Hl by done. inversion Hl; subst. by eapply Hu.
      * intros Hl. inversion Hl as [|? ? t' ? ? E Hr|]; subst. by rewrite (nth_error_nth elements _ (ScalarType "") E).
    + rewrite IH. split; [by constructor|]. intros Hl. by inversion Hl.
    + split; [by intros (? & ? & ?)|]. intros Hl. inversion Hl.
  - split; [by intros (? & ? & ?)|]. intros Hl. inversion Hl.
Qed.

Lemma struct_points p n : pointsToField p n -> throughDecay p = p /\ fieldLimit p = Some n.
Proof.
  intros (members & before & index & elements & element & count & base & -> & Hl & He & Hlast & ->).
  assert (Ed : forall l q, throughDecay (Gep (StructType members) l q) = Gep (StructType members) l q) by done.
  split; [done|]. unfold fieldLimit. rewrite Ed. cbn [isStructTy negb].
  apply (walk_leads _ (StructType elements) ltac:(done) None 0) in Hl as (parent & field & Hw).
  destruct (before ++ [Some index]) as [|first rest] eqn:Eb; [by destruct before|]. rewrite <- Eb, walk_app, Hw. cbn [walkIndices].
  rewrite (nth_error_nth elements _ (ScalarType "") He). cbn [isArrayTy andb]. by rewrite (proj2 (Z.ltb_lt _ _) Hlast).
Qed.

Lemma points_struct members indices base n :
  fieldLimit (Gep (StructType members) indices base) = Some n -> pointsToField (Gep (StructType members) indices base) n.
Proof.
  unfold fieldLimit. cbn [throughDecay isArrayTy andb]. destruct indices as [|[[| |]|] [|first rest]]; try done. cbn [isStructTy negb].
  destruct (@exists_last _ (first :: rest) ltac:(done)) as (before & last & ->). rewrite walk_app.
  destruct (walkIndices before None 0 (StructType members)) as [[[parent field] t]|] eqn:Ew; [|done]. cbn [walkIndices].
  destruct last as [index|]; [|done]. destruct t as [elements|element count|name]; [|done|done].
  destruct (nth_error elements (Z.to_nat index)) as [t|] eqn:E.
  2:{ apply nth_error_None in E. by rewrite nth_overflow by done. }
  rewrite (nth_error_nth elements _ (ScalarType "") E). destruct t as [|element count|]; [done| |done]. cbn [isArrayTy andb].
  destruct (Z.ltb_spec (index + 1) (Z.of_nat (length elements))); [|done]. intros [= <-].
  exists members, before, index, elements, element, count, base. split; [done|]. split; [|done].
  apply (walk_leads before (StructType elements) ltac:(done) None 0). eauto.
Qed.

Lemma fieldLimit_exact p n : fieldLimit p = Some n <-> namesField p n.
Proof.
  split.
  - intros Hf. destruct p as [source indices base|]; [|done]. destruct source as [members|element count|name].
    + left. by apply points_struct.
    + right. exists element, count, indices, base. split; [done|].
      destruct (forallb (fun i => match i with Some 0 => true | _ => false end) indices) eqn:Ez.
      * assert (Ed : throughDecay (Gep (ArrayType element count) indices base) = base) by (cbn; by rewrite Ez).
        split; [apply List.Forall_forall; intros i Hi; rewrite forallb_forall in Ez; specialize (Ez i Hi); by destruct i as [[| |]|]|].
        unfold fieldLimit in Hf. rewrite Ed in Hf. destruct base as [source [|[[| |]|] [|i rest]] base'|]; try done.
        destruct source as [members| |]; [|done|done]. by apply points_struct.
      * exfalso. unfold fieldLimit in Hf. cbn [throughDecay isArrayTy andb] in Hf. rewrite Ez in Hf. by destruct indices as [|[[| |]|] [|i rest]].
    + exfalso. unfold fieldLimit in Hf. cbn in Hf. by destruct indices as [|[[| |]|] [|i rest]].
  - intros [Hp|(element & count & zeros & q & -> & Hz & Hp)]; [by apply struct_points|].
    pose proof (struct_points q n Hp) as [Eq Hf]. unfold fieldLimit in Hf |- *. rewrite Eq in Hf.
    assert (Ez : forallb (fun i => match i with Some 0 => true | _ => false end) zeros = true).
    { apply forallb_forall. intros i Hi. rewrite List.Forall_forall in Hz. by rewrite (Hz i Hi). }
    assert (Ed : throughDecay (Gep (ArrayType element count) zeros q) = q) by (cbn; by rewrite Ez). by rewrite Ed.
Qed.

Definition writtenParam (p : LibraryParam) : bool := isPointerParam p && writes (pa_access p).

Lemma writtenParam_true p : writtenParam p = true <-> pa_type p = TPointer /\ (pa_access p = AWrite \/ pa_access p = AReadWrite).
Proof. unfold writtenParam, isPointerParam, writes. destruct (pa_type p), (pa_access p); cbn; naive_solver. Qed.

Lemma firstWritten_exact ps : forall index j, firstWritten ps index = Some j <->
  exists k p, nth_error ps k = Some p /\ writtenParam p = true
    /\ (forall k' p', (k' < k)%nat -> nth_error ps k' = Some p' -> writtenParam p' = false) /\ j = index + Z.of_nat k.
Proof.
  induction ps as [|q ps IH]; intros index j; cbn [firstWritten].
  { split; [done|]. intros (k & p & Hk & _). by destruct k. }
  change (isPointerParam q && writes (pa_access q)) with (writtenParam q). destruct (writtenParam q) eqn:Eq.
  - split.
    + intros [= <-]. exists 0%nat, q. split_and!; try done; lia.
    + intros (k & p & Hk & Hw & Hfirst & ->). destruct k as [|k]; [f_equal; lia|].
      specialize (Hfirst 0%nat q ltac:(lia) eq_refl). congruence.
  - rewrite IH. split.
    + intros (k & p & Hk & Hw & Hfirst & ->). exists (S k), p. split_and!; try done; [|lia].
      intros [|k'] p' Hlt Hk'; [by injection Hk' as <-|]. apply (Hfirst k'); [lia|done].
    + intros (k & p & Hk & Hw & Hfirst & ->). destruct k as [|k]; [injection Hk as ->; congruence|].
      exists k, p. split_and!; try done; [|lia]. intros k' p' Hlt Hk'. apply (Hfirst (S k') p'); [lia|done].
Qed.

Lemma takes_limit : wrapperTakesLimit c = true <-> exists chk, In chk (e_chk (lc_entry c)) /\ 0 <= c_sizeArgument chk.
Proof.
  unfold wrapperTakesLimit. rewrite existsb_exists. split; intros (chk & Hin & Hs); exists chk; (split; [done|]); by apply Z.leb_le.
Qed.

Lemma pointer_at i : pointerAt c i = true <-> exists space, op_type (operandAt c i) = PointerTy space.
Proof. unfold pointerAt. destruct (op_type (operandAt c i)); cbn; naive_solver. Qed.

Lemma written_exact n : valueOf e0 <$> writtenField c = Some n <-> fieldBytes n.
Proof.
  unfold writtenField, fieldBytes. destruct (wide c); cbn [orb]; [by split; [|intros [? _]]|].
  case_bool_decide as Hwrapper; cbn [negb orb]; [|split; [done|by intros (_ & ? & _)]]. rewrite <- takes_limit.
  destruct (wrapperTakesLimit c); cbn [negb]; [|split; [done|by intros (_ & _ & ? & _)]]. split.
  - destruct (firstWritten (params c) 0) as [index|] eqn:E; [|done]. apply firstWritten_exact in E as (k & p & Hk & Hp & Hfirst & ->).
    cbn [mbind option_bind]. rewrite Z.add_0_l. destruct (argument c (Z.of_nat k)) as [i|] eqn:Ei; [|done]. cbn [mbind option_bind].
    destruct (pointerAt c i) eqn:Ep; [|done]. cbn [negb]. destruct (fieldLimit _) as [m|] eqn:Ef; [|done]. intros [= <-].
    apply writtenParam_true in Hp as [Hp1 Hp2]. split_and!; [done|done|done|]. exists k, p, i. split_and!; try done; [|by apply pointer_at|by apply fieldLimit_exact].
    intros k' p' Hlt Hk' Ht. specialize (Hfirst k' p' Hlt Hk'). apply not_true_iff_false in Hfirst. rewrite writtenParam_true in Hfirst. tauto.
  - intros (_ & _ & _ & k & p & i & Hk & Ht & Ha & Hfirst & Ei & Hp & Hn).
    assert (E : firstWritten (params c) 0 = Some (Z.of_nat k)).
    { apply firstWritten_exact. exists k, p. split_and!; [done|by apply writtenParam_true| |lia]. intros k' p' Hlt Hk'.
      apply not_true_iff_false. rewrite writtenParam_true. intros [Ht' Ha']. destruct (Hfirst k' p' Hlt Hk' Ht'). tauto. }
    apply pointer_at in Hp. apply fieldLimit_exact in Hn. rewrite E. cbn [mbind option_bind]. rewrite Ei. cbn [mbind option_bind].
    rewrite Hp. cbn [negb]. by rewrite Hn.
Qed.

Lemma stated_exact n : wide c = false -> valueOf e0 <$> statedSize c = Some n <-> statedBytes n.
Proof.
  intros Hw. unfold statedSize, statedBytes, sizeArgument, lc_match. cbn [m_alias]. rewrite Hw. destruct (lc_alias c) as [alias|].
  2:{ split; [done|by intros (? & ? & ? & ? & _)]. }
  destruct (Z.ltb_spec (c_sizeArgument alias) 0); cbn [orb].
  { split; [done|]. intros (? & i & bits & [= <-] & Hs & _). lia. }
  destruct (Z.leb_spec (Z.of_nat (length (lc_operands c))) (c_sizeArgument alias)).
  { split; [done|]. intros (? & i & bits & [= <-] & Hs & Hi & _). lia. }
  destruct (op_type (operandAt c (Z.to_nat (c_sizeArgument alias)))) as [bits|space|] eqn:Et.
  2,3: split; [done|]; intros (? & i & bits' & [= <-] & Hs & _ & Ht & _); rewrite Hs, Nat2Z.id in Et; congruence.
  destruct (match op_constant _ with Some n => n =? 2 ^ bits - 1 | None => false end) eqn:Ec.
  - split; [done|]. intros (? & i & bits' & [= <-] & Hs & _ & Ht & Hc & _). rewrite Hs, Nat2Z.id in Et, Ec.
    destruct (op_constant _) as [k|]; [|done]. apply Z.eqb_eq in Ec. exfalso. apply Hc. congruence.
  - cbn. split.
    + intros [= <-]. exists alias, (Z.to_nat (c_sizeArgument alias)), bits. split_and!; try done; [lia|lia|].
      intros Hc. rewrite Hc in Ec. by apply Z.eqb_neq in Ec.
    + intros (? & i & bits' & [= <-] & Hs & _ & _ & _ & ->). by rewrite Hs, Nat2Z.id.
Qed.

(** The pass's object size is what the call may write. *)
Lemma writtenSize_exact : wide c = false -> mayWrite (valueOf e0 <$> objectSize c).
Proof.
  intros Hw. pose proof written_exact as Hf. assert (Hs : forall n, valueOf e0 <$> statedSize c = Some n <-> statedBytes n) by (intros n; by apply stated_exact).
  unfold objectSize. destruct (writtenField c) as [f|], (statedSize c) as [s|]; cbn in *; setoid_rewrite <- Hf; setoid_rewrite <- Hs.
  - split; [|intros m [[= <-]|[= <-]]; lia]. destruct (Z.min_spec (valueOf e0 f) (valueOf e0 s)) as [[_ ->]|[_ ->]]; tauto.
  - split; [by left|]. intros m [[= <-]|?]; [lia|done].
  - split; [by right|]. intros m [?|[= <-]]; [done|lia].
  - done.
Qed.
Lemma mayWrite_unique l l' : mayWrite l -> mayWrite l' -> l = l'.
Proof.
  unfold mayWrite. destruct l as [n|], l' as [m|]; try done.
  - intros [Hn Hle] [Hm Hle']. specialize (Hle m Hm). specialize (Hle' n Hn). f_equal. lia.
  - intros [Hn _] Hno. destruct (Hno n). tauto.
  - intros Hno [Hm _]. destruct (Hno m). tauto.
Qed.
End Limits.

(** ** The value the table gives *)

(** No part of a term is negative. *)
Fixpoint natural (values : Values) (t : LibTerm) : Prop :=
  (forall v, LibTerm.denotes values t v -> 0 <= v)
  /\ match t with
     | Product l r | Sum l r | Min l r => natural values l /\ natural values r
     | Difference l _ | Quotient l _ => natural values l
     | _ => True
     end.

Lemma natural_rounds values t : natural values t -> rounds_in_range values t.
Proof.
  induction t; cbn [natural rounds_in_range]; try done; try (intros (_ & Hl & Hr); split; [by apply IHt1|by apply IHt2]).
  - intros (_ & Hl). by apply IHt.
  - intros (_ & Hl). split; [by apply IHt|]. intros x Hx. left. destruct t; apply Hl; exact Hx.
Qed.

(** Terms the table uses: under [min(t, e)] a string's length is [e], or [e] is
    a length and a constant. *)
Fixpoint noStrings (t : LibTerm) : bool :=
  match t with
  | StringLength _ => false
  | Product l r | Sum l r | Min l r => noStrings l && noStrings r
  | Difference l _ | Quotient l _ => noStrings l
  | _ => true
  end.

Definition boundable (t : LibTerm) : bool :=
  match t with
  | StringLength _ => true
  | Sum (StringLength _) (Constant _) => true
  | _ => noStrings t
  end.

Fixpoint term_ok (t : LibTerm) : bool :=
  match t with
  | Product l r | Sum l r => term_ok l && term_ok r
  | Difference l _ | Quotient l _ => term_ok l
  | Min l r => term_ok l && term_ok r && boundable r
  | Constant v => v <=? Max
  | _ => true
  end.

Section Valued.
Context (c : LibraryCall) (e0 : env) {M : Machine} (st0 : cstate) (values : Values).

(** The leaves are what the call's operands and strings are. *)
Record leaves_agree : Prop := {
  la_arguments : forall arg x, ask (v_argument values) arg = Some x -> 0 <= x ->
    exists i bits, argument c arg = Some i /\ op_type (operandAt c i) = IntegerTy bits
                   /\ signExtended bits (operandValue e0 i) = x;
  la_lengths : forall arg n, ask (v_stringLength values) arg = Some n ->
    exists i, namedPointer c arg = Some i /\ forall m, 0 <= m -> lengthUpTo c e0 st0 i m = Z.min n m
}.

Context (Hleaves : leaves_agree).

Context (Hints : leaves_ok values).

Lemma natural_range t v : term_wf t -> natural values t -> LibTerm.denotes values t v -> 0 <= v <= int64_max.
Proof.
  intros Hwf Hn Hd. pose proof (denotes_int64 values t v Hints Hwf Hd) as [_ Hi].
  assert (0 <= v) by (destruct t; by apply Hn). lia.
Qed.

Lemma saturated_small v : 0 <= v <= int64_max -> saturated v = v.
Proof. unfold saturated, int64_max, Max. lia. Qed.

Lemma noStrings_value t : noStrings t = true -> forall m, meaning c e0 st0 t m = meaning c e0 st0 t Max.
Proof.
  induction t; cbn [noStrings meaning]; try done.
  - intros [Hl Hr]%andb_true_iff m. by rewrite (IHt1 Hl), (IHt2 Hr).
  - intros [Hl Hr]%andb_true_iff m. by rewrite (IHt1 Hl), (IHt2 Hr).
  - intros Hl m. by rewrite (IHt Hl).
  - intros [Hl Hr]%andb_true_iff m. by rewrite (IHt1 Hl).
  - intros Hl m. by rewrite (IHt Hl).
Qed.

(** The right operand of a [min], bounded by the left one. *)
Lemma bounded_value r y m :
  boundable r = true -> term_wf r -> natural values r -> LibTerm.denotes values r y ->
  (forall v, LibTerm.denotes values r v -> meaning c e0 st0 r Max = Some v) -> 0 <= m <= int64_max ->
  exists k, meaning c e0 st0 r m = Some k /\ Z.min m k = Z.min m y.
Proof.
  intros Hb Hwf Hn Hd Hmax Hm.
  assert (Hplain : noStrings r = true -> exists k, meaning c e0 st0 r m = Some k /\ Z.min m k = Z.min m y).
  { intros Hs. exists y. rewrite noStrings_value by done. split; [by apply Hmax|done]. }
  destruct r as [| |arg| |r1 r2| | |]; try (by apply Hplain).
  - inversion Hd as [| |? ? Hask| | | | |]; subst. destruct (la_lengths Hleaves arg y Hask) as (i & Ei & Hlen).
    cbn [meaning]. rewrite Ei. cbn. exists (lengthUpTo c e0 st0 i m). split; [done|]. rewrite Hlen by lia. lia.
  - destruct r1 as [| |arg| | | | |]; try (by apply Hplain). destruct r2 as [k0| | | | | | |]; try (by apply Hplain).
    inversion Hd as [| | | |? ? x z Hx Hz Hi| | |]; subst. inversion Hx as [| |? ? Hask| | | | |]; subst. inversion Hz; subst.
    destruct (la_lengths Hleaves arg x Hask) as (i & Ei & Hlen). cbn [meaning]. rewrite Ei. cbn [mbind option_bind].
    exists (saturated (lengthUpTo c e0 st0 i m + Z.max z 0)). split; [done|]. rewrite Hlen by lia.
    destruct Hwf as [_ Hk]. cbn in Hk. assert (0 <= x) by (destruct Hn as (_ & [Hx0 _] & _); by apply Hx0).
    unfold saturated, int64, int64_max, Max in *. lia.
Qed.

Ltac value_of IH :=
  match goal with Hd : LibTerm.denotes values _ _ |- _ => rewrite (IH _ ltac:(done) ltac:(done) ltac:(done) Hd) end.

Lemma meaning_value t : forall v,
  term_wf t -> term_ok t = true -> natural values t -> LibTerm.denotes values t v -> meaning c e0 st0 t Max = Some v.
Proof.
  induction t as [k|arg|arg|l IHl r IHr|l IHl r IHr|l IHl k|l IHl r IHr|l IHl k]; intros v Hwf Hok Hn Hd;
    pose proof (natural_range _ v Hwf Hn Hd) as Hv; inversion Hd; subst; cbn [meaning]; cbn in Hwf, Hok, Hn.
  - f_equal. lia.
  - destruct (la_arguments Hleaves arg v) as (i & bits & -> & Ht & Es); [done|lia|]. cbn. by rewrite Ht, Es.
  - destruct (la_lengths Hleaves arg v) as (i & -> & Hlen); [done|]. cbn. rewrite Hlen by (unfold Max; lia).
    f_equal. unfold int64_max, Max in *. lia.
  - apply andb_true_iff in Hok as [Ol Or]. destruct Hwf as [Wl Wr], Hn as (_ & Nl & Nr).
    value_of IHl. value_of IHr. cbn. by rewrite saturated_small.
  - apply andb_true_iff in Hok as [Ol Or]. destruct Hwf as [Wl Wr], Hn as (_ & Nl & Nr).
    value_of IHl. value_of IHr. cbn. by rewrite saturated_small.
  - destruct Hwf as [Wl Wk], Hn as (_ & Nl). value_of IHl. cbn. f_equal. lia.
  - apply andb_true_iff in Hok as [[Ol Or]%andb_true_iff Ob]. destruct Hwf as [Wl Wr], Hn as (_ & Nl & Nr).
    value_of IHl. cbn [mbind option_bind].
    destruct (bounded_value r y x) as (z & -> & Hz); [done..|by eauto|by apply (natural_range l x)|]. cbn. by rewrite Hz.
  - destruct Hwf as [Wl Wk], Hn as (_ & Nl). value_of IHl. cbn. by rewrite (proj2 (Z.leb_gt k 0)) by lia.
Qed.
End Valued.

(** ** The checks implement the demands *)

Section Implements.
Context {T : Thread} {H : HeapView} {M : Machine} `{Layout} `{Folder} (here : Z) (siteFor : Z -> site).
Context (c : LibraryCall) (e0 : env) (st0 : cstate).

(** What the pass and the loader promise: operands are words of their width,
    constants what the pass saw, a folded value what the code computes. *)
Record operands_ok (e : env) : Prop := {
  ok_words : Forall (fun a => 0 <= a < 2 ^ 64) (ev_operands e);
  ok_lengths : Forall (fun a => 0 <= a < 2 ^ 64) (ev_computed e);
  ok_result : 0 <= ev_result e < 2 ^ 64;
  ok_constants : forall i n, op_constant (operandAt c i) = Some n -> operandValue e i = n
}.

Definition folds_ok : Prop := forall v n e, folded v = Some n -> operands_ok e -> valueOf e v = n.

Context (Hnarrow : wide c = false) (Hfold : folds_ok) (Hready : ready st0 None).
Context (Hsites : forall f, stop (gs_reports (cs_guard st0)) (Some (siteFor f)) = true)
        (Hnulls : forall f, nullAllowed (Some (siteFor f)) = Z.testbit f 3).

(** [v] is [n] from here on, whatever lengths the code still computes. *)
Definition denotes (e : env) (v : value) (n : Z) : Prop :=
  0 <= n < 2 ^ 64 /\ forall more, valueOf (extend e more) v = n.

Lemma extend_extend e l k : extend (extend e l) k = extend e (l ++ k).
Proof. unfold extend. cbn. by rewrite app_assoc. Qed.

Lemma extend_nil e : extend e [] = e.
Proof. destruct e. unfold extend. cbn. by rewrite app_nil_r. Qed.

Lemma denotes_extend e v n more : denotes e v n -> denotes (extend e more) v n.
Proof. intros [Hn Hv]. split; [done|]. intros more'. by rewrite extend_extend. Qed.

Lemma denotes_now e v n : denotes e v n -> valueOf e v = n.
Proof. intros [_ Hv]. specialize (Hv []). by rewrite extend_nil in Hv. Qed.

Lemma denotes_word e n : 0 <= n < 2 ^ 64 -> denotes e (Word n) n.
Proof. intros Hn. by split. Qed.

(** The builder's state goes with the environment: what it has computed. *)
Definition along (b : builder) (e : env) : Prop :=
  length (ev_computed e) = b_computed b /\ operands_ok e /\ ev_operands e = ev_operands e0.

Lemma along_operand b e i : along b e -> operandValue e i = operandValue e0 i.
Proof. intros (_ & _ & E). unfold operandValue. by rewrite E. Qed.

(** [m] builds code that goes on exactly when [ds] hold, and answers something
    of which [P] holds in the environment the code leaves. *)
Definition emits {A} (m : B A) (b : builder) (e : env) (ds : list demand) (P : A -> env -> Prop) : Prop :=
  let '(a, b') := m b in
  exists code lengths,
    b_code b' = b_code b ++ code /\ b_after b' = b_after b /\ along b' (extend e lengths)
    /\ (forall st, near here st0 st -> needs here st0 ds (extend e lengths) (runCode here siteFor code e st))
    /\ P a (extend e lengths).

Lemma emits_ret {A} (a : A) b e (P : A -> env -> Prop) : along b e -> P a e -> emits (mret a) b e [] P.
Proof.
  intros Ha HP. exists [], []. rewrite app_nil_r, extend_nil. split; [done|]. split; [done|]. split; [done|]. split; [|done].
  intros st Hn. by apply needs_ret.
Qed.

Lemma runCode_app code1 code2 : forall e st,
  runCode here siteFor (code1 ++ code2) e st = (e ← runCode here siteFor code1 e; runCode here siteFor code2 e) st.
Proof.
  induction code1 as [|i code1 IH]; intros e st; [done|]. cbn [app runCode]. unfold mbind, C_bind in *.
  destruct (runOne here siteFor i e st) as [[e'|] st']; [apply IH|done].
Qed.

Lemma emits_bind {A A'} (m : B A) (f : A -> B A') b e ds ds' (P : A -> env -> Prop) (Q : A' -> env -> Prop) :
  emits m b e ds P -> (forall a b' e', along b' e' -> P a e' -> emits (f a) b' e' ds' Q) -> emits (m ≫= f) b e (ds ++ ds') Q.
Proof.
  unfold emits, mbind, B_bind. intros Hm Hf. destruct (m b) as [a b1]. destruct Hm as (code & lens & Ec & Ea & Hal & Hrun & HP).
  specialize (Hf a b1 (extend e lens) Hal HP). unfold emits in Hf. destruct (f a b1) as [a' b2].
  destruct Hf as (code' & lens' & Ec' & Ea' & Hal' & Hrun' & HQ). exists (code ++ code'), (lens ++ lens').
  rewrite <- extend_extend. split; [by rewrite Ec', Ec, app_assoc|]. split; [by rewrite Ea'|]. split; [done|]. split; [|done].
  intros st Hn. rewrite runCode_app. apply (needs_bind here st0 ds ds' (extend e lens)); [by apply Hrun|].
  intros st' Hn' _. by apply Hrun'.
Qed.

Lemma emits_post {A} (m : B A) b e ds (P Q : A -> env -> Prop) :
  emits m b e ds P -> (forall a e', P a e' -> Q a e') -> emits m b e ds Q.
Proof.
  unfold emits. destruct (m b) as [a b']. intros (code & lens & E1 & E2 & E3 & E4 & HP) HPQ. exists code, lens. by eauto 10.
Qed.

Lemma emits_demands {A} (m : B A) b e ds ds' (P : A -> env -> Prop) :
  emits m b e ds P -> (Forall (holds here st0) ds <-> Forall (holds here st0) ds') -> emits m b e ds' P.
Proof.
  unfold emits. destruct (m b) as [a b']. intros (code & lens & E1 & E2 & E3 & E4 & HP) Hd. exists code, lens.
  split; [done|]. split; [done|]. split; [done|]. split; [|done]. intros st Hn. by apply (needs_weaken here st0 ds), E4.
Qed.

(** An instruction that computes nothing. *)
Lemma emits_insert i b e ds :
  along b e ->
  (forall st, near here st0 st -> needs here st0 ds e (runOne here siteFor i e st)) ->
  emits (insert i) b e ds (fun _ _ => True).
Proof.
  intros Ha Hi. exists [i], []. rewrite extend_nil. split; [done|]. split; [done|]. split; [done|]. split; [|done].
  intros st Hn. cbn [runCode]. rewrite <- (app_nil_r ds). apply (needs_bind here st0 ds [] e); [by apply Hi|].
  intros st' Hn' _. by apply needs_ret.
Qed.

Lemma emits_record reason bytes b e : along b e -> emits (record_ reason bytes) b e [] (fun _ _ => True).
Proof.
  intros Ha. exists [], []. rewrite app_nil_r, extend_nil. split; [done|]. split; [done|]. split; [done|]. split; [|done].
  intros st Hn. by apply needs_ret.
Qed.

(** *** Checks of bytes *)

Lemma needs_then {A A'} ds (x : A) (y : A') (m : C A) st :
  needs here st0 ds x (m st) -> needs here st0 ds y ((m ≫= fun _ => mret y) st).
Proof.
  intros Hm. rewrite <- (app_nil_r ds). apply (needs_bind here st0 ds [] x); [done|]. intros st' Hn _. by apply needs_ret.
Qed.

Lemma stop_siteOf flags bit f : stop (gs_reports (cs_guard st0)) (siteOf siteFor flags bit f) = true.
Proof. apply Hsites. Qed.

Lemma needs_rt_range a n s st :
  near here st0 st -> stop (gs_reports (cs_guard st0)) s = true -> 0 <= a < 2 ^ 64 -> 0 <= n < 2 ^ 64 ->
  needs here st0 [Usable a n] tt (guarded (fun _ => __weavec_rt_range a n s here) st).
Proof.
  intros Hn Hs Ha Hb. pose proof (near_shadow here st0 st Hn) as (Hwf & _ & _). destruct (Z.eq_dec n 0) as [->|Hne].
  - apply needs_guarded; [done|]. cbv zeta. unfold __weavec_rt_range, get, mbind, G_bind.
    replace (quick a 0 (gs_shadow (cs_guard st))) with true by (unfold quick, weavecRtQuickOk; cbn; by rewrite ?orb_true_r).
    cbn. split; [by apply settles_refl|]. left. split; [done|]. split; [done|]. apply holds_one. intros x. lia.
  - apply needs_guarded; [done|]. cbv zeta. destruct (range_any (cs_guard st) a n s here) as [Hset Hc];
      [done|done|lia|by rewrite (proj2 Hn)|].
    rewrite (near_reached here st0 st), (near_all_usable here st0 st) in Hc by done. rewrite holds_one. split; [done|]. exact Hc.
Qed.

Lemma needs_rt_guard a n s st :
  near here st0 st -> stop (gs_reports (cs_guard st0)) s = true -> 0 <= a < 2 ^ 64 -> 0 < n < 2 ^ 64 ->
  needs here st0 [Usable a n] tt (guarded (fun _ => __weavec_rt_guard a n s here) st).
Proof.
  intros Hn Hs Ha Hb. pose proof (near_shadow here st0 st Hn) as (Hwf & _ & _). apply needs_guarded; [done|]. cbv zeta.
  unfold __weavec_rt_guard, guardSlow, mbind, G_bind. cbn [weavecRtCount modify].
  set (st1 := if gs_statsOn (cs_guard st) || _ then _ else _).
  assert (E0 : gs_shadow st1 = gs_shadow (cs_guard st) /\ gs_reports st1 = gs_reports (cs_guard st)) by (subst st1; by case_match).
  clearbody st1. destruct E0 as [Es Er].
  destruct (scan_any st1 a n here) as (s1 & r & -> & Hset & Hans); [by rewrite Es|done|done|].
  rewrite Es, (near_reached here st0 st), (near_all_usable here st0 st) in Hans by done. rewrite Es in Hset.
  rewrite holds_one. cbn [holds]. rewrite <- Hans. destruct r as [[bad v]|].
  - change (failAt bad v a n s (with_shadow st1 s1)) with (report_scan a n s (Some (bad, v)) (with_shadow st1 s1)).
    destruct (report_scan_run (with_shadow st1 s1) a n s (Some (bad, v))) as (Hp & Hsh & _); [cbn; by rewrite Er, (proj2 Hn)|].
    rewrite Hsh. split; [done|]. right. split; [|done].
    destruct (fst (report_scan a n s (Some (bad, v)) (with_shadow st1 s1))) as [[]|]; [|done]. by discriminate (proj1 Hp eq_refl).
  - cbn. split; [done|]. by left.
Qed.

Lemma emits_keep {A} (m : B A) b e ds (P : A -> env -> Prop) (R : env -> Prop) :
  (forall l, R (extend e l)) -> emits m b e ds P -> emits m b e ds (fun a e' => P a e' /\ R e').
Proof.
  unfold emits. intros HR. destruct (m b) as [a b']. intros (code & lens & E1 & E2 & E3 & E4 & HP). exists code, lens. by eauto 10.
Qed.

(** *** Strings *)

Context (Hliterals : forall i text, literalAt c i = Some text -> Z.of_nat (String.length text) < 2 ^ 64).

Lemma operand_word b e i : along b e -> 0 <= operandValue e0 i < 2 ^ 64.
Proof.
  intros Ha. rewrite <- (along_operand b e i Ha). destruct Ha as (_ & [Hw _ _ _] & _). unfold operandValue.
  destruct (Nat.lt_ge_cases i (length (ev_operands e))) as [Hl|Hl].
  - apply (proj1 (List.Forall_forall _ _) Hw). by apply nth_In.
  - rewrite nth_overflow by done. lia.
Qed.

Lemma lengthUpTo_bound i m : 0 <= operandValue e0 i -> 0 <= m < 2 ^ 64 -> 0 <= lengthUpTo c e0 st0 i m < 2 ^ 64.
Proof.
  intros Hi Hm. unfold lengthUpTo. destruct (literalAt c i) as [text|] eqn:E; [apply Hliterals in E; lia|].
  destruct (answerOf_bound st0 (operandValue e0 i) m None Hready) as [B1 B2]; [lia|lia|].
  pose proof (window_64 st0 None Hready). lia.
Qed.

(** Code that computes a length. *)
Lemma emits_length p bound flags b e m :
  along b e -> denotes e bound m ->
  emits (insertLength (StringGuard p bound flags)) b e [Ends (operandValue e0 p) m (Z.testbit flags 2)]
    (fun v e' => denotes e' v (answerOf st0 (operandValue e0 p) m)).
Proof.
  intros Ha Hb. pose proof (operand_word b e p Ha) as Hi. pose proof Hb as [Hm _].
  destruct (answerOf_bound st0 (operandValue e0 p) m None Hready) as [A1 A2]; [lia|lia|].
  pose proof (window_64 st0 None Hready) as H63. set (n := answerOf st0 (operandValue e0 p) m) in *.
  exists [StringGuard p bound flags], [n]. pose proof Ha as (L1 & [L2 L3 L4 L5] & L6). split; [done|]. split; [done|]. split.
  { split; [cbn; rewrite length_app; cbn; lia|]. split; [|done]. split; [done| |done|done]. cbn. apply Forall_app. split; [done|].
    constructor; [lia|done]. }
  split.
  - intros st Hn. cbn [runCode runOne]. rewrite <- (app_nil_r [_]).
    apply (needs_bind here st0 _ [] (extend e [n])); [|intros st' Hn' _; by apply needs_ret].
    rewrite <- (app_nil_r [_]). apply (needs_bind here st0 _ [] n); [|intros st' Hn' _; by apply needs_ret].
    rewrite (along_operand b e p Ha), (denotes_now e bound m Hb).
    replace (Z.testbit flags 2) with (nullAllowed (siteOf siteFor flags 2 WeavecRtSiteNullOk)).
    + apply (needs_strlen here st0 _ _ None); (done || apply Hsites || lia).
    + unfold siteOf. rewrite Hnulls. by destruct (Z.testbit flags 2).
  - split; [lia|]. intros more. cbn. rewrite <- app_assoc, app_nth2 by lia. by rewrite L1, Nat.sub_diag.
Qed.

(** What [stringLength] answers: the length, or for a literal one that agrees
    with it below the bound. *)
Definition measures (e : env) (v : value) (i : nat) (bound : option value) (m : Z) : Prop :=
  exists n, denotes e v n /\ Z.min m n = Z.min m (lengthUpTo c e0 st0 i m)
            /\ (bound = None -> n = lengthUpTo c e0 st0 i m).

Lemma emits_string i bound flags b e m :
  along b e -> match bound with Some x => denotes e x m | None => m = Max end ->
  emits (stringLength c i bound flags) b e (stringDemands c e0 i m (Z.testbit flags 2)) (fun v e' => measures e' v i bound m).
Proof.
  intros Ha Hb. pose proof (operand_word b e i Ha) as Hi.
  assert (Hm : 0 <= m < 2 ^ 64) by (destruct bound; [apply Hb|subst m; unfold Max; lia]).
  pose proof (lengthUpTo_bound i m ltac:(lia) Hm) as Hlen. unfold stringLength, stringDemands, measures, lengthUpTo in *. rewrite Hnarrow.
  destruct (literalAt c i) as [text|] eqn:El.
  - pose proof (Hliterals i text El) as Ht. apply emits_ret; [done|].
    destruct bound as [x|]; cbn [mbind option_bind] in *; [destruct (folded x) as [k|] eqn:Ef|].
    + assert (k = m) as -> by (rewrite <- (Hfold x k e Ef) by apply Ha; by apply denotes_now).
      exists (Z.min (Z.of_nat (String.length text)) m). split; [by apply denotes_word|]. split; [lia|done].
    + exists (Z.of_nat (String.length text)). split; [apply denotes_word; lia|]. split; [lia|done].
    + exists (Z.of_nat (String.length text)). split; [apply denotes_word; lia|]. subst m. unfold Max. split; lia.
  - rewrite <- (app_nil_l [Ends _ _ _]).
    apply (emits_bind _ _ _ _ _ _ (fun _ e' => True /\ denotes e' (default (Word Max) bound) m)).
    + apply (emits_keep _ _ _ _ (fun _ _ => True)); [|by apply emits_record]. intros l. apply denotes_extend.
      destruct bound; [exact Hb|]. rewrite Hb. apply denotes_word. unfold Max. lia.
    + intros _ b' e' Ha' [_ Hb']. eapply emits_post; [by apply emits_length|]. intros v e'' Hv. eexists. split; [exact Hv|]. by split.
Qed.

(** *** Terms *)

(** The value of a term, if it has one. *)
Definition agrees (e : env) (v : option value) (n : option Z) : Prop :=
  match v, n with Some v, Some n => denotes e v n | None, None => True | _, _ => False end.

Lemma agrees_extend e v n l : agrees e v n -> agrees (extend e l) v n.
Proof. unfold agrees. destruct v, n; try done. apply denotes_extend. Qed.

Lemma noStrings_bound t : noStrings t = true -> forall bound, evaluate c t bound = evaluate c t None.
Proof.
  induction t; cbn [noStrings evaluate]; try done;
    try (intros [Hl Hr]%andb_true_iff bound; rewrite ?(IHt1 Hl bound), ?(IHt2 Hr bound); done); intros Hl bound; by rewrite IHt.
Qed.

Lemma noStrings_demands t : noStrings t = true -> forall m, termDemands c e0 st0 t m = [].
Proof.
  induction t; cbn [noStrings termDemands]; try done.
  - intros [Hl Hr]%andb_true_iff m. by rewrite (IHt1 Hl), (IHt2 Hr).
  - intros [Hl Hr]%andb_true_iff m. by rewrite (IHt1 Hl), (IHt2 Hr).
  - intros [Hl Hr]%andb_true_iff m. rewrite (IHt1 Hl). case_match; [by apply IHt2|done].
Qed.

Lemma saturated_range n : 0 <= n -> 0 <= saturated n < 2 ^ 64.
Proof. unfold saturated, Max. lia. Qed.

Lemma wrapped_range n : 0 <= wrap64 n < 2 ^ 64.
Proof. unfold wrap64. apply Z.mod_pos_bound. lia. Qed.

Lemma denotes_product e l r x y : denotes e l x -> denotes e r y -> denotes e (MulSaturated l r) (saturated (x * y)).
Proof. intros [Hx Hl] [Hy Hr]. split; [apply saturated_range; nia|]. intros more. cbn. by rewrite Hl, Hr. Qed.

Lemma denotes_sum e l r x y : denotes e l x -> denotes e r y -> denotes e (AddSaturated l r) (saturated (x + y)).
Proof. intros [Hx Hl] [Hy Hr]. split; [apply saturated_range; lia|]. intros more. cbn. by rewrite Hl, Hr. Qed.

Lemma denotes_difference e l x v :
  denotes e l x -> denotes e (SubSaturated l (Z.max v 0)) (Z.max 0 (x - Z.max v 0)).
Proof. intros [Hx Hl]. split; [lia|]. intros more. cbn. rewrite Hl. destruct (Z.ltb_spec x (Z.max v 0)); lia. Qed.

Lemma denotes_min e l r x y : denotes e l x -> denotes e r y -> denotes e (UMin l r) (Z.min x y).
Proof. intros [Hx Hl] [Hy Hr]. split; [lia|]. intros more. cbn. by rewrite Hl, Hr. Qed.

Lemma denotes_quotient e l x v : 0 < v -> denotes e l x -> denotes e (UDiv l v) (x / v).
Proof.
  intros Hv [Hx Hl]. split; [|intros more; cbn; by rewrite Hl].
  split; [apply Z.div_pos; lia|]. apply Z.le_lt_trans with x; [apply Z.div_le_upper_bound; nia|lia].
Qed.

Lemma denotes_argument b e i bits : along b e -> denotes e (SExtOrTrunc bits (Operand i)) (signExtended bits (operandValue e0 i)).
Proof.
  intros Ha. split; [unfold signExtended; case_match; apply wrapped_range|]. intros more. cbn [valueOf].
  change (operandValue (extend e more) i) with (operandValue e i). by rewrite (along_operand b e i Ha).
Qed.

(** Two parts in order. *)
Lemma emits_two (l r : B (option value)) (f : value -> value -> value) (g : Z -> Z -> Z) b e ds1 ds2 m1 m2 :
  (forall e x y m n, denotes e x m -> denotes e y n -> denotes e (f x y) (g m n)) ->
  along b e -> emits l b e ds1 (fun v e' => agrees e' v m1) ->
  (forall b' e', along b' e' -> emits r b' e' ds2 (fun v e' => agrees e' v m2)) ->
  emits (left ← l; right ← r; mret (x ← left; y ← right; Some (f x y))) b e (ds1 ++ ds2)
    (fun v e' => agrees e' v (x ← m1; y ← m2; Some (g x y))).
Proof.
  intros Hf Ha Hl Hr. apply (emits_bind _ _ _ _ _ _ (fun v e' => agrees e' v m1)); [done|]. intros left b1 e1 A1 D1.
  rewrite <- (app_nil_r ds2). apply (emits_bind _ _ _ _ _ _ (fun v e' => agrees e' v m2 /\ agrees e' left m1)).
  - apply (emits_keep _ _ _ _ (fun v e' => agrees e' v m2)); [|by apply Hr]. intros lens. by apply agrees_extend.
  - intros right b2 e2 A2 [D2 D1']. apply emits_ret; [done|]. unfold agrees in *.
    destruct left, m1; try done; destruct right, m2; try done. by apply Hf.
Qed.

Lemma nullFlags_bit arg : Z.testbit (nullFlags c arg) 2 = nullOk c arg.
Proof. unfold nullFlags. by destruct (nullOk c arg). Qed.

(** A string's length, unbounded or the right operand of a [min]. *)
Lemma emits_length_term arg bound m b e :
  along b e -> match bound with Some x => denotes e x m | None => m = Max end ->
  emits (evaluate c (StringLength arg) bound) b e (termDemands c e0 st0 (StringLength arg) m)
    (fun v e' => match v, meaning c e0 st0 (StringLength arg) m with
                 | Some v, Some n => exists k, denotes e' v k /\ Z.min m k = Z.min m n /\ 0 <= n /\ (bound = None -> k = n)
                 | None, None => True
                 | _, _ => False
                 end).
Proof.
  intros Ha Hb. cbn [evaluate termDemands meaning]. unfold namedPointer.
  destruct (argument c arg) as [i|]; cbn [mbind option_bind]; [|by apply emits_ret].
  destruct (pointerAt c i); cbn [mbind option_bind]; [|by apply emits_ret].
  rewrite <- (app_nil_r (stringDemands _ _ _ _ _)). apply (emits_bind _ _ _ _ _ _ (fun v e' => measures e' v i bound m)).
  - rewrite <- nullFlags_bit. by apply emits_string.
  - intros v b' e' Ha' (k & Hk & Hmin & Hnone). apply emits_ret; [done|]. exists k. split; [done|]. split; [done|].
    pose proof (operand_word b e i Ha). split; [|done].
    assert (Hm : 0 <= m < 2 ^ 64) by (destruct bound; [apply Hb|subst m; unfold Max; lia]).
    apply (lengthUpTo_bound i m); lia.
Qed.

Definition evaluates (t : LibTerm) : Prop := forall b e, along b e ->
  emits (evaluate c t None) b e (termDemands c e0 st0 t Max) (fun v e' => agrees e' v (meaning c e0 st0 t Max)).

(** The right operand of a [min]: it agrees below the bound. *)
Lemma emits_bounded t x m b e :
  boundable t = true -> term_ok t = true -> evaluates t -> along b e -> denotes e x m ->
  emits (evaluate c t (Some x)) b e (termDemands c e0 st0 t m)
    (fun v e' => match v, meaning c e0 st0 t m with
                 | Some v, Some n => exists k, denotes e' v k /\ Z.min m k = Z.min m n
                 | None, None => True
                 | _, _ => False
                 end).
Proof.
  intros Hbt Hok Ht Ha Hx. pose proof Hx as [Hm _].
  assert (Hplain : noStrings t = true -> emits (evaluate c t (Some x)) b e (termDemands c e0 st0 t m)
    (fun v e' => match v, meaning c e0 st0 t m with
                 | Some v, Some n => exists k, denotes e' v k /\ Z.min m k = Z.min m n | None, None => True | _, _ => False end)).
  { intros Hn. rewrite (noStrings_bound t Hn). rewrite (noStrings_value c e0 st0 t Hn), (noStrings_demands t Hn m).
    rewrite <- (noStrings_demands t Hn Max). eapply emits_post; [by apply Ht|]. intros v e' Hv. unfold agrees in Hv.
    destruct v, (meaning c e0 st0 t Max); try done. by eexists. }
  destruct t as [|  |arg| |t1 t2| | |]; try (by apply Hplain).
  - eapply emits_post; [by apply (emits_length_term _ (Some x) m)|]. intros v e' Hv. cbv beta in Hv.
    destruct v, (meaning c e0 st0 (StringLength arg) m); try done. destruct Hv as (k & Hk & Hmin & _). by exists k.
  - destruct t1 as [| |arg| | | | |]; try (by apply Hplain). destruct t2 as [v0| | | | | | |]; try (by apply Hplain). clear Hplain Ht.
    cbn [evaluate]. change (termDemands c e0 st0 (Sum (StringLength arg) (Constant v0)) m)
      with (termDemands c e0 st0 (StringLength arg) m ++ []).
    eapply emits_bind; [by apply (emits_length_term _ (Some x) m)|]. intros left b1 e1 A1 D1. cbv beta in D1.
    rewrite <- (app_nil_r []). eapply (emits_bind _ _ _ _ [] [] (fun v e' => v = Some (Word (Z.max v0 0)) /\ e' = e1));
      [by apply emits_ret|]. intros right b2 e2 A2 [-> ->]. apply emits_ret; [done|].
    cbn [meaning] in D1 |- *. destruct left as [left|], (namedPointer c arg ≫= _) as [n|] eqn:En; cbn [mbind option_bind] in *;
      rewrite ?En; cbn [mbind option_bind]; try done.
    destruct D1 as (k & Hk & Hmin & Hn & _). cbn in Hok. apply Z.leb_le in Hok.
    exists (saturated (k + Z.max v0 0)). split.
    + apply denotes_sum; [done|]. apply denotes_word. unfold Max in *. lia.
    + unfold saturated, Max. lia.
Qed.

Lemma emits_term t : term_ok t = true -> evaluates t.
Proof.
  unfold evaluates. induction t as [v|arg|arg|l IHl r IHr|l IHl r IHr|l IHl v|l IHl r IHr|l IHl v]; intros Hok b e Ha; cbn in Hok.
  - apply emits_ret; [done|]. apply Z.leb_le in Hok. apply denotes_word. unfold Max in *. lia.
  - apply emits_ret; [done|]. cbn. destruct (argument c arg) as [i|]; cbn; [|done].
    destruct (op_type (operandAt c i)); cbn; try done. by apply (denotes_argument b).
  - eapply emits_post; [by apply (emits_length_term arg None Max)|]. intros v e' Hv. cbv beta in Hv. unfold agrees.
    destruct v, (meaning c e0 st0 (StringLength arg) Max); try done. destruct Hv as (k & Hk & _ & _ & Ek). by rewrite <- Ek.
  - apply andb_true_iff in Hok as [Hl Hr]. cbn [evaluate termDemands meaning].
    apply (emits_two _ _ MulSaturated (fun x y => saturated (x * y))); eauto using denotes_product.
  - apply andb_true_iff in Hok as [Hl Hr]. cbn [evaluate termDemands meaning].
    apply (emits_two _ _ AddSaturated (fun x y => saturated (x + y))); eauto using denotes_sum.
  - cbn [evaluate termDemands meaning]. rewrite <- (app_nil_r (termDemands _ _ _ _ _)). eapply emits_bind; [by apply IHl|].
    intros left b1 e1 A1 D1. cbv beta in D1. apply emits_ret; [done|]. unfold agrees in *.
    destruct left, (meaning c e0 st0 l Max); cbn; try done. by apply denotes_difference.
  - apply andb_true_iff in Hok as [[Hl Hr]%andb_true_iff Hb]. cbn [evaluate termDemands meaning].
    eapply emits_bind; [by apply IHl|]. intros left b1 e1 A1 D1. cbv beta in D1. unfold agrees in D1.
    destruct left as [x|], (meaning c e0 st0 l Max) as [m|]; cbn [mbind option_bind]; try done; [|by apply emits_ret].
    rewrite <- (app_nil_r (termDemands _ _ _ _ _)).
    eapply emits_bind; [eapply (emits_keep _ _ _ _ _ (fun e' => denotes e' x m)); [intros lens; by apply denotes_extend|];
                        apply emits_bounded; eauto; exact (fun b e => IHr Hr b e)|].
    intros right b2 e2 A2 [D2 D3]. cbv beta in D2. apply emits_ret; [done|]. unfold agrees.
    destruct right as [y|], (meaning c e0 st0 r m) as [n|]; cbn [mbind option_bind]; try done.
    destruct D2 as (k & Hk & Hmin). rewrite <- Hmin. by apply denotes_min.
  - cbn [evaluate termDemands meaning]. rewrite <- (app_nil_r (termDemands _ _ _ _ _)). eapply emits_bind; [by apply IHl|].
    intros left b1 e1 A1 D1. cbv beta in D1. apply emits_ret; [done|]. unfold agrees in *.
    destruct left, (meaning c e0 st0 l Max); cbn; try done. destruct (Z.leb_spec v 0); [done|]. by apply denotes_quotient.
Qed.

(** *** Arguments *)

Lemma holds_nothing a : Forall (holds here st0) [Usable a 0] <-> Forall (holds here st0) [].
Proof. split; [done|]. intros _. apply holds_one. intros b. lia. Qed.

Lemma emits_bytes p bytes write b e n :
  along b e -> denotes e bytes n -> emits (guardBytes p bytes write) b e [Usable (operandValue e0 p) n] (fun _ _ => True).
Proof.
  intros Ha Hb. pose proof (operand_word b e p Ha) as Hp. pose proof Hb as [Hn _]. unfold guardBytes.
  destruct (folded bytes) as [w|] eqn:Ef.
  - assert (w = n) as -> by (rewrite <- (Hfold bytes w e Ef) by apply Ha; by apply denotes_now).
    destruct (Z.eqb_spec n 0) as [->|Hne]; [apply (emits_demands _ _ _ []); [by apply emits_ret|symmetry; apply holds_nothing]|].
    rewrite <- (app_nil_l [_]). eapply emits_bind; [by apply emits_record|]. intros _ b' e' Ha' _. apply emits_insert; [done|].
    intros st Hst. cbn [runOne]. apply (needs_then _ tt). rewrite (along_operand b' e' p Ha').
    apply needs_rt_guard; (done || apply Hsites || lia).
  - rewrite <- (app_nil_l [_]). eapply (emits_bind _ _ _ _ _ _ (fun _ e' => True /\ denotes e' bytes n)).
    + apply (emits_keep _ _ _ _ (fun _ _ => True)); [|by apply emits_record]. intros l. by apply denotes_extend.
    + intros _ b' e' Ha' [_ Hb']. apply emits_insert; [done|]. intros st Hst. cbn [runOne]. apply (needs_then _ tt).
      rewrite (along_operand b' e' p Ha'), (denotes_now e' bytes n Hb'). apply needs_rt_range; (done || apply Hsites || lia).
Qed.

Lemma emits_limit p bytes limit b e n l :
  along b e -> denotes e bytes n -> denotes e limit l ->
  emits (CallGuards.checkLimit p bytes limit) b e [Within n l] (fun _ _ => True).
Proof.
  intros Ha Hb Hl. apply emits_insert; [done|]. intros st Hst. cbn [runOne]. apply (needs_then _ tt).
  rewrite (denotes_now e bytes n Hb), (denotes_now e limit l Hl). apply needs_limit; [done|apply Hsites].
Qed.

Lemma denotes_unless b e p i bytes n :
  along b e -> denotes e bytes n -> denotes e (unlessNull p i bytes) (bytesUnlessNull e0 p i n).
Proof.
  intros Ha Hb. unfold unlessNull, bytesUnlessNull. destruct (pa_null p); try done. pose proof Hb as [Hn Hv].
  split; [case_match; lia|]. intros more. cbn [valueOf]. change (operandValue (extend e more) i) with (operandValue e i).
  rewrite (along_operand b e i Ha), Hv. done.
Qed.

Lemma emits_seq {A} (m : B unit) (f : B A) b e ds ds' (P : A -> env -> Prop) (R : env -> Prop) :
  (forall l, R (extend e l)) -> emits m b e ds (fun _ _ => True) ->
  (forall b' e', along b' e' -> R e' -> emits f b' e' ds' P) -> emits (m;; f) b e (ds ++ ds') P.
Proof.
  intros HR Hm Hf. apply (emits_bind _ _ _ _ _ _ (fun _ e' => True /\ R e')).
  - by apply (emits_keep _ _ _ _ (fun _ _ => True)).
  - intros _ b' e' Ha [_ HRe]. by apply Hf.
Qed.

(** A limit is the same number everywhere. *)
Definition limited (limit : option value) (l : option Z) : Prop := forall b e, along b e -> agrees e limit l.

Definition param_ok (p : LibraryParam) : Prop :=
  match termOf p with Some t => term_ok t = true | None => True end
  /\ match pa_scan p with Some t => term_ok t = true | None => True end.

Lemma emits_measure i bound index b e m :
  along b e -> match bound with Some x => denotes e x m | None => m = Max end ->
  emits (_ ← stringLength c i bound (nullFlags c index); mret tt) b e (stringDemands c e0 i m (nullOk c index)) (fun _ _ => True).
Proof.
  intros Ha Hb. rewrite <- (app_nil_r (stringDemands _ _ _ _ _)). eapply emits_bind.
  - rewrite <- nullFlags_bit. by apply emits_string.
  - intros v b' e' Ha' _. by apply emits_ret.
Qed.

Lemma emits_argument p index i limit l b e :
  param_ok p -> limited limit l -> along b e ->
  emits (guardArgument c p index i limit) b e (fst (argumentDemands c e0 st0 p index i l))
    (fun limit' _ => limited limit' (snd (argumentDemands c e0 st0 p index i l))).
Proof.
  intros [Hok _] Hl Ha. unfold guardArgument, argumentDemands.
  set (string := if pa_string p then stringDemands c e0 i Max (nullOk c index) else []).
  assert (Hstring : emits (if pa_string p then _ ← stringLength c i None (nullFlags c index); mret tt else mret tt) b e string
                      (fun _ _ => True)).
  { subst string. destruct (pa_string p); [by apply (emits_measure i None)|by apply emits_ret]. }
  destruct (termOf p ≫= fun t => boundedScan t index) as [t|] eqn:Et.
  - cbn [fst snd]. apply (emits_seq _ _ _ _ _ _ _ (fun _ => True)); [done|done|]. intros b1 e1 A1 _.
    assert (Ht : term_ok t = true).
    { destruct (termOf p) as [[]|]; cbn in Et; try done. case_decide; [|done]. injection Et as ->. cbn in Hok.
      by apply andb_true_iff in Hok as [[? _]%andb_true_iff _]. }
    eapply emits_bind; [by apply emits_term|]. intros bound b2 e2 A2 D2. cbv beta in D2. unfold agrees in D2.
    destruct bound as [x|], (meaning c e0 st0 t Max) as [n|]; try done; [|by apply emits_ret].
    rewrite <- (app_nil_r (stringDemands _ _ _ _ _)).
    eapply emits_bind; [rewrite <- nullFlags_bit; by apply (emits_string i (Some x))|]. intros v b3 e3 A3 _. by apply emits_ret.
  - set (parts := match termOf p with Some t => _ | None => _ end).
    assert (Hbytes : forall b' e', along b' e' -> emits (paramBytes c p) b' e' (fst parts) (fun v e' => agrees e' v (snd parts))).
    { subst parts. unfold paramBytes. rewrite Hnarrow, andb_false_r. intros b' e' A'.
      destruct (termOf p) as [t|]; [by apply emits_term|]. apply emits_ret; [done|]. cbn. destruct (pa_string p); [done|].
      cbn. apply denotes_word. lia. }
    destruct parts as [measured bytes]. cbn [fst snd] in Hbytes.
    destruct bytes as [n|].
    + set (k := bytesUnlessNull e0 p i n).
      assert (Hguard : forall b' e' v, along b' e' -> denotes e' v n ->
        emits (guardBytes i (unlessNull p i v) (writes (pa_access p));;
               match limit with
               | Some l0 => if writes (pa_access p) then CallGuards.checkLimit i (unlessNull p i v) l0;; mret None else mret limit
               | None => mret None end) b' e'
          ([Usable (operandValue e0 i) k] ++ match l with Some l0 => if writes (pa_access p) then [Within k l0] else [] | None => [] end)
          (fun limit' _ => limited limit' (match l with Some l0 => if writes (pa_access p) then None else l | None => None end))).
      { intros b' e' v A' D'. pose proof (denotes_unless b' e' p i v n A' D') as Dk. fold k in Dk.
        apply (emits_seq _ _ _ _ _ _ _ (fun e2 => denotes e2 (unlessNull p i v) k)); [intros more; by apply denotes_extend|by apply emits_bytes|].
        intros b2 e2 A2 D2. pose proof (Hl b2 e2 A2) as Hl2. unfold agrees in Hl2.
        destruct limit as [lv|], l as [ln|]; try done; [|by apply emits_ret].
        destruct (writes (pa_access p)); [|by apply emits_ret]. rewrite <- (app_nil_r [Within k ln]).
        apply (emits_seq _ _ _ _ _ _ _ (fun _ => True)); [done|by apply emits_limit|]. intros b3 e3 A3 _. by apply emits_ret. }
      assert (Edemands : (let usable := string ++ measured ++ [Usable (operandValue e0 i) k] in
          match l with Some l0 => if writes (pa_access p) then (usable ++ [Within k l0], None) else (usable, l) | None => (usable, None) end)
        = (string ++ measured ++ [Usable (operandValue e0 i) k] ++ match l with Some l0 => if writes (pa_access p) then [Within k l0] else [] | None => [] end,
           match l with Some l0 => if writes (pa_access p) then None else l | None => None end)).
      { cbv zeta. destruct l; [destruct (writes (pa_access p))|]; rewrite <- ?app_assoc; reflexivity. }
      cbv beta iota zeta in Edemands |- *. fold k. rewrite Edemands. cbn [fst snd].
      apply (emits_seq _ _ _ _ _ _ _ (fun _ => True)); [done|done|]. intros b1 e1 A1 _.
      eapply emits_bind; [by apply Hbytes|]. intros v b2 e2 A2 D2. cbv beta in D2. unfold agrees in D2. destruct v as [v|]; [|done].
      by apply Hguard.
    + cbn [fst snd]. apply (emits_seq _ _ _ _ _ _ _ (fun _ => True)); [done|done|]. intros b1 e1 A1 _.
      rewrite <- (app_nil_r measured). eapply emits_bind; [by apply Hbytes|]. intros v b2 e2 A2 D2. cbv beta in D2.
      unfold agrees in D2. destruct v as [v|]; [done|]. by apply emits_ret.
Qed.

(** *** Rows *)

Lemma emits_scan_start p i b e :
  param_ok p -> along b e -> emits (guardScanStart c p i) b e (scanStartDemands c e0 st0 p i) (fun _ _ => True).
Proof.
  intros [Hok _] Ha. unfold guardScanStart, scanStartDemands. destruct (termOf p) as [t|].
  - eapply emits_bind; [by apply emits_term|]. intros v b1 e1 A1 D1. cbv beta in D1. unfold agrees in D1.
    destruct v as [v|], (meaning c e0 st0 t Max) as [n|]; try done; [|by apply emits_ret].
    apply emits_bytes; [done|]. apply (denotes_unless b1); [done|]. apply denotes_min; [done|]. by apply denotes_word.
  - apply emits_bytes; [done|]. apply (denotes_unless b); [done|]. by apply denotes_word.
Qed.

(** The searches a row leaves for after the call. *)
Fixpoint scansOf (ps : list LibraryParam) (index : Z) : list (LibraryParam * nat) :=
  match ps with
  | [] => []
  | p :: rest =>
    if negb (isPointerParam p) || noAccess p || negb (bool_decide (is_Some (pa_scan p))) then scansOf rest (index + 1)
    else
      match argument c index with
      | Some i =>
        if negb (spaceZero c i) || bool_decide (is_Some (literalAt c i)) then scansOf rest (index + 1)
        else (p, i) :: scansOf rest (index + 1)
      | None => scansOf rest (index + 1)
      end
  end.

Lemma emits_params ps : forall index limit l b e,
  Forall param_ok ps -> limited limit l -> along b e ->
  emits (guardParams c ps index limit) b e (paramsDemands c e0 st0 ps index l) (fun scans _ => scans = scansOf ps index).
Proof.
  induction ps as [|p ps IH]; intros index limit l b e Hok Hl Ha; cbn [guardParams paramsDemands scansOf]; [by apply emits_ret|].
  apply Forall_cons_iff in Hok as [Hp Hok]. destruct (negb (isPointerParam p) || noAccess p); [by apply IH|]. cbn [orb].
  destruct (bool_decide (is_Some (pa_scan p))) eqn:Escan; cbn [negb].
  - destruct (argument c index) as [i|]; [|by apply IH]. rewrite Hnarrow. cbn [negb andb].
    destruct (negb (spaceZero c i)); [by apply IH|]. cbn [orb].
    destruct (bool_decide (is_Some (literalAt c i))); [by apply IH|].
    apply (emits_seq _ _ _ _ _ _ _ (fun _ => True)); [done|by apply emits_scan_start|]. intros b1 e1 A1 _.
    rewrite <- (app_nil_r (paramsDemands _ _ _ _ _ _)). eapply emits_bind; [by apply IH|]. intros scans b2 e2 A2 ->.
    by apply emits_ret.
  - destruct (argument c index) as [i|]; [|destruct (pa_effect p); by apply IH].
    destruct (negb (spaceZero c i)); [destruct (pa_effect p); by apply IH|].
    destruct (pa_effect p); [|by apply IH..].
    destruct (argumentDemands c e0 st0 p index i l) as [ds l'] eqn:Ed.
    pose proof (emits_argument p index i limit l b e Hp Hl Ha) as Harg. rewrite Ed in Harg. cbn [fst snd] in Harg.
    eapply emits_bind; [exact Harg|]. intros limit' b1 e1 A1 Hl'. by apply IH.
Qed.

(** The operands of a copy do not wrap around the address space. *)
Definition disjoint_ok (d : LibDisjoint) : Prop :=
  term_ok (d_length d) = true
  /\ forall first second n, namedPointer c (d_first d) = Some first -> namedPointer c (d_second d) = Some second ->
       meaning c e0 st0 (d_length d) Max = Some n -> operandValue e0 first + n < 2 ^ 64 /\ operandValue e0 second + n < 2 ^ 64.

Lemma needs_disjoint d s n st :
  near here st0 st -> 0 <= d -> 0 <= s -> 0 <= n -> d + n < 2 ^ 64 -> s + n < 2 ^ 64 ->
  needs here st0 [Apart d s n] tt
    (when (overlaps d s n) (guarded (fun _ => __weavec_rt_overlap d s n (Some (siteFor WeavecRtSiteWrite)))) st).
Proof.
  intros Hst Hd Hs Hn H1' H2'. unfold overlaps, add64. rewrite !wrap64_small by lia. apply needs_when; [done| |].
  - intros E. apply holds_one. cbn. destruct (Z.ltb_spec d (s + n)), (Z.ltb_spec s (d + n)), (Z.eqb_spec d s); cbn in E; (done || lia).
  - intros E. unfold __weavec_rt_overlap. apply needs_raise; [done|apply Hsites|]. rewrite holds_one. cbn.
    destruct (Z.ltb_spec d (s + n)), (Z.ltb_spec s (d + n)), (Z.eqb_spec d s); cbn in E; (done || lia).
Qed.

Lemma emits_disjoint l : forall b e,
  Forall disjoint_ok l -> along b e ->
  emits (guardDisjoint c l) b e (disjointDemands c e0 st0 l) (fun _ _ => True).
Proof.
  induction l as [|d l IH]; intros b e Hok Ha; cbn [guardDisjoint disjointDemands]; [by apply emits_ret|].
  apply Forall_cons_iff in Hok as [[Ht Hd] Hok]. unfold namedPointer in *.
  destruct (argument c (d_first d)) as [first|]; cbn [mbind option_bind] in *; [|by apply IH].
  destruct (argument c (d_second d)) as [second|]; cbn [mbind option_bind] in *; [|destruct (pointerAt c first); by apply IH].
  destruct (pointerAt c first) eqn:E1; cbn [negb orb]; [|by apply IH].
  destruct (pointerAt c second) eqn:E2; cbn [negb orb]; [|by apply IH].
  rewrite <- app_assoc. eapply emits_bind; [by apply emits_term|]. intros v b1 e1 A1 D1. cbv beta in D1. unfold agrees in D1.
  destruct v as [v|], (meaning c e0 st0 (d_length d) Max) as [n|] eqn:En; try done; [|by apply IH].
  destruct (Hd first second n) as [W1 W2]; [done..|]. pose proof (operand_word b e first Ha). pose proof (operand_word b e second Ha).
  pose proof D1 as [Hn _]. apply (emits_seq _ _ _ _ _ _ _ (fun _ => True)); [done| |intros b2 e2 A2 _; by apply IH].
  apply emits_insert; [done|]. intros st Hst. cbn [runOne]. cbv zeta.
  rewrite !(along_operand b1 e1 _ A1), (denotes_now e1 v n D1). apply (needs_then _ tt). by apply needs_disjoint; try lia.
Qed.

Lemma block_code m b : b_code (snd (block m b)) = b_code b /\ b_computed (snd (block m b)) = b_computed b.
Proof. unfold block. by destruct (m _) as [? ?]. Qed.

Lemma guardScans_code l : forall b, b_code (snd (guardScans c l b)) = b_code b.
Proof.
  assert (Hscan : forall p i b, b_code (snd (guardScan c p i b)) = b_code b).
  { intros p i b. unfold guardScan. destruct (lc_result c) as [bits|space|].
    - unfold mbind, B_bind. pose proof (block_code (readTo c p i (Mul (ZExtOrTrunc bits Result) (Word (if wide c then wcharSize c else 1)))) b) as [Eb _].
      by destruct (block _ b) as [code b'].
    - unfold mbind at 1, B_bind at 1. pose proof (block_code (readTo c p i (Sub Result (Operand i))) b) as [Eb _].
      destruct (block _ b) as [code b']. unfold mbind at 1, B_bind at 1. cbn in Eb.
      match goal with |- context [block ?m b'] => pose proof (block_code m b') as [Eb' _]; destruct (block m b') as [code' b''] end.
      cbn in Eb' |- *. by rewrite Eb', Eb.
    - unfold mbind, B_bind. pose proof (block_code (readTo c p i (Mul (ZExtOrTrunc 64 Result) (Word (if wide c then wcharSize c else 1)))) b) as [Eb _].
      by destruct (block _ b) as [code b']. }
  induction l as [|[p i] l IH]; intros b; [done|]. cbn [guardScans]. unfold mbind, B_bind.
  specialize (Hscan p i b). destruct (guardScan c p i b) as [u b']. cbn in Hscan. by rewrite IH.
Qed.

(** *** Searches *)

(** What a search read, whose result is in the environment. *)
Definition readDemands (p : LibraryParam) (i : nat) (stop : Z) : list demand :=
  match pa_scan p with
  | Some t =>
    termDemands c e0 st0 t Max
    ++ match meaning c e0 st0 t Max with Some n => [Usable (operandValue e0 i) (add64 stop n)] | None => [] end
  | None => []
  end.

Definition searchDemands (p : LibraryParam) (i : nat) : list demand :=
  match lc_result c with
  | PointerTy _ =>
    if ev_result e0 =? 0 then
      match termOf p with
      | None => stringDemands c e0 i Max false
      | Some t =>
        termDemands c e0 st0 t Max
        ++ match meaning c e0 st0 t Max with Some n => [Usable (operandValue e0 i) n] | None => [] end
      end
    else readDemands p i (sub64 (ev_result e0) (operandValue e0 i))
  | _ => readDemands p i (wrap64 (ev_result e0))
  end.

Lemma emits_range p bytes b e n :
  along b e -> denotes e bytes n -> emits (insertRange p bytes) b e [Usable (operandValue e0 p) n] (fun _ _ => True).
Proof.
  intros Ha Hb. pose proof (operand_word b e p Ha). pose proof Hb as [Hn _]. unfold insertRange.
  apply (emits_seq _ _ _ _ [] [_] _ (fun e' => denotes e' bytes n)); [intros l; by apply denotes_extend|by apply emits_record|].
  intros b' e' Ha' Hb'. apply emits_insert; [done|]. intros st Hst. cbn [runOne]. apply (needs_then _ tt).
  rewrite (along_operand b' e' p Ha'), (denotes_now e' bytes n Hb'). apply needs_rt_range; (done || apply Hsites || lia).
Qed.

Lemma mul64_one n : 0 <= n < 2 ^ 64 -> mul64 n 1 = n.
Proof. intros Hn. unfold mul64. rewrite Z.mul_1_r. by apply wrap64_small. Qed.

Lemma emits_read p i stop s b e :
  param_ok p -> along b e -> (forall l, valueOf (extend e l) stop = s) ->
  emits (readTo c p i stop) b e (readDemands p i s) (fun _ _ => True).
Proof.
  intros [_ Hok] Ha Hs. unfold readTo, readDemands. destruct (pa_scan p) as [t|]; [|by apply emits_ret].
  eapply emits_bind.
  - eapply (emits_keep _ _ _ _ _ (fun e' => forall l, valueOf (extend e' l) stop = s)); [|by apply emits_term].
    intros l l'. by rewrite extend_extend.
  - intros v b1 e1 A1 [D1 D2]. cbv beta in D1. unfold agrees in D1. rewrite Hnarrow.
    destruct v as [v|], (meaning c e0 st0 t Max) as [n|]; try done; [|by apply emits_ret].
    apply emits_range; [done|]. destruct D1 as [Hn Hv]. split; [apply wrapped_range|]. intros more. cbn [valueOf].
    by rewrite D2, Hv, mul64_one.
Qed.

Lemma after_block (m : B unit) b e ds :
  (forall b', along b' e -> emits m b' e ds (fun _ _ => True)) -> along b e ->
  exists code, fst (block m b) = code /\ b_after (snd (block m b)) = b_after b /\ along (snd (block m b)) e
    /\ forall st, near here st0 st -> needs here st0 ds tt ((_ ← runCode here siteFor code e; mret tt) st).
Proof.
  intros Hm Ha. unfold block. set (b0 := mkBuilder [] (b_computed b) (b_after b) (b_rows b)).
  assert (A0 : along b0 e) by (destruct Ha as (L1 & L2 & L3); by split).
  specialize (Hm b0 A0). unfold emits in Hm. destruct (m b0) as [u b']. destruct Hm as (code & lens & Ec & Ea & _ & Hrun & _).
  exists code. split; [exact Ec|]. split; [exact Ea|]. split; [destruct Ha as (L1 & L2 & L3); by split|].
  intros st Hst. apply (needs_then _ (extend e lens)). by apply Hrun.
Qed.

Lemma two_blocks (m1 m2 : B unit) (f : list instruction -> list instruction -> afterCode) b :
  (found ← block m1; missed ← block m2; insertAfter (f found missed)) b
  = insertAfter (f (fst (block m1 b)) (fst (block m2 (snd (block m1 b))))) (snd (block m2 (snd (block m1 b)))).
Proof.
  unfold mbind, B_bind. destruct (block m1 b) as [code1 b1]. cbn [fst snd]. by destruct (block m2 b1) as [code2 b2].
Qed.

Lemma guardScan_after p i b e :
  param_ok p -> along b e -> ev_result e = ev_result e0 ->
  exists a, b_after (snd (guardScan c p i b)) = a :: b_after b /\ along (snd (guardScan c p i b)) e
    /\ forall st, near here st0 st -> needs here st0 (searchDemands p i) tt (runAfter here siteFor a e st).
Proof.
  intros Hok Ha Er.
  assert (Hint : forall bits, exists a,
    b_after (snd ((code ← block (readTo c p i (Mul (ZExtOrTrunc bits Result) (Word (if wide c then wcharSize c else 1))));
                   insertAfter (Straight code)) b)) = a :: b_after b
    /\ along (snd ((code ← block (readTo c p i (Mul (ZExtOrTrunc bits Result) (Word (if wide c then wcharSize c else 1))));
                   insertAfter (Straight code)) b)) e
    /\ forall st, near here st0 st -> needs here st0 (readDemands p i (wrap64 (ev_result e0))) tt (runAfter here siteFor a e st)).
  { intros bits. rewrite Hnarrow.
    destruct (after_block (readTo c p i (Mul (ZExtOrTrunc bits Result) (Word 1))) b e (readDemands p i (wrap64 (ev_result e0))))
      as (code & E1 & E2 & E3 & E4); [|done|].
    { intros b' A'. apply emits_read; [done|done|]. intros l. cbn [valueOf extend ev_result]. rewrite Er. apply mul64_one, wrapped_range. }
    unfold mbind, B_bind. destruct (block _ b) as [code' b']. cbn in E1, E2, E3. subst code'. exists (Straight code).
    cbn. rewrite E2. split; [done|]. split; [destruct E3 as (L1 & L2 & L3); by split|]. exact E4. }
  unfold guardScan, searchDemands. destruct (lc_result c) as [bits|space|]; [apply Hint| |apply Hint]. clear Hint.
  destruct (after_block (readTo c p i (Sub Result (Operand i))) b e (readDemands p i (sub64 (ev_result e0) (operandValue e0 i))))
    as (code & E1 & E2 & E3 & E4); [|done|].
  { intros b' A'. apply emits_read; [done|done|]. intros l. cbn [valueOf extend ev_result].
    change (operandValue (extend e l) i) with (operandValue e i). by rewrite Er, (along_operand b' e i A'). }
  rewrite two_blocks, E1. set (b1 := snd (block _ b)) in *. rewrite Hnarrow. set (missed := match termOf p with None => _ | Some t => _ end).
  set (ds := match termOf p with None => stringDemands c e0 i Max false | Some t => _ end).
  destruct (after_block missed b1 e ds) as (code2 & F1 & F2 & F3 & F4); [|done|].
  { subst missed ds. intros b' A'. destruct Hok as [Hok _]. destruct (termOf p) as [t|].
    - eapply emits_bind; [by apply emits_term|]. intros v b2 e2 A2 D2. cbv beta in D2. unfold agrees in D2.
      destruct v as [v|], (meaning c e0 st0 t Max) as [n|]; try done; [|by apply emits_ret].
      apply emits_range; [done|]. destruct (pa_bytes p); [done|]. destruct D2 as [Hn Hv]. split; [done|]. intros more.
      cbn [valueOf]. by rewrite Hv, mul64_one.
    - rewrite <- (app_nil_r (stringDemands _ _ _ _ _)). eapply emits_bind; [by apply (emits_string i None 0)|].
      intros v b2 e2 A2 _. by apply emits_ret. }
  rewrite F1. set (b2 := snd (block missed b1)) in *. exists (OnResult code code2). cbn [insertAfter snd b_after]. rewrite F2, E2. split; [done|]. split; [destruct F3 as (L1 & L2 & L3); by split|].
  intros st Hst. cbn [runAfter]. rewrite Er. destruct (ev_result e0 =? 0); [by apply F4|by apply E4].
Qed.

Lemma guardScans_after l : forall b e,
  Forall (fun s => param_ok (fst s)) l -> along b e -> ev_result e = ev_result e0 ->
  exists afters, b_after (snd (guardScans c l b)) = afters ++ b_after b
    /\ forall st, near here st0 st ->
         needs here st0 (concat (map (fun s => searchDemands (fst s) (snd s)) (rev l))) tt (runAfters here siteFor afters e st).
Proof.
  induction l as [|[p i] l IH]; intros b e Hok Ha Er.
  - exists []. split; [done|]. intros st Hst. by apply needs_ret.
  - apply Forall_cons_iff in Hok as [Hp Hok]. cbn [fst] in Hp. destruct (guardScan_after p i b e Hp Ha Er) as (a & E1 & A1 & Hrun).
    cbn [guardScans]. unfold mbind, B_bind. destruct (guardScan c p i b) as [u b1]. cbn in E1, A1.
    destruct (IH b1 e Hok A1 Er) as (afters & E2 & Hruns). exists (afters ++ [a]). rewrite E2, E1, <- app_assoc. split; [done|].
    intros st Hst. cbn [rev]. rewrite map_app, concat_app. cbn [map concat fst snd]. rewrite app_nil_r.
    assert (Happ : forall k1 k2 st1, runAfters here siteFor (k1 ++ k2) e st1 = (runAfters here siteFor k1 e;; runAfters here siteFor k2 e) st1).
    { clear. induction k1 as [|x k1 IH]; intros k2 st1; [done|]. cbn [app runAfters]. unfold mbind, C_bind in *.
      destruct (runAfter here siteFor x e st1) as [[[]|] st2]; [apply IH|done]. }
    rewrite Happ. apply (needs_bind here st0 _ _ tt); [by apply Hruns|]. intros st' Hst' _. cbn [runAfters].
    rewrite <- (app_nil_r (searchDemands p i)). apply (needs_bind here st0 _ [] tt); [by apply Hrun|]. intros st2 H2 _. by apply needs_ret.
Qed.

(** *** The whole call *)

Context (Hsizes : forall t, 0 <= getTypeAllocSize t < 2 ^ 64).

(** What the theorem asks of the call: its row's terms are ones the table uses,
    its operands what the pass saw. *)
Record call_fits : Prop := {
  cf_params : Forall param_ok (params c);
  cf_disjoint : Forall disjoint_ok (e_disjoint (lc_entry c));
  cf_operands : operands_ok e0;
  cf_start : ev_computed e0 = []
}.

Lemma field_range p n : fieldLimit p = Some n -> 0 <= n < 2 ^ 64.
Proof.
  unfold fieldLimit. destruct (throughDecay p) as [source [|[[| |]|] [|i rest]] base|]; try done. case_match; [done|].
  destruct (walkIndices _ _ _ _) as [[[[parent|] field] t]|]; try done. case_match; [|done]. by intros [= <-].
Qed.

Lemma limited_object : operands_ok e0 -> limited (objectSize c) (valueOf e0 <$> objectSize c).
Proof.
  intros Hok b e Ha.
  assert (Hfield : agrees e (writtenField c) (valueOf e0 <$> writtenField c)).
  { unfold writtenField. case_match; [done|]. destruct (firstWritten _ 0) as [index|]; cbn; [|done].
    destruct (argument c index) as [i|]; cbn; [|done]. destruct (negb (pointerAt c i)); [done|].
    destruct (fieldLimit _) as [n|] eqn:E; cbn; [|done]. apply denotes_word. by apply field_range in E. }
  assert (Hstated : agrees e (statedSize c) (valueOf e0 <$> statedSize c)).
  { unfold statedSize. case_match; [done|]. destruct (op_type _) as [bits| |]; try done. case_match; [done|]. rewrite Hnarrow.
    change (denotes e (ZExtOrTrunc bits (Operand (Z.to_nat (sizeArgument (lc_match c)))))
              (wrap64 (operandValue e0 (Z.to_nat (sizeArgument (lc_match c)))))).
    split; [apply wrapped_range|]. intros more. cbn [valueOf]. rewrite <- (along_operand b e _ Ha). reflexivity. }
  unfold objectSize, agrees in *. destruct (writtenField c) as [f|], (statedSize c) as [s|]; cbn in *; try done.
  by apply denotes_min.
Qed.

Lemma guardArguments_parts b1 b2 scans u :
  guardParams c (params c) 0 (objectSize c) start = (scans, b1) -> guardDisjoint c (e_disjoint (lc_entry c)) b1 = (u, b2) ->
  guardArguments c start = guardScans c scans b2.
Proof. intros E1 E2. unfold guardArguments, mbind, B_bind. cbv zeta. by rewrite E1, E2. Qed.

Lemma scansOf_ok ps : forall index, Forall param_ok ps -> Forall (fun s => param_ok (fst s)) (scansOf ps index).
Proof.
  induction ps as [|p ps IH]; intros index Hps; cbn [scansOf]; [constructor|]. apply Forall_cons_iff in Hps as [Hp Hps].
  repeat case_match; auto.
Qed.


(** C35: a term has one value: the code the pass emits for it before a call
    goes on exactly when the strings it measures end, and what it has computed
    then, in 64 saturating bits, is what the table's own evaluation gives on
    the call's operands and strings over the integers, for every term the table
    may hold no part of which is negative there (a negative operand is a large
    number at run time), in rows that are not wide. *)
Theorem run_time_value values t v :
  leaves_agree c e0 st0 values -> leaves_ok values ->
  term_wf t -> term_ok t = true -> natural values t -> LibTerm.evaluate values t = Some v ->
  operands_ok e0 -> ev_computed e0 = [] ->
  exists w b lengths, evaluate c t None start = (Some w, b)
    /\ needs here st0 (termDemands c e0 st0 t Max) (extend e0 lengths) (runCode here siteFor (b_code b) e0 st0)
    /\ valueOf (extend e0 lengths) w = v.
Proof.
  intros Hleaves Hints Hwf Hok Hn Hv Hops Hcomputed.
  assert (Hm : meaning c e0 st0 t Max = Some v).
  { apply (meaning_value c e0 st0 values); try done. apply (evaluate_denotes values t v Hints Hwf); [by apply natural_rounds|done]. }
  assert (Ha : along start e0) by (split; [by rewrite Hcomputed|by split]).
  pose proof (emits_term t Hok start e0 Ha) as He. unfold emits in He. rewrite Hm in He.
  destruct (evaluate c t None start) as [[w|] b]; destruct He as (code & lengths & Ec & _ & _ & Hrun & Hw); [|done].
  exists w, b, lengths. split; [done|]. rewrite Ec. cbn [start b_code app]. split; [|by apply denotes_now].
  apply Hrun. exact (near_refl here st0 None Hready).
Qed.
End Implements.
