(* ===== verification/GuardRules.v ===== *)
(** * Removing guards

    [lib/Frontend/GuardExpand.cpp] (lines 41 to 387 and the choices of
    [expandGuards]), and the scopes of locals and the extents of objects of
    [lib/Frontend/GuardPass.cpp] (lines 43 to 124): which guards the pass finds
    redundant, and which it makes one.  A function is its blocks, their
    instructions as far as the rules look at them, and the successors of each.

    What LLVM answers is a parameter: the order of
    [ReversePostOrderTraversal], a value's base and offset, its underlying
    object, whether it is zero (the class [Values]), and what scalar evolution
    knows (the class [Evolution]). *)

From Stdlib Require Import String.
From stdpp Require Import gmap sets strings.
From S2P Require Import Prelude.
From S2P Require CallGuards.
Local Open Scope Z_scope.

(** ** Functions *)

Inductive intrinsicID := lifetime_start (alloca : nat) | lifetime_end (alloca : nat) | stackrestore | otherIntrinsic.

Inductive opcode :=
  | LoadInst
  | StoreInst
  | IntrinsicInst (id : intrinsicID) (noFree : bool)
  | CallBase (callee : option string) (noFree : bool)    (* [None]: no known function *)
  | OtherInst.

(** An instruction: its identity, which is the value it defines, and whether
    LLVM says it goes on to the next. *)
Record instruction := mkInstruction { i_id : nat; i_op : opcode; i_transfers : bool }.

Record basicBlock := mkBlock { instructions : list instruction; successors : list nat }.

(** The entry block is the first. *)
Definition function := list basicBlock.

Definition blockAt (f : function) (b : nat) : basicBlock := nth b f (mkBlock [] []).

Definition predecessors (f : function) (b : nat) : list nat :=
  List.filter (fun p => bool_decide (b ∈ successors (blockAt f p))) (seq 0 (length f)).

(** ** Markers *)

Definition MarkerGuard : string := "__weavec.guard".
Definition MarkerRange : string := "__weavec.range".
Definition MarkerString : string := "__weavec.strlen".
Definition MarkerDisjoint : string := "__weavec.disjoint".
Definition MarkerProven : Z := 2.
Definition MarkerAlignShift : Z := 8.

Definition markerOf (op : opcode) : option string :=
  match op with
  | CallBase (Some name) _ =>
    if bool_decide (name ∈ [MarkerGuard; MarkerRange; MarkerString; MarkerDisjoint]) then Some name else None
  | _ => None
  end.

(** An operand: a constant or a value. *)
Inductive operand := ConstantInt (n : Z) | AValue (v : nat).

(** A marker's operands; [mk_base] is [None] for the null pointer. *)
Record markerCall := mkMarker {
  mk_id : nat;
  mk_name : string;
  mk_pointer : nat;
  mk_length : operand;
  mk_flags : operand;
  mk_base : option nat;
  mk_row : operand
}.

Inductive kind := KGuard | KRange | KString.
Inductive state := SGuard | SInBounds | SDominated | SMerged.
#[export] Instance kind_eq_dec : EqDecision kind.
Proof. solve_decision. Defined.
#[export] Instance state_eq_dec : EqDecision state.
Proof. solve_decision. Defined.

Record Access := mkAccess {
  a_marker : nat;
  a_kind : kind;
  a_pointer : nat;
  a_width : Z;
  a_length : option nat;
  a_alignment : Z;
  a_write : bool;
  a_pruned : bool;
  a_nullOk : bool;
  a_nullBase : option nat;
  a_row : Z;
  a_state : state;
  a_base : option nat;
  a_offset : Z;
  a_guardOffset : Z;
  a_guardWidth : Z;
  a_leader : nat;
  a_object : option nat
}.

Definition constant (a : Access) : bool :=
  negb (bool_decide (a_kind a = KString)) && negb (bool_decide (is_Some (a_length a))).

Definition with_state (s : state) (a : Access) : Access :=
  mkAccess (a_marker a) (a_kind a) (a_pointer a) (a_width a) (a_length a) (a_alignment a) (a_write a) (a_pruned a)
    (a_nullOk a) (a_nullBase a) (a_row a) s (a_base a) (a_offset a) (a_guardOffset a) (a_guardWidth a) (a_leader a) (a_object a).

Definition with_guard (offset width : Z) (a : Access) : Access :=
  mkAccess (a_marker a) (a_kind a) (a_pointer a) (a_width a) (a_length a) (a_alignment a) (a_write a) (a_pruned a)
    (a_nullOk a) (a_nullBase a) (a_row a) (a_state a) (a_base a) (a_offset a) offset width (a_leader a) (a_object a).

Definition with_leader (leader : nat) (a : Access) : Access :=
  mkAccess (a_marker a) (a_kind a) (a_pointer a) (a_width a) (a_length a) (a_alignment a) (a_write a) (a_pruned a)
    (a_nullOk a) (a_nullBase a) (a_row a) (a_state a) (a_base a) (a_offset a) (a_guardOffset a) (a_guardWidth a) leader (a_object a).

Definition with_base (base : option nat) (offset : Z) (object : option nat) (nullBase : option nat) (a : Access) : Access :=
  mkAccess (a_marker a) (a_kind a) (a_pointer a) (a_width a) (a_length a) (a_alignment a) (a_write a) (a_pruned a)
    (a_nullOk a) nullBase (a_row a) (a_state a) base offset (a_guardOffset a) (a_guardWidth a) (a_leader a) object.

(** The access a marker stands for. *)
Definition accessOf (m : markerCall) : option Access :=
  match mk_flags m with
  | AValue _ => None
  | ConstantInt bits =>
    let guard := bool_decide (mk_name m = MarkerGuard) in
    let string := bool_decide (mk_name m = MarkerString) in
    let row := match mk_row m with ConstantInt row => row mod 2 ^ 32 | AValue _ => 0 end in
    let alignment := 2 ^ Z.land (Z.shiftr bits MarkerAlignShift) 63 in
    let write := Z.testbit bits 0 in
    let pruned := Z.testbit bits 1 in
    let value := match mk_length m with ConstantInt _ => None | AValue v => Some v end in
    Some
      (if string
       then mkAccess (mk_id m) KString (mk_pointer m) 0 value alignment write pruned (Z.testbit bits 2) None row
              SGuard None 0 0 0 0 None
       else mkAccess (mk_id m) (if guard then KGuard else KRange) (mk_pointer m)
              (match mk_length m with ConstantInt width => width | AValue _ => 0 end) value alignment write pruned false
              (if guard then mk_base m else None) row SGuard None 0 0 0 0 None)
  end.

(** ** Objects *)

(** [llvm::TypeSize] *)
Record typeSize := mkSize { ts_value : Z; ts_scalable : bool }.

Inductive object :=
  | AllocaInst (isStatic : bool) (allocationSize : option typeSize)
  | GlobalVariable (declaration exactDefinition interposable common : bool) (size : typeSize)
  | OtherObject.

Definition fixedSize (s : typeSize) : option Z := if ts_scalable s then None else Some (ts_value s).

Definition exactSize (o : object) : option Z :=
  match o with
  | AllocaInst isStatic size => if negb isStatic then None else size ≫= fixedSize
  | GlobalVariable declaration exactDefinition interposable common size =>
    if declaration || negb exactDefinition || interposable || common then None else fixedSize size
  | OtherObject => None
  end.

Definition insideAt (o : object) (offset width : Z) : bool :=
  match exactSize o with
  | Some size => (0 <=? offset) && (offset <=? size) && (width <=? size - offset)
  | None => false
  end.

(** What LLVM says of the values of a function. *)
Class Values := {
  stripConstantOffsets : nat -> nat * Z;       (* the base, the offset (an [APInt]) *)
  getUnderlyingObject : nat -> nat;
  objectOf : nat -> object;
  isKnownNonZero : nat -> nat -> bool          (* at an instruction *)
}.

(** ** Scopes *)

(** A start, an end, or neither. *)
Definition markerFor (i : instruction) (alloca : nat) : Z :=
  match i_op i with
  | IntrinsicInst (lifetime_start a) _ => if bool_decide (a = alloca) then 1 else 0
  | IntrinsicInst (lifetime_end a) _ => if bool_decide (a = alloca) then -1 else 0
  | _ => 0
  end.

Definition scopeAfter (alloca : nat) (entered : bool) (l : list instruction) : bool :=
  fold_left (fun state i => let marker := markerFor i alloca in if marker =? 0 then state else marker <? 0) l entered.

Section Scopes.
Context (f : function) (alloca : nat).

Definition leavesDead (b : nat) (enteredDead : bool) : bool := scopeAfter alloca enteredDead (instructions (blockAt f b)).

(** The blocks of the ends, once for each. *)
Definition endBlocks : list nat :=
  flat_map (fun b => map (fun _ => b) (List.filter (fun i => markerFor i alloca =? -1) (instructions (blockAt f b))))
    (seq 0 (length f)).

(** The loop over the successors of a block left dead. *)
Fixpoint enterDead (succs : list nat) (dead : gset nat) (work : list nat) : gset nat * list nat :=
  match succs with
  | [] => (dead, work)
  | s :: rest =>
    if bool_decide (s ∈ dead) then enterDead rest dead work else enterDead rest ({[s]} ∪ dead) (s :: work)
  end.

(** The work list, its next block first. *)
Fixpoint deadFrom (fuel : nat) (work : list nat) (dead leftDead : gset nat) : option (gset nat) :=
  match fuel with
  | O => None
  | S fuel' =>
    match work with
    | [] => Some dead
    | b :: work =>
      if negb (leavesDead b (bool_decide (b ∈ dead))) || bool_decide (b ∈ leftDead) then deadFrom fuel' work dead leftDead
      else
        let '(dead, work) := enterDead (successors (blockAt f b)) dead work in
        deadFrom fuel' work dead ({[b]} ∪ leftDead)
    end
  end.

Definition scopeFuel : nat := S (length endBlocks + length (flat_map successors f)).

(** The blocks the alloca may be out of scope at the start of. *)
Definition deadAtEntry : gset nat := default ∅ (deadFrom scopeFuel (rev endBlocks) ∅ ∅).

(** At the [k]th instruction of block [b]. *)
Definition mayBeOutOfScope (b k : nat) : bool :=
  scopeAfter alloca (bool_decide (b ∈ deadAtEntry)) (take k (instructions (blockAt f b))).
End Scopes.

(** Where an instruction is. *)
Definition position (f : function) (id : nat) : option (nat * nat) :=
  let here b := match list_find (fun i => i_id i = id) (instructions (blockAt f b)) with
                | Some (k, _) => Some (b, k)
                | None => None
                end in
  head (omap here (seq 0 (length f))).

(** ** Accesses inside their objects *)

Inductive predicate := ULE | SGE | SLE.

(** Scalar evolution: an expression has a width in bits. *)
Class Evolution := {
  scev : Type;
  isSCEVable : nat -> bool;
  getSCEV : nat -> scev;
  getMinusSCEV : scev -> scev -> option scev;      (* [None]: not computed, or no integer *)
  getTypeOf : scev -> Z;
  getTruncateOrZeroExtend : scev -> Z -> scev;
  getConstant : Z -> Z -> scev;
  getAddExpr : scev -> scev -> scev;
  isKnownPredicateAt : predicate -> scev -> scev -> nat -> bool
}.

(** Whether scalar evolution knows that the access lies in the [size] bytes of
    the object. *)
Definition scevInside `{Evolution} (a : Access) (o : nat) (size : Z) : bool :=
  if negb (isSCEVable (a_pointer a)) then false
  else
    match getMinusSCEV (getSCEV (a_pointer a)) (getSCEV o) with
    | None => false
    | Some offset =>
      let type := getTypeOf offset in
      let fits (end_ : scev) :=
        isKnownPredicateAt SGE offset (getConstant type 0) (a_marker a)
        && isKnownPredicateAt SLE end_ (getConstant type size) (a_marker a) in
      match a_length a with
      | Some v =>
        if negb (isSCEVable v) then false
        else
          let length := getTruncateOrZeroExtend (getSCEV v) type in
          if negb (isKnownPredicateAt ULE length (getConstant type size) (a_marker a)) then false
          else fits (getAddExpr offset length)
      | None => if size <? a_width a then false else fits (getAddExpr offset (getConstant type (a_width a)))
      end
    end.

(** Rule 6.1. *)
Definition inBounds `{Values} `{Evolution} (f : function) (a : Access) : bool :=
  match a_object a with
  | None => false
  | Some o =>
    if bool_decide (a_kind a = KString) then false
    else if match objectOf o, position f (a_marker a) with
            | AllocaInst _ _, Some (b, k) => mayBeOutOfScope f o b k
            | _, _ => false
            end then false
    else
      match exactSize (objectOf o) with
      | None => false
      | Some size =>
        if bool_decide (a_base a = Some o) && bool_decide (a_length a = None)
        then insideAt (objectOf o) (a_offset a) (a_width a)
        else scevInside a o size
      end
  end.

(** ** Guards a guard before them covers *)

Definition killsGuards (i : instruction) : bool :=
  match i_op i with
  | IntrinsicInst id noFree =>
    match id with
    | lifetime_start _ | lifetime_end _ | stackrestore => true
    | otherIntrinsic => negb noFree
    end
  | CallBase callee noFree =>
    if bool_decide (is_Some (markerOf (i_op i))) then false
    else if match callee with Some name => CallGuards.isRuntimeName name | None => false end then false
    else negb noFree
  | _ => false
  end.

Definition removable (a : Access) : bool :=
  bool_decide (a_state a = SGuard) && constant a && bool_decide (is_Some (a_base a)).

(** [std::int64_t] *)
Definition int64 (z : Z) : Z := (z + 2 ^ 63) mod 2 ^ 64 - 2 ^ 63.

Definition endOf (offset width : Z) : Z := int64 (offset + int64 width).

(** [find] of a map filled in order of the accesses: the last access of a
    marker. *)
Definition byMarker (accesses : list Access) (id : nat) : option nat :=
  list.last (List.filter (fun i => match accesses !! i with Some a => removable a && (a_marker a =? id)%nat | None => false end)
               (seq 0 (length accesses))).

Section Dominated.
Context (f : function) (order : list nat) (accesses : list Access).

(** The accesses the rule looks at, by their index. *)
Definition candidates : gset nat :=
  list_to_set (List.filter (fun i => match accesses !! i with Some a => removable a | None => false end) (seq 0 (length accesses))).

(** Whether the bytes of [a] are among those of [guard]. *)
Definition covers (guard a : Access) : bool :=
  bool_decide (a_base guard = a_base a) && (a_offset guard <=? a_offset a)
  && (endOf (a_offset a) (a_width a) <=? endOf (a_offset guard) (a_width guard)).

Definition covered (available : gset nat) (i : nat) : bool :=
  match accesses !! i with
  | Some a =>
    existsb (fun other => negb (other =? i)%nat && match accesses !! other with Some g => covers g a | None => false end)
      (elements available)
  | None => false
  end.

(** One instruction, without and with the decision. *)
Definition transferOne (set : gset nat) (i : instruction) : gset nat :=
  let set := if killsGuards i then ∅ else set in
  match byMarker accesses (i_id i) with Some a => {[a]} ∪ set | None => set end.

Definition transfer (b : nat) (set : gset nat) : gset nat := fold_left transferOne (instructions (blockAt f b)) set.

Definition decideOne (s : gset nat * list Access) (i : instruction) : gset nat * list Access :=
  let '(set, accs) := s in
  let set' := if killsGuards i then ∅ else set in
  match byMarker accesses (i_id i) with
  | Some a => ({[a]} ∪ set', if covered set' a then alter (with_state SDominated) a accs else accs)
  | None => (set', accs)
  end.

Definition transferDeciding (b : nat) (set : gset nat) (accs : list Access) : list Access :=
  snd (fold_left decideOne (instructions (blockAt f b)) (set, accs)).

(** What is available at a block's start. *)
Definition inSet (out : gmap nat (gset nat)) (b : nat) : gset nat :=
  if bool_decide (b = O) then ∅
  else
    match omap (fun p => out !! p) (predecessors f b) with
    | [] => ∅
    | sets => foldr intersection candidates sets
    end.

(** The first values: all, but nothing behind the entry. *)
Definition outStart : gmap nat (gset nat) :=
  fold_left (fun out b => <[b := if bool_decide (b = O) then ∅ else candidates]> out) order ∅.

Definition visit (s : gmap nat (gset nat) * bool) (b : nat) : gmap nat (gset nat) * bool :=
  let '(out, changed) := s in
  let next := transfer b (inSet out b) in
  if bool_decide (out !! b = Some next) then (out, changed) else (<[b := next]> out, true).

(** A pass over the blocks. *)
Definition round (out : gmap nat (gset nat)) : gmap nat (gset nat) * bool := fold_left visit order (out, false).

Fixpoint rounds (fuel : nat) (out : gmap nat (gset nat)) : option (gmap nat (gset nat)) :=
  match fuel with
  | O => None
  | S fuel' => let '(out, changed) := round out in if changed then rounds fuel' out else Some out
  end.

Definition roundFuel : nat := S (S (length order * size candidates)).

Definition MaxCandidates : Z := 20000.

Definition removeDominated : list Access :=
  if bool_decide (candidates = ∅) || (MaxCandidates <? Z.of_nat (size candidates)) || (MaxCandidates <? Z.of_nat (length f))
  then accesses
  else
    match rounds roundFuel outStart with
    | Some out => fold_left (fun accs b => transferDeciding b (inSet out b) accs) order accesses
    | None => accesses
    end.
End Dominated.

(** ** Guards made one *)

Section Merged.
Context (f : function).

Definition MaxHull : Z := 64.

Definition startGuard (a : Access) : Access := with_guard (a_offset a) (a_width a) a.

(** A call that is no marker, or an instruction that may not go on. *)
Definition closesHulls (i : instruction) : bool :=
  killsGuards i
  || (negb (bool_decide (is_Some (markerOf (i_op i))))
      && negb (match i_op i with LoadInst | StoreInst => true | _ => false end) && negb (i_transfers i)).

(** One instruction: the open guard of each base, and the accesses. *)
Definition mergeOne (marked : nat -> option nat) (s : gmap nat nat * list Access) (i : instruction) : gmap nat nat * list Access :=
  let '(open, accs) := s in
  match marked (i_id i) with
  | Some n =>
    match accs !! n with
    | None => s
    | Some a =>
      let base := default O (a_base a) in
      match open !! base ≫= fun leader => accs !! leader ≫= fun g => Some (leader, g) with
      | Some (leader, g) =>
        let low := Z.min (a_guardOffset g) (a_offset a) in
        let high := Z.max (endOf (a_guardOffset g) (a_guardWidth g)) (endOf (a_offset a) (a_width a)) in
        if int64 (high - low) <=? MaxHull
        then (open, alter (fun a => with_leader leader (with_state SMerged a)) n
                      (alter (with_guard low (wrap64 (high - low))) leader accs))
        else (<[base := n]> open, accs)
      | None => (<[base := n]> open, accs)
      end
    end
  | None => if closesHulls i then (∅, accs) else s
  end.

Definition mergeBlock (marked : nat -> option nat) (accs : list Access) (b : basicBlock) : list Access :=
  snd (fold_left (mergeOne marked) (instructions b) (∅, accs)).

Definition mergeInBlocks (accesses : list Access) : list Access :=
  fold_left (mergeBlock (byMarker accesses)) f (map startGuard accesses).
End Merged.

(** The accesses a guard checks: its own, and those merged into it. *)
Definition members (accesses : list Access) (leader : nat) : list nat :=
  leader :: List.filter (fun i => match accesses !! i with
                                  | Some a => bool_decide (a_state a = SMerged) && (a_leader a =? leader)%nat
                                  | None => false
                                  end) (seq 0 (length accesses)).

(** ** Allocas that escape *)

(** A use of a pointer, by what uses it; the value derived from it. *)
Inductive use :=
  | DerivedUse (v : nat)                (* [getelementptr], cast, phi, select *)
  | ReadUse                             (* load, comparison *)
  | StoreUse (stored : bool)
  | RmwUse (operand : bool)
  | ExchangeUse (pointer : bool)
  | CallUse (marker harmless : bool)    (* lifetime, debug, [memcpy] and its kind, [assume] *)
  | OtherUse.

Section Escapes.
Context (uses : nat -> list use).

(** The uses of one value: whether one escapes, else the values still to look
    at. *)
Fixpoint usesEscape (us : list use) (work : list nat) (seen : gset nat) : option (list nat * gset nat) :=
  match us with
  | [] => Some (work, seen)
  | u :: rest =>
    match u with
    | DerivedUse v =>
      if bool_decide (v ∈ seen) then usesEscape rest work seen else usesEscape rest (v :: work) ({[v]} ∪ seen)
    | ReadUse => usesEscape rest work seen
    | StoreUse stored => if stored then None else usesEscape rest work seen
    | RmwUse operand => if operand then None else usesEscape rest work seen
    | ExchangeUse pointer => if negb pointer then None else usesEscape rest work seen
    | CallUse marker harmless => if marker || harmless then usesEscape rest work seen else None
    | OtherUse => None
    end
  end.

Fixpoint escapesFrom (fuel : nat) (work : list nat) (seen : gset nat) : option bool :=
  match fuel with
  | O => None
  | S fuel' =>
    match work with
    | [] => Some false
    | v :: work =>
      match usesEscape (uses v) work seen with
      | None => Some true
      | Some (work, seen) => escapesFrom fuel' work seen
      end
    end
  end.

(** [values] bounds the values of the function. *)
Definition escapes (values alloca : nat) : option bool := escapesFrom (S values) [alloca] {[alloca]}.
End Escapes.

(** ** The markers of a function *)

(** The first loop of [expandGuards]: the bases, and what rule 6.1 removes. *)
Definition classify `{Values} `{Evolution} (f : function) (a : Access) : Access :=
  if bool_decide (a_kind a = KString) then a
  else
    let '(base, offset) := stripConstantOffsets (a_pointer a) in
    let nullBase := match a_nullBase a with
                    | Some b => if isKnownNonZero b (a_marker a) then None else Some b
                    | None => None
                    end in
    let small := (- 2 ^ 62 <=? offset) && (offset <? 2 ^ 62) in
    let a := with_base (if small then Some base else None) (if small then offset else a_offset a)
               (Some (getUnderlyingObject (a_pointer a))) nullBase a in
    if a_pruned a || inBounds f a then with_state SInBounds a else a.

(** What the rules make of the markers. *)
Definition ruled `{Values} `{Evolution} (f : function) (order : list nat) (markers : list markerCall) : list Access :=
  mergeInBlocks f (removeDominated f order (map (classify f) (omap accessOf markers))).

(** The reason a ledger row gives. *)
Definition reasonOf (s : state) : string :=
  match s with SInBounds => "in-bounds" | SDominated => "dominated" | SMerged => "merged" | SGuard => "access" end.

(** What a marker becomes: nothing, the check of the bytes from its base (its
    members each on the slow path), a range check of a run-time length, a
    string's; a proof's monitor in verify mode. *)
Inductive emitted :=
  | Nothing
  | CheckBytes (base : nat) (offset width : Z) (alignment : Z) (members : list nat) (proven : bool)
  | CheckPointer (pointer : nat) (width : Z) (alignment : Z) (proven : bool)
  | CheckRange (pointer length : nat) (proven : bool)
  | CheckString (pointer : nat) (length : option nat) (nullOk : bool).

Definition expand (verify : bool) (accesses : list Access) (i : nat) : emitted :=
  match accesses !! i with
  | None => Nothing
  | Some a =>
    if bool_decide (a_kind a = KString) then CheckString (a_pointer a) (a_length a) (a_nullOk a)
    else
      let removed := negb (bool_decide (a_state a = SGuard)) || a_pruned a in
      if removed && negb verify then Nothing
      else
        match a_length a with
        | Some length => CheckRange (a_pointer a) length removed
        | None =>
          if bool_decide (a_state a = SGuard)
             && (negb (a_guardOffset a =? a_offset a) || negb (a_guardWidth a =? a_width a))
          then CheckBytes (default O (a_base a)) (a_guardOffset a) (a_guardWidth a) 1
                 (match members accesses i with [_] => [] | l => l end) removed
          else CheckPointer (a_pointer a) (a_width a) (a_alignment a) removed
        end
  end.
