(* ===== verification/GuardRuns.v ===== *)
(** * Runs of a guarded function

    What removing guards (the file GuardRules) does to the runs of a function.
    A run goes from instruction to instruction along the blocks; a marker
    tests the base an address was computed from against null, the bytes of
    accesses against what may be used, and the color of the first byte against
    the root's, and stops the program at the first test that fails.  These are
    the guards of a little-endian target, in a mode other than verify.  The
    theorems: with the guards rule 6.2 removes, the function runs and stops
    exactly as without; with the guards of rule 6.3 made one, every access is
    still checked when it is reached, and the program only stops where it would
    have stopped a little later.  Both hold of the null tests as far as no
    guard without one stands before a guard of the same base with one
    ([null_first]: such a test is lost), and of the colors as far as the guards
    of one base have one root ([roots_ok]). *)

From stdpp Require Import gmap sets relations.
From S2P Require Import Prelude GuardRules.
Local Open Scope Z_scope.

(** ** Runs *)

Definition instrAt (f : function) (b k : nat) : option instruction := instructions (blockAt f b) !! k.

(** One test of a guard, and the access it is of; a color is tested at an offset
    from the access's base. *)
Inductive check := NullTest (i : nat) | Bytes (i : nat) | Color (i : nat) (offset : Z).

(** What may be used, and which bytes the color test of a root passes.  Every
    object has a byte behind it that may not be used, so that bytes in a row
    that may be used are of one object and of one color. *)
Record memory := mkMemory {
  usable : Z -> Prop;
  fits : Z -> Z -> Prop;
  fits_dec root x : Decision (fits root x);
  apart : forall root x n, 0 <= n < 2 ^ 62 -> (forall j, 0 <= j <= n -> usable (wrap64 (x + j))) ->
            fits root (wrap64 x) -> fits root (wrap64 (x + n))
}.

(** What may be used may still be, in its color. *)
Definition grows (u u' : memory) : Prop :=
  (forall x, usable u x -> usable u' x) /\ forall root x, usable u x -> fits u root x -> fits u' root x.

(** The memory, and the value of each SSA value; or the test that failed. *)
Inductive config := Running (b k : nat) (mem : memory) (vals : nat -> Z) | Stopped (c : check).

(** The base [emitGuard] tests against null for a guard of so many bytes: none
    for an empty access, nor in the call it makes for more than 113. *)
Definition nullTest (a : Access) : option nat :=
  if (a_width a =? 0) || (113 <? a_width a) then None else a_nullBase a.

(** [emitGuard]'s form for an access that stays in one granule, which tests the
    color with the bytes; every other form tests it first. *)
Definition oneGranule (width alignment : Z) : bool := bool_decide (width ∈ [1; 2; 4; 8; 16]) && (width <=? alignment).

Section Runs.
Context (f : function) (roots : nat -> option nat) (accesses : list Access).

(** The root whose color the guard of access [i] tests ([loadRootShadows]): none
    for an empty access, nor in a build without colors. *)
Definition rootTest (i : nat) (a : Access) : option nat := if a_width a =? 0 then None else roots i.

(** The test goes on: the base is not null, the bytes of the access may be
    used, the byte is in the color of the root's object. *)
Definition passes (mem : memory) (vals : nat -> Z) (c : check) : Prop :=
  match c with
  | NullTest i =>
    match accesses !! i with Some a => forall q, nullTest a = Some q -> vals q <> 0 | None => True end
  | Bytes i =>
    match accesses !! i with
    | Some a => forall j, 0 <= j < a_width a -> usable mem (wrap64 (vals (default O (a_base a)) + a_offset a + j))
    | None => True
    end
  | Color i offset =>
    match accesses !! i with
    | Some a => forall r, rootTest i a = Some r -> fits mem (vals r) (wrap64 (vals (default O (a_base a)) + offset))
    | None => True
    end
  end.

(** The tests of a guard whose bytes are those of the accesses [l]. *)
Definition testsOf (i : nat) (offset : Z) (granule : bool) (l : list nat) : list check :=
  if granule then NullTest i :: map Bytes l ++ [Color i offset] else Color i offset :: NullTest i :: map Bytes l.

(** The guard of an access of its own. *)
Definition ownChecks (i : nat) : list check :=
  match accesses !! i with
  | Some a => testsOf i (a_offset a) (oneGranule (a_width a) (a_alignment a)) [i]
  | None => []
  end.

Definition ok (mem : memory) (vals : nat -> Z) (i : nat) : Prop := Forall (passes mem vals) (ownChecks i).

(** What an instruction that kills no guard does to the memory. *)
Context (effect : memory -> memory -> Prop).

(** [checks i]: what the marker of access [i] tests, in order. *)
Context (checks : nat -> list check).

Inductive step : config -> config -> Prop :=
  | step_pass b k u v i n :
    instrAt f b k = Some i -> byMarker accesses (i_id i) = Some n -> Forall (passes u v) (checks n) ->
    step (Running b k u v) (Running b (S k) u v)
  | step_stop b k u v i n l1 j l2 :
    instrAt f b k = Some i -> byMarker accesses (i_id i) = Some n -> checks n = l1 ++ j :: l2 ->
    Forall (passes u v) l1 -> ~ passes u v j -> step (Running b k u v) (Stopped j)
  | step_other b k u v u' v' i :
    instrAt f b k = Some i -> byMarker accesses (i_id i) = None ->
    (killsGuards i = false -> effect u u') -> (forall x, x <> i_id i -> v' x = v x) ->
    step (Running b k u v) (Running b (S k) u' v')
  | step_jump b k u v b' :
    k = length (instructions (blockAt f b)) -> b' ∈ successors (blockAt f b) ->
    step (Running b k u v) (Running b' 0 u v).
End Runs.

(** The bytes the guard of an access tests: its own, or the hull. *)
Definition tested (accesses : list Access) (n : nat) (a : Access) : Z * Z :=
  match members accesses n with [_] => (a_offset a, a_width a) | _ => (a_guardOffset a, a_guardWidth a) end.

(** What each marker tests, by the accesses' states: the null base and the root
    of its own access, at the start of the bytes it tests, and the bytes of
    each access it stands for. *)
Definition checksOf (accesses : list Access) (n : nat) : list check :=
  match accesses !! n with
  | Some a =>
    if bool_decide (a_state a = SGuard) then
      let bytes := tested accesses n a in
      testsOf n (fst bytes) (bool_decide (bytes = (a_offset a, a_width a)) && oneGranule (a_width a) (a_alignment a))
              (members accesses n)
    else []
  | None => []
  end.

(** ** What LLVM promises of a function *)

(** The ways through a function, with the accesses whose markers they pass; no
    instruction of [avoid] is passed. *)
Inductive walk (f : function) (accesses : list Access) (avoid : nat -> Prop) : nat -> nat -> gset nat -> Prop :=
  | walk_entry : walk f accesses avoid 0 0 ∅
  | walk_step b k s i :
    walk f accesses avoid b k s -> instrAt f b k = Some i -> ~ avoid (i_id i) ->
    walk f accesses avoid b (S k) (match byMarker accesses (i_id i) with Some n => {[n]} ∪ s | None => s end)
  | walk_edge b s b' :
    walk f accesses avoid b (length (instructions (blockAt f b))) s -> b' ∈ successors (blockAt f b) ->
    walk f accesses avoid b' 0 s.

(** The values a marker names: the base of its access, the one it tests against
    null, the root. *)
Definition uses (roots : nat -> option nat) (n : nat) (a : Access) (d : nat) : Prop :=
  a_base a = Some d \/ nullTest a = Some d \/ rootTest roots n a = Some d.

Record function_ok (f : function) (order : list nat) (roots : nat -> option nat) (accesses : list Access) : Prop := {
  (** a reverse post-order starts at the entry *)
  fo_entry : exists rest, order = 0%nat :: rest;
  fo_order : forall b b', b ∈ order -> b' ∈ successors (blockAt f b) -> b' ∈ order;
  (** an instruction is in one place *)
  fo_ids : forall b k i b' k' i', instrAt f b k = Some i -> instrAt f b' k' = Some i' -> i_id i = i_id i' -> b = b' /\ k = k';
  (** a value's definition is on every way to a use: what a marker names *)
  fo_dominance : forall d b0 k0 i0 b k s i n a,
    instrAt f b0 k0 = Some i0 -> i_id i0 = d ->
    walk f accesses (eq d) b k s -> instrAt f b k = Some i -> byMarker accesses (i_id i) = Some n ->
    accesses !! n = Some a -> ~ uses roots n a d;
  (** a marker is a call of a marker *)
  fo_markers : forall b k i n, instrAt f b k = Some i -> byMarker accesses (i_id i) = Some n -> is_Some (markerOf (i_op i))
}.

(** Extents that do not reach around the address space. *)
Definition sizes_ok (accesses : list Access) : Prop :=
  Forall (fun a => removable a = true -> 0 < a_width a < 2 ^ 61 /\ - 2 ^ 61 <= a_offset a < 2 ^ 61) accesses.

(** Where a guard with a null test is reached, the guards of the same base
    passed before had the same test. *)
Definition null_first (f : function) (accesses : list Access) : Prop :=
  forall b k s i n an m am,
    walk f accesses (fun _ => False) b k s -> instrAt f b k = Some i -> byMarker accesses (i_id i) = Some n ->
    accesses !! n = Some an -> m ∈ s -> accesses !! m = Some am -> a_base am = a_base an ->
    nullTest an = None \/ nullTest am = nullTest an.

(** The guards of one base have one root. *)
Definition roots_ok (roots : nat -> option nat) (accesses : list Access) : Prop :=
  forall m n am an, accesses !! m = Some am -> accesses !! n = Some an -> removable am = true -> removable an = true ->
    a_base am = a_base an -> roots m = roots n.

(** No marker is merged yet. *)
Definition unmerged (accesses : list Access) : Prop := Forall (fun a => a_state a <> SMerged) accesses.

(** The tests of a guard, in either order. *)
Lemma tests_all (P : check -> Prop) i offset granule l :
  Forall P (testsOf i offset granule l) <-> P (NullTest i) /\ Forall P (map Bytes l) /\ P (Color i offset).
Proof.
  unfold testsOf. destruct granule; rewrite !Forall_cons_iff, ?list.Forall_app, ?Forall_cons_iff; [|tauto].
  split; [intros (? & ? & ? & _); tauto|intros (? & ? & ?); by repeat constructor].
Qed.

Section Facts.
Context (f : function) (order : list nat) (roots : nat -> option nat) (accesses : list Access).
Context (Hf : function_ok f order roots accesses) (Hsizes : sizes_ok accesses).

Lemma ok_iff u v n a : accesses !! n = Some a ->
  ok roots accesses u v n
  <-> passes roots accesses u v (NullTest n) /\ passes roots accesses u v (Bytes n)
      /\ passes roots accesses u v (Color n (a_offset a)).
Proof.
  intros Ha. unfold ok, ownChecks. rewrite Ha, tests_all. cbn [map]. rewrite Forall_cons_iff. intuition constructor.
Qed.

Lemma width_some n a : accesses !! n = Some a -> removable a = true -> 0 < a_width a < 2 ^ 61 /\ - 2 ^ 61 <= a_offset a < 2 ^ 61.
Proof. intros Ha Hr. unfold sizes_ok in Hsizes. rewrite Forall_lookup in Hsizes. by apply (Hsizes n a Ha Hr). Qed.

Lemma rootTest_some n a : accesses !! n = Some a -> removable a = true -> rootTest roots n a = roots n.
Proof.
  intros Ha Hr. unfold rootTest. destruct (width_some n a Ha Hr) as [Hw _]. by rewrite (proj2 (Z.eqb_neq (a_width a) 0)) by lia.
Qed.

Lemma byMarker_some id n : byMarker accesses id = Some n -> exists a, accesses !! n = Some a /\ removable a = true /\ a_marker a = id.
Proof.
  unfold byMarker. intros Hl. assert (Hin : In n (List.filter (fun i => match accesses !! i with
    | Some a => removable a && (a_marker a =? id)%nat | None => false end) (seq 0 (length accesses)))).
  { apply list_elem_of_In. by apply last_Some_elem_of. }
  apply filter_In in Hin as [_ Hin]. destruct (accesses !! n) as [a|]; [|done]. exists a.
  apply andb_true_iff in Hin as [Hr Hm]. apply Nat.eqb_eq in Hm. done.
Qed.

Lemma candidates_spec n : n ∈ candidates accesses <-> exists a, accesses !! n = Some a /\ removable a = true.
Proof.
  unfold candidates. rewrite elem_of_list_to_set, list_elem_of_In, filter_In, in_seq. split.
  - intros [_ Hn]. destruct (accesses !! n) as [a|]; [by exists a|done].
  - intros (a & Ha & Hr). rewrite Ha. split; [|done]. apply lookup_lt_Some in Ha. lia.
Qed.

Lemma marker_lives i n : byMarker accesses (i_id i) = Some n -> (exists b k, instrAt f b k = Some i) -> killsGuards i = false.
Proof.
  intros Hb (b & k & Hi). pose proof (fo_markers _ _ _ _ Hf b k i n Hi Hb) as Hm. unfold killsGuards.
  destruct (i_op i) as [| |id nf|callee nf|]; try done; [by destruct Hm|]. by rewrite bool_decide_true.
Qed.

(** *** Ends of extents *)

Lemma int64_small z : - 2 ^ 63 <= z < 2 ^ 63 -> int64 z = z.
Proof. intros Hz. unfold int64. rewrite Z.mod_small by lia. lia. Qed.

Lemma endOf_exact n a : accesses !! n = Some a -> removable a = true -> endOf (a_offset a) (a_width a) = a_offset a + a_width a.
Proof.
  intros Ha Hr. unfold sizes_ok in Hsizes. rewrite List.Forall_forall in Hsizes.
  assert (Hin : In a accesses) by (apply list_elem_of_In; by eapply list_elem_of_lookup_2). destruct (Hsizes a Hin Hr) as [Hw Ho].
  unfold endOf. by rewrite !int64_small by (rewrite ?int64_small; lia).
Qed.

Lemma covers_exact g n ag an :
  accesses !! g = Some ag -> accesses !! n = Some an -> removable ag = true -> removable an = true -> covers ag an = true ->
  a_base ag = a_base an /\ a_offset ag <= a_offset an /\ a_offset an + a_width an <= a_offset ag + a_width ag.
Proof.
  intros Hg Hn Rg Rn Hc. unfold covers in Hc. rewrite (endOf_exact g ag Hg Rg), (endOf_exact n an Hn Rn) in Hc.
  by apply andb_true_iff in Hc as [[Hb%bool_decide_eq_true Ho%Z.leb_le]%andb_true_iff He%Z.leb_le].
Qed.

(** The null test and the bytes of a covered access. *)
Lemma covers_bytes u v g n ag an :
  accesses !! g = Some ag -> accesses !! n = Some an -> removable ag = true -> removable an = true ->
  covers ag an = true -> nullTest an = None \/ nullTest ag = nullTest an ->
  passes roots accesses u v (NullTest g) -> passes roots accesses u v (Bytes g) ->
  passes roots accesses u v (NullTest n) /\ passes roots accesses u v (Bytes n).
Proof.
  intros Hg Hn Rg Rn Hc Hnull. destruct (covers_exact g n ag an Hg Hn Rg Rn Hc) as (Hb & Ho & He).
  unfold passes. rewrite !Hg, !Hn, Hb. intros H0 Hok. split.
  { intros q Hq. apply H0. destruct Hnull; congruence. }
  intros j Hj. specialize (Hok (a_offset an - a_offset ag + j) ltac:(lia)).
  by replace (v (default 0%nat (a_base an)) + a_offset an + j)
    with (v (default 0%nat (a_base an)) + a_offset ag + (a_offset an - a_offset ag + j)) by lia.
Qed.

Lemma covers_ok u v g n ag an :
  roots_ok roots accesses ->
  accesses !! g = Some ag -> accesses !! n = Some an -> removable ag = true -> removable an = true ->
  covers ag an = true -> nullTest an = None \/ nullTest ag = nullTest an ->
  ok roots accesses u v g -> ok roots accesses u v n.
Proof.
  intros Hroots Hg Hn Rg Rn Hc Hnull. rewrite (ok_iff u v g ag Hg), (ok_iff u v n an Hn). intros (H0 & Hok & Hcol).
  destruct (covers_bytes u v g n ag an Hg Hn Rg Rn Hc Hnull H0 Hok) as [Hn0 Hnok]. split_and!; [done..|].
  destruct (covers_exact g n ag an Hg Hn Rg Rn Hc) as (Hb & Ho & He).
  destruct (width_some g ag Hg Rg) as [Wg _], (width_some n an Hn Rn) as [Wn _].
  unfold passes in *. rewrite Hg in *. rewrite Hn, <- Hb. intros r. rewrite (rootTest_some n an Hn Rn), <- (Hroots g n ag an Hg Hn Rg Rn Hb).
  rewrite (rootTest_some g ag Hg Rg) in Hcol. intros Hr. specialize (Hcol r Hr).
  replace (v (default 0%nat (a_base ag)) + a_offset an) with (v (default 0%nat (a_base ag)) + a_offset ag + (a_offset an - a_offset ag)) by lia.
  apply (apart u); [lia| |exact Hcol]. intros j Hj. apply Hok. lia.
Qed.
End Facts.

(** *** Walks *)

Section Walks.
Context (f : function) (order : list nat) (roots : nat -> option nat) (accesses : list Access).
Context (Hf : function_ok f order roots accesses).

Lemma walk_weaken (P Q : nat -> Prop) b k s : (forall x, Q x -> P x) -> walk f accesses P b k s -> walk f accesses Q b k s.
Proof.
  intros HQ. induction 1 as [|b k s i Hw IH Hi Ha|b s b' Hw IH Hb].
  - apply walk_entry.
  - apply walk_step; [done|done|]. intros Hq. by apply Ha, HQ.
  - by eapply walk_edge.
Qed.

Lemma walk_order P b k s : walk f accesses P b k s -> b ∈ order.
Proof. induction 1; [destruct (fo_entry _ _ _ _ Hf) as [rest ->]; set_solver|done|by eapply (fo_order _ _ _ _ Hf)]. Qed.

Lemma walk_prefix P b k s : walk f accesses P b k s -> forall k0, (k0 <= k)%nat -> exists s0, walk f accesses P b k0 s0.
Proof.
  induction 1 as [|b k s i Hw IH Hi Ha|b s b' Hw IH Hb]; intros k0 Hk.
  - exists ∅. replace k0 with 0%nat by lia. apply walk_entry.
  - destruct (decide (k0 = S k)) as [->|]; [|by apply IH; lia]. eexists. by eapply walk_step.
  - exists s. replace k0 with 0%nat by lia. by eapply walk_edge.
Qed.

(** A way to a place passes [d] or does not. *)
Lemma walk_cut d b k s :
  walk f accesses (fun _ => False) b k s ->
  (exists s', walk f accesses (eq d) b k s')
  \/ exists b0 k0 i s', instrAt f b0 k0 = Some i /\ i_id i = d /\ walk f accesses (eq d) b0 k0 s'.
Proof.
  induction 1 as [|b k s i Hw IH Hi Ha|b s b' Hw IH Hb].
  - left. exists ∅. apply walk_entry.
  - destruct IH as [(s' & Hs)|IH]; [|by right]. destruct (decide (i_id i = d)) as [Hd|Hd].
    + right. by exists b, k, i, s'.
    + left. eexists. eapply walk_step; [done..|]. congruence.
  - destruct IH as [(s' & Hs)|IH]; [|by right]. left. exists s'. by eapply walk_edge.
Qed.

(** Before its definition is passed a value is used by no marker. *)
Lemma walk_unused d b0 k0 i0 b k s :
  instrAt f b0 k0 = Some i0 -> i_id i0 = d -> walk f accesses (eq d) b k s ->
  forall n a, n ∈ s -> accesses !! n = Some a -> ~ uses roots n a d.
Proof.
  intros Hi0 Hd. induction 1 as [|b k s i Hw IH Hi Ha|b s b' Hw IH Hb]; intros n a Hn Hacc; [set_solver| |by eapply IH].
  destruct (byMarker accesses (i_id i)) as [m|] eqn:Em; [|by eapply IH].
  apply elem_of_union in Hn as [->%elem_of_singleton|Hn]; [|by eapply IH]. by eapply (fo_dominance _ _ _ _ Hf d b0 k0 i0 b k s i m).
Qed.

(** *** What is available *)

Definition availAt (out : gmap nat (gset nat)) (b k : nat) : gset nat :=
  fold_left (transferOne accesses) (take k (instructions (blockAt f b))) (inSet f accesses out b).

Lemma availAt_start out b : availAt out b 0 = inSet f accesses out b.
Proof. by unfold availAt. Qed.

Lemma availAt_next out b k i : instrAt f b k = Some i -> availAt out b (S k) = transferOne accesses (availAt out b k) i.
Proof. intros Hi. unfold availAt. by rewrite (take_S_r _ _ i Hi), fold_left_app. Qed.

Lemma availAt_end out b : availAt out b (length (instructions (blockAt f b))) = transfer f accesses b (inSet f accesses out b).
Proof. unfold availAt, transfer. by rewrite firstn_all. Qed.

(** A solution: each block's value is what its transfer gives. *)
Definition solution (out : gmap nat (gset nat)) : Prop :=
  forall b, b ∈ order -> out !! b = Some (transfer f accesses b (inSet f accesses out b)).

Lemma inSet_candidates out b : inSet f accesses out b ⊆ candidates accesses.
Proof.
  clear Hf.
  unfold inSet. case_bool_decide; [set_solver|]. destruct (omap _ _) as [|x l]; [set_solver|].
  generalize (x :: l). clear. induction l; cbn; set_solver.
Qed.

Lemma availAt_candidates out b k : availAt out b k ⊆ candidates accesses.
Proof.
  clear Hf.
  unfold availAt. generalize (take k (instructions (blockAt f b))) as l. intros l.
  assert (Hgen : forall l set, set ⊆ candidates accesses -> fold_left (transferOne accesses) l set ⊆ candidates accesses).
  { clear. induction l as [|i l IH]; intros set Hs; [done|]. cbn. apply IH. unfold transferOne.
    destruct (byMarker accesses (i_id i)) as [n|] eqn:En; [|case_match; set_solver].
    apply byMarker_some in En as (a & Ha & Hr & _). assert (n ∈ candidates accesses) by (apply candidates_spec; eauto).
    case_match; set_solver. }
  apply Hgen, inSet_candidates.
Qed.

Lemma inSet_edge out b b' :
  solution out -> b ∈ order -> b' ∈ successors (blockAt f b) ->
  inSet f accesses out b' ⊆ availAt out b (length (instructions (blockAt f b))).
Proof.
  intros Hs Hb Hb'. rewrite availAt_end. unfold inSet at 1. case_bool_decide as Hz; [set_solver|].
  assert (Hp : b ∈ predecessors f b').
  { unfold predecessors. apply list_elem_of_In, filter_In. rewrite in_seq, bool_decide_eq_true. split; [|done].
    destruct (decide (b < length f)%nat) as [|Hge]; [lia|]. unfold blockAt in Hb'. rewrite nth_overflow in Hb' by lia. set_solver. }
  assert (Hin : transfer f accesses b (inSet f accesses out b) ∈ omap (fun p => out !! p) (predecessors f b')).
  { apply list_elem_of_omap. exists b. split; [done|by apply Hs]. }
  revert Hin. generalize (omap (fun p => out !! p) (predecessors f b')). intros l Hin. destruct l as [|x l]; [set_solver|].
  revert Hin. generalize (x :: l). clear. induction l as [|y l IH]; intros Hin; [set_solver|]. cbn.
  apply elem_of_cons in Hin as [->|Hin]; [set_solver|]. specialize (IH Hin). set_solver.
Qed.

Lemma walk_avail out P b k s : solution out -> walk f accesses P b k s -> availAt out b k ⊆ s.
Proof.
  intros Hs. induction 1 as [|b k s i Hw IH Hi Ha|b s b' Hw IH Hb].
  - rewrite availAt_start. unfold inSet. by rewrite bool_decide_true.
  - rewrite (availAt_next _ _ _ i Hi). unfold transferOne. destruct (byMarker _ _); case_match; set_solver.
  - rewrite availAt_start. etrans; [by eapply inSet_edge; [|eapply walk_order|]|done].
Qed.

(** Where a value is defined no guard of it is available. *)
Lemma avail_fresh out b k s i n a :
  solution out -> walk f accesses (fun _ => False) b k s -> instrAt f b k = Some i ->
  n ∈ availAt out b k -> accesses !! n = Some a -> ~ uses roots n a (i_id i).
Proof.
  intros Hs Hw Hi Hn Ha. destruct (walk_cut (i_id i) b k s Hw) as [(s' & Hw')|(b0 & k0 & i0 & s' & Hi0 & Hid & Hw')].
  - eapply (walk_unused (i_id i) b k i b k s'); [done..| |done]. by eapply walk_avail.
  - destruct (fo_ids _ _ _ _ Hf _ _ _ _ _ _ Hi0 Hi Hid) as [-> ->].
    eapply (walk_unused (i_id i) b k i b k s'); [done..| |done]. by eapply walk_avail.
Qed.
End Walks.

Lemma filter_none {A} (p : A -> bool) l : (forall x, p x = false) -> List.filter p l = [].
Proof. intros Hp. induction l as [|x l IH]; [done|]. cbn. by rewrite Hp. Qed.

(** ** Rule 6.2 *)

(** [accs'] is [accs] with some accesses dominated, those of which [P] holds. *)
Definition decided (P : nat -> Prop) (accs accs' : list Access) : Prop :=
  forall n, accs' !! n = accs !! n
            \/ (P n /\ exists a, accs !! n = Some a /\ accs' !! n = Some (with_state SDominated a)).

Lemma decided_refl P accs : decided P accs accs.
Proof. intros n. by left. Qed.

Lemma decided_trans P accs accs' accs'' : decided P accs accs' -> decided P accs' accs'' -> decided P accs accs''.
Proof.
  intros H1 H2 n. destruct (H2 n) as [E2|(HP & a & Ea & E2)]; destruct (H1 n) as [E1|(HP1 & a1 & Ea1 & E1)].
  - left. congruence.
  - right. split; [done|]. exists a1. split; [done|congruence].
  - right. split; [done|]. exists a. split; congruence.
  - right. split; [done|]. exists a1. split; [done|]. rewrite E1 in Ea. injection Ea as <-. by rewrite E2.
Qed.

Lemma decided_alter (P : nat -> Prop) n accs : P n -> decided P accs (alter (with_state SDominated) n accs).
Proof.
  intros HP m. destruct (decide (m = n)) as [->|Hne].
  - rewrite list_lookup_alter_eq. destruct (accs !! n) as [a|]; [|by left]. right. split; [done|]. by exists a.
  - left. by rewrite list_lookup_alter_ne.
Qed.

Section Dominated.
Context (f : function) (order : list nat) (roots : nat -> option nat) (accesses : list Access).
Context (Hf : function_ok f order roots accesses) (Hsizes : sizes_ok accesses).

(** A marker at which the guard of [n] is covered. *)
Definition coveredAt (out : gmap nat (gset nat)) (n : nat) : Prop :=
  exists b k i, b ∈ order /\ instrAt f b k = Some i /\ byMarker accesses (i_id i) = Some n
                /\ covered accesses (availAt f accesses out b k) n = true.

Lemma deciding_block out b : b ∈ order -> forall l1 l2 accs,
  instructions (blockAt f b) = l1 ++ l2 ->
  decided (coveredAt out) accs
    (snd (fold_left (decideOne accesses) l2 (fold_left (transferOne accesses) l1 (inSet f accesses out b), accs))).
Proof.
  intros Hb l1 l2. revert l1. induction l2 as [|i l2 IH]; intros l1 accs Hl; [apply decided_refl|]. cbn [fold_left].
  set (set := fold_left (transferOne accesses) l1 (inSet f accesses out b)).
  assert (Hset : set = availAt f accesses out b (length l1)) by (unfold availAt; by rewrite Hl, take_app_length).
  assert (Hi : instrAt f b (length l1) = Some i) by (unfold instrAt; rewrite Hl, lookup_app_r, Nat.sub_diag; done).
  assert (Hnext : transferOne accesses set i = fold_left (transferOne accesses) (l1 ++ [i]) (inSet f accesses out b))
    by (by rewrite fold_left_app).
  assert (Hl' : instructions (blockAt f b) = (l1 ++ [i]) ++ l2) by (by rewrite <- app_assoc).
  unfold decideOne at 2. unfold transferOne in Hnext. destruct (byMarker accesses (i_id i)) as [n|] eqn:En.
  - rewrite Hnext. destruct (covered accesses (if killsGuards i then ∅ else set) n) eqn:Ec; [|by apply IH].
    eapply decided_trans; [|by apply IH]. apply decided_alter. exists b, (length l1), i. split_and!; [done..|].
    destruct (killsGuards i); [|by rewrite <- Hset]. unfold covered in Ec. destruct (accesses !! n); [|done].
    by rewrite elements_empty in Ec.
  - rewrite Hnext. by apply IH.
Qed.

Lemma deciding_decided out l accs :
  (forall b, b ∈ l -> b ∈ order) ->
  decided (coveredAt out) accs (fold_left (fun accs b => transferDeciding f accesses b (inSet f accesses out b) accs) l accs).
Proof.
  revert accs. induction l as [|b l IH]; intros accs Hl; [apply decided_refl|]. cbn [fold_left].
  eapply decided_trans; [|apply IH; set_solver]. apply (deciding_block out b ltac:(set_solver) []). done.
Qed.

(** *** The rounds *)

Lemma visit_changed s b : snd s = true -> snd (visit f accesses s b) = true.
Proof. destruct s as [out c]. intros Hc. cbn in Hc. subst c. unfold visit. by case_bool_decide. Qed.

Lemma visits_changed l s : snd s = true -> snd (fold_left (visit f accesses) l s) = true.
Proof. revert s. induction l as [|b l IH]; intros s Hs; [done|]. cbn. by apply IH, visit_changed. Qed.

Lemma visits_same l out out' :
  fold_left (visit f accesses) l (out, false) = (out', false) ->
  out' = out /\ forall b, b ∈ l -> out !! b = Some (transfer f accesses b (inSet f accesses out b)).
Proof.
  induction l as [|b l IH]; cbn [fold_left]; [intros [= ->]; split; [done|set_solver]|].
  unfold visit at 2. case_bool_decide as Hb.
  - intros Hl. destruct (IH Hl) as [-> Hall]. split; [done|]. intros b'. rewrite elem_of_cons. intros [->|Hb']; auto.
  - intros Hl. pose proof (visits_changed l (<[b := transfer f accesses b (inSet f accesses out b)]> out, true) eq_refl) as Hc.
    rewrite Hl in Hc. discriminate Hc.
Qed.

Lemma rounds_solution fuel : forall start out, rounds f order accesses fuel start = Some out -> solution f order accesses out.
Proof.
  induction fuel as [|fuel IH]; intros start out; [done|]. cbn [rounds].
  destruct (round f order accesses start) as [out' changed] eqn:Er. destruct changed; [by apply IH|]. intros [= <-].
  unfold round in Er. apply visits_same in Er as [-> Hall]. exact Hall.
Qed.

(** The whole rule: some accesses dominated, each covered at its marker. *)
Lemma removeDominated_decided :
  exists out, (solution f order accesses out /\ decided (coveredAt out) accesses (removeDominated f order accesses))
              \/ removeDominated f order accesses = accesses.
Proof.
  unfold removeDominated. case_match; [exists ∅; by right|].
  destruct (rounds f order accesses _ _) as [out|] eqn:Er; [|exists ∅; by right]. exists out. left. split; [by eapply rounds_solution|].
  by apply deciding_decided.
Qed.

(** *** Runs *)

Context (Hnull : null_first f accesses).
Context (effect : memory -> memory -> Prop).
Context (Hgrows : forall u u', effect u u' -> grows u u').

(** What is known of an access whose guard the run passed: kept by instructions
    that define none of its values, handed on to an access it covers whose
    guard is dropped. *)
Context (known : memory -> (nat -> Z) -> nat -> Prop) (dropped : nat -> Prop).
Context (Hknown_step : forall u v u' v' i n a,
  grows u u' -> (forall x, x <> i_id i -> v' x = v x) -> accesses !! n = Some a -> removable a = true ->
  ~ uses roots n a (i_id i) -> known u v n -> known u' v' n).
Context (Hknown_covers : forall u v g n ag an,
  accesses !! g = Some ag -> accesses !! n = Some an -> removable ag = true -> removable an = true ->
  covers ag an = true -> nullTest an = None \/ nullTest ag = nullTest an -> dropped n -> known u v g -> known u v n).

Definition inv (out : gmap nat (gset nat)) (c : config) : Prop :=
  match c with
  | Running b k u v =>
    (exists s, walk f accesses (fun _ => False) b k s) /\ forall n, n ∈ availAt f accesses out b k -> known u v n
  | Stopped _ => True
  end.

Lemma covered_known out u v b k n i s :
  solution f order accesses out -> walk f accesses (fun _ => False) b k s ->
  instrAt f b k = Some i -> byMarker accesses (i_id i) = Some n ->
  (forall m, m ∈ availAt f accesses out b k -> known u v m) ->
  covered accesses (availAt f accesses out b k) n = true -> dropped n -> known u v n.
Proof using Hf Hnull Hknown_covers.
  clear Hgrows Hsizes Hknown_step.
  intros Hs Hw Hi Hm Hok Hc Hdrop. destruct (byMarker_some _ _ _ Hm) as (a & Ha & Hr & _). unfold covered in Hc. rewrite Ha in Hc. apply existsb_exists in Hc as (g & Hg & Hc).
  apply list_elem_of_In, elem_of_elements in Hg. apply andb_true_iff in Hc as [_ Hc].
  destruct (accesses !! g) as [ag|] eqn:Eg; [|done]. apply (Hknown_covers u v g n ag a); try done; [| |by apply Hok].
  2:{ apply (Hnull b k s i n a g ag Hw Hi Hm Ha); [by apply (walk_avail f order roots accesses Hf out _ b k s Hs Hw)|done|].
      unfold covers in Hc. apply andb_true_iff in Hc as [[Hb%bool_decide_eq_true _]%andb_true_iff _]. congruence. }
  apply availAt_candidates, candidates_spec in Hg as (ag' & Eg' & Hrg). congruence.
Qed.

(** After an instruction what is available is still known. *)
Lemma inv_other out b k u v u' v' i :
  solution f order accesses out -> inv out (Running b k u v) -> instrAt f b k = Some i -> byMarker accesses (i_id i) = None ->
  (killsGuards i = false -> effect u u') -> (forall x, x <> i_id i -> v' x = v x) -> inv out (Running b (S k) u' v').
Proof using Hf Hgrows Hknown_step.
  clear Hknown_covers Hnull Hsizes dropped.
  intros Hs [[s Hw] Hok] Hi Hm Hu Hv. split.
  - eexists. eapply walk_step; [done..|]. tauto.
  - intros n. rewrite (availAt_next f accesses out b k i Hi). unfold transferOne. rewrite Hm.
    destruct (killsGuards i); [set_solver|]. intros Hn.
    pose proof Hn as (a & Ha & Hr)%availAt_candidates%candidates_spec.
    apply (Hknown_step u v u' v' i n a); [by apply Hgrows, Hu|done..| |by apply Hok].
    by eapply (avail_fresh f order roots accesses Hf out b k s i n a).
Qed.

Lemma inv_marker out b k u v i n :
  inv out (Running b k u v) -> instrAt f b k = Some i -> byMarker accesses (i_id i) = Some n ->
  known u v n -> inv out (Running b (S k) u v).
Proof using Type.
  clear Hf Hsizes Hnull Hgrows Hknown_step Hknown_covers dropped effect roots.
  intros [[s Hw] Hok] Hi Hm Hn. split.
  - eexists. eapply walk_step; [done..|]. tauto.
  - intros m. rewrite (availAt_next f accesses out b k i Hi). unfold transferOne. rewrite Hm.
    rewrite elem_of_union, elem_of_singleton. intros [->|Hin]; [done|]. destruct (killsGuards i); [set_solver|by apply Hok].
Qed.

Lemma inv_jump out b u v b' :
  solution f order accesses out -> inv out (Running b (length (instructions (blockAt f b))) u v) -> b' ∈ successors (blockAt f b) ->
  inv out (Running b' 0 u v).
Proof using Hf.
  clear Hsizes Hnull Hgrows Hknown_step Hknown_covers dropped effect.
  intros Hs [[s Hw] Hok] Hb'. split; [eexists; by eapply walk_edge|]. intros n Hn. apply Hok. rewrite availAt_start in Hn.
  apply (inSet_edge f order roots accesses Hf out b b'); [done|by eapply walk_order|done|done].
Qed.

Lemma inv_start out u v : solution f order accesses out -> inv out (Running 0 0 u v).
Proof using Type.
  clear Hf Hsizes Hnull Hgrows Hknown_step Hknown_covers dropped effect roots.
  intros Hs. split; [eexists; by apply walk_entry|]. rewrite availAt_start. unfold inSet. by rewrite bool_decide_true.
Qed.

Lemma marker_guard id n : byMarker accesses id = Some n -> exists a, accesses !! n = Some a /\ a_state a = SGuard /\ a_marker a = id.
Proof using Type.
  intros Hn. apply byMarker_some in Hn as (a & Ha & Hr & Hm). exists a. split_and!; try done. unfold removable in Hr.
  apply andb_true_iff in Hr as [[Hr _]%andb_true_iff _]. by apply bool_decide_eq_true in Hr.
Qed.

(** A marker is in one place. *)
Lemma marker_place b k i b' k' i' n :
  instrAt f b k = Some i -> instrAt f b' k' = Some i' -> byMarker accesses (i_id i) = Some n -> byMarker accesses (i_id i') = Some n ->
  b = b' /\ k = k'.
Proof using Hf.
  intros Hi Hi' Hn Hn'. apply marker_guard in Hn as (a & Ha & _ & Hm). apply marker_guard in Hn' as (a' & Ha' & _ & Hm').
  eapply (fo_ids _ _ _ _ Hf); [done..|]. congruence.
Qed.
End Dominated.

Lemma members_unmerged accs n : unmerged accs -> members accs n = [n].
Proof.
  intros Hu. unfold members. f_equal. apply filter_none. intros m. destruct (accs !! m) as [a|] eqn:Ea; [|done].
  unfold unmerged in Hu. rewrite Forall_lookup in Hu. by rewrite (bool_decide_false _ (Hu m a Ea)).
Qed.

Lemma checks_guard accs n a : unmerged accs -> accs !! n = Some a -> a_state a = SGuard -> checksOf accs n = ownChecks accs n.
Proof.
  intros Hu Ha Hs. unfold checksOf, ownChecks, tested. by rewrite Ha, bool_decide_true, members_unmerged, bool_decide_true.
Qed.

Lemma decided_unmerged P accs accs' : decided P accs accs' -> unmerged accs -> unmerged accs'.
Proof.
  unfold unmerged. rewrite !Forall_lookup. intros Hd Hu n a Ha. destruct (Hd n) as [E|(_ & a0 & E0 & E)].
  - apply (Hu n). congruence.
  - rewrite E in Ha. by injection Ha as <-.
Qed.

(** *** With and without what the rule removes *)

Section Exact.
Context (f : function) (order : list nat) (roots : nat -> option nat) (accesses : list Access).
Context (Hf : function_ok f order roots accesses) (Hsizes : sizes_ok accesses).
Context (Hnull : null_first f accesses) (Hroots : roots_ok roots accesses).
Context (effect : memory -> memory -> Prop).
Context (Hgrows : forall u u', effect u u' -> grows u u').

Abbreviation ok := (ok roots accesses).
Abbreviation passes := (passes roots accesses).
Abbreviation inv := (inv f accesses ok).

(** An instruction that kills no guard keeps what a test found. *)
Lemma pass_step u v u' v' i n a t :
  grows u u' -> (forall x, x <> i_id i -> v' x = v x) -> accesses !! n = Some a -> is_Some (a_base a) ->
  ~ uses roots n a (i_id i) ->
  t = NullTest n \/ t = Bytes n \/ (exists o, t = Color n o /\ usable u (wrap64 (v (default O (a_base a)) + o))) ->
  passes u v t -> passes u' v' t.
Proof.
  intros [Hu Hc] Hv Ha [base Hb] Hne.
  assert (Hbase : v' (default O (a_base a)) = v (default O (a_base a))).
  { rewrite Hb. change (default O (Some base)) with base. apply Hv. intros Eb. apply Hne. left. by rewrite Hb, Eb. }
  intros [->|[->|(o & -> & Ho)]]; unfold GuardRuns.passes; rewrite !Ha.
  - intros H0 q Hq. rewrite Hv; [by apply H0|]. intros Eq. apply Hne. right. left. by rewrite Hq, Eq.
  - rewrite Hbase. intros Hok j Hj. by apply Hu, Hok.
  - rewrite Hbase. intros Hok r Hr. rewrite (Hv r); [by apply Hc, Hok|]. intros Er. apply Hne. right; right. by rewrite Hr, Er.
Qed.

Lemma removable_base a : removable a = true -> is_Some (a_base a).
Proof. unfold removable. intros [_ Hr]%andb_true_iff. by apply bool_decide_eq_true in Hr. Qed.

Lemma ok_step u v u' v' i n a :
  grows u u' -> (forall x, x <> i_id i -> v' x = v x) -> accesses !! n = Some a -> removable a = true ->
  ~ uses roots n a (i_id i) -> ok u v n -> ok u' v' n.
Proof.
  intros Hu Hv Ha Hr Hne. rewrite !(ok_iff roots accesses _ _ n a Ha). intros (H0 & Hok & Hc).
  pose proof (removable_base a Hr) as Hb. destruct (width_some accesses Hsizes n a Ha Hr) as [Hw _].
  assert (Hfirst : usable u (wrap64 (v (default O (a_base a)) + a_offset a))).
  { unfold GuardRuns.passes in Hok. rewrite Ha in Hok. specialize (Hok 0 ltac:(lia)). by rewrite Z.add_0_r in Hok. }
  split_and!.
  - by apply (pass_step u v u' v' i n a _ Hu Hv Ha Hb Hne); [left|].
  - by apply (pass_step u v u' v' i n a _ Hu Hv Ha Hb Hne); [right; left|].
  - apply (pass_step u v u' v' i n a _ Hu Hv Ha Hb Hne); [|done]. right; right. eauto.
Qed.

Lemma ok_covers u v g n ag an :
  accesses !! g = Some ag -> accesses !! n = Some an -> removable ag = true -> removable an = true ->
  covers ag an = true -> nullTest an = None \/ nullTest ag = nullTest an -> True -> ok u v g -> ok u v n.
Proof. intros Hg Hn Rg Rn Hc H0 _. by apply (covers_ok roots accesses Hsizes u v g n ag an Hroots). Qed.

(** Two ways to check each marker that agree wherever a run may be. *)
Definition agree (out : gmap nat (gset nat)) (checks1 checks2 : nat -> list check) : Prop :=
  forall b k u v i n, inv out (Running b k u v) -> instrAt f b k = Some i -> byMarker accesses (i_id i) = Some n ->
    (checks1 n = checks2 n /\ checks1 n = ownChecks accesses n) \/ (ok u v n /\ Forall (passes u v) (checks1 n ++ checks2 n)).

Lemma agree_sym out checks1 checks2 : agree out checks1 checks2 -> agree out checks2 checks1.
Proof.
  intros Ha b k u v i n Hinv Hi Hn. destruct (Ha b k u v i n Hinv Hi Hn) as [[E Hin]|[Hok Hall]]; [left; split; congruence|right].
  rewrite Forall_app in *. tauto.
Qed.

Lemma agree_step out checks1 checks2 c c' :
  solution f order accesses out -> agree out checks1 checks2 -> inv out c ->
  step f roots accesses effect checks1 c c' -> step f roots accesses effect checks2 c c' /\ inv out c'.
Proof.
  intros Hs Ha Hinv Hstep. destruct Hstep as [b k u v i n Hi Hn Hok|b k u v i n l1 j l2 Hi Hn Hl Hok Hj|b k u v u' v' i Hi Hn Hu Hv|b k u v b' Hk Hb'].
  - destruct (Ha b k u v i n Hinv Hi Hn) as [[E Hin]|[Hn' Hall]].
    + split; [eapply step_pass; [done..|]; by rewrite <- E|]. apply (inv_marker f accesses ok out b k u v i n); try done.
      unfold GuardRuns.ok. by rewrite <- Hin.
    + rewrite Forall_app in Hall. destruct Hall. split; [by eapply step_pass|]. by apply (inv_marker f accesses ok out b k u v i n).
  - destruct (Ha b k u v i n Hinv Hi Hn) as [[E Hin]|[Hn' Hall]].
    + split; [|done]. apply (step_stop f roots accesses effect checks2 b k u v i n l1 j l2); try done. by rewrite <- E.
    + exfalso. apply Hj. rewrite Hl, !Forall_app, Forall_cons_iff in Hall. tauto.
  - split; [by eapply step_other|]. by eapply (inv_other f order roots accesses Hf effect Hgrows ok ok_step).
  - split; [by apply step_jump|]. subst k. by eapply (inv_jump f order roots accesses Hf).
Qed.

Lemma agree_runs out checks1 checks2 c c' :
  solution f order accesses out -> agree out checks1 checks2 -> inv out c ->
  rtc (step f roots accesses effect checks1) c c' -> rtc (step f roots accesses effect checks2) c c' /\ inv out c'.
Proof.
  intros Hs Ha Hinv Hr. induction Hr as [c|c c1 c' Hstep Hr IH]; [by split|].
  destruct (agree_step out checks1 checks2 c c1 Hs Ha Hinv Hstep) as [Hstep' Hinv'].
  destruct (IH Hinv') as [Hr' Hi']. split; [by eapply rtc_l|done].
Qed.

Lemma dominated_agree out accs :
  solution f order accesses out -> unmerged accesses -> decided (coveredAt f order accesses out) accesses accs -> agree out (checksOf accesses) (checksOf accs).
Proof.
  intros Hs Hu Hd b k u v i n Hinv Hi Hn. destruct (marker_guard accesses _ _ Hn) as (a & Ha & Hsa & Hm).
  destruct (Hd n) as [E|((b' & k' & i' & _ & Hi' & Hn' & Hc) & a0 & E0 & E)].
  - left. rewrite (checks_guard accesses n a), (checks_guard accs n a); try done; [|by eapply decided_unmerged|congruence].
    split; [|done]. unfold ownChecks. by rewrite E.
  - right. destruct (marker_place f order roots accesses Hf b k i b' k' i' n Hi Hi' Hn Hn') as [<- <-]. destruct Hinv as [Hw Hav].
    assert (Hok : ok u v n).
    { destruct Hw as [s Hw]. by apply (covered_known f order roots accesses Hf Hnull ok (fun _ => True) ok_covers out u v b k n i s). }
    split; [done|]. rewrite (checks_guard accesses n a) by done. unfold checksOf. rewrite E, bool_decide_false by done. by rewrite app_nil_r.
Qed.

(** C19: the guards rule 6.2 removes are redundant: from its entry on, a
    function whose removed guards check nothing runs through the same places,
    with the same memory and values, and stops at the same tests of the same
    accesses (of the base against null, of the bytes, of the color) as with
    every guard.  The widths are positive and below 2^61, no guard without a
    null test stands before one of the same base with one, the guards of one
    base have one root, and what kills no guard takes nothing from what may be
    used nor its color. *)
Theorem dominated_exact u v c :
  unmerged accesses ->
  rtc (step f roots accesses effect (checksOf accesses)) (Running 0 0 u v) c
  <-> rtc (step f roots accesses effect (checksOf (removeDominated f order accesses))) (Running 0 0 u v) c.
Proof.
  intros Hu. destruct (removeDominated_decided f order roots accesses Hf Hsizes) as [out [[Hs Hd]| ->]]; [|done]. pose proof (dominated_agree out _ Hs Hu Hd) as Ha.
  split; intros Hr; [eapply agree_runs in Hr|eapply agree_runs in Hr]; try done; try apply Hr; try (by apply (inv_start f order)).
  by apply agree_sym.
Qed.
End Exact.

(** ** The rounds of rule 6.2 end *)

Section Rounds.
Context (f : function) (rest : list nat) (accesses : list Access).

Abbreviation order := (0%nat :: rest).
Abbreviation visit := (visit f accesses).

Definition below (out1 out2 : gmap nat (gset nat)) : Prop := forall b, option_Forall2 (⊆) (out1 !! b) (out2 !! b).

Lemma below_refl out : below out out.
Proof. intros b. destruct (out !! b); by constructor. Qed.

Lemma below_trans out1 out2 out3 : below out1 out2 -> below out2 out3 -> below out1 out3.
Proof.
  intros H1 H2 b. specialize (H1 b). specialize (H2 b). inversion H1 as [x y Hxy E1 E2|E1 E2]; rewrite <- ?E2 in H2; inversion H2; subst;
    constructor. by etrans.
Qed.

Lemma transfer_mono b s t : s ⊆ t -> transfer f accesses b s ⊆ transfer f accesses b t.
Proof.
  unfold transfer. generalize (instructions (blockAt f b)) as l. intros l. revert s t.
  induction l as [|i l IH]; intros s t Hst; [done|]. cbn [fold_left]. apply IH. unfold transferOne.
  destruct (killsGuards i), (byMarker accesses (i_id i)); set_solver.
Qed.

Lemma transfer_candidates b s : s ⊆ candidates accesses -> transfer f accesses b s ⊆ candidates accesses.
Proof.
  unfold transfer. generalize (instructions (blockAt f b)) as l. intros l. revert s.
  induction l as [|i l IH]; intros s Hs; [done|]. cbn [fold_left]. apply IH. unfold transferOne.
  destruct (byMarker accesses (i_id i)) as [n|] eqn:En; [|destruct (killsGuards i); set_solver].
  apply byMarker_some in En as (a & Ha & Hr & _). assert (n ∈ candidates accesses) by (apply candidates_spec; eauto).
  destruct (killsGuards i); set_solver.
Qed.

Lemma inSet_mono out1 out2 b : below out1 out2 -> inSet f accesses out1 b ⊆ inSet f accesses out2 b.
Proof.
  intros Hb. unfold inSet. case_bool_decide; [done|].
  assert (Hl : Forall2 (⊆) (omap (fun p => out1 !! p) (predecessors f b)) (omap (fun p => out2 !! p) (predecessors f b))).
  { induction (predecessors f b) as [|p l IH]; cbn; [constructor|]. specialize (Hb p). by inversion Hb; [constructor|]. }
  destruct Hl as [|x y l1 l2 Hxy Hl]; [done|].
  assert (Hall : Forall2 (⊆) (x :: l1) (y :: l2)) by by constructor. revert Hall. generalize (x :: l1) (y :: l2). clear.
  induction 1 as [|x y l1 l2 Hxy Hl IH]; [done|]. cbn. set_solver.
Qed.

(** Values only shrink from here on. *)
Record good (out : gmap nat (gset nat)) : Prop := {
  gd_dom : forall b, b ∈ order -> is_Some (out !! b);
  gd_next : forall b s, out !! b = Some s -> transfer f accesses b (inSet f accesses out b) ⊆ s;
  gd_candidates : forall b s, out !! b = Some s -> s ⊆ candidates accesses
}.

Definition measure (out : gmap nat (gset nat)) : nat := sum_list (map (fun b => size (default ∅ (out !! b))) order).

Lemma sum_below (g h : nat -> nat) l : (forall b, b ∈ l -> (g b <= h b)%nat) -> (sum_list (map g l) <= sum_list (map h l))%nat.
Proof.
  induction l as [|b l IH]; intros Hl; [done|]. cbn. specialize (IH ltac:(set_solver)). specialize (Hl b ltac:(set_solver)). lia.
Qed.

Lemma sum_strict (g h : nat -> nat) l b0 :
  (forall b, b ∈ l -> (g b <= h b)%nat) -> b0 ∈ l -> (g b0 < h b0)%nat -> (sum_list (map g l) < sum_list (map h l))%nat.
Proof.
  induction l as [|b l IH]; intros Hl Hin Hlt; [set_solver|]. cbn. pose proof (Hl b ltac:(set_solver)) as Hb.
  pose proof (sum_below g h l ltac:(set_solver)) as Hs. apply elem_of_cons in Hin as [->|Hin]; [lia|].
  specialize (IH ltac:(set_solver) Hin Hlt). lia.
Qed.

Lemma visit_good out c b :
  good out -> b ∈ order ->
  let s' := visit (out, c) b in
  good (fst s') /\ below (fst s') out /\ ((s' = (out, c)) \/ (measure (fst s') < measure out)%nat).
Proof.
  intros Hg Hb. destruct (gd_dom _ Hg b Hb) as [s Es]. pose proof (gd_next _ Hg b s Es) as Hs. cbv zeta. unfold GuardRules.visit.
  case_bool_decide as E; [split; [done|]; split; [apply below_refl|by left]|]. cbn [fst].
  set (next := transfer f accesses b (inSet f accesses out b)) in *.
  assert (Hbelow : below (<[b := next]> out) out).
  { intros b'. destruct (decide (b' = b)) as [->|Hne].
    - rewrite lookup_insert_eq, Es. by constructor.
    - rewrite lookup_insert_ne by done. destruct (out !! b'); by constructor. }
  split; [|split; [done|right]].
  - split.
    + intros b' Hb'. destruct (decide (b' = b)) as [->|Hne]; [rewrite lookup_insert_eq; eauto|].
      rewrite lookup_insert_ne by done. by apply (gd_dom _ Hg).
    + intros b' s' Hs'. etrans; [by apply transfer_mono, (inSet_mono _ out)|].
      destruct (decide (b' = b)) as [->|Hne]; [rewrite lookup_insert_eq in Hs'; by injection Hs' as <-|].
      rewrite lookup_insert_ne in Hs' by done. by apply (gd_next _ Hg).
    + intros b' s' Hs'. destruct (decide (b' = b)) as [->|Hne].
      * rewrite lookup_insert_eq in Hs'. injection Hs' as <-. etrans; [done|]. by apply (gd_candidates _ Hg b).
      * rewrite lookup_insert_ne in Hs' by done. by apply (gd_candidates _ Hg b').
  - apply (sum_strict _ _ _ b); [|done|].
    + intros b' _. destruct (decide (b' = b)) as [->|Hne]; [|by rewrite lookup_insert_ne].
      rewrite lookup_insert_eq, Es. cbn. by apply subseteq_size.
    + rewrite lookup_insert_eq, Es. cbn. apply subset_size. split; [done|]. intros Hsub. apply E. rewrite Es. f_equal.
      apply leibniz_equiv. set_solver.
Qed.

Lemma visits_good l : forall out c,
  good out -> (forall b, b ∈ l -> b ∈ order) ->
  let s' := fold_left visit l (out, c) in
  good (fst s') /\ ((s' = (out, c)) \/ (measure (fst s') < measure out)%nat).
Proof.
  induction l as [|b l IH]; intros out c Hg Hl; [by auto|]. cbn [fold_left].
  destruct (visit_good out c b Hg (Hl b ltac:(set_solver))) as (Hg' & _ & Hm). destruct (visit (out, c) b) as [out1 c1] eqn:Ev.
  cbn [fst] in *. destruct (IH out1 c1 Hg' ltac:(set_solver)) as [Hg'' Hm'']. split; [done|].
  destruct Hm as [[= -> ->]|Hm], Hm'' as [->|Hm'']; cbn [fst]; auto; right; lia.
Qed.

Lemma rounds_good fuel : forall out, good out -> (measure out < fuel)%nat -> exists out', rounds f order accesses fuel out = Some out'.
Proof.
  induction fuel as [|fuel IH]; intros out Hg Hm; [lia|]. cbn [rounds].
  pose proof (visits_good order out false Hg (fun b Hb => Hb)) as Hv. cbv zeta in Hv. unfold round.
  destruct (fold_left visit order (out, false)) as [out1 c1]. cbn [fst] in Hv. destruct Hv as [Hg1 [[= -> ->]|Hm1]]; [eauto|].
  destruct c1; [|eauto]. apply IH; [done|lia].
Qed.

Lemma outStart_lookup l : forall (out : gmap nat (gset nat)) b,
  fold_left (fun out b => <[b := if bool_decide (b = O) then ∅ else candidates accesses]> out) l out !! b
  = if bool_decide (b ∈ l) then Some (if bool_decide (b = O) then ∅ else candidates accesses) else out !! b.
Proof.
  induction l as [|x l IH]; intros out b; [by rewrite bool_decide_false by set_solver|]. cbn [fold_left]. rewrite IH.
  destruct (decide (b ∈ l)) as [Hin|Hin]; [by rewrite (bool_decide_true (b ∈ l)), (bool_decide_true (b ∈ x :: l)) by set_solver|].
  rewrite (bool_decide_false (b ∈ l)) by done.
  destruct (decide (b = x)) as [->|Hne].
  - by rewrite lookup_insert_eq, (bool_decide_true (x ∈ x :: l)) by set_solver.
  - by rewrite lookup_insert_ne, (bool_decide_false (b ∈ x :: l)) by set_solver.
Qed.

(** Past the entry's first visit. *)
Lemma start_good : good (fst (visit (outStart order accesses, false) 0)).
Proof.
  assert (Hl : forall b, fst (visit (outStart order accesses, false) 0) !! b
    = if bool_decide (b = O) then Some (transfer f accesses 0 ∅) else if bool_decide (b ∈ order) then Some (candidates accesses) else None).
  { intros b. unfold GuardRules.visit. change (inSet f accesses (outStart order accesses) 0) with (∅ : gset nat).
    assert (Hs : outStart order accesses !! b
      = if bool_decide (b ∈ order) then Some (if bool_decide (b = O) then ∅ else candidates accesses) else None)
      by (unfold outStart; by rewrite outStart_lookup, lookup_empty).
    destruct (decide (outStart order accesses !! 0%nat = Some (transfer f accesses 0 ∅))) as [E|E];
      [rewrite (bool_decide_true _ E)|rewrite (bool_decide_false _ E)]; cbn [fst].
    - destruct (decide (b = 0%nat)) as [->|Hne]; [by rewrite E|]. rewrite (bool_decide_false (b = 0%nat)) by done.
      rewrite Hs. by rewrite (bool_decide_false (b = 0%nat)).
    - destruct (decide (b = 0%nat)) as [->|Hne]; [by rewrite lookup_insert_eq|].
      rewrite lookup_insert_ne, Hs by done. by rewrite !(bool_decide_false (b = 0%nat)). }
  split.
  - intros b Hb. rewrite Hl. case_bool_decide; [eauto|]. rewrite bool_decide_true by done. eauto.
  - intros b s Hs. rewrite Hl in Hs. case_bool_decide as E.
    + subst b. injection Hs as <-. by apply transfer_mono.
    + case_bool_decide; [|done]. injection Hs as <-. apply transfer_candidates, inSet_candidates.
  - intros b s Hs. rewrite Hl in Hs. case_bool_decide as E.
    + injection Hs as <-. apply transfer_candidates. set_solver.
    + case_bool_decide; [|done]. by injection Hs as <-.
Qed.

Lemma measure_bound out : good out -> (measure out <= length order * size (candidates accesses))%nat.
Proof.
  intros Hg. unfold measure. generalize order. induction l as [|b l IH]; [done|]. cbn [map sum_list length].
  assert ((size (default ∅ (out !! b)) <= size (candidates accesses))%nat).
  { destruct (out !! b) as [s|] eqn:E; cbn; [by apply subseteq_size, (gd_candidates _ Hg b)|rewrite size_empty; lia]. }
  cbn in *. lia.
Qed.

Lemma rounds_found : exists out, rounds f order accesses (roundFuel order accesses) (outStart order accesses) = Some out.
Proof.
  unfold roundFuel. set (fuel := S (length order * size (candidates accesses))). cbn [rounds]. unfold round at 1. cbn [fold_left]. pose proof start_good as Hg.
  destruct (visit (outStart order accesses, false) 0) as [out1 c1]. cbn [fst] in Hg.
  destruct (visits_good rest out1 c1 Hg ltac:(set_solver)) as [Hg2 _]. destruct (fold_left visit rest (out1, c1)) as [out2 c2].
  cbn [fst] in Hg2. destruct c2; [|eauto]. apply rounds_good; [done|]. pose proof (measure_bound out2 Hg2). unfold fuel. lia.
Qed.

(** The rounds of rule 6.2 end: a block's set only shrinks once the entry
    was visited, so that a solution is found after at most as many rounds as
    blocks times candidates, and two. *)
Theorem rounds_end : exists out, rounds f order accesses (roundFuel order accesses) (outStart order accesses) = Some out.
Proof. exact rounds_found. Qed.
End Rounds.
