(* ===== verification/GuardMerges.v ===== *)
(** * Guards made one

    Rule 6.3 (the file GuardRules): what the pass that merges guards leaves,
    and the runs of a function it has passed over.  An access whose guard is
    merged is checked where its leader's is, earlier in its block with nothing
    between that may keep the program from going on; the hull the leader's
    guard tests holds every access it stands for, and its color is tested where
    the hull starts. *)

From stdpp Require Import gmap sets relations.
From S2P Require Import Prelude GuardRules GuardRuns.
Local Open Scope Z_scope.

(** An access but for what the rules change. *)
Definition forget (a : Access) : Access := with_guard 0 0 (with_state SGuard (with_leader 0 a)).

Section Merges.
Context (f : function) (accs : list Access).
Context (Hids : forall b k i b' k' i', instrAt f b k = Some i -> instrAt f b' k' = Some i' -> i_id i = i_id i' -> b = b' /\ k = k').
Context (Hsizes : sizes_ok accs) (Hunmerged : unmerged accs).

Definition place (n b k : nat) : Prop := exists i, instrAt f b k = Some i /\ byMarker accs (i_id i) = Some n.

Lemma place_unique n b k b' k' : place n b k -> place n b' k' -> b = b' /\ k = k'.
Proof.
  intros (i & Hi & Hn) (i' & Hi' & Hn'). apply byMarker_some in Hn as (a & Ha & _ & Hm), Hn' as (a' & Ha' & _ & Hm').
  eapply Hids; [done..|]. congruence.
Qed.

(** Nothing between two places of a block closes the open guards. *)
Definition quiet (b k0 k : nat) : Prop :=
  forall k' i, (k0 < k' < k)%nat -> instrAt f b k' = Some i -> byMarker accs (i_id i) = None -> closesHulls i = false.

(** The guard of [n] is its leader's. *)
Definition mergedInto (n l b kl k : nat) : Prop :=
  place l b kl /\ place n b k /\ (kl < k)%nat /\ quiet b kl k
  /\ exists al an, accs !! l = Some al /\ accs !! n = Some an /\ a_base al = a_base an.

(** The hull of [g] holds the bytes of [a]. *)
Definition holds (g a : Access) : Prop :=
  a_guardOffset g <= a_offset a /\ a_offset a + a_width a <= a_guardOffset g + a_guardWidth g.

Definition tight (g : Access) : Prop :=
  (a_guardOffset g = a_offset g /\ a_guardWidth g = a_width g)
  \/ (0 <= a_guardWidth g <= 64 /\ - 2 ^ 61 <= a_guardOffset g < 2 ^ 61).

(** Before the [k]th instruction of block [b]. *)
Record merging (b k : nat) (open : gmap nat nat) (cur : list Access) : Prop := {
  mg_same : forall n, forget <$> cur !! n = forget <$> accs !! n;
  mg_state : forall n a a0, cur !! n = Some a -> accs !! n = Some a0 ->
    a_state a = a_state a0 \/ (a_state a = SMerged /\ a_state a0 = SGuard);
  mg_merged : forall n a, cur !! n = Some a -> a_state a = SMerged ->
    exists b' kl k' g, mergedInto n (a_leader a) b' kl k' /\ (b' < b \/ (b' = b /\ k' < k))%nat
                       /\ cur !! a_leader a = Some g /\ a_state g = SGuard /\ holds g a;
  mg_open : forall base l, open !! base = Some l ->
    exists kl g, place l b kl /\ (kl < k)%nat /\ quiet b kl k /\ cur !! l = Some g /\ a_state g = SGuard
                 /\ a_base g = Some base;
  mg_hull : forall n a, cur !! n = Some a -> removable a = true -> holds a a /\ tight a;
  mg_low : forall l g, cur !! l = Some g -> a_state g = SGuard ->
    exists j a, cur !! j = Some a /\ (j = l \/ (a_state a = SMerged /\ a_leader a = l)) /\ a_offset a = a_guardOffset g
}.

Lemma same_some (cur : list Access) n a0 : (forall n, forget <$> cur !! n = forget <$> accs !! n) -> accs !! n = Some a0 ->
  exists a, cur !! n = Some a /\ forget a = forget a0.
Proof.
  intros Hs Ha. specialize (Hs n). rewrite Ha in Hs. destruct (cur !! n) as [a|]; [|done]. exists a. split; [done|]. by apply (inj Some) in Hs.
Qed.

Lemma same_back (cur : list Access) n a : (forall n, forget <$> cur !! n = forget <$> accs !! n) -> cur !! n = Some a ->
  exists a0, accs !! n = Some a0 /\ forget a = forget a0.
Proof.
  intros Hs Ha. specialize (Hs n). rewrite Ha in Hs. destruct (accs !! n) as [a0|]; [|done]. exists a0. split; [done|]. by apply (inj Some) in Hs.
Qed.

Lemma forget_fields a a0 : forget a = forget a0 ->
  a_base a = a_base a0 /\ a_offset a = a_offset a0 /\ a_width a = a_width a0 /\ constant a = constant a0 /\ a_marker a = a_marker a0.
Proof.
  intros E. split_and!; [by apply (f_equal a_base) in E|by apply (f_equal a_offset) in E|by apply (f_equal a_width) in E| |
                         by apply (f_equal a_marker) in E].
  by apply (f_equal constant) in E.
Qed.

Lemma merging_weaken b k open cur b' k' :
  merging b k open cur -> (b < b' \/ (b = b' /\ k <= k'))%nat -> merging b' k' ∅ cur.
Proof.
  intros [H1 H2 H3 H4 H5 H6] Hle. split; try done.
  intros n a Ha Hs. destruct (H3 n a Ha Hs) as (b0 & kl & k0 & g & Hm & Hlt & Hg). exists b0, kl, k0, g.
  split_and!; try tauto. lia.
Qed.

Lemma quiet_next b kl k i :
  quiet b kl k -> (kl < k)%nat -> instrAt f b k = Some i -> (byMarker accs (i_id i) = None -> closesHulls i = false) ->
  quiet b kl (S k).
Proof.
  intros Hq Hkl Hi Hc k' i' Hk' Hi' Hn. destruct (decide (k' = k)) as [->|Hne]; [|by apply (Hq k' i'); [lia|..]].
  rewrite Hi in Hi'. injection Hi' as <-. by apply Hc.
Qed.

(** Another instruction than a marker. *)
Lemma merging_other b k open cur i :
  merging b k open cur -> instrAt f b k = Some i -> byMarker accs (i_id i) = None ->
  merging b (S k) (if closesHulls i then ∅ else open) cur.
Proof.
  intros Hm Hi Hn. destruct (closesHulls i) eqn:Ec; [by apply (merging_weaken b k open); [|lia]|].
  destruct Hm as [H1 H2 H3 H4 H5 H6]. split; try done.
  - intros n a Ha Hs. destruct (H3 n a Ha Hs) as (b0 & kl & k0 & g & Hm & Hlt & Hg). exists b0, kl, k0, g.
    split_and!; try tauto. lia.
  - intros base l Hl. destruct (H4 base l Hl) as (kl & g & Hp & Hk & Hq & Hg). exists kl, g. split_and!; try tauto; [lia|].
    by eapply quiet_next.
Qed.

(** A marker that opens a hull of its own. *)
Lemma merging_open b k open cur i n a base :
  merging b k open cur -> instrAt f b k = Some i -> byMarker accs (i_id i) = Some n -> cur !! n = Some a ->
  a_base a = Some base -> a_state a = SGuard -> merging b (S k) (<[base := n]> open) cur.
Proof.
  intros [H1 H2 H3 H4 H5 H6] Hi Hn Ha Hb Hs. split; try done.
  - intros m am Ham Hsm. destruct (H3 m am Ham Hsm) as (b0 & kl & k0 & g & Hm & Hlt & Hg). exists b0, kl, k0, g.
    split_and!; try tauto. lia.
  - intros base' l Hl. destruct (decide (base' = base)) as [->|Hne].
    + rewrite lookup_insert_eq in Hl. injection Hl as <-. exists k, a. split_and!; try done; [by exists i|lia|].
      intros k' i' Hk'. lia.
    + rewrite lookup_insert_ne in Hl by done. destruct (H4 base' l Hl) as (kl & g & Hp & Hk & Hq & Hg). exists kl, g.
      split_and!; try tauto; [lia|]. eapply quiet_next; [done..|]. intros Hc. congruence.
Qed.

Lemma sizes_at n a : accs !! n = Some a -> removable a = true -> 0 <= a_width a < 2 ^ 61 /\ - 2 ^ 61 <= a_offset a < 2 ^ 61.
Proof.
  intros Ha Hr. unfold sizes_ok in Hsizes. rewrite Forall_lookup in Hsizes. destruct (Hsizes n a Ha Hr) as [[? ?] ?]. split; [lia|done].
Qed.

(** A marker's access, as it is now. *)
Lemma marker_now b k open cur i n :
  merging b k open cur -> instrAt f b k = Some i -> byMarker accs (i_id i) = Some n ->
  exists a base, cur !! n = Some a /\ a_state a = SGuard /\ removable a = true /\ a_base a = Some base
    /\ 0 <= a_width a < 2 ^ 61 /\ - 2 ^ 61 <= a_offset a < 2 ^ 61.
Proof.
  intros [H1 H2 H3 H4 H5 H6] Hi Hn. destruct (byMarker_some _ _ _ Hn) as (a0 & Ha0 & Hr & _).
  destruct (same_some cur n a0 H1 Ha0) as (a & Ha & Hf). destruct (forget_fields a a0 Hf) as (Eb & Eo & Ew & Ec & _).
  destruct (sizes_at n a0 Ha0 Hr) as [Hw Ho]. unfold removable in Hr.
  apply andb_true_iff in Hr as [[Hs%bool_decide_eq_true Hc]%andb_true_iff [base Hb]%bool_decide_eq_true].
  assert (Hs' : a_state a = SGuard).
  { destruct (H2 n a a0 Ha Ha0) as [E|[E _]]; [congruence|]. destruct (H3 n a Ha E) as (b' & kl & k' & g & Hm & Hlt & _).
    destruct Hm as (_ & Hp & _). destruct (place_unique n b k b' k' ltac:(by exists i) Hp) as [-> ->]. lia. }
  exists a, base. rewrite Ew, Eo. split_and!; try done; try congruence; try lia. unfold removable. rewrite Hs', Ec, Hc, Eb, Hb.
  by rewrite !bool_decide_true.
Qed.

Lemma hull_end g : tight g -> 0 <= a_width g < 2 ^ 61 -> - 2 ^ 61 <= a_offset g < 2 ^ 61 ->
  endOf (a_guardOffset g) (a_guardWidth g) = a_guardOffset g + a_guardWidth g
  /\ - 2 ^ 61 <= a_guardOffset g < 2 ^ 61 /\ 0 <= a_guardWidth g < 2 ^ 61.
Proof.
  intros Ht Hw Ho. assert (Hb : - 2 ^ 61 <= a_guardOffset g < 2 ^ 61 /\ 0 <= a_guardWidth g < 2 ^ 61)
    by (destruct Ht as [[-> ->]|[? ?]]; split; lia).
  split; [|done]. unfold endOf. rewrite (int64_small (a_guardWidth g)) by lia. apply int64_small. lia.
Qed.

(** The new hull. *)
Definition hullLow (g a : Access) : Z := Z.min (a_guardOffset g) (a_offset a).
Definition hullHigh (g a : Access) : Z := Z.max (endOf (a_guardOffset g) (a_guardWidth g)) (endOf (a_offset a) (a_width a)).
Definition widened (g a : Access) : Access := with_guard (hullLow g a) (wrap64 (hullHigh g a - hullLow g a)) g.

Lemma widened_holds g a :
  tight g -> 0 <= a_width g < 2 ^ 61 -> - 2 ^ 61 <= a_offset g < 2 ^ 61 ->
  0 <= a_width a < 2 ^ 61 -> - 2 ^ 61 <= a_offset a < 2 ^ 61 ->
  int64 (hullHigh g a - hullLow g a) <= MaxHull ->
  tight (widened g a) /\ holds (widened g a) a /\ forall x, holds g x -> holds (widened g a) x.
Proof.
  intros Ht Hwg Hog Hwa Hoa Hmax. destruct (hull_end g Ht Hwg Hog) as (Eg & Bo & Bw).
  assert (Ea : endOf (a_offset a) (a_width a) = a_offset a + a_width a).
  { unfold endOf. rewrite (int64_small (a_width a)) by lia. apply int64_small. lia. }
  unfold hullHigh, hullLow in *. rewrite Eg, Ea in *. rewrite int64_small in Hmax by lia. unfold MaxHull in Hmax.
  assert (Ew : wrap64 (Z.max (a_guardOffset g + a_guardWidth g) (a_offset a + a_width a) - Z.min (a_guardOffset g) (a_offset a))
    = Z.max (a_guardOffset g + a_guardWidth g) (a_offset a + a_width a) - Z.min (a_guardOffset g) (a_offset a))
    by (apply Z.mod_small; lia).
  unfold tight, holds, widened, hullHigh, hullLow. cbn [a_guardOffset a_guardWidth with_guard a_offset a_width]. rewrite Eg, Ea, Ew.
  split; [right; lia|]. split; [lia|]. intros x. lia.
Qed.

Definition merged (l : nat) (a : Access) : Access := with_leader l (with_state SMerged a).

(** A marker whose guard joins an open one. *)
Lemma merging_merge b k open cur i n a base l g :
  merging b k open cur -> instrAt f b k = Some i -> byMarker accs (i_id i) = Some n -> cur !! n = Some a ->
  a_base a = Some base -> open !! base = Some l -> cur !! l = Some g -> int64 (hullHigh g a - hullLow g a) <= MaxHull ->
  merging b (S k) open (alter (merged l) n (alter (with_guard (hullLow g a) (wrap64 (hullHigh g a - hullLow g a))) l cur)).
Proof.
  intros Hm Hi Hn Ha Hb Hl Hg Hmax. pose proof Hm as [H1 H2 H3 H4 H5 H6].
  destruct (marker_now b k open cur i n Hm Hi Hn) as (a' & base' & Ha' & Hs & Hr & Hb' & Hwa & Hoa).
  rewrite Ha in Ha'. injection Ha' as <-. rewrite Hb in Hb'. injection Hb' as <-.
  destruct (H4 base l Hl) as (kl & g' & Hp & Hk & Hq & Hg' & Hsg & Hbg). rewrite Hg in Hg'. injection Hg' as <-.
  assert (Hpn : place n b k) by by exists i.
  assert (Hne : l <> n) by (intros ->; destruct (place_unique n b kl b k Hp Hpn); lia).
  assert (Hother : forall m, m <> n -> m <> l ->
    alter (merged l) n (alter (with_guard (hullLow g a) (wrap64 (hullHigh g a - hullLow g a))) l cur) !! m = cur !! m)
    by (intros m Hmn Hml; by rewrite !list_lookup_alter_ne).
  assert (Hleader : alter (merged l) n (alter (with_guard (hullLow g a) (wrap64 (hullHigh g a - hullLow g a))) l cur) !! l
    = Some (widened g a)) by (rewrite list_lookup_alter_ne, list_lookup_alter_eq, Hg by done; done).
  assert (Hmember : alter (merged l) n (alter (with_guard (hullLow g a) (wrap64 (hullHigh g a - hullLow g a))) l cur) !! n
    = Some (merged l a)) by (rewrite list_lookup_alter_eq, list_lookup_alter_ne, Ha by done; done).
  destruct Hp as (il & Hil & Hnl). destruct (byMarker_some _ _ _ Hnl) as (g0 & Hg0 & Hrg & _).
  destruct (same_back cur l g H1 Hg) as (g1 & Hg1 & Hfg). rewrite Hg0 in Hg1. injection Hg1 as <-.
  destruct (forget_fields g g0 Hfg) as (Ebg & Eog & Ewg & Ecg & _). destruct (sizes_at l g0 Hg0 Hrg) as [Hwg Hog].
  rewrite <- Ewg in Hwg. rewrite <- Eog in Hog.
  assert (Hrg' : removable g = true).
  { unfold removable in *. apply andb_true_iff in Hrg as [[_ Hc]%andb_true_iff Hbb]. by rewrite Hsg, Ecg, Hc, Ebg, Hbb, bool_decide_true. }
  destruct (H5 l g Hg Hrg') as [Hgg Htg].
  destruct (widened_holds g a Htg Hwg Hog Hwa Hoa Hmax) as (Htw & Hwa' & Hmono).
  destruct (same_back cur n a H1 Ha) as (a0 & Ha0 & Hfa). destruct (forget_fields a a0 Hfa) as (Eba & _).
  split.
  - intros m. destruct (decide (m = n)) as [->|Hmn]; [rewrite Hmember, <- H1, Ha; done|].
    destruct (decide (m = l)) as [->|Hml]; [rewrite Hleader, <- H1, Hg; done|]. by rewrite Hother.
  - intros m am am0 Ham Ham0. destruct (decide (m = n)) as [->|Hmn].
    + rewrite Hmember in Ham. injection Ham as <-. right. split; [done|]. destruct (H2 n a am0 Ha Ham0) as [E|[E _]]; congruence.
    + destruct (decide (m = l)) as [->|Hml]; [|rewrite Hother in Ham by done; by apply (H2 m)].
      rewrite Hleader in Ham. injection Ham as <-. by apply (H2 l g).
  - intros m am Ham Hsm. destruct (decide (m = n)) as [->|Hmn].
    + rewrite Hmember in Ham. injection Ham as <-. exists b, kl, k, (widened g a). split_and!; try done; [|lia].
      split; [by exists il|]. split; [done|]. split; [lia|]. split; [done|]. exists g0, a0. split_and!; try done. congruence.
    + destruct (decide (m = l)) as [->|Hml]; [rewrite Hleader in Ham; injection Ham as <-; cbn in Hsm; congruence|].
      rewrite Hother in Ham by done. destruct (H3 m am Ham Hsm) as (b' & kl' & k' & gm & Hmm & Hlt & Hgm & Hsgm & Hh).
      assert (Hln : a_leader am <> n).
      { intros E. rewrite E in Hmm. destruct Hmm as (Hpl & _ & Hkl & _). destruct (place_unique n b k b' kl' Hpn Hpl). lia. }
      destruct (decide (a_leader am = l)) as [El|Enl].
      * rewrite El in *. rewrite Hg in Hgm. injection Hgm as <-. exists b', kl', k', (widened g a). split_and!; try done; [lia|].
        by apply Hmono.
      * exists b', kl', k', gm. rewrite Hother by done. split_and!; try done. lia.
  - intros base' l' Hl'. destruct (H4 base' l' Hl') as (kl' & g' & Hp' & Hk' & Hq' & Hg' & Hsg' & Hbg').
    assert (Hln : l' <> n) by (intros ->; destruct (place_unique n b kl' b k Hp' Hpn); lia).
    assert (Hq'' : quiet b kl' (S k)) by (apply (quiet_next b kl' k i); [done..|]; congruence).
    destruct (decide (l' = l)) as [->|Hne'].
    + rewrite Hg in Hg'. injection Hg' as <-. exists kl', (widened g a). split_and!; try done. lia.
    + exists kl', g'. rewrite Hother by done. split_and!; try done. lia.
  - intros m am Ham Hrm. destruct (decide (m = n)) as [->|Hmn]; [rewrite Hmember in Ham; injection Ham as <-; done|].
    destruct (decide (m = l)) as [->|Hml]; [|rewrite Hother in Ham by done; by apply (H5 m)].
    rewrite Hleader in Ham. injection Ham as <-. split; [|done]. apply Hmono in Hgg. exact Hgg.
  - intros m gm Hgm Hsm. destruct (decide (m = n)) as [->|Hmn]; [rewrite Hmember in Hgm; by injection Hgm as <-|].
    destruct (decide (m = l)) as [->|Hml].
    + rewrite Hleader in Hgm. injection Hgm as <-. change (a_guardOffset (widened g a)) with (hullLow g a).
      destruct (Z.le_gt_cases (a_guardOffset g) (a_offset a)) as [Hle|Hgt].
      2:{ exists n, (merged l a). split; [exact Hmember|]. split; [by right|]. change (a_offset a = hullLow g a). unfold hullLow. lia. }
      assert (Elow : hullLow g a = a_guardOffset g) by (unfold hullLow; lia).
      destruct (H6 l g Hg Hsg) as (j & aj & Hj & [->|[Hsj Hlj]] & Eo).
      * rewrite Hg in Hj. injection Hj as <-. exists l, (widened g a). split; [exact Hleader|]. split; [by left|]. by rewrite Elow.
      * exists j, aj. rewrite Hother by congruence. split; [done|]. split; [by right|]. by rewrite Elow.
    + rewrite Hother in Hgm by done. destruct (H6 m gm Hgm Hsm) as (j & aj & Hj & [->|[Hsj Hlj]] & Eo).
      * exists m, aj. rewrite Hother by done. split; [done|]. split; [by left|done].
      * exists j, aj. rewrite Hother by congruence. split; [done|]. split; [by right|done].
Qed.

Lemma merging_one b k open cur i :
  merging b k open cur -> instrAt f b k = Some i ->
  let s := mergeOne (byMarker accs) (open, cur) i in merging b (S k) (fst s) (snd s).
Proof.
  intros Hm Hi. cbv zeta. unfold mergeOne. destruct (byMarker accs (i_id i)) as [n|] eqn:En.
  - destruct (marker_now b k open cur i n Hm Hi En) as (a & base & Ha & Hs & Hr & Hb & _). rewrite Ha, Hb. change (default 0%nat (Some base)) with base.
    destruct (open !! base) as [l|] eqn:El; cbn [mbind option_bind]; [|by apply (merging_open b k open cur i n a)].
    destruct (mg_open _ _ _ _ Hm base l El) as (kl & g & Hp & _ & _ & Hg & _). rewrite Hg. cbn [mbind option_bind].
    fold (hullLow g a) (hullHigh g a). destruct (Z.leb_spec (int64 (hullHigh g a - hullLow g a)) MaxHull);
      [by apply (merging_merge b k open cur i n a base l g)|by apply (merging_open b k open cur i n a)].
  - pose proof (merging_other b k open cur i Hm Hi En) as Ho. by destruct (closesHulls i).
Qed.

Lemma merging_instructions b l2 : forall l1 open cur,
  instructions (blockAt f b) = l1 ++ l2 -> merging b (length l1) open cur ->
  let s := fold_left (mergeOne (byMarker accs)) l2 (open, cur) in merging b (length (l1 ++ l2)) (fst s) (snd s).
Proof.
  induction l2 as [|i l2 IH]; intros l1 open cur Hl Hm; [by rewrite app_nil_r|]. cbn [fold_left].
  assert (Hi : instrAt f b (length l1) = Some i) by (unfold instrAt; rewrite Hl, lookup_app_r, Nat.sub_diag; done).
  pose proof (merging_one b (length l1) open cur i Hm Hi) as Hm'. destruct (mergeOne (byMarker accs) (open, cur) i) as [open' cur'].
  replace (l1 ++ i :: l2) with ((l1 ++ [i]) ++ l2) by (by rewrite <- app_assoc). apply IH; [by rewrite <- app_assoc|].
  rewrite length_app. cbn [length fst snd] in *. by rewrite Nat.add_1_r.
Qed.

Lemma merging_blocks l2 : forall l1 cur,
  f = l1 ++ l2 -> merging (length l1) 0 ∅ cur ->
  merging (length (l1 ++ l2)) 0 ∅ (fold_left (mergeBlock (byMarker accs)) l2 cur).
Proof.
  induction l2 as [|b l2 IH]; intros l1 cur Hl Hm; [by rewrite app_nil_r|]. cbn [fold_left].
  replace (l1 ++ b :: l2) with ((l1 ++ [b]) ++ l2) by (by rewrite <- app_assoc). apply IH; [by rewrite <- app_assoc|].
  assert (Hb : blockAt f (length l1) = b) by (unfold blockAt; rewrite Hl; by rewrite nth_middle).
  pose proof (merging_instructions (length l1) (instructions b) [] ∅ cur ltac:(by rewrite Hb) Hm) as Hm'. cbv zeta in Hm'.
  unfold mergeBlock. eapply merging_weaken; [exact Hm'|]. rewrite length_app. cbn. lia.
Qed.

Lemma merging_start : merging 0 0 ∅ (map startGuard accs).
Proof.
  assert (Hl : forall n, map startGuard accs !! n = startGuard <$> accs !! n) by (intros n; apply list_lookup_fmap).
  split.
  - intros n. rewrite Hl. by destruct (accs !! n).
  - intros n a a0 Ha Ha0. rewrite Hl, Ha0 in Ha. injection Ha as <-. by left.
  - intros n a Ha Hs. exfalso. rewrite Hl in Ha. destruct (accs !! n) as [a0|] eqn:E; [|done]. injection Ha as <-.
    unfold unmerged in Hunmerged. rewrite Forall_lookup in Hunmerged. by apply (Hunmerged n a0 E).
  - intros base l Hb. by rewrite lookup_empty in Hb.
  - intros n a Ha Hr. rewrite Hl in Ha. destruct (accs !! n) as [a0|] eqn:E; [|done]. injection Ha as <-.
    split; [|by left]. unfold holds. cbn. lia.
  - intros l g Hg _. exists l, g. split; [done|]. split; [by left|]. rewrite Hl in Hg. destruct (accs !! l); [|done]. by injection Hg as <-.
Qed.

Lemma merging_done : merging (length f) 0 ∅ (mergeInBlocks f accs).
Proof. apply (merging_blocks f [] (map startGuard accs) eq_refl merging_start). Qed.

(** What the pass leaves. *)
Lemma merged_place n a : mergeInBlocks f accs !! n = Some a -> a_state a = SMerged ->
  exists b kl k g, mergedInto n (a_leader a) b kl k /\ mergeInBlocks f accs !! a_leader a = Some g /\ a_state g = SGuard.
Proof. intros Ha Hs. destruct (mg_merged _ _ _ _ merging_done n a Ha Hs) as (b & kl & k & g & Hm & _ & Hg & Hsg & _). by exists b, kl, k, g. Qed.

Lemma merges_fields n a : mergeInBlocks f accs !! n = Some a ->
  exists a0, accs !! n = Some a0 /\ a_base a = a_base a0 /\ a_offset a = a_offset a0 /\ a_width a = a_width a0.
Proof.
  intros Ha. destruct (same_back _ n a (mg_same _ _ _ _ merging_done) Ha) as (a0 & Ha0 & Hf). exists a0.
  by destruct (forget_fields a a0 Hf) as (? & ? & ? & _).
Qed.

(** The hull a guard tests after merging is at most 64 bytes wide, or the
    access's own bytes, and it holds the bytes of every access the guard
    stands for: when the whole hull may be used so may they, so that testing
    the hull first, and each access only when that fails, decides as testing
    each. *)
Theorem hull_holds l g n :
  mergeInBlocks f accs !! l = Some g -> removable g = true -> n ∈ members (mergeInBlocks f accs) l ->
  tight g /\ exists a, mergeInBlocks f accs !! n = Some a /\ a_base a = a_base g /\ holds g a.
Proof.
  intros Hg Hr Hn. pose proof merging_done as Hm. destruct (mg_hull _ _ _ _ Hm l g Hg Hr) as [Hh Ht]. split; [done|].
  unfold members in Hn. apply elem_of_cons in Hn as [->|Hn]; [by exists g|].
  apply list_elem_of_In, filter_In in Hn as [_ Hn]. destruct (mergeInBlocks f accs !! n) as [a|] eqn:Ea; [|done].
  apply andb_true_iff in Hn as [Hs%bool_decide_eq_true Hl%Nat.eqb_eq].
  destruct (mg_merged _ _ _ _ Hm n a Ea Hs) as (b & kl & k & g' & Hi & _ & Hg' & _ & Hga). rewrite Hl, Hg in Hg'. injection Hg' as <-.
  exists a. split_and!; try done. destruct Hi as (_ & _ & _ & _ & al & an & Hal & Han & Eb). rewrite Hl in Hal.
  destruct (merges_fields l g Hg) as (g0 & Eg0 & Ebg & _). destruct (merges_fields n a Ea) as (a0 & Ea0 & Eba & _). congruence.
Qed.
End Merges.

(** ** Both rules *)

(** Where the guard that stands for access [n] tests the color, as an offset from
    its base: at the start of the hull of its own guard, or of the guard it is
    merged into, or of the one that stands for a guard that covers it. *)
Inductive testedFrom (accesses final : list Access) : nat -> Z -> Prop :=
  | tested_own n g :
    final !! n = Some g -> a_state g = SGuard -> testedFrom accesses final n (a_guardOffset g)
  | tested_leader n a g :
    final !! n = Some a -> a_state a = SMerged -> final !! a_leader a = Some g -> a_state g = SGuard ->
    testedFrom accesses final n (a_guardOffset g)
  | tested_covering n m a an am low :
    final !! n = Some a -> a_state a = SDominated -> accesses !! n = Some an -> accesses !! m = Some am ->
    covers am an = true -> testedFrom accesses final m low -> testedFrom accesses final n low.

Section Rules.
Context (f : function) (order : list nat) (roots : nat -> option nat) (accesses : list Access).
Context (Hf : function_ok f order roots accesses) (Hsizes : sizes_ok accesses) (Hunmerged : unmerged accesses).
Context (Hdistinct : NoDup (map a_marker accesses)).
Context (effect : memory -> memory -> Prop) (Hgrows : forall u u', effect u u' -> grows u u').
Context (Hnull : null_first f accesses) (Hroots : roots_ok roots accesses).

Abbreviation passes := (passes roots accesses).

Let kept := removeDominated f order accesses.
Let final := mergeInBlocks f kept.

Lemma byMarker_distinct id n a : accesses !! n = Some a -> removable a = true -> a_marker a = id -> byMarker accesses id = Some n.
Proof.
  intros Ha Hr Hm. destruct (byMarker accesses id) as [m|] eqn:E.
  - apply byMarker_some in E as (a' & Ha' & _ & Hm'). f_equal. eapply (NoDup_lookup (map a_marker accesses)); [done| |].
    + rewrite list_lookup_fmap, Ha'. cbn. by rewrite Hm'.
    + rewrite list_lookup_fmap, Ha. cbn. by rewrite Hm.
  - exfalso. unfold byMarker in E. apply last_None in E. assert (Hin : In n (List.filter (fun i => match accesses !! i with
      | Some a => removable a && (a_marker a =? id)%nat | None => false end) (seq 0 (length accesses)))).
    { apply filter_In. rewrite in_seq, Ha, Hr, Hm, Nat.eqb_refl. apply lookup_lt_Some in Ha. split; [lia|done]. }
    by rewrite E in Hin.
Qed.

Lemma kept_decided : exists out, solution f order accesses out /\ decided (coveredAt f order accesses out) accesses kept
                                 \/ kept = accesses.
Proof. by apply (removeDominated_decided f order roots accesses). Qed.

Lemma kept_field n a : kept !! n = Some a ->
  exists a0, accesses !! n = Some a0 /\ (a = a0 \/ a = with_state SDominated a0).
Proof.
  intros Ha. destruct kept_decided as [out [[_ Hd]|E]]; [|rewrite E in Ha; eauto].
  destruct (Hd n) as [E|(_ & a0 & E0 & E)]; [rewrite E in Ha; eauto|]. rewrite E in Ha. injection Ha as <-. eauto.
Qed.

Lemma kept_removable n a : kept !! n = Some a -> removable a = true -> accesses !! n = Some a.
Proof. intros Ha Hr. destruct (kept_field n a Ha) as (a0 & E0 & [->| ->]); [done|]. discriminate Hr. Qed.

Lemma kept_marker id n : byMarker kept id = Some n -> byMarker accesses id = Some n.
Proof.
  intros Hn. apply byMarker_some in Hn as (a & Ha & Hr & Hm). by apply (byMarker_distinct id n a); [apply kept_removable|..].
Qed.

Lemma kept_sizes : sizes_ok kept.
Proof.
  pose proof Hsizes as Hs. unfold sizes_ok in Hs |- *. rewrite Forall_lookup in Hs |- *. intros n a Ha Hr.
  by apply (Hs n a (kept_removable n a Ha Hr)).
Qed.

Lemma kept_unmerged : unmerged kept.
Proof.
  pose proof Hunmerged as Hu. unfold unmerged in Hu |- *. rewrite Forall_lookup in Hu |- *. intros n a Ha.
  destruct (kept_field n a Ha) as (a0 & E0 & [->| ->]); [|done]. by apply (Hu n).
Qed.

Lemma kept_place n b k : place f kept n b k -> exists i, instrAt f b k = Some i /\ byMarker accesses (i_id i) = Some n.
Proof. intros (i & Hi & Hn). exists i. split; [done|]. by apply kept_marker. Qed.

(** Checked earlier in the block by a guard nothing closed since. *)
Definition heldAt (b k n : nat) : Prop :=
  exists l kl g, place f kept l b kl /\ (kl < k)%nat /\ quiet f kept b kl k
                 /\ final !! l = Some g /\ a_state g = SGuard /\ n ∈ members final l.

Lemma member_base l g n : final !! l = Some g -> n ∈ members final l -> (exists b k, place f kept l b k) ->
  exists a al, accesses !! n = Some a /\ accesses !! l = Some al /\ a_base a = a_base al /\ is_Some (a_base a)
               /\ removable a = true /\ removable al = true /\ roots n = roots l.
Proof.
  intros Hg Hn (b & k & Hp). destruct (kept_place l b k Hp) as (i & Hi & Hl). destruct (byMarker_some _ _ _ Hl) as (al & Hal & Hr & _).
  assert (Hb : is_Some (a_base al)) by (unfold removable in Hr; apply andb_true_iff in Hr as [_ Hr]; by apply bool_decide_eq_true in Hr).
  unfold members in Hn. apply elem_of_cons in Hn as [->|Hn]; [exists al, al; by split_and!|].
  apply list_elem_of_In, filter_In in Hn as [_ Hn]. destruct (final !! n) as [a|] eqn:Ea; [|done].
  apply andb_true_iff in Hn as [Hs%bool_decide_eq_true Hld%Nat.eqb_eq].
  destruct (merged_place f kept (fo_ids _ _ _ _ Hf) kept_sizes kept_unmerged n a Ea Hs) as (b' & kl & k' & g' & Hm & _).
  destruct Hm as (_ & (in_ & Hin & Hnn) & _ & _ & al' & an & Hal' & Han & Eb). rewrite Hld in Hal'.
  apply kept_marker, byMarker_some in Hnn as (an1 & Han1 & Hrn & _).
  destruct (kept_field n an Han) as (an0 & En0 & Hn0). destruct (kept_field l al' Hal') as (al0 & El0 & Hl0).
  rewrite Hal in El0. injection El0 as <-. exists an0, al.
  assert (En : a_base an0 = a_base al) by (destruct Hn0 as [->| ->], Hl0 as [->| ->]; cbn in Eb; congruence).
  rewrite En0 in Han1. injection Han1 as <-. split_and!; try (congruence || done). by apply (Hroots n l an0 al).
Qed.

(** What a held access's leader names is not defined after it. *)
Lemma leader_fresh b k s i l kl al :
  walk f accesses (fun _ => False) b k s -> instrAt f b k = Some i -> place f kept l b kl -> (kl < k)%nat ->
  accesses !! l = Some al -> ~ uses roots l al (i_id i).
Proof.
  intros Hw Hi Hp Hk Hal. destruct (kept_place l b kl Hp) as (il & Hil & Hl).
  assert (Hcut : exists s', walk f accesses (eq (i_id i)) b k s').
  { destruct (walk_cut f accesses (i_id i) b k s Hw) as [?|(b0 & k0 & i0 & s' & Hi0 & Hid & Hw')]; [done|].
    destruct (fo_ids _ _ _ _ Hf _ _ _ _ _ _ Hi0 Hi Hid) as [-> ->]. by exists s'. }
  destruct Hcut as [s' Hw']. destruct (walk_prefix f accesses _ b k s' Hw' kl ltac:(lia)) as [s0 Hw0].
  by apply (fo_dominance _ _ _ _ Hf (i_id i) b k i b kl s0 il l).
Qed.

(** The color of the byte at [low] from the base of [n] was tested. *)
Definition fromHull (u : memory) (v : nat -> Z) (n : nat) (low : Z) : Prop :=
  forall a r, accesses !! n = Some a -> roots n = Some r ->
    usable u (wrap64 (v (default O (a_base a)) + low)) /\ fits u (v r) (wrap64 (v (default O (a_base a)) + low)).

(** What is known of an access whose guard's place the run has passed. *)
Definition okFrom (u : memory) (v : nat -> Z) (n : nat) : Prop :=
  passes u v (NullTest n) /\ passes u v (Bytes n)
  /\ exists low, testedFrom accesses final n low /\ fromHull u v n low
     /\ forall a, accesses !! n = Some a -> - 2 ^ 61 <= low <= a_offset a.

Abbreviation inv := (inv f accesses okFrom).

Definition held_ok (out : gmap nat (gset nat)) (c : config) : Prop :=
  inv out c
  /\ match c with
     | Running b k u v =>
       forall l kl g n, place f kept l b kl -> (kl < k)%nat -> quiet f kept b kl k -> final !! l = Some g -> a_state g = SGuard ->
         n ∈ members final l -> passes u v (Bytes n) /\ fromHull u v n (a_guardOffset g)
     | Stopped _ => True
     end.

(** The bytes and the color of a hull, after an instruction that defines neither
    the base nor the root. *)
Lemma held_step u v u' v' i n a low :
  grows u u' -> (forall x, x <> i_id i -> v' x = v x) -> accesses !! n = Some a -> is_Some (a_base a) ->
  a_base a <> Some (i_id i) -> roots n <> Some (i_id i) ->
  passes u v (Bytes n) /\ fromHull u v n low -> passes u' v' (Bytes n) /\ fromHull u' v' n low.
Proof.
  intros [Hu Hc] Hv Ha [base Hb] Hne Hnr [Hok Hhull].
  assert (Hbase : v' (default O (a_base a)) = v (default O (a_base a))).
  { rewrite Hb. change (default O (Some base)) with base. apply Hv. intros Ex. apply Hne. by rewrite Hb, Ex. }
  split.
  - unfold GuardRuns.passes in *. rewrite Ha in *. rewrite Hbase. intros j Hj. by apply Hu, Hok.
  - intros a' r Ha' Hr. rewrite Ha in Ha'. injection Ha' as <-. rewrite Hbase. destruct (Hhull a r Ha Hr) as [Hl Hf'].
    split; [by apply Hu|]. rewrite Hv; [by apply Hc|]. intros Ex. apply Hnr. by rewrite Hr, Ex.
Qed.

Lemma okFrom_step u v u' v' i n a :
  grows u u' -> (forall x, x <> i_id i -> v' x = v x) -> accesses !! n = Some a -> removable a = true ->
  ~ uses roots n a (i_id i) -> okFrom u v n -> okFrom u' v' n.
Proof.
  intros Hu Hv Ha Hr Hne (H0 & Hok & low & Ht & Hhull & Hlow). pose proof (removable_base a Hr) as Hb.
  unfold uses in Hne. rewrite (rootTest_some roots accesses Hsizes n a Ha Hr) in Hne.
  destruct (held_step u v u' v' i n a low Hu Hv Ha Hb) as [Hok' Hhull']; [tauto..|].
  split; [|split; [done|by exists low]].
  unfold GuardRuns.passes in *. rewrite Ha in *. intros q Hq. rewrite Hv; [by apply H0|]. intros Ex. apply Hne. right; left. by rewrite Hq, Ex.
Qed.

Definition droppedAt (n : nat) : Prop := exists a, final !! n = Some a /\ a_state a = SDominated.

Lemma okFrom_covers u v g n ag an :
  accesses !! g = Some ag -> accesses !! n = Some an -> removable ag = true -> removable an = true ->
  covers ag an = true -> nullTest an = None \/ nullTest ag = nullTest an -> droppedAt n -> okFrom u v g -> okFrom u v n.
Proof.
  intros Hg Hn Rg Rn Hc Hnn (a & Ha & Hsa) (H0 & Hok & low & Ht & Hhull & Hlow).
  destruct (covers_exact accesses Hsizes g n ag an Hg Hn Rg Rn Hc) as (Hb & Ho & _).
  destruct (covers_bytes roots accesses Hsizes u v g n ag an Hg Hn Rg Rn Hc Hnn H0 Hok) as [Hn0 Hnok].
  split; [done|]. split; [done|]. exists low.
  split; [by apply (tested_covering accesses final n g a an ag low)|]. split.
  - intros a' r Ha' Hr. rewrite Hn in Ha'. injection Ha' as <-. rewrite <- Hb. apply Hhull; [done|].
    by rewrite (Hroots g n ag an).
  - intros a' Ha'. rewrite Hn in Ha'. injection Ha' as <-. specialize (Hlow ag Hg). lia.
Qed.

Lemma final_field n a : final !! n = Some a ->
  exists a0, kept !! n = Some a0 /\ (a_state a = a_state a0 \/ (a_state a = SMerged /\ a_state a0 = SGuard)).
Proof.
  intros Ha. pose proof (merging_done f kept (fo_ids _ _ _ _ Hf) kept_sizes kept_unmerged) as Hm.
  destruct (same_back kept final n a (mg_same _ _ _ _ _ _ Hm) Ha) as (a0 & Ha0 & _). exists a0. split; [done|].
  by apply (mg_state _ _ _ _ _ _ Hm n a a0).
Qed.

(** A guard nothing closed since is available. *)
Lemma held_avail out b kl l i n : forall k,
  place f kept l b kl -> quiet f kept b kl k -> (kl < k)%nat -> (k <= n)%nat -> instrAt f b n = Some i ->
  l ∈ availAt f accesses out b k.
Proof.
  induction k as [|k IH]; intros Hp Hq Hlt Hkn Hi; [lia|].
  destruct (lookup_lt_is_Some_2 (instructions (blockAt f b)) k) as [ik Hik]; [apply lookup_lt_Some in Hi; lia|].
  rewrite (availAt_next f accesses out b k ik Hik). unfold transferOne.
  destruct (kept_place l b kl Hp) as (il & Hil & Hl). destruct (decide (kl = k)) as [->|Hne].
  { unfold instrAt in Hil. rewrite Hik in Hil. injection Hil as <-. rewrite Hl. set_solver. }
  specialize (IH Hp ltac:(intros k' i' Hk'; apply Hq; lia) ltac:(lia) ltac:(lia) Hi).
  destruct (byMarker accesses (i_id ik)) as [m|] eqn:Em.
  - assert (Hk : killsGuards ik = false) by (apply (marker_lives f order roots accesses Hf ik m Em); by exists b, k). rewrite Hk. set_solver.
  - assert (Hc : closesHulls ik = false).
    { apply (Hq k ik); [lia|done|]. destruct (byMarker kept (i_id ik)) as [x|] eqn:Ex; [|done]. apply kept_marker in Ex. congruence. }
    unfold closesHulls in Hc. apply orb_false_iff in Hc as [-> _]. exact IH.
Qed.

Lemma final_access n a : final !! n = Some a ->
  exists a0, accesses !! n = Some a0 /\ a_base a = a_base a0 /\ a_offset a = a_offset a0 /\ a_width a = a_width a0.
Proof.
  intros Ha. destruct (merges_fields f kept (fo_ids _ _ _ _ Hf) kept_sizes kept_unmerged n a Ha) as (a1 & Ha1 & E).
  destruct (kept_field n a1 Ha1) as (a0 & Ha0 & E0). exists a0. split; [done|]. by destruct E0 as [->| ->].
Qed.

(** The hull of a leader: where its color is tested is where it starts, which is
    the first byte of one of its accesses and before each of them. *)
Lemma leader_hull l g : final !! l = Some g -> a_state g = SGuard -> (exists b k, place f kept l b k) ->
  fst (tested final l g) = a_guardOffset g
  /\ (exists j aj, j ∈ members final l /\ accesses !! j = Some aj /\ a_offset aj = a_guardOffset g)
  /\ forall n an, n ∈ members final l -> accesses !! n = Some an -> - 2 ^ 61 <= a_guardOffset g <= a_offset an.
Proof.
  intros Hg Hs Hp. pose proof (merging_done f kept (fo_ids _ _ _ _ Hf) kept_sizes kept_unmerged) as Hm.
  assert (Hr : removable g = true).
  { destruct Hp as (b & k & i & Hi & Hl). destruct (byMarker_some _ _ _ Hl) as (g0 & Hg0 & Hr & _).
    destruct (same_back kept final l g (mg_same _ _ _ _ _ _ Hm) Hg) as (g1 & Hg1 & Hfg). rewrite Hg0 in Hg1. injection Hg1 as <-.
    destruct (forget_fields g g0 Hfg) as (Eb & _ & _ & Ec & _). unfold removable in *.
    apply andb_true_iff in Hr as [[_ Hc]%andb_true_iff Hb]. by rewrite Hs, Ec, Hc, Eb, Hb, bool_decide_true. }
  destruct (mg_low _ _ _ _ _ _ Hm l g Hg Hs) as (j & aj & Hj & Hin & Eo).
  change (final !! j = Some aj) in Hj.
  assert (Hmem : j ∈ members final l).
  { unfold members. destruct Hin as [->|[Hsj Hlj]]; [left|right]. apply list_elem_of_In, filter_In.
    rewrite in_seq, Hj, Hsj, Hlj, bool_decide_true, Nat.eqb_refl by done. apply lookup_lt_Some in Hj. split; [lia|done]. }
  destruct (final_access j aj Hj) as (a0 & Ha0 & _ & Ea0 & _).
  split_and!.
  - unfold tested. unfold members in Hmem |- *. destruct (List.filter _ _) as [|x xs]; [|done].
    apply elem_of_cons in Hmem as [->|Hmem]; [|by apply elem_of_nil in Hmem]. rewrite Hg in Hj. by injection Hj as <-.
  - exists j, a0. split; [done|]. split; [done|congruence].
  - intros n an Hn Han. destruct (hull_holds f kept (fo_ids _ _ _ _ Hf) kept_sizes kept_unmerged l g n Hg Hr Hn) as (Ht & a & Ha & _ & Hh).
    destruct (final_access n a Ha) as (an' & Han' & _ & En & _). rewrite Han in Han'. injection Han' as <-.
    destruct (final_access l g Hg) as (g0 & Hg0 & _ & Eg & _). destruct Hp as (b & k & i & Hi & Hl).
    apply kept_marker, byMarker_some in Hl as (g1 & Hg1 & Hrg & _). rewrite Hg0 in Hg1. injection Hg1 as <-.
    destruct (width_some accesses Hsizes l g0 Hg0 Hrg) as [_ Hog]. destruct Hh as [Hh _]. rewrite <- En. split; [|done].
    destruct Ht as [[-> _]|[_ ?]]; lia.
Qed.

(** What a leader's guard tests. *)
Lemma leader_checks l g u v : final !! l = Some g -> a_state g = SGuard ->
  Forall (passes u v) (checksOf final l)
  <-> passes u v (NullTest l) /\ (forall n, n ∈ members final l -> passes u v (Bytes n)) /\ passes u v (Color l (fst (tested final l g))).
Proof.
  intros Hg Hs. unfold checksOf. rewrite Hg, bool_decide_true by done. cbv zeta. rewrite tests_all, List.Forall_forall.
  split; intros (H0 & H1 & H2); split_and!; try done.
  - intros n Hn. apply H1, in_map. by apply list_elem_of_In.
  - intros x (n & <- & Hn)%in_map_iff. apply H1. by apply list_elem_of_In.
Qed.

(** A leader's guard that goes on has tested the bytes and the color of each of
    its accesses. *)
Lemma leader_passed l g u v n : final !! l = Some g -> a_state g = SGuard -> (exists b k, place f kept l b k) ->
  Forall (passes u v) (checksOf final l) -> n ∈ members final l -> passes u v (Bytes n) /\ fromHull u v n (a_guardOffset g).
Proof.
  intros Hg Hs Hp Hpass Hn. apply (leader_checks l g u v Hg Hs) in Hpass as (H0 & Hb & Hc). split; [by apply Hb|].
  destruct (leader_hull l g Hg Hs Hp) as (Et & (j & aj & Hj & Haj & Eo) & _). rewrite Et in Hc.
  destruct (member_base l g n Hg Hn Hp) as (an & al & Han & Hal & Ebn & _ & _ & Hrl & Ern).
  destruct (member_base l g j Hg Hj Hp) as (aj' & al' & Haj' & Hal' & Ebj & _ & Hrj & _). rewrite Haj in Haj'. injection Haj' as <-.
  rewrite Hal in Hal'. injection Hal' as <-. intros a r Ha Hr. rewrite Han in Ha. injection Ha as <-. rewrite Ebn. split.
  - specialize (Hb j Hj). unfold GuardRuns.passes in Hb. rewrite Haj in Hb. destruct (width_some accesses Hsizes j aj Haj Hrj) as [Hw _].
    specialize (Hb 0 ltac:(lia)). by rewrite Z.add_0_r, Ebj, Eo in Hb.
  - unfold GuardRuns.passes in Hc. rewrite Hal in Hc. apply Hc. rewrite (rootTest_some roots accesses Hsizes l al Hal Hrl). congruence.
Qed.

Lemma place_kept b k i n : instrAt f b k = Some i -> byMarker accesses (i_id i) = Some n -> kept !! n = accesses !! n -> place f kept n b k.
Proof.
  intros Hi Hn E. destruct (byMarker_some _ _ _ Hn) as (a0 & Ha0 & Hr & Hm0). rewrite Ha0 in E.
  exists i. split; [done|]. destruct (byMarker kept (i_id i)) as [m|] eqn:Em; [apply kept_marker in Em; congruence|].
  exfalso. apply last_None in Em. assert (Hin : In n (List.filter (fun m => match kept !! m with
    | Some a => removable a && (a_marker a =? i_id i)%nat | None => false end) (seq 0 (length kept)))).
  { apply filter_In. rewrite in_seq, E, Hr, Hm0, Nat.eqb_refl. apply lookup_lt_Some in E. split; [lia|done]. }
  by rewrite Em in Hin.
Qed.

(** At a marker the final code passes its access is known. *)
Lemma pass_ok out b k u v i n :
  solution f order accesses out -> decided (coveredAt f order accesses out) accesses kept ->
  held_ok out (Running b k u v) -> instrAt f b k = Some i -> byMarker accesses (i_id i) = Some n ->
  Forall (passes u v) (checksOf final n) -> okFrom u v n.
Proof.
  intros Hsol Hd [[[s Hw] Hav] Hheld] Hi Hn Hpass. destruct (byMarker_some _ _ _ Hn) as (a0 & Ha0 & Hr & Hm0).
  assert (Hs0 : a_state a0 = SGuard).
  { unfold removable in Hr. apply andb_true_iff in Hr as [[Hr _]%andb_true_iff _]. by apply bool_decide_eq_true in Hr. }
  pose proof (merging_done f kept (fo_ids _ _ _ _ Hf) kept_sizes kept_unmerged) as Hm.
  destruct (Hd n) as [E|((b' & k' & i' & _ & Hi' & Hn' & Hc) & a1 & Ha1 & E)].
  - pose proof E as Ek. rewrite Ha0 in E. destruct (same_some kept final n a0 (mg_same _ _ _ _ _ _ Hm) E) as (a & Ha & _).
    destruct (mg_state _ _ _ _ _ _ Hm n a a0 Ha E) as [Hs|[Hs _]].
    + rewrite Hs0 in Hs. assert (Hown : n ∈ members final n) by (unfold members; left).
      pose proof (place_kept b k i n Hi Hn Ek) as Hpl0. assert (Hpl : exists b k, place f kept n b k) by by exists b, k.
      destruct (leader_passed n a u v n Ha Hs Hpl Hpass Hown) as [Hb Hhull].
      apply (leader_checks n a u v Ha Hs) in Hpass as (H0 & _). split; [done|]. split; [done|]. exists (a_guardOffset a).
      split; [by apply tested_own|]. split; [done|]. intros an Han. destruct (leader_hull n a Ha Hs Hpl) as (_ & _ & Hall). by apply (Hall n).
    + destruct (merged_place f kept (fo_ids _ _ _ _ Hf) kept_sizes kept_unmerged n a Ha Hs) as (b' & kl & k' & g & Hmi & Hg & Hsg).
      destruct Hmi as (Hpl & (i' & Hi' & Hn') & Hlt & Hq & _). apply kept_marker in Hn'.
      destruct (marker_place f order roots accesses Hf b k i b' k' i' n Hi Hi' Hn Hn') as [<- <-].
      assert (Hmem : n ∈ members final (a_leader a)).
      { unfold members. apply elem_of_cons. right. apply list_elem_of_In, filter_In. rewrite in_seq, Ha, Hs, bool_decide_true, Nat.eqb_refl by done.
        apply lookup_lt_Some in Ha. split; [lia|done]. }
      assert (Hpl' : exists b k, place f kept (a_leader a) b k) by by exists b, kl.
      pose proof (held_avail out b kl (a_leader a) i k k Hpl Hq Hlt (le_n k) Hi) as Hl.
      destruct (member_base (a_leader a) g n Hg Hmem Hpl') as (an & al & Han & Hal & Eb & _).
      destruct (Hheld (a_leader a) kl g n Hpl Hlt Hq Hg Hsg Hmem) as [Hb Hhull].
      split; [|split; [done|]].
      * destruct (Hnull b k s i n an (a_leader a) al Hw Hi Hn Han) as [Hnn|Hnn]; try done.
        { by apply (walk_avail f order roots accesses Hf out _ b k s Hsol Hw). }
        { unfold GuardRuns.passes. rewrite Han, Hnn. done. }
        destruct (Hav _ Hl) as [Hokl _]. unfold GuardRuns.passes in *. rewrite Hal in Hokl. by rewrite Han, <- Hnn.
      * exists (a_guardOffset g). split; [by apply (tested_leader accesses final n a g)|]. split; [done|].
        intros a2 Ha2. destruct (leader_hull (a_leader a) g Hg Hsg Hpl') as (_ & _ & Hall). by apply (Hall n).
  - destruct (marker_place f order roots accesses Hf b k i b' k' i' n Hi Hi' Hn Hn') as [<- <-].
    apply (covered_known f order roots accesses Hf Hnull okFrom droppedAt okFrom_covers out u v b k n i s); try done.
    destruct (same_some kept final n _ (mg_same _ _ _ _ _ _ Hm) E) as (a & Ha & _). exists a. split; [done|].
    by destruct (mg_state _ _ _ _ _ _ Hm n a _ Ha E) as [?|[_ ?]].
Qed.

(** The color test of [n] is lost: between the start of the hull whose color was
    tested and its first byte lies one that may not be used, behind which
    another object may begin. *)
Definition lostColor (u : memory) (v : nat -> Z) (n : nat) : Prop :=
  exists a low, accesses !! n = Some a /\ testedFrom accesses final n low /\ low <= a_offset a
    /\ ~ forall x, low <= x <= a_offset a -> usable u (wrap64 (v (default O (a_base a)) + x)).

Lemma okFrom_color u v n a : accesses !! n = Some a -> removable a = true -> okFrom u v n ->
  exists low, testedFrom accesses final n low /\ low <= a_offset a
    /\ ((forall x, low <= x <= a_offset a -> usable u (wrap64 (v (default O (a_base a)) + x))) -> passes u v (Color n (a_offset a))).
Proof.
  intros Ha Hr (_ & _ & low & Ht & Hhull & Hlow). specialize (Hlow a Ha). exists low. split; [done|]. split; [lia|]. intros Hall.
  unfold GuardRuns.passes. rewrite Ha. intros r Hrt. rewrite (rootTest_some roots accesses Hsizes n a Ha Hr) in Hrt.
  destruct (Hhull a r Ha Hrt) as [_ Hfit]. destruct (width_some accesses Hsizes n a Ha Hr) as [_ Ho].
  replace (v (default O (a_base a)) + a_offset a) with (v (default O (a_base a)) + low + (a_offset a - low)) by lia.
  apply (apart u); [lia| |exact Hfit]. intros j Hj. rewrite <- Z.add_assoc. apply Hall. lia.
Qed.

#[local] Instance passes_color_dec u v n o : Decision (passes u v (Color n o)).
Proof.
  unfold GuardRuns.passes. destruct (accesses !! n) as [a|]; [|by left]. destruct (rootTest roots n a) as [r|].
  - destruct (fits_dec u (v r) (wrap64 (v (default O (a_base a)) + o))) as [Hf'|Hn]; [left; by intros ? [= <-]|right; intros H; by apply Hn, H].
  - by left.
Defined.

(** At a marker the code with every guard goes on, or stops for a lost color. *)
Lemma every_marker b k u v i n :
  instrAt f b k = Some i -> byMarker accesses (i_id i) = Some n -> okFrom u v n ->
  step f roots accesses effect (checksOf accesses) (Running b k u v) (Running b (S k) u v)
  \/ exists o, step f roots accesses effect (checksOf accesses) (Running b k u v) (Stopped (Color n o)) /\ lostColor u v n.
Proof.
  intros Hi Hn Hok. destruct (byMarker_some _ _ _ Hn) as (a & Ha & Hr & _). destruct (marker_guard accesses _ _ Hn) as (a' & Ha' & Hs & _).
  rewrite Ha in Ha'. injection Ha' as <-. pose proof (checks_guard accesses n a Hunmerged Ha Hs) as Hc.
  pose proof Hok as (H0 & Hb & _). destruct (okFrom_color u v n a Ha Hr Hok) as (low & Ht & Hlow & Hcol).
  destruct (decide (passes u v (Color n (a_offset a)))) as [Hp|Hp].
  - left. eapply step_pass; [done..|]. rewrite Hc. by apply (ok_iff roots accesses u v n a Ha).
  - right. exists (a_offset a). split; [|exists a, low; split_and!; try done; intros Hall; by apply Hp, Hcol].
    unfold ownChecks in Hc. rewrite Ha in Hc. unfold testsOf in Hc. destruct (oneGranule _ _).
    + apply (step_stop f roots accesses effect _ b k u v i n [NullTest n; Bytes n] (Color n (a_offset a)) []); try done. by repeat constructor.
    + by apply (step_stop f roots accesses effect _ b k u v i n [] (Color n (a_offset a)) [NullTest n; Bytes n]).
Qed.

(** The code with every guard stops, on the way, for a color that is lost. *)
Definition stopsLost (c : config) : Prop :=
  exists b k u v n o, rtc (step f roots accesses effect (checksOf accesses)) c (Running b k u v)
    /\ step f roots accesses effect (checksOf accesses) (Running b k u v) (Stopped (Color n o)) /\ lostColor u v n.

(** A step of the final code is one of the code with every guard, unless one of
    them stops. *)
Lemma final_step out b k u v c :
  solution f order accesses out -> decided (coveredAt f order accesses out) accesses kept -> held_ok out (Running b k u v) ->
  step f roots accesses effect (checksOf final) (Running b k u v) c ->
  held_ok out c
  /\ ((exists j, c = Stopped j) \/ step f roots accesses effect (checksOf accesses) (Running b k u v) c \/ stopsLost (Running b k u v)).
Proof.
  intros Hs Hd Hh Hstep. pose proof Hh as [Hinv Hheld]. pose proof Hinv as [[s Hw] _].
  inversion Hstep as [b0 k0 u0 v0 i n Hi Hn Hok E1 E2|b0 k0 u0 v0 i n l1 j l2 Hi Hn Hl Hok Hj E1 E2|b0 k0 u0 v0 u' v' i Hi Hn Hu Hv E1 E2|b0 k0 u0 v0 b' Hk Hb' E1 E2];
    clear Hstep; subst.
  - pose proof (pass_ok out b k u v i n Hs Hd Hh Hi Hn Hok) as Hokn. split; [split|].
    + by apply (inv_marker f accesses okFrom out b k u v i n).
    + intros l kl g m Hp Hlt Hq Hg Hsg Hmem. destruct (decide (kl = k)) as [->|Hne].
      * destruct (kept_place l b k Hp) as (i' & Hi' & Hl). rewrite Hi in Hi'. injection Hi' as <-. rewrite Hn in Hl. injection Hl as <-.
        apply (leader_passed n g u v m Hg Hsg); [by exists b, k|done..].
      * apply (Hheld l kl g m); try done; [lia|]. intros k' i' Hk'. apply Hq. lia.
    + right. destruct (every_marker b k u v i n Hi Hn Hokn) as [?|(o & ? & ?)]; [by left|right]. by exists b, k, u, v, n, o.
  - split; [by split|]. left. by exists j.
  - split; [split|].
    + by apply (inv_other f order roots accesses Hf effect Hgrows okFrom okFrom_step out b k u v u' v' i).
    + intros l kl g m Hp Hlt Hq Hg Hsg Hmem. pose proof Hp as Hp0. destruct (kept_place l b kl Hp0) as (il & Hil & Hnl).
      assert (Hne : kl <> k) by (intros ->; rewrite Hi in Hil; injection Hil as <-; congruence).
      assert (Hclose : closesHulls i = false).
      { apply (Hq k i); [lia|done|]. destruct (byMarker kept (i_id i)) as [n|] eqn:E; [|done]. apply kept_marker in E. congruence. }
      destruct (member_base l g m Hg Hmem (ex_intro _ b (ex_intro _ kl Hp))) as (a & al & Ha & Hal & Eb & Hbase & _ & Hrl & Er).
      assert (Hfresh : ~ uses roots l al (i_id i)) by (apply (leader_fresh b k s i l kl al Hw Hi Hp); [lia|done]).
      unfold uses in Hfresh. rewrite (rootTest_some roots accesses Hsizes l al Hal Hrl) in Hfresh.
      apply (held_step u v u' v' i m a (a_guardOffset g)); try done.
      * apply Hgrows, Hu. unfold closesHulls in Hclose. by apply orb_false_iff in Hclose as [? _].
      * rewrite Eb. tauto.
      * rewrite Er. tauto.
      * apply (Hheld l kl g m); try done; [lia|]. intros k' i' Hk'. apply Hq. lia.
    + right; left. by apply (step_other f roots accesses effect _ b k u v u' v' i).
  - split; [split|].
    + by apply (inv_jump f order roots accesses Hf okFrom out b u v b').
    + intros l kl g m _ Hlt. lia.
    + right; left. by apply step_jump.
Qed.

Lemma stopsLost_step c c1 : step f roots accesses effect (checksOf accesses) c c1 -> stopsLost c1 -> stopsLost c.
Proof. intros Hs (b & k & u & v & n & o & Hr & Hl). exists b, k, u, v, n, o. split; [by eapply rtc_l|done]. Qed.

Lemma final_runs out c c' :
  solution f order accesses out -> decided (coveredAt f order accesses out) accesses kept -> held_ok out c ->
  rtc (step f roots accesses effect (checksOf final)) c c' ->
  held_ok out c'
  /\ ((exists j, c' = Stopped j) \/ rtc (step f roots accesses effect (checksOf accesses)) c c' \/ stopsLost c).
Proof.
  intros Hs Hd Hh Hr. induction Hr as [c|c c1 c' Hstep Hr IH]; [split; [done|]; by right; left|].
  destruct c as [b k u v|j]; [|inversion Hstep]. destruct (final_step out b k u v c1 Hs Hd Hh Hstep) as [Hh1 Hcase].
  destruct (IH Hh1) as [Hh' Hrest]. split; [done|]. destruct Hcase as [[j ->]|[Hstep1|Hlost]]; [| |by right; right].
  - inversion Hr as [|x y z Hxy]; subst; [left; by exists j|inversion Hxy].
  - destruct Hrest as [?|[Hr'|Hlost]]; [by left|right; left; by eapply rtc_l|right; right]. by eapply stopsLost_step.
Qed.

Lemma held_start out u v : solution f order accesses out -> held_ok out (Running 0 0 u v).
Proof. intros Hs. split; [by apply (inv_start f order)|]. intros l kl g n _ Hlt. lia. Qed.

(** [removeDominated] decides by a solution, or decides nothing; there is one. *)
Lemma kept_solution : exists out, solution f order accesses out /\ decided (coveredAt f order accesses out) accesses kept.
Proof.
  destruct kept_decided as [out [[Hs Hd]|E]]; [by exists out|]. destruct (fo_entry _ _ _ _ Hf) as [rest Eo].
  destruct (rounds_found f rest accesses) as [out' Hr]. exists out'. rewrite <- Eo in Hr.
  split; [by apply (rounds_solution f order roots accesses Hf Hsizes (roundFuel order accesses) (outStart order accesses))|].
  rewrite E. apply decided_refl.
Qed.

(** C6: nothing else is lost: where the code after both rules runs, the code
    with every guard runs, or it stops on the way at the color test of an access
    whose test is lost; and whenever the code after both rules gets past the
    place of an access's guard (kept, removed or merged) the base the guard
    tests is not null, the access's bytes may be used, and, when all bytes from
    where a color was tested for it may be, they are of the root's color.  The
    widths are positive and below 2^61, no guard without a null test stands
    before one of the same base with one (such a test is lost), the guards of
    one base have one root, and what kills no guard takes nothing from what may
    be used nor its color. *)
Theorem rules_sound u v b k u' v' :
  rtc (step f roots accesses effect (checksOf final)) (Running 0 0 u v) (Running b k u' v') ->
  (rtc (step f roots accesses effect (checksOf accesses)) (Running 0 0 u v) (Running b k u' v') \/ stopsLost (Running 0 0 u v))
  /\ forall k0 i n a, k = S k0 -> instrAt f b k0 = Some i -> byMarker accesses (i_id i) = Some n -> accesses !! n = Some a ->
       passes u' v' (NullTest n) /\ passes u' v' (Bytes n)
       /\ exists low, testedFrom accesses final n low /\ low <= a_offset a
          /\ ((forall x, low <= x <= a_offset a -> usable u' (wrap64 (v' (default O (a_base a)) + x))) ->
              passes u' v' (Color n (a_offset a))).
Proof.
  intros Hr. destruct kept_solution as (out & Hs & Hd).
  destruct (final_runs out _ _ Hs Hd (held_start out u v Hs) Hr) as [[[_ Hav] _] [[j Hj]|Hr']]; [done|]. split; [done|].
  intros k0 i n a -> Hi Hn Ha. assert (Hok : okFrom u' v' n).
  { apply Hav. rewrite (availAt_next f accesses out b k0 i Hi). unfold transferOne. rewrite Hn. set_solver. }
  destruct (byMarker_some _ _ _ Hn) as (a' & Ha' & Hr0 & _). rewrite Ha in Ha'. injection Ha' as <-.
  split; [apply Hok|]. split; [apply Hok|]. by apply (okFrom_color u' v' n a).
Qed.

(** *** Stops *)

(** From a leader to the place of an access merged into it, the code with every
    guard goes from instruction to instruction, or stops; the base stays, and
    the memory changes by what instructions that kill no guard do. *)
Lemma quiet_run b k kj l al u v s c m :
  place f kept l b k -> accesses !! l = Some al -> quiet f kept b k kj -> (kj < length (instructions (blockAt f b)))%nat ->
  walk f accesses (fun _ => False) b k s -> (k + m <= kj)%nat ->
  nsteps (step f roots accesses effect (checksOf accesses)) m (Running b k u v) c ->
  (exists t, c = Stopped t)
  \/ exists u' v', c = Running b (k + m) u' v' /\ rtc effect u u' /\ v' (default O (a_base al)) = v (default O (a_base al))
                   /\ (forall r, roots l = Some r -> v' r = v r)
                   /\ exists s', walk f accesses (fun _ => False) b (k + m) s'.
Proof.
  intros Hp Hal Hq Hlen Hw. revert c. induction m as [|m IH]; intros c Hm Hn.
  { inversion Hn; subst. right. exists u, v. rewrite Nat.add_0_r. split_and!; eauto. done. }
  apply nsteps_inv_r in Hn as (c1 & Hn & Hstep). destruct (IH c1 ltac:(lia) Hn) as [[j ->]|(u1 & v1 & -> & Hu1 & Ev & Er & s1 & Hw1)]; [inversion Hstep|].
  replace (k + S m)%nat with (S (k + m)) by lia.
  inversion Hstep as [b0 k0 u0 v0 i n Hi Hni Hok E1 E2|b0 k0 u0 v0 i n l1 j l2 Hi Hni Hl Hok Hj E1 E2|b0 k0 u0 v0 u' v' i Hi Hni Hu Hv E1 E2|b0 k0 u0 v0 b' Hk Hb' E1 E2];
    subst; [right|left; by exists j|right|lia].
  - exists u1, v1. split_and!; try done. eexists. eapply walk_step; [done..|]. tauto.
  - assert (Hkm : (k < k + m)%nat \/ m = 0%nat) by lia. destruct Hkm as [Hkm| ->].
    + assert (Hclose : closesHulls i = false).
      { apply (Hq (k + m)%nat i); [lia|done|]. destruct (byMarker kept (i_id i)) as [n|] eqn:E; [|done]. apply kept_marker in E. congruence. }
      unfold closesHulls in Hclose. apply orb_false_iff in Hclose as [Hkill _].
      destruct (kept_place l b k Hp) as (il & _ & Hnl). destruct (byMarker_some _ _ _ Hnl) as (al' & Hal' & Hr & _).
      rewrite Hal in Hal'. injection Hal' as <-. destruct (removable_base al Hr) as [base Hb].
      pose proof (leader_fresh b (k + m) s1 i l k al Hw1 Hi Hp Hkm Hal) as Hfresh. unfold uses in Hfresh.
      rewrite (rootTest_some roots accesses Hsizes l al Hal Hr) in Hfresh.
      exists u', v'. split_and!; [done|by eapply rtc_r; [exact Hu1|apply Hu]|..].
      * rewrite <- Ev, Hb. change (default O (Some base)) with base. apply Hv. intros E. apply Hfresh. left. by rewrite Hb, E.
      * intros r Hrr. rewrite <- Er by done. apply Hv. intros E. apply Hfresh. right; right. by rewrite Hrr, E.
      * eexists. eapply walk_step; [done..|]. tauto.
    + exfalso. rewrite Nat.add_0_r in *. destruct (kept_place l b k Hp) as (il & Hil & Hnl). congruence.
Qed.

(** The test is of the guard of access [j]: of its own, or of the color of its
    first byte, against the root of another guard of its base. *)
Definition isOf (t : check) (j : nat) : Prop :=
  match t with
  | NullTest i | Bytes i => i = j
  | Color i o =>
    exists a aj, accesses !! i = Some a /\ accesses !! j = Some aj /\ a_base a = a_base aj /\ roots i = roots j
      /\ removable a = true /\ removable aj = true /\ a_offset aj = o
  end.

(** The guard of an access makes each of its tests. *)
Lemma own_test u v j a t : accesses !! j = Some a -> isOf t j -> ok roots accesses u v j -> passes u v t.
Proof.
  intros Ha Ht. rewrite (ok_iff roots accesses u v j a Ha). intros (H0 & Hb & Hc). destruct t as [i|i|i o]; cbn in Ht; [by subst..|].
  destruct Ht as (ai & aj & Hi & Hj & Eb & Er & Ri & Rj & <-). rewrite Ha in Hj. injection Hj as <-.
  unfold GuardRuns.passes in *. rewrite Hi. rewrite Ha in Hc. rewrite Eb.
  rewrite (rootTest_some roots accesses Hsizes i ai Hi Ri). by rewrite (rootTest_some roots accesses Hsizes j a Ha Rj), <- Er in Hc.
Qed.

(** At the marker of an access: the code with every guard goes past it only
    when each of its tests goes on. *)
Lemma past_marker b k u v i j t m c :
  instrAt f b k = Some i -> byMarker accesses (i_id i) = Some j -> isOf t j ->
  nsteps (step f roots accesses effect (checksOf accesses)) (S m) (Running b k u v) c -> passes u v t \/ exists t', c = Stopped t'.
Proof.
  intros Hi Hn Ht Hc. inversion Hc as [|m' x c1 z Hs1 Hrest]; subst.
  inversion Hs1 as [b0 k0 u0 v0 i1 n1 Hi1 Hn1 Hok1 E1 E2|b0 k0 u0 v0 i1 n1 l3 j3 l4 Hi1 Hn1 Hl1 Hok1 Hj1 E1 E2|b0 k0 u0 v0 u2 v2 i1 Hi1 Hn1 Hu Hv E1 E2|b0 k0 u0 v0 b' Hk Hb' E1 E2]; subst.
  - left. rewrite Hi in Hi1. injection Hi1 as <-. rewrite Hn in Hn1. injection Hn1 as <-.
    destruct (marker_guard accesses _ _ Hn) as (a & Ha & Hsa & _). rewrite (checks_guard accesses _ a) in Hok1 by done.
    by apply (own_test u v j a t).
  - right. inversion Hrest as [|m2 x' c2 y' Hs2 Hrest2]; subst; [by exists j3|inversion Hs2].
  - congruence.
  - exfalso. apply lookup_lt_Some in Hi. lia.
Qed.

(** The instruction never ends the program, nor leaves the function. *)
Definition goesOn (i : instruction) : Prop :=
  i_transfers i = true \/ is_Some (markerOf (i_op i)) \/ i_op i = LoadInst \/ i_op i = StoreInst.

Lemma open_goes_on i : closesHulls i = false -> goesOn i.
Proof.
  unfold closesHulls, goesOn. intros [_ Hc]%orb_false_iff. apply andb_false_iff in Hc as [Hc|Hc]; [|left; by apply negb_false_iff].
  apply andb_false_iff in Hc as [Hc|Hc]; apply negb_false_iff in Hc; [right; left; by apply bool_decide_eq_true in Hc|].
  destruct (i_op i); try discriminate; auto.
Qed.

(** The accesses of a guard are of markers behind it in its block, with nothing
    between that closes it. *)
Lemma member_place n g j b k : final !! n = Some g -> place f kept n b k -> j ∈ members final n ->
  exists kj ij, instrAt f b kj = Some ij /\ byMarker accesses (i_id ij) = Some j
    /\ ((j = n /\ kj = k) \/ ((k < kj)%nat /\ quiet f kept b k kj)).
Proof.
  intros Hg Hpl Hj. destruct (kept_place n b k Hpl) as (il & Hil & Hnl). unfold members in Hj. apply elem_of_cons in Hj as [->|Hj].
  { exists k, il. split_and!; try done. by left. }
  apply list_elem_of_In, filter_In in Hj as [_ Hj]. destruct (final !! j) as [a|] eqn:Ea; [|done].
  apply andb_true_iff in Hj as [Hsa%bool_decide_eq_true Hld%Nat.eqb_eq].
  destruct (merged_place f kept (fo_ids _ _ _ _ Hf) kept_sizes kept_unmerged j a Ea Hsa) as (b' & kl & kj & g' & Hmi & _).
  rewrite Hld in Hmi. destruct Hmi as (Hpl' & (ij & Hij & Hnj) & Hlt & Hq & _). apply kept_marker in Hnj.
  destruct (place_unique f kept (fo_ids _ _ _ _ Hf) n b k b' kl Hpl Hpl') as [<- <-].
  exists kj, ij. split_and!; try done. by right.
Qed.

(** A test of a guard after both rules is of one of its accesses; it looks at the
    leader's base and root only, but for a null test. *)
Lemma stopped_test n t b k i :
  instrAt f b k = Some i -> byMarker accesses (i_id i) = Some n -> t ∈ checksOf final n ->
  exists j kj ij al, instrAt f b kj = Some ij /\ byMarker accesses (i_id ij) = Some j /\ isOf t j
    /\ place f kept n b k /\ accesses !! n = Some al
    /\ (kj = k \/ ((k < kj)%nat /\ quiet f kept b k kj
         /\ forall u1 v1 v2, v1 (default O (a_base al)) = v2 (default O (a_base al)) -> (forall r, roots n = Some r -> v1 r = v2 r) ->
              passes u1 v1 t -> passes u1 v2 t)).
Proof.
  intros Hi Hn Ht. unfold checksOf in Ht. destruct (final !! n) as [g|] eqn:Eg; [|set_solver]. case_bool_decide as Hsg; [|set_solver].
  assert (Hpl : place f kept n b k).
  { apply (place_kept b k i n Hi Hn). destruct (final_field n g Eg) as (a1 & Ha1 & Hs1). destruct (kept_field n a1 Ha1) as (a0 & Ha0 & [->|E]); [congruence|].
    subst a1. cbn in Hs1. destruct Hs1 as [?|[_ ?]]; congruence. }
  assert (Hpl' : exists b k, place f kept n b k) by by exists b, k.
  destruct (byMarker_some _ _ _ Hn) as (al & Hal & Hral & _).
  assert (Hbyte : forall j, j ∈ members final n -> isOf t j ->
    (forall u1 v1 v2, v1 (default O (a_base al)) = v2 (default O (a_base al)) -> (forall r, roots n = Some r -> v1 r = v2 r) ->
       passes u1 v1 t -> passes u1 v2 t) ->
    exists j kj ij al, instrAt f b kj = Some ij /\ byMarker accesses (i_id ij) = Some j /\ isOf t j
      /\ place f kept n b k /\ accesses !! n = Some al
      /\ (kj = k \/ ((k < kj)%nat /\ quiet f kept b k kj
         /\ forall u1 v1 v2, v1 (default O (a_base al)) = v2 (default O (a_base al)) -> (forall r, roots n = Some r -> v1 r = v2 r) ->
              passes u1 v1 t -> passes u1 v2 t))).
  { intros j Hj Hof Hsame. destruct (member_place n g j b k Eg Hpl Hj) as (kj & ij & Hij & Hnj & Hc).
    exists j, kj, ij, al. split_and!; try done. destruct Hc as [[_ ->]|[Hlt Hq]]; [by left|by right]. }
  cbv zeta in Ht. assert (Hcase : t = NullTest n \/ (exists j, t = Bytes j /\ j ∈ members final n) \/ t = Color n (fst (tested final n g))).
  { unfold testsOf in Ht. destruct (_ && _); rewrite !elem_of_cons, ?elem_of_app, ?list_elem_of_singleton in Ht;
      destruct_or!; try tauto; right; left; apply list_elem_of_fmap in Ht as (j & -> & Hj); eauto. }
  destruct Hcase as [->|[(j & -> & Hj)| ->]].
  - exists n, k, i, al. split_and!; try done. by left.
  - apply (Hbyte j Hj); [done|]. destruct (member_base n g j Eg Hj Hpl') as (aj & al' & Haj & Hal' & Eb & _).
    rewrite Hal in Hal'. injection Hal' as <-. intros u1 v1 v2 Ev _. unfold GuardRuns.passes. rewrite Haj, Eb. by rewrite Ev.
  - destruct (leader_hull n g Eg Hsg Hpl') as (Et & (j & aj & Hj & Haj & Eo) & _). apply (Hbyte j Hj).
    + destruct (member_base n g j Eg Hj Hpl') as (aj' & al' & Haj' & Hal' & Eb & _ & Rj & Rn & Er). rewrite Haj in Haj'. injection Haj' as <-.
      rewrite Hal in Hal'. injection Hal' as <-. exists al, aj. rewrite Et. by split_and!.
    + intros u1 v1 v2 Ev Er. unfold GuardRuns.passes. rewrite Hal, Ev. intros Hc r Hr.
      rewrite (rootTest_some roots accesses Hsizes n al Hal Hral) in *. rewrite <- (Er r Hr). by apply Hc.
Qed.

End Rules.
