(* ===== verification/GuardScopes.v ===== *)
(** * Scopes of locals, and extents

    When [Scopes::mayBeOutOfScope] says that an instruction may run while a
    local is out of scope, and what rule 6.1 may conclude from that and from an
    object's extent (the file GuardRules). *)

From stdpp Require Import gmap sets.
From S2P Require Import Prelude GuardRules GuardRuns.
Local Open Scope Z_scope.

(** ** Out of scope *)

(** Behind an end of the alloca's lifetime, with no start since. *)
Inductive outOfScope (f : function) (alloca : nat) : nat -> nat -> Prop :=
  | out_end b k i : instrAt f b k = Some i -> markerFor i alloca = -1 -> outOfScope f alloca b (S k)
  | out_keep b k i : outOfScope f alloca b k -> instrAt f b k = Some i -> markerFor i alloca = 0 -> outOfScope f alloca b (S k)
  | out_edge b b' :
    outOfScope f alloca b (length (instructions (blockAt f b))) -> b' ∈ successors (blockAt f b) -> outOfScope f alloca b' 0.

Section Scopes.
Context (f : function) (alloca : nat).

Abbreviation oos := (outOfScope f alloca).

Lemma marker_cases i : markerFor i alloca = 1 \/ markerFor i alloca = 0 \/ markerFor i alloca = -1.
Proof. unfold markerFor. repeat case_match; auto. Qed.

Lemma scopeAfter_next entered b k i :
  instrAt f b k = Some i ->
  scopeAfter alloca entered (take (S k) (instructions (blockAt f b)))
  = if markerFor i alloca =? 0 then scopeAfter alloca entered (take k (instructions (blockAt f b))) else markerFor i alloca <? 0.
Proof. intros Hi. unfold scopeAfter. by rewrite (take_S_r _ _ i Hi), fold_left_app. Qed.

Lemma scopeAfter_exact (D : gset nat) b :
  (b ∈ D <-> oos b 0) -> forall k, (k <= length (instructions (blockAt f b)))%nat ->
  scopeAfter alloca (bool_decide (b ∈ D)) (take k (instructions (blockAt f b))) = true <-> oos b k.
Proof.
  intros HD. induction k as [|k IH]; intros Hk; [change (bool_decide (b ∈ D) = true <-> oos b 0); by rewrite bool_decide_eq_true|].
  destruct (lookup_lt_is_Some_2 (instructions (blockAt f b)) k ltac:(lia)) as [i Hi]. rewrite (scopeAfter_next _ b k i Hi).
  specialize (IH ltac:(lia)). split.
  - destruct (marker_cases i) as [E|[E|E]]; rewrite E; cbn; [done| |].
    + intros Hs. eapply out_keep; [by apply IH|exact Hi|done].
    + intros _. by eapply out_end.
  - intros Ho. inversion Ho as [b0 k0 i0 Hi0 Hm|b0 k0 i0 Ho0 Hi0 Hm|]; subst; unfold instrAt in Hi0; rewrite Hi in Hi0;
      injection Hi0 as <-; rewrite Hm; cbn; [done|by apply IH].
Qed.

(** A block is left dead because it is entered so or has an end. *)
Lemma leavesDead_why b entered : leavesDead f alloca b entered = true -> entered = true \/ b ∈ endBlocks f alloca.
Proof.
  intros Hl. destruct entered; [by left|right].
  assert (He : exists i, In i (instructions (blockAt f b)) /\ markerFor i alloca = -1).
  { unfold leavesDead, scopeAfter in Hl. revert Hl. generalize (instructions (blockAt f b)) as l.
    assert (Hgen : forall l state, state = true \/ (fold_left (fun state i => let marker := markerFor i alloca in
      if marker =? 0 then state else marker <? 0) l state = true -> exists i, In i l /\ markerFor i alloca = -1)).
    { induction l as [|i l IH]; intros [|]; try (by left); right; [done|]. cbn. destruct (marker_cases i) as [E|[E|E]]; rewrite E; cbn.
      - destruct (IH false) as [|IH']; [done|]. intros Hf. destruct (IH' Hf) as (j & Hj & Ej). eauto.
      - destruct (IH false) as [|IH']; [done|]. intros Hf. destruct (IH' Hf) as (j & Hj & Ej). eauto.
      - intros _. exists i. auto. }
    intros l Hf. destruct (Hgen l false) as [|Hg]; [done|]. by apply Hg. }
  destruct He as (i & Hin & Em). unfold endBlocks. apply list_elem_of_In, in_flat_map. exists b. split.
  - apply in_seq. destruct (decide (b < length f)%nat); [lia|]. unfold blockAt in Hin. rewrite nth_overflow in Hin by lia. done.
  - apply in_map_iff. exists i. split; [done|]. apply filter_In. by rewrite Em.
Qed.

Lemma endBlock_leaves_in b : b ∈ endBlocks f alloca -> (b < length f)%nat.
Proof. unfold endBlocks. rewrite list_elem_of_In, in_flat_map. intros (b' & Hb' & Hin). apply in_seq in Hb'. apply in_map_iff in Hin as (_ & <- & _). lia. Qed.

(** *** The work list *)

Lemma enterDead_spec succs : forall dead work,
  let '(dead', work') := enterDead succs dead work in
  (forall b, b ∈ dead' <-> b ∈ dead \/ b ∈ succs) /\ (forall b, b ∈ work' <-> b ∈ work \/ (b ∈ succs /\ b ∉ dead))
  /\ (length work' + size dead = length work + size dead')%nat.
Proof.
  induction succs as [|s succs IH]; intros dead work; cbn [enterDead]; [split_and!; set_solver|].
  case_bool_decide as Hs.
  - specialize (IH dead work). destruct (enterDead succs dead work) as [dead' work']. destruct IH as (H1 & H2 & H3). split_and!; set_solver.
  - specialize (IH ({[s]} ∪ dead) (s :: work)). destruct (enterDead succs ({[s]} ∪ dead) (s :: work)) as [dead' work'].
    destruct IH as (H1 & H2 & H3). split_and!; [set_solver| |].
    + intros b. rewrite H2. destruct (decide (b = s)); set_solver.
    + rewrite size_union in H3 by set_solver. rewrite size_singleton in H3. cbn in H3. lia.
Qed.

(** What holds whenever a block is taken. *)
Record scanning (work : list nat) (dead leftDead : gset nat) : Prop := {
  sc_dead : forall b, b ∈ dead -> oos b 0;
  sc_todo : forall b, b ∈ endBlocks f alloca \/ b ∈ dead ->
    b ∈ work \/ b ∈ leftDead \/ leavesDead f alloca b (bool_decide (b ∈ dead)) = false;
  sc_left : forall b b', b ∈ leftDead -> b' ∈ successors (blockAt f b) -> b' ∈ dead;
  sc_succs : forall b, b ∈ dead -> b ∈ flat_map successors f
}.

Lemma leavesDead_oos b (dead : gset nat) :
  (forall b, b ∈ dead -> oos b 0) -> leavesDead f alloca b (bool_decide (b ∈ dead)) = true ->
  oos b (length (instructions (blockAt f b))).
Proof.
  intros Hd. unfold leavesDead. rewrite <- (firstn_all (instructions (blockAt f b))) at 1.
  assert (Hgen : forall k, (k <= length (instructions (blockAt f b)))%nat ->
    scopeAfter alloca (bool_decide (b ∈ dead)) (take k (instructions (blockAt f b))) = true -> oos b k).
  { induction k as [|k IH]; intros Hk; [change (bool_decide (b ∈ dead) = true -> oos b 0); rewrite bool_decide_eq_true; apply Hd|].
    destruct (lookup_lt_is_Some_2 (instructions (blockAt f b)) k ltac:(lia)) as [i Hi]. rewrite (scopeAfter_next _ b k i Hi).
    destruct (marker_cases i) as [E|[E|E]]; rewrite E; cbn; [done| |].
    - intros Hs. eapply out_keep; [apply IH; [lia|done]|exact Hi|done].
    - intros _. by eapply out_end. }
  by apply Hgen.
Qed.

Lemma scanning_step b work dead leftDead :
  scanning (b :: work) dead leftDead ->
  if negb (leavesDead f alloca b (bool_decide (b ∈ dead))) || bool_decide (b ∈ leftDead) then scanning work dead leftDead
  else let '(dead', work') := enterDead (successors (blockAt f b)) dead work in scanning work' dead' ({[b]} ∪ leftDead).
Proof.
  intros [H1 H2 H3 H4]. destruct (leavesDead f alloca b (bool_decide (b ∈ dead))) eqn:El.
  - destruct (decide (b ∈ leftDead)) as [Hb|Hb];
      [rewrite (bool_decide_true (b ∈ leftDead)) by done|rewrite (bool_decide_false (b ∈ leftDead)) by done]; cbn [negb orb].
    + split; try done. intros b' Hb'. destruct (H2 b' Hb') as [Hin|?]; [|by right]. apply elem_of_cons in Hin as [->|]; auto.
    + pose proof (enterDead_spec (successors (blockAt f b)) dead work) as He.
      destruct (enterDead (successors (blockAt f b)) dead work) as [dead' work']. destruct He as (E1 & E2 & _). split.
      * intros b' Hb'. apply E1 in Hb' as [Hb'|Hb']; [by apply H1|]. eapply out_edge; [by eapply leavesDead_oos|done].
      * intros b' Hb'. rewrite E2, elem_of_union, elem_of_singleton. destruct (decide (b' ∈ dead)) as [Hd|Hd].
        { destruct (H2 b' (or_intror Hd)) as [Hin|[Hin|Hl]]; [apply elem_of_cons in Hin as [->|]; auto|auto|].
          right. right. rewrite bool_decide_true in Hl by done. rewrite bool_decide_true; [done|]. apply E1. by left. }
        destruct (decide (b' ∈ dead')) as [Hd'|Hd'].
        { left. right. split; [|done]. apply E1 in Hd' as [?|?]; done. }
        destruct Hb' as [Hb'|?]; [|done]. destruct (H2 b' (or_introl Hb')) as [Hin|[Hin|Hl]]; [apply elem_of_cons in Hin as [->|]; auto|auto|].
        right. right. rewrite bool_decide_false in Hl |- *; done.
      * intros x x' Hx Hx'. apply E1. apply elem_of_union in Hx as [->%elem_of_singleton|Hx]; [by right|]. left. by eapply H3.
      * intros x Hx. apply E1 in Hx as [Hx|Hx]; [by apply H4|]. apply list_elem_of_In, in_flat_map. exists (blockAt f b).
        split; [|by apply list_elem_of_In]. apply nth_In. destruct (decide (b < length f)%nat); [done|].
        unfold blockAt in Hx. rewrite nth_overflow in Hx by lia. set_solver.
  - cbn [negb orb]. split; try done. intros b' Hb'. destruct (H2 b' Hb') as [Hin|?]; [|by right].
    apply elem_of_cons in Hin as [->|]; auto.
Qed.

Lemma scanning_start : scanning (rev (endBlocks f alloca)) ∅ ∅.
Proof.
  split; try set_solver. intros b [Hb|Hb]; [|set_solver]. left. by apply list_elem_of_In, in_rev; rewrite rev_involutive; apply list_elem_of_In.
Qed.

Lemma scanning_size work dead leftDead : scanning work dead leftDead -> (size dead <= length (flat_map successors f))%nat.
Proof.
  intros Hs. transitivity (size (list_to_set (flat_map successors f) : gset nat)).
  - apply subseteq_size. intros b Hb. apply elem_of_list_to_set. by apply (sc_succs _ _ _ Hs).
  - generalize (flat_map successors f) as l. induction l as [|b l IH]; [done|]. cbn [list_to_set length].
    pose proof (size_union_alt {[b]} (list_to_set l : gset nat)) as Hu. rewrite size_singleton in Hu.
    pose proof (subseteq_size ((list_to_set l : gset nat) ∖ {[b]}) (list_to_set l) ltac:(set_solver)) as Hd.
    transitivity (1 + size (list_to_set l : gset nat))%nat; [|lia]. rewrite Hu. lia.
Qed.

Lemma deadFrom_ends fuel : forall work dead leftDead,
  scanning work dead leftDead -> (length work + (length (flat_map successors f) - size dead) < fuel)%nat ->
  exists dead' leftDead', deadFrom f alloca fuel work dead leftDead = Some dead' /\ scanning [] dead' leftDead'.
Proof.
  induction fuel as [|fuel IH]; intros work dead leftDead Hs Hm; [lia|]. cbn [deadFrom].
  destruct work as [|b work]; [by exists dead, leftDead|]. pose proof (scanning_step b work dead leftDead Hs) as Hs'. cbn [length] in Hm.
  destruct (negb _ || _); [by apply (IH work dead leftDead); [|lia]|].
  pose proof (enterDead_spec (successors (blockAt f b)) dead work) as He.
  destruct (enterDead (successors (blockAt f b)) dead work) as [dead' work']. destruct He as (_ & _ & Hlen).
  apply IH; [done|]. pose proof (scanning_size _ _ _ Hs). pose proof (scanning_size _ _ _ Hs'). lia.
Qed.

Lemma dead_exact dead leftDead : scanning [] dead leftDead -> forall b, b ∈ dead <-> oos b 0.
Proof.
  intros [H1 H2 H3 H4] b. split; [by apply H1|]. intros Ho.
  assert (Hgen : forall b k, oos b k -> (k = 0%nat -> b ∈ dead)
    /\ ((k <= length (instructions (blockAt f b)))%nat ->
        scopeAfter alloca (bool_decide (b ∈ dead)) (take k (instructions (blockAt f b))) = true)).
  { induction 1 as [b0 k i Hi Hm|b0 k i Ho0 IH Hi Hm|b0 b' Ho0 [_ IH] Hb'].
    - split; [done|]. intros _. by rewrite (scopeAfter_next _ b0 k i Hi), Hm.
    - split; [done|]. intros Hk. rewrite (scopeAfter_next _ b0 k i Hi), Hm. cbn. apply IH. lia.
    - assert (Hin : b' ∈ dead).
      { specialize (IH ltac:(lia)). rewrite firstn_all in IH. fold (leavesDead f alloca b0 (bool_decide (b0 ∈ dead))) in IH.
        pose proof (leavesDead_why b0 _ IH) as Hw. rewrite bool_decide_eq_true in Hw.
        destruct (H2 b0 ltac:(tauto)) as [Hin|[Hin|Hl]]; [set_solver|by eapply H3|congruence]. }
      split; [done|]. intros _. unfold scopeAfter. cbn. by rewrite bool_decide_true. }
  by apply (Hgen b 0%nat Ho).
Qed.

Lemma deadAtEntry_exact b : b ∈ deadAtEntry f alloca <-> oos b 0.
Proof.
  destruct (deadFrom_ends (scopeFuel f alloca) (rev (endBlocks f alloca)) ∅ ∅ scanning_start) as (dead & left & E & Hs).
  { unfold scopeFuel. rewrite length_rev, size_empty. lia. }
  unfold deadAtEntry. rewrite E. by apply (dead_exact dead left).
Qed.

(** C22: the scan for a local's scope ends, and it says that an instruction may
    run out of scope exactly when some way through the function leads to it
    from an end of the local's lifetime with no start on the way. *)
Theorem scope_exact b k : (k <= length (instructions (blockAt f b)))%nat -> mayBeOutOfScope f alloca b k = true <-> oos b k.
Proof. apply scopeAfter_exact, deadAtEntry_exact. Qed.
End Scopes.

(** ** Accesses inside their objects *)

Section Inside.
Context {V : Values} {E : Evolution} (f : function).

(** The values the function may have when an instruction runs. *)
Context (at_ : nat -> (nat -> Z) -> Prop).

(** What an expression is, in 64 bits. *)
Context (denote : scev -> (nat -> Z) -> Z).

Definition holdsOf (p : predicate) (x y : Z) : Prop :=
  match p with ULE => x <= y | SGE => int64 y <= int64 x | SLE => int64 x <= int64 y end.

(** What LLVM documents of the analyses. *)
Record evolution_ok : Prop := {
  ev_value : forall v env, denote (getSCEV v) env = wrap64 (env v);
  ev_minus : forall x y s env, getMinusSCEV x y = Some s -> getTypeOf s = 64 /\ denote s env = wrap64 (denote x env - denote y env);
  ev_constant : forall n env, denote (getConstant 64 n) env = wrap64 n;
  ev_add : forall x y env, denote (getAddExpr x y) env = wrap64 (denote x env + denote y env);
  ev_extend : forall x env, denote (getTruncateOrZeroExtend x 64) env = wrap64 (denote x env);
  ev_known : forall p x y i env, isKnownPredicateAt p x y i = true -> at_ i env -> holdsOf p (denote x env) (denote y env);
  ev_strip : forall p env, wrap64 (env p) = wrap64 (env (fst (stripConstantOffsets p)) + snd (stripConstantOffsets p))
}.

Context (Hok : evolution_ok).

(** What the first loop of [expandGuards] stores. *)
Definition based (a : Access) : Prop :=
  a_base a = None \/ (a_base a = Some (fst (stripConstantOffsets (a_pointer a))) /\ a_offset a = snd (stripConstantOffsets (a_pointer a))).

(** The access's bytes. *)
Definition lengthOf (a : Access) (env : nat -> Z) : Z :=
  match a_length a with Some v => wrap64 (env v) | None => a_width a end.

Lemma insideAt_spec o offset width : insideAt o offset width = true ->
  exists size, exactSize o = Some size /\ 0 <= offset /\ offset + width <= size.
Proof.
  unfold insideAt. destruct (exactSize o) as [size|]; [|done]. intros [[H1%Z.leb_le H2%Z.leb_le]%andb_true_iff H3%Z.leb_le]%andb_true_iff.
  exists size. split; [done|]. lia.
Qed.

Lemma known_fits offset end_ size i env x n :
  isKnownPredicateAt SGE offset (getConstant 64 0) i && isKnownPredicateAt SLE end_ (getConstant 64 size) i = true ->
  at_ i env -> denote offset env = wrap64 x -> denote end_ env = wrap64 (x + n) ->
  - 2 ^ 63 <= x -> x + n < 2 ^ 63 -> 0 <= n -> 0 <= size < 2 ^ 63 -> 0 <= x /\ x + n <= size.
Proof.
  intros [Hg Hl]%andb_true_iff Hat Ho He Hx Hn Hn0 Hs. apply (ev_known Hok) with (env := env) in Hg, Hl; try done. cbn in Hg, Hl.
  rewrite (ev_constant Hok), Ho in Hg. rewrite (ev_constant Hok), He in Hl.
  assert (Hi : forall z, - 2 ^ 63 <= z < 2 ^ 63 -> int64 (wrap64 z) = z).
  { intros z Hz. unfold int64, wrap64. rewrite Z.add_mod_idemp_l by lia. fold (int64 z). by apply int64_small. }
  rewrite !Hi in Hg by lia. rewrite !Hi in Hl by lia. lia.
Qed.

(** Where scalar evolution knows, the access is inside. *)
Lemma scev_sound a o env x size :
  scevInside a o size = true -> at_ (a_marker a) env ->
  wrap64 (env (a_pointer a)) = wrap64 (env o + x) -> - 2 ^ 63 <= x -> x + lengthOf a env < 2 ^ 63 ->
  0 <= a_width a -> 0 <= size < 2 ^ 63 -> 0 <= x /\ x + lengthOf a env <= size.
Proof.
  intros Hin Hat Hp Hx Hn Hw Hsize. unfold scevInside in Hin. destruct (isSCEVable (a_pointer a)); [cbn [negb] in Hin|done].
  destruct (getMinusSCEV (getSCEV (a_pointer a)) (getSCEV o)) as [offset|] eqn:Em; [|done].
  destruct (ev_minus Hok _ _ _ env Em) as [Et Ed]. rewrite !(ev_value Hok), Hp in Ed. rewrite Et in Hin.
  assert (Hd : denote offset env = wrap64 x)
    by (rewrite Ed; unfold wrap64; rewrite Zminus_mod_idemp_l, Zminus_mod_idemp_r; f_equal; lia).
  assert (Hadd : forall y n, denote y env = wrap64 n -> denote (getAddExpr offset y) env = wrap64 (x + n)).
  { intros y n Hy. rewrite (ev_add Hok), Hd, Hy. unfold wrap64. by rewrite Z.add_mod_idemp_l, Z.add_mod_idemp_r by lia. }
  unfold lengthOf in *. destruct (a_length a) as [v|].
  - destruct (isSCEVable v); [cbn [negb] in Hin|done]. destruct (isKnownPredicateAt ULE _ _ _); [cbn [negb] in Hin|done].
    eapply known_fits; [exact Hin|done|done| |done|done| |done].
    + rewrite (Hadd _ (wrap64 (env v))); [done|]. rewrite (ev_extend Hok), (ev_value Hok). unfold wrap64. by rewrite Z.mod_mod.
    + unfold wrap64. apply Z.mod_pos_bound. lia.
  - destruct (size <? a_width a); [done|]. eapply known_fits; [exact Hin|done|done| |done|done|done|done].
    rewrite (Hadd _ (a_width a)); [done|]. by rewrite (ev_constant Hok).
Qed.

(** The distance, from the base and the offset. *)
Lemma based_distance a o env x :
  based a -> a_base a = Some o -> wrap64 (env (a_pointer a)) = wrap64 (env o + x) ->
  - 2 ^ 63 <= x < 2 ^ 63 -> - 2 ^ 63 <= a_offset a < 2 ^ 63 -> x = a_offset a.
Proof.
  intros [Hb|[Hb Hof]] Eb Hp Hx Hoff; [congruence|]. rewrite Eb in Hb. injection Hb as Hb.
  pose proof (ev_strip Hok (a_pointer a) env) as Hs. rewrite <- Hb, <- Hof, Hp in Hs.
  apply (f_equal (fun z => int64 (wrap64 (z - env o)))) in Hs. unfold wrap64 in Hs. rewrite !Zminus_mod_idemp_l in Hs.
  replace (env o + x - env o) with x in Hs by lia. replace (env o + a_offset a - env o) with (a_offset a) in Hs by lia.
  unfold int64 in Hs. rewrite !Z.add_mod_idemp_l in Hs by lia. fold (int64 x) (int64 (a_offset a)) in Hs.
  by rewrite !int64_small in Hs by lia.
Qed.

(** Rule 6.1: an access it finds inside its object is inside it whenever it
    runs: it starts at a distance from the object's start that is not negative
    and ends at most at the object's end, unless the distance and the length
    together reach around 63 bits; and a local is in scope. *)
Theorem inside_sound a o env x :
  inBounds f a = true -> a_object a = Some o -> based a -> at_ (a_marker a) env ->
  wrap64 (env (a_pointer a)) = wrap64 (env o + x) -> - 2 ^ 63 <= x -> x + lengthOf a env < 2 ^ 63 ->
  - 2 ^ 63 <= a_offset a < 2 ^ 63 -> 0 <= a_width a -> (forall size, exactSize (objectOf o) = Some size -> 0 <= size < 2 ^ 63) ->
  (exists size, exactSize (objectOf o) = Some size /\ 0 <= x /\ x + lengthOf a env <= size)
  /\ forall b k, position f (a_marker a) = Some (b, k) ->
       match objectOf o with AllocaInst _ _ => mayBeOutOfScope f o b k = false | _ => True end.
Proof.
  intros Hin Ho Hbase Hat Hp Hx Hn Hoff Hw Hsize. unfold inBounds in Hin. rewrite Ho in Hin.
  destruct (bool_decide (a_kind a = KString)); [done|].
  set (dead := match objectOf o, position f (a_marker a) with AllocaInst _ _, Some (b, k) => mayBeOutOfScope f o b k | _, _ => false end) in Hin.
  destruct dead eqn:Edead; [done|]. split.
  2:{ intros b k Hpos. unfold dead in Edead. rewrite Hpos in Edead. by destruct (objectOf o). }
  destruct (exactSize (objectOf o)) as [size|] eqn:Es; [|done]. exists size. split; [done|].
  destruct (bool_decide (a_base a = Some o) && bool_decide (a_length a = None)) eqn:Eb; [|by apply (scev_sound a o env x size); auto].
  apply andb_true_iff in Eb as [Eb%bool_decide_eq_true El%bool_decide_eq_true].
  apply insideAt_spec in Hin as (size' & Es' & H1 & H2). rewrite Es in Es'. injection Es' as <-.
  unfold lengthOf in *. rewrite El in *. rewrite (based_distance a o env x Hbase Eb Hp) by lia. lia.
Qed.
End Inside.

(** ** Addresses that escape *)

Section Escaping.
Context (uses : nat -> list use).

Definition derives (v v' : nat) : Prop := DerivedUse v' ∈ uses v.

(** A use that lets the address out of the function's own accesses. *)
Definition letsOut (u : use) : bool :=
  match u with
  | DerivedUse _ | ReadUse => false
  | StoreUse stored => stored
  | RmwUse operand => operand
  | ExchangeUse pointer => negb pointer
  | CallUse marker harmless => negb (marker || harmless)
  | OtherUse => true
  end.

Lemma usesEscape_spec us : forall work seen,
  match usesEscape us work seen with
  | None => Exists (fun u => letsOut u = true) us
  | Some (work', seen') =>
    Forall (fun u => letsOut u = false) us
    /\ (forall v, v ∈ seen' <-> v ∈ seen \/ DerivedUse v ∈ us)
    /\ (forall v, v ∈ work' <-> v ∈ work \/ (DerivedUse v ∈ us /\ v ∉ seen))
    /\ (length work' + size seen = length work + size seen')%nat
  end.
Proof.
  induction us as [|u us IH]; intros work seen; [cbn; split_and!; set_solver|].
  assert (Hskip : letsOut u = false -> (forall v, u <> DerivedUse v) ->
    match usesEscape us work seen with
    | None => Exists (fun u => letsOut u = true) (u :: us)
    | Some (work', seen') =>
      Forall (fun u => letsOut u = false) (u :: us)
      /\ (forall v, v ∈ seen' <-> v ∈ seen \/ DerivedUse v ∈ u :: us)
      /\ (forall v, v ∈ work' <-> v ∈ work \/ (DerivedUse v ∈ u :: us /\ v ∉ seen))
      /\ (length work' + size seen = length work + size seen')%nat
    end).
  { intros Hu Hne. specialize (IH work seen). destruct (usesEscape us work seen) as [[work' seen']|]; [|by apply Exists_cons_tl].
    destruct IH as (I1 & I2 & I3 & I4). split_and!; try done; [by constructor| |].
    - intros v. rewrite I2, elem_of_cons. specialize (Hne v). intuition congruence.
    - intros v. rewrite I3, elem_of_cons. specialize (Hne v). intuition congruence. }
  destruct u as [v| |[]|[]|[]|[] []|]; cbn [usesEscape]; try (by apply Hskip); try (by apply Exists_cons_hd). clear Hskip.
  case_bool_decide as Hv.
  - specialize (IH work seen). destruct (usesEscape us work seen) as [[work' seen']|]; [|by apply Exists_cons_tl].
    destruct IH as (I1 & I2 & I3 & I4). split_and!; try done; [by constructor| |].
    + intros v'. rewrite I2, elem_of_cons. split; [tauto|]. intros [?|[[= ->]|?]]; auto.
    + intros v'. rewrite I3, elem_of_cons. split; [tauto|]. intros [?|[[[= ->]|?] ?]]; auto. done.
  - specialize (IH (v :: work) ({[v]} ∪ seen)). destruct (usesEscape us (v :: work) ({[v]} ∪ seen)) as [[work' seen']|]; [|by apply Exists_cons_tl].
    destruct IH as (I1 & I2 & I3 & I4). split_and!; [by constructor| | |].
    + intros v'. rewrite I2, elem_of_union, elem_of_singleton, elem_of_cons. split.
      * intros [[->|?]|?]; auto.
      * intros [?|[[= ->]|?]]; auto.
    + intros v'. rewrite I3, elem_of_union, elem_of_singleton, !elem_of_cons. destruct (decide (v' = v)) as [->|Hne].
      * split; auto.
      * split; [intros [[?|?]|[? ?]]; tauto|]. intros [?|[[[= ?]|?] ?]]; tauto.
    + rewrite size_union, size_singleton in I4 by set_solver. cbn in I4. lia.
Qed.

(** Whenever a value is taken. *)
Record tracing (alloca : nat) (work : list nat) (seen : gset nat) : Prop := {
  tr_seen : forall v, v ∈ seen -> rtc derives alloca v;
  tr_work : forall v, v ∈ work -> v ∈ seen;
  tr_done : forall v, v ∈ seen -> v ∈ work \/ (Forall (fun u => letsOut u = false) (uses v) /\ forall v', derives v v' -> v' ∈ seen);
  tr_alloca : alloca ∈ seen
}.

Lemma tracing_step alloca v work seen :
  tracing alloca (v :: work) seen ->
  match usesEscape (uses v) work seen with
  | None => exists v, rtc derives alloca v /\ Exists (fun u => letsOut u = true) (uses v)
  | Some (work', seen') => tracing alloca work' seen'
  end.
Proof.
  intros [H1 H2 H3 H4]. pose proof (usesEscape_spec (uses v) work seen) as Hu. assert (Hv : v ∈ seen) by (apply H2; set_solver).
  destruct (usesEscape (uses v) work seen) as [[work' seen']|]; [|exists v; auto]. destruct Hu as (U1 & U2 & U3 & _). split.
  - intros x Hx. apply U2 in Hx as [Hx|Hx]; [by apply H1|]. eapply rtc_r; [by apply H1|done].
  - intros x Hx. apply U2. apply U3 in Hx as [Hx|[Hx _]]; [|by right]. left. apply H2. set_solver.
  - intros x Hx. rewrite U3. destruct (decide (x ∈ seen)) as [Hs|Hs].
    + destruct (decide (x = v)) as [->|Hne].
      * right. split; [done|]. intros x' Hx'. apply U2. by right.
      * destruct (H3 x Hs) as [Hw|[Hf Hd]]; [left; left; set_solver|]. right. split; [done|]. intros x' Hx'. apply U2. left. by apply Hd.
    + left. right. split; [|done]. apply U2 in Hx as [?|?]; done.
  - apply U2. by left.
Qed.

(** The search for an escaping use ends, and it answers yes exactly when
    some pointer derived from the alloca, through any number of
    [getelementptr]s, casts, phis and selects, has a use that lets it out. *)
Theorem escapes_exact values alloca :
  (alloca < values)%nat -> (forall v v', derives v v' -> (v' < values)%nat) ->
  exists b, escapes uses values alloca = Some b
            /\ (b = true <-> exists v, rtc derives alloca v /\ Exists (fun u => letsOut u = true) (uses v)).
Proof.
  intros Ha Hd. unfold escapes.
  assert (Hbound : forall seen : gset nat, (forall v, v ∈ seen -> rtc derives alloca v) -> (size seen <= values)%nat).
  { intros seen Hs. transitivity (size (set_seq 0 values : gset nat)); [|by rewrite size_set_seq].
    apply subseteq_size. intros v Hv. apply elem_of_set_seq. split; [lia|]. cbn. destruct (rtc_inv_r _ _ (Hs v Hv)) as [<-|(u & _ & Hu)]; [done|].
    by eapply Hd. }
  assert (Hgen : forall fuel work seen, tracing alloca work seen -> (length work + (values - size seen) < fuel)%nat ->
    exists b, escapesFrom uses fuel work seen = Some b
              /\ (b = true <-> exists v, rtc derives alloca v /\ Exists (fun u => letsOut u = true) (uses v))).
  { induction fuel as [|fuel IH]; intros work seen Ht Hm; [lia|]. cbn [escapesFrom]. destruct work as [|v work].
    - exists false. split; [done|]. split; [done|]. intros (v & Hr & Hex). exfalso. destruct Ht as [H1 H2 H3 H4].
      assert (Hv : v ∈ seen).
      { clear Hex. revert v Hr. apply rtc_ind_r; [done|]. intros y z _ Hyz Hy. destruct (H3 y Hy) as [Hw|[_ Hall]]; [set_solver|by apply Hall]. }
      destruct (H3 v Hv) as [Hw|[Hf _]]; [set_solver|]. apply Exists_exists in Hex as (u & Hu & Hl).
      rewrite List.Forall_forall in Hf. rewrite Hf in Hl; done.
    - pose proof (tracing_step alloca v work seen Ht) as Hs. pose proof (usesEscape_spec (uses v) work seen) as Hu.
      destruct (usesEscape (uses v) work seen) as [[work' seen']|]; [|by exists true].
      destruct Hu as (_ & _ & _ & Hlen). apply IH; [done|]. pose proof (Hbound seen' (tr_seen _ _ _ Hs)).
      pose proof (Hbound seen (tr_seen _ _ _ Ht)). cbn in Hm. lia. }
  apply Hgen; [|rewrite size_singleton; cbn; lia].
  split; [|set_solver..]. intros v Hv. apply elem_of_singleton in Hv as ->. apply rtc_refl.
Qed.
End Escaping.
