(* ===== verification/GuardRoots.v ===== *)
(** * The pointer an address is computed from

    [lib/Frontend/GuardExpand.cpp], lines 486 to 694: the search for the root
    of an access, whose color the access must have, and which accesses get such
    a check.  The search goes through [getelementptr]s, casts, integer
    arithmetic, phis and selects, and remembers the roots of phis and selects
    that do not depend on the nodes it is in.

    What LLVM strips as a pointer cast is a parameter. *)

From stdpp Require Import gmap sets relations.
From S2P Require Import Prelude GuardRules.
Local Open Scope Z_scope.

(** ** Values *)

Inductive binaryOp := Add | Sub | Or | OtherOp.
#[export] Instance binaryOp_eq_dec : EqDecision binaryOp.
Proof. solve_decision. Defined.

Inductive definition :=
  | GEPOperator (pointer : nat)
  | IntToPtrInst (integer : nat)
  | PtrToIntOperator (pointer : nat)
  | BinaryOperator (op : binaryOp) (l r : nat)
  | PHINode (incoming : list nat)
  | SelectInst (ifTrue ifFalse : nat)
  | Constant_              (* null, undefined, poison, a constant expression *)
  | OtherValue.

Section Roots.
Context (def : nat -> definition) (stripPointerCasts : nat -> nat).

(** ** Integers *)

(** [IntegerPointer] *)
Record IntegerPointer := mkInteger { ip_pointer : option nat; ip_mixed : bool }.

(** [left] is how much deeper it may look: 9 at the start. *)
Fixpoint pointerUnder (left : nat) (integer : nat) : IntegerPointer :=
  match def integer with
  | PtrToIntOperator pointer => mkInteger (Some pointer) false
  | BinaryOperator op l r =>
    if bool_decide (op = OtherOp) then mkInteger None false
    else
      match left with
      | O => mkInteger None true
      | S left' =>
        let x := pointerUnder left' l in
        let y := pointerUnder left' r in
        if ip_mixed x || ip_mixed y
           || (bool_decide (is_Some (ip_pointer x)) && bool_decide (is_Some (ip_pointer y)))
           || (bool_decide (op = Sub) && bool_decide (is_Some (ip_pointer y)))
        then mkInteger None true
        else if bool_decide (is_Some (ip_pointer x)) then x else y
      end
  | _ => mkInteger None false
  end.

Definition MaxDepth : nat := 9.

(** ** Roots *)

(** [RootSearch], the cache with it. *)
Record search := mkSearch {
  sr_visiting : gset nat;
  sr_known : gmap nat (option nat);
  sr_cycles : nat;
  sr_budget : nat
}.

(** The [getelementptr]s, casts and integer arithmetic over a value. *)
Fixpoint stripRoot (steps : nat) (value : nat) : option nat :=
  match steps with
  | O => None
  | S steps' =>
    let value := stripPointerCasts value in
    match def value with
    | GEPOperator pointer => stripRoot steps' pointer
    | IntToPtrInst integer =>
      match pointerUnder MaxDepth integer with
      | mkInteger (Some pointer) false => stripRoot steps' pointer
      | _ => None
      end
    | _ => Some value
    end
  end.

Definition inputsOf (value : nat) : option (list nat) :=
  match def value with
  | PHINode incoming => Some incoming
  | SelectInst t f => Some [t; f]
  | _ => None
  end.

(** What the inputs looked through so far have: a common root, the last node
    an input came back to, whether two roots differ, whether one is computed
    from another. *)
Record gathered := mkGathered { g_common : option nat; g_cycle : option nat; g_differ : bool; g_derived : bool }.

Definition gather (g : gathered) (visiting : gset nat) (input root : nat) : gathered :=
  if bool_decide (root ∈ visiting) then mkGathered (g_common g) (Some root) (g_differ g) (g_derived g)
  else
    let derived := g_derived g || negb (bool_decide (root = stripPointerCasts input)) in
    match g_common g with
    | None => mkGathered (Some root) (g_cycle g) (g_differ g) derived
    | Some common => mkGathered (Some common) (g_cycle g) (g_differ g || negb (bool_decide (common = root))) derived
    end.

(** The inputs of a node, each looked through by [under]; [None] for the roots
    when one has none. *)
Fixpoint gatherInputs (under : nat -> search -> option (option nat * search)) (inputs : list nat) (g : gathered) (s : search)
  : option (option gathered * search) :=
  match inputs with
  | [] => Some (Some g, s)
  | input :: rest =>
    match under input s with
    | None => None
    | Some (None, s) => Some (None, s)
    | Some (Some root, s) => gatherInputs under rest (gather g (sr_visiting s) input root) s
    end
  end.

Definition rootOf (value : nat) (g : option gathered) : option nat :=
  match g with
  | None => None
  | Some g =>
    match g_common g with
    | None => g_cycle g
    | Some common => if negb (g_differ g) then Some common else if negb (g_derived g) then Some value else None
    end
  end.

Definition MaxSteps : nat := 64.

(** [None] when out of fuel; each node looked through takes of the budget. *)
Fixpoint rootUnder (fuel : nat) (value : nat) (s : search) : option (option nat * search) :=
  match fuel with
  | O => None
  | S fuel' =>
    match stripRoot MaxSteps value with
    | None => Some (None, s)
    | Some value =>
      match inputsOf value with
      | None => Some (Some value, s)
      | Some inputs =>
        if bool_decide (value ∈ sr_visiting s)
        then Some (Some value, mkSearch (sr_visiting s) (sr_known s) (S (sr_cycles s)) (sr_budget s))
        else
          match sr_known s !! value with
          | Some root => Some (root, s)
          | None =>
            match sr_budget s with
            | O => Some (None, s)
            | S budget =>
              let cycles := sr_cycles s in
              let s := mkSearch ({[value]} ∪ sr_visiting s) (sr_known s) cycles budget in
              match gatherInputs (rootUnder fuel') inputs (mkGathered None None false false) s with
              | None => None
              | Some (g, s) =>
                let root := rootOf value g in
                let known := if (sr_cycles s =? cycles)%nat && negb (sr_budget s =? 0)%nat
                             then <[value := root]> (sr_known s) else sr_known s in
                Some (root, mkSearch (sr_visiting s ∖ {[value]}) known (sr_cycles s) (sr_budget s))
              end
            end
          end
      end
    end
  end.

Definition Budget : nat := 256.

(** The root of [base], and the cache after it; [None] for no fuel, which does
    not happen. *)
Definition colorRoot (base : nat) (cache : gmap nat (option nat)) : option (option nat * gmap nat (option nat)) :=
  match def base with
  | GEPOperator _ | IntToPtrInst _ =>
    match rootUnder (S Budget) base (mkSearch ∅ cache 0 Budget) with
    | None => None
    | Some (root, s) =>
      let root := match root with
                  | Some value => match def value with Constant_ | IntToPtrInst _ => None | _ => Some value end
                  | None => None
                  end in
      Some (root, sr_known s)
    end
  | _ => Some (None, cache)
  end.
End Roots.

(** ** Accesses whose color is checked *)

(** What scalar evolution says of an access's distance from a root: the start
    and the step of an affine recurrence, those that are constants. *)
Record recurrence := mkRecurrence { rc_start : option Z; rc_step : option Z }.

Definition contiguousOffset (r : option recurrence) (anyStart : bool) : bool :=
  match r with
  | Some r =>
    match rc_step r with
    | Some step => (Z.abs step <=? 32) && (anyStart || match rc_start r with Some start => Z.abs start <=? 4096 | None => false end)
    | None => false
    end
  | None => false
  end.

(** A root's check: of which access, whether the frame's layout gives its
    color, whether it is a monitor. *)
Record rootCheck := mkRootCheck { rk_access : nat; rk_root : nat; rk_isAlloca : bool; rk_monitor : bool }.

Section Chosen.
Context (def : nat -> definition) (strip stripInBounds : nat -> nat) (isAlloca : nat -> bool).
Context (offsetFrom : nat -> nat -> option recurrence) (colors verify : bool).

Fixpoint rootChecks (accesses : list Access) (i : nat) (cache : gmap nat (option nat)) : option (list rootCheck) :=
  match accesses with
  | [] => Some []
  | a :: rest =>
    if negb (bool_decide (a_state a = SGuard)) || a_pruned a then rootChecks rest (S i) cache
    else
      let string := bool_decide (a_kind a = KString) in
      match (if string then Some (stripInBounds (a_pointer a)) else a_base a) with
      | None => rootChecks rest (S i) cache
      | Some base =>
        match colorRoot def strip base cache with
        | None => None
        | Some (None, cache) => rootChecks rest (S i) cache
        | Some (Some root, cache) =>
          let near := negb string && contiguousOffset (offsetFrom (a_pointer a) root) false in
          if near && negb verify then rootChecks rest (S i) cache
          else
            match rootChecks rest (S i) cache with
            | Some checks => Some (mkRootCheck i root (isAlloca root) near :: checks)
            | None => None
            end
        end
      end
  end.

(** [loadRootShadows], what it checks. *)
Definition loadRootShadows (accesses : list Access) : option (list rootCheck) :=
  if colors then rootChecks accesses 0 ∅ else Some [].
End Chosen.
