(* ===== verification/RootFacts.v ===== *)
(** * The root is where the address comes from

    The search of the file GuardRoots: it ends within its budget, and whatever
    way the value of an address came about, it came from the root it finds;
    what it remembers stays true.  The integer arithmetic it looks through adds
    to the pointer a distance no pointer decides. *)

From stdpp Require Import gmap sets relations.
From S2P Require Import Prelude GuardRules GuardRoots.
Local Open Scope Z_scope.

Lemma erase_insert (w : nat) (S : gset nat) : w ∉ S -> ({[w]} ∪ S) ∖ {[w]} = S.
Proof. set_solver. Qed.

Section Facts.
Context (def : nat -> definition) (strip : nat -> nat).
Context (Hstrip : forall v, strip (strip v) = strip v).

(** ** Where values come from *)

(** One step towards where a value comes from. *)
Inductive under : nat -> nat -> Prop :=
  | under_cast v : strip v <> v -> under v (strip v)
  | under_gep v p : strip v = v -> def v = GEPOperator p -> under v p
  | under_integer v i p : strip v = v -> def v = IntToPtrInst i -> pointerUnder def MaxDepth i = mkInteger (Some p) false -> under v p
  | under_input v l p : strip v = v -> inputsOf def v = Some l -> p ∈ l -> under v p.

(** Where a value comes from in the end. *)
Definition origin (v : nat) : Prop := forall w, ~ under v w.

(** Every way from [v] to where it comes from passes [P]. *)
Definition past (P : nat -> Prop) (x y : nat) : Prop := under x y /\ ~ P x.
Definition guarded (P : nat -> Prop) (v : nat) : Prop := forall o, rtc (past P) v o -> origin o -> P o.

Lemma guarded_weaken (P Q : nat -> Prop) v : (forall x, P x -> Q x) -> guarded P v -> guarded Q v.
Proof.
  intros HPQ Hg o Hr Ho. apply HPQ, Hg; [|done]. clear Hg Ho. induction Hr as [x|x y z [Hxy Hx] Hr IH]; [apply rtc_refl|].
  eapply rtc_l; [|exact IH]. split; [done|]. intros Hp. by apply Hx, HPQ.
Qed.

Lemma guarded_here (P : nat -> Prop) v : P v -> guarded P v.
Proof. intros Hp o Hr _. destruct Hr as [|x y z [_ Hx] _]; [done|]. by destruct Hx. Qed.

(** A way that passes nothing of [P] either never comes to [v] or leaves [v]
    for good. *)
Lemma last_visit (P : nat -> Prop) v y o :
  rtc (past P) y o -> rtc (past (fun x => P x \/ x = v)) y o
  \/ exists i, under v i /\ rtc (past (fun x => P x \/ x = v)) i o.
Proof.
  induction 1 as [x|x y z [Hxy Hx] Hr [IH|IH]]; [left; apply rtc_refl| |by right].
  destruct (decide (x = v)) as [->|Hne]; [right; by exists y|]. left. eapply rtc_l; [|exact IH]. split; [done|tauto].
Qed.

Lemma guarded_inputs (P : nat -> Prop) v :
  (exists i, under v i) -> (forall i, under v i -> guarded (fun x => P x \/ x = v) i) -> guarded P v.
Proof.
  intros [i0 Hi0] Hi o Hr Ho. assert (Hov : o <> v) by (intros ->; by apply (Ho i0)).
  destruct (last_visit P v v o Hr) as [Hr'|(i & Hvi & Hr')].
  - inversion Hr' as [|x y z [_ Hx] _]; subst; [done|]. destruct Hx. by right.
  - destruct (Hi i Hvi o Hr' Ho); [done|]. done.
Qed.

(** *** Straight steps *)

Definition straight (v : nat) : Prop := strip v <> v \/ inputsOf def v = None.

Lemma straight_det v w w' : straight v -> under v w -> under v w' -> w = w'.
Proof.
  intros Hs H1 H2. destruct Hs as [Hs|Hs]; inversion H1; inversion H2; subst; try congruence.
Qed.

Inductive line : nat -> nat -> Prop :=
  | line_refl v : line v v
  | line_step v w x : straight v -> under v w -> line w x -> line v x.

Lemma line_under v w : line v w -> rtc under v w.
Proof. induction 1; [apply rtc_refl|by eapply rtc_l]. Qed.

Lemma line_guarded (P : nat -> Prop) v w : line v w -> guarded P w -> guarded P v.
Proof.
  induction 1 as [v|v w x Hs Hvw Hl IH]; [done|]. intros Hg. specialize (IH Hg). intros o Hr Ho.
  inversion Hr as [|v0 y o0 [Hvy Hp] Hr']; subst; [by destruct (Ho w)|]. clear Hr. rename Hr' into Hr. rewrite (straight_det v y w Hs Hvy Hvw) in Hr. by apply IH.
Qed.

(** What is behind a line is behind its end, or on it. *)
Lemma line_reach v w s : line v w -> rtc under v s -> rtc under w s \/ (line v s /\ straight s).
Proof.
  induction 1 as [v|v w x Hs Hvw Hl IH]; intros Hr; [by left|]. inversion Hr as [|v0 y s0 Hvy Hr']; subst; clear Hr; [|rename Hr' into Hr].
  - right. split; [constructor|done].
  - rewrite (straight_det v y w Hs Hvy Hvw) in Hr. destruct (IH Hr) as [?|[? ?]]; [by left|]. right. split; [|done].
    by apply (line_step v w s).
Qed.

Lemma stripRoot_line steps : forall v w, stripRoot def strip steps v = Some w ->
  line v w /\ strip w = w /\ match def w with GEPOperator _ | IntToPtrInst _ => False | _ => True end.
Proof.
  induction steps as [|steps IH]; intros v w; [done|]. cbn [stripRoot].
  assert (Hcast : line v (strip v) /\ straight v \/ strip v = v).
  { destruct (decide (strip v = v)) as [|Hne]; [by right|]. left. split; [|by left].
    eapply line_step; [by left|by apply under_cast|constructor]. }
  assert (Hgo : forall p, under (strip v) p -> straight (strip v) -> line p w -> line v w).
  { intros p Hp Hs Hl. destruct (decide (strip v = v)) as [E|Hne]; [rewrite E in Hp, Hs; by apply (line_step v p)|].
    eapply line_step; [by left|by apply under_cast|]. by apply (line_step (strip v) p). }
  assert (Hend : match def (strip v) with GEPOperator _ | IntToPtrInst _ => False | _ => True end -> Some (strip v) = Some w ->
    line v w /\ strip w = w /\ match def w with GEPOperator _ | IntToPtrInst _ => False | _ => True end).
  { intros Hd [= <-]. split; [|by split]. destruct Hcast as [[Hl _]|E]; [exact Hl|rewrite E; constructor]. }
  destruct (def (strip v)) as [p|i|p|op l r|l|t e| |] eqn:Ed; try (exact (Hend I)).
  - intros Hw. destruct (IH p w Hw) as (Hl & Hd). split; [|done]. apply (Hgo p); [by apply under_gep| |done]. right. unfold inputsOf. by rewrite Ed.
  - destruct (pointerUnder def MaxDepth i) as [[p|] []] eqn:Ep; try done. intros Hw. destruct (IH p w Hw) as (Hl & Hd).
    split; [|done]. apply (Hgo p); [by eapply under_integer| |done]. right. unfold inputsOf. by rewrite Ed.
Qed.

(** ** The search *)

Definition inVisiting (s : search) (x : nat) : Prop := x ∈ sr_visiting s.

(** What is remembered is true, and of nodes that do not come back to
    themselves. *)
Definition known_ok (known : gmap nat (option nat)) : Prop :=
  forall n r, known !! n = Some (Some r) -> guarded (eq r) n /\ rtc under n r /\ ~ tc under n n.

(** The nodes being looked through: nodes with inputs, from which the search
    came. *)
Definition coming (s : search) (v : nat) : Prop :=
  forall x, x ∈ sr_visiting s -> strip x = x /\ is_Some (inputsOf def x) /\ rtc under x v.

(** What a search finds. *)
Definition found (v : nat) (s : search) (root : option nat) (s' : search) : Prop :=
  known_ok (sr_known s') /\ sr_visiting s' = sr_visiting s /\ (sr_cycles s <= sr_cycles s')%nat
  /\ match root with
     | Some r => guarded (fun x => x = r \/ x ∈ sr_visiting s) v /\ rtc under v r
                 /\ (sr_cycles s' = sr_cycles s -> forall x, x ∈ sr_visiting s -> ~ rtc under v x)
     | None => True
     end.

Lemma coming_line s v w : coming s v -> line v w -> coming s w.
Proof.
  intros Hc Hl x Hx. destruct (Hc x Hx) as (H1 & H2 & H3). split_and!; try done. etrans; [exact H3|by apply line_under].
Qed.

(** The end of the line decides for the line. *)
Lemma found_line v w s root s' : coming s v -> line v w -> found w s root s' -> found v s root s'.
Proof.
  intros Hc Hl (Hk & Hv & Hcy & Hr). split_and!; try done. destruct root as [r|]; [|done]. destruct Hr as (Hg & Hwr & Hn).
  split_and!; [by eapply line_guarded|etrans; [by apply line_under|done]|]. intros E x Hx Hvx.
  destruct (line_reach v w x Hl Hvx) as [Hwx|[_ Hs]]; [by apply (Hn E x Hx)|]. destruct (Hc x Hx) as (Hsx & Hix & _).
  destruct Hs as [Hs|Hs]; [done|]. rewrite Hs in Hix. by destruct Hix.
Qed.

Lemma node_inputs w l i : strip w = w -> inputsOf def w = Some l -> under w i -> i ∈ l.
Proof.
  intros Hs Hl Hu. unfold inputsOf in Hl. inversion Hu as [v Hne|v p Hv Hd|v n p Hv Hd Hp|v l' p Hv Hl' Hin]; subst; [done| | |].
  - rewrite Hd in Hl. discriminate Hl.
  - rewrite Hd in Hl. discriminate Hl.
  - unfold inputsOf in Hl'. rewrite Hl in Hl'. by injection Hl' as <-.
Qed.

(** A search of a leaf, and of a node looked through already. *)
Lemma found_leaf w s :
  known_ok (sr_known s) -> coming s w -> strip w = w -> inputsOf def w = None ->
  match def w with GEPOperator _ | IntToPtrInst _ => False | _ => True end -> found w s (Some w) s.
Proof.
  intros Hk Hc Hs Hi Hd. split_and!; [done|done|lia|apply guarded_here; by left|apply rtc_refl|]. intros _ x Hx Hwx.
  destruct (Hc x Hx) as (_ & Hix & _). inversion Hwx as [|v y z Hwy _]; subst; [rewrite Hi in Hix; by destruct Hix|].
  inversion Hwy as [v Hne|v p Hv Hdv|v n p Hv Hdv Hp|v l' p Hv Hl' Hin]; subst; try congruence; rewrite Hdv in Hd; done.
Qed.

Lemma found_visiting w s :
  known_ok (sr_known s) -> w ∈ sr_visiting s ->
  found w s (Some w) (mkSearch (sr_visiting s) (sr_known s) (S (sr_cycles s)) (sr_budget s)).
Proof.
  intros Hk Hw. split_and!; cbn; [done|done|lia|apply guarded_here; by left|apply rtc_refl|lia].
Qed.

(** One remembered. *)
Lemma found_known w s root :
  known_ok (sr_known s) -> coming s w -> w ∉ sr_visiting s -> sr_known s !! w = Some root -> found w s root s.
Proof.
  intros Hk Hc Hw Hn. split_and!; [done|done|lia|]. destruct root as [r|]; [|done]. destruct (Hk w r Hn) as (Hg & Hr & Hcy).
  split_and!; [|done|].
  - eapply guarded_weaken; [|exact Hg]. intros x <-. by left.
  - intros _ x Hx Hwx. destruct (Hc x Hx) as (_ & _ & Hxw). apply Hcy. destruct Hwx as [|w' y z Hwy Hyz]; [done|].
    eapply tc_rtc_r; [|exact Hxw]. eapply tc_rtc_r; [by apply tc_once|done].
Qed.

(** *** The inputs of a node *)

Record gathering (V : gset nat) (inputs : list nat) (g : gathered) : Prop := {
  ga_each : g_differ g = false -> forall i, i ∈ inputs -> guarded (fun x => g_common g = Some x \/ x ∈ V) i;
  ga_common : forall c, g_common g = Some c -> exists i, i ∈ inputs /\ rtc under i c;
  ga_cycle : forall c, g_cycle g = Some c -> exists i, i ∈ inputs /\ rtc under i c;
  ga_same : g_common g = None -> g_differ g = false
}.

Lemma gathering_start V : gathering V [] (mkGathered None None false false).
Proof. split; try done. intros _ i Hi. set_solver. Qed.

Lemma gathering_next V inputs g i r :
  gathering V inputs g -> guarded (fun x => x = r \/ x ∈ V) i -> rtc under i r -> gathering V (inputs ++ [i]) (gather strip g V i r).
Proof.
  intros [H1 H2 H3 H4] Hg Hr. unfold gather. destruct (decide (r ∈ V)) as [Hv|Hv];
    [rewrite (bool_decide_true (r ∈ V)) by done|rewrite (bool_decide_false (r ∈ V)) by done].
  - split; cbn; [|intros c Hc; destruct (H2 c Hc) as (j & Hj & Hjc); exists j; set_solver|intros c [= <-]; exists i; set_solver|done].
    intros Hd j Hj. apply elem_of_app in Hj as [Hj|Hj]; [by apply H1|]. apply list_elem_of_singleton in Hj as ->.
    eapply guarded_weaken; [|exact Hg]. intros x [->|Hx]; by right.
  - destruct (g_common g) as [c|] eqn:Ec; split; cbn; try done.
    + intros [Hd Hcr%negb_false_iff%bool_decide_eq_true]%orb_false_iff j Hj. subst r.
      apply elem_of_app in Hj as [Hj|Hj]; [by apply H1|]. apply list_elem_of_singleton in Hj as ->.
      eapply guarded_weaken; [|exact Hg]. intros x [->|Hx]; [by left|by right].
    + intros c' [= <-]. destruct (H2 c eq_refl) as (j & Hj & Hjc). exists j. set_solver.
    + intros c' Hc'. destruct (H3 c' Hc') as (j & Hj & Hjc). exists j. set_solver.
    + intros Hd j Hj. apply elem_of_app in Hj as [Hj|Hj].
      * eapply guarded_weaken; [|by apply H1]. intros x [?|?]; [congruence|by right].
      * apply list_elem_of_singleton in Hj as ->. eapply guarded_weaken; [|exact Hg]. intros x [->|Hx]; [by left|by right].
    + intros c [= <-]. exists i. set_solver.
    + intros c' Hc'. destruct (H3 c' Hc') as (j & Hj & Hjc). exists j. set_solver.
Qed.

Lemma gatherInputs_found (search_ : nat -> search -> option (option nat * search)) inputs :
  (forall i s root s', known_ok (sr_known s) -> coming s i -> search_ i s = Some (root, s') -> found i s root s') ->
  forall before g s g' s', known_ok (sr_known s) -> (forall i, i ∈ inputs -> coming s i) -> gathering (sr_visiting s) before g ->
  gatherInputs strip search_ inputs g s = Some (g', s') ->
  known_ok (sr_known s') /\ sr_visiting s' = sr_visiting s /\ (sr_cycles s <= sr_cycles s')%nat
  /\ match g' with
     | Some g' =>
       gathering (sr_visiting s) (before ++ inputs) g'
       /\ (sr_cycles s' = sr_cycles s -> forall i x, i ∈ inputs -> x ∈ sr_visiting s -> ~ rtc under i x)
     | None => True
     end.
Proof.
  intros Hsearch. induction inputs as [|i inputs IH]; intros before g s g' s' Hk Hc Hg Hrun; cbn [gatherInputs] in Hrun.
  { injection Hrun as <- <-. rewrite app_nil_r. split_and!; [done|done|lia|done|set_solver]. }
  destruct (search_ i s) as [[[root|] s1]|] eqn:Es; [| |done].
  2:{ injection Hrun as <- <-. destruct (Hsearch i s None s1 Hk (Hc i ltac:(set_solver)) Es) as (K & V & Cy & _). done. }
  destruct (Hsearch i s (Some root) s1 Hk (Hc i ltac:(set_solver)) Es) as (K & V & Cy & Gi & Ri & Ni).
  assert (Hc1 : forall j, j ∈ inputs -> coming s1 j) by (intros j Hj x Hx; rewrite V in Hx; by apply (Hc j ltac:(set_solver))).
  pose proof (gathering_next (sr_visiting s) before g i root Hg Gi Ri) as Hg1.
  rewrite V in Hrun. rewrite <- V in Hg1 at 1.
  destruct (IH (before ++ [i]) _ s1 g' s' K Hc1 Hg1 Hrun) as (K' & V' & Cy' & Hres). split_and!; [done|congruence|lia|].
  destruct g' as [g'|]; [|done]. destruct Hres as [Hg' Hn']. rewrite V in Hg', Hn'. split; [by rewrite <- app_assoc in Hg'|].
  intros E j x Hj Hx. apply elem_of_cons in Hj as [->|Hj]; [apply Ni; [lia|done]|apply Hn'; [lia|done|done]].
Qed.

(** Behind a node no node being looked through is behind, the root alone
    guards. *)
Lemma guarded_alone r w (S : gset nat) :
  guarded (fun x => x = r \/ x ∈ S) w -> (forall x, x ∈ S -> ~ rtc under w x) -> guarded (eq r) w.
Proof.
  intros Hg Hn o Hr Ho.
  assert (Hr' : rtc (past (fun x => x = r \/ x ∈ S)) w o).
  { clear Hg Ho. induction Hr as [x|x y z [Hxy Hx] Hr IH]; [apply rtc_refl|]. eapply rtc_l.
    - split; [exact Hxy|]. intros [->|Hs]; [by apply Hx|]. apply (Hn x Hs). apply rtc_refl.
    - apply IH. intros s Hs Hys. apply (Hn s Hs). by eapply rtc_l. }
  destruct (Hg o Hr' Ho) as [->|Hs]; [done|]. exfalso. apply (Hn o Hs). clear - Hr. induction Hr as [|x y z [Hxy _] Hr IH]; [apply rtc_refl|].
  by eapply rtc_l.
Qed.

(** The root of a node, from its inputs'. *)
Lemma rootOf_guarded w l g (S : gset nat) r :
  strip w = w -> inputsOf def w = Some l -> gathering ({[w]} ∪ S) l g -> rootOf w (Some g) = Some r ->
  guarded (fun x => x = r \/ x ∈ S) w /\ rtc under w r.
Proof.
  intros Hs Hl [H1 H2 H3 H4] Hr. cbn [rootOf] in Hr.
  assert (Hstep : forall i, i ∈ l -> under w i) by (intros i Hi; by apply (under_input w l)).
  assert (Hall : (forall c, g_common g = Some c -> c = r) -> g_differ g = false -> (exists i, i ∈ l /\ rtc under i r) ->
    guarded (fun x => x = r \/ x ∈ S) w /\ rtc under w r).
  { intros Hc Hd (i & Hi & Hir). split; [|by eapply rtc_l; [apply Hstep|]]. apply guarded_inputs; [exists i; by apply Hstep|].
    intros j Hj. apply (node_inputs w l j Hs Hl) in Hj. eapply guarded_weaken; [|by apply H1]. intros x [Hx|Hx]; [left; left; by apply Hc|].
    set_solver. }
  destruct (g_common g) as [c|] eqn:Ec.
  - destruct (g_differ g) eqn:Ed; cbn [negb] in Hr.
    + destruct (negb (g_derived g)); [|done]. injection Hr as <-. split; [apply guarded_here; by left|apply rtc_refl].
    + injection Hr as <-. apply Hall; [by intros c' [= <-]|done|by apply H2].
  - apply Hall; [done|by apply H4|by apply H3].
Qed.

(** A node no node being looked through depends on. *)
Lemma node_apart w l s :
  strip w = w -> inputsOf def w = Some l -> w ∉ s ->
  (forall i x, i ∈ l -> x ∈ {[w]} ∪ (s : gset nat) -> ~ rtc under i x) ->
  (forall x, x ∈ s -> ~ rtc under w x) /\ ~ tc under w w.
Proof.
  intros Hsw El Hv Hn.
  assert (Hno : forall x, x ∈ {[w]} ∪ s -> ~ tc under w x).
  { intros x Hx Ht. inversion Ht as [a b Hab|a b c Hab Hbc]; subst.
    - apply (Hn x x (node_inputs w l x Hsw El Hab) Hx). apply rtc_refl.
    - apply (Hn b x (node_inputs w l b Hsw El Hab) Hx). by apply tc_rtc. }
  split; [|by apply Hno, elem_of_union_l, elem_of_singleton_2]. intros x Hx Hwx. apply (Hno x); [by apply elem_of_union_r|].
  inversion Hwx as [|a b c Hab Hbc]; subst; [done|]. eapply tc_rtc_r; [by apply tc_once|done].
Qed.

(** What a node's search leaves. *)
Definition nodeResult (w : nat) (g : option gathered) (cycles : nat) (s : search) : option nat * search :=
  (rootOf w g,
   mkSearch (sr_visiting s ∖ {[w]})
     (if (sr_cycles s =? cycles)%nat && negb (sr_budget s =? 0)%nat then <[w := rootOf w g]> (sr_known s) else sr_known s)
     (sr_cycles s) (sr_budget s)).

Lemma found_node w l s g s2 :
  strip w = w -> inputsOf def w = Some l -> w ∉ sr_visiting s ->
  known_ok (sr_known s2) -> sr_visiting s2 = {[w]} ∪ sr_visiting s -> (sr_cycles s <= sr_cycles s2)%nat ->
  match g with
  | Some g => gathering ({[w]} ∪ sr_visiting s) l g
              /\ (sr_cycles s2 = sr_cycles s -> forall i x, i ∈ l -> x ∈ {[w]} ∪ sr_visiting s -> ~ rtc under i x)
  | None => True
  end ->
  found w s (fst (nodeResult w g (sr_cycles s) s2)) (snd (nodeResult w g (sr_cycles s) s2)).
Proof.
  intros Hsw El Hv K V Cy Hg.
  assert (Hroot : forall r, rootOf w g = Some r ->
    guarded (fun x => x = r \/ x ∈ sr_visiting s) w /\ rtc under w r
    /\ (sr_cycles s2 = sr_cycles s -> (forall x, x ∈ sr_visiting s -> ~ rtc under w x) /\ ~ tc under w w)).
  { intros r Hr. destruct g as [g|]; [|done]. destruct Hg as [Hg Hn]. destruct (rootOf_guarded w l g _ r Hsw El Hg Hr) as [Hgw Hwr].
    split_and!; try done. intros E. by apply (node_apart w l (sr_visiting s) Hsw El Hv), Hn. }
  unfold nodeResult. split_and!; cbn [fst snd sr_known sr_visiting sr_cycles]; [|rewrite V; by apply erase_insert|done|].
  - destruct ((sr_cycles s2 =? sr_cycles s)%nat && negb (sr_budget s2 =? 0)%nat) eqn:Ei; [|done].
    apply andb_true_iff in Ei as [Ei%Nat.eqb_eq _]. intros n r Hnr. destruct (decide (n = w)) as [->|Hne].
    + rewrite lookup_insert_eq in Hnr. injection Hnr as Hnr. destruct (Hroot r Hnr) as (Hg1 & Hr1 & Hc2). destruct (Hc2 Ei) as [Hn1 Ht].
      split_and!; try done. by eapply guarded_alone.
    + rewrite lookup_insert_ne in Hnr by done. by apply K.
  - destruct (rootOf w g) as [r|]; [|done]. destruct (Hroot r eq_refl) as (Hg1 & Hr1 & Hc2). split_and!; try done.
    intros E. by apply Hc2.
Qed.

Lemma found_none v s : known_ok (sr_known s) -> found v s None s.
Proof. intros Hk. split_and!; [done|done|lia|done]. Qed.

Definition budgetSpent (w budget : nat) (s : search) : search :=
  mkSearch ({[w]} ∪ sr_visiting s) (sr_known s) (sr_cycles s) budget.

(** One unfolding. *)
Lemma rootUnder_next fuel v s :
  rootUnder def strip (S fuel) v s =
  match stripRoot def strip MaxSteps v with
  | None => Some (None, s)
  | Some w =>
    match inputsOf def w with
    | None => Some (Some w, s)
    | Some l =>
      if bool_decide (w ∈ sr_visiting s) then Some (Some w, mkSearch (sr_visiting s) (sr_known s) (S (sr_cycles s)) (sr_budget s))
      else
        match sr_known s !! w with
        | Some root => Some (root, s)
        | None =>
          match sr_budget s with
          | O => Some (None, s)
          | S budget =>
            match gatherInputs strip (rootUnder def strip fuel) l (mkGathered None None false false) (budgetSpent w budget s) with
            | None => None
            | Some (g, s2) => Some (nodeResult w g (sr_cycles s) s2)
            end
          end
        end
    end
  end.
Proof. reflexivity. Qed.

Lemma coming_inputs w l s budget :
  coming s w -> strip w = w -> inputsOf def w = Some l -> forall i, i ∈ l -> coming (budgetSpent w budget s) i.
Proof.
  intros Hc Hsw El i Hi x Hx. assert (Hin : under w i) by by apply (under_input w l). cbn in Hx.
  apply elem_of_union in Hx as [->%elem_of_singleton|Hx].
  - split_and!; [done|by rewrite El|by apply rtc_once].
  - destruct (Hc x Hx) as (? & ? & ?). split_and!; try done. by eapply rtc_r.
Qed.

#[local] Opaque stripRoot MaxSteps rootUnder gatherInputs.

Lemma rootUnder_found fuel : forall v s root s',
  known_ok (sr_known s) -> coming s v -> rootUnder def strip fuel v s = Some (root, s') -> found v s root s'.
Proof.
  induction fuel as [|fuel IH]; intros v s root s' Hk Hc Hrun; [done|]. rewrite rootUnder_next in Hrun.
  destruct (stripRoot def strip MaxSteps v) as [w|] eqn:Ew; [|injection Hrun as <- <-; by apply found_none].
  destruct (stripRoot_line _ _ _ Ew) as (Hline & Hsw & Hdw). apply (found_line v w); [done|done|].
  pose proof (coming_line _ _ _ Hc Hline) as Hcw.
  destruct (inputsOf def w) as [l|] eqn:El; [|injection Hrun as <- <-; by apply found_leaf].
  destruct (decide (w ∈ sr_visiting s)) as [Hv|Hv];
    [rewrite (bool_decide_true (w ∈ _)) in Hrun by done|rewrite (bool_decide_false (w ∈ _)) in Hrun by done].
  { injection Hrun as <- <-. by apply found_visiting. }
  destruct (sr_known s !! w) as [known|] eqn:En; [injection Hrun as <- <-; by apply found_known|].
  destruct (sr_budget s) as [|budget]; [injection Hrun as <- <-; by apply found_none|].
  destruct (gatherInputs _ _ _ _ _) as [[g s2]|] eqn:Eg; [|done].
  destruct (gatherInputs_found (rootUnder def strip fuel) l IH [] _ (budgetSpent w budget s) g s2 Hk
    (coming_inputs w l s budget Hcw Hsw El) (gathering_start _) Eg) as (K & V & Cy & Hg).
  pose proof (found_node w l s g s2 Hsw El Hv K V Cy Hg) as Hf. injection Hrun as <- <-. exact Hf.
Qed.

(** *** The search ends *)

Lemma gatherInputs_ends (search_ : nat -> search -> option (option nat * search)) n inputs :
  (forall i s, (sr_budget s < n)%nat -> exists root s', search_ i s = Some (root, s') /\ (sr_budget s' <= sr_budget s)%nat) ->
  forall g s, (sr_budget s < n)%nat ->
  exists g' s', gatherInputs strip search_ inputs g s = Some (g', s') /\ (sr_budget s' <= sr_budget s)%nat.
Proof.
  intros Hsearch. induction inputs as [|i inputs IH]; intros g s Hb; cbn [gatherInputs]; [by exists (Some g), s|].
  destruct (Hsearch i s Hb) as (root & s1 & E & Hb1). rewrite E. destruct root as [root|]; [|by exists None, s1].
  destruct (IH (gather strip g (sr_visiting s1) i root) s1 ltac:(lia)) as (g' & s' & E' & Hb'). exists g', s'. split; [done|lia].
Qed.

Lemma rootUnder_ends fuel : forall v s, (sr_budget s < fuel)%nat ->
  exists root s', rootUnder def strip fuel v s = Some (root, s') /\ (sr_budget s' <= sr_budget s)%nat.
Proof.
  induction fuel as [|fuel IH]; intros v s Hb; [lia|]. rewrite rootUnder_next.
  destruct (stripRoot def strip MaxSteps v) as [w|]; [|by exists None, s].
  destruct (inputsOf def w) as [l|]; [|by exists (Some w), s]. case_bool_decide; [by eexists _, _|].
  destruct (sr_known s !! w) as [known|]; [by exists known, s|].
  destruct (sr_budget s) as [|budget] eqn:Eb; [exists None, s; split; [done|lia]|].
  destruct (gatherInputs_ends (rootUnder def strip fuel) fuel l IH (mkGathered None None false false)
    (budgetSpent w budget s)) as (g' & s' & E & Hb'); [cbn; lia|].
  rewrite E. eexists _, _. split; [done|]. cbn in *. lia.
Qed.

(** C21: the search for a root ends within its budget; the root it finds is
    where the address comes from, whichever way: each way back from the
    address through [getelementptr]s, casts, pointer arithmetic, phis and
    selects to an origin passes the root; and the same is true of all it has
    remembered for the next search. *)
Theorem root_sound base cache :
  known_ok cache ->
  exists root cache', colorRoot def strip base cache = Some (root, cache') /\ known_ok cache'
    /\ match root with Some r => guarded (eq r) base /\ rtc under base r | None => True end.
Proof.
  intros Hk. unfold colorRoot. set (result := match rootUnder def strip (S Budget) base (mkSearch ∅ cache 0 Budget) with
    | Some (root, s) => Some (match root with Some value => match def value with Constant_ | IntToPtrInst _ => None | _ => Some value end
                              | None => None end, sr_known s) | None => None end).
  assert (Hres : exists root cache', result = Some (root, cache') /\ known_ok cache'
    /\ match root with Some r => guarded (eq r) base /\ rtc under base r | None => True end).
  { unfold result. destruct (rootUnder_ends (S Budget) base (mkSearch ∅ cache 0 Budget)) as (root & s' & E & _); [cbn; lia|]. rewrite E.
    destruct (rootUnder_found (S Budget) base (mkSearch ∅ cache 0 Budget) root s' Hk ltac:(intros x Hx; set_solver) E) as (K & _ & _ & Hr).
    eexists _, _. split; [done|]. split; [done|]. destruct root as [r|]; [|done]. destruct Hr as (Hg & Hbr & _).
    assert (Hg' : guarded (eq r) base) by (apply (guarded_alone r base ∅); [exact Hg|set_solver]). by destruct (def r). }
  destruct (def base); try exact Hres; by exists None, cache.
Qed.

(** ** Distances *)

(** The values of a run: integers in 64 bits. *)
Record values_ok (pointer integer : nat -> Z) : Prop := {
  vo_cast : forall i p, def i = PtrToIntOperator p -> wrap64 (integer i) = wrap64 (pointer p);
  vo_add : forall i l r, def i = BinaryOperator Add l r -> wrap64 (integer i) = wrap64 (integer l + integer r);
  vo_sub : forall i l r, def i = BinaryOperator Sub l r -> wrap64 (integer i) = wrap64 (integer l - integer r);
  (** the operands of an [or] the optimizer made of an addition share no bit *)
  vo_or : forall i l r, def i = BinaryOperator Or l r -> wrap64 (integer i) = wrap64 (integer l + integer r)
}.

Lemma wrap_add a b c d : wrap64 a = wrap64 b -> wrap64 c = wrap64 d -> wrap64 (a + c) = wrap64 (b + d).
Proof. unfold wrap64. intros E1 E2. by rewrite Zplus_mod, E1, E2, <- Zplus_mod. Qed.

Lemma wrap_sub a b c d : wrap64 a = wrap64 b -> wrap64 c = wrap64 d -> wrap64 (a - c) = wrap64 (b - d).
Proof. unfold wrap64. intros E1 E2. by rewrite Zminus_mod, E1, E2, <- Zminus_mod. Qed.

(** The same distance in two runs. *)
Definition sameDistance (u : IntegerPointer) (x1 x2 : Z) (pointer1 pointer2 : nat -> Z) : Prop :=
  match u with
  | mkInteger (Some p) false => wrap64 (x1 - pointer1 p) = wrap64 (x2 - pointer2 p)
  | mkInteger None false => wrap64 x1 = wrap64 x2
  | _ => True
  end.

(** A sum's or a difference's operands. *)
Lemma sameDistance_binary op u w (l1 r1 l2 r2 x1 x2 : Z) pointer1 pointer2 :
  op <> OtherOp ->
  wrap64 x1 = wrap64 (if bool_decide (op = Sub) then l1 - r1 else l1 + r1) ->
  wrap64 x2 = wrap64 (if bool_decide (op = Sub) then l2 - r2 else l2 + r2) ->
  sameDistance u l1 l2 pointer1 pointer2 -> sameDistance w r1 r2 pointer1 pointer2 ->
  ~ (is_Some (ip_pointer u) /\ is_Some (ip_pointer w)) -> ~ (op = Sub /\ is_Some (ip_pointer w)) ->
  ip_mixed u = false -> ip_mixed w = false ->
  sameDistance (if bool_decide (is_Some (ip_pointer u)) then u else w) x1 x2 pointer1 pointer2.
Proof.
  intros Hop E1 E2 Hl Hr Hboth Hsub Mu Mw. destruct u as [[p|] mu], w as [[q|] mw]; cbn in Mu, Mw; subst mu mw; cbn in *.
  - destruct Hboth. eauto.
  - etrans; [by apply wrap_sub; [exact E1|reflexivity]|].
    symmetry. etrans; [by apply wrap_sub; [exact E2|reflexivity]|]. symmetry. case_bool_decide.
    + replace (l1 - r1 - pointer1 p) with (l1 - pointer1 p - r1) by lia. replace (l2 - r2 - pointer2 p) with (l2 - pointer2 p - r2) by lia.
      by apply wrap_sub.
    + replace (l1 + r1 - pointer1 p) with (l1 - pointer1 p + r1) by lia. replace (l2 + r2 - pointer2 p) with (l2 - pointer2 p + r2) by lia.
      by apply wrap_add.
  - rewrite (bool_decide_false (op = Sub)) in E1, E2 by (intros ->; apply Hsub; eauto).
    etrans; [by apply wrap_sub; [exact E1|reflexivity]|]. symmetry. etrans; [by apply wrap_sub; [exact E2|reflexivity]|]. symmetry.
    replace (l1 + r1 - pointer1 q) with (l1 + (r1 - pointer1 q)) by lia. replace (l2 + r2 - pointer2 q) with (l2 + (r2 - pointer2 q)) by lia.
    by apply wrap_add.
  - rewrite E1, E2. case_bool_decide; [by apply wrap_sub|by apply wrap_add].
Qed.

(** The integers that are no pointers and no sums are the same. *)
Definition sameLeaves (integer1 integer2 : nat -> Z) : Prop :=
  forall j, match def j with
            | PtrToIntOperator _ => True
            | BinaryOperator op _ _ => op = OtherOp -> integer1 j = integer2 j
            | _ => integer1 j = integer2 j
            end.

(** An integer an address is computed from lies at a distance from the one
    pointer under it that no pointer decides: in two runs whose other integers
    are the same, the distance is the same, wherever the pointers are. *)
Theorem distance_fixed left pointer1 integer1 pointer2 integer2 :
  values_ok pointer1 integer1 -> values_ok pointer2 integer2 -> sameLeaves integer1 integer2 ->
  forall i, sameDistance (pointerUnder def left i) (integer1 i) (integer2 i) pointer1 pointer2.
Proof.
  intros V1 V2 Hsame. assert (Hcast : forall i p, def i = PtrToIntOperator p -> sameDistance (mkInteger (Some p) false) (integer1 i) (integer2 i) pointer1 pointer2).
  { intros i p Ed. cbn. transitivity (wrap64 0); [|symmetry]; rewrite <- (Z.sub_diag (pointer1 p)) || rewrite <- (Z.sub_diag (pointer2 p)).
    - apply wrap_sub; [by apply (vo_cast _ _ V1 i p)|done].
    - replace (pointer1 p - pointer1 p) with (pointer2 p - pointer2 p) by lia. apply wrap_sub; [by apply (vo_cast _ _ V2 i p)|done]. }
  induction left as [|left IH]; intros i; pose proof (Hsame i) as Hi; cbn [pointerUnder].
  - destruct (def i) as [| |p|op l r| | | |] eqn:Ed; try (by cbn; rewrite Hi); [by apply Hcast|]. case_bool_decide; cbn; [by rewrite Hi|done].
  - destruct (def i) as [| |p|op l r| | | |] eqn:Ed; try (by cbn; rewrite Hi); [by apply Hcast|].
    case_bool_decide as Eop; [cbn; by rewrite Hi|]. destruct (_ || _) eqn:Em; [done|].
    apply orb_false_iff in Em as [[[Mx My]%orb_false_iff Hboth]%orb_false_iff Hsub].
    assert (Hbin : forall pointer integer, values_ok pointer integer ->
      wrap64 (integer i) = wrap64 (if bool_decide (op = Sub) then integer l - integer r else integer l + integer r)).
    { intros pt it V. case_bool_decide as Es; [subst op; by apply (vo_sub _ _ V)|].
      destruct op; [by apply (vo_add _ _ V)|done|by apply (vo_or _ _ V)|done]. }
    eapply (sameDistance_binary op); [done|by apply (Hbin pointer1)|by apply (Hbin pointer2)|apply IH|apply IH| | |done|done].
    + intros [Hu Hw]. by rewrite !bool_decide_true in Hboth.
    + intros [Ho Hw]. by rewrite !bool_decide_true in Hsub.
Qed.
End Facts.
