(* ===== verification/GuardLoops.v ===== *)
(** * Guards of whole loops

    [lib/Frontend/GuardLoops.cpp]: which innermost loops are unrolled, which
    are versioned and on which ranges, the test a versioned loop is entered
    through, and which guards either version keeps.  A range is what scalar
    evolution says of a marker's address over the loop; the test computes its
    bounds with the overflow flags of the intrinsics it is made of.

    Scalar evolution and LLVM's loops are parameters (the classes [Evolution]
    of GuardRules and [LoopEvolution]); so are the runtime's answers to
    [__weavec_rt_range_ok] and [__weavec_rt_color_ok] (the class [RangeTest],
    of which the file LoopRuns gives the runtime's instance). *)

From Stdlib Require Import String.
From stdpp Require Import gmap sets strings.
From S2P Require Import Prelude GuardRules GuardRoots.
From S2P Require Classes.
Local Open Scope Z_scope.

(** ** The ranges of a loop *)

Definition MarkerKeep : Z := Z.shiftl 1 16.

(** What LLVM says of a loop. *)
Class LoopEvolution `{Evolution} := {
  invariantValue : nat -> bool;
  isLoopInvariant : scev -> bool;
  affineRecurrence : scev -> option (scev * scev);   (* of this loop: the start, the step *)
  constantOf : scev -> option Z;                      (* signed *)
  isConstant : nat -> bool;
  isSafeToExpand : scev -> bool
}.

Section Ranges.
Context `{LE : LoopEvolution} (def : nat -> definition) (strip : nat -> nat).

(** [getSCEV] of an operand. *)
Definition scevOf (o : operand) : scev :=
  match o with ConstantInt n => getConstant 64 n | AValue v => getSCEV v end.

Record Ranged := mkRanged {
  rg_marker : nat;
  rg_start : scev;
  rg_step : Z;
  rg_bytes : scev;
  rg_nullBase : option nat;
  rg_root : option nat
}.

(** The root an address has before the loop, when it is no constant. *)
Definition rangeRoot (colors : bool) (pointer : nat) : option nat :=
  if colors then
    match colorRoot def strip pointer ∅ with
    | Some (Some root, _) => if isConstant root then None else Some root
    | _ => None
    end
  else None.

Definition invariantOr (v : option nat) : bool := match v with Some v => invariantValue v | None => true end.

(** A start at a constant offset near the root needs no color. *)
Definition nearRoot (start : scev) (root : nat) : bool :=
  isSCEVable root
  && match getMinusSCEV start (getSCEV root) ≫= constantOf with Some offset => Z.abs offset <=? 4096 | None => false end.

Definition rangeOf (colors : bool) (m : markerCall) : option Ranged :=
  if negb (bool_decide (mk_name m = MarkerGuard) || bool_decide (mk_name m = MarkerRange)) then None
  else
    match mk_flags m with
    | AValue _ => None
    | ConstantInt bits =>
      if negb (Z.land bits MarkerKeep =? 0) then None
      else
        let nullBase := if bool_decide (mk_name m = MarkerGuard) then mk_base m else None in
        if negb (invariantOr nullBase) then None
        else
          let bytes := getTruncateOrZeroExtend (scevOf (mk_length m)) 64 in
          if negb (isLoopInvariant bytes) then None
          else
            let at_ := getSCEV (mk_pointer m) in
            let root := rangeRoot colors (mk_pointer m) in
            if negb (invariantOr root) then None
            else if isLoopInvariant at_ then Some (mkRanged (mk_id m) at_ 0 bytes nullBase root)
            else
              match affineRecurrence at_ with
              | None => None
              | Some (start, stepScev) =>
                match constantOf stepScev with
                | None => None
                | Some step =>
                  if negb ((- 2 ^ 62 <=? step) && (step <? 2 ^ 62)) then None
                  else
                    let root := match root with Some r => if nearRoot start r then None else Some r | None => None end in
                    Some (mkRanged (mk_id m) start step bytes nullBase root)
                end
              end
    end.
End Ranges.

(** ** Loops *)

(** An instruction as the two decisions look at it. *)
Record loopInstruction := mkLoopInstruction {
  li_inst : instruction;
  li_isScope : bool;
  li_cannotDuplicate : bool;
  li_isConvergent : bool;
  li_isDebug : bool;
  li_usedOutside : bool        (* outside the loop, by no phi *)
}.

Definition isCall (op : opcode) : bool := match op with CallBase _ _ | IntrinsicInst _ _ => true | _ => false end.

Definition isMarker (i : loopInstruction) : bool := bool_decide (is_Some (markerOf (i_op (li_inst i)))).

(** A loop in simplified form; [lp_count] is how often its backedge is taken,
    if that can be computed. *)
Record loop `{Evolution} := mkLoop {
  lp_blocks : list (list loopInstruction);
  lp_markers : list markerCall;
  lp_smallTrip : Z;
  lp_hasLatch : bool;
  lp_hasExiting : bool;
  lp_hasPreheader : bool;
  lp_hasExit : bool;
  lp_dedicatedExits : bool;
  lp_count : option scev
}.

Section Loops.
Context `{LE : LoopEvolution}.

Definition MaxUnrollTrip : Z := 32.
Definition MaxUnrollSize : Z := 300.

(** The size of a loop to be unrolled, and whether a marker was met; [None]
    for one with an instruction that may not be copied. *)
Fixpoint unrollSize (l : list loopInstruction) (size : Z) (guarded : bool) : option (Z * bool) :=
  match l with
  | [] => Some (size, guarded)
  | i :: rest =>
    if isMarker i then unrollSize rest size true
    else if isCall (i_op (li_inst i)) && (li_isScope i || li_cannotDuplicate i || li_isConvergent i) then None
    else unrollSize rest (if li_isDebug i then size else Classes.wrap32 (size + 1)) guarded
  end.

Definition unrollSmall (l : loop) : bool :=
  let trip := lp_smallTrip l in
  if (trip <? 2) || (MaxUnrollTrip <? trip) || negb (lp_hasLatch l) || negb (lp_hasExiting l) then false
  else
    match unrollSize (concat (lp_blocks l)) 0 false with
    | None => false
    | Some (size, guarded) => guarded && (Classes.wrap32 (size * trip) <=? MaxUnrollSize)
    end.

Definition MaxBlocks : Z := 32.
Definition MaxInstructions : Z := 1000.
Definition MinTrip : Z := 16.

Fixpoint versionableBody (l : list loopInstruction) (instructions : Z) : bool :=
  match l with
  | [] => true
  | i :: rest =>
    let instructions := instructions + 1 in
    if (MaxInstructions <? instructions) || killsGuards (li_inst i) then false
    else if isCall (i_op (li_inst i)) && li_isScope i then false
    else if li_usedOutside i then false
    else versionableBody rest instructions
  end.

Definition versionable (l : loop) : bool :=
  if negb (lp_hasPreheader l) || negb (lp_hasExit l) || negb (lp_dedicatedExits l)
     || (MaxBlocks <? Z.of_nat (length (lp_blocks l))) then false
  else
    match lp_count l with
    | None => false
    | Some count =>
      match constantOf count with
      | Some n => if n mod 2 ^ getTypeOf count <? MinTrip - 1 then false else versionableBody (concat (lp_blocks l)) 0
      | None => versionableBody (concat (lp_blocks l)) 0
      end
    end.

(** What becomes of a loop. *)
Inductive loopOutcome := Unrolled | Unchanged | Versioned (ranges : list Ranged) (count : scev).

Definition versionLoops (def : nat -> definition) (strip : nat -> nat) (colors : bool) (l : loop) : loopOutcome :=
  if unrollSmall l then Unrolled
  else if negb (versionable l) then Unchanged
  else
    match lp_count l with
    | None => Unchanged
    | Some taken =>
      let count := getTruncateOrZeroExtend taken 64 in
      let ranges := List.filter (fun r => isSafeToExpand (rg_start r) && isSafeToExpand (rg_bytes r) && isSafeToExpand count)
                      (omap (rangeOf def strip colors) (lp_markers l)) in
      if bool_decide (ranges = []) then Unchanged else Versioned ranges count
    end.
End Loops.

(** ** The test before a versioned loop *)

(** The runtime's [__weavec_rt_range_ok] and [__weavec_rt_color_ok]. *)
Class RangeTest := { range_ok : Z -> Z -> bool; color_ok : Z -> Z -> bool }.

(** [llvm.umul.with.overflow] and its kind. *)
Definition mulOverflow (a b : Z) : Z * bool := (wrap64 (a * b), 2 ^ 64 <=? a * b).
Definition addOverflow (a b : Z) : Z * bool := (wrap64 (a + b), 2 ^ 64 <=? a + b).
Definition subOverflow (a b : Z) : Z * bool := (wrap64 (a - b), a <? b).

Definition magnitude (step : Z) : Z := if step <? 0 then sub64 0 (wrap64 step) else wrap64 step.

(** The lowest and the last first byte of a range, and whether they overflow. *)
Definition rangeEnds (first step trips : Z) : Z * Z * bool :=
  if step =? 0 then (first, first, false)
  else
    let '(span, over) := mulOverflow trips (magnitude step) in
    if 0 <? step then let '(last, over') := addOverflow first span in (first, last, over || over')
    else let '(low, over') := subOverflow first span in (low, first, over || over').

Section Tested.
Context `{LE : LoopEvolution} {R : RangeTest}.
Context (denote : scev -> (nat -> Z) -> Z).

(** The test of one range, in the values [env] before the loop. *)
Definition rangeAddressable (colors : bool) (env : nat -> Z) (trips : Z) (r : Ranged) : bool :=
  let first := wrap64 (denote (rg_start r) env) in
  let bytes := wrap64 (denote (rg_bytes r) env) in
  let '(low, last, over) := rangeEnds first (rg_step r) trips in
  let '(high, over') := addOverflow last bytes in
  negb (over || over') && range_ok low (sub64 high low)
  && match rg_nullBase r with Some base => negb (wrap64 (env base) =? 0) | None => true end
  && match rg_root r with Some root => if colors then color_ok (wrap64 (env root)) low else true | None => true end.

Definition rangesAddressable (colors : bool) (env : nat -> Z) (ranges : list Ranged) (count : scev) : bool :=
  forallb (rangeAddressable colors env (wrap64 (denote count env))) ranges.

(** [versionLoop]: whether the loop without the guards runs. *)
Definition runsUnguarded (colors : bool) (env : nat -> Z) (ranges : list Ranged) (count : scev) : bool :=
  (MinTrip - 1 <=? wrap64 (denote count env)) && rangesAddressable colors env ranges count.
End Tested.

(** The flags of a guard of the copy. *)
Definition keptFlags (flags : Z) : Z := Z.lor flags MarkerKeep.

Definition keptMarker (m : markerCall) : markerCall :=
  if bool_decide (mk_name m = MarkerGuard) || bool_decide (mk_name m = MarkerRange)
  then match mk_flags m with
       | ConstantInt flags => mkMarker (mk_id m) (mk_name m) (mk_pointer m) (mk_length m) (ConstantInt (keptFlags flags)) (mk_base m) (mk_row m)
       | AValue _ => m
       end
  else m.

(** The markers of the loop the guards are taken from, and of the copy. *)
Definition rangedMarkers `{Evolution} (ranges : list Ranged) (markers : list markerCall) : list markerCall :=
  List.filter (fun m => negb (bool_decide (mk_id m ∈ map rg_marker ranges))) markers.

Definition guardedMarkers (markers : list markerCall) : list markerCall := map keptMarker markers.
