(* ===== verification/LoopRuns.v ===== *)
(** * Runs of a versioned loop

    A loop entered through the test of its ranges (the file GuardLoops) runs
    and stops as the loop with every guard does: when the test holds, no guard
    it takes away (a null test, a test of bytes, one of a color) could have
    stopped the program, whatever the trip.  And the test's arithmetic: its overflow flags are raised exactly when a byte of
    some trip lies outside 64 bits. *)

From Stdlib Require Import String.
From stdpp Require Import gmap sets strings relations.
From S2P Require Import Prelude GuardRules GuardRoots GuardLoops.
From S2P Require Shadow Report Guard GuardEntry.
Local Open Scope Z_scope.

(** ** The bounds of a range *)

Lemma addOverflow_eq a b x over : 0 <= a < 2 ^ 64 -> 0 <= b < 2 ^ 64 -> addOverflow a b = (x, over) ->
  (over = true <-> 2 ^ 64 <= a + b) /\ (over = false -> x = a + b).
Proof.
  unfold addOverflow. intros Ha Hb [= <- <-]. rewrite Z.leb_le, Z.leb_gt. split; [done|]. intros Hlt. apply wrap64_small. lia.
Qed.

Lemma magnitude_eq step : - 2 ^ 62 <= step < 2 ^ 62 -> magnitude step = Z.abs step.
Proof.
  intros Hs. unfold magnitude, sub64, wrap64. destruct (Z.ltb_spec step 0).
  - rewrite Zminus_mod_idemp_r, Z.mod_small by lia. lia.
  - rewrite Z.mod_small by lia. lia.
Qed.

(** The bytes of trip [i]. *)
Definition tripBytes (first step bytes i a : Z) : Prop := first + i * step <= a < first + i * step + bytes.

(** What the ends are, and when they overflow. *)
Lemma rangeEnds_eq first step trips low last over :
  0 <= first < 2 ^ 64 -> - 2 ^ 62 <= step < 2 ^ 62 -> 0 <= trips < 2 ^ 64 ->
  rangeEnds first step trips = (low, last, over) ->
  (over = false <-> 0 <= first + trips * step < 2 ^ 64)
  /\ (over = false -> low = first + Z.min 0 (trips * step) /\ last = first + Z.max 0 (trips * step)).
Proof.
  intros Hf Hs Ht. unfold rangeEnds. destruct (Z.eqb_spec step 0) as [->|Hne]; [intros [= <- <- <-]; lia|].
  unfold mulOverflow, addOverflow, subOverflow. rewrite magnitude_eq by done.
  destruct (Z.ltb_spec 0 step); intros [= <- <- <-]; rewrite orb_false_iff.
  - rewrite Z.abs_eq by lia. rewrite !Z.leb_gt. unfold wrap64.
    assert (0 <= trips * step) by nia. destruct (Z.lt_ge_cases (trips * step) (2 ^ 64)).
    + rewrite (Z.mod_small (trips * step)) by lia. split; [lia|]. intros [_ ?]. rewrite Z.mod_small by lia. lia.
    + split; lia.
  - rewrite Z.abs_neq by lia. rewrite Z.leb_gt, Z.ltb_ge. unfold wrap64.
    assert (trips * - step = - (trips * step)) as -> by lia. assert (trips * step <= 0) by nia.
    destruct (Z.lt_ge_cases (- (trips * step)) (2 ^ 64)).
    + rewrite (Z.mod_small (- (trips * step))) by lia. split; [lia|]. intros [_ ?]. rewrite Z.mod_small by lia. lia.
    + split; lia.
Qed.

(** C20: the test's arithmetic of a range is exact: a flag is raised exactly
    when some trip's bytes leave the 64 bits, and else the interval tested is
    the smallest that holds the bytes of every trip. *)
Theorem range_bounds first step trips bytes low last high over over' :
  0 <= first < 2 ^ 64 -> - 2 ^ 62 <= step < 2 ^ 62 -> 0 <= trips < 2 ^ 64 -> 0 <= bytes < 2 ^ 64 ->
  rangeEnds first step trips = (low, last, over) -> addOverflow last bytes = (high, over') ->
  (over || over' = false <-> forall i, 0 <= i <= trips -> 0 <= first + i * step < 2 ^ 64 /\ first + i * step + bytes < 2 ^ 64)
  /\ (over || over' = false ->
      0 <= low <= high /\ sub64 high low = high - low
      /\ (forall i a, 0 <= i <= trips -> tripBytes first step bytes i a -> low <= a < high)
      /\ (0 < bytes -> exists i i', 0 <= i <= trips /\ 0 <= i' <= trips
                       /\ tripBytes first step bytes i low /\ tripBytes first step bytes i' (high - 1))).
Proof.
  intros Hf Hs Ht Hb He Ha. destruct (rangeEnds_eq first step trips low last over Hf Hs Ht He) as [Hover Hends].
  assert (Hmid : forall i, 0 <= i <= trips -> Z.min 0 (trips * step) <= i * step <= Z.max 0 (trips * step)) by (intros i Hi; nia).
  destruct over.
  - split; [|done]. split; [done|]. intros Hall. exfalso. assert (true = false); [|done]. apply Hover.
    destruct (Hall trips ltac:(lia)). lia.
  - destruct (Hends eq_refl) as [-> ->]. assert (Hl : 0 <= first + trips * step < 2 ^ 64) by (by apply Hover).
    destruct (addOverflow_eq (first + Z.max 0 (trips * step)) bytes high over' ltac:(lia) Hb Ha) as [Hov Hx]. cbn [orb]. split.
    + split.
      * intros ->. assert (~ 2 ^ 64 <= first + Z.max 0 (trips * step) + bytes) by (intros Hc; by apply Hov in Hc).
        intros i Hi. specialize (Hmid i Hi). lia.
      * intros Hall. destruct over'; [|done]. exfalso. pose proof (proj1 Hov eq_refl).
        pose proof (Hall 0 ltac:(lia)). pose proof (Hall trips ltac:(lia)). lia.
    + intros ->. rewrite (Hx eq_refl). assert (~ 2 ^ 64 <= first + Z.max 0 (trips * step) + bytes) by (intros Hc; by apply Hov in Hc).
      split_and!; [lia|lia| | |].
      * unfold sub64. apply wrap64_small. lia.
      * unfold tripBytes. intros i a Hi Hin. specialize (Hmid i Hi). lia.
      * intros Hpos. destruct (Z.le_gt_cases 0 (trips * step)).
        -- exists 0, trips. unfold tripBytes. lia.
        -- exists trips, 0. unfold tripBytes. lia.
Qed.

(** ** Runs *)

(** Where a loop is: the trip, the instruction about to run, what may be used,
    whether an address computed from a root passes the color test (the root
    first), the values. *)
Record point := mkPoint {
  pt_trip : Z;
  pt_at : loopInstruction;
  pt_usable : Z -> Prop;
  pt_colored : Z -> Z -> Prop;
  pt_vals : nat -> Z
}.

Inductive loopConfig := At (p : point) | StoppedAt (marker : nat).

Definition operandValue (o : operand) (vals : nat -> Z) : Z := match o with ConstantInt n => n | AValue v => vals v end.

(** The loop's own steps, [next], with the guards of [markers], of which
    [passes] says whether one lets the program on. *)
Inductive loopStep (passes : markerCall -> point -> Prop) (next : point -> point -> Prop) (markers : list markerCall)
  : loopConfig -> loopConfig -> Prop :=
  | loop_on p p' :
    (forall m, m ∈ markers -> mk_id m = i_id (li_inst (pt_at p)) -> passes m p) ->
    next p p' -> loopStep passes next markers (At p) (At p')
  | loop_stop p m :
    m ∈ markers -> mk_id m = i_id (li_inst (pt_at p)) -> ~ passes m p ->
    loopStep passes next markers (At p) (StoppedAt (mk_id m)).

Section Runs.
Context `{LE : LoopEvolution} {R : RangeTest} (denote : scev -> (nat -> Z) -> Z).
Context (def : nat -> definition) (strip : nat -> nat) (colors : bool).

(** What [stripAndAccumulateConstantOffsets] leaves of an address, when the
    offset fits; what scalar evolution says of its distance from a root; what
    the markers other than guards of accesses and ranges test. *)
Context (base : nat -> option nat) (offsetFrom : nat -> nat -> option recurrence) (otherPasses : markerCall -> point -> Prop).

(** The root [loadRootShadows] has a guard's address compared with. *)
Definition guardRoot (m : markerCall) : option nat :=
  if colors then
    match base (mk_pointer m) with
    | Some b =>
      match colorRoot def strip b ∅ with
      | Some (Some root, _) => if contiguousOffset (offsetFrom (mk_pointer m) root) false then None else Some root
      | _ => None
      end
    | None => None
    end
  else None.

(** [emitGuard] and [emitRange], with the color test before them, let the
    program on: the base of a guard of 1 to 113 bytes is not null, every byte
    may be used, and the first has the color of the root. *)
Definition passes (m : markerCall) (p : point) : Prop :=
  if bool_decide (mk_name m = MarkerGuard) || bool_decide (mk_name m = MarkerRange) then
    let vals := pt_vals p in
    (mk_name m = MarkerGuard -> forall q n, mk_base m = Some q -> mk_length m = ConstantInt n -> 0 < n <= 113 -> wrap64 (vals q) <> 0)
    /\ (forall j, 0 <= j < wrap64 (operandValue (mk_length m) vals) -> pt_usable p (wrap64 (vals (mk_pointer m) + j)))
    /\ (forall root, guardRoot m = Some root -> wrap64 (operandValue (mk_length m) vals) <> 0 ->
          pt_colored p (wrap64 (vals root)) (wrap64 (vals (mk_pointer m))))
  else otherPasses m p.

(** What LLVM and the loop's form promise of the runs from [entry]; [taken] is
    how often the backedge is taken. *)
Record loop_ok (l : loop) (next : point -> point -> Prop) (entry : point) (taken : Z) : Prop := {
  lk_inside : forall p, rtc next entry p -> pt_at p ∈ concat (lp_blocks l);
  lk_trip : forall p, rtc next entry p -> 0 <= pt_trip p <= taken;
  (** only an instruction that kills guards takes bytes away *)
  lk_grows : forall p p' x, next p p' -> killsGuards (li_inst (pt_at p)) = false -> pt_usable p x -> pt_usable p' x;
  (** nor changes the color of a byte that may be used; the root's is read before the loop *)
  lk_colors : forall p p' root a, next p p' -> killsGuards (li_inst (pt_at p)) = false ->
    pt_usable p a -> pt_colored p root a -> pt_colored p' root a;
  lk_count : forall count, lp_count l = Some count -> denote count (pt_vals entry) = taken;
  lk_value : forall v env, wrap64 (denote (getSCEV v) env) = wrap64 (env v);
  lk_constant : forall n env, denote (getConstant 64 n) env = wrap64 n;
  lk_extend : forall x env, denote (getTruncateOrZeroExtend x 64) env = wrap64 (denote x env);
  lk_invariant : forall x p, rtc next entry p -> isLoopInvariant x = true -> denote x (pt_vals p) = denote x (pt_vals entry);
  lk_invariantValue : forall v p, rtc next entry p -> invariantValue v = true -> pt_vals p v = pt_vals entry v;
  lk_constantValue : forall v p, rtc next entry p -> isConstant v = true -> pt_vals p v = pt_vals entry v;
  (** constant offsets are [getelementptr]s and casts, which a root is looked for through *)
  lk_base : forall m b root known, m ∈ lp_markers l -> base (mk_pointer m) = Some b -> colorRoot def strip b ∅ = Some (Some root, known) ->
    exists known', colorRoot def strip (mk_pointer m) ∅ = Some (Some root, known');
  lk_recurrence : forall x start step c p, rtc next entry p -> affineRecurrence x = Some (start, step) -> constantOf step = Some c ->
    wrap64 (denote x (pt_vals p)) = wrap64 (denote start (pt_vals entry) + pt_trip p * c)
}.

(** What good answers of the runtime mean: the bytes may be used; the address
    passes the color test, and with it every byte up to the first that may not
    be used: of what is kept apart by redzones, the bytes in a row are one
    object's. *)
Record range_test_ok (usable : Z -> Prop) (colored : Z -> Z -> Prop) : Prop := {
  rt_bytes : forall low n a, 0 <= low -> low + n <= 2 ^ 64 -> n < 2 ^ 64 -> range_ok low n = true -> low <= a < low + n -> usable a;
  rt_color : forall root low, color_ok root low = true -> colored root low;
  rt_next : forall root a, 0 <= a -> a + 1 < 2 ^ 64 -> usable a -> usable (a + 1) -> colored root a -> colored root (a + 1)
}.

Lemma colored_along usable colored root low n a :
  range_test_ok usable colored -> 0 <= low -> low + n <= 2 ^ 64 -> (forall x, low <= x < low + n -> usable x) ->
  colored root low -> low <= a < low + n -> colored root a.
Proof.
  intros Ht Hlow Hend Hu Hc Ha. assert (Hd : forall d, 0 <= d -> low + d < low + n -> colored root (low + d)).
  { apply (natlike_ind (fun d => low + d < low + n -> colored root (low + d))); [by rewrite Z.add_0_r|].
    intros d Hd IH Hlt. replace (low + Z.succ d) with (low + d + 1) by lia.
    apply (rt_next _ _ Ht); [lia|lia|apply Hu; lia|apply Hu; lia|apply IH; lia]. }
  replace a with (low + (a - low)) by lia. apply Hd; lia.
Qed.

Section Versioned.
Context (l : loop) (next : point -> point -> Prop) (entry : point) (taken : Z).
Context (Hok : loop_ok l next entry taken) (Hversionable : versionable l = true).
Context (Htest : range_test_ok (pt_usable entry) (pt_colored entry)).

Lemma versionable_lives (i : loopInstruction) : i ∈ concat (lp_blocks l) -> killsGuards (li_inst i) = false.
Proof.
  assert (Hbody : exists n, versionableBody (concat (lp_blocks l)) n = true).
  { unfold versionable in Hversionable. destruct (_ || _); [done|]. destruct (lp_count l) as [count|]; [|done].
    destruct (constantOf count); [destruct (_ <? _); [done|]|]; eauto. }
  destruct Hbody as [n Hb]. revert n Hb. generalize (concat (lp_blocks l)) as body. induction body as [|j body IH]; intros n Hb Hin; [set_solver|].
  cbn in Hb. destruct (killsGuards (li_inst j)) eqn:Ek; [rewrite orb_true_r in Hb; done|]. rewrite orb_false_r in Hb.
  destruct (_ <? _); [done|]. destruct (_ && _); [done|]. destruct (li_usedOutside j); [done|].
  apply list_elem_of_In in Hin as [->|Hin]; [done|]. apply list_elem_of_In in Hin. by eapply IH.
Qed.

Lemma usable_grows p x : rtc next entry p -> pt_usable entry x -> pt_usable p x.
Proof.
  intros Hr Hx. revert p Hr. apply (rtc_ind_r (fun p => pt_usable p x) entry); [done|]. intros p p' Hr Hn IH.
  eapply (lk_grows _ _ _ _ Hok); [exact Hn| |done]. apply versionable_lives, (lk_inside _ _ _ _ Hok p Hr).
Qed.

Lemma colored_stays p root a : rtc next entry p -> pt_usable entry a -> pt_colored entry root a -> pt_colored p root a.
Proof.
  intros Hr Hu Hc. revert p Hr. apply (rtc_ind_r (fun p => pt_colored p root a) entry); [done|]. intros p p' Hr Hn IH.
  eapply (lk_colors _ _ _ _ Hok); [exact Hn| |by apply usable_grows|done]. apply versionable_lives, (lk_inside _ _ _ _ Hok p Hr).
Qed.

(** What [rangeOf] answered. *)
Lemma rangeOf_some m r : rangeOf def strip colors m = Some r ->
  rg_marker r = mk_id m /\ invariantOr (rangeRoot def strip colors (mk_pointer m)) = true
  /\ rg_bytes r = getTruncateOrZeroExtend (scevOf (mk_length m)) 64 /\ isLoopInvariant (rg_bytes r) = true
  /\ rg_nullBase r = (if bool_decide (mk_name m = MarkerGuard) then mk_base m else None) /\ invariantOr (rg_nullBase r) = true
  /\ ((isLoopInvariant (getSCEV (mk_pointer m)) = true /\ rg_start r = getSCEV (mk_pointer m) /\ rg_step r = 0)
      \/ (- 2 ^ 62 <= rg_step r < 2 ^ 62
          /\ exists s, affineRecurrence (getSCEV (mk_pointer m)) = Some (rg_start r, s) /\ constantOf s = Some (rg_step r))).
Proof.
  unfold rangeOf. destruct (negb (bool_decide (mk_name m = MarkerGuard) || _)); [done|]. destruct (mk_flags m) as [bits|]; [|done].
  destruct (negb (Z.land _ _ =? 0)); [done|]. destruct (invariantOr (if bool_decide _ then _ else _)) eqn:En; [cbn [negb]|done].
  destruct (isLoopInvariant (getTruncateOrZeroExtend _ 64)) eqn:Eb; [cbn [negb]|done].
  destruct (invariantOr (rangeRoot def strip colors (mk_pointer m))) eqn:Er0; [cbn [negb]|done].
  destruct (isLoopInvariant (getSCEV (mk_pointer m))) eqn:Ei; [intros [= <-]; cbn; split_and!; try done; by left|].
  destruct (affineRecurrence _) as [[start s]|] eqn:Ea; [|done]. destruct (constantOf s) as [step|] eqn:Ec; [|done].
  destruct (_ && _) eqn:Er; [cbn [negb]|done]. intros [= <-]. apply andb_true_iff in Er as [Hlo%Z.leb_le Hhi%Z.ltb_lt].
  cbn. split_and!; try done. right. split; [lia|]. by exists s.
Qed.

Lemma rangeOf_guard m r : rangeOf def strip colors m = Some r ->
  bool_decide (mk_name m = MarkerGuard) || bool_decide (mk_name m = MarkerRange) = true.
Proof. unfold rangeOf. by destruct (_ || _). Qed.

(** The address in each trip. *)
Lemma range_address m r p : rangeOf def strip colors m = Some r -> rtc next entry p ->
  - 2 ^ 62 <= rg_step r < 2 ^ 62
  /\ wrap64 (pt_vals p (mk_pointer m)) = wrap64 (wrap64 (denote (rg_start r) (pt_vals entry)) + pt_trip p * rg_step r).
Proof.
  intros (_ & _ & _ & _ & _ & _ & Hstart)%rangeOf_some Hr. rewrite <- (lk_value _ _ _ _ Hok).
  assert (Hw : forall a b, wrap64 (wrap64 a + b) = wrap64 (a + b)) by (intros a b; unfold wrap64; by rewrite Zplus_mod_idemp_l).
  rewrite Hw. destruct Hstart as [(Hi & -> & ->)|(Hs & s & Ha & Hc)].
  - rewrite (lk_invariant _ _ _ _ Hok _ p Hr Hi). split; [lia|]. f_equal. lia.
  - split; [done|]. by apply (lk_recurrence _ _ _ _ Hok _ _ s).
Qed.

(** The length in each trip. *)
Lemma range_length m r p : rangeOf def strip colors m = Some r -> rtc next entry p ->
  wrap64 (operandValue (mk_length m) (pt_vals p)) = denote (rg_bytes r) (pt_vals entry).
Proof.
  intros (_ & _ & Hb & Hi & _)%rangeOf_some Hr. rewrite <- (lk_invariant _ _ _ _ Hok _ p Hr Hi), Hb, (lk_extend _ _ _ _ Hok).
  destruct (mk_length m) as [n|v]; cbn; [by rewrite (lk_constant _ _ _ _ Hok), (wrap64_small (wrap64 n)) by (apply Z.mod_pos_bound; lia)|].
  by rewrite (lk_value _ _ _ _ Hok).
Qed.

(** What the test of a range found: its lowest byte, and the end of its last. *)
Definition firstByte (r : Ranged) : Z := wrap64 (denote (rg_start r) (pt_vals entry)).
Definition lowest (r : Ranged) : Z := firstByte r + Z.min 0 (taken * rg_step r).
Definition highest (r : Ranged) : Z := firstByte r + Z.max 0 (taken * rg_step r) + wrap64 (denote (rg_bytes r) (pt_vals entry)).

Lemma range_tested r :
  - 2 ^ 62 <= rg_step r < 2 ^ 62 -> 0 <= taken < 2 ^ 64 -> rangeAddressable denote colors (pt_vals entry) taken r = true ->
  0 <= lowest r /\ highest r < 2 ^ 64 /\ range_ok (lowest r) (highest r - lowest r) = true
  /\ (forall q, rg_nullBase r = Some q -> wrap64 (pt_vals entry q) <> 0)
  /\ (forall root, colors = true -> rg_root r = Some root -> color_ok (wrap64 (pt_vals entry root)) (lowest r) = true).
Proof.
  intros Hs Ht. unfold rangeAddressable, lowest, highest. fold (firstByte r). set (bytes := wrap64 (denote (rg_bytes r) (pt_vals entry))).
  assert (Hf : 0 <= firstByte r < 2 ^ 64) by (apply Z.mod_pos_bound; lia). assert (Hb : 0 <= bytes < 2 ^ 64) by (apply Z.mod_pos_bound; lia).
  destruct (rangeEnds (firstByte r) (rg_step r) taken) as [[low last] over] eqn:Ee. destruct (addOverflow last bytes) as [high over'] eqn:Ea.
  intros [[[Hover%negb_true_iff Hrange]%andb_true_iff Hnn]%andb_true_iff Hcolor]%andb_true_iff.
  destruct (rangeEnds_eq (firstByte r) (rg_step r) taken low last over Hf Hs Ht Ee) as [Hov Hends].
  apply orb_false_iff in Hover as [-> ->]. destruct (Hends eq_refl) as [-> ->]. pose proof (proj1 Hov eq_refl) as Hend.
  destruct (addOverflow_eq (firstByte r + Z.max 0 (taken * rg_step r)) bytes high false ltac:(lia) Hb Ea) as [Hov' Hx]. specialize (Hx eq_refl).
  assert (Hnov : ~ 2 ^ 64 <= firstByte r + Z.max 0 (taken * rg_step r) + bytes) by (intros Hc; by apply Hov' in Hc).
  revert Hrange. unfold sub64. rewrite wrap64_small, Hx by lia. intros Hrange. split_and!; [lia|lia|done| |].
  - intros q Eq. rewrite Eq in Hnn. by apply negb_true_iff, Z.eqb_neq in Hnn.
  - intros root -> Er. by rewrite Er in Hcolor.
Qed.

(** A range the test leaves the color of out starts in its root's object: one
    whose root is a constant (a variable with static storage), or whose first
    byte is at a constant offset of at most 4096 from it. *)
Definition startsInside : Prop :=
  forall m r root, m ∈ lp_markers l -> rangeOf def strip colors m = Some r -> guardRoot m = Some root -> rg_root r <> Some root ->
    pt_colored entry (wrap64 (pt_vals entry root)) (lowest r).

Lemma guardRoot_known m root : m ∈ lp_markers l -> guardRoot m = Some root ->
  colors = true /\ exists known, colorRoot def strip (mk_pointer m) ∅ = Some (Some root, known).
Proof.
  intros Hm. unfold guardRoot. destruct colors; [|done]. destruct (base (mk_pointer m)) as [b|] eqn:Eb; [|done].
  destruct (colorRoot def strip b ∅) as [[[root'|] known]|] eqn:Ec; [|done..]. case_match; [done|]. intros [= <-]. split; [done|].
  by apply (lk_base _ _ _ _ Hok m b root' known).
Qed.

(** The root is there before the loop. *)
Lemma root_stays m r root p : m ∈ lp_markers l -> rangeOf def strip colors m = Some r -> guardRoot m = Some root ->
  rtc next entry p -> pt_vals p root = pt_vals entry root.
Proof.
  intros Hm (_ & Hinv & _)%rangeOf_some Hg Hr. destruct (guardRoot_known m root Hm Hg) as [-> [known Ek]].
  unfold rangeRoot in Hinv. rewrite Ek in Hinv. destruct (isConstant root) eqn:Ec; cbn [invariantOr] in Hinv.
  - by apply (lk_constantValue _ _ _ _ Hok).
  - by apply (lk_invariantValue _ _ _ _ Hok).
Qed.

Lemma range_passes m r p :
  startsInside -> m ∈ lp_markers l -> rangeOf def strip colors m = Some r -> rtc next entry p -> taken < 2 ^ 64 ->
  rangeAddressable denote colors (pt_vals entry) taken r = true -> passes m p.
Proof.
  intros Hinside Hin Hm Hr Ht Htrue. pose proof (rangeOf_some m r Hm) as (_ & _ & _ & _ & Hnull & Hinv & _).
  destruct (range_address m r p Hm Hr) as [Hstep Haddr]. pose proof (range_length m r p Hm Hr) as Hlen.
  pose proof (lk_trip _ _ _ _ Hok p Hr) as Htrip. pose proof (lk_trip _ _ _ _ Hok entry (rtc_refl _ _)) as Htrip0.
  destruct (range_tested r Hstep ltac:(lia) Htrue) as (Hlow & Hhigh & Hrange & Hnn & Hcolor). fold (firstByte r) in Haddr.
  assert (Hmid : Z.min 0 (taken * rg_step r) <= pt_trip p * rg_step r <= Z.max 0 (taken * rg_step r)) by nia.
  assert (Hww : wrap64 (denote (rg_bytes r) (pt_vals entry)) = wrap64 (operandValue (mk_length m) (pt_vals p)))
    by (rewrite <- Hlen; apply wrap64_small, Z.mod_pos_bound; lia).
  unfold highest in Hhigh. unfold lowest in Hlow. rewrite Hww in Hhigh.
  set (bytes := wrap64 (operandValue (mk_length m) (pt_vals p))) in *.
  assert (Ha : forall j, 0 <= j < bytes -> wrap64 (pt_vals p (mk_pointer m) + j) = firstByte r + pt_trip p * rg_step r + j).
  { intros j Hj. unfold wrap64. rewrite <- Zplus_mod_idemp_l. fold (wrap64 (pt_vals p (mk_pointer m))). rewrite Haddr. unfold wrap64.
    rewrite Zplus_mod_idemp_l, Z.mod_small by lia. done. }
  assert (Hu : forall x, lowest r <= x < lowest r + (highest r - lowest r) -> pt_usable entry x)
    by (intros x; apply (rt_bytes _ _ Htest); [unfold lowest|unfold lowest, highest..|done]; rewrite ?Hww; fold bytes; lia).
  assert (Hx : forall j, 0 <= j < bytes -> lowest r <= firstByte r + pt_trip p * rg_step r + j < lowest r + (highest r - lowest r))
    by (unfold lowest, highest; rewrite Hww; fold bytes; lia).
  unfold passes. rewrite (rangeOf_guard m r Hm). split_and!.
  - intros Hg q n Hq _ _. rewrite bool_decide_true, Hq in Hnull by done. rewrite Hnull in Hinv.
    rewrite (lk_invariantValue _ _ _ _ Hok q p Hr Hinv). by apply Hnn.
  - intros j Hj. fold bytes in Hj. rewrite Ha by done. apply usable_grows; [done|]. by apply Hu, Hx.
  - intros root Hg Hne. fold bytes in Hne. assert (Hpos : 0 <= 0 < bytes) by (pose proof (Z.mod_pos_bound (operandValue (mk_length m) (pt_vals p)) (2 ^ 64)); unfold bytes, wrap64 in *; lia).
    rewrite (root_stays m r root p Hin Hm Hg Hr). pose proof (Ha 0 Hpos) as Ha0. pose proof (Hx 0 Hpos) as Hx0.
    rewrite Z.add_0_r in Ha0. rewrite Ha0. apply colored_stays; [done|by apply Hu, Hx|].
    apply (colored_along (pt_usable entry) _ _ (lowest r) (highest r - lowest r)); [done|done|unfold lowest, highest; rewrite Hww; fold bytes; lia|done| |by specialize (Hx 0 Hpos); rewrite Z.add_0_r in Hx].
    destruct (decide (rg_root r = Some root)) as [E|E]; [|by apply (Hinside m r root)].
    apply (rt_color _ _ Htest), Hcolor; [|done]. by destruct (guardRoot_known m root Hin Hg).
Qed.

(** *** Two lists of guards *)

(** Guards that stop nothing [A] does not, and miss nothing it stops. *)
Definition weaker (A B : list markerCall) : Prop :=
  forall p, rtc next entry p ->
    (forall m, m ∈ B -> mk_id m = i_id (li_inst (pt_at p)) ->
       (forall m', m' ∈ A -> mk_id m' = i_id (li_inst (pt_at p)) -> passes m' p) -> passes m p)
    /\ (forall m, m ∈ A -> mk_id m = i_id (li_inst (pt_at p)) -> ~ passes m p ->
          exists m', m' ∈ B /\ mk_id m' = mk_id m /\ ~ passes m' p).

Lemma runs_along A B c : weaker A B -> rtc (loopStep passes next A) (At entry) c -> rtc (loopStep passes next B) (At entry) c.
Proof.
  intros Hw Hr. enough (rtc (loopStep passes next B) (At entry) c /\ match c with At p => rtc next entry p | StoppedAt _ => True end) by tauto.
  revert c Hr. apply rtc_ind_r; [by split; [apply rtc_refl|apply rtc_refl]|]. intros c1 c2 _ Hs [IH Hreach]. destruct Hs as [p p' Hp Hn|p m Hm Hid Hp].
  - destruct (Hw p Hreach) as [Hon _]. split; [|by eapply rtc_r]. eapply rtc_r; [exact IH|]. apply loop_on; [|done].
    intros m Hm Hid. by apply Hon.
  - destruct (Hw p Hreach) as [_ Hstop]. destruct (Hstop m Hm Hid Hp) as (m' & Hm' & E & Hp'). split; [|done].
    eapply rtc_r; [exact IH|]. rewrite <- E. apply loop_stop; [done|congruence|done].
Qed.

Lemma passes_kept m p : passes (keptMarker m) p <-> passes m p.
Proof.
  unfold keptMarker. destruct (_ || _) eqn:E; [|done]. destruct (mk_flags m); [|done]. unfold passes. cbn [mk_name]. by rewrite E.
Qed.

Lemma kept_id m : mk_id (keptMarker m) = mk_id m.
Proof. unfold keptMarker. destruct (_ || _); [|done]. by destruct (mk_flags m). Qed.

Lemma guarded_weaker markers : weaker markers (guardedMarkers markers) /\ weaker (guardedMarkers markers) markers.
Proof.
  split; intros p _; split; unfold guardedMarkers.
  - intros m (m0 & -> & Hm0)%list_elem_of_fmap. rewrite kept_id, passes_kept. auto.
  - intros m Hm Hid Hp. exists (keptMarker m). rewrite kept_id, passes_kept. split; [by apply list_elem_of_fmap_2|done].
  - intros m Hm Hid Hall. rewrite <- passes_kept. apply Hall; [by apply list_elem_of_fmap_2|by rewrite kept_id].
  - intros m (m0 & -> & Hm0)%list_elem_of_fmap. rewrite kept_id, passes_kept. eauto.
Qed.

Lemma ranged_weaker ranges :
  NoDup (map mk_id (lp_markers l)) ->
  (forall r, r ∈ ranges -> exists m, m ∈ lp_markers l /\ rangeOf def strip colors m = Some r) ->
  (forall m r p, m ∈ lp_markers l -> rangeOf def strip colors m = Some r -> r ∈ ranges -> rtc next entry p -> passes m p) ->
  weaker (lp_markers l) (rangedMarkers ranges (lp_markers l)) /\ weaker (rangedMarkers ranges (lp_markers l)) (lp_markers l).
Proof.
  intros Hdup Hfrom Hpass.
  assert (Hin : forall m, m ∈ rangedMarkers ranges (lp_markers l) <-> m ∈ lp_markers l /\ mk_id m ∉ map rg_marker ranges).
  { intros m. unfold rangedMarkers. rewrite (list_elem_of_In _ m), filter_In, negb_true_iff, bool_decide_eq_false, <- list_elem_of_In. done. }
  assert (Hranged : forall m p, m ∈ lp_markers l -> mk_id m ∈ map rg_marker ranges -> rtc next entry p -> passes m p).
  { intros m p Hm (r & Er & Hrr)%list_elem_of_fmap Hp. destruct (Hfrom r Hrr) as (m' & Hm' & Ho).
    assert (m' = m) as ->; [|by eapply Hpass]. pose proof (rangeOf_some m' r Ho) as [Em _]. rewrite Em in Er.
    apply list_elem_of_lookup in Hm as [i Hi], Hm' as [i' Hi']. assert (i = i') as <-; [|congruence].
    apply (NoDup_lookup (map mk_id (lp_markers l)) i i' (mk_id m)); [done| |]; rewrite list_lookup_fmap; [by rewrite Hi|by rewrite Hi', Er]. }
  split; intros p Hp; split.
  - intros m [Hm _]%Hin Hid Hall. by apply Hall.
  - intros m Hm Hid Hno. exists m. split; [|done]. apply Hin. split; [done|]. intros Hc. by apply Hno, Hranged.
  - intros m Hm Hid Hall. destruct (decide (mk_id m ∈ map rg_marker ranges)); [by apply Hranged|]. apply Hall; [by apply Hin|done].
  - intros m [Hm _]%Hin Hid Hno. by exists m.
Qed.
End Versioned.

(** The guards of the version that runs. *)
Definition versionMarkers (l : loop) (ranges : list Ranged) (count : scev) (env : nat -> Z) : list markerCall :=
  if runsUnguarded denote colors env ranges count then rangedMarkers ranges (lp_markers l) else guardedMarkers (lp_markers l).

(** C11: a versioned loop runs and stops exactly as the loop with all its guards,
    whichever of its two versions the test picks, as long as its backedge is
    taken fewer than 2{^64} times: none of the guards the ranges replace, with
    their null tests and their color tests, could have stopped a trip.  A range
    whose color the test leaves out, for its root is a constant or near its
    start, starts in its root's object ([startsInside]); where it does not, the
    versioned loop misses what a guard that compares colors stops. *)
Theorem versioned_exact l next entry taken ranges count c :
  versionLoops def strip colors l = Versioned ranges count -> loop_ok l next entry taken ->
  range_test_ok (pt_usable entry) (pt_colored entry) -> startsInside l entry taken ->
  NoDup (map mk_id (lp_markers l)) -> taken < 2 ^ 64 ->
  rtc (loopStep passes next (lp_markers l)) (At entry) c
  <-> rtc (loopStep passes next (versionMarkers l ranges count (pt_vals entry))) (At entry) c.
Proof.
  intros Hv Hok Htest Hinside Hdup Ht. unfold versionLoops in Hv. destruct (unrollSmall l); [done|].
  destruct (versionable l) eqn:Evs; [cbn [negb] in Hv|done]. destruct (lp_count l) as [taken_scev|] eqn:Ec; [|done].
  revert Hv. set (rs := List.filter _ _). case_bool_decide; [done|]. intros [= Hrs <-]. rewrite Hrs in *.
  unfold versionMarkers. destruct (runsUnguarded _ _ _ _ _) eqn:Erun.
  2:{ destruct (guarded_weaker next entry (lp_markers l)) as [H1 H2]. split; by apply runs_along. }
  unfold runsUnguarded in Erun. apply andb_true_iff in Erun as [_ Hall]. unfold rangesAddressable in Hall. rewrite forallb_forall in Hall.
  rewrite (lk_extend _ _ _ _ Hok), (lk_count _ _ _ _ Hok taken_scev Ec) in Hall.
  pose proof (lk_trip _ _ _ _ Hok entry (rtc_refl _ _)) as H0t. rewrite !wrap64_small in Hall by (rewrite ?wrap64_small; lia).
  assert (Hfrom : forall r, r ∈ ranges -> exists m, m ∈ lp_markers l /\ rangeOf def strip colors m = Some r).
  { intros r. rewrite <- Hrs, list_elem_of_In. intros [Hin _]%filter_In. apply list_elem_of_In, list_elem_of_omap in Hin.
    destruct Hin as (m & Hm & Ho). by exists m. }
  destruct (ranged_weaker l next entry ranges Hdup Hfrom) as [H1 H2].
  { intros m r p Hm Ho Hr Hp. eapply range_passes; [exact Hok|exact Evs|exact Htest|exact Hinside|exact Hm|exact Ho|exact Hp|done|].
    apply Hall. by apply list_elem_of_In. }
  split; by apply runs_along.
Qed.
End Runs.

(** ** The runtime's test *)

Section Runtime.
Context {T : Guard.Thread} {H : Report.HeapView}.

Definition runtimeTest (st : Guard.gstate) (here : Z) : RangeTest := {|
  range_ok low n := match fst (GuardEntry.__weavec_rt_range_ok low n here st) with Some ok => ok | None => false end;
  color_ok root low := match fst (GuardEntry.__weavec_rt_color_ok root low here st) with Some ok => ok | None => false end
|}.

(** What the guards look at: the bytes of the shadow's window. *)
Definition usableNow (st : Guard.gstate) (here a : Z) : Prop :=
  a < 2 ^ Shadow.s_bits (Guard.gs_shadow st) -> Guard.usable (Guard.gs_shadow st) here a = true.

(** Whether the runtime finds an address of its root's color. *)
Definition coloredNow (st : Guard.gstate) (here root a : Z) : Prop := @color_ok (runtimeTest st here) root a = true.

(** Redzones keep objects apart: bytes in a row that may be used are of one
    color, the last granule's partial value of its class, and of one heap
    object; and no non-local jump has cleared a stack's colors. *)
Record kept_apart (st : Guard.gstate) (here : Z) : Prop := {
  ka_colors : Guard.gs_lostColors st = false;
  ka_next : forall a, 0 <= a -> a + 1 < 2 ^ Shadow.s_bits (Guard.gs_shadow st) ->
    Guard.usable (Guard.gs_shadow st) here a = true -> Guard.usable (Guard.gs_shadow st) here (a + 1) = true ->
    let v := Shadow.granule_value (Guard.gs_shadow st) a in
    let v' := Shadow.granule_value (Guard.gs_shadow st) (a + 1) in
    Guard.isPoison v = false
    /\ (v' = v \/ Shadow.weavecRtShadowFull v = true /\ Shadow.weavecRtShadowFull v' = false
                  /\ Shadow.weavecRtShadowClass v' = Shadow.weavecRtShadowClass v)
    /\ Report.ho_base (Report.weavecRtHeapObjectAt (a + 1)) = Report.ho_base (Report.weavecRtHeapObjectAt a)
}.

Lemma jump_next st here root rs a :
  Shadow.shadow_wf (Guard.gs_shadow st) -> kept_apart st here -> 0 <= a -> usableNow st here a -> usableNow st here (a + 1) ->
  GuardEntry.jumpKind st a root rs here = None -> GuardEntry.jumpKind st (a + 1) root rs here = None.
Proof.
  intros Hwf [Hlost Hnext] Ha Hu Hu'. unfold GuardEntry.jumpKind. rewrite Hlost, !andb_false_r. cbn [andb].
  destruct (Shadow.weavecRtShadowReady (Guard.gs_shadow st)); cbn [negb orb]; [|done].
  destruct (Shadow.weavecRtInWindow (Guard.gs_shadow st) (a + 1)) eqn:Ew'; cbn [negb]; [|done].
  apply (Shadow.inWindow_iff _ Hwf) in Ew'; [|lia].
  assert (Ew : Shadow.weavecRtInWindow (Guard.gs_shadow st) a = true) by (apply (Shadow.inWindow_iff _ Hwf); lia).
  rewrite Ew. cbn [negb]. destruct (Hnext a Ha Ew' (Hu ltac:(lia)) (Hu' ltac:(lia))) as (Hp & Hv & ->). rewrite Hp. cbn [orb].
  destruct (Guard.isPoison rs) eqn:Ers; [by rewrite orb_true_r|]. rewrite orb_false_r.
  generalize dependent (Shadow.granule_value (Guard.gs_shadow st) (a + 1)). generalize dependent (Shadow.granule_value (Guard.gs_shadow st) a).
  intros v Hp v' [Hv|(Hf & Hf' & Hc)].
  - subst v'. rewrite Hp. destruct (_ || _); [done|]. destruct (rs =? 0); [done|]. destruct (_ && _); [done|]. by repeat case_match.
  - destruct (Guard.isPoison v'); [done|]. rewrite Hf, Hf', Hc. cbn [negb orb andb]. destruct (v' =? rs); [done|]. cbn [orb].
    destruct (Z.eqb_spec v rs) as [->|]; [by rewrite Z.eqb_refl|]. cbn [orb].
    destruct (_ =? Shadow.weavecRtShadowClass rs); [done|]. rewrite andb_false_r.
    destruct (rs =? 0); [done|]. destruct (_ && _); [done|]. by repeat case_match.
Qed.

Lemma runtime_test_ok st here :
  Shadow.shadow_wf (Guard.gs_shadow st) -> kept_apart st here ->
  range_test_ok (R := runtimeTest st here) (usableNow st here) (coloredNow st here).
Proof.
  intros Hwf Hapart. split; [|done|].
  - intros low n a Hlow Hend Hn Hok Ha Hwin. cbn in Hok.
    destruct (GuardEntry.range_ok_run st low n here Hwf ltac:(lia) ltac:(lia)) as (ok & st' & E & _ & Hu). rewrite E in Hok. cbn in Hok. subst ok.
    apply Hu; [done|]. lia.
  - intros root a Ha _ Hu Hu'. unfold coloredNow. cbn [color_ok runtimeTest]. unfold GuardEntry.__weavec_rt_color_ok, Guard.get, mbind, Guard.G_bind.
    destruct (negb _ || negb _); [done|]. destruct (GuardEntry.jumpKind st a root _ here) eqn:E; [done|]. by rewrite (jump_next st here root _ a).
Qed.
End Runtime.
