(* ===== verification/Ledger.v ===== *)
(** * What the guard pass decided, and where it decides nothing

    [lib/Frontend/EnforcementLedger.cpp]: the rows of a unit's ledger, the
    copies of each guard, the settling of outcomes, the document and the
    summary line.  [lib/Frontend/UnsafeRegions.cpp]: the unsafe ranges of a
    unit and whether a position lies in one.

    Writing the document to a file is input and output, not modelled; what the
    file system and LLVM's paths answer is an argument. *)

From stdpp Require Import gmap strings.
From Stdlib Require Import String Ascii.
From S2P Require Import Prelude LibTerm.
Local Open Scope Z_scope.

(** ** The ledger *)

Module Ledger.

Inductive Outcome := Guarded | Proven | Unguarded.

#[export] Instance Outcome_eq_dec : EqDecision Outcome.
Proof. solve_decision. Defined.

Record LedgerRow := mkRow {
  function : string;
  file : string;
  line : Z;
  column : Z;
  operation : string;
  bytes : Z;
  outcome : Outcome;
  reason : string
}.

Definition settled (row : LedgerRow) (o : Outcome) (why : string) : LedgerRow :=
  mkRow (function row) (file row) (line row) (column row) (operation row) (bytes row) o why.

Record Copies := mkCopies { stay : Z; removed : Z; last_reason : string }.

Record EnforcementLedger := mkLedger {
  rows : list LedgerRow;
  copies : list Copies;
  guarded : Z;
  proven : Z;
  unguarded : Z
}.

Definition emptyLedger : EnforcementLedger := mkLedger [] [] 0 0 0.

Definition accesses (l : EnforcementLedger) : Z :=
  (guarded l + proven l + unguarded l) mod 2 ^ 64.

(** The ledger with the row, and its index. *)
Definition add (l : EnforcementLedger) (row : LedgerRow) : EnforcementLedger * Z :=
  (mkLedger (rows l ++ [row]) (copies l ++ [mkCopies 0 0 EmptyString])
            (guarded l) (proven l) (unguarded l),
   Z.of_nat (length (rows l)) mod 2 ^ 32).

(** An [unsigned] counter. *)
Definition incr32 (n : Z) : Z := (n + 1) mod 2 ^ 32.

Definition copy (l : EnforcementLedger) (index : nat) (stays : bool) (why : string) : EnforcementLedger :=
  match copies l !! index with
  | None => l
  | Some seen =>
    let seen' := if stays then mkCopies (incr32 (stay seen)) (removed seen) (last_reason seen)
                 else mkCopies (stay seen) (incr32 (removed seen)) why in
    mkLedger (rows l) (<[index := seen']> (copies l)) (guarded l) (proven l) (unguarded l)
  end.

(** One row of [finish]. *)
Definition settle (row : LedgerRow) (seen : Copies) : LedgerRow :=
  match outcome row with
  | Guarded =>
    if stay seen =? 0 then
      settled row Proven (if negb (removed seen =? 0) then last_reason seen else "optimized")
    else row
  | _ => row
  end.

Definition count64 (o : Outcome) (l : list LedgerRow) : Z :=
  foldr (fun row n => if bool_decide (outcome row = o) then (n + 1) mod 2 ^ 64 else n) 0 l.

Definition finish (l : EnforcementLedger) : EnforcementLedger :=
  let rows := zip_with settle (rows l) (copies l) in
  mkLedger rows (copies l) (count64 Guarded rows) (count64 Proven rows) (count64 Unguarded rows).

Definition outcomeName (o : Outcome) : string :=
  match o with Guarded => "guarded" | Proven => "proven" | Unguarded => "unguarded" end.

(** *** The document *)

Inductive json :=
  | JString (text : string)
  | JInteger (n : Z)
  | JBool (b : bool)
  | JArray (items : list json)
  | JObject (fields : list (string * json)).

(** [static_cast<std::int64_t>] of a [std::uint64_t]. *)
Definition int64 (n : Z) : Z := (n + 2 ^ 63) mod 2 ^ 64 - 2 ^ 63.

Definition rowJson (row : LedgerRow) : json :=
  JObject [("function", JString (function row)); ("file", JString (file row));
           ("line", JInteger (line row)); ("column", JInteger (column row));
           ("operation", JString (operation row)); ("bytes", JInteger (int64 (bytes row)));
           ("outcome", JString (outcomeName (outcome row))); ("reason", JString (reason row))].

Record EnforcementUnit := mkUnit {
  u_source : string;
  u_object : string;
  u_target : string;
  u_checks : string;
  u_zeroInit : bool
}.

Definition EnforcementLedgerVersion : Z := 3.

(** The document [writeEnforcementLedger] writes, of the version string the
    build configures. *)
Definition document (version : string) (l : EnforcementLedger) (u : EnforcementUnit) : json :=
  JObject
    [("schema", JString "weavec-ledger"); ("version", JInteger EnforcementLedgerVersion);
     ("producer", JObject [("name", JString "weavec-cc"); ("version", JString version)]);
     ("units", JArray [JObject
       [("source", JString (u_source u)); ("object", JString (u_object u));
        ("target", JString (u_target u));
        ("config", JObject [("checks", JString (u_checks u)); ("zeroInit", JBool (u_zeroInit u))]);
        ("summary", JObject [("accesses", JInteger (int64 (accesses l)));
                             ("proven", JInteger (int64 (proven l)));
                             ("guarded", JInteger (int64 (guarded l)));
                             ("unguarded", JInteger (int64 (unguarded l)))]);
        ("rows", JArray (map rowJson (rows l)))]])].

Definition enforcementSummary (l : EnforcementLedger) (source : string) : string :=
  "weavec: " +:+ source +:+ ": " +:+ to_string (accesses l) +:+ " accesses: "
  +:+ to_string (proven l) +:+ " proven, " +:+ to_string (guarded l) +:+ " guarded, "
  +:+ to_string (unguarded l) +:+ " unguarded".

Section Paths.
(** [llvm::sys::path::is_separator], [llvm::sys::fs::is_directory],
    [llvm::sys::path::append] and [llvm::sys::path::filename]. *)
Context (is_separator : ascii -> bool) (is_directory : string -> bool)
        (path_append : string -> string -> string) (filename : string -> string).

Fixpoint string_back (s : string) : option ascii :=
  match s with
  | EmptyString => None
  | String c EmptyString => Some c
  | String _ rest => string_back rest
  end.

Definition isLedgerDirectory (value : string) : bool :=
  match string_back value with
  | None => false
  | Some c => is_separator c || is_directory value
  end.

Definition ledgerPathFor (value artifact : string) : string :=
  if negb (isLedgerDirectory value) then value
  else path_append value (filename artifact +:+ ".ledger.json").
End Paths.

(** *** What a unit's run of the pass leaves *)

(** The pass's calls: a row for each access, and for each copy of a guard
    whether it stays. *)
Inductive event := Add (row : LedgerRow) | Copy (index : nat) (stays : bool) (why : string).

Definition step (l : EnforcementLedger) (e : event) : EnforcementLedger :=
  match e with Add row => fst (add l row) | Copy index stays why => copy l index stays why end.

Definition run (events : list event) : EnforcementLedger := foldl step emptyLedger events.

(** The rows added, in order. *)
Definition added (events : list event) : list LedgerRow :=
  omap (fun e => match e with Add row => Some row | Copy _ _ _ => None end) events.

(** The number of copies of row [index] that stay, and that are removed, said
    while the row exists: [n] rows exist before the events. *)
Fixpoint said (stays_ : bool) (events : list event) (n index : nat) : Z :=
  match events with
  | [] => 0
  | Add _ :: rest => said stays_ rest (S n) index
  | Copy i stays _ :: rest =>
    (if decide (i = index /\ (i < n)%nat /\ stays = stays_) then 1 else 0) + said stays_ rest n index
  end.

(** The reason of the last removal of a copy of row [index]. *)
Fixpoint last_removal (events : list event) (n index : nat) (why : option string) : option string :=
  match events with
  | [] => why
  | Add _ :: rest => last_removal rest (S n) index why
  | Copy i stays r :: rest =>
    last_removal rest n index
      (if decide (i = index /\ (i < n)%nat /\ stays = false) then Some r else why)
  end.
End Ledger.

(** ** Unsafe regions *)

Module Unsafe.

Record Range := mkRange { beginLine : Z; beginColumn : Z; endLine : Z; endColumn : Z }.

(** The ranges of one unit, by file. *)
Notation UnsafeRegions := (gmap string (list Range)).

Definition add (u : UnsafeRegions) (file : string) (range : Range) : UnsafeRegions :=
  <[file := default [] (u !! file) ++ [range]]> u.

Definition before (lineA columnA lineB columnB : Z) : bool :=
  (lineA <? lineB) || ((lineA =? lineB) && (columnA <? columnB)).

Definition inRange (line column : Z) (r : Range) : bool :=
  if column =? 0 then (beginLine r <=? line) && (line <=? endLine r)
  else negb (before line column (beginLine r) (beginColumn r))
       && negb (before (endLine r) (endColumn r) line column).

Definition contains (u : UnsafeRegions) (file : string) (line column : Z) : bool :=
  match u !! file with
  | None => false
  | Some ranges => if line =? 0 then false else existsb (inRange line column) ranges
  end.

Definition empty (u : UnsafeRegions) : bool := bool_decide (u = ∅).

Section Collector.
(** [llvm::sys::path]'s [is_absolute], [append] and [remove_dots]. *)
Context (is_absolute : string -> bool) (path_append : string -> string -> string)
        (remove_dots : string -> string).

Definition normalize (file directory : string) : string :=
  remove_dots
    (if is_absolute file || bool_decide (directory = EmptyString) then file
     else path_append directory file).

(** A presumed location, [None] when invalid: file, line and column. *)
Definition presumed := option (string * Z * Z).

(** [UnsafeVisitor::add] of the expansion locations of a source range. *)
Definition addRange (directory : string) (u : UnsafeRegions) (b e : presumed) : UnsafeRegions :=
  match b, e with
  | Some (bf, bl, bc), Some (ef, el, ec) =>
    if bool_decide (bf = ef)
    then add u (normalize bf directory) (mkRange bl bc el ((ec + 1) mod 2 ^ 32)) else u
  | _, _ => u
  end.
End Collector.
End Unsafe.

(** ** Theorems *)

Module LedgerFacts.
Import Ledger.

Definition zero : Copies := mkCopies 0 0 EmptyString.

Lemma said_nonneg b events n i : 0 <= said b events n i.
Proof.
  revert n. induction events as [|[row|j s w] events IH]; intros n; cbn [said]; [done|apply IH|].
  specialize (IH n). case_decide; lia.
Qed.

Lemma said_length b events n i : said b events n i <= Z.of_nat (length events).
Proof.
  revert n. induction events as [|[row|j s w] events IH]; intros n; cbn [said length]; [done| |].
  - specialize (IH (S n)). lia.
  - specialize (IH n). case_decide; lia.
Qed.

Lemma last_removal_said events n i why :
  (said false events n i = 0 -> last_removal events n i why = why)
  /\ (0 < said false events n i -> exists r, last_removal events n i why = Some r).
Proof.
  revert n why. induction events as [|[row|j s w] events IH]; intros n why; cbn [said last_removal].
  - split; [done|lia].
  - apply IH.
  - pose proof (said_nonneg false events n i). destruct (IH n (if decide (j = i /\ (j < n)%nat /\ s = false)
      then Some w else why)) as [H1 H2].
    case_decide; (split; [|]); intros Hs; try lia; auto.
    destruct (Z.eq_dec (said false events n i) 0) as [He|He]; [rewrite H1 by done; eauto|].
    apply H2. lia.
Qed.

Lemma last_removal_default events n i why c :
  default c (last_removal events n i (Some why)) = default why (last_removal events n i None).
Proof.
  destruct (last_removal_said events n i (Some why)) as [H1 H2].
  destruct (last_removal_said events n i None) as [G1 G2].
  pose proof (said_nonneg false events n i).
  destruct (Z.eq_dec (said false events n i) 0) as [He|He]; [by rewrite H1, G1|].
  assert (Hsame : forall w1 w2, 0 < said false events n i ->
            last_removal events n i w1 = last_removal events n i w2).
  { clear. revert n. induction events as [|[row|j s w] events IH]; intros n w1 w2; cbn [said last_removal];
      [lia|apply IH|]. case_decide; intros Hs; [done|apply IH; lia]. }
  rewrite (Hsame (Some why) None) by lia. destruct G2 as [r ->]; [lia|done].
Qed.

(** What the copies of a row amount to after events. *)
Definition copies_after (events : list event) (n i : nat) (c c' : Copies) : Prop :=
  stay c' = (stay c + said true events n i) mod 2 ^ 32
  /\ removed c' = (removed c + said false events n i) mod 2 ^ 32
  /\ last_reason c' = default (last_reason c) (last_removal events n i None).

Lemma run_spec events l :
  length (rows l) = length (copies l) ->
  (forall i c, copies l !! i = Some c -> 0 <= stay c < 2 ^ 32 /\ 0 <= removed c < 2 ^ 32) ->
  let l' := foldl step l events in
  rows l' = rows l ++ added events /\ length (copies l') = length (rows l')
  /\ forall i, (i < length (rows l'))%nat -> exists c', copies l' !! i = Some c'
       /\ copies_after events (length (rows l)) i (default zero (copies l !! i)) c'.
Proof.
  revert l. induction events as [|e events IH]; intros l Hlen Hb; cbn [foldl added].
  { split_and!; [by rewrite app_nil_r|done|]. intros i Hi. rewrite Hlen in Hi.
    destruct (lookup_lt_is_Some_2 _ _ Hi) as [c Hc]. rewrite Hc. exists c. split; [done|].
    destruct (Hb i c Hc). unfold copies_after. cbn. rewrite !Z.add_0_r, !Z.mod_small by done. done. }
  destruct e as [row|j stays why]; cbn [step].
  - destruct (IH (fst (add l row))) as (H1 & H2 & H3); cbn [add fst rows copies] in *.
    { by rewrite !length_app, Hlen. }
    { intros i c Hi. apply lookup_app_Some in Hi as [Hi|[_ Hi]]; [by eapply Hb|].
      apply list_lookup_singleton_Some in Hi as [_ <-]. done. }
    split_and!; [by rewrite H1, <- app_assoc|done|]. intros i Hi. destruct (H3 i Hi) as (c' & Hc' & Hd).
    exists c'. split; [done|]. rewrite length_app, Nat.add_comm in Hd. cbn in Hd.
    replace (default zero ((copies l ++ [mkCopies 0 0 EmptyString]) !! i)) with (default zero (copies l !! i)) in Hd.
    { exact Hd. }
    destruct (decide (i < length (copies l))%nat); [by rewrite lookup_app_l|].
    rewrite (lookup_ge_None_2 (copies l)) by lia. rewrite lookup_app_r by lia.
    by destruct (i - length (copies l))%nat as [|[|]].
  - unfold copy. destruct (copies l !! j) as [seen|] eqn:Ej.
    2:{ destruct (IH l Hlen Hb) as (H1 & H2 & H3). split_and!; [done|done|].
        intros i Hi. destruct (H3 i Hi) as (c' & Hc' & Hd). exists c'. split; [done|].
        apply lookup_ge_None_1 in Ej. unfold copies_after in *. cbn [said last_removal].
        rewrite !decide_False by (intros (_ & ? & _); lia). by rewrite !Z.add_0_l. }
    set (seen' := if stays then _ else _). pose proof (lookup_lt_Some _ _ _ Ej) as Hj.
    destruct (Hb j seen Ej) as [Hb1 Hb2].
    assert (Hs' : 0 <= stay seen' < 2 ^ 32 /\ 0 <= removed seen' < 2 ^ 32).
    { subst seen'. unfold incr32. destruct stays; cbn; split; try done; apply Z.mod_pos_bound; lia. }
    destruct (IH (mkLedger (rows l) (<[j := seen']> (copies l)) (guarded l) (proven l) (unguarded l)))
      as (H1 & H2 & H3); cbn [rows copies] in *.
    { by rewrite length_insert. }
    { intros i c Hi. apply list_lookup_insert_Some in Hi as [(_ & <- & _)|[_ Hi]]; [done|by eapply Hb]. }
    split_and!; [done|done|]. intros i Hi. destruct (H3 i Hi) as (c' & Hc' & Hd). exists c'. split; [done|].
    unfold copies_after in *. cbn [said last_removal]. destruct (decide (j = i)) as [->|Hne].
    2:{ rewrite list_lookup_insert_ne in Hd by done. rewrite !decide_False by tauto. by rewrite !Z.add_0_l. }
    rewrite list_lookup_insert_eq in Hd by done. rewrite Ej. cbn [default] in *. change (id ?x) with x in *.
    destruct Hd as (D1 & D2 & D3). subst seen'. unfold incr32 in *. destruct stays; cbn in D1, D2, D3.
    + rewrite (decide_True (P := i = i /\ (i < length (rows l))%nat /\ true = true)) by (split_and!; (done || lia)).
      rewrite !(decide_False (P := i = i /\ (i < length (rows l))%nat /\ true = false)) by by intros (_ & _ & ?).
      split_and!; [rewrite D1, Z.add_mod_idemp_l by lia; f_equal; lia|by rewrite D2, Z.add_0_l|done].
    + rewrite (decide_False (P := i = i /\ (i < length (rows l))%nat /\ false = true)) by by intros (_ & _ & ?).
      rewrite !(decide_True (P := i = i /\ (i < length (rows l))%nat /\ false = false)) by (split_and!; (done || lia)).
      split_and!; [by rewrite D1, Z.add_0_l|rewrite D2, Z.add_mod_idemp_l by lia; f_equal; lia|].
      rewrite D3. symmetry. apply last_removal_default.
Qed.

Lemma count64_exact o l :
  Z.of_nat (length l) < 2 ^ 64 -> count64 o l = Z.of_nat (length (filter (fun row => outcome row = o) l)).
Proof.
  induction l as [|row l IH]; intros Hl; [done|]. cbn [length] in Hl.
  assert (Hr : count64 o (row :: l) = if bool_decide (outcome row = o) then (count64 o l + 1) mod 2 ^ 64 else count64 o l)
    by done.
  rewrite Hr, IH by lia. rewrite filter_cons. destruct (decide (outcome row = o)) as [He|He].
  - rewrite bool_decide_true by done. cbn [length]. rewrite Z.mod_small; [lia|].
    pose proof (length_filter (fun row => outcome row = o) l). lia.
  - by rewrite bool_decide_false.
Qed.

Lemma outcomes_total l :
  length l = (length (filter (fun row => outcome row = Guarded) l)
              + length (filter (fun row => outcome row = Proven) l)
              + length (filter (fun row => outcome row = Unguarded) l))%nat.
Proof.
  induction l as [|row l IH]; [done|]. rewrite !filter_cons. cbn [length].
  assert (Ho : outcome row = Guarded \/ outcome row = Proven \/ outcome row = Unguarded)
    by (destruct (outcome row); tauto).
  repeat case_decide; cbn [length]; try lia; exfalso; intuition congruence.
Qed.

Lemma added_length events : (length (added events) <= length events)%nat.
Proof. unfold added. induction events as [|[row|j s w] events IH]; cbn in *; lia. Qed.

(** The outcome the ledger gives a row, of what was said of its guard. *)
Definition verdict (events : list event) (i : nat) (row : LedgerRow) : LedgerRow :=
  match outcome row with
  | Guarded =>
    if said true events 0 i =? 0
    then settled row Proven (default "optimized" (last_removal events 0 i None))
    else row
  | _ => row
  end.

Lemma finish_rows events :
  Z.of_nat (length events) < 2 ^ 32 ->
  length (rows (finish (run events))) = length (added events)
  /\ forall i row, added events !! i = Some row ->
       rows (finish (run events)) !! i = Some (verdict events i row).
Proof.
  intros Hlen. destruct (run_spec events emptyLedger eq_refl) as (H1 & H2 & H3).
  { intros i c Hc. cbn in Hc. by rewrite lookup_nil in Hc. }
  fold (run events) in *. cbn [rows app] in H1. unfold finish. cbn [rows].
  split. { rewrite length_zip_with, H2, H1. cbn. lia. }
  intros i row Hi. pose proof (lookup_lt_Some _ _ _ Hi) as Hil.
  destruct (H3 i) as (c & Hc & D1 & D2 & D3). { by rewrite H1. }
  cbn in D1, D2, D3. rewrite lookup_nil in D1, D2, D3. cbn in D1, D2, D3.
  pose proof (said_length true events 0 i). pose proof (said_nonneg true events 0 i).
  pose proof (said_length false events 0 i). pose proof (said_nonneg false events 0 i).
  rewrite !Z.add_0_l, Z.mod_small in D1, D2 by lia.
  assert (Hr : rows (run events) !! i = Some row) by (rewrite H1; exact Hi).
  rewrite lookup_zip_with, Hr, Hc. cbn. f_equal.
  unfold settle, verdict. rewrite D1, D2, D3. destruct (outcome row); [|done..].
  destruct (_ =? 0); [|done]. destruct (last_removal_said events 0 i None) as [L1 L2].
  destruct (Z.eqb_spec (said false events 0 i) 0) as [He|He]; cbn [negb].
  - by rewrite L1.
  - destruct L2 as [r ->]; [lia|done].
Qed.

(** C39: the ledger of a run of the guard pass: one row for each access, in the
    order they were added; a row whose guard was inserted is guarded exactly
    when a copy of it stays, and is proven otherwise, with the reason of the
    last copy removed (or that the optimizer left none); every other row keeps
    its outcome; and the summary's counts are those of the rows and add up to
    the accesses. *)
Theorem ledger_exact events :
  Z.of_nat (length events) < 2 ^ 32 ->
  let l := finish (run events) in
  length (rows l) = length (added events)
  /\ (forall i row, added events !! i = Some row -> rows l !! i = Some (verdict events i row))
  /\ guarded l = Z.of_nat (length (filter (fun row => outcome row = Guarded) (rows l)))
  /\ proven l = Z.of_nat (length (filter (fun row => outcome row = Proven) (rows l)))
  /\ unguarded l = Z.of_nat (length (filter (fun row => outcome row = Unguarded) (rows l)))
  /\ accesses l = Z.of_nat (length (rows l)).
Proof.
  intros Hlen l. destruct (finish_rows events Hlen) as [H1 H2]. fold l in H1, H2.
  assert (Hadd : (length (added events) <= length events)%nat) by apply added_length.
  assert (Hg : guarded l = count64 Guarded (rows l)) by done.
  assert (Hp : proven l = count64 Proven (rows l)) by done.
  assert (Hu : unguarded l = count64 Unguarded (rows l)) by done.
  rewrite count64_exact in Hg, Hp, Hu by lia. split_and!; try done.
  unfold accesses. rewrite Hg, Hp, Hu, (outcomes_total (rows l)). 
  pose proof (outcomes_total (rows l)). rewrite Z.mod_small; lia.
Qed.
End LedgerFacts.

Module UnsafeFacts.
Import Unsafe.

(** [line:column] is at or behind [line':column']. *)
Definition not_before (line column line' column' : Z) : Prop :=
  line' < line \/ (line' = line /\ column' <= column).

Lemma before_spec a b c d : negb (before a b c d) = true <-> not_before a b c d.
Proof.
  unfold before, not_before. destruct (Z.ltb_spec a c), (Z.eqb_spec a c), (Z.ltb_spec b d); cbn;
    (split; [intros|intros]; try done; try lia).
Qed.

(** The position is in the range: from its first character to the one behind
    its last, lines before columns; a position without a column is in every
    range its line meets. *)
Definition in_range (line column : Z) (r : Range) : Prop :=
  (column = 0 /\ beginLine r <= line <= endLine r)
  \/ (column <> 0 /\ not_before line column (beginLine r) (beginColumn r)
     /\ not_before (endLine r) (endColumn r) line column).

Lemma inRange_spec line column r : inRange line column r = true <-> in_range line column r.
Proof.
  unfold inRange, in_range. destruct (Z.eqb_spec column 0) as [->|Hne].
  - rewrite andb_true_iff, !Z.leb_le. lia.
  - rewrite andb_true_iff, !before_spec. tauto.
Qed.

(** The collector's ranges, added one by one: a position of a file with a
    line is unsafe exactly when one of the ranges added for that file holds it;
    ranges of other files, and the order, do not matter. *)
Theorem contains_exact (adds : list (string * Range)) file line column :
  let u := foldl (fun u a => add u (fst a) (snd a)) (∅ : UnsafeRegions) adds in
  contains u file line column = true
  <-> line <> 0 /\ exists r, (file, r) ∈ adds /\ in_range line column r.
Proof.
  intros u.
  assert (Hl : forall f, default [] (u !! f) = omap (fun a => if decide (fst a = f) then Some (snd a) else None) adds).
  { intros f. subst u. 
    assert (Hgen : forall u0 : UnsafeRegions,
      default [] (foldl (fun u a => add u (fst a) (snd a)) u0 adds !! f)
      = default [] (u0 !! f) ++ omap (fun a => if decide (fst a = f) then Some (snd a) else None) adds).
    { induction adds as [|[g r] adds IH]; intros u0; cbn [foldl]; [by rewrite app_nil_r|].
      rewrite IH. cbn [fst snd omap list_omap]. unfold add. destruct (decide (g = f)) as [->|Hne].
      - rewrite lookup_insert_eq. cbn. by rewrite <- app_assoc.
      - by rewrite lookup_insert_ne. }
    by rewrite Hgen, lookup_empty. }
  unfold contains. specialize (Hl file).
  assert (Hex : existsb (inRange line column) (default [] (u !! file)) = true
                <-> exists r, (file, r) ∈ adds /\ in_range line column r).
  { rewrite Hl, existsb_exists. setoid_rewrite <- inRange_spec. setoid_rewrite <- list_elem_of_In.
    setoid_rewrite list_elem_of_omap. split.
    - intros (r & ([g r'] & Hin & Hg) & Hr). cbn in Hg. destruct (decide (g = file)) as [->|]; [|done].
      injection Hg as ->. eauto.
    - intros (r & Hin & Hr). exists r. split; [|done]. exists (file, r). split; [done|]. cbn.
      by rewrite decide_True. }
  destruct (u !! file) as [ranges|]; cbn [default] in Hex.
  - destruct (Z.eqb_spec line 0) as [->|Hne].
    + split; [done|]. by intros [? _].
    + change (id ranges) with ranges in Hex. rewrite Hex. tauto.
  - split; [done|]. intros [_ Hr]. apply Hex in Hr. done.
Qed.
End UnsafeFacts.
