(* ===== verification/GuardInsert.v ===== *)
(** * Which accesses get a guard

    [lib/Frontend/GuardInsert.cpp], and of [lib/Frontend/GuardPass.cpp] what a
    marker, a ledger row and a site record say (lines 164 to 172 and 258 to
    514): the accesses of an instruction, the markers put before it, the
    barriers that keep guards inside an object's scope, and the guards removed
    before the optimizer sees them.

    A function is the one of GuardRules for the barriers and the removal; for
    the insertion it is the memory operations of its instructions.  LLVM's
    answers about values are the classes [Values] of GuardRules and
    [Addresses]. *)

From Stdlib Require Import String.
From stdpp Require Import gmap sets strings.
From S2P Require Import Prelude GuardRules.
From S2P Require Ledger.
Local Open Scope Z_scope.

(** ** Locations *)

(** A debug location: its innermost frame and what it was inlined into; of a
    frame, whether its subprogram is known and artificial. *)
Record frame := mkFrame { fr_file : string; fr_directory : string; fr_line : Z; fr_column : Z; fr_artificial : bool }.
Record location := mkLocation { lo_innermost : frame; lo_inlinedAt : list frame }.

Fixpoint reportedFrom (at_ : frame) (inlinedAt : list frame) : frame :=
  match inlinedAt with
  | [] => at_
  | outer :: rest => if fr_artificial at_ then reportedFrom outer rest else at_
  end.

(** Past the frames inlined from artificial functions. *)
Definition reportedAt (l : location) : frame := reportedFrom (lo_innermost l) (lo_inlinedAt l).

Definition positionOf (normalize : string -> string -> string) (l : option location) : string * Z * Z :=
  match l with
  | None => (""%string, 0, 0)
  | Some l => let at_ := reportedAt l in (normalize (fr_file at_) (fr_directory at_), fr_line at_, fr_column at_)
  end.

(** ** Memory operations *)

(** A vector type: how many elements, when that is fixed, and their size. *)
Record vectorType := mkVector { vt_elements : option nat; vt_size : typeSize }.

Inductive memoryOp :=
  | Load (isVolatile : bool) (pointer : nat) (type : typeSize) (alignment : Z)
  | Store (isVolatile : bool) (pointer : nat) (type : typeSize) (alignment : Z)
  | AtomicRMW (pointer : nat) (type : typeSize) (alignment : Z)
  | AtomicCmpXchg (pointer : nat) (type : typeSize) (alignment : Z)
  | MemTransfer (isMemCpy tbaaStruct : bool) (destination source : nat) (length : operand) (destAlignment sourceAlignment : option Z)
  | MemSet (destination : nat) (length : operand) (alignment : option Z)
  | MaskedLoad (pointer mask : nat) (type : vectorType)
  | MaskedStore (pointer mask : nat) (type : vectorType)
  | MaskedGather (pointers mask : nat) (type : vectorType)
  | MaskedScatter (pointers mask : nat) (type : vectorType)
  | NoAccess.

(** An address the pass computes: a value, an element of a vector of pointers,
    bytes behind a pointer. *)
Inductive address := AddressOf (v : nat) | ElementOf (pointers lane : nat) | BytesBehind (pointer : nat) (offset : Z).

(** A length: an operand, or a lane's, zero when its mask bit is clear. *)
Inductive extent := LengthOf (o : operand) | LaneBytes (mask lane : nat) (bytes : Z).

Record Found := mkFound {
  fd_pointer : address;
  fd_width : Z;
  fd_length : option extent;
  fd_alignment : Z;
  fd_write : bool;
  fd_operation : string;
  fd_source : option nat
}.

(** What LLVM says of addresses; a [getelementptr]'s pointer, and its offset
    when that is constant. *)
Class Addresses := {
  addressSpace : nat -> Z;
  isConstantPointer : nat -> bool;
  isGlobalValue : nat -> bool;
  isAllocaInst : nat -> bool;
  stripCasts : nat -> nat;
  gepOf : nat -> option (nat * option Z)
}.

Section Collect.
Context {V : Values} {D : Addresses}.

Definition add (pointer : nat) (type : typeSize) (alignment : Z) (write : bool) (operation : string) : list Found :=
  if negb (addressSpace pointer =? 0) then []
  else if ts_scalable type || (ts_value type =? 0) then []
  else [mkFound (AddressOf pointer) (ts_value type) None alignment write operation None].

(** A volatile access to a constant address that names no global. *)
Definition device (isVolatile : bool) (pointer : nat) : bool :=
  isVolatile && isConstantPointer pointer && negb (isGlobalValue (stripCasts pointer)) && negb (isGlobalValue (getUnderlyingObject pointer)).

Definition range (pointer : nat) (length : operand) (alignment : option Z) (write : bool) (operation : string) : list Found :=
  if negb (addressSpace pointer =? 0) then []
  else
    let found width length := mkFound (AddressOf pointer) width length (default 1 alignment) write operation None in
    match length with
    | ConstantInt n => if n =? 0 then [] else [found n None]
    | AValue _ => [found 0 (Some (LengthOf length))]
    end.

Definition lanes (at_ : nat -> address) (mask : nat) (type : vectorType) (write : bool) : list Found :=
  match vt_elements type with
  | None => []
  | Some n =>
    if ts_scalable (vt_size type) then []
    else map (fun lane => mkFound (at_ lane) 0 (Some (LaneBytes mask lane (ts_value (vt_size type)))) 1 write "lane" None) (seq 0 n)
  end.

Definition laneOf (pointer : nat) (type : vectorType) (lane : nat) : address := BytesBehind pointer (Z.of_nat lane * ts_value (vt_size type)).

Definition collect (op : memoryOp) : list Found :=
  match op with
  | Load isVolatile p type alignment => if device isVolatile p then [] else add p type alignment false "load"
  | Store isVolatile p type alignment => if device isVolatile p then [] else add p type alignment true "store"
  | AtomicRMW p type alignment => add p type alignment true "rmw"
  | AtomicCmpXchg p type alignment => add p type alignment true "rmw"
  | MemTransfer isMemCpy tbaaStruct destination source length destAlignment sourceAlignment =>
    (if isMemCpy && negb tbaaStruct
     then [mkFound (AddressOf destination) 0 (Some (LengthOf length)) 1 false "disjoint" (Some source)] else [])
    ++ range destination length destAlignment true "copy" ++ range source length sourceAlignment false "copy"
  | MemSet destination length alignment => range destination length alignment true "set"
  | MaskedLoad p mask type => lanes (laneOf p type) mask type false
  | MaskedStore p mask type => lanes (laneOf p type) mask type true
  | MaskedGather ps mask type => lanes (ElementOf ps) mask type false
  | MaskedScatter ps mask type => lanes (ElementOf ps) mask type true
  | NoAccess => []
  end.

(** The object a pointer names, with [width] bytes inside it. *)
Definition namedObject (pointer : nat) (width : Z) : option nat :=
  let '(base, offset) := stripConstantOffsets pointer in
  if (- 2 ^ 62 <=? offset) && (offset <? 2 ^ 62) && insideAt (objectOf base) offset width then Some base else None.

(** The base a guard tests for null. *)
Definition nullBaseOf (pointer : nat) : option nat :=
  match gepOf pointer with
  | None => None
  | Some (base, constant) =>
    if match constant with Some offset => Z.abs offset <? 4096 | None => false end then None
    else if isAllocaInst (stripCasts base) || isGlobalValue (stripCasts base) then None
    else Some base
  end.
End Collect.

(** ** Markers *)

Definition MarkerScope : string := "__weavec.scope".

(** A marker the pass puts before an instruction. *)
Inductive inserted :=
  | InsertedGuard (pointer : address) (width flags : Z) (nullBase : option nat) (row : Z)
  | InsertedRange (pointer : address) (length : extent) (flags row : Z)
  | InsertedDisjoint (destination : address) (source : nat) (length : extent).

Definition guardFlags (alignment flags : Z) : Z := Z.lor flags (Z.shiftl (Z.log2 alignment) MarkerAlignShift).

Definition insertGuard (pointer : address) (width alignment flags : Z) (nullBase : option nat) (row : Z) : inserted :=
  InsertedGuard pointer width (guardFlags alignment flags) nullBase row.

(** A guard's marker as the later passes read it. *)
Definition markerOfGuard (id pointer : nat) (width flags : Z) (nullBase : option nat) (row : Z) : markerCall :=
  mkMarker id MarkerGuard pointer (ConstantInt width) (ConstantInt flags) nullBase (ConstantInt row).

(** ** Insertion *)

(** An instruction: its memory operation and where it is. *)
Record memoryInst := mkMemoryInst { mi_op : memoryOp; mi_location : option location }.

Section Insert.
Context {V : Values} {D : Addresses}.
Context (normalize : string -> string -> string) (unsafe : option (gmap string (list Ledger.Unsafe.Range))) (functionName : string).

Definition isUnsafe (l : option location) : bool :=
  match unsafe, l with
  | Some regions, Some _ =>
    if Ledger.Unsafe.empty regions then false
    else let '(file, line, column) := positionOf normalize l in Ledger.Unsafe.contains regions file line column
  | _, _ => false
  end.

(** [ModuleContext::row]; no ledger, row 0. *)
Definition row (ledger : option Ledger.Ledger.EnforcementLedger) (l : option location) (operation : string) (bytes : Z)
    (outcome : Ledger.Ledger.Outcome) (reason : string) : option Ledger.Ledger.EnforcementLedger * Z :=
  match ledger with
  | None => (None, 0)
  | Some ledger =>
    let '(file, line, column) := positionOf normalize l in
    let '(ledger, index) := Ledger.Ledger.add ledger (Ledger.Ledger.mkRow functionName file line column operation bytes outcome reason) in
    (Some ledger, index)
  end.

(** One access: what is put before its instruction. *)
Definition insertOne (ledger : option Ledger.Ledger.EnforcementLedger) (l : option location) (access : Found)
    : option Ledger.Ledger.EnforcementLedger * list inserted :=
  match fd_source access with
  | Some source =>
    (ledger, if isUnsafe l then [] else [InsertedDisjoint (fd_pointer access) source (default (LengthOf (ConstantInt 0)) (fd_length access))])
  | None =>
    let named := match fd_length access, fd_pointer access with
                 | None, AddressOf p => bool_decide (is_Some (namedObject p (fd_width access)))
                 | _, _ => false
                 end in
    if named then (ledger, [])
    else if isUnsafe l then (fst (row ledger l (fd_operation access) (fd_width access) Ledger.Ledger.Unguarded "unsafe"), [])
    else
      let ranged := bool_decide (is_Some (fd_length access)) || (113 <? fd_width access) in
      let '(ledger, r) := row ledger l (fd_operation access) (fd_width access) Ledger.Ledger.Guarded (if ranged then "range" else "access")%string in
      let flags := if fd_write access then 1 else 0 in
      match fd_length access with
      | Some length => (ledger, [InsertedRange (fd_pointer access) length flags r])
      | None =>
        let nullBase := match fd_pointer access with AddressOf p => nullBaseOf p | _ => None end in
        (ledger, [insertGuard (fd_pointer access) (fd_width access) (fd_alignment access) flags nullBase r])
      end
  end.

(** The accesses of the instructions, in order. *)
Fixpoint insertAll (ledger : option Ledger.Ledger.EnforcementLedger) (l : option location) (found : list Found)
    : option Ledger.Ledger.EnforcementLedger * list inserted :=
  match found with
  | [] => (ledger, [])
  | access :: rest =>
    let '(ledger, here) := insertOne ledger l access in
    let '(ledger, there) := insertAll ledger l rest in
    (ledger, here ++ there)
  end.

(** The markers before each instruction. *)
Fixpoint insertGuards (ledger : option Ledger.Ledger.EnforcementLedger) (instructions : list memoryInst)
    : option Ledger.Ledger.EnforcementLedger * list (list inserted) :=
  match instructions with
  | [] => (ledger, [])
  | i :: rest =>
    let '(ledger, here) := insertAll ledger (mi_location i) (collect (mi_op i)) in
    let '(ledger, there) := insertGuards ledger rest in
    (ledger, here :: there)
  end.
End Insert.

(** ** Barriers *)

Definition isScope (i : instruction) : bool :=
  match i_op i with CallBase (Some name) _ => bool_decide (name = MarkerScope) | _ => false end.

Definition isLifetimeStart (i : instruction) : bool := match i_op i with IntrinsicInst (lifetime_start _) _ => true | _ => false end.
Definition isLifetimeEnd (i : instruction) : bool := match i_op i with IntrinsicInst (lifetime_end _) _ => true | _ => false end.
Definition isLifetime (i : instruction) : bool := isLifetimeStart i || isLifetimeEnd i.

(** A barrier; [id] is the call's. *)
Definition barrier (id : nat) : instruction := mkInstruction id (CallBase (Some MarkerScope) true) true.

Definition scopeNext (l : list instruction) : bool := match l with i :: _ => isScope i | [] => false end.

(** A block from its [k]th instruction on; [prev] says whether the one before
    it is a barrier, [next] is the next call's identity. *)
Fixpoint scopesFrom (prev : bool) (l : list instruction) (next : nat) : list instruction * nat :=
  match l with
  | [] => ([], next)
  | i :: rest =>
    if isLifetimeStart i then
      if scopeNext rest then let '(rest, next) := scopesFrom false rest next in (i :: rest, next)
      else let '(rest, next') := scopesFrom true rest (S next) in (i :: barrier next :: rest, next')
    else if isLifetimeEnd i then
      if prev then let '(rest, next) := scopesFrom false rest next in (i :: rest, next)
      else let '(rest, next') := scopesFrom false rest (S next) in (barrier next :: i :: rest, next')
    else let '(rest, next) := scopesFrom (isScope i) rest next in (i :: rest, next)
  end.

Fixpoint addScopes (f : function) (next : nat) : function * nat :=
  match f with
  | [] => ([], next)
  | b :: rest =>
    let '(l, next) := scopesFrom false (instructions b) next in
    let '(rest, next) := addScopes rest next in
    (mkBlock l (successors b) :: rest, next)
  end.

Definition dropScopes (orphansOnly : bool) (f : function) : function :=
  map (fun b => if orphansOnly && existsb isLifetime (instructions b) then b
                else mkBlock (List.filter (fun i => negb (isScope i)) (instructions b)) (successors b)) f.

(** ** Guards removed early *)

Section Prune.
Context {V : Values} (f : function).

(** Whether a guard is of bytes inside a named object that is in scope. *)
Definition provenAt (m : markerCall) : bool :=
  match mk_length m, mk_flags m, mk_row m with
  | ConstantInt width, ConstantInt _, ConstantInt _ =>
    match namedObject (mk_pointer m) width with
    | None => false
    | Some object =>
      match objectOf object, position f (mk_id m) with
      | AllocaInst _ _, Some (b, k) => negb (mayBeOutOfScope f object b k)
      | _, _ => true
      end
    end
  | _, _, _ => false
  end.

Definition provenMarker (m : markerCall) : markerCall :=
  match mk_flags m with
  | ConstantInt flags => mkMarker (mk_id m) (mk_name m) (mk_pointer m) (mk_length m) (ConstantInt (Z.lor flags MarkerProven)) (mk_base m) (mk_row m)
  | AValue _ => m
  end.

(** Whether [pruneGuards] takes a marker away (in verify mode: marks it). *)
Definition pruned (m : markerCall) : bool := bool_decide (mk_name m = MarkerGuard) && provenAt m.

(** The markers left, those taken away, and the ledger's copies.  (A marker
    ends no scope: taking one away changes no answer for the next.) *)
Definition pruneMarkers (verify : bool) (markers : list markerCall) : list markerCall * list nat * list (Z * bool * string) :=
  if verify then (map (fun m => if pruned m then provenMarker m else m) markers, [], [])
  else
    (List.filter (fun m => negb (pruned m)) markers,
     map mk_id (List.filter pruned markers),
     map (fun m => (match mk_row m with ConstantInt row => row mod 2 ^ 32 | AValue _ => 0 end, false, "in-bounds"%string)) (List.filter pruned markers)).
End Prune.

(** The pass: the barriers anew, then the markers. *)
Definition pruneGuards {V : Values} (verify : bool) (f : function) (next : nat) (markers : list markerCall)
    : function * nat * list markerCall * list (Z * bool * string) :=
  let '(f, next) := addScopes (dropScopes true f) next in
  let '(markers, gone, copies) := pruneMarkers f verify markers in
  (map (fun b => mkBlock (List.filter (fun i => negb (bool_decide (i_id i ∈ gone))) (instructions b)) (successors b)) f, next, markers, copies).

(** ** Site records *)

Record siteRecord := mkSiteRecord { st_file : option string; st_line : Z; st_column : Z; st_flags : Z }.

(** The records made so far, by file, line, column and flags. *)
Abbreviation siteKey := (option string * Z * Z * Z)%type.

(** [ModuleContext::site]: the record, which fits its fields, and the records
    with it. *)
Definition site (report : bool) (sites : gmap siteKey siteRecord) (l : option location) (flags : Z) : siteRecord * gmap siteKey siteRecord :=
  let flags := if report then Z.lor flags 2 else flags in
  let '(file, line, column) := match l with
                               | None => (None, 0, 0)
                               | Some l => let at_ := reportedAt l in (Some (fr_file at_), fr_line at_, fr_column at_)
                               end in
  match sites !! (file, line, column, flags) with
  | Some record => (record, sites)
  | None =>
    let record := mkSiteRecord file (line mod 2 ^ 32) (Z.min column 0xFFFF) (flags mod 2 ^ 16) in
    (record, <[(file, line, column, flags) := record]> sites)
  end.
