(* ===== verification/InsertFacts.v ===== *)
(** * Every access has its guard

    What the insertion of guards (the file GuardInsert) guarantees: every access
    an instruction makes is behind a marker of its bytes, unless it lies in a
    named object, in an unsafe region or at a device; the marker's ledger row
    is the access's; the later passes read back what was inserted.  The
    barriers stand where they must and are put once; and the guards removed
    early are those of bytes inside objects in scope. *)

From Stdlib Require Import String.
From stdpp Require Import gmap sets strings.
From S2P Require Import Prelude GuardRules GuardRuns GuardScopes GuardInsert.
From S2P Require Ledger.
Local Open Scope Z_scope.

(** ** Accesses *)

(** What an instruction may touch: [inl] a constant number of bytes, [inr] a
    length of run time. *)
Inductive touches : memoryOp -> address -> Z + extent -> Prop :=
  | touches_load v p t al : touches (Load v p t al) (AddressOf p) (inl (ts_value t))
  | touches_store v p t al : touches (Store v p t al) (AddressOf p) (inl (ts_value t))
  | touches_rmw p t al : touches (AtomicRMW p t al) (AddressOf p) (inl (ts_value t))
  | touches_exchange p t al : touches (AtomicCmpXchg p t al) (AddressOf p) (inl (ts_value t))
  | touches_destination c t d s n da sa : touches (MemTransfer c t d s (ConstantInt n) da sa) (AddressOf d) (inl n)
  | touches_source c t d s n da sa : touches (MemTransfer c t d s (ConstantInt n) da sa) (AddressOf s) (inl n)
  | touches_destination_run c t d s v da sa : touches (MemTransfer c t d s (AValue v) da sa) (AddressOf d) (inr (LengthOf (AValue v)))
  | touches_source_run c t d s v da sa : touches (MemTransfer c t d s (AValue v) da sa) (AddressOf s) (inr (LengthOf (AValue v)))
  | touches_set d n al : touches (MemSet d (ConstantInt n) al) (AddressOf d) (inl n)
  | touches_set_run d v al : touches (MemSet d (AValue v) al) (AddressOf d) (inr (LengthOf (AValue v)))
  | touches_masked_load p m t lane n : vt_elements t = Some n -> (lane < n)%nat ->
    touches (MaskedLoad p m t) (BytesBehind p (Z.of_nat lane * ts_value (vt_size t))) (inr (LaneBytes m lane (ts_value (vt_size t))))
  | touches_masked_store p m t lane n : vt_elements t = Some n -> (lane < n)%nat ->
    touches (MaskedStore p m t) (BytesBehind p (Z.of_nat lane * ts_value (vt_size t))) (inr (LaneBytes m lane (ts_value (vt_size t))))
  | touches_gather ps m t lane n : vt_elements t = Some n -> (lane < n)%nat ->
    touches (MaskedGather ps m t) (ElementOf ps lane) (inr (LaneBytes m lane (ts_value (vt_size t))))
  | touches_scatter ps m t lane n : vt_elements t = Some n -> (lane < n)%nat ->
    touches (MaskedScatter ps m t) (ElementOf ps lane) (inr (LaneBytes m lane (ts_value (vt_size t)))).

(** The types of the operation have a fixed size. *)
Definition fixedTypes (op : memoryOp) : Prop :=
  match op with
  | Load _ _ t _ | Store _ _ t _ | AtomicRMW _ t _ | AtomicCmpXchg _ t _ => ts_scalable t = false
  | MaskedLoad _ _ t | MaskedStore _ _ t | MaskedGather _ _ t | MaskedScatter _ _ t => ts_scalable (vt_size t) = false
  | _ => True
  end.

Section Inserted.
Context {V : Values} {D : Addresses}.
Context (normalize : string -> string -> string) (unsafe : option (gmap string (list Ledger.Unsafe.Range))) (functionName : string).

Abbreviation insertOne := (insertOne normalize unsafe functionName).
Abbreviation insertAll := (insertAll normalize unsafe functionName).
Abbreviation insertGuards := (insertGuards normalize unsafe functionName).
Abbreviation isUnsafe := (isUnsafe normalize unsafe).

(** An access in the program's address space. *)
Definition programs (a : address) : Prop := match a with AddressOf p => addressSpace p = 0 | _ => True end.

(** A device's access: a volatile load or store at a constant address which is
    neither, casts apart, a variable or function of the program nor computed
    from one. *)
Definition ofDevice (op : memoryOp) : Prop :=
  match op with
  | Load isVolatile p _ _ | Store isVolatile p _ _ =>
    isVolatile = true /\ isConstantPointer p = true /\ isGlobalValue (stripCasts p) = false /\ isGlobalValue (getUnderlyingObject p) = false
  | _ => False
  end.

Lemma device_exact v p : device v p = true <->
  v = true /\ isConstantPointer p = true /\ isGlobalValue (stripCasts p) = false /\ isGlobalValue (getUnderlyingObject p) = false.
Proof. unfold device. rewrite !andb_true_iff, !negb_true_iff. tauto. Qed.

#[local] Instance ofDevice_dec op : Decision (ofDevice op).
Proof. destruct op; cbn; apply _. Defined.

Lemma found_for op a e :
  touches op a e -> fixedTypes op -> programs a -> ~ ofDevice op -> e <> inl 0 ->
  exists access, access ∈ collect op /\ fd_pointer access = a /\ fd_source access = None
    /\ match e with inl n => fd_length access = None /\ fd_width access = n | inr x => fd_length access = Some x end.
Proof.
  intros Ht Hfix Hp Hd He.
  assert (Hadd : forall p t al w o, addressSpace p = 0 -> ts_scalable t = false -> ts_value t <> 0 ->
    mkFound (AddressOf p) (ts_value t) None al w o None ∈ add p t al w o).
  { intros p t al w o Hs Hsc Hz. unfold add. rewrite Hs, Hsc. cbn. apply Z.eqb_neq in Hz. rewrite Hz. apply list_elem_of_here. }
  assert (Hrange : forall p n al w o, addressSpace p = 0 -> n <> 0 ->
    mkFound (AddressOf p) n None (default 1 al) w o None ∈ range p (ConstantInt n) al w o).
  { intros p n al w o Hs Hz. unfold range. rewrite Hs. cbn. apply Z.eqb_neq in Hz. rewrite Hz. apply list_elem_of_here. }
  assert (Hrun : forall p v al w o, addressSpace p = 0 ->
    mkFound (AddressOf p) 0 (Some (LengthOf (AValue v))) (default 1 al) w o None ∈ range p (AValue v) al w o).
  { intros p v al w o Hs. unfold range. rewrite Hs. cbn. apply list_elem_of_here. }
  assert (Hlanes : forall at_ m t w n lane, vt_elements t = Some n -> (lane < n)%nat -> ts_scalable (vt_size t) = false ->
    mkFound (at_ lane) 0 (Some (LaneBytes m lane (ts_value (vt_size t)))) 1 w "lane" None ∈ lanes at_ m t w).
  { intros at_ m t w n lane Hn Hl Hs. unfold lanes. rewrite Hn, Hs.
    apply (list_elem_of_fmap_2 (fun lane => mkFound (at_ lane) 0 (Some (LaneBytes m lane (ts_value (vt_size t)))) 1 w "lane" None)).
    apply elem_of_seq. lia. }
  assert (Hz : forall n, inl (B := extent) n <> inl 0 -> n <> 0) by congruence.
  assert (Hdev : forall v q, ~ (v = true /\ isConstantPointer q = true /\ isGlobalValue (stripCasts q) = false /\ isGlobalValue (getUnderlyingObject q) = false) ->
    device v q = false) by (intros v q Hno; apply not_true_is_false; by rewrite device_exact).
  destruct Ht; cbn in Hfix, Hp, Hd; cbn [collect]; try rewrite (Hdev _ _ Hd);
    (eexists; split; [first [solve [apply Hadd; auto] | solve [apply Hrange; auto] | solve [apply Hrun; auto] | solve [eapply Hlanes; eauto]
      | apply elem_of_app; right; apply elem_of_app; left; first [solve [apply Hrange; auto]|solve [apply Hrun; auto]]
      | apply elem_of_app; right; apply elem_of_app; right; first [solve [apply Hrange; auto]|solve [apply Hrun; auto]]]|split_and!; done]).
Qed.

Lemma insertAll_in ledger l found access :
  access ∈ found -> exists ledger0, snd (insertOne ledger0 l access) ⊆ snd (insertAll ledger l found).
Proof.
  revert ledger. induction found as [|x found IH]; intros ledger Hin; [set_solver|]. cbn.
  destruct (insertOne ledger l x) as [ledger1 here] eqn:E1. destruct (insertAll ledger1 l found) as [ledger2 there] eqn:E2. cbn.
  apply list_elem_of_In in Hin as [->|Hin].
  - exists ledger. rewrite E1. cbn. set_solver.
  - apply list_elem_of_In in Hin. destruct (IH ledger1 Hin) as [ledger0 Hs]. exists ledger0. rewrite E2 in Hs. cbn in Hs. set_solver.
Qed.

Lemma insertGuards_at ledger is_ k i :
  is_ !! k = Some i -> exists ledger0, snd (insertGuards ledger is_) !! k = Some (snd (insertAll ledger0 (mi_location i) (collect (mi_op i)))).
Proof.
  revert ledger k. induction is_ as [|x is_ IH]; intros ledger k Hk; [done|]. cbn.
  destruct (insertAll ledger (mi_location x) (collect (mi_op x))) as [ledger1 here] eqn:E1.
  destruct (insertGuards ledger1 is_) as [ledger2 there] eqn:E2. cbn. destruct k as [|k].
  - injection Hk as ->. exists ledger. by rewrite E1.
  - destruct (IH ledger1 k Hk) as [ledger0 Hx]. exists ledger0. rewrite E2 in Hx. done.
Qed.

(** A marker of the bytes. *)
Definition guards (a : address) (e : Z + extent) (m : inserted) : Prop :=
  match e, m with
  | inl n, InsertedGuard a' n' _ _ _ => a' = a /\ n' = n
  | inr x, InsertedRange a' x' _ _ => a' = a /\ x' = x
  | _, _ => False
  end.

(** The bytes lie in the object the address names. *)
Definition insideNamed (a : address) (e : Z + extent) : Prop :=
  match a, e with
  | AddressOf p, inl n =>
    let '(base, offset) := stripConstantOffsets p in
    exists size, exactSize (objectOf base) = Some size /\ 0 <= offset /\ offset + n <= size
  | _, _ => False
  end.

Lemma namedObject_inside p n object : namedObject p n = Some object ->
  let '(base, offset) := stripConstantOffsets p in
  base = object /\ - 2 ^ 62 <= offset < 2 ^ 62 /\ exists size, exactSize (objectOf base) = Some size /\ 0 <= offset /\ offset + n <= size.
Proof.
  unfold namedObject. destruct (stripConstantOffsets p) as [base offset]. destruct (_ && _) eqn:E; [|done]. intros [= ->].
  apply andb_true_iff in E as [[Hlo%Z.leb_le Hhi%Z.ltb_lt]%andb_true_iff Hin]. split; [done|]. split; [done|].
  unfold insideAt in Hin. destruct (exactSize (objectOf object)) as [size|]; [|done]. exists size. split; [done|].
  apply andb_true_iff in Hin as [[H1%Z.leb_le H2%Z.leb_le]%andb_true_iff H3%Z.leb_le]. lia.
Qed.

Lemma insertOne_guards ledger l access e :
  fd_source access = None -> match e with inl n => fd_length access = None /\ fd_width access = n | inr x => fd_length access = Some x end ->
  insideNamed (fd_pointer access) e \/ isUnsafe l = true \/ exists m, m ∈ snd (insertOne ledger l access) /\ guards (fd_pointer access) e m.
Proof.
  intros Hs He. unfold GuardInsert.insertOne. rewrite Hs.
  set (named := match fd_length access, fd_pointer access with None, AddressOf p => bool_decide (is_Some (namedObject p (fd_width access))) | _, _ => false end).
  destruct named eqn:En.
  { left. destruct e as [n|x].
    - destruct He as [Hl Hw]. unfold named in En. rewrite Hl in En. destruct (fd_pointer access) as [p|ps lane|p off]; [|done|done].
      apply bool_decide_eq_true in En as [object Ho]. apply namedObject_inside in Ho. unfold insideNamed.
      destruct (stripConstantOffsets p) as [base offset]. rewrite Hw in Ho. tauto.
    - unfold named in En. rewrite He in En. done. }
  right. destruct (isUnsafe l); [by left|]. right. destruct (row _ _ _ _ _ _ _ _) as [ledger' r].
  destruct e as [n|x].
  - destruct He as [Hl Hw]. rewrite Hl. cbn. eexists. split; [apply list_elem_of_here|]. by split.
  - rewrite He. cbn. eexists. split; [apply list_elem_of_here|]. by split.
Qed.

(** C7: every access an instruction makes, lane by lane, has a marker of its
    own address and bytes put before the instruction, unless the bytes lie
    inside the object the address names, the instruction is in an unsafe
    region, or it is a device's: a volatile load or store at a constant address
    of no object of the program.  Accesses of types of scalable size
    ([fixedTypes]), in other address spaces than the program's ([programs]) and
    of no bytes have none. *)
Theorem accesses_guarded ledger is_ k i a e :
  is_ !! k = Some i -> touches (mi_op i) a e -> fixedTypes (mi_op i) -> programs a -> e <> inl 0 ->
  ofDevice (mi_op i) \/ isUnsafe (mi_location i) = true \/ insideNamed a e
  \/ exists here m, snd (insertGuards ledger is_) !! k = Some here /\ m ∈ here /\ guards a e m.
Proof.
  intros Hk Ht Hfix Hp He. destruct (decide (ofDevice (mi_op i))) as [Ed|Ed]; [by left|right].
  destruct (found_for _ _ _ Ht Hfix Hp Ed He) as (access & Hin & Ea & Hs & Hx).
  destruct (insertGuards_at ledger is_ k i Hk) as [ledger1 Hat]. destruct (insertAll_in ledger1 (mi_location i) _ access Hin) as [ledger0 Hsub].
  destruct (insertOne_guards ledger0 (mi_location i) access e Hs Hx) as [Hn|[Hu|(m & Hm & Hg)]].
  - right. left. by rewrite <- Ea.
  - by left.
  - right. right. eexists _, m. split; [exact Hat|]. split; [by apply Hsub|]. by rewrite <- Ea.
Qed.

(** ** Ledger rows *)

Definition rowOf (m : inserted) : option Z := match m with InsertedGuard _ _ _ _ r | InsertedRange _ _ _ r => Some r | InsertedDisjoint _ _ _ => None end.

(** The row says where the guard is, and what it guards. *)
Definition describes (l : option location) (m : inserted) (r : Ledger.Ledger.LedgerRow) : Prop :=
  Ledger.Ledger.function r = functionName
  /\ (Ledger.Ledger.file r, Ledger.Ledger.line r, Ledger.Ledger.column r) = positionOf normalize l
  /\ Ledger.Ledger.outcome r = Ledger.Ledger.Guarded
  /\ match m with InsertedGuard _ width _ _ _ => Ledger.Ledger.bytes r = width | _ => True end.

Abbreviation rows := Ledger.Ledger.rows.

(** The markers of [out], put while the ledger grew to [ledger']. *)
Definition recorded (l : option location) (ledger' : Ledger.Ledger.EnforcementLedger) (m : inserted) : Prop :=
  forall r, rowOf m = Some r -> Z.of_nat (length (rows ledger')) <= 2 ^ 32 -> exists x, rows ledger' !! Z.to_nat r = Some x /\ describes l m x.

Lemma recorded_later l ledger ledger' m : rows ledger `prefix_of` rows ledger' -> recorded l ledger m -> recorded l ledger' m.
Proof.
  intros [new Hnew] Hr r Er Hlen. destruct (Hr r Er) as (x & Hx & Hd); [rewrite Hnew, length_app in Hlen; lia|].
  exists x. split; [|done]. rewrite Hnew. by apply lookup_app_l_Some.
Qed.

Lemma row_adds ledger l o n outcome why :
  exists ledger' x, row normalize functionName (Some ledger) l o n outcome why = (Some ledger', Z.of_nat (length (rows ledger)) mod 2 ^ 32)
    /\ rows ledger' = rows ledger ++ [x] /\ Ledger.Ledger.function x = functionName
    /\ (Ledger.Ledger.file x, Ledger.Ledger.line x, Ledger.Ledger.column x) = positionOf normalize l
    /\ Ledger.Ledger.outcome x = outcome /\ Ledger.Ledger.bytes x = n.
Proof. unfold row. destruct (positionOf normalize l) as [[file line] column]. cbn. by eexists _, _. Qed.

Lemma insertOne_records ledger l access :
  exists ledger', fst (insertOne (Some ledger) l access) = Some ledger' /\ rows ledger `prefix_of` rows ledger'
    /\ forall m, m ∈ snd (insertOne (Some ledger) l access) -> recorded l ledger' m.
Proof.
  unfold GuardInsert.insertOne. destruct (fd_source access) as [source|].
  { exists ledger. split; [done|]. split; [done|]. intros m Hm. destruct (isUnsafe l); cbn in Hm; [set_solver|].
    apply list_elem_of_singleton in Hm as ->. by intros r. }
  destruct (match fd_length access with None => _ | Some _ => _ end).
  { exists ledger. split; [done|]. split; [done|]. intros m Hm. cbn in Hm. set_solver. }
  destruct (isUnsafe l).
  - destruct (row_adds ledger l (fd_operation access) (fd_width access) Ledger.Ledger.Unguarded "unsafe"%string) as (ledger' & x & E & Er & _).
    rewrite E. exists ledger'. split; [done|]. split; [rewrite Er; by apply prefix_app_r|]. cbn. intros m Hm. set_solver.
  - set (why := if bool_decide (is_Some (fd_length access)) || (113 <? fd_width access) then "range"%string else "access"%string).
    destruct (row_adds ledger l (fd_operation access) (fd_width access) Ledger.Ledger.Guarded why) as (ledger' & x & E & Er & Hf & Hp & Ho & Hb).
    rewrite E. exists ledger'.
    assert (Hat : forall r, r = Z.of_nat (length (rows ledger)) mod 2 ^ 32 -> Z.of_nat (length (rows ledger')) <= 2 ^ 32 ->
      rows ledger' !! Z.to_nat r = Some x).
    { intros r -> Hlen. rewrite Er, length_app in Hlen. cbn in Hlen. rewrite Z.mod_small, Nat2Z.id, Er by lia. by apply list_lookup_middle. }
    destruct (fd_length access); cbn; (split; [done|]; split; [rewrite Er; by apply prefix_app_r|]);
      intros m Hm%list_elem_of_singleton; subst m; intros r [= <-] Hlen; exists x; (split; [by apply Hat|]); by split_and!.
Qed.

Lemma insertAll_records l found : forall ledger,
  exists ledger', fst (insertAll (Some ledger) l found) = Some ledger' /\ rows ledger `prefix_of` rows ledger'
    /\ forall m, m ∈ snd (insertAll (Some ledger) l found) -> recorded l ledger' m.
Proof.
  induction found as [|access found IH]; intros ledger; [exists ledger; split; [done|]; split; [done|]; cbn; set_solver|].
  cbn. destruct (insertOne_records ledger l access) as (ledger1 & E1 & P1 & M1).
  destruct (insertOne (Some ledger) l access) as [l1 here]. cbn in E1, M1. subst l1.
  destruct (IH ledger1) as (ledger2 & E2 & P2 & M2). destruct (insertAll (Some ledger1) l found) as [l2 there]. cbn in *. subst l2.
  exists ledger2. split; [done|]. split; [by etrans|]. intros m [Hm|Hm]%elem_of_app; [by eapply recorded_later, M1|by apply M2].
Qed.

(** With a ledger, each marker a function gets names its own row, which
    says that its bytes are guarded, and where. *)
Theorem rows_name_guards ledger is_ ledger' out k i here m r :
  insertGuards (Some ledger) is_ = (Some ledger', out) -> Z.of_nat (length (rows ledger')) <= 2 ^ 32 ->
  is_ !! k = Some i -> out !! k = Some here -> m ∈ here -> rowOf m = Some r ->
  exists x, rows ledger' !! Z.to_nat r = Some x /\ describes (mi_location i) m x.
Proof.
  intros E Hlen Hi Hh Hm Hr.
  enough (Hgen : rows ledger `prefix_of` rows ledger' /\ recorded (mi_location i) ledger' m) by (by apply Hgen).
  revert ledger out k E Hi Hh. induction is_ as [|x is_ IH]; intros ledger out k E Hi Hh; [done|]. cbn in E.
  destruct (insertAll_records (mi_location x) (collect (mi_op x)) ledger) as (ledger1 & E1 & P1 & M1).
  destruct (insertAll (Some ledger) (mi_location x) (collect (mi_op x))) as [l1 first]. cbn in E1, M1. subst l1.
  assert (Hlast : forall js led led' o, insertGuards (Some led) js = (Some led', o) -> rows led `prefix_of` rows led').
  { clear. induction js as [|j js IHj]; intros led led' o Ej; cbn in Ej; [by injection Ej as <- _|].
    destruct (insertAll_records (mi_location j) (collect (mi_op j)) led) as (led1 & F1 & Q1 & _).
    destruct (insertAll (Some led) (mi_location j) (collect (mi_op j))) as [x1 y1]. cbn in F1. subst x1.
    destruct (insertGuards (Some led1) js) as [[led2|] there] eqn:E2; [|done]. injection Ej as <- _. etrans; [exact Q1|by eapply IHj]. }
  destruct (insertGuards (Some ledger1) is_) as [l2 there] eqn:E2. injection E as -> <-. pose proof (Hlast _ _ _ _ E2) as P2.
  split; [by etrans|]. destruct k as [|k]; cbn in Hi, Hh.
  - injection Hi as ->. injection Hh as ->. by eapply recorded_later, M1.
  - by eapply IH.
Qed.
End Inserted.

(** ** What the later passes read *)

Lemma flags_read alignment k write : alignment = 2 ^ k -> 0 <= k < 64 -> (write = 0 \/ write = 1) ->
  let bits := guardFlags alignment write in
  Z.land (Z.shiftr bits MarkerAlignShift) 63 = k /\ Z.testbit bits 0 = (write =? 1) /\ Z.testbit bits 1 = false.
Proof.
  intros -> Hk Hw bits. unfold bits, guardFlags, MarkerAlignShift. rewrite Z.log2_pow2 by lia.
  assert (Hsmall : forall n, 0 <= n -> Z.testbit (Z.shiftl k 8) n = Z.testbit k (n - 8)) by (intros n Hn; by rewrite Z.shiftl_spec by lia).
  split; [|split].
  - apply Z.bits_inj'. intros n Hn. rewrite Z.land_spec, Z.shiftr_spec, Z.lor_spec, Hsmall by lia. replace (n + 8 - 8) with n by lia.
    assert (Z.testbit write (n + 8) = false) as -> by (destruct Hw as [-> | ->]; [apply Z.testbit_0_l|apply Z.bits_above_log2; cbn; lia]).
    cbn. change 63 with (Z.ones 6). rewrite Z.testbit_ones_nonneg by lia. destruct (Z.ltb_spec n 6); [by rewrite andb_true_r|].
    rewrite andb_false_r. destruct (decide (k = 0)) as [->|]; [by rewrite Z.testbit_0_l|]. symmetry. apply Z.bits_above_log2; [lia|].
    apply Z.log2_lt_pow2; [lia|]. assert (2 ^ 6 <= 2 ^ n) by (apply Z.pow_le_mono_r; lia). lia.
  - rewrite Z.lor_spec, Hsmall, (Z.testbit_neg_r k) by lia. by destruct Hw as [-> | ->].
  - rewrite Z.lor_spec, Hsmall, (Z.testbit_neg_r k) by lia. by destruct Hw as [-> | ->].
Qed.

(** C24: what [insertGuard] writes into a marker's flags [accessOf] reads back:
    the pointer, the bytes, the alignment, whether it writes, the base to test
    and the row. *)
Theorem guard_read_back id pointer width k write nullBase row :
  0 <= k < 64 -> 0 <= row < 2 ^ 32 ->
  match insertGuard (AddressOf pointer) width (2 ^ k) (if write : bool then 1 else 0) nullBase row with
  | InsertedGuard _ width' flags base row' =>
    exists a, accessOf (markerOfGuard id pointer width' flags base row') = Some a
      /\ a_marker a = id /\ a_kind a = KGuard /\ a_pointer a = pointer /\ a_width a = width /\ a_length a = None /\ a_alignment a = 2 ^ k
      /\ a_write a = write /\ a_pruned a = false /\ a_nullBase a = nullBase /\ a_row a = row /\ a_state a = SGuard
  | _ => False
  end.
Proof.
  intros Hk Hrow. unfold insertGuard. eexists. split; [reflexivity|]. unfold accessOf, markerOfGuard. cbn [mk_flags mk_name mk_length mk_base mk_row mk_pointer mk_id].
  destruct (flags_read (2 ^ k) k (if write then 1 else 0) eq_refl Hk ltac:(destruct write; auto)) as (H1 & H2 & H3).
  rewrite H1, H2, H3, (Z.mod_small row) by lia. rewrite (bool_decide_true (MarkerGuard = MarkerGuard)) by done.
  rewrite (bool_decide_false (MarkerGuard = MarkerString)) by done. cbn. split_and!; try done. by destruct write.
Qed.

(** ** Barriers *)

(** Behind each start and in front of each end stands a barrier; [prev]: one
    stands in front of the first instruction. *)
Fixpoint bracketed (prev : bool) (l : list instruction) : bool :=
  match l with
  | [] => true
  | i :: rest =>
    (negb (isLifetimeStart i) || scopeNext rest) && (negb (isLifetimeEnd i) || prev) && bracketed (isScope i) rest
  end.

Lemma scope_no_lifetime i : isScope i = true -> isLifetimeStart i = false /\ isLifetimeEnd i = false.
Proof. unfold isScope, isLifetimeStart, isLifetimeEnd. by destruct (i_op i). Qed.

Lemma lifetime_no_scope i : isLifetimeStart i = true \/ isLifetimeEnd i = true -> isScope i = false.
Proof. intros Hi. destruct (isScope i) eqn:E; [|done]. apply scope_no_lifetime in E as [E1 E2]. destruct Hi; congruence. Qed.

Lemma start_no_end i : isLifetimeStart i = true -> isLifetimeEnd i = false.
Proof. unfold isLifetimeStart, isLifetimeEnd. destruct (i_op i) as [| |id nf|c nf|]; try done. by destruct id. Qed.

Lemma barrier_is n : isScope (barrier n) = true /\ isLifetimeStart (barrier n) = false /\ isLifetimeEnd (barrier n) = false.
Proof. done. Qed.

Lemma scopesFrom_head prev l next : scopeNext l = true -> scopeNext (fst (scopesFrom prev l next)) = true.
Proof.
  destruct l as [|i rest]; [done|]. cbn. intros Hi. destruct (scope_no_lifetime i Hi) as [-> ->].
  destruct (scopesFrom (isScope i) rest next) as [rest' next']. done.
Qed.

Lemma bracketed_barrier prev n rest : bracketed prev (barrier n :: rest) = bracketed true rest.
Proof. reflexivity. Qed.

Lemma scopesFrom_bracketed l : forall prev next, bracketed prev (fst (scopesFrom prev l next)) = true.
Proof.
  induction l as [|i rest IH]; intros prev next; [done|]. cbn [scopesFrom].
  assert (Hcons : forall rest', (isLifetimeStart i = true -> scopeNext rest' = true) -> (isLifetimeEnd i = true -> prev = true) ->
    bracketed (isScope i) rest' = true -> bracketed prev (i :: rest') = true).
  { intros rest' Hs He Hb. cbn [bracketed]. rewrite Hb. destruct (isLifetimeStart i); [rewrite Hs by done|];
      (destruct (isLifetimeEnd i); [by rewrite He|done]). }
  destruct (isLifetimeStart i) eqn:Es.
  - pose proof (start_no_end i Es) as Ee. pose proof (lifetime_no_scope i (or_introl Es)) as Ei. rewrite Ee, Ei in Hcons.
    destruct (scopeNext rest) eqn:En.
    + pose proof (scopesFrom_head false rest next En) as Hh. pose proof (IH false next) as Hb.
      destruct (scopesFrom false rest next) as [rest' next']. by apply Hcons.
    + pose proof (IH true (S next)) as Hb. destruct (scopesFrom true rest (S next)) as [rest' next']. by apply Hcons.
  - destruct (isLifetimeEnd i) eqn:Ee.
    + pose proof (lifetime_no_scope i (or_intror Ee)) as Ei. rewrite Ei in Hcons. destruct prev.
      * pose proof (IH false next) as Hb. destruct (scopesFrom false rest next) as [rest' next']. by apply Hcons.
      * pose proof (IH false (S next)) as Hb. destruct (scopesFrom false rest (S next)) as [rest' next']. cbn [fst] in *.
        rewrite bracketed_barrier. cbn [bracketed]. by rewrite Es, Ee, Ei, Hb.
    + pose proof (IH (isScope i) next) as Hb. destruct (scopesFrom (isScope i) rest next) as [rest' next']. by apply Hcons.
Qed.

Lemma bracketed_stays l : forall prev next, bracketed prev l = true -> scopesFrom prev l next = (l, next).
Proof.
  induction l as [|i rest IH]; intros prev next Hb; [done|]. cbn in Hb. apply andb_true_iff in Hb as [[Hs He]%andb_true_iff Hr]. cbn [scopesFrom].
  destruct (isLifetimeStart i) eqn:Es.
  - cbn in Hs. rewrite Hs. rewrite (lifetime_no_scope i (or_introl Es)) in Hr. by rewrite IH.
  - destruct (isLifetimeEnd i) eqn:Ee; [|by rewrite IH]. cbn in He. subst prev. rewrite (lifetime_no_scope i (or_intror Ee)) in Hr. by rewrite IH.
Qed.

Lemma scopesFrom_others l : forall prev next,
  List.filter (fun i => negb (isScope i)) (fst (scopesFrom prev l next)) = List.filter (fun i => negb (isScope i)) l.
Proof.
  induction l as [|i rest IH]; intros prev next; [done|]. cbn [scopesFrom].
  assert (Hcons : forall l' r, List.filter (fun i => negb (isScope i)) l' = List.filter (fun i => negb (isScope i)) r ->
    List.filter (fun i => negb (isScope i)) (i :: l') = List.filter (fun i => negb (isScope i)) (i :: r)) by (intros l' r E; cbn; by rewrite E).
  destruct (isLifetimeStart i) eqn:Es; [destruct (scopeNext rest)|destruct (isLifetimeEnd i) eqn:Ee; [destruct prev|]].
  - pose proof (IH false next). destruct (scopesFrom false rest next). by apply Hcons.
  - pose proof (IH true (S next)). destruct (scopesFrom true rest (S next)). apply Hcons. done.
  - pose proof (IH false next). destruct (scopesFrom false rest next). by apply Hcons.
  - pose proof (IH false (S next)). destruct (scopesFrom false rest (S next)). cbn. apply Hcons. done.
  - pose proof (IH (isScope i) next). destruct (scopesFrom (isScope i) rest next). by apply Hcons.
Qed.

(** The barriers stand right behind every start of a lifetime and right in
    front of every end, are put once however often the pass runs, and leave
    all else as it was. *)
Theorem barriers_once f next :
  let '(f', next') := addScopes f next in
  Forall (fun b => bracketed false (instructions b) = true) f' /\ addScopes f' next' = (f', next')
  /\ dropScopes false f' = dropScopes false f /\ map successors f' = map successors f.
Proof.
  revert next. induction f as [|b f IH]; intros next; [cbn; by split_and!|]. cbn [addScopes].
  pose proof (scopesFrom_bracketed (instructions b) false next) as Hb. pose proof (scopesFrom_others (instructions b) false next) as Ho.
  destruct (scopesFrom false (instructions b) next) as [l next1]. cbn in Hb, Ho. specialize (IH next1).
  destruct (addScopes f next1) as [f' next2]. destruct IH as (H1 & H2 & H3 & H4). split_and!.
  - by constructor.
  - cbn. rewrite (bracketed_stays l false next2 Hb), H2. done.
  - unfold dropScopes in *. cbn [map andb instructions successors] in *. by rewrite Ho, H3.
  - cbn. by rewrite H4.
Qed.

(** ** Guards removed early *)

Lemma position_at f id b k : position f id = Some (b, k) -> exists i, instrAt f b k = Some i /\ i_id i = id.
Proof.
  unfold position. intros Hp.
  assert (Hin : (b, k) ∈ omap (fun b => match list_find (fun i => i_id i = id) (instructions (blockAt f b)) with
    | Some (k, _) => Some (b, k) | None => None end) (seq 0 (length f))).
  { revert Hp. destruct (omap _ _) as [|x l]; [done|]. intros [= ->]. apply list_elem_of_here. }
  apply list_elem_of_omap in Hin as (b' & _ & Hf). destruct (list_find _ _) as [[k' i]|] eqn:E; [|done]. injection Hf as -> ->.
  apply list_find_Some in E as (Hi & Hid & _). by exists i.
Qed.

Lemma pruned_exact {V : Values} f m width flags row base offset :
  mk_name m = MarkerGuard -> mk_length m = ConstantInt width -> mk_flags m = ConstantInt flags -> mk_row m = ConstantInt row ->
  stripConstantOffsets (mk_pointer m) = (base, offset) ->
  pruned f m = true
  <-> (- 2 ^ 62 <= offset < 2 ^ 62
       /\ (exists size, exactSize (objectOf base) = Some size /\ 0 <= offset <= size /\ offset + width <= size)
       /\ forall b k isStatic size, objectOf base = AllocaInst isStatic size -> position f (mk_id m) = Some (b, k) -> ~ outOfScope f base b k).
Proof.
  intros Hn Hw Hf Hr Hs. unfold pruned, provenAt. rewrite bool_decide_true, Hw, Hf, Hr by done. cbn [andb]. unfold namedObject. rewrite Hs.
  assert (Hinside : (- 2 ^ 62 <=? offset) && (offset <? 2 ^ 62) && insideAt (objectOf base) offset width = true
    <-> - 2 ^ 62 <= offset < 2 ^ 62 /\ exists size, exactSize (objectOf base) = Some size /\ 0 <= offset <= size /\ offset + width <= size).
  { rewrite !andb_true_iff, Z.leb_le, Z.ltb_lt. unfold insideAt. destruct (exactSize (objectOf base)) as [size|].
    - rewrite !andb_true_iff, !Z.leb_le. split; [intros (H1 & H2); split; [done|]; exists size; split; [done|]; lia|].
      intros (H1 & size' & [= <-] & H2). lia.
    - split; [by intros [_ H]|by intros (_ & size & H & _)]. }
  destruct ((- 2 ^ 62 <=? offset) && (offset <? 2 ^ 62) && insideAt (objectOf base) offset width) eqn:E.
  2:{ split; [done|]. intros (H1 & H2 & _). by apply (proj2 Hinside (conj H1 H2)). }
  destruct (proj1 Hinside eq_refl) as [H1 H2].
  destruct (objectOf base) as [isStatic size| |] eqn:Eo; [|by split; [intros _; split; [exact H1|split; [exact H2|]]|]|by split; [intros _; split; [exact H1|split; [exact H2|]]|]].
  destruct (position f (mk_id m)) as [[b k]|] eqn:Ep; [|by split; [intros _; split; [exact H1|split; [exact H2|]]|]].
  destruct (position_at _ _ _ _ Ep) as (i & Hi & _). apply lookup_lt_Some in Hi.
  assert (Hscope : mayBeOutOfScope f base b k = true <-> outOfScope f base b k) by (apply scopeAfter_exact; [apply deadAtEntry_exact|lia]).
  split.
  - intros Hlive%negb_true_iff. split; [done|]. split; [done|]. intros b' k' s z _ [= <- <-] Ho. apply Hscope in Ho. congruence.
  - intros (_ & _ & Hno). apply negb_true_iff. destruct (mayBeOutOfScope f base b k) eqn:Em; [|done]. exfalso. eapply Hno; [done..|by apply Hscope].
Qed.

(** A guard of constant size whose pointer is an object's start and a constant,
    whose bytes lie within the object's size, and which no way through the
    function reaches past an end of the object's scope with no start since. *)
Definition insideInScope {V : Values} (f : function) (m : markerCall) : Prop :=
  exists width flags row base offset,
    mk_name m = MarkerGuard /\ mk_length m = ConstantInt width /\ mk_flags m = ConstantInt flags /\ mk_row m = ConstantInt row
    /\ stripConstantOffsets (mk_pointer m) = (base, offset) /\ - 2 ^ 62 <= offset < 2 ^ 62
    /\ (exists size, exactSize (objectOf base) = Some size /\ 0 <= offset <= size /\ offset + width <= size)
    /\ forall b k isStatic size, objectOf base = AllocaInst isStatic size -> position f (mk_id m) = Some (b, k) -> ~ outOfScope f base b k.

Lemma pruned_inside {V : Values} f m : pruned f m = true <-> insideInScope f m.
Proof.
  destruct (stripConstantOffsets (mk_pointer m)) as [base offset] eqn:Es. split.
  - intros Hp. pose proof Hp as Hp0. unfold pruned, provenAt in Hp. apply andb_true_iff in Hp as [Hn%bool_decide_eq_true Hp].
    destruct (mk_length m) as [width|] eqn:Ew; [|done]. destruct (mk_flags m) as [flags|] eqn:Ef; [|done]. destruct (mk_row m) as [row|] eqn:Er; [|done].
    exists width, flags, row, base, offset. do 5 (split; [done|]). by apply (pruned_exact f m width flags row base offset).
  - intros (width & flags & row & base' & offset' & Hn & Hw & Hf & Hr & Es' & H). by apply (pruned_exact f m width flags row base' offset').
Qed.

Lemma filter_pruned {V : Values} f (markers : list markerCall) m :
  (m ∈ List.filter (pruned f) markers <-> m ∈ markers /\ insideInScope f m)
  /\ (m ∈ List.filter (fun m => negb (pruned f m)) markers <-> m ∈ markers /\ ~ insideInScope f m).
Proof.
  rewrite <- pruned_inside, !list_elem_of_In, !filter_In, negb_true_iff. split; [done|]. by rewrite not_true_iff_false.
Qed.

Lemma filter_all {A} (l : list A) : List.filter (fun _ => true) l = l.
Proof. induction l as [|x l IH]; cbn; [done|]. by rewrite IH. Qed.

Lemma filter_sublist {A} (P : A -> bool) (l : list A) : List.filter P l `sublist_of` l.
Proof. induction l as [|x l IH]; cbn; [done|]. destruct (P x); by constructor. Qed.

(** C23: before the optimizer runs, the markers taken away are exactly those of
    bytes inside an object that is in scope at the marker: the rest stays in
    order, each block keeps its other instructions, and each one taken away has
    its copy in the ledger.  In verify mode all stay, and those are marked as
    proven. *)
Theorem prune_exact {V : Values} verify f next markers f' next' left copies :
  pruneGuards verify f next markers = (f', next', left, copies) ->
  let f1 := fst (addScopes (dropScopes true f) next) in
  if verify : bool then
    f' = f1 /\ copies = [] /\ length left = length markers
    /\ forall k m, markers !! k = Some m ->
         (~ insideInScope f1 m -> left !! k = Some m)
         /\ (insideInScope f1 m -> forall flags, mk_flags m = ConstantInt flags ->
              left !! k = Some (mkMarker (mk_id m) (mk_name m) (mk_pointer m) (mk_length m)
                                         (ConstantInt (Z.lor flags MarkerProven)) (mk_base m) (mk_row m)))
  else
    (left `sublist_of` markers /\ forall m, m ∈ left <-> m ∈ markers /\ ~ insideInScope f1 m)
    /\ (forall b, successors (blockAt f' b) = successors (blockAt f1 b)
          /\ instructions (blockAt f' b) `sublist_of` instructions (blockAt f1 b)
          /\ forall i, i ∈ instructions (blockAt f' b)
                       <-> i ∈ instructions (blockAt f1 b) /\ ~ exists m, m ∈ markers /\ mk_id m = i_id i /\ insideInScope f1 m)
    /\ forall row, (row, false, "in-bounds"%string) ∈ copies
                   <-> exists m n, m ∈ markers /\ insideInScope f1 m /\ mk_row m = ConstantInt n /\ row = n mod 2 ^ 32.
Proof.
  unfold pruneGuards. destruct (addScopes (dropScopes true f) next) as [f1 next1]. cbn [fst]. unfold pruneMarkers. destruct verify; intros [= <- _ <- <-].
  - split_and!; [|done|by rewrite length_map|].
    + rewrite <- (map_id f1) at 2. apply map_ext. intros [l ss]. cbn. f_equal. rewrite <- (filter_all l) at 2. by apply filter_ext.
    + intros k m Hm. rewrite list_lookup_fmap, Hm. cbn. split.
      * intros Hno. rewrite <- pruned_inside in Hno. apply not_true_iff_false in Hno. by rewrite Hno.
      * intros Hin%pruned_inside flags Hf. rewrite Hin. unfold provenMarker. by rewrite Hf.
  - split; [split; [apply filter_sublist|intros m; by apply filter_pruned]|]. split.
    + intros b. set (gone := map mk_id (List.filter (pruned f1) markers)).
      assert (Eb : blockAt (map (fun b => mkBlock (List.filter (fun i => negb (bool_decide (i_id i ∈ gone))) (instructions b)) (successors b)) f1) b
        = mkBlock (List.filter (fun i => negb (bool_decide (i_id i ∈ gone))) (instructions (blockAt f1 b))) (successors (blockAt f1 b))).
      { unfold blockAt. by rewrite <- (map_nth (fun b => mkBlock (List.filter (fun i => negb (bool_decide (i_id i ∈ gone))) (instructions b)) (successors b))). }
      rewrite Eb. split; [done|]. split; [apply filter_sublist|]. intros i.
      assert (Hgone : i_id i ∈ gone <-> exists m, m ∈ markers /\ mk_id m = i_id i /\ insideInScope f1 m).
      { unfold gone. rewrite list_elem_of_fmap. setoid_rewrite (proj1 (filter_pruned f1 markers _)). naive_solver. }
      cbn [instructions]. rewrite (list_elem_of_In _ i), filter_In, negb_true_iff, bool_decide_eq_false, Hgone, <- list_elem_of_In. done.
    + intros row. rewrite list_elem_of_fmap. setoid_rewrite (proj1 (filter_pruned f1 markers _)). split.
      * intros (m & E & Hm & Hin). destruct (mk_row m) as [n|v] eqn:Er; [exists m, n; injection E as ->; by split_and!|].
        exfalso. destruct Hin as (width & flags & row' & base & offset & _ & _ & _ & Hr & _). congruence.
      * intros (m & n & Hm & Hin & Hr & ->). exists m. rewrite Hr. by split_and!.
Qed.
