(* ===== verification/GuardPlaces.v ===== *)
(** * Where checks are put

    [lib/Frontend/GuardExpand.cpp], lines 695 to 946 but for the rules: where
    the shadow byte of a root is loaded, the test of a copy's operands, the
    sites of calls inlined from artificial functions, the locals whose frame
    the guards need, and the order in which markers become checks.

    The dominator tree and the loops of the function are parameters. *)

From Stdlib Require Import String.
From stdpp Require Import gmap sets strings relations.
From S2P Require Import Prelude GuardRules GuardRuns GuardInsert.
Local Open Scope Z_scope.

(** ** Loads of shadow bytes *)

Section Placed.
Context (f : function).

(** The immediate dominator of a block, the nearest common one of two, and how
    many loops a block is in. *)
Context (idom : nat -> option nat) (findNearestCommonDominator : nat -> nat -> nat) (loopDepth : nat -> nat).

(** The block every access's block is dominated by; [blocks] the accesses'. *)
Definition commonBlock (first : nat) (blocks : list nat) : nat := fold_left findNearestCommonDominator blocks first.

(** Up the dominator tree, out of the loops the root does not change in. *)
Fixpoint climb (fuel : nat) (depth block : nat) : option nat :=
  match fuel with
  | O => None
  | S fuel' =>
    if (depth <? loopDepth block)%nat then
      match idom block with Some above => climb fuel' depth above | None => Some block end
    else Some block
  end.

(** The first of the markers in the block, else its terminator. *)
Definition loadAt (block : nat) (markers : list nat) : nat :=
  match list_find (fun i => i_id i ∈ markers) (instructions (blockAt f block)) with
  | Some (k, _) => k
  | None => pred (length (instructions (blockAt f block)))
  end.

(** [definition]: the block of the root's definition, none for an argument or
    a global; [accesses]: the block and the marker of each access. *)
Definition placeLoad (definition : option nat) (accesses : list (nat * nat)) : option (nat * nat) :=
  match accesses with
  | [] => None
  | (first, _) :: _ =>
    let depth := match definition with Some b => loopDepth b | None => O end in
    match climb (S (length f)) depth (commonBlock first (map fst accesses)) with
    | None => None
    | Some block => Some (block, loadAt block (map snd accesses))
    end
  end.

(** *** Where that is *)

(** Paths of blocks from the entry. *)
Inductive path : list nat -> nat -> Prop :=
  | path_entry : path [0%nat] 0
  | path_edge l b b' : path l b -> b' ∈ successors (blockAt f b) -> path (b' :: l) b'.

Definition dominates (a b : nat) : Prop := forall l, path l b -> a ∈ l.

(** What LLVM's analyses say. *)
Record dominators_ok : Prop := {
  dk_idom : forall b a, idom b = Some a -> dominates a b;
  dk_idom_least : forall a b above, dominates a b -> a <> b -> idom b = Some above -> dominates a above;
  (** the tree's height is no more than the function's blocks *)
  dk_height : exists height, (forall b, (height b <= length f)%nat) /\ forall b a, idom b = Some a -> (height a < height b)%nat;
  dk_common : forall a b, dominates (findNearestCommonDominator a b) a /\ dominates (findNearestCommonDominator a b) b;
  dk_common_least : forall d a b, dominates d a -> dominates d b -> dominates d (findNearestCommonDominator a b)
}.

Context (Hok : dominators_ok).

Lemma dominates_refl b : dominates b b.
Proof. intros l Hl. destruct Hl; set_solver. Qed.

Lemma path_prefix l b a : path l b -> a ∈ l -> exists l', path l' a /\ l' ⊆ l.
Proof.
  induction 1 as [|l b b' Hp IH Hs]; intros Ha.
  - apply list_elem_of_singleton in Ha as ->. exists [0%nat]. split; [constructor|done].
  - apply elem_of_cons in Ha as [->|Ha]; [exists (b' :: l); split; [by econstructor|done]|].
    destruct (IH Ha) as (l' & Hp' & Hsub). exists l'. split; [done|]. set_solver.
Qed.

Lemma dominates_trans a b c : dominates a b -> dominates b c -> dominates a c.
Proof. intros Hab Hbc l Hl. destruct (path_prefix l c b Hl (Hbc l Hl)) as (l' & Hp & Hsub). by apply Hsub, Hab. Qed.

Lemma commonBlock_dominates blocks : forall first,
  dominates (commonBlock first blocks) first /\ forall b, b ∈ blocks -> dominates (commonBlock first blocks) b.
Proof.
  induction blocks as [|b blocks IH]; intros first; [split; [apply dominates_refl|set_solver]|]. cbn.
  destruct (IH (findNearestCommonDominator first b)) as [H1 H2]. destruct (dk_common Hok first b) as [H3 H4].
  split; [by eapply dominates_trans|]. intros b' [->|Hb]%elem_of_cons; [by eapply dominates_trans|by apply H2].
Qed.

Lemma commonBlock_least d blocks : forall first,
  dominates d first -> (forall b, b ∈ blocks -> dominates d b) -> dominates d (commonBlock first blocks).
Proof.
  induction blocks as [|b blocks IH]; intros first Hf Hb; [done|]. cbn. apply IH; [|set_solver].
  apply (dk_common_least Hok); [done|]. apply Hb. set_solver.
Qed.

Lemma climb_spec fuel : forall depth block,
  (forall height, (forall b, (height b <= length f)%nat) -> (forall b a, idom b = Some a -> (height a < height b)%nat) -> (height block < fuel)%nat ->
   exists block', climb fuel depth block = Some block' /\ dominates block' block
     /\ ((loopDepth block' <= depth)%nat \/ idom block' = None)
     /\ forall d, dominates d block -> (loopDepth d <= depth)%nat -> dominates d block').
Proof.
  induction fuel as [|fuel IH]; intros depth block height Hle Hup Hf; [lia|]. cbn [climb]. destruct (Nat.ltb_spec depth (loopDepth block)).
  - destruct (idom block) as [above|] eqn:Ei.
    + pose proof (Hup block above Ei). destruct (IH depth above height Hle Hup ltac:(lia)) as (block' & E & H1 & H2 & H3). exists block'.
      split; [done|]. split; [eapply dominates_trans; [exact H1|by apply (dk_idom Hok)]|]. split; [done|]. intros d Hd Hdd. apply H3; [|done].
      apply (dk_idom_least Hok d block above Hd); [|done]. intros ->. lia.
    + exists block. split; [done|]. split; [apply dominates_refl|]. split; [by right|]. done.
  - exists block. split; [done|]. split; [apply dominates_refl|]. split; [by left|]. done.
Qed.

Lemma loadAt_first block markers k i : instrAt f block k = Some i -> i_id i ∈ markers -> (loadAt block markers <= k)%nat.
Proof.
  intros Hi Hm. unfold loadAt. destruct (list_find _ _) as [[k' i']|] eqn:E.
  - apply list_find_Some in E as (_ & _ & Hfirst). destruct (Nat.le_gt_cases k' k) as [|Hlt]; [done|]. exfalso. by apply (Hfirst k i).
  - apply list_find_None in E. rewrite Forall_lookup in E. exfalso. by apply (E k i).
Qed.

(** The load of a root's shadow byte is placed where it runs before every
    access it is for, where the root is already defined, and outside every
    loop the root's definition is not in, up to the function's first block. *)
Theorem load_placed definition accesses :
  accesses <> [] -> (forall d, definition = Some d -> forall b m, (b, m) ∈ accesses -> dominates d b) ->
  exists block k, placeLoad definition accesses = Some (block, k)
    /\ (forall d, definition = Some d -> dominates d block)
    /\ (loopDepth block <= match definition with Some d => loopDepth d | None => 0 end \/ idom block = None)%nat
    /\ forall b m, (b, m) ∈ accesses -> dominates block b
         /\ (b = block -> forall j i, instrAt f b j = Some i -> i_id i = m -> (k <= j)%nat).
Proof.
  intros Hne Hdef. destruct accesses as [|[first m0] rest]; [done|]. unfold placeLoad. set (all := (first, m0) :: rest) in *.
  set (depth := match definition with Some d => loopDepth d | None => O end).
  destruct (dk_height Hok) as (height & Hle & Hup).
  destruct (climb_spec (S (length f)) depth (commonBlock first (map fst all)) height Hle Hup) as (block & E & Hdom & Hdepth & Hover).
  { pose proof (Hle (commonBlock first (map fst all))). lia. }
  rewrite E. exists block, (loadAt block (map snd all)). split; [done|].
  destruct (commonBlock_dominates (map fst all) first) as [_ Hcommon]. split_and!.
  - intros d ->. apply Hover; [|done]. apply commonBlock_least; [by apply (Hdef d eq_refl first m0), list_elem_of_here|].
    intros b ([b' m] & -> & Hin)%list_elem_of_fmap. by apply (Hdef d eq_refl b' m).
  - done.
  - intros b m Hin. split.
    + eapply dominates_trans; [exact Hdom|]. apply Hcommon. apply list_elem_of_fmap. by exists (b, m).
    + intros -> j i Hi <-. apply (loadAt_first block (map snd all) j i Hi). apply list_elem_of_fmap. by exists (block, i_id i).
Qed.
End Placed.

(** ** Copies *)

(** A copy's marker: removed, or the inline test. *)
Inductive disjointCode := DisjointRemoved | DisjointTested (destination source : nat) (length : operand).

Definition expandDisjoint {V : Values} (stripPointerCasts : nat -> nat) (isIdentifiedObject : nat -> bool)
    (destination source : nat) (length : operand) : disjointCode :=
  let first := getUnderlyingObject destination in
  let second := getUnderlyingObject source in
  if (stripPointerCasts destination =? stripPointerCasts source)%nat
     || (negb (first =? second)%nat && isIdentifiedObject first && isIdentifiedObject second)
  then DisjointRemoved else DisjointTested destination source length.

(** The test of the emitted code; true calls the runtime. *)
Definition overlapTest (destination source n : Z) : bool :=
  (destination <? add64 source n) && (source <? add64 destination n) && negb (destination =? source).

(** The code before a copy calls the runtime's [overlap] exactly when the
    operands share a byte and are not the same. *)
Theorem overlap_exact destination source n :
  0 <= destination -> 0 <= source -> 0 <= n -> destination + n < 2 ^ 64 -> source + n < 2 ^ 64 ->
  overlapTest destination source n = true
  <-> destination <> source /\ exists a, destination <= a < destination + n /\ source <= a < source + n.
Proof.
  intros Hd Hs Hn H1 H2. unfold overlapTest, add64. rewrite !wrap64_small by lia.
  rewrite !andb_true_iff, negb_true_iff, Z.eqb_neq, !Z.ltb_lt. split.
  - intros [[? ?] ?]. split; [done|]. exists (Z.max destination source). lia.
  - intros (? & a & ? & ?). lia.
Qed.

(** ** Sites of inlined calls *)

(** A call: where it is, and its arguments that are site records. *)
Record siteCall := mkSiteCall { sc_location : option location; sc_sites : list siteRecord }.

Fixpoint resiteArguments (report : bool) (sites : gmap siteKey siteRecord) (l : option location) (arguments : list siteRecord)
    : list siteRecord * gmap siteKey siteRecord :=
  match arguments with
  | [] => ([], sites)
  | record :: rest =>
    let '(record, sites) := site report sites l (st_flags record) in
    let '(rest, sites) := resiteArguments report sites l rest in
    (record :: rest, sites)
  end.

(** Only a call inlined from somewhere gets new sites. *)
Fixpoint resiteInlinedCalls (report : bool) (sites : gmap siteKey siteRecord) (calls : list siteCall) : list siteCall * gmap siteKey siteRecord :=
  match calls with
  | [] => ([], sites)
  | call :: rest =>
    let inlined := match sc_location call with Some l => negb (bool_decide (lo_inlinedAt l = [])) | None => false end in
    let '(arguments, sites) := if inlined then resiteArguments report sites (sc_location call) (sc_sites call) else (sc_sites call, sites) in
    let '(rest, sites) := resiteInlinedCalls report sites rest in
    (mkSiteCall (sc_location call) arguments :: rest, sites)
  end.

(** ** Locals the guards need *)

Section Tracked.
Context (getUnderlyingObjects : nat -> list nat) (isAlloca : nat -> bool) (uses : nat -> list use) (values : nat).

Definition insertNew (l : list nat) (v : nat) : list nat := if bool_decide (v ∈ l) then l else l ++ [v].

(** Those a guard that stays may reach (in verify mode, any), and those whose
    address escapes, in order. *)
Definition tracked (verify : bool) (accesses : list Access) (allocas : list nat) : list nat :=
  let reached := flat_map (fun a => if negb (bool_decide (a_state a = SGuard)) && negb verify then []
                                    else List.filter isAlloca (getUnderlyingObjects (a_pointer a))) accesses in
  let first := fold_left insertNew reached [] in
  fold_left (fun l v => if negb (bool_decide (v ∈ l)) && default true (escapes uses values v) then l ++ [v] else l) allocas first.

Lemma insertNew_in l reached v : v ∈ fold_left insertNew reached l <-> v ∈ l \/ v ∈ reached.
Proof.
  revert l. induction reached as [|x reached IH]; intros l; cbn; [set_solver|]. rewrite IH. unfold insertNew. case_bool_decide; set_solver.
Qed.

Lemma escaping_in l allocas v :
  v ∈ fold_left (fun l v => if negb (bool_decide (v ∈ l)) && default true (escapes uses values v) then l ++ [v] else l) allocas l
  <-> v ∈ l \/ (v ∈ allocas /\ default true (escapes uses values v) = true).
Proof.
  revert l. induction allocas as [|x allocas IH]; intros l; cbn [fold_left]; [set_solver|]. rewrite IH.
  destruct (decide (x ∈ l)) as [Hx|Hx].
  - rewrite (bool_decide_true (x ∈ l)) by done. cbn [negb andb]. rewrite elem_of_cons. split; [naive_solver|]. intros [?|[[->|?] ?]]; auto.
  - rewrite (bool_decide_false (x ∈ l)) by done. cbn [negb andb]. rewrite elem_of_cons. destruct (default true (escapes uses values x)) eqn:E.
    + rewrite elem_of_app, list_elem_of_singleton. split; [intros [[?| ->]|[? ?]]; auto|intros [?|[[->|?] ?]]; auto].
    + split; [naive_solver|]. intros [?|[[->|?] ?]]; auto. congruence.
Qed.

(** The locals that get a frame: exactly those. *)
Lemma tracked_in verify accesses allocas v :
  v ∈ tracked verify accesses allocas
  <-> (exists a, a ∈ accesses /\ (a_state a = SGuard \/ verify = true) /\ isAlloca v = true /\ v ∈ getUnderlyingObjects (a_pointer a))
      \/ (v ∈ allocas /\ default true (escapes uses values v) = true).
Proof.
  unfold tracked. rewrite escaping_in, insertNew_in. split; (intros [H|H]; [|by right]); left.
  - destruct H as [H|H]; [set_solver|]. apply list_elem_of_In, in_flat_map in H as (a & Ha & Hv). exists a. split; [by apply list_elem_of_In|].
    destruct (negb (bool_decide (a_state a = SGuard)) && negb verify) eqn:E; [done|]. apply filter_In in Hv as [Hv1 Hv2].
    split; [|split; [done|by apply list_elem_of_In]]. apply andb_false_iff in E as [E|E]; apply negb_false_iff in E; [left; by apply bool_decide_eq_true in E|by right].
  - destruct H as (a & Ha & Hs & Hal & Hv). right. apply list_elem_of_In, in_flat_map. exists a. split; [by apply list_elem_of_In|].
    assert (negb (bool_decide (a_state a = SGuard)) && negb verify = false) as ->.
    { destruct Hs as [->| ->]; [by rewrite bool_decide_true|by rewrite andb_false_r]. }
    apply filter_In. split; [by apply list_elem_of_In|done].
Qed.
End Tracked.

(** ** The order of expansion *)

(** Every marker but the strings', then the strings'. *)
Definition expandOrder (accesses : list Access) : list nat :=
  let isString i := match accesses !! i with Some a => bool_decide (a_kind a = KString) | None => false end in
  List.filter (fun i => negb (isString i)) (seq 0 (length accesses)) ++ List.filter isString (seq 0 (length accesses)).

Definition expandAll (verify : bool) (accesses : list Access) : list (nat * emitted) :=
  map (fun i => (i, GuardRules.expand verify accesses i)) (expandOrder accesses).
