(* ===== verification/Driver.v ===== *)
(** * The driver's command line

    [lib/Frontend/Driver.cpp]: WeaveC's own flags ([DriverOptions::consume]),
    what [runDriver] makes of a command line before it builds Clang's jobs,
    what [runCc1Job] makes of a [-cc1] line, the link line
    ([addRuntimeLibraries]), and the options enforcement sets
    ([configureEnforcement], [applyAsanCompat]).

    What LLVM and Clang answer (a path's extension, a file type, a triple's
    operating system), and what the file system holds, are the fields of the
    class [Toolchain]. *)

From Stdlib Require Import String Ascii.
From S2P Require Import Prelude.
Local Open Scope string_scope.
Local Open Scope Z_scope.

(** ** [llvm::StringRef] *)

(** [consume_front]: the rest of [s] behind the prefix [p]. *)
Fixpoint consume_front (p s : string) : option string :=
  match p, s with
  | EmptyString, _ => Some s
  | String a p', String b s' => if Ascii.eqb a b then consume_front p' s' else None
  | String _ _, EmptyString => None
  end.

Definition starts_with (s p : string) : bool :=
  match consume_front p s with Some _ => true | None => false end.

Fixpoint ends_with (s suffix : string) : bool :=
  String.eqb s suffix || match s with EmptyString => false | String _ s' => ends_with s' suffix end.

(** [split(c)]: the text before the first [c] and the text behind it; without
    one, the whole text and none. *)
Fixpoint split (c : ascii) (s : string) : string * string :=
  match s with
  | EmptyString => (EmptyString, EmptyString)
  | String a s' =>
    if Ascii.eqb a c then (EmptyString, s')
    else let '(first, second) := split c s' in (String a first, second)
  end.

(** [split(parts, c)]. *)
Fixpoint splitAll (c : ascii) (s : string) : list string :=
  match s with
  | EmptyString => [EmptyString]
  | String a s' =>
    if Ascii.eqb a c then EmptyString :: splitAll c s'
    else match splitAll c s' with
         | part :: rest => String a part :: rest
         | [] => [String a EmptyString]
         end
  end.

Fixpoint ltrim (c : ascii) (s : string) : string :=
  match s with
  | String a s' => if Ascii.eqb a c then ltrim c s' else s
  | EmptyString => EmptyString
  end.

Definition is_contained (l : list string) (s : string) : bool := existsb (String.eqb s) l.

(** ** Flags *)

Inductive Checks := Trap | CReport | Verify | CNone.

Definition checks_eqb (a b : Checks) : bool :=
  match a, b with
  | Trap, Trap | CReport, CReport | Verify, Verify | CNone, CNone => true
  | _, _ => false
  end.

Record DriverOptions := mkOptions {
  enabled : bool;
  checks : Checks;
  zeroInit : option bool;
  asanCompat : bool;
  colors : bool;
  ledger : string;
  summary : option bool;
  rpath : option string;
  spellings : list string
}.

Definition defaultOptions : DriverOptions :=
  mkOptions true Trap None true true EmptyString None None [].

Definition set_enabled (o : DriverOptions) (v : bool) :=
  mkOptions v (checks o) (zeroInit o) (asanCompat o) (colors o) (ledger o) (summary o) (rpath o) (spellings o).
Definition set_checks (o : DriverOptions) (v : Checks) :=
  mkOptions (enabled o) v (zeroInit o) (asanCompat o) (colors o) (ledger o) (summary o) (rpath o) (spellings o).
Definition set_zeroInit (o : DriverOptions) (v : bool) :=
  mkOptions (enabled o) (checks o) (Some v) (asanCompat o) (colors o) (ledger o) (summary o) (rpath o) (spellings o).
Definition set_asanCompat (o : DriverOptions) (v : bool) :=
  mkOptions (enabled o) (checks o) (zeroInit o) v (colors o) (ledger o) (summary o) (rpath o) (spellings o).
Definition set_colors (o : DriverOptions) (v : bool) :=
  mkOptions (enabled o) (checks o) (zeroInit o) (asanCompat o) v (ledger o) (summary o) (rpath o) (spellings o).
Definition set_ledger (o : DriverOptions) (v : string) :=
  mkOptions (enabled o) (checks o) (zeroInit o) (asanCompat o) (colors o) v (summary o) (rpath o) (spellings o).
Definition set_summary (o : DriverOptions) (v : bool) :=
  mkOptions (enabled o) (checks o) (zeroInit o) (asanCompat o) (colors o) (ledger o) (Some v) (rpath o) (spellings o).
Definition set_rpath (o : DriverOptions) (v : string) :=
  mkOptions (enabled o) (checks o) (zeroInit o) (asanCompat o) (colors o) (ledger o) (summary o) (Some v) (spellings o).
Definition push_spelling (o : DriverOptions) (arg : string) :=
  mkOptions (enabled o) (checks o) (zeroInit o) (asanCompat o) (colors o) (ledger o) (summary o) (rpath o)
            (spellings o ++ [arg])%list.

Definition enforces (o : DriverOptions) : bool := enabled o && negb (checks_eqb (checks o) CNone).

Definition zeroInitializes (o : DriverOptions) : bool :=
  enforces o && match zeroInit o with Some v => v | None => true end.

Definition invalidValue (arg value expected : string) : string :=
  "invalid value '" ++ value ++ "' in '" ++ arg ++ "'; expected " ++ expected.

(** The mode a [-fweavec-checks] value names. *)
Definition checksOf (value : string) : option Checks :=
  if String.eqb value "trap" then Some Trap
  else if String.eqb value "report" then Some CReport
  else if String.eqb value "verify" then Some Verify
  else if String.eqb value "none" then Some CNone
  else None.

(** A flag WeaveC consumed answers the options it leaves and what is wrong with
    it, [EmptyString] when nothing is; one that is not WeaveC's answers
    [None]. *)
Definition consumeValueFlag (o : DriverOptions) (arg : string) : option (DriverOptions * string) :=
  let '(flag, value) := split "=" arg in
  if negb (is_contained ["-fweavec-checks"; "-fweavec-ledger"] flag) then None
  else if String.eqb flag arg || String.eqb value EmptyString then
    Some (o, "missing value for '" ++ flag ++ "'")
  else if String.eqb flag "-fweavec-checks" then
    match checksOf value with
    | Some c => Some (push_spelling (set_checks o c) arg, EmptyString)
    | None => Some (push_spelling o arg, invalidValue arg value "trap, report, verify or none")
    end
  else Some (push_spelling (set_ledger o value) arg, EmptyString).

(** The flags spelled [-f[no-]<name>]. *)
Definition consumeSwitch (o : DriverOptions) (arg : string) : option (DriverOptions * string) :=
  let found :=
    match consume_front "-fno-" arg with
    | Some name => Some (name, false)
    | None => match consume_front "-f" arg with
              | Some name => Some (name, true)
              | None => None
              end
    end in
  match found with
  | None => None
  | Some (name, value) =>
    if String.eqb name "weavec" then Some (push_spelling (set_enabled o value) arg, EmptyString)
    else if String.eqb name "weavec-asan-compat" then
      Some (push_spelling (set_asanCompat o value) arg, EmptyString)
    else if String.eqb name "weavec-colors" then
      Some (push_spelling (set_colors o value) arg, EmptyString)
    else if String.eqb name "weavec-zero-init" then
      Some (push_spelling (set_zeroInit o value) arg, EmptyString)
    else if String.eqb name "weavec-summary" then
      Some (push_spelling (set_summary o value) arg, EmptyString)
    else if negb (starts_with name "weavec") then None
    else Some (o, "unknown WeaveC flag '" ++ arg ++ "'")
  end.

Definition consume (o : DriverOptions) (arg : string) : option (DriverOptions * string) :=
  match consumeValueFlag o arg with
  | Some r => Some r
  | None =>
    if String.eqb arg "-fno-weavec-rpath" then Some (set_rpath o EmptyString, EmptyString)
    else
      match consume_front "-fweavec-rpath" arg with
      | Some rest =>
        match consume_front "=" rest with
        | Some dir =>
          if String.eqb dir EmptyString then Some (o, "missing value for '-fweavec-rpath'")
          else Some (set_rpath o dir, EmptyString)
        | None => Some (o, "missing value for '-fweavec-rpath'")
        end
      | None => consumeSwitch o arg
      end
  end.

(** ** The [-cc1] line *)

(** The loop over a [-cc1] line: the options and Clang's arguments, or the
    first malformed flag. *)
Fixpoint cc1Flags (argv : list string) (o : DriverOptions) (cc1Args : list string)
    : string + (DriverOptions * list string) :=
  match argv with
  | [] => inr (o, cc1Args)
  | arg :: rest =>
    match consume o arg with
    | Some (o, error) =>
      if negb (String.eqb error EmptyString) then inl error else cc1Flags rest o cc1Args
    | None => cc1Flags rest o (cc1Args ++ [arg])%list
    end
  end.

Inductive Mode := ModeTrap | ModeReport | ModeVerify.

Definition guardMode (c : Checks) : Mode :=
  match c with CReport => ModeReport | Verify => ModeVerify | _ => ModeTrap end.

Definition checksName (c : Checks) : string :=
  match c with Trap => "trap" | CReport => "report" | Verify => "verify" | CNone => "none" end.

(** What WeaveC reads and writes of Clang's options. *)
Inductive sanitizer := ArrayBounds | Address | KernelAddress | HWAddress | OtherSanitizer (n : nat).

Definition sanitizer_eqb (a b : sanitizer) : bool :=
  match a, b with
  | ArrayBounds, ArrayBounds | Address, Address | KernelAddress, KernelAddress
  | HWAddress, HWAddress => true
  | OtherSanitizer m, OtherSanitizer n => (m =? n)%nat
  | _, _ => false
  end.

Record compiler := mkCompiler {
  zeroLocals : bool;              (* TrivialAutoVarInitKind::Zero *)
  zeroMaxSize : Z;                (* TrivialAutoVarInitMaxSize *)
  sanitize : list sanitizer;      (* LangOptions::Sanitize *)
  recover : list sanitizer;       (* CodeGenOptions::SanitizeRecover *)
  useAfterScope : bool;
  noDebugInfo : bool;
  debugColumns : bool;
  guards : option (Mode * bool);  (* the passes registered: mode and colors *)
  macros : list string;           (* PreprocessorOptions::Macros *)
  undefs : list string
}.

Definition ZeroInitMaxSize : Z := 4096.

Definition set_sanitizer (l : list sanitizer) (k : sanitizer) : list sanitizer :=
  if existsb (sanitizer_eqb k) l then l else k :: l.

Definition configureEnforcement (c : compiler) (o : DriverOptions) : compiler :=
  let own := match sanitize c with [] => true | _ => false end in
  mkCompiler
    (zeroInitializes o || zeroLocals c)
    (if zeroInitializes o && (zeroMaxSize c =? 0) then ZeroInitMaxSize else zeroMaxSize c)
    (if own then set_sanitizer (sanitize c) ArrayBounds else sanitize c)
    (if own && checks_eqb (checks o) CReport then set_sanitizer (recover c) ArrayBounds
     else recover c)
    true
    false
    (if noDebugInfo c then true else debugColumns c)
    (Some (guardMode (checks o), colors o))
    (macros c) (undefs c).

(** Whether ASan's macros were given to the source, and the options then. *)
Definition applyAsanCompat (darwin : bool) (c : compiler) (o : DriverOptions) : bool * compiler :=
  if negb (enforces o) || negb (asanCompat o)
     || existsb (fun k => existsb (sanitizer_eqb k) (sanitize c)) [Address; KernelAddress; HWAddress]
  then (false, c)
  else
    let chosen := existsb (fun m => starts_with m "_FORTIFY_SOURCE") (macros c) in
    (true, mkCompiler (zeroLocals c) (zeroMaxSize c) (set_sanitizer (sanitize c) Address) (recover c)
             (useAfterScope c) (noDebugInfo c) (debugColumns c) (guards c) (macros c)
             (if darwin && negb chosen then (undefs c ++ ["_FORTIFY_SOURCE"])%list else undefs c)).

(** ** The command line *)

(** What LLVM, Clang and the file system answer. *)
Class Toolchain := {
  extension : string -> string;         (* llvm::sys::path::extension *)
  isSourceExtension : string -> bool;   (* a known type whose files are sources *)
  defaultTriple : string;
  isArch64Bit : string -> bool;         (* of llvm::Triple, the triple normalized *)
  isOSDarwin : string -> bool;
  isOSLinux : string -> bool;
  isGNUEnvironment : string -> bool;
  resourceIncludeDir : string;          (* findResourceIncludeDir's answer *)
  defaultSysroot : string               (* getDefaultSysroot's answer *)
}.

Section CommandLine.
Context {TC : Toolchain}.

Definition looksLikeSource (arg : string) : bool :=
  if starts_with arg "-" then false
  else
    match extension arg with
    | EmptyString => false
    | String _ ext => isSourceExtension ext
    end.

Definition looksLikeAssembly (arg : string) : bool :=
  if starts_with arg "-" then false
  else is_contained [".s"; ".S"; ".sx"] (extension arg).

(** The sanitizer of a [-fsanitize=] list that replaces the allocator. *)
Fixpoint replacesAllocator (kinds : list string) : option string :=
  match kinds with
  | [] => None
  | kind :: rest =>
    if is_contained ["address"; "hwaddress"; "memory"; "thread"; "leak"; "kernel-address"] kind
    then Some kind else replacesAllocator rest
  end.

(** The loop of [runtimeObstacle] over the arguments behind the first: what is
    in the way, or the triple. *)
Fixpoint obstacleLoop (args : list string) (triple : string) : string + string :=
  match args with
  | [] => inr triple
  | arg :: rest =>
    if String.eqb arg "-ffreestanding" then inl "-ffreestanding has no hosted C library"
    else if is_contained ["-nostdlib"; "-nodefaultlibs"; "-nolibc"] arg then
      inl (arg ++ " links no C library")
    else
      let replaced :=
        match consume_front "-fsanitize=" arg with
        | Some list => replacesAllocator (splitAll "," list)
        | None => None
        end in
      match replaced with
      | Some kind => inl ("-fsanitize=" ++ kind ++ " replaces the allocator")
      | None =>
        match consume_front "--target=" arg with
        | Some t => obstacleLoop rest t
        | None =>
          if is_contained ["-target"; "--target"] arg then
            match rest with
            | t :: rest' => obstacleLoop rest' t
            | [] => obstacleLoop rest triple
            end
          else obstacleLoop rest triple
        end
      end
  end.

(** The runtime's targets, and the ones fortified. *)
Definition runtimeTarget (triple : string) : bool :=
  negb (negb (isArch64Bit triple) || negb (isOSDarwin triple || isOSLinux triple)).

Definition glibcTarget (triple : string) : bool := isOSLinux triple && isGNUEnvironment triple.

Definition runtimeObstacle (args : list string) : string :=
  match obstacleLoop (drop 1 args) defaultTriple with
  | inl reason => reason
  | inr triple =>
    if runtimeTarget triple then EmptyString
    else "the runtime supports 64-bit Darwin and Linux targets"
  end.

Fixpoint fortifyLoop (args : list string) (triple : string) (optimizes : bool) : bool :=
  match args with
  | [] => optimizes && glibcTarget triple
  | arg :: rest =>
    if starts_with arg "-D_FORTIFY_SOURCE" || starts_with arg "-U_FORTIFY_SOURCE"
       || (is_contained ["-D"; "-U"] arg
           && match rest with next :: _ => starts_with next "_FORTIFY_SOURCE" | [] => false end)
    then false
    else
      let optimizes := if starts_with arg "-O" then negb (String.eqb arg "-O0") else optimizes in
      match consume_front "--target=" arg with
      | Some t => fortifyLoop rest t optimizes
      | None =>
        if is_contained ["-target"; "--target"] arg then
          match rest with
          | t :: rest' => fortifyLoop rest' t optimizes
          | [] => fortifyLoop rest triple optimizes
          end
        else fortifyLoop rest triple optimizes
      end
  end.

Definition wantsFortification (args : list string) : bool :=
  fortifyLoop (drop 1 args) defaultTriple false.

Definition linksStatically (args : list string) : bool :=
  existsb (fun arg => String.eqb arg "-static" || String.eqb arg "-static-pie") (drop 1 args).

Local Open Scope list_scope.

(** What [runDriver] has read of the command line. *)
Record scan := mkScan {
  weavec : DriverOptions;
  clangArgs : list string;
  printJobsOnly : bool;
  hasSysroot : bool;
  hasSource : bool;
  assembles : bool;
  printVersion : bool
}.

Inductive scanned := ScanError (message : string) | ScanHelp | Scanned (s : scan).

Definition scanArg (s : scan) (arg : string) : scan :=
  let back := List.last (clangArgs s) EmptyString in
  mkScan (weavec s) (clangArgs s ++ [arg])
    (String.eqb arg "-###" || printJobsOnly s)
    (starts_with arg "-isysroot" || starts_with arg "--sysroot" || hasSysroot s)
    (looksLikeSource arg || (String.eqb arg "-" && negb (String.eqb back "-o")) || hasSource s)
    (looksLikeAssembly arg || starts_with arg "-save-temps"
     || (String.eqb back "-x" && starts_with arg "assembler") || starts_with arg "-xassembler"
     || assembles s)
    (String.eqb arg "--version" || printVersion s).

Definition with_weavec (s : scan) (o : DriverOptions) : scan :=
  mkScan o (clangArgs s) (printJobsOnly s) (hasSysroot s) (hasSource s) (assembles s) (printVersion s).

Fixpoint scanArgs (argv : list string) (s : scan) : scanned :=
  match argv with
  | [] => Scanned s
  | arg :: rest =>
    match consume (weavec s) arg with
    | Some (o, error) =>
      if negb (String.eqb error EmptyString) then ScanError error
      else scanArgs rest (with_weavec s o)
    | None => if String.eqb arg "--help-weavec" then ScanHelp else scanArgs rest (scanArg s arg)
    end
  end.

Definition emptyScan (argv0 : string) : scan :=
  mkScan defaultOptions [argv0] false false false false false.

(** A build the runtime cannot serve is compiled without guards. *)
Definition withoutObstacle (s : scan) : scan * string :=
  if enforces (weavec s) then
    let runtimeOff := runtimeObstacle (clangArgs s) in
    if negb (String.eqb runtimeOff EmptyString) then
      (with_weavec s (push_spelling (set_checks (weavec s) CNone) "-fweavec-checks=none"), runtimeOff)
    else (s, runtimeOff)
  else (s, EmptyString).

Definition forwarded (o : DriverOptions) : list string :=
  concat (map (fun flag => ["-Xclang"; flag]) (spellings o)).

(** The arguments [runDriver] adds before it builds the compilation. *)
Definition addArgs (s : scan) : list string :=
  let args := clangArgs s in
  let args :=
    if assembles s && forallb (fun arg => negb (ends_with arg "integrated-as")) args
    then args ++ ["-fno-integrated-as"] else args in
  let args :=
    if hasSource s then
      let args := args ++ forwarded (weavec s) in
      if enabled (weavec s) then
        let args :=
          if String.eqb resourceIncludeDir EmptyString then args
          else args ++ ["-isystem"; resourceIncludeDir] in
        let args := args ++ ["-D__WEAVEC__=1"] in
        if enforces (weavec s) && wantsFortification args then args ++ ["-D_FORTIFY_SOURCE=3"] else args
      else args
    else args in
  if negb (hasSysroot s) && negb (String.eqb defaultSysroot EmptyString)
  then args ++ ["-isysroot"; defaultSysroot] else args.

Inductive driven :=
  | Cc1 (argv : list string)                               (* runCc1 *)
  | Stop (status : Z) (message : string)
  | Build (o : DriverOptions) (args : list string) (runtimeOff : string).

(** [runDriver] up to Clang's [BuildCompilation], the response files
    expanded. *)
Definition runDriver (argv : list string) : driven :=
  match argv with
  | argv0 :: mode :: rest =>
    if String.eqb mode "-cc1" then Cc1 rest
    else if starts_with mode "-cc1" then
      Stop 1 ("'" ++ mode ++ "' is Clang's tool, which weavec-cc does not include; assembly sources are assembled by the system assembler")%string
    else
      match scanArgs (mode :: rest) (emptyScan argv0) with
      | ScanError error => Stop 1 error
      | ScanHelp => Stop 0 EmptyString
      | Scanned s =>
        let '(s, runtimeOff) := withoutObstacle s in Build (weavec s) (addArgs s) runtimeOff
      end
  | _ =>
    let '(s, runtimeOff) := withoutObstacle (emptyScan (List.hd EmptyString argv)) in
    Build (weavec s) (addArgs s) runtimeOff
  end.
End CommandLine.

(** ** The link line *)

Local Open Scope list_scope.

Definition isLibrary (arg : string) : bool :=
  starts_with arg "-l" && negb (String.eqb arg "-lto_library").

(** The arguments before the first library, and the rest. *)
Fixpoint beforeLibrary (args : list string) : list string * list string :=
  match args with
  | [] => ([], [])
  | arg :: rest =>
    if isLibrary arg then ([], args)
    else let '(before, from) := beforeLibrary rest in (arg :: before, from)
  end.

(** One argument's effect on whether archives load whole. *)
Definition wholeStep (whole : bool) (arg : string) : bool :=
  let text := ltrim "-" arg in
  if String.eqb text "whole-archive" || String.eqb text "no-whole-archive"
  then String.eqb text "whole-archive" else whole.

(** A link job's line with the runtime added: [fallback] is the archive that
    follows a shared runtime, if it is found. *)
Definition linkLine (old : list string) (runtime rpath fallback : string) (archive linux : bool)
    : list string :=
  if is_contained old "-r" then old
  else
    let '(before, from) := beforeLibrary old in
    let whole := foldl wholeStep false before in
    let loadsAll := is_contained old "-all_load" in
    let added :=
      [runtime]
      ++ (if negb archive && negb (String.eqb rpath EmptyString) then ["-rpath"; rpath] else [])
      ++ (if negb (String.eqb fallback EmptyString) && negb loadsAll then
            (if whole then ["--no-whole-archive"] else []) ++ [fallback]
            ++ (if whole then ["--whole-archive"] else [])
          else [])
      ++ (if linux then ["-lpthread"] else []) in
    before ++ added ++ from.

(** [-lto_library <path>] goes when [path] does not exist. *)
Fixpoint replaceMissingLtoLibrary (exists_ : string -> bool) (old : list string) : list string :=
  match old with
  | [] => []
  | arg :: rest =>
    match rest with
    | path :: rest' =>
      if String.eqb arg "-lto_library" && negb (exists_ path)
      then replaceMissingLtoLibrary exists_ rest'
      else arg :: replaceMissingLtoLibrary exists_ rest
    | [] => [arg]
    end
  end.
