(* ===== verification/DriverFacts.v ===== *)
(** * The command line does what its flags say

    Theorems about the file Driver: WeaveC's flags and Clang's are told apart,
    the [-cc1] jobs read back the options the driver read, a build that
    enforces is one the runtime can serve, and a link line gets the runtime
    before the first library without changing how any other input loads. *)

From Stdlib Require Import String Ascii.
From S2P Require Import Prelude Driver.
Local Open Scope string_scope.
Local Open Scope list_scope.
Local Open Scope Z_scope.

(** ** Prefixes *)

Lemma append_cons a s t : append (String a s) t = String a (append s t).
Proof. done. Qed.

Lemma append_app s t u : append (append s t) u = append s (append t u).
Proof. induction s as [|a s IH]; [done|]. by rewrite !append_cons, IH. Qed.

Lemma consume_front_Some p s r : consume_front p s = Some r <-> s = append p r.
Proof.
  revert s. induction p as [|a p IH]; intros s; [cbn; split; [by intros [= ->]|by intros ->]|].
  rewrite append_cons. destruct s as [|b s]; [done|]. cbn [consume_front].
  destruct (Ascii.eqb_spec a b) as [->|Hne].
  - rewrite IH. split; [by intros ->|by intros [= ->]].
  - split; [done|]. by intros [= -> _].
Qed.

Lemma starts_with_iff s p : starts_with s p = true <-> exists r, s = append p r.
Proof.
  unfold starts_with. destruct (consume_front p s) as [r|] eqn:E.
  - apply consume_front_Some in E. split; eauto.
  - split; [done|]. intros [r Hr]. apply consume_front_Some in Hr. congruence.
Qed.

Lemma starts_with_app p q r : starts_with (append p (append q r)) (append p q) = true.
Proof. apply starts_with_iff. exists r. by rewrite append_app. Qed.

Lemma split_prefix c s a b : split c s = (a, b) -> exists t, s = append a t.
Proof.
  revert a b. induction s as [|x s IH]; intros a b; cbn [split]; [intros [= <- <-]; by exists EmptyString|].
  destruct (Ascii.eqb x c); [intros [= <- <-]; by exists (String x s)|].
  destruct (split c s) as [a' b'] eqn:E. intros [= <- <-]. destruct (IH _ _ eq_refl) as [t ->].
  by exists t.
Qed.

Lemma is_contained_In l s : is_contained l s = true <-> In s l.
Proof.
  unfold is_contained. rewrite existsb_exists. split.
  - intros (x & Hx & He). apply String.eqb_eq in He as ->. done.
  - intros Hs. exists s. split; [done|apply String.eqb_refl].
Qed.

(** ** WeaveC's flags and Clang's *)

(** A flag of the family [-f[no-]weavec...]. *)
Definition isWeavecFlag (arg : string) : bool :=
  starts_with arg "-fweavec" || starts_with arg "-fno-weavec".

Lemma isWeavecFlag_intro arg r : arg = append "-fweavec" r \/ arg = append "-fno-weavec" r -> isWeavecFlag arg = true.
Proof.
  intros [->| ->]; unfold isWeavecFlag; apply orb_true_iff; [left|right]; apply starts_with_iff; by exists r.
Qed.

Lemma valueFlag_weavec o arg : consumeValueFlag o arg <> None -> isWeavecFlag arg = true.
Proof.
  unfold consumeValueFlag. destruct (split "=" arg) as [flag value] eqn:E.
  destruct (is_contained _ flag) eqn:Ec; [|done]. intros _.
  destruct (split_prefix _ _ _ _ E) as [t ->]. apply is_contained_In in Ec as [<-|[<-|[]]].
  - apply (isWeavecFlag_intro _ (append "-checks" t)). by left.
  - apply (isWeavecFlag_intro _ (append "-ledger" t)). by left.
Qed.

(** A switch is WeaveC's exactly when its name starts so. *)
Lemma consumeSwitch_None o arg : consumeSwitch o arg = None <-> isWeavecFlag arg = false.
Proof.
  assert (Hname : forall (A : Type) name (x1 x2 x3 x4 x5 x6 : A),
    (if String.eqb name "weavec" then Some x1
     else if String.eqb name "weavec-asan-compat" then Some x2
     else if String.eqb name "weavec-colors" then Some x3
     else if String.eqb name "weavec-zero-init" then Some x4
     else if String.eqb name "weavec-summary" then Some x5
     else if negb (starts_with name "weavec") then None else Some x6) = None
    <-> starts_with name "weavec" = false).
  { intros A name x1 x2 x3 x4 x5 x6.
    repeat (match goal with |- context [String.eqb name ?t] => destruct (String.eqb_spec name t) as [->|] end;
            [done|]).
    by destruct (starts_with name "weavec"). }
  unfold consumeSwitch, isWeavecFlag. destruct (consume_front "-fno-" arg) as [name|] eqn:E1.
  - rewrite Hname. apply consume_front_Some in E1 as ->. cbn [append].
    unfold starts_with. cbn [consume_front Ascii.eqb Bool.eqb orb]. done.
  - destruct (consume_front "-f" arg) as [name|] eqn:E2.
    + rewrite Hname. apply consume_front_Some in E2 as ->. rewrite <- orb_false_r at 1.
      assert (Hno : starts_with (append "-f" name) "-fno-weavec" = false).
      { destruct (starts_with (append "-f" name) "-fno-weavec") eqn:E; [|done].
        apply starts_with_iff in E as [r Hr]. rewrite Hr in E1. done. }
      rewrite Hno. unfold starts_with. cbn [append consume_front Ascii.eqb Bool.eqb]. done.
    + split; [intros _|done]. apply orb_false_iff. split.
      * destruct (starts_with arg "-fweavec") eqn:E; [|done].
        apply starts_with_iff in E as [r ->]. done.
      * destruct (starts_with arg "-fno-weavec") eqn:E; [|done].
        apply starts_with_iff in E as [r ->]. done.
Qed.

Lemma consume_None o arg : consume o arg = None <-> isWeavecFlag arg = false.
Proof.
  unfold consume. destruct (consumeValueFlag o arg) as [r|] eqn:E.
  - rewrite (valueFlag_weavec o arg) by congruence. done.
  - destruct (String.eqb_spec arg "-fno-weavec-rpath") as [->|]; [done|].
    destruct (consume_front "-fweavec-rpath" arg) as [rest|] eqn:Er; [|apply consumeSwitch_None].
    apply consume_front_Some in Er as ->.
    rewrite (isWeavecFlag_intro _ (append "-rpath" rest)) by by left.
    destruct (consume_front "=" rest) as [dir|]; [|done]. by destruct (String.eqb dir EmptyString).
Qed.

(** ** What the [-cc1] jobs read back *)

(** The options of a unit: all but the link's rpath and the record of
    spellings. *)
Definition core (o : DriverOptions) : bool * Checks * option bool * bool * bool * string * option bool :=
  (enabled o, checks o, zeroInit o, asanCompat o, colors o, ledger o, summary o).

Lemma core_eq o p :
  core o = core p ->
  enabled o = enabled p /\ checks o = checks p /\ zeroInit o = zeroInit p /\ asanCompat o = asanCompat p
  /\ colors o = colors p /\ ledger o = ledger p /\ summary o = summary p.
Proof. unfold core. intros [= -> -> -> -> -> -> ->]. by split_and!. Qed.

(** A well-formed flag of WeaveC is the link's alone, or is recorded and means
    the same wherever it is read. *)
Definition records (consumer : DriverOptions -> string -> option (DriverOptions * string))
    (o : DriverOptions) (arg : string) : Prop :=
  forall o', consumer o arg = Some (o', EmptyString) ->
    (core o' = core o /\ spellings o' = spellings o)
    \/ (spellings o' = spellings o ++ [arg]
        /\ forall p, core p = core o ->
             exists p', consumer p arg = Some (p', EmptyString) /\ core p' = core o').

Ltac core_cases Hp :=
  apply core_eq in Hp as (Hp1 & Hp2 & Hp3 & Hp4 & Hp5 & Hp6 & Hp7);
  eexists; split; [reflexivity|unfold core; cbn; congruence].

Lemma valueFlag_records o arg : records consumeValueFlag o arg.
Proof.
  intros o'. unfold consumeValueFlag. destruct (split "=" arg) as [flag value].
  destruct (negb _); [done|]. destruct (_ || _); [done|].
  destruct (String.eqb flag "-fweavec-checks").
  - destruct (checksOf value) as [c|]; [|done]. intros [= <-]. right. split; [done|].
    intros p Hp. core_cases Hp.
  - intros [= <-]. right. split; [done|]. intros p Hp. core_cases Hp.
Qed.

Lemma switch_records o arg : records consumeSwitch o arg.
Proof.
  intros o'. unfold consumeSwitch. destruct (match consume_front "-fno-" arg with Some _ => _ | None => _ end)
    as [[name value]|]; [|done].
  repeat (destruct (String.eqb name _);
    [intros [= <-]; right; split; [done|]; intros p Hp; core_cases Hp|]).
  by destruct (negb _).
Qed.

Lemma valueFlag_core o p arg : consumeValueFlag o arg = None -> consumeValueFlag p arg = None.
Proof.
  unfold consumeValueFlag. destruct (split "=" arg) as [flag value]. destruct (negb _); [done|].
  destruct (_ || _); [done|]. destruct (String.eqb flag _); [|done]. by destruct (checksOf value).
Qed.

Lemma consume_records o arg : records consume o arg.
Proof.
  intros o' Hc. unfold consume in Hc. destruct (consumeValueFlag o arg) as [r|] eqn:E.
  - injection Hc as ->. destruct (valueFlag_records o arg o' E) as [?|[Hs Hr]]; [by left|right].
    split; [done|]. intros p Hp. destruct (Hr p Hp) as (p' & Hp' & Hcore). exists p'.
    unfold consume. by rewrite Hp'.
  - destruct (String.eqb_spec arg "-fno-weavec-rpath") as [->|Hne]; [injection Hc as <-; by left|].
    destruct (consume_front "-fweavec-rpath" arg) as [rest|] eqn:Er.
    + destruct (consume_front "=" rest) as [dir|]; [|done]. destruct (String.eqb dir EmptyString); [done|].
      injection Hc as <-. by left.
    + destruct (switch_records o arg o' Hc) as [?|[Hs Hr]]; [by left|right].
      split; [done|]. intros p Hp. destruct (Hr p Hp) as (p' & Hp' & Hcore). exists p'. split; [|done].
      unfold consume. rewrite (valueFlag_core o p arg E), Er.
      by destruct (String.eqb_spec arg "-fno-weavec-rpath").
Qed.

Lemma cc1Flags_app l1 l2 o acc :
  cc1Flags (l1 ++ l2) o acc =
  match cc1Flags l1 o acc with
  | inl e => inl e
  | inr (o', acc') => cc1Flags l2 o' acc'
  end.
Proof.
  revert o acc. induction l1 as [|arg l1 IH]; intros o acc; [done|]. cbn [app cc1Flags].
  destruct (consume o arg) as [[o' e]|]; [|apply IH]. destruct (negb _); [done|apply IH].
Qed.

(** A line's own arguments do not change what the flags among them mean. *)
Lemma cc1Flags_filter line o acc :
  cc1Flags line o acc =
  match cc1Flags (List.filter isWeavecFlag line) o [] with
  | inl e => inl e
  | inr (o', _) => inr (o', acc ++ List.filter (fun a => negb (isWeavecFlag a)) line)
  end.
Proof.
  revert o acc. induction line as [|arg line IH]; intros o acc.
  { cbn. by rewrite app_nil_r. }
  cbn [cc1Flags List.filter]. destruct (isWeavecFlag arg) eqn:E; cbn [negb cc1Flags].
  - destruct (consume o arg) as [[o' e]|] eqn:Ec; [|apply consume_None in Ec; congruence].
    destruct (negb _); [done|]. apply IH.
  - rewrite (proj2 (consume_None o arg) E), IH. destruct (cc1Flags _ _ _) as [|[? ?]]; [done|].
    by rewrite <- app_assoc.
Qed.

(** The recorded spellings, read again from the defaults. *)
Definition replays (o : DriverOptions) : Prop :=
  exists p acc, cc1Flags (spellings o) defaultOptions [] = inr (p, acc) /\ core p = core o.

Lemma consume_replays o arg o' :
  replays o -> consume o arg = Some (o', EmptyString) -> replays o'.
Proof.
  intros (p & acc & Hp & Hcore) Hc. destruct (consume_records o arg o' Hc) as [[Hc' Hs]|[Hs Hr]].
  - exists p, acc. by rewrite Hs, Hc'.
  - destruct (Hr p Hcore) as (p' & Hp' & Hcore'). exists p', acc. rewrite Hs, cc1Flags_app, Hp.
    cbn [cc1Flags]. by rewrite Hp'.
Qed.

Section Driving.
Context {TC : Toolchain}.

Lemma scanArgs_spec argv s s' :
  scanArgs argv s = Scanned s' ->
  (replays (weavec s) -> replays (weavec s'))
  /\ clangArgs s' = clangArgs s ++ List.filter (fun a => negb (isWeavecFlag a)) argv
  /\ (In "--help-weavec" argv -> False).
Proof.
  revert s. induction argv as [|arg argv IH]; intros s Hs; cbn [scanArgs] in Hs.
  { injection Hs as ->. split_and!; [done|cbn; by rewrite app_nil_r|by intros []]. }
  cbn [List.filter]. destruct (consume (weavec s) arg) as [[o e]|] eqn:Ec.
  - destruct (String.eqb_spec e EmptyString) as [->|]; [|done]. cbn [negb] in Hs.
    assert (Hw : isWeavecFlag arg = true).
    { destruct (isWeavecFlag arg) eqn:E; [done|].
      rewrite (proj2 (consume_None (weavec s) arg) E) in Ec. done. }
    rewrite Hw. cbn [negb]. destruct (IH _ Hs) as (H1 & H2 & H3). split_and!.
    + intros Hr. apply H1. by eapply consume_replays.
    + exact H2.
    + intros [->|Hin]; [|by apply H3]. done.
  - rewrite (proj1 (consume_None (weavec s) arg) Ec). cbn [negb].
    destruct (String.eqb_spec arg "--help-weavec") as [|Hne]; [done|].
    destruct (IH _ Hs) as (H1 & H2 & H3). split_and!.
    + exact H1.
    + rewrite H2. cbn [scanArg clangArgs]. by rewrite <- app_assoc.
    + intros [->|Hin]; [done|by apply H3].
Qed.

Lemma default_replays : replays defaultOptions.
Proof. by exists defaultOptions, []. Qed.

Lemma withoutObstacle_spec s s' off :
  withoutObstacle s = (s', off) -> replays (weavec s) ->
  replays (weavec s') /\ clangArgs s' = clangArgs s
  /\ (enforces (weavec s') = true -> off = EmptyString /\ runtimeObstacle (clangArgs s) = EmptyString).
Proof.
  unfold withoutObstacle. destruct (enforces (weavec s)) eqn:E.
  - destruct (String.eqb_spec (runtimeObstacle (clangArgs s)) EmptyString) as [He|He]; cbn [negb].
    + intros [= <- <-] Hr. by rewrite He.
    + intros [= <- <-] Hr. cbn [weavec with_weavec]. split_and!; [|done|].
      * apply (consume_replays (weavec s) "-fweavec-checks=none"); [done|]. done.
      * unfold enforces. cbn. rewrite andb_false_r. done.
  - intros [= <- <-] Hr. split_and!; [done|done|congruence].
Qed.

(** What [runDriver] builds with: the first argument, Clang's own in order,
    and what the driver adds behind them. *)
Lemma runDriver_spec argv0 args o clang off :
  runDriver (argv0 :: args) = Build o clang off ->
  exists s, replays o /\ weavec s = o
    /\ clangArgs s = argv0 :: List.filter (fun a => negb (isWeavecFlag a)) args
    /\ clang = addArgs s /\ (In "--help-weavec" args -> False)
    /\ (enforces o = true -> off = EmptyString /\ runtimeObstacle (clangArgs s) = EmptyString).
Proof.
  assert (Hmain : forall s0, scanArgs args (emptyScan argv0) = Scanned s0 ->
    forall s, withoutObstacle s0 = (s, off) ->
    replays (weavec s) /\ clangArgs s = argv0 :: List.filter (fun a => negb (isWeavecFlag a)) args
    /\ (In "--help-weavec" args -> False)
    /\ (enforces (weavec s) = true -> off = EmptyString /\ runtimeObstacle (clangArgs s) = EmptyString)).
  { intros s0 Hs s Hw. destruct (scanArgs_spec _ _ _ Hs) as (H1 & H2 & H3).
    destruct (withoutObstacle_spec _ _ _ Hw (H1 default_replays)) as (G1 & G2 & G3).
    rewrite G2, H2. by rewrite H2 in G3. }
  destruct args as [|mode rest].
  - cbn [runDriver List.hd]. destruct (withoutObstacle (emptyScan argv0)) as [s off'] eqn:E.
    intros [= <- <- <-]. destruct (Hmain _ eq_refl _ E) as (? & ? & ? & ?). exists s. by split_and!.
  - unfold runDriver. destruct (String.eqb mode "-cc1"); [done|].
    destruct (starts_with mode "-cc1"); [done|].
    destruct (scanArgs (mode :: rest) (emptyScan argv0)) as [| |s0] eqn:Es; [done..|].
    destruct (withoutObstacle s0) as [s off'] eqn:E. intros [= <- <- <-].
    destruct (Hmain _ eq_refl _ E) as (? & ? & ? & ?). exists s. by split_and!.
Qed.

(** However WeaveC's flags and Clang's are mixed on the command line, a
    [-cc1] job whose line carries the spellings the driver forwards (among any
    arguments of Clang's own) reads the options the driver ended with: what is
    guarded, the mode, the zero initialization, ASan's macros, the colors, the
    ledger and the summary; what is not WeaveC's is Clang's, in order. *)
Theorem cc1_options argv0 args o clang off line :
  runDriver (argv0 :: args) = Build o clang off ->
  List.filter isWeavecFlag line = spellings o ->
  exists p, cc1Flags line defaultOptions []
            = inr (p, List.filter (fun a => negb (isWeavecFlag a)) line) /\ core p = core o.
Proof.
  intros Hd Hl. destruct (runDriver_spec _ _ _ _ _ Hd) as (s & (p & acc & Hp & Hcore) & _).
  exists p. by rewrite cc1Flags_filter, Hl, Hp.
Qed.

(** The command line Clang builds from starts with the program's name and
    every argument that is not of the family [-f[no-]weavec...], in order and
    unchanged; what the driver adds behind them is a recorded spelling, a flag
    that is not WeaveC's, or a directory the toolchain found. *)
Theorem clang_arguments argv0 args o clang off :
  runDriver (argv0 :: args) = Build o clang off ->
  exists added, clang = (argv0 :: List.filter (fun a => negb (isWeavecFlag a)) args) ++ added
    /\ forall i flag, added !! i = Some flag -> In flag (spellings o) \/ isWeavecFlag flag = false
                      \/ flag = resourceIncludeDir \/ flag = defaultSysroot.
Proof.
  intros Hd. destruct (runDriver_spec _ _ _ _ _ Hd) as (s & _ & <- & <- & -> & _).
  unfold addArgs. set (Q := fun flag => In flag (spellings (weavec s)) \/ isWeavecFlag flag = false
                      \/ flag = resourceIncludeDir \/ flag = defaultSysroot).
  assert (Hstep : forall (b : bool) base x, (forall f, In f x -> Q f) ->
    (exists t, base = clangArgs s ++ t /\ forall f, In f t -> Q f) ->
    exists t, (if b then base ++ x else base) = clangArgs s ++ t /\ forall f, In f t -> Q f).
  { intros b base x Hx (t & -> & Ht). destruct b; [|by exists t]. exists (t ++ x).
    rewrite app_assoc. split; [done|]. intros f Hf. apply in_app_or in Hf as [Hf|Hf]; auto. }
  assert (Hlit : forall (lit : string) rest, isWeavecFlag lit = false -> (forall f, In f rest -> Q f) ->
                   forall f, In f (lit :: rest) -> Q f).
  { intros lit rest Hl Hr f [<-|Hf]; [right; by left|by apply Hr]. }
  assert (Hnil : forall f, In f [] -> Q f) by by intros f [].
  assert (Hfwd : forall f, In f (forwarded (weavec s)) -> Q f).
  { intros f Hf. unfold forwarded in Hf. apply in_concat in Hf as (l & Hl & Hf).
    apply in_map_iff in Hl as (flag & <- & Hflag). revert f Hf. apply Hlit; [done|].
    intros f [<-|[]]. by left. }
  assert (Hfinal : forall l, (exists t, l = clangArgs s ++ t /\ forall f, In f t -> Q f) ->
    exists added, l = clangArgs s ++ added /\ forall i f, added !! i = Some f -> Q f).
  { intros l (t & -> & Ht). exists t. split; [done|]. intros i f Hi. apply Ht.
    apply list_elem_of_In. by eapply list_elem_of_lookup_2. }
  apply Hfinal. clear Hfinal.
  apply Hstep; [apply Hlit; [done|]; intros f [<-|[]]; right; right; by right|].
  assert (H0 : exists t, (if assembles s && forallb (fun arg => negb (ends_with arg "integrated-as")) (clangArgs s)
                   then clangArgs s ++ ["-fno-integrated-as"] else clangArgs s) = clangArgs s ++ t
                   /\ forall f, In f t -> Q f).
  { apply Hstep; [by apply Hlit|]. exists []. by rewrite app_nil_r. }
  destruct (hasSource s); [|done].
  assert (H1 := Hstep true _ _ Hfwd H0). cbn [andb] in H1. cbv iota in H1.
  destruct (enabled (weavec s)); [|done].
  apply Hstep; [by apply Hlit|]. apply (Hstep true); [by apply Hlit|].
  destruct (String.eqb resourceIncludeDir EmptyString); [done|].
  apply (Hstep true); [|done]. apply Hlit; [done|]. intros f [<-|[]]. right; right; by left.
Qed.

(** ** Builds the runtime cannot serve *)

(** The sanitizers that replace the allocator. *)
Definition allocator_sanitizers : list string :=
  ["address"; "hwaddress"; "memory"; "thread"; "leak"; "kernel-address"].

(** The argument asks for the sanitizer [kind], alone or in a list. *)
Definition asksFor (arg kind : string) : Prop :=
  exists before behind, arg = append "-fsanitize=" (append before (append kind behind))
  /\ (before = EmptyString \/ exists b, before = append b ",")
  /\ (behind = EmptyString \/ exists b, behind = append "," b).

(** An argument of a build that has no hosted C library or no allocator of the
    runtime's. *)
Definition unserved (arg : string) : Prop :=
  In arg ["-ffreestanding"; "-nostdlib"; "-nodefaultlibs"; "-nolibc"]
  \/ exists kind, In kind allocator_sanitizers /\ asksFor arg kind.

(** The flags of Clang's arguments and the target they name, the last one that
    does: [--target=t] joined, and [-target t] or [--target t] apart, whose
    operand is no flag. *)
Inductive names : list string -> list string -> option string -> Prop :=
  | names_nil : names [] [] None
  | names_joined t rest flags later :
      names rest flags later ->
      names (append "--target=" t :: rest) (append "--target=" t :: flags)
            (match later with Some t' => Some t' | None => Some t end)
  | names_apart flag t rest flags later :
      In flag ["-target"; "--target"] -> names rest flags later ->
      names (flag :: t :: rest) (flag :: flags) (match later with Some t' => Some t' | None => Some t end)
  | names_last flag : In flag ["-target"; "--target"] -> names [flag] [flag] None
  | names_flag flag rest flags later :
      ~ In flag ["-target"; "--target"] -> (forall t, flag <> append "--target=" t) ->
      names rest flags later -> names (flag :: rest) (flag :: flags) later.

(** Every list of arguments has its flags and what they name. *)
Lemma names_total args : exists flags named, names args flags named.
Proof.
  remember (length args) as n eqn:Hn. revert args Hn.
  induction n as [n IH] using lt_wf_ind. intros [|flag rest] ->; [by eexists _, _; constructor|].
  destruct (IH (length rest) ltac:(cbn; lia) rest eq_refl) as (flags & named & Hr).
  destruct (is_contained ["-target"; "--target"] flag) eqn:Ec.
  { apply is_contained_In in Ec. destruct rest as [|t rest]; [by eexists _, _; apply names_last|].
    destruct (IH (length rest) ltac:(cbn; lia) rest eq_refl) as (flags' & named' & Hr').
    by eexists _, _; apply names_apart. }
  assert (Hf : ~ In flag ["-target"; "--target"]) by (intros Hin; apply is_contained_In in Hin; congruence).
  destruct (consume_front "--target=" flag) as [t|] eqn:E.
  - apply consume_front_Some in E as ->. by eexists _, _; apply names_joined.
  - eexists _, _. apply names_flag; [done| |done]. intros t Ht. apply consume_front_Some in Ht. congruence.
Qed.

Lemma text_nil_r s : append s EmptyString = s.
Proof. induction s as [|a s IH]; [done|]. by rewrite append_cons, IH. Qed.

Lemma splitAll_app c s t :
  splitAll c (append s (String c t)) = (splitAll c s ++ splitAll c t)%list.
Proof.
  induction s as [|a s IH]; cbn [append splitAll]; [by rewrite Ascii.eqb_refl|].
  destruct (Ascii.eqb a c); [by rewrite IH|]. rewrite IH.
  destruct (splitAll c s) as [|part rest] eqn:E; [|done]. exfalso.
  destruct s as [|b s]; cbn in E; [done|]. destruct (Ascii.eqb b c); [done|]. by destruct (splitAll c s).
Qed.

Lemma asksFor_listed arg kind :
  In kind allocator_sanitizers -> asksFor arg kind ->
  exists l, consume_front "-fsanitize=" arg = Some l /\ In kind (splitAll "," l).
Proof.
  intros Hk (before & behind & -> & Hb & Ha). eexists. split; [by apply consume_front_Some|].
  assert (Hown : splitAll "," kind = [kind]).
  { by repeat (destruct Hk as [<-|Hk]; [vm_compute; reflexivity|]). }
  assert (Hrest : In kind (splitAll "," (append kind behind))).
  { destruct Ha as [->|[b ->]]; [rewrite text_nil_r, Hown; by left|].
    cbn [append]. rewrite splitAll_app, Hown. by left. }
  destruct Hb as [->|[b ->]]; [done|]. rewrite append_app. cbn [append].
  rewrite splitAll_app. apply in_or_app. by right.
Qed.

Lemma replacesAllocator_listed kind kinds :
  In kind allocator_sanitizers -> In kind kinds -> replacesAllocator kinds <> None.
Proof.
  intros Hk. induction kinds as [|k kinds IH]; intros Hin; [done|]. cbn [replacesAllocator].
  destruct (is_contained _ k) eqn:E; [done|]. destruct Hin as [->|Hin]; [|by apply IH].
  apply is_contained_In in Hk. unfold allocator_sanitizers in Hk. congruence.
Qed.

(** An unserved argument ends the search for an obstacle with one. *)
Lemma unserved_stops arg rest triple :
  unserved arg -> exists reason, obstacleLoop (arg :: rest) triple = inl reason /\ reason <> EmptyString.
Proof.
  intros [Hin|(kind & Hk & Ha)]; cbn [obstacleLoop].
  { destruct Hin as [<-|[<-|[<-|[<-|[]]]]]; by eexists. }
  destruct (String.eqb_spec arg "-ffreestanding"); [by eexists|].
  destruct (is_contained ["-nostdlib"; "-nodefaultlibs"; "-nolibc"] arg) eqn:E.
  { eexists. split; [done|]. apply is_contained_In in E as [<-|[<-|[<-|[]]]]; done. }
  destruct (asksFor_listed _ _ Hk Ha) as (l & -> & Hl).
  pose proof (replacesAllocator_listed _ _ Hk Hl) as Hr. destruct (replacesAllocator _); [|done]. by eexists.
Qed.

Lemma obstacleLoop_reason args triple reason : obstacleLoop args triple = inl reason -> reason <> EmptyString.
Proof.
  remember (length args) as n eqn:Hn. revert args triple Hn.
  induction n as [n IH] using lt_wf_ind. intros args triple -> Hr. destruct args as [|arg rest]; [done|].
  revert Hr. cbn [obstacleLoop]. destruct (String.eqb_spec arg "-ffreestanding"); [by intros [= <-]|].
  destruct (is_contained ["-nostdlib"; "-nodefaultlibs"; "-nolibc"] arg).
  { intros [= <-]. by destruct arg. }
  destruct (match consume_front "-fsanitize=" arg with Some _ => _ | None => _ end); [by intros [= <-]|].
  destruct (consume_front "--target=" arg).
  - eapply (IH (length rest)); [cbn; lia|done].
  - destruct (is_contained _ arg); [|eapply (IH (length rest)); [cbn; lia|done]].
    destruct rest as [|t rest]; [eapply (IH 0%nat); [cbn; lia|done]|].
    eapply (IH (length rest)); [cbn; lia|done].
Qed.

Lemma target_not_consumed flag : In flag ["-target"; "--target"] -> consume_front "--target=" flag = None.
Proof. by intros [<-|[<-|[]]]. Qed.

(** One argument of a search that ends with a target: nothing unserved. *)
Lemma obstacleLoop_step arg rest triple t :
  obstacleLoop (arg :: rest) triple = inr t ->
  obstacleLoop (arg :: rest) triple
  = match consume_front "--target=" arg with
    | Some t' => obstacleLoop rest t'
    | None =>
      if is_contained ["-target"; "--target"] arg then
        match rest with t' :: rest' => obstacleLoop rest' t' | [] => obstacleLoop rest triple end
      else obstacleLoop rest triple
    end.
Proof.
  cbn [obstacleLoop]. destruct (String.eqb arg _); [done|]. destruct (is_contained _ arg); [done|].
  by destruct (match consume_front "-fsanitize=" arg with Some _ => _ | None => _ end).
Qed.

(** A search that ends with a target read every flag, none of them unserved,
    and the target is the one the arguments name. *)
Lemma obstacleLoop_names args flags named :
  names args flags named -> forall triple t, obstacleLoop args triple = inr t ->
  (forall flag, In flag flags -> ~ unserved flag) /\ t = match named with Some n => n | None => triple end.
Proof.
  assert (Hhere : forall arg rest triple t, obstacleLoop (arg :: rest) triple = inr t -> ~ unserved arg).
  { intros arg rest triple t Hr Hu. destruct (unserved_stops arg rest triple Hu) as (? & ? & _). congruence. }
  induction 1 as [|n rest flags later Hn IH|flag n rest flags later Hf Hn IH|flag Hf|flag rest flags later Hf Hj Hn IH];
    intros triple t Hr.
  { by injection Hr as ->. }
  all: pose proof (Hhere _ _ _ _ Hr) as Hserved; rewrite (obstacleLoop_step _ _ _ _ Hr) in Hr.
  - rewrite (proj2 (consume_front_Some _ _ n) eq_refl) in Hr. destruct (IH _ _ Hr) as [H1 ->].
    split; [|by destruct later]. intros x [<-|Hx]; [done|by apply H1].
  - rewrite (target_not_consumed _ Hf), (proj2 (is_contained_In _ _) Hf) in Hr. destruct (IH _ _ Hr) as [H1 ->].
    split; [|by destruct later]. intros x [<-|Hx]; [done|by apply H1].
  - rewrite (target_not_consumed _ Hf), (proj2 (is_contained_In _ _) Hf) in Hr. injection Hr as ->.
    split; [|done]. by intros x [<-|[]].
  - destruct (consume_front "--target=" flag) as [n|] eqn:E; [apply consume_front_Some in E; by destruct (Hj n)|].
    destruct (is_contained ["-target"; "--target"] flag) eqn:Ec; [by apply is_contained_In in Ec|].
    destruct (IH _ _ Hr) as [H1 ->]. split; [|done]. intros x [<-|Hx]; [done|by apply H1].
Qed.

(** C40: a build whose units are guarded and whose link carries the runtime
    (one that enforces, after the driver's last word) is one the runtime can
    serve: no flag of Clang's is freestanding, drops the C library or asks for
    a sanitizer that replaces the allocator; the target, the last the flags
    name or else the host's, is a 64-bit Darwin or Linux one; and nothing is
    reported as off. *)
Theorem enforcing_build_served argv0 args o clang off flags named :
  runDriver (argv0 :: args) = Build o clang off -> enforces o = true ->
  names (List.filter (fun a => negb (isWeavecFlag a)) args) flags named ->
  let target := match named with Some t => t | None => defaultTriple end in
  off = EmptyString
  /\ (forall flag, In flag flags -> ~ unserved flag)
  /\ isArch64Bit target = true /\ (isOSDarwin target = true \/ isOSLinux target = true).
Proof.
  intros Hd He Hn target. destruct (runDriver_spec _ _ _ _ _ Hd) as (s & _ & _ & Hargs & _ & _ & Hoff).
  destruct (Hoff He) as [-> Hrun]. split; [done|].
  unfold runtimeObstacle in Hrun. rewrite Hargs in Hrun. change (drop 1 (argv0 :: ?l)) with l in Hrun.
  destruct (obstacleLoop _ _) as [reason|t] eqn:E.
  { by destruct (obstacleLoop_reason _ _ _ E). }
  destruct (obstacleLoop_names _ _ _ Hn _ _ E) as [Hserved Ht]. split; [done|]. unfold target. rewrite <- Ht.
  destruct (runtimeTarget t) eqn:Et; [|done]. unfold runtimeTarget in Et. bool_hyps.
  destruct (isArch64Bit t), (isOSDarwin t), (isOSLinux t); try done; auto.
Qed.
End Driving.

(** ** The link line *)

(** An operand the whole-archive state does not hear. *)
Definition neutral (arg : string) : Prop := forall whole, wholeStep whole arg = whole.

Lemma beforeLibrary_spec args before from :
  beforeLibrary args = (before, from) ->
  args = before ++ from /\ forallb (fun a => negb (isLibrary a)) before = true
  /\ match from with [] => True | lib :: _ => isLibrary lib = true end.
Proof.
  revert before from. induction args as [|arg rest IH]; intros before from; cbn [beforeLibrary].
  { by intros [= <- <-]. }
  destruct (isLibrary arg) eqn:E; [by intros [= <- <-]|].
  destruct (beforeLibrary rest) as [b f]. intros [= <- <-]. destruct (IH _ _ eq_refl) as (-> & Hb & Hf).
  split_and!; [done|cbn; by rewrite E, Hb|done].
Qed.

Lemma whole_off whole : wholeStep whole "--no-whole-archive" = false.
Proof. done. Qed.

Lemma whole_on whole : wholeStep whole "--whole-archive" = true.
Proof. done. Qed.

Lemma whole_app l1 l2 w : foldl wholeStep w (l1 ++ l2) = foldl wholeStep (foldl wholeStep w l1) l2.
Proof. apply foldl_app. Qed.

(** The link line of an image: the runtime comes directly before the first
    library of the line (so before the C library), every argument of the line
    keeps its place and its order, the whole-archive state each of them is read
    in is the one it had, and where the archive follows a shared runtime it is
    read outside any whole-archive region, and not at all under [-all_load]:
    the image never carries a second runtime. *)
Theorem link_line old runtime rpath fallback archive linux :
  is_contained old "-r" = false -> neutral runtime -> neutral rpath -> neutral fallback ->
  exists before added from,
    old = before ++ from
    /\ linkLine old runtime rpath fallback archive linux = before ++ (runtime :: added) ++ from
    /\ forallb (fun a => negb (isLibrary a)) before = true
    /\ match from with [] => True | lib :: _ => isLibrary lib = true end
    /\ (forall from1 from2, from = from1 ++ from2 ->
          foldl wholeStep false (before ++ (runtime :: added) ++ from1)
          = foldl wholeStep false (before ++ from1))
    /\ (fallback <> EmptyString -> is_contained old "-all_load" = false ->
          exists added1 added2, added = added1 ++ fallback :: added2
            /\ foldl wholeStep false (before ++ runtime :: added1) = false)
    /\ (is_contained old "-all_load" = true -> In fallback added ->
          fallback = rpath \/ In fallback ["-rpath"; "-lpthread"]).
Proof.
  intros Hr Hrt Hrp Hfb. unfold linkLine. rewrite Hr.
  destruct (beforeLibrary old) as [before from] eqn:E. destruct (beforeLibrary_spec _ _ _ E) as (Ho & Hb & Hf).
  set (whole := foldl wholeStep false before).
  set (rp := if negb archive && negb (String.eqb rpath EmptyString) then ["-rpath"; rpath] else []).
  set (thread := if linux then ["-lpthread"] else []).
  assert (Hrps : forall w, foldl wholeStep w rp = w) by (intros w; subst rp; destruct (_ && _); [apply Hrp|done]).
  assert (Hths : forall w, foldl wholeStep w thread = w) by (intros w; subst thread; by destruct linux).
  set (fb := if negb (String.eqb fallback EmptyString) && negb (is_contained old "-all_load") then _ else _).
  assert (Hfbs : foldl wholeStep whole fb = whole).
  { subst fb. destruct (negb (String.eqb fallback EmptyString) && _); [|done].
    destruct whole; [reflexivity|apply Hfb]. }
  exists before, (rp ++ fb ++ thread), from. split_and!; try done.
  - intros from1 from2 _. rewrite !whole_app. fold whole. f_equal.
    cbn [foldl]. by rewrite Hrt, !whole_app, Hrps, Hfbs, Hths.
  - intros Hne Hall. subst fb. rewrite (proj2 (String.eqb_neq _ _) Hne), Hall. cbn [negb andb].
    exists (rp ++ (if whole then ["--no-whole-archive"] else [])),
           ((if whole then ["--whole-archive"] else []) ++ thread).
    split; [by rewrite <- !app_assoc|]. rewrite whole_app. fold whole. cbn [foldl].
    rewrite Hrt, whole_app, Hrps. destruct whole; [apply whole_off|done].
  - intros Hall Hin. subst fb. rewrite Hall, andb_false_r in Hin. cbn [app] in Hin.
    apply in_app_or in Hin as [Hin|Hin].
    + subst rp. destruct (_ && _); [|by destruct Hin].
      destruct Hin as [Hin|[Hin|[]]]; [right; left; done|by left].
    + subst thread. destruct linux; [|by destruct Hin]. destruct Hin as [Hin|[]]. right; right; by left.
Qed.

(** ** ASan's macros *)

(** [AsanOptionsReset]: ASan leaves the language options before the back end
    reads them. *)
Definition asanReset (l : list sanitizer) : list sanitizer :=
  List.filter (fun k => negb (sanitizer_eqb k Address)) l.

Lemma sanitizer_eqb_eq a b : sanitizer_eqb a b = true <-> a = b.
Proof.
  destruct a, b; cbn; try (split; done). rewrite Nat.eqb_eq. split; [by intros ->|by intros [= ->]].
Qed.

(** ASan's macros are given to the source only where WeaveC guards it and
    the command line asked for no address sanitizer; at the end of the unit the
    sanitizers are those the command line asked for: ASan's own
    instrumentation never runs. *)
Theorem asan_compat_undone darwin c o c' :
  applyAsanCompat darwin c o = (true, c') ->
  enforces o = true /\ asanReset (sanitize c') = sanitize c /\ In Address (sanitize c')
  /\ guards c' = guards c /\ recover c' = recover c.
Proof.
  unfold applyAsanCompat. destruct (negb (enforces o)) eqn:E1; [done|]. destruct (negb (asanCompat o)); [done|].
  destruct (existsb _ [Address; KernelAddress; HWAddress]) eqn:E2; [done|]. cbn [orb]. intros [= <-].
  cbn [existsb] in E2. bool_hyps.
  assert (Hno : existsb (sanitizer_eqb Address) (sanitize c) = false) by done.
  cbn [sanitize guards recover]. unfold set_sanitizer. rewrite Hno. split_and!; [done| |by left|done|done].
  unfold asanReset. cbn [List.filter sanitizer_eqb negb]. clear -Hno.
  induction (sanitize c) as [|k l IH]; [done|]. cbn [existsb] in Hno. apply orb_false_iff in Hno as [Hk Hl].
  cbn [List.filter]. assert (Hk' : sanitizer_eqb k Address = false) by by destruct k.
  rewrite Hk'. cbn [negb]. by rewrite IH.
Qed.
