(* ===== verification/Witnesses.v ===== *)
(** * The theorems at concrete inputs

    For each theorem with hypotheses whose own file does not, a concrete input
    at which they hold: a 42-bit window with a 20-byte object in it, a thread
    with a megabyte of stack, a frame of three locals, a table of terms, a
    command line, an arena of 2 GiB regions. *)

From Stdlib Require Import String Ascii.
From stdpp Require Import relations list.
From S2P Require Import Prelude Shadow Report Guard GuardEntry InlineGuard.
Local Open Scope Z_scope.

Module Runtime.

#[export] Instance thread : Thread :=
  {| stackLow := 2 ^ 36; stackHigh := 2 ^ 36 + 2 ^ 20; aarch64 := true |}.
#[export] Instance pages : Pages := {| pageBytes := 16384; remaps _ _ := true |}.

(** Two 32-byte heap slots at [2^33], the first live with 20 bytes. *)
#[export] Instance view : HeapView :=
  {| weavecRtHeapObjectAt a :=
       if (2 ^ 33 <=? a) && (a <? 2 ^ 33 + 32) then mkHeapObject true true (2 ^ 33) 20
       else if (2 ^ 33 + 32 <=? a) && (a <? 2 ^ 33 + 64) then mkHeapObject true true (2 ^ 33 + 32) 16
       else mkHeapObject false false 0 0 |}.

Definition reports0 : reports := mkReports (fun _ => 0) false [].
Definition state (s : shadow) : gstate := mkGState s reports0 false 0 false (fun _ => 0).
Definition st : gstate := state shadow_object_example.
Definition here : Z := 2 ^ 36 + 4096.

Lemma wf : shadow_wf shadow_object_example.
Proof. apply shadow_object_example_wf. Qed.

Lemma pages_ok : pages_wf.
Proof. exists 14. split; [lia|done]. Qed.

Lemma bits : s_bits shadow_object_example = 42.
Proof. reflexivity. Qed.

Definition report_site : option site := Some (Site (Some "f.c"%string) 3 1 WeavecRtSiteReport).

Lemma report_once_witness :
  let r1 := snd (weavecRtFail reports0 "heap-buffer-overflow" 4096 4 report_site) in
  weavecRtFail r1 "heap-buffer-overflow" 8192 1 report_site = (false, r1).
Proof.
  assert (H1 : stop reports0 report_site = false) by reflexivity.
  assert (H2 : exists slot, 0 <= slot < SiteSlots /\ r_sites reports0 slot = 0)
    by (exists 0; split; [split; [lia|reflexivity]|reflexivity]).
  exact (report_once reports0 "heap-buffer-overflow" 4096 4 report_site 8192 1 H1 H2).
Defined.

Lemma failure_stops_witness :
  fst (fail reports0 (Fails "heap-use-after-free" (2 ^ 33) 4) None) = true.
Proof.
  assert (H : stop reports0 None = true) by reflexivity.
  exact (proj1 (failure_stops reports0 (Fails "heap-use-after-free" (2 ^ 33) 4) None H)).
Defined.

Lemma firstUnaddressable_exact_witness :
  settles shadow_object_example (fst (firstUnaddressable shadow_object_example (2 ^ 33 + 10) 40 here)) here
  /\ snd (firstUnaddressable shadow_object_example (2 ^ 33 + 10) 10 here) = None.
Proof.
  destruct (firstUnaddressable_exact shadow_object_example (2 ^ 33 + 10) 40 here) as [H _];
    [apply wf|change (s_bits shadow_object_example) with 42; lia|lia|].
  split; [exact H|vm_compute; reflexivity].
Defined.

Lemma allAddressable_exact_witness :
  range_ok shadow_object_example (2 ^ 33 + 1) 19.
Proof.
  apply (allAddressable_exact shadow_object_example (2 ^ 33 + 1) 19);
    [apply wf|lia|lia|change (s_bits shadow_object_example) with 42; lia|vm_compute; reflexivity].
Defined.

Lemma guard_decides_witness :
  decides st (2 ^ 33 + 16) 8 None here (fun _ => True) (__weavec_rt_guard (2 ^ 33 + 16) 8 None here st)
  /\ fst (__weavec_rt_guard (2 ^ 33 + 16) 4 None here st) = Some tt
  /\ fst (__weavec_rt_guard (2 ^ 33 + 16) 8 None here st) = None.
Proof.
  split; [|split; vm_compute; reflexivity].
  apply (guard_decides st (2 ^ 33 + 16) 8 None here);
    [apply wf|change (s_bits (gs_shadow st)) with 42; lia|lia|vm_compute; reflexivity].
Defined.

Lemma range_decides_witness :
  decides st (2 ^ 33) 20 None here (fun ok => ok = true) (__weavec_rt_range_ok (2 ^ 33) 20 here st)
  /\ fst (__weavec_rt_range (2 ^ 33) 21 None here st) = None.
Proof.
  split; [|vm_compute; reflexivity].
  apply (range_decides st (2 ^ 33) 20 None here);
    [apply wf|change (s_bits (gs_shadow st)) with 42; lia|lia|vm_compute; reflexivity].
Defined.

Lemma tagged_decides_witness :
  firstUnaddressable shadow_object_example (2 ^ 33 + 16 + 5 * 2 ^ 56) 8 here
  = firstUnaddressable shadow_object_example (2 ^ 33 + 16) 8 here.
Proof.
  apply (tagged_decides shadow_object_example (2 ^ 33 + 16) 5 8 here);
    [reflexivity|apply wf|vm_compute; congruence|change (s_bits shadow_object_example) with 42; lia|lia].
Defined.

Lemma jump_inside_witness :
  jumpKind st (2 ^ 33 + 19) (2 ^ 33) (granule_value shadow_object_example (2 ^ 33)) here = None.
Proof.
  apply (jump_inside st shadow_example (2 ^ 33) 20 WeavecRtShadowHeapTail 9);
    [apply pages_ok|apply shadow_example_wf|lia|reflexivity|lia
    |change (s_bits shadow_example) with 42; lia|split; [lia|vm_compute; congruence]
    |vm_compute; intuition congruence|lia|lia|reflexivity].
Defined.

(** A second object, of another color, in the next slot. *)
Definition st2 : gstate :=
  state (weavecRtShadowObject shadow_object_example (2 ^ 33 + 32) 16 WeavecRtShadowHeapTail 10).

Lemma jump_heap_witness :
  jumpKind st2 (2 ^ 33 + 32) (2 ^ 33) (granule_value (gs_shadow st2) (2 ^ 33)) here
  = Some "heap-buffer-overflow"%string.
Proof.
  apply (jump_heap st2 (2 ^ 33 + 32) (2 ^ 33) here); vm_compute; first [reflexivity|congruence].
Defined.

(** Five bytes and their terminator in the 20-byte object. *)
#[local] Instance bytes : Bytes :=
  {| b_at a := if (2 ^ 33 <=? a) && (a <? 2 ^ 33 + 5) then 97 else 0; b_end := 2 ^ 33 + 4096 |}.

Lemma strlen_decides_witness :
  let r := __weavec_rt_strlen (2 ^ 33) 100 None here st in
  settles (gs_shadow st) (gs_shadow (snd r)) here
  /\ (fst r = Some 5 <-> all_usable (gs_shadow st) here (2 ^ 33) 6).
Proof.
  destruct (strlen_decides st (2 ^ 33) 100 5 None here) as (H1 & H2 & _); [..|split; [exact H1|exact H2]].
  - apply wf.
  - intros a. unfold b_at, bytes. destruct ((2 ^ 33 <=? a) && _); lia.
  - split; [lia|]. split; [|reflexivity]. intros i Hi. unfold b_at, bytes.
    rewrite (proj2 (Z.leb_le (2 ^ 33) _)), (proj2 (Z.ltb_lt _ (2 ^ 33 + 5))) by lia. discriminate.
  - unfold b_end, bytes. lia.
  - reflexivity.
  - lia.
  - lia.
  - change (s_bits (gs_shadow st)) with 42. lia.
  - vm_compute. reflexivity.
Defined.

Lemma alloca_exact_witness :
  let s' := gs_shadow (snd (__weavec_rt_alloca_poison (2 ^ 36 + 64) 40 st)) in
  addressable s' (2 ^ 36 + 103) = true /\ addressable s' (2 ^ 36 + 104) = false.
Proof.
  destruct (alloca_exact pages_ok st (2 ^ 36 + 64) 40) as [_ H];
    [apply wf|lia|reflexivity|lia|vm_compute; congruence|].
  replace (alloca_fits (2 ^ 36 + 64) ((40 + 31) / 32 * 32 + 32)) with true in H by (vm_compute; reflexivity).
  destruct H as (_ & H & _). change ((40 + 31) / 32 * 32 + 32) with 96 in H.
  split; rewrite H by lia; reflexivity.
Defined.

Lemma unpoison_exact_witness :
  addressable (gs_shadow (snd (__weavec_rt_unpoison_stack (2 ^ 36 + 4096) st))) (2 ^ 36 + 5000) = true.
Proof.
  apply (unpoison_exact pages_ok st (2 ^ 36 + 4096));
    [apply wf|cbn; lia|cbn; lia|change (s_bits (gs_shadow st)) with 42; cbn; lia|cbn; lia].
Defined.

Definition globals : list global :=
  [mkGlobal (2 ^ 34) 100 160; mkGlobal (2 ^ 34 + 160) 4 64].

Lemma register_exact_witness :
  let s' := gs_shadow (snd (__weavec_rt_globals_register globals st)) in
  addressable s' (2 ^ 34 + 99) = true /\ addressable s' (2 ^ 34 + 100) = false
  /\ addressable s' (2 ^ 34 + 163) = true.
Proof.
  destruct (register_exact pages_ok globals st) as (_ & _ & _ & _ & H & _).
  - apply wf.
  - repeat constructor; vm_compute; intuition congruence.
  - repeat constructor; vm_compute; intuition congruence.
  - vm_compute. congruence.
  - vm_compute. reflexivity.
  - cbv zeta. split_and!.
    + rewrite (H (mkGlobal (2 ^ 34) 100 160)) by (first [by left|split; cbn; lia]). reflexivity.
    + rewrite (H (mkGlobal (2 ^ 34) 100 160)) by (first [by left|split; cbn; lia]). reflexivity.
    + rewrite (H (mkGlobal (2 ^ 34 + 160) 4 64)) by (first [by right; left|split; cbn; lia]). reflexivity.
Defined.

Definition si : site := Site (Some "f.c"%string) 3 1 0.

(** The last four bytes of the object, computed from its start, the base tested
    against null; eight bytes there are too many. *)
Definition rootOf (color : Z) : RootCheck := mkRootCheck (2 ^ 33) color None false.

Lemma root_fine color nullBase : 0 <= color < 128 -> root_ok nullBase (rootOf color).
Proof. intros Hc. split; [|done]. unfold sign_extended, rootByte. cbn. rewrite Z.mod_small by lia. case_match; lia. Qed.

Lemma inline_exact_witness :
  emitGuard shadow_object_example true (2 ^ 33 + 16) 4 4 si (Some (2 ^ 33)) [] (Some (rootOf 9)) = []
  /\ range_ok shadow_object_example (2 ^ 33 + 16) 4
  /\ ~ range_ok shadow_object_example (2 ^ 33 + 16) 8.
Proof.
  split; [vm_compute; reflexivity|]. split.
  - destruct (inline_exact shadow_object_example wf true (2 ^ 33 + 16) 4 4 si (Some (2 ^ 33)) [] (Some (rootOf 9))) as [H _];
      [lia|lia|change (s_bits shadow_object_example) with 42; lia|by exists 2|reflexivity|intros r [= <-]; by apply root_fine|].
    destruct (H ltac:(vm_compute; reflexivity)) as [?|(_ & _ & Hr & _)]; [lia|exact Hr].
  - intros Hr. destruct (inline_exact shadow_object_example wf true (2 ^ 33 + 16) 8 8 si None [] None) as [_ H];
      [lia|lia|change (s_bits shadow_object_example) with 42; lia|by exists 3|reflexivity|done|].
    assert (Hn : emitGuard shadow_object_example true (2 ^ 33 + 16) 8 8 si None [] None = []) by (apply H; right; by split_and!).
    vm_compute in Hn. discriminate Hn.
Defined.

Lemma inline_range_exact_witness :
  emitRange shadow_object_example true (2 ^ 33) 20 si = [].
Proof.
  apply (inline_range_exact shadow_object_example wf (2 ^ 33) 20 si);
    [lia|lia|change (s_bits shadow_object_example) with 42; lia|]. split; [lia|].
  apply quickOk_sound; [apply wf|lia|lia|vm_compute; reflexivity].
Defined.

Lemma inline_jump_sound_witness :
  jumpKind st (2 ^ 33 + 16) (2 ^ 33) 9 here = None.
Proof.
  apply (inline_jump_sound shadow_object_example wf st (2 ^ 33 + 16) 4 4 si (mkRootCheck (2 ^ 33) 9 None false) here);
    first [reflexivity|lia|by exists 2|vm_compute; reflexivity|idtac].
  - change (s_bits shadow_object_example) with 42. lia.
  - vm_compute. intuition congruence.
Defined.
End Runtime.
