(* ===== verification/LibcWitnesses.v ===== *)
(** * The checked library calls at concrete inputs

    The theorems of the files Asan, Globals, LibcCalls and FormatFacts at
    concrete states, and three calls the checks let through: the state of the
    file Witnesses, a 42-bit window with a 20-byte object, with strings and
    formats in its memory. *)

From Stdlib Require Import String Ascii.
From S2P Require Import Prelude Shadow Report Guard GuardEntry Classes Frames FramesFacts.
From S2P Require Import Asan Globals Libc LibcFormat LibcFacts LibcCalls FormatFacts Witnesses.
Local Open Scope Z_scope.

Module Library.

#[local] Existing Instances Runtime.thread Runtime.pages Runtime.view.

Definition here : Z := 2 ^ 36 + 4096.

(** ** The memory *)

Definition codes (s : string) : list Z := map (fun c => Z.of_nat (nat_of_ascii c)) (list_ascii_of_string s).

(** Zeros, but texts at their addresses. *)
Definition memory_of (texts : list (Z * string)) : Z -> Z := fun a =>
  match List.find (fun '(at_, s) => (at_ <=? a) && (a <? at_ + Z.of_nat (String.length s))) texts with
  | Some (at_, s) => nth (Z.to_nat (a - at_)) (codes s) 0
  | None => 0
  end.

Lemma codes_ok s : Forall (fun c => 0 <= c < 256) (codes s).
Proof.
  apply List.Forall_forall. intros c Hc. apply in_map_iff in Hc as (x & <- & _). pose proof (nat_ascii_bounded x). lia.
Qed.

Lemma memory_ok texts a : 0 <= memory_of texts a < 256.
Proof.
  unfold memory_of. destruct (List.find _ texts) as [[at_ s]|]; [|lia].
  destruct (Nat.lt_ge_cases (Z.to_nat (a - at_)) (length (codes s))) as [Hl|Hl].
  - apply (proj1 (List.Forall_forall _ _) (codes_ok s)). by apply nth_In.
  - rewrite nth_overflow by done. lia.
Qed.

(** A C library whose calls answer 0 and write nothing, whose formatted writes
    give two bytes, and whose parsers convert one. *)
#[local] Instance machine : Machine := {|
  mappedEnd := 2 ^ 33 + 4096;
  sizeof _ := 16;
  library _ _ m := (0, m);
  formatted _ _ _ := Some [104; 105];
  parser _ _ s _ := (7, s);
  inputFails := false
|}.

(** The strings: the object's, one in the object's last bytes whose
    terminator would lie outside, and formats. *)
Definition texts : list (Z * string) :=
  [(2 ^ 33, "aaaaa"%string); (2 ^ 33 + 16, "bbbbbbbb"%string);
   (2 ^ 33 + 256, "%.100000s"%string); (2 ^ 33 + 512, "%.100001s"%string);
   (2 ^ 33 + 768, "%1$s"%string); (2 ^ 33 + 1024, "%1$s %1$.3s"%string)].

Definition st0 : cstate := mkC Runtime.st (memory_of texts) [].

Lemma texts_ready : ready st0 None.
Proof.
  split; [exact Runtime.wf|exact (memory_ok texts)|split; vm_compute; congruence|reflexivity|reflexivity].
Qed.

Lemma machine_ok : library_ok.
Proof.
  split.
  - intros name. cbn. lia.
  - intros m format arguments bytes [= <-]. cbn. lia.
  - intros name m s base. split; [cbn; lia|by left].
Qed.

(** Five bytes and their terminator, copied to the middle of the object. *)
Lemma calls_demand_witness :
  performs here st0 (demands st0 (Strcpy (2 ^ 33 + 8) (2 ^ 33) 12) None) (2 ^ 33 + 8)
    (memmove (memory_of texts) (2 ^ 33 + 8) (2 ^ 33) 6) (run here (Strcpy (2 ^ 33 + 8) (2 ^ 33) 12) None st0)
  /\ fst (run here (Strcpy (2 ^ 33 + 8) (2 ^ 33) 12) None st0) = Some (2 ^ 33 + 8)
  /\ fst (run here (Strcpy (2 ^ 33 + 8) (2 ^ 33) 5) None st0) = None
  /\ fst (run here (Strcpy (2 ^ 33 + 15) (2 ^ 33) 12) None st0) = None.
Proof.
  split; [|split_and!; vm_compute; reflexivity].
  apply (calls_demand here st0 None texts_ready machine_ok (Strcpy (2 ^ 33 + 8) (2 ^ 33) 12)).
  split; [|vm_compute; reflexivity]. cbn [words]. repeat constructor; vm_compute; congruence.
Defined.

Lemma format_read_back_witness :
  let c := mkConversion [45] Star (Some (Digits [51])) 0 115 in
  exists w, formatUses (printFormat [Literal 97; Percent; Converts c] ++ [0]) = Some w
    /\ take (Z.to_nat (w_count w)) (w_uses w) = [mkUse ArgumentInt 0 0 0; mkUse ArgumentString 3 0 4].
Proof.
  apply (format_read_back [Literal 97; Percent; Converts (mkConversion [45] Star (Some (Digits [51])) 0 115)] []); [|cbn; lia].
  repeat constructor; cbn; (lia || discriminate || done).
Defined.

(** ** What the checks let through *)

(** The object's last four bytes and what follows them are not zero: a string
    there has no terminator in the object, and a call that reads it stops.  A
    precision over 100000 counts as one of zero: nothing is checked. *)
Theorem large_precision_unchecked :
  fst (__weavec_rt_vprintf here (2 ^ 33 + 256) [2 ^ 33 + 16] None st0) = None
  /\ fst (__weavec_rt_vprintf here (2 ^ 33 + 512) [2 ^ 33 + 16] None st0) = Some 0.
Proof. split; vm_compute; reflexivity. Qed.

(** Of two conversions that read one argument the last one's precision counts
    for both. *)
Theorem repeated_argument_unchecked :
  fst (__weavec_rt_vprintf here (2 ^ 33 + 768) [2 ^ 33 + 16] None st0) = None
  /\ fst (__weavec_rt_vprintf here (2 ^ 33 + 1024) [2 ^ 33 + 16] None st0) = Some 0.
Proof. split; vm_compute; reflexivity. Qed.

(** A concatenation whose operands overlap is made; a copy whose operands do
    stops. *)
Theorem overlapping_cat_unchecked :
  fst (__weavec_rt_strcat here (2 ^ 33) (2 ^ 33 + 3) 20 None st0) = Some (2 ^ 33)
  /\ ~ holds here st0 (Apart (2 ^ 33 + 5) (2 ^ 33 + 3) 3)
  /\ fst (__weavec_rt_strcpy here (2 ^ 33 + 1) (2 ^ 33) 20 None st0) = None.
Proof.
  split_and!; [vm_compute; reflexivity| |vm_compute; reflexivity].
  cbn. intros [E|[E|E]]; vm_compute in E; (discriminate || (apply E; reflexivity)).
Qed.

(** ** AddressSanitizer's interface *)

Definition heap_example : heap := reserve 31 (2 ^ 40 + 4096).

Lemma user_regions_exact_witness :
  addressable (__asan_poison_memory_region shadow_object_example (2 ^ 34 + 8) 40) (2 ^ 34 + 15) = true
  /\ addressable (__asan_poison_memory_region shadow_object_example (2 ^ 34 + 8) 40) (2 ^ 34 + 16) = false
  /\ addressable (__asan_unpoison_memory_region heap_example shadow_object_example (2 ^ 33 + 8) 30) (2 ^ 33 + 37) = true.
Proof.
  pose proof (user_regions_exact shadow_object_example heap_example) as Hex.
  split_and!.
  - rewrite (proj1 (Hex (2 ^ 34 + 8) 40 (2 ^ 34 + 15) Runtime.wf ltac:(lia) ltac:(lia) ltac:(vm_compute; congruence) ltac:(split; vm_compute; congruence))).
    vm_compute. reflexivity.
  - rewrite (proj1 (Hex (2 ^ 34 + 8) 40 (2 ^ 34 + 16) Runtime.wf ltac:(lia) ltac:(lia) ltac:(vm_compute; congruence) ltac:(split; vm_compute; congruence))).
    vm_compute. reflexivity.
  - rewrite (proj2 (Hex (2 ^ 33 + 8) 30 (2 ^ 33 + 37) Runtime.wf ltac:(lia) ltac:(lia) ltac:(vm_compute; congruence) ltac:(split; vm_compute; congruence))).
    vm_compute. reflexivity.
Defined.

Lemma region_poisoned_exact_witness :
  exists r st', __asan_region_is_poisoned (2 ^ 33 + 16) 10 here Runtime.st = (Some r, st')
    /\ settles (gs_shadow Runtime.st) (gs_shadow st') here
    /\ first_denied (gs_shadow Runtime.st) here (2 ^ 33 + 16) 10 r.
Proof.
  apply (region_poisoned_exact Runtime.st (2 ^ 33 + 16) 10 here);
    [exact Runtime.wf|lia|lia|vm_compute; congruence].
Defined.

Example region_poisoned_first :
  fst (__asan_region_is_poisoned (2 ^ 33 + 16) 10 here Runtime.st) = Some (Some (2 ^ 33 + 20)).
Proof. vm_compute. reflexivity. Qed.

(** ** Globals *)

(** A table of 100 bytes, a count behind its redzone, and a declaration. *)
Definition variable (name : string) (size : Z) (declaration : bool) : GlobalVariable :=
  {| gv_name := name; gv_type := TypeOf (Some size);
     gv_initializer := if declaration then None else Some (Initial 0);
     gv_constant := false; gv_linkage := ExternalLinkage; gv_declaration := declaration;
     gv_exactDefinition := negb declaration; gv_interposable := false; gv_threadLocal := false; gv_section := false;
     gv_comdat := false; gv_addressSpace := 0; gv_externallyInitialized := false; gv_globalUnnamedAddr := false;
     gv_align := Some (2 ^ 4) |}.

Definition unit_example : Module_ :=
  mkModule [variable "table" 100 false; variable "count" 4 false; variable "errno_location" 8 true] [] [].

Definition at_example (name : string) : Z :=
  if String.eqb name "table" then 2 ^ 34 else if String.eqb name "count" then 2 ^ 34 + 160 else 2 ^ 34 + 4096.

Lemma unit_ok g : In g (md_globals unit_example) -> variable_ok g.
Proof.
  intros Hg. assert (Hc : g = variable "table" 100 false \/ g = variable "count" 4 false \/ g = variable "errno_location" 8 true)
    by (cbn in Hg; intuition congruence).
  destruct Hc as [-> |[-> | ->]]; (split; [done|]); intros Ht.
  - split; [cbn; lia|]. exists 4. done.
  - split; [cbn; lia|]. exists 4. done.
  - discriminate Ht.
Qed.

Lemma unit_placed : placed (s_bits (gs_shadow Runtime.st)) at_example (instrumentGlobals unit_example).
Proof.
  split.
  - intros g Hg. vm_compute in Hg. repeat destruct Hg as [<-|Hg]; [vm_compute; reflexivity..|by destruct Hg].
  - intros g n Hg Hn. vm_compute in Hg. repeat destruct Hg as [<-|Hg]; [..|by destruct Hg]; vm_compute in Hn; injection Hn as <- || discriminate Hn;
      split; vm_compute; congruence.
  - assert (E : md_globals (instrumentGlobals unit_example)
      = [replacement (variable "table" 100 false); replacement (variable "count" 4 false); variable "errno_location" 8 true;
         recordArray [("table"%string, 100, 160); ("count"%string, 4, 64)]]) by (vm_compute; reflexivity). rewrite E.
    repeat first [apply FOP_cons|apply FOP_nil|apply List.Forall_cons|apply List.Forall_nil];
      intros n k Hn Hk; vm_compute in Hn, Hk; (injection Hn as <- || discriminate Hn); (injection Hk as <- || discriminate Hk);
      first [left; vm_compute; congruence|right; vm_compute; congruence].
Qed.

Lemma globals_guarded_witness :
  let s' := gs_shadow (snd (construct at_example (instrumentGlobals unit_example) Runtime.st)) in
  addressable s' (2 ^ 34 + 99) = true /\ addressable s' (2 ^ 34 + 100) = false.
Proof.
  pose proof (fun a => globals_guarded Runtime.pages_ok unit_example unit_ok Runtime.st at_example (variable "table" 100 false) a
    ltac:(by intros c []) Runtime.wf unit_placed ltac:(vm_compute; congruence) ltac:(vm_compute; reflexivity) ltac:(by left) eq_refl) as Hg.
  cbv zeta in Hg |- *. split.
  - rewrite (proj1 (proj2 (Hg (2 ^ 34 + 99) ltac:(split; vm_compute; congruence)))). vm_compute. reflexivity.
  - rewrite (proj1 (proj2 (Hg (2 ^ 34 + 100) ltac:(split; vm_compute; congruence)))). vm_compute. reflexivity.
Defined.
End Library.
