(* ===== verification/CallWitnesses.v ===== *)
(** * Guarded library calls at concrete inputs

    A table of four rows of lib/Core/LibrarySpec.txt, the calls a unit makes of
    them, and what becomes of each: the theorems of the file CallRuns at a
    copy, and a redirected call carried through to its wrapper. *)

From Stdlib Require Import String Ascii.
From S2P Require Import Prelude Shadow Report Guard GuardEntry Libc LibcFormat LibcFacts LibcCalls.
From S2P Require Import LibTerm LibrarySpec CallGuards CallRuns Witnesses LibcWitnesses.
Local Open Scope Z_scope.

Module LibraryCalls.

#[local] Existing Instances Runtime.thread Runtime.pages Runtime.view Library.machine.

(** ** The table *)

Definition text : string :=
  "memcpy (w:bytes(a2):null-if-zero(a2), r:bytes(a2):null-if-zero(a2), int) -> ptr disjoint(0,1,a2) chk(__memcpy_chk:0,1,2,size);
strcpy (w:bytes(strlen(a1)+1), r:str) -> ptr disjoint(0,1,strlen(a1)+1) wrapper(strcpy) chk(__strcpy_chk:0,1,size);
strlen (r:str) -> int:value(strlen(a0));
strstr (r:scan(strlen(a1)), r:str) -> ptr;
"%string.

Definition table : LibrarySpec := match LibrarySpec.parse text with inl spec => spec | inr _ => empty_spec end.

Lemma table_read : length (rows table) = 4%nat.
Proof. vm_compute. reflexivity. Qed.

(** ** The pass *)

(** Arrays of bytes; only words are folded. *)
#[local] Instance layout_example : Layout :=
  {| getTypeAllocSize t := match t with ArrayType _ n => n mod 2 ^ 64 | _ => 8 end |}.
#[local] Instance folder_example : Folder := {| folded v := match v with Word n => Some n | _ => None end |}.

Definition pointer : operand := mkOperand (PointerTy 0) None None NotGep.
Definition word (n : Z) : operand := mkOperand (IntegerTy 64) (Some n) None NotGep.

Definition site_of (callee : string) (operands : list operand) (result : irType) : callSite :=
  mkCallSite callee true false false false operands result.

(** A fortified copy of 8 bytes into 20, of a string, a length and a search. *)
Definition copy : callSite := site_of "__memcpy_chk" [pointer; pointer; word 8; word 20] (PointerTy 0).
Definition copyText : callSite := site_of "__strcpy_chk" [pointer; pointer; word 12] (PointerTy 0).
Definition measure : callSite := site_of "strlen" [pointer] (IntegerTy 64).
Definition search : callSite := site_of "strstr" [pointer; pointer] (PointerTy 0).

Definition early (s : callSite) : outcome := guardLibraryCall table None false s.
Definition codeOf (o : outcome) : list instruction :=
  match o with Kept b | Redirected b _ _ | Replaced b _ => b_code b end.

Example copy_guarded :
  codeOf (early copy)
  = [RangeGuard 0 (SExtOrTrunc 64 (Operand 2)) 1;
     Limit 0 (SExtOrTrunc 64 (Operand 2)) (ZExtOrTrunc 64 (Operand 3));
     RangeGuard 1 (SExtOrTrunc 64 (Operand 2)) 0;
     Disjoint 0 1 (SExtOrTrunc 64 (Operand 2))].
Proof. vm_compute. reflexivity. Qed.

Example text_redirected :
  match early copyText with
  | Redirected _ name arguments =>
    name = "strcpy"%string
    /\ arguments = [AValue (Operand 0); AValue (Operand 1); AValue (ZExtOrTrunc 64 (Operand 2)); TheSite]
  | _ => False
  end.
Proof. vm_compute. done. Qed.

Example length_computed :
  match early measure with Replaced b (Computed 0) => b_code b = [StringGuard 0 (Word Max) 0] | _ => False end.
Proof. vm_compute. done. Qed.

Example search_guarded :
  match early search with
  | Kept b =>
    b_code b = [CallGuards.Guard 0 1 0; StringGuard 1 (Word Max) 0]
    /\ length (b_after b) = 1%nat
  | _ => False
  end.
Proof. vm_compute. done. Qed.

(** The late pass leaves them alone. *)
Example late_unchanged : map (guardLibraryCall table None true) [copy; copyText; measure; search] = repeat unchanged 4.
Proof. vm_compute. reflexivity. Qed.

(** ** The copy at run time *)

Definition siteFor (flags : Z) : site := Site (Some "f.c"%string) 3 1 (Z.land flags 9).

Lemma siteFor_stops f : stop (gs_reports (cs_guard Library.st0)) (Some (siteFor f)) = true.
Proof.
  unfold stop, has, siteFor. cbn -[Z.land]. rewrite <- Z.land_assoc. change (Z.land 9 WeavecRtSiteReport) with 0.
  by rewrite Z.land_0_r.
Qed.

Lemma siteFor_nulls f : nullAllowed (Some (siteFor f)) = Z.testbit f 3.
Proof.
  change (negb (Z.land (Z.land f 9) WeavecRtSiteNullOk =? 0) = Z.testbit f 3). rewrite <- Z.land_assoc. change (Z.land 9 WeavecRtSiteNullOk) with (2 ^ 3).
  destruct (Z.testbit f 3) eqn:E.
  - apply negb_true_iff, Z.eqb_neq. intros E0. apply (f_equal (fun x => Z.testbit x 3)) in E0.
    rewrite Z.land_spec, Z.pow2_bits_true, E, Z.bits_0 in E0 by lia. discriminate.
  - apply negb_false_iff, Z.eqb_eq. apply Z.bits_inj'. intros n Hn. rewrite Z.land_spec, Z.bits_0.
    destruct (Z.eq_dec n 3) as [->|Hne]; [by rewrite E|]. by rewrite (Z.pow2_bits_false 3 n), andb_false_r by done.
Qed.

Definition copyMatch : LibraryMatch := default (mkLibraryMatch None None) (lookup table "__memcpy_chk" (Some 4%nat)).
Definition copyEntry : LibraryEntry :=
  default (mkLibraryEntry "" [] [] false RVoid None [] false None None 0) (m_entry copyMatch).
Definition copyCall : LibraryCall :=
  Eval vm_compute in mkCall copyEntry (m_alias copyMatch) (cs_operands copy) (cs_result copy) None.

(** The operands, from the 20-byte object's first bytes to its middle. *)
Definition copyEnv (d s n : Z) : env := mkEnv [d; s; n; 20] [] d.

Lemma folds_words k : folds_ok k.
Proof. intros v n e Hv _. destruct v; try discriminate Hv. by injection Hv. Qed.

Lemma copy_fits : call_fits copyCall (copyEnv (2 ^ 33) (2 ^ 33 + 8) 8) Library.st0.
Proof.
  split.
  - cbn [params copyCall lc_entry e_params]. repeat (apply List.Forall_cons; [split; reflexivity || exact I|]). apply List.Forall_nil.
  - constructor; [|constructor]. split; [reflexivity|]. intros first second n Hf Hs Hn. vm_compute in Hf, Hs, Hn.
    injection Hf as <-. injection Hs as <-. injection Hn as <-. split; vm_compute; reflexivity.
  - split.
    + cbn. repeat constructor; vm_compute; congruence.
    + constructor.
    + cbn. lia.
    + intros i n. destruct i as [|[|[|[|i]]]]; vm_compute; try (intros [= <-]; reflexivity); try discriminate. by destruct i.
  - reflexivity.
Qed.


(** The term of [strcpy]'s destination, on a literal of five bytes. *)
Definition lengthValues : Values := mkValues None (Some (fun arg => if arg =? 1 then Some 5 else None)).
Definition textEnv : env := mkEnv [2 ^ 33 + 8; 2 ^ 33; 12] [] 0.
Definition literal : operand := mkOperand (PointerTy 0) None (Some "aaaaa"%string) NotGep.
Definition textMatch : LibraryMatch := default (mkLibraryMatch None None) (lookup table "__strcpy_chk" (Some 3%nat)).
Definition textCall : LibraryCall :=
  Eval vm_compute in let m := textMatch in mkCall (default copyEntry (m_entry m)) (m_alias m) [pointer; literal; word 12] (PointerTy 0) None.

Lemma text_leaves : leaves_agree textCall textEnv Library.st0 lengthValues.
Proof.
  split.
  - intros arg x Hx. discriminate Hx.
  - intros arg n Hn. cbn in Hn. destruct (Z.eqb_spec arg 1) as [->|]; [|done]. injection Hn as <-.
    exists 1%nat. split; [vm_compute; reflexivity|]. intros m Hm. reflexivity.
Qed.

Lemma text_natural : natural lengthValues (Sum (StringLength 1) (Constant 1)).
Proof.
  assert (Hl : forall v, LibTerm.denotes lengthValues (StringLength 1) v -> 0 <= v).
  { intros v Hv. inversion Hv as [| |? ? Hask| | | | |]. vm_compute in Hask. injection Hask as <-. lia. }
  assert (Hc : forall v, LibTerm.denotes lengthValues (Constant 1) v -> 0 <= v).
  { intros v Hv. inversion Hv. lia. }
  split_and!; try done. intros v Hv. inversion Hv as [| | | |? ? x y Hx Hy| | |]. specialize (Hl _ Hx). specialize (Hc _ Hy). lia.
Qed.

Lemma text_operands : operands_ok textCall textEnv.
Proof.
  split.
  - cbn. repeat constructor; vm_compute; congruence.
  - constructor.
  - cbn. lia.
  - intros i n. destruct i as [|[|[|[|i]]]]; vm_compute; try (intros [= <-]; reflexivity); try discriminate.
Qed.

Lemma run_time_value_witness :
  termOf (paramAt textCall 0) = Some (Sum (StringLength 1) (Constant 1))
  /\ exists w b lengths, CallGuards.evaluate textCall (Sum (StringLength 1) (Constant 1)) None start = (Some w, b)
       /\ needs Library.here Library.st0 [] (extend textEnv lengths) (runCode Library.here siteFor (b_code b) textEnv Library.st0)
       /\ valueOf (extend textEnv lengths) w = 6.
Proof.
  split; [vm_compute; reflexivity|].
  apply (run_time_value Library.here siteFor textCall textEnv Library.st0) with (values := lengthValues).
  - reflexivity.
  - apply folds_words.
  - exact Library.texts_ready.
  - exact siteFor_stops.
  - exact siteFor_nulls.
  - intros i s Hl. vm_compute in Hl. destruct i as [|[|[|[|i]]]]; try discriminate Hl. injection Hl as <-. cbn. lia.
  - exact text_leaves.
  - split; [intros i x Hx; discriminate Hx|]. intros i x Hx. cbn in Hx. destruct (i =? 1); [|discriminate Hx].
    injection Hx as <-. split; vm_compute; congruence.
  - cbn. unfold int64_max. lia.
  - reflexivity.
  - exact text_natural.
  - reflexivity.
  - exact text_operands.
  - reflexivity.
Defined.
End LibraryCalls.
