(* ===== verification/GuardWitnesses.v ===== *)
(** * Guards removed and made one, on small functions

    The theorems of GuardRuns, GuardMerges, GuardScopes and RootFacts at
    functions of a few blocks: a diamond one arm of which releases memory, a
    loop with a local in it, a local whose address escapes, and the pointer of
    a loop.  A constant of 2{^63} bytes or more is taken for a negative width, a
    guard merged into one without its null test loses the test, and a guard
    merged over a redzone loses its color test. *)

From Stdlib Require Import String.
From stdpp Require Import gmap sets relations strings.
From S2P Require Import Prelude GuardRules GuardRuns GuardMerges GuardScopes GuardRoots RootFacts.
Local Open Scope Z_scope.

Definition markerInst (id : nat) : instruction := mkInstruction id (CallBase (Some MarkerGuard) true) true.
Definition plain (id : nat) : instruction := mkInstruction id OtherInst true.

(** A guard of [width] bytes at [offset] from [base], whose marker is [id]. *)
Definition guardOf (id base : nat) (offset width : Z) : Access :=
  mkAccess id KGuard base width None 8 false false false None 0 SGuard (Some base) offset 0 0 0 None.

(** A memory of one object, to whose bytes alone any root fits. *)
Definition oneObject (low high : Z) : memory.
Proof.
  refine (mkMemory (fun x => low <= x < high) (fun _ x => low <= x < high) (fun _ x => _) _).
  intros root x n Hn Hall _. apply Hall. lia.
Defined.

(** ** A diamond *)

Module Diamond.
(** Value 10 is defined at the entry, and its first eight bytes checked; one
    arm checks the last four of them, the other releases memory; where they
    meet, the halves are checked. *)
Definition f : function := [
  mkBlock [plain 10; markerInst 0; mkInstruction 1 LoadInst true] [1; 2]%nat;
  mkBlock [markerInst 2] [3]%nat;
  mkBlock [mkInstruction 3 (CallBase (Some "free"%string) false) true] [3]%nat;
  mkBlock [markerInst 4; mkInstruction 6 LoadInst true; markerInst 5] []
].
Definition order : list nat := [0; 2; 1; 3]%nat.
Definition accesses : list Access := [guardOf 0 10 0 8; guardOf 2 10 4 4; guardOf 4 10 0 4; guardOf 5 10 4 4].

(** Value 10 is computed from value 9. *)
Definition roots (n : nat) : option nat := Some 9%nat.

Definition kept : list Access := removeDominated f order accesses.
Definition final : list Access := mergeInBlocks f kept.

Lemma placed b k i : instrAt f b k = Some i ->
  (b, k, i_id i) ∈ [(0, 0, 10); (0, 1, 0); (0, 2, 1); (1, 0, 2); (2, 0, 3); (3, 0, 4); (3, 1, 6); (3, 2, 5)]%nat.
Proof.
  unfold instrAt, blockAt. intros Hi. do 4 (destruct b as [|b]; [do 4 (destruct k as [|k]; try done; try (injection Hi as <-; apply list_elem_of_In; cbn; tauto))|]).
  by destruct b.
Qed.

Lemma entry_only b k s : walk f accesses (eq 10%nat) b k s -> b = 0%nat /\ k = 0%nat.
Proof.
  induction 1 as [|b k s i _ [-> ->] Hi Ha|b s b' _ [-> E] _]; [done| |discriminate E].
  injection Hi as <-. by destruct Ha.
Qed.

Lemma function_fine : function_ok f order roots accesses.
Proof.
  split.
  - by eexists.
  - intros b b' Hb Hs. unfold order in *. assert (b = 0 \/ b = 1 \/ b = 2 \/ b = 3)%nat as [->|[->|[->| ->]]] by set_solver; cbn in Hs; set_solver.
  - intros b k i b' k' i' Hi%placed Hi'%placed E. rewrite E in Hi. apply list_elem_of_In in Hi, Hi'. cbn in Hi, Hi'.
    repeat (destruct Hi as [Hi|Hi]; [injection Hi as <- <- Hi; rewrite <- Hi in Hi'; intuition congruence|]). done.
  - intros d b0 k0 i0 b k s i n a Hi0 Hd Hw Hi Hn Ha Hb.
    assert (Hbase : a_base a = Some 10%nat).
    { unfold accesses in Ha. do 4 (destruct n as [|n]; [by injection Ha as <-|]). done. }
    assert (Hnull : nullTest a = None).
    { unfold accesses in Ha. do 4 (destruct n as [|n]; [by injection Ha as <-|]). done. }
    destruct Hb as [Hb|[Hb|Hb]]; [|congruence|].
    + rewrite Hbase in Hb. injection Hb as <-. destruct (entry_only b k s Hw) as [-> ->]. injection Hi as <-. discriminate Hn.
    + unfold rootTest in Hb. destruct (a_width a =? 0); [done|]. injection Hb as <-. apply placed in Hi0. rewrite Hd in Hi0.
      apply list_elem_of_In in Hi0. cbn in Hi0. intuition congruence.
  - intros b k i n Hi Hn. unfold instrAt, blockAt in Hi.
    do 4 (destruct b as [|b]; [do 4 (destruct k as [|k]; try done; try (injection Hi as <-; try discriminate Hn; vm_compute; eauto))|]).
    by destruct b.
Qed.

Lemma sizes_fine : sizes_ok accesses.
Proof. unfold sizes_ok, accesses. repeat apply Forall_cons_2; try apply Forall_nil_2; intros _; cbn; lia. Qed.

Lemma null_fine : null_first f accesses.
Proof.
  intros b k s i n an m am _ _ _ Hn _ _ _. left. unfold accesses in Hn. do 4 (destruct n as [|n]; [by injection Hn as <-|]). done.
Qed.

Lemma roots_fine : roots_ok roots accesses.
Proof. by intros m n am an _ _ _ _ _. Qed.

Lemma unmerged_fine : unmerged accesses.
Proof. by repeat constructor. Qed.

Lemma distinct : NoDup (map a_marker accesses).
Proof. vm_compute. repeat constructor; set_solver. Qed.

(** What no [free] changes. *)
Definition effect (u u' : memory) : Prop := u' = u.

Lemma effect_grows u u' : effect u u' -> grows u u'.
Proof. intros ->. by split. Qed.

Lemma kept_is : kept = [guardOf 0 10 0 8; with_state SDominated (guardOf 2 10 4 4); guardOf 4 10 0 4; guardOf 5 10 4 4].
Proof. by vm_compute. Qed.

Lemma diamond_sizes : sizes_ok kept.
Proof.
  rewrite kept_is. unfold sizes_ok. repeat apply Forall_cons_2; try apply Forall_nil_2; intros Hr; try discriminate Hr; cbn; lia.
Qed.

Lemma diamond_unmerged : unmerged kept.
Proof. rewrite kept_is. unfold unmerged. by repeat apply Forall_cons_2; try apply Forall_nil_2. Qed.

(** One guard of the four is redundant: the arm's. *)
Lemma dominated_exact_witness :
  map a_state kept = [SGuard; SDominated; SGuard; SGuard]
  /\ forall u v c, rtc (step f roots accesses effect (checksOf accesses)) (Running 0 0 u v) c
                   <-> rtc (step f roots accesses effect (checksOf kept)) (Running 0 0 u v) c.
Proof.
  split; [by vm_compute|]. intros u v c.
  exact (dominated_exact f order roots accesses function_fine sizes_fine null_fine roots_fine effect effect_grows u v c unmerged_fine).
Defined.

Lemma hull_holds_witness :
  map a_state final = [SGuard; SDominated; SGuard; SMerged] /\ members final 2 = [2; 3]%nat
  /\ exists g, mergeInBlocks f kept !! 2%nat = Some g
     /\ (tight g /\ exists a, mergeInBlocks f kept !! 3%nat = Some a /\ a_base a = a_base g /\ holds g a).
Proof.
  split; [by vm_compute|]. split; [by vm_compute|]. eexists. split; [by vm_compute|].
  refine (hull_holds f kept _ _ _ 2%nat _ 3%nat _ _ _); [apply (fo_ids _ _ _ _ function_fine)| | |by vm_compute|by vm_compute|vm_compute; set_solver].
  - exact diamond_sizes.
  - exact diamond_unmerged.
Defined.

(** The first eight bytes of the address space, then four. *)
Definition eight : memory := oneObject 0 8.
Definition four : memory := oneObject 0 4.

Lemma in_eight v n : v 10%nat = 0 -> (n < 4)%nat -> ok roots accesses eight v n.
Proof.
  intros Hv Hn. unfold ok, ownChecks, accesses. do 4 (destruct n as [|n]; [cbn; rewrite tests_all; split; [done|]; split; [apply Forall_cons_2; [|apply Forall_nil_2]|];
    cbn; rewrite Hv; [intros j Hj|intros r _]; unfold wrap64; rewrite Z.mod_small by lia; lia|]).
  lia.
Qed.

Definition zeros : nat -> Z := fun _ => 0.

(** To the meeting of the arms, with and without a release. *)
Lemma entered u (checks : nat -> list check) :
  checks 0%nat = ownChecks accesses 0 -> ok roots accesses u zeros 0 ->
  rtc (step f roots accesses effect checks) (Running 0 0 u zeros) (Running 0 3 u zeros).
Proof.
  intros Hc Hok.
  eapply rtc_l; [by apply (step_other _ _ _ _ _ 0 0 _ _ u zeros (plain 10))|].
  eapply rtc_l; [apply (step_pass _ _ _ _ _ 0 1 _ _ (markerInst 0) 0); [done|by vm_compute|]; rewrite Hc; exact Hok|].
  apply rtc_once. by apply (step_other _ _ _ _ _ 0 2 _ _ u zeros (mkInstruction 1 LoadInst true)).
Qed.

Lemma checks_arm : checksOf final 1 = [].
Proof. by vm_compute. Qed.

Lemma arm_run : rtc (step f roots accesses effect (checksOf final)) (Running 0 0 eight zeros) (Running 1 1 eight zeros).
Proof.
  etrans; [apply (entered eight); [by vm_compute|by apply in_eight; [|lia]]|].
  eapply rtc_l; [by apply (step_jump _ _ _ _ _ 0 3 _ _ 1); [|cbn; set_solver]|].
  apply rtc_once. apply (step_pass _ _ _ _ _ 1 0 _ _ (markerInst 2) 1); [done|by vm_compute|]. rewrite checks_arm. constructor.
Qed.

Lemma rules_sound_witness :
  checksOf final 1 = [] /\ testedFrom accesses final 1 0
  /\ (rtc (step f roots accesses effect (checksOf accesses)) (Running 0 0 eight zeros) (Running 1 1 eight zeros)
      \/ stopsLost f order roots accesses effect (Running 0 0 eight zeros))
  /\ passes roots accesses eight zeros (Bytes 1).
Proof.
  split; [exact checks_arm|]. split.
  { apply (tested_covering accesses final 1 0 (with_state SDominated (with_guard 4 4 (guardOf 2 10 4 4))) (guardOf 2 10 4 4) (guardOf 0 10 0 8)); try done; [by vm_compute..|].
    apply (tested_own accesses final 0 (with_guard 0 8 (guardOf 0 10 0 8))); by vm_compute. }
  destruct (rules_sound f order roots accesses function_fine sizes_fine unmerged_fine distinct effect effect_grows null_fine roots_fine
              eight zeros 1 1 eight zeros arm_run) as [Hr Hok].
  split; [exact Hr|].
  destruct (Hok 0%nat (markerInst 2) 1%nat (guardOf 2 10 4 4)) as (_ & Hb & _); [done|done|by vm_compute|done|exact Hb].
Defined.

(** The release leaves four bytes: the merged guard stops for its second
    member. *)
Lemma checks_leader : checksOf final 2 = [Color 2 0; NullTest 2; Bytes 2; Bytes 3].
Proof. by vm_compute. Qed.

Lemma diamond_stops : rtc (step f roots accesses effect (checksOf final)) (Running 0 0 eight zeros) (Stopped (Bytes 3)).
Proof.
  etrans; [apply (entered eight); [by vm_compute|by apply in_eight; [|lia]]|].
  eapply rtc_l; [by apply (step_jump _ _ _ _ _ 0 3 _ _ 2); [|cbn; set_solver]|].
  eapply rtc_l; [by apply (step_other _ _ _ _ _ 2 0 _ _ four zeros (mkInstruction 3 (CallBase (Some "free"%string) false) true))|].
  eapply rtc_l; [by apply (step_jump _ _ _ _ _ 2 1 _ _ 3); [|cbn; set_solver]|].
  apply rtc_once. apply (step_stop _ _ _ _ _ 3 0 _ _ (markerInst 4) 2 [Color 2 0; NullTest 2; Bytes 2] (Bytes 3) []); [done|by vm_compute|exact checks_leader| |].
  - apply Forall_cons_2; [intros r _; vm_compute; split; [discriminate|reflexivity]|]. apply Forall_cons_2; [done|]. apply Forall_cons_2; [|apply Forall_nil_2]. cbn. intros j Hj. unfold wrap64, zeros. rewrite Z.mod_small by lia. lia.
  - cbn. intros Hall. specialize (Hall 0 ltac:(lia)). unfold wrap64, zeros in Hall. rewrite Z.mod_small in Hall by lia. lia.
Qed.

End Diamond.

(** ** A width that is taken for negative *)

Module Wide.
(** Eight bytes of value 10, then [memset(p, 0, -1)]. *)
Definition f : function := [mkBlock [markerInst 0; markerInst 1] []].
Definition accesses : list Access := [guardOf 0 10 0 8; guardOf 1 10 0 (2 ^ 64 - 1)].

Definition roots (n : nat) : option nat := None.
Definition final : list Access := mergeInBlocks f (removeDominated f [0%nat] accesses).

Lemma first_checks : checksOf final 0 = ownChecks accesses 0.
Proof. by vm_compute. Qed.

Lemma second_checks : checksOf final 1 = [].
Proof. by vm_compute. Qed.

(** A guard of a constant 2{^64}-1 bytes is taken for one of -1 byte, and
    removed as covered by a guard of eight bytes before it: the function runs
    past its place although of its bytes only eight may be used. *)
Theorem wide_width_unguarded :
  map a_state (removeDominated f [0%nat] accesses) = [SGuard; SDominated]
  /\ exists u v, rtc (step f roots accesses (fun u u' => u' = u) (checksOf final)) (Running 0 0 u v) (Running 0 2 u v)
                 /\ ~ ok roots accesses u v 1.
Proof.
  split; [by vm_compute|]. exists Diamond.eight, Diamond.zeros. split.
  - eapply rtc_l; [apply (step_pass _ _ _ _ _ 0 0 _ _ (markerInst 0) 0); [done|by vm_compute|]|].
    { rewrite first_checks. cbn. rewrite tests_all. split; [done|]. split; [|done]. apply Forall_cons_2; [|apply Forall_nil_2]. intros j Hj. cbn in Hj |- *.
      unfold wrap64, Diamond.zeros. rewrite Z.mod_small by lia. lia. }
    apply rtc_once. apply (step_pass _ _ _ _ _ 0 1 _ _ (markerInst 1) 1); [done|by vm_compute|]. rewrite second_checks. constructor.
  - intros Hok. apply (ok_iff roots accesses _ _ 1 (guardOf 1 10 0 (2 ^ 64 - 1)) eq_refl) in Hok as (_ & Hall & _).
    cbn in Hall. specialize (Hall 8 ltac:(lia)). unfold wrap64, Diamond.zeros in Hall. rewrite Z.mod_small in Hall by lia. lia.
Qed.
End Wide.

(** ** A null test that is lost *)

Module LostNull.
(** With [q = p + i] (values 9 and 10), [q[-1]] and then [*q]: the second guard
    tests [p] against null, the first does not. *)
Definition element : Access :=
  mkAccess 1 KGuard 10 8 None 8 false false false (Some 9%nat) 0 SGuard (Some 10%nat) 0 0 0 0 None.
Definition f : function := [mkBlock [markerInst 0; markerInst 1] []].
Definition accesses : list Access := [guardOf 0 10 (-8) 8; element].

Definition roots (n : nat) : option nat := None.
Definition final : list Access := mergeInBlocks f (removeDominated f [0%nat] accesses).

(** All memory; a null [p], and an index that leads into it. *)
Definition everything : memory := oneObject 0 (2 ^ 64).
Definition values (v : nat) : Z := match v with 10%nat => 4096 | _ => 0 end.

Lemma checks_first : checksOf final 0 = [Color 0 (-8); NullTest 0; Bytes 0; Bytes 1].
Proof. by vm_compute. Qed.

Lemma checks_second : checksOf final 1 = [].
Proof. by vm_compute. Qed.

Lemma all_bytes i : passes roots accesses everything values (Bytes i).
Proof. cbn. destruct (accesses !! i); [|done]. intros j _. apply Z.mod_pos_bound. lia. Qed.

Lemma past_first (checks : nat -> list check) :
  Forall (passes roots accesses everything values) (checks 0%nat) ->
  step f roots accesses (fun u u' => u' = u) checks (Running 0 0 everything values) (Running 0 1 everything values).
Proof. intros Hc. by apply (step_pass _ _ _ _ _ 0 0 _ _ (markerInst 0) 0); [|vm_compute|]. Qed.

(** The two guards become one, with the first one's null test, which is none:
    where [p] is null the code with every guard stops at the second guard, and
    the code after both rules runs past it. *)
Theorem null_test_lost :
  rtc (step f roots accesses (fun u u' => u' = u) (checksOf accesses)) (Running 0 0 everything values) (Stopped (NullTest 1))
  /\ rtc (step f roots accesses (fun u u' => u' = u) (checksOf final)) (Running 0 0 everything values) (Running 0 2 everything values).
Proof.
  split.
  - eapply rtc_l; [apply past_first; change (checksOf accesses 0) with [NullTest 0; Bytes 0; Color 0 (-8)];
      pose proof (all_bytes 0); by repeat apply Forall_cons_2|]. apply rtc_once.
    apply (step_stop _ _ _ _ _ 0 1 _ _ (markerInst 1) 1 [] (NullTest 1) [Bytes 1; Color 1 0]); [done|by vm_compute|by vm_compute|constructor|].
    cbn. intros Hall. by apply (Hall 9%nat).
  - eapply rtc_l; [apply past_first; rewrite checks_first;
      pose proof (all_bytes 0); pose proof (all_bytes 1); by repeat apply Forall_cons_2|]. apply rtc_once.
    apply (step_pass _ _ _ _ _ 0 1 _ _ (markerInst 1) 1); [done|by vm_compute|]. rewrite checks_second. constructor.
Qed.
End LostNull.

(** ** A color test that is lost *)

Module LostColor.
(** Four bytes of value 10 at 0, and four at 40; its root is value 9. *)
Definition f : function := [mkBlock [markerInst 0; markerInst 1] []].
Definition accesses : list Access := [guardOf 0 10 0 4; guardOf 1 10 40 4].
Definition roots (n : nat) : option nat := Some 9%nat.

Definition final : list Access := mergeInBlocks f (removeDominated f [0%nat] accesses).

(** Two objects of 24 bytes in slots of 32; only the first has the root's color. *)
Definition twoObjects : memory.
Proof.
  refine (mkMemory (fun x => 4096 <= x < 4120 \/ 4128 <= x < 4152) (fun _ x => x < 4124) (fun _ x => Z_lt_dec x 4124) _).
  intros ? y n Hn Hall Hfit. pose proof (Hall 0 ltac:(lia)) as H0. rewrite Z.add_0_r in H0.
  destruct (decide (wrap64 (y + n) < 4124)) as [|Hge]; [done|exfalso]. pose proof (Hall n ltac:(lia)) as H1.
  assert (En : forall j, 0 <= j <= n -> wrap64 (y + j) = wrap64 y + j).
  { intros j Hj. unfold wrap64 in *. rewrite <- Zplus_mod_idemp_l. apply Z.mod_small. lia. }
  rewrite (En n) in H1, Hge by lia. specialize (Hall (4121 - wrap64 y) ltac:(lia)). rewrite En in Hall by lia. lia.
Defined.

Definition values (v : nat) : Z := 4096.

Lemma final_checks : checksOf final 0 = [Color 0 0; NullTest 0; Bytes 0; Bytes 1] /\ checksOf final 1 = [].
Proof. by vm_compute. Qed.

Lemma guard_bytes i : (i < 2)%nat -> passes roots accesses twoObjects values (Bytes i).
Proof.
  intros Hi. destruct i as [|[|i]]; [| |lia]; cbn; intros j Hj; unfold wrap64, values; rewrite Z.mod_small by lia; lia.
Qed.

Lemma near_fits : passes roots accesses twoObjects values (Color 0 0).
Proof. by intros r Hr. Qed.

(** The hull of the two guards goes over the first object's redzone: the members'
    bytes are each in some object, and the color is tested at the hull's start
    only.  The code with every guard stops at the second access, which lies in
    the other object; the code after both rules runs past it. *)
Theorem color_test_lost :
  rtc (step f roots accesses (fun u u' => u' = u) (checksOf accesses)) (Running 0 0 twoObjects values) (Stopped (Color 1 40))
  /\ rtc (step f roots accesses (fun u u' => u' = u) (checksOf final)) (Running 0 0 twoObjects values) (Running 0 2 twoObjects values).
Proof.
  pose proof (guard_bytes 0 ltac:(lia)) as H0. pose proof (guard_bytes 1 ltac:(lia)) as H1. pose proof near_fits as Hc. split.
  - eapply rtc_l; [apply (step_pass _ _ _ _ _ 0 0 _ _ (markerInst 0) 0); [done|by vm_compute|]|].
    { change (checksOf accesses 0) with [NullTest 0; Bytes 0; Color 0 0]. by repeat apply Forall_cons_2. }
    apply rtc_once. apply (step_stop _ _ _ _ _ 0 1 _ _ (markerInst 1) 1 [NullTest 1; Bytes 1] (Color 1 40) []); [done|by vm_compute|by vm_compute| |].
    + by repeat apply Forall_cons_2.
    + intros Hfit. specialize (Hfit 9%nat eq_refl). vm_compute in Hfit. discriminate Hfit.
  - destruct final_checks as [E0 E1].
    eapply rtc_l; [apply (step_pass _ _ _ _ _ 0 0 _ _ (markerInst 0) 0); [done|by vm_compute|]; rewrite E0; by repeat apply Forall_cons_2|].
    apply rtc_once. apply (step_pass _ _ _ _ _ 0 1 _ _ (markerInst 1) 1); [done|by vm_compute|]. rewrite E1. constructor.
Qed.
End LostColor.

(** ** A local in a loop *)

Module Loop.
(** The local 7 starts at the entry and ends in the loop's body. *)
Definition f : function := [
  mkBlock [mkInstruction 0 (IntrinsicInst (lifetime_start 7) true) true] [1]%nat;
  mkBlock [markerInst 1; mkInstruction 2 (IntrinsicInst (lifetime_end 7) true) true] [1; 2]%nat;
  mkBlock [plain 3] []
].

Lemma scope_exact_witness :
  mayBeOutOfScope f 7 0 1 = false /\ (mayBeOutOfScope f 7 1 1 = true <-> outOfScope f 7 1 1) /\ outOfScope f 7 1 1.
Proof.
  split; [by vm_compute|].
  assert (He : mayBeOutOfScope f 7 1 1 = true <-> outOfScope f 7 1 1) by (apply (scope_exact f 7 1 1); cbn; lia).
  split; [exact He|]. apply He. by vm_compute.
Defined.

(** Values: 0 a static array of 64 bytes, 1 an element of it. *)
#[local] Instance values : Values := {
  stripConstantOffsets v := (v, 0);
  getUnderlyingObject _ := 0%nat;
  objectOf v := if bool_decide (v = 0%nat) then AllocaInst true (Some (mkSize 64 false)) else OtherObject;
  isKnownNonZero _ _ := false
}.

Inductive expression := EValue (v : nat) | EConstant (n : Z) | EMinus (x y : expression) | EAdd (x y : expression).
#[local] Instance expression_eq_dec : EqDecision expression.
Proof. solve_decision. Defined.

Fixpoint denote (e : expression) (env : nat -> Z) : Z :=
  match e with
  | EValue v => wrap64 (env v)
  | EConstant n => wrap64 n
  | EMinus x y => wrap64 (denote x env - denote y env)
  | EAdd x y => wrap64 (denote x env + denote y env)
  end.

Definition distance : expression := EMinus (EValue 1) (EValue 0).

(** The element's index is known to be below eight. *)
#[local] Instance evolution : Evolution := {
  scev := expression;
  isSCEVable _ := true;
  getSCEV := EValue;
  getMinusSCEV x y := Some (EMinus x y);
  getTypeOf _ := 64;
  getTruncateOrZeroExtend x _ := x;
  getConstant _ n := EConstant n;
  getAddExpr := EAdd;
  isKnownPredicateAt p x y i :=
    match p with
    | ULE => false
    | SGE => bool_decide (x = distance /\ y = EConstant 0)
    | SLE => bool_decide (x = EAdd distance (EConstant 8) /\ y = EConstant 64)
    end
}.

Definition at_ (i : nat) (env : nat -> Z) : Prop := 0 <= env 0%nat < 2 ^ 47 /\ 0 <= env 1%nat - env 0%nat <= 56.

Definition element : Access :=
  mkAccess 9 KGuard 1 8 None 8 false false false None 0 SGuard (Some 1%nat) 0 0 0 0 (Some 0%nat).

Lemma evolution_fine : evolution_ok at_ denote.
Proof.
  assert (Hd : forall env, at_ 0 env -> denote distance env = env 1%nat - env 0%nat).
  { intros env [H1 H2]. cbn. unfold wrap64. rewrite <- Zminus_mod, Z.mod_small by lia. done. }
  assert (Hs : forall z, 0 <= z < 2 ^ 63 -> int64 z = z) by (intros z Hz; apply int64_small; lia).
  split; try done.
  - intros x y s env Em. injection Em as <-. done.
  - intros x env. cbn. symmetry. unfold wrap64. rewrite Z.mod_small; [done|]. destruct x; apply Z.mod_pos_bound; lia.
  - intros p x y i env Hk Hat. change (at_ 0 env) in Hat. specialize (Hd env Hat). destruct Hat as [H1 H2].
    destruct p; [done|apply bool_decide_eq_true in Hk as [-> ->]; unfold holdsOf..].
    + rewrite Hd. change (denote (EConstant 0) env) with 0. rewrite !Hs by lia. lia.
    + change (denote (EAdd distance (EConstant 8)) env) with (wrap64 (denote distance env + wrap64 8)). rewrite Hd.
      change (denote (EConstant 64) env) with 64. change (wrap64 8) with 8. unfold wrap64. rewrite Z.mod_small by lia. rewrite !Hs by lia. lia.
  - intros p env. cbn. by rewrite Z.add_0_r.
Qed.

(** The eighth element of the array at 4096. *)
Definition env : nat -> Z := fun v => match v with O => 4096 | _ => 4152 end.

Lemma inside_sound_witness :
  inBounds f element = true
  /\ (exists size, exactSize (objectOf 0) = Some size /\ 0 <= 56 /\ 56 + lengthOf element env <= size)
  /\ forall b k, position f (a_marker element) = Some (b, k) ->
       match objectOf 0 with AllocaInst _ _ => mayBeOutOfScope f 0 b k = false | _ => True end.
Proof.
  split; [by vm_compute|].
  apply (@inside_sound values evolution f at_ denote evolution_fine element 0 env 56);
    [by vm_compute|reflexivity|right; by split|split; cbn; lia|reflexivity|lia|cbn; lia|cbn; lia|cbn; lia|].
  intros size Hs. injection Hs as <-. lia.
Defined.
End Loop.

(** ** An address that escapes *)

Module Escape.
(** An element of local 0 is compared, read, and stored somewhere. *)
Definition uses (v : nat) : list use :=
  match v with 0%nat => [DerivedUse 1; ReadUse; CallUse true false] | 1%nat => [ReadUse; StoreUse true] | _ => [] end.

Lemma escapes_exact_witness :
  exists b, escapes uses 2 0 = Some b
            /\ (b = true <-> exists v, rtc (derives uses) 0%nat v /\ Exists (fun u => letsOut u = true) (uses v)).
Proof.
  apply (escapes_exact uses 2 0); [lia|]. intros v v'. unfold derives, uses.
  destruct v as [|[|v]]; rewrite list_elem_of_In; cbn; intuition (try congruence).
  all: match goal with E : DerivedUse _ = DerivedUse _ |- _ => injection E as <-; lia end.
Defined.
End Escape.

(** ** The pointer of a loop *)

Module Pointer.
(** [p = phi(start, p + 1)], and an integer [(int)q - 8 + i]. *)
Definition def (v : nat) : definition :=
  match v with
  | 2%nat => PHINode [1; 3]%nat
  | 3%nat => GEPOperator 2
  | 4%nat => PtrToIntOperator 1
  | 5%nat => BinaryOperator Sub 4 6
  | 7%nat => BinaryOperator Add 5 8
  | 9%nat => IntToPtrInst 7
  | _ => OtherValue
  end.
Definition strip (v : nat) : nat := v.

Lemma root_sound_witness :
  colorRoot def strip 3 ∅ = Some (Some 1%nat, ∅)
  /\ colorRoot def strip 9 ∅ = Some (Some 1%nat, ∅)
  /\ exists root cache', colorRoot def strip 3 ∅ = Some (root, cache') /\ known_ok def strip cache'
       /\ match root with Some r => guarded def strip (eq r) 3 /\ rtc (under def strip) 3%nat r | None => True end.
Proof.
  split; [by vm_compute|]. split; [by vm_compute|]. apply (root_sound def strip (fun v => eq_refl) 3 ∅). intros n r Hn. by rewrite lookup_empty in Hn.
Defined.

Definition pointers (start : Z) : nat -> Z := fun _ => start.
Definition integers (start : Z) (v : nat) : Z :=
  match v with 4%nat => start | 5%nat => start - 8 | 6%nat => 8 | 7%nat => start - 8 + 24 | 8%nat => 24 | _ => 0 end.

Lemma run_values start : values_ok def (pointers start) (integers start).
Proof.
  split; intros i; do 10 (try destruct i as [|i]; try (intros; discriminate)); try (intros; discriminate).
  all: intros; match goal with E : def _ = _ |- _ => injection E as E end; subst; unfold integers, pointers; f_equal; lia.
Qed.

Lemma distance_fixed_witness :
  pointerUnder def MaxDepth 7 = mkInteger (Some 1%nat) false
  /\ sameDistance (pointerUnder def MaxDepth 7) (integers 4096 7) (integers 65536 7) (pointers 4096) (pointers 65536).
Proof.
  split; [by vm_compute|].
  apply (distance_fixed def MaxDepth (pointers 4096) (integers 4096) (pointers 65536) (integers 65536) (run_values 4096) (run_values 65536)).
  intros j. do 10 (try destruct j as [|j]; try done).
Defined.
End Pointer.
