(* ===== verification/LoopWitnesses.v ===== *)
(** * A loop over an array of twenty bytes

    The theorems of LoopRuns at the loop [for (i = 0; i < n; i++) a[k + i] = 0]
    and the same loop over an array with static storage, the arrays being two
    objects of different colors with redzones about them, and the loop's range
    tested by the runtime; what the test is worth for a trip count of more than
    64 bits, and for an array with static storage. *)

From Stdlib Require Import String.
From stdpp Require Import gmap sets strings relations.
From S2P Require Import Prelude GuardRules GuardRoots GuardLoops LoopRuns.
From S2P Require Shadow Report Guard Witnesses.
Local Open Scope Z_scope.

(** ** Two objects *)

#[export] Existing Instances Witnesses.Runtime.thread Witnesses.Runtime.pages.
#[export] Instance view : Report.HeapView := {| Report.weavecRtHeapObjectAt _ := Report.mkHeapObject false false 0 0 |}.

(** Twenty bytes of color 9 at 2{^33}, twenty of color 10 at 2{^33}+64. *)
Definition first : Z := 2 ^ 29.
Definition shadow1 : Shadow.shadow :=
  Shadow.weavecRtShadowSet Shadow.shadow_example (16 * (first - 1)) 112 Shadow.WeavecRtShadowGlobal.
Definition shadow2 : Shadow.shadow := Shadow.weavecRtShadowObject shadow1 (16 * first) 20 Shadow.WeavecRtShadowGlobal 9.
Definition objects : Shadow.shadow := Shadow.weavecRtShadowObject shadow2 (16 * (first + 4)) 20 Shadow.WeavecRtShadowGlobal 10.

Definition st : Guard.gstate := Witnesses.Runtime.state objects.
Definition here : Z := Witnesses.Runtime.here.

Lemma wf1 : Shadow.shadow_wf shadow1.
Proof. apply Shadow.shadowSet_wf; [apply Shadow.shadow_example_wf|by vm_compute]. Qed.

Lemma wf2 : Shadow.shadow_wf shadow2.
Proof. apply Shadow.shadowObject_wf; [apply wf1|by vm_compute]. Qed.

Lemma objects_wf : Shadow.shadow_wf objects.
Proof. apply Shadow.shadowObject_wf; [apply wf2|by vm_compute]. Qed.

(** The shadow's granules. *)
Definition granule (g : Z) : Z :=
  if decide (g = first) then 9
  else if decide (g = first + 1) then Shadow.weavecRtShadowPartialOf 9 4
  else if decide (g = first + 4) then 10
  else if decide (g = first + 5) then Shadow.weavecRtShadowPartialOf 10 4
  else if decide (first - 1 <= g < first + 6) then Shadow.WeavecRtShadowGlobal
  else if decide (g < 4096) then Shadow.WeavecRtShadowNull
  else 0.

Lemma example_granule g : 0 <= g < 2 ^ 38 -> Shadow.gval Shadow.shadow_example g = if decide (g < 4096) then Shadow.WeavecRtShadowNull else 0.
Proof.
  intros Hg. unfold Shadow.gval, Shadow.shadow_example, Shadow.reserveShadow, Shadow.memset. cbn [Shadow.s_byte Shadow.s_base].
  rewrite !Shadow.fill_bytes_eq. change (Z.shiftr Shadow.WeavecRtNullPage 4) with 4096. change (Z.shiftl 1 (42 - 4)) with (2 ^ 38).
  repeat case_decide; try lia; done.
Qed.

Lemma object_at s o color g :
  Shadow.shadow_wf s -> Shadow.s_bits s = 42 -> 0 <= o < 2 ^ 30 -> Shadow.color_ok color ->
  Shadow.gval (Shadow.weavecRtShadowObject s (16 * o) 20 Shadow.WeavecRtShadowGlobal color) g
  = if decide (g = o) then color else if decide (g = o + 1) then Shadow.weavecRtShadowPartialOf color 4 else Shadow.gval s g.
Proof.
  intros Hwf Hb Ho Hc. rewrite Shadow.shadowObject_gval; [|apply Witnesses.Runtime.pages_ok|done|lia|euclid|lia|rewrite Hb; lia|done|by vm_compute].
  unfold Shadow.object_value. assert (Ec : Shadow.object_color (20 / 16) color = color) by done. rewrite Ec.
  replace (16 * o / 16) with o by euclid. change (20 / 16) with 1. change (20 mod 16) with 4.
  repeat case_decide; try done; lia.
Qed.

Lemma objects_granule g : 0 <= g < 2 ^ 38 -> Shadow.gval objects g = granule g.
Proof.
  intros Hg. unfold objects. rewrite object_at by (first [apply wf2|done|split; [lia|done]|unfold first; lia]).
  unfold shadow2. rewrite object_at by (first [apply wf1|done|split; [lia|done]|unfold first; lia]). unfold shadow1.
  rewrite Shadow.shadowSet_gval; [|apply Shadow.shadow_example_wf|by vm_compute|lia|lia|by vm_compute]. rewrite example_granule by done.
  unfold granule, first. repeat case_decide; try done; exfalso; euclid.
Qed.

(** Next to a granule whose last byte may be used. *)
Lemma granule_next g : 0 <= g -> Shadow.byte_ok (granule g) 15 = true -> Shadow.byte_ok (granule (g + 1)) 0 = true ->
  granule (g + 1) = granule g
  \/ Shadow.weavecRtShadowFull (granule g) = true /\ Shadow.weavecRtShadowFull (granule (g + 1)) = false
     /\ Shadow.weavecRtShadowClass (granule (g + 1)) = Shadow.weavecRtShadowClass (granule g).
Proof.
  intros Hg. unfold granule. repeat case_decide; try (by left); try (exfalso; unfold first in *; lia);
    first [by right|intros Hl Hn; first [by vm_compute in Hl|by vm_compute in Hn]].
Qed.

Lemma usable_granule a : 0 <= a < 2 ^ 42 -> Guard.usable objects here a = true ->
  Shadow.byte_ok (granule (a / 16)) (a mod 16) = true.
Proof.
  intros Ha. unfold Guard.usable, Guard.fresh, Guard.stale. rewrite objects_granule by euclid.
  assert (Hr : granule (a / 16) =? Shadow.WeavecRtShadowReturned = false); [|by rewrite Hr].
  unfold granule. repeat case_decide; by vm_compute.
Qed.

Lemma ok_lives v off : Shadow.byte_ok v off = true -> Guard.isPoison v = false.
Proof.
  unfold Shadow.byte_ok, Guard.isPoison. unfold Shadow.weavecRtShadowFull, Shadow.weavecRtShadowPoison, Shadow.WeavecRtShadowPoisonFrom.
  intros [Hf|[Hp _]%andb_true_iff]%orb_true_iff; [apply Z.ltb_lt in Hf; apply Z.leb_gt; lia|by apply negb_true_iff in Hp].
Qed.

Lemma objects_apart : kept_apart st here.
Proof.
  split; [done|]. intros a Ha Ha' Hu Hu'. change (2 ^ Shadow.s_bits (Guard.gs_shadow st)) with (2 ^ 42) in Ha'. cbv zeta.
  change (Guard.gs_shadow st) with objects in *.
  rewrite !(Shadow.granule_value_gval _ objects_wf) by (change (Shadow.s_bits objects) with 42; lia). rewrite !objects_granule by euclid.
  apply usable_granule in Hu, Hu'; [|lia..]. split_and!; [by eapply ok_lives| |done].
  destruct (decide ((a + 1) / 16 = a / 16)) as [->|Hne]; [by left|]. assert (E : (a + 1) / 16 = a / 16 + 1) by euclid.
  rewrite E in *. apply granule_next; [euclid| |].
  - by replace 15 with (a mod 16) by euclid.
  - by replace 0 with ((a + 1) mod 16) by euclid.
Qed.

(** ** The loops *)

(** Value 0 points to the first object; 2 is [&a[k]], 1 the address of a trip.
    Value 3 is the first object by name; 5 is [&b[k]], 4 the address of a trip. *)
Inductive expression := EValue (v : nat) | EConstant (n : Z) | ECount (n : Z) | ETruncate (x : expression).

Fixpoint denote (e : expression) (env : nat -> Z) : Z :=
  match e with
  | EValue v => env v
  | EConstant n => wrap64 n
  | ECount n => n
  | ETruncate x => wrap64 (denote x env)
  end.

#[export] Instance evolution : Evolution := {
  scev := expression;
  isSCEVable _ := true;
  getSCEV := EValue;
  getMinusSCEV _ _ := None;
  getTypeOf _ := 64;
  getTruncateOrZeroExtend x _ := ETruncate x;
  getConstant _ n := EConstant n;
  getAddExpr x _ := x;
  isKnownPredicateAt _ _ _ _ := false
}.

Definition fixed (v : nat) : bool := negb (bool_decide (v = 1%nat \/ v = 4%nat)).

Fixpoint invariant (e : expression) : bool :=
  match e with EValue v => fixed v | EConstant _ | ECount _ => true | ETruncate x => invariant x end.

#[export] Instance loops : LoopEvolution := {
  invariantValue := fixed;
  isLoopInvariant := invariant;
  affineRecurrence e :=
    match e with EValue 1 => Some (EValue 2, EConstant 1) | EValue 4 => Some (EValue 5, EConstant 1) | _ => None end;
  constantOf e := match e with EConstant n => Some n | _ => None end;
  isConstant v := bool_decide (v = 3%nat);
  isSafeToExpand _ := true
}.

Definition def (v : nat) : definition :=
  match v with 1%nat => GEPOperator 2 | 2%nat => GEPOperator 0 | 4%nat => GEPOperator 5 | 5%nat => GEPOperator 3 | _ => OtherValue end.
Definition strip (v : nat) : nat := v.
Definition base (v : nat) : option nat := Some v.

(** The index before the loop is not known. *)
Definition offsetFrom (pointer root : nat) : option recurrence := Some (mkRecurrence None (Some 1)).
Definition otherPasses (m : markerCall) (p : point) : Prop := True.

Definition guardOf (address root : nat) : markerCall :=
  mkMarker 5 MarkerGuard address (ConstantInt 1) (ConstantInt 1) (Some root) (ConstantInt 0).

Definition guardAt : loopInstruction := mkLoopInstruction (mkInstruction 5 (CallBase (Some MarkerGuard) true) true) false false false false false.
Definition storeAt : loopInstruction := mkLoopInstruction (mkInstruction 6 StoreInst true) false false false false false.

Definition theLoop (m : markerCall) (taken : Z) : loop :=
  mkLoop evolution [[guardAt; storeAt]] [m] 0 true true true true true (Some (ECount taken)).

Definition usable : Z -> Prop := usableNow st here.
Definition colored : Z -> Z -> Prop := coloredNow st here.
Definition values (i : Z) (v : nat) : Z :=
  match v with 0%nat | 2%nat | 3%nat => 2 ^ 33 | 1%nat => 2 ^ 33 + i | 5%nat => 2 ^ 33 + 64 | 4%nat => 2 ^ 33 + 64 + i | _ => 0 end.

(** Before the guard, and before the store, of trip [i]. *)
Definition place (i : Z) (guarded : bool) : point := mkPoint i (if guarded then storeAt else guardAt) usable colored (values i).

Inductive next (taken : Z) : point -> point -> Prop :=
  | next_store i : next taken (place i false) (place i true)
  | next_trip i : i < taken -> next taken (place i true) (place (i + 1) false).

Lemma loop_reached taken p : 0 <= taken -> rtc (next taken) (place 0 false) p -> exists i b, p = place i b /\ 0 <= i <= taken.
Proof.
  intros Ht. revert p. apply rtc_ind_r; [by exists 0, false|]. intros p p' _ Hn (i & b & -> & Hi). remember (place i b) as q eqn:E.
  apply (f_equal pt_trip) in E. destruct Hn as [j|j Hj]; cbn in E; subst j; [by exists i, true|]. exists (i + 1), false. split; [done|lia].
Qed.

Lemma fixed_stays i v : fixed v = true -> values i v = values 0 v.
Proof. unfold fixed. intros Hv%negb_true_iff%bool_decide_eq_false. do 6 (destruct v as [|v]; [try done; try (exfalso; apply Hv; tauto)|]). done. Qed.

Lemma loop_fine m taken : 0 <= taken -> loop_ok denote def strip base (theLoop m taken) (next taken) (place 0 false) taken.
Proof.
  intros Ht. split.
  - intros p (i & b & -> & _)%loop_reached; [|done]. destruct b; cbn; [apply list_elem_of_further|]; apply list_elem_of_here.
  - intros p (i & b & -> & Hi)%loop_reached; done.
  - intros p p' x Hn _. destruct Hn; done.
  - intros p p' root a Hn _ _. destruct Hn; done.
  - intros count [= <-]. done.
  - done.
  - done.
  - done.
  - intros x p (i & b & -> & _)%loop_reached; [|done]. induction x as [v|n|n|x IH]; cbn; try done; [by apply fixed_stays|].
    intros Hx. exact (f_equal wrap64 (IH Hx)).
  - intros v p (i & b & -> & _)%loop_reached Hv; [|done]. by apply fixed_stays.
  - intros v p (i & b & -> & _)%loop_reached Hv; [|done]. apply bool_decide_eq_true in Hv. by subst.
  - intros m' b root known _ Eb Hc. injection Eb as <-. by exists known.
  - intros x start step c p (i & b & -> & _)%loop_reached Ha Hc; [|done]. destruct x as [[|[|[|[|[|v]]]]]|n|n|x]; try done; injection Ha as <- <-;
    injection Hc as <-; cbn; f_equal; lia.
Qed.

#[export] Instance test : RangeTest := runtimeTest st here.

Lemma test_fine : range_test_ok (pt_usable (place 0 false)) (pt_colored (place 0 false)).
Proof. apply runtime_test_ok; [apply objects_wf|apply objects_apart]. Qed.

Definition pointed : markerCall := guardOf 1 0.
Definition named : markerCall := guardOf 4 3.
Definition pointedRange : Ranged := mkRanged 5 (EValue 2) 1 (ETruncate (EConstant 1)) (Some 0%nat) (Some 0%nat).
Definition namedRange : Ranged := mkRanged 5 (EValue 5) 1 (ETruncate (EConstant 1)) (Some 3%nat) None.
Definition theCount (taken : Z) : expression := ETruncate (ECount taken).

Lemma versioned_pointed taken : versionLoops def strip true (theLoop pointed taken) = Versioned [pointedRange] (theCount taken).
Proof. reflexivity. Qed.

Lemma versioned_named taken : versionLoops def strip true (theLoop named taken) = Versioned [namedRange] (theCount taken).
Proof. reflexivity. Qed.

Definition step_ := loopStep (passes def strip true base offsetFrom otherPasses).
Definition markersOf (m : markerCall) (taken : Z) (r : Ranged) : list markerCall :=
  versionMarkers denote true (theLoop m taken) [r] (theCount taken) (values 0).

Lemma range_bounds_witness :
  rangeEnds 4096 (-8) 3 = (4072, 4096, false) /\ addOverflow 4096 8 = (4104, false)
  /\ (forall i a, 0 <= i <= 3 -> tripBytes 4096 (-8) 8 i a -> 4072 <= a < 4104).
Proof.
  split; [reflexivity|]. split; [reflexivity|].
  destruct (range_bounds 4096 (-8) 3 8 4072 4096 4104 false false ltac:(lia) ltac:(lia) ltac:(lia) ltac:(lia) eq_refl eq_refl)
    as [_ H]. exact (proj1 (proj2 (proj2 (H eq_refl)))).
Defined.

(** The pointer's color is tested: nothing of the loop's ranges is left out. *)
Lemma pointed_inside taken : startsInside denote def strip true base offsetFrom (theLoop pointed taken) (place 0 false) taken.
Proof.
  intros m r root Hm Hr Hg Hne. exfalso. apply list_elem_of_In in Hm as [<-|[]]. apply Hne.
  assert (E : rangeOf def strip true pointed = Some pointedRange) by reflexivity. rewrite E in Hr. injection Hr as <-.
  assert (E' : guardRoot def strip true base offsetFrom pointed = Some 0%nat) by reflexivity. rewrite E' in Hg. by injection Hg as <-.
Qed.

(** Twenty trips fit in the object: the loop runs without its guard. *)
Lemma versioned_exact_witness :
  markersOf pointed 19 pointedRange = []
  /\ forall c, rtc (step_ (next 19) (lp_markers (theLoop pointed 19))) (At (place 0 false)) c
     <-> rtc (step_ (next 19) (markersOf pointed 19 pointedRange)) (At (place 0 false)) c.
Proof.
  split; [vm_compute; reflexivity|]. intros c.
  apply (@versioned_exact evolution loops test denote def strip true base offsetFrom otherPasses (theLoop pointed 19) (next 19) (place 0 false) 19
           [pointedRange] (theCount 19) c (versioned_pointed 19) (loop_fine pointed 19 ltac:(lia)) test_fine (pointed_inside 19));
    [apply NoDup_singleton|lia].
Defined.

(** ** What the test leaves out *)

Lemma unguarded_run taken (n : nat) : Z.of_nat n <= taken -> rtc (step_ (next taken) []) (At (place 0 false)) (At (place (Z.of_nat n) false)).
Proof.
  induction n as [|n IH]; intros Hn; [apply rtc_refl|]. etrans; [apply IH; lia|]. replace (Z.of_nat (S n)) with (Z.of_nat n + 1) by lia.
  eapply rtc_l; [apply loop_on; [set_solver|apply next_store]|]. apply rtc_once, loop_on; [set_solver|]. apply next_trip. lia.
Qed.

(** The trip count is cut to 64 bits before the test: a loop that goes round
    2{^64}+19 more times than once (its counter has 128 bits) is entered as one
    of 20 trips, without its guard, and reaches an access past the object that
    the guard would have stopped. *)
Theorem wide_trip_unguarded :
  exists taken ranges count,
    versionLoops def strip true (theLoop pointed taken) = Versioned ranges count
    /\ loop_ok denote def strip base (theLoop pointed taken) (next taken) (place 0 false) taken
    /\ exists p, rtc (step_ (next taken) (versionMarkers denote true (theLoop pointed taken) ranges count (values 0))) (At (place 0 false)) (At p)
         /\ exists m, m ∈ lp_markers (theLoop pointed taken) /\ mk_id m = i_id (li_inst (pt_at p))
                      /\ ~ passes def strip true base offsetFrom otherPasses m p.
Proof.
  exists (2 ^ 64 + 19), [pointedRange], (theCount (2 ^ 64 + 19)). split; [apply versioned_pointed|]. split; [by apply loop_fine|].
  exists (place 20 false). split.
  - assert (markersOf pointed (2 ^ 64 + 19) pointedRange = []) as E by (vm_compute; reflexivity). unfold markersOf in E. rewrite E.
    apply (unguarded_run (2 ^ 64 + 19) 20). lia.
  - exists pointed. split; [apply list_elem_of_here|]. split; [done|]. intros (_ & Hall & _). specialize (Hall 0 ltac:(split; [done|reflexivity])).
    assert (Hw : wrap64 (pt_vals (place 20 false) (mk_pointer pointed) + 0) = 2 ^ 33 + 20) by (vm_compute; reflexivity). rewrite Hw in Hall.
    specialize (Hall ltac:(vm_compute; reflexivity)). vm_compute in Hall. discriminate Hall.
Qed.

(** The test leaves out the color of an array with static storage, which every
    guard of the loop compares: a walk that starts in another object runs
    through all its trips, where the loop with its guards stops at the first. *)
Theorem named_root_unchecked :
  versionLoops def strip true (theLoop named 19) = Versioned [namedRange] (theCount 19)
  /\ rtc (step_ (next 19) (lp_markers (theLoop named 19))) (At (place 0 false)) (StoppedAt 5)
  /\ rtc (step_ (next 19) (markersOf named 19 namedRange)) (At (place 0 false)) (At (place 19 false)).
Proof.
  split; [apply versioned_named|]. split.
  - apply rtc_once, (loop_stop _ _ _ (place 0 false) named); [apply list_elem_of_here|done|]. intros (_ & _ & Hcolor).
    specialize (Hcolor 3%nat eq_refl). by vm_compute in Hcolor; specialize (Hcolor ltac:(congruence)).
  - assert (markersOf named 19 namedRange = []) as -> by (vm_compute; reflexivity). apply (unguarded_run 19 19). lia.
Qed.
