(* ===== verification/InsertWitnesses.v ===== *)
(** * Guards of a small function

    The theorems of InsertFacts at a function with a masked load of four lanes
    and a store, and at one with a local array. *)

From Stdlib Require Import String.
From stdpp Require Import gmap sets strings.
From S2P Require Import Prelude GuardRules GuardRuns GuardScopes GuardInsert InsertFacts GuardPlaces.
From S2P Require Ledger.
Local Open Scope Z_scope.

(** Value 0 is a local of sixteen bytes, value 1 twelve bytes behind it, value
    2 a pointer argument. *)
#[export] Instance values : Values := {
  stripConstantOffsets v := match v with 1%nat => (0%nat, 12) | _ => (v, 0) end;
  getUnderlyingObject v := match v with 1%nat => 0%nat | _ => v end;
  objectOf v := match v with 0%nat => AllocaInst true (Some (mkSize 16 false)) | _ => OtherObject end;
  isKnownNonZero _ _ := false
}.

#[export] Instance addresses : Addresses := {
  addressSpace _ := 0;
  isConstantPointer _ := false;
  isGlobalValue _ := false;
  isAllocaInst v := bool_decide (v = 0%nat);
  stripCasts v := v;
  gepOf v := match v with 1%nat => Some (0%nat, Some 12) | _ => None end
}.

Definition place : location := mkLocation (mkFrame "f.c" "/src" 3 5 false) [].
Definition normalize (file directory : string) : string := file.

Definition vector : vectorType := mkVector (Some 4%nat) (mkSize 4 false).
Definition body : list memoryInst := [
  mkMemoryInst (MaskedLoad 2 3 vector) (Some place);
  mkMemoryInst (Store false 2 (mkSize 8 false) 8) (Some place);
  mkMemoryInst (Store false 1 (mkSize 4 false) 4) None
].

(** The third lane. *)
Lemma accesses_guarded_witness :
  ofDevice (MaskedLoad 2 3 vector) \/ isUnsafe normalize None (Some place) = true \/ insideNamed (BytesBehind 2 8) (inr (LaneBytes 3 2 4))
  \/ exists here m, snd (insertGuards normalize None "f" None body) !! 0%nat = Some here /\ m ∈ here /\ guards (BytesBehind 2 8) (inr (LaneBytes 3 2 4)) m.
Proof.
  apply (accesses_guarded normalize None "f" None body 0 (mkMemoryInst (MaskedLoad 2 3 vector) (Some place)) (BytesBehind 2 8) (inr (LaneBytes 3 2 4)));
    [reflexivity|exact (touches_masked_load 2 3 vector 2 4 eq_refl ltac:(lia))|reflexivity|exact I|discriminate].
Defined.

Definition ledger : Ledger.Ledger.EnforcementLedger :=
  default Ledger.Ledger.emptyLedger (fst (insertGuards normalize None "f" (Some Ledger.Ledger.emptyLedger) body)).
Definition inserts : list (list inserted) := snd (insertGuards normalize None "f" (Some Ledger.Ledger.emptyLedger) body).

(** The store's guard has the fifth row; the local's needs none. *)
Lemma rows_name_guards_witness :
  nth 2 inserts [] = []
  /\ exists x, Ledger.Ledger.rows ledger !! Z.to_nat 4 = Some x /\ describes normalize "f" (Some place) (InsertedGuard (AddressOf 2) 8 769 None 4) x.
Proof.
  split; [vm_compute; reflexivity|].
  apply (rows_name_guards normalize None "f" Ledger.Ledger.emptyLedger body ledger inserts 1
           (mkMemoryInst (Store false 2 (mkSize 8 false) 8) (Some place)) [InsertedGuard (AddressOf 2) 8 769 None 4] (InsertedGuard (AddressOf 2) 8 769 None 4) 4);
    [vm_compute; reflexivity|vm_compute; intros; discriminate|reflexivity|vm_compute; reflexivity|apply list_elem_of_here|reflexivity].
Defined.

Lemma guard_read_back_witness :
  match insertGuard (AddressOf 2) 8 (2 ^ 3) 1 (Some 2%nat) 4 with
  | InsertedGuard _ width' flags base row' =>
    exists a, accessOf (markerOfGuard 9 2 width' flags base row') = Some a
      /\ a_marker a = 9%nat /\ a_kind a = KGuard /\ a_pointer a = 2%nat /\ a_width a = 8 /\ a_length a = None /\ a_alignment a = 2 ^ 3
      /\ a_write a = true /\ a_pruned a = false /\ a_nullBase a = Some 2%nat /\ a_row a = 4 /\ a_state a = SGuard
  | _ => False
  end.
Proof. apply (guard_read_back 9 2 8 3 true (Some 2%nat) 4); lia. Defined.

(** A guard of the local's last four bytes, in its scope; and the same behind
    its end. *)
Definition f : function := [
  mkBlock [mkInstruction 0 (IntrinsicInst (lifetime_start 0) true) true; mkInstruction 1 (CallBase (Some MarkerGuard) true) true;
           mkInstruction 2 (IntrinsicInst (lifetime_end 0) true) true; mkInstruction 3 (CallBase (Some MarkerGuard) true) true] []
].

(** The guard in scope is taken away, the one behind the scope's end stays. *)
Definition early : markerCall := markerOfGuard 1 1 4 513 None 0.
Definition late : markerCall := markerOfGuard 3 1 4 513 None 0.

Lemma prune_exact_witness :
  let f1 := fst (addScopes (dropScopes true f) 10) in
  snd (fst (pruneGuards false f 10 [early; late])) = [late]
  /\ insideInScope f1 early /\ ~ insideInScope f1 late.
Proof.
  intros f1. split; [vm_compute; reflexivity|].
  destruct (pruneGuards false f 10 [early; late]) as [[[f' next'] left] copies] eqn:E.
  pose proof (prune_exact false f 10 [early; late] f' next' left copies E) as [[_ Hleft] _].
  assert (El : left = [late]) by (vm_compute in E; by injection E). rewrite El in Hleft. split.
  - destruct (pruned f1 early) eqn:Ep; [by apply pruned_inside|]. vm_compute in Ep. discriminate Ep.
  - intros Hin. destruct (proj1 (Hleft late) (list_elem_of_here _ _)) as [_ Hno]. by apply Hno.
Defined.

(** ** A check before a loop *)

Module Before.
(** The access is in the loop of block 1; its root is an argument. *)
Definition f : function := [
  mkBlock [mkInstruction 0 OtherInst true; mkInstruction 1 OtherInst true] [1]%nat;
  mkBlock [mkInstruction 5 (CallBase (Some MarkerGuard) true) true] [1; 2]%nat;
  mkBlock [] []
].

Definition idom (b : nat) : option nat := match b with 1%nat => Some 0%nat | 2%nat => Some 1%nat | _ => None end.
Definition loopDepth (b : nat) : nat := match b with 1%nat => 1%nat | _ => 0%nat end.

Lemma along l b : path f l b -> (b <= 2)%nat /\ forall a, (a <= b)%nat -> a ∈ l.
Proof.
  induction 1 as [|l b b' Hp [Hb IH] Hs].
  - split; [lia|]. intros a Ha. replace a with 0%nat by lia. apply list_elem_of_here.
  - assert (Hs' : (b = 0 /\ b' = 1 \/ b = 1 /\ b' = 1 \/ b = 1 /\ b' = 2)%nat).
    { destruct b as [|[|[|b]]]; cbn in Hs; [| | |lia]; apply list_elem_of_In in Hs; cbn in Hs; intuition lia. }
    split; [lia|]. intros a Ha. destruct (decide (a = b')) as [->|]; [apply list_elem_of_here|]. apply list_elem_of_further, IH. lia.
Qed.

Lemma chain a b : (a <= b)%nat -> dominates f a b.
Proof. intros Hab l Hl. apply along in Hl as [_ Hl]. by apply Hl. Qed.

Lemma dominators_fine : dominators_ok f idom Nat.min.
Proof.
  split.
  - intros [|[|[|b]]] a Ha; try done; injection Ha as <-; apply chain; lia.
  - intros a [|[|[|b]]] above Hd Hne Hi; try done; injection Hi as <-.
    + assert (Hp : path f [1; 0]%nat 1) by (eapply path_edge; [apply path_entry|apply list_elem_of_here]).
      apply Hd in Hp. apply list_elem_of_In in Hp. cbn in Hp. apply chain. intuition lia.
    + assert (Hp : path f [2; 1; 0]%nat 2).
      { eapply (path_edge f [1; 0]%nat 1); [eapply path_edge; [apply path_entry|apply list_elem_of_here]|]. apply list_elem_of_further, list_elem_of_here. }
      apply Hd in Hp. apply list_elem_of_In in Hp. cbn in Hp. apply chain. intuition lia.
  - exists (fun b => Nat.min b 2). split; [cbn; lia|]. intros [|[|[|b]]] a Ha; try done; injection Ha as <-; cbn; lia.
  - intros a b. split; apply chain; lia.
  - intros d a b Ha Hb. destruct (Nat.min_dec a b) as [->| ->]; done.
Qed.

Lemma load_placed_witness :
  placeLoad f idom Nat.min loopDepth None [(1, 5)]%nat = Some (0, 1)%nat
  /\ exists block k, placeLoad f idom Nat.min loopDepth None [(1, 5)]%nat = Some (block, k)
       /\ (forall d, None = Some d -> dominates f d block)
       /\ (loopDepth block <= 0 \/ idom block = None)%nat
       /\ forall b m, (b, m) ∈ [(1, 5)]%nat -> dominates f block b
            /\ (b = block -> forall j i, instrAt f b j = Some i -> i_id i = m -> (k <= j)%nat).
Proof.
  split; [vm_compute; reflexivity|]. apply (load_placed f idom Nat.min loopDepth dominators_fine None [(1, 5)]%nat); done.
Defined.

Lemma overlap_exact_witness :
  overlapTest 4096 4104 16 = true
  /\ (overlapTest 4096 4104 16 = true <-> 4096 <> 4104 /\ exists a, 4096 <= a < 4096 + 16 /\ 4104 <= a < 4104 + 16).
Proof. split; [reflexivity|]. apply (overlap_exact 4096 4104 16); lia. Defined.
End Before.
