(* ===== verification/HeapWitnesses.v ===== *)
(** * The allocator at work

    The theorems of the file HeapTheorems at concrete states: a program that
    starts, allocates, releases and sweeps on a system whose [mmap] answers the
    first free pages, and the state in which a live block loses its last
    bytes. *)

From Stdlib Require Import String.
From S2P Require Import Prelude Shadow Report Classes Heap HugeBlocks Sweep Allocator HeapFacts PopFacts CacheFacts.
From S2P Require Import MarkFacts SweepFacts HugeFacts AllocFacts LiveFacts ReleaseFacts CallFacts ReallocFacts.
From S2P Require Import Setup Refinement HeapTheorems.
Local Open Scope Z_scope.

Module Program.

#[local] Existing Instance pages_example.

(** ** A system *)

Definition highest (l : list (Z * Z)) : Z := foldr (fun m x => Z.max (fst m + snd m) x) (2 ^ 40) l.

(** Pages behind every mapping there is; each scan finds the words [roots]. *)
Definition system_of (roots : list Z) : System := {|
  sys_map n mapped bytes :=
    let low := (highest mapped + 16383) / 16384 * 16384 in
    if low + bytes <=? 2 ^ 47 then Some low else None;
  sys_ok _ := true;
  sys_clock n := Z.of_nat n;
  sys_roots _ := roots;
  sys_statsOn := false
|}.

#[local] Instance next_example : NextAllocator := {
  nextAlign _ _ _ := None; nextKnows _ := false; nextRealloc _ _ _ := None; nextSize _ := 0 }.

Lemma highest_above l : 2 ^ 40 <= highest l /\ Forall (fun m => fst m + snd m <= highest l) l.
Proof.
  induction l as [|m l [H1 H2]]; [split; [done|constructor]|]. unfold highest in *. cbn [foldr] in *. set (x := foldr _ _ l) in *.
  split; [lia|]. constructor; [lia|]. eapply Forall_impl; [|exact H2]. cbn. intros a Ha. lia.
Qed.

Lemma system_maps roots : @maps_apart pages_example (system_of roots) (2 ^ 47).
Proof.
  intros n mapped bytes low Hb. cbn [sys_map system_of]. destruct (highest_above mapped) as [H1 H2].
  set (h := highest mapped) in *. cbv zeta. destruct (Z.leb_spec ((h + 16383) / 16384 * 16384 + bytes) (2 ^ 47)) as [Hle|]; [|done].
  intros [= <-]. change (@pageBytes pages_example) with 16384. split_and!; [euclid|apply Z_mod_mult|done|].
  eapply Forall_impl; [|exact H2]. cbn. intros m Hm. right. euclid.
Qed.

Lemma pages_here : @pages_wf pages_example.
Proof. exists 14. split; [lia|done]. Qed.

Section Run.
Context (roots : list Z).
#[local] Instance system_run : System := system_of roots.

(** ** A program *)

Definition started : bool * alloc := weavecRtInitialize 47 (blank (2 ^ 26) (initial_shadow 4096 (fun _ => 0)) (fun _ => 0)).
Definition st0 : alloc := snd started.

Definition after {A} (r : option (outcome A)) : alloc := match r with Some (Done _ st) => st | _ => st0 end.
Definition answer {A} (r : option (outcome A)) : option A := match r with Some (Done x _) => Some x | _ => None end.

Lemma answered {A} (r : option (outcome A)) x : answer r = Some x -> r = Some (Done x (after r)).
Proof. destruct r as [[y st|]|]; cbn; [|done|done]. by intros [= <-]. Qed.

Definition alloc (self : nat) (size : Z) (st : Heap.alloc) : Heap.alloc := after (__weavec_rt_alloc self size 0 st).
Definition free (self : nat) (p : Z) (st : Heap.alloc) : Heap.alloc := after (__weavec_rt_free self p st).

Lemma boots_started : boots (2 ^ 47) st0.
Proof.
  assert (H1 : fst started = true) by (vm_compute; reflexivity).
  assert (H2 : weavecRtShadowReady (al_shadow st0) = true) by (vm_compute; reflexivity).
  exists (2 ^ 26), 47, (initial_shadow 4096 (fun _ => 0)), (fun _ => 0).
  do 2 (split; [done|]). split; [done|]. split; [done|]. split; [done|]. split; [|exact H2].
  fold started. rewrite (surjective_pairing started). by rewrite H1.
Qed.

Lemma step_alloc_of self size st b :
  0 <= size < 2 ^ 64 -> answer (__weavec_rt_alloc self size 0 st) = Some b ->
  step st (Allocated self size 0 b) (alloc self size st).
Proof. intros Hs H. apply step_alloc; [done|done|]. by apply answered. Qed.

Lemma step_free_of self p st :
  0 <= p < 2 ^ 64 -> answer (__weavec_rt_free self p st) = Some tt -> step st (Released self p) (free self p st).
Proof. intros Hs H. apply step_free; [done|]. by apply answered. Qed.

Lemma alloc_after self size st b :
  answer (__weavec_rt_alloc self size 0 st) = Some b -> __weavec_rt_alloc self size 0 st = Some (Done b (alloc self size st)).
Proof. apply answered. Qed.

Lemma free_after self p st :
  answer (__weavec_rt_free self p st) = Some tt -> __weavec_rt_free self p st = Some (Done tt (free self p st)).
Proof. apply answered. Qed.

(** A block of 100 bytes, and one of 40,000 that no cache holds. *)
Definition small : Z := 1114544013312.
Definition st1 : Heap.alloc := alloc 0 100 st0.
Definition large : Z := match answer (__weavec_rt_alloc 0 40000 0 st1) with Some b => b | None => 0 end.
Definition st2 : Heap.alloc := alloc 0 40000 st1.
(** The large one is released; a sweep starts. *)
Definition st3 : Heap.alloc := free 0 large st2.
Definition st4 : Heap.alloc := default st0 (sweepStart 0 st3).

Lemma run1 : step st0 (Allocated 0 100 0 small) st1.
Proof. apply step_alloc_of; [lia|vm_compute; reflexivity]. Qed.

Lemma run2 : step st1 (Allocated 0 40000 0 large) st2.
Proof. apply step_alloc_of; [lia|vm_compute; reflexivity]. Qed.

Lemma run3 : step st2 (Released 0 large) st3.
Proof. apply step_free_of; [vm_compute; intuition congruence|vm_compute; reflexivity]. Qed.

Lemma reached tr st n : execution st0 tr st -> n = Z.of_nat (length tr) -> n + 2 < 2 ^ 64 -> reachable (2 ^ 47) n st.
Proof. intros Hex -> Hn. exists st0, tr. split; [apply boots_started|]. by split_and!. Qed.

Lemma reached0 : reachable (2 ^ 47) 0 st0.
Proof. by apply (reached [] st0 0); [constructor| |]. Qed.

Lemma reached1 : reachable (2 ^ 47) 1 st1.
Proof. apply (reached [Allocated 0 100 0 small] st1 1); [|done|done]. econstructor; [apply run1|constructor]. Qed.

Lemma reached2 : reachable (2 ^ 47) 2 st2.
Proof.
  apply (reached [Allocated 0 100 0 small; Allocated 0 40000 0 large] st2 2); [|done|done].
  econstructor; [apply run1|]. econstructor; [apply run2|constructor].
Qed.

Lemma reached3 : reachable (2 ^ 47) 3 st3.
Proof.
  apply (reached [Allocated 0 100 0 small; Allocated 0 40000 0 large; Released 0 large] st3 3); [|done|done].
  econstructor; [apply run1|]. econstructor; [apply run2|]. econstructor; [apply run3|constructor].
Qed.
End Run.

(** ** The theorems *)

#[local] Instance quiet : System := system_of [].
Definition maps := system_maps [].

(** The program allocates a block, and releases it. *)
Lemma execution_refines_witness :
  behaves (heapOf (st0 [])) [Allocated 0 100 0 small; Released 0 small] (heapOf (free [] 0 small (st1 []))).
Proof.
  apply (execution_refines pages_here (2 ^ 47) maps); [apply boots_started| |done].
  econstructor; [apply run1|]. econstructor; [|constructor].
  apply step_free_of; [vm_compute; intuition congruence|vm_compute; reflexivity].
Defined.

Lemma calls_return_witness :
  (exists block st', __weavec_rt_alloc 1 (2 ^ 40) 4096 (st1 []) = Some (Done block st'))
  /\ exists why, __weavec_rt_free 1 (small + 16) (st1 []) = Some (Fatal (small + 16) why).
Proof.
  destruct (calls_return pages_here (2 ^ 47) maps 1 (st1 []) 1 (reached1 [])) as (H1 & H2 & _).
  split; [apply H1; lia|]. destruct (H2 (small + 16) ltac:(vm_compute; intuition congruence)) as [(st' & E & _)|(why & E & _)].
  - exfalso. pose proof (f_equal answer E) as X. vm_compute in X. discriminate X.
  - by exists why.
Defined.

(** A root keeps pointing into the released block through a sweep. *)
Lemma stale_pointer_denied_witness :
  addressable (al_shadow (weavecRtSweep (Sys := system_of [small + 8]) 0 (free [small + 8] 0 small (st1 [small + 8]))))
    (small + 40) = false.
Proof.
  pose (sys := system_of [small + 8]).
  refine (proj1 (stale_pointer_denied pages_here (2 ^ 47) (system_maps [small + 8]) 1 (st1 _) (Released 0 small)
           (free [small + 8] 0 small (st1 _)) [Swept 0] _ small 100 (reached1 _) eq_refl _ _ _ _ _ _ _ _)).
  - vm_compute; reflexivity.
  - vm_compute; reflexivity.
  - apply step_free_of; [vm_compute; intuition congruence|vm_compute; reflexivity].
  - constructor.
  - econstructor; [apply step_sweep|constructor].
  - intros k _. exists (small + 8). split; [left|vm_compute; intuition congruence].
  - vm_compute; intuition congruence.
Defined.

(** The block is released, another allocated, the first released again by
    another thread. *)
Definition released : Heap.alloc := free [] 0 small (st1 []).
Definition other : Z := match answer (__weavec_rt_alloc 0 100 0 released) with Some b => b | None => 0 end.
Definition reused : Heap.alloc := alloc [] 0 100 released.

Lemma double_release_witness :
  (exists why, __weavec_rt_free 1 small reused = Some (Fatal small why))
  /\ exists why, __weavec_rt_realloc 1 small 8 reused = Some (Fatal small why).
Proof.
  destruct (double_release pages_here (2 ^ 47) maps 1 (st1 []) (Released 0 small) released [Allocated 0 100 0 other] reused
              1 small 100 (reached1 [])) as [H1 H2]; [reflexivity|vm_compute; reflexivity|reflexivity| |constructor| | | ].
  - apply step_free_of; [vm_compute; intuition congruence|vm_compute; reflexivity].
  - econstructor; [|constructor]. apply step_alloc_of; [lia|vm_compute; reflexivity].
  - constructor; [|constructor]. cbn [hands_out]. intros E. vm_compute in E. discriminate E.
  - split; [exact H1|apply H2; lia].
Defined.

Lemma live_checked_witness :
  addressable (al_shadow (st1 [])) (small + 99) = true /\ addressable (al_shadow (st1 [])) (small + 100) = false.
Proof.
  destruct (live_checked pages_here (2 ^ 47) maps 1 (st1 []) small 100 (small + 99) (reached1 [])) as [H1 _];
    [vm_compute; reflexivity..|vm_compute; intuition congruence|].
  destruct (live_checked pages_here (2 ^ 47) maps 1 (st1 []) small 100 (small + 100) (reached1 [])) as [_ H2];
    [vm_compute; reflexivity..|vm_compute; intuition congruence|].
  split; [apply H1; vm_compute; reflexivity|apply H2; vm_compute; intuition congruence].
Defined.

(** A block of 4 GiB, mapped on its own. *)
Definition giant : Z := match answer (__weavec_rt_alloc 0 (2 ^ 32) 0 (st1 [])) with Some b => b | None => 0 end.
Definition st_giant : Heap.alloc := alloc [] 0 (2 ^ 32) (st1 []).

Lemma alloc_checked_witness :
  addressable (al_shadow st_giant) (giant + 2 ^ 32 - 1) = true /\ al_mem st_giant (giant + 5) = 0.
Proof.
  assert (E : __weavec_rt_alloc 0 (2 ^ 32) 0 (st1 []) = Some (Done giant st_giant))
    by (apply alloc_after; vm_compute; reflexivity).
  destruct (alloc_checked pages_here (2 ^ 47) maps 1 (st1 []) 0 (2 ^ 32) 0 giant st_giant (reached1 [])) as [_ H];
    [lia|lia|exact E|vm_compute; congruence|].
  split; [apply (H (giant + 2 ^ 32 - 1)); lia|apply (H (giant + 5)); lia].
Defined.

Lemma object_exact_witness :
  Allocator.weavecRtHeapObjectAt (small + 50) (st1 []) = mkHeapObject true true small 100.
Proof.
  apply (object_exact pages_here (2 ^ 47) maps 1 (st1 []) (small + 50) (reached1 []));
    [vm_compute; intuition congruence|vm_compute; reflexivity|lia].
Defined.

(** ** Sweeps *)

(** The large block's slot. *)
Definition large_ref : SlotRef := slotOf (al_heap (st2 [])) (large []).

Lemma large_quarantined roots :
  sweepStart (Sys := system_of roots) 0 (st3 roots) = Some (st4 roots)
  /\ quarantined (st4 roots) (ref_region large_ref) (ref_slot large_ref).
Proof.
  split.
  - unfold st4. assert (E : match sweepStart (Sys := system_of roots) 0 (st3 roots) with Some _ => true | None => false end = true)
      by (vm_compute; reflexivity).
    destruct (sweepStart 0 (st3 roots)); [done|discriminate E].
  - exists [ref_slot large_ref]. split; [|left]. vm_compute. intuition congruence.
Qed.

(** A root points into the large block. *)
Lemma sweep_keeps_referenced_witness :
  let sys := system_of [large [] + 12] in
  quarantined (weavecRtSweep (Sys := sys) 0 (st3 [large [] + 12])) (ref_region large_ref) (ref_slot large_ref).
Proof.
  intros sys. pose (roots := [large [] + 12]). destruct (large_quarantined roots) as [H1 H2].
  apply (sweep_keeps_referenced pages_here (2 ^ 47) (system_maps roots) 3 (st3 roots) 0 (st4 roots) _ _ (large [] + 12)
           (reached3 roots) H1); [vm_compute; intuition congruence|exact H2|left; left|].
  vm_compute. intuition congruence.
Defined.

(** No page was written: the memory is zero. *)
Lemma memory_zero a : al_mem (st4 []) a = 0.
Proof.
  assert (E : al_mem (st4 []) = fill_bytes (fun _ => 0) (2 ^ 40) 433791696896 0) by (lazy -[fill_bytes]; reflexivity).
  rewrite E, fill_bytes_eq. by case_decide.
Qed.

Lemma load_zero m a n : (forall x, m x = 0) -> load_le m a n = 0.
Proof. intros Hm. revert a. induction n as [|n IH]; intros a; cbn; [done|]. by rewrite Hm, IH. Qed.

Lemma scanned_zero v : scanned_word (Sys := quiet) (st4 []) v -> v = 0.
Proof.
  unfold scanned_word. intros [Hv|(p & n & i & _ & _ & _ & E)].
  - exfalso. exact (not_elem_of_nil _ Hv).
  - rewrite E. apply load_zero, memory_zero.
Qed.

Lemma large_apart : ~ in_slot (al_heap (st4 [])) (ref_region large_ref) (ref_slot large_ref) 0.
Proof. unfold in_slot. intros [H _]. revert H. apply Z.lt_nge. vm_compute. reflexivity. Qed.

Lemma sweep_recycles_witness :
  free_listed (weavecRtSweep 0 (st3 [])) (ref_region large_ref) (ref_slot large_ref).
Proof.
  destruct (large_quarantined []) as [H1 H2].
  apply (sweep_recycles pages_here (2 ^ 47) maps 3 (st3 []) 0 (st4 []) _ _ (reached3 []) H1);
    [vm_compute; reflexivity| |constructor|vm_compute; intuition congruence|exact H2|].
  - intros a. rewrite memory_zero. split; reflexivity || discriminate.
  - intros v Hv. rewrite (scanned_zero v Hv). exact large_apart.
Defined.
(** ** Caches and slots *)

Definition someCache : ThreadCache := default emptyCache (ownCache 0 (st1 [])).

Lemma cached : ownCache 0 (st1 []) = Some someCache.
Proof.
  unfold someCache. assert (E : match ownCache 0 (st1 []) with Some _ => true | None => false end = true) by (vm_compute; reflexivity).
  destruct (ownCache 0 (st1 [])); [done|discriminate E].
Qed.

(** The class of the blocks of 100 bytes. *)
Definition small_class : Z := al_class (st1 []) (ref_region (slotOf (al_heap (st1 [])) small)).

Lemma cache_entries_witness :
  0 < Z.of_nat (length (tc_alloc someCache small_class)) <= cacheLimit (st1 []) small_class
  /\ NoDup (slotKey <$> tc_alloc someCache small_class).
Proof.
  destruct (cache_entries pages_here (2 ^ 47) maps 1 (st1 []) 0 someCache small_class (reached1 []) cached)
    as (H1 & _ & _ & H4 & _); [vm_compute; intuition congruence|].
  split; [split; [vm_compute; reflexivity|exact H1]|]. rewrite fmap_app in H4. apply list.NoDup_app in H4. apply H4.
Defined.

Lemma popClass_ends_witness :
  exists l st', popClass (weavecRtSweep 0) 0 4 (st0 []) = (Some l, st') /\ (length l <= 4)%nat /\ NoDup (slotKey <$> l).
Proof.
  destruct (popClass_ends pages_here (2 ^ 47) maps 0 (st0 []) 0 0 4 (reached0 [])) as (l & st' & H1 & H2 & H3 & _);
    [vm_compute; intuition congruence|]. exists l, st'. exact (conj H1 (conj H2 H3)).
Defined.

Lemma run_giant : step (st1 []) (Allocated 0 (2 ^ 32) 0 giant) st_giant.
Proof. apply step_alloc_of; [lia|vm_compute; reflexivity]. Qed.

Lemma reached_giant : reachable (2 ^ 47) 2 st_giant.
Proof.
  apply (reached [] [Allocated 0 100 0 small; Allocated 0 (2 ^ 32) 0 giant] st_giant 2); [|done|done].
  econstructor; [apply run1|]. econstructor; [apply run_giant|constructor].
Qed.

Definition giant_block : HugeBlock := nth 0 (ht_blocks (al_huge st_giant)) hugeNone.

Lemma hugeFind_exact_witness : hugeFind (al_huge st_giant) (giant + 2 ^ 31) = Some giant_block.
Proof.
  apply (hugeFind_exact pages_here (2 ^ 47) maps 2 st_giant (giant + 2 ^ 31) giant_block reached_giant).
  split; [|vm_compute; intuition congruence].
  assert (E : length (ht_blocks (al_huge st_giant)) = 1%nat) by (vm_compute; reflexivity).
  unfold giant_block. destruct (ht_blocks (al_huge st_giant)); [discriminate E|left].
Defined.

(** ** Nested calls *)

(** Thread 0 is inside the allocator and holds a lock of its. *)
Definition inside : Heap.alloc :=
  set_cache (st1 []) 0 (mkCache (tc_alloc someCache) (tc_release someCache) (tc_liveDelta someCache) 1 1 []).

Lemma nested_release_waits_witness :
  deferred 0 (after [] (__weavec_rt_free 0 small inside)) = [small] /\ answer (__weavec_rt_free 0 small inside) = Some tt.
Proof.
  destruct (nested_release_waits 0 inside small) as (k & H1 & H2 & _); [done|vm_compute; reflexivity|].
  split; [vm_compute; reflexivity|]. rewrite H2. reflexivity.
Defined.
(** A release that waits, and the thread is outside the allocator again. *)
Definition waiting (self : nat) (ps : list Z) (st : Heap.alloc) : Heap.alloc :=
  set_cache st self (tc_with_deferred (default emptyCache (ownCache self st)) ps).
Definition waits : Heap.alloc := waiting 0 [large []] (st2 []).

Lemma inv_waiting self ps st w :
  alloc_inv st w -> match ownCache self st with Some _ => true | None => false end = true -> alloc_inv (waiting self ps st) w.
Proof.
  intros Hi. unfold waiting. destruct (ownCache self st) as [k|] eqn:Ek; [|done]. intros _.
  exact (proj1 (inv_calls st w self k (tc_with_deferred k ps) Hi Ek eq_refl eq_refl)).
Qed.

Lemma inv_waits : exists w, alloc_inv waits w.
Proof.
  destruct (reachable_sound pages_here (2 ^ 47) maps 2 (st2 []) (reached2 [])) as (_ & _ & w & Hi & _).
  exists w. apply inv_waiting; [exact Hi|vm_compute; reflexivity].
Qed.

Lemma waiting_releases_made_witness :
  exists st', __weavec_rt_free 0 small waits = Some (Done tt st') /\ deferred 0 st' = [].
Proof.
  destruct inv_waits as [w Hi].
  assert (E : deferred 0 waits = [large []]) by (vm_compute; reflexivity).
  pose proof (waiting_releases_made pages_here 0 waits w small Hi) as H. rewrite E in H.
  assert (E' : answer (__weavec_rt_free 0 small waits) = Some tt) by (vm_compute; reflexivity).
  apply answered with (roots := []) in E'. rewrite E' in H |- *.
  eexists. split; [reflexivity|]. apply H.
  - split; reflexivity.
  - constructor; [vm_compute; intuition congruence|constructor].
  - vm_compute; intuition congruence.
  - vm_compute; reflexivity.
  - vm_compute; reflexivity.
Defined.

(** ** The last bytes of a region *)

(** Five blocks of 2^29 - 1 bytes: four fill the first region of their class,
    and the fifth is the first slot of the next. *)
Definition big : Z := 2 ^ 29 - 1.
Definition four : Heap.alloc := alloc [] 0 big (alloc [] 0 big (alloc [] 0 big (alloc [] 0 big (st0 [])))).
Definition five : Heap.alloc := alloc [] 0 big four.
Definition fourth : Z := 1307280670720.

(** The commit of a region's first pages poisons the 16 bytes in front of
    them, which are the last of the region before: the last bytes of a live
    block there no longer pass a guard, although nothing was released. *)
Theorem region_end_poisoned :
  __weavec_rt_alloc 0 big 0 four = Some (Done 1307817541632 five)
  /\ represented fourth five = Some big
  /\ addressable (al_shadow four) (fourth + big - 1) = true
  /\ addressable (al_shadow five) (fourth + big - 1) = false.
Proof.
  split; [apply alloc_after|split_and!]; vm_compute; reflexivity.
Qed.
End Program.
