(* ===== verification/ScanWitnesses.v ===== *)
(** * Scanning and marking at work

    The theorems of ScanFacts and SweepWork at concrete inputs: three lines of
    /proc/self/maps, one of them a thread's stack; and two markers that mark a
    quarantined slot. *)

From stdpp Require Import list relations.
From Stdlib Require Import String Ascii.
From S2P Require Import Prelude Shadow Report Classes Heap HugeBlocks Sweep HeapFacts PopFacts MarkFacts SweepFacts SweepScan ScanFacts SweepWork SweepRoots.
From S2P Require Import Setup Refinement HeapTheorems HeapWitnesses.
Local Open Scope Z_scope.

(** ** Three mappings *)

Module Maps.
(** Code; a heap of four pages, one of them the runtime's; a stack whose stack
    pointer is 24 bytes into its second page. *)
Definition code : mapping := mkMapping 4096 8192 true false true false (textOf " 00000000 08:01 123   ") (textOf "/bin/p").
Definition data : mapping := mkMapping 65536 81920 true true false false (textOf " 00000000 00:00 0") [].
Definition stack : mapping := mkMapping 131072 143360 true true false false (textOf " 00000000 00:00 0") [].
Definition ms : list mapping := [code; data; stack].
Definition own : list range := [(69632, 73728)].
Definition sps : list Z := [131072 + 4096 + 24].

(** Every page is resident but the first of the stack. *)
Definition isResident (page : Z) : bool := negb (page =? 32).
Definition mincore (low bytes : Z) : option (list Z) :=
  if low mod 4096 =? 0 then Some (map (fun k => if isResident (low / 4096 + k) then 1 else 0) (seqZ 0 ((bytes + 4095) / 4096))) else None.
Definition pagemapAt (page count : Z) : option (list Z) := None.

Lemma mincore_here : mincore_ok 4096 mincore isResident.
Proof.
  intros low bytes v. unfold mincore. destruct (Z.eqb_spec (low mod 4096) 0) as [Hm|]; [|done]. intros [= <-]. split; [done|].
  intros k Hk. replace (bytes + 4096 - 1) with (bytes + 4095) in Hk by lia. exists (if isResident (low / 4096 + k) then 1 else 0).
  rewrite list_lookup_fmap, lookup_seqZ_lt by lia. rewrite Z2Nat.id by lia. cbn. split; [done|]. by destruct (isResident _).
Qed.

Lemma pagemap_here : pagemap_ok pagemapAt (fun _ => false).
Proof. done. Qed.

Lemma columns : Forall (fun c => nameStarts c = false) (textOf " 00000000 00:00 0").
Proof. repeat constructor. Qed.

Lemma ms_ok : Forall mapping_ok ms.
Proof.
  repeat constructor; cbn; try lia; try apply columns; try discriminate; intros c [= <-]; reflexivity.
Qed.


(** The text is read; and of the stack, the red zone and above. *)
Example ranges_read :
  scanMappings true 4096 mincore pagemapAt own sps false (mapsText ms)
  = Some [(65536, 69632); (73728, 81920); (135064, 143360)].
Proof. vm_compute. reflexivity. Qed.

(** Below a stack pointer a page that is not resident (swapped out) is not
    read, though the program can write the mapping and may keep another stack
    there. *)
Lemma swapped_stack_unread :
  exists ranges, scanMappings true 4096 mincore pagemapAt own sps false (mapsText ms) = Some ranges
  /\ forall a, 131072 <= a < 135064 -> ~ covered ranges a.
Proof.
  eexists. split; [exact ranges_read|]. intros a Ha Hc. unfold covered in Hc. rewrite !Exists_cons, Exists_nil in Hc.
  unfold inRange in Hc. cbn in Hc. lia.
Qed.
End Maps.

(** ** Two markers *)

Module Markers.
#[local] Existing Instance pages_example.
#[local] Existing Instance Program.quiet.

(** The large block of the program is quarantined, and a word of the root
    [[4096, 4112)] points into it. *)
Definition st : Heap.alloc := set_mem (Program.st4 []) (store_le (al_mem (Program.st4 [])) 4096 8 (Program.large [] + 12)).
Definition roots : list (Z * Z) := [(4096, 4112)].
Lemma slots_mem st m w : slots st w -> slots (set_mem st m) w.
Proof. exact id. Qed.

Lemma slots_here : exists w, slots st w.
Proof.
  destruct (reachable_sound Program.pages_here (2 ^ 47) (Program.system_maps []) 3 _ (Program.reached3 [])) as (_ & _ & w & Hi & _).
  destruct (Program.large_quarantined []) as [H1 _].
  destruct (sweepStart_spec 0 _ _ w Hi H1) as ((w1 & Hi1 & _) & _). exists w1. apply slots_mem, Hi1.
Qed.

Definition root : Work := mkWork 4096 4112 WordsWork.

Lemma items_here : fst (listAll roots st) !! 0%nat = Some root.
Proof. vm_compute. reflexivity. Qed.

Lemma root_words : itemWords (snd (listAll roots st)) root = [Program.large [] + 12; 0].
Proof. vm_compute. reflexivity. Qed.

(** The second marker takes the first item and marks its first word. *)
Lemma take_and_mark (s : listing) item v vs :
  fst s !! 0%nat = Some item -> itemWords (snd s) item = v :: vs ->
  nsteps (markStep (fst s)) 2 (runWork s 2) (mkMarkers 1 [[]; vs] (markAddress (snd s) v)).
Proof.
  intros Hi Hw. apply (nsteps_l _ _ _ (mkMarkers 1 [[]; v :: vs] (snd s))).
  - rewrite <- Hw. exact (mark_take (fst s) (runWork s 2) 1 item eq_refl Hi).
  - apply nsteps_once. exact (mark_word (fst s) (mkMarkers 1 [[]; v :: vs] (snd s)) 1 v vs eq_refl).
Qed.

Definition halfway : markers := mkMarkers 1 [[]; [0]] (markAddress (snd (listAll roots st)) (Program.large [] + 12)).

Lemma two_steps : nsteps (markStep (fst (listAll roots st))) 2 (runWork (listAll roots st) 2) halfway.
Proof. exact (take_and_mark (listAll roots st) root _ _ items_here root_words). Qed.

Lemma roots_here : ranges_ok roots.
Proof. constructor; [|constructor]. repeat split; first [reflexivity|cbn; lia]. Qed.

Lemma workers_same_witness :
  (finished (fst (listAll roots st)) halfway \/ exists m', markStep (fst (listAll roots st)) halfway m')
  /\ (2 <= stepsLeft st (fst (listAll roots st)) (runWork (listAll roots st) 2))%nat
  /\ (finished (fst (listAll roots st)) halfway -> same_state (markAlone roots st) (weavecRtMarkHuge (ma_state halfway))).
Proof.
  destruct slots_here as (w & Hs). exact (workers_same st w roots 2 2 halfway Hs roots_here ltac:(lia) two_steps).
Defined.

(** The quarantined slot is marked. *)
Example slot_marked : marked (ma_state halfway) (ref_region Program.large_ref) (ref_slot Program.large_ref) = true.
Proof. vm_compute. reflexivity. Qed.
End Markers.

(** ** From a mapping to a mark *)

Module Reached.
#[local] Existing Instance pages_example.
#[local] Existing Instance Program.quiet.

(** The first word of the second mapping points into the large block. *)
Definition st : Heap.alloc := set_mem (Program.st4 []) (store_le (al_mem (Program.st4 [])) 65536 8 (Program.large [] + 12)).
Definition region : Z := ref_region Program.large_ref.
Definition slot : Z := ref_slot Program.large_ref.

Lemma word_here : load_le (al_mem st) 65536 8 = Program.large [] + 12.
Proof. vm_compute. reflexivity. Qed.

Lemma slot_here : in_slot (al_heap st) region slot (Program.large [] + 12).
Proof. vm_compute. intuition congruence. Qed.

Lemma prepared_mem st m : prepared st -> prepared (set_mem st m).
Proof. exact id. Qed.

Lemma prepared_here : weavecRtPrepareMarks st = (true, st).
Proof.
  destruct (reachable_sound Program.pages_here (2 ^ 47) (Program.system_maps []) 3 _ (Program.reached3 [])) as (_ & _ & w & Hi & _).
  destruct (Program.large_quarantined []) as [H1 _]. destruct (sweepStart_spec 0 _ _ w Hi H1) as (_ & Hp & _).
  exact (prepared_once st (prepared_mem _ _ Hp)).
Qed.

Lemma region_here : (0 <=? region) && (region <? 160) && (0 <=? slot) = true.
Proof. vm_compute. reflexivity. Qed.

Lemma queued_here : exists w, slots st w /\ w region slot = Queued.
Proof.
  destruct (reachable_sound Program.pages_here (2 ^ 47) (Program.system_maps []) 3 _ (Program.reached3 [])) as (_ & _ & w & Hi & _).
  destruct (Program.large_quarantined []) as [H1 H2]. destruct (sweepStart_spec 0 _ _ w Hi H1) as ((w1 & Hi1 & _) & _).
  exists w1. split; [apply Markers.slots_mem, Hi1|]. pose proof region_here as Hr. bool_hyps.
  apply (quarantined_place (Program.st4 []) w1 region slot (proj1 (proj1 Hi1))); [by split|exact H2].
Qed.

Lemma whole_mappings : Forall (fun m => m_low m mod 8 = 0 /\ m_high m mod 8 = 0) Maps.ms.
Proof. repeat constructor. Qed.

Lemma stacks_aligned : Forall (fun s => s mod 8 = 0) Maps.sps.
Proof. repeat constructor. Qed.

Lemma own_aligned : aligned Maps.own.
Proof. repeat constructor. Qed.

Lemma page_here : exists n, 3 <= n < 62 /\ 4096 = 2 ^ n.
Proof. exists 12. split; [lia|reflexivity]. Qed.

Lemma outside : ~ isInternal Maps.own 65536.
Proof. unfold isInternal, Maps.own. rewrite Exists_cons, Exists_nil. unfold inRange. cbn. lia. Qed.

Lemma data_root :
  rootAt true 4096 Maps.pagemapAt Maps.own Maps.sps Maps.isResident (fun _ => false) false Maps.data 65536.
Proof.
  left. assert (H : Forall (fun s => ~ m_low Maps.data <= s < m_high Maps.data) Maps.sps) by (repeat constructor; cbn; lia).
  intros s Hs. by apply (proj1 (list.Forall_forall _ _) H).
Qed.

End Reached.
