(* ===== verification/CompilerWitnesses.v ===== *)
(** * The compiler's theorems at concrete inputs

    A frame of three locals, two of which share stack; terms of the library
    table; a command line and a link line; a ledger; an arena of 2 GiB
    regions. *)

From Stdlib Require Import String Ascii.
From stdpp Require Import relations gmap strings list.
From S2P Require Import Prelude Shadow Report Guard GuardEntry.
From S2P Require Frames FramesFacts FrameEntry Classes LibTerm LibrarySpec Driver DriverFacts Ledger.
Local Open Scope Z_scope.

(** ** Frames *)

Module Locals.
Import Frames FramesFacts FrameEntry.

#[local] Instance thread : Thread :=
  {| stackLow := 2 ^ 36; stackHigh := 2 ^ 36 + 2 ^ 20; aarch64 := true |}.
#[local] Instance pages : Pages := {| pageBytes := 16384; remaps _ _ := true |}.

Lemma frame_pages_ok : pages_wf.
Proof. exists 14. split; [lia|done]. Qed.

(** A local live throughout, and two of disjoint lives. *)
Definition allocas : list FrameObject :=
  [frameObject 0 8 20 [] []; frameObject 1 16 600 [1%nat] [2%nat]; frameObject 2 16 600 [3%nat] [4%nat]].

Definition never (_ _ : nat) : bool := false.

Definition frame : Frame := layoutStatic never 5 allocas.

Lemma allocas_ok : Forall object_ok allocas.
Proof.
  repeat constructor; try (vm_compute; congruence); [exists 3|exists 4|exists 4]; (split; [lia|reflexivity]).
Qed.

Definition object (i : nat) : FrameObject := nth i (f_objects frame) (frameObject 9 1 1 [] []).

Lemma frame_size : f_size frame = 832.
Proof. vm_compute. reflexivity. Qed.

Definition st : gstate :=
  mkGState shadow_example (mkReports (fun _ => 0) false []) false 0 false (fun _ => 0).

Lemma layout_apart_witness :
  extentEnd (object 0) <= o_offset (object 2) \/ extentEnd (object 2) <= o_offset (object 0).
Proof.
  apply (layout_apart never 5 allocas 0 2 (object 0) (object 2));
    [apply allocas_ok|vm_compute; reflexivity|vm_compute; reflexivity|lia|vm_compute; reflexivity].
Defined.

Definition address : Z := 2 ^ 36 + 1024.

Lemma fits : frame_fits address (f_size frame).
Proof. left. rewrite frame_size. cbn. unfold address. lia. Qed.

Lemma room : address + f_size frame <= 2 ^ s_bits (gs_shadow st).
Proof. rewrite frame_size. change (s_bits (gs_shadow st)) with 42. unfold address. lia. Qed.

Lemma address_pos : 0 <= address.
Proof. unfold address. lia. Qed.

Lemma entry_exact_witness :
  let s' := gs_shadow (snd (run_writeShadow true address (entryRuns frame) st)) in
  addressable s' (address + 768 + 19) = true /\ addressable s' (address + 768 + 20) <> true
  /\ addressable s' (address + 64) <> true.
Proof.
  destruct (entry_exact never 5 allocas true st address allocas_ok frame_pages_ok shadow_example_wf
              address_pos eq_refl room fits) as (_ & H & _).
  fold frame in H. cbv zeta.
  assert (Hno : forall b, b < 768 \/ 788 <= b -> ~ byte_in_scope frame b).
  { intros b Hb (o & Ho & Hs & Hin). apply list_elem_of_In in Ho.
    replace (f_objects frame) with [object 0; object 1; object 2] in Ho by (vm_compute; reflexivity).
    destruct Ho as [<-|[<-|[<-|[]]]]; vm_compute in Hs; [done|done|].
    change (o_offset (object 2)) with 768 in Hin. change (o_size (object 2)) with 20 in Hin. lia. }
  split_and!.
  - rewrite <- Z.add_assoc. apply H; [rewrite frame_size; lia|]. exists (object 2).
    split; [apply list_elem_of_In; vm_compute; tauto|]. split; [reflexivity|].
    change (o_offset (object 2)) with 768. change (o_size (object 2)) with 20. lia.
  - rewrite <- Z.add_assoc, H by (rewrite frame_size; lia). apply Hno. lia.
  - rewrite H by (rewrite frame_size; lia). apply Hno. lia.
Defined.

Lemma scopes_exact_witness :
  let entered := snd (run_writeShadow true address (entryRuns frame) st) in
  addressable (gs_shadow (snd (run_writeShadow true (address + 64)
                (liveRuns (f_objects frame) (object 0)) entered))) (address + 64) = true.
Proof.
  cbv zeta.
  apply (scopes_exact never 5 allocas true st address
           (snd (run_writeShadow true (address + 64) (liveRuns (f_objects frame) (object 0))
                   (snd (run_writeShadow true address (entryRuns frame) st)))) [0%nat]
           allocas_ok frame_pages_ok shadow_example_wf ltac:(reflexivity) address_pos eq_refl room fits).
  - apply rtc_once. fold frame. change 64 with (o_offset (object 0)).
    apply (scope_start never true frame address _ [] 0 (object 0)); [vm_compute; reflexivity..|].
    intros j p Hj. by apply elem_of_nil in Hj.
  - fold frame. rewrite frame_size. lia.
  - exists 0%nat, (object 0). split; [split; [vm_compute; reflexivity|right; left]|].
    change (o_offset (object 0)) with 64. change (o_size (object 0)) with 600. lia.
Defined.
End Locals.

(** ** The arena *)

Module Arena.
Import Classes.

Definition arena : heap := reserve 31 (2 ^ 40 + 4096).

Lemma arena_ok : heap_ok arena.
Proof. apply reserve_ok; [by right|lia|vm_compute; reflexivity]. Qed.

Lemma classFor_exact_witness : 48 < classSize (classFor 48) /\ classSize 2 <= 48 /\ 100 <= classFor (2 ^ 40).
Proof.
  pose proof (classFor_exact 48 ltac:(lia)) as H1. pose proof (classFor_exact (2 ^ 40) ltac:(lia)) as H2.
  change (48 <? 2 ^ 30) with true in H1. change (2 ^ 40 <? 2 ^ 30) with false in H2. cbv iota in H1, H2.
  destruct H1 as (_ & H1 & H3). split; [exact H1|]. split; [apply (H3 2); vm_compute; intuition congruence|exact H2].
Defined.

(** The slot of 48 bytes of index 7, in the region of its class. *)
Lemma slotOf_exact_witness :
  slotOf arena (regionStart arena 2 + 7 * 48 + 47) = mkSlot 2 7 (regionStart arena 2 + 7 * 48).
Proof.
  assert (He : entryOf arena 2 = mkClass 48 1431655766 4 44739242) by (vm_compute; reflexivity).
  destruct (slotOf_exact arena arena_ok 2 7 47) as [_ H]; rewrite ?He; cbn; try lia.
  rewrite He in H. exact H.
Defined.

Lemma slotOf_contains_witness :
  let ref := slotOf arena (h_base arena + 12345) in
  slotWords arena (ref_region ref) + 4 * ref_slot ref + 4 <= slotWords arena (ref_region ref + 1).
Proof.
  cbv zeta. apply (slotOf_contains arena arena_ok (h_base arena + 12345)); vm_compute; intuition congruence.
Defined.

Lemma chosenClass_exact_witness :
  chosenClass 100 24 = None /\ exists c, chosenClass 100 64 = Some c /\ 100 < classSize c.
Proof.
  split.
  - apply (chosenClass_exact arena 100 24 arena_ok); [lia|lia|vm_compute; congruence].
  - exists (classFor 127). assert (Hc : chosenClass 100 64 = Some (classFor 127)) by (vm_compute; reflexivity).
    split; [exact Hc|]. 
    apply (proj2 (chosenClass_exact arena 100 64 arena_ok ltac:(lia) ltac:(lia)) (classFor 127) Hc).
    vm_compute. reflexivity.
Defined.

Lemma heap_colors_witness :
  weavecRtColorOfHeap arena (regionStart arena 2 + 7 * 48 + 0)
  <> weavecRtColorOfHeap arena (regionStart arena 2 + 8 * 48 + 47).
Proof.
  assert (He : entryOf arena 2 = mkClass 48 1431655766 4 44739242) by (vm_compute; reflexivity).
  destruct (heap_colors arena 2 7 8 0 47 arena_ok) as [H _]; rewrite ?He; cbn; try lia.
  cbv zeta in H. rewrite He in H. exact H.
Defined.
End Arena.

(** ** Terms of the library table *)

Module Terms.
Import LibTerm.

(** [a0] is -7 and [a1] is 5; no string length is known. *)
Definition values : Values := mkValues (Some (fun i => Some (if i =? 0 then -7 else 5))) None.

Definition halved : LibTerm := Sum (Quotient (Argument 0) 2) (Product (Argument 1) (Constant 3)).

Lemma evaluate_exact_witness :
  denotes values halved 11 /\ parse "a0/2+a1*3" = inl halved.
Proof.
  split; [|vm_compute; reflexivity].
  apply (evaluate_exact values halved 11).
  - split; [|done]. intros i x. cbn. destruct (i =? 0); intros [= <-]; unfold int64, int64_min, int64_max; lia.
  - cbn. unfold int64_max. lia.
  - cbn. split; [|done]. split; [done|]. intros x Hx. inversion Hx; subst. cbn in *. simplify_eq.
    right. unfold int64_max. lia.
  - vm_compute. reflexivity.
Defined.

Definition nested : LibTerm :=
  Difference (Min (Product (Sum (Argument 1) (Constant 1)) (Argument 2)) (StringLength 0)) 4.

Lemma parse_str_witness : str nested = "min((a1+1)*a2,strlen(a0))-4"%string /\ parse (str nested) = inl nested.
Proof.
  split; [vm_compute; reflexivity|].
  apply (parse_str nested); cbn; unfold int64_max; [lia|done].
Defined.

Lemma read_fuel_witness :
  fst (sum 100 (mkReader "a0*a1 rest" "")) = Some (Product (Argument 0) (Argument 1)).
Proof.
  rewrite (read_fuel "a0*a1 rest" "" 100) by (apply Nat.leb_le; vm_compute; reflexivity).
  vm_compute. reflexivity.
Defined.
End Terms.

(** ** The command line *)

Module CommandLines.
Import Driver DriverFacts.

#[local] Instance toolchain : Toolchain :=
  {| extension arg := if String.eqb arg "a.c" then ".c" else "";
     isSourceExtension ext := String.eqb ext "c";
     defaultTriple := "x86_64-unknown-linux-gnu";
     isArch64Bit triple := is_contained ["x86_64-unknown-linux-gnu"; "aarch64-apple-darwin"] triple;
     isOSDarwin triple := String.eqb triple "aarch64-apple-darwin";
     isOSLinux triple := is_contained ["x86_64-unknown-linux-gnu"; "i386-unknown-linux-gnu"] triple;
     isGNUEnvironment triple := String.eqb triple "x86_64-unknown-linux-gnu";
     resourceIncludeDir := "/lib/clang/include";
     defaultSysroot := "" |}.

Definition args : list string :=
  ["-O2"; "-fweavec-checks=report"; "a.c"; "-fno-weavec-colors"; "-fweavec-rpath=/rt"].

Definition driven_options : DriverOptions :=
  match runDriver ("weavec-cc" :: args) with Build o _ _ => o | _ => defaultOptions end.
Definition driven_args : list string :=
  match runDriver ("weavec-cc" :: args) with Build _ a _ => a | _ => [] end.

Lemma driven_build : runDriver ("weavec-cc"%string :: args) = Build driven_options driven_args "".
Proof. vm_compute. reflexivity. Qed.

Lemma cc1_options_witness :
  exists p, cc1Flags ["-emit-obj"; "-fweavec-checks=report"; "-O2"; "-fno-weavec-colors"] defaultOptions []
            = inr (p, ["-emit-obj"; "-O2"]%string)
  /\ checks p = CReport /\ colors p = false.
Proof.
  destruct (cc1_options "weavec-cc" args driven_options driven_args ""
    ["-emit-obj"; "-fweavec-checks=report"; "-O2"; "-fno-weavec-colors"] driven_build eq_refl)
    as (p & Hp & Hcore).
  exists p. split; [exact Hp|]. apply core_eq in Hcore as (_ & Hc & _ & _ & Hcol & _).
  rewrite Hc, Hcol. vm_compute. split; reflexivity.
Defined.

(** A build for another target, named apart, whose operand is no flag. *)
Definition cross : list string := ["-fweavec-checks=trap"; "-target"; "aarch64-apple-darwin"; "-fsanitize=undefined"; "a.c"].

Lemma enforcing_build_served_witness :
  unserved "-fsanitize=undefined,thread"
  /\ exists o clang, runDriver ("weavec-cc"%string :: cross) = Build o clang "" /\ enforces o = true
     /\ ~ unserved "-fsanitize=undefined" /\ isArch64Bit "aarch64-apple-darwin" = true
  /\ exists o clang off, runDriver ["weavec-cc"; "--target=i386-unknown-linux-gnu"; "a.c"]%string = Build o clang off
     /\ enforces o = false.
Proof.
  split; [right; exists "thread"%string; split; [cbn; auto|]; exists "undefined,"%string, ""%string; split; [done|];
          split; [right; by exists "undefined"%string|by left]|].
  destruct (runDriver ("weavec-cc"%string :: cross)) as [| |o clang off] eqn:E; [vm_compute in E; discriminate..|].
  assert (Hoff : off = ""%string) by (vm_compute in E; injection E as <- <- <-; reflexivity). subst off.
  assert (He : enforces o = true) by (vm_compute in E; injection E as <- <-; reflexivity).
  exists o, clang. split; [reflexivity|]. split; [exact He|].
  destruct (enforcing_build_served "weavec-cc" cross o clang ""
    ["-target"; "-fsanitize=undefined"; "a.c"] (Some "aarch64-apple-darwin"%string) E He) as (_ & Hf & H64 & _).
  { change (List.filter (fun a => negb (isWeavecFlag a)) cross)
      with ["-target"; "aarch64-apple-darwin"; "-fsanitize=undefined"; "a.c"]%string.
    apply (names_apart "-target" "aarch64-apple-darwin" ["-fsanitize=undefined"; "a.c"]%string ["-fsanitize=undefined"; "a.c"]%string None); [cbn; auto|].
    apply (names_flag "-fsanitize=undefined" ["a.c"%string] ["a.c"%string] None); [by intros [?|[?|[]]]|done|].
    apply (names_flag "a.c" [] [] None); [by intros [?|[?|[]]]|done|]. apply names_nil. }
  split; [apply Hf; cbn; auto|]. split; [exact H64|]. eexists _, _, _. split; vm_compute; reflexivity.
Defined.

(** A link of a shared runtime, inside a whole-archive region. *)
Definition line : list string :=
  ["-o"; "a.out"; "a.o"; "--whole-archive"; "-lfoo"; "--no-whole-archive"; "-lc"].

Lemma neutral_path (path : string) : ltrim "-" path = path -> String.eqb path "whole-archive" = false ->
  String.eqb path "no-whole-archive" = false -> neutral path.
Proof. intros Hl Hw Hn whole. unfold wholeStep. by rewrite Hl, Hw, Hn. Qed.

Lemma link_line_witness :
  linkLine line "/rt/libw.so" "/rt" "/rt/libw.a" false true
  = ["-o"; "a.out"; "a.o"; "--whole-archive"; "/rt/libw.so"; "-rpath"; "/rt";
     "--no-whole-archive"; "/rt/libw.a"; "--whole-archive"; "-lpthread";
     "-lfoo"; "--no-whole-archive"; "-lc"]%string
  /\ exists before added from, line = before ++ from
     /\ linkLine line "/rt/libw.so" "/rt" "/rt/libw.a" false true
        = before ++ ("/rt/libw.so"%string :: added) ++ from.
Proof.
  split; [vm_compute; reflexivity|].
  destruct (link_line line "/rt/libw.so" "/rt" "/rt/libw.a" false true eq_refl
    (neutral_path "/rt/libw.so" eq_refl eq_refl eq_refl) (neutral_path "/rt" eq_refl eq_refl eq_refl)
    (neutral_path "/rt/libw.a" eq_refl eq_refl eq_refl)) as (before & added & from & Ho & Hl & _).
  exists before, added, from. split; [exact Ho|exact Hl].
Defined.
End CommandLines.

(** ** The ledger *)

Module Decisions.
Import Ledger.Ledger Ledger.LedgerFacts.

Definition row (line : Z) (o : Outcome) : LedgerRow :=
  mkRow "f" "a.c" line 1 "read" 4 o "".

(** Two guards, the first inlined twice and one copy of it removed, the second
    removed; and an access proven before. *)
Definition events : list event :=
  [Add (row 1 Guarded); Add (row 2 Guarded); Add (row 3 Proven);
   Copy 0 true ""; Copy 0 false "redundant"; Copy 1 false "dominated"].

Lemma ledger_exact_witness :
  let l := finish (run events) in
  guarded l = 1 /\ proven l = 2 /\ accesses l = 3
  /\ rows l !! 1%nat = Some (settled (row 2 Guarded) Proven "dominated").
Proof.
  destruct (ledger_exact events eq_refl) as (Hl & Hr & Hg & Hp & Hu & Ha).
  cbv zeta in *. split; [|split; [|split]].
  - rewrite Hg. vm_compute. reflexivity.
  - rewrite Hp. vm_compute. reflexivity.
  - rewrite Ha. vm_compute. reflexivity.
  - rewrite (Hr 1%nat (row 2 Guarded) eq_refl). vm_compute. reflexivity.
Defined.
End Decisions.
